(* ===== verification/_CoqProject ===== *)
-Q . S2P
Prelude.v
Bytes.v
Strconv.v
Hlc.v
Version.v
Conflict.v
Storage.v
Command.v
Uvarint.v
Keys.v
Ctx.v
CtxLogic.v
Budget.v
ShardSM.v
Samples.v
Snapshot.v
Ledger.v
BudgetRefine.v
ShardFrame.v
ShardUpdate.v
BudgetSystem.v
Elements.v
ElementSystem.v
Batching.v
Api.v
ApiSystem.v
LeaseCache.v
LeaseSystem.v
LeaseSafety.v
Meta.v
Control.v
Records.v
RecordSamples.v
RecordStore.v
RecordRefine.v
RecordRepair.v
OutLog.v
Applier.v
GlobalSystem.v
Float64.v
LatencyGraph.v
Membership.v
MembershipSafety.v
Placement.v
LocalRepl.v
RepairHeap.v
Cache.v
CacheSafety.v
Kv.v
KvSpec.v
KvSystem.v
KvSafety.v
KvSync.v
Graph.v
GraphSpec.v
GraphExact.v
CypherSyntax.v
CypherTotal.v
CypherPrint.v
CypherRound.v
CypherText.v
CypherExec.v
CypherMatch.v
CypherOrder.v
CypherWrite.v
CypherDeviations.v
