(* ===== verification/Prelude.v ===== *)
(** * WaveSpan: a verification development

    WaveSpan is a geo-distributed store written in Go. A node keeps versioned key-value
    records that replicate between clusters without coordination (the record path), and
    typed collections (sets, hashes, sorted sets, leased budgets) that are replicated by
    Raft shards (the collection path). A property graph is kept in a local store and queried
    in a subset of Cypher (the graph path). This library translates the three paths into
    executable Rocq functions and proves that they do what they are meant to. Paths below
    are relative to src/.

    ** Parts and files

    Foundations.
    - [Prelude]: results with errors, machine-width integers, tactics, list lemmas.
      [Bytes], [Strconv], [Uvarint]: the parts of Go's standard library the code uses.
    - [Hlc], [Version], [Conflict]: the hybrid logical clock, versions and the resolvers
      (internal/version, internal/conflict).
    - [Storage]: the store interface with its contract as a type class, and the in-memory
      store as an instance (internal/storage). Everything above is proved against the
      contract.

    The collection path (internal/collections).
    - [Command], [Keys]: the encodings of log entries and the key layout of a shard.
    - [Ctx], [CtxLogic]: the apply context of a batch as a state-and-error monad, and a
      logic for its handlers. [ShardSM]: the state machine, [Update] and [Lookup].
      [ShardFrame], [ShardUpdate]: what handlers may write, and the whole of [Update].
    - [Budget], [Ledger], [BudgetRefine], [BudgetSystem]: leased budgets, the abstract
      ledger, and the refinement between them for a handler and for a whole shard.
    - [Elements], [ElementSystem], [Batching]: sets, hashes and sorted sets against finite
      maps, for a command, for a shard and for any cutting of the log into batches.
    - [Snapshot]: snapshots and recovery. [Meta], [Control]: the range directory, hash
      routing, splits and merges over raft calls that can fail at any step.
    - [Api], [ApiSystem]: the typed operations of a node and their meaning end to end.
    - [LeaseCache], [LeaseSystem], [LeaseSafety]: the lease cache of a budget holder
      (sdk/go/leasedbudget.go) and a system of holders, a lossy network and a shard.

    The record path.
    - [Records], [RecordStore], [RecordRefine], [RecordRepair]: messages and keys, the
      record store, its refinement of a map of last-write-wins winners, and the repair of
      a restored cut (internal/recordstore, internal/storage/envelope.go).
    - [OutLog], [Applier], [GlobalSystem]: the outbound log and its sender, the applier and
      anti-entropy, and a system of clusters (internal/replication/global,
      cmd/wavespan-node/main.go).
    - [Membership], [MembershipSafety], [LatencyGraph], [Placement]: the roster and its
      gossip, latency edges and scores over IEEE doubles ([Float64]), and the choice of
      replicas (internal/membership, internal/latencygraph, internal/placement).
    - [LocalRepl], [RepairHeap]: replication inside a cluster, its receiver, repair queue,
      fill worker and anti-entropy (internal/replication/local, internal/grpcsrv).
    - [Cache], [CacheSafety]: filters, sketches, the peer directory, fetches, eviction and
      subscriptions (internal/cache).
    - [Kv], [KvSpec]: the coordinator, reader, scanner and expiry sweep of one node
      (internal/kv, internal/ttl). [KvSystem], [KvSafety], [KvSync]: a cluster of such nodes
      over a lossy network that restarts, and what its acknowledgements mean.
    - [Samples], [RecordSamples]: concrete values the theorems are instantiated at.

    The graph path (internal/graph, internal/cypher).
    - [Graph], [GraphSpec], [GraphExact]: records, keys, indexes and their rebuild; the
      abstract graph of the last records written, the invariant that ties the two families
      of rows to it, and the queries that answer from it.
    - [CypherSyntax]: the lexer, the syntax trees and the parser. [CypherTotal]: it always
      returns. [CypherPrint], [CypherRound], [CypherText]: a printer of expressions, of
      clauses and of the text, and that the parser reads back what they print.
    - [CypherExec]: the planner, the evaluation of expressions, every operator, the writes,
      the procedures and the query call of the service. [CypherMatch], [CypherOrder],
      [CypherWrite]: what MATCH, ORDER BY, DELETE and SET mean on the abstract graph.
      [CypherDeviations]: queries that do not do what they say.

    ** How the code is translated

    Structs are records, enums inductive types, byte slices lists of bytes; integers are
    [Z] wrapped to their Go width after each operation that can leave it. A function that
    returns an error is a function into [res]; one that mutates takes and returns the
    state. Locks make an operation one step. Go's maps are finite maps, and a loop over
    one is given in an order no result depends on, or in an order that is an argument. Clocks, random identities, channels and
    remote calls are arguments: clock readings, functions of the state of the world, or
    events of a step relation that lose, delay and repeat what is sent. Third-party code is
    a parameter: the protobuf codec is a class with its round-trip law ([Records.Proto]),
    float64 text and addition a class without laws ([ShardSM.FloatText]), the consensus engine
    a function that answers each call, the backends of a query records of operations. Each
    class has a concrete instance.

    ** What is shown

    - Money: every budget of every reachable shard is in a state of the ledger, and what is
      available, leased out and attested as spent stays within the cap; the conservation
      probe holds without external reconciles; a grant retried with other stamps answers as
      the first; holders together never serve more than the cap; pacing.
    - Collections: [Update] never fails, skips poison entries without a trace, stays under
      its prefix; batches mean their commands on finite maps; counters are exact; keyed
      retries apply once; snapshots restore; the set, hash and sorted-set calls of the API
      return what they mean.
    - Routing: directory rows refine a finite map; a split moves exactly its range, the rows
      of its collections and of their expiring members, and loses none of them when it is
      interrupted; indexes of budgets and the dedup window stay behind.
    - Records: replicas that receive the same records in any order agree; paging ends and
      misses nothing; the repair of a cut is sound; clusters converge over a network that
      loses messages, and the outbound log has no gap.
    - Clusters: an acknowledged write is on as many nodes as its answer says, in any
      interleaving; the holder directory is true; anti-entropy makes two nodes agree;
      the acknowledgement rule, routed scans and batch reads are exact; repairs pop in the
      order of urgency.
    - Caches and membership: an announced key is fetched from its holder; eviction drops
      the idle cache replicas and, where durable keys are promoted, no durable one; sketches of unions are exact; gossip agrees in any order, silent
      members are reclaimed, and placement returns exactly the admitted members.
    - Graphs: reads, scans and seeks are exact after any batches (a seek for a zero may miss
      the zero of the other sign), adjacency queries where edges keep their ends, and a
      rebuild makes them exact again; the parser is total and reads back every printed
      query; a MATCH of plain patterns with its RETURN answers exactly what the patterns
      mean and fails only by a limit on its rows; ORDER BY is a stable sort; DELETE and SET
      on current rows change exactly what they name.
    - Encodings: commands, batches, budget records, scores and snapshots round-trip.
    - Deviations: theorems that evaluate the code on an input where it does not do what its
      documentation says; the findings of the manifest name them.

    ** Bounds and fuel

    Loops that are not structural take fuel: the fuel given is the length of the data they
    consume, and the theorems show that the result is reached. Retry loops that the code
    leaves to a context or to a limit take that number as an argument. Theorems on machine
    integers assume caps below 2^62 and lengths below 2^32 (or 2^31), as the encodings
    need; the run length of the holder system is bounded by the width of a nonce.

    ** Not modelled

    The persistent store (a third-party engine, files and the operating system), the Raft
    library and its transport, RPC services and dialling, goroutine scheduling beyond the
    interleavings above, the proposer's queue, peer discovery, latency probes, the
    logarithm of a sketch's estimate, the scatter of query fragments over RPC, vector search
    and its procedures, backup, tunables, security, observability, user interface,
    benchmarks, the Kubernetes operator and generated code. Go's stable sort is an insertion sort up to twenty
    elements and merges such blocks beyond; ORDER BY is modelled by the insertion sort
    throughout, and its theorem determines the result. *)

From stdpp Require Export prelude gmap list sorting.
From Stdlib Require Export ZArith Lia.

Global Set Default Proof Using "Type".

(** ** Results

    A Go function that returns [(T, error)] is a function into [res E T]; the
    error type [E] lists the sentinels (or wrapped errors) the function can
    return. *)

Inductive res (E A : Type) : Type :=
  | Ok (a : A)
  | Err (e : E).
Arguments Ok {E A} a.
Arguments Err {E A} e.

Definition res_bind {E A B} (m : res E A) (f : A → res E B) : res E B :=
  match m with Ok a => f a | Err e => Err e end.

Definition res_map {E A B} (f : A → B) (m : res E A) : res E B :=
  match m with Ok a => Ok (f a) | Err e => Err e end.


Declare Scope go_scope.
Delimit Scope go_scope with go.
Open Scope go_scope.

Notation "'do?' p ← m ; k" :=
  (res_bind m (λ x, match x with p => k end))
  (at level 100, p pattern at level 0, m at level 90, k at level 200,
   right associativity, format "'do?'  p  ←  m ; '//' k") : go_scope.

Lemma res_bind_Ok {E A B} (m : res E A) (f : A → res E B) b :
  res_bind m f = Ok b ↔ ∃ a, m = Ok a ∧ f a = Ok b.
Proof. destruct m; naive_solver. Qed.

Lemma res_bind_Err {E A B} (m : res E A) (f : A → res E B) e :
  res_bind m f = Err e ↔ m = Err e ∨ ∃ a, m = Ok a ∧ f a = Err e.
Proof. destruct m; naive_solver. Qed.

(** ** Machine integers

    Go integers are kept as [Z]; every arithmetic operation of the source
    whose result can leave its width is written with the wrap-around of that
    width. *)

Local Open Scope Z_scope.

Definition uint8 (z : Z) : Z := z mod 2 ^ 8.
Definition uint32 (z : Z) : Z := z mod 2 ^ 32.
Definition uint64 (z : Z) : Z := z mod 2 ^ 64.
Definition int64 (z : Z) : Z := (z + 2 ^ 63) mod 2 ^ 64 - 2 ^ 63.

Definition in_u32 (z : Z) : Prop := 0 ≤ z < 2 ^ 32.
Definition in_u64 (z : Z) : Prop := 0 ≤ z < 2 ^ 64.
Definition in_i64 (z : Z) : Prop := - 2 ^ 63 ≤ z < 2 ^ 63.

(** The width predicates as [lia] facts. *)
Ltac unfold_width := unfold in_u32, in_u64, in_i64 in *.
Ltac zlia := unfold_width; lia.

(** [lia] with division and remainder by a constant. *)
Ltac divlia := unfold_width; Z.to_euclidean_division_equations; lia.

Lemma uint32_id z : in_u32 z → uint32 z = z.
Proof. intros ?. apply Z.mod_small. zlia. Qed.
Lemma uint64_id z : in_u64 z → uint64 z = z.
Proof. intros ?. apply Z.mod_small. zlia. Qed.
Lemma int64_id z : in_i64 z → int64 z = z.
Proof. intros ?. unfold int64. rewrite Z.mod_small; zlia. Qed.

Lemma uint32_range z : in_u32 (uint32 z).
Proof. apply Z.mod_pos_bound. lia. Qed.
Lemma uint64_range z : in_u64 (uint64 z).
Proof. apply Z.mod_pos_bound. lia. Qed.
Lemma int64_range z : in_i64 (int64 z).
Proof.
  unfold int64, in_i64.
  pose proof (Z.mod_pos_bound (z + 2 ^ 63) (2 ^ 64) ltac:(lia)). lia.
Qed.

(** [int64 (uint64 z)] and [uint64 (int64 z)]: the two's-complement casts. *)
Lemma int64_uint64 z : int64 (uint64 z) = int64 z.
Proof.
  unfold int64, uint64. f_equal.
  rewrite <-(Z.add_mod_idemp_l z) by lia. done.
Qed.
Lemma uint64_int64 z : uint64 (int64 z) = uint64 z.
Proof.
  unfold int64, uint64.
  rewrite Zminus_mod_idemp_l. f_equal. lia.
Qed.
Lemma int64_cast z : in_i64 z → int64 (uint64 z) = z.
Proof. intros ?. rewrite int64_uint64. by apply int64_id. Qed.
Lemma uint64_cast z : in_u64 z → uint64 (int64 z) = z.
Proof. intros ?. rewrite uint64_int64. by apply uint64_id. Qed.

(** Wrapping is compatible with addition. *)
Lemma int64_add_l z c : int64 (int64 z + c) = int64 (z + c).
Proof. unfold int64. divlia. Qed.

Create HintDb width.
Create Rewrite HintDb width.
#[export] Hint Resolve uint32_range uint64_range int64_range : width.
#[export] Hint Rewrite int64_uint64 uint64_int64 : width.

Global Opaque uint32 uint64 int64.
