(* ===== verification/Bytes.v ===== *)
(** * Byte strings

    Go's [[]byte] and [string] as [list byte]; big-endian integers
    (encoding/binary), lexicographic comparison (bytes.Compare,
    strings.Compare) and the prefix arithmetic of range scans. *)

From S2P Require Import Prelude.
From Stdlib Require Export Strings.Byte.
From Stdlib Require String.
From stdpp Require Export strings.

Local Open Scope Z_scope.

(** ** Bytes *)

Abbreviation bytes := (list byte).

#[export] Instance byte_eq_dec : EqDecision byte := Byte.byte_eq_dec.

#[export] Instance byte_countable : Countable byte :=
  inj_countable Byte.to_N Byte.of_N Byte.of_to_N.

Definition byteZ (b : byte) : Z := Z.of_N (Byte.to_N b).

Definition Zbyte (z : Z) : byte :=
  match Byte.of_N (Z.to_N (z mod 256)) with Some b => b | None => x00 end.

(** A string literal of the source. *)
Definition lit (s : String.string) : bytes := String.list_byte_of_string s.
Arguments lit s%_string.

Lemma byteZ_range b : 0 ≤ byteZ b < 256.
Proof. unfold byteZ. pose proof (Byte.to_N_bounded b). lia. Qed.

Lemma Zbyte_byteZ b : Zbyte (byteZ b) = b.
Proof.
  unfold Zbyte. rewrite Z.mod_small by apply byteZ_range.
  unfold byteZ. by rewrite N2Z.id, Byte.of_to_N.
Qed.

Lemma byteZ_Zbyte z : byteZ (Zbyte z) = z mod 256.
Proof.
  unfold Zbyte, byteZ. pose proof (Z.mod_pos_bound z 256 ltac:(lia)).
  destruct (Byte.of_N _) as [b|] eqn:E.
  - apply Byte.to_of_N in E. rewrite E. lia.
  - apply Byte.of_N_None_iff in E. lia.
Qed.

#[export] Instance byteZ_inj : Inj (=) (=) byteZ.
Proof. intros a b E. by rewrite <-(Zbyte_byteZ a), <-(Zbyte_byteZ b), E. Qed.

Lemma Zbyte_mod z : Zbyte (z mod 256) = Zbyte z.
Proof. unfold Zbyte. by rewrite Z.mod_mod. Qed.

(** ** Big-endian integers: encoding/binary's [BigEndian] *)

Fixpoint be_bytes (n : nat) (z : Z) : bytes :=
  match n with
  | O => []
  | S n' => Zbyte (z / 256 ^ Z.of_nat n') :: be_bytes n' z
  end.

Fixpoint be_val (l : bytes) : Z :=
  match l with
  | [] => 0
  | b :: l' => byteZ b * 256 ^ Z.of_nat (length l') + be_val l'
  end.

Lemma length_be_bytes n z : length (be_bytes n z) = n.
Proof. induction n; simpl; auto. Qed.

Lemma be_val_range l : 0 ≤ be_val l < 256 ^ Z.of_nat (length l).
Proof.
  induction l as [|b l IH]; simpl length; [simpl; lia|].
  rewrite Nat2Z.inj_succ, Z.pow_succ_r by lia. simpl be_val.
  pose proof (byteZ_range b).
  assert (byteZ b * 256 ^ Z.of_nat (length l) ≤ 255 * 256 ^ Z.of_nat (length l)) by nia.
  nia.
Qed.

Lemma be_val_bytes n z : be_val (be_bytes n z) = z mod 256 ^ Z.of_nat n.
Proof.
  induction n as [|n IH]; [by rewrite Z.mod_1_r|].
  simpl be_bytes. simpl be_val. rewrite IH, length_be_bytes, byteZ_Zbyte.
  rewrite Nat2Z.inj_succ, Z.pow_succ_r, (Z.mul_comm 256) by lia.
  rewrite Z.rem_mul_r by lia. lia.
Qed.

Lemma be_val_inj l1 l2 :
  length l1 = length l2 → be_val l1 = be_val l2 → l1 = l2.
Proof.
  revert l2. induction l1 as [|a l1 IH]; intros [|b l2] Hl; simpl in *; try done.
  intros E. injection Hl as Hl. rewrite Hl in E.
  pose proof (be_val_range l1). pose proof (be_val_range l2). rewrite Hl in *.
  assert (byteZ a = byteZ b) by nia.
  f_equal; [by apply (inj byteZ)|apply IH; [done|nia]].
Qed.

Lemma be_bytes_val l : be_bytes (length l) (be_val l) = l.
Proof.
  apply be_val_inj; [apply length_be_bytes|].
  rewrite be_val_bytes. apply Z.mod_small, be_val_range.
Qed.

Lemma be_bytes_inj n z1 z2 :
  be_bytes n z1 = be_bytes n z2 → z1 mod 256 ^ Z.of_nat n = z2 mod 256 ^ Z.of_nat n.
Proof. intros E. by rewrite <-!be_val_bytes, E. Qed.

(** Dropping or splitting past an encoded field of known length. *)
Lemma drop_app_field {A} n (l k : list A) : length l = n → drop n (l ++ k) = k.
Proof. intros <-. by apply drop_app_length. Qed.
Lemma take_app_field {A} n (l k : list A) : length l = n → take n (l ++ k) = l.
Proof. intros <-. by apply take_app_length. Qed.

(** [binary.BigEndian.PutUint64] / [Uint64] and the 32-bit pair. [get_u64 b]
    reads [b[:8]]; the callers check the length first, or see a panic. *)
Definition put_u64 (z : Z) : bytes := be_bytes 8 z.
Definition put_u32 (z : Z) : bytes := be_bytes 4 z.
Definition get_u64 (b : bytes) : Z := be_val (take 8 b).
Definition get_u32 (b : bytes) : Z := be_val (take 4 b).

Lemma length_put_u64 z : length (put_u64 z) = 8%nat.
Proof. apply length_be_bytes. Qed.
Lemma length_put_u32 z : length (put_u32 z) = 4%nat.
Proof. apply length_be_bytes. Qed.

Lemma get_u64_range b : in_u64 (get_u64 b).
Proof.
  unfold get_u64. pose proof (be_val_range (take 8 b)) as H.
  assert (256 ^ Z.of_nat (length (take 8 b)) ≤ 256 ^ 8).
  { apply Z.pow_le_mono_r; [lia|]. rewrite length_take. lia. }
  zlia.
Qed.
Lemma get_u32_range b : in_u32 (get_u32 b).
Proof.
  unfold get_u32. pose proof (be_val_range (take 4 b)) as H.
  assert (256 ^ Z.of_nat (length (take 4 b)) ≤ 256 ^ 4).
  { apply Z.pow_le_mono_r; [lia|]. rewrite length_take. lia. }
  zlia.
Qed.

Lemma get_put_u64 z b : in_u64 z → get_u64 (put_u64 z ++ b) = z.
Proof.
  intros Hz. unfold get_u64, put_u64.
  rewrite take_app_field by apply length_be_bytes.
  rewrite be_val_bytes. apply Z.mod_small. zlia.
Qed.
Lemma get_put_u32 z b : in_u32 z → get_u32 (put_u32 z ++ b) = z.
Proof.
  intros Hz. unfold get_u32, put_u32.
  rewrite take_app_field by apply length_be_bytes.
  rewrite be_val_bytes. apply Z.mod_small. zlia.
Qed.
Lemma put_get_u64 b : (8 ≤ length b)%nat → put_u64 (get_u64 b) = take 8 b.
Proof.
  intros Hb. unfold put_u64, get_u64.
  rewrite <-(be_bytes_val (take 8 b)) at 2. f_equal. rewrite length_take. lia.
Qed.
Lemma put_get_u32 b : (4 ≤ length b)%nat → put_u32 (get_u32 b) = take 4 b.
Proof.
  intros Hb. unfold put_u32, get_u32.
  rewrite <-(be_bytes_val (take 4 b)) at 2. f_equal. rewrite length_take. lia.
Qed.
Lemma put_u64_inj z1 z2 : in_u64 z1 → in_u64 z2 → put_u64 z1 = put_u64 z2 → z1 = z2.
Proof. intros ?? E%be_bytes_inj. rewrite !Z.mod_small in E; zlia. Qed.

(** ** FNV hashes (hash/fnv) *)

Definition fnvOffset64 : Z := 14695981039346656037.
Definition fnvPrime64 : Z := 1099511628211.

(** FNV-1a and FNV-1. *)
Definition fnv64a (b : bytes) : Z := fold_left (λ h c, uint64 (Z.lxor h (byteZ c) * fnvPrime64)) b fnvOffset64.
Definition fnv64 (b : bytes) : Z := fold_left (λ h c, Z.lxor (uint64 (h * fnvPrime64)) (byteZ c)) b fnvOffset64.

Lemma fnv64a_range b : in_u64 (fnv64a b).
Proof.
  unfold fnv64a. assert (in_u64 fnvOffset64) as H0 by (unfold in_u64, fnvOffset64; lia). revert H0. generalize fnvOffset64 as h.
  induction b as [|c b IH]; intros h Hh; [done|]. apply IH, uint64_range.
Qed.

(** [putI64]/[getI64] of budget.go: the same bytes through the int64/uint64
    casts. *)
Definition putI64 (v : Z) : bytes := put_u64 (uint64 v).
Definition getI64 (b : bytes) : Z := int64 (get_u64 b).

Lemma length_putI64 v : length (putI64 v) = 8%nat.
Proof. apply length_put_u64. Qed.
Lemma getI64_range b : in_i64 (getI64 b).
Proof. apply int64_range. Qed.
Lemma get_putI64 v b : in_i64 v → getI64 (putI64 v ++ b) = v.
Proof.
  intros. unfold getI64, putI64.
  rewrite get_put_u64 by apply uint64_range. by apply int64_cast.
Qed.
Lemma putI64_inj v1 v2 : in_i64 v1 → in_i64 v2 → putI64 v1 = putI64 v2 → v1 = v2.
Proof.
  intros H1 H2 E. rewrite <-(get_putI64 v1 []), <-(get_putI64 v2 []) by done.
  by rewrite E.
Qed.

#[export] Hint Resolve get_u64_range get_u32_range getI64_range : width.


(** ** Lexicographic order: [bytes.Compare] and [strings.Compare] *)

Fixpoint bcompare (l1 l2 : bytes) : comparison :=
  match l1, l2 with
  | [], [] => Eq
  | [], _ :: _ => Lt
  | _ :: _, [] => Gt
  | a :: l1', b :: l2' =>
      match Z.compare (byteZ a) (byteZ b) with
      | Eq => bcompare l1' l2'
      | c => c
      end
  end.

Definition bytes_lt (l1 l2 : bytes) : Prop := bcompare l1 l2 = Lt.
Definition bytes_le (l1 l2 : bytes) : Prop := bcompare l1 l2 ≠ Gt.

#[export] Instance bytes_lt_dec : RelDecision bytes_lt.
Proof. unfold bytes_lt. intros l1 l2. apply _. Defined.
#[export] Instance bytes_le_dec : RelDecision bytes_le.
Proof. unfold bytes_le. intros l1 l2. apply _. Defined.

Lemma bcompare_refl l : bcompare l l = Eq.
Proof. induction l as [|a l IH]; simpl; [done|]. by rewrite Z.compare_refl. Qed.

Lemma bcompare_eq l1 l2 : bcompare l1 l2 = Eq ↔ l1 = l2.
Proof.
  split; [|intros ->; apply bcompare_refl].
  revert l2. induction l1 as [|a l1 IH]; intros [|b l2]; simpl; try done.
  destruct (Z.compare_spec (byteZ a) (byteZ b)) as [E|E|E]; try done.
  intros H. f_equal; [by apply (inj byteZ)|auto].
Qed.

Lemma bcompare_antisym l1 l2 : bcompare l2 l1 = CompOpp (bcompare l1 l2).
Proof.
  revert l2. induction l1 as [|a l1 IH]; intros [|b l2]; simpl; try done.
  rewrite (Z.compare_antisym (byteZ a) (byteZ b)).
  destruct (Z.compare _ _); simpl; auto.
Qed.

Lemma bytes_lt_trans l1 l2 l3 : bytes_lt l1 l2 → bytes_lt l2 l3 → bytes_lt l1 l3.
Proof.
  unfold bytes_lt. revert l2 l3.
  induction l1 as [|a l1 IH]; intros [|b l2] [|c l3]; simpl; try done.
  destruct (Z.compare_spec (byteZ a) (byteZ b)), (Z.compare_spec (byteZ b) (byteZ c)),
    (Z.compare_spec (byteZ a) (byteZ c)); try done; try lia; eauto.
Qed.

Lemma bytes_le_lteq l1 l2 : bytes_le l1 l2 ↔ bytes_lt l1 l2 ∨ l1 = l2.
Proof.
  unfold bytes_le, bytes_lt. rewrite <-bcompare_eq.
  destruct (bcompare l1 l2); naive_solver.
Qed.

Lemma bytes_lt_nle l1 l2 : bytes_lt l1 l2 ↔ ¬ bytes_le l2 l1.
Proof.
  unfold bytes_le, bytes_lt. rewrite (bcompare_antisym l1 l2).
  destruct (bcompare l1 l2); naive_solver.
Qed.

#[export] Instance bytes_le_trans : Transitive bytes_le.
Proof.
  intros l1 l2 l3 [H1| ->]%bytes_le_lteq [H2| ->]%bytes_le_lteq;
    apply bytes_le_lteq; eauto using bytes_lt_trans.
Qed.
#[export] Instance bytes_le_refl : Reflexive bytes_le.
Proof. intros l. apply bytes_le_lteq. by right. Qed.
#[export] Instance bytes_le_total : Total bytes_le.
Proof.
  intros l1 l2. unfold bytes_le. rewrite (bcompare_antisym l1 l2).
  destruct (bcompare l1 l2); naive_solver.
Qed.
#[export] Instance bytes_le_antisymm : AntiSymm (=) bytes_le.
Proof.
  intros l1 l2 H1 [H2|]%bytes_le_lteq; [|done].
  by apply bytes_lt_nle in H2.
Qed.

(** Big-endian encodings of the same width compare as the integers do: this is
    what makes the expiry-ordered and score-ordered indexes ordered. *)
Lemma bcompare_be_val l1 l2 :
  length l1 = length l2 → bcompare l1 l2 = Z.compare (be_val l1) (be_val l2).
Proof.
  revert l2. induction l1 as [|a l1 IH]; intros [|b l2] Hl; simpl in *; try done.
  injection Hl as Hl. rewrite (IH l2 Hl), Hl.
  pose proof (be_val_range l1). pose proof (be_val_range l2). rewrite Hl in *.
  destruct (Z.compare_spec (byteZ a) (byteZ b)) as [E|E|E].
  - rewrite E. symmetry. destruct (Z.compare_spec (be_val l1) (be_val l2)).
    + apply Z.compare_eq_iff. lia.
    + apply Z.compare_lt_iff. lia.
    + apply Z.compare_gt_iff. lia.
  - symmetry. apply Z.compare_lt_iff. nia.
  - symmetry. apply Z.compare_gt_iff. nia.
Qed.

Lemma bcompare_put_u64 z1 z2 :
  in_u64 z1 → in_u64 z2 → bcompare (put_u64 z1) (put_u64 z2) = Z.compare z1 z2.
Proof.
  intros H1 H2. rewrite bcompare_be_val by (by rewrite !length_put_u64).
  unfold put_u64. rewrite !be_val_bytes, !Z.mod_small by zlia. done.
Qed.

Lemma bcompare_app_same_length l1 l2 k1 k2 :
  length l1 = length l2 →
  bcompare (l1 ++ k1) (l2 ++ k2) =
    match bcompare l1 l2 with Eq => bcompare k1 k2 | c => c end.
Proof.
  revert l2. induction l1 as [|a l1 IH]; intros [|b l2] Hl; simpl in *; try done.
  destruct (Z.compare _ _); auto.
Qed.

Lemma bcompare_app_l p k1 k2 : bcompare (p ++ k1) (p ++ k2) = bcompare k1 k2.
Proof. rewrite bcompare_app_same_length by done. by rewrite bcompare_refl. Qed.

(** ** [prefixEnd] (command.go)

    The loop walks the copy from its last byte and increments the first byte
    that is not 0xff; [nil] (here [None]) means "no upper bound". *)

Fixpoint prefixEnd_loop (r : bytes) : option bytes :=
  match r with
  | [] => None
  | b :: r' =>
      if decide (b = xff) then prefixEnd_loop r'
      else Some (rev (Zbyte (byteZ b + 1) :: r'))
  end.

Definition prefixEnd (p : bytes) : option bytes := prefixEnd_loop (rev p).

(** [k] is inside the scan bounds [[start, end)]; [None] is Go's [nil] bound. *)
Definition in_bounds (start stop : option bytes) (k : bytes) : Prop :=
  (match start with Some s => bytes_le s k | None => True end) ∧
  (match stop with Some e => bytes_lt k e | None => True end).

#[export] Instance in_bounds_dec start stop k : Decision (in_bounds start stop k).
Proof. unfold in_bounds. destruct start, stop; apply _. Defined.

Lemma prefixEnd_cons b p :
  prefixEnd (b :: p) =
    match prefixEnd p with
    | Some e => Some (b :: e)
    | None => if decide (b = xff) then None else Some [Zbyte (byteZ b + 1)]
    end.
Proof.
  unfold prefixEnd. simpl rev. generalize (rev p). intros r.
  induction r as [|a r IH]; simpl; [by destruct (decide _)|].
  destruct (decide (a = xff)); [done|].
  by rewrite rev_app_distr.
Qed.

Lemma byteZ_succ b : b ≠ xff → byteZ (Zbyte (byteZ b + 1)) = byteZ b + 1.
Proof.
  intros Hb. rewrite byteZ_Zbyte. apply Z.mod_small.
  pose proof (byteZ_range b).
  assert (byteZ b ≠ byteZ xff) by (intros E; by apply (inj byteZ) in E).
  change (byteZ xff) with 255 in *. lia.
Qed.

(** Every key lies in [[p, prefixEnd p)] exactly when [p] is a prefix of it. *)
Lemma prefixEnd_spec p k : in_bounds (Some p) (prefixEnd p) k ↔ p `prefix_of` k.
Proof.
  revert k. unfold in_bounds, bytes_le, bytes_lt.
  induction p as [|b p IH]; intros k.
  { split; [intros _; apply prefix_nil|]. by destruct k. }
  rewrite prefixEnd_cons. destruct k as [|c k].
  { split; [by intros [??]|]. by intros ?%prefix_nil_inv. }
  simpl. pose proof (byteZ_range c).
  destruct (Z.compare_spec (byteZ b) (byteZ c)) as [E|E|E].
  - apply (inj byteZ) in E as <-.
    trans (p `prefix_of` k); [rewrite <-(IH k)|].
    + destruct (prefixEnd p) as [e|]; [by rewrite Z.compare_refl|].
      destruct (decide (b = xff)); [done|]. rewrite byteZ_succ by done.
      destruct (Z.compare_spec (byteZ b) (byteZ b + 1)); [lia|naive_solver|lia].
    + split; [apply prefix_cons|apply prefix_cons_inv_2].
  - split; [|intros ->%prefix_cons_inv_1; lia]. intros [_ H'].
    destruct (prefixEnd p) as [e|].
    + destruct (Z.compare_spec (byteZ c) (byteZ b)); done || lia.
    + destruct (decide (b = xff)) as [->|].
      * change (byteZ xff) with 255 in *. lia.
      * rewrite byteZ_succ in H' by done.
        destruct (Z.compare_spec (byteZ c) (byteZ b + 1)); [by destruct k|lia|done].
  - split; [by intros [? _]|]. intros ->%prefix_cons_inv_1. lia.
Qed.

(** ** Total comparison functions

    The orders the program composes (timestamps, versions, index keys) are
    lexicographic products of integer and byte-string comparisons. *)

Class TotalCmp {A} (cmp : A → A → comparison) : Prop := {
  cmp_eq a b : cmp a b = Eq ↔ a = b;
  cmp_antisym a b : cmp b a = CompOpp (cmp a b);
  cmp_lt_trans a b c : cmp a b = Lt → cmp b c = Lt → cmp a c = Lt;
}.

#[export] Instance Z_compare_total : TotalCmp Z.compare.
Proof.
  split.
  - apply Z.compare_eq_iff.
  - intros. apply Z.compare_antisym.
  - intros a b c. rewrite !Z.compare_lt_iff. lia.
Qed.

#[export] Instance bcompare_total : TotalCmp bcompare.
Proof.
  split; [apply bcompare_eq|intros; apply bcompare_antisym|].
  intros a b c. apply bytes_lt_trans.
Qed.

Definition cmp_pair {A B} (c1 : A → A → comparison) (c2 : B → B → comparison)
    (x y : A * B) : comparison :=
  match c1 x.1 y.1 with Eq => c2 x.2 y.2 | c => c end.

#[export] Instance cmp_pair_total {A B} (c1 : A → A → comparison) (c2 : B → B → comparison) :
  TotalCmp c1 → TotalCmp c2 → TotalCmp (cmp_pair c1 c2).
Proof.
  intros H1 H2. unfold cmp_pair. split.
  - intros [a1 a2] [b1 b2]; simpl. pose proof (cmp_eq (cmp:=c1) a1 b1).
    pose proof (cmp_eq (cmp:=c2) a2 b2). destruct (c1 a1 b1); naive_solver.
  - intros [a1 a2] [b1 b2]; simpl. rewrite (cmp_antisym (cmp:=c1) a1 b1).
    destruct (c1 a1 b1); simpl; auto. apply cmp_antisym.
  - intros [a1 a2] [b1 b2] [d1 d2]; simpl.
    destruct (c1 a1 b1) eqn:E1; [apply cmp_eq in E1 as ->| |done].
    + destruct (c1 b1 d1); try done. by apply cmp_lt_trans.
    + destruct (c1 b1 d1) eqn:E2; [apply cmp_eq in E2 as <-| |done].
      * by rewrite E1.
      * by rewrite (cmp_lt_trans _ _ _ E1 E2).
Qed.

Lemma cmp_refl {A} (cmp : A → A → comparison) `{!TotalCmp cmp} a : cmp a a = Eq.
Proof. by apply cmp_eq. Qed.

Lemma cmp_gt_lt {A} (cmp : A → A → comparison) `{!TotalCmp cmp} a b :
  cmp a b = Gt ↔ cmp b a = Lt.
Proof. rewrite (cmp_antisym (cmp:=cmp) a b). destruct (cmp a b); naive_solver. Qed.

(** Go's three-way results. *)
Definition cmpZ (c : comparison) : Z := match c with Eq => 0 | Lt => -1 | Gt => 1 end.

Definition strings_Compare (a b : bytes) : Z := cmpZ (bcompare a b).

Global Opaque put_u64 put_u32 get_u64 get_u32 putI64 getI64 lit.
