(* ===== verification/Strconv.v ===== *)
(** * Decimal integers (Go's strconv, as the source uses it)

    [FormatUint(n, 10)], [FormatInt(n, 10)] and [ParseInt(s, 10, 64)]. *)

From S2P Require Import Prelude Bytes.

Local Open Scope Z_scope.

Module Strconv.

Definition digit (z : Z) : byte := Zbyte (48 + z).

(** Digits are produced from the least significant one; twenty are enough for
    a 64-bit value. *)
Fixpoint format_loop (fuel : nat) (z : Z) (acc : bytes) : bytes :=
  match fuel with
  | O => acc
  | S fuel' =>
      let acc' := digit (z mod 10) :: acc in
      if z <? 10 then acc' else format_loop fuel' (z / 10) acc'
  end.

Definition FormatUint (z : Z) : bytes := format_loop 20 z [].

Definition minus : byte := x2d.
Definition plus : byte := x2b.

Definition FormatInt (z : Z) : bytes :=
  if z <? 0 then minus :: FormatUint (- z) else FormatUint z.

Definition digit_val (b : byte) : option Z :=
  if (48 <=? byteZ b) && (byteZ b <=? 57) then Some (byteZ b - 48) else None.

Fixpoint parse_digits (acc : Z) (s : bytes) : option Z :=
  match s with
  | [] => Some acc
  | b :: s' => match digit_val b with
               | Some d => parse_digits (acc * 10 + d) s'
               | None => None
               end
  end.

(** [None] stands for both of strconv's errors (syntax and range). *)
Definition ParseUint (s : bytes) : option Z :=
  match s with
  | [] => None
  | _ => match parse_digits 0 s with
         | Some n => if n <? 2 ^ 64 then Some n else None
         | None => None
         end
  end.

Definition ParseInt (s : bytes) : option Z :=
  match s with
  | [] => None
  | b :: s' =>
      let neg := bool_decide (b = minus) in
      let body := if neg || bool_decide (b = plus) then s' else s in
      match ParseUint body with
      | None => None
      | Some un =>
          if negb neg && (2 ^ 63 <=? un) then None
          else if neg && (2 ^ 63 <? un) then None
          else Some (if neg then - un else un)
      end
  end.

(** ** Round trip *)

Lemma digit_val_digit z : 0 ≤ z < 10 → digit_val (digit z) = Some z.
Proof.
  intros Hz. unfold digit_val, digit. rewrite byteZ_Zbyte, Z.mod_small by lia.
  destruct (Z.leb_spec 48 (48 + z)), (Z.leb_spec (48 + z) 57); simpl; try lia.
  f_equal. lia.
Qed.

Definition is_digit (b : byte) : Prop := is_Some (digit_val b).

Lemma parse_digits_format fuel z acc a :
  0 ≤ z < 10 ^ Z.of_nat fuel →
  ∃ k, 0 ≤ k ∧ z < 10 ^ k ∧ ∃ f, format_loop fuel z acc = f ++ acc ∧ Forall is_digit f ∧
    (0 < fuel → f ≠ [])%nat ∧
    ∀ s, parse_digits a (f ++ s) = parse_digits (a * 10 ^ k + z) s.
Proof.
  revert z acc. induction fuel as [|fuel IH]; intros z acc Hz; simpl.
  { exists 0. simpl in *. split_and!; try lia. exists []. split_and!; try done.
    - lia.
    - intros s. simpl. f_equal. lia. }
  assert (is_digit (digit (z mod 10))).
  { exists (z mod 10). apply digit_val_digit. divlia. }
  destruct (Z.ltb_spec z 10).
  - exists 1. split_and!; try lia. eexists [_]. split_and!; try done.
    + by constructor.
    + intros s. simpl. rewrite digit_val_digit by divlia.
      f_equal. rewrite Z.mod_small; lia.
  - destruct (IH (z / 10) (digit (z mod 10) :: acc)) as (k & Hk & Hlt & f & E & Hf & _ & Hp).
    { rewrite Nat2Z.inj_succ, Z.pow_succ_r in Hz by lia. divlia. }
    exists (k + 1). rewrite Z.pow_add_r by lia. split_and!; [lia|divlia|].
    exists (f ++ [digit (z mod 10)]). split_and!.
    + rewrite E. by rewrite <-app_assoc.
    + apply Forall_app. by repeat constructor.
    + by destruct f.
    + intros s. rewrite <-app_assoc, Hp. simpl. rewrite digit_val_digit by divlia.
      f_equal. divlia.
Qed.

Lemma FormatUint_spec z :
  in_u64 z → FormatUint z ≠ [] ∧ Forall is_digit (FormatUint z) ∧
             parse_digits 0 (FormatUint z) = Some z.
Proof.
  intros Hz. unfold FormatUint.
  destruct (parse_digits_format 20 z [] 0) as (k & Hk & Hlt & f & E & Hf & Hn & Hp); [zlia|].
  rewrite app_nil_r in E. rewrite E. repeat split; [apply Hn; lia|done|].
  rewrite <-(app_nil_r f), Hp. simpl. done.
Qed.

Lemma ParseUint_FormatUint z : in_u64 z → ParseUint (FormatUint z) = Some z.
Proof.
  intros Hz. destruct (FormatUint_spec z Hz) as (Hn & _ & Hp).
  unfold ParseUint. destruct (FormatUint z) as [|b l]; [done|]. rewrite Hp.
  destruct (Z.ltb_spec z (2 ^ 64)); [done|zlia].
Qed.

Lemma FormatUint_inj z1 z2 :
  in_u64 z1 → in_u64 z2 → FormatUint z1 = FormatUint z2 → z1 = z2.
Proof.
  intros H1 H2 E. assert (Some z1 = Some z2) as [=]; [|done].
  by rewrite <-!ParseUint_FormatUint, E by done.
Qed.

(** The sign characters are not digits. *)
Lemma is_digit_sign b : is_digit b → b ≠ minus ∧ b ≠ plus.
Proof. intros [d Hd]. split; intros ->; done. Qed.

Lemma ParseInt_FormatInt z : in_i64 z → ParseInt (FormatInt z) = Some z.
Proof.
  intros Hz. unfold FormatInt. destruct (Z.ltb_spec z 0).
  - unfold ParseInt. rewrite bool_decide_eq_true_2 by done. simpl.
    rewrite ParseUint_FormatUint by zlia.
    destruct (Z.ltb_spec (2 ^ 63) (- z)); [zlia|]. f_equal. lia.
  - destruct (FormatUint_spec z ltac:(zlia)) as (Hn & Hd & _).
    pose proof (ParseUint_FormatUint z ltac:(zlia)) as Hp.
    unfold ParseInt. destruct (FormatUint z) as [|b l]; [done|].
    apply Forall_cons in Hd as [[Hm Hpl]%is_digit_sign _].
    rewrite !bool_decide_eq_false_2 by done. cbn [orb]. rewrite Hp. simpl.
    destruct (Z.leb_spec (2 ^ 63) z); [zlia|done].
Qed.

End Strconv.
