(* ===== verification/Hlc.v ===== *)
(** * The hybrid logical clock (internal/version/hlc.go)

    [Timestamp], [Clock] and its two events [Now] and [Update]. The wall clock
    is read once per event, so each event takes the reading as an argument; the
    mutex makes an event atomic, so a clock is a state threaded through the
    sequence of events ([run]). *)

From S2P Require Import Prelude.

Local Open Scope Z_scope.

Module Hlc.

Definition maxLogical : Z := 0xFFFF.

Record Timestamp := mkTimestamp { PhysicalMs : Z; Logical : Z }.

#[export] Instance Timestamp_eq_dec : EqDecision Timestamp.
Proof. solve_decision. Defined.

Definition cmpUint64 (a b : Z) : Z :=
  if a <? b then -1 else if b <? a then 1 else 0.
Definition cmpUint32 (a b : Z) : Z :=
  if a <? b then -1 else if b <? a then 1 else 0.

Definition Timestamp_Compare (t o : Timestamp) : Z :=
  if negb (PhysicalMs t =? PhysicalMs o)
  then cmpUint64 (PhysicalMs t) (PhysicalMs o)
  else cmpUint32 (Logical t) (Logical o).

Definition max64 (a b : Z) : Z := if b <? a then a else b.
Definition max32 (a b : Z) : Z := if b <? a then a else b.

Record SkewError := mkSkewError { RemoteMs : Z; WallMs : Z; MaxSkewMs : Z }.

Record Clock := mkClock { last : Timestamp; maxSkewMs : Z; skewRejects : Z }.

(** [NewClock]: a zero skew bound defaults to 500 ms. *)
Definition NewClock (maxSkew : Z) : Clock :=
  mkClock (mkTimestamp 0 0) (if maxSkew =? 0 then 500 else maxSkew) 0.

(** [normalize]'s loop carries whole multiples of 2^16 of the logical counter
    into the physical part, one per iteration. *)
Fixpoint normalize_loop (fuel : nat) (phys logical : Z) : Timestamp :=
  match fuel with
  | O => mkTimestamp phys logical
  | S fuel' =>
      if maxLogical <? logical
      then normalize_loop fuel' (uint64 (phys + 1)) (uint32 (logical - (maxLogical + 1)))
      else mkTimestamp phys logical
  end.

Definition normalize (phys logical : Z) : Timestamp :=
  normalize_loop (Z.to_nat (logical / (maxLogical + 1))) phys logical.

Definition Now (wall : Z) (c : Clock) : Timestamp * Clock :=
  let phys := max64 (PhysicalMs (last c)) wall in
  let logical := if phys =? PhysicalMs (last c) then uint32 (Logical (last c) + 1) else 0 in
  let t := normalize phys logical in
  (t, mkClock t (maxSkewMs c) (skewRejects c)).

Definition Update (wall : Z) (remote : Timestamp) (c : Clock)
    : res SkewError Timestamp * Clock :=
  if uint64 (wall + maxSkewMs c) <? PhysicalMs remote
  then (Err (mkSkewError (PhysicalMs remote) wall (maxSkewMs c)),
        mkClock (last c) (maxSkewMs c) (uint64 (skewRejects c + 1)))
  else
    let phys := max64 (max64 (PhysicalMs (last c)) (PhysicalMs remote)) wall in
    let logical :=
      if (phys =? PhysicalMs (last c)) && (phys =? PhysicalMs remote)
      then uint32 (max32 (Logical (last c)) (Logical remote) + 1)
      else if phys =? PhysicalMs (last c) then uint32 (Logical (last c) + 1)
      else if phys =? PhysicalMs remote then uint32 (Logical remote + 1)
      else 0 in
    let t := normalize phys logical in
    (Ok t, mkClock t (maxSkewMs c) (skewRejects c)).

(** ** Order on timestamps *)

Definition ts_lt (t o : Timestamp) : Prop :=
  PhysicalMs t < PhysicalMs o ∨ (PhysicalMs t = PhysicalMs o ∧ Logical t < Logical o).

Lemma Timestamp_Compare_lt t o : Timestamp_Compare t o = -1 ↔ ts_lt t o.
Proof.
  unfold Timestamp_Compare, ts_lt, cmpUint64, cmpUint32.
  destruct (Z.eqb_spec (PhysicalMs t) (PhysicalMs o)); simpl;
    repeat case_match; lia.
Qed.

Lemma ts_lt_trans t1 t2 t3 : ts_lt t1 t2 → ts_lt t2 t3 → ts_lt t1 t3.
Proof. unfold ts_lt. lia. Qed.

(** A stamp the clock itself can hold: a 16-bit logical counter. *)
Definition ts_wf (t : Timestamp) : Prop := 0 ≤ PhysicalMs t ∧ 0 ≤ Logical t ≤ maxLogical.

(** ** [normalize] *)

Lemma normalize_loop_eq fuel phys logical :
  in_u32 logical → 0 ≤ phys → Z.to_nat (logical / 65536) = fuel →
  phys + logical / 65536 < 2 ^ 64 →
  normalize_loop fuel phys logical =
    mkTimestamp (phys + logical / 65536) (logical mod 65536).
Proof.
  unfold in_u32. revert phys logical.
  induction fuel as [|fuel IH]; intros phys logical Hl Hp Hf Hb; simpl.
  { f_equal; divlia. }
  unfold maxLogical. change (0xFFFF + 1) with 65536.
  destruct (Z.ltb_spec 0xFFFF logical); [|divlia].
  rewrite uint64_id, uint32_id by divlia.
  assert ((logical - 65536) / 65536 = logical / 65536 - 1) as E.
  { replace (logical - 65536) with (logical + (-1) * 65536) by lia.
    rewrite Z.div_add by lia. lia. }
  rewrite IH; [|lia..]. rewrite E. f_equal; [lia|].
  replace (logical - 65536) with (logical + (-1) * 65536) by lia.
  by rewrite Z.mod_add by lia.
Qed.

Lemma normalize_eq phys logical :
  in_u32 logical → 0 ≤ phys → phys + logical / 65536 < 2 ^ 64 →
  normalize phys logical = mkTimestamp (phys + logical / 65536) (logical mod 65536).
Proof. intros. by apply normalize_loop_eq. Qed.

(** The stamp after normalisation is 16-bit and has the value
    [phys * 2^16 + logical] it started from, so it orders as that number. *)
Definition ts_val (t : Timestamp) : Z := PhysicalMs t * 65536 + Logical t.

Lemma normalize_spec phys logical :
  in_u32 logical → 0 ≤ phys → phys + 65536 < 2 ^ 64 →
  ts_wf (normalize phys logical) ∧
  ts_val (normalize phys logical) = phys * 65536 + logical.
Proof.
  intros Hl Hp Hb. unfold in_u32 in *.
  rewrite normalize_eq by divlia.
  unfold ts_wf, ts_val, maxLogical; simpl. divlia.
Qed.

Lemma ts_lt_val t o : ts_wf t → ts_wf o → ts_lt t o ↔ ts_val t < ts_val o.
Proof. unfold ts_lt, ts_wf, ts_val, maxLogical. lia. Qed.

(** ** One event *)

(** A physical part that leaves room for the carry of one event. *)
Definition phys_ok (p : Z) : Prop := 0 ≤ p ∧ p + 65536 < 2 ^ 64.

Lemma max64_max a b : max64 a b = Z.max a b.
Proof. unfold max64. destruct (Z.ltb_spec b a); lia. Qed.
Lemma max32_max a b : max32 a b = Z.max a b.
Proof. unfold max32. destruct (Z.ltb_spec b a); lia. Qed.

(** The stamp of an event: the carry of [phys] and a [logical] that is
    [1 + l] for every source stamp [(phys, l)] ends strictly above it. *)
Lemma normalize_above t phys logical :
  in_u32 logical → phys_ok phys → 0 ≤ Logical t →
  PhysicalMs t ≤ phys → (PhysicalMs t = phys → Logical t < logical) →
  ts_lt t (normalize phys logical).
Proof.
  intros Hl [Hp Hb] Ht Hle Heq.
  rewrite normalize_eq by divlia. unfold ts_lt; simpl.
  destruct (Z.eq_dec (PhysicalMs t) phys) as [E|]; [specialize (Heq E)|]; divlia.
Qed.

Lemma normalize_phys phys logical :
  in_u32 logical → phys_ok phys →
  phys ≤ PhysicalMs (normalize phys logical) ≤ phys + 65536 ∧
  (logical ≤ 65536 → PhysicalMs (normalize phys logical) ≤ phys + 1).
Proof. intros Hl [Hp Hb]. rewrite normalize_eq by divlia. simpl. divlia. Qed.

Definition clock_ok (c : Clock) : Prop := ts_wf (last c) ∧ phys_ok (PhysicalMs (last c)).

Lemma Now_spec wall c t c' :
  clock_ok c → phys_ok wall → Now wall c = (t, c') →
  last c' = t ∧ maxSkewMs c' = maxSkewMs c ∧ ts_wf t ∧ ts_lt (last c) t ∧
  wall ≤ PhysicalMs t ≤ Z.max (PhysicalMs (last c)) wall + 1.
Proof.
  unfold Now. intros [Hwf Hp] Hw. rewrite max64_max.
  match goal with |- context [normalize ?p _] => set (phys := p) end.
  match goal with |- context [normalize _ ?l] => set (logical := l) end. intros [= <- <-]. simpl.
  assert (phys_ok phys) by (unfold phys_ok in *; lia).
  unfold ts_wf, maxLogical in Hwf.
  assert (in_u32 logical ∧ logical ≤ 65536 ∧
          (PhysicalMs (last c) = phys → Logical (last c) < logical)) as (Hl & Hl' & Heq).
  { subst logical. destruct (Z.eqb_spec phys (PhysicalMs (last c))); [|zlia].
    rewrite uint32_id by zlia. zlia. }
  destruct (normalize_phys phys logical) as [? Hub]; [done..|]. specialize (Hub Hl').
  split_and!; try done; try lia.
  - apply normalize_spec; unfold phys_ok in *; try done; lia.
  - apply normalize_above; try done; lia.
Qed.

Lemma Update_spec wall remote c t c' :
  clock_ok c → phys_ok wall → phys_ok (PhysicalMs remote) →
  0 ≤ Logical remote < 2 ^ 32 - 1 → Update wall remote c = (Ok t, c') →
  last c' = t ∧ maxSkewMs c' = maxSkewMs c ∧ ts_wf t ∧ ts_lt (last c) t ∧ ts_lt remote t ∧
  wall ≤ PhysicalMs t ≤
    Z.max (Z.max (PhysicalMs (last c)) (PhysicalMs remote)) wall + 65536.
Proof.
  unfold Update. intros [Hwf Hp] Hw Hr Hlr.
  destruct (Z.ltb_spec (uint64 (wall + maxSkewMs c)) (PhysicalMs remote)); [done|].
  rewrite !max64_max, ?max32_max.
  match goal with |- context [normalize ?p _] => set (phys := p) end.
  match goal with |- context [normalize _ ?l] => set (logical := l) end. intros [= <- <-]. simpl.
  assert (phys_ok phys) by (unfold phys_ok in *; lia).
  unfold ts_wf, maxLogical in Hwf.
  assert (in_u32 logical ∧ (PhysicalMs (last c) = phys → Logical (last c) < logical) ∧
          (PhysicalMs remote = phys → Logical remote < logical)) as (Hl & Heq & Heq').
  { subst logical. destruct (Z.eqb_spec phys (PhysicalMs (last c))),
      (Z.eqb_spec phys (PhysicalMs remote)); simpl;
      rewrite ?uint32_id by zlia; zlia. }
  destruct (normalize_phys phys logical) as [? _]; [done..|].
  split_and!; try done; try lia.
  - apply normalize_spec; unfold phys_ok in *; try done; lia.
  - apply normalize_above; try done; lia.
  - apply normalize_above; try done; lia.
Qed.

(** ** Sequences of events *)

Inductive event := EvNow (wall : Z) | EvUpdate (wall : Z) (remote : Timestamp).

(** The stamps a clock issues along a sequence of events; a rejected remote
    stamp issues none. *)
Fixpoint run (c : Clock) (es : list event) : list Timestamp * Clock :=
  match es with
  | [] => ([], c)
  | EvNow wall :: es' =>
      let '(t, c1) := Now wall c in
      let '(ts, c2) := run c1 es' in (t :: ts, c2)
  | EvUpdate wall remote :: es' =>
      match Update wall remote c with
      | (Ok t, c1) => let '(ts, c2) := run c1 es' in (t :: ts, c2)
      | (Err _, c1) => run c1 es'
      end
  end.

(** The inputs of an event, bounded by [B]. The logical part of a remote stamp
    is below its 32-bit maximum. *)
Definition event_ok (B : Z) (e : event) : Prop :=
  match e with
  | EvNow wall => 0 ≤ wall ≤ B
  | EvUpdate wall remote =>
      0 ≤ wall ≤ B ∧ 0 ≤ PhysicalMs remote ≤ B ∧ 0 ≤ Logical remote < 2 ^ 32 - 1
  end.

Lemma run_above B c es :
  0 ≤ B → B + 65536 * (Z.of_nat (length es) + 1) < 2 ^ 64 →
  ts_wf (last c) → PhysicalMs (last c) ≤ B → Forall (event_ok B) es →
  StronglySorted ts_lt (last c :: (run c es).1).
Proof.
  revert B c. induction es as [|e es IH]; intros B c HB Hlen Hwf Hc Hes; cbn [run].
  { repeat constructor. }
  apply Forall_cons in Hes as [He Hes]. simpl length in Hlen.
  assert (clock_ok c) as Hok by (unfold clock_ok, phys_ok, ts_wf in *; lia).
  assert (∀ t c1, last c1 = t → ts_wf t → ts_lt (last c) t → PhysicalMs t ≤ B + 65536 →
    StronglySorted ts_lt (last c :: t :: (run c1 es).1)) as Hnext.
  { intros t c1 <- Hwt Hlt Hpt.
    assert (StronglySorted ts_lt (last c1 :: (run c1 es).1)) as Hs.
    { apply (IH (B + 65536)); try done; [lia..|].
      eapply Forall_impl; [done|]. intros [] ?; unfold event_ok in *; lia. }
    constructor; [done|]. apply StronglySorted_cons in Hs as [Hs _].
    constructor; [done|]. eapply Forall_impl; [done|]. eauto using ts_lt_trans. }
  destruct e as [wall|wall remote]; simpl in He.
  - destruct (Now wall c) as [t c1] eqn:E.
    apply Now_spec in E as (?&?&?&?&?); [|first [done | unfold phys_ok; lia]..].
    specialize (Hnext t c1). destruct (run c1 es). apply Hnext; try done. lia.
  - destruct (Update wall remote c) as [[t|e] c1] eqn:E.
    + apply Update_spec in E as (?&?&?&?&?&?); [|first [done | unfold phys_ok; lia]..].
      specialize (Hnext t c1). destruct (run c1 es). apply Hnext; try done. lia.
    + assert (last c1 = last c) as El.
      { revert E. unfold Update. destruct (_ <? _); [|done]. by intros [= _ <-]. }
      rewrite <-El. apply (IH B); rewrite ?El; try done. lia.
Qed.

(** ** Properties *)

(** the stamps a clock issues over any sequence of local and receive events
    are strictly increasing, start above the stamp it held before, and each
    receive event's stamp is above the remote stamp it merged, as long as no
    remote stamp carries the maximal 32-bit logical counter and the physical
    parts stay below the 64-bit maximum by one carry per event. *)
Theorem hlc_monotone (B : Z) (c : Clock) (es : list event) :
  0 ≤ B → B + 65536 * (Z.of_nat (length es) + 1) < 2 ^ 64 →
  ts_wf (last c) → PhysicalMs (last c) ≤ B → Forall (event_ok B) es →
  StronglySorted ts_lt (last c :: (run c es).1) ∧
  (∀ wall remote t c', event_ok B (EvUpdate wall remote) →
     Update wall remote c = (Ok t, c') → ts_lt remote t).
Proof.
  intros HB Hlen Hwf Hc Hes. split; [by apply (run_above B)|].
  intros wall remote t c' (?&?&?) E.
  apply Update_spec in E as (?&?&?&?&?&?); try done;
    unfold clock_ok, phys_ok, ts_wf in *; lia.
Qed.

Lemma hlc_monotone_witness :
  StronglySorted ts_lt (last (NewClock 0) ::
    (run (NewClock 0) [EvNow 7; EvUpdate 7 (mkTimestamp 9 3); EvNow 2]).1).
Proof.
  apply (hlc_monotone 100 (NewClock 0) [EvNow 7; EvUpdate 7 (mkTimestamp 9 3); EvNow 2]);
    [lia|simpl; lia|unfold ts_wf, maxLogical; simpl; lia|simpl; lia|].
  repeat constructor; simpl; lia.
Defined.

(** the clock regresses on a remote stamp whose logical counter is [2^32 - 1]:
    the increment wraps to zero. *)
Theorem hlc_logical_wrap_regresses :
  let c := mkClock (mkTimestamp 1000 7) 500 0 in
  let '(r, c') := Update 1000 (mkTimestamp 1000 (2 ^ 32 - 1)) c in
  r = Ok (mkTimestamp 1000 0) ∧ ts_lt (last c') (last c).
Proof. vm_compute. split; [done|]. right. done. Qed.

End Hlc.
