(* ===== verification/Version.v ===== *)
(** * Versions (internal/version/version.go)

    The per-mutation [Version], its last-write-wins [Compare] order, the
    replication identity [MutationID] and the writer [Sequencer]. *)

From S2P Require Import Prelude Bytes Strconv Hlc.

Local Open Scope Z_scope.

Module Version.
Import Hlc.

Record Version := mkVersion {
  HLCPhysicalMs : Z;
  HLCLogical : Z;
  WriterClusterID : bytes;
  WriterMemberID : bytes;
  WriterSequence : Z;
}.

#[export] Instance Version_eq_dec : EqDecision Version.
Proof. solve_decision. Defined.

Definition Version_Timestamp (a : Version) : Timestamp :=
  mkTimestamp (HLCPhysicalMs a) (HLCLogical a).

Definition Version_Compare (a b : Version) : Z :=
  if negb (HLCPhysicalMs a =? HLCPhysicalMs b)
  then cmpUint64 (HLCPhysicalMs a) (HLCPhysicalMs b)
  else if negb (HLCLogical a =? HLCLogical b)
  then cmpUint32 (HLCLogical a) (HLCLogical b)
  else
    let c := strings_Compare (WriterClusterID a) (WriterClusterID b) in
    if negb (c =? 0) then c else
    let c := strings_Compare (WriterMemberID a) (WriterMemberID b) in
    if negb (c =? 0) then c else
    cmpUint64 (WriterSequence a) (WriterSequence b).

Definition Version_Equal (a b : Version) : bool :=
  (HLCPhysicalMs a =? HLCPhysicalMs b) && (HLCLogical a =? HLCLogical b) &&
  bool_decide (WriterClusterID a = WriterClusterID b) &&
  bool_decide (WriterMemberID a = WriterMemberID b) &&
  (WriterSequence a =? WriterSequence b).

Definition idSep : byte := x1f.

Definition mutationID (cluster member : bytes) (seq : Z) : bytes :=
  cluster ++ [idSep] ++ member ++ [idSep] ++ Strconv.FormatUint seq.

Definition MutationID (a : Version) : bytes :=
  mutationID (WriterClusterID a) (WriterMemberID a) (WriterSequence a).

(** The wire message: a nil pointer reads as the zero version. *)
Record ProtoVersion := mkProtoVersion {
  p_HlcPhysicalMs : Z; p_HlcLogical : Z;
  p_WriterClusterId : bytes; p_WriterMemberId : bytes; p_WriterSequence : Z;
}.

Definition ToProto (a : Version) : ProtoVersion :=
  mkProtoVersion (HLCPhysicalMs a) (HLCLogical a) (WriterClusterID a)
    (WriterMemberID a) (WriterSequence a).

Definition FromProto (p : option ProtoVersion) : Version :=
  match p with
  | None => mkVersion 0 0 [] [] 0
  | Some p => mkVersion (p_HlcPhysicalMs p) (p_HlcLogical p) (p_WriterClusterId p)
                (p_WriterMemberId p) (p_WriterSequence p)
  end.

(** [Sequencer]: the state is the last value issued. *)
Definition Sequencer_Next (last : Z) : Z * Z :=
  let s := uint64 (last + 1) in (s, s).

(** ** The order, as a lexicographic comparison *)

Definition key_cmp : (Z * (Z * (bytes * (bytes * Z)))) → _ → comparison :=
  cmp_pair Z.compare (cmp_pair Z.compare (cmp_pair bcompare (cmp_pair bcompare Z.compare))).

Definition version_key (a : Version) : Z * (Z * (bytes * (bytes * Z))) :=
  (HLCPhysicalMs a, (HLCLogical a, (WriterClusterID a, (WriterMemberID a, WriterSequence a)))).

#[export] Instance version_key_inj : Inj (=) (=) version_key.
Proof. intros [] []. unfold version_key; simpl. naive_solver. Qed.

Definition version_cmp (a b : Version) : comparison := key_cmp (version_key a) (version_key b).

#[export] Instance version_cmp_total : TotalCmp version_cmp.
Proof.
  assert (TotalCmp key_cmp) as H by (unfold key_cmp; apply _).
  unfold version_cmp. split.
  - intros a b. rewrite (cmp_eq (cmp:=key_cmp)). split; [apply (inj version_key)|by intros ->].
  - intros a b. apply cmp_antisym.
  - intros a b c. apply cmp_lt_trans.
Qed.

Lemma cmpUint64_cmpZ a b : cmpUint64 a b = cmpZ (Z.compare a b).
Proof.
  unfold cmpUint64. destruct (Z.ltb_spec a b), (Z.ltb_spec b a); simpl;
    destruct (Z.compare_spec a b); simpl; lia.
Qed.

Lemma Version_Compare_cmp a b : Version_Compare a b = cmpZ (version_cmp a b).
Proof.
  unfold Version_Compare, version_cmp, key_cmp, cmp_pair, version_key, strings_Compare; simpl.
  change cmpUint32 with cmpUint64. rewrite !cmpUint64_cmpZ.
  destruct (Z.eqb_spec (HLCPhysicalMs a) (HLCPhysicalMs b)) as [->|];
    [rewrite Z.compare_refl|destruct (Z.compare_spec (HLCPhysicalMs a) (HLCPhysicalMs b)); done].
  destruct (Z.eqb_spec (HLCLogical a) (HLCLogical b)) as [->|]; simpl;
    [rewrite Z.compare_refl|destruct (Z.compare_spec (HLCLogical a) (HLCLogical b)); done].
  by destruct (bcompare (WriterClusterID a) _), (bcompare (WriterMemberID a) _).
Qed.

Lemma Version_Compare_gt a b : 0 < Version_Compare a b ↔ version_cmp b a = Lt.
Proof.
  rewrite Version_Compare_cmp, <-(cmp_gt_lt version_cmp).
  destruct (version_cmp a b); simpl; naive_solver lia.
Qed.

(** ** Properties *)

(** [Compare] is a total order whose equality is [Equal]: it is zero exactly
    on equal versions, antisymmetric (swapping the arguments negates it) and
    transitive, so every replica ranks the same versions the same way. *)
Theorem Version_Compare_total_order (a b c : Version) :
  (Version_Compare a b = 0 ↔ a = b) ∧ (Version_Equal a b = true ↔ a = b) ∧
  Version_Compare b a = - Version_Compare a b ∧
  (Version_Compare a b < 0 → Version_Compare b c < 0 → Version_Compare a c < 0).
Proof.
  rewrite !Version_Compare_cmp, (cmp_antisym (cmp:=version_cmp) a b). split_and!.
  - rewrite <-(cmp_eq (cmp:=version_cmp)). by destruct (version_cmp a b).
  - unfold Version_Equal. destruct a, b; simpl.
    rewrite !andb_true_iff, !Z.eqb_eq, !bool_decide_eq_true. naive_solver.
  - by destruct (version_cmp a b).
  - destruct (version_cmp a b) eqn:E1, (version_cmp b c) eqn:E2; simpl; try lia.
    by rewrite (cmp_lt_trans _ _ _ E1 E2).
Qed.

Lemma sep_split (a b a' b' : bytes) (s : byte) :
  s ∉ a → s ∉ a' → a ++ s :: b = a' ++ s :: b' → a = a' ∧ b = b'.
Proof.
  revert a'. induction a as [|x a IH]; intros [|y a'] H1 H2 E; simpl in *.
  - naive_solver.
  - injection E as -> _. set_solver.
  - injection E as -> _. set_solver.
  - injection E as -> E. apply IH in E as [-> ->]; set_solver.
Qed.

(** [MutationID] identifies a mutation: two versions whose writer ids avoid the
    separator byte have the same id only if they come from the same writer
    cluster, member and sequence number. *)
Theorem MutationID_injective (a b : Version) :
  idSep ∉ WriterClusterID a → idSep ∉ WriterMemberID a → in_u64 (WriterSequence a) →
  idSep ∉ WriterClusterID b → idSep ∉ WriterMemberID b → in_u64 (WriterSequence b) →
  MutationID a = MutationID b →
  WriterClusterID a = WriterClusterID b ∧ WriterMemberID a = WriterMemberID b ∧
  WriterSequence a = WriterSequence b.
Proof.
  intros ?? Ha ?? Hb E. unfold MutationID, mutationID in E. simpl in E.
  apply sep_split in E as [Ec E]; [|done..]. apply sep_split in E as [Em E]; [|done..].
  split_and!; [done..|]. by apply Strconv.FormatUint_inj.
Qed.

Lemma MutationID_injective_witness :
  let v := mkVersion 1 2 (lit "eu") (lit "m1") 7 in
  let w := mkVersion 9 0 (lit "eu") (lit "m1") 7 in
  MutationID v = MutationID w ∧ WriterSequence v = WriterSequence w.
Proof.
  intros v w. split; [reflexivity|].
  apply (MutationID_injective v w);
    [apply (bool_decide_eq_true_1 _); vm_compute; reflexivity ..|reflexivity];
    vm_compute; split; congruence.
Defined.

End Version.
