(* ===== verification/Conflict.v ===== *)
(** * Conflict resolution (internal/conflict)

    The two resolvers v1 ships, hlc-last-write-wins and keep-siblings, and the
    policy registry. Records are pointers in the source, so a record that may be
    nil is an [option]. *)

From S2P Require Import Prelude Bytes Hlc Version.

Local Open Scope Z_scope.

Module Conflict.
Import Version.

(** The messages wavespanv1.ValueBody and wavespanv1.StoredRecord. An external value
    is a reference to a blob, kept as its bytes. *)
Inductive ValueBody :=
  | VInline (b : bytes)
  | VExternal (ref : bytes)
  | VEmpty.

Record StoredRecord := mkStoredRecord {
  sr_LogicalKey : bytes;
  sr_Value : option ValueBody;
  sr_version : option ProtoVersion;
  sr_ExpiresAt : option Z;
  sr_tombstone : bool;
  sr_Kind : Z;
  sr_Namespace : bytes;
  sr_OriginClusterId : bytes;
  sr_OriginMemberId : bytes;
  sr_LocalApplyMs : Z;
  sr_ConflictState : Z;
}.

#[export] Instance ProtoVersion_eq_dec : EqDecision ProtoVersion.
Proof. solve_decision. Defined.
#[export] Instance ValueBody_eq_dec : EqDecision ValueBody.
Proof. solve_decision. Defined.
#[export] Instance StoredRecord_eq_dec : EqDecision StoredRecord.
Proof. solve_decision. Defined.

Definition recVersion (r : StoredRecord) : Version := FromProto (sr_version r).

Inductive ResolveResult :=
  | KindWinner (r : StoredRecord)
  | KindTombstone (r : StoredRecord)
  | KindSiblings (rs : list StoredRecord)
  | KindReject (reason : bytes).

Definition Resolver := list (option StoredRecord) → option StoredRecord → ResolveResult.

(** ** hlc-last-write-wins (hlc_lww.go) *)

Definition lww_step (winner e : option StoredRecord) : option StoredRecord :=
  match e with
  | None => winner
  | Some e' =>
      match winner with
      | None => e
      | Some w => if 0 <? Version_Compare (recVersion e') (recVersion w) then e else winner
      end
  end.

Definition noRecords : bytes := lit "no records to resolve".

Definition HLCLastWriteWins_Resolve : Resolver := λ existing incoming,
  match fold_left lww_step existing incoming with
  | None => KindReject noRecords
  | Some w => if sr_tombstone w then KindTombstone w else KindWinner w
  end.

(** ** keep-siblings (keep_siblings.go) *)

Definition writerOf (r : StoredRecord) : bytes :=
  let v := recVersion r in WriterClusterID v ++ [x00] ++ WriterMemberID v.

Definition consider (byWriter : gmap bytes StoredRecord) (r : option StoredRecord)
    : gmap bytes StoredRecord :=
  match r with
  | None => byWriter
  | Some r' =>
      match byWriter !! writerOf r' with
      | Some cur =>
          if 0 <? Version_Compare (recVersion r') (recVersion cur)
          then <[writerOf r' := r']> byWriter else byWriter
      | None => <[writerOf r' := r']> byWriter
      end
  end.

Definition rec_le (a b : StoredRecord) : Prop :=
  ¬ (Version_Compare (recVersion b) (recVersion a) < 0).

#[export] Instance rec_le_dec : RelDecision rec_le.
Proof. unfold rec_le. intros a b. apply _. Defined.

(** Go iterates the map in an arbitrary order and then sorts by version. *)
Definition KeepSiblings_Resolve : Resolver := λ existing incoming,
  let byWriter := consider (fold_left consider existing ∅) incoming in
  let sibs := merge_sort rec_le (map_to_list byWriter).*2 in
  match sibs with
  | [] => KindReject noRecords
  | [r] => if sr_tombstone r then KindTombstone r else KindWinner r
  | _ => KindSiblings sibs
  end.

(** ** Registry (resolver.go) *)

Record Registry := mkRegistry {
  resolvers : gmap bytes Resolver;
  fallback : Resolver;
}.

Definition PolicyHLCLastWriteWins : bytes := lit "hlc-last-write-wins".
Definition PolicyKeepSiblings : bytes := lit "keep-siblings".

Definition NewRegistry : Registry :=
  mkRegistry
    (<[PolicyKeepSiblings := KeepSiblings_Resolve]>
       (<[PolicyHLCLastWriteWins := HLCLastWriteWins_Resolve]> ∅))
    HLCLastWriteWins_Resolve.

Definition Registry_Register (policy : bytes) (r : Resolver) (g : Registry) : Registry :=
  mkRegistry (<[policy := r]> (resolvers g)) (fallback g).

Definition Registry_Resolver (policy : bytes) (g : Registry) : Resolver :=
  match resolvers g !! policy with Some r => r | None => fallback g end.

(** ** Winners *)

(** The records a resolution sees: nil pointers dropped. *)
Definition seen (existing : list (option StoredRecord)) (incoming : option StoredRecord)
    : list StoredRecord := omap id (incoming :: existing).

Definition beats (a b : StoredRecord) : Prop := version_cmp (recVersion b) (recVersion a) = Lt.

(** [w] is a record of [l] that no record of [l] beats. *)
Definition is_winner (w : StoredRecord) (l : list StoredRecord) : Prop :=
  w ∈ l ∧ ∀ r, r ∈ l → ¬ beats r w.

(** Distinct records carry distinct versions: a version stamps one mutation. *)
Definition versions_unique (l : list StoredRecord) : Prop :=
  ∀ r1 r2, r1 ∈ l → r2 ∈ l → recVersion r1 = recVersion r2 → r1 = r2.

#[export] Instance beats_dec a b : Decision (beats a b).
Proof. unfold beats. apply _. Defined.

Lemma beats_asym a b : beats a b → ¬ beats b a.
Proof.
  unfold beats. rewrite <-(cmp_gt_lt version_cmp). congruence.
Qed.

Lemma beats_trans a b c : beats a b → beats b c → beats a c.
Proof. unfold beats. intros H1 H2. by eapply cmp_lt_trans. Qed.

Lemma not_beats_cases a b :
  ¬ beats a b → beats b a ∨ recVersion a = recVersion b.
Proof.
  unfold beats. rewrite (cmp_antisym (cmp:=version_cmp) (recVersion a) (recVersion b)).
  intros H. destruct (version_cmp (recVersion a) (recVersion b)) eqn:E; simpl in *; auto.
  - right. by apply (cmp_eq (cmp:=version_cmp)).
  - done.
Qed.

Lemma not_beats_trans a b c : ¬ beats a b → ¬ beats b c → ¬ beats a c.
Proof.
  intros [H1|H1]%not_beats_cases [H2|H2]%not_beats_cases H3.
  - by apply (beats_asym a c), (beats_trans c b a).
  - unfold beats in *. rewrite <-H2 in H3. by apply (beats_asym b a).
  - unfold beats in *. rewrite H1 in H3. by apply (beats_asym b c).
  - unfold beats in *. rewrite H1, H2, (cmp_refl version_cmp) in H3. done.
Qed.

Lemma Compare_beats a b :
  (0 <? Version_Compare (recVersion a) (recVersion b)) = true ↔ beats a b.
Proof. rewrite Z.ltb_lt. apply Version_Compare_gt. Qed.

Lemma is_winner_unique l w1 w2 :
  versions_unique l → is_winner w1 l → is_winner w2 l → w1 = w2.
Proof.
  intros Hu [Hi1 H1] [Hi2 H2]. apply Hu; try done.
  destruct (not_beats_cases w1 w2) as [Hb|]; [by apply H2|by apply H1 in Hb|done].
Qed.

Lemma is_winner_perm l l' w : l ≡ₚ l' → is_winner w l → is_winner w l'.
Proof. intros Hp [Hi Hw]. split; [by rewrite <-Hp|]. intros r. rewrite <-Hp. apply Hw. Qed.

Lemma versions_unique_perm l l' : l ≡ₚ l' → versions_unique l → versions_unique l'.
Proof. intros Hp Hu r1 r2. rewrite <-Hp. apply Hu. Qed.

(** ** Last write wins *)

Lemma lww_fold_winner existing incoming :
  match fold_left lww_step existing incoming with
  | None => seen existing incoming = []
  | Some w => is_winner w (seen existing incoming)
  end.
Proof.
  revert incoming. induction existing as [|e es IH]; intros inc.
  { destruct inc as [w|]; simpl; [|done]. split; [by left|].
    intros r ->%list_elem_of_singleton Hb. by apply (beats_asym w w). }
  simpl fold_left. specialize (IH (lww_step inc e)). unfold seen in *.
  destruct e as [e|]; [|exact IH]. destruct inc as [w|]; [|exact IH]. simpl in *.
  destruct (0 <? _) eqn:Hc.
  - apply Compare_beats in Hc. destruct (fold_left _ _ _) as [v|]; [|done].
    destruct IH as [Hi Hw]. split; [set_solver|].
    intros r [->|Hr]%elem_of_cons; [|by apply Hw].
    apply (not_beats_trans _ e); [by apply beats_asym|]. apply Hw. by left.
  - destruct (fold_left _ _ _) as [v|]; [|done]. destruct IH as [Hi Hw].
    split; [set_solver|].
    intros r [->|[->|Hr]%elem_of_cons]%elem_of_cons; [apply Hw; by left| |apply Hw; by right].
    apply (not_beats_trans _ w); [|apply Hw; by left].
    rewrite <-Compare_beats. by rewrite Hc.
Qed.

Definition resultRecord (r : ResolveResult) : option StoredRecord :=
  match r with KindWinner w | KindTombstone w => Some w | _ => None end.

(** One replica absorbing records one at a time (each resolved against what it
    holds). *)
Definition absorb (held : option StoredRecord) (r : StoredRecord) : option StoredRecord :=
  resultRecord (HLCLastWriteWins_Resolve [held] (Some r)).

Lemma absorb_fold_winner l held :
  match fold_left absorb l held with
  | None => held = None ∧ l = []
  | Some w => is_winner w (option_list held ++ l)
  end.
Proof.
  revert held. induction l as [|r l IH]; intros held; simpl.
  { destruct held as [w|]; simpl; [|done]. split; [by left|].
    intros r ->%list_elem_of_singleton Hb. by apply (beats_asym w w). }
  pose proof (lww_fold_winner [held] (Some r)) as Hw.
  assert (fold_left lww_step [held] (Some r) = absorb held r) as E.
  { unfold absorb, HLCLastWriteWins_Resolve. destruct (fold_left _ _ _) as [w|]; [|done].
    by destruct (sr_tombstone w). }
  rewrite E in Hw. specialize (IH (absorb held r)).
  destruct (absorb held r) as [w|] eqn:Ea; [|destruct held; done].
  destruct (fold_left absorb l (Some w)) as [v|]; [|naive_solver].
  destruct IH as [Hi Hv]. destruct Hw as [Hwi Hww].
  assert (seen [held] (Some r) ≡ₚ option_list held ++ [r]) as Hp.
  { unfold seen. destruct held; simpl; [apply perm_swap|done]. }
  split.
  - simpl in Hi. apply elem_of_cons in Hi as [->|Hi]; [|set_solver].
    rewrite Hp in Hwi. set_solver.
  - intros x Hx. assert (x ∈ seen [held] (Some r) ∨ x ∈ l) as [Hs|Hl].
    { rewrite Hp. set_solver. }
    + apply (not_beats_trans _ w); [by apply Hww|]. apply Hv. by left.
    + apply Hv. by right.
Qed.

(** ** Keep siblings *)

(** The records of [l] written by writer [w]. *)
Definition group (w : bytes) (l : list StoredRecord) : list StoredRecord :=
  filter (λ r, writerOf r = w) l.

Lemma elem_of_group w l r : r ∈ group w l ↔ writerOf r = w ∧ r ∈ l.
Proof. unfold group. by rewrite list_elem_of_filter. Qed.

Lemma is_winner_snoc w l r :
  is_winner w l → is_winner (if bool_decide (beats r w) then r else w) (l ++ [r]).
Proof.
  intros [Hi Hw]. case_bool_decide as Hb.
  - split; [set_solver|]. intros x [Hx|Hx]%elem_of_app.
    + apply (not_beats_trans _ w); [by apply Hw|by apply beats_asym].
    + apply list_elem_of_singleton in Hx as ->. intros H. by apply (beats_asym r r).
  - split; [set_solver|]. intros x [Hx|Hx]%elem_of_app; [by apply Hw|].
    by apply list_elem_of_singleton in Hx as ->.
Qed.

Lemma Compare_beats_decide a b :
  (0 <? Version_Compare (recVersion a) (recVersion b)) = bool_decide (beats a b).
Proof.
  case_bool_decide as H; [by apply Compare_beats|].
  rewrite <-Compare_beats in H. by destruct (0 <? _).
Qed.

Lemma consider_fold l w :
  match fold_left consider l ∅ !! w with
  | None => group w (omap id l) = []
  | Some r => is_winner r (group w (omap id l))
  end.
Proof.
  induction l as [|o l IH] using rev_ind; [simpl; by rewrite lookup_empty|].
  rewrite fold_left_app. simpl fold_left. set (m := fold_left consider l ∅) in *.
  rewrite omap_app. destruct o as [r|]; simpl; [|by rewrite app_nil_r].
  unfold group in *. rewrite filter_app.
  rewrite (filter_cons _ r []), filter_nil.
  destruct (decide (writerOf r = w)) as [Hw|Hw]; [subst w|].
  - destruct (m !! writerOf r) as [cur|] eqn:Em.
    + apply (is_winner_snoc _ _ r) in IH. rewrite Compare_beats_decide.
      case_bool_decide; [by rewrite lookup_insert_eq|by rewrite Em].
    + rewrite lookup_insert_eq, IH. simpl. split; [by left|].
      intros x ->%list_elem_of_singleton Hb. by apply (beats_asym r r).
  - rewrite app_nil_r. destruct (m !! writerOf r) as [cur|]; [destruct (0 <? _)|];
      rewrite ?lookup_insert_ne by done; done.
Qed.

Definition byWriterOf (existing : list (option StoredRecord)) (incoming : option StoredRecord) :=
  consider (fold_left consider existing ∅) incoming.

Lemma byWriterOf_lookup existing incoming w :
  match byWriterOf existing incoming !! w with
  | None => group w (seen existing incoming) = []
  | Some r => is_winner r (group w (seen existing incoming))
  end.
Proof.
  unfold byWriterOf. pose proof (consider_fold (existing ++ [incoming]) w) as H.
  rewrite fold_left_app in H. simpl in H.
  assert (group w (omap id (existing ++ [incoming])) ≡ₚ group w (seen existing incoming)) as Hp.
  { unfold group, seen. by rewrite <-(Permutation_cons_append existing incoming). }
  destruct (_ !! w); [by apply (is_winner_perm _ _ _ Hp)|].
  rewrite H in Hp. by apply Permutation_nil_l in Hp.
Qed.

Definition resultRecords (r : ResolveResult) : list StoredRecord :=
  match r with
  | KindWinner w | KindTombstone w => [w]
  | KindSiblings rs => rs
  | KindReject _ => []
  end.

Lemma KeepSiblings_records existing incoming :
  resultRecords (KeepSiblings_Resolve existing incoming) =
    merge_sort rec_le (map_to_list (byWriterOf existing incoming)).*2.
Proof.
  unfold KeepSiblings_Resolve, byWriterOf. destruct (merge_sort _ _) as [|r [|]]; simpl; try done.
  by destruct (sr_tombstone r).
Qed.

Lemma elem_of_KeepSiblings existing incoming r :
  r ∈ resultRecords (KeepSiblings_Resolve existing incoming) ↔
  byWriterOf existing incoming !! writerOf r = Some r.
Proof.
  rewrite KeepSiblings_records, merge_sort_Permutation, list_elem_of_fmap.
  split.
  - intros ([w r'] & -> & Hin). apply elem_of_map_to_list in Hin. simpl.
    pose proof (byWriterOf_lookup existing incoming w) as Hw. rewrite Hin in Hw.
    destruct Hw as [[-> _]%elem_of_group _]. done.
  - intros H. exists (writerOf r, r). by rewrite elem_of_map_to_list.
Qed.

(** ** Properties *)

(** last-write-wins converges. Replicas that absorb the same records one at a
    time in any order hold the same record in the end, namely one that no other
    record beats, provided a version stamps one record. *)
Theorem lww_converges (l l' : list StoredRecord) :
  l ≡ₚ l' → versions_unique l →
  fold_left absorb l None = fold_left absorb l' None ∧
  (∀ w, fold_left absorb l None = Some w → is_winner w l).
Proof.
  intros Hp Hu.
  pose proof (absorb_fold_winner l None) as H1. pose proof (absorb_fold_winner l' None) as H2.
  simpl in *. split; [|intros w Hw; by rewrite Hw in H1].
  destruct (fold_left absorb l None) as [w1|], (fold_left absorb l' None) as [w2|].
  - f_equal. apply (is_winner_unique l'); try done.
    + by apply (versions_unique_perm l).
    + by apply (is_winner_perm l).
  - destruct H2 as [_ E], H1 as [Hi _]. rewrite Hp, E in Hi. by apply elem_of_nil in Hi.
  - destruct H1 as [_ E], H2 as [Hi _]. rewrite <-Hp, E in Hi. by apply elem_of_nil in Hi.
  - done.
Qed.

Definition rec0 (t : Z) (seq : Z) : StoredRecord :=
  mkStoredRecord (lit "k") (Some (VInline [])) (Some (ToProto (mkVersion t 0 (lit "c") (lit "m") seq)))
    None false 1 (lit "ns") (lit "c") (lit "m") 0 0.

Lemma rec0_unique : versions_unique [rec0 1 1; rec0 2 2].
Proof.
  intros r1 r2. rewrite !elem_of_cons, !elem_of_nil.
  intros [->|[->|[]]] [->|[->|[]]]; vm_compute; congruence.
Qed.

Lemma lww_converges_witness :
  fold_left absorb [rec0 1 1; rec0 2 2] None = fold_left absorb [rec0 2 2; rec0 1 1] None.
Proof.
  apply (lww_converges [rec0 1 1; rec0 2 2] [rec0 2 2; rec0 1 1]); [|exact rec0_unique].
  apply Permutation_swap.
Defined.

(** one resolution picks the record with the highest version of everything it
    sees, tombstones included, and rejects only when there is no record at all. *)
Theorem lww_resolve_highest (existing : list (option StoredRecord)) (incoming : option StoredRecord) :
  match HLCLastWriteWins_Resolve existing incoming with
  | KindWinner w => sr_tombstone w = false ∧ is_winner w (seen existing incoming)
  | KindTombstone w => sr_tombstone w = true ∧ is_winner w (seen existing incoming)
  | KindReject _ => seen existing incoming = []
  | KindSiblings _ => False
  end.
Proof.
  unfold HLCLastWriteWins_Resolve. pose proof (lww_fold_winner existing incoming) as H.
  destruct (fold_left _ _ _) as [w|]; [|done]. by destruct (sr_tombstone w) eqn:?.
Qed.

(** keep-siblings keeps exactly one record per writer, the writer's highest
    version, and its answer does not depend on the order of the inputs. *)
Theorem keep_siblings_per_writer (existing existing' : list (option StoredRecord))
    (incoming incoming' : option StoredRecord) :
  seen existing incoming ≡ₚ seen existing' incoming' →
  versions_unique (seen existing incoming) →
  KeepSiblings_Resolve existing incoming = KeepSiblings_Resolve existing' incoming' ∧
  (∀ r, r ∈ resultRecords (KeepSiblings_Resolve existing incoming) ↔
        is_winner r (group (writerOf r) (seen existing incoming))).
Proof.
  intros Hp Hu.
  assert (∀ w, versions_unique (group w (seen existing incoming))) as Hug.
  { intros w r1 r2. rewrite !elem_of_group. intros [_ ?] [_ ?]. by apply Hu. }
  assert (byWriterOf existing incoming = byWriterOf existing' incoming') as E.
  { apply map_eq. intros w. pose proof (byWriterOf_lookup existing incoming w) as H1.
    pose proof (byWriterOf_lookup existing' incoming' w) as H2.
    assert (group w (seen existing incoming) ≡ₚ group w (seen existing' incoming')) as Hpg
      by (unfold group; by rewrite Hp).
    destruct (byWriterOf existing incoming !! w) as [r1|],
      (byWriterOf existing' incoming' !! w) as [r2|]; try done.
    - f_equal. apply (is_winner_unique (group w (seen existing' incoming'))); try done.
      + by apply (versions_unique_perm _ _ Hpg).
      + by apply (is_winner_perm _ _ _ Hpg).
    - destruct H1 as [Hi _]. rewrite Hpg, H2 in Hi. by apply elem_of_nil in Hi.
    - destruct H2 as [Hi _]. rewrite <-Hpg, H1 in Hi. by apply elem_of_nil in Hi. }
  split; [unfold KeepSiblings_Resolve, byWriterOf in *; by rewrite E|].
  intros r. rewrite elem_of_KeepSiblings.
  pose proof (byWriterOf_lookup existing incoming (writerOf r)) as H. split.
  - intros Hr. by rewrite Hr in H.
  - intros Hw. destruct (_ !! writerOf r) as [r'|].
    + f_equal. by apply (is_winner_unique _ _ _ (Hug (writerOf r))).
    + rewrite H in Hw. by destruct Hw as [?%elem_of_nil _].
Qed.

Lemma keep_siblings_per_writer_witness :
  KeepSiblings_Resolve [Some (rec0 1 1)] (Some (rec0 2 2)) =
  KeepSiblings_Resolve [Some (rec0 2 2)] (Some (rec0 1 1)).
Proof.
  apply (keep_siblings_per_writer [Some (rec0 1 1)] [Some (rec0 2 2)] (Some (rec0 2 2)) (Some (rec0 1 1))).
  - vm_compute. apply Permutation_swap.
  - exact (versions_unique_perm _ _ (Permutation_swap _ _ _) rec0_unique).
Defined.

End Conflict.
