(* ===== verification/Storage.v ===== *)
(** * Local storage (internal/storage)

    [LocalStore] is the interface the distributed layers build on (store.go):
    its operations, and its contract stated over a view of each column family as
    a finite map. [MemStore] (mem_store.go) implements it. The wavesdb-backed
    implementation calls a third-party engine and is not modelled; the layers
    above are verified against the contract. *)

From S2P Require Import Prelude Bytes.

Local Open Scope Z_scope.

Module Storage.

(** ** Column families (store.go, cf.go) *)

Abbreviation ColumnFamily := Z.

Definition CFSys : ColumnFamily := 0.
Definition CFKVData : ColumnFamily := 1.
Definition CFKVMeta : ColumnFamily := 2.
Definition CFGraphData : ColumnFamily := 3.
Definition CFGraphIndex : ColumnFamily := 4.
Definition CFVectorRaw : ColumnFamily := 5.
Definition CFVectorIndex : ColumnFamily := 6.
Definition CFReplLog : ColumnFamily := 7.
Definition CFCacheMeta : ColumnFamily := 8.
Definition CFReplData : ColumnFamily := 9.

Definition cfNames : gmap ColumnFamily bytes :=
  list_to_map [
    (CFSys, lit "sys"); (CFKVData, lit "kv_data"); (CFKVMeta, lit "kv_meta");
    (CFGraphData, lit "graph_data"); (CFGraphIndex, lit "graph_index");
    (CFVectorRaw, lit "vector_raw"); (CFVectorIndex, lit "vector_index");
    (CFReplLog, lit "repl_log"); (CFCacheMeta, lit "cache_meta");
    (CFReplData, lit "repl_data") ].

Definition allColumnFamilies : list ColumnFamily :=
  [CFSys; CFKVData; CFKVMeta; CFGraphData; CFGraphIndex; CFVectorRaw; CFVectorIndex;
   CFReplLog; CFCacheMeta; CFReplData].

Definition cf_Name (cf : ColumnFamily) : bytes :=
  match cfNames !! cf with Some n => n | None => lit "unknown" end.

Definition cf_valid (cf : ColumnFamily) : bool := bool_decide (is_Some (cfNames !! cf)).

(** ** Operations *)

Record StoreOp := mkStoreOp {
  op_CF : ColumnFamily;
  op_Key : bytes;
  op_Value : bytes;
  op_Delete : bool;
  op_ExpiresAtUnixMs : Z;  (** the engine's native TTL; 0 = none *)
}.

(** The two shapes the callers write: [{CF, Key, Value}] and [{CF, Key, Delete}]. *)
Definition putOp (cf : ColumnFamily) (k v : bytes) : StoreOp := mkStoreOp cf k v false 0.
Definition delOp (cf : ColumnFamily) (k : bytes) : StoreOp := mkStoreOp cf k [] true 0.

Inductive storeErr := ErrClosed | ErrConflict | ErrUnknownColumnFamily.

Definition StoreKV : Type := bytes * bytes.

(** The rows of [[start, stop)] in ascending byte order, at most [limit] of
    them when [limit] is positive (newSliceIterator). *)
Definition newSliceIterator (m : gmap bytes bytes) (start stop : option bytes) (limit : Z)
    : list StoreKV :=
  let keys := filter (λ k, in_bounds start stop k) (map_to_list m).*1 in
  let keys := merge_sort bytes_le keys in
  let keys := if (0 <? limit) && (limit <? Z.of_nat (length keys))
              then take (Z.to_nat limit) keys else keys in
  (λ k, (k, default [] (m !! k))) <$> keys.

(** The effect of one write, and of a batch, on the view of one family. *)
Definition apply_op (cf : ColumnFamily) (m : gmap bytes bytes) (op : StoreOp) : gmap bytes bytes :=
  if op_CF op =? cf
  then if op_Delete op then delete (op_Key op) m else <[op_Key op := op_Value op]> m
  else m.

Definition apply_ops (cf : ColumnFamily) (ops : list StoreOp) (m : gmap bytes bytes)
    : gmap bytes bytes := fold_left (apply_op cf) ops m.

(** ** The interface *)

Class LocalStore (S : Type) := {
  ls_Get : S → ColumnFamily → bytes → res storeErr (option bytes);
  ls_Put : S → ColumnFamily → bytes → bytes → res storeErr S;
  ls_Delete : S → ColumnFamily → bytes → res storeErr S;
  ls_Batch : S → list StoreOp → res storeErr S;
  ls_BatchRC : S → list StoreOp → res storeErr S;
  ls_Scan : S → ColumnFamily → option bytes → option bytes → Z → res storeErr (list StoreKV);
  ls_Snap : Type;
  ls_Snapshot : S → res storeErr ls_Snap;
  sn_Get : ls_Snap → ColumnFamily → bytes → res storeErr (option bytes);
  sn_Scan : ls_Snap → ColumnFamily → option bytes → option bytes → Z → res storeErr (list StoreKV);
}.

(** The contract: on a healthy store, reads answer from the view, a batch of
    writes to known families takes effect in order and all at once, and a
    snapshot reads the view it was taken from. *)
Class LocalStoreSpec (S : Type) `{LocalStore S} := {
  ls_live : S → Prop;
  ls_view : S → ColumnFamily → gmap bytes bytes;
  sn_view : ls_Snap → ColumnFamily → gmap bytes bytes;
  ls_Get_ok s cf k :
    ls_live s → cf_valid cf = true → ls_Get s cf k = Ok (ls_view s cf !! k);
  ls_BatchRC_ok s ops :
    ls_live s → Forall (λ op, cf_valid (op_CF op) = true) ops →
    ∃ s', ls_BatchRC s ops = Ok s' ∧ ls_live s' ∧
          ∀ cf, cf_valid cf = true → ls_view s' cf = apply_ops cf ops (ls_view s cf);
  ls_Batch_ok s ops :
    ls_live s → Forall (λ op, cf_valid (op_CF op) = true) ops →
    ∃ s', ls_Batch s ops = Ok s' ∧ ls_live s' ∧
          ∀ cf, cf_valid cf = true → ls_view s' cf = apply_ops cf ops (ls_view s cf);
  ls_Put_ok s cf0 k v :
    ls_live s → cf_valid cf0 = true →
    ∃ s', ls_Put s cf0 k v = Ok s' ∧ ls_live s' ∧
          ∀ cf, cf_valid cf = true → ls_view s' cf = apply_ops cf [putOp cf0 k v] (ls_view s cf);
  ls_Delete_ok s cf0 k :
    ls_live s → cf_valid cf0 = true →
    ∃ s', ls_Delete s cf0 k = Ok s' ∧ ls_live s' ∧
          ∀ cf, cf_valid cf = true → ls_view s' cf = apply_ops cf [delOp cf0 k] (ls_view s cf);
  ls_Scan_ok s cf start stop limit :
    ls_live s → cf_valid cf = true →
    ls_Scan s cf start stop limit = Ok (newSliceIterator (ls_view s cf) start stop limit);
  ls_Snapshot_ok s :
    ls_live s → ∃ sn, ls_Snapshot s = Ok sn ∧ sn_view sn = ls_view s;
  sn_Get_ok sn cf k : cf_valid cf = true → sn_Get sn cf k = Ok (sn_view sn cf !! k);
  sn_Scan_ok sn cf start stop limit :
    cf_valid cf = true →
    sn_Scan sn cf start stop limit = Ok (newSliceIterator (sn_view sn cf) start stop limit);
}.

(** ** MemStore (mem_store.go) *)

Record MemStore := mkMemStore {
  ms_cfs : gmap ColumnFamily (gmap bytes bytes);
  ms_closed : bool;
}.

Definition NewMemStore : MemStore :=
  mkMemStore (list_to_map ((λ cf, (cf, ∅)) <$> allColumnFamilies)) false.

(** Indexing a Go map of maps: an absent family reads as an empty map. *)
Definition cfs_at (cfs : gmap ColumnFamily (gmap bytes bytes)) (cf : ColumnFamily)
    : gmap bytes bytes := default ∅ (cfs !! cf).

Definition MemStore_Get (s : MemStore) (cf : ColumnFamily) (key : bytes)
    : res storeErr (option bytes) :=
  if ms_closed s then Err ErrClosed
  else if negb (cf_valid cf) then Err ErrUnknownColumnFamily
  else Ok (cfs_at (ms_cfs s) cf !! key).

Definition mem_apply (cfs : gmap ColumnFamily (gmap bytes bytes)) (op : StoreOp)
    : gmap ColumnFamily (gmap bytes bytes) :=
  let m := cfs_at cfs (op_CF op) in
  <[op_CF op := if op_Delete op then delete (op_Key op) m
                else <[op_Key op := op_Value op]> m]> cfs.

Definition MemStore_Batch (s : MemStore) (ops : list StoreOp) : res storeErr MemStore :=
  if ms_closed s then Err ErrClosed
  else if existsb (λ op, negb (cf_valid (op_CF op))) ops then Err ErrUnknownColumnFamily
  else Ok (mkMemStore (fold_left mem_apply ops (ms_cfs s)) false).

Definition MemStore_BatchRC (s : MemStore) (ops : list StoreOp) : res storeErr MemStore :=
  MemStore_Batch s ops.

Definition MemStore_Put (s : MemStore) (cf : ColumnFamily) (key value : bytes)
    : res storeErr MemStore := MemStore_Batch s [putOp cf key value].

Definition MemStore_Delete (s : MemStore) (cf : ColumnFamily) (key : bytes)
    : res storeErr MemStore := MemStore_Batch s [delOp cf key].

Definition MemStore_Scan (s : MemStore) (cf : ColumnFamily) (start stop : option bytes)
    (limit : Z) : res storeErr (list StoreKV) :=
  if ms_closed s then Err ErrClosed
  else Ok (newSliceIterator (cfs_at (ms_cfs s) cf) start stop limit).

Definition MemStore_Snapshot (s : MemStore)
    : res storeErr (gmap ColumnFamily (gmap bytes bytes)) :=
  if ms_closed s then Err ErrClosed else Ok (ms_cfs s).

Definition MemStore_Close (s : MemStore) : MemStore := mkMemStore (ms_cfs s) true.

Definition memSnapshot_Get (sn : gmap ColumnFamily (gmap bytes bytes)) (cf : ColumnFamily)
    (key : bytes) : res storeErr (option bytes) :=
  if negb (cf_valid cf) then Err ErrUnknownColumnFamily else Ok (cfs_at sn cf !! key).

Definition memSnapshot_Scan (sn : gmap ColumnFamily (gmap bytes bytes)) (cf : ColumnFamily)
    (start stop : option bytes) (limit : Z) : res storeErr (list StoreKV) :=
  Ok (newSliceIterator (cfs_at sn cf) start stop limit).

#[export] Instance MemStore_LocalStore : LocalStore MemStore := {
  ls_Get := MemStore_Get;
  ls_Put := MemStore_Put;
  ls_Delete := MemStore_Delete;
  ls_Batch := MemStore_Batch;
  ls_BatchRC := MemStore_BatchRC;
  ls_Scan := MemStore_Scan;
  ls_Snap := gmap ColumnFamily (gmap bytes bytes);
  ls_Snapshot := MemStore_Snapshot;
  sn_Get := memSnapshot_Get;
  sn_Scan := memSnapshot_Scan;
}.

(** ** Batches *)

Lemma apply_ops_app cf ops1 ops2 m :
  apply_ops cf (ops1 ++ ops2) m = apply_ops cf ops2 (apply_ops cf ops1 m).
Proof. apply fold_left_app. Qed.

Lemma cfs_at_apply cfs ops cf :
  cfs_at (fold_left mem_apply ops cfs) cf = apply_ops cf ops (cfs_at cfs cf).
Proof.
  revert cfs. induction ops as [|op ops IH]; intros cfs; [done|].
  cbn [fold_left apply_ops]. rewrite IH. f_equal.
  unfold apply_op, mem_apply, cfs_at. destruct (Z.eqb_spec (op_CF op) cf) as [->|].
  - by rewrite lookup_insert_eq.
  - by rewrite lookup_insert_ne.
Qed.

Lemma MemStore_Batch_ok s ops :
  ms_closed s = false → Forall (λ op, cf_valid (op_CF op) = true) ops →
  ∃ s', MemStore_Batch s ops = Ok s' ∧ ms_closed s' = false ∧
        ∀ cf, cf_valid cf = true → cfs_at (ms_cfs s') cf = apply_ops cf ops (cfs_at (ms_cfs s) cf).
Proof.
  intros Hs Hops. unfold MemStore_Batch. rewrite Hs. destruct (existsb _ ops) eqn:E.
  { apply existsb_exists in E as (op & Hin & Hv). rewrite Forall_forall in Hops.
    rewrite (Hops op) in Hv; [done|by apply list_elem_of_In]. }
  eexists; split_and!; [done..|]. intros cf Hcf. apply cfs_at_apply.
Qed.

#[export] Program Instance MemStore_LocalStoreSpec : LocalStoreSpec MemStore := {
  ls_live s := ms_closed s = false;
  ls_view s := cfs_at (ms_cfs s);
  sn_view sn := cfs_at sn;
}.
Next Obligation. intros s cf k Hs Hc. simpl. unfold MemStore_Get. by rewrite Hs, Hc. Qed.
Next Obligation. intros. by apply MemStore_Batch_ok. Qed.
Next Obligation. intros. by apply MemStore_Batch_ok. Qed.
Next Obligation. intros. apply MemStore_Batch_ok; [done|by apply Forall_singleton]. Qed.
Next Obligation. intros. apply MemStore_Batch_ok; [done|by apply Forall_singleton]. Qed.
Next Obligation. intros s cf start stop limit Hs _. simpl. unfold MemStore_Scan. by rewrite Hs. Qed.
Next Obligation. intros s Hs. exists (ms_cfs s). simpl. unfold MemStore_Snapshot. by rewrite Hs. Qed.
Next Obligation. intros sn cf k Hc. simpl. unfold memSnapshot_Get. by rewrite Hc. Qed.
Next Obligation. intros. done. Qed.

(** ** Scans *)

Definition scan_keys (m : gmap bytes bytes) (start stop : option bytes) : list bytes :=
  merge_sort bytes_le (filter (λ k, in_bounds start stop k) (map_to_list m).*1).

Lemma elem_of_scan_keys m start stop k :
  k ∈ scan_keys m start stop ↔ is_Some (m !! k) ∧ in_bounds start stop k.
Proof.
  unfold scan_keys. rewrite merge_sort_Permutation, list_elem_of_filter, list_elem_of_fmap.
  split.
  - intros (Hb & [k' v] & -> & Hin%elem_of_map_to_list). eauto.
  - intros [[v Hv] Hb]. split; [done|]. exists (k, v). by rewrite elem_of_map_to_list.
Qed.

Lemma scan_keys_NoDup m start stop : NoDup (scan_keys m start stop).
Proof.
  unfold scan_keys. rewrite merge_sort_Permutation.
  apply NoDup_filter, NoDup_fst_map_to_list.
Qed.

Lemma StronglySorted_strict (l : list bytes) :
  StronglySorted bytes_le l → NoDup l → StronglySorted bytes_lt l.
Proof.
  induction 1 as [|k l Hs IH Hf]; [constructor|]. intros [Hk Hn]%NoDup_cons.
  constructor; [auto|]. rewrite Forall_forall in Hf |- *. intros k' Hin.
  destruct (proj1 (bytes_le_lteq k k') (Hf k' Hin)) as [|<-]; done.
Qed.

Lemma scan_keys_sorted m start stop : StronglySorted bytes_lt (scan_keys m start stop).
Proof.
  apply StronglySorted_strict; [|apply scan_keys_NoDup].
  apply StronglySorted_merge_sort; apply _.
Qed.

Lemma newSliceIterator_all m start stop limit :
  limit ≤ 0 →
  newSliceIterator m start stop limit =
    (λ k, (k, default [] (m !! k))) <$> scan_keys m start stop.
Proof.
  intros Hl. unfold newSliceIterator, scan_keys.
  destruct (Z.ltb_spec 0 limit); [lia|done].
Qed.

Lemma newSliceIterator_limit m start stop limit :
  0 < limit →
  newSliceIterator m start stop limit =
    take (Z.to_nat limit) (newSliceIterator m start stop 0).
Proof.
  intros Hl. rewrite (newSliceIterator_all _ _ _ 0) by lia.
  unfold newSliceIterator. fold (scan_keys m start stop).
  destruct (Z.ltb_spec 0 limit); [|lia]. simpl.
  destruct (Z.ltb_spec limit (Z.of_nat (length (scan_keys m start stop)))).
  - by rewrite fmap_take.
  - rewrite take_ge; [done|]. rewrite length_fmap. lia.
Qed.

Lemma elem_of_newSliceIterator m start stop k v :
  (k, v) ∈ newSliceIterator m start stop 0 ↔ m !! k = Some v ∧ in_bounds start stop k.
Proof.
  rewrite newSliceIterator_all by lia. rewrite list_elem_of_fmap. split.
  - intros (k' & [= -> ->] & [[w Hw] Hb]%elem_of_scan_keys). by rewrite Hw.
  - intros [Hv Hb]. exists k. rewrite Hv. split; [done|].
    apply elem_of_scan_keys. eauto.
Qed.

Lemma newSliceIterator_keys m start stop :
  (newSliceIterator m start stop 0).*1 = scan_keys m start stop.
Proof. rewrite newSliceIterator_all by lia. rewrite <-list_fmap_compose. apply list_fmap_id. Qed.

(** A scan of [[p, prefixEnd p)] yields the rows whose key extends [p]. *)
Lemma elem_of_prefix_scan m p k v :
  (k, v) ∈ newSliceIterator m (Some p) (prefixEnd p) 0 ↔ m !! k = Some v ∧ p `prefix_of` k.
Proof. by rewrite elem_of_newSliceIterator, prefixEnd_spec. Qed.

(** ** The rows under a key prefix *)

(** The rows whose key extends [pre], with [pre] removed. *)
Definition under_rows (pre : bytes) (m : gmap bytes bytes) : list (bytes * bytes) :=
  omap (λ '(k, v), if decide (pre `prefix_of` k) then Some (drop (length pre) k, v) else None)
    (map_to_list m).
Definition under (pre : bytes) (m : gmap bytes bytes) : gmap bytes bytes :=
  list_to_map (under_rows pre m).

Lemma elem_of_under_list (pre : bytes) (m : gmap bytes bytes) r v :
  (r, v) ∈ under_rows pre m ↔ m !! (pre ++ r) = Some v.
Proof.
  unfold under_rows. rewrite list_elem_of_omap. split.
  - intros ([k w] & Hin%elem_of_map_to_list & E). case_decide as Hp; [|done]. destruct Hp as [z ->].
    rewrite drop_app_length in E. congruence.
  - intros Hm. exists (pre ++ r, v). rewrite elem_of_map_to_list. split; [done|].
    rewrite decide_True by (by apply prefix_app_r). by rewrite drop_app_length.
Qed.

Lemma lookup_under (pre : bytes) (m : gmap bytes bytes) r : under pre m !! r = m !! (pre ++ r).
Proof.
  destruct (under pre m !! r) as [w|] eqn:E.
  - apply elem_of_list_to_map_2 in E. by apply elem_of_under_list in E.
  - apply not_elem_of_list_to_map_2 in E. destruct (m !! (pre ++ r)) as [v|] eqn:Ev; [|done].
    exfalso. apply E, list_elem_of_fmap. exists (r, v). split; [done|]. by apply elem_of_under_list.
Qed.

Lemma under_insert pre m r v : under pre (<[pre ++ r := v]> m) = <[r := v]> (under pre m).
Proof.
  apply map_eq. intros r'. rewrite lookup_under. destruct (decide (r' = r)) as [->|Hne].
  - by rewrite !lookup_insert_eq.
  - rewrite !lookup_insert_ne, lookup_under; [done|done|]. intros ?%app_inv_head. congruence.
Qed.
Lemma under_delete pre m r : under pre (delete (pre ++ r) m) = delete r (under pre m).
Proof.
  apply map_eq. intros r'. rewrite lookup_under. destruct (decide (r' = r)) as [->|Hne].
  - by rewrite !lookup_delete_eq.
  - rewrite !lookup_delete_ne, lookup_under; [done|done|]. intros ?%app_inv_head. congruence.
Qed.
Lemma under_ext pre m m' : (∀ r, m !! (pre ++ r) = m' !! (pre ++ r)) → under pre m = under pre m'.
Proof. intros E. apply map_eq. intros r. by rewrite !lookup_under. Qed.

(** A prefix scan, its keys stripped, lists the rows under the prefix once each. *)
Definition stripped (pre : bytes) (rows : list StoreKV) : list (bytes * bytes) :=
  (λ '(k, v), (drop (length pre) k, v)) <$> rows.

Lemma elem_of_stripped_scan pre m r v :
  (r, v) ∈ stripped pre (newSliceIterator m (Some pre) (prefixEnd pre) 0) ↔ m !! (pre ++ r) = Some v.
Proof.
  unfold stripped. rewrite list_elem_of_fmap. split.
  - intros ([k w] & E & [Hk [z ->]]%elem_of_prefix_scan). rewrite drop_app_length in E. congruence.
  - intros Hm. exists (pre ++ r, v). rewrite drop_app_length. split; [done|].
    apply elem_of_prefix_scan. split; [done|]. by apply prefix_app_r.
Qed.

Lemma stripped_scan_NoDup pre m :
  NoDup (stripped pre (newSliceIterator m (Some pre) (prefixEnd pre) 0)).*1.
Proof.
  unfold stripped. rewrite <-list_fmap_compose.
  assert (((fst ∘ (λ '(k, v), (drop (length pre) k, v))) <$> newSliceIterator m (Some pre) (prefixEnd pre) 0)
    = drop (length pre) <$> (newSliceIterator m (Some pre) (prefixEnd pre) 0).*1) as ->.
  { rewrite <-list_fmap_compose. apply list_fmap_ext. by intros ? [k v] _. }
  apply NoDup_fmap_2_strong; [|rewrite newSliceIterator_keys; apply scan_keys_NoDup].
  intros k1 k2 H1 H2 E. rewrite newSliceIterator_keys in H1, H2.
  apply elem_of_scan_keys in H1 as [_ [z1 ->]%prefixEnd_spec], H2 as [_ [z2 ->]%prefixEnd_spec].
  rewrite !drop_app_length in E. by subst.
Qed.

Lemma length_stripped_scan pre m :
  length (stripped pre (newSliceIterator m (Some pre) (prefixEnd pre) 0)) = size (under pre m).
Proof.
  rewrite <-(map_size_list_to_map (M := gmap bytes) _ (stripped_scan_NoDup pre m)). f_equal.
  apply map_eq. intros r. rewrite lookup_under. apply option_eq. intros v.
  rewrite <-elem_of_stripped_scan. symmetry. apply elem_of_list_to_map, stripped_scan_NoDup.
Qed.

(** ** Properties *)

(** a scan returns exactly the rows whose key lies in the bounds, in strictly
    ascending byte order; a positive limit keeps the first rows of that list. In
    particular [[p, prefixEnd p)] enumerates exactly the keys that extend [p]. *)
Theorem scan_exact_and_ordered (m : gmap bytes bytes) (start stop : option bytes) (limit : Z) :
  (∀ k v, (k, v) ∈ newSliceIterator m start stop 0 ↔ m !! k = Some v ∧ in_bounds start stop k) ∧
  (∀ p k v, (k, v) ∈ newSliceIterator m (Some p) (prefixEnd p) 0 ↔
            m !! k = Some v ∧ p `prefix_of` k) ∧
  StronglySorted bytes_lt (newSliceIterator m start stop limit).*1 ∧
  newSliceIterator m start stop limit =
    (if 0 <? limit then take (Z.to_nat limit) else id) (newSliceIterator m start stop 0).
Proof.
  split_and!.
  - intros. apply elem_of_newSliceIterator.
  - intros. apply elem_of_prefix_scan.
  - destruct (Z.ltb_spec 0 limit).
    + rewrite newSliceIterator_limit, fmap_take, newSliceIterator_keys by done.
      pose proof (scan_keys_sorted m start stop) as Hs.
      rewrite <-(take_drop (Z.to_nat limit) (scan_keys m start stop)) in Hs.
      by apply StronglySorted_app_1_l in Hs.
    + rewrite (newSliceIterator_all _ _ _ limit) by done.
      rewrite <-(newSliceIterator_all _ _ _ 0), newSliceIterator_keys by lia.
      apply scan_keys_sorted.
  - destruct (Z.ltb_spec 0 limit); [by apply newSliceIterator_limit|].
    by rewrite !newSliceIterator_all by lia.
Qed.

(** a batch on the in-memory store is all-or-nothing and ordered: on an open
    store it fails exactly when some write names an unknown column family (and
    then nothing changes), otherwise every read afterwards answers from the
    writes applied in order; a snapshot taken before keeps answering from the
    old contents. *)
Theorem MemStore_batch_atomic (s : MemStore) (ops : list StoreOp) (cf : ColumnFamily) (k : bytes) :
  ms_closed s = false → cf_valid cf = true →
  match MemStore_Batch s ops with
  | Ok s' => Forall (λ op, cf_valid (op_CF op) = true) ops ∧
             MemStore_Get s' cf k = Ok (apply_ops cf ops (cfs_at (ms_cfs s) cf) !! k) ∧
             (∃ sn, MemStore_Snapshot s = Ok sn ∧ memSnapshot_Get sn cf k = MemStore_Get s cf k)
  | Err e => e = ErrUnknownColumnFamily ∧ Exists (λ op, cf_valid (op_CF op) = false) ops
  end.
Proof.
  intros Hs Hcf. unfold MemStore_Batch. rewrite Hs. destruct (existsb _ ops) eqn:E.
  - split; [done|]. apply existsb_exists in E as (op & Hin & Hv).
    apply Exists_exists. exists op. split; [by apply list_elem_of_In|].
    by destruct (cf_valid (op_CF op)).
  - split_and!.
    + apply Forall_forall. intros op Hin%list_elem_of_In.
      destruct (cf_valid (op_CF op)) eqn:Hv; [done|].
      assert (existsb (λ op, negb (cf_valid (op_CF op))) ops = true); [|congruence].
      apply existsb_exists. exists op. by rewrite Hv.
    + unfold MemStore_Get; simpl. rewrite Hcf. simpl. by rewrite cfs_at_apply.
    + unfold MemStore_Snapshot, memSnapshot_Get, MemStore_Get. rewrite Hs, Hcf. eauto.
Qed.

Lemma MemStore_batch_atomic_witness :
  match MemStore_Batch NewMemStore [putOp CFSys [x01] [x02]; delOp CFSys [x01]] with
  | Ok s' => MemStore_Get s' CFSys [x01] = Ok None
  | Err _ => False
  end.
Proof.
  pose proof (MemStore_batch_atomic NewMemStore [putOp CFSys [x01] [x02]; delOp CFSys [x01]] CFSys [x01]
    eq_refl eq_refl) as H.
  destruct (MemStore_Batch NewMemStore _) as [s'|e] eqn:E.
  - destruct H as (_ & H & _). rewrite H. vm_compute. reflexivity.
  - vm_compute in E. discriminate E.
Defined.

End Storage.
