(* ===== verification/Command.v ===== *)
(** * The log-command wire format (internal/collections/command.go, proposer.go)

    Opcodes, collection types, length-prefixed chunks, the single-command and
    coalesced-batch encodings, the packed batch results, and the sortable score
    encoding of sorted sets. A float64 score is kept as its 64 bits. *)

From S2P Require Import Prelude Bytes Storage.

Local Open Scope Z_scope.

Module Command.

(** ** Errors of the consensus tier

    [EPanic] is a Go run-time panic (index or slice out of range); [EFatal] is
    sm_fatal.go's [fatalErr] wrapper; [ECorrupt] its [corruptEntry]. *)
Inductive gerr :=
  | errShortCommand
  | errUnknownOp
  | errShortPool
  | errShortLease
  | errShortTomb
  | errMissingPool
  | errCorruptCard
  | errCorruptApplied
  | errUnknownMetaOp
  | errUnknownQuery
  | errEOF
  | errUnexpectedEOF
  | errSnapshotStopped
  | EStore (e : Storage.storeErr)
  | EPanic
  | EFatal (e : gerr)
  | ECorrupt (index : Z) (e : gerr).

Abbreviation gres := (res gerr).

(** ** Opcodes *)

Inductive opKind :=
  | opSAdd | opSRem | opHSet | opHDel | opZAdd | opZRem | opExpire
  | opIngest | opPurge | opFreeze | opUnfreeze | opHIncrBy | opHIncrByFloat
  | opRemove | opBatch
  | opBudInit | opBudGrant | opBudReport | opBudReturn | opBudExpire | opBudTombGC
  | opBudReconcile
  | opUnknown (b : byte).

#[export] Instance opKind_eq_dec : EqDecision opKind.
Proof. solve_decision. Defined.

Definition opByte (op : opKind) : byte :=
  match op with
  | opSAdd => x01 | opSRem => x02 | opHSet => x03 | opHDel => x04 | opZAdd => x05
  | opZRem => x06 | opExpire => x07 | opIngest => x08 | opPurge => x09 | opFreeze => x0a
  | opUnfreeze => x0b | opHIncrBy => x0c | opHIncrByFloat => x0d | opRemove => x0e
  | opBatch => x0f | opBudInit => x10 | opBudGrant => x11 | opBudReport => x12
  | opBudReturn => x13 | opBudExpire => x14 | opBudTombGC => x15 | opBudReconcile => x16
  | opUnknown b => b
  end.

(** Go's conversion [opKind(b)]. *)
Definition opKindOf (b : byte) : opKind :=
  match b with
  | x01 => opSAdd | x02 => opSRem | x03 => opHSet | x04 => opHDel | x05 => opZAdd
  | x06 => opZRem | x07 => opExpire | x08 => opIngest | x09 => opPurge | x0a => opFreeze
  | x0b => opUnfreeze | x0c => opHIncrBy | x0d => opHIncrByFloat | x0e => opRemove
  | x0f => opBatch | x10 => opBudInit | x11 => opBudGrant | x12 => opBudReport
  | x13 => opBudReturn | x14 => opBudExpire | x15 => opBudTombGC | x16 => opBudReconcile
  | _ => opUnknown b
  end.

(** [collType]: the datatype byte of a collection header, 0 for none. *)
Definition typeNone : byte := x00.
Definition typeSet : byte := x01.
Definition typeHash : byte := x02.
Definition typeZSet : byte := x03.
Definition typeBudget : byte := x04.

Definition collType_String (t : byte) : bytes :=
  if decide (t = typeSet) then lit "set"
  else if decide (t = typeHash) then lit "hash"
  else if decide (t = typeZSet) then lit "zset"
  else lit "unknown".

Definition typeForOp (op : opKind) : byte :=
  match op with
  | opSAdd | opSRem => typeSet
  | opHSet | opHDel | opHIncrBy | opHIncrByFloat => typeHash
  | opZAdd | opZRem => typeZSet
  | opBudInit | opBudGrant | opBudReport | opBudReturn | opBudExpire | opBudTombGC
  | opBudReconcile => typeBudget
  | _ => typeNone
  end.

Definition mutates (op : opKind) : bool :=
  bool_decide (typeForOp op ≠ typeNone) || bool_decide (op = opExpire) ||
  bool_decide (op = opRemove).

(** Result sentinels. *)
Definition wrongType : bytes := lit "WRONGTYPE".
Definition frozenMark : bytes := lit "FROZEN".
Definition notNumber : bytes := lit "NOTNUM".

(** ** Chunks *)

Definition lenZ (b : bytes) : Z := Z.of_nat (length b).

Definition appendChunk (dst b : bytes) : bytes := dst ++ put_u32 (uint32 (lenZ b)) ++ b.

Definition takeChunk (b : bytes) : gres (bytes * bytes) :=
  if lenZ b <? 4 then Err errShortCommand
  else
    let n := get_u32 b in
    let b := drop 4 b in
    if uint32 (lenZ b) <? n then Err errShortCommand
    else Ok (take (Z.to_nat n) b, drop (Z.to_nat n) b).

(** ** Commands *)

Record item := mkItem {
  Key : bytes;
  Val : bytes;
  Score : Z;      (** float64 bits *)
  ExpiryMs : Z;
}.

Record command := mkCommand {
  Op : opKind;
  NS : bytes;
  Coll : bytes;
  Idem : bytes;
  Items : list item;
}.

Definition appendItem (dst : bytes) (it : item) : bytes :=
  appendChunk (appendChunk dst (Key it)) (Val it) ++
  put_u64 (Score it) ++ put_u64 (uint64 (ExpiryMs it)).

Definition appendCommand (dst : bytes) (c : command) : bytes :=
  let dst := dst ++ [opByte (Op c)] in
  let dst := appendChunk dst (NS c) in
  let dst := appendChunk dst (Coll c) in
  let dst := appendChunk dst (Idem c) in
  let dst := dst ++ put_u32 (uint32 (Z.of_nat (length (Items c)))) in
  fold_left appendItem (Items c) dst.

Definition encodeCommand (c : command) : bytes := appendCommand [] c.

(** The item loop of [decodeCommandInto]; [n] items remain. The slice the code makes with room
    for [n] items before it reads them is not modelled: memory is unbounded here. *)
Fixpoint decodeItems (n : nat) (rest : bytes) : gres (list item) :=
  match n with
  | O => Ok []
  | S n' =>
      do? (k, rest) ← takeChunk rest;
      do? (v, rest) ← takeChunk rest;
      if lenZ rest <? 16 then Err errShortCommand
      else
        do? its ← decodeItems n' (drop 16 rest);
        Ok (mkItem k v (get_u64 rest) (int64 (get_u64 (drop 8 rest))) :: its)
  end.

Definition decodeCommand (b : bytes) : gres command :=
  match b with
  | [] => Err errShortCommand
  | b0 :: rest =>
      let op := opKindOf b0 in
      if bool_decide (typeForOp op = typeNone) && bool_decide (op ≠ opExpire) &&
         bool_decide (op ≠ opRemove)
      then Err errUnknownOp
      else
        do? (ns, rest) ← takeChunk rest;
        do? (coll, rest) ← takeChunk rest;
        do? (idem, rest) ← takeChunk rest;
        if lenZ rest <? 4 then Err errShortCommand
        else
          do? its ← decodeItems (Z.to_nat (get_u32 rest)) (drop 4 rest);
          Ok (mkCommand op ns coll idem its)
  end.

(** ** Coalesced batches *)

Definition encodeBatchInto (dst : bytes) (cmds : list bytes) : bytes :=
  let dst := dst ++ [opByte opBatch] in
  let dst := dst ++ put_u32 (uint32 (Z.of_nat (length cmds))) in
  fold_left appendChunk cmds dst.

Fixpoint decodeChunks (n : nat) (rest : bytes) : gres (list bytes) :=
  match n with
  | O => Ok []
  | S n' =>
      do? (c, rest) ← takeChunk rest;
      do? cs ← decodeChunks n' rest;
      Ok (c :: cs)
  end.

Definition decodeBatch (b : bytes) : gres (list bytes) :=
  match b with
  | [] => Err errShortCommand
  | b0 :: rest =>
      if negb (bool_decide (opKindOf b0 = opBatch)) then Err errShortCommand
      else if lenZ rest <? 4 then Err errShortCommand
      else decodeChunks (Z.to_nat (get_u32 rest)) (drop 4 rest)
  end.

Record ProposeResult := mkResult { Value : Z; Data : bytes }.

Definition appendResult (dst : bytes) (r : ProposeResult) : bytes :=
  appendChunk (dst ++ put_u64 (Value r)) (Data r).

Definition encodeBatchResult (dst : bytes) (results : list ProposeResult) : bytes :=
  fold_left appendResult results
    (dst ++ put_u32 (uint32 (Z.of_nat (length results)))).

Fixpoint decodeResults (n : nat) (rest : bytes) : gres (list ProposeResult) :=
  match n with
  | O => Ok []
  | S n' =>
      if lenZ rest <? 8 then Err errShortCommand
      else
        do? (data, rest') ← takeChunk (drop 8 rest);
        do? rs ← decodeResults n' rest';
        Ok (mkResult (get_u64 rest) data :: rs)
  end.

Definition decodeBatchResult (b : bytes) (want : Z) : gres (list ProposeResult) :=
  if lenZ b <? 4 then Err errShortCommand
  else
    let n := get_u32 b in
    if negb (n =? want) then Err errShortCommand
    else decodeResults (Z.to_nat n) (drop 4 b).

(** ** Sortable scores *)

Definition signBit : Z := 2 ^ 63.

Definition sortableScore (f : Z) : bytes :=
  put_u64 (if Z.testbit f 63 then uint64 (Z.lnot f) else Z.lor f signBit).

Definition unsortableScore (b : bytes) : Z :=
  let bits := get_u64 b in
  if Z.testbit bits 63 then Z.ldiff bits signBit else uint64 (Z.lnot bits).

(** ** Chunk lemmas *)

Definition chunk (b : bytes) : bytes := put_u32 (uint32 (lenZ b)) ++ b.

Lemma chunk_eq b : chunk b = put_u32 (uint32 (lenZ b)) ++ b.
Proof. done. Qed.
Lemma appendChunk_chunk dst b : appendChunk dst b = dst ++ chunk b.
Proof. done. Qed.

Lemma lenZ_nonneg b : 0 ≤ lenZ b.
Proof. unfold lenZ. lia. Qed.
Lemma lenZ_app a b : lenZ (a ++ b) = lenZ a + lenZ b.
Proof. unfold lenZ. rewrite length_app. lia. Qed.
Lemma lenZ_cons x b : lenZ (x :: b) = 1 + lenZ b.
Proof. unfold lenZ. simpl length. lia. Qed.
Lemma lenZ_drop n b : Z.of_nat n ≤ lenZ b → lenZ (drop n b) = lenZ b - Z.of_nat n.
Proof. unfold lenZ. rewrite length_drop. lia. Qed.
Lemma lenZ_put_u32 z : lenZ (put_u32 z) = 4.
Proof. unfold lenZ. by rewrite length_put_u32. Qed.
Lemma lenZ_put_u64 z : lenZ (put_u64 z) = 8.
Proof. unfold lenZ. by rewrite length_put_u64. Qed.
Lemma lenZ_chunk b : lenZ (chunk b) = 4 + lenZ b.
Proof. unfold chunk. by rewrite lenZ_app, lenZ_put_u32. Qed.

Create Rewrite HintDb lenZ.
#[export] Hint Rewrite lenZ_app lenZ_cons lenZ_put_u32 lenZ_put_u64 lenZ_chunk : lenZ.

(** Length side conditions of the codecs. *)
Ltac lens :=
  autorewrite with lenZ in *;
  repeat match goal with
  | |- context [lenZ ?b] =>
      lazymatch goal with
      | _ : 0 ≤ lenZ b |- _ => fail
      | _ => pose proof (lenZ_nonneg b)
      end
  | _ : context [lenZ ?b] |- _ =>
      lazymatch goal with
      | _ : 0 ≤ lenZ b |- _ => fail
      | _ => pose proof (lenZ_nonneg b)
      end
  end; zlia.

Lemma takeChunk_chunk x r : lenZ (x ++ r) < 2 ^ 32 → takeChunk (chunk x ++ r) = Ok (x, r).
Proof.
  intros Hlen. unfold takeChunk.
  destruct (Z.ltb_spec (lenZ (chunk x ++ r)) 4); [lens|].
  unfold chunk. rewrite <-app_assoc.
  rewrite get_put_u32 by apply uint32_range.
  rewrite (drop_app_field 4) by apply length_put_u32.
  rewrite !uint32_id by lens.
  destruct (Z.ltb_spec (lenZ (x ++ r)) (lenZ x)); [lens|].
  unfold lenZ. rewrite Nat2Z.id.
  by rewrite take_app_length, drop_app_length.
Qed.

Lemma takeChunk_inv b x r :
  takeChunk b = Ok (x, r) → b = chunk x ++ r ∧ lenZ x < 2 ^ 32.
Proof.
  unfold takeChunk. destruct (Z.ltb_spec (lenZ b) 4); [done|].
  pose proof (get_u32_range b) as Hn. set (n := get_u32 b) in *.
  assert (0 ≤ uint32 (lenZ (drop 4 b)) ≤ lenZ (drop 4 b)) as Hu.
  { Transparent uint32. unfold uint32. Opaque uint32.
    pose proof (lenZ_nonneg (drop 4 b)). split; [apply Z.mod_pos_bound; lia|].
    apply Z.mod_le; lia. }
  destruct (Z.ltb_spec (uint32 (lenZ (drop 4 b))) n); [done|]. intros [= <- <-].
  unfold lenZ in *. assert (length (take (Z.to_nat n) (drop 4 b)) = Z.to_nat n) as Hl.
  { rewrite length_take. zlia. }
  split; [|rewrite Hl; zlia]. unfold chunk, lenZ. rewrite Hl.
  rewrite Z2Nat.id, uint32_id by zlia. rewrite <-app_assoc, take_drop.
  subst n. rewrite put_get_u32 by lia. by rewrite take_drop.
Qed.

Lemma takeChunk_short b : lenZ b < 4 → takeChunk b = Err errShortCommand.
Proof. intros. unfold takeChunk. destruct (Z.ltb_spec (lenZ b) 4); [done|lia]. Qed.

(** Chunks are self-delimiting: this is what makes the key layout injective. *)
Lemma chunk_app_inj x1 x2 r1 r2 :
  lenZ x1 < 2 ^ 32 → lenZ x2 < 2 ^ 32 → chunk x1 ++ r1 = chunk x2 ++ r2 → x1 = x2 ∧ r1 = r2.
Proof.
  intros H1 H2 E. unfold chunk in E. rewrite <-!app_assoc in E.
  assert (lenZ x1 = lenZ x2) as El.
  { rewrite !uint32_id in E by lens.
    rewrite <-(get_put_u32 (lenZ x1) (x1 ++ r1)), <-(get_put_u32 (lenZ x2) (x2 ++ r2)) by lens.
    by rewrite E. }
  rewrite El in E. apply app_inv_head in E.
  apply app_inj_1; [unfold lenZ in El; lia|done].
Qed.

#[global] Opaque chunk.

(** ** Commands: flat encodings *)

Definition encItem (it : item) : bytes :=
  chunk (Key it) ++ chunk (Val it) ++ put_u64 (Score it) ++ put_u64 (uint64 (ExpiryMs it)).

Definition encItems (its : list item) : bytes := concat (encItem <$> its).

Lemma encItems_cons it its :
  encItems (it :: its) =
    chunk (Key it) ++ chunk (Val it) ++ put_u64 (Score it) ++ put_u64 (uint64 (ExpiryMs it)) ++
    encItems its.
Proof. unfold encItems, encItem. simpl. by rewrite <-!app_assoc. Qed.

Lemma fold_appendItem its dst : fold_left appendItem its dst = dst ++ encItems its.
Proof.
  revert dst. induction its as [|it its IH]; intros dst; simpl; [by rewrite app_nil_r|].
  rewrite IH, encItems_cons. unfold appendItem.
  by rewrite !appendChunk_chunk, <-!app_assoc.
Qed.

Lemma appendCommand_flat dst c :
  appendCommand dst c =
    dst ++ opByte (Op c) :: chunk (NS c) ++ chunk (Coll c) ++ chunk (Idem c) ++
    put_u32 (uint32 (Z.of_nat (length (Items c)))) ++ encItems (Items c).
Proof.
  unfold appendCommand. rewrite fold_appendItem, !appendChunk_chunk, <-!app_assoc. done.
Qed.

Definition item_wf (it : item) : Prop := in_u64 (Score it) ∧ in_i64 (ExpiryMs it).

(** The opcodes [decodeCommand] accepts. *)
Definition op_single (op : opKind) : Prop :=
  opKindOf (opByte op) = op ∧ (typeForOp op ≠ typeNone ∨ op = opExpire ∨ op = opRemove).

Definition command_wf (c : command) : Prop :=
  op_single (Op c) ∧ Forall item_wf (Items c) ∧ Z.of_nat (length (Items c)) < 2 ^ 32.

Lemma opByte_opKindOf b : opByte (opKindOf b) = b.
Proof. by destruct b. Qed.

Lemma decodeItems_enc its tl :
  Forall item_wf its → lenZ (encItems its ++ tl) < 2 ^ 32 →
  decodeItems (length its) (encItems its ++ tl) = Ok its.
Proof.
  induction its as [|it its IH]; intros Hwf Hlen; [done|].
  apply Forall_cons in Hwf as [[Hs He] Hwf].
  rewrite encItems_cons in *. rewrite <-!app_assoc in *. simpl.
  rewrite takeChunk_chunk by lens. simpl.
  rewrite takeChunk_chunk by lens. simpl.
  match goal with |- context [lenZ ?b <? 16] => destruct (Z.ltb_spec (lenZ b) 16); [lens|] end.
  rewrite get_put_u64 by done.
  rewrite (drop_app_field 8), get_put_u64 by auto using length_put_u64, uint64_range.
  rewrite (app_assoc (put_u64 _) (put_u64 _)).
  rewrite drop_app_field by (by rewrite length_app, !length_put_u64).
  rewrite IH; [|done|lens]. simpl. rewrite int64_cast by done. by destruct it.
Qed.

Lemma decodeItems_inv n rest its :
  decodeItems n rest = Ok its →
  length its = n ∧ Forall item_wf its ∧
  Forall (λ it, lenZ (Key it) < 2 ^ 32 ∧ lenZ (Val it) < 2 ^ 32) its ∧
  ∃ tl, rest = encItems its ++ tl.
Proof.
  revert rest its. induction n as [|n IH]; intros rest its; simpl.
  { intros [= <-]. split_and!; [done|constructor..|]. by exists rest. }
  rewrite res_bind_Ok. intros ([k r1] & [-> Hk]%takeChunk_inv & H).
  apply res_bind_Ok in H as ([v r2] & [-> Hv]%takeChunk_inv & H).
  destruct (Z.ltb_spec (lenZ r2) 16) as [|Hr2]; [done|].
  apply res_bind_Ok in H as (its' & (Hl & Hwf & Hsz & tl & E)%IH & [= <-]).
  assert (16 ≤ length r2)%nat by (unfold lenZ in Hr2; lia).
  split_and!; [simpl; by rewrite Hl|..].
  - constructor; [|done]. split; simpl; auto with width.
  - by constructor.
  - exists tl. rewrite encItems_cons. simpl.
    rewrite uint64_int64, uint64_id by auto with width.
    rewrite <-!app_assoc. do 2 f_equal. rewrite <-E.
    rewrite !put_get_u64 by (rewrite ?length_drop; lia).
    rewrite app_assoc, (take_take_drop r2 8 8), take_drop. done.
Qed.

Lemma decodeCommand_enc c tl :
  command_wf c → lenZ (encodeCommand c ++ tl) < 2 ^ 32 →
  decodeCommand (encodeCommand c ++ tl) = Ok c.
Proof.
  intros ((Hop & Ht) & Hits & Hn) Hlen. unfold encodeCommand in *.
  rewrite appendCommand_flat in *. rewrite app_nil_l in *. simpl in *.
  rewrite Hop. rewrite <-!app_assoc in *.
  match goal with |- context [if ?b then _ else _] => assert (b = false) as -> end.
  { apply andb_false_iff. rewrite andb_false_iff, !bool_decide_eq_false.
    destruct Ht as [?|[?|?]]; [by left; left|left; right; naive_solver|right; naive_solver]. }
  do 3 (rewrite takeChunk_chunk by lens; simpl).
  match goal with |- context [lenZ ?b <? 4] => destruct (Z.ltb_spec (lenZ b) 4); [lens|] end.
  rewrite get_put_u32 by apply uint32_range. rewrite uint32_id by zlia.
  rewrite Nat2Z.id, (drop_app_field 4) by apply length_put_u32.
  rewrite decodeItems_enc; [|done|lens]. simpl. by destruct c.
Qed.

Lemma decodeCommand_inv b c :
  decodeCommand b = Ok c → command_wf c ∧
  lenZ (NS c) < 2 ^ 32 ∧ lenZ (Coll c) < 2 ^ 32 ∧ lenZ (Idem c) < 2 ^ 32 ∧
  Forall (λ it, lenZ (Key it) < 2 ^ 32 ∧ lenZ (Val it) < 2 ^ 32) (Items c) ∧
  ∃ tl, b = encodeCommand c ++ tl.
Proof.
  destruct b as [|b0 rest]; simpl; [done|].
  destruct (_ && _ && _) eqn:Hop; [done|].
  intros H. apply res_bind_Ok in H as ([ns r1] & [-> Hns]%takeChunk_inv & H).
  apply res_bind_Ok in H as ([coll r2] & [-> Hcoll]%takeChunk_inv & H).
  apply res_bind_Ok in H as ([idem r3] & [-> Hidem]%takeChunk_inv & H).
  destruct (Z.ltb_spec (lenZ r3) 4) as [|Hr]; [done|].
  apply res_bind_Ok in H as (its & (Hl & Hwf & Hsz & tl & E)%decodeItems_inv & [= <-]).
  pose proof (get_u32_range r3). simpl.
  split_and!; try done.
  - split_and!; simpl; [|done|zlia]. split; [by rewrite opByte_opKindOf|].
    rewrite !andb_false_iff, !bool_decide_eq_false in Hop.
    destruct Hop as [[?|?%dec_stable]|?%dec_stable]; auto.
  - exists tl. unfold encodeCommand. rewrite appendCommand_flat. simpl.
    rewrite opByte_opKindOf, <-!app_assoc. do 4 f_equal. rewrite <-E, Hl, Z2Nat.id by zlia.
    rewrite uint32_id, put_get_u32 by (unfold lenZ in *; zlia).
    by rewrite take_drop.
Qed.

(** ** Batches *)

Definition encChunks (cs : list bytes) : bytes := concat (chunk <$> cs).

Lemma encChunks_cons c cs : encChunks (c :: cs) = chunk c ++ encChunks cs.
Proof. done. Qed.

Lemma fold_appendChunk cs dst : fold_left appendChunk cs dst = dst ++ encChunks cs.
Proof.
  revert dst. induction cs as [|c cs IH]; intros dst; simpl; [by rewrite app_nil_r|].
  rewrite IH, appendChunk_chunk, <-app_assoc. done.
Qed.

Lemma decodeChunks_enc cs tl :
  lenZ (encChunks cs ++ tl) < 2 ^ 32 → decodeChunks (length cs) (encChunks cs ++ tl) = Ok cs.
Proof.
  induction cs as [|c cs IH]; intros Hlen; simpl; [done|].
  rewrite encChunks_cons, <-app_assoc in *.
  rewrite takeChunk_chunk by lens. simpl. rewrite IH by lens. done.
Qed.

Lemma decodeChunks_inv n rest cs :
  decodeChunks n rest = Ok cs → ∃ tl, rest = encChunks cs ++ tl.
Proof.
  revert rest cs. induction n as [|n IH]; intros rest cs; simpl.
  { intros [= <-]. by exists rest. }
  rewrite res_bind_Ok. intros ([c r] & [-> _]%takeChunk_inv & H).
  apply res_bind_Ok in H as (cs' & [tl ->]%IH & [= <-]).
  exists tl. unfold encChunks. simpl. by rewrite <-app_assoc.
Qed.

Definition encResults (rs : list ProposeResult) : bytes :=
  concat ((λ r, put_u64 (Value r) ++ chunk (Data r)) <$> rs).

Lemma encResults_cons r rs :
  encResults (r :: rs) = put_u64 (Value r) ++ chunk (Data r) ++ encResults rs.
Proof. unfold encResults. simpl. by rewrite <-app_assoc. Qed.

Lemma fold_appendResult rs dst : fold_left appendResult rs dst = dst ++ encResults rs.
Proof.
  revert dst. induction rs as [|r rs IH]; intros dst; simpl; [by rewrite app_nil_r|].
  rewrite IH, encResults_cons. unfold appendResult.
  by rewrite appendChunk_chunk, <-!app_assoc.
Qed.

Lemma decodeResults_enc rs tl :
  Forall (λ r, in_u64 (Value r)) rs → lenZ (encResults rs ++ tl) < 2 ^ 32 →
  decodeResults (length rs) (encResults rs ++ tl) = Ok rs.
Proof.
  induction rs as [|r rs IH]; intros Hwf Hlen; simpl; [done|].
  apply Forall_cons in Hwf as [Hv Hwf]. rewrite encResults_cons in *. rewrite <-!app_assoc in *.
  match goal with |- context [lenZ ?b <? 8] => destruct (Z.ltb_spec (lenZ b) 8); [lens|] end.
  rewrite (drop_app_field 8) by apply length_put_u64.
  rewrite takeChunk_chunk by lens. simpl. rewrite IH; [|done|lens]. simpl.
  rewrite get_put_u64 by done. by destruct r.
Qed.

(** ** Sortable scores *)

(** The bits of a float64 read as a sign-magnitude integer. IEEE 754 orders the
    non-NaN doubles as these integers (with the two zeros equal). *)
Definition signMagnitude (f : Z) : Z := if Z.testbit f 63 then - (f - 2 ^ 63) else f.

Lemma testbit63 f : in_u64 f → Z.testbit f 63 = (2 ^ 63 <=? f).
Proof.
  intros Hf. rewrite Z.testbit_eqb by lia.
  destruct (Z.leb_spec (2 ^ 63) f).
  - apply Z.eqb_eq. assert (f / 2 ^ 63 = 1) as -> by divlia. done.
  - apply Z.eqb_neq. assert (f / 2 ^ 63 = 0) as -> by divlia. done.
Qed.

Lemma lor_signBit f : in_u64 f → f < 2 ^ 63 → Z.lor f signBit = f + 2 ^ 63.
Proof.
  intros Hf Hlt. rewrite <-Z.add_lor_land. unfold signBit.
  assert (Z.land f (2 ^ 63) = 0) as ->; [|lia].
  apply Z.bits_inj'. intros n Hn. rewrite Z.land_spec, Z.bits_0.
  destruct (Z.eq_dec n 63) as [->|].
  - rewrite testbit63 by done. destruct (Z.leb_spec (2 ^ 63) f); [lia|done].
  - rewrite Z.pow2_bits_false by lia. apply andb_false_r.
Qed.

Lemma ldiff_signBit f : in_u64 f → 2 ^ 63 ≤ f → Z.ldiff f signBit = f - 2 ^ 63.
Proof.
  intros Hf Hle. unfold signBit. symmetry. apply Z.sub_nocarry_ldiff.
  apply Z.bits_inj'. intros n Hn. rewrite Z.ldiff_spec, Z.bits_0.
  destruct (Z.eq_dec n 63) as [->|].
  - rewrite (testbit63 f) by done. destruct (Z.leb_spec (2 ^ 63) f); [apply andb_false_r|lia].
  - by rewrite Z.pow2_bits_false by lia.
Qed.

Lemma uint64_lnot f : in_u64 f → uint64 (Z.lnot f) = 2 ^ 64 - 1 - f.
Proof.
  intros Hf. rewrite <-(uint64_id (2 ^ 64 - 1 - f)) by zlia.
  rewrite <-uint64_int64, <-(uint64_int64 (2 ^ 64 - 1 - f)). f_equal.
  Transparent int64. unfold int64. Opaque int64. f_equal.
  rewrite <-(Z.mod_add (Z.lnot f + 2 ^ 63) 1) by lia. f_equal. unfold Z.lnot. lia.
Qed.

(** [sortableScore]'s bit tricks as arithmetic. *)
Definition sortableBits (f : Z) : Z := if 2 ^ 63 <=? f then 2 ^ 64 - 1 - f else f + 2 ^ 63.

Lemma sortableBits_range f : in_u64 f → in_u64 (sortableBits f).
Proof. intros. unfold sortableBits. destruct (Z.leb_spec (2 ^ 63) f); zlia. Qed.

Lemma sortableScore_bits f : in_u64 f → sortableScore f = put_u64 (sortableBits f).
Proof.
  intros Hf. unfold sortableScore, sortableBits. rewrite testbit63 by done.
  destruct (Z.leb_spec (2 ^ 63) f); [by rewrite uint64_lnot|by rewrite lor_signBit].
Qed.

Lemma length_sortableScore f : length (sortableScore f) = 8%nat.
Proof. apply length_put_u64. Qed.

Lemma unsortableScore_sortable f tl :
  in_u64 f → unsortableScore (sortableScore f ++ tl) = f.
Proof.
  intros Hf. rewrite sortableScore_bits by done. unfold unsortableScore.
  pose proof (sortableBits_range f Hf) as Hb. rewrite get_put_u64 by done.
  rewrite testbit63 by done. unfold sortableBits in *.
  destruct (Z.leb_spec (2 ^ 63) f).
  - destruct (Z.leb_spec (2 ^ 63) (2 ^ 64 - 1 - f)); [lia|]. rewrite uint64_lnot by done. lia.
  - destruct (Z.leb_spec (2 ^ 63) (f + 2 ^ 63)); [|zlia]. rewrite ldiff_signBit by zlia. lia.
Qed.

Lemma sortableScore_inj f g :
  in_u64 f → in_u64 g → sortableScore f = sortableScore g → f = g.
Proof.
  intros Hf Hg E. rewrite <-(unsortableScore_sortable f []), <-(unsortableScore_sortable g []) by done.
  by rewrite E.
Qed.

Lemma sortableScore_lt f g (m1 m2 : bytes) :
  in_u64 f → in_u64 g → signMagnitude f < signMagnitude g →
  bytes_lt (sortableScore f ++ m1) (sortableScore g ++ m2).
Proof.
  intros Hf Hg Hlt. unfold bytes_lt. rewrite bcompare_app_same_length by (by rewrite !length_sortableScore).
  rewrite !sortableScore_bits, bcompare_put_u64 by eauto using sortableBits_range.
  assert (sortableBits f < sortableBits g) as H; [|by apply Z.compare_lt_iff in H as ->].
  unfold signMagnitude, sortableBits in *. rewrite !testbit63 in Hlt by done.
  destruct (Z.leb_spec (2 ^ 63) f), (Z.leb_spec (2 ^ 63) g); zlia.
Qed.

#[global] Opaque sortableScore unsortableScore.

(** ** Properties *)

(** the command encoding round-trips: a well-formed command whose encoding
    (with anything after it) is shorter than 2^32 bytes decodes to itself, and
    conversely whatever decodes is a well-formed command followed by ignored
    bytes. So [decodeCommand] accepts exactly the encodings. *)
Theorem command_roundtrip (c : command) (b tl : bytes) :
  (command_wf c → lenZ (encodeCommand c ++ tl) < 2 ^ 32 →
   decodeCommand (encodeCommand c ++ tl) = Ok c) ∧
  (decodeCommand b = Ok c → command_wf c ∧ ∃ tl', b = encodeCommand c ++ tl').
Proof.
  split; [apply decodeCommand_enc|].
  intros (?&?&?&?&?&?)%decodeCommand_inv. done.
Qed.

Lemma command_roundtrip_witness :
  let c := mkCommand opSAdd (lit "ns") (lit "c") [] [mkItem (lit "m") [] 0 5] in
  decodeCommand (encodeCommand c ++ [x07]) = Ok c.
Proof.
  intros c. destruct (command_roundtrip c [] [x07]) as [H _]. apply H.
  - unfold command_wf. split; [by split; [|left]|]. split; [|by vm_compute].
    repeat constructor; vm_compute; congruence.
  - vm_compute. reflexivity.
Defined.

(** coalescing is invertible: the wrapper of a batch of commands decodes to the
    same commands in the same order, and the packed results of the batch decode
    to the same results, so every caller gets its own command's answer. *)
Theorem batch_roundtrip (cmds : list bytes) (rs : list ProposeResult) :
  Z.of_nat (length cmds) < 2 ^ 32 → lenZ (encodeBatchInto [] cmds) < 2 ^ 32 →
  Forall (λ r, in_u64 (Value r)) rs → Z.of_nat (length rs) < 2 ^ 32 →
  lenZ (encodeBatchResult [] rs) < 2 ^ 32 →
  decodeBatch (encodeBatchInto [] cmds) = Ok cmds ∧
  decodeBatchResult (encodeBatchResult [] rs) (Z.of_nat (length rs)) = Ok rs.
Proof.
  unfold encodeBatchInto, encodeBatchResult, decodeBatch, decodeBatchResult.
  rewrite !app_nil_l, fold_appendChunk, fold_appendResult, <-app_assoc. simpl.
  intros Hc Hlc Hv Hr Hlr. split.
  - match goal with |- context [lenZ ?b <? 4] => destruct (Z.ltb_spec (lenZ b) 4); [lens|] end.
    rewrite get_put_u32 by apply uint32_range. rewrite uint32_id, Nat2Z.id by zlia.
    rewrite (drop_app_field 4) by apply length_put_u32.
    rewrite <-(app_nil_r (encChunks cmds)). apply decodeChunks_enc. rewrite app_nil_r. lens.
  - match goal with |- context [lenZ ?b <? 4] => destruct (Z.ltb_spec (lenZ b) 4); [lens|] end.
    rewrite get_put_u32 by apply uint32_range. rewrite uint32_id, Z.eqb_refl, Nat2Z.id by zlia.
    rewrite (drop_app_field 4) by apply length_put_u32. simpl.
    rewrite <-(app_nil_r (encResults rs)). apply decodeResults_enc; [done|]. rewrite app_nil_r. lens.
Qed.

Lemma batch_roundtrip_witness :
  decodeBatch (encodeBatchInto [] [[x01]; []]) = Ok [[x01]; []].
Proof.
  apply (batch_roundtrip [[x01]; []] [mkResult 3 []]); [by vm_compute..| |by vm_compute|by vm_compute].
  repeat constructor; vm_compute; congruence.
Defined.

(** the sorted-set index key of a score reads back to the score, and byte order
    on index keys is numeric order on scores: a lower score sorts before a
    higher one whatever members follow. *)
Theorem sortableScore_order (f g : Z) (m1 m2 : bytes) :
  in_u64 f → in_u64 g →
  unsortableScore (sortableScore f ++ m1) = f ∧
  (signMagnitude f < signMagnitude g →
   bytes_lt (sortableScore f ++ m1) (sortableScore g ++ m2)).
Proof.
  intros Hf Hg. split; [by apply unsortableScore_sortable|by apply sortableScore_lt].
Qed.

Lemma sortableScore_order_witness :
  unsortableScore (sortableScore (2 ^ 62) ++ [x01]) = 2 ^ 62.
Proof.
  apply (sortableScore_order (2 ^ 62) 0 [x01] []); vm_compute; split; congruence.
Defined.

End Command.
