(* ===== verification/Uvarint.v ===== *)
(** * Variable-length integers (encoding/binary)

    [binary.PutUvarint] and [binary.Uvarint] of the Go standard library, and the
    length-prefixed fields the key encodings of the record and graph stores build
    with them. *)

From S2P Require Import Prelude Bytes Command.

Local Open Scope Z_scope.

Module Uvarint.
Import Command.

(** ** The codec *)

(** [binary.MaxVarintLen64]. *)
Definition maxVarintLen64 : nat := 10.

Fixpoint put_uvarint_loop (fuel : nat) (x : Z) : bytes :=
  match fuel with
  | O => [Zbyte x]
  | S fuel' => if x <? 128 then [Zbyte x] else Zbyte (Z.lor x 128) :: put_uvarint_loop fuel' (Z.shiftr x 7)
  end.

(** Nine continuation bytes are enough for 64 bits. *)
Definition PutUvarint (x : Z) : bytes := put_uvarint_loop 9 x.

(** The value and the number of bytes read; [None] when the buffer is short or the
    value does not fit 64 bits (Go's [n <= 0]). *)
Fixpoint uvarint_loop (i : nat) (x s : Z) (buf : bytes) : option (Z * nat) :=
  match buf with
  | [] => None
  | b :: buf' =>
      if decide (i = maxVarintLen64) then None
      else if byteZ b <? 128 then
        if bool_decide (i = (maxVarintLen64 - 1)%nat) && (1 <? byteZ b) then None
        else Some (Z.lor x (Z.shiftl (byteZ b) s), S i)
      else uvarint_loop (S i) (Z.lor x (Z.shiftl (Z.land (byteZ b) 127) s)) (s + 7) buf'
  end.

Definition Uvarint (buf : bytes) : option (Z * nat) := uvarint_loop 0 0 0 buf.

(** [lenPrefix]: a length and the bytes. *)
Definition lenPrefix (dst b : bytes) : bytes := dst ++ PutUvarint (lenZ b) ++ b.

(** Read back a length-prefixed field and what follows it. *)
Definition takePrefixed (k : bytes) : option (bytes * bytes) :=
  match Uvarint k with
  | None => None
  | Some (len, n) =>
      if uint64 (lenZ k - Z.of_nat n) <? len then None
      else Some (take (Z.to_nat len) (drop n k), drop (n + Z.to_nat len) k)
  end.

(** ** Lemmas *)

Lemma lor_shiftl_add x b s : 0 ≤ s → 0 ≤ x < 2 ^ s → Z.lor x (Z.shiftl b s) = x + b * 2 ^ s.
Proof.
  intros Hs Hx. assert (Z.land x (Z.shiftl b s) = 0) as E0.
  { apply Z.bits_inj'. intros n Hn. rewrite Z.land_spec, Z.bits_0, Z.shiftl_spec by done.
    destruct (Z.ltb_spec n s); [rewrite (Z.testbit_neg_r b) by lia; apply andb_false_r|].
    rewrite <-(Z.mod_small x (2 ^ s)) by done. by rewrite Z.mod_pow2_bits_high by lia. }
  rewrite <-Z.shiftl_mul_pow2 by done. by rewrite Z.add_nocarry_lxor, Z.lxor_lor.
Qed.

Lemma land_127 x : Z.land x 127 = x mod 128.
Proof. change 127 with (Z.ones 7). by rewrite Z.land_ones. Qed.

Lemma lor_128 y : 0 ≤ y < 256 → Z.lor y 128 = y mod 128 + 128.
Proof.
  intros Hy. assert (∀ z, 0 ≤ z < 128 → Z.lor z 128 = z + 128) as E.
  { intros z Hz. apply (lor_shiftl_add z 1 7); lia. }
  destruct (Z.ltb_spec y 128); [rewrite E, Z.mod_small by lia; done|].
  replace y with (y - 128 + 128) at 1 by lia. rewrite <-E, <-Z.lor_assoc, Z.lor_diag, E by lia. divlia.
Qed.

Lemma byteZ_cont x : 0 ≤ x → byteZ (Zbyte (Z.lor x 128)) = x mod 128 + 128.
Proof.
  intros Hx. rewrite byteZ_Zbyte. change 256 with (2 ^ 8). rewrite <-Z.land_ones by lia.
  rewrite Z.land_lor_distr_l, Z.land_ones by lia. change (Z.land 128 (Z.ones 8)) with 128.
  change (2 ^ 8) with 256. rewrite lor_128 by (apply Z.mod_pos_bound; lia). divlia.
Qed.

Lemma shiftr_7 x : Z.shiftr x 7 = x / 128.
Proof. by rewrite Z.shiftr_div_pow2. Qed.

Lemma put_uvarint_length f x : (0 < length (put_uvarint_loop f x) ≤ S f)%nat.
Proof. revert x. induction f as [|f IH]; intros x; simpl; [lia|]. case_match; simpl; [lia|]. specialize (IH (Z.shiftr x 7)). lia. Qed.

Lemma uvarint_put f i x v r :
  (i + f = 9)%nat → 0 ≤ x < 2 ^ (7 * Z.of_nat i) → 0 ≤ v < 2 ^ (64 - 7 * Z.of_nat i) →
  uvarint_loop i x (7 * Z.of_nat i) (put_uvarint_loop f v ++ r) =
    Some (x + v * 2 ^ (7 * Z.of_nat i), (i + length (put_uvarint_loop f v))%nat).
Proof.
  revert i x v. induction f as [|f IH]; intros i x v Hi Hx Hv.
  - assert (i = 9%nat) as -> by lia. change (2 ^ (64 - 7 * Z.of_nat 9)) with 2 in Hv. cbn [put_uvarint_loop app uvarint_loop].
    rewrite byteZ_Zbyte, Z.mod_small by lia. destruct (Z.ltb_spec v 128); [|lia]. destruct (Z.ltb_spec 1 v); [lia|].
    rewrite andb_false_r, lor_shiftl_add by (done || lia). done.
  - cbn [put_uvarint_loop]. destruct (Z.ltb_spec v 128).
    + cbn [app uvarint_loop length]. rewrite decide_False by (unfold maxVarintLen64; lia).
      rewrite byteZ_Zbyte, Z.mod_small by lia. destruct (Z.ltb_spec v 128); [|lia].
      rewrite bool_decide_eq_false_2 by (unfold maxVarintLen64; lia). rewrite andb_false_l, lor_shiftl_add by lia.
      f_equal. f_equal. lia.
    + cbn [app uvarint_loop length]. rewrite decide_False by (unfold maxVarintLen64; lia).
      rewrite byteZ_cont by lia. pose proof (Z.mod_pos_bound v 128 ltac:(lia)).
      destruct (Z.ltb_spec (v mod 128 + 128) 128); [lia|]. rewrite land_127, lor_shiftl_add by (divlia || lia).
      replace ((v mod 128 + 128) mod 128) with (v mod 128) by divlia.
      assert (2 ^ (7 * Z.of_nat (S i)) = 128 * 2 ^ (7 * Z.of_nat i)) as Ep.
      { replace (7 * Z.of_nat (S i)) with (7 + 7 * Z.of_nat i) by lia. rewrite Z.pow_add_r by lia. done. }
      assert (2 ^ (64 - 7 * Z.of_nat i) = 128 * 2 ^ (64 - 7 * Z.of_nat (S i))) as Ep2.
      { replace (64 - 7 * Z.of_nat i) with (7 + (64 - 7 * Z.of_nat (S i))) by lia. rewrite Z.pow_add_r by lia. done. }
      replace (7 * Z.of_nat i + 7) with (7 * Z.of_nat (S i)) by lia. rewrite shiftr_7, IH.
      * f_equal. f_equal; [|lia]. rewrite Ep. pose proof (Z.div_mod v 128 ltac:(lia)). nia.
      * lia.
      * rewrite Ep. nia.
      * rewrite Ep2 in Hv. split; [divlia|]. apply Z.div_lt_upper_bound; lia.
Qed.

Lemma Uvarint_Put v r : in_u64 v → Uvarint (PutUvarint v ++ r) = Some (v, length (PutUvarint v)).
Proof.
  intros Hv. unfold Uvarint, PutUvarint. change 0 with (7 * Z.of_nat 0) at 2.
  rewrite uvarint_put by (done || zlia). f_equal. f_equal. lia.
Qed.

(** Length-prefixed fields are self-delimiting. *)
Lemma takePrefixed_lenPrefix b r : lenZ (lenPrefix [] b ++ r) < 2 ^ 64 → takePrefixed (lenPrefix [] b ++ r) = Some (b, r).
Proof.
  intros Hl. unfold lenPrefix in *. rewrite app_nil_l in *. rewrite <-!app_assoc in *. unfold takePrefixed.
  rewrite Uvarint_Put by lens. set (h := PutUvarint (lenZ b)) in *.
  rewrite lenZ_app in *. replace (Z.of_nat (length h)) with (lenZ h) by done.
  rewrite uint64_id by lens. destruct (Z.ltb_spec (lenZ h + lenZ (b ++ r) - lenZ h) (lenZ b)); [lens|].
  rewrite drop_app_length. unfold lenZ. rewrite Nat2Z.id. rewrite take_app_length.
  by rewrite <-drop_drop, drop_app_length, drop_app_length.
Qed.

Lemma lenPrefix_inj b1 b2 r1 r2 :
  lenZ b1 < 2 ^ 63 → lenZ b2 < 2 ^ 63 → lenPrefix [] b1 ++ r1 = lenPrefix [] b2 ++ r2 → b1 = b2 ∧ r1 = r2.
Proof.
  intros H1 H2 E. unfold lenPrefix in E. rewrite !app_nil_l, <-!app_assoc in E.
  assert (lenZ b1 = lenZ b2) as El.
  { pose proof (Uvarint_Put (lenZ b1) (b1 ++ r1) ltac:(lens)) as E1. rewrite E in E1.
    rewrite Uvarint_Put in E1 by lens. congruence. }
  rewrite El in E. apply app_inv_head in E. apply app_inj_1 in E; [done|]. unfold lenZ in El. lia.
Qed.

Lemma lenPrefix_app dst b : lenPrefix dst b = dst ++ lenPrefix [] b.
Proof. done. Qed.

(** A short field starts with its length. *)
Lemma lenPrefix_short b : lenZ b < 128 → lenPrefix [] b = Zbyte (lenZ b) :: b.
Proof.
  intros Hl. unfold lenPrefix, PutUvarint. cbn [put_uvarint_loop]. destruct (Z.ltb_spec (lenZ b) 128); [done|lia].
Qed.

End Uvarint.
