(* ===== verification/Keys.v ===== *)
(** * Key layout of a Raft shard (statemachine.go, base_sm.go, ttl.go, dedup.go,
      freeze.go, budget.go, meta.go)

    Every key of a shard lives in [CFReplData] under the 8-byte big-endian shard
    id. [sm] is a state machine's store and prefix (baseSM); the functions below
    are its key constructors, followed by the lemmas that the layout is
    unambiguous. *)

From S2P Require Import Prelude Bytes Storage Command.

Local Open Scope Z_scope.

Module Keys.
Import Storage Command.

(** Sub-spaces under the shard prefix. *)
Definition subMeta : byte := x00.
Definition subData : byte := x01.
Definition subTTL : byte := x02.
Definition subDedup : byte := x03.
Definition subDedupRing : byte := x04.
Definition subBudExp : byte := x05.
Definition subBudTombGC : byte := x06.
Definition subBackup : byte := x07.

(** Scopes under [subData|chunk(ns)|chunk(coll)]. *)
Definition scopeCard : byte := x00.
Definition scopeElem : byte := x01.
Definition scopeZPtr : byte := x02.
Definition scopeType : byte := x03.
Definition scopeTTLPtr : byte := x04.
Definition scopeBudPool : byte := x05.
Definition scopeBudLease : byte := x06.
Definition scopeBudTomb : byte := x07.

Definition frozenTag : byte := x01.
Definition dedupRingSize : Z := 4096.

(** [baseSM]: the store, the shard id and the prefix derived from it. *)
Record baseSM (S : Type) := mkBaseSM { sm_store : S; sm_shardID : Z; sm_prefix : bytes }.
Arguments mkBaseSM {S}.
Arguments sm_store {S}.
Arguments sm_shardID {S}.
Arguments sm_prefix {S}.

Definition newBaseSM {S} (store : S) (shardID : Z) : baseSM S :=
  mkBaseSM store shardID (put_u64 shardID).

Definition with_store {S} (s : baseSM S) (store : S) : baseSM S :=
  mkBaseSM store (sm_shardID s) (sm_prefix s).

Section keys.
Context (p : bytes).

Definition appliedKey : bytes := p ++ [subMeta] ++ lit "applied".
Definition dedupSeqKey : bytes := p ++ [subMeta] ++ lit "dedupseq".
Definition frozenSpace : bytes := p ++ [subMeta] ++ [frozenTag].
Definition frozenKey (start : bytes) : bytes := frozenSpace ++ start.
Definition dedupKey (key : bytes) : bytes := p ++ [subDedup] ++ key.
Definition dedupRingKey (slot : Z) : bytes := p ++ [subDedupRing] ++ put_u64 slot.

Definition dataSpace : bytes := p ++ [subData].
Definition collScope (ns coll : bytes) : bytes := appendChunk (appendChunk dataSpace ns) coll.
Definition cardKey (ns coll : bytes) : bytes := collScope ns coll ++ [scopeCard].
Definition typeKey (ns coll : bytes) : bytes := collScope ns coll ++ [scopeType].
Definition elemPrefix (ns coll : bytes) : bytes := collScope ns coll ++ [scopeElem].
Definition elemKey (ns coll member : bytes) : bytes := elemPrefix ns coll ++ member.
Definition zscoreKey (ns coll : bytes) (score : Z) (member : bytes) : bytes :=
  elemPrefix ns coll ++ sortableScore score ++ member.
Definition zptrKey (ns coll member : bytes) : bytes := collScope ns coll ++ [scopeZPtr] ++ member.

Definition ttlSpace : bytes := p ++ [subTTL].
Definition ttlIndexKey (expiry : Z) (ns coll member : bytes) : bytes :=
  appendChunk (appendChunk (ttlSpace ++ put_u64 expiry) ns) coll ++ member.
Definition ttlPtrKey (ns coll member : bytes) : bytes :=
  collScope ns coll ++ [scopeTTLPtr] ++ member.

Definition budPoolKey (ns coll : bytes) : bytes := collScope ns coll ++ [scopeBudPool].
Definition budLeasePrefix (ns coll : bytes) : bytes := collScope ns coll ++ [scopeBudLease].
Definition budLeaseKey (ns coll leaseID : bytes) : bytes := budLeasePrefix ns coll ++ leaseID.
Definition budTombKey (ns coll leaseID : bytes) : bytes :=
  collScope ns coll ++ [scopeBudTomb] ++ leaseID.
Definition budExpSpace : bytes := p ++ [subBudExp].
Definition budTombGCSpace : bytes := p ++ [subBudTombGC].
Definition budExpKey (reclaimMs : Z) (ns coll leaseID : bytes) : bytes :=
  appendChunk (appendChunk (budExpSpace ++ put_u64 (uint64 reclaimMs)) ns) coll ++ leaseID.
Definition budTombGCKey (gcDueMs : Z) (ns coll leaseID : bytes) : bytes :=
  appendChunk (appendChunk (budTombGCSpace ++ put_u64 (uint64 gcDueMs)) ns) coll ++ leaseID.

Definition rangeSpace : bytes := p ++ [subData].
Definition rangeKey (start : bytes) : bytes := rangeSpace ++ start.
Definition backupSpace : bytes := p ++ [subBackup].
Definition backupKey (key : bytes) : bytes := backupSpace ++ key.

End keys.

(** [routeKey] (meta.go): a collection's position in the routed key space. *)
Definition routeKey (ns coll : bytes) : bytes := appendChunk (appendChunk [] ns) coll.

(** ** One shape per family of keys

    Collection keys are [dkey], due-index keys are [ikey]; both embed the
    collection's (namespace, name) as chunks. *)

Definition dkey (p : bytes) (scope : byte) (ns coll rest : bytes) : bytes :=
  p ++ subData :: chunk ns ++ chunk coll ++ scope :: rest.

Definition ikey (p : bytes) (sub : byte) (t : Z) (ns coll rest : bytes) : bytes :=
  p ++ sub :: put_u64 t ++ chunk ns ++ chunk coll ++ rest.

Lemma collScope_eq p ns coll : collScope p ns coll = p ++ subData :: chunk ns ++ chunk coll.
Proof.
  unfold collScope, dataSpace. rewrite !appendChunk_chunk, <-!app_assoc. done.
Qed.

Lemma collScope_dkey p ns coll s rest :
  collScope p ns coll ++ s :: rest = dkey p s ns coll rest.
Proof. rewrite collScope_eq. unfold dkey. by rewrite <-app_assoc, <-app_comm_cons, <-app_assoc. Qed.

Lemma cardKey_dkey p ns coll : cardKey p ns coll = dkey p scopeCard ns coll [].
Proof. apply collScope_dkey. Qed.
Lemma typeKey_dkey p ns coll : typeKey p ns coll = dkey p scopeType ns coll [].
Proof. apply collScope_dkey. Qed.
Lemma elemKey_dkey p ns coll m : elemKey p ns coll m = dkey p scopeElem ns coll m.
Proof. unfold elemKey, elemPrefix. rewrite <-app_assoc. apply collScope_dkey. Qed.
Lemma elemPrefix_dkey p ns coll : elemPrefix p ns coll = dkey p scopeElem ns coll [].
Proof. apply collScope_dkey. Qed.
Lemma zscoreKey_dkey p ns coll f m :
  zscoreKey p ns coll f m = dkey p scopeElem ns coll (sortableScore f ++ m).
Proof. unfold zscoreKey, elemPrefix. rewrite <-app_assoc. apply collScope_dkey. Qed.
Lemma zptrKey_dkey p ns coll m : zptrKey p ns coll m = dkey p scopeZPtr ns coll m.
Proof. apply collScope_dkey. Qed.
Lemma ttlPtrKey_dkey p ns coll m : ttlPtrKey p ns coll m = dkey p scopeTTLPtr ns coll m.
Proof. apply collScope_dkey. Qed.
Lemma budPoolKey_dkey p ns coll : budPoolKey p ns coll = dkey p scopeBudPool ns coll [].
Proof. apply collScope_dkey. Qed.
Lemma budLeaseKey_dkey p ns coll l : budLeaseKey p ns coll l = dkey p scopeBudLease ns coll l.
Proof. unfold budLeaseKey, budLeasePrefix. rewrite <-app_assoc. apply collScope_dkey. Qed.
Lemma budTombKey_dkey p ns coll l : budTombKey p ns coll l = dkey p scopeBudTomb ns coll l.
Proof. apply collScope_dkey. Qed.

Lemma ikey_eq p sub t ns coll rest :
  appendChunk (appendChunk ((p ++ [sub]) ++ put_u64 t) ns) coll ++ rest = ikey p sub t ns coll rest.
Proof. unfold ikey. rewrite !appendChunk_chunk, <-!app_assoc. done. Qed.
Lemma ttlIndexKey_ikey p t ns coll m : ttlIndexKey p t ns coll m = ikey p subTTL t ns coll m.
Proof. apply ikey_eq. Qed.
Lemma budExpKey_ikey p t ns coll l :
  budExpKey p t ns coll l = ikey p subBudExp (uint64 t) ns coll l.
Proof. apply ikey_eq. Qed.
Lemma budTombGCKey_ikey p t ns coll l :
  budTombGCKey p t ns coll l = ikey p subBudTombGC (uint64 t) ns coll l.
Proof. apply ikey_eq. Qed.

Lemma routeKey_eq ns coll : routeKey ns coll = chunk ns ++ chunk coll.
Proof. unfold routeKey. by rewrite !appendChunk_chunk. Qed.

Create Rewrite HintDb keys.
#[export] Hint Rewrite cardKey_dkey typeKey_dkey elemKey_dkey elemPrefix_dkey zscoreKey_dkey zptrKey_dkey
  ttlPtrKey_dkey budPoolKey_dkey budLeaseKey_dkey budTombKey_dkey ttlIndexKey_ikey
  budExpKey_ikey budTombGCKey_ikey : keys.

(** ** Unambiguity *)

(** A namespace and a collection name fit their length prefixes. *)
Definition nc_ok (ns coll : bytes) : Prop := lenZ ns < 2 ^ 32 ∧ lenZ coll < 2 ^ 32.

Lemma cons_eq_inv {A} (x y : A) l k : x :: l = y :: k → x = y ∧ l = k.
Proof. by inversion 1. Qed.

Lemma dkey_inj p s1 s2 ns1 ns2 coll1 coll2 r1 r2 :
  nc_ok ns1 coll1 → nc_ok ns2 coll2 →
  dkey p s1 ns1 coll1 r1 = dkey p s2 ns2 coll2 r2 →
  s1 = s2 ∧ ns1 = ns2 ∧ coll1 = coll2 ∧ r1 = r2.
Proof.
  intros [??] [??] E. unfold dkey in E. apply app_inv_head in E. apply cons_eq_inv in E as [_ E].
  apply chunk_app_inj in E as [-> E]; [|done..].
  apply chunk_app_inj in E as [-> E]; [|done..]. apply cons_eq_inv in E. naive_solver.
Qed.

Lemma ikey_inj p s1 s2 t1 t2 ns1 ns2 coll1 coll2 r1 r2 :
  nc_ok ns1 coll1 → nc_ok ns2 coll2 → in_u64 t1 → in_u64 t2 →
  ikey p s1 t1 ns1 coll1 r1 = ikey p s2 t2 ns2 coll2 r2 →
  s1 = s2 ∧ t1 = t2 ∧ ns1 = ns2 ∧ coll1 = coll2 ∧ r1 = r2.
Proof.
  intros [??] [??] ?? E. unfold ikey in E. apply app_inv_head in E. apply cons_eq_inv in E as [-> E].
  apply app_inj_1 in E as [Et E]; [|by rewrite !length_put_u64].
  apply put_u64_inj in Et as ->; [|done..].
  apply chunk_app_inj in E as [-> E]; [|done..].
  apply chunk_app_inj in E as [-> E]; [|done..]. done.
Qed.

(** The byte after the prefix tells the families apart. *)
Definition sub_of (p k : bytes) : option byte := drop (length p) k !! 0%nat.

Lemma sub_of_app p s r : sub_of p (p ++ s :: r) = Some s.
Proof. unfold sub_of. by rewrite drop_app_length. Qed.
Lemma sub_of_dkey p s ns coll r : sub_of p (dkey p s ns coll r) = Some subData.
Proof. apply sub_of_app. Qed.
Lemma sub_of_ikey p s t ns coll r : sub_of p (ikey p s t ns coll r) = Some s.
Proof. apply sub_of_app. Qed.

Lemma dkey_ikey_ne p s1 s2 t ns1 ns2 coll1 coll2 r1 r2 :
  s2 ≠ subData → dkey p s1 ns1 coll1 r1 ≠ ikey p s2 t ns2 coll2 r2.
Proof.
  intros Hs E. apply (f_equal (sub_of p)) in E. rewrite sub_of_dkey, sub_of_ikey in E. naive_solver.
Qed.

Lemma dkey_prefix p s ns coll r : dkey p s ns coll r = dkey p s ns coll [] ++ r.
Proof. unfold dkey. rewrite <-!app_assoc. simpl. by rewrite <-!app_assoc. Qed.

End Keys.
