(* ===== verification/Ctx.v ===== *)
(** * The apply context of a data shard (statemachine.go, sm_fatal.go, ttl.go, dedup.go)

    [updateCtx] accumulates the store operations of one [Update] together with
    the overlays through which entries of the same batch see each other. Handlers
    run in the state-and-error monad [M]: a failing handler keeps the context it
    has reached, and it is [restore] that undoes a failed entry. *)

From S2P Require Import Prelude Bytes Storage Command Keys.

Local Open Scope Z_scope.

Module Ctx.
Import Storage Command Keys.

(** ** The context *)

Record updateCtx := mkCtx {
  ops : list StoreOp;
  exists_ : gmap bytes bool;          (** element key -> exists-after *)
  zscore : gmap bytes (option Z);     (** member pointer key -> score bits, None = absent *)
  cardDelta : gmap bytes Z;           (** card key -> delta *)
  htype : gmap bytes byte;            (** collection scope -> resolved type *)
  vals : gmap bytes (option bytes);   (** key -> value-after, None = deleted *)
  dedupSeq : Z;
  inBatchDedup : gmap bytes ProposeResult;
}.

Definition emptyCtx : updateCtx := mkCtx [] ∅ ∅ ∅ ∅ ∅ 0 ∅.

Definition set_dedupSeq (n : Z) (u : updateCtx) : updateCtx :=
  mkCtx (ops u) (exists_ u) (zscore u) (cardDelta u) (htype u) (vals u) n (inBatchDedup u).

(** ** Snapshots of the context (sm_fatal.go) *)

Record updateSnapshot := mkSnap {
  sn_opsLen : nat;
  sn_dedupSeq : Z;
  sn_exists : gmap bytes bool;
  sn_zscore : gmap bytes (option Z);
  sn_cardDelta : gmap bytes Z;
  sn_htype : gmap bytes byte;
  sn_vals : gmap bytes (option bytes);
  sn_inBatchDedup : gmap bytes ProposeResult;
}.

Definition snapshot (u : updateCtx) : updateSnapshot :=
  mkSnap (length (ops u)) (dedupSeq u) (exists_ u) (zscore u) (cardDelta u) (htype u) (vals u)
    (inBatchDedup u).

Definition restore (u : updateCtx) (s : updateSnapshot) : updateCtx :=
  mkCtx (if (sn_opsLen s <? length (ops u))%nat then take (sn_opsLen s) (ops u) else ops u)
    (sn_exists s) (sn_zscore s) (sn_cardDelta s) (sn_htype s) (sn_vals s) (sn_dedupSeq s)
    (sn_inBatchDedup s).

(** ** The monad *)

Definition M (A : Type) : Type := updateCtx → gres A * updateCtx.

#[export] Instance M_ret : MRet M := λ A a u, (Ok a, u).
#[export] Instance M_bind : MBind M := λ A B f m u,
  match m u with
  | (Ok a, u') => f a u'
  | (Err e, u') => (Err e, u')
  end.

Definition throw {A} (e : gerr) : M A := λ u, (Err e, u).
Definition gets {A} (f : updateCtx → A) : M A := λ u, (Ok (f u), u).
Definition modify (f : updateCtx → updateCtx) : M () := λ u, (Ok (), f u).
Definition lift {A} (r : gres A) : M A := λ u, (r, u).

Fixpoint mfold {A B} (f : B → A → M B) (b : B) (l : list A) : M B :=
  match l with
  | [] => mret b
  | a :: l' => b' ← f b a; mfold f b' l'
  end.

Definition addOp (op : StoreOp) : M () := modify (λ u,
  mkCtx (ops u ++ [op]) (exists_ u) (zscore u) (cardDelta u) (htype u) (vals u) (dedupSeq u)
    (inBatchDedup u)).
Definition putExists (k : bytes) (b : bool) : M () := modify (λ u,
  mkCtx (ops u) (<[k := b]> (exists_ u)) (zscore u) (cardDelta u) (htype u) (vals u) (dedupSeq u)
    (inBatchDedup u)).
Definition putZscore (k : bytes) (z : option Z) : M () := modify (λ u,
  mkCtx (ops u) (exists_ u) (<[k := z]> (zscore u)) (cardDelta u) (htype u) (vals u) (dedupSeq u)
    (inBatchDedup u)).
Definition addCard (k : bytes) (d : Z) : M () := modify (λ u,
  mkCtx (ops u) (exists_ u) (zscore u) (<[k := int64 (default 0 (cardDelta u !! k) + d)]> (cardDelta u))
    (htype u) (vals u) (dedupSeq u) (inBatchDedup u)).
Definition putHtype (k : bytes) (t : byte) : M () := modify (λ u,
  mkCtx (ops u) (exists_ u) (zscore u) (cardDelta u) (<[k := t]> (htype u)) (vals u) (dedupSeq u)
    (inBatchDedup u)).
Definition putVals (k : bytes) (v : option bytes) : M () := modify (λ u,
  mkCtx (ops u) (exists_ u) (zscore u) (cardDelta u) (htype u) (<[k := v]> (vals u)) (dedupSeq u)
    (inBatchDedup u)).
Definition putDedup (k : bytes) (r : ProposeResult) : M () := modify (λ u,
  mkCtx (ops u) (exists_ u) (zscore u) (cardDelta u) (htype u) (vals u) (dedupSeq u)
    (<[k := r]> (inBatchDedup u))).

(** [StoreOp{CF: CFReplData, Key: k, Value: v}] and its deletion. *)
Definition put (k v : bytes) : M () := addOp (putOp CFReplData k v).
Definition del (k : bytes) : M () := addOp (delOp CFReplData k).

(** Write a key, or delete it, in the value overlay and in the batch. *)
Definition setFieldVal (ek val : bytes) : M () :=
  _ ← putVals ek (Some val); put ek val.
Definition delFieldVal (ek : bytes) : M () :=
  _ ← putVals ek None; del ek.

(** ** Fatal errors (sm_fatal.go) *)

Definition fatal (e : gerr) : gerr := EFatal e.

Fixpoint isFatal (e : gerr) : bool :=
  match e with
  | EFatal _ => true
  | ECorrupt _ e' => isFatal e'
  | _ => false
  end.

(** Every error of a store is a [storeErr]. *)
Definition store_res {A} (r : res storeErr A) : gres A :=
  match r with Ok a => Ok a | Err e => Err (EStore e) end.
Definition fatal_res {A} (r : res storeErr A) : gres A :=
  match r with Ok a => Ok a | Err e => Err (fatal (EStore e)) end.

Section ctx.
Context {S : Type} `{LocalStore S} (s : baseSM S).

Definition getData (key : bytes) : gres (option bytes) :=
  fatal_res (ls_Get (sm_store s) CFReplData key).

(** ** Overlay reads *)

Definition elemExists (k : bytes) : M bool :=
  o ← gets (λ u, exists_ u !! k);
  match o with
  | Some v => mret v
  | None => v ← lift (getData k); mret (bool_decide (is_Some v))
  end.

(** [float64FromBits]: reading 8 bytes of a shorter slice panics. *)
Definition float64FromBits (b : bytes) : gres Z :=
  if lenZ b <? 8 then Err EPanic else Ok (get_u64 b).

Definition zScore (ns coll member : bytes) : M (option Z) :=
  let pk := zptrKey (sm_prefix s) ns coll member in
  o ← gets (λ u, zscore u !! pk);
  match o with
  | Some v => mret v
  | None =>
      raw ← lift (getData pk);
      match raw with
      | None => mret None
      | Some raw => f ← lift (float64FromBits raw); mret (Some f)
      end
  end.

Definition typeOf (ns coll : bytes) : M byte :=
  let cs := collScope (sm_prefix s) ns coll in
  o ← gets (λ u, htype u !! cs);
  match o with
  | Some t => mret t
  | None =>
      v ← lift (getData (typeKey (sm_prefix s) ns coll));
      match v with
      | Some (t :: _) => _ ← putHtype cs t; mret t
      | _ => mret typeNone
      end
  end.

Definition ensureType (ns coll : bytes) (want : byte) : M bool :=
  let cs := collScope (sm_prefix s) ns coll in
  o ← gets (λ u, htype u !! cs);
  match o with
  | Some t => mret (bool_decide (t = want))
  | None =>
      v ← lift (getData (typeKey (sm_prefix s) ns coll));
      match v with
      | Some (t :: _) => _ ← putHtype cs t; mret (bool_decide (t = want))
      | _ =>
          _ ← put (typeKey (sm_prefix s) ns coll) [want];
          _ ← putHtype cs want;
          mret true
      end
  end.

(** ** The value overlay (hincr.go) *)

Definition fieldVal (ek : bytes) : M (option bytes) :=
  o ← gets (λ u, vals u !! ek);
  match o with
  | Some v => mret v
  | None => lift (getData ek)
  end.

(** ** Element TTLs (ttl.go) *)

Definition ttlExpiryOf (ns coll member : bytes) : gres (option Z) :=
  do? v ← getData (ttlPtrKey (sm_prefix s) ns coll member);
  match v with
  | None => Ok None
  | Some v => if lenZ v <? 8 then Err EPanic else Ok (Some (get_u64 v))
  end.

Definition setTTL (ns coll member : bytes) (expiry : Z) : M () :=
  let p := sm_prefix s in
  old ← lift (ttlExpiryOf ns coll member);
  _ ← match old with
      | Some old => del (ttlIndexKey p old ns coll member)
      | None => mret ()
      end;
  _ ← put (ttlIndexKey p expiry ns coll member) [];
  put (ttlPtrKey p ns coll member) (put_u64 expiry).

Definition clearTTL (ns coll member : bytes) : M () :=
  let p := sm_prefix s in
  old ← lift (ttlExpiryOf ns coll member);
  match old with
  | None => mret ()
  | Some old =>
      _ ← del (ttlIndexKey p old ns coll member);
      del (ttlPtrKey p ns coll member)
  end.

(** ** The idempotency ring (dedup.go) *)

Definition readDedupSeq : gres Z :=
  do? v ← getData (dedupSeqKey (sm_prefix s));
  match v with
  | Some v => if lenZ v =? 8 then Ok (get_u64 v) else Ok 0
  | None => Ok 0
  end.

Definition dedupGet (key : bytes) : gres (option ProposeResult) :=
  do? v ← getData (dedupKey (sm_prefix s) key);
  match v with
  | Some v => if lenZ v <? 8 then Ok None else Ok (Some (mkResult (get_u64 v) (drop 8 v)))
  | None => Ok None
  end.

Definition dedupRecord (key : bytes) (value : Z) (data : bytes) : M () :=
  let p := sm_prefix s in
  seq ← gets dedupSeq;
  let slot := seq mod dedupRingSize in
  old ← lift (getData (dedupRingKey p slot));
  _ ← match old with
      | Some (x :: l) => del (dedupKey p (x :: l))
      | _ => mret ()
      end;
  _ ← put (dedupRingKey p slot) key;
  _ ← put (dedupKey p key) (put_u64 value ++ data);
  modify (set_dedupSeq (uint64 (seq + 1))).

End ctx.

End Ctx.
