(* ===== verification/CtxLogic.v ===== *)
(** * Reasoning about apply handlers

    [eff] is the shard's data as the current batch has left it. [wp] runs a
    handler symbolically; [msafe K] says that a handler writes only keys in [K]
    (in the batch and in the overlays) and never fails fatally, whatever the
    context; it is closed under the monad's operations, so a handler's frame is
    found by automation. *)

From S2P Require Import Prelude Bytes Storage Command Keys Ctx.

Local Open Scope Z_scope.

Module CtxLogic.
Import Storage Command Keys Ctx.

(** ** Weakest preconditions *)

Definition wp {A} (m : M A) (u : updateCtx) (Q : gres A → updateCtx → Prop) : Prop :=
  Q (m u).1 (m u).2.

Lemma wp_ret {A} (a : A) u (Q : gres A → updateCtx → Prop) : Q (Ok a) u → wp (mret a) u Q.
Proof. done. Qed.
Lemma wp_throw {A} e u (Q : gres A → updateCtx → Prop) : Q (Err e) u → wp (throw e) u Q.
Proof. done. Qed.
Lemma wp_lift {A} (r : gres A) u (Q : gres A → updateCtx → Prop) : Q r u → wp (lift r) u Q.
Proof. done. Qed.
Lemma wp_bind {A B} (f : A → M B) (m : M A) u (Q : gres B → updateCtx → Prop) :
  wp m u (λ r u', match r with Ok a => wp (f a) u' Q | Err e => Q (Err e) u' end) →
  wp (m ≫= f) u Q.
Proof.
  unfold wp, mbind, M_bind. destruct (m u) as [[a|e] u']; done.
Qed.
Lemma wp_mono {A} (m : M A) u (Q Q' : gres A → updateCtx → Prop) :
  wp m u Q → (∀ r u', Q r u' → Q' r u') → wp m u Q'.
Proof. unfold wp. auto. Qed.

(** Use of a handler whose outcome is known. *)
Lemma wp_run {A} (m : M A) u r u' (Q : gres A → updateCtx → Prop) : m u = (r, u') → Q r u' → wp m u Q.
Proof. unfold wp. by intros ->. Qed.

(** ** Frames *)

(** [k] counts a collection whose elements [K] covers. *)
Definition is_card (p : bytes) (K : bytes → Prop) (k : bytes) : Prop :=
  ∃ ns coll, nc_ok ns coll ∧ k = cardKey p ns coll ∧ K (elemPrefix p ns coll).

Record frame (p : bytes) (K : bytes → Prop) (u u' : updateCtx) : Prop := {
  fr_ops : ∃ l, ops u' = ops u ++ l ∧ Forall (λ op, op_CF op = CFReplData ∧ K (op_Key op)) l;
  fr_vals : ∀ k, ¬ K k → vals u' !! k = vals u !! k;
  fr_exists : ∀ k, ¬ K k → exists_ u' !! k = exists_ u !! k;
  fr_zscore : ∀ k, ¬ K k → zscore u' !! k = zscore u !! k;
  fr_htype : ∀ cs, ¬ K (cs ++ [scopeType]) → htype u' !! cs = htype u !! cs;
  fr_card : ∀ k, cardDelta u' !! k = cardDelta u !! k ∨ is_card p K k;
}.

Lemma frame_refl p K u : frame p K u u.
Proof. split; auto. exists []. by rewrite app_nil_r. Qed.

Lemma frame_trans p K u1 u2 u3 : frame p K u1 u2 → frame p K u2 u3 → frame p K u1 u3.
Proof.
  intros [(l1 & E1 & H1) V1 X1 Z1 T1 C1] [(l2 & E2 & H2) V2 X2 Z2 T2 C2]. split.
  - exists (l1 ++ l2). rewrite E2, E1, app_assoc. split; [done|]. by apply Forall_app.
  - intros k Hk. by rewrite V2, V1.
  - intros k Hk. by rewrite X2, X1.
  - intros k Hk. by rewrite Z2, Z1.
  - intros k Hk. by rewrite T2, T1.
  - intros k. destruct (C2 k) as [->|]; [|by right]. apply C1.
Qed.

Lemma frame_mono p (K K' : bytes → Prop) u u' :
  (∀ k, K k → K' k) → frame p K u u' → frame p K' u u'.
Proof.
  intros HK [(l & E & Hl) V X Z T C]. split; [|naive_solver..|].
  - exists l. split; [done|]. eapply Forall_impl; [done|]. naive_solver.
  - intros k. destruct (C k) as [|(ns & coll & ? & ? & ?)]; [by left|right]. exists ns, coll. auto.
Qed.

Definition nonfatal {A} (r : gres A) : Prop := ∀ e, r = Err e → isFatal e = false.

Lemma nonfatal_Ok {A} (a : A) : nonfatal (Ok a).
Proof. by intros e [=]. Qed.

Definition msafe {A} (p : bytes) (K : bytes → Prop) (m : M A) : Prop :=
  ∀ u, frame p K u (m u).2 ∧ nonfatal (m u).1.

Section safe.
Context (p : bytes) (K : bytes → Prop).

Lemma msafe_ret {A} (a : A) : msafe p K (mret a : M A).
Proof. intros u. split; [apply frame_refl|apply nonfatal_Ok]. Qed.
Lemma msafe_throw {A} e : isFatal e = false → msafe p K (throw e : M A).
Proof. intros He u. split; [apply frame_refl|]. by intros ? [= <-]. Qed.
Lemma msafe_gets {A} (f : updateCtx → A) : msafe p K (gets f).
Proof. intros u. split; [apply frame_refl|apply nonfatal_Ok]. Qed.
Lemma msafe_lift {A} (r : gres A) : nonfatal r → msafe p K (lift r).
Proof. intros Hr u. split; [apply frame_refl|done]. Qed.

Lemma msafe_bind {A B} (m : M A) (f : A → M B) :
  msafe p K m → (∀ a, msafe p K (f a)) → msafe p K (m ≫= f).
Proof.
  intros Hm Hf u. unfold mbind, M_bind. destruct (Hm u) as [F N].
  destruct (m u) as [[a|e] u']; simpl in *.
  - destruct (Hf a u') as [F' N']. split; [by eapply frame_trans|done].
  - split; [done|]. intros ? [= <-]. by apply N.
Qed.

Lemma msafe_mfold {A B} (f : B → A → M B) b l :
  (∀ b a, a ∈ l → msafe p K (f b a)) → msafe p K (mfold f b l).
Proof.
  revert b. induction l as [|a l IH]; intros b Hf; simpl; [apply msafe_ret|].
  apply msafe_bind; [apply Hf; left|]. intros b'. apply IH. intros. apply Hf. by right.
Qed.

Lemma msafe_addOp op : op_CF op = CFReplData → K (op_Key op) → msafe p K (addOp op).
Proof.
  intros. split; [|apply nonfatal_Ok]. split; simpl; auto.
  exists [op]. split; [done|]. by repeat constructor.
Qed.
Lemma msafe_put k v : K k → msafe p K (put k v).
Proof. intros. by apply msafe_addOp. Qed.
Lemma msafe_del k : K k → msafe p K (del k).
Proof. intros. by apply msafe_addOp. Qed.

Local Ltac overlay := intros; split; [split; simpl; auto; [exists []; by rewrite app_nil_r|]|apply nonfatal_Ok].

Lemma msafe_putVals k v : K k → msafe p K (putVals k v).
Proof. overlay. intros k' ?. by rewrite lookup_insert_ne by naive_solver. Qed.
Lemma msafe_putExists k v : K k → msafe p K (putExists k v).
Proof. overlay. intros k' ?. by rewrite lookup_insert_ne by naive_solver. Qed.
Lemma msafe_putZscore k v : K k → msafe p K (putZscore k v).
Proof. overlay. intros k' ?. by rewrite lookup_insert_ne by naive_solver. Qed.
Lemma msafe_putHtype k v : K (k ++ [scopeType]) → msafe p K (putHtype k v).
Proof. overlay. intros k' ?. by rewrite lookup_insert_ne by naive_solver. Qed.
Lemma msafe_addCard k d : is_card p K k → msafe p K (addCard k d).
Proof.
  overlay. intros k'. destruct (decide (k' = k)) as [->|]; [by right|left].
  by rewrite lookup_insert_ne.
Qed.
Lemma msafe_putDedup k r : msafe p K (putDedup k r).
Proof. intros u. split; [split; simpl; auto; exists []; by rewrite app_nil_r|apply nonfatal_Ok]. Qed.
Lemma msafe_set_dedupSeq n : msafe p K (modify (set_dedupSeq n)).
Proof. intros u. split; [split; simpl; auto; exists []; by rewrite app_nil_r|apply nonfatal_Ok]. Qed.

Lemma msafe_setFieldVal k v : K k → msafe p K (setFieldVal k v).
Proof. intros. apply msafe_bind; [by apply msafe_putVals|]. intros. by apply msafe_put. Qed.
Lemma msafe_delFieldVal k : K k → msafe p K (delFieldVal k).
Proof. intros. apply msafe_bind; [by apply msafe_putVals|]. intros. by apply msafe_del. Qed.

Lemma msafe_match_option {A B} (o : option A) (f : A → M B) (m : M B) :
  (∀ a, o = Some a → msafe p K (f a)) → (o = None → msafe p K m) →
  msafe p K (match o with Some a => f a | None => m end).
Proof. destruct o; naive_solver. Qed.

End safe.

Lemma msafe_mono {A} p (K K' : bytes → Prop) (m : M A) :
  (∀ k, K k → K' k) → msafe p K m → msafe p K' m.
Proof. intros HK Hm u. destruct (Hm u) as [F N]. split; [by eapply frame_mono|done]. Qed.

Create HintDb msafe.
#[export] Hint Resolve msafe_ret msafe_throw msafe_gets msafe_lift msafe_put msafe_del
  msafe_putVals msafe_putExists msafe_putZscore msafe_putHtype msafe_addCard msafe_putDedup
  msafe_set_dedupSeq msafe_setFieldVal msafe_delFieldVal nonfatal_Ok : msafe.

(** Walk through a handler: binds, then every branch, then the hint database. *)
Ltac msafe_step :=
  first
    [ progress intros
    | progress cbv zeta
    | match goal with
      | |- msafe _ _ (_ ≫= _) => apply msafe_bind
      | |- msafe _ _ (match ?x with _ => _ end) => destruct x eqn:?
      end
    | solve [eauto 3 with msafe] ].
Ltac msafe_auto := repeat msafe_step.

(** ** Effects on the data *)

Section eff.
Context {S : Type} `{LocalStoreSpec S} (s : baseSM S).

Definition base : gmap bytes bytes := ls_view (sm_store s) CFReplData.
Definition eff (u : updateCtx) : gmap bytes bytes := apply_ops CFReplData (ops u) base.

Lemma getData_live k : ls_live (sm_store s) → getData s k = Ok (base !! k).
Proof. intros Hs. unfold getData. by rewrite ls_Get_ok. Qed.

Lemma getData_nonfatal k : ls_live (sm_store s) → nonfatal (getData s k).
Proof. intros Hs. rewrite getData_live by done. apply nonfatal_Ok. Qed.

Lemma apply_ops_lookup_ne l m k :
  Forall (λ op, op_Key op ≠ k) l → apply_ops CFReplData l m !! k = m !! k.
Proof.
  intros Hl. revert m. induction Hl as [|op l Hop Hl IH]; intros m; [done|].
  change (apply_ops CFReplData l (apply_op CFReplData m op) !! k = m !! k).
  rewrite IH. unfold apply_op.
  destruct (op_CF op =? CFReplData); [|done].
  destruct (op_Delete op); [by rewrite lookup_delete_ne|by rewrite lookup_insert_ne].
Qed.

Lemma frame_eff p K u u' k : frame p K u u' → ¬ K k → eff u' !! k = eff u !! k.
Proof.
  intros [(l & E & Hl) _ _ _ _ _] Hk. unfold eff. rewrite E, apply_ops_app.
  apply apply_ops_lookup_ne. eapply Forall_impl; [done|]. naive_solver.
Qed.

(** The effect of single operations. *)
Lemma eff_put k v u : eff (put k v u).2 = <[k := v]> (eff u).
Proof. unfold eff. simpl. by rewrite apply_ops_app. Qed.
Lemma eff_del k u : eff (del k u).2 = delete k (eff u).
Proof. unfold eff. simpl. by rewrite apply_ops_app. Qed.

(** A key is tracked by the value overlay when what the batch did to it is there. *)
Definition tracked (u : updateCtx) (k : bytes) : Prop :=
  eff u !! k = match vals u !! k with Some v => v | None => base !! k end.

Lemma wp_fieldVal k u (Q : gres (option bytes) → updateCtx → Prop) :
  ls_live (sm_store s) → tracked u k → Q (Ok (eff u !! k)) u → wp (fieldVal s k) u Q.
Proof.
  intros Hs Ht HQ. unfold tracked in Ht. unfold fieldVal. apply wp_bind. unfold wp, gets; simpl.
  rewrite Ht in HQ. destruct (vals u !! k) as [v|]; [exact HQ|].
  unfold lift; simpl. by rewrite getData_live.
Qed.

Lemma frame_tracked p K u u' k : frame p K u u' → ¬ K k → tracked u k → tracked u' k.
Proof.
  intros F Hk. unfold tracked. rewrite (frame_eff p K u u') by done.
  by rewrite (fr_vals _ _ _ _ F).
Qed.

Lemma setFieldVal_eff k v u : eff (setFieldVal k v u).2 = <[k := v]> (eff u).
Proof. unfold setFieldVal, mbind, M_bind. simpl. unfold eff. simpl. by rewrite apply_ops_app. Qed.
Lemma delFieldVal_eff k u : eff (delFieldVal k u).2 = delete k (eff u).
Proof. unfold delFieldVal, mbind, M_bind. simpl. unfold eff. simpl. by rewrite apply_ops_app. Qed.

Lemma setFieldVal_tracked k v u k' : tracked u k' → tracked (setFieldVal k v u).2 k'.
Proof.
  intros Ht. unfold tracked. rewrite setFieldVal_eff. unfold setFieldVal, mbind, M_bind; simpl.
  destruct (decide (k' = k)) as [->|]; [by rewrite !lookup_insert_eq|by rewrite !lookup_insert_ne].
Qed.
Lemma delFieldVal_tracked k u k' : tracked u k' → tracked (delFieldVal k u).2 k'.
Proof.
  intros Ht. unfold tracked. rewrite delFieldVal_eff. unfold delFieldVal, mbind, M_bind; simpl.
  destruct (decide (k' = k)) as [->|].
  - by rewrite lookup_delete_eq, lookup_insert_eq.
  - by rewrite lookup_delete_ne, lookup_insert_ne.
Qed.

(** ** Frames of the shared helpers *)

Lemma msafe_elemExists K k : ls_live (sm_store s) → msafe (sm_prefix s) K (elemExists s k).
Proof. intros. unfold elemExists. msafe_auto. apply msafe_lift, getData_nonfatal; done. Qed.

Lemma msafe_fieldVal K k : ls_live (sm_store s) → msafe (sm_prefix s) K (fieldVal s k).
Proof. intros. unfold fieldVal. msafe_auto. apply msafe_lift, getData_nonfatal; done. Qed.

Lemma float64FromBits_nonfatal b : nonfatal (float64FromBits b).
Proof. unfold float64FromBits. case_match; by intros ? [= <-]. Qed.

Lemma msafe_zScore K ns coll m : ls_live (sm_store s) → msafe (sm_prefix s) K (zScore s ns coll m).
Proof.
  intros. unfold zScore. msafe_auto.
  - apply msafe_lift, getData_nonfatal; done.
  - apply msafe_lift, float64FromBits_nonfatal.
Qed.

Lemma msafe_typeOf (K : bytes → Prop) ns coll :
  ls_live (sm_store s) → K (typeKey (sm_prefix s) ns coll) →
  msafe (sm_prefix s) K (typeOf s ns coll).
Proof. intros. unfold typeOf. msafe_auto. apply msafe_lift, getData_nonfatal; done. Qed.

Lemma msafe_ensureType (K : bytes → Prop) ns coll t :
  ls_live (sm_store s) → K (typeKey (sm_prefix s) ns coll) →
  msafe (sm_prefix s) K (ensureType s ns coll t).
Proof. intros. unfold ensureType. msafe_auto. apply msafe_lift, getData_nonfatal; done. Qed.

Lemma ttlExpiryOf_nonfatal ns coll m : ls_live (sm_store s) → nonfatal (ttlExpiryOf s ns coll m).
Proof.
  intros. unfold ttlExpiryOf. rewrite getData_live by done. simpl.
  repeat case_match; by intros ? [= <-].
Qed.

Lemma msafe_setTTL (K : bytes → Prop) ns coll m e :
  ls_live (sm_store s) → (∀ t, K (ttlIndexKey (sm_prefix s) t ns coll m)) →
  K (ttlPtrKey (sm_prefix s) ns coll m) → msafe (sm_prefix s) K (setTTL s ns coll m e).
Proof. intros. unfold setTTL. msafe_auto. apply msafe_lift, ttlExpiryOf_nonfatal; done. Qed.

Lemma msafe_clearTTL (K : bytes → Prop) ns coll m :
  ls_live (sm_store s) → (∀ t, K (ttlIndexKey (sm_prefix s) t ns coll m)) →
  K (ttlPtrKey (sm_prefix s) ns coll m) → msafe (sm_prefix s) K (clearTTL s ns coll m).
Proof. intros. unfold clearTTL. msafe_auto. apply msafe_lift, ttlExpiryOf_nonfatal; done. Qed.

Lemma dedupGet_nonfatal key : ls_live (sm_store s) → nonfatal (dedupGet s key).
Proof.
  intros. unfold dedupGet. rewrite getData_live by done. simpl.
  repeat case_match; by intros ? [= <-].
Qed.

Lemma msafe_dedupRecord (K : bytes → Prop) key v d :
  ls_live (sm_store s) → (∀ k, K (dedupKey (sm_prefix s) k)) →
  (∀ n, K (dedupRingKey (sm_prefix s) n)) → msafe (sm_prefix s) K (dedupRecord s key v d).
Proof. intros. unfold dedupRecord. msafe_auto. apply msafe_lift, getData_nonfatal; done. Qed.

End eff.

(** ** Rollback *)

(** Restoring the snapshot taken before a handler undoes it, as the batch is
    append-only while the handler runs. *)
Lemma restore_snapshot p K u u' : frame p K u u' → restore u' (snapshot u) = u.
Proof.
  intros [(l & E & _) _ _ _ _ _]. destruct u as [o e z c h v d b]. unfold restore, snapshot. simpl in *.
  rewrite E, length_app. f_equal. destruct (Nat.ltb_spec (length o) (length o + length l)).
  - by rewrite take_app_length.
  - destruct l; simpl in *; [by rewrite app_nil_r|lia].
Qed.

End CtxLogic.
