(* ===== verification/Budget.v ===== *)
(** * Leased budgets (internal/collections/budget.go)

    The pool, lease and tombstone records with their append-tolerant encodings,
    the seven apply functions, and the read-side probes. Quantities are int64 and
    every arithmetic operation wraps at that width. *)

From S2P Require Import Prelude Bytes Storage Command Keys Ctx.

Local Open Scope Z_scope.

Module Budget.
Import Storage Command Keys Ctx.

Definition modeStrict : byte := x01.
Definition modeRelaxed : byte := x02.

Definition budNoCapacity : bytes := lit "BUDNOCAP".
Definition budExists : bytes := lit "BUDEXISTS".
Definition budNoLease : bytes := lit "BUDNOLEASE".
Definition budNoBudget : bytes := lit "BUDNOBUDGET".
Definition budBadMode : bytes := lit "BUDBADMODE".
Definition budBadParam : bytes := lit "BUDBADPARAM".
Definition budSettled : bytes := lit "BUDSETTLED".
Definition budWrongHolder : bytes := lit "BUDWRONGHOLDER".

Definition reasonReturn : byte := x01.
Definition reasonExpire : byte := x02.

Definition maxClockSkewMs : Z := 500.
Definition pacingBurstCeil : Z := 2 ^ 50.
Definition minDedupRetryWindowMs : Z := 30000.

(** ** Records *)

Record poolRec := mkPool {
  p_Cap : Z;
  p_Available : Z;
  p_LeasedOut : Z;
  p_Spent : Z;
  p_Epoch : Z;
  p_Mode : byte;
  p_Rate : Z;
  p_Burst : Z;
  p_LastRefillMs : Z;
  p_Tokens : Z;
  p_SelfGuardMs : Z;
  p_MaxPauseMs : Z;
  p_DefaultTTLMs : Z;
  p_DedupRetryWindowMs : Z;
  p_SpentReported : Z;
}.

Record leaseRec := mkLease {
  l_Holder : bytes;
  l_Amount : Z;
  l_Spent : Z;
  l_Epoch : Z;
  l_GrantedMs : Z;
  l_ReclaimNotBeforeMs : Z;
  l_ExpiresMs : Z;
}.

Record tombRec := mkTomb { t_FinalSpent : Z; t_Reason : byte }.

(** Assignment to the four money buckets, and to the token bucket. *)
Definition set_buckets (p : poolRec) (avail leased spent reported : Z) : poolRec :=
  mkPool (p_Cap p) avail leased spent (p_Epoch p) (p_Mode p) (p_Rate p) (p_Burst p)
    (p_LastRefillMs p) (p_Tokens p) (p_SelfGuardMs p) (p_MaxPauseMs p) (p_DefaultTTLMs p)
    (p_DedupRetryWindowMs p) reported.
Definition set_pacing (p : poolRec) (last tokens : Z) : poolRec :=
  mkPool (p_Cap p) (p_Available p) (p_LeasedOut p) (p_Spent p) (p_Epoch p) (p_Mode p) (p_Rate p)
    (p_Burst p) last tokens (p_SelfGuardMs p) (p_MaxPauseMs p) (p_DefaultTTLMs p)
    (p_DedupRetryWindowMs p) (p_SpentReported p).
Definition set_spent (l : leaseRec) (spent : Z) : leaseRec :=
  mkLease (l_Holder l) (l_Amount l) spent (l_Epoch l) (l_GrantedMs l) (l_ReclaimNotBeforeMs l)
    (l_ExpiresMs l).

(** ** Encodings *)

Definition encodePool (p : poolRec) : bytes :=
  putI64 (p_Cap p) ++ putI64 (p_Available p) ++ putI64 (p_LeasedOut p) ++ putI64 (p_Spent p) ++
  put_u64 (p_Epoch p) ++ [p_Mode p] ++ putI64 (p_Rate p) ++ putI64 (p_Burst p) ++
  putI64 (p_LastRefillMs p) ++ putI64 (p_Tokens p) ++
  putI64 (p_SelfGuardMs p) ++ putI64 (p_MaxPauseMs p) ++ putI64 (p_DefaultTTLMs p) ++
  putI64 (p_DedupRetryWindowMs p) ++ putI64 (p_SpentReported p).

(** The field at byte offset [off], when the record is at least [len] long. *)
Definition fieldI64 (b : bytes) (len : Z) (off : nat) : Z :=
  if len <=? lenZ b then getI64 (drop off b) else 0.

Definition decodePool (b : bytes) : gres poolRec :=
  if lenZ b <? 57 then Err errShortPool
  else Ok (mkPool
    (getI64 b) (getI64 (drop 8 b)) (getI64 (drop 16 b)) (getI64 (drop 24 b))
    (get_u64 (drop 32 b)) (nth 40 b x00) (getI64 (drop 41 b)) (getI64 (drop 49 b))
    (fieldI64 b 73 57) (fieldI64 b 73 65)
    (fieldI64 b 105 73) (fieldI64 b 105 81) (fieldI64 b 105 89) (fieldI64 b 105 97)
    (fieldI64 b 113 105)).

Definition encodeLease (l : leaseRec) : bytes :=
  appendChunk (putI64 (l_Amount l) ++ putI64 (l_Spent l) ++ put_u64 (l_Epoch l)) (l_Holder l) ++
  putI64 (l_GrantedMs l) ++ putI64 (l_ReclaimNotBeforeMs l) ++ putI64 (l_ExpiresMs l).

Definition decodeLease (b : bytes) : gres leaseRec :=
  if lenZ b <? 24 then Err errShortLease
  else
    do? (holder, rest) ← takeChunk (drop 24 b);
    Ok (mkLease holder (getI64 b) (getI64 (drop 8 b)) (get_u64 (drop 16 b))
          (fieldI64 rest 24 0) (fieldI64 rest 24 8) (fieldI64 rest 24 16)).

Definition encodeTomb (t : tombRec) : bytes := putI64 (t_FinalSpent t) ++ [t_Reason t].

Definition decodeTomb (b : bytes) : gres tombRec :=
  if lenZ b <? 9 then Err errShortTomb
  else Ok (mkTomb (getI64 b) (nth 8 b x00)).

Record GrantResult := mkGrant {
  g_Granted : Z;
  g_GrantedMs : Z;
  g_TTLMs : Z;
  g_SelfGuardMs : Z;
  g_MaxPauseMs : Z;
}.

Definition encodeGrantResult (r : GrantResult) : bytes :=
  putI64 (g_Granted r) ++ putI64 (g_GrantedMs r) ++ putI64 (g_TTLMs r) ++
  putI64 (g_SelfGuardMs r) ++ putI64 (g_MaxPauseMs r).

Definition decodeGrantResult (b : bytes) : GrantResult :=
  mkGrant (fieldI64 b 8 0) (fieldI64 b 16 8) (fieldI64 b 40 16) (fieldI64 b 40 24)
    (fieldI64 b 40 32).

(** ** Pacing arithmetic *)

Definition min64 (a b : Z) : Z := if a <? b then a else b.
Definition clampI64 (v lo hi : Z) : Z := if v <? lo then lo else if hi <? v then hi else v.
Definition pacingMaxElapsedMs (rate burst : Z) : Z :=
  if rate <=? 0 then 0 else Z.quot (int64 (int64 (4 * burst) * 1000)) rate.

(** The token-bucket refill of applyBudGrant. *)
Definition refill (p : poolRec) (grantedMs : Z) : poolRec :=
  if 0 <? p_Rate p then
    let last := if p_LastRefillMs p =? 0 then grantedMs else p_LastRefillMs p in
    let maxElapsed := pacingMaxElapsedMs (p_Rate p) (p_Burst p) in
    let elapsed := clampI64 (int64 (grantedMs - last)) 0 maxElapsed in
    let accrued := Z.quot (int64 (p_Rate p * elapsed)) 1000 in
    let ceil := min64 (p_Burst p) (int64 (p_Cap p - p_Spent p)) in
    let tokens := min64 ceil (int64 (p_Tokens p + accrued)) in
    let tokens := if tokens <? 0 then 0 else tokens in
    set_pacing p (if last <? grantedMs then grantedMs else last) tokens
  else p.

(** The amount a grant may draw, bounded by the request, the token bucket and what
    is available, and the pool debited by it. *)
Definition drawGrant (p : poolRec) (grantedMs amount : Z) : Z * poolRec :=
  let p := refill p grantedMs in
  let grant := if 0 <? p_Rate p then min64 amount (p_Tokens p) else amount in
  let grant := if p_Available p <? grant then p_Available p else grant in
  let p := set_buckets p (int64 (p_Available p - grant)) (int64 (p_LeasedOut p + grant))
             (p_Spent p) (p_SpentReported p) in
  (grant, if 0 <? p_Rate p then set_pacing p (p_LastRefillMs p) (int64 (p_Tokens p - grant)) else p).

(** A caller's holder contradicts the lease's when both are present and differ. *)
Definition wrongHolder (caller : bytes) (l : leaseRec) : bool :=
  negb (lenZ caller =? 0) && negb (lenZ (l_Holder l) =? 0) &&
  negb (bool_decide (caller = l_Holder l)).

Definition sentinel (b : bytes) : ProposeResult := mkResult 0 b.

Section apply.
Context {S : Type} `{LocalStore S} (s : baseSM S).
Local Abbreviation p_ := (sm_prefix s).

(** ** Overlay-aware record access *)

Definition getPool (ns coll : bytes) : M (option poolRec) :=
  v ← fieldVal s (budPoolKey p_ ns coll);
  match v with None => mret None | Some v => p ← lift (decodePool v); mret (Some p) end.
Definition setPool (ns coll : bytes) (p : poolRec) : M () :=
  setFieldVal (budPoolKey p_ ns coll) (encodePool p).

Definition getLease (ns coll id : bytes) : M (option leaseRec) :=
  v ← fieldVal s (budLeaseKey p_ ns coll id);
  match v with None => mret None | Some v => l ← lift (decodeLease v); mret (Some l) end.
Definition setLease (ns coll id : bytes) (l : leaseRec) : M () :=
  setFieldVal (budLeaseKey p_ ns coll id) (encodeLease l).
Definition delLease (ns coll id : bytes) : M () := delFieldVal (budLeaseKey p_ ns coll id).

Definition getTomb (ns coll id : bytes) : M (option tombRec) :=
  v ← fieldVal s (budTombKey p_ ns coll id);
  match v with None => mret None | Some v => t ← lift (decodeTomb v); mret (Some t) end.
Definition setTomb (ns coll id : bytes) (t : tombRec) : M () :=
  setFieldVal (budTombKey p_ ns coll id) (encodeTomb t).
Definition delTomb (ns coll id : bytes) : M () := delFieldVal (budTombKey p_ ns coll id).

Definition setBudExp (ns coll id : bytes) (reclaimMs : Z) : M () :=
  put (budExpKey p_ reclaimMs ns coll id) [].
Definition delBudExp (ns coll id : bytes) (reclaimMs : Z) : M () :=
  del (budExpKey p_ reclaimMs ns coll id).
Definition setBudTombGC (ns coll id : bytes) (gcDueMs : Z) : M () :=
  put (budTombGCKey p_ gcDueMs ns coll id) [].
Definition delBudTombGC (ns coll id : bytes) (gcDueMs : Z) : M () :=
  del (budTombGCKey p_ gcDueMs ns coll id).

(** ** Apply functions *)

Definition initPool (k : bytes) : poolRec :=
  let capacity := getI64 (drop 1 k) in
  let rate := getI64 (drop 9 k) in
  let burst := getI64 (drop 17 k) in
  mkPool capacity capacity 0 0 1 (nth 0 k x00) rate burst 0 (if 0 <? rate then burst else 0)
    (fieldI64 k 57 25) (fieldI64 k 57 33) (fieldI64 k 57 41) (fieldI64 k 57 49) 0.

Definition applyBudInit (c : command) : M ProposeResult :=
  match Items c with
  | [] => throw errShortCommand
  | it :: _ =>
      let k := Key it in
      if lenZ k <? 25 then throw errShortCommand
      else
        let p := initPool k in
        if negb (bool_decide (p_Mode p = modeStrict)) || (p_Cap p <? 0)
        then mret (sentinel budBadMode)
        else if (p_Rate p <? 0) || (p_Burst p <? 0) || (pacingBurstCeil <? p_Burst p) ||
                ((0 <? p_DefaultTTLMs p) && (p_SelfGuardMs p <? maxClockSkewMs)) ||
                ((0 <? p_DefaultTTLMs p) && (p_DedupRetryWindowMs p <? minDedupRetryWindowMs))
        then mret (sentinel budBadParam)
        else
          old ← getPool (NS c) (Coll c);
          match old with
          | Some _ => mret (sentinel budExists)
          | None =>
              ok ← ensureType s (NS c) (Coll c) typeBudget;
              if negb ok then mret (sentinel wrongType)
              else _ ← setPool (NS c) (Coll c) p; mret (mkResult 1 [])
          end
  end.

(** The echo of an existing lease to a retried grant. *)
Definition echoGrant (l : leaseRec) (p : option poolRec) : GrantResult :=
  mkGrant (l_Amount l) (l_GrantedMs l)
    (if 0 <? l_ExpiresMs l then int64 (l_ExpiresMs l - l_GrantedMs l) else 0)
    (match p with Some p => p_SelfGuardMs p | None => 0 end)
    (match p with Some p => p_MaxPauseMs p | None => 0 end).

Definition applyBudGrant (c : command) : M ProposeResult :=
  match Items c with
  | [] => throw errShortCommand
  | it :: _ =>
      if (lenZ (Key it) =? 0) || (lenZ (Val it) <? 24) then throw errShortCommand
      else
        let leaseID := Key it in
        let amount := getI64 (Val it) in
        let grantedMs := getI64 (drop 8 (Val it)) in
        let ttlOverride := getI64 (drop 16 (Val it)) in
        let holder := drop 24 (Val it) in
        if amount <? 0 then mret (sentinel budNoCapacity)
        else
          tomb ← getTomb (NS c) (Coll c) leaseID;
          match tomb with
          | Some _ => mret (sentinel budSettled)
          | None =>
              old ← getLease (NS c) (Coll c) leaseID;
              match old with
              | Some l =>
                  p ← getPool (NS c) (Coll c);
                  mret (mkResult (uint64 (l_Amount l)) (encodeGrantResult (echoGrant l p)))
              | None =>
                  pool ← getPool (NS c) (Coll c);
                  match pool with
                  | None => mret (sentinel budNoBudget)
                  | Some p =>
                      let ttl := if ttlOverride =? 0 then p_DefaultTTLMs p else ttlOverride in
                      if (0 <? ttl) && (p_SelfGuardMs p <? maxClockSkewMs)
                      then mret (sentinel budBadParam)
                      else
                        let '(grant, p) := drawGrant p grantedMs amount in
                        if grant <=? 0 then mret (sentinel budNoCapacity)
                        else
                          _ ← setPool (NS c) (Coll c) p;
                          let reclaim :=
                            int64 (int64 (int64 (grantedMs + ttl) + 3 * maxClockSkewMs) + p_MaxPauseMs p) in
                          let lr := mkLease holder grant 0 (p_Epoch p) grantedMs
                                      (if 0 <? ttl then reclaim else 0)
                                      (if 0 <? ttl then int64 (grantedMs + ttl) else 0) in
                          _ ← (if 0 <? ttl then setBudExp (NS c) (Coll c) leaseID reclaim else mret ());
                          _ ← setLease (NS c) (Coll c) leaseID lr;
                          mret (mkResult (uint64 grant) (encodeGrantResult
                            (mkGrant grant grantedMs ttl (p_SelfGuardMs p) (p_MaxPauseMs p))))
                  end
              end
          end
  end.

(** Fold a cumulative report into a lease and its pool: the maximum of the two
    totals, never beyond the granted amount. *)
Definition foldReport (reported : Z) (l : leaseRec) (p : poolRec) : leaseRec * poolRec :=
  let reported := if l_Amount l <? reported then l_Amount l else reported in
  let delta := int64 (reported - l_Spent l) in
  (set_spent l reported,
   set_buckets p (p_Available p) (int64 (p_LeasedOut p - delta)) (int64 (p_Spent p + delta))
     (int64 (p_SpentReported p + delta))).

Definition applyBudReport (c : command) : M ProposeResult :=
  match Items c with
  | [] => throw errShortCommand
  | it :: _ =>
      if (lenZ (Key it) =? 0) || (lenZ (Val it) <? 8) then throw errShortCommand
      else
        let leaseID := Key it in
        lease ← getLease (NS c) (Coll c) leaseID;
        match lease with
        | None => mret (sentinel budNoLease)
        | Some l =>
            if wrongHolder (drop 8 (Val it)) l then mret (sentinel budWrongHolder)
            else
              let reported := getI64 (Val it) in
              if reported <=? l_Spent l
              then mret (mkResult (uint64 (int64 (l_Amount l - l_Spent l))) [])
              else
                pool ← getPool (NS c) (Coll c);
                match pool with
                | None => throw errMissingPool
                | Some p =>
                    let '(l, p) := foldReport reported l p in
                    _ ← setPool (NS c) (Coll c) p;
                    _ ← setLease (NS c) (Coll c) leaseID l;
                    mret (mkResult (uint64 (int64 (l_Amount l - l_Spent l))) [])
                end
        end
  end.

Definition applyBudReturn (c : command) : M ProposeResult :=
  match Items c with
  | [] => throw errShortCommand
  | it :: _ =>
      if lenZ (Key it) =? 0 then throw errShortCommand
      else
        let leaseID := Key it in
        tomb ← getTomb (NS c) (Coll c) leaseID;
        match tomb with
        | Some _ => mret (mkResult 0 [])
        | None =>
            lease ← getLease (NS c) (Coll c) leaseID;
            match lease with
            | None => mret (sentinel budNoLease)
            | Some l =>
                if (8 <=? lenZ (Val it)) && wrongHolder (drop 8 (Val it)) l
                then mret (sentinel budWrongHolder)
                else
                  pool ← getPool (NS c) (Coll c);
                  match pool with
                  | None => throw errMissingPool
                  | Some p =>
                      let '(l, p) :=
                        if (8 <=? lenZ (Val it)) && (l_Spent l <? getI64 (Val it))
                        then foldReport (getI64 (Val it)) l p else (l, p) in
                      let rem := int64 (l_Amount l - l_Spent l) in
                      let p := set_buckets p (int64 (p_Available p + rem)) (int64 (p_LeasedOut p - rem))
                                 (p_Spent p) (p_SpentReported p) in
                      _ ← setPool (NS c) (Coll c) p;
                      _ ← delLease (NS c) (Coll c) leaseID;
                      _ ← (if 0 <? l_ReclaimNotBeforeMs l then
                             _ ← delBudExp (NS c) (Coll c) leaseID (l_ReclaimNotBeforeMs l);
                             _ ← setTomb (NS c) (Coll c) leaseID (mkTomb (l_Spent l) reasonReturn);
                             setBudTombGC (NS c) (Coll c) leaseID
                               (int64 (l_ReclaimNotBeforeMs l + p_DedupRetryWindowMs p))
                           else mret ());
                      mret (mkResult (uint64 rem) [])
                  end
            end
        end
  end.

Definition applyBudExpire (c : command) : M ProposeResult :=
  match Items c with
  | [] => throw errShortCommand
  | it :: _ =>
      if (lenZ (Key it) =? 0) || (lenZ (Val it) <? 8) then throw errShortCommand
      else
        let leaseID := Key it in
        let sweepNowMs := getI64 (Val it) in
        tomb ← getTomb (NS c) (Coll c) leaseID;
        match tomb with
        | Some _ => mret (mkResult 0 [])
        | None =>
            lease ← getLease (NS c) (Coll c) leaseID;
            pool ← getPool (NS c) (Coll c);
            match lease with
            | None =>
                _ ← setTomb (NS c) (Coll c) leaseID (mkTomb 0 reasonExpire);
                _ ← match pool with
                    | Some p => setBudTombGC (NS c) (Coll c) leaseID
                                  (int64 (sweepNowMs + p_DedupRetryWindowMs p))
                    | None => mret ()
                    end;
                mret (mkResult 0 [])
            | Some l =>
                if sweepNowMs <? l_ReclaimNotBeforeMs l
                then mret (mkResult (uint64 (int64 (l_Amount l - l_Spent l))) [])
                else
                  match pool with
                  | None => throw errMissingPool
                  | Some p =>
                      let rem := int64 (l_Amount l - l_Spent l) in
                      let p := set_buckets p (p_Available p) (int64 (p_LeasedOut p - rem))
                                 (int64 (p_Spent p + rem)) (p_SpentReported p) in
                      _ ← setPool (NS c) (Coll c) p;
                      _ ← delLease (NS c) (Coll c) leaseID;
                      _ ← (if 0 <? l_ReclaimNotBeforeMs l
                           then delBudExp (NS c) (Coll c) leaseID (l_ReclaimNotBeforeMs l)
                           else mret ());
                      _ ← setTomb (NS c) (Coll c) leaseID (mkTomb (l_Spent l) reasonExpire);
                      _ ← setBudTombGC (NS c) (Coll c) leaseID
                            (int64 (l_ReclaimNotBeforeMs l + p_DedupRetryWindowMs p));
                      mret (mkResult (uint64 rem) [])
                  end
            end
        end
  end.

Definition applyBudTombGC (c : command) : M ProposeResult :=
  match Items c with
  | [] => throw errShortCommand
  | it :: _ =>
      if (lenZ (Key it) =? 0) || (lenZ (Val it) <? 8) then throw errShortCommand
      else
        let leaseID := Key it in
        let gcDueMs := getI64 (Val it) in
        _ ← delTomb (NS c) (Coll c) leaseID;
        _ ← delBudTombGC (NS c) (Coll c) leaseID gcDueMs;
        mret (mkResult 0 [])
  end.

Definition applyBudReconcile (c : command) : M ProposeResult :=
  match Items c with
  | [] => throw errShortCommand
  | it :: _ =>
      if lenZ (Val it) <? 8 then throw errShortCommand
      else
        let trueAcked := getI64 (Val it) in
        pool ← getPool (NS c) (Coll c);
        match pool with
        | None => mret (sentinel budNoBudget)
        | Some p =>
            let target := clampI64 trueAcked (p_SpentReported p) (p_Cap p) in
            let recovered := int64 (p_Spent p - target) in
            let avail := int64 (int64 (p_Cap p - target) - p_LeasedOut p) in
            let avail := if avail <? 0 then 0 else avail in
            _ ← setPool (NS c) (Coll c)
                  (set_buckets p avail (p_LeasedOut p) target (p_SpentReported p));
            mret (mkResult (uint64 recovered) (putI64 recovered))
        end
  end.

(** ** Reads *)

Record BudStat := mkBudStat {
  bs_Exists : bool; bs_Cap : Z; bs_Available : Z; bs_LeasedOut : Z; bs_Spent : Z;
  bs_SpentReported : Z; bs_Epoch : Z; bs_Mode : byte;
}.

Definition lookupBudStat (snap : ls_Snap) (ns coll : bytes) : gres BudStat :=
  do? v ← store_res (sn_Get snap CFReplData (budPoolKey p_ ns coll));
  match v with
  | None => Ok (mkBudStat false 0 0 0 0 0 0 x00)
  | Some v =>
      do? p ← decodePool v;
      Ok (mkBudStat true (p_Cap p) (p_Available p) (p_LeasedOut p) (p_Spent p)
            (p_SpentReported p) (p_Epoch p) (p_Mode p))
  end.

Record budCheck := mkBudCheck {
  bc_Exists : bool; bc_OK : bool; bc_Cap : Z; bc_Available : Z; bc_LeasedOut : Z; bc_Spent : Z;
  bc_SpentReported : Z;
}.

Definition pool_check (p : poolRec) : bool :=
  (int64 (int64 (p_Available p + p_LeasedOut p) + p_Spent p) =? p_Cap p) &&
  (p_Spent p <=? p_Cap p) && (0 <=? p_Available p) && (0 <=? p_LeasedOut p) && (0 <=? p_Spent p).

Definition lookupBudCheck (snap : ls_Snap) (ns coll : bytes) : gres budCheck :=
  do? v ← store_res (sn_Get snap CFReplData (budPoolKey p_ ns coll));
  match v with
  | None => Ok (mkBudCheck false false 0 0 0 0 0)
  | Some v =>
      do? p ← decodePool v;
      Ok (mkBudCheck true (pool_check p) (p_Cap p) (p_Available p) (p_LeasedOut p) (p_Spent p)
            (p_SpentReported p))
  end.

Record dueBudLease := mkDue { d_NS : bytes; d_Coll : bytes; d_LeaseID : bytes; d_ReclaimMs : Z }.

(** One index row, stripped of its space: undecodable rows are skipped. *)
Definition dueRow (suffix : bytes) : option (Z * bytes * bytes * bytes) :=
  if lenZ suffix <? 8 then None
  else
    match takeChunk (drop 8 suffix) with
    | Err _ => None
    | Ok (ns, rest) =>
        match takeChunk rest with
        | Err _ => None
        | Ok (coll, id) => Some (get_u64 suffix, ns, coll, id)
        end
    end.

Definition scanBudDue (snap : ls_Snap) (space : bytes) (nowMs limit : Z) : gres (list dueBudLease) :=
  let stop := space ++ put_u64 (uint64 (uint64 nowMs + 1)) in
  do? rows ← store_res (sn_Scan snap CFReplData (Some space) (Some stop) limit);
  Ok (omap (λ '(k, _), '(t, ns, coll, id) ← dueRow (drop (length space) k);
                       Some (mkDue ns coll id (int64 t))) rows).

End apply.

(** ** Round trips of the encodings *)

Definition pool_wf (p : poolRec) : Prop :=
  (in_i64 (p_Cap p) ∧ in_i64 (p_Available p) ∧ in_i64 (p_LeasedOut p) ∧ in_i64 (p_Spent p)) ∧
  in_u64 (p_Epoch p) ∧ in_i64 (p_Rate p) ∧ in_i64 (p_Burst p) ∧ in_i64 (p_LastRefillMs p) ∧
  in_i64 (p_Tokens p) ∧ in_i64 (p_SelfGuardMs p) ∧ in_i64 (p_MaxPauseMs p) ∧
  in_i64 (p_DefaultTTLMs p) ∧ in_i64 (p_DedupRetryWindowMs p) ∧ in_i64 (p_SpentReported p).

Definition lease_wf (l : leaseRec) : Prop :=
  in_i64 (l_Amount l) ∧ in_i64 (l_Spent l) ∧ in_u64 (l_Epoch l) ∧ in_i64 (l_GrantedMs l) ∧
  in_i64 (l_ReclaimNotBeforeMs l) ∧ in_i64 (l_ExpiresMs l) ∧ lenZ (l_Holder l) + 24 < 2 ^ 32.

Definition grant_wf (g : GrantResult) : Prop :=
  in_i64 (g_Granted g) ∧ in_i64 (g_GrantedMs g) ∧ in_i64 (g_TTLMs g) ∧ in_i64 (g_SelfGuardMs g) ∧
  in_i64 (g_MaxPauseMs g).

Lemma drop_putI64 n v k : (8 ≤ n)%nat → drop n (putI64 v ++ k) = drop (n - 8) k.
Proof.
  intros. rewrite drop_app_ge by (rewrite length_putI64; done). by rewrite length_putI64.
Qed.
Lemma drop_put_u64 n v k : (8 ≤ n)%nat → drop n (put_u64 v ++ k) = drop (n - 8) k.
Proof.
  intros. rewrite drop_app_ge by (rewrite length_put_u64; done). by rewrite length_put_u64.
Qed.
Lemma lenZ_putI64 v : lenZ (putI64 v) = 8.
Proof. unfold lenZ. by rewrite length_putI64. Qed.
Lemma nth_putI64 n v k d : (8 ≤ n)%nat → nth n (putI64 v ++ k) d = nth (n - 8) k d.
Proof. intros. rewrite app_nth2; by rewrite length_putI64. Qed.
Lemma nth_put_u64 n v k d : (8 ≤ n)%nat → nth n (put_u64 v ++ k) d = nth (n - 8) k d.
Proof. intros. rewrite app_nth2; by rewrite length_put_u64. Qed.
Lemma getI64_last v : in_i64 v → getI64 (putI64 v) = v.
Proof. intros. rewrite <-(app_nil_r (putI64 v)). by apply get_putI64. Qed.

(** Step over leading fields, then read the field at the front. *)
Ltac skip_fields :=
  repeat (first [ rewrite drop_putI64 by lia | rewrite drop_put_u64 by lia
                | rewrite nth_putI64 by lia | rewrite nth_put_u64 by lia
                | progress cbn [Nat.sub skipn nth app] | rewrite drop_0 ]).
Ltac read_field := skip_fields; first [rewrite get_putI64 by done | rewrite get_put_u64 by done
                                      | rewrite getI64_last by done | idtac]; try done.

Lemma lenZ_encodePool p : lenZ (encodePool p) = 113.
Proof. unfold encodePool. rewrite ?lenZ_app, ?lenZ_putI64, ?lenZ_put_u64. done. Qed.

(** An appended tail is ignored: the format is append-tolerant. *)
Lemma decodePool_app p tl : pool_wf p → decodePool (encodePool p ++ tl) = Ok p.
Proof.
  intros ((?&?&?&?)&?&?&?&?&?&?&?&?&?&?). unfold decodePool, fieldI64.
  assert (L : 113 ≤ lenZ (encodePool p ++ tl)).
  { rewrite lenZ_app, lenZ_encodePool. pose proof (lenZ_nonneg tl). lia. }
  destruct (Z.ltb_spec (lenZ (encodePool p ++ tl)) 57); [lia|].
  rewrite !(proj2 (Z.leb_le _ _)) by lia.
  unfold encodePool. rewrite <-!app_assoc. destruct p; simpl in *.
  f_equal; f_equal; read_field.
Qed.

Lemma decodePool_encode p : pool_wf p → decodePool (encodePool p) = Ok p.
Proof. intros. rewrite <-(app_nil_r (encodePool p)). by apply decodePool_app. Qed.

Lemma fieldI64_range b n off : in_i64 (fieldI64 b n off).
Proof. unfold fieldI64. case_match; [apply getI64_range|zlia]. Qed.
#[export] Hint Resolve getI64_range get_u64_range fieldI64_range int64_range : width.

Lemma decodePool_wf b p : decodePool b = Ok p → pool_wf p.
Proof.
  unfold decodePool. case_match; [done|]. intros [= <-]. unfold pool_wf. simpl.
  split_and!; auto with width.
Qed.

Lemma decodeLease_encode l : lease_wf l → decodeLease (encodeLease l) = Ok l.
Proof.
  intros (?&?&?&?&?&?&Hh). unfold decodeLease, encodeLease. rewrite appendChunk_chunk.
  rewrite <-!app_assoc. pose proof (lenZ_nonneg (l_Holder l)).
  destruct (Z.ltb_spec (lenZ (putI64 (l_Amount l) ++ putI64 (l_Spent l) ++ put_u64 (l_Epoch l) ++
    chunk (l_Holder l) ++ putI64 (l_GrantedMs l) ++ putI64 (l_ReclaimNotBeforeMs l) ++
    putI64 (l_ExpiresMs l))) 24) as [Hlt|_].
  { rewrite !lenZ_app, ?lenZ_putI64, ?lenZ_put_u64, lenZ_chunk in Hlt. lia. }
  skip_fields. rewrite takeChunk_chunk.
  2: { rewrite !lenZ_app, !lenZ_putI64. lia. }
  simpl. unfold fieldI64. rewrite !lenZ_app, !lenZ_putI64. destruct l; simpl in *.
  f_equal; f_equal; read_field.
Qed.

Lemma decodeTomb_encode t : in_i64 (t_FinalSpent t) → decodeTomb (encodeTomb t) = Ok t.
Proof.
  intros. unfold decodeTomb, encodeTomb. rewrite lenZ_app, lenZ_putI64. simpl.
  destruct t; simpl in *. f_equal; f_equal; read_field.
Qed.

Lemma decodeGrantResult_encode g : grant_wf g → decodeGrantResult (encodeGrantResult g) = g.
Proof.
  intros (?&?&?&?&?). unfold decodeGrantResult, encodeGrantResult, fieldI64.
  rewrite !lenZ_app, !lenZ_putI64. destruct g; simpl in *. f_equal; read_field.
Qed.

Lemma decodeGranted_encode g :
  in_i64 (g_Granted g) → g_Granted (decodeGrantResult (encodeGrantResult g)) = g_Granted g.
Proof.
  intros. unfold decodeGrantResult, encodeGrantResult, fieldI64.
  rewrite !lenZ_app, !lenZ_putI64. destruct g; simpl in *. read_field.
Qed.

(** the budget records survive their encodings: a pool, lease, tombstone or
    grant echo whose fields fit their widths is decoded to itself, and a pool
    record followed by fields of a later stage still decodes to the same pool. *)
Theorem budget_records_roundtrip (p : poolRec) (l : leaseRec) (t : tombRec) (g : GrantResult)
    (tl : bytes) :
  pool_wf p → lease_wf l → in_i64 (t_FinalSpent t) → grant_wf g →
  decodePool (encodePool p ++ tl) = Ok p ∧ decodeLease (encodeLease l) = Ok l ∧
  decodeTomb (encodeTomb t) = Ok t ∧ decodeGrantResult (encodeGrantResult g) = g.
Proof.
  intros. split_and!; [by apply decodePool_app|by apply decodeLease_encode|
    by apply decodeTomb_encode|by apply decodeGrantResult_encode].
Qed.

Lemma budget_records_roundtrip_witness :
  let p := mkPool 100 90 10 0 1 modeStrict 5 7 0 7 500 0 1000 30000 0 in
  let l := mkLease (lit "h") 10 0 1 17 1000 900 in
  decodePool (encodePool p ++ [x01]) = Ok p ∧ decodeLease (encodeLease l) = Ok l.
Proof.
  intros p l. destruct (budget_records_roundtrip p l (mkTomb 3 reasonReturn) (mkGrant 10 17 9 5 0) [x01])
    as (H1 & H2 & _); [by vm_compute..|]. exact (conj H1 H2).
Defined.

End Budget.
