(* ===== verification/ShardSM.v ===== *)
(** * The data shard state machine (internal/collections/statemachine.go)

    Element commands, hash counters (hincr.go), freezes (freeze.go) and raw
    migration (migrate.go), composed into [applyOne], [applyEntry] and [Update]
    as the state machine composes them, with the panic recovery and per-entry
    rollback of sm_fatal.go. *)

From S2P Require Import Prelude Bytes Strconv Storage Command Keys Ctx Budget.

Local Open Scope Z_scope.

Module ShardSM.
Import Storage Command Keys Ctx Budget.

(** The float64 arithmetic and text conversions HINCRBYFLOAT uses, on bits. *)
Class FloatText := {
  f64_add : Z → Z → Z;
  ParseFloat : bytes → option Z;
  FormatFloat : Z → bytes;
}.

(** ** Freezes (freeze.go) *)

Record frozenRange := mkFrozen { fz_start : bytes; fz_end : bytes }.

(** [[start, end)] with empty bounds open, as freezes and routes use it. *)
Definition inRoute (rk start stop : bytes) : bool :=
  ((lenZ start =? 0) || negb (bool_decide (bcompare rk start = Lt))) &&
  ((lenZ stop =? 0) || bool_decide (bcompare rk stop = Lt)).

Definition frozenCovers (ranges : list frozenRange) (key : bytes) : bool :=
  existsb (λ r, inRoute key (fz_start r) (fz_end r)) ranges.

Definition encodeFreeze (start stop : bytes) : bytes :=
  appendChunk (appendChunk [opByte opFreeze] start) stop.
Definition encodeUnfreeze (start stop : bytes) : bytes :=
  appendChunk (appendChunk [opByte opUnfreeze] start) stop.

(** ** Raw migration (migrate.go) *)

Record rawKV := mkRawKV { Suffix : bytes; RValue : bytes }.

Definition routeKeyOf (suffix : bytes) : option bytes :=
  match suffix with
  | [] => None
  | b :: tl =>
      body ← (if decide (b = subData) then Some tl
              else if decide (b = subTTL) then
                if lenZ suffix <? 9 then None else Some (drop 9 suffix)
              else None);
      match takeChunk body with
      | Err _ => None
      | Ok (ns, rest) =>
          match takeChunk rest with
          | Err _ => None
          | Ok (coll, _) => Some (appendChunk (appendChunk [] ns) coll)
          end
      end
  end.

(** The rows of a prefix scan whose routing key is in the range, as [rawKV]s. *)
Definition rangeRows (prefix start stop : bytes) (rows : list StoreKV) : list rawKV :=
  omap (λ '(k, v),
    let suffix := drop (length prefix) k in
    match routeKeyOf suffix with
    | Some rk => if inRoute rk start stop then Some (mkRawKV suffix v) else None
    | None => None
    end) rows.

Definition limitRows {A} (limit : Z) (l : list A) : list A :=
  if 0 <? limit then take (Z.to_nat limit) l else l.

Definition encodeIngest (kvs : list rawKV) : bytes :=
  fold_left (λ buf kv, appendChunk (appendChunk buf (Suffix kv)) (RValue kv)) kvs
    ([opByte opIngest] ++ put_u32 (uint32 (Z.of_nat (length kvs)))).

Fixpoint decodeKVs (n : nat) (rest : bytes) : gres (list rawKV) :=
  match n with
  | O => Ok []
  | S n' =>
      do? (suffix, rest) ← takeChunk rest;
      do? (val, rest) ← takeChunk rest;
      do? kvs ← decodeKVs n' rest;
      Ok (mkRawKV suffix val :: kvs)
  end.

Definition decodeIngest (b : bytes) : gres (list rawKV) :=
  if lenZ b <? 5 then Err errShortCommand
  else decodeKVs (Z.to_nat (get_u32 (drop 1 b))) (drop 5 b).

Definition encodePurge (start stop : bytes) : bytes :=
  appendChunk (appendChunk [opByte opPurge] start) stop.

Definition decodePurge (b : bytes) : gres (bytes * bytes) :=
  if lenZ b <? 1 then Err errShortCommand
  else
    do? (start, rest) ← takeChunk (drop 1 b);
    do? (stop, _) ← takeChunk rest;
    Ok (start, stop).

Section sm.
Context {S : Type} `{LocalStore S} `{FloatText} (s : baseSM S).
Local Abbreviation p_ := (sm_prefix s).

Definition loadFrozen : gres (list frozenRange) :=
  let fs := frozenSpace p_ in
  do? rows ← fatal_res (ls_Scan (sm_store s) CFReplData (Some fs) (prefixEnd fs) 0);
  Ok ((λ '(k, v), mkFrozen (drop (length fs) k) v) <$> rows).

Definition applyFreeze (cmd : bytes) : M () :=
  '(start, stop) ← lift (decodePurge cmd);
  match cmd with
  | b :: _ => if decide (opKindOf b = opFreeze) then put (frozenKey p_ start) stop
              else del (frozenKey p_ start)
  | [] => throw EPanic
  end.

Definition applyMigrate (cmd : bytes) : M Z :=
  match cmd with
  | [] => throw EPanic
  | b :: _ =>
      match opKindOf b with
      | opIngest =>
          kvs ← lift (decodeIngest cmd);
          _ ← mfold (λ _ kv, put (p_ ++ Suffix kv) (RValue kv)) () kvs;
          mret (Z.of_nat (length kvs))
      | opPurge =>
          '(start, stop) ← lift (decodePurge cmd);
          rows ← lift (fatal_res (ls_Scan (sm_store s) CFReplData (Some p_) (prefixEnd p_) 0));
          let kvs := rangeRows p_ start stop rows in
          _ ← mfold (λ _ kv, del (p_ ++ Suffix kv)) () kvs;
          mret (Z.of_nat (length kvs))
      | _ => throw errUnknownOp
      end
  end.

(** ** Hash counters (hincr.go) *)

Definition touchField (c : command) (ek : bytes) (existed : bool) : M Z :=
  _ ← putExists ek true;
  if existed then mret 0
  else _ ← addCard (cardKey p_ (NS c) (Coll c)) 1; mret 1.

Definition applyHIncrInt (c : command) (it : item) : M (Z * bytes) :=
  if lenZ (Val it) <? 8 then throw errShortCommand
  else
    let ek := elemKey p_ (NS c) (Coll c) (Key it) in
    cur ← fieldVal s ek;
    match (match cur with None => Some 0 | Some cur => Strconv.ParseInt cur end) with
    | None => mret (0, notNumber)
    | Some base =>
        let nv := int64 (base + int64 (get_u64 (Val it))) in
        _ ← setFieldVal ek (Strconv.FormatInt nv);
        changed ← touchField c ek (bool_decide (is_Some cur));
        mret (changed, put_u64 (uint64 nv))
    end.

Definition applyHIncrFloat (c : command) (it : item) : M (Z * bytes) :=
  let ek := elemKey p_ (NS c) (Coll c) (Key it) in
  cur ← fieldVal s ek;
  match (match cur with None => Some 0 | Some cur => ParseFloat cur end) with
  | None => mret (0, notNumber)
  | Some base =>
      let nv := f64_add base (Score it) in
      _ ← setFieldVal ek (FormatFloat nv);
      changed ← touchField c ek (bool_decide (is_Some cur));
      mret (changed, put_u64 nv)
  end.

(** ** Element commands *)

(** Delete a present set or hash element; [vals] is cleared when [clear]. *)
Definition dropElem (c : command) (it : item) (clear : bool) : M Z :=
  let ek := elemKey p_ (NS c) (Coll c) (Key it) in
  present ← elemExists s ek;
  changed ← (if (present : bool) then
    _ ← del ek;
    _ ← putExists ek false;
    _ ← (if clear then putVals ek None else mret ());
    _ ← addCard (cardKey p_ (NS c) (Coll c)) (-1);
    mret 1 else mret 0 : M Z);
  _ ← clearTTL s (NS c) (Coll c) (Key it);
  mret changed.

Definition dropMember (c : command) (it : item) : M Z :=
  let pk := zptrKey p_ (NS c) (Coll c) (Key it) in
  old ← zScore s (NS c) (Coll c) (Key it);
  match old with
  | None => mret 0
  | Some old =>
      _ ← del (zscoreKey p_ (NS c) (Coll c) old (Key it));
      _ ← del pk;
      _ ← putZscore pk None;
      _ ← addCard (cardKey p_ (NS c) (Coll c)) (-1);
      mret 1
  end.

(** One iteration of applyCommand's loop: the increment of [changed]. *)
Definition applyItem (c : command) (it : item) : M Z :=
  let ns := NS c in
  let coll := Coll c in
  let ck := cardKey p_ ns coll in
  let ek := elemKey p_ ns coll (Key it) in
  let pk := zptrKey p_ ns coll (Key it) in
  match Op c with
  | opSAdd =>
      present ← elemExists s ek;
      changed ← (if negb present then
        _ ← put ek [];
        _ ← putExists ek true;
        _ ← addCard ck 1;
        mret 1 else mret 0 : M Z);
      _ ← (if 0 <? ExpiryMs it then setTTL s ns coll (Key it) (uint64 (ExpiryMs it)) else mret ());
      mret changed
  | opSRem | opHDel => dropElem c it true
  | opExpire =>
      exp ← lift (ttlExpiryOf s ns coll (Key it));
      match exp with
      | None => mret 0
      | Some exp => if uint64 (ExpiryMs it) <? exp then mret 0 else dropElem c it false
      end
  | opHSet =>
      present ← elemExists s ek;
      _ ← put ek (Val it);
      _ ← putExists ek true;
      _ ← putVals ek (Some (Val it));
      if negb present then _ ← addCard ck 1; mret 1 else mret 0
  | opZAdd =>
      old ← zScore s ns coll (Key it);
      changed ← match old with
        | Some old => _ ← del (zscoreKey p_ ns coll old (Key it)); mret 0
        | None => _ ← addCard ck 1; mret 1
        end;
      _ ← put (zscoreKey p_ ns coll (Score it) (Key it)) [];
      _ ← put pk (put_u64 (Score it));
      _ ← putZscore pk (Some (Score it));
      mret changed
  | opZRem => dropMember c it
  | opRemove =>
      t ← typeOf s ns coll;
      if decide (t = typeSet ∨ t = typeHash) then dropElem c it true
      else if decide (t = typeZSet) then dropMember c it
      else mret 0
  | _ => mret 0
  end.

Definition applyCommand (c : command) : M Z :=
  mfold (λ changed it, d ← applyItem c it; mret (int64 (changed + d))) 0 (Items c).

(** ** One command *)

Definition isBudOp (op : opKind) : bool := bool_decide (typeForOp op = typeBudget).

(** Cache a keyed write's result in the ring and in the batch overlay. *)
Definition recordDedup (c : command) (r : ProposeResult) : M () :=
  _ ← dedupRecord s (Idem c) (Value r) (Data r);
  putDedup (Idem c) r.

Definition applyHIncr (c : command) (deduped : bool) : M ProposeResult :=
  match Items c with
  | [] => throw errShortCommand
  | it :: _ =>
      '(changed, data) ← (if decide (Op c = opHIncrBy) then applyHIncrInt c it
                          else applyHIncrFloat c it);
      let r := mkResult (uint64 changed) data in
      _ ← (if deduped && negb (bool_decide (data = notNumber)) then recordDedup c r else mret ());
      mret r
  end.

Definition applyBud (c : command) : M ProposeResult :=
  tp ← typeOf s (NS c) (Coll c);
  if negb (bool_decide (tp = typeNone)) && negb (bool_decide (tp = typeBudget))
  then mret (sentinel wrongType)
  else
    match Op c with
    | opBudInit => applyBudInit s c
    | opBudGrant => applyBudGrant s c
    | opBudReport => applyBudReport s c
    | opBudReturn => applyBudReturn s c
    | opBudExpire => applyBudExpire s c
    | opBudTombGC => applyBudTombGC s c
    | _ => applyBudReconcile s c
    end.

Definition applyElems (c : command) (deduped : bool) : M ProposeResult :=
  changed ← applyCommand c;
  let r := mkResult (uint64 changed) [] in
  _ ← (if deduped then recordDedup c r else mret ());
  mret r.

(** The dispatch of [applyOne] once freeze and deduplication let the command through. *)
Definition dispatch (c : command) (deduped : bool) : M ProposeResult :=
  ok ← (if negb (bool_decide (Op c = opExpire)) && negb (bool_decide (Op c = opRemove)) &&
           negb (isBudOp (Op c))
        then ensureType s (NS c) (Coll c) (typeForOp (Op c)) else mret true);
  if negb ok then mret (sentinel wrongType)
  else if bool_decide (Op c = opHIncrBy) || bool_decide (Op c = opHIncrByFloat)
  then applyHIncr c deduped
  else if isBudOp (Op c) then applyBud c
  else applyElems c deduped.

Definition applyOne (cmd : bytes) (frozen : list frozenRange) : M ProposeResult :=
  c ← lift (decodeCommand cmd);
  if (0 <? Z.of_nat (length frozen)) && mutates (Op c) &&
     frozenCovers frozen (routeKey (NS c) (Coll c))
  then mret (sentinel frozenMark)
  else if mutates (Op c) && (0 <? lenZ (Idem c)) then
    o ← gets (λ u, inBatchDedup u !! Idem c);
    match o with
    | Some r => mret r
    | None =>
        cached ← lift (dedupGet s (Idem c));
        match cached with
        | Some r => mret r
        | None => dispatch c true
        end
    end
  else dispatch c false.

(** ** One log entry *)

Record entry := mkEntry { e_Index : Z; e_Cmd : bytes }.

Definition applySubs (frozen : list frozenRange) (subs : list bytes) : M (list ProposeResult) :=
  mfold (λ rs sub, r ← applyOne sub frozen; mret (rs ++ [r])) [] subs.

Definition applyEntryBody (cmd : bytes) (frozen : list frozenRange) : M ProposeResult :=
  let op := opKindOf <$> head cmd in
  if decide (op = Some opIngest ∨ op = Some opPurge) then
    changed ← applyMigrate cmd; mret (mkResult (uint64 changed) [])
  else if decide (op = Some opFreeze ∨ op = Some opUnfreeze) then
    _ ← applyFreeze cmd; mret (mkResult 1 [])
  else if decide (op = Some opBatch) then
    subs ← lift (decodeBatch cmd);
    rs ← applySubs frozen subs;
    mret (mkResult 0 (encodeBatchResult [] rs))
  else applyOne cmd frozen.

(** Tag an error with the entry it comes from: a panic is recovered, a storage
    fault stays as it is. *)
Definition wrap (index : Z) (e : gerr) : gerr := if isFatal e then e else ECorrupt index e.

Definition applyEntrySafe (e : entry) (frozen : list frozenRange) : M ProposeResult := λ u,
  match applyEntryBody (e_Cmd e) frozen u with
  | (Ok r, u') => (Ok r, u')
  | (Err err, u') => (Err (wrap (e_Index e) err), u')
  end.

(** ** A batch of entries *)

Fixpoint applyEntries (frozen : list frozenRange) (es : list entry) (u : updateCtx)
    : gres (list ProposeResult * updateCtx) :=
  match es with
  | [] => Ok ([], u)
  | e :: es' =>
      let snap := snapshot u in
      let '(r, u1) := applyEntrySafe e frozen u in
      do? (r, u2) ← (match r with
        | Ok r => Ok (r, u1)
        | Err err => if isFatal err then Err err else Ok (mkResult 0 [], restore u1 snap)
        end);
      do? (rs, u3) ← applyEntries frozen es' u2;
      Ok (r :: rs, u3)
  end.

Definition readCard (ck : bytes) : gres Z :=
  do? v ← getData s ck;
  match v with
  | None => Ok 0
  | Some v => if lenZ v =? 8 then Ok (get_u64 v) else Err (fatal errCorruptCard)
  end.

(** The card deltas, in the map's iteration order. *)
Fixpoint cardOps (deltas : list (bytes * Z)) : gres (list StoreOp) :=
  match deltas with
  | [] => Ok []
  | (ck, delta) :: tl =>
      if delta =? 0 then cardOps tl
      else
        do? cur ← readCard ck;
        let nv := int64 (int64 cur + delta) in
        let nv := if nv <? 0 then 0 else nv in
        do? ops ← cardOps tl;
        Ok (putOp CFReplData ck (put_u64 (uint64 nv)) :: ops)
  end.

Definition Update (entries : list entry) : gres (list ProposeResult * baseSM S) :=
  match last entries with
  | None => Ok ([], s)
  | Some lastEntry =>
      do? frozen ← loadFrozen;
      do? seq ← readDedupSeq s;
      do? (results, u) ← applyEntries frozen entries (set_dedupSeq seq emptyCtx);
      let seqOps := if dedupSeq u =? seq then []
                    else [putOp CFReplData (dedupSeqKey p_) (put_u64 (dedupSeq u))] in
      do? cards ← cardOps (map_to_list (cardDelta u));
      let applied := putOp CFReplData (appliedKey p_) (put_u64 (e_Index lastEntry)) in
      do? store ← fatal_res (ls_BatchRC (sm_store s) (ops u ++ seqOps ++ cards ++ [applied]));
      Ok (results, with_store s store)
  end.

(** ** Queries *)

Inductive query :=
  | isMemberQuery (ns coll member : bytes)
  | cardQuery (ns coll : bytes)
  | cardCheckQuery (ns coll : bytes)
  | membersQuery (ns coll : bytes) (limit : Z)
  | hGetQuery (ns coll field : bytes)
  | hGetAllQuery (ns coll : bytes) (limit : Z)
  | zScoreQuery (ns coll member : bytes)
  | zRangeQuery (ns coll : bytes) (limit : Z)
  | collectionsQuery (ns : bytes)
  | collectionInfosQuery (ns : bytes)
  | budStatQuery (ns coll : bytes)
  | budCheckQuery (ns coll : bytes)
  | ttlDueQuery (nowMs limit : Z)
  | budExpiryDueQuery (nowMs limit : Z)
  | budTombGCDueQuery (nowMs limit : Z)
  | migrateScanQuery (startRoute endRoute : bytes) (limit : Z)
  | unknownQuery.

Record CardCheck := mkCardCheck { cc_Stored : Z; cc_Counted : Z }.
Record dueElem := mkDueElem { de_NS : bytes; de_Coll : bytes; de_Member : bytes; de_Expiry : Z }.

Inductive answer :=
  | AFound (b : bool)
  | ACard (n : Z)
  | ACheck (c : CardCheck)
  | AList (l : list bytes)
  | AValue (v : option bytes)
  | AFields (l : list (bytes * bytes))
  | AScore (f : option Z)
  | AScored (l : list (bytes * Z))
  | AInfos (l : list (bytes * byte))
  | ABudStat (b : BudStat)
  | ABudCheck (b : budCheck)
  | ADue (l : list dueElem)
  | ABudDue (l : list dueBudLease)
  | ARaw (l : list rawKV).

Definition snapCard (snap : ls_Snap) (ns coll : bytes) : gres Z :=
  do? v ← store_res (sn_Get snap CFReplData (cardKey p_ ns coll));
  match v with
  | None => Ok 0
  | Some v => if lenZ v =? 8 then Ok (get_u64 v) else Err errCorruptCard
  end.

(** The rows under a key prefix, each key stripped of it. *)
Definition scanUnder (snap : ls_Snap) (prefix : bytes) (limit : Z) : gres (list (bytes * bytes)) :=
  do? rows ← store_res (sn_Scan snap CFReplData (Some prefix) (prefixEnd prefix) limit);
  Ok ((λ '(k, v), (drop (length prefix) k, v)) <$> rows).

Definition scanDue (snap : ls_Snap) (nowMs limit : Z) : gres (list dueElem) :=
  let ts := ttlSpace p_ in
  let stop := ts ++ put_u64 (uint64 (uint64 nowMs + 1)) in
  do? rows ← store_res (sn_Scan snap CFReplData (Some ts) (Some stop) limit);
  Ok (omap (λ '(k, _), '(t, ns, coll, m) ← dueRow (drop (length ts) k);
                       Some (mkDueElem ns coll m t)) rows).

Definition scanRange (snap : ls_Snap) (prefix start stop : bytes) (limit : Z) : gres (list rawKV) :=
  do? rows ← store_res (sn_Scan snap CFReplData (Some prefix) (prefixEnd prefix) 0);
  Ok (limitRows limit (rangeRows prefix start stop rows)).

(** The collections of a namespace: the header rows under [dataSpace|chunk(ns)]. *)
Definition headerRow (row : bytes * bytes) : option (bytes * byte) :=
  match takeChunk row.1 with
  | Ok (coll, [sc]) =>
      if decide (sc = scopeType)
      then Some (coll, match row.2 with t :: _ => t | [] => typeNone end) else None
  | _ => None
  end.

Definition Lookup (q : query) : gres answer :=
  do? snap ← store_res (ls_Snapshot (sm_store s));
  match q with
  | isMemberQuery ns coll m =>
      do? v ← store_res (sn_Get snap CFReplData (elemKey p_ ns coll m));
      Ok (AFound (bool_decide (is_Some v)))
  | cardQuery ns coll => do? n ← snapCard snap ns coll; Ok (ACard n)
  | cardCheckQuery ns coll =>
      do? stored ← snapCard snap ns coll;
      do? rows ← scanUnder snap (elemPrefix p_ ns coll) 0;
      Ok (ACheck (mkCardCheck stored (uint64 (Z.of_nat (length rows)))))
  | membersQuery ns coll limit =>
      do? rows ← scanUnder snap (elemPrefix p_ ns coll) limit; Ok (AList rows.*1)
  | hGetQuery ns coll f =>
      do? v ← store_res (sn_Get snap CFReplData (elemKey p_ ns coll f)); Ok (AValue v)
  | hGetAllQuery ns coll limit =>
      do? rows ← scanUnder snap (elemPrefix p_ ns coll) limit; Ok (AFields rows)
  | zScoreQuery ns coll m =>
      do? raw ← store_res (sn_Get snap CFReplData (zptrKey p_ ns coll m));
      match raw with
      | None => Ok (AScore None)
      | Some raw => do? f ← float64FromBits raw; Ok (AScore (Some f))
      end
  | zRangeQuery ns coll limit =>
      do? rows ← scanUnder snap (elemPrefix p_ ns coll) limit;
      Ok (AScored (omap (λ '(k, _), if lenZ k <? 8 then None
                                    else Some (drop 8 k, unsortableScore (take 8 k))) rows))
  | collectionsQuery ns =>
      do? rows ← scanUnder snap (appendChunk (dataSpace p_) ns) 0;
      Ok (AList (omap headerRow rows).*1)
  | collectionInfosQuery ns =>
      do? rows ← scanUnder snap (appendChunk (dataSpace p_) ns) 0;
      Ok (AInfos (omap headerRow rows))
  | budStatQuery ns coll => do? b ← lookupBudStat s snap ns coll; Ok (ABudStat b)
  | budCheckQuery ns coll => do? b ← lookupBudCheck s snap ns coll; Ok (ABudCheck b)
  | ttlDueQuery now limit => do? l ← scanDue snap now limit; Ok (ADue l)
  | budExpiryDueQuery now limit =>
      do? l ← scanBudDue snap (budExpSpace p_) now limit; Ok (ABudDue l)
  | budTombGCDueQuery now limit =>
      do? l ← scanBudDue snap (budTombGCSpace p_) now limit; Ok (ABudDue l)
  | migrateScanQuery start stop limit =>
      do? l ← scanRange snap p_ start stop limit; Ok (ARaw l)
  | unknownQuery => Err errUnknownQuery
  end.

End sm.

End ShardSM.
