(* ===== verification/Samples.v ===== *)
(** * Sample shards and commands

    Concrete values at which the theorems are instantiated: an empty shard on the
    in-memory store, and encoded commands of each kind. *)

From S2P Require Import Prelude Bytes Strconv Storage Command Keys Ctx Budget ShardSM.

Local Open Scope Z_scope.

Module Samples.
Import Storage Command Keys Budget ShardSM.

(** Bit patterns written in decimal, with modular addition. *)
#[export] Instance sample_text : FloatText := {
  f64_add a b := uint64 (a + b);
  ParseFloat b := Strconv.ParseUint b;
  FormatFloat f := Strconv.FormatUint f;
}.

Definition shard0 : baseSM MemStore := newBaseSM NewMemStore 1.

Definition ns0 : bytes := lit "ns".
Definition coll0 : bytes := lit "c".

Definition cmdOf (op : opKind) (idem : bytes) (its : list item) : bytes :=
  encodeCommand (mkCommand op ns0 coll0 idem its).

Definition initCmd (cap : Z) : bytes :=
  cmdOf opBudInit [] [mkItem (modeStrict :: putI64 cap ++ putI64 0 ++ putI64 0) [] 0 0].
Definition grantCmd (id : bytes) (amount now ttl : Z) : bytes :=
  cmdOf opBudGrant [] [mkItem id (putI64 amount ++ putI64 now ++ putI64 ttl) 0 0].
Definition reportCmd (id : bytes) (total : Z) : bytes :=
  cmdOf opBudReport [] [mkItem id (putI64 total) 0 0].
Definition returnCmd (id : bytes) : bytes := cmdOf opBudReturn [] [mkItem id [] 0 0].
Definition reconcileCmd (total : Z) : bytes := cmdOf opBudReconcile [] [mkItem [] (putI64 total) 0 0].

Definition one (cmd : bytes) : list entry := [mkEntry 1 cmd].
Definition lease0 : bytes := lit "lease".

(** The shard after a budget of 5 has been created on it. *)
Definition shard1 : baseSM MemStore :=
  match Update shard0 (one (initCmd 5)) with Ok (_, s) => s | Err _ => shard0 end.

Definition succeeded {E A} (r : res E A) : bool := match r with Ok _ => true | Err _ => false end.

End Samples.
