(* ===== verification/Snapshot.v ===== *)
(** * Snapshots of a shard (internal/collections/base_sm.go)

    A snapshot is a stream of chunks: the applied index, then every key of the
    shard (without its prefix) and its value. Recovery clears the prefix and
    installs the stream, in batches of 1024 writes. The io.Reader and io.Writer
    are byte lists; [stop] is the stop channel, polled once per row. *)

From S2P Require Import Prelude Bytes Storage Command Keys Ctx CtxLogic ShardSM Samples.

Local Open Scope Z_scope.

Module Snapshot.
Import Storage Command Keys Ctx CtxLogic.

(** ** Chunk streams (command.go) *)

Definition writeChunk (w b : bytes) : bytes := w ++ put_u32 (uint32 (lenZ b)) ++ b.

(** io.ReadFull: nothing left is EOF, too little is an unexpected EOF. *)
Definition readFull (n : Z) (r : bytes) : gres (bytes * bytes) :=
  if n =? 0 then Ok ([], r)
  else if lenZ r =? 0 then Err errEOF
  else if lenZ r <? n then Err errUnexpectedEOF
  else Ok (take (Z.to_nat n) r, drop (Z.to_nat n) r).

Definition readChunk (r : bytes) : gres (bytes * bytes) :=
  do? (l, r) ← readFull 4 r;
  match readFull (get_u32 l) r with
  | Err errEOF => Err errUnexpectedEOF
  | res => res
  end.

Section snap.
Context {S : Type} `{LocalStore S}.
Context (s : baseSM S).

(** ** Reading the applied index *)

Definition Open : gres Z :=
  do? v ← store_res (ls_Get (sm_store s) CFReplData (appliedKey (sm_prefix s)));
  match v with
  | None => Ok 0
  | Some v => if lenZ v =? 8 then Ok (get_u64 v) else Err errCorruptApplied
  end.

Record snapState := mkSnapState { st_snap : ls_Snap; st_applied : Z }.

Definition PrepareSnapshot : gres snapState :=
  do? snap ← store_res (ls_Snapshot (sm_store s));
  do? v ← store_res (sn_Get snap CFReplData (appliedKey (sm_prefix s)));
  Ok (mkSnapState snap
        (match v with Some v => if lenZ v =? 8 then get_u64 v else 0 | None => 0 end)).

(** ** Saving *)

Fixpoint saveRows (stop : nat → bool) (i : nat) (rows : list StoreKV) (w : bytes) : gres bytes :=
  match rows with
  | [] => Ok w
  | (k, v) :: rows' =>
      if stop i then Err errSnapshotStopped
      else saveRows stop (Datatypes.S i) rows'
             (writeChunk (writeChunk w (drop (length (sm_prefix s)) k)) v)
  end.

Definition SaveSnapshot (st : snapState) (stop : nat → bool) : gres bytes :=
  let w := writeChunk [] (put_u64 (st_applied st)) in
  do? rows ← store_res (sn_Scan (st_snap st) CFReplData (Some (sm_prefix s)) (prefixEnd (sm_prefix s)) 0);
  saveRows stop 0 rows w.

(** ** Batched writes *)

Definition flush (store : S) (ops : list StoreOp) : gres S :=
  match ops with
  | [] => Ok store
  | _ => store_res (ls_BatchRC store ops)
  end.

(** Append an operation, flushing at 1024. *)
Definition pushOp (store : S) (ops : list StoreOp) (op : StoreOp) : gres (S * list StoreOp) :=
  let ops := ops ++ [op] in
  if (1024 <=? length ops)%nat then do? store ← flush store ops; Ok (store, [])
  else Ok (store, ops).

Fixpoint pushOps (store : S) (ops : list StoreOp) (l : list StoreOp) : gres (S * list StoreOp) :=
  match l with
  | [] => Ok (store, ops)
  | op :: l' => do? (store, ops) ← pushOp store ops op; pushOps store ops l'
  end.

Definition clearPrefix : gres S :=
  do? rows ← store_res (ls_Scan (sm_store s) CFReplData (Some (sm_prefix s)) (prefixEnd (sm_prefix s)) 0);
  do? (store, ops) ← pushOps (sm_store s) [] (delOp CFReplData <$> rows.*1);
  flush store ops.

(** ** Recovery *)

(** The installation loop; every iteration consumes at least eight bytes. *)
Fixpoint recoverLoop (fuel : nat) (stop : nat → bool) (i : nat) (r : bytes) (store : S)
    (ops : list StoreOp) : gres (S * list StoreOp) :=
  match fuel with
  | O => Err errUnexpectedEOF
  | Datatypes.S fuel' =>
      if stop i then Err errSnapshotStopped
      else
        match readChunk r with
        | Err errEOF => Ok (store, ops)
        | Err e => Err e
        | Ok (suffix, r) =>
            do? (val, r) ← readChunk r;
            do? (store, ops) ← pushOp store ops (putOp CFReplData (sm_prefix s ++ suffix) val);
            recoverLoop fuel' stop (Datatypes.S i) r store ops
        end
  end.

Definition RecoverFromSnapshot (r : bytes) (stop : nat → bool) : gres (baseSM S) :=
  do? (idx, r) ← readChunk r;
  do? store ← clearPrefix;
  do? (store, ops) ← recoverLoop (Datatypes.S (length r)) stop 0 r store [];
  do? store ← flush store (ops ++ [putOp CFReplData (appliedKey (sm_prefix s)) idx]);
  Ok (with_store s store).

End snap.

(** ** Streams *)

Lemma readFull_app a r : readFull (lenZ a) (a ++ r) = Ok (a, r).
Proof.
  unfold readFull. destruct (Z.eqb_spec (lenZ a) 0) as [E|E].
  { destruct a; [done|]. rewrite lenZ_cons in E. pose proof (lenZ_nonneg a). lia. }
  pose proof (lenZ_nonneg a). pose proof (lenZ_nonneg r). rewrite lenZ_app.
  destruct (Z.eqb_spec (lenZ a + lenZ r) 0); [lia|].
  destruct (Z.ltb_spec (lenZ a + lenZ r) (lenZ a)); [lia|].
  unfold lenZ. rewrite Nat2Z.id, take_app_length, drop_app_length. done.
Qed.

Lemma readChunk_chunk b r : lenZ b < 2 ^ 32 → readChunk (chunk b ++ r) = Ok (b, r).
Proof.
  intros Hb. pose proof (lenZ_nonneg b). unfold readChunk. rewrite chunk_eq, <-app_assoc.
  rewrite <-(lenZ_put_u32 (uint32 (lenZ b))) at 1. rewrite readFull_app. cbn [res_bind].
  rewrite <-(app_nil_r (put_u32 _)), get_put_u32, uint32_id, readFull_app by (zlia || apply uint32_range).
  done.
Qed.

Definition encRows (rows : list (bytes * bytes)) : bytes :=
  concat ((λ '(k, v), chunk k ++ chunk v) <$> rows).

Section recover.
Context {S : Type} `{LocalStoreSpec S}.
Context (s : baseSM S).
Local Abbreviation p_ := (sm_prefix s).

Lemma saveRows_enc (rows : list StoreKV) i w :
  saveRows s (λ _, false) i rows w =
    Ok (w ++ encRows ((λ '(k, v), (drop (length p_) k, v)) <$> rows)).
Proof.
  revert i w. induction rows as [|[k v] rows IH]; intros i w; cbn [saveRows].
  - by rewrite app_nil_r.
  - rewrite IH. unfold encRows. simpl. unfold writeChunk. by rewrite !chunk_eq, <-!app_assoc.
Qed.

(** A store that has taken [l] in order, the operations [ops] still pending. *)
Definition taken (st0 st : S) (l ops : list StoreOp) : Prop :=
  ls_live st ∧ Forall (λ op, cf_valid (op_CF op) = true) ops ∧
  ∀ cf, cf_valid cf = true →
    apply_ops cf ops (ls_view st cf) = apply_ops cf l (ls_view st0 cf).

Lemma flush_taken st0 st l ops :
  taken st0 st l ops → ∃ st', flush st ops = Ok st' ∧ taken st0 st' l [].
Proof.
  intros (Hl & Hv & E). unfold flush. destruct ops as [|op ops].
  - exists st. split; [done|]. split_and!; [done|done|]. intros cf Hcf. by apply E.
  - destruct (ls_BatchRC_ok st (op :: ops) Hl Hv) as (st' & -> & Hl' & Hv').
    exists st'. split; [done|]. split_and!; [done|done|]. intros cf Hcf. simpl. rewrite Hv' by done. by apply E.
Qed.

Lemma pushOp_taken st0 st l ops op :
  taken st0 st l ops → cf_valid (op_CF op) = true →
  ∃ st' ops', pushOp st ops op = Ok (st', ops') ∧ taken st0 st' (l ++ [op]) ops'.
Proof.
  intros (Hl & Hv & E) Hop. assert (taken st0 st (l ++ [op]) (ops ++ [op])) as Ht.
  { split_and!; [done|apply Forall_app; auto|]. intros cf Hcf. rewrite !apply_ops_app. by rewrite E. }
  unfold pushOp. case_match; [|by eexists _, _].
  destruct (flush_taken _ _ _ _ Ht) as (st' & -> & ?). by exists st', [].
Qed.

Lemma pushOps_taken st0 st l ops l2 :
  taken st0 st l ops → Forall (λ op, cf_valid (op_CF op) = true) l2 →
  ∃ st' ops', pushOps st ops l2 = Ok (st', ops') ∧ taken st0 st' (l ++ l2) ops'.
Proof.
  intros Ht Hl2. revert st l ops Ht. induction Hl2 as [|op l2 Hop _ IH]; intros st l ops Ht; cbn [pushOps].
  - rewrite app_nil_r. by exists st, ops.
  - destruct (pushOp_taken _ _ _ _ op Ht Hop) as (st1 & ops1 & -> & Ht1). cbn [res_bind].
    destruct (IH _ _ _ Ht1) as (st2 & ops2 & -> & Ht2). rewrite <-app_assoc in Ht2. by exists st2, ops2.
Qed.

(** Rows small enough for their 32-bit lengths. *)
Definition row_ok (kv : bytes * bytes) : Prop := lenZ kv.1 < 2 ^ 32 ∧ lenZ kv.2 < 2 ^ 32.
Definition rowOp (kv : bytes * bytes) : StoreOp := putOp CFReplData (p_ ++ kv.1) kv.2.

Lemma recoverLoop_rows rows fuel i st0 st l ops :
  Forall row_ok rows → (length (encRows rows) < fuel)%nat → taken st0 st l ops →
  ∃ st' ops', recoverLoop s fuel (λ _, false) i (encRows rows) st ops = Ok (st', ops') ∧
    taken st0 st' (l ++ (rowOp <$> rows)) ops'.
Proof.
  intros Hr. revert fuel i st l ops. induction Hr as [|[k v] rows [Hk Hv] Hr IH];
    intros fuel i st l ops Hf Ht; (destruct fuel as [|fuel]; [lia|]); cbn [recoverLoop].
  - change (encRows []) with ([] : bytes). unfold readChunk, readFull. simpl. rewrite app_nil_r.
    by exists st, ops.
  - unfold encRows in *. cbn [fmap list_fmap concat] in *. rewrite <-!app_assoc.
    cbn [fst snd] in *. rewrite readChunk_chunk by done. rewrite readChunk_chunk by done. cbn [res_bind].
    destruct (pushOp_taken _ _ _ _ (putOp CFReplData (p_ ++ k) v) Ht eq_refl) as (st1 & ops1 & -> & Ht1).
    cbn [res_bind]. destruct (IH fuel (Datatypes.S i) st1 (l ++ [putOp CFReplData (p_ ++ k) v]) ops1) as (st2 & ops2 & E & Ht2); [|done|].
    { rewrite !length_app in Hf. pose proof (lenZ_chunk k) as Hc. unfold lenZ in Hc. lia. }
    rewrite E. rewrite <-app_assoc in Ht2. by exists st2, ops2.
Qed.

(** ** The data after recovery *)

Lemma apply_dels (keys : list bytes) m k :
  apply_ops CFReplData (delOp CFReplData <$> keys) m !! k =
    if decide (k ∈ keys) then None else m !! k.
Proof.
  revert m. induction keys as [|x keys IH]; intros m; [done|].
  etransitivity; [apply (IH (delete x m))|]. destruct (decide (k ∈ keys)); [rewrite decide_True by (by right); done|].
  destruct (decide (k = x)) as [->|].
  - rewrite decide_True by left. apply lookup_delete_eq.
  - rewrite decide_False by (by rewrite elem_of_cons; intros [|]). by apply lookup_delete_ne.
Qed.

Lemma apply_rows_in rows m suf v :
  NoDup rows.*1 → (suf, v) ∈ rows → apply_ops CFReplData (rowOp <$> rows) m !! (p_ ++ suf) = Some v.
Proof.
  revert m. induction rows as [|[k w] rows IH]; intros m; [by intros _ ?%not_elem_of_nil|].
  cbn [fmap list_fmap fst]. intros [Hk Hn]%NoDup_cons [[= -> ->]|Hin]%elem_of_cons.
  - change (apply_ops CFReplData (rowOp <$> rows) (<[p_ ++ k := w]> m) !! (p_ ++ k) = Some w).
    rewrite apply_ops_lookup_ne; [apply lookup_insert_eq|].
    apply Forall_fmap, Forall_forall. intros [k' v'] Hin E. simpl in E. apply app_inv_head in E as ->.
    apply Hk, list_elem_of_fmap. by exists (k, v').
  - by apply IH.
Qed.

(** The rows a snapshot holds. *)
Definition snapRows (D : gmap bytes bytes) : list (bytes * bytes) :=
  stripped p_ (newSliceIterator D (Some p_) (prefixEnd p_) 0).

Lemma elem_of_snapRows D suf v : (suf, v) ∈ snapRows D ↔ D !! (p_ ++ suf) = Some v.
Proof. apply elem_of_stripped_scan. Qed.

Lemma snapRows_NoDup D : NoDup (snapRows D).*1.
Proof. apply stripped_scan_NoDup. Qed.

(** The stream a prepared snapshot of data [D] is saved to. *)
Definition snapStream (D : gmap bytes bytes) (applied : Z) : bytes :=
  chunk (put_u64 applied) ++ encRows (snapRows D).

Lemma SaveSnapshot_stream st :
  SaveSnapshot s st (λ _, false) = Ok (snapStream (sn_view (st_snap st) CFReplData) (st_applied st)).
Proof.
  unfold SaveSnapshot. rewrite sn_Scan_ok by done. cbn [store_res res_bind]. rewrite saveRows_enc.
  unfold snapStream, writeChunk. by rewrite chunk_eq.
Qed.

Lemma clearPrefix_ok :
  ls_live (sm_store s) →
  ∃ st keys, clearPrefix s = Ok st ∧ (∀ k, k ∈ keys ↔ is_Some (base s !! k) ∧ p_ `prefix_of` k) ∧
    taken (sm_store s) st (delOp CFReplData <$> keys) [].
Proof.
  intros Hl. unfold clearPrefix. rewrite ls_Scan_ok by done. cbn [store_res res_bind].
  rewrite newSliceIterator_keys. set (keys := scan_keys _ _ _).
  assert (taken (sm_store s) (sm_store s) [] []) as Ht0 by (by split_and!).
  destruct (pushOps_taken _ _ _ _ (delOp CFReplData <$> keys) Ht0) as (st1 & ops1 & E & Ht1).
  { apply Forall_fmap, Forall_true. done. }
  rewrite E. cbn [res_bind]. destruct (flush_taken _ _ _ _ Ht1) as (st2 & -> & Ht2).
  exists st2, keys. split_and!; [done| |done]. intros k. unfold keys.
  by rewrite elem_of_scan_keys, prefixEnd_spec.
Qed.

Lemma Recover_ok D applied :
  ls_live (sm_store s) → Forall row_ok (snapRows D) →
  ∃ st keys, RecoverFromSnapshot s (snapStream D applied) (λ _, false) = Ok (with_store s st) ∧
    ls_live st ∧ (∀ k, k ∈ keys ↔ is_Some (base s !! k) ∧ p_ `prefix_of` k) ∧
    ∀ cf, cf_valid cf = true →
      ls_view st cf = apply_ops cf ((delOp CFReplData <$> keys) ++ (rowOp <$> snapRows D) ++
        [putOp CFReplData (appliedKey p_) (put_u64 applied)]) (ls_view (sm_store s) cf).
Proof.
  intros Hl Hr. unfold RecoverFromSnapshot, snapStream.
  rewrite readChunk_chunk by (rewrite lenZ_put_u64; lia). cbn [res_bind].
  destruct (clearPrefix_ok Hl) as (st1 & keys & -> & Hk & Ht1). cbn [res_bind].
  destruct (recoverLoop_rows (snapRows D) (Datatypes.S (length (encRows (snapRows D)))) 0 _ _ _ _ Hr
    ltac:(lia) Ht1) as (st2 & ops2 & -> & Hl2 & Hv2 & E2). cbn [res_bind].
  set (idx := putOp CFReplData (appliedKey p_) (put_u64 applied)).
  assert (taken (sm_store s) st2 (((delOp CFReplData <$> keys) ++ (rowOp <$> snapRows D)) ++ [idx])
    (ops2 ++ [idx])) as Ht2.
  { split_and!; [done|apply Forall_app; auto|]. intros cf Hcf.
    rewrite !(apply_ops_app _ _ [idx]). by rewrite E2. }
  destruct (flush_taken _ _ _ _ Ht2) as (st3 & -> & Hl3 & _ & E3). cbn [res_bind].
  exists st3, keys. split_and!; [done|done|done|]. intros cf Hcf. rewrite app_assoc.
  by rewrite <-E3.
Qed.

End recover.

(** ** Properties *)

(** C22: a snapshot restores the shard: recovering a replica from the stream another
    replica saved makes the replica's shard data equal, key by key, to the source's
    data with the snapshot's applied index; stale keys of the replica are gone, and
    nothing outside the shard's prefix changes. *)
Theorem snapshot_restores {S} `{LocalStoreSpec S} (src dst : baseSM S) (st : snapState) (b : bytes) :
  ls_live (sm_store src) → ls_live (sm_store dst) → sm_prefix dst = sm_prefix src →
  PrepareSnapshot src = Ok st → SaveSnapshot src st (λ _, false) = Ok b →
  map_Forall (λ k v, lenZ k < 2 ^ 32 ∧ lenZ v < 2 ^ 32) (base src) →
  ∃ dst', RecoverFromSnapshot dst b (λ _, false) = Ok dst' ∧ ls_live (sm_store dst') ∧
    (∀ k, sm_prefix src `prefix_of` k →
       base dst' !! k = <[appliedKey (sm_prefix src) := put_u64 (st_applied st)]> (base src) !! k) ∧
    (∀ k, ¬ sm_prefix src `prefix_of` k → base dst' !! k = base dst !! k).
Proof.
  intros Hls Hld Hp HP HS Hsz.
  destruct (ls_Snapshot_ok (sm_store src) Hls) as (sn & Esn & Hsn).
  assert (sn_view (st_snap st) CFReplData = base src) as HD.
  { unfold PrepareSnapshot in HP. rewrite Esn in HP. cbn [store_res res_bind] in HP.
    rewrite sn_Get_ok in HP by done. injection HP as <-. simpl. by rewrite Hsn. }
  rewrite SaveSnapshot_stream, HD in HS. injection HS as <-. unfold snapStream, snapRows in *.
  rewrite <-Hp in *. fold (snapRows dst (base src)) (snapStream dst (base src) (st_applied st)).
  destruct (Recover_ok dst (base src) (st_applied st) Hld) as (st' & keys & E & Hl & Hk & Hv).
  { apply Forall_forall. intros [suf v] Hin%elem_of_snapRows. apply Hsz in Hin as [Hlen ?].
    split; [|done]. rewrite lenZ_app in Hlen. pose proof (lenZ_nonneg (sm_prefix dst)). simpl. lia. }
  exists (with_store dst st'). split_and!; [done|done|..].
  - intros k [suf ->]. unfold base at 1; simpl. rewrite Hv by done. rewrite !apply_ops_app.
    change (<[appliedKey (sm_prefix dst) := put_u64 (st_applied st)]>
      (apply_ops CFReplData (rowOp dst <$> snapRows dst (base src))
        (apply_ops CFReplData (delOp CFReplData <$> keys) (base dst))) !! (sm_prefix dst ++ suf) =
      <[appliedKey (sm_prefix dst) := put_u64 (st_applied st)]> (base src) !! (sm_prefix dst ++ suf)).
    rewrite !lookup_insert. destruct (decide _); [done|].
    destruct (base src !! (sm_prefix dst ++ suf)) as [v|] eqn:Ev.
    + apply apply_rows_in; [apply snapRows_NoDup|by apply elem_of_snapRows].
    + rewrite apply_ops_lookup_ne, apply_dels.
      * case_decide as Hin; [done|]. apply not_elem_of_dom. rewrite elem_of_dom.
        intros Hs. apply Hin, Hk. split; [done|by apply prefix_app_r].
      * apply Forall_fmap, Forall_forall. intros [k' v'] Hin%elem_of_snapRows Ek. simpl in Ek.
        rewrite Ek in Hin. congruence.
  - intros k Hpk. unfold base at 1; simpl. rewrite Hv by done. apply apply_ops_lookup_ne.
    rewrite !Forall_app, !Forall_fmap. split_and!.
    + apply Forall_forall. intros k' [_ Hpre]%Hk E'. apply Hpk. by rewrite <-E'.
    + apply Forall_true. intros [k' v'] <-. apply Hpk. by apply prefix_app_r.
    + apply Forall_singleton. intros <-. apply Hpk. by apply prefix_app_r.
Qed.

Lemma snapshot_restores_witness :
  match PrepareSnapshot Samples.shard1 with
  | Ok st => match SaveSnapshot Samples.shard1 st (λ _, false) with
             | Ok b => ∃ dst', RecoverFromSnapshot Samples.shard0 b (λ _, false) = Ok dst'
             | Err _ => False
             end
  | Err _ => False
  end.
Proof.
  assert (match PrepareSnapshot Samples.shard1 with
          | Ok st => Samples.succeeded (SaveSnapshot Samples.shard1 st (λ _, false)) | Err _ => false end = true)
    as Hok by (vm_compute; reflexivity).
  destruct (PrepareSnapshot Samples.shard1) as [st|] eqn:E1; [|discriminate Hok].
  destruct (SaveSnapshot Samples.shard1 st (λ _, false)) as [b|] eqn:E2; [|discriminate Hok].
  destruct (snapshot_restores Samples.shard1 Samples.shard0 st b) as (dst' & H & _).
  - vm_compute. reflexivity.
  - reflexivity.
  - vm_compute. reflexivity.
  - exact E1.
  - exact E2.
  - apply (bool_decide_eq_true_1 _). vm_compute. reflexivity.
  - exists dst'. exact H.
Defined.

End Snapshot.
