(* ===== verification/Ledger.v ===== *)
(** * The budget ledger: what the leased-budget component promises

    An abstract machine over decoded pools, leases and tombstones. [lmove] lists
    the money movements a budget can make, with unbounded integers and no
    encodings, overlays or command bytes; BudgetRefine shows that the apply
    functions implement it. The invariants are proved here by rule induction. *)

From S2P Require Import Prelude Bytes Command Budget.
From stdpp Require Import relations.

Local Open Scope Z_scope.

Module Ledger.
Import Budget.

Record ledger := mkLedger {
  lg_pool : option poolRec;
  lg_leases : gmap bytes leaseRec;
  lg_tombs : gmap bytes tombRec;
}.

Definition empty_ledger : ledger := mkLedger None ∅ ∅.

(** The unspent money held by outstanding leases. *)
Definition held (m : gmap bytes leaseRec) : Z :=
  map_fold (λ _ l acc, (l_Amount l - l_Spent l) + acc) 0 m.

(** A pool as initialisation may create it. *)
Definition fresh_pool (p : poolRec) : Prop :=
  p_Available p = p_Cap p ∧ p_LeasedOut p = 0 ∧ p_Spent p = 0 ∧ p_SpentReported p = 0 ∧
  0 ≤ p_Cap p ∧ 0 ≤ p_Rate p ∧ 0 ≤ p_Burst p ≤ pacingBurstCeil ∧
  p_Mode p = modeStrict ∧ p_Tokens p = (if 0 <? p_Rate p then p_Burst p else 0).

(** The token bucket after a grant of [g] at some time: the refill never exceeds
    the burst, and the grant is paid from it. *)
Definition paced (p : poolRec) (g last tokens : Z) : Prop :=
  if 0 <? p_Rate p then 0 ≤ tokens ∧ tokens + g ≤ p_Burst p
  else last = p_LastRefillMs p ∧ tokens = p_Tokens p.

(** [move_report r l p]: [r] more units of the lease are attested as spent. *)
Definition reported (p : poolRec) (d : Z) : poolRec :=
  set_buckets p (p_Available p) (p_LeasedOut p - d) (p_Spent p + d) (p_SpentReported p + d).

(** What a movement does, for whom. *)
Inductive move :=
  | MInit
  | MGrant (id : bytes)
  | MReport (id : bytes)
  | MReturn (id : bytes) (total : Z)
  | MExpire (id : bytes)
  | MTomb (id : bytes)
  | MReconcile.

(** [lmove rec m]: one movement; external reconciles are among them when [rec]. *)
Inductive lmove (rec : bool) : move → ledger → ledger → Prop :=
  | step_init ls ts p :
      fresh_pool p → lmove rec MInit (mkLedger None ls ts) (mkLedger (Some p) ls ts)
  | step_grant p ls ts id l last tokens :
      ls !! id = None → ts !! id = None →
      0 < l_Amount l ≤ p_Available p → l_Spent l = 0 → paced p (l_Amount l) last tokens →
      lmove rec (MGrant id) (mkLedger (Some p) ls ts)
        (mkLedger (Some (set_pacing (set_buckets p (p_Available p - l_Amount l)
                                      (p_LeasedOut p + l_Amount l) (p_Spent p) (p_SpentReported p))
                           last tokens))
           (<[id := l]> ls) ts)
  | step_report p ls ts id l total :
      ls !! id = Some l → l_Spent l < total ≤ l_Amount l →
      lmove rec (MReport id) (mkLedger (Some p) ls ts)
        (mkLedger (Some (reported p (total - l_Spent l))) (<[id := set_spent l total]> ls) ts)
  | step_return p ls ts id l total ts' :
      ls !! id = Some l → ts !! id = None → l_Spent l ≤ total ≤ l_Amount l →
      ts' = (if 0 <? l_ReclaimNotBeforeMs l then <[id := mkTomb total reasonReturn]> ts else ts) →
      lmove rec (MReturn id total) (mkLedger (Some p) ls ts)
        (mkLedger
           (Some (let p := reported p (total - l_Spent l) in
                  set_buckets p (p_Available p + (l_Amount l - total))
                    (p_LeasedOut p - (l_Amount l - total)) (p_Spent p) (p_SpentReported p)))
           (delete id ls) ts')
  | step_expire p ls ts id l :
      ls !! id = Some l → ts !! id = None →
      lmove rec (MExpire id) (mkLedger (Some p) ls ts)
        (mkLedger
           (Some (set_buckets p (p_Available p) (p_LeasedOut p - (l_Amount l - l_Spent l))
                    (p_Spent p + (l_Amount l - l_Spent l)) (p_SpentReported p)))
           (delete id ls) (<[id := mkTomb (l_Spent l) reasonExpire]> ts))
  | step_bury p ls ts id :
      ls !! id = None → ts !! id = None →
      lmove rec (MTomb id) (mkLedger p ls ts) (mkLedger p ls (<[id := mkTomb 0 reasonExpire]> ts))
  | step_gc p ls ts id :
      lmove rec (MTomb id) (mkLedger p ls ts) (mkLedger p ls (delete id ts))
  | step_reconcile p ls ts target :
      rec = true → p_SpentReported p ≤ target ≤ p_Cap p →
      lmove rec MReconcile (mkLedger (Some p) ls ts)
        (mkLedger (Some (set_buckets p (Z.max 0 (p_Cap p - target - p_LeasedOut p)) (p_LeasedOut p)
                           target (p_SpentReported p))) ls ts).

Definition lstep (rec : bool) (L L' : ledger) : Prop := ∃ m, lmove rec m L L'.

(** ** The invariant *)

Definition lease_ok (l : leaseRec) : Prop := 0 ≤ l_Spent l ≤ l_Amount l.

Record pool_ok (p : poolRec) (ls : gmap bytes leaseRec) : Prop := {
  pk_avail : 0 ≤ p_Available p;
  pk_leased : p_LeasedOut p = held ls;
  pk_reported : 0 ≤ p_SpentReported p ≤ p_Spent p;
  pk_safe : p_Available p + p_LeasedOut p + p_SpentReported p ≤ p_Cap p;
  pk_total : p_Available p + p_LeasedOut p + p_Spent p ≤ 2 * p_Cap p;
  pk_pacing : 0 ≤ p_Rate p ∧ 0 ≤ p_Tokens p ≤ p_Burst p ∧ p_Burst p ≤ pacingBurstCeil;
}.

Definition linv (L : ledger) : Prop :=
  map_Forall (λ _ l, lease_ok l) (lg_leases L) ∧
  match lg_pool L with
  | None => lg_leases L = ∅
  | Some p => pool_ok p (lg_leases L)
  end.

(** INV-LOCAL of the design: cap == available + leasedOut + spent. *)
Definition conserved (L : ledger) : Prop :=
  match lg_pool L with
  | None => True
  | Some p => p_Available p + p_LeasedOut p + p_Spent p = p_Cap p
  end.

(** ** Sums over leases *)

Lemma held_insert_new ls id l :
  ls !! id = None → held (<[id := l]> ls) = (l_Amount l - l_Spent l) + held ls.
Proof. intros. unfold held. rewrite map_fold_insert_L; [done| |done]. intros. lia. Qed.

Lemma held_delete ls id l :
  ls !! id = Some l → held ls = (l_Amount l - l_Spent l) + held (delete id ls).
Proof. intros. unfold held. rewrite (map_fold_delete_L _ _ id l ls); [done| |done]. intros. lia. Qed.

Lemma held_update ls id l l' :
  ls !! id = Some l →
  held (<[id := l']> ls) = held ls - (l_Amount l - l_Spent l) + (l_Amount l' - l_Spent l').
Proof.
  intros Hl. rewrite (held_delete ls id l) by done.
  rewrite <-insert_delete_eq. rewrite held_insert_new by apply lookup_delete_eq. lia.
Qed.

Lemma held_nonneg ls : map_Forall (λ _ l, lease_ok l) ls → 0 ≤ held ls.
Proof.
  induction ls as [|id l ls Hid IH] using map_ind; [done|].
  intros [Hl Hls]%map_Forall_insert; [|done]. rewrite held_insert_new by done.
  unfold lease_ok in Hl. specialize (IH Hls). lia.
Qed.

Lemma held_bound ls id l :
  map_Forall (λ _ l, lease_ok l) ls → ls !! id = Some l →
  0 ≤ l_Amount l - l_Spent l ≤ held ls.
Proof.
  intros Hls Hid. rewrite (held_delete ls id l) by done.
  pose proof (held_nonneg (delete id ls) (map_Forall_delete _ _ _ Hls)).
  pose proof (Hls _ _ Hid) as []. lia.
Qed.

(** ** Preservation *)

Lemma linv_empty : linv empty_ledger.
Proof. split; [apply map_Forall_empty|done]. Qed.

Lemma pool_ok_report p ls id l total :
  pool_ok p ls → ls !! id = Some l → lease_ok l → l_Spent l ≤ total ≤ l_Amount l →
  pool_ok (reported p (total - l_Spent l)) (<[id := set_spent l total]> ls).
Proof.
  intros [] Hid [] Ht. unfold reported. split; simpl; try lia.
  rewrite (held_update ls id l) by done. simpl. lia.
Qed.

Lemma lstep_linv rec L L' : lstep rec L L' → linv L → linv L'.
Proof.
  intros [m Hst] [Hls Hp]. destruct Hst as
    [ls ts p Hf|p ls ts id l last tokens Hl Ht Ha Hs Hpc|p ls ts id l total Hl Ht
    |p ls ts id l total ts' Hl Htn Ht ->|p ls ts id l Hl Htn|p ls ts id Hl Htn|p ls ts id
    |p ls ts target Hrec Ht]; simpl in *; split; simpl; auto.
  - destruct Hf as (? & ? & ? & ? & ? & ? & [] & ? & Htok). subst ls. unfold pacingBurstCeil in *.
    split; unfold pacingBurstCeil; rewrite ?Htok; try lia; [done|]. case_match; lia.
  - apply map_Forall_insert; [done|]. split; [|done]. split; lia.
  - destruct Hp as [? ? [] ? ? (? & [] & ?)]. split; simpl; try lia.
    + rewrite held_insert_new by done. lia.
    + unfold paced in Hpc. case_match; lia.
  - apply map_Forall_insert_2; [|done]. destruct (Hls _ _ Hl). split; simpl; lia.
  - pose proof (Hls _ _ Hl). apply pool_ok_report; [done..|lia].
  - by apply map_Forall_delete.
  - pose proof (Hls _ _ Hl) as []. destruct Hp. split; simpl; try lia.
    rewrite (held_delete ls id l) in * by done. lia.
  - by apply map_Forall_delete.
  - pose proof (Hls _ _ Hl) as []. destruct Hp. split; simpl; try lia.
    rewrite (held_delete ls id l) in * by done. lia.
  - destruct Hp as [? Hh [] ? ? ?]. pose proof (held_nonneg ls Hls). split; simpl; lia || done.
Qed.

(** Every movement other than a reconcile conserves the cap. *)
Lemma lstep_conserved L L' : lstep false L L' → conserved L → conserved L'.
Proof.
  intros [m Hst] Hc. destruct Hst as
    [ls ts p (? & ? & ? & ? & ?)|p ls ts id l last tokens Hl Ht Ha Hs Hpc|p ls ts id l total Hl Ht
    |p ls ts id l total ts' Hl Htn Ht ->|p ls ts id l Hl Htn|p ls ts id Hl Htn|p ls ts id
    |p ls ts target Hrec Ht]; unfold conserved in *; simpl in *; done || lia.
Qed.

(** ** Properties *)

(** Money safety of the abstract ledger: in every state reachable from the
    empty ledger by any sequence of movements (grants, reports, returns, forced
    expiries, tombstone collection and external reconciles), nothing is negative,
    leasedOut is exactly the unspent money of the outstanding leases, no lease
    spends beyond its amount, and available + leasedOut + attested spend never
    exceeds the cap, so what may still be handed out never exceeds the cap minus
    what holders attested. *)
Lemma ledger_money_safe (rec : bool) (L : ledger) (p : poolRec) :
  rtc (lstep rec) empty_ledger L → lg_pool L = Some p →
  0 ≤ p_Available p ∧ 0 ≤ p_LeasedOut p ∧ 0 ≤ p_SpentReported p ≤ p_Spent p ∧
  p_LeasedOut p = held (lg_leases L) ∧
  (∀ id l, lg_leases L !! id = Some l → 0 ≤ l_Spent l ≤ l_Amount l) ∧
  p_Available p + p_LeasedOut p + p_SpentReported p ≤ p_Cap p.
Proof.
  intros Hr Hp. assert (linv L) as [Hls Hk].
  { pose proof linv_empty as Hi. induction Hr; eauto using lstep_linv. }
  rewrite Hp in Hk. destruct Hk. pose proof (held_nonneg _ Hls). split_and!; try lia.
  intros id l Hl. exact (Hls id l Hl).
Qed.

(** Conservation: without external reconciles, available + leasedOut + spent
    equals the cap exactly, so the spend booked never exceeds the cap. *)
Lemma ledger_conservation (L : ledger) (p : poolRec) :
  rtc (lstep false) empty_ledger L → lg_pool L = Some p →
  p_Available p + p_LeasedOut p + p_Spent p = p_Cap p ∧ p_Spent p ≤ p_Cap p.
Proof.
  intros Hr Hp. assert (linv L ∧ conserved L) as [[Hls Hk] Hc].
  { assert (linv empty_ledger ∧ conserved empty_ledger) as Hi by (split; [apply linv_empty|done]).
    induction Hr; [done|]. destruct Hi. eauto using lstep_linv, lstep_conserved. }
  unfold conserved in Hc. rewrite Hp in Hk, Hc. destruct Hk. pose proof (held_nonneg _ Hls). lia.
Qed.

End Ledger.
