(* ===== verification/BudgetRefine.v ===== *)
(** * The budget apply functions implement the ledger (budget.go against Ledger)

    [ledger_at] relates the shard's data to a ledger through the key layout and
    the record encodings. Each apply function, run on a healthy store in a context
    whose overlay is coherent, either leaves the ledger unchanged or makes one
    [lstep]. *)

From S2P Require Import Prelude Bytes Storage Command Keys Ctx CtxLogic Budget ShardSM Samples Ledger.

Local Open Scope Z_scope.
#[local] Set Default Proof Using "Type*".

Module BudgetRefine.
Import Storage Command Keys Ctx CtxLogic Budget Ledger.

(** ** The abstraction relation *)

Definition rec_at {A} (dec : bytes → gres A) (ob : option bytes) (oa : option A) : Prop :=
  match ob, oa with
  | None, None => True
  | Some b, Some a => dec b = Ok a
  | _, _ => False
  end.

Record ledger_at (p : bytes) (m : gmap bytes bytes) (ns coll : bytes) (L : ledger) : Prop := {
  la_pool : rec_at decodePool (m !! budPoolKey p ns coll) (lg_pool L);
  la_lease : ∀ id, rec_at decodeLease (m !! budLeaseKey p ns coll id) (lg_leases L !! id);
  la_tomb : ∀ id, rec_at decodeTomb (m !! budTombKey p ns coll id) (lg_tombs L !! id);
}.

(** The records fit their encodings, and sums of two caps fit an int64. *)
Definition cap_limit : Z := 2 ^ 62.

Record sane (L : ledger) : Prop := {
  sn_inv : linv L;
  sn_pool : ∀ p, lg_pool L = Some p → pool_wf p ∧ p_Cap p < cap_limit;
  sn_leases : map_Forall (λ _ l, lease_wf l) (lg_leases L);
}.

Lemma sane_empty : sane empty_ledger.
Proof. split; [apply linv_empty|done|apply map_Forall_empty]. Qed.

(** The keys of budget records. *)
Definition budScope (sc : byte) : Prop := sc = scopeBudPool ∨ sc = scopeBudLease ∨ sc = scopeBudTomb.
Definition budKey (p k : bytes) : Prop :=
  ∃ sc ns coll r, budScope sc ∧ nc_ok ns coll ∧ k = dkey p sc ns coll r.

(** The keys a budget command on one collection may touch. *)
Definition budCmdKey (p ns coll k : bytes) : Prop :=
  (∃ sc r, (budScope sc ∨ sc = scopeType) ∧ k = dkey p sc ns coll r) ∨
  (∃ sub t r, (sub = subBudExp ∨ sub = subBudTombGC) ∧ k = ikey p sub t ns coll r).

Lemma budCmdKey_other p ns coll ns' coll' k :
  nc_ok ns coll → nc_ok ns' coll' → (ns, coll) ≠ (ns', coll') →
  budCmdKey p ns coll k → ∀ sc r, k ≠ dkey p sc ns' coll' r.
Proof.
  intros Hn Hn' Hne [(sc & r & _ & ->)|(sub & t & r & Hsub & ->)] sc' r' E.
  - apply dkey_inj in E as (_ & ? & ? & _); [naive_solver|done|done].
  - symmetry in E. apply dkey_ikey_ne in E; [done|]. by destruct Hsub as [->| ->].
Qed.

Lemma ledger_at_agree p m m' ns coll L :
  (∀ sc r, budScope sc → m' !! dkey p sc ns coll r = m !! dkey p sc ns coll r) →
  ledger_at p m ns coll L → ledger_at p m' ns coll L.
Proof.
  intros E [H1 H2 H3]. split; intros; autorewrite with keys in *;
    rewrite E by (unfold budScope; auto).
  - done.
  - specialize (H2 id). by autorewrite with keys in H2.
  - specialize (H3 id). by autorewrite with keys in H3.
Qed.

Section refine.
Context {S : Type} `{LocalStoreSpec S} (s : baseSM S) (Hlive : ls_live (sm_store s)).
Local Abbreviation p_ := (sm_prefix s).

Definition bcoh (u : updateCtx) : Prop := ∀ k, budKey p_ k → tracked s u k.

Section coll.
Context (ns coll : bytes) (Hnc : nc_ok ns coll).

(** The context at a ledger of one collection. *)
Definition at_ledger (u : updateCtx) (L : ledger) : Prop :=
  bcoh u ∧ ledger_at p_ (eff s u) ns coll L.

Lemma dkey_budKey sc r : budScope sc → budKey p_ (dkey p_ sc ns coll r).
Proof. intros. by exists sc, ns, coll, r. Qed.

Local Ltac budkey := autorewrite with keys; apply dkey_budKey; unfold budScope; auto.
Local Ltac keys_ne := autorewrite with keys; intros E; apply dkey_inj in E as (? & ? & ? & ?); done || congruence.

(** ** Reading records *)

Lemma wp_getPool u L (Q : gres (option poolRec) → updateCtx → Prop) :
  at_ledger u L → Q (Ok (lg_pool L)) u → wp (getPool s ns coll) u Q.
Proof.
  intros [Hc [Hp _ _]] HQ. unfold getPool. apply wp_bind, wp_fieldVal; [done|apply Hc; budkey|].
  destruct (eff s u !! _), (lg_pool L); simpl in Hp; try done.
  apply wp_bind, wp_lift. rewrite Hp. by apply wp_ret.
Qed.

Lemma wp_getLease u L id (Q : gres (option leaseRec) → updateCtx → Prop) :
  at_ledger u L → Q (Ok (lg_leases L !! id)) u → wp (getLease s ns coll id) u Q.
Proof.
  intros [Hc [_ Hl _]] HQ. specialize (Hl id). unfold getLease.
  apply wp_bind, wp_fieldVal; [done|apply Hc; budkey|].
  destruct (eff s u !! _), (lg_leases L !! id); simpl in Hl; try done.
  apply wp_bind, wp_lift. rewrite Hl. by apply wp_ret.
Qed.

Lemma wp_getTomb u L id (Q : gres (option tombRec) → updateCtx → Prop) :
  at_ledger u L → Q (Ok (lg_tombs L !! id)) u → wp (getTomb s ns coll id) u Q.
Proof.
  intros [Hc [_ _ Ht]] HQ. specialize (Ht id). unfold getTomb.
  apply wp_bind, wp_fieldVal; [done|apply Hc; budkey|].
  destruct (eff s u !! _), (lg_tombs L !! id); simpl in Ht; try done.
  apply wp_bind, wp_lift. rewrite Ht. by apply wp_ret.
Qed.

(** ** Writing records *)

Lemma wp_setPool u p ls ts q (Q : gres () → updateCtx → Prop) :
  at_ledger u (mkLedger p ls ts) → pool_wf q →
  (∀ u', at_ledger u' (mkLedger (Some q) ls ts) → Q (Ok ()) u') → wp (setPool s ns coll q) u Q.
Proof.
  intros [Hc [Hp Hl Ht]] Hq HQ. apply HQ. split.
  - intros k Hk. by apply setFieldVal_tracked, Hc.
  - split; unfold setPool; cbn [lg_pool lg_leases lg_tombs]; intros; rewrite setFieldVal_eff.
    + rewrite lookup_insert_eq. simpl. by apply decodePool_encode.
    + rewrite lookup_insert_ne by keys_ne. apply Hl.
    + rewrite lookup_insert_ne by keys_ne. apply Ht.
Qed.

Lemma wp_setLease u p ls ts id l (Q : gres () → updateCtx → Prop) :
  at_ledger u (mkLedger p ls ts) → lease_wf l →
  (∀ u', at_ledger u' (mkLedger p (<[id := l]> ls) ts) → Q (Ok ()) u') →
  wp (setLease s ns coll id l) u Q.
Proof.
  intros [Hc [Hp Hl Ht]] Hw HQ. apply HQ. split.
  - intros k Hk. by apply setFieldVal_tracked, Hc.
  - split; unfold setLease; cbn [lg_pool lg_leases lg_tombs]; intros; rewrite setFieldVal_eff.
    + rewrite lookup_insert_ne by keys_ne. apply Hp.
    + destruct (decide (id0 = id)) as [->|].
      * rewrite !lookup_insert_eq. simpl. by apply decodeLease_encode.
      * rewrite (lookup_insert_ne (M := gmap bytes)) by keys_ne. rewrite lookup_insert_ne by done. apply Hl.
    + rewrite lookup_insert_ne by keys_ne. apply Ht.
Qed.

Lemma wp_delLease u p ls ts id (Q : gres () → updateCtx → Prop) :
  at_ledger u (mkLedger p ls ts) →
  (∀ u', at_ledger u' (mkLedger p (delete id ls) ts) → Q (Ok ()) u') →
  wp (delLease s ns coll id) u Q.
Proof.
  intros [Hc [Hp Hl Ht]] HQ. apply HQ. split.
  - intros k Hk. by apply delFieldVal_tracked, Hc.
  - split; unfold delLease; cbn [lg_pool lg_leases lg_tombs]; intros; rewrite delFieldVal_eff.
    + rewrite lookup_delete_ne by keys_ne. apply Hp.
    + destruct (decide (id0 = id)) as [->|].
      * by rewrite !lookup_delete_eq.
      * rewrite (lookup_delete_ne (M := gmap bytes)) by keys_ne. rewrite lookup_delete_ne by done. apply Hl.
    + rewrite lookup_delete_ne by keys_ne. apply Ht.
Qed.

Lemma wp_setTomb u p ls ts id t (Q : gres () → updateCtx → Prop) :
  at_ledger u (mkLedger p ls ts) → in_i64 (t_FinalSpent t) →
  (∀ u', at_ledger u' (mkLedger p ls (<[id := t]> ts)) → Q (Ok ()) u') →
  wp (setTomb s ns coll id t) u Q.
Proof.
  intros [Hc [Hp Hl Ht]] Hw HQ. apply HQ. split.
  - intros k Hk. by apply setFieldVal_tracked, Hc.
  - split; unfold setTomb; cbn [lg_pool lg_leases lg_tombs]; intros; rewrite setFieldVal_eff.
    + rewrite lookup_insert_ne by keys_ne. apply Hp.
    + rewrite lookup_insert_ne by keys_ne. apply Hl.
    + destruct (decide (id0 = id)) as [->|].
      * rewrite !lookup_insert_eq. simpl. by apply decodeTomb_encode.
      * rewrite (lookup_insert_ne (M := gmap bytes)) by keys_ne. rewrite lookup_insert_ne by done. apply Ht.
Qed.

Lemma wp_delTomb u p ls ts id (Q : gres () → updateCtx → Prop) :
  at_ledger u (mkLedger p ls ts) →
  (∀ u', at_ledger u' (mkLedger p ls (delete id ts)) → Q (Ok ()) u') →
  wp (delTomb s ns coll id) u Q.
Proof.
  intros [Hc [Hp Hl Ht]] HQ. apply HQ. split.
  - intros k Hk. by apply delFieldVal_tracked, Hc.
  - split; unfold delTomb; cbn [lg_pool lg_leases lg_tombs]; intros; rewrite delFieldVal_eff.
    + rewrite lookup_delete_ne by keys_ne. apply Hp.
    + rewrite lookup_delete_ne by keys_ne. apply Hl.
    + destruct (decide (id0 = id)) as [->|].
      * by rewrite !lookup_delete_eq.
      * rewrite (lookup_delete_ne (M := gmap bytes)) by keys_ne. rewrite lookup_delete_ne by done. apply Ht.
Qed.

(** Operations off the budget records keep the ledger. *)
Lemma wp_off {A} K (m : M A) u L (Q : gres A → updateCtx → Prop) :
  msafe p_ K m → (∀ k, K k → ¬ budKey p_ k) → at_ledger u L →
  (∀ r u', at_ledger u' L → Q r u') → wp m u Q.
Proof.
  intros Hm HK [Hc Hl] HQ. destruct (Hm u) as [F _]. apply HQ. split.
  - intros k Hk. eapply frame_tracked; [done| |by apply Hc]. intros Hk'. by eapply HK.
  - eapply ledger_at_agree; [|done]. intros sc r Hsc.
    eapply frame_eff; [done|]. intros Hk'. eapply HK; [done|]. by apply dkey_budKey.
Qed.

Lemma ikey_not_budKey sub t r ns' coll' : sub ≠ subData → ¬ budKey p_ (ikey p_ sub t ns' coll' r).
Proof. intros Hs (sc & n & c & r' & _ & _ & E). symmetry in E. by eapply dkey_ikey_ne in E. Qed.

Lemma typeKey_not_budKey : ¬ budKey p_ (typeKey p_ ns coll).
Proof.
  intros (sc & n & c & r' & Hsc & Hn & E). rewrite typeKey_dkey in E.
  apply dkey_inj in E as (<- & _); [|done..]. destruct Hsc as [E|[E|E]]; discriminate E.
Qed.

Definition indexKey (k : bytes) : Prop :=
  ∃ sub t r, (sub = subBudExp ∨ sub = subBudTombGC) ∧ k = ikey p_ sub t ns coll r.

Lemma wp_index (m : M ()) u L (Q : gres () → updateCtx → Prop) :
  msafe p_ indexKey m → at_ledger u L → (∀ r u', at_ledger u' L → Q r u') → wp m u Q.
Proof.
  intros Hm. apply (wp_off indexKey); [done|]. intros k (sub & t & r & Hs & ->).
  apply ikey_not_budKey. by destruct Hs as [->| ->].
Qed.

Lemma wp_if_index (b : bool) (m : M ()) u L (Q : gres () → updateCtx → Prop) :
  msafe p_ indexKey m → at_ledger u L → (∀ r u', at_ledger u' L → Q r u') →
  wp (if b then m else mret ()) u Q.
Proof. intros. destruct b; [by eapply wp_index|]. by apply wp_ret; auto. Qed.

Lemma msafe_setBudExp id t : msafe p_ indexKey (setBudExp s ns coll id t).
Proof. apply msafe_put. rewrite budExpKey_ikey. eexists _, _, _. split; cycle 1; [reflexivity|auto]. Qed.
Lemma msafe_delBudExp id t : msafe p_ indexKey (delBudExp s ns coll id t).
Proof. apply msafe_del. rewrite budExpKey_ikey. eexists _, _, _. split; cycle 1; [reflexivity|auto]. Qed.
Lemma msafe_setBudTombGC id t : msafe p_ indexKey (setBudTombGC s ns coll id t).
Proof. apply msafe_put. rewrite budTombGCKey_ikey. eexists _, _, _. split; cycle 1; [reflexivity|auto]. Qed.
Lemma msafe_delBudTombGC id t : msafe p_ indexKey (delBudTombGC s ns coll id t).
Proof. apply msafe_del. rewrite budTombGCKey_ikey. eexists _, _, _. split; cycle 1; [reflexivity|auto]. Qed.

Lemma wp_ensureType t u L (Q : gres bool → updateCtx → Prop) :
  at_ledger u L → (∀ r u', at_ledger u' L → Q r u') → wp (ensureType s ns coll t) u Q.
Proof.
  apply (wp_off (λ k, k = typeKey p_ ns coll)).
  - by apply msafe_ensureType.
  - intros k ->. apply typeKey_not_budKey.
Qed.

(** ** Arithmetic that does not overflow *)

Lemma sane_pool p ls ts :
  sane (mkLedger (Some p) ls ts) →
  pool_wf p ∧ p_Cap p < cap_limit ∧ pool_ok p ls ∧ 0 ≤ held ls ∧
  map_Forall (λ _ l, lease_ok l) ls ∧ map_Forall (λ _ l, lease_wf l) ls.
Proof.
  intros [[Hls Hk] Hp Hlw]. simpl in *. destruct (Hp p eq_refl). split_and!; try done.
  by apply held_nonneg.
Qed.

Lemma pool_wf_buckets p a l sp r :
  pool_wf p → in_i64 a → in_i64 l → in_i64 sp → in_i64 r → pool_wf (set_buckets p a l sp r).
Proof. unfold pool_wf. simpl. tauto. Qed.
Lemma pool_wf_pacing p a t : pool_wf p → in_i64 a → in_i64 t → pool_wf (set_pacing p a t).
Proof. unfold pool_wf. simpl. tauto. Qed.

Lemma refill_spec p now :
  0 ≤ p_Burst p → pool_wf p → in_i64 now →
  ∃ last tokens, refill p now = set_pacing p last tokens ∧ in_i64 last ∧ in_i64 tokens ∧
    if 0 <? p_Rate p then 0 ≤ tokens ≤ p_Burst p
    else last = p_LastRefillMs p ∧ tokens = p_Tokens p.
Proof.
  intros Hb ((?&?&?&?)&?&?&?&?&?&?) Hn. unfold refill. destruct (Z.ltb_spec 0 (p_Rate p)).
  - eexists _, _. split; [done|]. unfold min64.
    set (acc := int64 (p_Tokens p + _)). set (cs := int64 (p_Cap p - _)).
    assert (in_i64 acc) by apply int64_range. assert (in_i64 cs) by apply int64_range.
    split_and!; repeat case_match; try done; zlia.
  - exists (p_LastRefillMs p), (p_Tokens p). by destruct p.
Qed.

Lemma foldReport_spec p ls ts id l r :
  sane (mkLedger (Some p) ls ts) → ls !! id = Some l → l_Spent l < r →
  ∃ total, l_Spent l ≤ total ≤ l_Amount l ∧ (l_Spent l < l_Amount l → l_Spent l < total) ∧
    total = Z.min r (l_Amount l) ∧
    foldReport r l p = (set_spent l total, reported p (total - l_Spent l)).
Proof.
  intros Hs Hl Hr. apply sane_pool in Hs as (Hw & Hc & [] & Hh & Hls & Hlw).
  destruct (Hls _ _ Hl) as [Hs1 Hs2]. pose proof (held_bound _ _ _ Hls Hl).
  unfold cap_limit in Hc.
  exists (Z.min r (l_Amount l)). split_and!; [lia..|].
  unfold foldReport, reported. replace (if l_Amount l <? r then l_Amount l else r) with (Z.min r (l_Amount l)).
  2: { destruct (Z.ltb_spec (l_Amount l) r); lia. }
  rewrite (int64_id (_ - l_Spent l)) by zlia. by rewrite !int64_id by zlia.
Qed.

End coll.
(** ** Simulation *)

Definition cmd_ok (c : command) : Prop :=
  nc_ok (NS c) (Coll c) ∧ Forall (λ it, lenZ (Key it) < 2 ^ 32 ∧ lenZ (Val it) < 2 ^ 32) (Items c).

(** An initialisation stays below the cap limit. *)
Definition cap_ok (c : command) : Prop :=
  Op c = opBudInit → ∀ it, head (Items c) = Some it → p_Cap (initPool (Key it)) < cap_limit.

(** The sentinels of a refused command. *)
Definition refusals : list bytes :=
  [budNoCapacity; budNoBudget; budBadParam; budSettled; wrongType; frozenMark; []].

(** A command settles a lease against its unspent remainder only as a return of that
    lease, and not below the final total it carries. *)
Definition caused (c : command) (L : ledger) (m : move) : Prop :=
  match m with
  | MReturn id total =>
      Op c = opBudReturn ∧ ∃ it l, head (Items c) = Some it ∧ Key it = id ∧ lg_leases L !! id = Some l ∧
        (8 ≤ lenZ (Val it) → Z.min (getI64 (Val it)) (l_Amount l) ≤ total)
  | _ => True
  end.

Definition moved (rec : bool) (c : command) (L L' : ledger) : Prop :=
  L' = L ∨ ∃ m, lmove rec m L L' ∧ caused c L m.

(** The reply to a grant: a refusal, or the amount of the lease that is now there. *)
Definition answered (c : command) (res : ProposeResult) (L' : ledger) : Prop :=
  Op c = opBudGrant → Data res ∈ refusals ∨
  ∃ it l, head (Items c) = Some it ∧ lg_leases L' !! Key it = Some l ∧
    g_Granted (decodeGrantResult (Data res)) = l_Amount l.

(** The outcome of a handler started at [L]; [rec] tells whether reconciles count. *)
Definition sim (rec : bool) (c : command) (L : ledger) (r : gres ProposeResult) (u' : updateCtx) : Prop :=
  ∀ res, r = Ok res →
    ∃ L', at_ledger (NS c) (Coll c) u' L' ∧ sane L' ∧ moved rec c L L'.

Lemma sim_stay rec c L r u' : at_ledger (NS c) (Coll c) u' L → sane L → sim rec c L r u'.
Proof. intros ?? res _. exists L. split_and!; [done..|by left]. Qed.
Lemma sim_err rec c L e u' : sim rec c L (Err e) u'.
Proof. by intros ? [=]. Qed.
Lemma sim_step rec c L L' r u' :
  at_ledger (NS c) (Coll c) u' L' → sane L' → moved rec c L L' → sim rec c L r u'.
Proof. intros ??? res _. exists L'. auto. Qed.
Lemma moved_by rec c L m L' : lmove rec m L L' → caused c L m → moved rec c L L'.
Proof. intros. right. eauto. Qed.

(** A step between sane ledgers, the new records fitting their encodings. *)
Lemma sane_step rec m L p ls ts :
  sane L → lmove rec m L (mkLedger (Some p) ls ts) → pool_wf p → p_Cap p < cap_limit →
  map_Forall (λ _ l, lease_wf l) ls → sane (mkLedger (Some p) ls ts).
Proof.
  intros [Hi _ _] Hst Hw Hc Hl. split; simpl; [by eapply lstep_linv; [eexists|]|by intros ? [= <-]|done].
Qed.

Local Hint Resolve sim_stay sim_err : core.

(** Branches that throw or leave the ledger alone. *)
Local Ltac idle := first [ by apply wp_throw, sim_err | apply wp_ret; by apply sim_stay ].
Local Ltac nc := first [ done | match goal with H : cmd_ok _ |- _ => exact (proj1 H) end ].

Lemma initPool_wf k : pool_wf (initPool k).
Proof. unfold pool_wf. simpl. split_and!; try case_match; auto with width; zlia. Qed.

Lemma sim_init rec c u L :
  cmd_ok c → cap_ok c → Op c = opBudInit → sane L → at_ledger (NS c) (Coll c) u L →
  wp (applyBudInit s c) u (sim rec c L).
Proof.
  intros Hc Hcap Hop Hs Hu. specialize (Hcap Hop). unfold applyBudInit.
  destruct (Items c) as [|it its]; [idle|]. specialize (Hcap it eq_refl). cbv zeta.
  destruct (lenZ (Key it) <? 25); [idle|].
  set (p := initPool (Key it)) in *.
  destruct (bool_decide_reflect (p_Mode p = modeStrict)); cbn [negb orb]; [|idle].
  destruct (Z.ltb_spec (p_Cap p) 0); cbn [orb]; [idle|].
  destruct ((p_Rate p <? 0) || _ || _ || _ || _) eqn:Hb; [idle|].
  rewrite !orb_false_iff, !Z.ltb_ge in Hb. destruct Hb as ((((?&?)&?)&_)&_).
  apply wp_bind. eapply wp_getPool; [nc|done|].
  destruct L as [[q|] ls ts]; cbn [lg_pool]; [idle|].
  apply wp_bind. eapply wp_ensureType; [nc|done|]. intros [ok|err] u1 Hu1; [|auto].
  destruct ok; cbn [negb]; [|idle].
  apply wp_bind. eapply wp_setPool; [nc|done|apply initPool_wf|]. intros u2 Hu2.
  assert (lmove rec MInit (mkLedger None ls ts) (mkLedger (Some p) ls ts)) as Hst.
  { constructor. unfold fresh_pool. split_and!; done || lia. }
  apply wp_ret. eapply sim_step; [done| |by eapply moved_by].
  eapply sane_step; [done|done|apply initPool_wf|done|by destruct Hs].
Qed.

Lemma sim_report rec c u L :
  cmd_ok c → sane L → at_ledger (NS c) (Coll c) u L → wp (applyBudReport s c) u (sim rec c L).
Proof.
  intros Hc Hs Hu. unfold applyBudReport. destruct (Items c) as [|it its]; [idle|].
  destruct (_ || _); [idle|]. cbv zeta.
  apply wp_bind. eapply wp_getLease; [nc|done|].
  destruct L as [op ls ts]; cbn [lg_pool lg_leases lg_tombs]. destruct (ls !! Key it) as [l|] eqn:Hl; [|idle].
  destruct (wrongHolder _ _); [idle|].
  destruct (Z.leb_spec (getI64 (Val it)) (l_Spent l)); [idle|].
  apply wp_bind. eapply wp_getPool; [nc|done|]. cbn [lg_pool].
  destruct op as [p|]; [|idle].
  destruct (foldReport_spec p ls ts (Key it) l (getI64 (Val it))) as (total & Ht & Hlt & _ & ->);
    [done..|]. pose proof (sane_pool _ _ _ Hs) as (Hw & Hcap & Hk & Hh & Hls & Hlw).
  pose proof (Hls _ _ Hl) as Hlok.
  pose proof (held_bound _ _ _ Hls Hl). destruct (Hlw _ _ Hl) as (?&?&?&?&?&?&?).
  destruct Hk, Hlok. unfold cap_limit in *.
  assert (pool_wf (reported p (total - l_Spent l))) by (apply pool_wf_buckets; [done|zlia..]).
  assert (lease_wf (set_spent l total)) by (unfold lease_wf; simpl; split_and!; done || zlia).
  apply wp_bind. eapply wp_setPool; [nc|done|done|]. intros u1 Hu1.
  apply wp_bind. eapply wp_setLease; [nc|done|done|]. intros u2 Hu2. apply wp_ret.
  destruct (decide (l_Spent l < total)).
  - assert (lmove rec (MReport (Key it)) (mkLedger (Some p) ls ts) (mkLedger (Some (reported p (total - l_Spent l)))
      (<[Key it := set_spent l total]> ls) ts)) as Hst by (by constructor; [|lia]).
    eapply sim_step; [done| |by eapply moved_by]. eapply sane_step; [done|done|done|done|].
    by apply map_Forall_insert_2.
  - assert (total = l_Spent l) as -> by lia. rewrite Z.sub_diag in *.
    apply sim_stay; [|done]. destruct p, l; unfold reported, set_buckets, set_spent in *; simpl in *.
    rewrite !Z.sub_0_r, !Z.add_0_r in Hu2. by rewrite insert_id in Hu2.
Qed.

Lemma drawGrant_step rec p ls ts id now amount l :
  sane (mkLedger (Some p) ls ts) → ls !! id = None → ts !! id = None → in_i64 now →
  0 < (drawGrant p now amount).1 → l_Amount l = (drawGrant p now amount).1 → l_Spent l = 0 →
  pool_wf (drawGrant p now amount).2 ∧ p_Cap (drawGrant p now amount).2 = p_Cap p ∧
  (drawGrant p now amount).1 ≤ p_Available p ∧
  lmove rec (MGrant id) (mkLedger (Some p) ls ts) (mkLedger (Some (drawGrant p now amount).2) (<[id := l]> ls) ts).
Proof.
  intros Hs Hl Ht Hn Hg Ha Hsp. pose proof (sane_pool _ _ _ Hs) as (Hw & Hcap & [? ? ? ? ? (? & ? & ?)] & Hh & Hls & Hlw). unfold cap_limit, pacingBurstCeil in *.
  destruct (refill_spec p now) as (last & tokens & E & ? & ? & Hpc); [lia|done..|].
  unfold drawGrant in *. rewrite E in *. cbn [set_pacing p_Rate p_Available p_LeasedOut p_Spent
    p_SpentReported p_LastRefillMs p_Tokens set_buckets fst snd] in *.
  set (g1 := if 0 <? p_Rate p then min64 amount tokens else amount) in *.
  set (g := if p_Available p <? g1 then p_Available p else g1) in *.
  assert (g ≤ p_Available p ∧ g ≤ g1).
  { subst g. destruct (Z.ltb_spec (p_Available p) g1); lia. }
  assert (0 < p_Rate p → g1 ≤ tokens).
  { intros Hr%Z.ltb_lt. subst g1. rewrite Hr. unfold min64. destruct (Z.ltb_spec amount tokens); lia. }
  rewrite !(int64_id (p_Available p - g)), !(int64_id (p_LeasedOut p + g)) by zlia.
  destruct (Z.ltb_spec 0 (p_Rate p)) as [Hr|Hr].
  - rewrite (int64_id (tokens - g)) by zlia. split_and!; [|done|lia|].
    + apply pool_wf_pacing; [apply pool_wf_buckets; [by apply pool_wf_pacing|zlia..]|done|zlia].
    + rewrite <-Ha. apply (step_grant rec p ls ts id l last (tokens - l_Amount l)); try done; [lia|].
      unfold paced. rewrite (proj2 (Z.ltb_lt 0 (p_Rate p))) by done. lia.
  - destruct Hpc as [-> ->]. split_and!; [|done|lia|].
    + apply pool_wf_buckets; [by apply pool_wf_pacing|zlia..].
    + rewrite <-Ha. apply (step_grant rec p ls ts id l (p_LastRefillMs p) (p_Tokens p)); try done; [lia|].
      unfold paced. by rewrite (proj2 (Z.ltb_ge 0 (p_Rate p))) by done.
Qed.

(** The ttl a grant resolves to, and the lease it writes. *)
Definition grantTTL (it : item) (p : poolRec) : Z :=
  if getI64 (drop 16 (Val it)) =? 0 then p_DefaultTTLMs p else getI64 (drop 16 (Val it)).
Definition grantNow (it : item) : Z := getI64 (drop 8 (Val it)).

Definition grantLease (it : item) (p q : poolRec) (g : Z) : leaseRec :=
  let ttl := grantTTL it p in
  mkLease (drop 24 (Val it)) g 0 (p_Epoch q) (grantNow it)
    (if 0 <? ttl
     then int64 (int64 (int64 (grantNow it + ttl) + 3 * maxClockSkewMs) + p_MaxPauseMs q) else 0)
    (if 0 <? ttl then int64 (grantNow it + ttl) else 0).

(** The three outcomes of a grant at [L]: refused, echoed, or drawn. *)
Definition grantOut (rec : bool) (c : command) (L : ledger) (r : gres ProposeResult) (u' : updateCtx)
    : Prop :=
  match r with
  | Err _ => True
  | Ok res =>
      at_ledger (NS c) (Coll c) u' L ∧ Value res = 0 ∧ Data res ∈ refusals ∨
      (∃ it l, head (Items c) = Some it ∧ lg_leases L !! Key it = Some l ∧
         at_ledger (NS c) (Coll c) u' L ∧
         res = mkResult (uint64 (l_Amount l)) (encodeGrantResult (echoGrant l (lg_pool L)))) ∨
      (∃ it p ls ts g q, head (Items c) = Some it ∧ L = mkLedger (Some p) ls ts ∧
         drawGrant p (grantNow it) (getI64 (Val it)) = (g, q) ∧ 0 < g ∧
         0 ≤ getI64 (Val it) ∧ lenZ (Key it) ≠ 0 ∧ 24 ≤ lenZ (Val it) ∧ ts !! Key it = None ∧
         let L' := mkLedger (Some q) (<[Key it := grantLease it p q g]> ls) ts in
         at_ledger (NS c) (Coll c) u' L' ∧ sane L' ∧ lmove rec (MGrant (Key it)) L L' ∧
         res = mkResult (uint64 g) (encodeGrantResult
                 (mkGrant g (grantNow it) (grantTTL it p) (p_SelfGuardMs q) (p_MaxPauseMs q))))
  end.

Lemma wp_grant rec c u L :
  cmd_ok c → sane L → at_ledger (NS c) (Coll c) u L → wp (applyBudGrant s c) u (grantOut rec c L).
Proof.
  intros Hc Hs Hu. unfold applyBudGrant. destruct (Items c) as [|it its] eqn:Hi; [by apply wp_throw|].
  assert (∀ b, b ∈ refusals → wp (mret (sentinel b)) u (grantOut rec c L)) as idle by (intros; apply wp_ret; by left).
  destruct ((lenZ (Key it) =? 0) || _) eqn:Hlen; [by apply wp_throw|].
  apply orb_false_iff in Hlen as [Hkl%Z.eqb_neq Hlen%Z.ltb_ge]. cbv zeta.
  destruct (Z.ltb_spec (getI64 (Val it)) 0); [apply idle, list_elem_of_In; simpl; auto 10|].
  apply wp_bind. eapply wp_getTomb; [nc|done|]. destruct L as [op ls ts].
  cbn [lg_pool lg_leases lg_tombs]. destruct (ts !! Key it) as [t|] eqn:Ht; [apply idle, list_elem_of_In; simpl; auto 10|].
  apply wp_bind. eapply wp_getLease; [nc|done|]. cbn [lg_leases].
  destruct (ls !! Key it) as [l|] eqn:Hl.
  { apply wp_bind. eapply wp_getPool; [nc|done|]. apply wp_ret. right; left. exists it, l. by rewrite Hi. }
  apply wp_bind. eapply wp_getPool; [nc|done|]. cbn [lg_pool]. destruct op as [p|]; [|apply idle, list_elem_of_In; simpl; auto 10].
  destruct ((0 <? _) && _); [apply idle, list_elem_of_In; simpl; auto 10|].
  fold (grantTTL it p) (grantNow it).
  assert (in_i64 (grantNow it)) by apply getI64_range.
  destruct (drawGrant p (grantNow it) (getI64 (Val it))) as [g q] eqn:Hd.
  destruct (Z.leb_spec g 0) as [|Hg]; [apply idle, list_elem_of_In; simpl; auto 10|].
  destruct (drawGrant_step rec p ls ts (Key it) (grantNow it) (getI64 (Val it)) (grantLease it p q g))
    as (Hw & Hcap & Hga & Hst); rewrite ?Hd; try done. rewrite Hd in *; cbn [fst snd] in *.
  assert (lease_wf (grantLease it p q g)) as Hlw.
  { pose proof (sane_pool _ _ _ Hs) as (Hw' & ? & [] & ? & ? & ?).
    destruct Hw' as (_&?&_). destruct Hw as (_&?&_). destruct Hc as [_ Hits].
    rewrite Hi in Hits. apply Forall_cons in Hits as [[_ Hv] _]. unfold cap_limit in *.
    unfold lease_wf; simpl. rewrite lenZ_drop by lia.
    split_and!; try case_match; auto with width; zlia. }
  apply wp_bind. eapply wp_setPool; [nc|done|done|]. intros u1 Hu1.
  apply wp_bind. eapply wp_if_index; [nc| |done|]. { apply msafe_setBudExp; nc. }
  intros r u2 Hu2. destruct r as [[]|]; [|done].
  apply wp_bind. eapply wp_setLease; [nc|done|done|]. intros u3 Hu3. apply wp_ret.
  right; right. exists it, p, ls, ts, g, q. rewrite Hi. cbv zeta. split_and!; try done.
  pose proof (sane_pool _ _ _ Hs) as (_ & ? & _).
  eapply sane_step; [done|done|done|lia|]. apply map_Forall_insert_2; [done|by destruct Hs].
Qed.

(** A grant in the terms of the other commands, with its answer. *)
Lemma grant_moved rec c u' L res :
  sane L → grantOut rec c L (Ok res) u' →
  ∃ L', at_ledger (NS c) (Coll c) u' L' ∧ sane L' ∧ moved rec c L L' ∧ answered c res L'.
Proof.
  intros Hs [(Hu & _ & ?)|[(it & l & Hit & Hl & Hu & ->)|(it & p & ls & ts & g & q & Hit & -> & Hd & Hg & _ & _ & _ & _ & Hu & Hs' & Hm & ->)]].
  - exists L. split_and!; [done..|by left|by left].
  - exists L. split_and!; [done..|by left|]. right. exists it, l. split_and!; [done..|].
    cbn [Data]. rewrite decodeGranted_encode; [done|]. apply (sn_leases _ Hs _ _ Hl).
  - eexists. split_and!; [exact Hu|done|by eapply moved_by|]. right.
    exists it, (grantLease it p q g). cbn [lg_leases]. rewrite lookup_insert_eq. split_and!; [done..|].
    cbn [Data]. rewrite decodeGranted_encode; [done|].
    apply (sn_leases _ Hs' (Key it) (grantLease it p q g)). cbn [lg_leases]. by rewrite lookup_insert_eq.
Qed.

(** Settlement, once the final report [total] has been folded in. *)
Lemma return_step rec p ls ts id l total :
  sane (mkLedger (Some p) ls ts) → ls !! id = Some l → ts !! id = None →
  l_Spent l ≤ total ≤ l_Amount l →
  let q := reported p (total - l_Spent l) in
  let rem := l_Amount l - total in
  let q' := set_buckets q (p_Available q + rem) (p_LeasedOut q - rem) (p_Spent q) (p_SpentReported q) in
  let ts' := if 0 <? l_ReclaimNotBeforeMs l then <[id := mkTomb total reasonReturn]> ts else ts in
  int64 rem = rem ∧ int64 (p_Available q + rem) = p_Available q + rem ∧
  int64 (p_LeasedOut q - rem) = p_LeasedOut q - rem ∧ pool_wf q' ∧ in_i64 total ∧
  lmove rec (MReturn id total) (mkLedger (Some p) ls ts) (mkLedger (Some q') (delete id ls) ts') ∧
  sane (mkLedger (Some q') (delete id ls) ts').
Proof.
  intros Hs Hl Ht Htot q rem q' ts'.
  pose proof (sane_pool _ _ _ Hs) as (Hw & Hcap & [] & Hh & Hls & Hlw).
  destruct (Hls _ _ Hl). pose proof (held_bound _ _ _ Hls Hl). destruct (Hlw _ _ Hl) as (?&?&_).
  unfold cap_limit in *.
  assert (lmove rec (MReturn id total) (mkLedger (Some p) ls ts) (mkLedger (Some q') (delete id ls) ts')) as Hst
    by (by econstructor).
  assert (pool_wf q').
  { apply pool_wf_buckets; [apply pool_wf_buckets; [done|zlia..]|..]; subst q rem; simpl; zlia. }
  split_and!; try done; try (apply int64_id); try (subst q rem; simpl; zlia).
  eapply sane_step; [done|done|done|done|]. by apply map_Forall_delete.
Qed.

Lemma set_spent_id l : set_spent l (l_Spent l) = l.
Proof. by destruct l. Qed.
Lemma reported_0 p : reported p 0 = p.
Proof. destruct p. unfold reported. simpl. by rewrite Z.sub_0_r, !Z.add_0_r. Qed.

Lemma sim_return rec c u L :
  cmd_ok c → Op c = opBudReturn → sane L → at_ledger (NS c) (Coll c) u L → wp (applyBudReturn s c) u (sim rec c L).
Proof.
  intros Hc Hop Hs Hu. unfold applyBudReturn. destruct (Items c) as [|it its] eqn:Hits; [idle|].
  destruct (lenZ (Key it) =? 0); [idle|]. cbv zeta.
  apply wp_bind. eapply wp_getTomb; [nc|done|]. destruct L as [op ls ts].
  cbn [lg_pool lg_leases lg_tombs]. destruct (ts !! Key it) as [t|] eqn:Ht; [idle|].
  apply wp_bind. eapply wp_getLease; [nc|done|]. cbn [lg_leases].
  destruct (ls !! Key it) as [l|] eqn:Hl; [|idle].
  destruct ((8 <=? lenZ (Val it)) && wrongHolder _ _); [idle|].
  apply wp_bind. eapply wp_getPool; [nc|done|]. cbn [lg_pool]. destruct op as [p|]; [|idle].
  assert (∃ total, l_Spent l ≤ total ≤ l_Amount l ∧
    (8 ≤ lenZ (Val it) → Z.min (getI64 (Val it)) (l_Amount l) ≤ total) ∧
    (if (8 <=? lenZ (Val it)) && (l_Spent l <? getI64 (Val it))
     then foldReport (getI64 (Val it)) l p else (l, p)) =
    (set_spent l total, reported p (total - l_Spent l))) as (total & Htot & Hfin & ->).
  { pose proof (sane_pool _ _ _ Hs) as (_ & _ & _ & _ & Hls & _). destruct (Hls _ _ Hl).
    destruct (Z.leb_spec 8 (lenZ (Val it))); [destruct (Z.ltb_spec (l_Spent l) (getI64 (Val it)))|]; cbn [andb].
    - edestruct foldReport_spec as (total & ? & _ & -> & ->); [done..|]. by eexists.
    - exists (l_Spent l). rewrite Z.sub_diag, set_spent_id, reported_0. split_and!; [lia..|done].
    - exists (l_Spent l). rewrite Z.sub_diag, set_spent_id, reported_0. split_and!; [lia..|done]. }
  assert (caused c (mkLedger (Some p) ls ts) (MReturn (Key it) total)) as Hcz by (split; [done|]; exists it, l; by rewrite Hits).
  destruct (return_step rec p ls ts (Key it) l total) as (E1 & E2 & E3 & Hw & Htr & Hst & Hs'); [done..|].
  cbn [set_spent l_Amount l_Spent l_ReclaimNotBeforeMs]. rewrite E1, E2, E3.
  apply wp_bind. eapply wp_setPool; [nc|done|done|]. intros u1 Hu1.
  apply wp_bind. eapply wp_delLease; [nc|done|]. intros u2 Hu2.
  apply wp_bind. destruct (0 <? l_ReclaimNotBeforeMs l).
  - apply wp_bind. eapply wp_index; [nc|apply msafe_delBudExp; nc|done|]. intros [[]|] u3 Hu3; [|auto].
    apply wp_bind. eapply wp_setTomb; [nc|done|done|]. intros u4 Hu4.
    eapply wp_index; [nc|apply msafe_setBudTombGC; nc|done|]. intros [[]|] u5 Hu5; [|auto].
    apply wp_ret. by eapply sim_step; [..|eapply moved_by].
  - apply wp_ret, wp_ret. by eapply sim_step; [..|eapply moved_by].
Qed.

Lemma expire_step rec p ls ts id l :
  sane (mkLedger (Some p) ls ts) → ls !! id = Some l → ts !! id = None →
  let rem := l_Amount l - l_Spent l in
  let q := set_buckets p (p_Available p) (p_LeasedOut p - rem) (p_Spent p + rem) (p_SpentReported p) in
  let L' := mkLedger (Some q) (delete id ls) (<[id := mkTomb (l_Spent l) reasonExpire]> ts) in
  int64 rem = rem ∧ int64 (p_LeasedOut p - rem) = p_LeasedOut p - rem ∧
  int64 (p_Spent p + rem) = p_Spent p + rem ∧ pool_wf q ∧ in_i64 (l_Spent l) ∧
  lmove rec (MExpire id) (mkLedger (Some p) ls ts) L' ∧ sane L'.
Proof.
  intros Hs Hl Ht rem q L'.
  pose proof (sane_pool _ _ _ Hs) as (Hw & Hcap & [] & Hh & Hls & Hlw).
  destruct (Hls _ _ Hl). pose proof (held_bound _ _ _ Hls Hl). destruct (Hlw _ _ Hl) as (?&?&_).
  unfold cap_limit in *.
  assert (lmove rec (MExpire id) (mkLedger (Some p) ls ts) L') as Hst by (by econstructor).
  assert (pool_wf q) by (apply pool_wf_buckets; [done|subst rem; zlia..]).
  split_and!; try done; try (apply int64_id; subst rem; zlia).
  eapply sane_step; [done|done|done|done|]. by apply map_Forall_delete.
Qed.

Lemma sim_expire rec c u L :
  cmd_ok c → sane L → at_ledger (NS c) (Coll c) u L → wp (applyBudExpire s c) u (sim rec c L).
Proof.
  intros Hc Hs Hu. unfold applyBudExpire. destruct (Items c) as [|it its]; [idle|].
  destruct (_ || _); [idle|]. cbv zeta.
  apply wp_bind. eapply wp_getTomb; [nc|done|]. destruct L as [op ls ts].
  cbn [lg_pool lg_leases lg_tombs]. destruct (ts !! Key it) as [t|] eqn:Ht; [idle|].
  apply wp_bind. eapply wp_getLease; [nc|done|]. cbn [lg_leases].
  apply wp_bind. eapply wp_getPool; [nc|done|]. cbn [lg_pool].
  destruct (ls !! Key it) as [l|] eqn:Hl.
  2: { apply wp_bind. eapply wp_setTomb; [nc|done|simpl; zlia|]. intros u1 Hu1.
    assert (lmove rec (MTomb (Key it)) (mkLedger op ls ts) (mkLedger op ls (<[Key it := mkTomb 0 reasonExpire]> ts))) as Hst
      by (by constructor).
    assert (sane (mkLedger op ls (<[Key it := mkTomb 0 reasonExpire]> ts))).
    { destruct Hs as [Hi Hp Hw]. split; [by eapply lstep_linv; [eexists|]|done|done]. }
    apply wp_bind. destruct op as [p|].
    - eapply wp_index; [nc|apply msafe_setBudTombGC; nc|done|]. intros [[]|] u2 Hu2; [|auto].
      apply wp_ret. by eapply sim_step; [..|eapply moved_by].
    - apply wp_ret, wp_ret. by eapply sim_step; [..|eapply moved_by]. }
  destruct (_ <? l_ReclaimNotBeforeMs l); [idle|]. destruct op as [p|]; [|idle].
  destruct (expire_step rec p ls ts (Key it) l) as (E1 & E2 & E3 & Hw & Hr & Hst & Hs'); [done..|].
  rewrite E1, E2, E3.
  apply wp_bind. eapply wp_setPool; [nc|done|done|]. intros u1 Hu1.
  apply wp_bind. eapply wp_delLease; [nc|done|]. intros u2 Hu2.
  apply wp_bind. eapply wp_if_index; [nc|apply msafe_delBudExp; nc|done|]. intros [[]|] u3 Hu3; [|auto].
  apply wp_bind. eapply wp_setTomb; [nc|done|done|]. intros u4 Hu4.
  apply wp_bind. eapply wp_index; [nc|apply msafe_setBudTombGC; nc|done|]. intros [[]|] u5 Hu5; [|auto].
  apply wp_ret. by eapply sim_step; [..|eapply moved_by].
Qed.

Lemma sim_tombGC rec c u L :
  cmd_ok c → sane L → at_ledger (NS c) (Coll c) u L → wp (applyBudTombGC s c) u (sim rec c L).
Proof.
  intros Hc Hs Hu. unfold applyBudTombGC. destruct (Items c) as [|it its]; [idle|].
  destruct (_ || _); [idle|]. cbv zeta. destruct L as [op ls ts].
  apply wp_bind. eapply wp_delTomb; [nc|done|]. intros u1 Hu1.
  apply wp_bind. eapply wp_index; [nc|apply msafe_delBudTombGC; nc|done|]. intros [[]|] u2 Hu2; [|auto].
  assert (lmove rec (MTomb (Key it)) (mkLedger op ls ts) (mkLedger op ls (delete (Key it) ts))) as Hst by constructor.
  apply wp_ret. eapply sim_step; [done| |by eapply moved_by].
  destruct Hs as [Hi Hp Hw]. split; [by eapply lstep_linv; [eexists|]|done|done].
Qed.

Lemma sim_reconcile c u L :
  cmd_ok c → sane L → at_ledger (NS c) (Coll c) u L → wp (applyBudReconcile s c) u (sim true c L).
Proof.
  intros Hc Hs Hu. unfold applyBudReconcile. destruct (Items c) as [|it its]; [idle|].
  destruct (_ <? 8); [idle|]. cbv zeta. destruct L as [op ls ts].
  apply wp_bind. eapply wp_getPool; [nc|done|]. cbn [lg_pool]. destruct op as [p|]; [|idle].
  pose proof (sane_pool _ _ _ Hs) as (Hw & Hcap & [] & Hh & Hls & Hlw). unfold cap_limit in *.
  assert (p_SpentReported p ≤ clampI64 (getI64 (Val it)) (p_SpentReported p) (p_Cap p) ≤ p_Cap p) as Ht.
  { unfold clampI64. repeat (case_match; rewrite ?Z.ltb_lt, ?Z.ltb_ge in *); lia. }
  set (target := clampI64 _ _ _) in *.
  rewrite (int64_id (p_Cap p - target)) by zlia.
  rewrite (int64_id (p_Cap p - target - p_LeasedOut p)) by zlia.
  replace (if p_Cap p - target - p_LeasedOut p <? 0 then 0 else p_Cap p - target - p_LeasedOut p)
    with (Z.max 0 (p_Cap p - target - p_LeasedOut p)).
  2: { destruct (Z.ltb_spec (p_Cap p - target - p_LeasedOut p) 0); lia. }
  assert (pool_wf (set_buckets p (Z.max 0 (p_Cap p - target - p_LeasedOut p)) (p_LeasedOut p) target
    (p_SpentReported p))) by (apply pool_wf_buckets; [done|zlia..]).
  pose proof (step_reconcile true p ls ts target eq_refl Ht) as Hst.
  apply wp_bind. eapply wp_setPool; [nc|done|done|]. intros u1 Hu1. apply wp_ret.
  eapply sim_step; [done| |by eapply moved_by]. eapply sane_step; [done|done|done|done|]. by destruct Hs.
Qed.

End refine.

(** ** Properties *)

Lemma echo_of_grant it p q g :
  pool_wf p → 0 ≤ grantNow it → 0 ≤ grantTTL it p → grantNow it + grantTTL it p < 2 ^ 63 →
  echoGrant (grantLease it p q g) (Some q) =
    mkGrant g (grantNow it) (grantTTL it p) (p_SelfGuardMs q) (p_MaxPauseMs q).
Proof.
  intros Hw Hn Ht Hb. unfold echoGrant, grantLease. cbn [l_Amount l_GrantedMs l_ExpiresMs]. f_equal.
  destruct (Z.ltb_spec 0 (grantTTL it p)); [|simpl; lia].
  rewrite (int64_id (grantNow it + _)) by zlia.
  destruct (Z.ltb_spec 0 (grantNow it + grantTTL it p)); [|lia]. rewrite int64_id by zlia. lia.
Qed.

(** A step of the ledger after which a lease is still outstanding. *)
Definition outstanding (id : bytes) (L L' : ledger) : Prop := lstep true L L' ∧ is_Some (lg_leases L' !! id).

(** What a grant is echoed from: the lease's amount and times and the pool's guards, with no
    tombstone of the lease. *)
Definition echoes (id : bytes) (l : leaseRec) (p : poolRec) (L : ledger) : Prop :=
  lg_tombs L !! id = None ∧
  (∃ l', lg_leases L !! id = Some l' ∧ l_Amount l' = l_Amount l ∧ l_GrantedMs l' = l_GrantedMs l ∧ l_ExpiresMs l' = l_ExpiresMs l) ∧
  ∃ p', lg_pool L = Some p' ∧ p_SelfGuardMs p' = p_SelfGuardMs p ∧ p_MaxPauseMs p' = p_MaxPauseMs p.

Lemma outstanding_echoes id l p L L' : outstanding id L L' → echoes id l p L → echoes id l p L'.
Proof.
  intros [[m Hm] Hin] (Ht & (l1 & Hl & E1 & E2 & E3) & p1 & Hp & G1 & G2). destruct Hm; cbn [lg_pool lg_leases lg_tombs] in *; simplify_eq.
  - destruct (decide (id0 = id)) as [->|Hne]; [congruence|]. split; [done|]. split; [|by eexists]. exists l1. cbn [lg_leases]. by rewrite lookup_insert_ne.
  - split; [done|]. split; [|by eexists]. cbn [lg_leases]. destruct (decide (id0 = id)) as [->|Hne]; [|exists l1; by rewrite lookup_insert_ne].
    assert (l0 = l1) as -> by congruence. exists (set_spent l1 total). by rewrite lookup_insert_eq.
  - destruct (decide (id0 = id)) as [->|Hne]; [rewrite lookup_delete_eq in Hin; by destruct Hin|]. split; [|split; [|by eexists]]; cbn [lg_tombs lg_leases].
    + destruct (0 <? _); [by rewrite lookup_insert_ne|done].
    + exists l1. by rewrite lookup_delete_ne.
  - destruct (decide (id0 = id)) as [->|Hne]; [rewrite lookup_delete_eq in Hin; by destruct Hin|]. split; [|split; [|by eexists]]; cbn [lg_tombs lg_leases].
    + by rewrite lookup_insert_ne.
    + exists l1. by rewrite lookup_delete_ne.
  - destruct (decide (id0 = id)) as [->|Hne]; [congruence|]. split; [cbn [lg_tombs]; by rewrite lookup_insert_ne|]. split; [by exists l1|by exists p1].
  - split; [cbn [lg_tombs]; apply lookup_delete_None; by right|]. split; [by exists l1|by exists p1].
  - split; [done|]. split; [by exists l1|by eexists].
Qed.

(** A grant on a lease that is there is answered from the ledger, whatever it asks for. *)
Lemma grant_echo {S} `{LocalStoreSpec S} (s : baseSM S) (c : command) (it : item) (u : updateCtx) (L : ledger) (l : leaseRec) (p : poolRec) :
  ls_live (sm_store s) → cmd_ok c → at_ledger s (NS c) (Coll c) u L → head (Items c) = Some it →
  lenZ (Key it) ≠ 0 → 24 ≤ lenZ (Val it) → 0 ≤ getI64 (Val it) → echoes (Key it) l p L →
  applyBudGrant s c u = (Ok (mkResult (uint64 (l_Amount l)) (encodeGrantResult (echoGrant l (Some p)))), u).
Proof.
  intros Hl Hc Hu Hit Hk Hlen Ha (Ht & (l' & Hl' & E1 & E2 & E3) & p' & Hp & G1 & G2).
  assert (wp (applyBudGrant s c) u (λ r' u'', r' = Ok (mkResult (uint64 (l_Amount l)) (encodeGrantResult (echoGrant l (Some p)))) ∧ u'' = u)) as Hwp.
  2: { unfold wp in Hwp. destruct (applyBudGrant s c u) as [r' u'']. simpl in Hwp. by destruct Hwp as [-> ->]. }
  unfold applyBudGrant. destruct (Items c) as [|it0 its]; [done|]. injection Hit as ->.
  rewrite (proj2 (Z.eqb_neq _ _)), (proj2 (Z.ltb_ge _ 24)) by done. cbn [orb]. cbv zeta. rewrite (proj2 (Z.ltb_ge _ 0)) by done.
  apply wp_bind. eapply wp_getTomb; [done|apply Hc|exact Hu|]. rewrite Ht.
  apply wp_bind. eapply wp_getLease; [done|apply Hc|exact Hu|]. rewrite Hl'.
  apply wp_bind. eapply wp_getPool; [done|apply Hc|exact Hu|]. rewrite Hp. apply wp_ret.
  unfold echoGrant. by rewrite E1, E2, E3, G1, G2.
Qed.

(** C25: a retried grant is exactly-once. When a grant on a lease draws money, then as long as
    the lease is outstanding, whatever steps the ledger takes in between (in the same batch or in
    later ones, of any state [s'] of the shard), a retry on the same lease, whatever
    non-negative amount, time stamp, ttl and holder it carries, changes nothing and returns the byte-identical result, the
    timing of the first grant included. The first grant's time and ttl must be sensible
    (non-negative, no int64 overflow). *)
Theorem grant_retry_identical {S} `{LocalStoreSpec S} (s : baseSM S) (c : command) (it : item)
    (u u' : updateCtx) (L : ledger) (r : ProposeResult) :
  ls_live (sm_store s) → cmd_ok c → sane L → at_ledger s (NS c) (Coll c) u L →
  head (Items c) = Some it → lg_leases L !! Key it = None →
  applyBudGrant s c u = (Ok r, u') → Value r ≠ 0 → 0 ≤ grantNow it →
  (∀ p, lg_pool L = Some p → 0 ≤ grantTTL it p ∧ grantNow it + grantTTL it p < 2 ^ 63) →
  ∃ L', at_ledger s (NS c) (Coll c) u' L' ∧ lstep true L L' ∧
    ∀ s' c' it' u'' L'', rtc (outstanding (Key it)) L' L'' → ls_live (sm_store s') → at_ledger s' (NS c) (Coll c) u'' L'' →
      cmd_ok c' → NS c' = NS c → Coll c' = Coll c → head (Items c') = Some it' → Key it' = Key it → 24 ≤ lenZ (Val it') → 0 ≤ getI64 (Val it') →
      applyBudGrant s' c' u'' = (Ok r, u'').
Proof.
  intros Hl Hc Hs Hu Hit Hnew Hg Hv Hn Httl.
  pose proof (wp_grant s Hl true c u L Hc Hs Hu) as Ho. unfold wp in Ho. rewrite Hg in Ho.
  destruct Ho as [(_ & ? & _)|[(it' & l & E & Hl' & _)|(it' & p & ls & ts & g & q & E & -> & Hd & Hgp & Ha & Hk & Hlen & Ht & Hu' & _ & Hm & ->)]];
    [done|congruence|]. assert (it' = it) as -> by congruence.
  destruct (Httl p eq_refl). destruct (sane_pool _ _ _ Hs) as (Hw & _).
  eexists. split; [exact Hu'|]. split; [by eexists|]. intros s' c' it' u'' L'' Hout Hl' Hu'' Hc' Hns Hcoll Hit' Hkey Hlen' Ha'.
  assert (echoes (Key it) (grantLease it p q g) q L'') as He.
  { eapply (rtc_ind_r (λ L2, echoes (Key it) (grantLease it p q g) q L2) _); [|intros; by eapply outstanding_echoes|exact Hout].
    split; [done|]. split; [|by exists q]. eexists. cbn [lg_leases]. by rewrite lookup_insert_eq. }
  rewrite <-Hkey in He. rewrite (grant_echo s' c' it' u'' L'' (grantLease it p q g) q); [|first [done|by rewrite Hns, Hcoll|by rewrite Hkey]..].
  by rewrite echo_of_grant.
Qed.

Section witness.
Import Samples.

Definition pool0 : poolRec := mkPool 100 100 0 0 1 modeStrict 0 0 0 0 500 0 1000 30000 0.
Definition grant0 : command := mkCommand opBudGrant ns0 coll0 []
  [mkItem lease0 (putI64 40 ++ putI64 7 ++ putI64 0 ++ lit "h") 0 0].
Definition ctx0 : updateCtx := (setPool shard0 ns0 coll0 pool0 emptyCtx).2.

Lemma ctx0_ledger : at_ledger shard0 ns0 coll0 ctx0 (mkLedger (Some pool0) ∅ ∅).
Proof.
  assert (eff shard0 emptyCtx = ∅) as E by (by vm_compute).
  assert (ls_live (sm_store shard0)) as Hlv by reflexivity.
  assert (nc_ok ns0 coll0) as Hnc0 by (by vm_compute).
  eapply (wp_setPool shard0 Hlv ns0 coll0 Hnc0 emptyCtx None ∅ ∅ pool0
    (λ _ u, at_ledger shard0 ns0 coll0 u (mkLedger (Some pool0) ∅ ∅))); [|by vm_compute|done].
  split; [by intros k _|]. by split; intros; rewrite E, !lookup_empty.
Qed.

Lemma pool0_sane : sane (mkLedger (Some pool0) ∅ ∅).
Proof.
  split; simpl; [split; [apply map_Forall_empty|]| |apply map_Forall_empty].
  - by split; vm_compute.
  - intros p [= <-]. by vm_compute.
Qed.

(** The same lease asked for again later, with another amount, time and holder. *)
Definition grant1 : command := mkCommand opBudGrant ns0 coll0 []
  [mkItem lease0 (putI64 90 ++ putI64 9000 ++ putI64 50 ++ lit "other") 0 0].

Lemma grant_retry_identical_witness :
  match applyBudGrant shard0 grant0 ctx0 with
  | (Ok r, u') => applyBudGrant shard0 grant1 u' = (Ok r, u')
  | (Err _, _) => False
  end.
Proof.
  assert (match (applyBudGrant shard0 grant0 ctx0).1 with Ok r => Value r = 40 | Err _ => False end) as Hv
    by (vm_compute; reflexivity).
  destruct (applyBudGrant shard0 grant0 ctx0) as [[r|e] u'] eqn:E; cbn [fst] in Hv; [|exact Hv].
  assert (cmd_ok grant0 ∧ cmd_ok grant1) as [Hc0 Hc1].
  { split; (split; [split; vm_compute; reflexivity|]); repeat constructor; vm_compute; reflexivity. }
  edestruct (grant_retry_identical shard0 grant0 (mkItem lease0 (putI64 40 ++ putI64 7 ++ putI64 0 ++ lit "h") 0 0) ctx0 u' (mkLedger (Some pool0) ∅ ∅) r) as (L' & Hu & _ & Hr);
    [reflexivity|exact Hc0|exact pool0_sane|exact ctx0_ledger|reflexivity|apply lookup_empty|exact E|rewrite Hv; discriminate|vm_compute; discriminate|..].
  - intros p [= <-]. split; vm_compute; congruence.
  - eapply (Hr shard0 grant1 _ u' L'); [apply rtc_refl|reflexivity|exact Hu|exact Hc1|reflexivity..|vm_compute; congruence|vm_compute; congruence].
Defined.

End witness.

End BudgetRefine.
