(* ===== verification/ShardFrame.v ===== *)
(** * What each command may write

    The frame of every handler of the data shard: an element command stays inside
    its collection, the TTL index and the deduplication ring; a budget command
    inside its collection's budget records and indexes; every entry inside the
    shard's prefix. No handler fails fatally on a healthy store. *)

From S2P Require Import Prelude Bytes Strconv Storage Command Keys Ctx CtxLogic Budget Ledger.
From S2P Require Import BudgetRefine ShardSM.

Local Open Scope Z_scope.
#[local] Set Default Proof Using "Type*".

Module ShardFrame.
Import Storage Command Keys Ctx CtxLogic Budget BudgetRefine ShardSM.

Definition elemScope (sc : byte) : Prop :=
  sc = scopeElem ∨ sc = scopeZPtr ∨ sc = scopeType ∨ sc = scopeTTLPtr.

Definition dedupSpaceKey (p k : bytes) : Prop :=
  ∃ sub r, (sub = subDedup ∨ sub = subDedupRing) ∧ k = p ++ sub :: r.

(** The keys an element command on one collection may touch. *)
Definition elemCmdKey (p ns coll k : bytes) : Prop :=
  (∃ sc r, elemScope sc ∧ k = dkey p sc ns coll r) ∨
  (∃ t r, k = ikey p subTTL t ns coll r) ∨ dedupSpaceKey p k.

Definition shardKey (p k : bytes) : Prop := p `prefix_of` k.
Definition offBudget (p k : bytes) : Prop := shardKey p k ∧ ¬ budKey p k.

Lemma sub_not_budKey p sub r : sub ≠ subData → ¬ budKey p (p ++ sub :: r).
Proof.
  intros Hs (sc & ns & coll & r' & _ & _ & E). apply (f_equal (sub_of p)) in E.
  rewrite sub_of_dkey, sub_of_app in E. naive_solver.
Qed.

Lemma elemScope_not_bud sc : elemScope sc → ¬ budScope sc.
Proof. intros [->|[->|[->| ->]]] [E|[E|E]]; discriminate E. Qed.

Lemma elemCmdKey_offBudget p ns coll k : nc_ok ns coll → elemCmdKey p ns coll k → offBudget p k.
Proof.
  intros Hn [(sc & r & Hsc & ->)|[(t & r & ->)|(sub & r & Hsub & ->)]].
  - split; [apply prefix_app_r; done|]. intros (sc' & ns' & coll' & r' & Hsc' & Hn' & E).
    apply dkey_inj in E as (-> & _); [|done..]. by eapply elemScope_not_bud.
  - split; [apply prefix_app_r; done|]. by apply sub_not_budKey.
  - split; [apply prefix_app_r; done|]. apply sub_not_budKey. by destruct Hsub as [->| ->].
Qed.

Lemma budCmdKey_shardKey p ns coll k : budCmdKey p ns coll k → shardKey p k.
Proof. by intros [(sc & r & _ & ->)|(sub & t & r & _ & ->)]; apply prefix_app_r. Qed.

Lemma frozenKey_offBudget p k : offBudget p (frozenKey p k).
Proof.
  unfold frozenKey, frozenSpace. rewrite <-!app_assoc. split; [by apply prefix_app_r|].
  by apply sub_not_budKey.
Qed.

Section frames.
Context {S : Type} `{LocalStoreSpec S} `{FloatText} (s : baseSM S) (Hlive : ls_live (sm_store s)).
Local Abbreviation p_ := (sm_prefix s).

(** ** Element commands *)

Section elem.
Context (c : command) (Hnc : nc_ok (NS c) (Coll c)).
Local Abbreviation K := (elemCmdKey p_ (NS c) (Coll c)).

Lemma K_dkey sc r : elemScope sc → K (dkey p_ sc (NS c) (Coll c) r).
Proof. left. eauto. Qed.
Lemma K_ttl t m : K (ttlIndexKey p_ t (NS c) (Coll c) m).
Proof. right; left. rewrite ttlIndexKey_ikey. eauto. Qed.
Lemma K_dedup k : K (dedupKey p_ k).
Proof. right; right. exists subDedup, k. auto. Qed.
Lemma K_ring n : K (dedupRingKey p_ n).
Proof. right; right. exists subDedupRing, (put_u64 n). auto. Qed.

Local Ltac key := autorewrite with keys; apply K_dkey; unfold elemScope; auto 10.
Lemma K_type : K (typeKey p_ (NS c) (Coll c)). Proof. key. Qed.
Lemma K_elem m : K (elemKey p_ (NS c) (Coll c) m). Proof. key. Qed.
Lemma K_zscore f m : K (zscoreKey p_ (NS c) (Coll c) f m). Proof. key. Qed.
Lemma K_zptr m : K (zptrKey p_ (NS c) (Coll c) m). Proof. key. Qed.
Lemma K_ttlptr m : K (ttlPtrKey p_ (NS c) (Coll c) m). Proof. key. Qed.
Lemma card_is_card : is_card p_ K (cardKey p_ (NS c) (Coll c)).
Proof. exists (NS c), (Coll c). split_and!; [done..|]. key. Qed.

Local Hint Resolve K_type K_elem K_zscore K_zptr K_ttlptr K_ttl K_dedup K_ring card_is_card
  msafe_elemExists msafe_fieldVal msafe_zScore msafe_typeOf msafe_ensureType msafe_setTTL
  msafe_clearTTL msafe_dedupRecord ttlExpiryOf_nonfatal : msafe.

Lemma msafe_dropElem it b : msafe p_ K (dropElem s c it b).
Proof. unfold dropElem. msafe_auto. Qed.
Lemma msafe_dropMember it : msafe p_ K (dropMember s c it).
Proof. unfold dropMember. msafe_auto. Qed.
Local Hint Resolve msafe_dropElem msafe_dropMember : msafe.

Lemma msafe_applyItem it : msafe p_ K (applyItem s c it).
Proof. unfold applyItem. msafe_auto. Qed.

Lemma msafe_applyElems d : msafe p_ K (applyElems s c d).
Proof.
  unfold applyElems, applyCommand, recordDedup. apply msafe_bind; [|msafe_auto].
  apply msafe_mfold. intros. apply msafe_bind; [apply msafe_applyItem|msafe_auto].
Qed.

Lemma msafe_touchField ek b : K ek → msafe p_ K (touchField s c ek b).
Proof. intros. unfold touchField. msafe_auto. Qed.
Local Hint Resolve msafe_touchField : msafe.

Lemma msafe_applyHIncr d : msafe p_ K (applyHIncr s c d).
Proof. unfold applyHIncr, applyHIncrInt, applyHIncrFloat, recordDedup. msafe_auto. Qed.

End elem.

(** ** Budget commands *)

Section bud.
Context (c : command) (Hnc : nc_ok (NS c) (Coll c)).
Local Abbreviation K := (budCmdKey p_ (NS c) (Coll c)).

Lemma B_dkey sc r : budScope sc ∨ sc = scopeType → K (dkey p_ sc (NS c) (Coll c) r).
Proof. left. eauto. Qed.
Lemma B_ikey sub t r : sub = subBudExp ∨ sub = subBudTombGC → K (ikey p_ sub t (NS c) (Coll c) r).
Proof. right. eauto 6. Qed.

Local Ltac key := autorewrite with keys; first [apply B_dkey; unfold budScope; auto 10 | apply B_ikey; auto].
Lemma B_type : K (typeKey p_ (NS c) (Coll c)). Proof. key. Qed.
Lemma B_pool : K (budPoolKey p_ (NS c) (Coll c)). Proof. key. Qed.
Lemma B_lease m : K (budLeaseKey p_ (NS c) (Coll c) m). Proof. key. Qed.
Lemma B_tomb m : K (budTombKey p_ (NS c) (Coll c) m). Proof. key. Qed.
Lemma B_exp t m : K (budExpKey p_ t (NS c) (Coll c) m). Proof. key. Qed.
Lemma B_gc t m : K (budTombGCKey p_ t (NS c) (Coll c) m). Proof. key. Qed.

Lemma decodePool_nonfatal b : nonfatal (decodePool b).
Proof. unfold decodePool. case_match; by intros ? [= <-]. Qed.
Lemma takeChunk_nonfatal b : nonfatal (takeChunk b).
Proof. unfold takeChunk. repeat (case_match || (progress cbv zeta)); by intros ? [= <-]. Qed.
Lemma decodeLease_nonfatal b : nonfatal (decodeLease b).
Proof.
  unfold decodeLease. case_match; [by intros ? [= <-]|].
  destruct (takeChunk _) as [[? ?]|e] eqn:E; simpl; [by intros ? [=]|].
  intros ? [= <-]. by apply (takeChunk_nonfatal _ _ E).
Qed.
Lemma decodeTomb_nonfatal b : nonfatal (decodeTomb b).
Proof. unfold decodeTomb. case_match; by intros ? [= <-]. Qed.

Local Hint Resolve B_type B_pool B_lease B_tomb B_exp B_gc decodePool_nonfatal decodeLease_nonfatal
  decodeTomb_nonfatal msafe_fieldVal msafe_typeOf msafe_ensureType : msafe.

Lemma msafe_getPool : msafe p_ K (getPool s (NS c) (Coll c)).
Proof. unfold getPool. msafe_auto. Qed.
Lemma msafe_getLease id : msafe p_ K (getLease s (NS c) (Coll c) id).
Proof. unfold getLease. msafe_auto. Qed.
Lemma msafe_getTomb id : msafe p_ K (getTomb s (NS c) (Coll c) id).
Proof. unfold getTomb. msafe_auto. Qed.
Local Hint Resolve msafe_getPool msafe_getLease msafe_getTomb : msafe.

Local Ltac bud := unfold setPool, setLease, delLease, setTomb, delTomb, setBudExp, delBudExp,
  setBudTombGC, delBudTombGC; msafe_auto.

Lemma msafe_applyBud : msafe p_ K (applyBud s c).
Proof.
  unfold applyBud. apply msafe_bind; [eauto with msafe|]. intros tp. case_match; [msafe_auto|].
  case_match; unfold applyBudInit, applyBudGrant, applyBudReport, applyBudReturn, applyBudExpire,
    applyBudTombGC, applyBudReconcile; bud.
Qed.

End bud.

End frames.

End ShardFrame.
