(* ===== verification/ShardUpdate.v ===== *)
(** * Update on a healthy store (statemachine.go, sm_fatal.go)

    The whole of [Update]: it always succeeds, whatever the bytes of the entries;
    an entry that fails leaves no trace; and the shard writes only under its own
    prefix. The induction principle over the entries of a batch is here too. *)

From S2P Require Import Prelude Bytes Strconv Storage Command Keys Ctx CtxLogic Budget Ledger.
From S2P Require Import BudgetRefine ShardSM Samples ShardFrame.

Local Open Scope Z_scope.
#[local] Set Default Proof Using "Type*".

Module ShardUpdate.
Import Storage Command Keys Ctx CtxLogic Budget BudgetRefine ShardSM ShardFrame.

(** ** Decoding fails without being fatal *)

Lemma nonfatal_bind {A B} (m : gres A) (f : A → gres B) :
  nonfatal m → (∀ a, nonfatal (f a)) → nonfatal (res_bind m f).
Proof.
  intros Hm Hf. destruct m as [a|e]; simpl; [apply Hf|]. intros ? [= <-]. by apply Hm.
Qed.
Lemma nonfatal_err {A} e : isFatal e = false → nonfatal (Err e : gres A).
Proof. by intros ? ? [= <-]. Qed.

Create HintDb nonfatal.
#[local] Hint Resolve nonfatal_Ok nonfatal_err takeChunk_nonfatal : nonfatal.
Local Ltac nonfatal_auto :=
  repeat first
    [ progress intros | progress cbv zeta | apply nonfatal_bind
    | match goal with |- nonfatal (match ?x with _ => _ end) => destruct x end
    | solve [eauto 3 with nonfatal] ].

Lemma decodeItems_nonfatal n b : nonfatal (decodeItems n b).
Proof. revert b. induction n; intros b; simpl; nonfatal_auto. Qed.
#[local] Hint Resolve decodeItems_nonfatal : nonfatal.
Lemma decodeCommand_nonfatal b : nonfatal (decodeCommand b).
Proof. unfold decodeCommand. nonfatal_auto. Qed.
Lemma decodeChunks_nonfatal n b : nonfatal (decodeChunks n b).
Proof. revert b. induction n; intros b; simpl; nonfatal_auto. Qed.
#[local] Hint Resolve decodeChunks_nonfatal : nonfatal.
Lemma decodeBatch_nonfatal b : nonfatal (decodeBatch b).
Proof. unfold decodeBatch. nonfatal_auto. Qed.
Lemma decodePurge_nonfatal b : nonfatal (decodePurge b).
Proof. unfold decodePurge. nonfatal_auto. Qed.
Lemma decodeKVs_nonfatal n b : nonfatal (decodeKVs n b).
Proof. revert b. induction n; intros b; simpl; nonfatal_auto. Qed.
#[local] Hint Resolve decodeKVs_nonfatal : nonfatal.
Lemma decodeIngest_nonfatal b : nonfatal (decodeIngest b).
Proof. unfold decodeIngest. nonfatal_auto. Qed.

Lemma decodeCommand_ok b c : decodeCommand b = Ok c → cmd_ok c.
Proof. intros (_ & ? & ? & _ & ? & _)%decodeCommand_inv. by split. Qed.

(** ** Keys of commands *)

Definition cmdKey (p k : bytes) : Prop :=
  ∃ ns coll, nc_ok ns coll ∧ (elemCmdKey p ns coll k ∨ budCmdKey p ns coll k).

(** The keys an entry other than an ingest or a purge writes. *)
Definition entryKey (p k : bytes) : Prop := cmdKey p k ∨ ∃ r, k = frozenKey p r.

Lemma entryKey_shardKey p k : entryKey p k → shardKey p k.
Proof.
  intros [(ns & coll & Hn & [Hk|Hk])|[r ->]].
  - by eapply elemCmdKey_offBudget.
  - by eapply budCmdKey_shardKey.
  - apply frozenKey_offBudget.
Qed.

Lemma entryKey_not_card p k ns coll : nc_ok ns coll → entryKey p k → k ≠ cardKey p ns coll.
Proof.
  intros Hn Hk E. rewrite cardKey_dkey in E. subst k.
  assert (∀ sub r, sub ≠ subData → dkey p scopeCard ns coll [] ≠ p ++ sub :: r) as Hsub.
  { intros sub r Hs E. apply (f_equal (sub_of p)) in E. rewrite sub_of_dkey, sub_of_app in E. naive_solver. }
  destruct Hk as [(ns' & coll' & Hn' & [[(sc & r & Hsc & E)|[(t & r & E)|(sub & r & Hs & E)]]|
    [(sc & r & Hsc & E)|(sub & t & r & Hs & E)]])|[r E]].
  - apply dkey_inj in E as (<- & _); [|done..]. destruct Hsc as [E|[E|[E|E]]]; discriminate E.
  - by eapply Hsub in E.
  - eapply Hsub in E; [done|]. by destruct Hs as [->| ->].
  - apply dkey_inj in E as (<- & _); [|done..]. destruct Hsc as [[E|[E|E]]|E]; discriminate E.
  - eapply Hsub in E; [done|]. by destruct Hs as [->| ->].
  - unfold frozenKey, frozenSpace in E. rewrite <-!app_assoc in E. by eapply Hsub in E.
Qed.

Section update.
Context {S : Type} `{LocalStoreSpec S} `{FloatText} (s : baseSM S) (Hlive : ls_live (sm_store s)).
Local Abbreviation p_ := (sm_prefix s).

(** ** Frames of commands and entries *)

Lemma msafe_dispatch_elem c d :
  cmd_ok c → isBudOp (Op c) = false → msafe p_ (elemCmdKey p_ (NS c) (Coll c)) (dispatch s c d).
Proof.
  intros [Hn _] Hb. unfold dispatch. rewrite Hb. apply msafe_bind.
  - case_match; [|apply msafe_ret]. apply msafe_ensureType; [done|]. by apply K_type.
  - intros ok. repeat case_match; [apply msafe_ret|by apply msafe_applyHIncr|by apply msafe_applyElems].
Qed.

Lemma dispatch_bud c d : isBudOp (Op c) = true → dispatch s c d = mbind (λ _, applyBud s c) (mret true).
Proof.
  intros Hb. unfold dispatch. rewrite Hb, andb_false_r. unfold isBudOp in Hb.
  by destruct (Op c).
Qed.

Lemma msafe_dispatch_bud c d :
  cmd_ok c → isBudOp (Op c) = true → msafe p_ (budCmdKey p_ (NS c) (Coll c)) (dispatch s c d).
Proof.
  intros [Hn _] Hb. rewrite dispatch_bud by done. apply msafe_bind; [apply msafe_ret|].
  intros _. by apply msafe_applyBud.
Qed.

Lemma msafe_dispatch c d : cmd_ok c → msafe p_ (cmdKey p_) (dispatch s c d).
Proof.
  intros Hc. destruct (isBudOp (Op c)) eqn:Hb.
  - eapply msafe_mono; [|by apply msafe_dispatch_bud]. intros k Hk. exists (NS c), (Coll c).
    split; [apply Hc|by right].
  - eapply msafe_mono; [|by apply msafe_dispatch_elem]. intros k Hk. exists (NS c), (Coll c).
    split; [apply Hc|by left].
Qed.

Lemma msafe_applyOne cmd fz : msafe p_ (cmdKey p_) (applyOne s cmd fz).
Proof.
  unfold applyOne, lift. intros u. unfold mbind at 1, M_bind at 1.
  destruct (decodeCommand cmd) as [c|e] eqn:E; simpl.
  - apply decodeCommand_ok in E.
    assert (msafe p_ (cmdKey p_) (dispatch s c true)) by (by apply msafe_dispatch).
    assert (msafe p_ (cmdKey p_) (dispatch s c false)) by (by apply msafe_dispatch).
    match goal with |- frame _ _ _ (?m u).2 ∧ _ => assert (msafe p_ (cmdKey p_) m) as Hm; [|apply Hm] end.
    msafe_auto. apply msafe_lift. by apply dedupGet_nonfatal.
  - split; [apply frame_refl|]. intros ? [= <-]. by eapply decodeCommand_nonfatal.
Qed.

Definition isMigrate (cmd : bytes) : bool :=
  match head cmd with
  | Some b => bool_decide (opKindOf b = opIngest) || bool_decide (opKindOf b = opPurge)
  | None => false
  end.

Lemma msafe_entry_local cmd fz :
  isMigrate cmd = false → msafe p_ (entryKey p_) (applyEntryBody s cmd fz).
Proof.
  intros Hm. assert (∀ b, msafe p_ (entryKey p_) (applyOne s b fz)) as Hone.
  { intros b. eapply msafe_mono; [|apply msafe_applyOne]. by left. }
  unfold applyEntryBody. destruct (decide (_ ∨ _)) as [Hi|].
  { exfalso. unfold isMigrate in Hm. destruct cmd as [|b cmd]; cbn [head] in *; [naive_solver|].
    rewrite orb_false_iff, !bool_decide_eq_false in Hm. naive_solver. }
  unfold applyFreeze, applySubs. msafe_auto.
  - apply msafe_lift, decodePurge_nonfatal.
  - apply msafe_put. by right; eexists.
  - apply msafe_del. by right; eexists.
  - apply msafe_lift, decodeBatch_nonfatal.
  - apply msafe_mfold. intros. apply msafe_bind; [done|]. intros. apply msafe_ret.
Qed.

Lemma msafe_entry cmd fz : msafe p_ (shardKey p_) (applyEntryBody s cmd fz).
Proof.
  destruct (isMigrate cmd) eqn:Hm.
  2: { eapply msafe_mono; [apply entryKey_shardKey|by apply msafe_entry_local]. }
  assert (∀ k, shardKey p_ (p_ ++ k)) by (intros; by apply prefix_app_r).
  unfold applyEntryBody. destruct (decide (_ ∨ _)) as [Hi|Hi].
  - unfold applyMigrate. msafe_auto; try (apply msafe_mfold; intros; by auto with msafe).
    + apply msafe_lift, decodeIngest_nonfatal.
    + apply msafe_lift, decodePurge_nonfatal.
    + apply msafe_lift. rewrite ls_Scan_ok by done. apply nonfatal_Ok.
  - exfalso. unfold isMigrate in Hm. destruct cmd as [|b cmd]; cbn [head] in *; [done|].
    rewrite orb_true_iff, !bool_decide_eq_true in Hm. apply Hi. simpl. destruct Hm as [-> | ->]; auto.
Qed.

(** ** Batches of entries *)

Lemma wrap_fatal i e : isFatal (wrap i e) = isFatal e.
Proof. unfold wrap. by destruct (isFatal e) eqn:E; [|simpl]. Qed.

(** One entry of a batch on a healthy store: applied, or skipped without a trace. *)
Lemma entry_step e fz u :
  (∃ r u1, applyEntryBody s (e_Cmd e) fz u = (Ok r, u1) ∧
     ∀ es, applyEntries s fz (e :: es) u =
       res_bind (applyEntries s fz es u1) (λ '(rs, u'), Ok (r :: rs, u'))) ∨
  (∃ err u1, applyEntryBody s (e_Cmd e) fz u = (Err err, u1) ∧
     ∀ es, applyEntries s fz (e :: es) u =
       res_bind (applyEntries s fz es u) (λ '(rs, u'), Ok (mkResult 0 [] :: rs, u'))).
Proof.
  destruct (msafe_entry (e_Cmd e) fz u) as [F N].
  destruct (applyEntryBody s (e_Cmd e) fz u) as [[r|err] u1] eqn:E; [left|right].
  - exists r, u1. split; [done|]. intros es. cbn [applyEntries]. unfold applyEntrySafe. rewrite E.
    cbn [res_bind]. by destruct (applyEntries s fz es u1) as [[]|].
  - exists err, u1. split; [done|]. intros es. cbn [applyEntries]. unfold applyEntrySafe. rewrite E.
    rewrite wrap_fatal, (N err eq_refl). cbn [res_bind fst snd] in *. rewrite (restore_snapshot _ _ _ _ F).
    by destruct (applyEntries s fz es u) as [[]|].
Qed.

Lemma applyEntries_inv (I : updateCtx → Prop) fz es u rs u' :
  (∀ e u r u1, e ∈ es → I u → applyEntryBody s (e_Cmd e) fz u = (Ok r, u1) → I u1) →
  I u → applyEntries s fz es u = Ok (rs, u') → I u'.
Proof.
  revert u rs. induction es as [|e es IH]; intros u rs Hstep Hu He; [simpl in He; congruence|].
  assert (∀ e0 u0 r u1, e0 ∈ es → I u0 → applyEntryBody s (e_Cmd e0) fz u0 = (Ok r, u1) → I u1)
    as Hstep' by (intros; eapply Hstep; [by right|done..]).
  destruct (entry_step e fz u) as [(r & u1 & Hb & E)|(err & u1 & Hb & E)]; rewrite E in He;
    apply res_bind_Ok in He as ([rs' u2] & He & [= <- ->]).
  - eapply IH; [done| |done]. eapply Hstep; [by left|done..].
  - by eapply IH.
Qed.

(** The same, with the entries done so far and their results. *)
Lemma applyEntries_hist (J : list (entry * ProposeResult) → updateCtx → Prop) fz es0 pre es done u rs u' :
  es0 = pre ++ es → length done = length pre →
  (∀ done e u r u1, es0 !! length done = Some e → J done u → applyEntryBody s (e_Cmd e) fz u = (Ok r, u1) →
     J (done ++ [(e, r)]) u1) →
  (∀ done e u, es0 !! length done = Some e → J done u → J (done ++ [(e, mkResult 0 [])]) u) →
  J done u → applyEntries s fz es u = Ok (rs, u') → J (done ++ zip es rs) u'.
Proof.
  revert pre done u rs. induction es as [|e es IH]; intros pre done u rs E0 Hlen Hstep Hskip Hu He.
  { simpl in *. rewrite app_nil_r. congruence. }
  assert (es0 !! length done = Some e) as Hl by (by rewrite E0, Hlen, list_lookup_middle).
  destruct (entry_step e fz u) as [(r & u1 & Hb & E)|(err & u1 & Hb & E)]; rewrite E in He;
    apply res_bind_Ok in He as ([rs' u2] & He & [= <- ->]); cbn [zip zip_with]; rewrite cons_middle, app_assoc.
  - apply (IH (pre ++ [e]) _ u1); [by rewrite <-app_assoc|rewrite !length_app; simpl; lia|done|done|by eapply Hstep|done].
  - apply (IH (pre ++ [e]) _ u); [by rewrite <-app_assoc|rewrite !length_app; simpl; lia|done|done|by apply Hskip|done].
Qed.

Lemma applyEntries_ok fz es u :
  ∃ rs u', applyEntries s fz es u = Ok (rs, u') ∧ length rs = length es.
Proof.
  revert u. induction es as [|e es IH]; intros u; [by exists [], u|].
  destruct (entry_step e fz u) as [(r & u1 & _ & E)|(err & u1 & _ & E)]; rewrite E.
  - destruct (IH u1) as (rs & u' & -> & Hl). exists (r :: rs), u'. simpl. auto.
  - destruct (IH u) as (rs & u' & -> & Hl). exists (mkResult 0 [] :: rs), u'. simpl. auto.
Qed.

(** ** Flushing *)

(** Every stored element counter has its eight bytes. *)
Definition cards_wf (m : gmap bytes bytes) : Prop :=
  ∀ ns coll v, nc_ok ns coll → m !! cardKey p_ ns coll = Some v → lenZ v = 8.

Definition cardKey_of (k : bytes) : Prop := ∃ ns coll, nc_ok ns coll ∧ k = cardKey p_ ns coll.

(** What follows the entries' operations in the batch. *)
Definition tailOp (op : StoreOp) : Prop :=
  op_CF op = CFReplData ∧ op_Delete op = false ∧
  (op_Key op = dedupSeqKey p_ ∨ op_Key op = appliedKey p_ ∨
   cardKey_of (op_Key op) ∧ lenZ (op_Value op) = 8).

Lemma cardOps_ok l :
  cards_wf (base s) → Forall (λ kd, cardKey_of kd.1) l →
  ∃ os, cardOps s l = Ok os ∧ Forall tailOp os.
Proof.
  intros Hw Hl. induction Hl as [|[k d] l (ns & coll & Hn & Hk) Hl (os & E & Hos)]; [by exists []|].
  simpl in Hk. subst k. cbn [cardOps]. rewrite E. destruct (d =? 0); [by exists os|].
  assert (∃ cur, readCard s (cardKey p_ ns coll) = Ok cur) as [cur Hc].
  { unfold readCard. rewrite getData_live by done. cbn [res_bind].
    destruct (base s !! cardKey p_ ns coll) as [v|] eqn:Hv; [|by eexists].
    rewrite (Hw _ _ _ Hn Hv). by eexists. }
  rewrite Hc. eexists. split; [done|]. constructor; [|done]. split_and!; [done..|]. right; right.
  split; [by exists ns, coll|]. apply lenZ_put_u64.
Qed.

(** The counters touched by a batch belong to collections. *)
Definition cards_known (u : updateCtx) : Prop := ∀ k d, cardDelta u !! k = Some d → cardKey_of k.

Lemma frame_cards_known K u u' : frame p_ K u u' → cards_known u → cards_known u'.
Proof.
  intros F Hu k d Hk. destruct (fr_card _ _ _ _ F k) as [E|(ns & coll & Hn & -> & _)].
  - eapply Hu. by rewrite <-E.
  - by exists ns, coll.
Qed.

Definition startCtx : gres (list frozenRange * updateCtx) :=
  do? fz ← loadFrozen s;
  do? seq ← readDedupSeq s;
  Ok (fz, set_dedupSeq seq emptyCtx).

Lemma startCtx_ok : ∃ fz seq, startCtx = Ok (fz, set_dedupSeq seq emptyCtx) ∧
  loadFrozen s = Ok fz ∧ readDedupSeq s = Ok seq.
Proof.
  unfold startCtx, loadFrozen, readDedupSeq. rewrite ls_Scan_ok, getData_live by done. simpl.
  repeat case_match; by do 2 eexists.
Qed.

Lemma shard_frame_ops es fz u rs u' :
  applyEntries s fz es u = Ok (rs, u') → frame p_ (shardKey p_) u u'.
Proof.
  apply (applyEntries_inv (frame p_ (shardKey p_) u)); [|apply frame_refl].
  intros e u1 r u2 _ F E. eapply frame_trans; [done|].
  destruct (msafe_entry (e_Cmd e) fz u1) as [F' _]. by rewrite E in F'.
Qed.

(** The shape of a non-empty [Update] on a healthy store. *)
Lemma Update_flush es :
  cards_wf (base s) → es ≠ [] →
  ∃ fz seq rs u cs tl st,
    loadFrozen s = Ok fz ∧ readDedupSeq s = Ok seq ∧
    applyEntries s fz es (set_dedupSeq seq emptyCtx) = Ok (rs, u) ∧ length rs = length es ∧
    Update s es = Ok (rs, with_store s st) ∧ ls_live st ∧ Forall tailOp tl ∧
    frame p_ (shardKey p_) emptyCtx u ∧
    (∀ cf, cf_valid cf = true → ls_view st cf = apply_ops cf (ops u ++ tl) (ls_view (sm_store s) cf)) ∧
    cardOps s (map_to_list (cardDelta u)) = Ok cs ∧
    ∃ sq fin, tl = sq ++ cs ++ fin ∧
      Forall (λ op, op_Key op = dedupSeqKey p_ ∨ op_Key op = appliedKey p_) (sq ++ fin).
Proof.
  intros Hw Hne. destruct startCtx_ok as (fz & seq & _ & Hfz & Hseq).
  destruct (applyEntries_ok fz es (set_dedupSeq seq emptyCtx)) as (rs & u & He & Hlen).
  pose proof (shard_frame_ops _ _ _ _ _ He) as F0.
  assert (frame p_ (shardKey p_) emptyCtx u) as F by (by destruct F0; split).
  assert (cards_known u) as Hk by (eapply frame_cards_known; [exact F|]; by intros k d Hk).
  destruct (cardOps_ok (map_to_list (cardDelta u))) as (cs & Hcs & Htl); [done| |].
  { apply Forall_forall. intros [k d] Hin%elem_of_map_to_list. by eapply Hk. }
  unfold Update. destruct (last es) as [lst|] eqn:Hl; [|by apply last_None in Hl].
  rewrite Hfz, Hseq. cbn [res_bind]. rewrite He. cbn [res_bind]. rewrite Hcs. cbn [res_bind].
  set (sq := if dedupSeq u =? seq then _ else _).
  set (tl := sq ++ cs ++ [putOp CFReplData (appliedKey p_) (put_u64 (e_Index lst))]).
  assert (Forall tailOp tl).
  { apply Forall_app. split; [|apply Forall_app; split; [done|]].
    - subst sq. case_match; [done|]. apply Forall_singleton. split_and!; auto.
    - apply Forall_singleton. split_and!; auto. }
  destruct (ls_BatchRC_ok (sm_store s) (ops u ++ tl)) as (st & Hb & Hst & Hv); [done| |].
  { apply Forall_app. split.
    - destruct F as [(l & E & Hf) _ _ _ _ _]. simpl in E. subst l.
      eapply Forall_impl; [exact Hf|]. by intros op [-> _].
    - eapply Forall_impl; [done|]. by intros op [-> _]. }
  subst tl. rewrite Hb. cbn [fatal_res res_bind].
  exists fz, seq, rs, u, cs, (sq ++ cs ++ [putOp CFReplData (appliedKey p_) (put_u64 (e_Index lst))]), st.
  split_and!; try done. eexists sq, _. split; [done|]. apply Forall_app. split; [|by apply Forall_singleton; right].
  subst sq. case_match; [done|]. apply Forall_singleton. by left.
Qed.

Lemma Update_run es :
  cards_wf (base s) → es ≠ [] →
  ∃ fz seq rs u tl st,
    loadFrozen s = Ok fz ∧ readDedupSeq s = Ok seq ∧
    applyEntries s fz es (set_dedupSeq seq emptyCtx) = Ok (rs, u) ∧ length rs = length es ∧
    Update s es = Ok (rs, with_store s st) ∧ ls_live st ∧ Forall tailOp tl ∧
    frame p_ (shardKey p_) emptyCtx u ∧
    (∀ cf, cf_valid cf = true → ls_view st cf = apply_ops cf (ops u ++ tl) (ls_view (sm_store s) cf)).
Proof.
  intros Hw Hne. destruct (Update_flush es Hw Hne) as (fz & seq & rs & u & cs & tl & st & ?).
  exists fz, seq, rs, u, tl, st. tauto.
Qed.

Lemma tailOp_shardKey op : tailOp op → shardKey p_ (op_Key op).
Proof.
  intros (_ & _ & [->|[->|[(ns & coll & _ & ->) _]]]); [by apply prefix_app_r..|].
  rewrite cardKey_dkey. by apply prefix_app_r.
Qed.

End update.

(** ** Properties *)

(** An entry that fails in every context with the given frozen ranges. *)
Definition poison {S} `{LocalStore S} `{FloatText} (s : baseSM S) (fz : list frozenRange) (e : entry)
    : Prop := ∀ u, ∃ err u', applyEntryBody s (e_Cmd e) fz u = (Err err, u').

(** Undecodable bytes are poison. *)
Lemma undecodable_poison {S} `{LocalStore S} `{FloatText} (s : baseSM S) fz e err :
  (∀ b, head (e_Cmd e) = Some b → typeForOp (opKindOf b) ≠ typeNone) →
  decodeCommand (e_Cmd e) = Err err → poison s fz e.
Proof.
  intros Hop Hd u. exists err, u. unfold applyEntryBody.
  assert (∀ op, typeForOp op = typeNone → opKindOf <$> head (e_Cmd e) ≠ Some op) as Hno.
  { intros op Ht E. destruct (head (e_Cmd e)) as [b|]; [|done]. simpl in E. injection E as <-. by eapply Hop. }
  rewrite !decide_False by (intros [E|E]; by eapply Hno in E).
  rewrite decide_False by (by apply Hno). unfold applyOne, lift, mbind, M_bind. by rewrite Hd.
Qed.

Lemma applyEntries_skip {S} `{LocalStoreSpec S} `{FloatText} (s : baseSM S) fz es1 e es2 u :
  ls_live (sm_store s) → poison s fz e →
  ∃ rs1 rs2 u', applyEntries s fz (es1 ++ es2) u = Ok (rs1 ++ rs2, u') ∧
    applyEntries s fz (es1 ++ e :: es2) u = Ok (rs1 ++ mkResult 0 [] :: rs2, u') ∧
    length rs1 = length es1.
Proof.
  intros Hl Hp. revert u. induction es1 as [|e1 es1 IH]; intros u; cbn [app].
  - destruct (applyEntries_ok s Hl fz es2 u) as (rs & u' & E & _). exists [], rs, u'. split; [done|].
    destruct (Hp u) as (err & ue & He).
    destruct (entry_step s Hl e fz u) as [(r & u1 & Hb & _)|(err' & u1 & _ & E')].
    + by rewrite He in Hb.
    + rewrite E', E. done.
  - destruct (entry_step s Hl e1 fz u) as [(r & u1 & _ & E)|(err & u1 & _ & E)]; rewrite !E.
    + destruct (IH u1) as (rs1 & rs2 & u' & -> & -> & ?). exists (r :: rs1), rs2, u'. simpl. auto.
    + destruct (IH u) as (rs1 & rs2 & u' & -> & -> & ?). exists (mkResult 0 [] :: rs1), rs2, u'. simpl. auto.
Qed.

(** C8: applying committed entries never fails: on a healthy store whose element
    counters are intact, Update returns one result per entry for every list of
    entries, whatever their bytes (malformed, truncated or panicking entries
    included), and leaves a healthy store. *)
Theorem update_never_fails {S} `{LocalStoreSpec S} `{FloatText} (s : baseSM S) (es : list entry) :
  ls_live (sm_store s) → cards_wf s (base s) →
  ∃ rs s', Update s es = Ok (rs, s') ∧ length rs = length es ∧ ls_live (sm_store s').
Proof.
  intros Hl Hw. destruct es as [|e es]; [by exists [], s|].
  destruct (Update_run s Hl (e :: es) Hw) as (fz & seq & rs & u & tl & st & ? & ? & ? & ? & ? & ? & _); [done|].
  by exists rs, (with_store s st).
Qed.

#[local] Existing Instance Samples.sample_text.

Lemma update_never_fails_witness :
  ∃ rs s', Update Samples.shard0
      [mkEntry 1 [xff; x00]; mkEntry 2 (Samples.initCmd 5); mkEntry 3 [x08]] = Ok (rs, s') ∧
    length rs = 3%nat.
Proof.
  destruct (update_never_fails Samples.shard0
    [mkEntry 1 [xff; x00]; mkEntry 2 (Samples.initCmd 5); mkEntry 3 [x08]]) as (rs & s' & H & Hl & _).
  - reflexivity.
  - intros ns coll v _ Hv. vm_compute in Hv. discriminate Hv.
  - exists rs, s'. exact (conj H Hl).
Defined.

(** C21: a poison entry is skipped without a trace: with such an entry anywhere in
    the batch, Update reaches the same store as without it, gives the other entries
    the same results, and gives it the empty result. *)
Theorem update_skips_poison {S} `{LocalStoreSpec S} `{FloatText} (s : baseSM S)
    (es1 es2 : list entry) (e : entry) (fz : list frozenRange) :
  ls_live (sm_store s) → loadFrozen s = Ok fz → poison s fz e → es2 ≠ [] →
  match Update s (es1 ++ es2) with
  | Ok (rs, s') => ∃ rs1 rs2, rs = rs1 ++ rs2 ∧ length rs1 = length es1 ∧
                     Update s (es1 ++ e :: es2) = Ok (rs1 ++ mkResult 0 [] :: rs2, s')
  | Err err => Update s (es1 ++ e :: es2) = Err err
  end.
Proof.
  intros Hl Hfz Hp Hne. unfold Update.
  assert (last (es1 ++ e :: es2) = last (es1 ++ es2)) as ->.
  { rewrite !last_app. destruct es2; [done|]. rewrite last_cons_cons. by destruct (last _) eqn:E; [|apply last_None in E]. }
  destruct (last (es1 ++ es2)) as [lst|] eqn:Hlast.
  2: { apply last_None, app_eq_nil in Hlast as [_ ->]. done. }
  rewrite Hfz. cbn [res_bind]. destruct (readDedupSeq s) as [seq|]; [|done]. cbn [res_bind].
  destruct (applyEntries_skip s fz es1 e es2 (set_dedupSeq seq emptyCtx) Hl Hp)
    as (rs1 & rs2 & u' & -> & -> & Hlen). cbn [res_bind].
  destruct (cardOps _ _) as [cs|]; [|done]. cbn [res_bind].
  destruct (fatal_res _) as [st|]; [|done]. cbn [res_bind]. by exists rs1, rs2.
Qed.

Lemma update_skips_poison_witness :
  match Update Samples.shard0 [mkEntry 2 (Samples.initCmd 5)] with
  | Ok (rs, s') => ∃ rs1 rs2, rs = rs1 ++ rs2 ∧ length rs1 = 0%nat ∧
      Update Samples.shard0 [mkEntry 1 [x01]; mkEntry 2 (Samples.initCmd 5)] =
        Ok (rs1 ++ mkResult 0 [] :: rs2, s')
  | Err e => False
  end.
Proof.
  pose proof (update_skips_poison Samples.shard0 [] [mkEntry 2 (Samples.initCmd 5)] (mkEntry 1 [x01]) []
    eq_refl eq_refl) as H.
  assert (Samples.succeeded (Update Samples.shard0 [mkEntry 2 (Samples.initCmd 5)]) = true) as Hok
    by (vm_compute; reflexivity).
  cbn [app] in H. destruct (Update Samples.shard0 [mkEntry 2 (Samples.initCmd 5)]) as [[rs s']|e]; [|done].
  apply H; [|done]. eapply undecodable_poison; [|reflexivity]. intros b [= <-]. discriminate.
Defined.

(** C28: shards are isolated: Update changes no key outside the shard's own prefix,
    and no other column family, so data shards sharing a store never interfere. *)
Theorem update_isolated {S} `{LocalStoreSpec S} `{FloatText} (s s' : baseSM S) (es : list entry)
    (rs : list ProposeResult) (cf : ColumnFamily) (k : bytes) :
  ls_live (sm_store s) → cards_wf s (base s) → Update s es = Ok (rs, s') → cf_valid cf = true →
  cf ≠ CFReplData ∨ ¬ sm_prefix s `prefix_of` k →
  ls_view (sm_store s') cf !! k = ls_view (sm_store s) cf !! k.
Proof.
  intros Hl Hw HU Hcf Hk. destruct es as [|e es]; [by injection HU as _ <-|].
  destruct (Update_run s Hl (e :: es) Hw)
    as (fz & seq & rs0 & u & tl & st & ? & ? & ? & ? & E & ? & Ht & F & Hv); [done|].
  rewrite E in HU. injection HU as -> <-. rewrite Hv by done.
  assert (Forall (λ op, op_CF op = CFReplData ∧ shardKey (sm_prefix s) (op_Key op)) (ops u ++ tl)) as Ho.
  { apply Forall_app. split.
    - destruct F as [(l & El & Hf) _ _ _ _ _]. simpl in El. by subst l.
    - eapply Forall_impl; [done|]. intros op Hop. split; [apply Hop|by apply tailOp_shardKey]. }
  clear -Ho Hk. generalize (ls_view (sm_store s) cf). induction Ho as [|op l [Hc Hp] _ IH]; intros m; [done|].
  cbn [apply_ops fold_left]. etransitivity; [apply IH|]. unfold apply_op.
  destruct (Z.eqb_spec (op_CF op) cf); [|done]. destruct Hk as [Hk|Hk]; [congruence|].
  destruct (op_Delete op); [rewrite lookup_delete_ne|rewrite lookup_insert_ne]; naive_solver.
Qed.

Lemma update_isolated_witness :
  match Update Samples.shard0 [mkEntry 2 (Samples.initCmd 5)] with
  | Ok (_, s') => ls_view (sm_store s') CFReplData !! put_u64 2 = None
  | Err e => False
  end.
Proof.
  assert (Samples.succeeded (Update Samples.shard0 [mkEntry 2 (Samples.initCmd 5)]) = true) as Hok
    by (vm_compute; reflexivity).
  destruct (Update Samples.shard0 [mkEntry 2 (Samples.initCmd 5)]) as [[rs s']|e] eqn:E.
  - rewrite (update_isolated Samples.shard0 s' [mkEntry 2 (Samples.initCmd 5)] rs CFReplData (put_u64 2)).
    + vm_compute. reflexivity.
    + reflexivity.
    + intros ns coll v _ Hv. vm_compute in Hv. discriminate Hv.
    + exact E.
    + reflexivity.
    + right. intros [k Hk]. vm_compute in Hk. discriminate Hk.
  - discriminate Hok.
Defined.

End ShardUpdate.
