(* ===== verification/BudgetSystem.v ===== *)
(** * Budgets of a whole shard

    The simulation of BudgetRefine lifted from single handlers to [Update]: every
    budget of the shard evolves by ledger steps, whatever commands of whatever
    collections are in the batch, and so every budget of every reachable shard
    keeps the ledger's invariants. *)

From S2P Require Import Prelude Bytes Strconv Storage Command Keys Ctx CtxLogic Budget Ledger.
From S2P Require Import BudgetRefine ShardSM Samples ShardFrame ShardUpdate.
From stdpp Require Import relations.

Local Open Scope Z_scope.
#[local] Set Default Proof Using "Type*".

Module BudgetSystem.
Import Storage Command Keys Ctx CtxLogic Budget Ledger BudgetRefine ShardSM Samples ShardFrame ShardUpdate.

(** ** Admissible entries *)

(** A command other than an initialisation beyond the cap limit and, unless [rec],
    other than a reconcile. *)
Definition cmd_cap (rec : bool) (b : bytes) : bool :=
  match decodeCommand b with
  | Ok c =>
      match Op c, Items c with
      | opBudInit, it :: _ => p_Cap (initPool (Key it)) <? cap_limit
      | opBudReconcile, _ => rec
      | _, _ => true
      end
  | Err _ => true
  end.

(** The commands inside an entry. *)
Definition entry_cmds (e : entry) : list bytes :=
  match decodeBatch (e_Cmd e) with Ok subs => subs | Err _ => [e_Cmd e] end.

(** Not a raw ingest or purge, and within the cap limit. *)
Definition entry_ok (rec : bool) (e : entry) : bool :=
  negb (isMigrate (e_Cmd e)) && forallb (cmd_cap rec) (e_Cmd e :: entry_cmds e).

Lemma cmd_cap_ok rec b c :
  cmd_cap rec b = true → decodeCommand b = Ok c → cap_ok c ∧ (Op c = opBudReconcile → rec = true).
Proof.
  unfold cmd_cap. intros Hb E. rewrite E in Hb. split.
  - intros Hop it Hit. rewrite Hop in Hb.
    destruct (Items c) as [|it' its]; [done|]. injection Hit as ->. by apply Z.ltb_lt.
  - intros Hop. by rewrite Hop in Hb.
Qed.

(** ** The ledgers of a shard *)

Definition ledgers := bytes * bytes → ledger.

Definition ledgers_at (p : bytes) (m : gmap bytes bytes) (Ls : ledgers) : Prop :=
  ∀ ns coll, nc_ok ns coll → ledger_at p m ns coll (Ls (ns, coll)) ∧ sane (Ls (ns, coll)).

Definition evolves (rec : bool) (Ls Ls' : ledgers) : Prop := ∀ x, rtc (lstep rec) (Ls x) (Ls' x).

Lemma evolves_trans rec Ls1 Ls2 Ls3 : evolves rec Ls1 Ls2 → evolves rec Ls2 Ls3 → evolves rec Ls1 Ls3.
Proof. intros H1 H2 x. etransitivity; [apply H1|apply H2]. Qed.

Lemma ledgers_at_agree p m m' Ls :
  (∀ k, budKey p k → m' !! k = m !! k) → ledgers_at p m Ls → ledgers_at p m' Ls.
Proof.
  intros E HL ns coll Hn. destruct (HL ns coll Hn). split; [|done].
  eapply ledger_at_agree; [|done]. intros sc r Hsc. apply E. by exists sc, ns, coll, r.
Qed.

Section system.
Context {S : Type} `{LocalStoreSpec S} `{FloatText} (s : baseSM S) (Hlive : ls_live (sm_store s)).
Local Abbreviation p_ := (sm_prefix s).

(** What a batch in progress keeps: the ledgers of the shard satisfy [I]. *)
Definition batch_inv (I : ledgers → Prop) (u : updateCtx) : Prop :=
  bcoh s u ∧ ∃ Ls, ledgers_at p_ (eff s u) Ls ∧ I Ls.

(** [I] is kept by the movements of the admissible commands. *)
Definition move_closed (rec : bool) (adm : command → Prop) (I : ledgers → Prop) : Prop :=
  ∀ c Ls L', adm c → cmd_ok c → I Ls → sane (Ls (NS c, Coll c)) → moved rec c (Ls (NS c, Coll c)) L' →
    I (λ x, if decide (x = (NS c, Coll c)) then L' else Ls x).

Lemma evolves_closed rec Ls0 : move_closed rec (λ _, True) (evolves rec Ls0).
Proof.
  intros c Ls L' _ _ He _ Hm x. etransitivity; [apply He|]. destruct (decide _) as [->|]; [|done].
  destruct Hm as [->|(m & Hm & _)]; [done|]. apply rtc_once. by exists m.
Qed.

Lemma batch_inv_off I K u u' :
  frame p_ K u u' → (∀ k, K k → ¬ budKey p_ k) → batch_inv I u → batch_inv I u'.
Proof.
  intros F HK [Hc (Ls & HL & He)]. split.
  - intros k Hk. eapply frame_tracked; [done| |by apply Hc]. intros Hk'. by eapply HK.
  - exists Ls. split; [|done]. eapply ledgers_at_agree; [|done]. intros k Hk.
    eapply frame_eff; [done|]. intros Hk'. by eapply HK.
Qed.

Lemma sim_bud rec c u L r u' :
  cmd_ok c → cap_ok c → (Op c = opBudReconcile → rec = true) → isBudOp (Op c) = true → sane L → at_ledger s (NS c) (Coll c) u L →
  applyBud s c u = (Ok r, u') →
  ∃ L', at_ledger s (NS c) (Coll c) u' L' ∧ sane L' ∧ moved rec c L L' ∧ answered c r L'.
Proof.
  intros Hc Hcap Hrec Hb Hs Hu. unfold applyBud.
  assert (wp (typeOf s (NS c) (Coll c)) u (λ r u', at_ledger s (NS c) (Coll c) u' L)) as Ht.
  { eapply (wp_off s Hlive _ _ (proj1 Hc) (λ k, k = typeKey p_ (NS c) (Coll c))); [|by intros k ->; eapply typeKey_not_budKey, Hc|done|auto].
    by apply msafe_typeOf. }
  unfold mbind, M_bind. unfold wp in Ht. destruct (typeOf s (NS c) (Coll c) u) as [[tp|] u1]; [|done].
  simpl in Ht. destruct (_ && _).
  { intros [= <- <-]. exists L. split_and!; [done..|by left|]. intros _. left. apply list_elem_of_In. simpl; auto 10. }
  intros E. unfold isBudOp in Hb. apply bool_decide_eq_true in Hb.
  assert (∀ m : M ProposeResult, Op c ≠ opBudGrant → wp m u1 (sim s rec c L) → m u1 = (Ok r, u') →
    ∃ L', at_ledger s (NS c) (Coll c) u' L' ∧ sane L' ∧ moved rec c L L' ∧ answered c r L') as Hw.
  { intros m Hop Hm Em. unfold wp in Hm. rewrite Em in Hm. destruct (Hm r eq_refl) as (L' & ? & ? & ?).
    exists L'. split_and!; [done..|]. by intros ?. }
  destruct (Op c) eqn:Hop; try done.
  2: { pose proof (wp_grant s Hlive rec c u1 L Hc Hs Ht) as Hg. unfold wp in Hg. rewrite E in Hg. by eapply grant_moved. }
  all: eapply Hw; [done| |exact E].
  - by apply sim_init.
  - by apply sim_report.
  - by apply sim_return.
  - by apply sim_expire.
  - by apply sim_tombGC.
  - rewrite (Hrec eq_refl). by apply sim_reconcile.
Qed.

Section closed.
Context (rec : bool) (adm : command → Prop) (I : ledgers → Prop) (Hclosed : move_closed rec adm I).

(** The commands of a byte string, if it decodes, are admissible. *)
Definition cmd_adm (b : bytes) : Prop := cmd_cap rec b = true ∧ ∀ c, decodeCommand b = Ok c → adm c.

(** An admissible command keeps the invariant, and a grant is answered truthfully. *)
Lemma dispatch_inv c d u r u' :
  cmd_ok c → cap_ok c → (Op c = opBudReconcile → rec = true) → adm c → batch_inv I u →
  dispatch s c d u = (Ok r, u') → batch_inv (λ Ls, I Ls ∧ answered c r (Ls (NS c, Coll c))) u'.
Proof.
  intros Hc Hcap Hrec Hadm Hi E. destruct (isBudOp (Op c)) eqn:Hb.
  2: { destruct (msafe_dispatch_elem s Hlive c d Hc Hb u) as [F _]. rewrite E in F.
    eapply batch_inv_off; [exact F|intros k Hk; by eapply elemCmdKey_offBudget; [apply Hc|]|].
    destruct Hi as [Hco (Ls & HL & HI)]. split; [done|]. exists Ls. split_and!; [done..|].
    intros Hop. rewrite Hop in Hb. done. }
  destruct (msafe_dispatch_bud s Hlive c d Hc Hb u) as [F _]. rewrite E in F. simpl in F.
  rewrite dispatch_bud in E by done. change (applyBud s c u = (Ok r, u')) in E.
  destruct Hi as [Hco (Ls & HL & HI)]. destruct (HL (NS c) (Coll c) (proj1 Hc)) as [Hl Hs].
  edestruct sim_bud as (L' & [Hco' Hl'] & Hs' & Hst & Hans); [done|done|done|done|exact Hs|by split|exact E|].
  split; [done|]. exists (λ x, if decide (x = (NS c, Coll c)) then L' else Ls x). split_and!.
  - intros ns coll Hn. destruct (decide _) as [[= -> ->]|Hne]; [done|].
    destruct (HL ns coll Hn). split; [|done]. eapply ledger_at_agree; [|done]. intros sc r' _.
    eapply frame_eff; [exact F|]. intros Hk. eapply budCmdKey_other; [apply Hc|exact Hn| |exact Hk|done].
    congruence.
  - by apply Hclosed.
  - by rewrite decide_True.
Qed.

Lemma batch_inv_mono I1 I2 u : (∀ Ls, I1 Ls → I2 Ls) → batch_inv I1 u → batch_inv I2 u.
Proof using Type. intros Hm [Hc (Ls & HL & HI)]. split; [done|]. exists Ls. auto. Qed.

Lemma applyOne_inv b fz u r u' :
  cmd_adm b → batch_inv I u → applyOne s b fz u = (Ok r, u') → batch_inv I u'.
Proof.
  intros [Hb Ha] Hi. unfold applyOne, lift. unfold mbind at 1, M_bind at 1.
  destruct (decodeCommand b) as [c|] eqn:Hd; [|done]. pose proof (cmd_cap_ok _ _ _ Hb Hd) as [Hcap Hrec].
  apply decodeCommand_ok in Hd as Hc. specialize (Ha c eq_refl).
  assert (∀ d u r, batch_inv I u → dispatch s c d u = (Ok r, u') → batch_inv I u') as Hdisp.
  { intros. eapply batch_inv_mono; [|by eapply dispatch_inv]. by intros ? []. }
  destruct (_ && _ && _); [by intros [= _ <-]|].
  destruct (_ && _); [|by apply Hdisp].
  unfold mbind, M_bind, gets. destruct (inBatchDedup u !! _); [by intros [= _ <-]|].
  destruct (dedupGet s (Idem c)) as [[o|]|]; [by intros [= _ <-]|by apply Hdisp|done].
Qed.

(** A single budget command without idempotency key. *)
Lemma single_inv b c fz u r u' :
  decodeCommand b = Ok c → Idem c = [] → cmd_adm b → batch_inv I u → applyOne s b fz u = (Ok r, u') →
  batch_inv (λ Ls, I Ls ∧ answered c r (Ls (NS c, Coll c))) u'.
Proof.
  intros Hd Hid [Hb Ha] Hi. unfold applyOne, lift. unfold mbind at 1, M_bind at 1. rewrite Hd.
  pose proof (cmd_cap_ok _ _ _ Hb Hd) as [Hcap Hrec]. apply decodeCommand_ok in Hd as Hc. specialize (Ha c Hd).
  rewrite Hid, andb_false_r. destruct (_ && _).
  - intros [= <- <-]. eapply batch_inv_mono; [|exact Hi]. intros Ls HI. split; [done|]. intros _. left.
    apply list_elem_of_In. simpl. auto 10.
  - by apply dispatch_inv.
Qed.

Lemma applySubs_inv subs acc fz u rs u' :
  Forall cmd_adm subs → batch_inv I u →
  mfold (λ rs sub, r ← applyOne s sub fz; mret (rs ++ [r])) acc subs u = (Ok rs, u') → batch_inv I u'.
Proof.
  revert acc u. induction subs as [|b subs IH]; intros acc u Hb Hi; [by intros [= _ <-]|].
  apply Forall_cons in Hb as [Hb Hbs]. simpl. unfold mbind, M_bind.
  destruct (applyOne s b fz u) as [[r|] u1] eqn:E; [|done]. simpl. apply IH; [done|].
  by eapply applyOne_inv.
Qed.

(** An entry that is not a raw migration, all of whose commands are admissible. *)
Definition entry_adm (e : entry) : Prop :=
  isMigrate (e_Cmd e) = false ∧ Forall cmd_adm (e_Cmd e :: entry_cmds e).

Lemma entry_inv e fz u r u' :
  entry_adm e → batch_inv I u → applyEntryBody s (e_Cmd e) fz u = (Ok r, u') → batch_inv I u'.
Proof.
  intros [Hm Hall] Hi E. apply Forall_cons in Hall as [Hb Hbs].
  destruct (msafe_entry_local s Hlive (e_Cmd e) fz Hm u) as [F _]. rewrite E in F. simpl in F.
  revert E. unfold applyEntryBody. destruct (decide (_ ∨ _)) as [Hx|].
  { exfalso. unfold isMigrate in Hm. destruct (head (e_Cmd e)); simpl in *; [|naive_solver].
    rewrite orb_false_iff, !bool_decide_eq_false in Hm. naive_solver. }
  destruct (decide (_ ∨ _)) as [Hf|].
  - unfold applyFreeze, lift, mbind, M_bind. destruct (decodePurge _) as [[a b]|]; [|done].
    destruct (e_Cmd e) as [|x l]; [done|].
    assert (∀ op, op_CF op = CFReplData → op_Key op = frozenKey p_ a →
      batch_inv I (addOp op u).2) as Hop.
    { intros op Ho Hk. eapply (batch_inv_off _ (offBudget p_)); [|by intros k []|done].
      apply msafe_addOp; [done|]. rewrite Hk. apply frozenKey_offBudget. }
    destruct (decide _); intros [= _ <-]; by apply Hop.
  - destruct (decide _) as [Hop|]; [|by apply applyOne_inv].
    unfold lift, mbind, M_bind. unfold entry_cmds in Hbs.
    destruct (decodeBatch (e_Cmd e)) as [subs|]; [|done].
    unfold applySubs. destruct (mfold _ _ _ u) as [[rs|] u1] eqn:E; [|done]. intros [= _ <-].
    by eapply applySubs_inv.
Qed.

End closed.

Lemma entry_ok_adm rec e : entry_ok rec e = true → entry_adm rec (λ _, True) e.
Proof using Type.
  unfold entry_ok. rewrite andb_true_iff, negb_true_iff, forallb_forall. intros [Hm Hb]. split; [done|].
  apply Forall_forall. intros b Hin%list_elem_of_In. split; [by apply Hb|done].
Qed.

(** ** Update *)

Lemma tail_off_budget tl :
  Forall (tailOp s) tl → Forall (λ op, ∀ k, budKey p_ k → op_Key op ≠ k) tl.
Proof.
  intros Ht. eapply Forall_impl; [exact Ht|].
  intros op (_ & _ & [->|[->|[(ns & coll & Hn & ->) _]]]) k Hk <-.
  - by apply sub_not_budKey in Hk.
  - by apply sub_not_budKey in Hk.
  - destruct Hk as (sc & ns' & coll' & r & Hsc & Hn' & E). rewrite cardKey_dkey in E.
    apply dkey_inj in E as (<- & _); [|done..]. destruct Hsc as [E|[E|E]]; discriminate E.
Qed.

Lemma batch_inv_start (I : ledgers → Prop) Ls seq :
  ledgers_at p_ (base s) Ls → I Ls → batch_inv I (set_dedupSeq seq emptyCtx).
Proof. intros HL HI. split; [by intros k _|]. by exists Ls. Qed.

(** A whole [Update], judged by its entries and their results. *)
Lemma Update_hist (I : list (entry * ProposeResult) → ledgers → Prop) Ls es rs s' :
  (∀ fz done e u r u1, es !! length done = Some e → batch_inv (I done) u → applyEntryBody s (e_Cmd e) fz u = (Ok r, u1) →
     batch_inv (I (done ++ [(e, r)])) u1) →
  (∀ done e Ls, es !! length done = Some e → I done Ls → I (done ++ [(e, mkResult 0 [])]) Ls) →
  cards_wf s (base s) → ledgers_at p_ (base s) Ls → I [] Ls →
  Update s es = Ok (rs, s') → ∃ Ls', ledgers_at p_ (base s') Ls' ∧ I (zip es rs) Ls'.
Proof.
  intros Hstep Hskip Hw HL HI HU. destruct es as [|e es].
  { injection HU as <- <-. by exists Ls. }
  destruct (Update_run s Hlive (e :: es) Hw)
    as (fz & seq & rs0 & u & tl & st & ? & ? & He & ? & E & ? & Ht & F & Hv); [done|].
  rewrite E in HU. injection HU as -> <-.
  assert (batch_inv (I ([] ++ zip (e :: es) rs)) u) as [_ (Ls' & HL' & HI')].
  { eapply (applyEntries_hist s Hlive (λ done, batch_inv (I done)) fz _ []); [done|done|by apply Hstep| | |exact He].
    - intros done e0 u0 Hin [Hc (Ls0 & HL0 & HI0)]. split; [done|]. exists Ls0. auto.
    - by eapply batch_inv_start. }
  exists Ls'. split; [|done]. eapply ledgers_at_agree; [|exact HL']. intros k Hk.
  unfold base; simpl. rewrite Hv by done. rewrite apply_ops_app. apply apply_ops_lookup_ne.
  eapply Forall_impl; [by apply tail_off_budget|]. intros op Hop. by apply Hop.
Qed.

Lemma Update_ledgers rec Ls es rs s' :
  cards_wf s (base s) → forallb (entry_ok rec) es = true → ledgers_at p_ (base s) Ls →
  Update s es = Ok (rs, s') → ∃ Ls', ledgers_at p_ (base s') Ls' ∧ evolves rec Ls Ls'.
Proof.
  intros Hw Hok HL HU. apply (Update_hist (λ _, evolves rec Ls) Ls es rs s'); [|done|done|done|by intros x|done].
  intros fz done e u r u1 Hin Hi Hb. eapply entry_inv; [by apply evolves_closed| |exact Hi|exact Hb].
  apply entry_ok_adm. rewrite forallb_forall in Hok. apply Hok, list_elem_of_In. by eapply list_elem_of_lookup_2.
Qed.

(** The element counters stay intact. *)
Lemma Update_cards rec es rs s' :
  cards_wf s (base s) → forallb (entry_ok rec) es = true → Update s es = Ok (rs, s') →
  cards_wf s (base s').
Proof.
  intros Hw Hok HU. destruct es as [|e es]; [by injection HU as _ <-|].
  destruct (Update_run s Hlive (e :: es) Hw)
    as (fz & seq & rs0 & u & tl & st & ? & ? & He & ? & E & ? & Ht & _ & Hv); [done|].
  rewrite E in HU. injection HU as -> <-.
  assert (cards_wf s (eff s u)) as Hu.
  { eapply (applyEntries_inv s Hlive (λ u, cards_wf s (eff s u))); [| |exact He].
    - intros e0 u0 r u1 Hin Hi Hb ns coll v Hn Hv'.
      rewrite forallb_forall in Hok. apply list_elem_of_In, Hok in Hin. apply andb_true_iff in Hin as [Hm _].
      apply negb_true_iff in Hm. destruct (msafe_entry_local s Hlive (e_Cmd e0) fz Hm u0) as [F _].
      rewrite Hb in F. erewrite (frame_eff s p_ _ u0 u1) in Hv'; [by eapply Hi|exact F|].
      intros Hk. by eapply entryKey_not_card in Hk.
    - exact Hw. }
  unfold base; simpl. rewrite Hv by done. rewrite apply_ops_app.
  clear -Ht Hu. change (apply_ops CFReplData (ops u) (ls_view (sm_store s) CFReplData)) with (eff s u).
  revert Hu. generalize (eff s u). induction Ht as [|op l (Hc & Hdel & Hk) Hl IH]; intros m Hm; [done|].
  apply (IH (apply_op CFReplData m op)). unfold apply_op. rewrite Hc, Hdel. simpl.
  intros ns coll v Hn. destruct (decide (op_Key op = cardKey p_ ns coll)) as [Ek|Ek].
  2: { rewrite lookup_insert_ne by done. by apply Hm. }
  rewrite Ek, lookup_insert_eq. intros [= <-]. destruct Hk as [Hk|[Hk|[_ Hk]]]; [| |done].
  - rewrite Ek, cardKey_dkey in Hk. apply (f_equal (sub_of p_)) in Hk.
    unfold dedupSeqKey in Hk. rewrite sub_of_dkey in Hk. cbn [app] in Hk. by rewrite sub_of_app in Hk.
  - rewrite Ek, cardKey_dkey in Hk. apply (f_equal (sub_of p_)) in Hk.
    unfold appliedKey in Hk. rewrite sub_of_dkey in Hk. cbn [app] in Hk. by rewrite sub_of_app in Hk.
Qed.

End system.

(** ** Runs of a shard *)

Fixpoint runBatches {S} `{LocalStore S} `{FloatText} (s : baseSM S) (bs : list (list entry))
    : gres (baseSM S) :=
  match bs with
  | [] => Ok s
  | b :: bs' => do? (_, s') ← Update s b; runBatches s' bs'
  end.

(** A shard that has stored nothing yet. *)
Definition fresh {S} `{LocalStoreSpec S} (s : baseSM S) : Prop :=
  ∀ k, sm_prefix s `prefix_of` k → base s !! k = None.

Lemma fresh_cards {S} `{LocalStoreSpec S} `{FloatText} (s : baseSM S) : fresh s → cards_wf s (base s).
Proof.
  intros Hf ns coll v _ Hv. rewrite Hf in Hv; [done|]. rewrite cardKey_dkey. by apply prefix_app_r.
Qed.

Lemma fresh_ledgers {S} `{LocalStoreSpec S} (s : baseSM S) :
  fresh s → ledgers_at (sm_prefix s) (base s) (λ _, empty_ledger).
Proof.
  intros Hf ns coll Hn. split; [|apply sane_empty].
  split; intros; rewrite Hf by (autorewrite with keys; by apply prefix_app_r); done.
Qed.

Lemma runBatches_ledgers {S} `{LocalStoreSpec S} `{FloatText} rec (s : baseSM S) bs Ls :
  ls_live (sm_store s) → cards_wf s (base s) → ledgers_at (sm_prefix s) (base s) Ls →
  forallb (forallb (entry_ok rec)) bs = true →
  ∃ s' Ls', runBatches s bs = Ok s' ∧ ls_live (sm_store s') ∧ sm_prefix s' = sm_prefix s ∧
    ledgers_at (sm_prefix s) (base s') Ls' ∧ evolves rec Ls Ls'.
Proof.
  revert s Ls. induction bs as [|b bs IH]; intros s Ls Hl Hw HL Hok.
  { exists s, Ls. split_and!; try done. by intros x. }
  simpl in Hok. apply andb_true_iff in Hok as [Hb Hbs]. cbn [runBatches].
  destruct b as [|e b].
  { destruct (IH s Ls) as (s' & Ls' & ?); [done..|]. by exists s', Ls'. }
  destruct (Update_run s Hl (e :: b) Hw) as (fz & seq & rs & u & tl & st & ? & ? & ? & ? & E & ? & _); [done|].
  destruct (Update_ledgers s Hl rec Ls _ _ _ Hw Hb HL E) as (Ls1 & HL1 & Hev).
  pose proof (Update_cards s Hl rec _ _ _ Hw Hb E) as Hw1. rewrite E. cbn [res_bind].
  destruct (IH (with_store s st) Ls1) as (s' & Ls' & ? & ? & ? & ? & ?); [done..|].
  exists s', Ls'. split_and!; try done. by eapply evolves_trans.
Qed.

Definition statOf (p : option poolRec) : BudStat :=
  match p with
  | None => mkBudStat false 0 0 0 0 0 0 x00
  | Some p => mkBudStat true (p_Cap p) (p_Available p) (p_LeasedOut p) (p_Spent p)
                (p_SpentReported p) (p_Epoch p) (p_Mode p)
  end.

Lemma Lookup_budStat {S} `{LocalStoreSpec S} (s : baseSM S) ns coll L :
  ls_live (sm_store s) → ledger_at (sm_prefix s) (base s) ns coll L →
  Lookup s (budStatQuery ns coll) = Ok (ABudStat (statOf (lg_pool L))).
Proof.
  intros Hl [Hp _ _]. destruct (ls_Snapshot_ok (sm_store s)) as (sn & E & Hv); [done|].
  unfold Lookup. rewrite E. simpl. unfold lookupBudStat. rewrite sn_Get_ok, Hv by done.
  fold (base s). destruct (base s !! _), (lg_pool L); simpl in *; try done. by rewrite Hp.
Qed.

Lemma Lookup_budCheck {S} `{LocalStoreSpec S} (s : baseSM S) ns coll L p :
  ls_live (sm_store s) → ledger_at (sm_prefix s) (base s) ns coll L → lg_pool L = Some p →
  Lookup s (budCheckQuery ns coll) =
    Ok (ABudCheck (mkBudCheck true (pool_check p) (p_Cap p) (p_Available p) (p_LeasedOut p) (p_Spent p)
          (p_SpentReported p))).
Proof.
  intros Hl [Hp _ _] E0. destruct (ls_Snapshot_ok (sm_store s)) as (sn & E & Hv); [done|].
  unfold Lookup. rewrite E. simpl. unfold lookupBudCheck. rewrite sn_Get_ok, Hv by done.
  fold (base s). rewrite E0 in Hp. destruct (base s !! _); simpl in *; try done. by rewrite Hp.
Qed.

(** ** Properties *)

(** C1: the money a budget can still give out. After any sequence of batches of any commands
    applied to a fresh shard (raw migration apart; caps below 2^62), the budget of
    every collection is in a state the ledger can reach, and its statistics show:
    no negative bucket, leasedOut equal to the unspent money of the outstanding
    leases, each lease spent within its amount, attested spend within booked spend,
    and available + leasedOut + attested spend within the cap. Spend that a reconcile
    books without attestation is outside that bound: booked spend may exceed it. *)
Theorem budget_money_safety {S} `{LocalStoreSpec S} `{FloatText} (s : baseSM S)
    (bs : list (list entry)) (ns coll : bytes) :
  ls_live (sm_store s) → fresh s → forallb (forallb (entry_ok true)) bs = true → nc_ok ns coll →
  ∃ s' L st, runBatches s bs = Ok s' ∧
    ledger_at (sm_prefix s) (base s') ns coll L ∧ rtc (lstep true) empty_ledger L ∧
    Lookup s' (budStatQuery ns coll) = Ok (ABudStat st) ∧
    (bs_Exists st = true →
       0 ≤ bs_Available st ∧ 0 ≤ bs_LeasedOut st ∧ bs_LeasedOut st = held (lg_leases L) ∧
       (∀ id l, lg_leases L !! id = Some l → 0 ≤ l_Spent l ≤ l_Amount l) ∧
       0 ≤ bs_SpentReported st ≤ bs_Spent st ∧
       bs_Available st + bs_LeasedOut st + bs_SpentReported st ≤ bs_Cap st).
Proof.
  intros Hl Hf Hok Hn.
  destruct (runBatches_ledgers true s bs _ Hl (fresh_cards s Hf) (fresh_ledgers s Hf) Hok)
    as (s' & Ls & Hr & Hl' & Hp & HL & Hev).
  destruct (HL ns coll Hn) as [Hla _]. exists s', (Ls (ns, coll)), (statOf (lg_pool (Ls (ns, coll)))).
  split_and!; [done|done|apply Hev|by apply Lookup_budStat; [|rewrite Hp]|].
  destruct (lg_pool (Ls (ns, coll))) as [p|] eqn:Ep; [|done]. intros _. simpl.
  destruct (ledger_money_safe true _ p (Hev (ns, coll)) Ep) as (? & ? & [] & ? & ? & ?).
  split_and!; done.
Qed.

(** C14: the conservation probe holds: when no external reconcile is applied, the
    budget check of every existing budget of every reachable shard reports OK,
    that is available + leasedOut + spent = cap with no negative bucket. *)
Theorem budget_conservation {S} `{LocalStoreSpec S} `{FloatText} (s : baseSM S)
    (bs : list (list entry)) (ns coll : bytes) :
  ls_live (sm_store s) → fresh s → forallb (forallb (entry_ok false)) bs = true → nc_ok ns coll →
  ∃ s' st, runBatches s bs = Ok s' ∧ Lookup s' (budStatQuery ns coll) = Ok (ABudStat st) ∧
    (bs_Exists st = true →
       ∃ bc, Lookup s' (budCheckQuery ns coll) = Ok (ABudCheck bc) ∧ bc_OK bc = true ∧
             bc_Available bc + bc_LeasedOut bc + bc_Spent bc = bc_Cap bc).
Proof.
  intros Hl Hf Hok Hn.
  destruct (runBatches_ledgers false s bs _ Hl (fresh_cards s Hf) (fresh_ledgers s Hf) Hok)
    as (s' & Ls & Hr & Hl' & Hp & HL & Hev).
  destruct (HL ns coll Hn) as [Hla Hsane]. exists s', (statOf (lg_pool (Ls (ns, coll)))).
  split_and!; [done|by apply Lookup_budStat; [|rewrite Hp]|].
  destruct (lg_pool (Ls (ns, coll))) as [p|] eqn:Ep; [|done]. intros _. simpl.
  eexists. split; [eapply Lookup_budCheck; [done|by rewrite Hp|done]|]. simpl.
  destruct (ledger_conservation _ p (Hev (ns, coll)) Ep) as [Hc Hs].
  destruct (ledger_money_safe false _ p (Hev (ns, coll)) Ep) as (? & ? & [] & _).
  split; [|done]. destruct (sn_pool _ Hsane p Ep) as [_ Hcap]. unfold cap_limit in Hcap.
  unfold pool_check. rewrite (int64_id (p_Available p + _)), int64_id by zlia.
  rewrite !andb_true_iff, Z.eqb_eq, !Z.leb_le. lia.
Qed.


Lemma shard0_fresh : fresh shard0.
Proof.
  intros k Hk. unfold base. simpl. replace (cfs_at _ CFReplData) with (∅ : gmap bytes bytes)
    by (by vm_compute). apply lookup_empty.
Qed.

Lemma budget_money_safety_witness :
  ∃ s', runBatches shard0 [one (initCmd 100); one (grantCmd lease0 60 5 0); one (reportCmd lease0 20)]
        = Ok s' ∧
    ∃ st, Lookup s' (budStatQuery ns0 coll0) = Ok (ABudStat st) ∧
          (bs_Exists st = true →
           bs_Available st + bs_LeasedOut st + bs_SpentReported st ≤ bs_Cap st).
Proof.
  destruct (budget_money_safety shard0
    [one (initCmd 100); one (grantCmd lease0 60 5 0); one (reportCmd lease0 20)] ns0 coll0)
    as (s' & L & st & Hr & _ & _ & Hlk & Hst); [done|apply shard0_fresh|by vm_compute|by vm_compute|].
  exists s'. split; [exact Hr|]. exists st. split; [exact Hlk|]. intros E. apply Hst, E.
Defined.

Lemma budget_conservation_witness :
  ∃ s', runBatches shard0 [one (initCmd 100); one (grantCmd lease0 60 5 0); one (returnCmd lease0)]
        = Ok s' ∧
    ∃ st, Lookup s' (budStatQuery ns0 coll0) = Ok (ABudStat st).
Proof.
  destruct (budget_conservation shard0
    [one (initCmd 100); one (grantCmd lease0 60 5 0); one (returnCmd lease0)] ns0 coll0)
    as (s' & st & Hr & Hlk & _); [done|apply shard0_fresh|by vm_compute|by vm_compute|].
  exists s'. split; [exact Hr|]. exists st. exact Hlk.
Defined.

(** after a reconcile books a spend that does not fit beside the outstanding
    leases, conservation is lost for good: cap 100, all of it leased, reconcile to
    50; when the lease is then returned unspent nothing is outstanding any more,
    yet available 100 + spent 50 exceeds the cap and the budget check fails. *)
Theorem reconcile_overcommit_persists :
  match runBatches shard0 [one (initCmd 100); one (grantCmd lease0 100 5 0); one (reconcileCmd 50);
                           one (returnCmd lease0)] with
  | Ok s' =>
      Lookup s' (budCheckQuery ns0 coll0) =
        Ok (ABudCheck (mkBudCheck true false 100 100 0 50 0))
  | Err _ => False
  end.
Proof. vm_compute. reflexivity. Qed.

End BudgetSystem.
