(* ===== verification/Elements.v ===== *)
(** * Sets, hashes and sorted sets

    The shape of a collection's keys (a set or hash has one row per element, a
    sorted set one index row and one pointer row per member) and the coherence of
    the batch overlays with it. Every command keeps both, so the element counter
    flushed at the end of a batch is the number of elements. *)

From S2P Require Import Prelude Bytes Strconv Storage Command Keys Ctx CtxLogic Budget Ledger.
From S2P Require Import BudgetRefine ShardSM Samples ShardFrame ShardUpdate.

Local Open Scope Z_scope.
#[local] Set Default Proof Using "Type*".

Module Elements.
Import Storage Command Keys Ctx CtxLogic Budget BudgetRefine ShardSM ShardFrame ShardUpdate.

(** ** Shapes *)

(** The type a header row records; an absent or empty header is no type. *)
Definition hdtype (o : option bytes) : byte :=
  match o with Some (t :: _) => t | _ => typeNone end.

Section shape.
Context (p : bytes) (m : gmap bytes bytes) (ns coll : bytes).

Definition tyOf : byte := hdtype (m !! typeKey p ns coll).
Definition elems : gmap bytes bytes := under (elemPrefix p ns coll) m.

(** Pointer and index rows of a sorted set correspond. *)
Record zset_ok : Prop := {
  zo_ptr : ∀ mem raw, m !! zptrKey p ns coll mem = Some raw →
    ∃ f, in_u64 f ∧ raw = put_u64 f ∧ is_Some (m !! zscoreKey p ns coll f mem);
  zo_elem : ∀ r, is_Some (m !! elemKey p ns coll r) →
    ∃ f mem, in_u64 f ∧ r = sortableScore f ++ mem ∧ m !! zptrKey p ns coll mem = Some (put_u64 f);
}.

Record shape : Prop := {
  sh_zset : tyOf = typeZSet → zset_ok;
  sh_zptr : tyOf ≠ typeZSet → ∀ mem, m !! zptrKey p ns coll mem = None;
  sh_elem : tyOf ≠ typeSet → tyOf ≠ typeHash → tyOf ≠ typeZSet → ∀ r, m !! elemKey p ns coll r = None;
  sh_ttl : tyOf ≠ typeSet → ∀ mem, m !! ttlPtrKey p ns coll mem = None;
  sh_ttl8 : ∀ mem v, m !! ttlPtrKey p ns coll mem = Some v → lenZ v = 8;
  sh_hdr : ∀ l, m !! typeKey p ns coll ≠ Some (typeNone :: l);
}.

End shape.

(** The scopes the shape of a collection depends on. *)
Definition shapeScope (sc : byte) : Prop := sc = scopeElem ∨ sc = scopeZPtr ∨ sc = scopeType.

Lemma lookup_elems p m ns coll r : elems p m ns coll !! r = m !! elemKey p ns coll r.
Proof. unfold elems. by rewrite lookup_under. Qed.

Lemma zscoreKey_elemKey p ns coll f mem :
  zscoreKey p ns coll f mem = elemKey p ns coll (sortableScore f ++ mem).
Proof. done. Qed.

Section coh.
Context {S : Type} `{LocalStoreSpec S} (s : baseSM S).
Local Abbreviation p_ := (sm_prefix s).

(** ** Coherence of the overlays at one collection *)

Record coh (u : updateCtx) (ns coll : bytes) : Prop := {
  co_base : shape p_ (base s) ns coll;
  co_shape : shape p_ (eff s u) ns coll;
  co_type : tyOf p_ (eff s u) ns coll =
    match htype u !! collScope p_ ns coll with
    | Some t => t | None => tyOf p_ (base s) ns coll end;
  co_htype : htype u !! collScope p_ ns coll ≠ Some typeNone;
  co_mono : tyOf p_ (base s) ns coll ≠ typeNone →
    tyOf p_ (eff s u) ns coll = tyOf p_ (base s) ns coll;
  co_elem : tyOf p_ (eff s u) ns coll ≠ typeZSet → ∀ r,
    bool_decide (is_Some (eff s u !! elemKey p_ ns coll r)) =
      match exists_ u !! elemKey p_ ns coll r with
      | Some b => b | None => bool_decide (is_Some (base s !! elemKey p_ ns coll r)) end;
  co_zptr : ∀ mem, eff s u !! zptrKey p_ ns coll mem =
    match zscore u !! zptrKey p_ ns coll mem with
    | Some o => put_u64 <$> o | None => base s !! zptrKey p_ ns coll mem end;
  co_score : ∀ mem f, zscore u !! zptrKey p_ ns coll mem = Some (Some f) → in_u64 f;
  co_vals : tyOf p_ (eff s u) ns coll ≠ typeSet → tyOf p_ (eff s u) ns coll ≠ typeZSet → ∀ r,
    tracked s u (elemKey p_ ns coll r);
  co_card : default 0 (cardDelta u !! cardKey p_ ns coll) =
    int64 (Z.of_nat (size (elems p_ (eff s u) ns coll)) - Z.of_nat (size (elems p_ (base s) ns coll)));
}.

Context (ns coll : bytes) (Hnc : nc_ok ns coll).

Local Ltac keys_ne :=
  repeat match goal with x := _ |- _ => subst x end; autorewrite with keys;
  let E := fresh in intros E; apply dkey_inj in E as (? & ? & ? & ?); done || congruence.

(** Writes elsewhere keep coherence. *)
Lemma coh_frame K u u' :
  frame p_ K u u' →
  (∀ k sc r, K k → shapeScope sc → k ≠ dkey p_ sc ns coll r) →
  (tyOf p_ (eff s u) ns coll = typeSet ∧
     (∀ mem v, eff s u' !! ttlPtrKey p_ ns coll mem = Some v → lenZ v = 8) ∨
   ∀ mem, ¬ K (ttlPtrKey p_ ns coll mem)) →
  coh u ns coll → coh u' ns coll ∧ tyOf p_ (eff s u') ns coll = tyOf p_ (eff s u) ns coll.
Proof.
  intros F HK Httl [Hb Hsh Ht Hht Hm He Hz Hu Hv Hc].
  assert (∀ sc r, shapeScope sc → ¬ K (dkey p_ sc ns coll r)) as HK'
    by (intros sc r Hsc Hk; by eapply HK).
  assert (∀ sc r, shapeScope sc → eff s u' !! dkey p_ sc ns coll r = eff s u !! dkey p_ sc ns coll r) as E
    by (intros; eapply frame_eff; [done|by apply HK']).
  assert (∀ r, eff s u' !! elemKey p_ ns coll r = eff s u !! elemKey p_ ns coll r) as Ee
    by (intros; rewrite elemKey_dkey; apply E; by left).
  assert (∀ r, eff s u' !! zptrKey p_ ns coll r = eff s u !! zptrKey p_ ns coll r) as Ez
    by (intros; rewrite zptrKey_dkey; apply E; by right; left).
  assert (tyOf p_ (eff s u') ns coll = tyOf p_ (eff s u) ns coll) as Ety
    by (unfold tyOf; rewrite typeKey_dkey, E; [done|by right; right]).
  split; [|done]. split; rewrite ?Ety; try done.
  - destruct Hsh as [S1 S2 S3 S4 S5 S6]. split; rewrite ?Ety.
    + intros Hty. destruct (S1 Hty) as [Z1 Z2]. split.
      * intros mem raw. rewrite Ez. intros Hp. destruct (Z1 _ _ Hp) as (f & ? & ? & ?). exists f.
        rewrite zscoreKey_elemKey, Ee. by split_and!.
      * intros r. rewrite Ee. intros Hr. destruct (Z2 _ Hr) as (f & mem & ? & ? & ?). exists f, mem.
        rewrite Ez. by split_and!.
    + intros. rewrite Ez. by apply S2.
    + intros. rewrite Ee. by apply S3.
    + intros Hne mem. destruct Httl as [[? _]|Hno]; [done|]. rewrite <-(S4 Hne mem). by eapply frame_eff.
    + intros mem v. destruct Httl as [[_ Hv8]|Hno]; [by apply Hv8|]. erewrite frame_eff; [apply S5|done|done].
    + intros l. rewrite typeKey_dkey, E by (by right; right). rewrite <-typeKey_dkey. apply S6.
  - rewrite Ht. erewrite (fr_htype _ _ _ _ F); [done|]. fold (typeKey p_ ns coll).
    rewrite typeKey_dkey. apply HK'. by right; right.
  - erewrite (fr_htype _ _ _ _ F); [done|]. fold (typeKey p_ ns coll).
    rewrite typeKey_dkey. apply HK'. by right; right.
  - intros Hne r. rewrite Ee, He by done. erewrite (fr_exists _ _ _ _ F); [done|].
    rewrite elemKey_dkey. apply HK'. by left.
  - intros mem. rewrite Ez, Hz. erewrite (fr_zscore _ _ _ _ F); [done|].
    rewrite zptrKey_dkey. apply HK'. by right; left.
  - intros mem f. erewrite (fr_zscore _ _ _ _ F); [apply Hu|].
    rewrite zptrKey_dkey. apply HK'. by right; left.
  - intros Hs Hzs r. eapply frame_tracked; [done| |by apply Hv]. rewrite elemKey_dkey. apply HK'. by left.
  - assert (elems p_ (eff s u') ns coll = elems p_ (eff s u) ns coll) as ->.
    { apply under_ext. intros r. apply Ee. }
    rewrite <-Hc. destruct (fr_card _ _ _ _ F (cardKey p_ ns coll)) as [->|(ns' & coll' & Hn' & Ek & HKe)]; [done|].
    exfalso. rewrite !cardKey_dkey in Ek. apply dkey_inj in Ek as (_ & <- & <- & _); [|done..].
    rewrite elemPrefix_dkey in HKe. eapply HK'; [|exact HKe]. by left.
Qed.

(** ** Changing one element of a set or hash *)

Definition upd (k : bytes) (ov : option bytes) (m : gmap bytes bytes) : gmap bytes bytes :=
  match ov with Some v => <[k := v]> m | None => delete k m end.
Definition bit (b : bool) : Z := if b then 1 else 0.

Lemma lookup_upd (k : bytes) (ov : option bytes) (m : gmap bytes bytes) (k' : bytes) : upd k ov m !! k' = if decide (k' = k) then ov else m !! k'.
Proof.
  destruct ov; simpl; case_decide; subst;
    by rewrite ?lookup_insert_eq, ?lookup_delete_eq, ?lookup_insert_ne, ?lookup_delete_ne.
Qed.

Lemma size_upd (k : bytes) (ov : option bytes) (m : gmap bytes bytes) :
  Z.of_nat (size (upd k ov m)) =
    Z.of_nat (size m) + bit (bool_decide (is_Some ov)) - bit (bool_decide (is_Some (m !! k))).
Proof.
  destruct ov as [v|]; simpl.
  - destruct (m !! k) eqn:E; simpl.
    + rewrite map_size_insert_Some by eauto. lia.
    + rewrite map_size_insert_None by done. lia.
  - destruct (m !! k) as [w|] eqn:E; simpl.
    + pose proof (map_size_insert_None k w (delete k m) (lookup_delete_eq m k)) as Hs.
      rewrite insert_delete_id in Hs by done. lia.
    + rewrite delete_id by done. lia.
Qed.

Lemma elems_upd (m : gmap bytes bytes) (r : bytes) (ov : option bytes) : elems p_ (upd (elemKey p_ ns coll r) ov m) ns coll = upd r ov (elems p_ m ns coll).
Proof. destruct ov; [apply under_insert|apply under_delete]. Qed.

Lemma card_step a b n : int64 (int64 (a - b) + n) = int64 (a + n - b).
Proof. Transparent int64. unfold int64. Opaque int64. divlia. Qed.

Lemma coh_elem_upd u u' (r : bytes) (ov : option bytes) :
  coh u ns coll →
  tyOf p_ (eff s u) ns coll = typeSet ∨ tyOf p_ (eff s u) ns coll = typeHash →
  let ek := elemKey p_ ns coll r in
  eff s u' = upd ek ov (eff s u) → exists_ u' = <[ek := bool_decide (is_Some ov)]> (exists_ u) →
  zscore u' = zscore u → htype u' = htype u →
  (tyOf p_ (eff s u) ns coll = typeHash → vals u' !! ek = Some ov) →
  (∀ k, k ≠ ek → vals u' !! k = vals u !! k) →
  default 0 (cardDelta u' !! cardKey p_ ns coll) =
    int64 (default 0 (cardDelta u !! cardKey p_ ns coll) +
      (bit (bool_decide (is_Some ov)) - bit (bool_decide (is_Some (eff s u !! ek))))) →
  coh u' ns coll ∧ tyOf p_ (eff s u') ns coll = tyOf p_ (eff s u) ns coll.
Proof.
  intros [Hb Hsh Ht Hht Hm He Hz Hu Hv Hc] Hty ek Eeff Eex Ezs Eht Evk Ev Ecard.
  assert (∀ k, k ≠ ek → eff s u' !! k = eff s u !! k) as Eo.
  { intros k Hk. rewrite Eeff, lookup_upd, decide_False by done. done. }
  assert (typeKey p_ ns coll ≠ ek) as N1 by keys_ne.
  assert (∀ mem, zptrKey p_ ns coll mem ≠ ek) as N2 by (intros mem; keys_ne).
  assert (∀ mem, ttlPtrKey p_ ns coll mem ≠ ek) as N3 by (intros mem; keys_ne).
  assert (∀ r', r' ≠ r → elemKey p_ ns coll r' ≠ ek) as N4 by (intros r' ?; keys_ne).
  assert (tyOf p_ (eff s u') ns coll = tyOf p_ (eff s u) ns coll) as Ety by (unfold tyOf; by rewrite Eo).
  assert (tyOf p_ (eff s u) ns coll ≠ typeZSet) as Hnz by (by destruct Hty as [->| ->]).
  split; [|done]. split; rewrite ?Ety; try done.
  - destruct Hsh as [S1 S2 S3 S4 S5 S6]. split; rewrite ?Ety; try done.
    + intros _ mem. rewrite Eo by done. by apply S2.
    + intros; destruct Hty; done.
    + intros ? mem. rewrite Eo by done. by apply S4.
    + intros mem v. rewrite Eo by done. apply S5.
    + intros l. rewrite Eo by done. apply S6.
  - by rewrite Eht.
  - by rewrite Eht.
  - intros _ r'. rewrite Eex. destruct (decide (r' = r)) as [->|].
    + rewrite Eeff, lookup_upd, decide_True by done. by rewrite lookup_insert_eq.
    + rewrite Eo, lookup_insert_ne by (auto || apply not_eq_sym; auto). by apply He.
  - intros mem. rewrite Eo, Ezs by done. apply Hz.
  - intros mem f. rewrite Ezs. apply Hu.
  - intros Hs Hzs r'. destruct Hty as [?|Hh]; [done|]. unfold tracked.
    destruct (decide (r' = r)) as [->|].
    + rewrite Eeff, lookup_upd, decide_True by done. fold ek. by rewrite Evk.
    + rewrite Eo, Ev by auto. by apply Hv.
  - rewrite Ecard, Hc, Eeff. unfold ek. rewrite elems_upd, size_upd, lookup_elems, card_step. f_equal. lia.
Qed.

(** ** Changing one member of a sorted set *)

Lemma score_app_inj f g a b :
  in_u64 f → in_u64 g → sortableScore f ++ a = sortableScore g ++ b → f = g ∧ a = b.
Proof.
  intros Hf Hg E. apply app_inj_1 in E as [E ->]; [|by rewrite !length_sortableScore].
  by apply sortableScore_inj in E.
Qed.

Lemma Some_put_inj f g : in_u64 f → in_u64 g → Some (put_u64 f) = Some (put_u64 g) → f = g.
Proof. intros Hf Hg E. apply (inj Some) in E. by apply put_u64_inj. Qed.

(** The rows of a sorted set after the score of [mem] changed from [old] to [new]. *)
Definition rescore (mem : bytes) (old new : option Z) (m : gmap bytes bytes) : gmap bytes bytes :=
  let m := match old with Some o => delete (zscoreKey p_ ns coll o mem) m | None => m end in
  match new with
  | Some f => <[zptrKey p_ ns coll mem := put_u64 f]> (<[zscoreKey p_ ns coll f mem := []]> m)
  | None => delete (zptrKey p_ ns coll mem) m
  end.

Lemma lookup_rescore_other mem (old new : option Z) m k :
  (∀ f, k ≠ zscoreKey p_ ns coll f mem) → k ≠ zptrKey p_ ns coll mem →
  rescore mem old new m !! k = m !! k.
Proof.
  intros H1 H2. unfold rescore. destruct old, new;
    rewrite ?lookup_insert_ne, ?lookup_delete_ne by done;
    rewrite ?lookup_insert_ne, ?lookup_delete_ne by done; done.
Qed.

Lemma lookup_rescore_ptr mem (old new : option Z) m mem' :
  rescore mem old new m !! zptrKey p_ ns coll mem' =
    if decide (mem' = mem) then
      match new with Some f => Some (put_u64 f) | None => None end
    else m !! zptrKey p_ ns coll mem'.
Proof.
  assert (∀ f, zscoreKey p_ ns coll f mem ≠ zptrKey p_ ns coll mem') as N1 by (intros; keys_ne).
  unfold rescore. case_decide as E; [subst|].
  - destruct new; by rewrite ?lookup_insert_eq, ?lookup_delete_eq.
  - assert (zptrKey p_ ns coll mem ≠ zptrKey p_ ns coll mem') as N2 by keys_ne.
    destruct old, new; rewrite ?lookup_insert_ne, ?lookup_delete_ne by done;
      rewrite ?lookup_insert_ne, ?lookup_delete_ne by done; done.
Qed.

Lemma elems_rescore mem (old new : option Z) m :
  elems p_ (rescore mem old new m) ns coll =
    let E := match old with Some o => delete (sortableScore o ++ mem) (elems p_ m ns coll)
             | None => elems p_ m ns coll end in
    match new with Some f => <[sortableScore f ++ mem := []]> E | None => E end.
Proof.
  assert (∀ r, zptrKey p_ ns coll mem ≠ elemKey p_ ns coll r) as N by (intros; keys_ne).
  assert (∀ v m, elems p_ (<[zptrKey p_ ns coll mem := v]> m) ns coll = elems p_ m ns coll) as E1.
  { intros. apply under_ext. intros r. apply lookup_insert_ne, N. }
  assert (∀ m, elems p_ (delete (zptrKey p_ ns coll mem) m) ns coll = elems p_ m ns coll) as E2.
  { intros. apply under_ext. intros r. apply lookup_delete_ne, N. }
  unfold rescore. destruct old, new; rewrite ?E1, ?E2, ?zscoreKey_elemKey; unfold elems, elemKey;
    rewrite ?under_insert, ?under_delete; done.
Qed.

Lemma zset_rescore m mem (old new : option Z) :
  zset_ok p_ m ns coll → m !! zptrKey p_ ns coll mem = put_u64 <$> old →
  (∀ o, old = Some o → in_u64 o) → (∀ f, new = Some f → in_u64 f) →
  zset_ok p_ (rescore mem old new m) ns coll ∧
  Z.of_nat (size (elems p_ (rescore mem old new m) ns coll)) =
    Z.of_nat (size (elems p_ m ns coll)) + bit (bool_decide (is_Some new)) - bit (bool_decide (is_Some old)).
Proof.
  intros [Z1 Z2] Hold Hio Hin. set (m' := rescore mem old new m).
  assert (∀ r, is_Some (m' !! elemKey p_ ns coll r) ↔
    (∃ f, new = Some f ∧ r = sortableScore f ++ mem) ∨
    (is_Some (m !! elemKey p_ ns coll r) ∧ ∀ o, old = Some o → r ≠ sortableScore o ++ mem)) as He.
  { intros r. rewrite <-lookup_elems. unfold m'. rewrite elems_rescore. cbv zeta.
    rewrite <-(lookup_elems p_ m).
    set (E := elems p_ m ns coll). destruct new as [f|], old as [o|];
      rewrite ?lookup_insert, ?lookup_delete; clearbody E; clear; repeat case_decide; subst;
      timeout 20 naive_solver. }
  split; [split|].
  - intros mem' raw. unfold m'. rewrite lookup_rescore_ptr. fold m'. case_decide as Hm.
    + destruct new as [f|]; [|done]. intros E. apply (inj Some) in E as <-.
      exists f. split_and!; [by apply Hin|done|]. rewrite zscoreKey_elemKey. apply He. left. subst. eauto.
    + intros Hp. destruct (Z1 _ _ Hp) as (f & Hf & -> & Hs). exists f. split_and!; [done|done|].
      rewrite zscoreKey_elemKey in *. apply He. right. split; [done|]. intros o Ho E.
      apply score_app_inj in E as [_ ?]; [done|done|by apply Hio].
  - intros r Hr. apply He in Hr as [(f & Hf & ->)|[Hr Hno]].
    + exists f, mem. split_and!; [by apply Hin|done|]. unfold m'. rewrite lookup_rescore_ptr.
      rewrite decide_True by done. by rewrite Hf.
    + destruct (Z2 _ Hr) as (f & mem' & Hf & -> & Hp). exists f, mem'. split_and!; [done|done|].
      unfold m'. rewrite lookup_rescore_ptr. case_decide as Hm; [|done]. subst mem'.
      rewrite Hold in Hp. destruct old as [o|]; [|done].
      apply Some_put_inj in Hp as ->; [|by apply Hio|done]. by destruct (Hno f).
  - unfold m'. rewrite elems_rescore. cbv zeta. set (E := elems p_ m ns coll).
    assert (∀ o, old = Some o → is_Some (E !! (sortableScore o ++ mem))) as Hino.
    { intros o ->. destruct (Z1 mem (put_u64 o)) as (f & Hf & Ef & Hs); [done|].
      apply put_u64_inj in Ef as ->; [|by apply Hio|done]. unfold E. by rewrite lookup_elems. }
    assert (∀ f, new = Some f → (match old with Some o => delete (sortableScore o ++ mem) E | None => E end)
      !! (sortableScore f ++ mem) = None) as Hnew.
    { intros f Hf. destruct (match old with Some o => _ | None => _ end !! _) as [v|] eqn:Ev; [|done]. exfalso.
      assert (is_Some (m !! elemKey p_ ns coll (sortableScore f ++ mem)) ∧
        (∀ o, old = Some o → sortableScore f ++ mem ≠ sortableScore o ++ mem)) as [Hr Hno].
      { rewrite <-(lookup_elems p_ m). fold E. destruct old as [o|]; [|by rewrite Ev; split].
        apply lookup_delete_Some in Ev as [Hne Ev]. rewrite Ev. split; [done|]. intros ? [= <-]. by apply not_eq_sym. }
      destruct (Z2 _ Hr) as (g & mem' & Hg & Er & Hp). apply score_app_inj in Er as [<- <-]; [|by apply Hin|done].
      rewrite Hold in Hp. destruct old as [o|]; [|done].
      apply Some_put_inj in Hp as ->; [|by apply Hio|done]. by apply (Hno f). }
    destruct old as [o|].
    + destruct (Hino o eq_refl) as [w Hw]. pose proof (size_upd (sortableScore o ++ mem) None E) as Hd.
      rewrite Hw in Hd. simpl in Hd. destruct new as [f|]; simpl; [|lia].
      rewrite map_size_insert_None by (by apply Hnew). simpl in *. lia.
    + destruct new as [f|]; simpl; [|lia]. rewrite map_size_insert_None by (by apply Hnew). lia.
Qed.

Lemma coh_rescore u u' mem (old new : option Z) :
  coh u ns coll → tyOf p_ (eff s u) ns coll = typeZSet →
  let pk := zptrKey p_ ns coll mem in
  eff s u !! pk = put_u64 <$> old → (∀ o, old = Some o → in_u64 o) → (∀ f, new = Some f → in_u64 f) →
  eff s u' = rescore mem old new (eff s u) → zscore u' = <[pk := new]> (zscore u) →
  exists_ u' = exists_ u → htype u' = htype u → vals u' = vals u →
  default 0 (cardDelta u' !! cardKey p_ ns coll) =
    int64 (default 0 (cardDelta u !! cardKey p_ ns coll) +
      (bit (bool_decide (is_Some new)) - bit (bool_decide (is_Some old)))) →
  coh u' ns coll ∧ tyOf p_ (eff s u') ns coll = tyOf p_ (eff s u) ns coll.
Proof.
  intros [Hb Hsh Ht Hht Hm He Hz Hu Hv Hc] Hty pk Hold Hio Hin Eeff Ezs Eex Eht Ev Ecard.
  assert (tyOf p_ (eff s u') ns coll = tyOf p_ (eff s u) ns coll) as Ety.
  { unfold tyOf. rewrite Eeff, lookup_rescore_other; [done| |]; [intros f|]; keys_ne. }
  destruct Hsh as [S1 S2 S3 S4 S5 S6]. destruct (zset_rescore _ _ _ new (S1 Hty) Hold Hio Hin) as [Z Hsz].
  split; [|done]. split; rewrite ?Ety; try done.
  - split; rewrite ?Ety; try done.
    + intros _. by rewrite Eeff.
    + intros Hne mem'. rewrite Eeff, lookup_rescore_other; [by apply S4|intros f|]; keys_ne.
    + intros mem' v. rewrite Eeff, lookup_rescore_other; [apply S5|intros f|]; keys_ne.
    + intros l. rewrite Eeff, lookup_rescore_other; [apply S6|intros f|]; keys_ne.
  - by rewrite Eht.
  - by rewrite Eht.
  - intros mem'. rewrite Eeff, lookup_rescore_ptr, Ezs. case_decide as E.
    + subst mem'. fold pk. rewrite lookup_insert_eq. by destruct new.
    + rewrite lookup_insert_ne by keys_ne. apply Hz.
  - intros mem' f. rewrite Ezs. destruct (decide (mem' = mem)) as [->|].
    + fold pk. rewrite lookup_insert_eq. intros E. apply Hin. congruence.
    + rewrite lookup_insert_ne by keys_ne. apply Hu.
  - rewrite Ecard, Hc, Eeff, Hsz, card_step. f_equal. lia.
Qed.

(** ** Giving a collection its type *)

Lemma coh_settype u u' want :
  want ≠ typeNone → coh u ns coll → tyOf p_ (eff s u) ns coll = typeNone →
  eff s u' = <[typeKey p_ ns coll := [want]]> (eff s u) →
  htype u' = <[collScope p_ ns coll := want]> (htype u) →
  exists_ u' = exists_ u → zscore u' = zscore u → vals u' = vals u → cardDelta u' = cardDelta u →
  coh u' ns coll ∧ tyOf p_ (eff s u') ns coll = want.
Proof.
  intros Hwant [Hb [S1 S2 S3 S4 S5 S6] Ht Hht Hm He Hz Hu Hv Hc] Hty Eeff Eht Eex Ezs Ev Ecard.
  assert (tyOf p_ (eff s u') ns coll = want) as Ety by (unfold tyOf; by rewrite Eeff, lookup_insert_eq).
  assert (∀ r, eff s u' !! elemKey p_ ns coll r = eff s u !! elemKey p_ ns coll r) as Ee
    by (intros; rewrite Eeff; apply lookup_insert_ne; keys_ne).
  assert (∀ r, eff s u' !! zptrKey p_ ns coll r = eff s u !! zptrKey p_ ns coll r) as Ez
    by (intros; rewrite Eeff; apply lookup_insert_ne; keys_ne).
  assert (∀ r, eff s u' !! ttlPtrKey p_ ns coll r = eff s u !! ttlPtrKey p_ ns coll r) as Et
    by (intros; rewrite Eeff; apply lookup_insert_ne; keys_ne).
  assert (∀ r, eff s u !! elemKey p_ ns coll r = None) as Ne by (apply S3; by rewrite Hty).
  assert (∀ r, eff s u !! zptrKey p_ ns coll r = None) as Nz by (apply S2; by rewrite Hty).
  split; [|done]. split; try done.
  - split; try (intros; rewrite ?Ee, ?Ez, ?Et; by auto).
    + intros _. split; [intros mem raw|intros r]; rewrite ?Ee, ?Ez, ?Ne, ?Nz; [done|by intros []].
    + intros _ mem. rewrite Et. apply S4. by rewrite Hty.
    + intros mem v. rewrite Et. apply S5.
    + intros l. rewrite Eeff, lookup_insert_eq. congruence.
  - by rewrite Ety, Eht, lookup_insert_eq.
  - rewrite Eht, lookup_insert_eq. congruence.
  - intros Hb0. by rewrite Hm in Hty.
  - intros _ r. rewrite Ee, Eex. apply He. by rewrite Hty.
  - intros mem. rewrite Ez, Ezs. apply Hz.
  - intros mem f. by rewrite Ezs; apply Hu.
  - intros _ _ r. unfold tracked. rewrite Ee, Ev. apply Hv; by rewrite Hty.
  - assert (elems p_ (eff s u') ns coll = elems p_ (eff s u) ns coll) as -> by (apply under_ext, Ee).
    by rewrite Ecard, Hc.
Qed.

(** Remembering the stored type changes nothing. *)
Lemma coh_cachetype u t :
  t ≠ typeNone → coh u ns coll → htype u !! collScope p_ ns coll = None → tyOf p_ (base s) ns coll = t →
  coh (putHtype (collScope p_ ns coll) t u).2 ns coll.
Proof.
  intros Hne [Hb Hsh Ht Hht Hm He Hz Hu Hv Hc] Hn Hty. rewrite Hn in Ht. split; try done.
  all: change (htype (putHtype _ t u).2) with (<[collScope p_ ns coll := t]> (htype u)).
  all: rewrite lookup_insert_eq; first [congruence|by rewrite <-Hty].
Qed.

Lemma wp_typeOf_coh u (Q : gres byte → updateCtx → Prop) :
  ls_live (sm_store s) → coh u ns coll →
  (∀ u', coh u' ns coll → eff s u' = eff s u → Q (Ok (tyOf p_ (eff s u) ns coll)) u') →
  wp (typeOf s ns coll) u Q.
Proof.
  intros Hl Hu HQ. pose proof (co_type _ _ _ Hu) as Ht. unfold typeOf. cbv zeta. apply wp_bind.
  unfold wp at 1, gets; simpl. destruct (htype u !! _) as [t|] eqn:Eh.
  { rewrite Ht in HQ. by apply wp_ret, HQ. }
  apply wp_bind, wp_lift. rewrite getData_live by done. rewrite Ht in HQ. unfold tyOf, hdtype in HQ.
  destruct (base s !! typeKey p_ ns coll) as [[|t l]|] eqn:Eb; try (by apply wp_ret, HQ).
  apply wp_bind. unfold wp at 1. cbn [fst]. apply wp_ret, HQ; [|done].
  apply coh_cachetype; [|done|done|unfold tyOf; by rewrite Eb].
  intros ->. by eapply (sh_hdr _ _ _ _ (co_base _ _ _ Hu)).
Qed.

Lemma wp_ensureType_coh u want (Q : gres bool → updateCtx → Prop) :
  ls_live (sm_store s) → want ≠ typeNone → coh u ns coll →
  (∀ u' b, coh u' ns coll →
     (if b : bool then tyOf p_ (eff s u') ns coll = want
      else (tyOf p_ (eff s u) ns coll ≠ want ∧ tyOf p_ (eff s u) ns coll ≠ typeNone) ∧
           eff s u' = eff s u) →
     (b = true → tyOf p_ (eff s u) ns coll = want ∨ tyOf p_ (eff s u) ns coll = typeNone) →
     (∀ k, k ≠ typeKey p_ ns coll → eff s u' !! k = eff s u !! k) → Q (Ok b) u') →
  wp (ensureType s ns coll want) u Q.
Proof.
  intros Hl Hwant Hu HQ. pose proof (co_type _ _ _ Hu) as Ht. unfold ensureType. cbv zeta. apply wp_bind.
  unfold wp at 1, gets; simpl. destruct (htype u !! _) as [t|] eqn:Eh.
  { assert (t ≠ typeNone) by (intros ->; by apply (co_htype _ _ _ Hu)).
    apply wp_ret, HQ; [done| | |done]; case_bool_decide; rewrite Ht; naive_solver. }
  apply wp_bind, wp_lift. rewrite getData_live by done. unfold tyOf at 2, hdtype in Ht.
  destruct (base s !! typeKey p_ ns coll) as [[|t l]|] eqn:Eb.
  2: { assert (t ≠ typeNone) by (intros ->; by eapply (sh_hdr _ _ _ _ (co_base _ _ _ Hu))).
    apply wp_bind. unfold wp at 1. cbn [fst]. apply wp_ret, HQ; [| | |done].
    - apply coh_cachetype; [done|done|done|]. unfold tyOf. by rewrite Eb.
    - case_bool_decide as Et; [by rewrite <-Et, <-Ht|by rewrite Ht].
    - rewrite Ht. case_bool_decide; naive_solver. }
  all: apply wp_bind; unfold wp at 1; cbn [fst]; apply wp_bind; unfold wp at 1; cbn [fst].
  all: edestruct (coh_settype u) as [H1 H2]; [exact Hwant|exact Hu|exact Ht| | | | | | |apply wp_ret, HQ;
    [exact H1|done|by right|]]; try done.
  all: try (unfold eff; simpl; by rewrite apply_ops_app).
  all: intros k Hk; unfold eff; simpl; rewrite apply_ops_app; by apply lookup_insert_ne.
Qed.

End coh.

(** ** Handlers that keep coherence whatever the context *)

Section handlers.
Context {S : Type} `{LocalStoreSpec S} `{FloatText} (s : baseSM S) (Hlive : ls_live (sm_store s)).
Local Abbreviation p_ := (sm_prefix s).

Definition mcoh {A} (ns coll : bytes) (m : M A) : Prop := ∀ u, coh s u ns coll → coh s (m u).2 ns coll.

(** Keys that are no part of a collection's shape. *)
Definition offShape (ns coll k : bytes) : Prop :=
  ∀ sc r, shapeScope sc ∨ sc = scopeTTLPtr → k ≠ dkey p_ sc ns coll r.

Section one.
Context (ns coll : bytes) (Hnc : nc_ok ns coll).

Lemma mcoh_frame {A} (m : M A) : msafe p_ (offShape ns coll) m → mcoh ns coll m.
Proof.
  intros Hm u Hu. destruct (Hm u) as [F _]. eapply coh_frame; [done|exact F| | |exact Hu].
  - intros k sc r Hk Hsc. apply Hk. by left.
  - right. intros mem Hk. eapply Hk; [by right|]. apply ttlPtrKey_dkey.
Qed.

Lemma mcoh_bind {A B} (m : M A) (f : A → M B) :
  mcoh ns coll m → (∀ a, mcoh ns coll (f a)) → mcoh ns coll (m ≫= f).
Proof using Type.
  intros Hm Hf u Hu. specialize (Hm u Hu). unfold mbind, M_bind.
  destruct (m u) as [[a|e] u']; [by apply Hf|done].
Qed.

Lemma mcoh_typeOf : mcoh ns coll (typeOf s ns coll).
Proof.
  intros u Hu. apply (wp_typeOf_coh s ns coll Hnc u (λ _ u', coh s u' ns coll) Hlive Hu). auto.
Qed.
Lemma mcoh_ensureType want : want ≠ typeNone → mcoh ns coll (ensureType s ns coll want).
Proof.
  intros Hw u Hu. apply (wp_ensureType_coh s ns coll Hnc u want (λ _ u', coh s u' ns coll) Hlive Hw Hu). auto.
Qed.

Lemma offShape_sub sub r : sub ≠ subData → offShape ns coll (p_ ++ sub :: r).
Proof.
  intros Hs sc r' _ E. apply (f_equal (sub_of p_)) in E. rewrite sub_of_dkey, sub_of_app in E. naive_solver.
Qed.
Lemma offShape_other sc ns' coll' r :
  nc_ok ns' coll' → (ns', coll') ≠ (ns, coll) → offShape ns coll (dkey p_ sc ns' coll' r).
Proof. intros Hn Hne sc' r' _ E. apply dkey_inj in E as (_ & <- & <- & _); done. Qed.
Lemma offShape_bud sc r : budScope sc → offShape ns coll (dkey p_ sc ns coll r).
Proof.
  intros Hb sc' r' Hsc E. apply dkey_inj in E as (<- & _); [|done..].
  destruct Hb as [->|[->| ->]], Hsc as [[E|[E|E]]|E]; discriminate E.
Qed.

Lemma mcoh_recordDedup c r : mcoh ns coll (recordDedup s c r).
Proof.
  apply mcoh_frame. unfold recordDedup. msafe_auto. apply msafe_dedupRecord; [done|intros..].
  all: by apply offShape_sub.
Qed.
Lemma mcoh_ret {A} (a : A) : mcoh ns coll (mret a : M A).
Proof using Type. by intros u Hu. Qed.

End one.

(** *** Budget commands *)

Section bud.
Context (c : command) (Hnc : nc_ok (NS c) (Coll c)).
Local Abbreviation K := (offShape (NS c) (Coll c)).

Local Ltac key := autorewrite with keys;
  first [apply offShape_bud; [done|unfold budScope; auto] | by apply offShape_sub].
Lemma O_pool : K (budPoolKey p_ (NS c) (Coll c)). Proof. key. Qed.
Lemma O_lease m : K (budLeaseKey p_ (NS c) (Coll c) m). Proof. key. Qed.
Lemma O_tomb m : K (budTombKey p_ (NS c) (Coll c) m). Proof. key. Qed.
Lemma O_exp t m : K (budExpKey p_ t (NS c) (Coll c) m). Proof. key. Qed.
Lemma O_gc t m : K (budTombGCKey p_ t (NS c) (Coll c) m). Proof. key. Qed.

Local Hint Resolve O_pool O_lease O_tomb O_exp O_gc decodePool_nonfatal decodeLease_nonfatal
  decodeTomb_nonfatal msafe_fieldVal : msafe.

Lemma off_getPool : msafe p_ K (getPool s (NS c) (Coll c)).
Proof. unfold getPool. msafe_auto. Qed.
Lemma off_getLease id : msafe p_ K (getLease s (NS c) (Coll c) id).
Proof. unfold getLease. msafe_auto. Qed.
Lemma off_getTomb id : msafe p_ K (getTomb s (NS c) (Coll c) id).
Proof. unfold getTomb. msafe_auto. Qed.
Local Hint Resolve off_getPool off_getLease off_getTomb : msafe.

Local Ltac bud := unfold setPool, setLease, delLease, setTomb, delTomb, setBudExp, delBudExp,
  setBudTombGC, delBudTombGC; msafe_auto.

Lemma mcoh_init : mcoh (NS c) (Coll c) (applyBudInit s c).
Proof.
  unfold applyBudInit. repeat (case_match; try (apply mcoh_frame; [done|]; by msafe_auto)).
  apply mcoh_bind; [apply mcoh_frame; [done|apply off_getPool]|]. intros [p|]; [apply mcoh_ret|].
  apply mcoh_bind; [by apply mcoh_ensureType|]. intros ok. apply mcoh_frame; [done|]. bud.
Qed.

Lemma mcoh_applyBud : mcoh (NS c) (Coll c) (applyBud s c).
Proof.
  unfold applyBud. apply mcoh_bind; [by apply mcoh_typeOf|]. intros tp. case_match; [apply mcoh_ret|].
  case_match; try apply mcoh_init; (apply mcoh_frame; [done|]);
    unfold applyBudGrant, applyBudReport, applyBudReturn, applyBudExpire, applyBudTombGC, applyBudReconcile; bud.
Qed.

End bud.

End handlers.

(** ** The contents of a collection and the meaning of one item *)

(** Members or fields with their values; for a sorted set, members with scores. *)
Definition content (p : bytes) (ty : byte) (m : gmap bytes bytes) (ns coll : bytes) : gmap bytes bytes :=
  if decide (ty = typeZSet) then under (zptrKey p ns coll []) m else elems p m ns coll.

(** What one item of a command does to the contents of a collection of type [ty],
    with the change it counts; [exp] is the element's stored expiry. *)
Definition itemSpec (ty : byte) (exp : option Z) (op : opKind) (it : item) (m : gmap bytes bytes)
    : gmap bytes bytes * Z :=
  let new := if decide (m !! Key it = None) then 1 else 0 in
  let drop := (delete (Key it) m, 1 - new) in
  match op with
  | opSAdd => (if decide (m !! Key it = None) then <[Key it := []]> m else m, new)
  | opHSet => (<[Key it := Val it]> m, new)
  | opZAdd => (<[Key it := put_u64 (Score it)]> m, new)
  | opSRem | opHDel | opZRem => drop
  | opExpire => match exp with
                | Some e => if uint64 (ExpiryMs it) <? e then (m, 0) else drop
                | None => (m, 0)
                end
  | opRemove => if decide (ty = typeSet ∨ ty = typeHash ∨ ty = typeZSet) then drop else (m, 0)
  | _ => (m, 0)
  end.

(** All items of a command, with the number of changes. *)
Fixpoint itemsSpec (ty : byte) (exp : bytes → option Z) (op : opKind) (its : list item)
    (m : gmap bytes bytes) : gmap bytes bytes * Z :=
  match its with
  | [] => (m, 0)
  | it :: its' =>
      let '(m1, d) := itemSpec ty (exp (Key it)) op it m in
      let '(m2, n) := itemsSpec ty exp op its' m1 in
      (m2, d + n)
  end.

(** [ok m u Q]: the handler succeeds, with an outcome in [Q]. *)
Definition ok {A} (m : M A) (u : updateCtx) (Q : A → updateCtx → Prop) : Prop :=
  ∃ a, (m u).1 = Ok a ∧ Q a (m u).2.

Lemma ok_ret {A} (a : A) u (Q : A → updateCtx → Prop) : Q a u → ok (mret a) u Q.
Proof. by exists a. Qed.
Lemma ok_gets {A} (f : updateCtx → A) u (Q : A → updateCtx → Prop) : Q (f u) u → ok (gets f) u Q.
Proof. by exists (f u). Qed.
Lemma ok_modify f u (Q : () → updateCtx → Prop) : Q () (f u) → ok (modify f) u Q.
Proof. by exists (). Qed.
Lemma ok_bind {A B} (f : A → M B) (m : M A) u (Q : B → updateCtx → Prop) :
  ok m u (λ a u', ok (f a) u' Q) → ok (m ≫= f) u Q.
Proof.
  unfold ok, mbind, M_bind. intros (a & Ha & b & Hb & HQ). exists b.
  destruct (m u) as [r u']. simpl in *. by subst r.
Qed.
Lemma ok_mono {A} (m : M A) u (Q Q' : A → updateCtx → Prop) :
  ok m u Q → (∀ a u', Q a u' → Q' a u') → ok m u Q'.
Proof. intros (a & Ha & HQ) HQ'. exists a. auto. Qed.
Lemma ok_lift {A} (r : gres A) a u (Q : A → updateCtx → Prop) : r = Ok a → Q a u → ok (lift r) u Q.
Proof. intros -> HQ. by exists a. Qed.
Lemma ok_wp {A} (m : M A) u (Q : A → updateCtx → Prop) :
  wp m u (λ r u', ∃ a, r = Ok a ∧ Q a u') → ok m u Q.
Proof. done. Qed.
Lemma ok_ext {A} (m m' : M A) u (Q : A → updateCtx → Prop) : m u = m' u → ok m' u Q → ok m u Q.
Proof. unfold ok. by intros ->. Qed.
Lemma ok_run {A} (m : M A) u (Q : A → updateCtx → Prop) a u' : m u = (Ok a, u') → ok m u Q → Q a u'.
Proof. intros E (a' & Ha & HQ). rewrite E in *. simpl in *. by injection Ha as <-. Qed.

Section own.
Context {S : Type} `{LocalStoreSpec S} `{FloatText} (s : baseSM S) (Hlive : ls_live (sm_store s)).
Local Abbreviation p_ := (sm_prefix s).
Context (ns coll : bytes) (Hnc : nc_ok ns coll).

Local Abbreviation ty u := (tyOf p_ (eff s u) ns coll).
Local Abbreviation cont u := (content p_ (tyOf p_ (eff s u) ns coll) (eff s u) ns coll).

(** The same collection, with contents [m]. *)
Definition become (u : updateCtx) (m : gmap bytes bytes) (u' : updateCtx) : Prop :=
  coh s u' ns coll ∧ ty u' = ty u ∧ cont u' = m.

Lemma become_refl u : coh s u ns coll → become u (cont u) u.
Proof. done. Qed.
Lemma become_trans u1 u2 u3 m m' : become u1 m u2 → become u2 m' u3 → become u1 m' u3.
Proof. intros (_ & E & _) (Hc & E' & Em). split_and!; [done|by rewrite E'|done]. Qed.

Lemma content_elems t m : t ≠ typeZSet → content p_ t m ns coll = elems p_ m ns coll.
Proof. intros. unfold content. by rewrite decide_False. Qed.

Lemma lookup_zcontent m mem : content p_ typeZSet m ns coll !! mem = m !! zptrKey p_ ns coll mem.
Proof.
  unfold content. rewrite decide_True by done. rewrite lookup_under. f_equal. unfold zptrKey.
  by rewrite <-app_assoc.
Qed.

Lemma coh_card_id u : coh s u ns coll →
  int64 (default 0 (cardDelta u !! cardKey p_ ns coll) + 0) = default 0 (cardDelta u !! cardKey p_ ns coll).
Proof.
  intros Hu. rewrite (co_card _ _ _ _ Hu), card_step. f_equal. lia.
Qed.

Lemma become_frame K u u' :
  coh s u ns coll → frame p_ K u u' → (∀ k sc r, K k → shapeScope sc → k ≠ dkey p_ sc ns coll r) →
  (ty u = typeSet ∧ (∀ mem v, eff s u' !! ttlPtrKey p_ ns coll mem = Some v → lenZ v = 8) ∨
   ∀ mem, ¬ K (ttlPtrKey p_ ns coll mem)) → become u (cont u) u'.
Proof.
  intros Hu F HK Ht. destruct (coh_frame s ns coll Hnc K u u') as [Hc E]; [done..|].
  split_and!; [done|done|]. rewrite E. unfold content. case_decide; apply under_ext; intros r.
  - eapply frame_eff; [done|]. intros Hk. eapply (HK _ scopeZPtr r); [done|by right; left|].
    change (zptrKey p_ ns coll [] ++ r) with ((collScope p_ ns coll ++ [scopeZPtr]) ++ r).
    rewrite <-app_assoc. apply collScope_dkey.
  - eapply frame_eff; [done|]. intros Hk. eapply (HK _ scopeElem r); [done|by left|].
    apply (elemKey_dkey p_ ns coll r).
Qed.

Lemma become_offShape {A} (m : M A) u :
  coh s u ns coll → msafe p_ (offShape s ns coll) m → become u (cont u) (m u).2.
Proof.
  intros Hu Hm. destruct (Hm u) as [F _]. eapply become_frame; [done|exact F| |].
  - intros k sc r Hk Hsc. apply Hk. by left.
  - right. intros mem Hk. eapply Hk; [by right|]. apply ttlPtrKey_dkey.
Qed.

(** *** Reads *)

Lemma ok_elemExists u r (Q : bool → updateCtx → Prop) :
  coh s u ns coll → ty u ≠ typeZSet →
  Q (bool_decide (is_Some (eff s u !! elemKey p_ ns coll r))) u → ok (elemExists s (elemKey p_ ns coll r)) u Q.
Proof.
  intros Hu Ht HQ. rewrite (co_elem _ _ _ _ Hu) in HQ by done. unfold elemExists.
  apply ok_bind, ok_gets. destruct (exists_ u !! _) as [b|]; [by apply ok_ret|].
  eapply ok_bind, ok_lift; [by apply getData_live|]. by apply ok_ret.
Qed.

Lemma ok_zScore u mem (Q : option Z → updateCtx → Prop) :
  coh s u ns coll →
  (∀ old, eff s u !! zptrKey p_ ns coll mem = put_u64 <$> old → (∀ o, old = Some o → in_u64 o) → Q old u) →
  ok (zScore s ns coll mem) u Q.
Proof.
  intros Hu HQ. pose proof (co_zptr _ _ _ _ Hu mem) as Hz. unfold zScore. cbv zeta.
  apply ok_bind, ok_gets. destruct (zscore u !! _) as [o|] eqn:Ez.
  { apply ok_ret, HQ; [done|]. intros f ->. by eapply co_score. }
  eapply ok_bind, ok_lift; [by apply getData_live|].
  destruct (base s !! zptrKey p_ ns coll mem) as [raw|] eqn:Eb; [|by apply ok_ret, HQ].
  assert (∃ f, in_u64 f ∧ raw = put_u64 f) as (f & Hf & ->).
  { destruct (co_base _ _ _ _ Hu) as [S1 S2 _ _ _ _]. destruct (decide (tyOf p_ (base s) ns coll = typeZSet)) as [E|E].
    - destruct (zo_ptr _ _ _ _ (S1 E) _ _ Eb) as (f & ? & ? & _). eauto.
    - by rewrite S2 in Eb. }
  assert (get_u64 (put_u64 f) = f) as E by (rewrite <-(app_nil_r (put_u64 f)); by apply get_put_u64).
  eapply ok_bind, (ok_lift _ f). { unfold float64FromBits. rewrite lenZ_put_u64. simpl. by rewrite E. }
  apply ok_ret, HQ; [done|]. by intros ? [= <-].
Qed.

(** *** TTL bookkeeping *)

Local Abbreviation KT := (λ mem k, k = ttlPtrKey p_ ns coll mem ∨ ∃ t, k = ttlIndexKey p_ t ns coll mem).

Lemma KT_off mem k sc r : KT mem k → shapeScope sc → k ≠ dkey p_ sc ns coll r.
Proof.
  intros [->|[t ->]] Hsc; autorewrite with keys; intros E.
  - apply dkey_inj in E as (<- & _); [|done..]. destruct Hsc as [E|[E|E]]; discriminate E.
  - symmetry in E. by apply dkey_ikey_ne in E.
Qed.

Lemma ttl_is_set u mem v : coh s u ns coll → base s !! ttlPtrKey p_ ns coll mem = Some v → ty u = typeSet.
Proof.
  intros Hu Hv. destruct (decide (tyOf p_ (base s) ns coll = typeSet)) as [E|E].
  - rewrite (co_mono _ _ _ _ Hu); [done|by rewrite E].
  - by rewrite (sh_ttl _ _ _ _ (co_base _ _ _ _ Hu)) in Hv.
Qed.

(** The expiry the store holds for a member. *)
Definition storedExp (mem : bytes) : option Z := get_u64 <$> base s !! ttlPtrKey p_ ns coll mem.

Lemma ttlExpiryOf_coh u mem : coh s u ns coll → ttlExpiryOf s ns coll mem = Ok (storedExp mem).
Proof.
  intros Hu. unfold ttlExpiryOf, storedExp. rewrite getData_live by done. simpl.
  destruct (base s !! ttlPtrKey p_ ns coll mem) as [v|] eqn:Ev; [|done].
  by rewrite (sh_ttl8 _ _ _ _ (co_base _ _ _ _ Hu) _ _ Ev).
Qed.

(** Index rows and pointer rows of a TTL do not touch the shape. *)
Lemma become_ttl u u' mem l :
  coh s u ns coll → ty u = typeSet → ops u' = ops u ++ l →
  Forall (λ op, op_CF op = CFReplData ∧ KT mem (op_Key op) ∧
    (op_Delete op = true ∨ lenZ (op_Value op) = 8 ∨ ∃ t, op_Key op = ttlIndexKey p_ t ns coll mem)) l →
  vals u' = vals u → exists_ u' = exists_ u → zscore u' = zscore u → htype u' = htype u →
  cardDelta u' = cardDelta u → become u (cont u) u'.
Proof.
  intros Hu Ht Eo Hl Ev Ee Ez Eh Ec. apply (become_frame (KT mem)); [done| |apply KT_off|left; split; [done|]].
  - split; rewrite ?Ev, ?Ee, ?Ez, ?Eh, ?Ec; auto. exists l. split; [done|].
    eapply Forall_impl; [exact Hl|]. by intros op (? & ? & _).
  - unfold eff. rewrite Eo, apply_ops_app. fold (eff s u).
    pose proof (sh_ttl8 _ _ _ _ (co_shape _ _ _ _ Hu)) as H8. revert H8. generalize (eff s u).
    clear -Hl. induction Hl as [|op l (Hcf & _ & Hop) Hl IH]; intros m H8; [done|].
    apply (IH (apply_op CFReplData m op)). intros mem' v. unfold apply_op. rewrite Hcf. cbn [Z.eqb].
    destruct (decide (op_Key op = ttlPtrKey p_ ns coll mem')) as [E|E].
    + destruct (op_Delete op) eqn:Ed; simpl; rewrite E; [by rewrite lookup_delete_eq|].
      rewrite lookup_insert_eq. intros [= <-]. destruct Hop as [?|[?|[t E']]]; [done|done|].
      exfalso. rewrite E', ttlIndexKey_ikey, ttlPtrKey_dkey in E. symmetry in E. by apply dkey_ikey_ne in E.
    + destruct (op_Delete op); simpl; [rewrite lookup_delete_ne by done|rewrite lookup_insert_ne by done]; apply H8.
Qed.

Lemma ok_setTTL u mem e :
  coh s u ns coll → ty u = typeSet → ok (setTTL s ns coll mem e) u (λ _ u', become u (cont u) u').
Proof.
  intros Hu Ht. unfold setTTL. cbv zeta. eapply ok_bind, ok_lift; [by eapply ttlExpiryOf_coh|].
  destruct (storedExp mem) as [old|]; repeat first [apply ok_bind | apply ok_modify | apply ok_ret];
    (eapply become_ttl; [done|done|cbn [ops]; rewrite <-?app_assoc; reflexivity| |done..]);
    repeat apply Forall_cons_2; try apply Forall_nil_2; (split_and!; [done|simpl; eauto|simpl]);
    eauto using lenZ_put_u64.
Qed.

Lemma ok_clearTTL u mem :
  coh s u ns coll → ok (clearTTL s ns coll mem) u (λ _ u', become u (cont u) u').
Proof.
  intros Hu. unfold clearTTL. cbv zeta. eapply ok_bind, ok_lift; [by eapply ttlExpiryOf_coh|].
  unfold storedExp. destruct (base s !! ttlPtrKey p_ ns coll mem) as [v|] eqn:Ev; [|by apply ok_ret].
  simpl. repeat first [apply ok_bind | apply ok_modify].
  eapply become_ttl; [done|by eapply ttl_is_set|cbn [ops]; rewrite <-?app_assoc; reflexivity| |done..].
  repeat apply Forall_cons_2; try apply Forall_nil_2; (split_and!; [done|simpl; eauto|by left]).
Qed.

(** *** Writes *)

Lemma eff_snoc u u' op : ops u' = ops u ++ [op] → eff s u' = apply_op CFReplData (eff s u) op.
Proof. intros E. unfold eff. by rewrite E, apply_ops_app. Qed.

(** One element row written or deleted, with its overlays and its count. *)
Lemma become_elem u r (ov : option bytes) u' b :
  coh s u ns coll → ty u = typeSet ∨ ty u = typeHash →
  let ek := elemKey p_ ns coll r in
  b = bool_decide (is_Some (eff s u !! ek)) →
  ops u' = ops u ++ [match ov with Some v => putOp CFReplData ek v | None => delOp CFReplData ek end] →
  exists_ u' = <[ek := bool_decide (is_Some ov)]> (exists_ u) → zscore u' = zscore u → htype u' = htype u →
  (ty u = typeHash → vals u' !! ek = Some ov) → (∀ k, k ≠ ek → vals u' !! k = vals u !! k) →
  default 0 (cardDelta u' !! cardKey p_ ns coll) =
    int64 (default 0 (cardDelta u !! cardKey p_ ns coll) + (bit (bool_decide (is_Some ov)) - bit b)) →
  become u (upd r ov (cont u)) u'.
Proof.
  intros Hu Hty ek -> Eops Eex Ezs Eht Evk Ev Ecard.
  assert (eff s u' = upd ek ov (eff s u)) as Eeff by (rewrite (eff_snoc _ _ _ Eops); by destruct ov).
  destruct (coh_elem_upd s ns coll Hnc u u' r ov) as [Hc E]; [done..|].
  split_and!; [done|done|]. rewrite E, !content_elems by (by destruct Hty as [->| ->]).
  rewrite Eeff. by apply elems_upd.
Qed.

Lemma zcontent_rescore mem (old new : option Z) m :
  content p_ typeZSet (rescore s ns coll mem old new m) ns coll =
    upd mem (put_u64 <$> new) (content p_ typeZSet m ns coll).
Proof.
  apply map_eq. intros k. rewrite lookup_upd, !lookup_zcontent, lookup_rescore_ptr by done.
  case_decide; [|done]. by destruct new.
Qed.

Lemma become_rescore u mem (old new : option Z) u' :
  coh s u ns coll → ty u = typeZSet →
  let pk := zptrKey p_ ns coll mem in
  eff s u !! pk = put_u64 <$> old → (∀ o, old = Some o → in_u64 o) → (∀ f, new = Some f → in_u64 f) →
  eff s u' = rescore s ns coll mem old new (eff s u) → zscore u' = <[pk := new]> (zscore u) →
  exists_ u' = exists_ u → htype u' = htype u → vals u' = vals u →
  default 0 (cardDelta u' !! cardKey p_ ns coll) =
    int64 (default 0 (cardDelta u !! cardKey p_ ns coll) +
      (bit (bool_decide (is_Some new)) - bit (bool_decide (is_Some old)))) →
  become u (upd mem (put_u64 <$> new) (cont u)) u'.
Proof.
  intros Hu Hty pk Hold Hio Hin Eeff Ezs Eex Eht Ev Ecard.
  destruct (coh_rescore s ns coll Hnc u u' mem old new) as [Hc E]; [done..|].
  split_and!; [done|done|]. rewrite E, Hty, Eeff. apply zcontent_rescore.
Qed.

(** *** Items *)

Local Ltac run := repeat
  match goal with
  | |- ok (_ ≫= _) _ _ => apply ok_bind
  | |- ok (mret _) _ _ => apply ok_ret
  | |- ok (put _ _) _ _ => apply ok_modify
  | |- ok (del _) _ _ => apply ok_modify
  | |- ok (putExists _ _) _ _ => apply ok_modify
  | |- ok (putZscore _ _) _ _ => apply ok_modify
  | |- ok (putVals _ _) _ _ => apply ok_modify
  | |- ok (addCard _ _) _ _ => apply ok_modify
  end.
Local Ltac fields := try done; cbn [cardDelta vals exists_ zscore htype];
  rewrite ?lookup_insert_eq; try done; intros; rewrite ?lookup_insert_ne by done; try done.

Context (c : command) (Ens : NS c = ns) (Ecoll : Coll c = coll).

Lemma ok_dropElem it b u :
  coh s u ns coll → (ty u = typeSet ∨ ty u = typeHash) → (ty u = typeHash → b = true) →
  ok (dropElem s c it b) u (λ d u', become u (delete (Key it) (cont u)) u' ∧
    d = if decide (cont u !! Key it = None) then 0 else 1).
Proof.
  intros Hu Hty Hb. unfold dropElem. rewrite Ens, Ecoll. cbv zeta.
  assert (ty u ≠ typeZSet) as Hnz by (by destruct Hty as [->| ->]).
  assert (cont u !! Key it = eff s u !! elemKey p_ ns coll (Key it)) as Ec
    by (rewrite content_elems by done; apply lookup_elems).
  apply ok_bind, ok_elemExists; [done..|]. rewrite <-Ec. apply ok_bind.
  destruct (cont u !! Key it) as [v|] eqn:Ev; simpl.
  - assert (∀ u1, become u (upd (Key it) None (cont u)) u1 →
      ok (clearTTL s ns coll (Key it)) u1 (λ _ u2, ok (mret 1) u2 (λ d u',
        become u (delete (Key it) (cont u)) u' ∧ d = 1))) as Hend.
    { intros u1 Hu1. eapply ok_mono; [apply ok_clearTTL, Hu1|]. intros ? u2 Hu2.
      apply ok_ret. split; [|done]. destruct Hu1 as (? & ? & E1).
      rewrite E1 in Hu2. by eapply become_trans. }
    destruct b; run; apply Hend, (become_elem u (Key it) None _ true); fields.
    all: try (by rewrite <-Ec). naive_solver.
  - apply ok_ret, ok_bind. eapply ok_mono; [by apply ok_clearTTL|]. intros ? u2 Hu2. apply ok_ret.
    split; [|done]. by rewrite delete_id.
Qed.

Lemma ok_dropMember it u :
  coh s u ns coll → ty u = typeZSet →
  ok (dropMember s c it) u (λ d u', become u (delete (Key it) (cont u)) u' ∧
    d = if decide (cont u !! Key it = None) then 0 else 1).
Proof.
  intros Hu Hty. unfold dropMember. rewrite Ens, Ecoll. cbv zeta.
  apply ok_bind, ok_zScore; [done|]. intros old Hold Hio.
  assert (cont u !! Key it = put_u64 <$> old) as Ec by (rewrite Hty, lookup_zcontent; done).
  rewrite Ec. destruct old as [o|]; simpl.
  - run. split; [|done].
    apply (become_rescore u (Key it) (Some o) None); fields.
    unfold eff. cbn [ops]. rewrite !apply_ops_app. done.
  - apply ok_ret. split; [|done]. rewrite delete_id by done.
    by apply become_refl.
Qed.

Lemma ok_SAdd it u :
  Op c = opSAdd → coh s u ns coll → ty u = typeSet →
  ok (applyItem s c it) u (λ d u', ∃ m', itemSpec typeSet None opSAdd it (cont u) = (m', d) ∧ become u m' u').
Proof.
  intros Hop Hu Hty. unfold applyItem. rewrite Hop, Ens, Ecoll. cbv zeta.
  assert (ty u ≠ typeZSet) as Hnz by (by rewrite Hty).
  assert (cont u !! Key it = eff s u !! elemKey p_ ns coll (Key it)) as Ec
    by (rewrite content_elems by done; apply lookup_elems).
  apply ok_bind, ok_elemExists; [done..|]. rewrite <-Ec. apply ok_bind.
  assert (∀ (d : Z) m u1, become u m u1 → ok
    (if 0 <? ExpiryMs it then setTTL s ns coll (Key it) (uint64 (ExpiryMs it)) else mret ()) u1
    (λ _ u2, ok (mret d) u2 (λ d' u', d' = d ∧ become u m u'))) as Hend.
  { intros d m u1 Hu1. destruct (0 <? _); [|by apply ok_ret, ok_ret].
    destruct Hu1 as (Hc1 & Ht1 & E1). eapply ok_mono; [apply ok_setTTL; [done|by rewrite Ht1]|].
    intros ? u2 Hu2. rewrite E1 in Hu2. apply ok_ret. split; [done|]. by eapply become_trans. }
  unfold itemSpec. destruct (cont u !! Key it) as [v|] eqn:Ev; simpl.
  - run. eapply ok_mono; [by apply (Hend 0), become_refl|]. intros ? u2 Hu2. eapply ok_mono; [exact Hu2|].
    intros d u3 [-> Hu3]. eauto.
  - run. eapply ok_mono; [apply (Hend 1)|intros ? u2 Hu2; eapply ok_mono; [exact Hu2|]; intros d u3 [-> Hu3]; eauto].
    apply (become_elem u (Key it) (Some []) _ false); fields; [by left|by rewrite <-Ec|].
    match goal with E : ty u = typeHash |- _ => by rewrite Hty in E end.
Qed.

Lemma ok_HSet it u :
  Op c = opHSet → coh s u ns coll → ty u = typeHash →
  ok (applyItem s c it) u (λ d u', ∃ m', itemSpec typeHash None opHSet it (cont u) = (m', d) ∧ become u m' u').
Proof.
  intros Hop Hu Hty. unfold applyItem. rewrite Hop, Ens, Ecoll. cbv zeta.
  assert (ty u ≠ typeZSet) as Hnz by (by rewrite Hty).
  assert (cont u !! Key it = eff s u !! elemKey p_ ns coll (Key it)) as Ec
    by (rewrite content_elems by done; apply lookup_elems).
  apply ok_bind, ok_elemExists; [done..|]. rewrite <-Ec.
  do 3 (apply ok_bind, ok_modify). unfold itemSpec.
  destruct (cont u !! Key it) as [v|] eqn:Ev; simpl; run; eexists; (split; [reflexivity|]).
  - apply (become_elem u (Key it) (Some (Val it)) _ true); fields; [by right|by rewrite <-Ec|].
    simpl. by rewrite coh_card_id.
  - apply (become_elem u (Key it) (Some (Val it)) _ false); fields; [by right|by rewrite <-Ec].
Qed.

Lemma ok_ZAdd it u :
  Op c = opZAdd → in_u64 (Score it) → coh s u ns coll → ty u = typeZSet →
  ok (applyItem s c it) u (λ d u', ∃ m', itemSpec typeZSet None opZAdd it (cont u) = (m', d) ∧ become u m' u').
Proof.
  intros Hop Hsc Hu Hty. unfold applyItem. rewrite Hop, Ens, Ecoll. cbv zeta.
  apply ok_bind, ok_zScore; [done|]. intros old Hold Hio.
  assert (cont u !! Key it = put_u64 <$> old) as Ec by (rewrite Hty, lookup_zcontent; done).
  unfold itemSpec. rewrite Ec. destruct old as [o|]; simpl; run; eexists; (split; [reflexivity|]).
  - apply (become_rescore u (Key it) (Some o) (Some (Score it))); fields; [naive_solver| |].
    + unfold eff. cbn [ops]. rewrite !apply_ops_app. done.
    + simpl. by rewrite coh_card_id.
  - apply (become_rescore u (Key it) None (Some (Score it))); fields; [naive_solver|].
    unfold eff. cbn [ops]. rewrite !apply_ops_app. done.
Qed.

(** The type a command's items work on. *)
Definition typed (u : updateCtx) : Prop :=
  Op c ≠ opExpire → Op c ≠ opRemove → ty u = typeForOp (Op c).

Lemma drop_spec m (it : item) :
  (delete (Key it) m, 1 - (if decide (m !! Key it = None) then 1 else 0)) =
  (delete (Key it) m : gmap bytes bytes, if decide (m !! Key it = None) then 0 else 1).
Proof. by case_decide. Qed.

Lemma ok_applyItem it u :
  coh s u ns coll → typed u → in_u64 (Score it) →
  ok (applyItem s c it) u (λ d u', ∃ m',
    itemSpec (ty u) (storedExp (Key it)) (Op c) it (cont u) = (m', d) ∧ become u m' u').
Proof.
  intros Hu Ht Hs. unfold typed in Ht.
  assert (∀ b, (ty u = typeSet ∨ ty u = typeHash) → (ty u = typeHash → b = true) →
    ok (dropElem s c it b) u (λ d u', ∃ m', (delete (Key it) (cont u), 1 - (if decide (cont u !! Key it = None)
      then 1 else 0)) = (m', d) ∧ become u m' u')) as Hde.
  { intros b Hb Hb'. eapply ok_mono; [by apply ok_dropElem|]. intros d u' [Hbe ->]. rewrite drop_spec. eauto. }
  assert (ty u = typeZSet → ok (dropMember s c it) u (λ d u', ∃ m', (delete (Key it) (cont u),
    1 - (if decide (cont u !! Key it = None) then 1 else 0)) = (m', d) ∧ become u m' u')) as Hdm.
  { intros Hz. eapply ok_mono; [by apply ok_dropMember|]. intros d u' [Hbe ->]. rewrite drop_spec. eauto. }
  assert (ok (mret 0 : M Z) u (λ d u', ∃ m', (cont u, 0) = (m', d) ∧ become u m' u')) as H0'
    by (apply ok_ret; eexists; split; [done|by apply become_refl]).
  destruct (Op c) eqn:Hop; try (unfold applyItem; rewrite Hop; exact H0').
  - eapply ok_mono; [by apply ok_SAdd, Ht|]. intros d u' Hm. exact Hm.
  - unfold applyItem. rewrite Hop. apply Hde; [left; by apply Ht|done].
  - eapply ok_mono; [by apply ok_HSet, Ht|]. intros d u' Hm. exact Hm.
  - unfold applyItem. rewrite Hop. apply Hde; [right; by apply Ht|done].
  - eapply ok_mono; [apply ok_ZAdd; [done|done|done|by apply Ht]|]. intros d u' Hm. exact Hm.
  - unfold applyItem. rewrite Hop. by apply Hdm, Ht.
  - unfold applyItem. rewrite Hop. rewrite Ens, Ecoll. cbv zeta.
    eapply ok_bind, ok_lift; [by eapply ttlExpiryOf_coh|]. unfold itemSpec.
    destruct (storedExp (Key it)) as [e|] eqn:Ee; [|exact H0'].
    destruct (uint64 (ExpiryMs it) <? e); [exact H0'|].
    assert (ty u = typeSet) as E.
    { unfold storedExp in Ee. apply fmap_Some in Ee as (v & Hv & _). by eapply ttl_is_set. }
    apply Hde; [by left|]. by rewrite E.
  - unfold applyItem. rewrite Hop. rewrite Ens, Ecoll. cbv zeta. apply ok_bind.
    apply ok_wp, wp_typeOf_coh; [done..|]. intros u1 Hu1 E. eexists. split; [done|]. unfold itemSpec.
    assert (∀ m u', become u1 m u' → become u m u') as Hb.
    { intros m u' (? & E1 & ?). split_and!; [done|by rewrite E1, E|done]. }
    destruct (decide (ty u = typeSet ∨ ty u = typeHash)) as [Hd|Hd].
    + destruct (decide (ty u = typeSet ∨ _ ∨ _)); [|tauto]. eapply ok_mono; [apply ok_dropElem; rewrite ?E; done|].
      intros d u' [Hbe ->]. rewrite E in *. rewrite drop_spec. eauto.
    + destruct (decide (ty u = typeZSet)) as [Hz|Hz].
      * destruct (decide (ty u = typeSet ∨ _ ∨ _)); [|tauto]. eapply ok_mono; [apply ok_dropMember; rewrite ?E; done|].
        intros d u' [Hbe ->]. rewrite E in *. rewrite drop_spec. eauto.
      * destruct (decide (ty u = typeSet ∨ _ ∨ _)); [tauto|]. apply ok_ret. eexists. split; [done|]. apply Hb. rewrite <-E. by apply become_refl.
Qed.

Lemma itemSpec_range t e op it m : 0 ≤ (itemSpec t e op it m).2 ≤ 1.
Proof using Type. unfold itemSpec. destruct op; repeat case_match; simpl; lia. Qed.

Lemma ok_items its acc u :
  coh s u ns coll → typed u → Forall item_wf its → 0 ≤ acc → acc + Z.of_nat (length its) < 2 ^ 63 →
  ok (mfold (λ changed it, d ← applyItem s c it; mret (int64 (changed + d))) acc its) u
    (λ n u', ∃ m' k, itemsSpec (ty u) storedExp (Op c) its (cont u) = (m', k) ∧ n = acc + k ∧ become u m' u').
Proof.
  intros Hu Ht Hwf. revert acc u Hu Ht. induction Hwf as [|it its [Hs _] Hwf IH]; intros acc u Hu Ht H0' Hlen.
  { apply ok_ret. exists (cont u), 0. split_and!; [done|lia|by apply become_refl]. }
  cbn [mfold length] in *. apply ok_bind, ok_bind. eapply ok_mono; [by apply ok_applyItem|].
  intros d u1 (m1 & E1 & Hb1). apply ok_ret. pose proof (itemSpec_range (ty u) (storedExp (Key it)) (Op c) it (cont u)) as Hr.
  rewrite E1 in Hr. simpl in Hr. rewrite int64_id by zlia. pose proof Hb1 as (Hu1 & Et1 & Em1).
  eapply ok_mono; [apply IH; [done| |lia|lia]|].
  { intros ? ?. rewrite Et1. by apply Ht. }
  intros n u2 (m2 & k & E2 & -> & Hb2). exists m2, (d + k). split_and!; [|lia|by eapply become_trans].
  cbn [itemsSpec]. rewrite E1, <-Em1, <-Et1, E2. done.
Qed.

Lemma ok_recordDedup (b : bool) r u :
  coh s u ns coll → ok (if b then recordDedup s c r else mret ()) u (λ _ u', become u (cont u) u').
Proof.
  intros Hu. destruct b; [|by apply ok_ret].
  assert (∃ a, (recordDedup s c r u).1 = Ok a) as [a Ha].
  { unfold recordDedup, dedupRecord, lift, gets. unfold mbind, M_bind. cbv zeta.
    rewrite getData_live by done. destruct (base s !! _) as [[|x l]|]; by eexists. }
  exists a. split; [done|]. apply become_offShape; [done|].
  unfold recordDedup. msafe_auto. apply msafe_dedupRecord; [done|intros..]; by apply offShape_sub.
Qed.

Lemma ok_applyElems d u :
  coh s u ns coll → typed u → command_wf c →
  ok (applyElems s c d) u (λ r u', ∃ m' k, itemsSpec (ty u) storedExp (Op c) (Items c) (cont u) = (m', k) ∧
    r = mkResult (uint64 k) [] ∧ become u m' u').
Proof.
  intros Hu Ht (_ & Hwf & Hlen). unfold applyElems, applyCommand. apply ok_bind.
  eapply ok_mono; [apply ok_items; [done|done|done|lia|lia]|].
  intros n u1 (m' & k & E & -> & Hb). apply ok_bind. eapply ok_mono; [apply ok_recordDedup, Hb|].
  intros ? u2 Hb2. apply ok_ret. exists m', k. split_and!; [done|done|].
  destruct Hb as (? & ? & Em). rewrite Em in Hb2. by eapply become_trans.
Qed.

(** *** Counters *)

(** The new value of a field and what [cur] says it was. *)
Lemma ok_bump it u v (Q : Z → updateCtx → Prop) :
  coh s u ns coll → ty u = typeHash →
  (∀ u', become u (<[Key it := v]> (cont u)) u' → Q (if decide (cont u !! Key it = None) then 1 else 0) u') →
  let ek := elemKey p_ ns coll (Key it) in
  ok (setFieldVal ek v) u (λ _ u1,
    ok (touchField s c ek (bool_decide (is_Some (cont u !! Key it)))) u1 Q).
Proof.
  intros Hu Hty HQ ek. assert (cont u !! Key it = eff s u !! ek) as Ec
    by (rewrite content_elems by (by rewrite Hty); apply lookup_elems).
  unfold setFieldVal, touchField. rewrite Ens, Ecoll. run. rewrite Ec in *.
  destruct (eff s u !! ek) as [w|] eqn:Ev; simpl; run; apply HQ.
  - apply (become_elem u (Key it) (Some v) _ true); fields; [by right|fold ek; by rewrite Ev|].
    simpl. by rewrite coh_card_id.
  - apply (become_elem u (Key it) (Some v) _ false); fields; [by right|fold ek; by rewrite Ev].
Qed.

Lemma ok_fieldVal it u (Q : option bytes → updateCtx → Prop) :
  coh s u ns coll → ty u = typeHash → Q (cont u !! Key it) u →
  ok (fieldVal s (elemKey p_ ns coll (Key it))) u Q.
Proof.
  intros Hu Hty HQ. rewrite content_elems, lookup_elems in HQ by (by rewrite Hty).
  apply ok_wp, wp_fieldVal; [done| |by eauto]. apply (co_vals _ _ _ _ Hu); by rewrite Hty.
Qed.

(** The number in a field; a missing field counts from zero. *)
Definition fieldNum (parse : bytes → option Z) (o : option bytes) : option Z :=
  match o with None => Some 0 | Some b => parse b end.

(** The meaning of an increment: the changed field, its new number and the reply. *)
Definition incrSpec (parse : bytes → option Z) (add bits : Z → Z) (show : Z → bytes) (it : item)
    (m : gmap bytes bytes) : gmap bytes bytes * (Z * bytes) :=
  match fieldNum parse (m !! Key it) with
  | None => (m, (0, notNumber))
  | Some n => (<[Key it := show (add n)]> m,
               (if decide (m !! Key it = None) then 1 else 0, put_u64 (bits (add n))))
  end.

Lemma ok_HIncrInt it u :
  coh s u ns coll → ty u = typeHash → 8 ≤ lenZ (Val it) →
  ok (applyHIncrInt s c it) u (λ r u', ∃ m',
    incrSpec Strconv.ParseInt (λ n, int64 (n + int64 (get_u64 (Val it)))) uint64 Strconv.FormatInt it (cont u) = (m', r) ∧
    become u m' u').
Proof.
  intros Hu Hty Hlen. unfold applyHIncrInt. destruct (Z.ltb_spec (lenZ (Val it)) 8); [lia|].
  rewrite Ens, Ecoll. cbv zeta. apply ok_bind, ok_fieldVal; [done..|]. unfold incrSpec.
  fold (fieldNum Strconv.ParseInt (cont u !! Key it)). destruct (fieldNum _ _) as [n|].
  2: { apply ok_ret. eexists. split; [done|by apply become_refl]. }
  apply ok_bind. eapply ok_mono; [apply ok_bump; [done..|]|]; last first.
  { intros ? u1 Hu1. apply ok_bind, Hu1. }
  intros u' Hb. apply ok_ret. eauto.
Qed.

Lemma ok_HIncrFloat it u :
  coh s u ns coll → ty u = typeHash →
  ok (applyHIncrFloat s c it) u (λ r u', ∃ m',
    incrSpec ParseFloat (λ n, f64_add n (Score it)) id FormatFloat it (cont u) = (m', r) ∧ become u m' u').
Proof.
  intros Hu Hty. unfold applyHIncrFloat. rewrite Ens, Ecoll. cbv zeta.
  apply ok_bind, ok_fieldVal; [done..|]. unfold incrSpec.
  fold (fieldNum ParseFloat (cont u !! Key it)). destruct (fieldNum _ _) as [n|].
  2: { apply ok_ret. eexists. split; [done|by apply become_refl]. }
  apply ok_bind. eapply ok_mono; [apply ok_bump; [done..|]|]; last first.
  { intros ? u1 Hu1. apply ok_bind, Hu1. }
  intros u' Hb. apply ok_ret. eauto.
Qed.

(** The meaning of an element command on the contents of a collection of type [T]. *)
Definition cmdSpec (exp : bytes → option Z) (T : byte) (m : gmap bytes bytes)
    : gmap bytes bytes * ProposeResult :=
  let elems := let '(m', n) := itemsSpec T exp (Op c) (Items c) m in (m', mkResult (uint64 n) []) in
  match Op c, Items c with
  | opHIncrBy, it :: _ =>
      let '(m', (n, data)) := incrSpec Strconv.ParseInt (λ n, int64 (n + int64 (get_u64 (Val it)))) uint64
                                Strconv.FormatInt it m in
      (m', mkResult (uint64 n) data)
  | opHIncrByFloat, it :: _ =>
      let '(m', (n, data)) := incrSpec ParseFloat (λ n, f64_add n (Score it)) id FormatFloat it m in
      (m', mkResult (uint64 n) data)
  | _, _ => elems
  end.

(** The type the collection has once the command got through. *)
Definition workType (u : updateCtx) : byte :=
  if decide (Op c = opExpire ∨ Op c = opRemove) then ty u else typeForOp (Op c).

(** What an element command does to its own collection. *)
Definition outcome (u : updateCtx) (r : ProposeResult) (u' : updateCtx) : Prop :=
  if decide (ty u = workType u ∨ ty u = typeNone)
  then coh s u' ns coll ∧ ty u' = workType u ∧
       cmdSpec storedExp (workType u) (content p_ (workType u) (eff s u) ns coll) = (cont u', r)
  else r = sentinel wrongType ∧ become u (cont u) u'.

(** An increment has its operand. *)
Definition incr_ok : Prop :=
  Op c = opHIncrBy ∨ Op c = opHIncrByFloat →
  ∃ it its, Items c = it :: its ∧ (Op c = opHIncrBy → 8 ≤ lenZ (Val it)).

Lemma incr_dec : incr_ok ∨ ¬ incr_ok.
Proof using Type.
  unfold incr_ok. destruct (decide (Op c = opHIncrBy ∨ Op c = opHIncrByFloat)) as [Hop|]; [|by left].
  destruct (Items c) as [|it its]; [right; intros Hi; by destruct (Hi Hop) as (? & ? & [=] & _)|].
  destruct (decide (Op c = opHIncrBy → 8 ≤ lenZ (Val it))); [left; eauto|right].
  intros Hi. destruct (Hi Hop) as (? & ? & [= <- <-] & ?). tauto.
Qed.

Lemma ok_applyHIncr d u :
  coh s u ns coll → ty u = typeHash → incr_ok → Op c = opHIncrBy ∨ Op c = opHIncrByFloat →
  ok (applyHIncr s c d) u (λ r u', ∃ m', cmdSpec storedExp typeHash (cont u) = (m', r) ∧ become u m' u').
Proof.
  intros Hu Hty Hi Hop. destruct (Hi Hop) as (it & its & Eits & Hlen). unfold applyHIncr. rewrite Eits.
  apply ok_bind.
  eapply (ok_mono _ _ (λ r u', ∃ m', cmdSpec storedExp typeHash (cont u) = (m', mkResult (uint64 r.1) r.2) ∧ become u m' u')).
  - unfold cmdSpec. rewrite Eits. destruct Hop as [Hop|Hop]; rewrite Hop; cbn [decide decide_rel].
    + rewrite decide_True by done. eapply ok_mono; [apply ok_HIncrInt; by auto|].
      intros [n b] u1 (m1 & E & Hb). rewrite E. eauto.
    + rewrite decide_False by done. eapply ok_mono; [by apply ok_HIncrFloat|].
      intros [n b] u1 (m1 & E & Hb). rewrite E. eauto.
  - intros [n b] u1 (m1 & E & Hb). simpl in E. apply ok_bind. eapply ok_mono; [apply ok_recordDedup, Hb|].
    intros ? u2 Hb2. apply ok_ret. exists m1. split; [done|].
    destruct Hb as (? & ? & Em). rewrite Em in Hb2. by eapply become_trans.
Qed.

Lemma content_agree t m m' :
  (∀ k, k ≠ typeKey p_ ns coll → m' !! k = m !! k) → content p_ t m' ns coll = content p_ t m ns coll.
Proof.
  intros E. unfold content. case_decide; apply under_ext; intros r; apply E.
  - change (zptrKey p_ ns coll [] ++ r) with ((collScope p_ ns coll ++ [scopeZPtr]) ++ r).
    rewrite <-app_assoc. change (collScope p_ ns coll ++ scopeZPtr :: r ≠ typeKey p_ ns coll).
    rewrite collScope_dkey, typeKey_dkey. intros E'. by apply dkey_inj in E' as (? & _).
  - change (elemKey p_ ns coll r ≠ typeKey p_ ns coll). autorewrite with keys. intros E'.
    by apply dkey_inj in E' as (? & _).
Qed.

Lemma ok_dispatch_own d u :
  coh s u ns coll → command_wf c → incr_ok → isBudOp (Op c) = false → ok (dispatch s c d) u (outcome u).
Proof.
  intros Hu Hwf Hi Hb. unfold dispatch. rewrite Hb, andb_true_r. apply ok_bind.
  apply (ok_mono _ _ (λ b u1, if b : bool then
      (ty u = workType u ∨ ty u = typeNone) ∧ coh s u1 ns coll ∧ ty u1 = workType u ∧ typed u1 ∧
      content p_ (workType u) (eff s u1) ns coll = content p_ (workType u) (eff s u) ns coll
    else ¬ (ty u = workType u ∨ ty u = typeNone) ∧ become u (cont u) u1)).
  - unfold workType, typed. destruct (decide (Op c = opExpire ∨ Op c = opRemove)) as [Ho|Ho].
    { assert (negb (bool_decide (Op c = opExpire)) && negb (bool_decide (Op c = opRemove)) = false) as ->
        by (destruct Ho as [->| ->]; done).
      apply ok_ret. split_and!; try done; [by left|]. naive_solver. }
    rewrite !bool_decide_eq_false_2 by naive_solver. cbn [negb andb]. rewrite Ens, Ecoll.
    apply ok_wp, wp_ensureType_coh; [done|done| |done|].
    { destruct Hwf as [[_ Hop] _]. naive_solver. }
    intros u1 b Hu1 Hb1 Hb2 Hoff. exists b. split; [done|]. destruct b.
    + split_and!; [by apply Hb2|done|done|done|by apply content_agree].
    + destruct Hb1 as [Hne E]. split; [tauto|]. split_and!; [done|by rewrite E|by rewrite E].
  - intros b u1 Hb1. unfold outcome. destruct b; cbn [negb]; destruct Hb1 as [Hb0 Hb1].
    2: { apply ok_ret. by rewrite decide_False. }
    eapply ok_mono; [|intros r u2 Hr; rewrite decide_True by done; exact Hr].
    destruct Hb1 as (Hu1 & Et & Hty & Ec). rewrite <-Ec, <-Et.
    destruct (decide (Op c = opHIncrBy ∨ Op c = opHIncrByFloat)) as [Hh|Hh].
    + assert (bool_decide (Op c = opHIncrBy) || bool_decide (Op c = opHIncrByFloat) = true) as ->
        by (destruct Hh as [->| ->]; done).
      assert (ty u1 = typeHash) as Eh by (destruct Hh as [E|E]; rewrite Hty by (by rewrite E); by rewrite E).
      eapply ok_mono; [by apply ok_applyHIncr|]. intros r u2 (m' & E & Hu2 & Et2 & Em).
      split_and!; [done|by rewrite Et2|]. rewrite Em, <-E. by rewrite Eh.
    + rewrite !bool_decide_eq_false_2 by tauto. cbn [orb].
      eapply ok_mono; [by apply ok_applyElems|]. intros r u2 (m' & k & E & -> & Hu2 & Et2 & Em).
      split_and!; [done|by rewrite Et2|]. unfold cmdSpec. rewrite E, Em.
      destruct (Op c); try done; by destruct Hh; auto.
Qed.

End own.

End Elements.
