(* ===== verification/ElementSystem.v ===== *)
(** * The element counters of a whole shard

    Coherence of the overlays lifted from single commands to [Update]: every
    collection of every reachable shard keeps its shape, and its stored count is
    the number of its elements. *)

From S2P Require Import Prelude Bytes Strconv Storage Command Keys Ctx CtxLogic Budget Ledger.
From S2P Require Import BudgetRefine ShardSM Samples ShardFrame ShardUpdate BudgetSystem Elements.

Local Open Scope Z_scope.
#[local] Set Default Proof Using "Type*".

Module ElementSystem.
Import Storage Command Keys Ctx CtxLogic Budget BudgetRefine ShardSM Samples ShardFrame ShardUpdate.
Import BudgetSystem Elements.

(** The stored count of a collection; an absent counter is zero. *)
Definition cardAt (p : bytes) (m : gmap bytes bytes) (ns coll : bytes) : Z :=
  match m !! cardKey p ns coll with Some v => get_u64 v | None => 0 end.

(** Well-formed collections with exact counters. *)
Definition counted (p : bytes) (m : gmap bytes bytes) : Prop :=
  ∀ ns coll, nc_ok ns coll →
    shape p m ns coll ∧ cardAt p m ns coll = Z.of_nat (size (elems p m ns coll)).

(** Well-formed collections. *)
Definition shaped (p : bytes) (m : gmap bytes bytes) : Prop :=
  ∀ ns coll, nc_ok ns coll → shape p m ns coll.

Lemma counted_shaped p m : counted p m → shaped p m.
Proof. intros Hc ns coll Hn. by apply Hc. Qed.

Section system.
Context {S : Type} `{LocalStoreSpec S} `{FloatText} (s : baseSM S) (Hlive : ls_live (sm_store s)).
Local Abbreviation p_ := (sm_prefix s).

Definition all_coh (u : updateCtx) : Prop := ∀ ns coll, nc_ok ns coll → coh s u ns coll.

Lemma all_coh_start seq :
  shaped p_ (base s) → all_coh (set_dedupSeq seq emptyCtx).
Proof.
  intros Hb ns coll Hn. specialize (Hb _ _ Hn). split; try done. by rewrite Z.sub_diag.
Qed.

(** Keys of one command are no part of another collection's shape. *)
Lemma cmdKey_offShape c ns coll k :
  nc_ok (NS c) (Coll c) → nc_ok ns coll → (NS c, Coll c) ≠ (ns, coll) →
  elemCmdKey p_ (NS c) (Coll c) k ∨ budCmdKey p_ (NS c) (Coll c) k → offShape s ns coll k.
Proof.
  intros Hc Hn Hne [[(sc & r & _ & ->)|[(t & r & ->)|(sub & r & Hs & ->)]]|[(sc & r & _ & ->)|(sub & t & r & Hs & ->)]].
  - by apply offShape_other.
  - by apply offShape_sub.
  - apply offShape_sub; [done..|]. by destruct Hs as [->| ->].
  - by apply offShape_other.
  - apply offShape_sub; [done..|]. by destruct Hs as [->| ->].
Qed.

(** A malformed increment is refused before it writes anything. *)
Lemma dispatch_bad_incr c d ns coll :
  nc_ok ns coll → NS c = ns → Coll c = coll → ¬ incr_ok c → mcoh s ns coll (dispatch s c d).
Proof.
  intros Hn E1 E2 Hbad. unfold dispatch. rewrite E1, E2. apply mcoh_bind.
  { case_match; [|apply mcoh_ret]. apply mcoh_ensureType; [done|done|].
    destruct (decide (Op c = opHIncrBy ∨ Op c = opHIncrByFloat)) as [[-> | ->]|Hop]; [done|done|].
    exfalso. apply Hbad. by intros ?. }
  intros b. destruct b; [|apply mcoh_ret]. cbn [negb].
  destruct (decide (Op c = opHIncrBy ∨ Op c = opHIncrByFloat)) as [Hop|Hop]; [|exfalso; apply Hbad; by intros ?].
  assert (bool_decide (Op c = opHIncrBy) || bool_decide (Op c = opHIncrByFloat) = true) as ->
    by (destruct Hop as [->| ->]; done).
  intros u Hu. unfold applyHIncr. destruct (Items c) as [|it its] eqn:Eits; [done|].
  destruct (decide (Op c = opHIncrBy)) as [Ei|Ei].
  - unfold applyHIncrInt. destruct (Z.ltb_spec (lenZ (Val it)) 8); [done|].
    destruct Hbad. intros _. exists it, its. auto.
  - destruct Hbad. intros _. exists it, its. naive_solver.
Qed.

(** [I] holds after a success. *)
Definition keeps {A} (I : updateCtx → Prop) (m : M A) : Prop := ∀ u a, I u → (m u).1 = Ok a → I (m u).2.

Lemma keeps_ret {A} I (a : A) : keeps I (mret a : M A).
Proof using Type. by intros u ? Hu _. Qed.
Lemma keeps_bind {A B} I (m : M A) (f : A → M B) : keeps I m → (∀ a, keeps I (f a)) → keeps I (m ≫= f).
Proof using Type.
  intros Hm Hf u b Hu. unfold mbind, M_bind. specialize (Hm u). destruct (m u) as [[a|e] u1]; [|done].
  apply Hf. by apply (Hm a).
Qed.
Lemma keeps_lift {A B} I (r : gres A) (f : A → M B) :
  (∀ a, r = Ok a → keeps I (f a)) → keeps I (lift r ≫= f).
Proof using Type. intros Hf u b Hu. unfold lift, mbind, M_bind. destruct r as [a|e]; [by apply Hf|done]. Qed.
Lemma keeps_gets {A B} I (g : updateCtx → A) (f : A → M B) : (∀ a, keeps I (f a)) → keeps I (gets g ≫= f).
Proof using Type. intros Hf. apply keeps_bind; [by intros u a Hu _|done]. Qed.
Lemma keeps_mfold {A B} I (f : B → A → M B) b l : (∀ b a, keeps I (f b a)) → keeps I (mfold f b l).
Proof using Type.
  intros Hf. revert b. induction l as [|a l IH]; intros b; [apply keeps_ret|]. by apply keeps_bind.
Qed.

Lemma dispatch_coh c d : cmd_ok c → command_wf c → keeps all_coh (dispatch s c d).
Proof.
  intros Hc Hwf u a Hu Ha ns coll Hn. destruct (decide ((NS c, Coll c) = (ns, coll))) as [[= E1 E2]|Hne].
  - destruct (isBudOp (Op c)) eqn:Hb.
    { rewrite dispatch_bud by done. subst ns coll. by apply mcoh_applyBud, Hu. }
    destruct (incr_dec c) as [Hi|Hi]; [|by apply dispatch_bad_incr, Hu].
    destruct (ok_dispatch_own s Hlive ns coll Hn c E1 E2 d u (Hu _ _ Hn) Hwf Hi Hb)
      as (a' & _ & Ho). unfold outcome in Ho. case_decide; [apply Ho|by destruct Ho as [_ [? _]]].
  - assert (∀ K, (∀ k, K k → elemCmdKey p_ (NS c) (Coll c) k ∨ budCmdKey p_ (NS c) (Coll c) k) →
      msafe p_ K (dispatch s c d) → coh s (dispatch s c d u).2 ns coll) as Hf.
    { intros K HK Hm. apply (mcoh_frame s Hlive ns coll Hn); [|by apply Hu].
      eapply msafe_mono; [|exact Hm]. intros k Hk. eapply cmdKey_offShape; [apply Hc|done|done|by apply HK]. }
    destruct (isBudOp (Op c)) eqn:Hb.
    + eapply Hf; [|by apply msafe_dispatch_bud]. by right.
    + eapply Hf; [|by apply msafe_dispatch_elem]. by left.
Qed.

Lemma applyOne_coh b fz : keeps all_coh (applyOne s b fz).
Proof.
  unfold applyOne. apply keeps_lift. intros c Hd.
  pose proof (decodeCommand_ok _ _ Hd) as Hc. apply decodeCommand_inv in Hd as (Hwf & _).
  destruct (_ && _ && _); [apply keeps_ret|]. destruct (_ && _); [|by apply dispatch_coh].
  apply keeps_gets. intros [r|]; [apply keeps_ret|].
  apply keeps_lift. intros [r|] _; [apply keeps_ret|by apply dispatch_coh].
Qed.

Lemma entry_coh cmd fz : isMigrate cmd = false → keeps all_coh (applyEntryBody s cmd fz).
Proof.
  intros Hm. unfold applyEntryBody. destruct (decide (_ ∨ _)) as [Hx|].
  { exfalso. unfold isMigrate in Hm. destruct (head cmd); simpl in *; [|naive_solver].
    rewrite orb_false_iff, !bool_decide_eq_false in Hm. naive_solver. }
  destruct (decide (_ ∨ _)).
  - apply keeps_bind; [|intros; apply keeps_ret]. intros u a Hu _ ns coll Hn.
    apply (mcoh_frame s Hlive ns coll Hn); [|by apply Hu]. unfold applyFreeze. msafe_auto.
    all: try (apply msafe_lift, decodePurge_nonfatal).
    all: (apply msafe_put || apply msafe_del || idtac); unfold frozenKey, frozenSpace;
      rewrite <-!app_assoc; by apply offShape_sub.
  - destruct (decide _); [|apply applyOne_coh]. apply keeps_lift. intros subs _.
    apply keeps_bind; [|intros; apply keeps_ret]. apply keeps_mfold. intros rs sub.
    apply keeps_bind; [apply applyOne_coh|intros; apply keeps_ret].
Qed.

Lemma applyEntries_coh fz es u rs u' :
  forallb (λ e, negb (isMigrate (e_Cmd e))) es = true → all_coh u → applyEntries s fz es u = Ok (rs, u') →
  all_coh u'.
Proof.
  intros Hm Hu. apply (applyEntries_inv s Hlive all_coh); [|done]. intros e u1 r u2 Hin Hu1 E.
  rewrite forallb_forall in Hm. apply list_elem_of_In, Hm, negb_true_iff in Hin.
  pose proof (entry_coh _ fz Hin u1 r Hu1) as Hr. rewrite E in Hr. by apply Hr.
Qed.

(** ** Flushing the counters *)

Definition newCard (cur delta : Z) : Z :=
  let nv := int64 (int64 cur + delta) in if nv <? 0 then 0 else nv.

Lemma cardOps_apply l os m ck :
  NoDup l.*1 → cardOps s l = Ok os →
  (ck ∉ l.*1 → apply_ops CFReplData os m !! ck = m !! ck) ∧
  (∀ d, (ck, d) ∈ l →
    if d =? 0 then apply_ops CFReplData os m !! ck = m !! ck
    else ∃ cur, readCard s ck = Ok cur ∧
      apply_ops CFReplData os m !! ck = Some (put_u64 (uint64 (newCard cur d)))).
Proof.
  revert os m. induction l as [|[k d] l IH]; intros os m Hnd E.
  { injection E as <-. split; [done|]. intros d Hd. by apply elem_of_nil in Hd. }
  rewrite fmap_cons in *. apply NoDup_cons in Hnd as [Hk Hnd]. cbn [cardOps] in E.
  assert (∀ d', (k, d') ∉ l) as Hk'
    by (intros d' Hin; apply Hk; by apply (list_elem_of_fmap_2 fst) in Hin).
  setoid_rewrite elem_of_cons. destruct (d =? 0) eqn:Ed.
  - destruct (IH os m Hnd E) as [H2 H3]. split; [tauto|]. intros d' [[= -> ->]|Hin]; [|by apply H3].
    rewrite Ed. by apply H2.
  - apply res_bind_Ok in E as (cur & Hcur & E). apply res_bind_Ok in E as (os' & Ho & [= <-]).
    set (m1 := apply_op CFReplData m (putOp CFReplData k (put_u64 (uint64 (newCard cur d))))).
    destruct (IH os' m1 Hnd Ho) as [H2 H3].
    change (apply_ops CFReplData (putOp _ _ _ :: os') m) with (apply_ops CFReplData os' m1).
    assert (∀ k', k' ≠ k → m1 !! k' = m !! k') as Hm1 by (intros; by apply lookup_insert_ne).
    split.
    + intros Hni. simpl in Hni. rewrite H2, Hm1; tauto.
    + intros d' [[= -> ->]|Hin].
      * rewrite Ed. exists cur. split; [done|]. rewrite H2 by done. apply lookup_insert_eq.
      * assert (ck ≠ k) by (intros ->; by eapply Hk'). specialize (H3 d' Hin). by rewrite Hm1 in H3.
Qed.

(** The data after an update: the entries' effects, the counters and two bookkeeping keys. *)
Lemma Update_data es rs s' :
  cards_wf s (base s) → es ≠ [] → Update s es = Ok (rs, s') →
  ∃ fz seq u, loadFrozen s = Ok fz ∧ readDedupSeq s = Ok seq ∧
    applyEntries s fz es (set_dedupSeq seq emptyCtx) = Ok (rs, u) ∧
    sm_prefix s' = p_ ∧ ls_live (sm_store s') ∧
    (∀ sc ns coll r, nc_ok ns coll → sc ≠ scopeCard →
       base s' !! dkey p_ sc ns coll r = eff s u !! dkey p_ sc ns coll r) ∧
    (∀ ns coll, nc_ok ns coll →
       let ck := cardKey p_ ns coll in
       let d := default 0 (cardDelta u !! ck) in
       if d =? 0 then base s' !! ck = eff s u !! ck
       else ∃ cur, readCard s ck = Ok cur ∧ base s' !! ck = Some (put_u64 (uint64 (newCard cur d)))).
Proof.
  intros Hw Hne HU. destruct (Update_flush s Hlive es Hw Hne)
    as (fz & seq & rs0 & u & cs & tl & st & Hfz & Hseq & He & _ & E & Hst & Ht & F & Hv & Hcs & sq & fin & -> & Hq).
  rewrite E in HU. injection HU as -> <-. exists fz, seq, u. split_and!; try done.
  - intros sc ns coll r Hn Hsc. unfold base; simpl. rewrite Hv by done. rewrite apply_ops_app.
    apply apply_ops_lookup_ne. eapply Forall_impl; [exact Ht|].
    intros op (_ & _ & [->|[->|[(ns' & coll' & Hn' & ->) _]]]) Ek.
    + unfold dedupSeqKey in Ek. apply (f_equal (sub_of p_)) in Ek. rewrite sub_of_dkey in Ek.
      cbn [app] in Ek. by rewrite sub_of_app in Ek.
    + unfold appliedKey in Ek. apply (f_equal (sub_of p_)) in Ek. rewrite sub_of_dkey in Ek.
      cbn [app] in Ek. by rewrite sub_of_app in Ek.
    + rewrite cardKey_dkey in Ek. by apply dkey_inj in Ek as (<- & _).
  - intros ns coll Hn ck d.
    assert (∀ l m, Forall (λ op, op_Key op = dedupSeqKey p_ ∨ op_Key op = appliedKey p_) l →
      apply_ops CFReplData l m !! ck = m !! ck) as Hoff.
    { intros l m Hl. apply apply_ops_lookup_ne. eapply Forall_impl; [exact Hl|].
      intros op [->| ->] Ek; unfold ck in Ek; rewrite cardKey_dkey in Ek; apply (f_equal (sub_of p_)) in Ek;
        rewrite sub_of_dkey in Ek; unfold dedupSeqKey, appliedKey in Ek; cbn [app] in Ek;
        by rewrite sub_of_app in Ek. }
    apply Forall_app in Hq as [Hq1 Hq2]. unfold base; simpl. rewrite Hv by done.
    rewrite !apply_ops_app. rewrite (Hoff fin) by done. fold (eff s u).
    destruct (cardOps_apply _ _ (apply_ops CFReplData sq (eff s u)) ck (NoDup_fst_map_to_list _) Hcs) as [H2 H3].
    rewrite (Hoff sq) in H2, H3 by done. unfold d. destruct (cardDelta u !! ck) as [d0|] eqn:Ed.
    + apply (H3 d0). by apply elem_of_map_to_list.
    + simpl. apply H2. intros ([k d1] & -> & Hin)%list_elem_of_fmap. apply elem_of_map_to_list in Hin.
      simpl in *. congruence.
Qed.

(** ** Counters across one update *)

Lemma shape_agree m m' ns coll :
  (∀ sc r, sc ≠ scopeCard → m' !! dkey p_ sc ns coll r = m !! dkey p_ sc ns coll r) →
  shape p_ m ns coll → shape p_ m' ns coll.
Proof.
  intros E [S1 S2 S3 S4 S5 S6].
  assert (tyOf p_ m' ns coll = tyOf p_ m ns coll) as Et by (unfold tyOf; by rewrite typeKey_dkey, E).
  assert (∀ r, m' !! elemKey p_ ns coll r = m !! elemKey p_ ns coll r) as Ee by (intros; by rewrite elemKey_dkey, E).
  assert (∀ r, m' !! zptrKey p_ ns coll r = m !! zptrKey p_ ns coll r) as Ez by (intros; by rewrite zptrKey_dkey, E).
  assert (∀ r, m' !! ttlPtrKey p_ ns coll r = m !! ttlPtrKey p_ ns coll r) as El
    by (intros; by rewrite ttlPtrKey_dkey, E).
  split; rewrite ?Et; try (intros; rewrite ?Ee, ?Ez, ?El; by auto);
    [|intros mem v; rewrite El; apply S5|intros l; rewrite typeKey_dkey, E, <-typeKey_dkey by done; apply S6].
  intros Hty. destruct S1 as [Z1 Z2]; [done|]. split.
  - intros mem raw. rewrite Ez. setoid_rewrite zscoreKey_elemKey. setoid_rewrite Ee. apply Z1.
  - intros r. rewrite Ee. setoid_rewrite Ez. apply Z2.
Qed.

Lemma elems_agree m m' ns coll :
  (∀ sc r, sc ≠ scopeCard → m' !! dkey p_ sc ns coll r = m !! dkey p_ sc ns coll r) →
  elems p_ m' ns coll = elems p_ m ns coll.
Proof. intros E. apply map_eq. intros r. rewrite !lookup_elems, elemKey_dkey. by apply E. Qed.

Lemma eff_card es fz u rs u' ns coll :
  forallb (λ e, negb (isMigrate (e_Cmd e))) es = true → nc_ok ns coll →
  applyEntries s fz es u = Ok (rs, u') → eff s u' !! cardKey p_ ns coll = eff s u !! cardKey p_ ns coll.
Proof.
  intros Hm Hn. apply (applyEntries_inv s Hlive (λ u', eff s u' !! cardKey p_ ns coll = _)); [|done].
  intros e u1 r u2 Hin Hu1 E. rewrite forallb_forall in Hm. apply list_elem_of_In, Hm, negb_true_iff in Hin.
  destruct (msafe_entry_local s Hlive (e_Cmd e) fz Hin u1) as [F _]. rewrite E in F.
  rewrite <-Hu1. eapply frame_eff; [exact F|]. intros Hk. by eapply entryKey_not_card in Hk.
Qed.

Lemma newCard_ok n n' : 0 ≤ n < 2 ^ 63 → 0 ≤ n' < 2 ^ 63 → newCard n (int64 (n' - n)) = n'.
Proof.
  intros. unfold newCard. rewrite (int64_id n), (int64_id (n' - n)) by zlia.
  replace (n + (n' - n)) with n' by lia. rewrite int64_id by zlia.
  destruct (Z.ltb_spec n' 0); lia.
Qed.

(** The number of elements is below 2^63 in every collection. *)
Definition small (m : gmap bytes bytes) : Prop :=
  ∀ ns coll, nc_ok ns coll → Z.of_nat (size (elems p_ m ns coll)) < 2 ^ 63.

Lemma Update_shaped es rs s' :
  cards_wf s (base s) → shaped p_ (base s) → forallb (λ e, negb (isMigrate (e_Cmd e))) es = true →
  Update s es = Ok (rs, s') → cards_wf s (base s') ∧ shaped p_ (base s').
Proof.
  intros Hw Hc Hm HU. destruct (decide (es = [])) as [->|Hne]; [by injection HU as _ <-|].
  destruct (Update_data es rs s' Hw Hne HU) as (fz & seq & u & _ & _ & He & _ & _ & Hd & Hcard). split.
  - intros ns coll v Hn Hv. specialize (Hcard ns coll Hn). cbv zeta in Hcard.
    destruct (_ =? 0).
    { rewrite Hcard, (eff_card _ _ _ _ _ _ _ Hm Hn He) in Hv. by eapply Hw. }
    destruct Hcard as (cur & _ & E). rewrite E in Hv. injection Hv as <-. apply lenZ_put_u64.
  - intros ns coll Hn. apply (shape_agree (eff s u)); [intros; by apply Hd|].
    apply (applyEntries_coh fz es (set_dedupSeq seq emptyCtx) rs u Hm); [|done|done].
    by apply all_coh_start.
Qed.

Lemma Update_counted es rs s' :
  cards_wf s (base s) → counted p_ (base s) → small (base s) → small (base s') →
  forallb (λ e, negb (isMigrate (e_Cmd e))) es = true → Update s es = Ok (rs, s') →
  cards_wf s (base s') ∧ counted p_ (base s').
Proof.
  intros Hw Hc Hs Hs' Hm HU. pose proof (counted_shaped _ _ Hc) as Hsh.
  destruct (Update_shaped es rs s' Hw Hsh Hm HU) as [Hw' Hsh']. split; [done|].
  destruct (decide (es = [])) as [->|Hne]; [by injection HU as _ <-|].
  destruct (Update_data es rs s' Hw Hne HU) as (fz & seq & u & _ & _ & He & _ & _ & Hd & Hcard).
  intros ns coll Hn. split; [by apply Hsh'|]. destruct (Hc ns coll Hn) as [_ Hcn].
  assert (coh s u ns coll) as Hu
    by (apply (applyEntries_coh fz es (set_dedupSeq seq emptyCtx) rs u Hm); [by apply all_coh_start|done|done]).
  assert (elems p_ (base s') ns coll = elems p_ (eff s u) ns coll) as Ee
    by (apply elems_agree; intros; by apply Hd).
  specialize (Hcard ns coll Hn). cbv zeta in Hcard. specialize (Hs ns coll Hn). specialize (Hs' ns coll Hn).
  rewrite (co_card _ _ _ _ Hu), <-Ee in Hcard. revert Hcn Hs Hs' Hcard.
  unfold cardAt. set (n := size (elems p_ (base s) ns coll)). set (n' := size (elems p_ (base s') ns coll)).
  intros Hcn Hs Hs' Hcard. destruct (Z.eqb_spec (int64 (Z.of_nat n' - Z.of_nat n)) 0) as [E0|E0].
  - rewrite Hcard, (eff_card _ _ _ _ _ _ _ Hm Hn He). rewrite int64_id in E0 by zlia.
    change (eff s (set_dedupSeq seq emptyCtx)) with (base s). rewrite Hcn. lia.
  - destruct Hcard as (cur & Hcur & ->).
    assert (cur = Z.of_nat n) as ->.
    { unfold readCard in Hcur. rewrite getData_live in Hcur by done. simpl in Hcur.
      destruct (base s !! cardKey p_ ns coll) as [v|] eqn:Ev; [|by injection Hcur as <-].
      rewrite (Hw _ _ _ Hn Ev) in Hcur. by injection Hcur as <-. }
    rewrite newCard_ok by lia. rewrite uint64_id by zlia.
    rewrite <-(app_nil_r (put_u64 _)). apply get_put_u64. zlia.
Qed.

End system.

(** ** Runs of a shard *)

Lemma under_size (pre : bytes) (m : gmap bytes bytes) : (size (under pre m) ≤ size m)%nat.
Proof.
  rewrite <-length_stripped_scan. unfold stripped. rewrite length_fmap.
  unfold newSliceIterator. cbn [andb Z.ltb Z.compare]. rewrite length_fmap, merge_sort_Permutation.
  etransitivity; [apply length_filter|]. by rewrite length_fmap, length_map_to_list.
Qed.

(** The store never holds 2^63 rows or more while the batches run. *)
Definition bounded {S} `{LocalStoreSpec S} `{FloatText} (s : baseSM S) (bs : list (list entry)) : Prop :=
  ∀ k s', runBatches s (take k bs) = Ok s' → Z.of_nat (size (base s')) < 2 ^ 63.

Definition noMigrate (bs : list (list entry)) : bool :=
  forallb (forallb (λ e, negb (isMigrate (e_Cmd e)))) bs.

Lemma small_size {S} `{LocalStoreSpec S} (s s' : baseSM S) :
  Z.of_nat (size (base s')) < 2 ^ 63 → small s (base s').
Proof. intros Hs ns coll _. pose proof (under_size (elemPrefix (sm_prefix s) ns coll) (base s')). unfold elems. lia. Qed.

Lemma runBatches_counted {S} `{LocalStoreSpec S} `{FloatText} (s : baseSM S) bs :
  ls_live (sm_store s) → cards_wf s (base s) → counted (sm_prefix s) (base s) → bounded s bs →
  noMigrate bs = true →
  ∃ s', runBatches s bs = Ok s' ∧ ls_live (sm_store s') ∧ sm_prefix s' = sm_prefix s ∧
    cards_wf s (base s') ∧ counted (sm_prefix s) (base s').
Proof.
  revert s. induction bs as [|b bs IH]; intros s Hl Hw Hc Hb Hm; [by exists s|].
  simpl in Hm. apply andb_true_iff in Hm as [Hm Hms]. cbn [runBatches].
  assert (∃ rs s1, Update s b = Ok (rs, s1) ∧ ls_live (sm_store s1) ∧ sm_prefix s1 = sm_prefix s)
    as (rs & s1 & E & Hl1 & Hp).
  { destruct b as [|e b]; [by exists [], s|].
    destruct (Update_run s Hl (e :: b) Hw) as (fz & seq & rs & u & tl & st & ? & ? & ? & ? & E & ? & _); [done|].
    by exists rs, (with_store s st). }
  rewrite E. cbn [res_bind].
  assert (runBatches s (take 1 (b :: bs)) = Ok s1) as E1 by (simpl; rewrite E; simpl; by destruct bs).
  destruct (Update_counted s Hl b rs s1 Hw Hc) as [Hw1 Hc1]; [|  |done|done|].
  { apply small_size. by apply (Hb 0%nat). }
  { apply small_size. by apply (Hb 1%nat). }
  destruct (IH s1) as (s' & Hr & Hl' & Hp' & Hw' & Hc'); [done| | | |done|].
  { unfold cards_wf. by rewrite Hp. }
  { by rewrite Hp. }
  { intros k s' Hr. apply (Hb (Datatypes.S k) s'). cbn [take runBatches]. by rewrite E. }
  unfold cards_wf in *. rewrite Hp in *. exists s'. by rewrite Hp' in *.
Qed.

Lemma fresh_counted {S} `{LocalStoreSpec S} (s : baseSM S) : fresh s → counted (sm_prefix s) (base s).
Proof.
  intros Hf ns coll Hn.
  assert (∀ sc r, base s !! dkey (sm_prefix s) sc ns coll r = None) as E
    by (intros; apply Hf; by apply prefix_app_r).
  assert (∀ r, base s !! elemKey (sm_prefix s) ns coll r = None) as Ee by (intros; by rewrite elemKey_dkey).
  assert (∀ r, base s !! zptrKey (sm_prefix s) ns coll r = None) as Ez by (intros; by rewrite zptrKey_dkey).
  split.
  - split; try (intros; rewrite ?Ee, ?Ez, ?ttlPtrKey_dkey; done).
    + intros _. split; [intros mem raw; by rewrite Ez|intros r; rewrite Ee; by intros []].
    + intros mem v. by rewrite ttlPtrKey_dkey, E.
    + intros l. by rewrite typeKey_dkey, E.
  - unfold cardAt. rewrite cardKey_dkey, E.
    assert (elems (sm_prefix s) (base s) ns coll = ∅) as ->; [|done].
    apply map_eq. intros r. rewrite lookup_elems, Ee. by rewrite lookup_empty.
Qed.

(** ** Queries *)

Section queries.
Context {S : Type} `{LocalStoreSpec S} `{FloatText} (s : baseSM S) (Hlive : ls_live (sm_store s)).
Local Abbreviation p_ := (sm_prefix s).

Lemma Lookup_snap q (Q : gres answer → Prop) :
  (∀ sn, sn_view sn = ls_view (sm_store s) → ls_Snapshot (sm_store s) = Ok sn → Q (Lookup s q)) → Q (Lookup s q).
Proof. intros HQ. destruct (ls_Snapshot_ok (sm_store s)) as (sn & E & Hv); [done|]. by apply (HQ sn). Qed.

Local Ltac start := apply Lookup_snap; intros sn Hv E; unfold Lookup; rewrite E; cbn [store_res res_bind].

Lemma Lookup_card ns coll :
  cards_wf s (base s) → nc_ok ns coll → Lookup s (cardQuery ns coll) = Ok (ACard (cardAt p_ (base s) ns coll)).
Proof.
  intros Hw Hn. start. unfold snapCard. rewrite sn_Get_ok, Hv by done. fold (base s). unfold cardAt. simpl.
  destruct (base s !! cardKey p_ ns coll) as [v|] eqn:Ev; [|done]. by rewrite (Hw _ _ _ Hn Ev).
Qed.

Lemma Lookup_cardCheck ns coll :
  cards_wf s (base s) → nc_ok ns coll →
  Lookup s (cardCheckQuery ns coll) = Ok (ACheck (mkCardCheck (cardAt p_ (base s) ns coll)
    (uint64 (Z.of_nat (size (elems p_ (base s) ns coll)))))).
Proof.
  intros Hw Hn. start. unfold snapCard, scanUnder. rewrite sn_Get_ok, sn_Scan_ok, Hv by done.
  fold (base s). unfold cardAt. cbn [store_res res_bind]. unfold elems.
  rewrite <-(length_stripped_scan (elemPrefix p_ ns coll) (base s)). unfold stripped.
  destruct (base s !! cardKey p_ ns coll) as [v|] eqn:Ev; [|done]. by rewrite (Hw _ _ _ Hn Ev).
Qed.

Lemma Lookup_isMember ns coll m :
  Lookup s (isMemberQuery ns coll m) = Ok (AFound (bool_decide (is_Some (elems p_ (base s) ns coll !! m)))).
Proof. start. rewrite sn_Get_ok, Hv by done. fold (base s). by rewrite lookup_elems. Qed.

Lemma Lookup_hGet ns coll f : Lookup s (hGetQuery ns coll f) = Ok (AValue (elems p_ (base s) ns coll !! f)).
Proof. start. rewrite sn_Get_ok, Hv by done. fold (base s). by rewrite lookup_elems. Qed.

End queries.

(** ** Properties *)

(** C19: counters are exact. After any sequence of batches of any commands applied
    to a fresh shard (raw migration apart), the stored cardinality of every
    collection is the number of its elements: the cardinality check reports the
    same number twice, and the cardinality query returns it. *)
Theorem card_exact {S} `{LocalStoreSpec S} `{FloatText} (s : baseSM S) (bs : list (list entry))
    (ns coll : bytes) :
  ls_live (sm_store s) → fresh s → noMigrate bs = true → bounded s bs → nc_ok ns coll →
  ∃ s' n, runBatches s bs = Ok s' ∧ n = Z.of_nat (size (elems (sm_prefix s) (base s') ns coll)) ∧
    Lookup s' (cardQuery ns coll) = Ok (ACard n) ∧
    Lookup s' (cardCheckQuery ns coll) = Ok (ACheck (mkCardCheck n n)).
Proof.
  intros Hl Hf Hm Hb Hn.
  destruct (runBatches_counted s bs Hl (fresh_cards s Hf) (fresh_counted s Hf) Hb Hm)
    as (s' & Hr & Hl' & Hp & Hw & Hc).
  destruct (Hc ns coll Hn) as [_ E]. exists s', (Z.of_nat (size (elems (sm_prefix s) (base s') ns coll))).
  assert (cards_wf s' (base s')) as Hw' by (unfold cards_wf in *; by rewrite Hp).
  split_and!; [done|done|rewrite Lookup_card, Hp by done; by rewrite E|].
  rewrite Lookup_cardCheck, Hp by done. rewrite E, uint64_id; [done|].
  assert (Z.of_nat (size (base s')) < 2 ^ 63) by (apply (Hb (length bs)); by rewrite take_ge).
  pose proof (under_size (elemPrefix (sm_prefix s) ns coll) (base s')). unfold elems. zlia.
Qed.

(** ** One command *)

Lemma single_entry {S} `{LocalStore S} `{FloatText} (s : baseSM S) cmd c fz u :
  decodeCommand cmd = Ok c →
  mutates (Op c) = true ∧ applyEntryBody s cmd fz u = applyOne s cmd fz u.
Proof.
  intros Hd. pose proof (decodeCommand_inv _ _ Hd) as ([[Ho Hs] _] & _ & _ & _ & _ & tl & E).
  assert (opKindOf <$> head cmd = Some (Op c)) as Eh.
  { rewrite E. unfold encodeCommand. rewrite appendCommand_flat. simpl. by rewrite Ho. }
  split.
  { unfold mutates. destruct Hs as [Hs|[-> | ->]]; [|done..]. by rewrite (bool_decide_eq_true_2 _ Hs). }
  unfold applyEntryBody. rewrite Eh.
  assert (∀ op, typeForOp op = typeNone → op ≠ opExpire → op ≠ opRemove → Some (Op c) ≠ Some op) as Hno
    by (intros op H1 H2 H3 [= E']; rewrite E' in Hs; tauto).
  by rewrite !decide_False by (first [intros [E'|E']|intros E']; by eapply Hno in E').
Qed.

Lemma single_command {S} `{LocalStore S} `{FloatText} (s : baseSM S) cmd c fz u :
  decodeCommand cmd = Ok c → Idem c = [] → frozenCovers fz (routeKey (NS c) (Coll c)) = false →
  applyEntryBody s cmd fz u = dispatch s c false u.
Proof.
  intros Hd Hi Hf. destruct (single_entry s cmd c fz u Hd) as [_ ->].
  unfold applyOne, lift, mbind at 1, M_bind at 1. rewrite Hd, Hf, andb_false_r.
  by rewrite Hi, andb_false_r.
Qed.

Lemma content_base {S} `{LocalStoreSpec S} (s s' : baseSM S) u ns coll t :
  (∀ sc r, sc ≠ scopeCard →
     base s' !! dkey (sm_prefix s) sc ns coll r = eff s u !! dkey (sm_prefix s) sc ns coll r) →
  content (sm_prefix s) t (base s') ns coll = content (sm_prefix s) t (eff s u) ns coll.
Proof.
  intros E. unfold content. case_decide; apply under_ext; intros r.
  - change (zptrKey (sm_prefix s) ns coll [] ++ r) with ((collScope (sm_prefix s) ns coll ++ [scopeZPtr]) ++ r).
    rewrite <-app_assoc. change ([scopeZPtr] ++ r) with (scopeZPtr :: r). rewrite collScope_dkey. by apply E.
  - change (elemPrefix (sm_prefix s) ns coll ++ r) with (elemKey (sm_prefix s) ns coll r).
    rewrite elemKey_dkey. by apply E.
Qed.

(** The type a collection has once command [c] got through. *)
Definition targetType (t : byte) (c : command) : byte :=
  if decide (Op c = opExpire ∨ Op c = opRemove) then t else typeForOp (Op c).

(** element commands do what they say. On a shard whose collections are well
    formed, applying one set, hash or sorted-set command (outside a frozen range,
    without idempotency key) succeeds. When the collection is new or of the
    command's type, its new contents and the reply are those of the command's
    meaning on finite maps ([cmdSpec]); otherwise the reply is WRONGTYPE and the
    contents stay. *)
Theorem element_command_spec {S} `{LocalStoreSpec S} `{FloatText} (s : baseSM S) (e : entry)
    (c : command) (fz : list frozenRange) :
  ls_live (sm_store s) → cards_wf s (base s) → counted (sm_prefix s) (base s) →
  decodeCommand (e_Cmd e) = Ok c → isBudOp (Op c) = false → incr_ok c → Idem c = [] →
  loadFrozen s = Ok fz → frozenCovers fz (routeKey (NS c) (Coll c)) = false →
  let p := sm_prefix s in
  let t := tyOf p (base s) (NS c) (Coll c) in
  let T := targetType t c in
  ∃ r s', Update s [e] = Ok ([r], s') ∧
    if decide (t = T ∨ t = typeNone)
    then tyOf p (base s') (NS c) (Coll c) = T ∧
         cmdSpec c (storedExp s (NS c) (Coll c)) T (content p T (base s) (NS c) (Coll c)) =
           (content p T (base s') (NS c) (Coll c), r)
    else r = sentinel wrongType ∧ tyOf p (base s') (NS c) (Coll c) = t ∧
         content p t (base s') (NS c) (Coll c) = content p t (base s) (NS c) (Coll c).
Proof.
  intros Hl Hw Hc Hd Hb Hi Hidem Hfz Hcov p t T.
  pose proof (decodeCommand_ok _ _ Hd) as [Hn _]. apply decodeCommand_inv in Hd as Hwf. destruct Hwf as [Hwf _].
  destruct (Update_run s Hl [e] Hw) as (? & ? & rs & ? & ? & st & _ & _ & _ & _ & HU & _); [done|]. set (s' := with_store s st) in HU.
  destruct (Update_data s Hl [e] rs s' Hw ltac:(done) HU) as (fz' & seq & u & Hfz' & _ & He & Hp & _ & Hda & _).
  rewrite Hfz in Hfz'. injection Hfz' as <-. set (u0 := set_dedupSeq seq emptyCtx) in *.
  assert (all_coh s u0) as Hu0 by (by apply (all_coh_start s Hl), counted_shaped).
  destruct (ok_dispatch_own s Hl _ _ Hn c eq_refl eq_refl false u0 (Hu0 _ _ Hn) Hwf Hi Hb) as (r & Hr & Ho).
  rewrite <-(single_command s (e_Cmd e) c fz) in Hr, Ho by done.
  cbn [applyEntries] in He. unfold applyEntrySafe in He.
  destruct (applyEntryBody s (e_Cmd e) fz u0) as [r' u'] eqn:Eb. simpl in Hr, Ho. subst r'.
  injection He as <- <-. exists r, s'. split; [done|].
  assert (∀ sc r, sc ≠ scopeCard → base s' !! dkey p sc (NS c) (Coll c) r = eff s u' !! dkey p sc (NS c) (Coll c) r)
    as Hag by (intros; by apply Hda).
  assert (tyOf p (base s') (NS c) (Coll c) = tyOf p (eff s u') (NS c) (Coll c)) as Et
    by (unfold tyOf; by rewrite !typeKey_dkey, Hag).
  rewrite Et, !(content_base s s' u') by done.
  change (workType s (NS c) (Coll c) c u0) with T in Ho. unfold outcome in Ho.
  change (tyOf (sm_prefix s) (eff s u0) (NS c) (Coll c)) with t in Ho.
  change (workType s (NS c) (Coll c) c u0) with T in Ho. change (eff s u0) with (base s) in Ho.
  fold p in Ho. destruct (decide (t = T ∨ t = typeNone)).
  - destruct Ho as (_ & E1 & E2). rewrite E1 in E2. done.
  - destruct Ho as (-> & _ & E1 & E2). change (eff s u0) with (base s) in *. fold p t in E1, E2.
    rewrite E1 in *. done.
Qed.

(** ** Reads *)

Lemma StronglySorted_fmap_strong {A B} (R : A → A → Prop) (R' : B → B → Prop) (g : A → B) (l : list A) :
  (∀ x y, x ∈ l → y ∈ l → R x y → R' (g x) (g y)) → StronglySorted R l → StronglySorted R' (g <$> l).
Proof.
  intros Hg Hs. induction Hs as [|x l Hs IH Hx]; [constructor|]. rewrite fmap_cons. constructor.
  - apply IH. intros y z Hy Hz. apply Hg; by right.
  - rewrite Forall_fmap. rewrite Forall_forall in Hx |- *. intros y Hy. apply Hg; [by left|by right|by apply Hx].
Qed.

Lemma omap_fmap_total {A B} (f : A → option B) (g : A → B) (l : list A) :
  (∀ x, x ∈ l → f x = Some (g x)) → omap f l = g <$> l.
Proof.
  induction l as [|x l IH]; intros Hf; [done|]. csimpl. rewrite Hf by (by left). f_equal. apply IH.
  intros y Hy. apply Hf. by right.
Qed.

Section reads.
Context {S : Type} `{LocalStoreSpec S} `{FloatText} (s : baseSM S) (Hlive : ls_live (sm_store s)).
Local Abbreviation p_ := (sm_prefix s).
Context (ns coll : bytes) (Hn : nc_ok ns coll) (Hc : counted p_ (base s)).
Local Abbreviation zcont := (content p_ typeZSet (base s) ns coll).

(** The rows of a collection, in key order. *)
Definition rows : list (bytes * bytes) :=
  stripped (elemPrefix p_ ns coll)
    (newSliceIterator (base s) (Some (elemPrefix p_ ns coll)) (prefixEnd (elemPrefix p_ ns coll)) 0).

Lemma elem_of_rows r v : (r, v) ∈ rows ↔ elems p_ (base s) ns coll !! r = Some v.
Proof. unfold rows. rewrite elem_of_stripped_scan. unfold elems. by rewrite lookup_under. Qed.

Lemma rows_sorted : StronglySorted (λ x y, bytes_lt x.1 y.1) rows.
Proof.
  unfold rows, stripped. set (pre := elemPrefix p_ ns coll).
  apply (StronglySorted_fmap_strong (λ x y, bytes_lt x.1 y.1)).
  - intros [k1 v1] [k2 v2] [_ [z1 ->]]%elem_of_prefix_scan [_ [z2 ->]]%elem_of_prefix_scan. simpl.
    rewrite !drop_app_length. unfold bytes_lt. by rewrite bcompare_app_l.
  - pose proof (scan_keys_sorted (base s) (Some pre) (prefixEnd pre)) as Hs.
    rewrite <-newSliceIterator_keys in Hs. revert Hs. generalize (newSliceIterator (base s) (Some pre) (prefixEnd pre) 0).
    intros l. induction l as [|x l IH]; [constructor|]. rewrite fmap_cons. intros [Hs Hf]%StronglySorted_inv.
    constructor; [by apply IH|]. by rewrite Forall_fmap in Hf.
Qed.

(** A member with its score, read off an index row. *)
Definition scored (row : bytes * bytes) : bytes * Z := (drop 8 row.1, unsortableScore (take 8 row.1)).

Lemma zrow r v : tyOf p_ (base s) ns coll = typeZSet → (r, v) ∈ rows →
  ∃ f mem, in_u64 f ∧ r = sortableScore f ++ mem ∧ scored (r, v) = (mem, f) ∧ zcont !! mem = Some (put_u64 f).
Proof.
  intros Ht Hr%elem_of_rows. destruct (Hc ns coll Hn) as [Hsh _].
  destruct (zo_elem _ _ _ _ (sh_zset _ _ _ _ Hsh Ht) r) as (f & mem & Hf & -> & Hp).
  { rewrite <-lookup_elems. eauto. }
  exists f, mem. split_and!; [done|done| |by rewrite lookup_zcontent].
  unfold scored. simpl. rewrite drop_app_length', take_app_length' by (by rewrite length_sortableScore).
  f_equal. rewrite <-(app_nil_r (sortableScore f)). by apply unsortableScore_sortable.
Qed.

Lemma zrow_member mem f : tyOf p_ (base s) ns coll = typeZSet → in_u64 f →
  zcont !! mem = Some (put_u64 f) → ∃ v, (sortableScore f ++ mem, v) ∈ rows.
Proof.
  intros Ht Hf Hp. rewrite lookup_zcontent in Hp by done. destruct (Hc ns coll Hn) as [Hsh _].
  destruct (zo_ptr _ _ _ _ (sh_zset _ _ _ _ Hsh Ht) _ _ Hp) as (g & Hg & E & [v Hv]).
  apply put_u64_inj in E as <-; [|done..]. exists v. apply elem_of_rows. by rewrite lookup_elems.
Qed.

(** ZRANGE order: ascending scores, equal scores by member. *)
Definition zle (x y : bytes * Z) : Prop :=
  signMagnitude x.2 ≤ signMagnitude y.2 ∧ (x.2 = y.2 → bytes_lt x.1 y.1).

Lemma zle_NoDup l : StronglySorted zle l → NoDup l.
Proof using Type.
  induction 1 as [|x l _ IH Hx]; [constructor|]. constructor; [|done]. intros Hin.
  rewrite Forall_forall in Hx. destruct (Hx x Hin) as [_ Hlt]. specialize (Hlt eq_refl).
  unfold bytes_lt in Hlt. by rewrite bcompare_refl in Hlt.
Qed.

Lemma zrows_sorted : tyOf p_ (base s) ns coll = typeZSet → StronglySorted zle (scored <$> rows).
Proof.
  intros Ht. apply (StronglySorted_fmap_strong (λ x y, bytes_lt x.1 y.1)); [|apply rows_sorted].
  intros [r1 v1] [r2 v2] Hr1 Hr2. simpl. apply (zrow _ _ Ht) in Hr1 as (f & m1 & Hf & -> & -> & _).
  apply (zrow _ _ Ht) in Hr2 as (g & m2 & Hg & -> & -> & _). intros Hlt. split; simpl.
  - destruct (Z.le_gt_cases (signMagnitude f) (signMagnitude g)) as [|Hgt]; [done|].
    apply (sortableScore_lt g f m2 m1 Hg Hf) in Hgt. exfalso.
    apply (bytes_lt_nle _ _) in Hlt. apply Hlt, bytes_le_lteq. by left.
  - intros ->. unfold bytes_lt in *. by rewrite bcompare_app_l in Hlt.
Qed.

(** The listed pairs are the members with their scores. *)
Lemma zrows_members mem f : tyOf p_ (base s) ns coll = typeZSet →
  (mem, f) ∈ scored <$> rows ↔ in_u64 f ∧ zcont !! mem = Some (put_u64 f).
Proof.
  intros Ht. rewrite list_elem_of_fmap. split.
  - intros ([r v] & E & Hin). destruct (zrow r v Ht Hin) as (g & m' & Hg & -> & E' & Hz).
    rewrite E' in E. injection E as -> ->. done.
  - intros [Hf Hz]. destruct (zrow_member mem f Ht Hf Hz) as [v Hin].
    exists (sortableScore f ++ mem, v). split; [|done].
    destruct (zrow _ v Ht Hin) as (g & m' & Hg & E & -> & _).
    apply score_app_inj in E as [-> ->]; done.
Qed.

Lemma Lookup_zRange limit : tyOf p_ (base s) ns coll = typeZSet →
  Lookup s (zRangeQuery ns coll limit) =
    Ok (AScored (if 0 <? limit then take (Z.to_nat limit) (scored <$> rows) else scored <$> rows)).
Proof.
  intros Ht. destruct (ls_Snapshot_ok (sm_store s)) as (sn & E & Hv); [done|].
  unfold Lookup. rewrite E. cbn [store_res res_bind]. unfold scanUnder. rewrite sn_Scan_ok, Hv by done.
  cbn [store_res res_bind]. fold (base s).
  assert (∀ l : list (bytes * bytes), (∀ x, x ∈ l → x ∈ rows) → omap (λ '(k, _), if lenZ k <? 8 then None
    else Some (drop 8 k, unsortableScore (take 8 k))) l = scored <$> l) as Ho.
  { intros l Hl. apply omap_fmap_total. intros [r v] Hin. destruct (zrow r v Ht (Hl _ Hin)) as (f & mem & _ & -> & _).
    destruct (Z.ltb_spec (lenZ (sortableScore f ++ mem)) 8) as [Hlt|]; [|done].
    exfalso. unfold lenZ in Hlt. rewrite length_app, length_sortableScore in Hlt. lia. }
  fold (stripped (elemPrefix p_ ns coll) (newSliceIterator (base s) (Some (elemPrefix p_ ns coll))
    (prefixEnd (elemPrefix p_ ns coll)) limit)).
  destruct (Z.ltb_spec 0 limit).
  - rewrite newSliceIterator_limit by done. unfold stripped at 1. rewrite fmap_take.
    fold (stripped (elemPrefix p_ ns coll) (newSliceIterator (base s) (Some (elemPrefix p_ ns coll))
      (prefixEnd (elemPrefix p_ ns coll)) 0)). fold rows.
    rewrite Ho, fmap_take; [done|]. intros x Hx. by eapply elem_of_take in Hx as (i & Hx%list_elem_of_lookup_2 & _).
  - rewrite (newSliceIterator_all _ _ _ limit), <-(newSliceIterator_all _ _ _ 0) by lia. fold rows.
    by rewrite Ho.
Qed.

End reads.

(** ZRANGE lists a sorted set in score order: every member exactly once with its
    score, ascending by score and by member among equal scores; a limit keeps
    the first members. *)
Theorem zrange_sorted {S} `{LocalStoreSpec S} `{FloatText} (s : baseSM S) (ns coll : bytes) (limit : Z) :
  ls_live (sm_store s) → counted (sm_prefix s) (base s) → nc_ok ns coll →
  tyOf (sm_prefix s) (base s) ns coll = typeZSet →
  ∃ l, Lookup s (zRangeQuery ns coll limit) =
         Ok (AScored (if 0 <? limit then take (Z.to_nat limit) l else l)) ∧
    StronglySorted zle l ∧ NoDup l ∧
    (∀ mem f, (mem, f) ∈ l ↔
       in_u64 f ∧ content (sm_prefix s) typeZSet (base s) ns coll !! mem = Some (put_u64 f)).
Proof.
  intros Hl Hc Hn Ht. exists (scored <$> rows s ns coll). split_and!.
  - by apply Lookup_zRange.
  - by apply zrows_sorted.
  - eapply zle_NoDup, zrows_sorted; done.
  - intros mem f. by apply zrows_members.
Qed.

(** ** Sample runs *)

Definition member (m : string) : item := mkItem (lit m) [] 0 0.
Definition scoredMember (m : string) (f : Z) : item := mkItem (lit m) [] f 0.

Definition setRun : list (list entry) :=
  [one (cmdOf opSAdd [] [member "a"; member "b"; member "a"]); one (cmdOf opSRem [] [member "b"; member "c"])].
Definition zsetRun : list (list entry) :=
  [one (cmdOf opZAdd [] [scoredMember "x" 7; scoredMember "y" 3; scoredMember "x" 1])].

Lemma bounded_two (b1 b2 : list entry) :
  (match runBatches shard0 [b1] with Ok s' => Z.of_nat (size (base s')) <? 2 ^ 63 | Err _ => true end) = true →
  (match runBatches shard0 [b1; b2] with Ok s' => Z.of_nat (size (base s')) <? 2 ^ 63 | Err _ => true end) = true →
  bounded shard0 [b1; b2].
Proof.
  intros H1 H2 k s' Hr. apply Z.ltb_lt. destruct k as [|[|k]].
  - injection Hr as <-. by vm_compute.
  - cbn [take] in Hr. by rewrite Hr in H1.
  - rewrite take_ge in Hr by (simpl; lia). by rewrite Hr in H2.
Qed.

Lemma card_exact_witness :
  ∃ s' n, runBatches shard0 setRun = Ok s' ∧ Lookup s' (cardQuery ns0 coll0) = Ok (ACard n) ∧
    Lookup s' (cardCheckQuery ns0 coll0) = Ok (ACheck (mkCardCheck n n)).
Proof.
  destruct (card_exact shard0 setRun ns0 coll0) as (s' & n & Hr & _ & H1 & H2).
  - done.
  - apply shard0_fresh.
  - vm_compute. reflexivity.
  - apply bounded_two; vm_compute; reflexivity.
  - split; vm_compute; reflexivity.
  - exists s', n. exact (conj Hr (conj H1 H2)).
Defined.

Lemma element_command_spec_witness :
  ∃ r s', Update shard0 (one (cmdOf opSAdd [] [member "a"; member "b"; member "a"])) = Ok ([r], s') ∧
    tyOf (sm_prefix shard0) (base s') ns0 coll0 = typeSet.
Proof.
  destruct (element_command_spec shard0 (mkEntry 1 (cmdOf opSAdd [] [member "a"; member "b"; member "a"]))
    (mkCommand opSAdd ns0 coll0 [] [member "a"; member "b"; member "a"]) []) as (r & s' & HU & Ho).
  - done.
  - apply fresh_cards, shard0_fresh.
  - apply fresh_counted, shard0_fresh.
  - vm_compute. reflexivity.
  - reflexivity.
  - intros [[=]|[=]].
  - reflexivity.
  - vm_compute. reflexivity.
  - reflexivity.
  - exists r, s'. split; [exact HU|]. rewrite decide_True in Ho by (right; vm_compute; reflexivity).
    exact (proj1 Ho).
Defined.

Lemma zrange_sorted_witness :
  ∃ s' l, runBatches shard0 zsetRun = Ok s' ∧ Lookup s' (zRangeQuery ns0 coll0 1) = Ok (AScored (take 1 l)) ∧
    StronglySorted zle l.
Proof.
  assert (match runBatches shard0 zsetRun with
    | Ok s' => bool_decide (tyOf (sm_prefix s') (base s') ns0 coll0 = typeZSet) = true | Err _ => False end) as Ht
    by (vm_compute; reflexivity).
  destruct (runBatches_counted shard0 (zsetRun ++ [[]])) as (s' & Hr & Hl & Hp & _ & Hc).
  - done.
  - apply fresh_cards, shard0_fresh.
  - apply fresh_counted, shard0_fresh.
  - apply bounded_two; vm_compute; reflexivity.
  - vm_compute. reflexivity.
  - assert (runBatches shard0 (zsetRun ++ [[]]) = runBatches shard0 zsetRun) as E by (vm_compute; reflexivity).
    rewrite E in Hr. rewrite Hr in Ht. apply bool_decide_eq_true in Ht.
    destruct (zrange_sorted s' ns0 coll0 1 Hl) as (l & H1 & H2 & _).
    + rewrite Hp. exact Hc.
    + split; vm_compute; reflexivity.
    + exact Ht.
    + exists s', l. exact (conj Hr (conj H1 H2)).
Defined.

(** ** Idempotency keys *)

Section dedup.
Context {S : Type} `{LocalStoreSpec S} `{FloatText} (s : baseSM S) (Hlive : ls_live (sm_store s)).
Local Abbreviation p_ := (sm_prefix s).

(** A result worth caching. *)
Definition cacheable (r : ProposeResult) : Prop := Data r ≠ wrongType ∧ Data r ≠ notNumber.

(** The cached row of a result, and the batch overlay's copy. *)
Definition cached (u : updateCtx) (key : bytes) (r : ProposeResult) : Prop :=
  in_u64 (Value r) ∧ eff s u !! dedupKey p_ key = Some (put_u64 (Value r) ++ Data r) ∧
  inBatchDedup u !! key = Some r.

Lemma recordDedup_cached c r u :
  in_u64 (Value r) → cached (recordDedup s c r u).2 (Idem c) r.
Proof.
  intros Hv. unfold recordDedup, dedupRecord, lift, gets. unfold mbind, M_bind. cbv zeta.
  rewrite getData_live by done. cbn [fst snd]. unfold cached. split; [done|].
  destruct (base s !! _) as [[|x l]|];
    (split; [unfold eff; simpl; rewrite !apply_ops_app; apply lookup_insert_eq|simpl; apply lookup_insert_eq]).
Qed.

Lemma dispatch_cached c u r u' :
  isBudOp (Op c) = false → dispatch s c true u = (Ok r, u') → cacheable r → cached u' (Idem c) r.
Proof.
  intros Hb E [Hr1 Hr2]. revert E. unfold dispatch. rewrite Hb. unfold mbind at 1, M_bind at 1.
  destruct (_ u) as [[b|] u1]; [|done]. destruct b; cbn [negb]; [|by intros [= <- _]]. destruct (_ || _).
  - unfold applyHIncr. destruct (Items c) as [|it its]; [done|]. unfold mbind at 1, M_bind at 1.
    destruct (_ u1) as [[[n data]|] u2]; [|done]. unfold mbind, M_bind. cbn [andb].
    destruct (bool_decide (data = notNumber)) eqn:Ed; cbn [negb].
    { apply bool_decide_eq_true in Ed. intros [= <- _]. done. }
    pose proof (recordDedup_cached c (mkResult (uint64 n) data) u2 (uint64_range n)) as Hc.
    destruct (recordDedup s c _ u2) as [[]u3]; [|done]. by intros [= <- <-].
  - unfold applyElems, mbind, M_bind. destruct (applyCommand s c u1) as [[n|] u2]; [|done].
    pose proof (recordDedup_cached c (mkResult (uint64 n) []) u2 (uint64_range n)) as Hc.
    destruct (recordDedup s c _ u2) as [[]u3]; [|done]. by intros [= <- <-].
Qed.

(** A key that is cached answers the command without applying it. *)
Lemma applyOne_cached c cmd fz u r :
  decodeCommand cmd = Ok c → Idem c ≠ [] → frozenCovers fz (routeKey (NS c) (Coll c)) = false →
  inBatchDedup u !! Idem c = Some r ∨ inBatchDedup u !! Idem c = None ∧ dedupGet s (Idem c) = Ok (Some r) →
  applyEntryBody s cmd fz u = (Ok r, u).
Proof.
  intros Hd Hi Hf Hc. destruct (single_entry s cmd c fz u Hd) as [Hm ->].
  unfold applyOne, lift, mbind at 1, M_bind at 1. rewrite Hd, Hf, andb_false_r, Hm.
  assert (0 <? lenZ (Idem c) = true) as ->.
  { apply Z.ltb_lt. unfold lenZ. destruct (Idem c); [done|]. simpl. lia. }
  cbn [andb]. unfold gets, mbind, M_bind. destruct Hc as [->|[-> ->]]; done.
Qed.

Lemma dedupGet_cached key r :
  in_u64 (Value r) → base s !! dedupKey p_ key = Some (put_u64 (Value r) ++ Data r) →
  dedupGet s key = Ok (Some r).
Proof.
  intros Hv E. unfold dedupGet. rewrite getData_live, E by done. cbn [res_bind].
  destruct (Z.ltb_spec (lenZ (put_u64 (Value r) ++ Data r)) 8) as [Hl|].
  { unfold lenZ in Hl. rewrite length_app, length_put_u64 in Hl. lia. }
  rewrite get_put_u64 by done. rewrite drop_app_length' by (by rewrite length_put_u64). by destruct r.
Qed.

(** A key that is not cached lets the command through. *)
Lemma applyOne_uncached c cmd fz u :
  decodeCommand cmd = Ok c → Idem c ≠ [] → frozenCovers fz (routeKey (NS c) (Coll c)) = false →
  inBatchDedup u = ∅ → dedupGet s (Idem c) = Ok None →
  applyEntryBody s cmd fz u = dispatch s c true u.
Proof.
  intros Hd Hi Hf Hu Hg. destruct (single_entry s cmd c fz u Hd) as [Hm ->].
  unfold applyOne, lift, mbind at 1, M_bind at 1. rewrite Hd, Hf, andb_false_r, Hm.
  assert (0 <? lenZ (Idem c) = true) as ->.
  { apply Z.ltb_lt. unfold lenZ. destruct (Idem c); [done|]. simpl. lia. }
  cbn [andb]. unfold gets, mbind, M_bind. by rewrite Hu, lookup_empty, Hg.
Qed.

Lemma Update_off es rs s' :
  cards_wf s (base s) → es ≠ [] → Update s es = Ok (rs, s') →
  ∃ fz seq u, loadFrozen s = Ok fz ∧ readDedupSeq s = Ok seq ∧
    applyEntries s fz es (set_dedupSeq seq emptyCtx) = Ok (rs, u) ∧ sm_prefix s' = p_ ∧ ls_live (sm_store s') ∧
    ∀ key, base s' !! dedupKey p_ key = eff s u !! dedupKey p_ key.
Proof.
  intros Hw Hne HU. destruct (Update_run s Hlive es Hw Hne)
    as (fz & seq & rs0 & u & tl & st & Hfz & Hseq & He & _ & E & Hst & Ht & F & Hv).
  rewrite E in HU. injection HU as -> <-. exists fz, seq, u. split_and!; try done.
  intros key. unfold base; simpl. rewrite Hv by done. rewrite apply_ops_app. apply apply_ops_lookup_ne.
  eapply Forall_impl; [exact Ht|]. intros op (_ & _ & Hop) Ek. apply (f_equal (sub_of p_)) in Ek.
  unfold dedupKey in Ek. cbn [app] in Ek. rewrite sub_of_app in Ek.
  destruct Hop as [Ho|[Ho|[(ns & coll & _ & Ho) _]]]; rewrite Ho in Ek.
  - unfold dedupSeqKey in Ek. cbn [app] in Ek. by rewrite sub_of_app in Ek.
  - unfold appliedKey in Ek. cbn [app] in Ek. by rewrite sub_of_app in Ek.
  - rewrite cardKey_dkey, sub_of_dkey in Ek. done.
Qed.

Lemma Update_noop e r fz :
  loadFrozen s = Ok fz → (∀ u, inBatchDedup u = ∅ → applyEntryBody s (e_Cmd e) fz u = (Ok r, u)) →
  ∃ s', Update s [e] = Ok ([r], s') ∧ ∀ k, k ≠ appliedKey p_ → base s' !! k = base s !! k.
Proof.
  intros Hfz Hb. destruct (startCtx_ok s Hlive) as (_ & seq & _ & _ & Hseq).
  destruct (ls_BatchRC_ok (sm_store s) [putOp CFReplData (appliedKey p_) (put_u64 (e_Index e))])
    as (st & Hst & _ & Hv); [done|by repeat constructor|].
  exists (with_store s st). split.
  - unfold Update. cbn [last]. rewrite Hfz, Hseq. cbn [res_bind applyEntries]. unfold applyEntrySafe.
    rewrite Hb by done. cbn [res_bind]. rewrite Z.eqb_refl. simpl. rewrite map_to_list_empty. simpl.
    by rewrite Hst.
  - intros k Hk. unfold base; simpl. rewrite Hv by done. by apply lookup_insert_ne.
Qed.

End dedup.

(** C26: a keyed write is applied once. When a set, hash or sorted-set command with
    an idempotency key not seen before is applied and answers with a result (not
    WRONGTYPE, not NOTNUM), the same command again (in the next batch, or in the
    same one) answers with the same result and changes no data. *)
Theorem keyed_retry_once {S} `{LocalStoreSpec S} `{FloatText} (s s1 : baseSM S) (e e' : entry)
    (c : command) (fz fz1 : list frozenRange) (r : ProposeResult) (seq : Z) :
  ls_live (sm_store s) → cards_wf s (base s) → counted (sm_prefix s) (base s) →
  decodeCommand (e_Cmd e) = Ok c → e_Cmd e' = e_Cmd e → isBudOp (Op c) = false → incr_ok c →
  Idem c ≠ [] → dedupGet s (Idem c) = Ok None →
  loadFrozen s = Ok fz → frozenCovers fz (routeKey (NS c) (Coll c)) = false →
  loadFrozen s1 = Ok fz1 → frozenCovers fz1 (routeKey (NS c) (Coll c)) = false →
  readDedupSeq s = Ok seq → Update s [e] = Ok ([r], s1) → cacheable r →
  (∃ s2, Update s1 [e'] = Ok ([r], s2) ∧
     ∀ k, k ≠ appliedKey (sm_prefix s) → base s2 !! k = base s1 !! k) ∧
  (∃ u, applyEntries s fz [e] (set_dedupSeq seq emptyCtx) = Ok ([r], u) ∧
        applyEntries s fz [e; e'] (set_dedupSeq seq emptyCtx) = Ok ([r; r], u)).
Proof.
  intros Hl Hw Hc Hd He Hb Hi Hk Hg Hfz Hcov Hfz1 Hcov1 Hseq HU Hr.
  pose proof (decodeCommand_ok _ _ Hd) as [Hn _]. pose proof (decodeCommand_inv _ _ Hd) as (Hwf & _).
  destruct (Update_off s Hl [e] [r] s1 Hw ltac:(done) HU) as (fz' & seq' & u & Hfz' & Hseq' & Hrun & Hp & Hl1 & Hkey).
  rewrite Hfz in Hfz'. injection Hfz' as <-. rewrite Hseq in Hseq'. injection Hseq' as <-.
  set (u0 := set_dedupSeq seq emptyCtx) in *.
  assert (coh s u0 (NS c) (Coll c)) as Hu0 by (by apply (all_coh_start s Hl); [apply counted_shaped|]).
  destruct (ok_dispatch_own s Hl _ _ Hn c eq_refl eq_refl true u0 Hu0 Hwf Hi Hb) as (r' & Er & _).
  assert (applyEntryBody s (e_Cmd e) fz u0 = dispatch s c true u0) as Eb by (by apply applyOne_uncached).
  destruct (dispatch s c true u0) as [x u'] eqn:Ed. simpl in Er. subst x.
  pose proof Hrun as Hrun'. cbn [applyEntries] in Hrun'. unfold applyEntrySafe in Hrun'. rewrite Eb in Hrun'.
  injection Hrun' as -> ->. destruct (dispatch_cached s Hl c u0 r u Hb Ed Hr) as (Hv & Hrow & Hov). split.
  - rewrite <-Hp. apply (Update_noop s1 Hl1 e' r fz1); [done|]. intros u1 Hu1. rewrite He.
    apply (applyOne_cached s1 Hl1 c); [done..|]. right. split; [by rewrite Hu1|].
    apply dedupGet_cached; [done|done|]. by rewrite Hp, Hkey.
  - exists u. split; [done|]. cbn [applyEntries]. unfold applyEntrySafe. rewrite Eb. cbn [res_bind].
    rewrite He, (applyOne_cached s Hl c _ _ _ r) by (first [done|by left]). done.
Qed.

(** A counter incremented by 5 under the key "k". *)
Definition keyedIncr : command :=
  mkCommand opHIncrBy ns0 coll0 (lit "k") [mkItem (lit "f") (putI64 5) 0 0].
Definition shardK : baseSM MemStore :=
  match Update shard0 (one (encodeCommand keyedIncr)) with Ok (_, s) => s | Err _ => shard0 end.

Lemma keyed_retry_once_witness :
  ∃ s2, Update shardK [mkEntry 2 (encodeCommand keyedIncr)] = Ok ([mkResult 1 (putI64 5)], s2).
Proof.
  destruct (keyed_retry_once shard0 shardK (mkEntry 1 (encodeCommand keyedIncr))
    (mkEntry 2 (encodeCommand keyedIncr)) keyedIncr [] [] (mkResult 1 (putI64 5)) 0) as [(s2 & HU & _) _].
  - done.
  - apply fresh_cards, shard0_fresh.
  - apply fresh_counted, shard0_fresh.
  - vm_compute. reflexivity.
  - reflexivity.
  - reflexivity.
  - intros _. eexists _, _. split; [reflexivity|]. intros _. vm_compute. discriminate.
  - discriminate.
  - vm_compute. reflexivity.
  - vm_compute. reflexivity.
  - reflexivity.
  - vm_compute. reflexivity.
  - reflexivity.
  - vm_compute. reflexivity.
  - vm_compute. reflexivity.
  - split; discriminate.
  - exists s2. exact HU.
Defined.

End ElementSystem.
