(* ===== verification/Batching.v ===== *)
(** * Whole batches of element commands

    The shard as a map from collections to finite maps: a batch of set, hash and
    sorted-set commands, single or coalesced, has the effect and the replies of
    applying the commands' meanings one after the other. Consequently it does not
    matter how the log is cut into batches. Two examples show where it does: the
    TTL of a member removed in the same batch, and a freeze followed by a write in
    the same batch. *)

From S2P Require Import Prelude Bytes Strconv Storage Command Keys Ctx CtxLogic Budget Ledger.
From S2P Require Import BudgetRefine ShardSM Samples ShardFrame ShardUpdate BudgetSystem Elements ElementSystem.

Local Open Scope Z_scope.
#[local] Set Default Proof Using "Type*".

Module Batching.
Import Storage Command Keys Ctx CtxLogic Budget BudgetRefine ShardSM Samples ShardFrame ShardUpdate.
Import BudgetSystem Elements ElementSystem.

(** ** The abstract shard *)

(** Type and contents of every collection. *)
Definition colls := bytes * bytes → byte * gmap bytes bytes.

Definition colls_at (p : bytes) (m : gmap bytes bytes) (A : colls) : Prop :=
  ∀ ns coll, nc_ok ns coll →
    A (ns, coll) = (tyOf p m ns coll, content p (tyOf p m ns coll) m ns coll).

Section spec.
Context `{FloatText}.

Definition stepSpec (c : command) (A : colls) : colls * ProposeResult :=
  let '(t, m) := A (NS c, Coll c) in
  let T := targetType t c in
  if decide (t = T ∨ t = typeNone) then
    let '(m', r) := cmdSpec c (λ _, None) T m in
    (λ x, if decide (x = (NS c, Coll c)) then (T, m') else A x, r)
  else (A, sentinel wrongType).

Fixpoint cmdsSpec (cs : list command) (A : colls) : colls * list ProposeResult :=
  match cs with
  | [] => (A, [])
  | c :: cs' =>
      let '(A1, r) := stepSpec c A in
      let '(A2, rs) := cmdsSpec cs' A1 in
      (A2, r :: rs)
  end.

(** The commands of an entry, a coalesced one included. *)
Fixpoint decodeAll (bs : list bytes) : option (list command) :=
  match bs with
  | [] => Some []
  | b :: bs' =>
      match decodeCommand b, decodeAll bs' with
      | Ok c, Some cs => Some (c :: cs)
      | _, _ => None
      end
  end.

Definition entryCmds (e : entry) : option (list command) :=
  match decodeBatch (e_Cmd e) with
  | Ok subs => decodeAll subs
  | Err _ => decodeAll [e_Cmd e]
  end.

Definition entrySpec (e : entry) (A : colls) : colls * ProposeResult :=
  let '(A', rs) := cmdsSpec (default [] (entryCmds e)) A in
  (A', match decodeBatch (e_Cmd e), rs with
       | Ok _, _ => mkResult 0 (encodeBatchResult [] rs)
       | Err _, r :: _ => r
       | Err _, [] => mkResult 0 []
       end).

Fixpoint entriesSpec (es : list entry) (A : colls) : colls * list ProposeResult :=
  match es with
  | [] => (A, [])
  | e :: es' =>
      let '(A1, r) := entrySpec e A in
      let '(A2, rs) := entriesSpec es' A1 in
      (A2, r :: rs)
  end.

Lemma entriesSpec_app es1 es2 A :
  entriesSpec (es1 ++ es2) A =
    let '(A1, rs1) := entriesSpec es1 A in
    let '(A2, rs2) := entriesSpec es2 A1 in (A2, rs1 ++ rs2).
Proof.
  revert A. induction es1 as [|e es1 IH]; intros A; cbn [app entriesSpec].
  { by destruct (entriesSpec es2 A). }
  destruct (entrySpec e A) as [A1 r]. rewrite IH.
  destruct (entriesSpec es1 A1) as [A2 rs1]. by destruct (entriesSpec es2 A2).
Qed.

End spec.

(** ** Plain commands *)

(** An element command without idempotency key, and not the sweeper's expiry. *)
Definition plainCmd (c : command) : bool :=
  negb (isBudOp (Op c)) && negb (bool_decide (Op c = opExpire)) && bool_decide (Idem c = []) &&
  match Op c with
  | opHIncrBy => match Items c with it :: _ => 8 <=? lenZ (Val it) | [] => false end
  | opHIncrByFloat => match Items c with _ :: _ => true | [] => false end
  | _ => true
  end.

Definition plainEntry (e : entry) : bool :=
  match entryCmds e with Some cs => forallb plainCmd cs | None => false end.

Lemma plainCmd_ok c : plainCmd c = true →
  isBudOp (Op c) = false ∧ Op c ≠ opExpire ∧ Idem c = [] ∧ incr_ok c.
Proof.
  unfold plainCmd. rewrite !andb_true_iff, !negb_true_iff, bool_decide_eq_false, bool_decide_eq_true.
  intros (((? & ?) & ?) & Hi). split_and!; try done. intros [E|E]; rewrite E in Hi.
  - destruct (Items c) as [|it its]; [done|]. exists it, its. split; [done|]. intros _. by apply Z.leb_le.
  - destruct (Items c) as [|it its]; [done|]. exists it, its. split; [done|]. by rewrite E.
Qed.

Lemma itemsSpec_exp t exp exp' op its m :
  op ≠ opExpire → itemsSpec t exp op its m = itemsSpec t exp' op its m.
Proof.
  intros Hop. revert m. induction its as [|it its IH]; intros m; [done|]. cbn [itemsSpec].
  assert (itemSpec t (exp (Key it)) op it m = itemSpec t (exp' (Key it)) op it m) as -> by (by destruct op).
  destruct (itemSpec _ _ _ _ _) as [m1 d]. by rewrite IH.
Qed.

Lemma cmdSpec_exp `{FloatText} c exp exp' T m :
  Op c ≠ opExpire → cmdSpec c exp T m = cmdSpec c exp' T m.
Proof. intros Hop. unfold cmdSpec. by rewrite (itemsSpec_exp T exp exp'). Qed.

Section refine.
Context {S : Type} `{LocalStoreSpec S} `{FloatText} (s : baseSM S) (Hlive : ls_live (sm_store s)).
Local Abbreviation p_ := (sm_prefix s).

Definition holds (u : updateCtx) (A : colls) : Prop := all_coh s u ∧ colls_at p_ (eff s u) A.

(** A collection without a type is empty, whatever type it is read at. *)
Lemma content_none u ns coll T :
  coh s u ns coll → nc_ok ns coll → tyOf p_ (eff s u) ns coll = typeNone →
  content p_ T (eff s u) ns coll = content p_ typeNone (eff s u) ns coll.
Proof.
  intros Hu Hn Ht. destruct (co_shape _ _ _ _ Hu) as [_ S2 S3 _ _ _].
  assert (∀ T r, content p_ T (eff s u) ns coll !! r = None) as E.
  { intros T' r. destruct (decide (T' = typeZSet)) as [->|Hne].
    - rewrite lookup_zcontent by done. apply S2. by rewrite Ht.
    - rewrite content_elems, lookup_elems by done. apply S3; by rewrite Ht. }
  apply map_eq. intros r. by rewrite !E.
Qed.

Lemma dispatch_spec c u A :
  cmd_ok c → command_wf c → plainCmd c = true → holds u A →
  ok (dispatch s c false) u (λ r u', ∃ A', stepSpec c A = (A', r) ∧ holds u' A').
Proof.
  intros Hc Hwf (Hb & Hop & _ & Hi)%plainCmd_ok [Hu HA].
  pose proof (proj1 Hc) as Hn. destruct (ok_dispatch_own s Hlive _ _ Hn c eq_refl eq_refl false u (Hu _ _ Hn) Hwf Hi Hb)
    as (r & Hr & Ho).
  assert (all_coh s (dispatch s c false u).2) as Hu' by (by eapply (dispatch_coh s Hlive c false Hc Hwf u r)).
  assert (∀ ns coll, nc_ok ns coll → (NS c, Coll c) ≠ (ns, coll) →
    become s ns coll u (content p_ (tyOf p_ (eff s u) ns coll) (eff s u) ns coll) (dispatch s c false u).2) as Hoth.
  { intros ns coll Hn' Hne. apply become_offShape; [done|done|by apply Hu|].
    eapply msafe_mono; [|by apply msafe_dispatch_elem]. intros k Hk. eapply cmdKey_offShape; eauto. }
  exists r. split; [done|]. unfold stepSpec. rewrite (HA _ _ Hn). unfold outcome in Ho.
  change (targetType (tyOf p_ (eff s u) (NS c) (Coll c)) c) with (workType s (NS c) (Coll c) c u).
  set (T := workType s (NS c) (Coll c) c u) in *. set (t := tyOf p_ (eff s u) (NS c) (Coll c)) in *.
  destruct (decide (t = T ∨ t = typeNone)) as [HT|HT].
  - destruct Ho as (_ & Et & E).
    assert (content p_ T (eff s u) (NS c) (Coll c) = content p_ t (eff s u) (NS c) (Coll c)) as Ec.
    { destruct HT as [->|Hnone]; [done|]. rewrite Hnone. apply content_none; [by apply Hu|done|done]. }
    rewrite Ec in E. rewrite (cmdSpec_exp c (λ _, None) (storedExp s (NS c) (Coll c))) by done. rewrite E.
    eexists. split; [done|]. split; [done|]. intros ns coll Hn'. destruct (decide _) as [[= -> ->]|Hne].
    + by rewrite Et.
    + destruct (Hoth ns coll Hn') as (_ & E1 & E2); [congruence|]. rewrite E1 in *. by rewrite E2, HA.
  - destruct Ho as (-> & _ & Et & Em). exists A. split; [done|]. split; [done|]. intros ns coll Hn'.
    destruct (decide ((NS c, Coll c) = (ns, coll))) as [[= <- <-]|Hne].
    + rewrite HA by done. fold t. rewrite Et in *. by rewrite Em.
    + destruct (Hoth ns coll Hn' Hne) as (_ & E1 & E2). rewrite E1 in *. by rewrite E2, HA.
Qed.

(** ** Entries *)

Lemma applyOne_spec b c u A :
  decodeCommand b = Ok c → plainCmd c = true → holds u A →
  ok (applyOne s b []) u (λ r u', ∃ A', stepSpec c A = (A', r) ∧ holds u' A').
Proof.
  intros Hd Hp Hu. pose proof (plainCmd_ok _ Hp) as (_ & _ & Hi & _).
  pose proof (decodeCommand_ok _ _ Hd) as Hc. pose proof (decodeCommand_inv _ _ Hd) as (Hwf & _).
  unfold applyOne. eapply ok_bind, ok_lift; [exact Hd|].
  assert (mutates (Op c) && (0 <? lenZ (Idem c)) = false) as -> by (by rewrite Hi, andb_false_r).
  match goal with |- ok _ _ ?Q => change (ok (dispatch s c false) u Q) end. by apply dispatch_spec.
Qed.

Lemma applySubs_spec subs cs acc u A :
  decodeAll subs = Some cs → forallb plainCmd cs = true → holds u A →
  ok (mfold (λ rs sub, r ← applyOne s sub []; mret (rs ++ [r])) acc subs) u
    (λ rs u', ∃ A' rs', cmdsSpec cs A = (A', rs') ∧ rs = acc ++ rs' ∧ holds u' A').
Proof.
  revert cs acc u A. induction subs as [|b subs IH]; intros cs acc u A Hd Hp Hu.
  { injection Hd as <-. apply ok_ret. exists A, []. by rewrite app_nil_r. }
  cbn [decodeAll] in Hd. destruct (decodeCommand b) as [c|] eqn:Eb; [|done].
  destruct (decodeAll subs) as [cs'|] eqn:Es; [|done]. injection Hd as <-.
  simpl in Hp. apply andb_true_iff in Hp as [Hp Hps]. cbn [mfold]. apply ok_bind, ok_bind.
  eapply ok_mono; [by apply (applyOne_spec b c)|]. intros r u1 (A1 & E1 & Hu1). apply ok_ret.
  eapply ok_mono; [by apply (IH cs')|]. intros rs u2 (A2 & rs' & E2 & -> & Hu2).
  exists A2, (r :: rs'). cbn [cmdsSpec]. rewrite E1, E2. split_and!; [done| |done]. by rewrite <-app_assoc.
Qed.

Lemma decodeBatch_head cmd subs : decodeBatch cmd = Ok subs → opKindOf <$> head cmd = Some opBatch.
Proof using Type.
  unfold decodeBatch. destruct cmd as [|b l]; [done|]. case_bool_decide as E; [|done]. simpl. by rewrite E.
Qed.

(** A plain entry is a coalesced batch or a single command. *)
Lemma plainEntry_inv e :
  plainEntry e = true → ∃ cs, entryCmds e = Some cs ∧ forallb plainCmd cs = true ∧
    ((∃ subs, decodeBatch (e_Cmd e) = Ok subs ∧ decodeAll subs = Some cs) ∨
     (∃ c err, decodeBatch (e_Cmd e) = Err err ∧ decodeCommand (e_Cmd e) = Ok c ∧ cs = [c])).
Proof using Type.
  unfold plainEntry, entryCmds. destruct (decodeBatch (e_Cmd e)) as [subs|err] eqn:Eb.
  - destruct (decodeAll subs) as [cs|] eqn:Ed; [|done]. intros Hp. exists cs. split_and!; [done|done|left; eauto].
  - cbn [decodeAll]. destruct (decodeCommand (e_Cmd e)) as [c|] eqn:Ed; [|done]. intros Hp. exists [c].
    split_and!; [done|done|]. right. eauto 8.
Qed.

Lemma entry_batch cmd fz u subs :
  decodeBatch cmd = Ok subs → applyEntryBody s cmd fz u =
    (rs ← applySubs s fz subs; mret (mkResult 0 (encodeBatchResult [] rs))) u.
Proof.
  intros Hd. pose proof (decodeBatch_head _ _ Hd) as Hh. unfold applyEntryBody. rewrite Hh.
  do 2 rewrite decide_False by (by intros [[=]|[=]]). rewrite decide_True by done.
  unfold lift, mbind at 1, M_bind at 1. by rewrite Hd.
Qed.

Lemma entry_spec e u A :
  plainEntry e = true → holds u A →
  ok (applyEntryBody s (e_Cmd e) []) u (λ r u', ∃ A', entrySpec e A = (A', r) ∧ holds u' A').
Proof.
  intros (cs & Ec & Hp & Hcase)%plainEntry_inv Hu. unfold entrySpec. rewrite Ec. change (default [] (Some cs)) with cs.
  destruct Hcase as [(subs & Eb & Ed)|(c & err & Eb & Ed & ->)]; rewrite Eb.
  - eapply ok_ext; [exact (entry_batch _ _ _ subs Eb)|]. apply ok_bind.
    eapply ok_mono; [by apply (applySubs_spec subs cs)|]. intros rs u' (A' & rs' & E & -> & Hu').
    apply ok_ret. rewrite E. eauto.
  - eapply ok_ext; [exact (proj2 (single_entry s (e_Cmd e) c [] u Ed))|].
    simpl in Hp. rewrite andb_true_r in Hp. eapply ok_mono; [by apply (applyOne_spec _ c)|]. intros r u' (A' & E & Hu').
    cbn [cmdsSpec]. rewrite E. eauto.
Qed.

Lemma entries_spec es u A :
  forallb plainEntry es = true → holds u A →
  ∃ rs u' A', applyEntries s [] es u = Ok (rs, u') ∧ entriesSpec es A = (A', rs) ∧ holds u' A'.
Proof.
  revert u A. induction es as [|e es IH]; intros u A Hp Hu; [by exists [], u, A|].
  simpl in Hp. apply andb_true_iff in Hp as [Hp Hps].
  destruct (entry_spec e u A Hp Hu) as (r & Hr & A1 & E1 & Hu1).
  destruct (IH _ A1 Hps Hu1) as (rs & u' & A' & E2 & E3 & Hu').
  exists (r :: rs), u', A'. cbn [applyEntries entriesSpec]. unfold applyEntrySafe.
  destruct (applyEntryBody s (e_Cmd e) [] u) as [x u1]. simpl in *. subst x. cbn [res_bind].
  rewrite E1, E2, E3. done.
Qed.

(** ** Freezes *)

Definition unfrozen (m : gmap bytes bytes) : Prop := ∀ r, m !! frozenKey p_ r = None.

Lemma loadFrozen_unfrozen : unfrozen (base s) → loadFrozen s = Ok [].
Proof.
  intros Hf. unfold loadFrozen. rewrite ls_Scan_ok by done. cbn [fatal_res res_bind]. fold (base s).
  destruct (newSliceIterator _ _ _ _) as [|[k v] l] eqn:E; [done|]. exfalso.
  assert ((k, v) ∈ newSliceIterator (base s) (Some (frozenSpace p_)) (prefixEnd (frozenSpace p_)) 0) as Hin
    by (rewrite E; by left).
  apply elem_of_prefix_scan in Hin as [Hk [r ->]]. change (base s !! frozenKey p_ r = Some v) in Hk.
  by rewrite (Hf r) in Hk.
Qed.

Lemma msafe_plain e fz : plainEntry e = true → msafe p_ (cmdKey p_) (applyEntryBody s (e_Cmd e) fz).
Proof.
  intros (cs & _ & _ & [(subs & Eb & _)|(c & err & _ & Ed & _)])%plainEntry_inv u.
  - rewrite (entry_batch _ _ _ subs Eb). revert u.
    change (msafe p_ (cmdKey p_) (rs ← applySubs s fz subs; mret (mkResult 0 (encodeBatchResult [] rs)))).
    apply msafe_bind; [|intros; apply msafe_ret]. apply msafe_mfold. intros.
    apply msafe_bind; [by apply msafe_applyOne|intros; apply msafe_ret].
  - destruct (single_entry s (e_Cmd e) c fz u Ed) as [_ ->]. by apply msafe_applyOne.
Qed.

Lemma cmdKey_not_frozen r : ¬ cmdKey p_ (frozenKey p_ r).
Proof.
  assert (sub_of p_ (frozenKey p_ r) = Some subMeta) as E
    by (unfold frozenKey, frozenSpace; rewrite <-!app_assoc; apply sub_of_app).
  intros (ns & coll & _ & [[(sc & r' & _ & Ek)|[(t & r' & Ek)|(sub & r' & Hs & Ek)]]|[(sc & r' & _ & Ek)|(sub & t & r' & Hs & Ek)]]);
    rewrite Ek, ?sub_of_dkey, ?sub_of_ikey, ?sub_of_app in E; try done; by destruct Hs as [->| ->].
Qed.

Lemma plain_noMigrate es :
  forallb plainEntry es = true → forallb (λ e, negb (isMigrate (e_Cmd e))) es = true.
Proof using Type.
  intros Hp. apply forallb_forall. intros e Hin. rewrite forallb_forall in Hp. specialize (Hp e Hin).
  apply negb_true_iff. apply plainEntry_inv in Hp as (cs & _ & _ & [(subs & Eb & _)|(c & err & _ & Ed & _)]).
  - apply decodeBatch_head in Eb. unfold isMigrate. destruct (head (e_Cmd e)); [|done].
    injection Eb as Eb. by rewrite Eb.
  - pose proof (decodeCommand_inv _ _ Ed) as ([[Ho Hs] _] & _ & _ & _ & _ & tl & E). rewrite E.
    unfold encodeCommand. rewrite appendCommand_flat. unfold isMigrate. cbn [app head]. rewrite Ho.
    destruct (Op c); try done; naive_solver.
Qed.

(** ** Update *)

Lemma Update_refines es A :
  cards_wf s (base s) → shaped p_ (base s) → unfrozen (base s) → colls_at p_ (base s) A →
  forallb plainEntry es = true →
  ∃ rs s' A', Update s es = Ok (rs, s') ∧ entriesSpec es A = (A', rs) ∧ colls_at p_ (base s') A' ∧
    ls_live (sm_store s') ∧ sm_prefix s' = p_ ∧
    cards_wf s (base s') ∧ shaped p_ (base s') ∧ unfrozen (base s').
Proof.
  intros Hw Hsh Hf HA Hp. destruct (decide (es = [])) as [->|Hne]; [by exists [], s, A|].
  destruct (Update_run s Hlive es Hw Hne) as (fz & seq & rs & u & tl & st & Hfz & Hseq & He & _ & HU & Hst & Ht & _ & Hv).
  rewrite (loadFrozen_unfrozen Hf) in Hfz. injection Hfz as <-.
  destruct (Update_data s Hlive es rs _ Hw Hne HU) as (fz & seq' & u' & Hfz & Hseq' & He' & _ & _ & Hd & _).
  rewrite (loadFrozen_unfrozen Hf) in Hfz. injection Hfz as <-. rewrite Hseq in Hseq'. injection Hseq' as <-.
  rewrite He in He'. injection He' as <-. set (s' := with_store s st) in *.
  destruct (Update_shaped s Hlive es rs s' Hw Hsh (plain_noMigrate _ Hp) HU) as [Hw' Hsh'].
  destruct (entries_spec es (set_dedupSeq seq emptyCtx) A Hp) as (rs' & u' & A' & E1 & E2 & Hu' & HA').
  { split; [by apply all_coh_start|done]. }
  rewrite He in E1. injection E1 as <- <-. exists rs, s', A'. split_and!; try done.
  - intros ns coll Hn. rewrite HA' by done.
    assert (tyOf p_ (base s') ns coll = tyOf p_ (eff s u) ns coll) as ->
      by (unfold tyOf; rewrite typeKey_dkey, Hd; done).
    by rewrite (content_base s s' u) by (intros; by apply Hd).
  - intros r. unfold base; simpl. rewrite Hv by done. rewrite apply_ops_app.
    rewrite apply_ops_lookup_ne.
    + fold (base s). fold (eff s u). rewrite <-(Hf r).
      apply (applyEntries_inv s Hlive (λ u, eff s u !! frozenKey p_ r = base s !! frozenKey p_ r)) with (3 := He); [|done].
      intros e u1 x u2 Hin E Hb. rewrite <-E. rewrite forallb_forall in Hp. apply list_elem_of_In, Hp in Hin.
      destruct (msafe_plain e [] Hin u1) as [F _]. rewrite Hb in F. eapply frame_eff; [exact F|].
      apply cmdKey_not_frozen.
    + eapply Forall_impl; [exact Ht|]. intros op (_ & _ & [Ho|[Ho|[(ns & coll & _ & Ho) _]]]) Ek;
        rewrite Ho in Ek; unfold frozenKey, frozenSpace in Ek; rewrite <-!app_assoc in Ek.
      * apply app_inv_head in Ek. discriminate Ek.
      * apply app_inv_head in Ek. discriminate Ek.
      * apply (f_equal (sub_of p_)) in Ek. rewrite cardKey_dkey, sub_of_dkey in Ek. cbn [app] in Ek.
        by rewrite sub_of_app in Ek.
Qed.

End refine.

(** ** Properties *)

(** C7: a batch of element commands refines the abstract shard. On a well-formed,
    unfrozen shard, one [Update] with any number of set, hash and sorted-set
    commands on any collections, single or coalesced into batch entries, succeeds;
    every reply and the type and contents of every collection afterwards are those
    of applying the commands' meanings to finite maps one after the other. *)
Theorem element_batch_refines {S} `{LocalStoreSpec S} `{FloatText} (s : baseSM S) (es : list entry)
    (A : colls) :
  ls_live (sm_store s) → cards_wf s (base s) → shaped (sm_prefix s) (base s) → unfrozen s (base s) →
  colls_at (sm_prefix s) (base s) A → forallb plainEntry es = true →
  ∃ rs s' A', Update s es = Ok (rs, s') ∧ entriesSpec es A = (A', rs) ∧
    colls_at (sm_prefix s) (base s') A' ∧ shaped (sm_prefix s) (base s').
Proof.
  intros Hl Hw Hsh Hf HA Hp.
  destruct (Update_refines s Hl es A Hw Hsh Hf HA Hp) as (rs & s' & A' & ? & ? & ? & _ & _ & _ & ? & _).
  by exists rs, s', A'.
Qed.

(** C27: it does not matter how plain commands of the log are cut into batches: on a
    well-formed, unfrozen shard, applying a list of set, hash and sorted-set commands without
    idempotency keys, the sweeper's expiry not among them, in one [Update] or in two gives the
    same replies, and collections of the same types and contents. The bookkeeping of expiring
    members is not compared: it does depend on the cut. *)
Theorem batching_irrelevant {S} `{LocalStoreSpec S} `{FloatText} (s : baseSM S) (es1 es2 : list entry) :
  ls_live (sm_store s) → cards_wf s (base s) → shaped (sm_prefix s) (base s) → unfrozen s (base s) →
  forallb plainEntry (es1 ++ es2) = true →
  ∃ rs1 rs2 s1 s2 s12, Update s es1 = Ok (rs1, s1) ∧ Update s1 es2 = Ok (rs2, s2) ∧
    Update s (es1 ++ es2) = Ok (rs1 ++ rs2, s12) ∧
    ∀ ns coll, nc_ok ns coll →
      let p := sm_prefix s in
      tyOf p (base s12) ns coll = tyOf p (base s2) ns coll ∧
      content p (tyOf p (base s12) ns coll) (base s12) ns coll =
        content p (tyOf p (base s2) ns coll) (base s2) ns coll.
Proof.
  intros Hl Hw Hsh Hf Hp. pose proof Hp as Hp'. rewrite forallb_app in Hp'. apply andb_true_iff in Hp' as [Hp1 Hp2].
  set (A := λ x : bytes * bytes, let t := tyOf (sm_prefix s) (base s) x.1 x.2 in
    (t, content (sm_prefix s) t (base s) x.1 x.2)).
  assert (colls_at (sm_prefix s) (base s) A) as HA by (by intros ns coll _).
  destruct (Update_refines s Hl es1 A Hw Hsh Hf HA Hp1) as (rs1 & s1 & A1 & E1 & F1 & HA1 & Hl1 & Hpx & Hw1 & Hsh1 & Hf1).
  unfold cards_wf, unfrozen in Hw1, Hf1. rewrite <-Hpx in HA1, Hw1, Hsh1, Hf1.
  destruct (Update_refines s1 Hl1 es2 A1 Hw1 Hsh1 Hf1 HA1 Hp2) as (rs2 & s2 & A2 & E2 & F2 & HA2 & _).
  destruct (Update_refines s Hl (es1 ++ es2) A Hw Hsh Hf HA Hp) as (rs & s12 & A3 & E3 & F3 & HA3 & _).
  rewrite entriesSpec_app, F1, F2 in F3. injection F3 as <- <-.
  exists rs1, rs2, s1, s2, s12. split_and!; [done..|]. intros ns coll Hn p. rewrite Hpx in HA2.
  specialize (HA2 ns coll Hn). specialize (HA3 ns coll Hn). rewrite HA2 in HA3. injection HA3 as Et Em.
  fold p in Et, Em. split; by symmetry.
Qed.

(** ** Where batching matters *)

Definition saddTTL (expiry : Z) : entry := mkEntry 1 (cmdOf opSAdd [] [mkItem (lit "m") [] 0 expiry]).
Definition sadd : entry := saddTTL 0.
Definition srem : entry := mkEntry 1 (cmdOf opSRem [] [member "m"]).
Definition expireAt (now : Z) : entry := mkEntry 1 (cmdOf opExpire [] [mkItem (lit "m") [] 0 now]).
Definition freezeAll : entry := mkEntry 1 (encodeFreeze [] []).

Definition hasMember (bs : list (list entry)) : gres answer :=
  do? s ← runBatches shard0 bs; Lookup s (isMemberQuery ns0 coll0 (lit "m")).

(** TTL bookkeeping depends on the batching. The same four log entries (add a
    member with a TTL, remove it, add it again without one, sweep after the TTL)
    keep the member when the first two are applied in separate batches and lose
    it when they are applied in one: [clearTTL] reads the store and does not see
    the pointer written earlier in the batch. *)
Theorem ttl_depends_on_batching :
  hasMember [[saddTTL 100]; [srem]; [sadd]; [expireAt 200]] = Ok (AFound true) ∧
  hasMember [[saddTTL 100; srem]; [sadd]; [expireAt 200]] = Ok (AFound false).
Proof. split; vm_compute; reflexivity. Qed.

(** a freeze takes effect at the next batch only. The same two log entries
    (freeze every range, add a member) reject the write when they are applied in
    separate batches and accept it when they are applied in one. *)
Theorem freeze_depends_on_batching :
  hasMember [[freezeAll]; [sadd]] = Ok (AFound false) ∧
  hasMember [[freezeAll; sadd]] = Ok (AFound true).
Proof. split; vm_compute; reflexivity. Qed.

Lemma shard0_unfrozen : unfrozen shard0 (base shard0).
Proof.
  intros r. apply shard0_fresh. unfold frozenKey, frozenSpace. rewrite <-!app_assoc. by apply prefix_app_r.
Qed.

Definition coalesced : entry :=
  mkEntry 1 (encodeBatchInto [] [cmdOf opSAdd [] [member "a"; member "b"]; cmdOf opZAdd [] [scoredMember "x" 1];
                                 cmdOf opSRem [] [member "a"]]).

Lemma element_batch_refines_witness :
  ∃ rs s', Update shard0 [sadd; coalesced; srem] = Ok (rs, s') ∧
    rs = (entriesSpec [sadd; coalesced; srem] (λ _, (typeNone, ∅))).2.
Proof.
  destruct (element_batch_refines shard0 [sadd; coalesced; srem] (λ _, (typeNone, ∅))) as (rs & s' & A' & HU & E & _).
  - done.
  - apply fresh_cards, shard0_fresh.
  - apply counted_shaped, fresh_counted, shard0_fresh.
  - apply shard0_unfrozen.
  - intros ns coll Hn. assert (base shard0 = ∅) as -> by (vm_compute; reflexivity). reflexivity.
  - vm_compute. reflexivity.
  - exists rs, s'. rewrite E. split; [exact HU|reflexivity].
Defined.

Lemma batching_irrelevant_witness :
  ∃ rs1 rs2 s1 s2 s12, Update shard0 [sadd] = Ok (rs1, s1) ∧ Update s1 [coalesced; srem] = Ok (rs2, s2) ∧
    Update shard0 ([sadd] ++ [coalesced; srem]) = Ok (rs1 ++ rs2, s12).
Proof.
  destruct (batching_irrelevant shard0 [sadd] [coalesced; srem]) as (rs1 & rs2 & s1 & s2 & s12 & E1 & E2 & E3 & _).
  - done.
  - apply fresh_cards, shard0_fresh.
  - apply counted_shaped, fresh_counted, shard0_fresh.
  - apply shard0_unfrozen.
  - vm_compute. reflexivity.
  - exists rs1, rs2, s1, s2, s12. exact (conj E1 (conj E2 E3)).
Defined.

End Batching.
