(* ===== verification/Api.v ===== *)
(** * The collections API (internal/collections/collections.go)

    The typed operations a node offers on sets, hashes, sorted sets and leased budgets:
    each builds a command, proposes it to the shard that owns the collection, locally or
    through the leader, and reads the reply. The raft engine, the directory, the
    forwarder and the demand filler are the fields of a record, functions of the state of
    the world; a context is the number of retries it lasts. *)

From S2P Require Import Prelude Bytes Strconv Storage Command Keys Ctx CtxLogic Budget Ledger.
From S2P Require Import BudgetRefine ShardSM Samples ShardFrame ShardUpdate BudgetSystem Elements ElementSystem Batching.

Local Open Scope Z_scope.
#[local] Set Default Proof Using "Type".

Module Api.
Import Storage Command Keys Ctx CtxLogic Budget BudgetRefine ShardSM Samples ShardFrame ShardUpdate.
Import BudgetSystem Elements ElementSystem Batching.

Inductive apiErr :=
  | ErrWrongType | ErrNotNumber | ErrFrozen | ErrBusy | ErrDiskPressure | ErrNotHosted
  | ErrNoCapacity | ErrBudgetExists | ErrBudgetNotFound | ErrUnsupportedMode | ErrBudgetBadParam
  | ErrLeaseUnknown | ErrWrongHolder | ErrLeaseSettled | OtherErr.

(** ** The effects of an operation *)

Definition Api (W A : Type) : Type := W → res apiErr A * W.

#[export] Instance Api_ret W : MRet (Api W) := λ A a w, (Ok a, w).
#[export] Instance Api_bind W : MBind (Api W) := λ A B f m w,
  match m w with
  | (Ok a, w') => f a w'
  | (Err e, w') => (Err e, w')
  end.
Definition fails {W A} (e : apiErr) : Api W A := λ w, (Err e, w).
Definition returns {W A} (r : res apiErr A) : Api W A := λ w, (r, w).

(** What a node is built from. [underPressure] is false without a disk gate. *)
Record Collections (W : Type) := mkCollections {
  shard_Propose : Z → bytes → Api W ProposeResult;
  shard_Read : Z → query → bool → Api W answer;
  shard_IsLeader : Z → W → bool;
  dir_ShardFor : bytes → bytes → W → Z;
  dir_Refresh : Api W ();
  filler : option (Z → Api W ());
  forwarder : option (bytes → bytes → bytes → Api W (Z * bytes));
  underPressure : W → bool;
}.
Arguments shard_Propose {W}.
Arguments shard_Read {W}.
Arguments shard_IsLeader {W}.
Arguments dir_ShardFor {W}.
Arguments dir_Refresh {W}.
Arguments filler {W}.
Arguments forwarder {W}.
Arguments underPressure {W}.

Definition forwardable (ctxErr : bool) (e : apiErr) : bool :=
  match e with
  | ErrWrongType | ErrFrozen | ErrNotNumber | ErrBusy | ErrDiskPressure => false
  | _ => negb ctxErr
  end.

Section Ops.
Context {W : Type} (c : Collections W) (waits : nat) (ctxErr : W → bool).

(** A frozen range: refresh the directory and try again until the context ends. *)
Fixpoint proposeCore (waits : nat) (ns coll enc : bytes) : Api W (Z * bytes) := λ w,
  match shard_Propose c (dir_ShardFor c ns coll w) enc w with
  | (Err e, w) => (Err e, w)
  | (Ok r, w) =>
      if decide (Data r = wrongType) then (Err ErrWrongType, w)
      else if decide (Data r = notNumber) then (Err ErrNotNumber, w)
      else if decide (Data r = frozenMark) then
        let w := (dir_Refresh c w).2 in
        match waits with
        | O => (Err ErrFrozen, w)
        | Datatypes.S waits => proposeCore waits ns coll enc w
        end
      else (Ok (Value r, Data r), w)
  end.

Definition proposeCmd (cmd : command) : Api W (Z * bytes) := λ w,
  if underPressure c w then (Err ErrDiskPressure, w)
  else
    let enc := encodeCommand cmd in
    match forwarder c with
    | None => proposeCore waits (NS cmd) (Coll cmd) enc w
    | Some forward =>
        if shard_IsLeader c (dir_ShardFor c (NS cmd) (Coll cmd) w) w then
          match proposeCore waits (NS cmd) (Coll cmd) enc w with
          | (Err e, w) =>
              if forwardable (ctxErr w) e then forward (NS cmd) (Coll cmd) enc w else (Err e, w)
          | r => r
          end
        else forward (NS cmd) (Coll cmd) enc w
    end.

Definition proposeCount (cmd : command) : Api W Z := '(n, _) ← proposeCmd cmd; mret n.

Definition ProposeRaw (ns coll enc : bytes) : Api W (Z * bytes) := λ w,
  if underPressure c w then (Err ErrDiskPressure, w) else proposeCore waits ns coll enc w.

Definition read (ns coll : bytes) (q : query) (lin : bool) : Api W answer := λ w,
  let shard := dir_ShardFor c ns coll w in
  let '(shard, w) :=
    if shard =? 0 then
      match dir_Refresh c w with
      | (Ok _, w) => (dir_ShardFor c ns coll w, w)
      | (Err _, w) => (shard, w)
      end
    else (shard, w) in
  match shard_Read c shard q lin w, filler c with
  | (Err ErrNotHosted, w), Some fill =>
      match fill shard w with
      | (Err _, w) => (Err ErrNotHosted, w)
      | (Ok _, w) => shard_Read c shard q lin w
      end
  | r, _ => r
  end.

(** ** Sets *)

Definition itemsFromKeys (keys : list bytes) : list item := (λ k, mkItem k [] 0 0) <$> keys.

Definition SAdd (ns coll : bytes) (members : list bytes) : Api W Z :=
  proposeCount (mkCommand opSAdd ns coll [] (itemsFromKeys members)).

Definition SRem (ns coll : bytes) (members : list bytes) : Api W Z :=
  proposeCount (mkCommand opSRem ns coll [] (itemsFromKeys members)).

Definition SAddTTL (now : Z) (ns coll : bytes) (ttlMs : Z) (members : list bytes) : Api W Z :=
  let expiry := int64 (now + ttlMs) in
  proposeCount (mkCommand opSAdd ns coll [] ((λ m, mkItem m [] 0 expiry) <$> members)).

Definition SIsMember (ns coll member : bytes) (lin : bool) : Api W bool :=
  v ← read ns coll (isMemberQuery ns coll member) lin;
  mret (match v with AFound b => b | _ => false end).

Definition card (ns coll : bytes) (lin : bool) : Api W Z :=
  v ← read ns coll (cardQuery ns coll) lin;
  mret (match v with ACard n => n | _ => 0 end).

Definition SCard : bytes → bytes → bool → Api W Z := card.

Definition SMembers (ns coll : bytes) (limit : Z) (lin : bool) : Api W (list bytes) :=
  v ← read ns coll (membersQuery ns coll limit) lin;
  mret (match v with AList l => l | _ => [] end).

(** ** Hashes *)

Definition HSet (ns coll : bytes) (fields : list (bytes * bytes)) : Api W Z :=
  proposeCount (mkCommand opHSet ns coll [] ((λ f, mkItem f.1 f.2 0 0) <$> fields)).

Definition HDel (ns coll : bytes) (fields : list bytes) : Api W Z :=
  proposeCount (mkCommand opHDel ns coll [] (itemsFromKeys fields)).

Definition HGet (ns coll field : bytes) (lin : bool) : Api W (option bytes) :=
  v ← read ns coll (hGetQuery ns coll field) lin;
  mret (match v with AValue v => v | _ => None end).

Definition HLen : bytes → bytes → bool → Api W Z := card.

Definition HGetAll (ns coll : bytes) (limit : Z) (lin : bool) : Api W (list (bytes * bytes)) :=
  v ← read ns coll (hGetAllQuery ns coll limit) lin;
  mret (match v with AFields l => l | _ => [] end).

Definition HIncrBy (ns coll field : bytes) (delta : Z) : Api W Z :=
  '(_, data) ← proposeCmd (mkCommand opHIncrBy ns coll [] [mkItem field (put_u64 (uint64 delta)) 0 0]);
  if decide (lenZ data = 8) then mret (int64 (get_u64 data)) else fails ErrNotNumber.

(** The delta and the result are float64 bits. *)
Definition HIncrByFloat (ns coll field : bytes) (delta : Z) : Api W Z :=
  '(_, data) ← proposeCmd (mkCommand opHIncrByFloat ns coll [] [mkItem field [] delta 0]);
  if decide (lenZ data = 8) then mret (get_u64 data) else fails ErrNotNumber.

(** ** Sorted sets *)

Definition ZAdd (ns coll : bytes) (members : list (bytes * Z)) : Api W Z :=
  proposeCount (mkCommand opZAdd ns coll [] ((λ m, mkItem m.1 [] m.2 0) <$> members)).

Definition ZRem (ns coll : bytes) (members : list bytes) : Api W Z :=
  proposeCount (mkCommand opZRem ns coll [] (itemsFromKeys members)).

Definition ZScore (ns coll member : bytes) (lin : bool) : Api W (option Z) :=
  v ← read ns coll (zScoreQuery ns coll member) lin;
  mret (match v with AScore f => f | _ => None end).

Definition ZCard : bytes → bytes → bool → Api W Z := card.

Definition ZRange (ns coll : bytes) (limit : Z) (lin : bool) : Api W (list (bytes * Z)) :=
  v ← read ns coll (zRangeQuery ns coll limit) lin;
  mret (match v with AScored l => l | _ => [] end).

Definition CardCheckOf (ns coll : bytes) (lin : bool) : Api W CardCheck :=
  v ← read ns coll (cardCheckQuery ns coll) lin;
  mret (match v with ACheck cc => cc | _ => mkCardCheck 0 0 end).

(** ** Leased budgets *)

Record BudgetConfig := mkBudgetConfig {
  cfg_Rate : Z;
  cfg_Burst : Z;
  cfg_SelfGuardMs : Z;
  cfg_MaxPauseMs : Z;
  cfg_DefaultTTLMs : Z;
  cfg_DedupRetryWindowMs : Z;
}.

Definition budgetDefineCmd (ns coll : bytes) (capUnits : Z) (mode : byte) (cfg : BudgetConfig) : command :=
  let burst := if cfg_Burst cfg =? 0 then capUnits else cfg_Burst cfg in
  mkCommand opBudInit ns coll []
    [mkItem ([mode] ++ putI64 capUnits ++ putI64 (cfg_Rate cfg) ++ putI64 burst ++ putI64 (cfg_SelfGuardMs cfg) ++
             putI64 (cfg_MaxPauseMs cfg) ++ putI64 (cfg_DefaultTTLMs cfg) ++ putI64 (cfg_DedupRetryWindowMs cfg))
       [] 0 0].

Definition BudgetDefine (ns coll : bytes) (capUnits : Z) (mode : byte) (cfg : BudgetConfig) : Api W () :=
  '(_, data) ← proposeCmd (budgetDefineCmd ns coll capUnits mode cfg);
  if decide (data = budExists) then fails ErrBudgetExists
  else if decide (data = budBadMode) then fails ErrUnsupportedMode
  else if decide (data = budBadParam) then fails ErrBudgetBadParam
  else mret ().

(** [grantedMs] is the proposing node's clock. *)
Definition budgetGrantCmd (grantedMs : Z) (ns coll holder : bytes) (amount : Z) (leaseID : bytes) (ttlMs : Z) : command :=
  mkCommand opBudGrant ns coll []
    [mkItem leaseID (putI64 amount ++ putI64 grantedMs ++ putI64 ttlMs ++ holder) 0 0].

(** What the reply data of a grant says. *)
Definition grantReply (data : bytes) : res apiErr GrantResult :=
  if decide (data = budNoCapacity) then Err ErrNoCapacity
  else if decide (data = budNoBudget) then Err ErrBudgetNotFound
  else if decide (data = budBadParam) then Err ErrBudgetBadParam
  else if decide (data = budSettled) then Err ErrLeaseSettled
  else Ok (decodeGrantResult data).

Definition BudgetGrant (grantedMs : Z) (ns coll holder : bytes) (amount : Z) (leaseID : bytes) (ttlMs : Z)
    : Api W GrantResult :=
  '(_, data) ← proposeCmd (budgetGrantCmd grantedMs ns coll holder amount leaseID ttlMs);
  returns (grantReply data).

Definition budgetReportCmd (ns coll leaseID holder : bytes) (spentCumulative : Z) : command :=
  mkCommand opBudReport ns coll [] [mkItem leaseID (putI64 spentCumulative ++ holder) 0 0].

Definition budgetReturnCmd (ns coll leaseID holder : bytes) (finalSpent : Z) : command :=
  mkCommand opBudReturn ns coll [] [mkItem leaseID (putI64 finalSpent ++ holder) 0 0].

Definition settleReply (data : bytes) : res apiErr () :=
  if decide (data = budNoLease) then Err ErrLeaseUnknown
  else if decide (data = budWrongHolder) then Err ErrWrongHolder
  else Ok ().

Definition BudgetReport (ns coll leaseID holder : bytes) (spentCumulative : Z) : Api W () :=
  '(_, data) ← proposeCmd (budgetReportCmd ns coll leaseID holder spentCumulative);
  returns (settleReply data).

Definition BudgetReturn (ns coll leaseID holder : bytes) (finalSpent : Z) : Api W () :=
  '(_, data) ← proposeCmd (budgetReturnCmd ns coll leaseID holder finalSpent);
  returns (settleReply data).

Definition BudgetReconcile (ns coll : bytes) (trueAckedUnits : Z) : Api W Z :=
  '(_, data) ← proposeCmd (mkCommand opBudReconcile ns coll [] [mkItem [] (putI64 trueAckedUnits) 0 0]);
  if decide (data = budNoBudget) then fails ErrBudgetNotFound
  else if decide (lenZ data = 8) then mret (getI64 data)
  else fails ErrBudgetNotFound.

Definition BudgetStat (ns coll : bytes) (lin : bool) : Api W BudStat :=
  v ← read ns coll (budStatQuery ns coll) lin;
  mret (match v with ABudStat st => st | _ => mkBudStat false 0 0 0 0 0 0 x00 end).

End Ops.

End Api.
