(* ===== verification/ApiSystem.v ===== *)
(** * The collections API over a shard

    The operations of Api run against the shard state machine: a node that hosts its
    only shard and leads it. Whatever calls are made, in whatever order and on whatever
    collections, the replies are those of typed collections kept as finite maps. *)

From S2P Require Import Prelude Bytes Strconv Storage Command Keys Ctx CtxLogic Budget Ledger.
From S2P Require Import BudgetRefine ShardSM Samples ShardFrame ShardUpdate BudgetSystem Elements ElementSystem Batching Api.

Local Open Scope Z_scope.
#[local] Set Default Proof Using "Type".

Module ApiSystem.
Import Storage Command Keys Ctx CtxLogic Budget BudgetRefine ShardSM Samples ShardFrame ShardUpdate.
Import BudgetSystem Elements ElementSystem Batching Api.

(** ** A node with one shard *)

Section Node.
Context {S : Type} `{LocalStore S} `{FloatText}.

(** The shard and the index of its next log entry. *)
Definition world : Type := baseSM S * Z.

Definition proposeOne (shard : Z) (enc : bytes) : Api world ProposeResult := λ w,
  match Update w.1 [mkEntry w.2 enc] with
  | Ok ([r], s) => (Ok r, (s, w.2 + 1))
  | _ => (Err OtherErr, w)
  end.

Definition readOne (shard : Z) (q : query) (lin : bool) : Api world answer := λ w,
  (match Lookup w.1 q with Ok a => Ok a | Err _ => Err OtherErr end, w).

Definition oneShard : Collections world :=
  mkCollections world proposeOne readOne (λ _ _, true) (λ _ _ _, 1) (mret ()) None None (λ _, false).

(** ** Calls *)

Inductive call :=
  | OSAdd (members : list bytes) | OSRem (members : list bytes)
  | OSIsMember (member : bytes) | OSCard | OSMembers (limit : Z)
  | OHSet (fields : list (bytes * bytes)) | OHDel (fields : list bytes)
  | OHGet (field : bytes) | OHLen | OHGetAll (limit : Z) | OHIncrBy (field : bytes) (delta : Z)
  | OHIncrByFloat (field : bytes) (delta : Z)
  | OZAdd (members : list (bytes * Z)) | OZRem (members : list bytes)
  | OZScore (member : bytes) | OZCard | OZRange (limit : Z) | OCardCheck.

Inductive reply :=
  | RCount (n : Z) | RBool (b : bool) | RKeys (l : list bytes) | RFields (l : list (bytes * bytes))
  | RValue (v : option bytes) | RScore (f : option Z) | RScored (l : list (bytes * Z))
  | RFloat (bits : Z) | RCheck (cc : CardCheck) | RFail (e : apiErr).

Definition answerOf {A} (f : A → reply) (m : Api world A) : world → reply * world := λ w,
  match m w with (Ok a, w) => (f a, w) | (Err e, w) => (RFail e, w) end.

Definition exec (ns coll : bytes) (o : call) : world → reply * world :=
  let c := oneShard in
  let never := λ _ : world, false in
  match o with
  | OSAdd ms => answerOf RCount (SAdd c 0 never ns coll ms)
  | OSRem ms => answerOf RCount (SRem c 0 never ns coll ms)
  | OSIsMember m => answerOf RBool (SIsMember c ns coll m true)
  | OSCard => answerOf RCount (SCard c ns coll true)
  | OSMembers limit => answerOf RKeys (SMembers c ns coll limit true)
  | OHSet fs => answerOf RCount (HSet c 0 never ns coll fs)
  | OHDel fs => answerOf RCount (HDel c 0 never ns coll fs)
  | OHGet f => answerOf RValue (HGet c ns coll f true)
  | OHLen => answerOf RCount (HLen c ns coll true)
  | OHGetAll limit => answerOf RFields (HGetAll c ns coll limit true)
  | OHIncrBy f d => answerOf RCount (HIncrBy c 0 never ns coll f d)
  | OHIncrByFloat f d => answerOf RFloat (HIncrByFloat c 0 never ns coll f d)
  | OZAdd ms => answerOf RCount (ZAdd c 0 never ns coll ms)
  | OZRem ms => answerOf RCount (ZRem c 0 never ns coll ms)
  | OZScore m => answerOf RScore (ZScore c ns coll m true)
  | OZCard => answerOf RCount (ZCard c ns coll true)
  | OZRange limit => answerOf RScored (ZRange c ns coll limit true)
  | OCardCheck => answerOf RCheck (CardCheckOf c ns coll true)
  end.

Definition request : Type := bytes * bytes * call.

Fixpoint execAll (qs : list request) (w : world) : list reply * world :=
  match qs with
  | [] => ([], w)
  | (ns, coll, o) :: qs =>
      let '(r, w) := exec ns coll o w in
      let '(rs, w) := execAll qs w in
      (r :: rs, w)
  end.

End Node.

(** ** Typed collections as finite maps *)

Definition cut {A} (limit : Z) (l : list A) : list A := if 0 <? limit then take (Z.to_nat limit) l else l.

Definition addKey (m : gmap bytes bytes) (k : bytes) : gmap bytes bytes :=
  match m !! k with Some _ => m | None => <[k := []]> m end.

Definition sizeZ (m : gmap bytes bytes) : Z := Z.of_nat (size m).

(** A write to a collection of type [T]: new contents and reply. *)
Definition writes (T t : byte) (m m' : gmap bytes bytes) (r : reply) : (byte * gmap bytes bytes) * (reply → Prop) :=
  if decide (t = T ∨ t = typeNone) then ((T, m'), λ x, x = r) else ((t, m), λ x, x = RFail ErrWrongType).

(** Reads do not look at the type. The keys under which a collection keeps its elements: the
    members of a set, the fields of a hash, and for a sorted set each member behind its score in
    sortable form. *)
Definition elemKeys (t : byte) (m : gmap bytes bytes) (k : bytes) : Prop :=
  if decide (t = typeZSet) then ∃ f mem, in_u64 f ∧ m !! mem = Some (put_u64 f) ∧ k = sortableScore f ++ mem else is_Some (m !! k).

(** A key read as a sorted set's: a score and a member. *)
Definition scoredKey (k : bytes) : option (bytes * Z) := if lenZ k <? 8 then None else Some (drop 8 k, unsortableScore (take 8 k)).

(** What a call does to a collection of type [t] with contents [m], and its replies. *)
Definition callSpec `{FloatText} (o : call) (tm : byte * gmap bytes bytes) : (byte * gmap bytes bytes) * (reply → Prop) :=
  let '(t, m) := tm in
  let adds T m' := writes T t m m' (RCount (sizeZ m' - sizeZ m)) in
  let drops T ks := let m' := fold_left (λ m k, delete k m) ks m in writes T t m m' (RCount (sizeZ m - sizeZ m')) in
  match o with
  | OSAdd ms => adds typeSet (fold_left addKey ms m)
  | OSRem ms => drops typeSet ms
  | OSIsMember k => (tm, λ r, ∃ b, r = RBool b ∧ (b = true ↔ elemKeys t m k))
  | OSCard | OHLen | OZCard => (tm, λ r, r = RCount (sizeZ m))
  | OSMembers limit => (tm, λ r, ∃ l, r = RKeys (cut limit l) ∧ StronglySorted bytes_lt l ∧ (∀ k, k ∈ l ↔ elemKeys t m k))
  | OHSet fs => adds typeHash (fold_left (λ m f, <[f.1 := f.2]> m) fs m)
  | OHDel fs => drops typeHash fs
  | OHGet f => (tm, λ r, ∃ v, r = RValue v ∧ (is_Some v ↔ elemKeys t m f) ∧ (t ≠ typeZSet → v = m !! f))
  | OHGetAll limit => (tm, λ r, ∃ l, r = RFields (cut limit l) ∧ StronglySorted (λ x y, bytes_lt x.1 y.1) l ∧
                                 (∀ k, k ∈ l.*1 ↔ elemKeys t m k) ∧ (t ≠ typeZSet → ∀ k v, (k, v) ∈ l ↔ m !! k = Some v))
  | OHIncrBy f d =>
      match fieldNum Strconv.ParseInt (m !! f) with
      | Some n => writes typeHash t m (<[f := Strconv.FormatInt (int64 (n + d))]> m) (RCount (int64 (n + d)))
      | None => writes typeHash t m m (RFail ErrNotNumber)
      end
  | OHIncrByFloat f d =>
      match fieldNum ParseFloat (m !! f) with
      | Some n => writes typeHash t m (<[f := FormatFloat (f64_add n d)]> m) (RFloat (get_u64 (put_u64 (f64_add n d))))
      | None => writes typeHash t m m (RFail ErrNotNumber)
      end
  | OZAdd ms => adds typeZSet (fold_left (λ m x, <[x.1 := put_u64 x.2]> m) ms m)
  | OZRem ms => drops typeZSet ms
  | OZScore k => (tm, λ r, r = RScore (if decide (t = typeZSet) then get_u64 <$> m !! k else None))
  | OZRange limit => (tm, λ r,
      if decide (t = typeZSet)
      then ∃ l, r = RScored (cut limit l) ∧ StronglySorted zle l ∧ (∀ k f, (k, f) ∈ l ↔ in_u64 f ∧ m !! k = Some (put_u64 f))
      else ∃ l, r = RScored (omap scoredKey (cut limit l)) ∧ StronglySorted bytes_lt l ∧ (∀ k, k ∈ l ↔ is_Some (m !! k)))
  | OCardCheck => (tm, λ r, r = RCheck (mkCardCheck (sizeZ m) (sizeZ m)))
  end.

(** The collections after a call. *)
Definition after `{FloatText} (q : request) (A : colls) : colls := λ x,
  if decide (x = (q.1.1, q.1.2)) then (callSpec q.2 (A x)).1 else A x.

(** The replies of a run of calls, each judged at the state it is made in. *)
Fixpoint answers `{FloatText} (qs : list request) (A : colls) (rs : list reply) : Prop :=
  match qs, rs with
  | [], [] => True
  | q :: qs, r :: rs => (callSpec q.2 (A (q.1.1, q.1.2))).2 r ∧ answers qs (after q A) rs
  | _, _ => False
  end.

(** The command of a write. *)
Definition cmdOfCall (ns coll : bytes) (o : call) : option command :=
  match o with
  | OSAdd ms => Some (mkCommand opSAdd ns coll [] (itemsFromKeys ms))
  | OSRem ms => Some (mkCommand opSRem ns coll [] (itemsFromKeys ms))
  | OHSet fs => Some (mkCommand opHSet ns coll [] ((λ f, mkItem f.1 f.2 0 0) <$> fs))
  | OHDel fs => Some (mkCommand opHDel ns coll [] (itemsFromKeys fs))
  | OHIncrBy f d => Some (mkCommand opHIncrBy ns coll [] [mkItem f (put_u64 (uint64 d)) 0 0])
  | OHIncrByFloat f d => Some (mkCommand opHIncrByFloat ns coll [] [mkItem f [] d 0])
  | OZAdd ms => Some (mkCommand opZAdd ns coll [] ((λ m, mkItem m.1 [] m.2 0) <$> ms))
  | OZRem ms => Some (mkCommand opZRem ns coll [] (itemsFromKeys ms))
  | _ => None
  end.

(** Sizes and scores fit the encodings; an increment is an int64. *)
Definition request_ok (q : request) : Prop :=
  nc_ok q.1.1 q.1.2 ∧
  match cmdOfCall q.1.1 q.1.2 q.2 with
  | Some c => Forall item_wf (Items c) ∧ Z.of_nat (length (Items c)) < 2 ^ 32 ∧ lenZ (encodeCommand c) < 2 ^ 32
  | None => True
  end ∧
  match q.2 with OHIncrBy _ d => in_i64 d | _ => True end.

(** ** Counting *)

Lemma size_delete_key (m : gmap bytes bytes) k :
  sizeZ (delete k m) = sizeZ m - (1 - (if decide (m !! k = None) then 1 else 0)).
Proof.
  unfold sizeZ. case_decide as E; [rewrite delete_id by done; lia|].
  destruct (m !! k) as [v|] eqn:Ek; [|done].
  rewrite map_size_delete_Some by (by rewrite Ek). assert (size m ≠ 0%nat); [|lia].
  intros E0%map_size_empty_inv. subst m. by rewrite lookup_empty in Ek.
Qed.

Lemma size_insert_key (m : gmap bytes bytes) k v :
  sizeZ (<[k := v]> m) = sizeZ m + (if decide (m !! k = None) then 1 else 0).
Proof.
  unfold sizeZ. case_decide as E.
  - rewrite map_size_insert_None by done. lia.
  - destruct (m !! k) as [v'|] eqn:Ek; [|done]. rewrite map_size_insert_Some by (by rewrite Ek). lia.
Qed.

(** The count of a command is the change of the collection's size, up to [sg]. *)
Lemma itemsSpec_size T exp op (sg : Z) its m :
  (∀ it m, (itemSpec T (exp (Key it)) op it m).2 = sg * (sizeZ (itemSpec T (exp (Key it)) op it m).1 - sizeZ m)) →
  itemsSpec T exp op its m =
    (let m' := fold_left (λ m it, (itemSpec T (exp (Key it)) op it m).1) its m in (m', sg * (sizeZ m' - sizeZ m))).
Proof.
  intros Hd. revert m. induction its as [|it its IH]; intros m; [simpl; f_equal; lia|].
  cbn [itemsSpec fold_left]. pose proof (Hd it m) as Hi. destruct (itemSpec T (exp (Key it)) op it m) as [m1 d].
  simpl in *. rewrite IH, Hi. f_equal. lia.
Qed.

Lemma itemsSpec_range T exp op its m : 0 ≤ (itemsSpec T exp op its m).2 ≤ Z.of_nat (length its).
Proof.
  revert m. induction its as [|it its IH]; intros m; [simpl; lia|]. cbn [itemsSpec length].
  pose proof (itemSpec_range T (exp (Key it)) op it m) as Hr. destruct (itemSpec _ _ _ it m) as [m1 d].
  specialize (IH m1). destruct (itemsSpec T exp op its m1) as [m2 n]. simpl in *. lia.
Qed.

Lemma fold_left_fmap {A B C} (f : C → B → C) (g : A → B) l c : fold_left f (g <$> l) c = fold_left (λ c a, f c (g a)) l c.
Proof. revert c. induction l as [|a l IH]; intros c; [done|]. apply IH. Qed.

Lemma fold_left_ext {A C} (f g : C → A → C) l c : (∀ c a, f c a = g c a) → fold_left f l c = fold_left g l c.
Proof. intros E. revert c. induction l as [|a l IH]; intros c; [done|]. simpl. by rewrite E, IH. Qed.

(** ** One write *)

Section Spec.
Context {S : Type} `{LocalStoreSpec S} `{FloatText}.

Record api_inv (w : @world S) (A : colls) : Prop := {
  ai_live : ls_live (sm_store w.1);
  ai_cards : cards_wf w.1 (base w.1);
  ai_counted : counted (sm_prefix w.1) (base w.1);
  ai_unfrozen : unfrozen w.1 (base w.1);
  ai_colls : colls_at (sm_prefix w.1) (base w.1) A;
  ai_small : sizeZ (base w.1) < 2 ^ 63;
}.

Lemma api_inv_ext w A A' : (∀ x, A x = A' x) → api_inv w A → api_inv w A'.
Proof. intros E []. split; [done..| |done]. intros ns coll Hn. rewrite <-E. auto. Qed.

Lemma Update_one w A cmd :
  api_inv w A → plainCmd cmd = true → command_wf cmd → lenZ (encodeCommand cmd) < 2 ^ 32 →
  ∃ r s', Update w.1 [mkEntry w.2 (encodeCommand cmd)] = Ok ([r], s') ∧ (stepSpec cmd A).2 = r ∧
    (sizeZ (base s') < 2 ^ 63 → api_inv (s', w.2 + 1) (stepSpec cmd A).1).
Proof.
  intros [Hl Hw Hc Hf HA Hs] Hp Hwf Hlen. set (e := mkEntry w.2 (encodeCommand cmd)).
  assert (decodeCommand (e_Cmd e) = Ok cmd) as Hd.
  { unfold e. simpl. rewrite <-(app_nil_r (encodeCommand cmd)). apply decodeCommand_enc; [done|by rewrite app_nil_r]. }
  assert (∃ err, decodeBatch (e_Cmd e) = Err err) as [err Hb].
  { destruct (decodeBatch (e_Cmd e)) as [subs|err] eqn:E; [|eauto]. apply decodeBatch_head in E.
    unfold e in E. simpl in E. unfold encodeCommand in E. rewrite appendCommand_flat in E. simpl in E.
    destruct Hwf as [[Ho Hs'] _]. rewrite Ho in E. injection E as E. rewrite E in Hs'. naive_solver. }
  assert (plainEntry e = true) as Hpe.
  { unfold plainEntry, entryCmds. rewrite Hb. cbn [decodeAll]. rewrite Hd. simpl. by rewrite Hp. }
  destruct (Update_refines w.1 Hl [e] A) as (rs & s' & A' & HU & HE & HA' & Hl' & Hpx & Hw' & Hsh' & Hf').
  { done. } { by apply counted_shaped. } { done. } { done. } { simpl. by rewrite Hpe. }
  cbn [entriesSpec] in HE. unfold entrySpec, entryCmds in HE. rewrite Hb in HE. cbn [decodeAll] in HE.
  rewrite Hd in HE. change (default [] (Some [cmd])) with [cmd] in HE. cbn [cmdsSpec] in HE.
  destruct (stepSpec cmd A) as [A1 r] eqn:Es. injection HE as <- <-. exists r, s'. split_and!; [done..|].
  intros Hs'. assert (forallb plainEntry [e] = true) as Hm%plain_noMigrate by (simpl; by rewrite Hpe).
  destruct (Update_counted w.1 Hl [e] [r] s' Hw Hc) as [_ Hc']; [by apply small_size|by apply small_size|done|done|].
  split; simpl; [done| |by rewrite Hpx| |by rewrite Hpx|done].
  - unfold cards_wf in *. by rewrite Hpx.
  - intros x. rewrite Hpx. apply Hf'.
Qed.

(** The reply of a write, from what the shard answers. *)
Definition execReply (o : call) (r : ProposeResult) : reply :=
  if decide (Data r = wrongType) then RFail ErrWrongType
  else if decide (Data r = notNumber) then RFail ErrNotNumber
  else if decide (Data r = frozenMark) then RFail ErrFrozen
  else match o with
       | OHIncrBy _ _ => if decide (lenZ (Data r) = 8) then RCount (int64 (get_u64 (Data r))) else RFail ErrNotNumber
       | OHIncrByFloat _ _ => if decide (lenZ (Data r) = 8) then RFloat (get_u64 (Data r)) else RFail ErrNotNumber
       | _ => RCount (Value r)
       end.

Lemma exec_write ns coll o cmd w r s' :
  cmdOfCall ns coll o = Some cmd → Update w.1 [mkEntry w.2 (encodeCommand cmd)] = Ok ([r], s') →
  exec ns coll o w = (execReply o r, (s', w.2 + 1)).
Proof.
  intros Hc HU. unfold execReply.
  assert (proposeCmd oneShard 0 (λ _, false) cmd w =
    (if decide (Data r = wrongType) then Err ErrWrongType
     else if decide (Data r = notNumber) then Err ErrNotNumber
     else if decide (Data r = frozenMark) then Err ErrFrozen else Ok (Value r, Data r), (s', w.2 + 1))) as Hp.
  { unfold proposeCmd. cbn [forwarder underPressure oneShard proposeCore shard_Propose dir_ShardFor]. unfold proposeOne.
    rewrite HU. repeat case_decide; done. }
  destruct o; try discriminate Hc; injection Hc as <-; unfold exec, answerOf, SAdd, SRem, HSet, HDel, HIncrBy, HIncrByFloat, ZAdd, ZRem, proposeCount, mbind, Api_bind;
    rewrite Hp; repeat case_decide; done.
Qed.
(** A write whose meaning on the contents is [m'] and whose answer is [rep]. *)
Lemma exec_writes w A ns coll o cmd m' r rep :
  api_inv w A → request_ok (ns, coll, o) → cmdOfCall ns coll o = Some cmd → plainCmd cmd = true → op_single (Op cmd) →
  targetType (A (ns, coll)).1 cmd = typeForOp (Op cmd) →
  cmdSpec cmd (λ _, None) (typeForOp (Op cmd)) (A (ns, coll)).2 = (m', r) → execReply o r = rep →
  callSpec o (A (ns, coll)) = writes (typeForOp (Op cmd)) (A (ns, coll)).1 (A (ns, coll)).2 m' rep →
  let '(rp, w') := exec ns coll o w in
  sizeZ (base w'.1) < 2 ^ 63 → (callSpec o (A (ns, coll))).2 rp ∧ api_inv w' (after (ns, coll, o) A).
Proof.
  intros Hi (Hn & Hq & _) Hc Hp Hop Ht Hcs Hr Hspec. simpl in Hn, Hq. rewrite Hc in Hq. destruct Hq as (Hits & Hlen & Henc).
  assert (NS cmd = ns ∧ Coll cmd = coll) as [Ens Ecoll] by (destruct o; try discriminate Hc; by injection Hc as <-).
  destruct (Update_one w A cmd Hi Hp) as (r' & s' & HU & Hrep & Hi'); [by split_and!|done|].
  rewrite (exec_write ns coll o cmd w r' s' Hc HU). simpl. intros Hs. specialize (Hi' Hs).
  assert (∀ x, (stepSpec cmd A).1 x = after (ns, coll, o) A x) as Eafter.
  { intros x. unfold after. cbn [fst snd]. destruct (decide (x = (ns, coll))) as [->|Hne].
    - rewrite Hspec. revert Hcs Ht. unfold stepSpec, writes. rewrite Ens, Ecoll. destruct (A (ns, coll)) as [t m] eqn:EA.
      cbn [fst snd]. intros Hcs ->. case_decide; [|by simpl; rewrite EA]. rewrite Hcs. cbn [fst]. by rewrite decide_True by done.
    - unfold stepSpec. rewrite Ens, Ecoll. destruct (A (ns, coll)) as [t m]. case_decide; [|done].
      destruct (cmdSpec cmd (λ _, None) (targetType t cmd) m). cbn [fst]. by rewrite decide_False. }
  split; [|by eapply api_inv_ext].
  rewrite Hspec. revert Hrep Hcs Ht. unfold stepSpec, writes. rewrite Ens, Ecoll. destruct (A (ns, coll)) as [t m].
  cbn [fst snd]. intros Hrep Hcs Ht. rewrite Ht in Hrep. case_decide.
  - rewrite Hcs in Hrep. simpl in *. by subst.
  - simpl in *. subst r'. unfold execReply. simpl. by rewrite decide_True.
Qed.

(** Commands that count. *)
Lemma cmdSpec_counts cmd T m (sg : Z) :
  Op cmd ∉ [opHIncrBy; opHIncrByFloat] → Z.of_nat (length (Items cmd)) < 2 ^ 32 →
  (∀ it m, (itemSpec T None (Op cmd) it m).2 = sg * (sizeZ (itemSpec T None (Op cmd) it m).1 - sizeZ m)) →
  let m' := fold_left (λ m it, (itemSpec T None (Op cmd) it m).1) (Items cmd) m in
  cmdSpec cmd (λ _, None) T m = (m', mkResult (sg * (sizeZ m' - sizeZ m)) []).
Proof.
  intros Hop Hlen Hd m'. pose proof (itemsSpec_range T (λ _, None) (Op cmd) (Items cmd) m) as Hr.
  assert (cmdSpec cmd (λ _, None) T m =
    let '(m', n) := itemsSpec T (λ _, None) (Op cmd) (Items cmd) m in (m', mkResult (uint64 n) [])) as ->.
  { unfold cmdSpec. destruct (Op cmd); try done; exfalso; apply Hop; apply list_elem_of_In; simpl; auto. }
  rewrite (itemsSpec_size _ _ _ sg) in Hr |- * by done. cbv zeta in Hr |- *. cbn [snd] in Hr. cbv iota beta. by rewrite uint64_id by zlia.
Qed.

Lemma sizeZ_same (b : bool) (m m' : gmap bytes bytes) d : sizeZ m' = sizeZ m + d → d = 1 * (sizeZ m' - sizeZ m).
Proof. lia. Qed.

Lemma request_len ns coll o cmd :
  request_ok (ns, coll, o) → cmdOfCall ns coll o = Some cmd → Z.of_nat (length (Items cmd)) < 2 ^ 32.
Proof. intros (_ & Hq & _) Hc. simpl in Hq. rewrite Hc in Hq. tauto. Qed.

(** The folds of the commands. *)
Lemma fold_SAdd T ms m :
  fold_left (λ m it, (itemSpec T None opSAdd it m).1) (itemsFromKeys ms) m = fold_left addKey ms m.
Proof.
  unfold itemsFromKeys. rewrite fold_left_fmap. apply fold_left_ext. intros m' k. unfold addKey. simpl.
  case_decide as E; destruct (m' !! k); done.
Qed.

Lemma fold_HSet T fs m :
  fold_left (λ m it, (itemSpec T None opHSet it m).1) ((λ f, mkItem f.1 f.2 0 0) <$> fs) m =
  fold_left (λ m f, <[f.1 := f.2]> m) fs m.
Proof. by rewrite fold_left_fmap. Qed.

Lemma fold_ZAdd T ms m :
  fold_left (λ m it, (itemSpec T None opZAdd it m).1) ((λ x, mkItem x.1 [] x.2 0) <$> ms) m =
  fold_left (λ m x, <[x.1 := put_u64 x.2]> m) ms m.
Proof. by rewrite fold_left_fmap. Qed.

Lemma fold_drop T op ms m :
  op ∈ [opSRem; opHDel; opZRem] →
  fold_left (λ m it, (itemSpec T None op it m).1) (itemsFromKeys ms) m = fold_left (λ m k, delete k m) ms m.
Proof.
  intros Hop. unfold itemsFromKeys. rewrite fold_left_fmap. apply fold_left_ext. intros m' k.
  apply list_elem_of_In in Hop. by destruct Hop as [<-|[<-|[<-|[]]]].
Qed.

Lemma exec_adds w A ns coll o cmd :
  api_inv w A → request_ok (ns, coll, o) → cmdOfCall ns coll o = Some cmd → Op cmd ∈ [opSAdd; opHSet; opZAdd] →
  let '(rp, w') := exec ns coll o w in
  sizeZ (base w'.1) < 2 ^ 63 → (callSpec o (A (ns, coll))).2 rp ∧ api_inv w' (after (ns, coll, o) A).
Proof.
  intros Hi Hq Hc Hop. pose proof (request_len _ _ _ _ Hq Hc) as Hlen. apply list_elem_of_In in Hop.
  assert (∀ it m, (itemSpec (typeForOp (Op cmd)) None (Op cmd) it m).2 =
    1 * (sizeZ (itemSpec (typeForOp (Op cmd)) None (Op cmd) it m).1 - sizeZ m)) as Hd.
  { intros it m. destruct Hop as [<-|[<-|[<-|[]]]]; cbn [itemSpec fst snd]; [|rewrite size_insert_key; lia..].
    case_decide; [rewrite size_insert_key, decide_True by done|]; lia. }
  eapply exec_writes with (cmd := cmd); [done..| | | |eapply (cmdSpec_counts _ _ _ 1)| |]; [| | | |done|done|done|].
  all: destruct o; try discriminate Hc; injection Hc as <-; simpl in Hop; try (exfalso; naive_solver); try done.
  1-3: split; [done|by left].
  1-3: intros Hx%list_elem_of_In; simpl in Hx; naive_solver.
  all: unfold callSpec; destruct (A (ns, coll)) as [t m]; cbn [fst snd Op Items typeForOp];
    rewrite ?fold_SAdd, ?fold_HSet, ?fold_ZAdd; unfold execReply; cbn [Data Value]; repeat (rewrite decide_False by done); do 2 f_equal; lia.
Qed.

Lemma exec_drops w A ns coll o cmd :
  api_inv w A → request_ok (ns, coll, o) → cmdOfCall ns coll o = Some cmd → Op cmd ∈ [opSRem; opHDel; opZRem] →
  let '(rp, w') := exec ns coll o w in
  sizeZ (base w'.1) < 2 ^ 63 → (callSpec o (A (ns, coll))).2 rp ∧ api_inv w' (after (ns, coll, o) A).
Proof.
  intros Hi Hq Hc Hop. pose proof (request_len _ _ _ _ Hq Hc) as Hlen.
  pose proof (fold_drop (typeForOp (Op cmd)) (Op cmd)) as Hfold. apply list_elem_of_In in Hop.
  assert (∀ it m, (itemSpec (typeForOp (Op cmd)) None (Op cmd) it m).2 =
    -1 * (sizeZ (itemSpec (typeForOp (Op cmd)) None (Op cmd) it m).1 - sizeZ m)) as Hd.
  { intros it m. destruct Hop as [<-|[<-|[<-|[]]]]; cbn [itemSpec fst snd]; rewrite size_delete_key; lia. }
  eapply exec_writes with (cmd := cmd); [done..| | | |eapply (cmdSpec_counts _ _ _ (-1))| |]; [| | | |done|done|done|].
  all: destruct o; try discriminate Hc; injection Hc as <-; simpl in Hop; try (exfalso; naive_solver); try done.
  1-3: split; [done|by left].
  1-3: intros Hx%list_elem_of_In; simpl in Hx; naive_solver.
  all: unfold callSpec; destruct (A (ns, coll)) as [t m]; cbn [fst snd Op Items];
    rewrite Hfold by (apply list_elem_of_In; simpl; auto); unfold execReply; cbn [Data Value]; repeat (rewrite decide_False by done); do 2 f_equal; lia.
Qed.

Lemma exec_incr w A ns coll f d :
  api_inv w A → request_ok (ns, coll, OHIncrBy f d) →
  let '(rp, w') := exec ns coll (OHIncrBy f d) w in
  sizeZ (base w'.1) < 2 ^ 63 →
  (callSpec (OHIncrBy f d) (A (ns, coll))).2 rp ∧ api_inv w' (after (ns, coll, OHIncrBy f d) A).
Proof.
  intros Hi Hq. pose proof (proj2 (proj2 Hq)) as Hdr. simpl in Hdr.
  assert (int64 (get_u64 (put_u64 (uint64 d))) = d) as Ed
    by (rewrite <-(app_nil_r (put_u64 _)), get_put_u64 by auto with width; by apply int64_cast).
  destruct (fieldNum Strconv.ParseInt ((A (ns, coll)).2 !! f)) as [n|] eqn:En.
  - eapply exec_writes; [done|done|done|done| |done| |done|].
    + split; [done|by left].
    + unfold cmdSpec, incrSpec. cbn [Op Items Key Val typeForOp]. rewrite En, Ed. done.
    + unfold callSpec. destruct (A (ns, coll)) as [t m]. cbn [fst snd] in *. rewrite En. f_equal.
      assert (∀ z, execReply (OHIncrBy f d) (mkResult z (put_u64 (uint64 (int64 (n + d))))) = RCount (int64 (n + d))) as Hx;
        [|by rewrite Hx].
      intros z. unfold execReply. cbn [Data].
      assert (lenZ (put_u64 (uint64 (int64 (n + d)))) = 8) as H8 by (unfold lenZ; by rewrite length_put_u64).
      do 3 rewrite decide_False by (intros E; by rewrite E in H8). rewrite decide_True by done. f_equal.
      rewrite <-(app_nil_r (put_u64 _)), get_put_u64 by auto with width. apply int64_cast. auto with width.
  - eapply exec_writes; [done|done|done|done| |done| |done|].
    + split; [done|by left].
    + unfold cmdSpec, incrSpec. cbn [Op Items Key Val typeForOp]. rewrite En. done.
    + unfold callSpec. destruct (A (ns, coll)) as [t m]. cbn [fst snd] in *. by rewrite En.
Qed.

Lemma exec_incrFloat w A ns coll f d :
  api_inv w A → request_ok (ns, coll, OHIncrByFloat f d) →
  let '(rp, w') := exec ns coll (OHIncrByFloat f d) w in
  sizeZ (base w'.1) < 2 ^ 63 →
  (callSpec (OHIncrByFloat f d) (A (ns, coll))).2 rp ∧ api_inv w' (after (ns, coll, OHIncrByFloat f d) A).
Proof.
  intros Hi Hq. destruct (fieldNum ParseFloat ((A (ns, coll)).2 !! f)) as [n|] eqn:En.
  - eapply exec_writes; [done|done|done|done| |done| |done|].
    + split; [done|by left].
    + unfold cmdSpec, incrSpec. cbn [Op Items Key Score typeForOp]. rewrite En. done.
    + unfold callSpec. destruct (A (ns, coll)) as [t m]. cbn [fst snd] in *. rewrite En. f_equal.
      assert (∀ z x, execReply (OHIncrByFloat f d) (mkResult z (put_u64 x)) = RFloat (get_u64 (put_u64 x))) as Hx; [|by rewrite Hx].
      intros z x. unfold execReply. cbn [Data]. assert (lenZ (put_u64 x) = 8) as H8 by (unfold lenZ; by rewrite length_put_u64).
      do 3 rewrite decide_False by (intros E; by rewrite E in H8). by rewrite decide_True.
  - eapply exec_writes; [done|done|done|done| |done| |done|].
    + split; [done|by left].
    + unfold cmdSpec, incrSpec. cbn [Op Items Key Score typeForOp]. rewrite En. done.
    + unfold callSpec. destruct (A (ns, coll)) as [t m]. cbn [fst snd] in *. by rewrite En.
Qed.

(** ** Reads *)

Lemma read_one ns coll q lin (w : @world S) :
  read oneShard ns coll q lin w = (match Lookup w.1 q with Ok a => Ok a | Err _ => Err OtherErr end, w).
Proof. unfold read. simpl. unfold readOne. by destruct (Lookup w.1 q). Qed.

Lemma cut_rows (s : baseSM S) ns coll limit :
  stripped (elemPrefix (sm_prefix s) ns coll) (newSliceIterator (base s) (Some (elemPrefix (sm_prefix s) ns coll))
    (prefixEnd (elemPrefix (sm_prefix s) ns coll)) limit) = cut limit (rows s ns coll).
Proof.
  unfold cut. destruct (Z.ltb_spec 0 limit).
  - rewrite newSliceIterator_limit by done. unfold stripped, rows. by rewrite fmap_take.
  - rewrite (newSliceIterator_all _ _ _ limit), <-(newSliceIterator_all _ _ _ 0) by lia. done.
Qed.

Lemma Lookup_scans (s : baseSM S) ns coll limit :
  ls_live (sm_store s) →
  Lookup s (membersQuery ns coll limit) = Ok (AList (cut limit (rows s ns coll).*1)) ∧
  Lookup s (hGetAllQuery ns coll limit) = Ok (AFields (cut limit (rows s ns coll))).
Proof.
  intros Hl. destruct (ls_Snapshot_ok (sm_store s)) as (sn & E & Hv); [done|].
  assert ((cut limit (rows s ns coll)).*1 = cut limit (rows s ns coll).*1) as <-
    by (unfold cut; case_match; [by rewrite fmap_take|done]).
  rewrite <-cut_rows. unfold Lookup. rewrite E. cbn [store_res res_bind]. unfold scanUnder. by rewrite sn_Scan_ok, Hv.
Qed.

Section collection.
Context (s : baseSM S) (Hlive : ls_live (sm_store s)) (ns coll : bytes) (Hn : nc_ok ns coll).
Context (Hc : counted (sm_prefix s) (base s)).
Local Abbreviation t := (tyOf (sm_prefix s) (base s) ns coll).
Local Abbreviation m := (content (sm_prefix s) t (base s) ns coll).

Lemma content_untyped T : t = typeNone → content (sm_prefix s) T (base s) ns coll = ∅.
Proof using Type*.
  intros Ht. destruct (Hc ns coll Hn) as [[_ S2 S3 _ _ _] _]. apply map_eq. intros r. rewrite lookup_empty.
  destruct (decide (T = typeZSet)) as [->|Hne].
  - rewrite lookup_zcontent by done. apply S2. by rewrite Ht.
  - rewrite content_elems, lookup_elems by done. apply S3; by rewrite Ht.
Qed.

Lemma keys_sorted : StronglySorted bytes_lt (rows s ns coll).*1.
Proof using Type*.
  pose proof (rows_sorted s Hlive ns coll Hn Hc) as Hs. induction Hs as [|x l Hs IH Hx]; [constructor|].
  rewrite fmap_cons. constructor; [done|]. by apply Forall_fmap.
Qed.

(** The two views of a sorted set have the same size. *)
Lemma zset_size : t = typeZSet → size m = size (elems (sm_prefix s) (base s) ns coll).
Proof using Type*.
  intros Ht. set (l := scored <$> rows s ns coll).
  pose proof (zrows_members s Hlive ns coll Hn Hc) as Hl.
  assert (map_to_list m ≡ₚ (λ x, (x.1, put_u64 x.2)) <$> l) as Hp.
  { rewrite Ht in *. apply NoDup_Permutation; [apply NoDup_map_to_list| |].
    - apply NoDup_fmap_2_strong; [|eapply zle_NoDup, zrows_sorted; done].
      intros [k f] [k' f'] Hf Hf' E. apply pair_equal_spec in E as [E1 E]. cbn [fst snd] in E1, E. subst k'. apply Hl in Hf as [? _]; [|done]. apply Hl in Hf' as [? _]; [|done].
      apply put_u64_inj in E; [by subst|done..].
    - intros [k v]. rewrite elem_of_map_to_list, list_elem_of_fmap. split.
      + intros Hv. pose proof Hv as Hz. rewrite lookup_zcontent in Hz by done. destruct (Hc ns coll Hn) as [Hsh _].
        destruct (zo_ptr _ _ _ _ (sh_zset _ _ _ _ Hsh Ht) _ _ Hz) as (f & Hf & -> & _).
        exists (k, f). split; [done|]. by apply Hl.
      + intros ([k' f] & E & Hin). apply pair_equal_spec in E as [-> ->]. by apply Hl in Hin as [_ ?]. }
  rewrite <-(length_map_to_list m), Hp. unfold l. rewrite !length_fmap. unfold elems, rows.
  by rewrite <-(length_stripped_scan (elemPrefix (sm_prefix s) ns coll) (base s)).
Qed.

End collection.

(** The element rows of a collection, in terms of its contents. *)
Lemma elems_keys (s : baseSM S) ns coll :
  ls_live (sm_store s) → nc_ok ns coll → counted (sm_prefix s) (base s) →
  let t := tyOf (sm_prefix s) (base s) ns coll in
  let m := content (sm_prefix s) t (base s) ns coll in
  (∀ k, is_Some (elems (sm_prefix s) (base s) ns coll !! k) ↔ elemKeys t m k) ∧
  (t ≠ typeZSet → elems (sm_prefix s) (base s) ns coll = m).
Proof.
  intros Hl Hn Hc t m. assert (t ≠ typeZSet → elems (sm_prefix s) (base s) ns coll = m) as Hm.
  { intros Ht. symmetry. by apply content_elems. }
  split; [|done]. intros k. unfold elemKeys. destruct (decide (t = typeZSet)) as [Ht|Ht]; [|by rewrite Hm].
  pose proof (elem_of_rows s Hl ns coll Hn Hc) as Hel. split.
  - intros [v Hv%Hel]. destruct (zrow s Hl ns coll Hn Hc k v Ht Hv) as (f & mem & Hf & -> & _ & Hz). exists f, mem. unfold m. by rewrite Ht.
  - intros (f & mem & Hf & Hz & ->). unfold m in Hz. rewrite Ht in Hz. destruct (zrow_member s Hl ns coll Hn Hc mem f Ht Hf Hz) as [v Hv%Hel]. by exists v.
Qed.

(** The stored count is the number of elements. *)
Lemma contents_size (s : baseSM S) ns coll :
  ls_live (sm_store s) → nc_ok ns coll → counted (sm_prefix s) (base s) →
  let t := tyOf (sm_prefix s) (base s) ns coll in
  cardAt (sm_prefix s) (base s) ns coll = sizeZ (content (sm_prefix s) t (base s) ns coll).
Proof.
  intros Hl Hn Hc t. destruct (Hc ns coll Hn) as [_ ->]. unfold sizeZ. f_equal. destruct (decide (t = typeZSet)) as [Ht|Ht].
  - symmetry. by apply zset_size.
  - by rewrite (proj2 (elems_keys s ns coll Hl Hn Hc) Ht).
Qed.

Lemma Lookup_zScore (s : baseSM S) ns coll k :
  ls_live (sm_store s) → nc_ok ns coll → counted (sm_prefix s) (base s) →
  let t := tyOf (sm_prefix s) (base s) ns coll in
  Lookup s (zScoreQuery ns coll k) =
    Ok (AScore (if decide (t = typeZSet) then get_u64 <$> content (sm_prefix s) t (base s) ns coll !! k else None)).
Proof.
  intros Hl Hn Hc t. destruct (ls_Snapshot_ok (sm_store s)) as (sn & E & Hv); [done|].
  unfold Lookup. rewrite E. cbn [store_res res_bind]. rewrite sn_Get_ok, Hv by done. cbn [store_res res_bind]. fold (base s).
  destruct (Hc ns coll Hn) as [Hsh _]. destruct (decide (t = typeZSet)) as [Ht|Ht].
  - rewrite Ht, lookup_zcontent by done. destruct (base s !! zptrKey (sm_prefix s) ns coll k) as [raw|] eqn:Er; [|done].
    destruct (zo_ptr _ _ _ _ (sh_zset _ _ _ _ Hsh Ht) _ _ Er) as (f & Hf & -> & _).
    unfold float64FromBits, lenZ. by rewrite length_put_u64.
  - by rewrite (sh_zptr _ _ _ _ Hsh).
Qed.

(** Any collection read as a sorted set. *)
Lemma Lookup_zRange_keys (s : baseSM S) ns coll limit :
  ls_live (sm_store s) → Lookup s (zRangeQuery ns coll limit) = Ok (AScored (omap scoredKey (cut limit (rows s ns coll).*1))).
Proof.
  intros Hl. destruct (ls_Snapshot_ok (sm_store s)) as (sn & E & Hv); [done|].
  unfold Lookup. rewrite E. cbn [store_res res_bind]. unfold scanUnder. rewrite sn_Scan_ok, Hv by done.
  cbn [store_res res_bind]. fold (base s). pose proof (cut_rows s ns coll limit) as Hcut. unfold stripped in Hcut. rewrite Hcut.
  assert (cut limit (rows s ns coll).*1 = (cut limit (rows s ns coll)).*1) as -> by (unfold cut; case_match; [by rewrite fmap_take|done]).
  do 2 f_equal. clear Hcut. induction (cut limit (rows s ns coll)) as [|[k v] l IH]; [done|]. cbn. unfold scoredKey at 1. by rewrite IH.
Qed.

Lemma Lookup_cardCheck_exact (s : baseSM S) ns coll :
  ls_live (sm_store s) → cards_wf s (base s) → nc_ok ns coll → counted (sm_prefix s) (base s) → sizeZ (base s) < 2 ^ 63 →
  let n := cardAt (sm_prefix s) (base s) ns coll in
  Lookup s (cardCheckQuery ns coll) = Ok (ACheck (mkCardCheck n n)).
Proof.
  intros Hl Hw Hn Hc Hs n. destruct (ls_Snapshot_ok (sm_store s)) as (sn & E & Hv); [done|].
  pose proof (Lookup_card s Hl ns coll Hw Hn) as Hcard. unfold Lookup in *. rewrite E in *. cbn [store_res res_bind] in *.
  destruct (snapCard s sn ns coll) as [c|]; [|done]. cbn [res_bind] in *. injection Hcard as ->. unfold scanUnder. rewrite sn_Scan_ok, Hv by done.
  cbn [store_res res_bind]. fold (base s). rewrite length_fmap. do 3 f_equal. unfold n. rewrite (proj2 (Hc ns coll Hn)).
  pose proof (small_size s s Hs ns coll Hn) as Hsm. unfold elems in *.
  pose proof (length_stripped_scan (elemPrefix (sm_prefix s) ns coll) (base s)) as Hsz. unfold stripped in Hsz. rewrite length_fmap in Hsz. rewrite <-Hsz in *.
  apply uint64_id. unfold in_u64. lia.
Qed.

Lemma exec_reads w A ns coll o :
  api_inv w A → nc_ok ns coll → cmdOfCall ns coll o = None →
  ∃ r, exec ns coll o w = (r, w) ∧ (callSpec o (A (ns, coll))).2 r.
Proof.
  intros [Hl Hw Hc Hf HA Hs] Hn Ho. rewrite (HA ns coll Hn).
  set (t := tyOf (sm_prefix w.1) (base w.1) ns coll) in *. set (m := content (sm_prefix w.1) t (base w.1) ns coll).
  destruct (elems_keys w.1 ns coll Hl Hn Hc) as [Hkeys Hrows]. fold t m in Hkeys, Hrows.
  pose proof (contents_size w.1 ns coll Hl Hn Hc) as Hcard. fold t m in Hcard.
  pose proof (elem_of_rows w.1 Hl ns coll Hn Hc) as Hel. pose proof (keys_sorted w.1 Hl ns coll Hn Hc) as Hks.
  assert (∀ k, k ∈ (rows w.1 ns coll).*1 ↔ elemKeys t m k) as Hin.
  { intros k. rewrite <-Hkeys, list_elem_of_fmap. split; [intros ([k' v] & -> & Hv%Hel); by exists v|intros [v Hv%Hel]; by exists (k, v)]. }
  destruct o; try discriminate Ho; unfold callSpec; cbn [snd];
    unfold exec, answerOf, SIsMember, SCard, HLen, ZCard, card, SMembers, HGet, HGetAll, ZScore, ZRange, CardCheckOf, mbind, Api_bind; rewrite read_one.
  - rewrite Lookup_isMember by done. eexists. split; [done|]. eexists. split; [done|]. by rewrite bool_decide_eq_true.
  - rewrite Lookup_card by done. eexists. split; [done|]. by rewrite Hcard.
  - rewrite (proj1 (Lookup_scans w.1 ns coll limit Hl)). eexists. split; [done|]. eexists. by split_and!.
  - rewrite Lookup_hGet by done. eexists. split; [done|]. eexists. split_and!; [done|done|]. intros Ht. by rewrite Hrows.
  - rewrite Lookup_card by done. eexists. split; [done|]. by rewrite Hcard.
  - rewrite (proj2 (Lookup_scans w.1 ns coll limit Hl)). eexists. split; [done|]. eexists. split_and!; [done|by apply rows_sorted|done|].
    intros Ht k v. by rewrite Hel, Hrows.
  - rewrite Lookup_zScore by done. eexists. by split.
  - rewrite Lookup_card by done. eexists. split; [done|]. by rewrite Hcard.
  - destruct (decide (t = typeZSet)) as [Ht|Ht].
    + rewrite Lookup_zRange by done. eexists. split; [done|]. exists (scored <$> rows w.1 ns coll).
      split_and!; [done|by apply zrows_sorted|]. intros k f. unfold m. rewrite Ht. by apply zrows_members.
    + rewrite Lookup_zRange_keys by done. eexists. split; [done|]. eexists. split_and!; [done|done|]. intros k. rewrite Hin. unfold elemKeys. by rewrite decide_False.
  - rewrite Lookup_cardCheck_exact by done. eexists. split; [done|]. by rewrite Hcard.
Qed.

(** ** Any call *)

Lemma exec_spec w A ns coll o :
  api_inv w A → request_ok (ns, coll, o) →
  let '(rp, w') := exec ns coll o w in
  sizeZ (base w'.1) < 2 ^ 63 → (callSpec o (A (ns, coll))).2 rp ∧ api_inv w' (after (ns, coll, o) A).
Proof.
  intros Hi Hq. destruct (cmdOfCall ns coll o) as [cmd|] eqn:Ho.
  - destruct o; try discriminate Ho.
    1,3,7: eapply exec_adds; [done..|]; injection Ho as <-; apply list_elem_of_In; simpl; auto.
    1,2,5: eapply exec_drops; [done..|]; injection Ho as <-; apply list_elem_of_In; simpl; auto.
    + by apply exec_incr.
    + by apply exec_incrFloat.
  - destruct (exec_reads w A ns coll o Hi (proj1 Hq) Ho) as (r & -> & Hr). intros _. split; [done|].
    eapply api_inv_ext; [|done]. intros x. unfold after. cbn [fst snd]. destruct (decide (x = (ns, coll))) as [->|]; [|done].
    destruct (A (ns, coll)) as [t m]. by destruct o.
Qed.

(** The store never holds 2^63 rows while the calls run. *)
Definition roomy (qs : list request) (w : @world S) : Prop :=
  ∀ k, sizeZ (base (execAll (take k qs) w).2.1) < 2 ^ 63.

Lemma execAll_spec qs w A :
  api_inv w A → Forall request_ok qs → roomy qs w →
  answers qs A (execAll qs w).1.
Proof.
  revert w A. induction qs as [|[[ns coll] o] qs IH]; intros w A Hi Hq Hr; [done|].
  apply Forall_cons in Hq as [Hq Hqs]. cbn [execAll answers]. pose proof (exec_spec w A ns coll o Hi Hq) as Hx.
  pose proof (Hr 1%nat) as Hone. cbn [take execAll] in Hone.
  destruct (exec ns coll o w) as [rp w1] eqn:E. destruct (execAll qs w1) as [rs w2] eqn:E2. cbn [fst snd] in *.
  destruct Hx as [Hrep Hi1].
  { destruct qs; simpl in Hone; done. }
  split; [done|]. specialize (IH w1 _ Hi1 Hqs). rewrite E2 in IH. apply IH.
  intros k. specialize (Hr (Datatypes.S k)). cbn [take execAll] in Hr. rewrite E in Hr.
  by destruct (execAll (take k qs) w1) as [rs' w'].
Qed.


End Spec.

Lemma fresh_api {S} `{LocalStoreSpec S} `{FloatText} (s : baseSM S) i :
  ls_live (sm_store s) → fresh s → sizeZ (base s) < 2 ^ 63 → api_inv (s, i) (λ _, (typeNone, ∅)).
Proof.
  intros Hl Hf Hs. pose proof (fresh_counted s Hf) as Hc. split; simpl; [done|by apply fresh_cards|done| | |done].
  - intros r. apply Hf. unfold frozenKey, frozenSpace. rewrite <-!app_assoc. by apply prefix_app_r.
  - intros ns coll Hn. assert (tyOf (sm_prefix s) (base s) ns coll = typeNone) as Ht.
    { unfold tyOf. rewrite Hf; [done|]. rewrite typeKey_dkey. by apply prefix_app_r. }
    rewrite Ht. f_equal. symmetry. by apply content_untyped.
Qed.

(** ** Properties *)


Definition sampleCalls : list request :=
  [(ns0, coll0, OSAdd [lit "b"; lit "a"; lit "b"]); (ns0, coll0, OHSet [(lit "f", lit "1")]); (ns0, coll0, OSMembers 0);
   (ns0, coll0, OHGet (lit "a")); (ns0, coll0, OCardCheck)].


(** A sorted set read as a set: a member is listed behind its score. *)
Theorem wrong_type_read_answers :
  (execAll [(ns0, coll0, OZAdd [(lit "a", 0)]); (ns0, coll0, OSIsMember (lit "a")); (ns0, coll0, OSMembers 0)] (shard0, 1)).1 =
    [RCount 1; RBool false; RKeys [sortableScore 0 ++ lit "a"]].
Proof. vm_compute. reflexivity. Qed.

(** A local proposal that commits but reports an error is forwarded and applied again: an
    increment without idempotency key counts twice. *)
Definition commitsThenFails (shard : Z) (enc : bytes) : Api (@world MemStore) ProposeResult := λ w,
  (Err OtherErr, (proposeOne shard enc w).2).

Definition forwardOne (ns coll enc : bytes) : Api (@world MemStore) (Z * bytes) :=
  r ← proposeOne 1 enc; mret (Value r, Data r).

Theorem forward_applies_twice :
  let racing := mkCollections world commitsThenFails readOne (λ _ _, true) (λ _ _ _, 1) (mret ()) None
                  (Some forwardOne) (λ _, false) in
  let '(r, w) := HIncrBy racing 0 (λ _, false) ns0 coll0 (lit "f") 5 (shard0, 1) in
  r = Ok 10 ∧ (HGet racing ns0 coll0 (lit "f") true w).1 = Ok (Some (lit "10")).
Proof. vm_compute. done. Qed.

End ApiSystem.
