(* ===== verification/LeaseCache.v ===== *)
(** * The lease cache of a budget holder (sdk/go/leasedbudget.go)

    The client side of leased budgets: a double-buffered pair of drawn leases and a token
    bucket, spent from without any remote call, and the refill that draws the next lease.
    Clocks are arguments of the operations; a refill is given as the steps it takes
    between its remote calls, so that spends and returns can run in between, and as the
    uninterrupted routine they make up. *)

From S2P Require Import Prelude Bytes Command Budget.

Local Open Scope Z_scope.
#[local] Set Default Proof Using "Type".

Module LeaseCache.
Import Command Budget.

Definition defaultChunkUnits : Z := 1000.
Definition nsPerSec : Z := 1000000000.
Definition nsPerMs : Z := 1000000.
Definition maxMonoDeadline : Z := 2 ^ 63 - 1.
Definition maxRefillAttempts : nat := 4.

Record leaseChunk := mkChunk {
  ch_remaining : Z;
  ch_deadlineMon : Z;
  ch_spent : Z;
  ch_reported : Z;
  ch_amount : Z;
  ch_leaseID : bytes;
}.

Record budgetCell := mkCell {
  bc_cur : option leaseChunk;
  bc_next : option leaseChunk;
  bc_rate : Z;
  bc_burst : Z;
  bc_tokens : Z;
  bc_lastTokenMon : Z;
  bc_chunk : Z;
  bc_lowWatermark : Z;
  bc_maxPauseNs : Z;
  bc_lastSeenMon : Z;
  bc_closed : bool;
  bc_refilling : bool;
  bc_holder : bytes;
  bc_nonce : Z;
  bc_selfGuardMs : Z;
  bc_ttlMs : Z;
}.

Record drawResult := mkDraw {
  dr_granted : Z;
  dr_grantedMs : Z;
  dr_ttlMs : Z;
  dr_selfGuardMs : Z;
  dr_maxPauseMs : Z;
}.

Inductive drawErr := errLeaseSettled | errDraw.

Inductive spendRes := SpendOk | ErrBudgetUnavailable | ErrPacingThrottled.

(** ** Field updates *)

Definition set_chunks (c : budgetCell) (cur next : option leaseChunk) : budgetCell :=
  mkCell cur next (bc_rate c) (bc_burst c) (bc_tokens c) (bc_lastTokenMon c) (bc_chunk c) (bc_lowWatermark c)
    (bc_maxPauseNs c) (bc_lastSeenMon c) (bc_closed c) (bc_refilling c) (bc_holder c) (bc_nonce c) (bc_selfGuardMs c)
    (bc_ttlMs c).
Definition set_tokens (c : budgetCell) (tokens last : Z) : budgetCell :=
  mkCell (bc_cur c) (bc_next c) (bc_rate c) (bc_burst c) tokens last (bc_chunk c) (bc_lowWatermark c)
    (bc_maxPauseNs c) (bc_lastSeenMon c) (bc_closed c) (bc_refilling c) (bc_holder c) (bc_nonce c) (bc_selfGuardMs c)
    (bc_ttlMs c).
Definition set_fence (c : budgetCell) (maxPause lastSeen : Z) : budgetCell :=
  mkCell (bc_cur c) (bc_next c) (bc_rate c) (bc_burst c) (bc_tokens c) (bc_lastTokenMon c) (bc_chunk c)
    (bc_lowWatermark c) maxPause lastSeen (bc_closed c) (bc_refilling c) (bc_holder c) (bc_nonce c) (bc_selfGuardMs c)
    (bc_ttlMs c).
Definition set_flags (c : budgetCell) (closed refilling : bool) : budgetCell :=
  mkCell (bc_cur c) (bc_next c) (bc_rate c) (bc_burst c) (bc_tokens c) (bc_lastTokenMon c) (bc_chunk c)
    (bc_lowWatermark c) (bc_maxPauseNs c) (bc_lastSeenMon c) closed refilling (bc_holder c) (bc_nonce c)
    (bc_selfGuardMs c) (bc_ttlMs c).
Definition set_draw (c : budgetCell) (nonce selfGuard ttl : Z) : budgetCell :=
  mkCell (bc_cur c) (bc_next c) (bc_rate c) (bc_burst c) (bc_tokens c) (bc_lastTokenMon c) (bc_chunk c)
    (bc_lowWatermark c) (bc_maxPauseNs c) (bc_lastSeenMon c) (bc_closed c) (bc_refilling c) (bc_holder c) nonce selfGuard
    ttl.

(** ** Construction *)

Definition lowWatermarkFor (chunk : Z) : Z :=
  let lw := Z.quot chunk 4 in
  if lw <? 1 then 1 else lw.

Record acquireOptions := mkOptions { ao_rate : Z; ao_burst : Z; ao_chunk : Z }.

(** The cell [Acquire] builds, before its first refill; [holder] is the random identity. *)
Definition newCell (o : acquireOptions) (holder : bytes) (now : Z) : budgetCell :=
  let chunk := if ao_chunk o <=? 0 then defaultChunkUnits else ao_chunk o in
  let burst := if ao_burst o <=? 0 then chunk else ao_burst o in
  mkCell None None (ao_rate o) burst burst now chunk (lowWatermarkFor chunk) 0 0 false false holder 0 0 0.

Definition makeLeaseID (holder : bytes) (nonce : Z) : bytes := holder ++ put_u64 nonce.

Definition Remaining (c : budgetCell) : Z :=
  let units o := match o with Some ch => ch_remaining ch | None => 0 end in
  int64 (units (bc_cur c) + units (bc_next c)).

(** ** Spending *)

Definition maxI64 (a b : Z) : Z := if b <? a then a else b.

Definition accrueTokensLocked (now : Z) (c : budgetCell) : budgetCell :=
  if bc_rate c <=? 0 then c
  else
    let elapsed := int64 (now - bc_lastTokenMon c) in
    if elapsed <=? 0 then set_tokens c (bc_tokens c) now
    else
      let fullRefillNs := int64 (int64 (Z.quot (bc_burst c) (maxI64 (bc_rate c) 1) + 1) * nsPerSec) in
      if fullRefillNs <=? elapsed then set_tokens c (bc_burst c) now
      else
        let tokens := int64 (bc_tokens c + Z.quot (int64 (bc_rate c * elapsed)) nsPerSec) in
        set_tokens c (if bc_burst c <? tokens then bc_burst c else tokens) now.

Definition promoteLocked (now : Z) (c : budgetCell) : budgetCell :=
  let cur := match bc_cur c with
             | Some ch => if (ch_deadlineMon ch <=? now) || (ch_remaining ch =? 0) then None else Some ch
             | None => None
             end in
  match cur, bc_next c with
  | None, Some ch => set_chunks c (if ch_deadlineMon ch <=? now then None else Some ch) None
  | _, _ => set_chunks c cur (bc_next c)
  end.

(** The part of [Spend] under the lock: the outcome, whether a refill is to be
    triggered once the lock is released, and the cell. *)
Definition spendLocked (n now : Z) (c : budgetCell) : spendRes * bool * budgetCell :=
  if (0 <? bc_maxPauseNs c) && negb (bc_lastSeenMon c =? 0) && (bc_maxPauseNs c <? int64 (now - bc_lastSeenMon c))
  then (ErrBudgetUnavailable, true, set_fence (set_chunks c None None) (bc_maxPauseNs c) now)
  else
    let c := if 0 <? bc_rate c then accrueTokensLocked now c else c in
    if (0 <? bc_rate c) && (bc_tokens c <? n) then (ErrPacingThrottled, false, c)
    else
      let c := promoteLocked now c in
      match bc_cur c with
      | Some ch =>
          if n <=? ch_remaining ch then
            let ch := mkChunk (ch_remaining ch - n) (ch_deadlineMon ch) (int64 (ch_spent ch + n)) (ch_reported ch)
                        (ch_amount ch) (ch_leaseID ch) in
            let c := set_chunks c (Some ch) (bc_next c) in
            let c := if 0 <? bc_rate c then set_tokens c (bc_tokens c - n) (bc_lastTokenMon c) else c in
            let c := set_fence c (bc_maxPauseNs c) now in
            (SpendOk, (ch_remaining ch <? bc_lowWatermark c) && bool_decide (bc_next c = None), c)
          else (ErrBudgetUnavailable, true, c)
      | None => (ErrBudgetUnavailable, true, c)
      end.

(** Whether a refill starts: not when closed, and at most one at a time. *)
Definition requestRefill (c : budgetCell) : bool * budgetCell :=
  if bc_closed c || bc_refilling c then (false, c) else (true, set_flags c (bc_closed c) true).

Definition Spend (n now : Z) (c : budgetCell) : spendRes * bool * budgetCell :=
  if n <=? 0 then (SpendOk, false, c)
  else if bc_closed c then (ErrBudgetUnavailable, false, c)
  else
    let '(r, trigger, c) := spendLocked n now c in
    if trigger then let '(started, c) := requestRefill c in (r, started, c) else (r, false, c).

(** ** Refilling *)

(** The snapshot a refill starts from: the report it owes, the amount to draw and the
    nonce; nothing to do when a lease is buffered. *)
Record refillPlan := mkPlan { rp_report : option (bytes * Z); rp_chunk : Z; rp_nonce : Z; rp_holder : bytes }.

Definition refillSnap (c : budgetCell) : option refillPlan :=
  match bc_next c with
  | Some _ => None
  | None =>
      Some (mkPlan
        (match bc_cur c with
         | Some ch =>
             if (0 <? lenZ (ch_leaseID ch)) && (ch_reported ch <? ch_spent ch)
             then Some (ch_leaseID ch, ch_spent ch) else None
         | None => None
         end) (bc_chunk c) (bc_nonce c) (bc_holder c))
  end.

(** The report was acknowledged. *)
Definition refillReported (repID : bytes) (repSpent : Z) (c : budgetCell) : budgetCell :=
  match bc_cur c with
  | Some ch =>
      if decide (ch_leaseID ch = repID)
      then set_chunks c (Some (mkChunk (ch_remaining ch) (ch_deadlineMon ch) (ch_spent ch) repSpent (ch_amount ch)
                                 (ch_leaseID ch))) (bc_next c)
      else c
  | None => c
  end.

Definition refillInstall (gr : drawResult) (leaseID : bytes) (nonce now : Z) (c : budgetCell) : budgetCell :=
  let deadline := if 0 <? dr_ttlMs gr
                  then int64 (now + int64 (int64 (dr_ttlMs gr - dr_selfGuardMs gr) * nsPerMs)) else maxMonoDeadline in
  let c := set_chunks c (bc_cur c) (Some (mkChunk (dr_granted gr) deadline 0 0 (dr_granted gr) leaseID)) in
  let c := set_fence c (if 0 <? dr_maxPauseMs gr then int64 (dr_maxPauseMs gr * nsPerMs) else bc_maxPauseNs c) now in
  let c := set_draw c (uint64 (nonce + 1)) (dr_selfGuardMs gr) (dr_ttlMs gr) in
  promoteLocked now c.

(** One answer of the draw loop: try again under a fresh nonce, or stop. *)
Inductive drawStep := Redraw (nonce : Z) | Stop (c : budgetCell).

Definition refillAnswer (r : res drawErr drawResult) (leaseID : bytes) (nonce wall now : Z) (c : budgetCell) : drawStep :=
  match r with
  | Err errLeaseSettled => Redraw (uint64 (nonce + 1))
  | Err errDraw => Stop c
  | Ok gr =>
      if dr_granted gr <=? 0 then Stop c
      else if (0 <? dr_ttlMs gr) && (dr_selfGuardMs gr <? int64 (wall - dr_grantedMs gr))
      then Redraw (uint64 (nonce + 1))
      else Stop (refillInstall gr leaseID nonce now c)
  end.

Section Refill.
Context {W : Type} (drawFn : bytes → Z → W → res drawErr drawResult * W) (reportFn : bytes → Z → W → bool * W).
Context (wallNow now : W → Z).

Fixpoint drawLoop (attempts : nat) (p : refillPlan) (nonce : Z) (c : budgetCell) (w : W) : budgetCell * W :=
  match attempts with
  | O => (c, w)
  | S attempts =>
      let leaseID := makeLeaseID (rp_holder p) nonce in
      let '(r, w) := drawFn leaseID (rp_chunk p) w in
      match refillAnswer r leaseID nonce (wallNow w) (now w) c with
      | Redraw nonce => drawLoop attempts p nonce c w
      | Stop c => (c, w)
      end
  end.

Definition refillOnce (c : budgetCell) (w : W) : budgetCell * W :=
  match refillSnap c with
  | None => (c, w)
  | Some p =>
      let '(c, w) := match rp_report p with
                     | Some (id, spent) =>
                         let '(ok, w) := reportFn id spent w in
                         (if ok then refillReported id spent c else c, w)
                     | None => (c, w)
                     end in
      drawLoop maxRefillAttempts p (rp_nonce p) c w
  end.

End Refill.

(** ** Returning *)

(** [Return] closes the cell first and takes the leases once it holds the lock. *)
Definition closeCell (c : budgetCell) : budgetCell := set_flags c true (bc_refilling c).

Definition takeChunks (c : budgetCell) : list leaseChunk * budgetCell :=
  (omap id [bc_cur c; bc_next c], set_chunks c None None).

(** ** Events of a cell *)

Inductive cellEvent :=
  | ESpend (n now : Z)
  | EReported (id : bytes) (spent : Z)
  | EAnswer (r : res drawErr drawResult) (id : bytes) (nonce wall now : Z)
  | EClose
  | ETake.

#[export] Instance spendRes_eq_dec : EqDecision spendRes.
Proof. solve_decision. Defined.

(** The units an event serves, and the cell after it. *)
Definition cellStep (e : cellEvent) (c : budgetCell) : Z * budgetCell :=
  match e with
  | ESpend n now => let '(r, _, c) := Spend n now c in (if decide (r = SpendOk) then Z.max 0 n else 0, c)
  | EReported id spent => (0, refillReported id spent c)
  | EAnswer r id nonce wall now => (0, match refillAnswer r id nonce wall now c with Stop c => c | Redraw _ => c end)
  | EClose => (0, closeCell c)
  | ETake => (0, (takeChunks c).2)
  end.

Fixpoint served (es : list cellEvent) (c : budgetCell) : Z :=
  match es with
  | [] => 0
  | e :: es => let '(n, c) := cellStep e c in n + served es c
  end.

(** ** Pacing *)

(** The bucket a pacing cell is in, and what it never changes. *)
Record bucket_ok (c : budgetCell) : Prop := {
  bk_rate : 0 < bc_rate c;
  bk_width : (bc_rate c + bc_burst c) * nsPerSec < 2 ^ 63;
  bk_tokens : 0 ≤ bc_tokens c ≤ bc_burst c;
  bk_last : 0 ≤ bc_lastTokenMon c < 2 ^ 63;
}.

Lemma accrue_bound c now :
  bucket_ok c → 0 ≤ now < 2 ^ 63 →
  let c' := accrueTokensLocked now c in
  bucket_ok c' ∧ bc_rate c' = bc_rate c ∧ bc_burst c' = bc_burst c ∧ bc_lastTokenMon c' = now ∧
  nsPerSec * bc_tokens c' ≤ nsPerSec * bc_tokens c + bc_rate c * Z.max 0 (now - bc_lastTokenMon c).
Proof.
  intros [Hr Hw Ht Hl] Hn. unfold accrueTokensLocked. unfold nsPerSec in *.
  rewrite (proj2 (Z.leb_gt _ _)) by lia. rewrite (int64_id (now - _)) by zlia.
  destruct (Z.leb_spec (now - bc_lastTokenMon c) 0).
  { split; [split; simpl; unfold nsPerSec; lia|]. do 3 (split; [done|]). simpl. lia. }
  set (el := now - bc_lastTokenMon c) in *. set (r := bc_rate c) in *. set (b := bc_burst c) in *.
  assert (maxI64 r 1 = r) as -> by (unfold maxI64; destruct (Z.ltb_spec 1 r); lia).
  rewrite (Z.quot_div_nonneg b r) by lia. pose proof (Z.div_mod b r ltac:(lia)) as Hq.
  pose proof (Z.mod_pos_bound b r ltac:(lia)). pose proof (Z.div_pos b r ltac:(lia) ltac:(lia)). set (q := b / r) in *.
  assert (q ≤ b) by nia. rewrite (int64_id (q + 1)) by zlia. rewrite (int64_id ((q + 1) * _)) by zlia.
  destruct (Z.leb_spec ((q + 1) * 1000000000) el).
  { split; [split; simpl; unfold nsPerSec; lia|]. do 3 (split; [done|]). simpl. fold r b. rewrite Z.max_r by lia. nia. }
  assert (0 ≤ r * el < (b + r) * 1000000000) by nia. rewrite (int64_id (r * el)) by zlia.
  rewrite (Z.quot_div_nonneg (r * el)) by lia.
  pose proof (Z.mul_div_le (r * el) 1000000000 ltac:(lia)). pose proof (Z.div_pos (r * el) 1000000000 ltac:(lia) ltac:(lia)).
  set (inc := r * el / 1000000000) in *. rewrite (int64_id (bc_tokens c + inc)) by zlia.
  destruct (Z.ltb_spec b (bc_tokens c + inc)); (split; [split; simpl; unfold nsPerSec; lia|]); do 3 (split; [done|]); simpl; fold r b el; rewrite Z.max_r by lia; lia.
Qed.

(** Everything but a spend leaves the bucket alone. *)
Definition same_bucket (c c' : budgetCell) : Prop :=
  bc_rate c' = bc_rate c ∧ bc_burst c' = bc_burst c ∧ bc_tokens c' = bc_tokens c ∧
  bc_lastTokenMon c' = bc_lastTokenMon c.

Lemma promote_bucket now c : same_bucket c (promoteLocked now c).
Proof. unfold promoteLocked. by repeat case_match. Qed.

Lemma bucket_ok_same c c' : same_bucket c c' → bucket_ok c → bucket_ok c'.
Proof. intros (E1 & E2 & E3 & E4) []. split; by rewrite ?E1, ?E2, ?E3, ?E4. Qed.

Lemma other_bucket e c : (∀ n now, e ≠ ESpend n now) → (cellStep e c).1 = 0 ∧ same_bucket c (cellStep e c).2.
Proof.
  intros He. destruct e as [n now|id spent|r id nonce wall now| |]; try done; [by destruct (He n now)| |].
  - simpl. unfold refillReported. by repeat case_match.
  - simpl. split; [done|]. unfold refillAnswer. repeat case_match; simplify_eq; try done.
    unfold refillInstall. match goal with |- same_bucket _ (promoteLocked ?t ?d) => pose proof (promote_bucket t d) as Hp end.
    unfold same_bucket in *. simpl in Hp. done.
Qed.

(** A spend that is served pays from the accrued bucket; any other one leaves the bucket
    as it was or as it accrued. *)
Lemma spendLocked_bucket n now c :
  bucket_ok c → let '(r, _, c') := spendLocked n now c in
  let a := accrueTokensLocked now c in
  r ≠ SpendOk ∧ (same_bucket c c' ∨ same_bucket a c') ∨
  r = SpendOk ∧ n ≤ bc_tokens a ∧ same_bucket (set_tokens a (bc_tokens a - n) (bc_lastTokenMon a)) c'.
Proof.
  intros [Hr _ _ _]. unfold spendLocked. destruct (_ && _ && _); [left; split; [done|by left]|]. cbv zeta.
  rewrite (proj2 (Z.ltb_lt _ _) Hr). set (a := accrueTokensLocked now c).
  assert (bc_rate a = bc_rate c) as Er by (subst a; unfold accrueTokensLocked; by repeat case_match).
  rewrite Er, (proj2 (Z.ltb_lt _ _) Hr). cbn [andb]. destruct (Z.ltb_spec (bc_tokens a) n); [left; split; [done|by right]|].
  pose proof (promote_bucket now a) as Hp. set (c2 := promoteLocked now a) in *.
  destruct (bc_cur c2) as [ch|]; [|left; split; [done|by right]].
  destruct (n <=? ch_remaining ch); [|left; split; [done|by right]]. right. split_and!; [done..|].
  destruct Hp as (E1 & E2 & E3 & E4). unfold same_bucket. simpl. rewrite E1, Er, (proj2 (Z.ltb_lt _ _) Hr). simpl.
  by rewrite E1, E2, E3, E4.
Qed.

Lemma spend_bound n now c :
  bucket_ok c → 0 ≤ now < 2 ^ 63 →
  let '(u, c') := cellStep (ESpend n now) c in
  bucket_ok c' ∧ bc_rate c' = bc_rate c ∧ bc_burst c' = bc_burst c ∧ (bc_lastTokenMon c' = bc_lastTokenMon c ∨ bc_lastTokenMon c' = now) ∧ 0 ≤ u ∧
  nsPerSec * (u + bc_tokens c') ≤ nsPerSec * bc_tokens c + bc_rate c * Z.max 0 (bc_lastTokenMon c' - bc_lastTokenMon c).
Proof.
  intros Hb Hn. pose proof (accrue_bound c now Hb Hn) as (Hb' & Er & Eb & El & Hacc).
  assert (∀ (cl : bool) c', same_bucket c c' → bucket_ok c' ∧ bc_rate c' = bc_rate c ∧ bc_burst c' = bc_burst c ∧
    (bc_lastTokenMon c' = bc_lastTokenMon c ∨ bc_lastTokenMon c' = now) ∧ 0 ≤ 0 ∧
    nsPerSec * (0 + bc_tokens c') ≤ nsPerSec * bc_tokens c + bc_rate c * Z.max 0 (bc_lastTokenMon c' - bc_lastTokenMon c)) as idle.
  { intros _ c' Hs. split; [by eapply bucket_ok_same|]. destruct Hs as (-> & -> & -> & ->). split_and!; [done|done|by left|done|]. rewrite Z.sub_diag. lia. }
  simpl. unfold Spend. destruct (Z.leb_spec n 0).
  { simpl. rewrite Z.max_l by lia. by apply (idle true). }
  destruct (bc_closed c); [by apply (idle true)|].
  pose proof (spendLocked_bucket n now c Hb) as Hs. destruct (spendLocked n now c) as [[r trig] c1].
  assert (same_bucket c1 (let '(_, c2) := requestRefill c1 in c2)) as Hreq by (unfold requestRefill; by destruct (_ || _)).
  assert (∃ c2 st, (if trig then let '(started, c) := requestRefill c1 in (r, started, c) else (r, false, c1)) = (r, st, c2) ∧
    same_bucket c1 c2) as (c2 & st & -> & Hc2).
  { destruct trig; [|by exists c1, false]. destruct (requestRefill c1) as [st c2]. by exists c2, st. }
  assert (∀ d, same_bucket d c1 → same_bucket d c2) as Htr.
  { intros d (F1 & F2 & F3 & F4). destruct Hc2 as (G1 & G2 & G3 & G4). unfold same_bucket. by rewrite G1, G2, G3, G4. }
  destruct Hs as [[Hr [Hs|Hs]]|(-> & Hle & Hs)].
  - rewrite decide_False by done. by apply (idle true), Htr.
  - rewrite decide_False by done. apply Htr in Hs. split; [by eapply bucket_ok_same; [exact Hs|]|].
    destruct Hs as (-> & -> & -> & ->). split_and!; [done|done|by right|done|lia].
  - rewrite decide_True by done. apply Htr in Hs. destruct Hb'.
    assert (bucket_ok (set_tokens (accrueTokensLocked now c) (bc_tokens (accrueTokensLocked now c) - n)
      (bc_lastTokenMon (accrueTokensLocked now c)))) as Hb2 by (split; simpl; [done..|lia|done]).
    split; [by eapply bucket_ok_same; [exact Hs|]|]. destruct Hs as (-> & -> & -> & ->). simpl. rewrite (Z.max_r 0 n) by lia. split_and!; [done|done|by right|lia|lia].
Qed.

(** How far the readings of the clock go forward from [t], the steps back not counted. *)
Fixpoint forward (t : Z) (es : list cellEvent) : Z :=
  match es with
  | [] => 0
  | ESpend _ now :: es => Z.max 0 (now - t) + forward now es
  | _ :: es => forward t es
  end.

(** Readings of a clock in nanoseconds. *)
Definition readings (es : list cellEvent) : Prop := ∀ n now, ESpend n now ∈ es → 0 ≤ now < 2 ^ 63.

(** Readings that never go back. *)
Fixpoint timed (t : Z) (es : list cellEvent) (t' : Z) : Prop :=
  match es with
  | [] => t ≤ t'
  | ESpend _ now :: es => t ≤ now ∧ timed now es t'
  | _ :: es => timed t es t'
  end.

Lemma forward_timed t es t' : timed t es t' → forward t es ≤ t' - t.
Proof.
  revert t. induction es as [|e es IH]; intros t; [simpl; lia|]. destruct e; simpl; [|by apply IH..].
  intros [? Hes%IH]. lia.
Qed.

Lemma forward_nonneg t es : 0 ≤ forward t es.
Proof. revert t. induction es as [|[] es IH]; intros t; simpl; [done| |by apply IH..]. specialize (IH now). lia. Qed.

Lemma forward_step t now es : forward t es ≤ Z.max 0 (now - t) + forward now es.
Proof. revert t now. induction es as [|[] es IH]; intros t now0; simpl; [lia|lia|apply IH..]. Qed.

Lemma served_bound es c :
  bucket_ok c → readings es → nsPerSec * served es c ≤ nsPerSec * bc_tokens c + bc_rate c * forward (bc_lastTokenMon c) es.
Proof.
  revert c. induction es as [|e es IH]; intros c Hb Hes.
  { simpl in *. destruct Hb. unfold nsPerSec. lia. }
  assert (readings es) as Hes' by (intros n now Hin; by apply (Hes n now), elem_of_cons; right). cbn [served].
  assert ((∀ n now, e ≠ ESpend n now) →
    nsPerSec * (let '(n, c') := cellStep e c in n + served es c') ≤ nsPerSec * bc_tokens c + bc_rate c * forward (bc_lastTokenMon c) es) as Hother.
  { intros He. destruct (other_bucket e c He) as [E1 Hs]. destruct (cellStep e c) as [u c']. cbn [fst snd] in *.
    pose proof (IH c' (bucket_ok_same _ _ Hs Hb) Hes') as IHc. destruct Hs as (E3 & E4 & E5 & E6). rewrite E3, E5, E6 in IHc. lia. }
  destruct e as [n now|id spent|r id nonce wall now| |]; try (by apply Hother).
  assert (0 ≤ now < 2 ^ 63) as Hn by (apply (Hes n); by left). pose proof (spend_bound n now c Hb Hn) as Hs. destruct (cellStep (ESpend n now) c) as [u c'].
  destruct Hs as (Hb' & Er & Eb & El & Hu & Hle). specialize (IH c' Hb' Hes'). rewrite Er in IH. cbn [forward].
  pose proof (forward_step (bc_lastTokenMon c) now es). destruct Hb as [Hr _ _ _]. destruct El as [El|El]; rewrite El in *; [rewrite Z.sub_diag in Hle|]; nia.
Qed.

(** ** Chunks *)

Definition chunk_ok (ch : leaseChunk) : Prop :=
  0 ≤ ch_remaining ch ∧ 0 ≤ ch_spent ch ∧ ch_spent ch + ch_remaining ch = ch_amount ch ∧ ch_amount ch < 2 ^ 63.

Definition holds (c : budgetCell) (ch : leaseChunk) : Prop := bc_cur c = Some ch ∨ bc_next c = Some ch.

Definition cell_ok (c : budgetCell) : Prop := ∀ ch, holds c ch → chunk_ok ch.

(** The chunk after serving [n] units. *)
Definition spendFrom (ch : leaseChunk) (n : Z) : leaseChunk :=
  mkChunk (ch_remaining ch - n) (ch_deadlineMon ch) (ch_spent ch + n) (ch_reported ch) (ch_amount ch) (ch_leaseID ch).

Lemma spendFrom_ok ch n : chunk_ok ch → 0 ≤ n ≤ ch_remaining ch → chunk_ok (spendFrom ch n).
Proof. unfold chunk_ok. simpl. lia. Qed.

(** A cell that gained no chunk, and still has both only if it has the same. *)
Definition shrinks (c c' : budgetCell) : Prop :=
  (∀ ch, holds c' ch → holds c ch) ∧
  (∀ ch ch', bc_cur c' = Some ch → bc_next c' = Some ch' → bc_cur c = Some ch ∧ bc_next c = Some ch').

Lemma shrinks_empty c c' : bc_cur c' = None → bc_next c' = None → shrinks c c'.
Proof. intros E1 E2. split; [intros ch [E|E]|]; congruence. Qed.
Lemma shrinks_same c c' : bc_cur c' = bc_cur c → bc_next c' = bc_next c → shrinks c c'.
Proof. intros E1 E2. unfold shrinks, holds. by rewrite E1, E2. Qed.

Lemma promote_shrinks now c : shrinks c (promoteLocked now c).
Proof. unfold promoteLocked, shrinks, holds. repeat case_match; simpl in *; naive_solver. Qed.

(** The chunk that serves is alive. *)
Lemma promote_cur now c ch :
  bc_cur (promoteLocked now c) = Some ch → holds c ch ∧ now < ch_deadlineMon ch.
Proof.
  intros E. split; [apply (promote_shrinks now); by left|]. revert E. unfold promoteLocked.
  destruct (bc_cur c) as [ch0|].
  - destruct (Z.leb_spec (ch_deadlineMon ch0) now); cbn [orb].
    + destruct (bc_next c) as [ch1|]; simpl; [|done]. destruct (Z.leb_spec (ch_deadlineMon ch1) now); naive_solver.
    + destruct (ch_remaining ch0 =? 0); [|simpl; naive_solver].
      destruct (bc_next c) as [ch1|]; simpl; [|done]. destruct (Z.leb_spec (ch_deadlineMon ch1) now); naive_solver.
  - destruct (bc_next c) as [ch1|]; simpl; [|done]. destruct (Z.leb_spec (ch_deadlineMon ch1) now); naive_solver.
Qed.

(** What a call of the locked part does: it serves from one chunk, or serves nothing;
    the other chunks of the cell are some it had. *)
Lemma spendLocked_spec n now c :
  0 < n → cell_ok c →
  let '(r, _, c') := spendLocked n now c in
  (r = SpendOk ∧ ∃ ch, holds c ch ∧ n ≤ ch_remaining ch ∧ now < ch_deadlineMon ch ∧ bc_cur c' = Some (spendFrom ch n) ∧
     (∀ ch', bc_next c' = Some ch' → bc_next c = Some ch' ∧ bc_cur c = Some ch) ∧
     (bc_maxPauseNs c ≤ 0 ∨ bc_lastSeenMon c = 0 ∨ int64 (now - bc_lastSeenMon c) ≤ bc_maxPauseNs c)) ∨
  (r ≠ SpendOk ∧ shrinks c c').
Proof.
  intros Hn Hc. unfold spendLocked.
  destruct ((0 <? bc_maxPauseNs c) && _ && _) eqn:Hf; [right; split; [done|]; by apply shrinks_empty|].
  cbv zeta. set (a := if 0 <? bc_rate c then accrueTokensLocked now c else c).
  assert (bc_cur a = bc_cur c ∧ bc_next a = bc_next c) as [Ec En]
    by (subst a; case_match; [unfold accrueTokensLocked|]; by repeat case_match).
  assert (∀ ch, holds a ch ↔ holds c ch) as Ha by (intros; unfold holds; by rewrite Ec, En).
  destruct ((0 <? bc_rate a) && _); [right; split; [done|]; by apply shrinks_same|].
  assert (shrinks c (promoteLocked now a)) as Hsh.
  { destruct (promote_shrinks now a) as [H1 H2]. split; [intros; by apply Ha, H1|]. rewrite <-Ec, <-En. done. }
  destruct (bc_cur (promoteLocked now a)) as [ch|] eqn:Ep; [|by right].
  destruct (Z.leb_spec n (ch_remaining ch)) as [Hle|]; [|by right].
  left. destruct (promote_cur _ _ _ Ep) as [Hh Hd]. apply Ha in Hh. destruct (Hc ch Hh) as (?&?&?&?).
  split; [done|]. exists ch. split_and!; [done..| | |].
  - case_match; simpl; rewrite int64_id by zlia; done.
  - intros ch' Hch'. assert (bc_next (promoteLocked now a) = Some ch') as Hnx by (revert Hch'; case_match; done).
    rewrite <-Ec, <-En. revert Ep Hnx. unfold promoteLocked. repeat case_match; simpl; naive_solver.
  - rewrite !andb_false_iff, Z.ltb_ge, negb_false_iff, Z.eqb_eq, Z.ltb_ge in Hf. tauto.
Qed.

Lemma requestRefill_chunks c ch : holds (requestRefill c).2 ch ↔ holds c ch.
Proof. unfold requestRefill. by destruct (_ || _). Qed.

(** ** Properties *)

(** C31: Pacing: a holder that paces itself never serves more than its burst plus what its
    rate allows over the time its clock goes forward, whatever the order of spends, refills and
    returns, as long as rate and burst fit the nanosecond arithmetic. If the readings of the clock
    never go back, as those of a monotonic clock, that is the elapsed time; each step back lets
    the time that follows count again. *)
Theorem pacing_bound (o : acquireOptions) (holder : bytes) (t0 : Z) (es : list cellEvent) :
  let c := newCell o holder t0 in
  0 < bc_rate c → (bc_rate c + bc_burst c) * nsPerSec < 2 ^ 63 → 0 ≤ t0 < 2 ^ 63 → readings es →
  nsPerSec * served es c ≤ nsPerSec * bc_burst c + bc_rate c * forward t0 es ∧
  ∀ t1, timed t0 es t1 → nsPerSec * served es c ≤ nsPerSec * bc_burst c + bc_rate c * (t1 - t0).
Proof.
  intros c Hr Hw Ht Hes. assert (nsPerSec * served es c ≤ nsPerSec * bc_burst c + bc_rate c * forward t0 es) as Hb.
  { apply (served_bound es c); [|done]. split; simpl in *; [done|done| |done].
    unfold defaultChunkUnits. repeat case_match; rewrite ?Z.leb_le, ?Z.leb_gt in *; lia. }
  split; [done|]. intros t1 Hf%forward_timed. nia.
Qed.

(** Spending: a spend of a positive amount is served only while the cell is open and its
    fence has not tripped, from one cached lease that is alive on the holder's clock and
    has the units left, and moves exactly that amount from its remainder to its spend. *)
Theorem spend_within_lease (n now : Z) (c c' : budgetCell) (started : bool) :
  0 < n → cell_ok c → Spend n now c = (SpendOk, started, c') →
  bc_closed c = false ∧
  (bc_maxPauseNs c ≤ 0 ∨ bc_lastSeenMon c = 0 ∨ int64 (now - bc_lastSeenMon c) ≤ bc_maxPauseNs c) ∧
  ∃ ch, holds c ch ∧ now < ch_deadlineMon ch ∧ n ≤ ch_remaining ch ∧ bc_cur c' = Some (spendFrom ch n) ∧
    chunk_ok (spendFrom ch n).
Proof.
  intros Hn Hc. unfold Spend. rewrite (proj2 (Z.leb_gt _ _)) by lia. destruct (bc_closed c); [done|].
  pose proof (spendLocked_spec n now c Hn Hc) as Hs. destruct (spendLocked n now c) as [[r trig] c1]. intros E.
  assert (r = SpendOk ∧ bc_cur c' = bc_cur c1) as [-> Ecur].
  { destruct trig; [|by injection E as -> _ ->]. unfold requestRefill in E. destruct (_ || _); by injection E as -> _ <-. }
  destruct Hs as [(_ & ch & Hh & Hle & Hd & Hcur & _ & Hfence)|[? _]]; [|done].
  split_and!; [done..|]. exists ch. rewrite Ecur. destruct (Hc ch Hh). split_and!; [done..|]. apply spendFrom_ok; [done|lia].
Qed.

(** ** Sample cells *)

Definition sampleChunk (units : Z) (id : bytes) : leaseChunk := mkChunk units 1000000000 0 0 units id.
Definition samplePaced (rate burst : Z) : budgetCell := newCell (mkOptions rate burst 10) (lit "h") 0.

Lemma pacing_bound_witness :
  let es := [ESpend 3 0; EAnswer (Ok (mkDraw 10 0 0 0 0)) (lit "l") 0 0 0; ESpend 2 1; ESpend 2 2] in
  served es (samplePaced 1 4) = 4 ∧ nsPerSec * served es (samplePaced 1 4) ≤ nsPerSec * 4 + 1 * (2 - 0).
Proof.
  split; [vm_compute; reflexivity|]. apply (pacing_bound (mkOptions 1 4 10) (lit "h") 0); [reflexivity|reflexivity|by vm_compute| |by vm_compute].
  intros n now Hin. apply list_elem_of_In in Hin. simpl in Hin. destruct Hin as [[= <- <-]|[[=]|[[= <- <-]|[[= <- <-]|[]]]]]; split; vm_compute; congruence.
Defined.

Lemma spend_within_lease_witness :
  let c := set_chunks (samplePaced 0 0) (Some (sampleChunk 5 (lit "a"))) None in
  ∃ started c', Spend 3 7 c = (SpendOk, started, c') ∧ bc_cur c' = Some (spendFrom (sampleChunk 5 (lit "a")) 3).
Proof.
  intros c. destruct (Spend 3 7 c) as [[r st] c'] eqn:E.
  assert (cell_ok c) as Hc by (intros ch [[= <-]|[=]]; vm_compute; intuition congruence).
  assert (r = SpendOk) as -> by (vm_compute in E; congruence).
  destruct (spend_within_lease 3 7 c c' st ltac:(reflexivity) Hc E) as (_ & _ & ch & [[= <-]|[=]] & _ & _ & Ecur & _).
  by exists st, c'.
Defined.

(** ** Where the cache does not do what it says *)

(** The bucket drops the fraction of a token at every look: a holder that tries twice a
    second at one unit per second never gets a second unit. *)
Theorem pacing_starves :
  let tries := (λ i, ESpend 1 (Z.of_nat i * 500000000)) <$> seq 0 20 in
  let c := set_chunks (samplePaced 1 1) (Some (mkChunk 100 maxMonoDeadline 0 0 100 (lit "a"))) None in
  served tries c = 1.
Proof. vm_compute. done. Qed.

(** A reading that goes back does not accrue, but it moves the mark back: the time that follows
    accrues a second time. Between 0 and 2 s, at one unit per second and a burst of one, four
    units are served. *)
Theorem backward_reading_accrues_again :
  let c := set_chunks (samplePaced 1 1) (Some (mkChunk 100 maxMonoDeadline 0 0 100 (lit "a"))) None in
  served [ESpend 1 0; ESpend 1 1000000000; ESpend 1 2000000000; ESpend 1 1000000000; ESpend 1 2000000000] c = 4.
Proof. vm_compute. done. Qed.

(** The accrual overflows for a rate of 10^10 in spite of its guard: after less than a
    second a full bucket turns negative and the spend is throttled. *)
Theorem pacing_overflows :
  let c := set_chunks (samplePaced 10000000000 1) (Some (sampleChunk 100 (lit "a"))) None in
  (Spend 1 950000000 c).1.1 = ErrPacingThrottled ∧ (bc_tokens (Spend 1 950000000 c).2 <? 0) = true.
Proof. vm_compute. done. Qed.

(** A spend larger than what is left of the current lease fails although the buffered
    one could serve it, and the refill it triggers does nothing. *)
Theorem buffered_lease_stranded :
  let c := set_chunks (samplePaced 0 0) (Some (sampleChunk 1 (lit "a"))) (Some (sampleChunk 100 (lit "b"))) in
  let '(r, started, c') := Spend 5 7 c in
  r = ErrBudgetUnavailable ∧ started = true ∧ Remaining c' = 101 ∧ refillSnap c' = None.
Proof. vm_compute. done. Qed.

End LeaseCache.
