(* ===== verification/LeaseSystem.v ===== *)
(** * Holders and their budget, end to end

    Any number of lease caches (LeaseCache) draw from one budget of a shard
    (Budget, ShardSM) through the collections API (Api), over a network that delays, loses
    and repeats requests and answers, next to any other traffic of the shard. A refill is
    interleaved with spends, returns and commits at every remote call. This file has the
    system and what a committed batch does to the money behind each lease. *)

From S2P Require Import Prelude Bytes Strconv Storage Command Keys Ctx CtxLogic Budget Ledger.
From S2P Require Import BudgetRefine ShardSM Samples ShardFrame ShardUpdate BudgetSystem Elements ElementSystem Batching Api LeaseCache.

Local Open Scope Z_scope.
#[local] Set Default Proof Using "Type".

Module LeaseSystem.
Import Storage Command Keys Ctx CtxLogic Budget Ledger BudgetRefine ShardSM Samples ShardFrame ShardUpdate.
Import BudgetSystem Elements ElementSystem Batching Api LeaseCache.

(** ** What travels *)

Inductive request :=
  | RqGrant (holder id : bytes) (amount : Z)
  | RqReport (holder id : bytes) (spent : Z)
  | RqReturn (holder id : bytes) (spent : Z).

#[export] Instance request_eq_dec : EqDecision request.
Proof. solve_decision. Defined.

(** The service's answer to a grant (service.go) and what the client makes of it. *)
Definition serviceGrant (r : res apiErr GrantResult) : res apiErr GrantResult :=
  match r with
  | Err ErrNoCapacity => Ok (mkGrant 0 0 0 0 0)
  | r => r
  end.

Definition draw (r : res apiErr GrantResult) : res drawErr drawResult :=
  match r with
  | Err ErrLeaseSettled => Err errLeaseSettled
  | Err _ => Err errDraw
  | Ok g => Ok (mkDraw (g_Granted g) (g_GrantedMs g) (g_TTLMs g) (g_SelfGuardMs g) (g_MaxPauseMs g))
  end.

(** The reply data of a committed grant, through the API. *)
Definition drawReply (data : bytes) : res drawErr drawResult :=
  draw (serviceGrant
    (if decide (data = wrongType) then Err ErrWrongType
     else if decide (data = notNumber) then Err ErrNotNumber
     else if decide (data = frozenMark) then Err ErrFrozen
     else grantReply data)).

(** ** Holders *)

(** Where a refill stands: started, waiting for the answer to its report, or to a draw
    with some attempts left. *)
Inductive phase :=
  | PStart
  | PReport (p : refillPlan) (id : bytes) (spent : Z)
  | PDraw (p : refillPlan) (attempts : nat) (nonce : Z).

Record holder := mkHolder { h_cell : budgetCell; h_phase : option phase }.

Definition idle (c : budgetCell) : holder := mkHolder (set_flags c (bc_closed c) false) None.

(** The draw of one attempt, and the request it sends. *)
Definition drawing (p : refillPlan) (attempts : nat) (nonce : Z) (c : budgetCell) : holder * list request :=
  match attempts with
  | O => (idle c, [])
  | Datatypes.S _ => (mkHolder c (Some (PDraw p attempts nonce)),
                      [RqGrant (rp_holder p) (makeLeaseID (rp_holder p) nonce) (rp_chunk p)])
  end.

(** A spend that passed its check of the closed flag before a return set it. *)
Definition spendLate (n now : Z) (c : budgetCell) : spendRes * bool * budgetCell :=
  if n <=? 0 then (SpendOk, false, c)
  else
    let '(r, trigger, c) := spendLocked n now c in
    if trigger then let '(started, c) := requestRefill c in (r, started, c) else (r, false, c).

Inductive holderEvent :=
  | HSpend (n now : Z) (late : bool)
  | HStart
  | HReported (ok : bool)
  | HAnswer (r : res drawErr drawResult) (wall now : Z)
  | HClose
  | HTake.

(** Units served, requests sent, and the holder afterwards. *)
Definition holderStep (e : holderEvent) (h : holder) : Z * list request * holder :=
  let c := h_cell h in
  match e, h_phase h with
  | HSpend n now late, ph =>
      let '(r, started, c) := if late then spendLate n now c else Spend n now c in
      (if decide (r = SpendOk) then Z.max 0 n else 0, [], mkHolder c (if started : bool then Some PStart else ph))
  | HStart, Some PStart =>
      match refillSnap c with
      | None => (0, [], idle c)
      | Some p =>
          match rp_report p with
          | Some (id, spent) => (0, [RqReport (rp_holder p) id spent], mkHolder c (Some (PReport p id spent)))
          | None => let '(h, rs) := drawing p maxRefillAttempts (rp_nonce p) c in (0, rs, h)
          end
      end
  | HReported ok, Some (PReport p id spent) =>
      let '(h, rs) := drawing p maxRefillAttempts (rp_nonce p) (if ok then refillReported id spent c else c) in
      (0, rs, h)
  | HAnswer r wall now, Some (PDraw p (Datatypes.S k) nonce) =>
      match refillAnswer r (makeLeaseID (rp_holder p) nonce) nonce wall now c with
      | Redraw nonce => let '(h, rs) := drawing p k nonce c in (0, rs, h)
      | Stop c => (0, [], idle c)
      end
  | HClose, ph => (0, [], mkHolder (closeCell c) ph)
  | HTake, ph =>
      let '(chs, c) := takeChunks c in
      (0, omap (λ ch, if decide (ch_leaseID ch = []) then None
                      else Some (RqReturn (bc_holder c) (ch_leaseID ch) (ch_spent ch))) chs, mkHolder c ph)
  | _, _ => (0, [], h)
  end.

(** ** The system *)

Section System.
Context {S : Type} `{LocalStore S} `{FloatText} (ns coll : bytes).

(** A request as the command its commit applies; the proposing node stamps the time. *)
Definition cmdOfRequest (r : request) (grantedMs : Z) : command :=
  match r with
  | RqGrant h id amount => budgetGrantCmd grantedMs ns coll h amount id 0
  | RqReport h id spent => budgetReportCmd ns coll id h spent
  | RqReturn h id spent => budgetReturnCmd ns coll id h spent
  end.

(** An entry of the log: a request that was sent, or other traffic. *)
Inductive logged :=
  | Req (r : request) (grantedMs : Z)
  | Other (cmd : bytes).

Definition entryOf (index : Z) (l : logged) : entry :=
  mkEntry index (match l with Req r t => encodeCommand (cmdOfRequest r t) | Other cmd => cmd end).

Record system := mkSystem {
  y_shard : baseSM S;
  y_holders : gmap bytes holder;
  y_sent : list request;
  y_answers : list (bytes * res drawErr drawResult);
  y_served : Z;
}.

Inductive event :=
  | Acquire (h : bytes) (o : acquireOptions) (now : Z)
  | Holder (h : bytes) (e : holderEvent)
  | Commit (batch : list (Z * logged)).

(** The answers to the grants of a committed batch. *)
Definition answersOf (batch : list (Z * logged)) (rs : list ProposeResult) : list (bytes * res drawErr drawResult) :=
  omap (λ x, match x.1.2 with
             | Req (RqGrant _ id _) _ => Some (id, drawReply (Data x.2))
             | _ => None
             end) (zip batch rs).

Definition step (y : system) (e : event) : system :=
  match e with
  | Acquire h o now =>
      match y_holders y !! h with
      | Some _ => y
      | None => mkSystem (y_shard y)
                  (<[h := mkHolder (set_flags (newCell o h now) false true) (Some PStart)]> (y_holders y))
                  (y_sent y) (y_answers y) (y_served y)
      end
  | Holder h e =>
      match y_holders y !! h with
      | None => y
      | Some st =>
          let '(n, rs, st) := holderStep e st in
          mkSystem (y_shard y) (<[h := st]> (y_holders y)) (rs ++ y_sent y) (y_answers y) (y_served y + n)
      end
  | Commit batch =>
      match Update (y_shard y) ((λ x, entryOf x.1 x.2) <$> batch) with
      | Ok (rs, s) => mkSystem s (y_holders y) (y_sent y) (answersOf batch rs ++ y_answers y) (y_served y)
      | Err _ => y
      end
  end.

Definition run (es : list event) (y : system) : system := fold_left step es y.

Definition initial (s : baseSM S) : system := mkSystem s ∅ [] [] 0.

(** What an event may be. A holder gets an answer to the draw it waits for, or an error;
    a commit holds requests that were sent and other entries: no raw migration, no
    reconcile, no return of a lease of these holders, whose ids have 40 bytes. *)
Definition otherCmd (c : command) : Prop :=
  Op c = opBudReturn → NS c = ns → Coll c = coll → ∀ it, head (Items c) = Some it → length (Key it) ≠ 40%nat.

Definition event_ok (y : system) (e : event) : Prop :=
  match e with
  | Acquire h o now => length h = 32%nat
  | Holder h (HAnswer (Ok gr) wall now) =>
      ∃ c p k nonce, y_holders y !! h = Some (mkHolder c (Some (PDraw p k nonce))) ∧
        (makeLeaseID h nonce, Ok gr) ∈ y_answers y
  | Holder h _ => True
  | Commit batch => Forall (λ x, match x.2 with
                                 | Req r t => r ∈ y_sent y
                                 | Other cmd => entry_adm false otherCmd (entryOf x.1 x.2)
                                 end) batch
  end.

Fixpoint events_ok (y : system) (es : list event) : Prop :=
  match es with
  | [] => True
  | e :: es => event_ok y e ∧ events_ok (step y e) es
  end.

End System.

(** ** Credits

    The money of the budget that is not available, by lease id: what an outstanding
    lease holds, and what settled leases of that id left booked. *)

Definition credit (cr : gmap bytes Z) (id : bytes) : Z := default 0 (cr !! id).
Definition total (cr : gmap bytes Z) : Z := map_fold (λ _ v acc, v + acc) 0 cr.

Lemma credit_insert cr id v id' : credit (<[id := v]> cr) id' = if decide (id' = id) then v else credit cr id'.
Proof.
  unfold credit. case_decide as E; [subst; by rewrite lookup_insert_eq|by rewrite lookup_insert_ne].
Qed.

Lemma total_insert_new cr id v : cr !! id = None → total (<[id := v]> cr) = v + total cr.
Proof. intros. unfold total. rewrite map_fold_insert_L; [done| |done]. intros. lia. Qed.

Lemma total_delete cr id : total cr = credit cr id + total (delete id cr).
Proof.
  unfold credit. destruct (cr !! id) as [v|] eqn:E.
  - rewrite <-(insert_delete_id cr id v) at 1 by done. by rewrite total_insert_new by apply lookup_delete_eq.
  - by rewrite delete_id.
Qed.

Lemma total_insert cr id v : total (<[id := v]> cr) = total cr - credit cr id + v.
Proof.
  rewrite (total_delete cr id), (total_delete (<[id := v]> cr) id), credit_insert, decide_True by done.
  rewrite delete_insert_eq. lia.
Qed.

Lemma total_nonneg cr : (∀ id, 0 ≤ credit cr id) → 0 ≤ total cr.
Proof.
  induction cr as [|id v cr Hid IH] using map_ind; intros Hc; [done|]. rewrite total_insert_new by done.
  pose proof (Hc id) as Hv. rewrite credit_insert, decide_True in Hv by done.
  assert (0 ≤ total cr); [|lia]. apply IH. intros id'. specialize (Hc id'). rewrite credit_insert in Hc.
  case_decide as E; [|done]. subst. unfold credit. by rewrite Hid.
Qed.

Lemma total_le sv cr : (∀ id, 0 ≤ credit cr id) → (∀ id, credit sv id ≤ credit cr id) → total sv ≤ total cr.
Proof.
  revert cr. induction sv as [|id v sv Hid IH] using map_ind; intros cr Hn Hle; [by apply total_nonneg|].
  rewrite total_insert_new by done. rewrite (total_delete cr id). pose proof (Hle id) as Hv.
  rewrite credit_insert, decide_True in Hv by done.
  assert (∀ id', credit (delete id cr) id' = if decide (id' = id) then 0 else credit cr id') as Hd.
  { intros id'. unfold credit. case_decide as E; [subst; by rewrite lookup_delete_eq|by rewrite lookup_delete_ne]. }
  assert (total sv ≤ total (delete id cr)); [|lia]. apply IH; intros id'; rewrite Hd; case_decide as E; [done|done| |].
  - subst. unfold credit. by rewrite Hid.
  - specialize (Hle id'). by rewrite credit_insert, decide_False in Hle.
Qed.

Record backed (L : ledger) (cr : gmap bytes Z) : Prop := {
  bk_nonneg id : 0 ≤ credit cr id;
  bk_lease id l : lg_leases L !! id = Some l → l_Amount l ≤ credit cr id;
  bk_total : total cr = match lg_pool L with None => 0 | Some p => p_Cap p - p_Available p end;
}.

(** A command takes the credit of a holder's lease back only as a return of that lease,
    down to its total. *)
Definition returnOf (c : command) (id : bytes) (f : Z) : Prop :=
  Op c = opBudReturn ∧ ∃ it, head (Items c) = Some it ∧ Key it = id ∧
    f = if 8 <=? lenZ (Val it) then getI64 (Val it) else 0.

Definition kept (ret : bytes → Z → Prop) (cr cr' : gmap bytes Z) : Prop :=
  ∀ id v, length id = 40%nat → v ≤ credit cr id → (∀ f, ret id f → v ≤ f) → v ≤ credit cr' id.

Lemma kept_refl ret cr : kept ret cr cr.
Proof. by intros id v _. Qed.
Lemma kept_trans ret cr1 cr2 cr3 : kept ret cr1 cr2 → kept ret cr2 cr3 → kept ret cr1 cr3.
Proof. intros H1 H2 id v H40 Hv Hf. apply H2; [done| |done]. by apply H1. Qed.

Lemma credit_move c L L' cr :
  linv L → moved false c L L' → backed L cr → ∃ cr', backed L' cr' ∧ kept (returnOf c) cr cr'.
Proof.
  intros [Hls Hp] [->|(m & Hm & Hcz)] Hb; [exists cr; split; [done|apply kept_refl]|]. destruct Hb as [Hn Hl Ht].
  destruct Hm as
    [ls ts p Hf|p ls ts id l last tokens Hld Htd Ha Hs Hpc|p ls ts id l tot Hld Htot
    |p ls ts id l tot ts' Hld Htn Htot ->|p ls ts id l Hld Htn|p ls ts id Hld Htn|p ls ts id
    |p ls ts target Hrec Htg]; simpl in *; try done.
  - destruct Hf as (E & _). subst ls. exists cr. split; [|apply kept_refl]. split; simpl; [done|done|lia].
  - exists (<[id := credit cr id + l_Amount l]> cr). split; [split; simpl|].
    + intros id'. rewrite credit_insert. case_decide; [pose proof (Hn id); lia|done].
    + intros id' l' Hl'. rewrite credit_insert. case_decide as E.
      * subst id'. rewrite lookup_insert_eq in Hl'. injection Hl' as <-. pose proof (Hn id). lia.
      * rewrite lookup_insert_ne in Hl' by done. by apply Hl.
    + rewrite total_insert. lia.
    + intros id' v _ Hv _. rewrite credit_insert. case_decide; [subst; lia|done].
  - exists cr. split; [|apply kept_refl]. split; simpl; [done| |done]. intros id' l' Hl'. destruct (decide (id' = id)) as [->|].
    + rewrite lookup_insert_eq in Hl'. injection Hl' as <-. simpl. by apply Hl.
    + rewrite lookup_insert_ne in Hl' by done. by apply Hl.
  - pose proof (Hl id l Hld) as Hal. destruct (Hls id l Hld) as [? ?].
    exists (<[id := credit cr id - (l_Amount l - tot)]> cr). split; [split; simpl|].
    + intros id'. rewrite credit_insert. case_decide; [lia|done].
    + intros id' l' [Hne Hl']%lookup_delete_Some. rewrite credit_insert, decide_False by done. by apply Hl.
    + rewrite total_insert. lia.
    + intros id' v _ Hv Hret. rewrite credit_insert. case_decide as E; [subst id'|done].
      destruct Hcz as (Hop & it & l' & Hit & Hk & Hl' & Hfin). rewrite Hld in Hl'. injection Hl' as <-.
      assert (v ≤ (if 8 <=? lenZ (Val it) then getI64 (Val it) else 0)) as Hvf by (apply Hret; split; [done|by exists it]).
      destruct (Z.leb_spec 8 (lenZ (Val it))) as [H8|]; [specialize (Hfin H8); lia|lia].
  - exists cr. split; [|apply kept_refl]. split; simpl; [done| |done].
    intros id' l' [_ Hl']%lookup_delete_Some. by apply Hl.
  - exists cr. split; [|apply kept_refl]. by split.
  - exists cr. split; [|apply kept_refl]. by split.
Qed.

(** ** Commits *)

Section Commit.
Context {S : Type} `{LocalStoreSpec S} `{FloatText} (ns coll : bytes) (Hn : nc_ok ns coll).
Context (Hlen : lenZ ns + lenZ coll < 2 ^ 31).

(** The ids and totals of the requests in flight. *)
Definition request_ok (r : request) : Prop :=
  match r with
  | RqGrant h id _ => length h = 32%nat ∧ length id = 40%nat
  | RqReport h id _ => length h = 32%nat ∧ length id = 40%nat
  | RqReturn h id f => length h = 32%nat ∧ length id = 40%nat ∧ in_i64 f
  end.

Definition returned (sent : list request) (id : bytes) (f : Z) : Prop := ∃ h, RqReturn h id f ∈ sent.

(** Commands that return no lease of a holder but as the holder asked. *)
Definition admitted (sent : list request) (c : command) : Prop :=
  NS c = ns → Coll c = coll → ∀ id f, length id = 40%nat → returnOf c id f → returned sent id f.

Lemma otherCmd_admitted sent c : otherCmd ns coll c → admitted sent c.
Proof.
  intros Ho E1 E2 id f H40 (Hop & it & Hit & <- & _). destruct (Ho Hop E1 E2 it Hit). done.
Qed.

Lemma lenZ_request r t : request_ok r → lenZ (encodeCommand (cmdOfRequest ns coll r t)) < 2 ^ 32.
Proof using Hlen.
  intros Hr. unfold encodeCommand. rewrite appendCommand_flat, app_nil_l.
  destruct r as [h id a|h id f|h id f]; cbn [cmdOfRequest budgetGrantCmd budgetReportCmd budgetReturnCmd Op NS Coll Idem Items];
    rewrite encItems_cons; cbn [Key Val Score ExpiryMs encItems concat fmap list_fmap];
    rewrite lenZ_cons; autorewrite with lenZ; rewrite !lenZ_putI64; unfold lenZ in *; cbn [length];
    unfold request_ok in Hr; destruct_and!; lia.
Qed.

Lemma cmdOfRequest_facts sent r t :
  request_ok r → r ∈ sent →
  let c := cmdOfRequest ns coll r t in
  decodeCommand (encodeCommand c) = Ok c ∧ Idem c = [] ∧ NS c = ns ∧ Coll c = coll ∧
  (∀ idx, entry_adm false (admitted sent) (entryOf ns coll idx (Req r t))).
Proof using Hn Hlen.
  intros Hr Hin c. assert (Idem c = [] ∧ NS c = ns ∧ Coll c = coll) as (Hid & Ens & Ecoll) by (by destruct r).
  assert (command_wf c) as Hwf.
  { split_and!.
    - destruct r; (split; [done|by left]).
    - destruct r; repeat constructor; simpl; zlia.
    - by destruct r. }
  assert (lenZ (encodeCommand c) < 2 ^ 32) as Hle by (by apply lenZ_request).
  assert (decodeCommand (encodeCommand c) = Ok c) as Hd.
  { rewrite <-(app_nil_r (encodeCommand c)). apply decodeCommand_enc; [done|by rewrite app_nil_r]. }
  split_and!; [done..|]. intros idx.
  assert (head (encodeCommand c) = Some (opByte (Op c))) as Hh
    by (unfold encodeCommand; by rewrite appendCommand_flat).
  assert (entry_cmds (entryOf ns coll idx (Req r t)) = [encodeCommand c]) as Ee.
  { unfold entry_cmds. simpl. fold c. destruct (decodeBatch (encodeCommand c)) as [subs|] eqn:E; [|done].
    apply decodeBatch_head in E. rewrite Hh in E. by destruct r. }
  assert (cmd_adm false (admitted sent) (encodeCommand c)) as Ha.
  { split.
    - unfold cmd_cap. rewrite Hd. by destruct r.
    - intros c' Hc'. rewrite Hd in Hc'. injection Hc' as <-. intros _ _ id f H40 (Hop & it & Hit & Hk & Hf).
      destruct r as [| |h id' f']; try discriminate Hop. injection Hit as <-. simpl in Hk, Hf. subst id'.
      destruct Hr as (_ & _ & Hf'). revert Hf. rewrite get_putI64 by done.
      assert (8 <=? lenZ (putI64 f' ++ h) = true) as ->
        by (apply Z.leb_le; rewrite lenZ_app, lenZ_putI64; pose proof (lenZ_nonneg h); lia).
      intros ->. by exists h. }
  split; [unfold isMigrate; simpl; fold c; rewrite Hh; by destruct r|]. rewrite Ee. simpl. fold c. auto.
Qed.

(** The invariant of a batch: credits back the ledger, have lost nothing but what was
    returned, and back the grants answered so far. *)
Definition credited (sent : list request) (cr : gmap bytes Z) (batch : list (Z * logged)) (don : list (entry * ProposeResult))
    (Ls : ledgers) : Prop :=
  ∃ cr', backed (Ls (ns, coll)) cr' ∧ kept (returned sent) cr cr' ∧
    ∀ i idx h id a t e r gr, batch !! i = Some (idx, Req (RqGrant h id a) t) → don !! i = Some (e, r) →
      drawReply (Data r) = Ok gr → 0 < dr_granted gr → length id = 40%nat → (∀ f, ¬ returned sent id f) →
      dr_granted gr ≤ credit cr' id.

Lemma credited_closed sent cr batch don : move_closed false (admitted sent) (credited sent cr batch don).
Proof.
  intros c Ls L' Hadm Hc (cr' & Hb & Hk & Hg) Hs Hm. unfold credited.
  destruct (decide ((ns, coll) = (NS c, Coll c))) as [[= E1 E2]|Hne].
  2: by exists cr'.
  rewrite <-E1, <-E2 in *. destruct (credit_move c _ L' cr' (sn_inv _ Hs) Hm Hb) as (cr2 & Hb2 & Hk2).
  assert (kept (returned sent) cr' cr2) as Hk3.
  { intros id v H40 Hv Hf. apply Hk2; [done..|]. intros f Hret. apply Hf. by apply Hadm. }
  exists cr2. split_and!; [done|by eapply kept_trans|].
  intros i idx h id a t e r gr Hi Hd Hr Hgr H40 Hno. apply Hk3; [done| |by intros f ?%Hno]. by eapply Hg.
Qed.

(** The reply to a grant that is not refused names an amount the lease backs. *)
Lemma drawReply_granted data gr :
  drawReply data = Ok gr → 0 < dr_granted gr →
  data ∉ refusals ∧ dr_granted gr = g_Granted (decodeGrantResult data).
Proof.
  unfold drawReply. intros E Hg. split.
  - intros Hin%list_elem_of_In. simpl in Hin.
    destruct Hin as [<-|[<-|[<-|[<-|[<-|[<-|[<-|[]]]]]]]]; vm_compute in E; try discriminate E; injection E as <-; simpl in Hg; lia.
  - revert E. unfold grantReply. repeat (case_decide; [intros E; try discriminate E; injection E as <-; simpl in Hg; lia|]).
    by intros [= <-].
Qed.

Lemma credited_snoc sent cr batch don e r Ls :
  credited sent cr batch don Ls →
  (∀ idx h id a t gr, batch !! length don = Some (idx, Req (RqGrant h id a) t) → drawReply (Data r) = Ok gr →
     0 < dr_granted gr → ∃ l, lg_leases (Ls (ns, coll)) !! id = Some l ∧ dr_granted gr = l_Amount l) →
  credited sent cr batch (don ++ [(e, r)]) Ls.
Proof.
  intros (cr' & Hb & Hk & Hg) Hnew. exists cr'. split_and!; [done..|].
  intros i idx h id a t e' r' gr Hi Hd Hr Hgr H40 Hno. destruct (decide (i < length don)%nat) as [Hlt|].
  - rewrite lookup_app_l in Hd by done. by eapply Hg.
  - rewrite lookup_app_r in Hd by lia. apply list_lookup_singleton_Some in Hd as [Hz [= -> ->]].
    replace i with (length don) in Hi by lia. destruct (Hnew _ _ _ _ _ _ Hi Hr Hgr) as (l & Hl & ->).
    by eapply bk_lease.
Qed.

Lemma entry_adm_mono (adm adm' : command → Prop) e : (∀ c, adm c → adm' c) → entry_adm false adm e → entry_adm false adm' e.
Proof.
  intros Ha [Hm Hf]. split; [done|]. eapply Forall_impl; [exact Hf|]. intros b [Hb Hc]. split; [done|]. auto.
Qed.

Lemma entry_adm_ok (adm : command → Prop) e : entry_adm false adm e → entry_ok false e = true.
Proof.
  intros [Hm Hf]. unfold entry_ok. rewrite Hm. cbn [negb andb]. apply forallb_forall. intros b Hin%list_elem_of_In.
  rewrite Forall_forall in Hf. by apply Hf.
Qed.

Lemma commit_ok s Ls cr sent batch :
  ls_live (sm_store s) → cards_wf s (base s) → ledgers_at (sm_prefix s) (base s) Ls → backed (Ls (ns, coll)) cr →
  Forall request_ok sent →
  Forall (λ x, match x.2 with
               | Req r t => r ∈ sent
               | Other cmd => entry_adm false (otherCmd ns coll) (entryOf ns coll x.1 x.2)
               end) batch →
  ∃ rs s' Ls' cr', Update s ((λ x, entryOf ns coll x.1 x.2) <$> batch) = Ok (rs, s') ∧
    ls_live (sm_store s') ∧ sm_prefix s' = sm_prefix s ∧ cards_wf s (base s') ∧
    ledgers_at (sm_prefix s) (base s') Ls' ∧ backed (Ls' (ns, coll)) cr' ∧ kept (returned sent) cr cr' ∧
    ∀ id gr, (id, Ok gr) ∈ answersOf batch rs → 0 < dr_granted gr → length id = 40%nat → (∀ f, ¬ returned sent id f) →
      dr_granted gr ≤ credit cr' id.
Proof using Hn Hlen.
  intros Hl Hw HL Hb Hsent Hbatch. set (es := (λ x, entryOf ns coll x.1 x.2) <$> batch).
  assert (∀ i e, es !! i = Some e → ∃ idx l, batch !! i = Some (idx, l) ∧ e = entryOf ns coll idx l ∧
    entry_adm false (admitted sent) e) as Hes.
  { intros i e He. unfold es in He. rewrite list_lookup_fmap in He. destruct (batch !! i) as [[idx l]|] eqn:Hi; [|done].
    injection He as <-. exists idx, l. split_and!; [done..|]. simpl.
    rewrite Forall_lookup in Hbatch. specialize (Hbatch _ _ Hi). simpl in Hbatch. destruct l as [r t|cmd].
    - rewrite Forall_forall in Hsent. destruct (cmdOfRequest_facts sent r t (Hsent _ Hbatch) Hbatch) as (_ & _ & _ & _ & Ha). apply Ha.
    - eapply entry_adm_mono; [|exact Hbatch]. intros c. apply otherCmd_admitted. }
  assert (forallb (entry_ok false) es = true) as Hok.
  { apply forallb_forall. intros e [i Hi]%list_elem_of_In%list_elem_of_lookup_1.
    destruct (Hes i e Hi) as (_ & _ & _ & _ & Ha). by eapply entry_adm_ok. }
  assert (∃ rs s', Update s es = Ok (rs, s') ∧ ls_live (sm_store s') ∧ sm_prefix s' = sm_prefix s) as (rs & s' & HU & Hl' & Hp).
  { destruct (decide (es = [])) as [->|Hne]; [by exists [], s|].
    destruct (Update_run s Hl es Hw Hne) as (fz & seq & rs & u & tl & st & _ & _ & _ & _ & E & ? & _). by exists rs, (with_store s st). }
  destruct (Update_hist s Hl (credited sent cr batch) Ls es rs s') as (Ls' & HL' & cr' & Hb' & Hk & Hg); [| |done|done| |done|].
  - intros fz don e u r u1 He Hi Hbody. destruct (Hes _ _ He) as (idx & l & Hbi & -> & Ha).
    assert (∀ Ls, credited sent cr batch don Ls → (∀ r t, l = Req r t → ∀ h id a, r ≠ RqGrant h id a) →
      credited sent cr batch (don ++ [(entryOf ns coll idx l, r)]) Ls) as Hplain.
    { intros Ls0 Hc Hno. apply credited_snoc; [done|]. intros idx' h id a t gr Hbi'. rewrite Hbi in Hbi'.
      injection Hbi' as _ ->. by destruct (Hno _ _ eq_refl h id a). }
    assert (∀ (Hno : ∀ r t, l = Req r t → ∀ h id a, r ≠ RqGrant h id a),
      batch_inv s (credited sent cr batch (don ++ [(entryOf ns coll idx l, r)])) u1) as Hother.
    { intros Hno. eapply batch_inv_mono; [intros Ls0 Hc; by apply Hplain|].
      eapply entry_inv; [done|apply credited_closed|exact Ha|exact Hi|exact Hbody]. }
    destruct l as [[h id a|h id f|h id f] t|cmd]; try (apply Hother; naive_solver).
    assert (RqGrant h id a ∈ sent) as Hin by (rewrite Forall_lookup in Hbatch; exact (Hbatch _ _ Hbi)).
    assert (request_ok (RqGrant h id a)) as Hrok by (rewrite Forall_forall in Hsent; by apply Hsent).
    destruct (cmdOfRequest_facts sent (RqGrant h id a) t Hrok Hin) as (Hd & Hid & Ens & Ecoll & _).
    set (c := cmdOfRequest ns coll (RqGrant h id a) t) in *.
    rewrite (proj2 (single_entry s _ c fz u Hd)) in Hbody. destruct Ha as [_ Ha]. apply Forall_cons in Ha as [Ha _].
    eapply batch_inv_mono; [|eapply (single_inv s Hl false (admitted sent) _ (credited_closed sent cr batch don) _ c);
      [exact Hd|exact Hid|exact Ha|exact Hi|exact Hbody]].
    intros Ls0 [Hc Hans]. apply credited_snoc; [done|]. intros idx' h' id' a' t' gr Hbi' Hr Hgr. rewrite Hbi in Hbi'.
    injection Hbi' as <- <- <- <- <-. apply drawReply_granted in Hr as [Hnr ->]; [|done].
    destruct (Hans eq_refl) as [?|(it & l & Hit & Hlv & ->)]; [done|]. exists l. split; [|done].
    rewrite Ens, Ecoll in Hlv. injection Hit as <-. exact Hlv.
  - intros don e Ls0 He Hc. apply credited_snoc; [done|]. intros idx h id a t gr _ Hr Hgr.
    apply drawReply_granted in Hr as [Hnr _]; [|done]. destruct Hnr. apply list_elem_of_In. simpl. auto 10.
  - exists cr. split_and!; [done|apply kept_refl|]. intros i idx h id a t e r gr _ Hd. by rewrite lookup_nil in Hd.
  - exists rs, s', Ls', cr'. split_and!; [done..|by eapply Update_cards|done|done|done|].
    intros id gr Hin Hgr H40 Hno. unfold answersOf in Hin. apply list_elem_of_omap in Hin as ([[idx l] r] & Hin & E).
    apply list_elem_of_lookup in Hin as [i Hi]. apply lookup_zip_Some in Hi as [Hbi Hri].
    destruct l as [[h id' a|h id' f|h id' f] t|cmd]; try discriminate E. injection E as -> Hr.
    eapply Hg; [exact Hbi| |exact Hr|done..]. apply lookup_zip_Some. split; [|exact Hri].
    unfold es. by rewrite list_lookup_fmap, Hbi.
Qed.

End Commit.

End LeaseSystem.
