(* ===== verification/LeaseSafety.v ===== *)
(** * The holders of a budget never overspend it

    Each holder keeps what it serves of a lease within the money behind it (LeaseSystem),
    through every interleaving of its spends, refills and returns; so what all of them serve
    together never exceeds the cap of the budget. *)

From S2P Require Import Prelude Bytes Strconv Storage Command Keys Ctx CtxLogic Budget Ledger.
From S2P Require Import BudgetRefine ShardSM Samples ShardFrame ShardUpdate BudgetSystem Elements ElementSystem Batching Api LeaseCache LeaseSystem.

Local Open Scope Z_scope.
#[local] Set Default Proof Using "Type".

Module LeaseSafety.
Import Storage Command Keys Ctx CtxLogic Budget Ledger BudgetRefine ShardSM Samples ShardFrame ShardUpdate.
Import BudgetSystem Elements ElementSystem Batching Api LeaseCache LeaseSystem.

(** ** One holder *)

Lemma length_makeLeaseID h k : length h = 32%nat → length (makeLeaseID h k) = 40%nat.
Proof. intros E. unfold makeLeaseID. by rewrite length_app, length_put_u64, E. Qed.

Lemma makeLeaseID_inj h k h' k' :
  length h = 32%nat → length h' = 32%nat → in_u64 k → in_u64 k' → makeLeaseID h k = makeLeaseID h' k' → h = h' ∧ k = k'.
Proof.
  intros E1 E2 Hk Hk' E. unfold makeLeaseID in E. apply app_inj_1 in E as [-> E]; [|by rewrite E1, E2].
  split; [done|]. by apply put_u64_inj.
Qed.

(** What no spend changes. *)
Definition same_draw (c c' : budgetCell) : Prop :=
  bc_holder c' = bc_holder c ∧ bc_nonce c' = bc_nonce c ∧ bc_refilling c' = bc_refilling c ∧ bc_closed c' = bc_closed c.

Lemma promote_draw now c : same_draw c (promoteLocked now c).
Proof. unfold promoteLocked. by repeat case_match. Qed.
Lemma accrue_draw now c : same_draw c (accrueTokensLocked now c).
Proof. unfold accrueTokensLocked. by repeat case_match. Qed.
Lemma same_draw_trans c1 c2 c3 : same_draw c1 c2 → same_draw c2 c3 → same_draw c1 c3.
Proof. intros (?&?&?&?) (?&?&?&?). split_and!; congruence. Qed.

Lemma spendLocked_frame n now c : same_draw c (spendLocked n now c).2.
Proof.
  unfold spendLocked. destruct (_ && _ && _); [done|]. cbv zeta.
  set (a := if 0 <? bc_rate c then accrueTokensLocked now c else c).
  assert (same_draw c a) as Ha by (subst a; case_match; [apply accrue_draw|done]). clearbody a.
  destruct (_ && _); [done|]. apply same_draw_trans with (1 := Ha). pose proof (promote_draw now a) as Hp.
  destruct (bc_cur (promoteLocked now a)) as [ch|]; [|done]. destruct (n <=? ch_remaining ch); [|done].
  apply same_draw_trans with (1 := Hp). simpl. by destruct (0 <? _).
Qed.

(** A spend, late or not. *)
Lemma spend_any (late : bool) n now c :
  0 < n → cell_ok c →
  let '(r, started, c') := if late then spendLate n now c else Spend n now c in
  (r = SpendOk ∧ (∃ ch, holds c ch ∧ n ≤ ch_remaining ch ∧ bc_cur c' = Some (spendFrom ch n) ∧
     (∀ ch', bc_next c' = Some ch' → bc_next c = Some ch' ∧ bc_cur c = Some ch)) ∨
   r ≠ SpendOk ∧ shrinks c c') ∧
  bc_holder c' = bc_holder c ∧ bc_nonce c' = bc_nonce c ∧
  if started : bool then bc_refilling c = false ∧ bc_refilling c' = true else bc_refilling c' = bc_refilling c.
Proof.
  intros Hn Hc.
  assert (∀ x, (spendLate n now c = x ∨ Spend n now c = x ∧ bc_closed c = false) →
    let '(r, started, c') := x in
    (r = SpendOk ∧ (∃ ch, holds c ch ∧ n ≤ ch_remaining ch ∧ bc_cur c' = Some (spendFrom ch n) ∧
       (∀ ch', bc_next c' = Some ch' → bc_next c = Some ch' ∧ bc_cur c = Some ch)) ∨
     r ≠ SpendOk ∧ shrinks c c') ∧
    bc_holder c' = bc_holder c ∧ bc_nonce c' = bc_nonce c ∧
    if started : bool then bc_refilling c = false ∧ bc_refilling c' = true else bc_refilling c' = bc_refilling c) as Hx.
  { intros x Ex. pose proof (spendLocked_spec n now c Hn Hc) as Hs. pose proof (spendLocked_frame n now c) as Hf. unfold same_draw in Hf.
    assert (x = let '(r, trigger, c) := spendLocked n now c in
      if trigger : bool then let '(started, c) := requestRefill c in (r, started, c) else (r, false, c)) as ->.
    { destruct Ex as [<-|[<- Ecl]]; [unfold spendLate|unfold Spend; rewrite Ecl]; by rewrite (proj2 (Z.leb_gt _ _)) by lia. }
    destruct (spendLocked n now c) as [[r trigger] c1]. cbn [snd] in Hf. destruct Hf as (F1 & F2 & F3 & F4).
    assert (∀ c', bc_cur c' = bc_cur c1 → bc_next c' = bc_next c1 →
      r = SpendOk ∧ (∃ ch, holds c ch ∧ n ≤ ch_remaining ch ∧ bc_cur c' = Some (spendFrom ch n) ∧
        (∀ ch', bc_next c' = Some ch' → bc_next c = Some ch' ∧ bc_cur c = Some ch)) ∨ r ≠ SpendOk ∧ shrinks c c') as Hout.
    { intros c' E1 E2. unfold shrinks, holds. rewrite E1, E2.
      destruct Hs as [(-> & ch & Hh & Hle & _ & Hcur & Hnx & _)|[Hr Hsh]]; [left; eauto 10|right; done]. }
    destruct trigger; [|split_and!; [by apply Hout|done..]].
    unfold requestRefill. destruct (bc_closed c1), (bc_refilling c1) eqn:Er; cbn [orb]; split_and!; try done; try (by apply Hout); try congruence. }
  destruct late; [apply Hx; by left|]. destruct (bc_closed c) eqn:Ecl; [|apply Hx; by right].
  unfold Spend. rewrite (proj2 (Z.leb_gt _ _)), Ecl by lia. split_and!; try done. right. split; [done|by apply shrinks_same].
Qed.

Section Holder.
Context (h : bytes).

Definition plan_ok (p : refillPlan) (c : budgetCell) : Prop := rp_holder p = h ∧ rp_nonce p = bc_nonce c.

(** A holder within the credits: [sv] what was served of each lease, [cr] what backs it,
    [ret] what was asked to be returned, [B] a bound on the nonce. *)
Record holder_inv (B : Z) (sv cr : gmap bytes Z) (ret : bytes → Z → Prop) (st : holder) : Prop := {
  hi_len : length h = 32%nat;
  hi_holder : bc_holder (h_cell st) = h;
  hi_cell : cell_ok (h_cell st);
  hi_nonce : 0 ≤ bc_nonce (h_cell st) ≤ B;
  hi_chunk ch : holds (h_cell st) ch →
    ∃ k, ch_leaseID ch = makeLeaseID h k ∧ 0 ≤ k < bc_nonce (h_cell st) ∧ ch_spent ch = credit sv (ch_leaseID ch) ∧
      ch_amount ch ≤ credit cr (ch_leaseID ch) ∧ ∀ f, ¬ ret (ch_leaseID ch) f;
  hi_apart ch ch' : bc_cur (h_cell st) = Some ch → bc_next (h_cell st) = Some ch' → ch_leaseID ch ≠ ch_leaseID ch';
  hi_flag : bc_refilling (h_cell st) = bool_decide (is_Some (h_phase st));
  hi_phase : match h_phase st with
             | None | Some PStart => True
             | Some (PReport p id _) => plan_ok p (h_cell st) ∧ length id = 40%nat
             | Some (PDraw p k nonce) => rp_holder p = h ∧ (0 < k)%nat ∧ bc_nonce (h_cell st) ≤ nonce ∧
                                         nonce + Z.of_nat k ≤ bc_nonce (h_cell st) + 4
             end;
}.

(** The chunks may shrink and anything else of the cell but identity and nonce change. *)
Lemma holder_inv_shrink B sv cr ret st c' ph' :
  holder_inv B sv cr ret st → shrinks (h_cell st) c' → bc_holder c' = h → bc_nonce c' = bc_nonce (h_cell st) →
  bc_refilling c' = bool_decide (is_Some ph') →
  match ph' with
  | None | Some PStart => True
  | Some (PReport p id _) => plan_ok p (h_cell st) ∧ length id = 40%nat
  | Some (PDraw p k nonce) => rp_holder p = h ∧ (0 < k)%nat ∧ bc_nonce (h_cell st) ≤ nonce ∧
                              nonce + Z.of_nat k ≤ bc_nonce (h_cell st) + 4
  end → holder_inv B sv cr ret (mkHolder c' ph').
Proof.
  intros [] [Hs1 Hs2] E1 E2 E3 Hph. split; simpl; rewrite ?E2; try done.
  - intros ch Hch. auto.
  - intros ch Hch. auto.
  - intros ch ch' H1 H2. destruct (Hs2 _ _ H1 H2). auto.
  - unfold plan_ok in *. rewrite E2. done.
Qed.

(** What a step of a holder does to the credits. *)
Record stepped (B : Z) (sv cr : gmap bytes Z) (ret : bytes → Z → Prop) (st : holder)
    (n : Z) (rs : list request) (st' : holder) (sv' : gmap bytes Z) : Prop := {
  so_total : total sv' = total sv + n;
  so_credit id : credit sv' id = credit sv id ∨
    credit sv id ≤ credit sv' id ≤ credit cr id ∧ ∃ ch, holds (h_cell st) ch ∧ ch_leaseID ch = id;
  so_inv : holder_inv B sv' cr (λ id f, returned rs id f ∨ ret id f) st';
  so_sent : Forall request_ok rs;
  so_returned id f : returned rs id f → f = credit sv' id ∧ ∃ ch, holds (h_cell st) ch ∧ ch_leaseID ch = id;
  so_nonce : bc_nonce (h_cell st) ≤ bc_nonce (h_cell st');
}.

(** One that serves nothing and returns nothing. *)
Definition draws (r : request) : Prop := match r with RqReturn _ _ _ => False | _ => request_ok r end.

Lemma stepped_quiet B sv cr ret st rs st' :
  holder_inv B sv cr ret st' → Forall draws rs → bc_nonce (h_cell st) ≤ bc_nonce (h_cell st') →
  stepped B sv cr ret st 0 rs st' sv.
Proof.
  intros Hi Hd Hk. rewrite Forall_forall in Hd.
  assert (∀ id f, ¬ returned rs id f) as Hno by (intros id f [h' Hr]; by apply (Hd _ Hr)).
  split; [lia|by left| | |intros id f Hr; by destruct (Hno id f)|done].
  - destruct Hi. split; try done. intros ch Hch. destruct (hi_chunk0 ch Hch) as (k & E & Hk' & Hs & Ha & Hr).
    exists k. split_and!; try (done || lia). intros f [Hf|Hf]; [by apply Hno in Hf|by apply Hr in Hf].
  - apply Forall_forall. intros r Hr. specialize (Hd r Hr). by destruct r.
Qed.

Lemma holder_inv_bound B B' sv cr ret st : B ≤ B' → holder_inv B sv cr ret st → holder_inv B' sv cr ret st.
Proof. intros ? []. split; try done. lia. Qed.

(** Sending a draw, or giving up, from a cell that lost no more than chunks. *)
Lemma drawing_stepped B sv cr ret st c' p k nonce :
  holder_inv B sv cr ret st → shrinks (h_cell st) c' → bc_holder c' = h → bc_nonce c' = bc_nonce (h_cell st) →
  bc_refilling c' = true → rp_holder p = h → bc_nonce (h_cell st) ≤ nonce → nonce + Z.of_nat k ≤ bc_nonce (h_cell st) + 4 →
  let '(st', rs) := drawing p k nonce c' in stepped B sv cr ret st 0 rs st' sv.
Proof.
  intros Hi Hs E1 E2 E3 Hp H1 H2. unfold drawing. destruct k as [|k]; apply stepped_quiet; simpl; try lia.
  - by eapply holder_inv_shrink.
  - by constructor.
  - eapply holder_inv_shrink; try done. split_and!; [done|lia..].
  - constructor; [|done]. simpl. rewrite Hp. split; [|apply length_makeLeaseID]; by apply hi_len with (1 := Hi).
Qed.

Lemma spend_stepped B sv cr ret st n now (late : bool) :
  holder_inv B sv cr ret st → ∃ sv',
  let '(u, rs, st') := holderStep (HSpend n now late) st in stepped B sv cr ret st u rs st' sv'.
Proof.
  intros Hi. simpl. destruct (Z.leb_spec n 0) as [Hn|Hn].
  { exists sv. assert ((if late then spendLate n now (h_cell st) else Spend n now (h_cell st)) = (SpendOk, false, h_cell st)) as ->
      by (unfold spendLate, Spend; rewrite (proj2 (Z.leb_le _ _) Hn); by destruct late).
    rewrite decide_True, Z.max_l by (done || lia). apply stepped_quiet; [by destruct st|done|done]. }
  pose proof (spend_any late n now (h_cell st) Hn (hi_cell _ _ _ _ _ Hi)) as Hsp.
  destruct (if late then _ else _) as [[r started] c']. destruct Hsp as (Hout & E1 & E2 & Hst).
  rewrite (hi_holder _ _ _ _ _ Hi) in E1.
  assert (bc_refilling c' = bool_decide (is_Some (if started then Some PStart else h_phase st))) as E3.
  { destruct started; [by destruct Hst|]. rewrite Hst. by apply hi_flag with (1 := Hi). }
  assert (match (if started then Some PStart else h_phase st) with
          | None | Some PStart => True
          | Some (PReport p id _) => plan_ok p (h_cell st) ∧ length id = 40%nat
          | Some (PDraw p k nonce) => rp_holder p = h ∧ (0 < k)%nat ∧ bc_nonce (h_cell st) ≤ nonce ∧
                                      nonce + Z.of_nat k ≤ bc_nonce (h_cell st) + 4
          end) as Hph by (destruct started; [done|by apply hi_phase with (1 := Hi)]).
  destruct Hout as [(-> & ch & Hc & Hle & Hcur & Hnx)|[Hr Hsh]].
  2: { exists sv. rewrite decide_False by done. apply stepped_quiet; [|done|simpl; lia]. by eapply holder_inv_shrink. }
  destruct Hi as [Hi0 Hi1 Hi2 Hi3 Hi4 Hi5 Hi6 Hi7]. set (id := ch_leaseID ch).
  destruct (Hi4 ch Hc) as (k & Hid & Hk & Hs & Ha & Hret). destruct (Hi2 ch Hc) as (O1 & O2 & O3 & O4).
  exists (<[id := credit sv id + n]> sv). rewrite decide_True, Z.max_r by (done || lia).
  split; simpl; [rewrite total_insert; lia| | |done|intros ? ? [? Hf]; by apply not_elem_of_nil in Hf|lia].
  - intros id'. rewrite credit_insert. case_decide as E; [|by left]. right. subst id'. split; [|by exists ch].
    fold id in Hs, Ha. lia.
  - assert (∀ ch', holds c' ch' → ch' = spendFrom ch n ∨ ch_leaseID ch' ≠ id ∧ holds (h_cell st) ch') as Hc'.
    { intros ch' [Hch'|Hch']; [left; congruence|]. right. destruct (Hnx _ Hch') as [N1 N2]. split; [|by right].
      intros E. by apply (Hi5 _ _ N2 N1). }
    split; cbn [h_cell h_phase]; rewrite ?E1, ?E2; try done.
    + intros ch' Hch'. destruct (Hc' ch' Hch') as [->|[_ Hx]]; [apply spendFrom_ok; [by apply Hi2|lia]|by apply Hi2].
    + intros ch' Hch'. destruct (Hc' ch' Hch') as [->|[Hne Hx]].
      * exists k. unfold spendFrom. simpl. fold id in Hid, Hs, Ha, Hret |- *. rewrite credit_insert, decide_True by done.
        split_and!; try (done || lia). intros f [[? Hf]|Hf]; [by apply not_elem_of_nil in Hf|by apply Hret in Hf].
      * destruct (Hi4 ch' Hx) as (k' & Hid' & Hk' & Hs' & Ha' & Hret'). exists k'. rewrite credit_insert, decide_False by done.
        split_and!; try (done || lia). intros f [[? Hf]|Hf]; [by apply not_elem_of_nil in Hf|by apply Hret' in Hf].
    + intros ch1 ch2 N1 N2. rewrite Hcur in N1. injection N1 as <-. destruct (Hnx _ N2) as [N3 N4]. simpl. by apply Hi5.
    + unfold plan_ok in *. by rewrite E2.
Qed.


(** ** The other steps *)

Lemma start_stepped B sv cr ret st :
  holder_inv B sv cr ret st → h_phase st = Some PStart →
  let '(u, rs, st') := holderStep HStart st in stepped B sv cr ret st u rs st' sv.
Proof.
  intros Hi Hph. pose proof (hi_flag _ _ _ _ _ Hi) as Hfl. rewrite Hph in Hfl. simpl in Hfl.
  pose proof (hi_holder _ _ _ _ _ Hi) as Ehd. unfold holderStep. rewrite Hph. cbv zeta.
  destruct (refillSnap (h_cell st)) as [p|] eqn:Ep.
  2: { apply stepped_quiet; [|done|done]. by eapply holder_inv_shrink; [done|apply shrinks_same|..]. }
  unfold refillSnap in Ep. destruct (bc_next (h_cell st)) eqn:En; [done|]. injection Ep as <-. cbn [rp_report rp_holder rp_nonce].
  assert (∀ q, rp_holder q = h → rp_nonce q = bc_nonce (h_cell st) →
    let '(st', rs) := drawing q maxRefillAttempts (rp_nonce q) (h_cell st) in stepped B sv cr ret st 0 rs st' sv) as Hd.
  { intros q E1 E2. apply drawing_stepped; unfold maxRefillAttempts; try (done || lia). }
  assert (∀ id spent, length id = 40%nat → stepped B sv cr ret st 0 [RqReport (bc_holder (h_cell st)) id spent]
    (mkHolder (h_cell st) (Some (PReport (mkPlan (Some (id, spent)) (bc_chunk (h_cell st)) (bc_nonce (h_cell st))
      (bc_holder (h_cell st))) id spent))) sv) as Hr.
  { intros id spent H40. apply stepped_quiet; [| |done].
    - eapply holder_inv_shrink; try done; by apply shrinks_same.
    - constructor; [|done]. simpl. rewrite Ehd. split; [by apply hi_len with (1 := Hi)|done]. }
  destruct (bc_cur (h_cell st)) as [ch|] eqn:Ec.
  - destruct (_ && _) eqn:Eb.
    + apply Hr. destruct (hi_chunk _ _ _ _ _ Hi ch) as (k & -> & _); [by left|].
      apply length_makeLeaseID. by apply hi_len with (1 := Hi).
    + match goal with |- context [drawing ?q _ _ _] => pose proof (Hd q Ehd eq_refl) as Hx end.
      cbn [rp_nonce] in Hx. by destruct (drawing _ _ _ _).
  - match goal with |- context [drawing ?q _ _ _] => pose proof (Hd q Ehd eq_refl) as Hx end.
    cbn [rp_nonce] in Hx. by destruct (drawing _ _ _ _).
Qed.

(** An acknowledged report changes what was reported, nothing else. *)
Lemma reported_inv B sv cr ret st id spent ph :
  holder_inv B sv cr ret st → h_phase st = ph → holder_inv B sv cr ret (mkHolder (refillReported id spent (h_cell st)) ph).
Proof.
  intros Hi <-. unfold refillReported. destruct (bc_cur (h_cell st)) as [ch|] eqn:Ec; [|by destruct st].
  case_decide as E; [|by destruct st]. destruct Hi as [Hi0 Hi1 Hi2 Hi3 Hi4 Hi5 Hi6 Hi7].
  assert (holds (h_cell st) ch) as Hh by (by left).
  split; try done; cbn [h_cell set_chunks bc_cur bc_next]; intros ch'.
  - intros [[= <-]|Hn]; [exact (Hi2 ch Hh)|apply Hi2; by right].
  - intros [[= <-]|Hn]; [exact (Hi4 ch Hh)|apply Hi4; by right].
  - intros ch2 [= <-] Hn. simpl. by apply Hi5.
Qed.

Lemma reported_stepped B sv cr ret st p id spent (ok : bool) :
  holder_inv B sv cr ret st → h_phase st = Some (PReport p id spent) →
  let '(u, rs, st') := holderStep (HReported ok) st in stepped B sv cr ret st u rs st' sv.
Proof.
  intros Hi Hph. unfold holderStep. rewrite Hph. cbv zeta. set (c' := if ok then _ else _).
  set (st1 := mkHolder c' (Some (PReport p id spent))).
  assert (holder_inv B sv cr ret st1) as Hi1.
  { subst st1 c'. destruct ok; [by apply reported_inv|]. destruct st as [c ph]. simpl in Hph. by subst ph. }
  assert (bc_nonce c' = bc_nonce (h_cell st)) as En by (subst c'; unfold refillReported; by repeat case_match).
  destruct (hi_phase _ _ _ _ _ Hi1) as [[P1 P2] _]. cbn [h_cell st1] in P2.
  pose proof (hi_flag _ _ _ _ _ Hi1) as Hfl. simpl in Hfl.
  pose proof (drawing_stepped B sv cr ret st1 c' p maxRefillAttempts (rp_nonce p) Hi1 ltac:(by apply shrinks_same)
    (hi_holder _ _ _ _ _ Hi1) eq_refl Hfl P1 ltac:(simpl; lia) ltac:(unfold maxRefillAttempts; simpl; lia)) as Hx.
  destruct (drawing _ _ _ _) as [st' rs] eqn:Ed. destruct Hx as [X1 X2 X3 X4 X5 X6].
  assert (∀ id f, ¬ returned rs id f) as Hno.
  { intros id' f [h' Hr]. unfold drawing in Ed. injection Ed as <- <-. by apply list_elem_of_singleton in Hr. }
  split; try done; [by left|intros id' f Hr; by destruct (Hno id' f)|]. simpl in X6. lia.
Qed.

Lemma close_stepped B sv cr ret st :
  holder_inv B sv cr ret st → let '(u, rs, st') := holderStep HClose st in stepped B sv cr ret st u rs st' sv.
Proof.
  intros Hi. simpl. apply stepped_quiet; [|done|done].
  eapply holder_inv_shrink; [done|by apply shrinks_same|by apply hi_holder with (1 := Hi)|done| |];
    [by apply hi_flag with (1 := Hi)|by apply hi_phase with (1 := Hi)].
Qed.

Lemma take_stepped B sv cr ret st :
  holder_inv B sv cr ret st → let '(u, rs, st') := holderStep HTake st in stepped B sv cr ret st u rs st' sv.
Proof.
  intros Hi. simpl. set (rs := omap _ _).
  assert (∀ r, r ∈ rs → ∃ ch, holds (h_cell st) ch ∧ r = RqReturn h (ch_leaseID ch) (ch_spent ch)) as Hrs.
  { intros r Hr. apply list_elem_of_omap in Hr as (ch & Hch & E). case_decide; [done|].
    injection E as <-. exists ch. split; [|f_equal; by apply hi_holder with (1 := Hi)].
    apply list_elem_of_In in Hch. unfold holds. destruct (bc_cur _), (bc_next _); simpl in Hch; naive_solver. }
  assert (∀ id f, returned rs id f → f = credit sv id ∧ ∃ ch, holds (h_cell st) ch ∧ ch_leaseID ch = id) as Hret.
  { intros id f [h' Hr]. destruct (Hrs _ Hr) as (ch & Hch & E). injection E as -> -> ->. split; [|by exists ch].
    by destruct (hi_chunk _ _ _ _ _ Hi ch Hch) as (k & _ & _ & Hs & _). }
  split; try done; [lia|by left| |].
  - destruct Hi. split; try done; simpl; [by intros ch [?|?]..].
  - apply Forall_forall. intros r Hr. destruct (Hrs r Hr) as (ch & Hch & ->). simpl.
    destruct (hi_chunk _ _ _ _ _ Hi ch Hch) as (k & -> & _). pose proof (hi_len _ _ _ _ _ Hi).
    destruct (hi_cell _ _ _ _ _ Hi ch Hch) as (?&?&?&?). split_and!; [done|by apply length_makeLeaseID|zlia].
Qed.


(** A fresh lease is one more chunk, under an id the cell never had. *)
Lemma install_inv B sv cr ret st gr nonce now :
  holder_inv B sv cr ret st → B + 8 < 2 ^ 64 → bc_nonce (h_cell st) ≤ nonce ≤ bc_nonce (h_cell st) + 3 →
  let id := makeLeaseID h nonce in
  0 < dr_granted gr < 2 ^ 63 → dr_granted gr ≤ credit cr id → credit sv id = 0 → (∀ f, ¬ ret id f) →
  holder_inv (B + 4) sv cr ret (idle (refillInstall gr id nonce now (h_cell st))).
Proof.
  intros [Hi0 Hi1 Hi2 Hi3 Hi4 Hi5 Hi6 Hi7] HB Hk id Hg Hcr Hsv Hret. unfold refillInstall.
  match goal with |- context [promoteLocked now ?d] => set (c := d) end.
  set (ch0 := mkChunk (dr_granted gr) _ 0 0 (dr_granted gr) id) in c.
  assert (bc_nonce c = nonce + 1) as En by (subst c; simpl; rewrite uint64_id by zlia; done).
  assert (holder_inv (B + 4) sv cr ret (mkHolder (set_flags c (bc_closed c) false) None)) as Hnew.
  2: { eapply (holder_inv_shrink _ _ _ _ _ _ None Hnew); try done.
       - destruct (promote_shrinks now c) as [P1 P2]. split; [exact P1|exact P2].
       - destruct (promote_draw now c) as (E & _). by etrans; [exact E|].
       - destruct (promote_draw now c) as (_ & E & _). by etrans; [exact E|]. }
  assert (∀ ch, holds c ch → ch = ch0 ∨ holds (h_cell st) ch ∧ bc_cur (h_cell st) = Some ch) as Hc.
  { intros ch [Hch|[= <-]]; [|by left]. right. split; [by left|done]. }
  split; cbn [h_cell h_phase]; try done; change (bc_nonce (set_flags c (bc_closed c) false)) with (bc_nonce c).
  - intros ch Hch. destruct (Hc ch Hch) as [->|[Hx _]]; [|by apply Hi2]. unfold chunk_ok, ch0. simpl. lia.
  - lia.
  - intros ch Hch. destruct (Hc ch Hch) as [->|[Hx _]].
    + exists nonce. change (ch_leaseID ch0) with id. unfold ch0. cbn [ch_spent ch_amount]. rewrite En, Hsv. split_and!; try (done || lia).
    + destruct (Hi4 ch Hx) as (k & Hid & Hk' & Hrest). exists k. split; [done|]. split; [lia|done].
  - intros ch ch' E1 [= <-]. simpl in E1 |- *. destruct (Hi4 ch (or_introl E1)) as (k & -> & Hk' & _).
    intros [_ E]%makeLeaseID_inj; try done; [lia|zlia..].
Qed.

Lemma answer_stepped B sv cr ret st p k nonce r wall now :
  holder_inv B sv cr ret st → B + 8 < 2 ^ 64 → h_phase st = Some (PDraw p k nonce) →
  (∀ gr, r = Ok gr → 0 < dr_granted gr → dr_granted gr < 2 ^ 63 ∧ dr_granted gr ≤ credit cr (makeLeaseID h nonce) ∧
     credit sv (makeLeaseID h nonce) = 0 ∧ ∀ f, ¬ ret (makeLeaseID h nonce) f) →
  let '(u, rs, st') := holderStep (HAnswer r wall now) st in stepped (B + 4) sv cr ret st u rs st' sv.
Proof.
  intros Hi HB Hph Hr. assert (holder_inv (B + 4) sv cr ret st) as Hi' by (eapply holder_inv_bound; [|exact Hi]; lia).
  pose proof (hi_phase _ _ _ _ _ Hi) as Hp. pose proof (hi_flag _ _ _ _ _ Hi) as Hfl. pose proof (hi_nonce _ _ _ _ _ Hi) as Hno.
  unfold holderStep. rewrite Hph in *. cbv zeta. destruct Hp as (P1 & P2 & P3 & P4). destruct k as [|k]; [lia|].
  rewrite P1. simpl in Hfl.
  assert (stepped (B + 4) sv cr ret st 0 [] (idle (h_cell st)) sv) as Hidle.
  { apply stepped_quiet; [|done|done]. eapply holder_inv_shrink; try done. by apply hi_holder with (1 := Hi). }
  assert (let '(st', rs) := drawing p k (uint64 (nonce + 1)) (h_cell st) in stepped (B + 4) sv cr ret st 0 rs st' sv) as Hre.
  { rewrite uint64_id by zlia. apply drawing_stepped; try (done || lia). by apply hi_holder with (1 := Hi). }
  unfold refillAnswer. destruct r as [gr|[]]; [|by destruct (drawing _ _ _ _)|done].
  destruct (Z.leb_spec (dr_granted gr) 0); [done|]. destruct (_ && _); [by destruct (drawing _ _ _ _)|].
  destruct (Hr gr eq_refl) as (R1 & R2 & R3 & R4); [lia|]. apply stepped_quiet; [|done|].
  - apply install_inv; try done; lia.
  - unfold refillInstall. simpl. match goal with |- context [promoteLocked now ?d] => destruct (promote_draw now d) as (_ & -> & _) end.
    simpl. rewrite uint64_id by zlia. lia.
Qed.

(** Any step. *)
Lemma holder_stepped B sv cr ret st e :
  holder_inv B sv cr ret st → B + 8 < 2 ^ 64 →
  (∀ gr wall now p k nonce, e = HAnswer (Ok gr) wall now → h_phase st = Some (PDraw p k nonce) → 0 < dr_granted gr →
     dr_granted gr < 2 ^ 63 ∧ dr_granted gr ≤ credit cr (makeLeaseID h nonce) ∧
     credit sv (makeLeaseID h nonce) = 0 ∧ ∀ f, ¬ ret (makeLeaseID h nonce) f) →
  ∃ sv', let '(u, rs, st') := holderStep e st in stepped (B + 4) sv cr ret st u rs st' sv'.
Proof.
  intros Hi HB Hans. assert (holder_inv (B + 4) sv cr ret st) as Hi' by (eapply holder_inv_bound; [|exact Hi]; lia).
  assert (stepped (B + 4) sv cr ret st 0 [] st sv) as Hskip by (by apply stepped_quiet).
  destruct e as [n now late| |ok|r wall now| |].
  - by apply spend_stepped.
  - exists sv. pose proof (start_stepped (B + 4) sv cr ret st Hi') as Hs. revert Hs. unfold holderStep.
    destruct (h_phase st) as [[| |]|]; [|done..]. intros Hs. by apply Hs.
  - exists sv. pose proof (reported_stepped (B + 4) sv cr ret st) as Hs. unfold holderStep in *.
    destruct (h_phase st) as [[|p id spent|]|]; [done| |done..]. by apply (Hs p id spent ok).
  - exists sv. pose proof (answer_stepped B sv cr ret st) as Hs. destruct (h_phase st) as [[| |p k nonce]|] eqn:Eph.
    3: { apply (Hs p k nonce); try done. intros gr -> Hg. by eapply Hans. }
    all: unfold holderStep; by rewrite Eph.
  - exists sv. by apply close_stepped.
  - exists sv. by apply take_stepped.
Qed.

(** Changes elsewhere: other credits, more money, other returns. *)
Lemma holder_inv_elsewhere B B' sv sv' cr cr' (ret ret' : bytes → Z → Prop) st :
  holder_inv B sv cr ret st → B ≤ B' →
  (∀ id k, id = makeLeaseID h k → 0 ≤ k < bc_nonce (h_cell st) →
     credit sv' id = credit sv id ∧ (∀ f, ret' id f → ret id f)) →
  (∀ id v, length id = 40%nat → v ≤ credit cr id → (∀ f, ¬ ret id f) → v ≤ credit cr' id) →
  holder_inv B' sv' cr' ret' st.
Proof.
  intros [Hi0 Hi1 Hi2 Hi3 Hi4 Hi5 Hi6 Hi7] HB Hsame Hk. split; try done; [lia|].
  intros ch Hch. destruct (Hi4 ch Hch) as (k & Hid & Hkk & Hs & Ha & Hr). destruct (Hsame _ k Hid Hkk) as [E1 E2].
  exists k. split_and!; try (done || lia).
  - apply Hk; [|done|done]. rewrite Hid. by apply length_makeLeaseID.
  - intros f Hf. by apply (Hr f), E2.
Qed.

End Holder.


(** ** The whole system *)

Section Safety.
Context {S : Type} `{LocalStoreSpec S} `{FloatText} (ns coll : bytes) (Hn : nc_ok ns coll).
Context (Hlen : lenZ ns + lenZ coll < 2 ^ 31).

(** The ids a holder has used up. *)
Definition known (hs : gmap bytes holder) (id : bytes) : Prop :=
  ∃ h st k, hs !! h = Some st ∧ id = makeLeaseID h k ∧ 0 ≤ k < bc_nonce (h_cell st).

Record sys_inv (B : Z) (y : system (S := S)) (Ls : ledgers) (cr sv : gmap bytes Z) : Prop := {
  si_live : ls_live (sm_store (y_shard y));
  si_cards : cards_wf (y_shard y) (base (y_shard y));
  si_ledgers : ledgers_at (sm_prefix (y_shard y)) (base (y_shard y)) Ls;
  si_backed : backed (Ls (ns, coll)) cr;
  si_served : y_served y = total sv;
  si_credit id : 0 ≤ credit sv id ≤ credit cr id;
  si_known id : credit sv id ≠ 0 → known (y_holders y) id;
  si_sent : Forall request_ok (y_sent y);
  si_returned id f : returned (y_sent y) id f → f = credit sv id ∧ known (y_holders y) id;
  si_answers id gr : (id, Ok gr) ∈ y_answers y → 0 < dr_granted gr → length id = 40%nat →
    dr_granted gr < 2 ^ 63 ∧ ((∀ f, ¬ returned (y_sent y) id f) → dr_granted gr ≤ credit cr id);
  si_holders h st : y_holders y !! h = Some st → holder_inv h B sv cr (returned (y_sent y)) st;
}.

Lemma sys_unknown B y Ls cr sv h st nonce :
  sys_inv B y Ls cr sv → B + 8 < 2 ^ 64 → y_holders y !! h = Some st →
  bc_nonce (h_cell st) ≤ nonce ≤ bc_nonce (h_cell st) + 4 → ¬ known (y_holders y) (makeLeaseID h nonce).
Proof.
  intros Hi HB Hst Hk (h' & st' & k & Hst' & E & Hkk).
  pose proof (si_holders _ _ _ _ _ Hi _ _ Hst) as HA. pose proof (si_holders _ _ _ _ _ Hi _ _ Hst') as HB'.
  pose proof (hi_nonce _ _ _ _ _ _ HA). pose proof (hi_nonce _ _ _ _ _ _ HB').
  apply makeLeaseID_inj in E as [-> ->]; [|by eapply hi_len|by eapply hi_len|zlia..].
  rewrite Hst in Hst'. injection Hst' as <-. lia.
Qed.

Lemma held_known B y Ls cr sv h st ch :
  sys_inv B y Ls cr sv → y_holders y !! h = Some st → holds (h_cell st) ch → known (y_holders y) (ch_leaseID ch).
Proof.
  intros Hi Hst Hch. destruct (hi_chunk _ _ _ _ _ _ (si_holders _ _ _ _ _ Hi _ _ Hst) ch Hch) as (k & E & Hk & _).
  by exists h, st, k.
Qed.

Lemma known_step hs h st st' id :
  hs !! h = Some st → bc_nonce (h_cell st) ≤ bc_nonce (h_cell st') → known hs id → known (<[h := st']> hs) id.
Proof.
  intros Hst Hle (h' & s & k & Hs & E & Hk). destruct (decide (h' = h)) as [->|].
  - exists h, st', k. rewrite lookup_insert_eq. rewrite Hst in Hs. injection Hs as <-. split_and!; done || lia.
  - exists h', s, k. by rewrite lookup_insert_ne.
Qed.

(** A step of one holder. *)
Lemma holder_step_inv B y Ls cr sv h st u rs st' sv' :
  sys_inv B y Ls cr sv → B + 8 < 2 ^ 64 → y_holders y !! h = Some st →
  stepped h (B + 4) sv cr (returned (y_sent y)) st u rs st' sv' →
  sys_inv (B + 4) (mkSystem (y_shard y) (<[h := st']> (y_holders y)) (rs ++ y_sent y) (y_answers y) (y_served y + u)) Ls cr sv'.
Proof.
  intros Hi HB Hst [So1 So2 So3 So4 So5 So6].
  assert (∀ id f, returned (rs ++ y_sent y) id f ↔ returned rs id f ∨ returned (y_sent y) id f) as Hra.
  { intros id f. unfold returned. setoid_rewrite elem_of_app. naive_solver. }
  pose proof (si_holders _ _ _ _ _ Hi _ _ Hst) as Hh.
  assert (∀ id f, returned (y_sent y) id f → credit sv' id = credit sv id) as Hold.
  { intros id f Hr. destruct (So2 id) as [E|(_ & ch & Hch & <-)]; [done|].
    destruct (hi_chunk _ _ _ _ _ _ Hh ch Hch) as (k & _ & _ & _ & _ & Hno). by destruct (Hno f). }
  pose proof Hi as [I1 I2 I3 I4 I5 I6 I7 I8 I9 I10 I11]. split; cbn [y_shard y_holders y_sent y_answers y_served]; try done.
  - lia.
  - intros id. specialize (I6 id). destruct (So2 id) as [->|[? _]]; lia.
  - intros id Hc. eapply known_step; [done..|]. destruct (So2 id) as [E|(_ & ch & Hch & <-)]; [apply I7; by rewrite <-E|].
    eapply held_known; [exact Hi|done..].
  - by apply Forall_app.
  - intros id f [Hr|Hr]%Hra.
    + destruct (So5 id f Hr) as (-> & ch & Hch & <-). split; [done|].
      eapply known_step; [done..|]. eapply held_known; [exact Hi|done..].
    + destruct (I9 id f Hr) as [-> Hk]. split; [symmetry; by eapply Hold|]. by eapply known_step.
  - intros id gr Hin Hg H40. destruct (I10 id gr Hin Hg H40) as [? Hb]. split; [done|]. intros Hno. apply Hb.
    intros f Hr. apply (Hno f), Hra. by right.
  - intros h' s Hs. destruct (decide (h' = h)) as [->|Hne].
    + rewrite lookup_insert_eq in Hs. injection Hs as <-. eapply holder_inv_elsewhere; [exact So3|lia| |].
      * intros id k _ _. split; [done|]. intros f. apply Hra.
      * done.
    + rewrite lookup_insert_ne in Hs by done. pose proof (I11 _ _ Hs) as Hh'. eapply holder_inv_elsewhere; [exact Hh'|lia| |done].
      intros id k -> Hk.
      assert (¬ ∃ ch, holds (h_cell st) ch ∧ ch_leaseID ch = makeLeaseID h' k) as Hno.
      { intros (ch & Hch & E). destruct (hi_chunk _ _ _ _ _ _ Hh ch Hch) as (k' & E' & Hk' & _). rewrite E' in E.
        pose proof (hi_nonce _ _ _ _ _ _ Hh). pose proof (hi_nonce _ _ _ _ _ _ Hh').
        apply makeLeaseID_inj in E as [E _]; [by destruct Hne|by eapply hi_len|by eapply hi_len|zlia..]. }
      split; [destruct (So2 (makeLeaseID h' k)) as [?|[_ ?]]; done|].
      intros f [Hr|Hr]%Hra; [|done]. by destruct (So5 _ _ Hr) as [_ ?].
Qed.


Lemma known_length B y Ls cr sv id : sys_inv B y Ls cr sv → known (y_holders y) id → length id = 40%nat.
Proof.
  intros Hi (h & st & k & Hst & -> & _). apply length_makeLeaseID.
  eapply hi_len. by eapply si_holders.
Qed.

Lemma known_acquired hs h st id : hs !! h = None → known hs id → known (<[h := st]> hs) id.
Proof.
  intros Hnone (h' & s & k & Hs & E & Hk). exists h', s, k. rewrite lookup_insert_ne; [done|]. intros ->. congruence.
Qed.

Lemma drawReply_width data gr : drawReply data = Ok gr → dr_granted gr < 2 ^ 63.
Proof.
  intros E. destruct (Z.ltb_spec 0 (dr_granted gr)) as [Hg|]; [|lia].
  destruct (drawReply_granted data gr E Hg) as [_ ->]. cbn [decodeGrantResult g_Granted]. unfold fieldI64.
  case_match; [|lia]. match goal with |- getI64 ?x < _ => pose proof (getI64_range x) end. zlia.
Qed.

Lemma acquire_inv B y Ls cr sv h o now :
  sys_inv B y Ls cr sv → 0 ≤ B → length h = 32%nat → sys_inv (B + 4) (step ns coll y (Acquire h o now)) Ls cr sv.
Proof.
  intros [I1 I2 I3 I4 I5 I6 I7 I8 I9 I10 I11] HB Hh. unfold step. destruct (y_holders y !! h) as [|] eqn:Eh.
  { split; try done. intros h' s Hs. eapply holder_inv_bound; [|by apply I11]. lia. }
  split; cbn [y_shard y_holders y_sent y_answers y_served]; try done.
  - intros id Hc. apply known_acquired; auto.
  - intros id f Hr. destruct (I9 id f Hr). split; [done|]. by apply known_acquired.
  - intros h' s Hs. destruct (decide (h' = h)) as [->|].
    + rewrite lookup_insert_eq in Hs. injection Hs as <-. split; try done; simpl; try (by intros ch [?|?]). lia.
    + rewrite lookup_insert_ne in Hs by done. eapply holder_inv_bound; [|by apply I11]. lia.
Qed.

Lemma commit_inv B y Ls cr sv batch :
  sys_inv B y Ls cr sv → event_ok ns coll y (Commit batch) →
  ∃ Ls' cr', sys_inv (B + 4) (step ns coll y (Commit batch)) Ls' cr' sv.
Proof using Hn Hlen.
  intros Hi Hb. pose proof Hi as [I1 I2 I3 I4 I5 I6 I7 I8 I9 I10 I11].
  destruct (commit_ok ns coll Hn Hlen (y_shard y) Ls cr (y_sent y) batch I1 I2 I3 I4 I8 Hb)
    as (rs & s' & Ls' & cr' & EU & C1 & C2 & C3 & C4 & C5 & C6 & C7).
  exists Ls', cr'. unfold step. rewrite EU. split; cbn [y_shard y_holders y_sent y_answers y_served]; try done.
  - unfold cards_wf in *. by rewrite C2.
  - by rewrite C2.
  - intros id. destruct (I6 id) as [Hp Hle]. split; [done|]. destruct (decide (credit sv id = 0)) as [->|Hne].
    { by apply bk_nonneg with (1 := C5). }
    apply C6; [by eapply known_length, I7|done|]. intros f Hf. destruct (I9 id f Hf) as [-> _]. lia.
  - intros id gr Hin Hg H40. apply elem_of_app in Hin as [Hin|Hin].
    + split; [|intros Hno; by apply C7]. unfold answersOf in Hin. apply list_elem_of_omap in Hin as ([[idx l] r] & _ & E).
      simpl in E. destruct l as [[h id' a| |] t|]; try done. injection E as _ E. by eapply drawReply_width.
    + destruct (I10 id gr Hin Hg H40) as [? Hle]. split; [done|]. intros Hno. apply C6; [done|by apply Hle|].
      intros f Hf. by destruct (Hno f).
  - intros h st Hst. eapply holder_inv_elsewhere; [by apply I11|lia|done|].
    intros id v H40 Hv Hno. apply C6; [done..|]. intros f Hf. by destruct (Hno f).
Qed.

Lemma step_inv B y Ls cr sv e :
  sys_inv B y Ls cr sv → 0 ≤ B → B + 8 < 2 ^ 64 → event_ok ns coll y e →
  ∃ Ls' cr' sv', sys_inv (B + 4) (step ns coll y e) Ls' cr' sv'.
Proof using Hn Hlen.
  intros Hi HB0 HB He. destruct e as [h o now|h e|batch].
  - exists Ls, cr, sv. by apply acquire_inv.
  - unfold step. destruct (y_holders y !! h) as [st|] eqn:Eh.
    2: { exists Ls, cr, sv. destruct Hi. split; try done. intros h' s Hs. eapply holder_inv_bound; [|by eauto]. lia. }
    destruct (holder_stepped h B sv cr (returned (y_sent y)) st e) as [sv' Hs]; [by eapply si_holders|done| |].
    { intros gr wall now p k nonce -> Hph Hg. destruct He as (c & p' & k' & nonce' & E & Hin). rewrite Eh in E.
      injection E as ->. simpl in Hph. injection Hph as -> -> ->.
      pose proof (si_holders _ _ _ _ _ Hi _ _ Eh) as Hh. destruct (hi_phase _ _ _ _ _ _ Hh) as (_ & P2 & P3 & P4).
      assert (¬ known (y_holders y) (makeLeaseID h nonce)) as Hun by (eapply sys_unknown; [done..|lia]).
      assert (∀ f, ¬ returned (y_sent y) (makeLeaseID h nonce) f) as Hno.
      { intros f Hr. by destruct (si_returned _ _ _ _ _ Hi _ _ Hr). }
      destruct (si_answers _ _ _ _ _ Hi _ _ Hin Hg) as [Hw Hle]; [apply length_makeLeaseID; by eapply hi_len|].
      split_and!; [done|by apply Hle| |done]. destruct (decide (credit sv (makeLeaseID h nonce) = 0)) as [|Hne]; [done|].
      by destruct Hun; apply si_known with (1 := Hi). }
    destruct (holderStep e st) as [[u rs] st']. exists Ls, cr, sv'. by eapply holder_step_inv.
  - destruct (commit_inv B y Ls cr sv batch Hi He) as (Ls' & cr' & Hi'). by exists Ls', cr', sv.
Qed.

Lemma holders_run_inv es B y Ls cr sv :
  sys_inv B y Ls cr sv → 0 ≤ B → B + 4 * Z.of_nat (length es) + 8 < 2 ^ 64 → events_ok ns coll y es →
  ∃ Ls' cr' sv', sys_inv (B + 4 * Z.of_nat (length es)) (run ns coll es y) Ls' cr' sv'.
Proof using Hn Hlen.
  revert B y Ls cr sv. induction es as [|e es IH]; intros B y Ls cr sv Hi HB Hle Hes.
  { exists Ls, cr, sv. by rewrite Z.add_0_r. }
  destruct Hes as [He Hes]. cbn [length] in Hle |- *.
  destruct (step_inv B y Ls cr sv e Hi HB ltac:(lia) He) as (Ls1 & cr1 & sv1 & Hi1).
  destruct (IH _ _ _ _ _ Hi1 ltac:(lia) ltac:(lia) Hes) as (Ls2 & cr2 & sv2 & Hi2). exists Ls2, cr2, sv2.
  by replace (B + 4 * Z.of_nat (Datatypes.S (length es))) with (B + 4 + 4 * Z.of_nat (length es)) by lia.
Qed.

Lemma holders_initial_inv (s : baseSM S) :
  ls_live (sm_store s) → fresh s → sys_inv 0 (initial s) (λ _, empty_ledger) ∅ ∅.
Proof using H1.
  intros Hl Hf. split; try done; simpl.
  - by apply fresh_cards.
  - by apply fresh_ledgers.
  - intros id f [h Hr]. by apply not_elem_of_nil in Hr.
  - intros id gr Hr. by apply not_elem_of_nil in Hr.
Qed.

End Safety.

(** ** Properties *)

(** C3: Any number of holders on one budget of a fresh shard, each with a 32-byte identity of
    its own, spend, refill, report and return in any interleaving with commits that lose,
    delay, repeat and reorder their requests next to other traffic, as long as that has no
    raw migration, no reconcile and no return of the holders' leases. What they have served
    together and what the budget still has available fit the cap. *)
Theorem holders_never_overspend {S} `{LocalStoreSpec S} `{FloatText} (s : baseSM S) (ns coll : bytes) (es : list event) :
  ls_live (sm_store s) → fresh s → nc_ok ns coll → lenZ ns + lenZ coll < 2 ^ 31 → 4 * Z.of_nat (length es) + 8 < 2 ^ 64 →
  events_ok ns coll (initial s) es →
  let y := run ns coll es (initial s) in
  ∃ st, Lookup (y_shard y) (budStatQuery ns coll) = Ok (ABudStat st) ∧
    0 ≤ y_served y ∧ 0 ≤ bs_Available st ∧ y_served y + bs_Available st ≤ bs_Cap st.
Proof.
  intros Hl Hf Hn Hlen Hes Hok y.
  destruct (holders_run_inv ns coll Hn Hlen es 0 _ _ _ _ (holders_initial_inv ns coll s Hl Hf)) as (Ls & cr & sv & Hi); [done|lia|done|].
  fold y in Hi. destruct (si_ledgers _ _ _ _ _ _ _ Hi ns coll Hn) as [Hla Hsane].
  exists (statOf (lg_pool (Ls (ns, coll)))). pose proof (si_backed _ _ _ _ _ _ _ Hi) as Hb.
  pose proof (total_nonneg sv (λ id, proj1 (si_credit _ _ _ _ _ _ _ Hi id))).
  pose proof (total_le sv cr (bk_nonneg _ _ Hb) (λ id, proj2 (si_credit _ _ _ _ _ _ _ Hi id))) as Hle.
  rewrite (bk_total _ _ Hb) in Hle. rewrite (si_served _ _ _ _ _ _ _ Hi).
  split; [apply Lookup_budStat; [by eapply si_live|done]|].
  destruct (lg_pool (Ls (ns, coll))) as [p|] eqn:Ep; simpl in *; [|lia].
  destruct (sn_inv _ Hsane) as [_ Hp]. rewrite Ep in Hp. destruct Hp. lia.
Qed.

(** Two holders on a budget of 10: both draw, spend, one returns. *)
Definition holderA : bytes := repeat "a"%byte 32.
Definition holderB : bytes := repeat "b"%byte 32.

Definition grantOf (h : bytes) (n : Z) : drawResult := mkDraw n 5 0 0 0.

Definition sampleRun : list event :=
  [ Commit [(1, Other (initCmd 10))];
    Acquire holderA (mkOptions 0 0 6) 0; Acquire holderB (mkOptions 0 0 6) 0;
    Holder holderA HStart; Holder holderB HStart;
    Commit [(2, Req (RqGrant holderA (makeLeaseID holderA 0) 6) 5); (3, Req (RqGrant holderB (makeLeaseID holderB 0) 6) 5)];
    Holder holderA (HAnswer (Ok (grantOf holderA 6)) 5 1); Holder holderB (HAnswer (Ok (grantOf holderB 4)) 5 1);
    Holder holderA (HSpend 3 2 false); Holder holderB (HSpend 4 2 false); Holder holderB (HSpend 1 2 false);
    Holder holderA HClose; Holder holderA HTake;
    Commit [(4, Req (RqReturn holderA (makeLeaseID holderA 0) 3) 0)] ].

(** The samples' own traffic: creating the budget. *)
Lemma sampleInit_adm : entry_adm false (otherCmd ns0 coll0) (entryOf ns0 coll0 1 (Other (initCmd 10))).
Proof.
  assert (cmd_adm false (otherCmd ns0 coll0) (initCmd 10)) as Ha.
  { split; [vm_compute; reflexivity|]. intros c Hd Hop.
    assert (match decodeCommand (initCmd 10) with Ok c => Op c = opBudInit | Err _ => False end) as E by (vm_compute; reflexivity).
    rewrite Hd in E. congruence. }
  split; [reflexivity|].
  assert (entry_cmds (entryOf ns0 coll0 1 (Other (initCmd 10))) = [initCmd 10]) as -> by (vm_compute; reflexivity).
  repeat (constructor; [exact Ha|]). constructor.
Qed.

Lemma sampleRun_ok : events_ok ns0 coll0 (initial shard0) sampleRun.
Proof.
  assert (∀ (r : request) l, Is_true (existsb (λ r', bool_decide (r = r')) l) → r ∈ l) as Hin.
  { intros r l Hb%Is_true_true%existsb_exists. destruct Hb as (r' & Hr' & E%bool_decide_eq_true). subst. by apply list_elem_of_In. }
  split; [constructor; [apply sampleInit_adm|constructor]|].
  do 2 (split; [reflexivity|]). do 2 (split; [exact I|]).
  split; [constructor; [|constructor; [|constructor]]; apply Hin; vm_compute; exact I|].
  do 2 (split; [do 4 eexists; (split; [vm_compute; reflexivity|apply list_elem_of_In; vm_compute; tauto])|]).
  do 5 (split; [exact I|]).
  split; [constructor; [|constructor]; apply Hin; vm_compute; exact I|exact I].
Qed.

Lemma holders_never_overspend_witness :
  let y := run ns0 coll0 sampleRun (initial shard0) in
  y_served y = 7 ∧ ∃ st, Lookup (y_shard y) (budStatQuery ns0 coll0) = Ok (ABudStat st) ∧
    bs_Available st = 3 ∧ y_served y + bs_Available st ≤ bs_Cap st.
Proof.
  split; [vm_compute; reflexivity|].
  destruct (holders_never_overspend shard0 ns0 coll0 sampleRun) as (st & Hst & _ & _ & Hle).
  1-5: first [reflexivity|apply shard0_fresh|split; vm_compute; reflexivity].
  - apply sampleRun_ok.
  - exists st. split; [exact Hst|]. split; [|exact Hle].
    assert (match Lookup (y_shard (run ns0 coll0 sampleRun (initial shard0))) (budStatQuery ns0 coll0) with
            | Ok (ABudStat st) => bs_Available st = 3 | _ => False end) as Ha by (vm_compute; reflexivity).
    rewrite Hst in Ha. exact Ha.
Defined.

End LeaseSafety.
