(* ===== verification/Meta.v ===== *)
(** * Routing: the meta shard and the directories (meta.go, directory.go, reshard.go)

    The meta shard's state machine, the range directory it holds, hash routing and
    the re-routing of stored rows under a new shard count. *)

From S2P Require Import Prelude Bytes Strconv Storage Command Keys Ctx CtxLogic ShardSM Snapshot.

Local Open Scope Z_scope.
#[local] Set Default Proof Using "Type*".

Module Meta.
Import Storage Command Keys Ctx CtxLogic ShardSM.

(** ** The meta shard's commands *)

Definition opMetaPut : byte := x01.
Definition opMetaDelete : byte := x02.
Definition opBackupPut : byte := x03.
Definition opBackupDelete : byte := x04.

Record metaCommand := mkMeta {
  mc_Op : byte;
  mc_Start : bytes;
  mc_End : bytes;
  mc_ShardID : Z;
}.

Definition encodeMetaCommand (c : metaCommand) : bytes :=
  appendChunk (appendChunk [mc_Op c] (mc_Start c)) (mc_End c) ++ put_u64 (mc_ShardID c).

Definition decodeMetaCommand (b : bytes) : gres metaCommand :=
  match b with
  | [] => Err errShortCommand
  | op :: rest =>
      do? (start, rest) ← takeChunk rest;
      do? (stop, rest) ← takeChunk rest;
      if lenZ rest <? 8 then Err errShortCommand
      else Ok (mkMeta op start stop (get_u64 rest))
  end.

Record rangeEntry := mkRange { r_Start : bytes; r_End : bytes; r_ShardID : Z }.

(** ** The meta shard's state machine *)

Inductive metaQuery :=
  | metaListQuery
  | metaBackupGetQuery (key : bytes)
  | metaBackupListQuery
  | metaUnknownQuery.

Inductive metaAnswer :=
  | ARanges (l : list rangeEntry)
  | ABlob (b : option bytes)
  | ABlobs (m : gmap bytes bytes).

Section sm.
Context {S : Type} `{LocalStore S} (m : baseSM S).
Local Abbreviation p_ := (sm_prefix m).

(** The write of one decoded command. *)
Definition metaOps (c : metaCommand) : gres (list StoreOp) :=
  if decide (mc_Op c = opMetaPut) then
    Ok [putOp CFReplData (rangeKey p_ (mc_Start c)) (appendChunk [] (mc_End c) ++ put_u64 (mc_ShardID c))]
  else if decide (mc_Op c = opMetaDelete) then Ok [delOp CFReplData (rangeKey p_ (mc_Start c))]
  else if decide (mc_Op c = opBackupPut) then Ok [putOp CFReplData (backupKey p_ (mc_Start c)) (mc_End c)]
  else if decide (mc_Op c = opBackupDelete) then Ok [delOp CFReplData (backupKey p_ (mc_Start c))]
  else Err errUnknownMetaOp.

Fixpoint metaEntries (entries : list entry) (ops : list StoreOp) : gres (list ProposeResult * list StoreOp) :=
  match entries with
  | [] => Ok ([], ops)
  | e :: es =>
      do? c ← decodeMetaCommand (e_Cmd e);
      do? os ← metaOps c;
      do? (rs, ops) ← metaEntries es (ops ++ os);
      Ok (mkResult 1 [] :: rs, ops)
  end.

Definition metaUpdate (entries : list entry) : gres (list ProposeResult * baseSM S) :=
  match last entries with
  | None => Ok ([], m)
  | Some lastEntry =>
      do? (rs, ops) ← metaEntries entries [];
      let applied := putOp CFReplData (appliedKey p_) (put_u64 (e_Index lastEntry)) in
      do? store ← store_res (ls_BatchRC (sm_store m) (ops ++ [applied]));
      Ok (rs, with_store m store)
  end.

(** One row of the range space; a row that does not decode is left out. *)
Definition rangeRow (row : bytes * bytes) : option rangeEntry :=
  match takeChunk row.2 with
  | Ok (stop, rest) => if 8 <=? lenZ rest then Some (mkRange row.1 stop (get_u64 rest)) else None
  | Err _ => None
  end.

Definition metaLookup (q : metaQuery) : gres metaAnswer :=
  match q with
  | metaListQuery =>
      do? snap ← store_res (ls_Snapshot (sm_store m));
      do? rows ← scanUnder snap (rangeSpace p_) 0;
      Ok (ARanges (omap rangeRow rows))
  | metaBackupGetQuery key =>
      (* an empty copy is nil *)
      do? v ← store_res (ls_Get (sm_store m) CFReplData (backupKey p_ key));
      Ok (ABlob (match v with Some (x :: l) => Some (x :: l) | _ => None end))
  | metaBackupListQuery =>
      do? snap ← store_res (ls_Snapshot (sm_store m));
      do? rows ← scanUnder snap (backupSpace p_) 0;
      Ok (ABlobs (list_to_map rows))
  | metaUnknownQuery => Err errUnknownQuery
  end.

End sm.

(** ** The range directory *)

(** [ShardFor] and [rangeContaining] on the cached ranges. *)
Definition rangeContaining (ranges : list rangeEntry) (key : bytes) : option rangeEntry :=
  List.find (λ r, inRoute key (r_Start r) (r_End r)) ranges.

Definition ShardFor (ranges : list rangeEntry) (ns coll : bytes) : Z :=
  match rangeContaining ranges (routeKey ns coll) with Some r => r_ShardID r | None => 0 end.

Definition Shards (ranges : list rangeEntry) : list Z :=
  reverse (fold_left (λ out r, if decide (r_ShardID r ∈ out) then out else r_ShardID r :: out) ranges []).

Definition maxShardID (ranges : list rangeEntry) : Z :=
  fold_left (λ mx r, if mx <? r_ShardID r then r_ShardID r else mx) ranges 0.

(** ** Hash routing (directory.go) *)

Definition MetaShardID : Z := 1.
Definition firstDataShard : Z := 2.

Definition clampShards (n : Z) : Z := if n <? 1 then 1 else n.

Definition NewHashDirectory (n : Z) : list Z :=
  (λ i, uint64 (firstDataShard + Z.of_nat i)) <$> seq 0 (Z.to_nat (clampShards n)).

Definition ShardForKey (ns coll : bytes) (dataShards : Z) : Z :=
  uint64 (firstDataShard + fnv64a (routeKey ns coll) mod clampShards dataShards).

(** A node's replica id when it joins as a learner (control.go). *)
Definition SpotReplicaID (nodeID : bytes) : Z :=
  Z.lor (Z.shiftl 1 40) (Z.land (fnv64a nodeID) (Z.shiftl 1 40 - 1)).

(** ** Re-routing stored rows (reshard.go) *)

Definition nsCollOfSuffix (suffix : bytes) : option (bytes * bytes) :=
  match suffix with
  | [] => None
  | b :: tl =>
      body ← (if decide (b = subData) then Some tl
              else if decide (b = subTTL ∨ b = subBudExp ∨ b = subBudTombGC) then
                if lenZ suffix <? 9 then None else Some (drop 9 suffix)
              else None);
      match takeChunk body with
      | Err _ => None
      | Ok (ns, rest) =>
          match takeChunk rest with
          | Err _ => None
          | Ok (coll, _) => Some (ns, coll)
          end
      end
  end.

Inductive rerouteErr := errEmptySuffix | errUnknownSub (b : byte) | errShortSuffix (b : byte) | errNoCollection (b : byte).

(** The target shard of a row, or [None] for shard-local bookkeeping. *)
Definition RerouteSuffix (suffix : bytes) (newN : Z) : res rerouteErr (option Z) :=
  match suffix with
  | [] => Err errEmptySuffix
  | b :: _ =>
      if decide (b = subMeta ∨ b = subDedup ∨ b = subDedupRing) then Ok None
      else if decide (b = subData ∨ b = subTTL ∨ b = subBudExp ∨ b = subBudTombGC) then
        if bool_decide (b ≠ subData) && (lenZ suffix <? 9) then Err (errShortSuffix b)
        else
          match nsCollOfSuffix suffix with
          | None => Err (errNoCollection b)
          | Some (ns, coll) => Ok (Some (ShardForKey ns coll newN))
          end
      else Err (errUnknownSub b)
  end.

Definition NamespaceCollectionOfKey (key : bytes) : option (bytes * bytes) :=
  if lenZ key <? 8 then None
  else if get_u64 (take 8 key) <? firstDataShard then None
  else nsCollOfSuffix (drop 8 key).

(** ** Ranges *)

Lemma bytes_le_nil k : bytes_le [] k.
Proof. unfold bytes_le. by destruct k. Qed.
Lemma bytes_le_not_lt a b : bytes_le a b ↔ ¬ bytes_lt b a.
Proof.
  split; [intros Hle Hlt; by apply bytes_lt_nle in Hlt|]. intros Hn. unfold bytes_le, bytes_lt in *.
  rewrite (bcompare_antisym a b) in Hn. destruct (bcompare a b); naive_solver.
Qed.
Lemma bytes_le_lt_trans a b c : bytes_le a b → bytes_lt b c → bytes_lt a c.
Proof. intros [H| ->]%bytes_le_lteq ?; [by eapply bytes_lt_trans|done]. Qed.
Lemma bytes_lt_le_trans a b c : bytes_lt a b → bytes_le b c → bytes_lt a c.
Proof. intros ? [H| <-]%bytes_le_lteq; [by eapply bytes_lt_trans|done]. Qed.
Lemma bytes_lt_irrefl a : ¬ bytes_lt a a.
Proof. unfold bytes_lt. by rewrite bcompare_refl. Qed.

Lemma inRoute_spec k lo hi :
  inRoute k lo hi = true ↔ bytes_le lo k ∧ (hi = [] ∨ bytes_lt k hi).
Proof.
  unfold inRoute. rewrite andb_true_iff, !orb_true_iff, negb_true_iff, !Z.eqb_eq, bool_decide_eq_true, bool_decide_eq_false.
  assert (∀ b : bytes, lenZ b = 0 ↔ b = []) as E.
  { intros b. unfold lenZ. destruct b; simpl; split; intros; try done; lia. }
  rewrite !E. fold (bytes_lt k lo) (bytes_lt k hi). rewrite <-bytes_le_not_lt.
  split; intros [H1 H2]; (split; [|done]); [|by right]. destruct H1 as [->|]; [apply bytes_le_nil|done].
Qed.

Definition covers (key : bytes) (r : rangeEntry) : bool := inRoute key (r_Start r) (r_End r).

(** Adjacent ranges from [lo] up to [hi]. *)
Fixpoint chain (lo : bytes) (rs : list rangeEntry) (hi : bytes) : Prop :=
  match rs with
  | [] => lo = hi
  | r :: rs' => r_Start r = lo ∧ r_End r ≠ [] ∧ bytes_lt lo (r_End r) ∧ chain (r_End r) rs' hi
  end.

(** A directory that covers the key space without gap or overlap. *)
Definition tiling (rs : list rangeEntry) : Prop :=
  ∃ a r, rs = a ++ [r] ∧ chain [] a (r_Start r) ∧ r_End r = [].

Lemma chain_app lo a b hi : chain lo (a ++ b) hi ↔ ∃ mid, chain lo a mid ∧ chain mid b hi.
Proof.
  revert lo. induction a as [|r a IH]; intros lo; simpl; [naive_solver|]. setoid_rewrite IH. naive_solver.
Qed.

Lemma chain_le lo a hi : chain lo a hi → bytes_le lo hi.
Proof.
  revert lo. induction a as [|r a IH]; simpl; intros lo; [intros ->; apply bytes_le_lteq; by right|].
  intros (_ & _ & Hlt & Hc). apply bytes_le_lteq. left. eapply bytes_lt_le_trans; [done|by apply IH].
Qed.

Lemma chain_out lo a hi key r :
  chain lo a hi → r ∈ a → covers key r = true → bytes_le lo key ∧ bytes_lt key hi.
Proof.
  revert lo. induction a as [|r' a IH]; simpl; intros lo; [by intros _ ?%elem_of_nil|].
  intros (<- & He & Hlt & Hc). rewrite elem_of_cons. unfold covers. rewrite inRoute_spec. intros [->|Hin] [H1 H2].
  - split; [done|]. destruct H2 as [|H2]; [done|]. eapply bytes_lt_le_trans; [done|by eapply chain_le].
  - destruct (IH _ Hc Hin) as [H3 H4]; [unfold covers; by rewrite inRoute_spec|].
    split; [|done]. apply bytes_le_lteq. left. eapply bytes_lt_le_trans; done.
Qed.

Lemma chain_covers lo a hi key :
  chain lo a hi → bytes_le lo key → bytes_lt key hi → ∃ a1 r a2, a = a1 ++ r :: a2 ∧ covers key r = true.
Proof.
  revert lo. induction a as [|r a IH]; simpl; intros lo.
  { intros -> Hle Hlt. by apply bytes_le_not_lt in Hle. }
  intros (<- & He & Hlt & Hc) Hle Hhi. destruct (decide (bytes_lt key (r_End r))) as [Hk|Hk].
  - exists [], r, a. split; [done|]. unfold covers. rewrite inRoute_spec. auto.
  - destruct (IH _ Hc) as (a1 & r' & a2 & -> & Hr); [by apply bytes_le_not_lt|done|].
    by exists (r :: a1), r', a2.
Qed.

(** Every key is in exactly one range of a tiling. *)
Lemma tiling_route rs key :
  tiling rs → ∃ a r b, rs = a ++ r :: b ∧ covers key r = true ∧
    (∀ r', r' ∈ a → covers key r' = false) ∧ (∀ r', r' ∈ b → covers key r' = false).
Proof.
  intros (a & l & -> & Hc & He). destruct (decide (bytes_lt key (r_Start l))) as [Hk|Hk].
  - destruct (chain_covers _ _ _ key Hc) as (a1 & r & a2 & -> & Hr); [apply bytes_le_nil|done|].
    apply chain_app in Hc as (mid & Hc1 & <- & Hre & Hlt & Hc2). exists a1, r, (a2 ++ [l]).
    unfold covers in Hr. rewrite inRoute_spec in Hr. destruct Hr as [Hr1 [Hr2|Hr2]]; [done|].
    split_and!; [by rewrite <-app_assoc|unfold covers; rewrite inRoute_spec; auto| |].
    + intros r' Hin. destruct (covers key r') eqn:E; [|done]. exfalso.
      destruct (chain_out _ _ _ _ _ Hc1 Hin E) as [_ H]. by apply bytes_le_not_lt in Hr1.
    + intros r' Hin. destruct (covers key r') eqn:E; [|done]. exfalso.
      apply elem_of_app in Hin as [Hin|Hin].
      * destruct (chain_out _ _ _ _ _ Hc2 Hin E) as [H _]. by apply bytes_le_not_lt in H.
      * apply list_elem_of_singleton in Hin as ->. unfold covers in E. rewrite inRoute_spec in E.
        destruct E as [E _]. by apply bytes_le_not_lt in E.
  - exists a, l, []. split_and!; [done| | |by intros ? ?%elem_of_nil].
    + unfold covers. rewrite inRoute_spec. split; [by apply bytes_le_not_lt|by left].
    + intros r' Hin. destruct (covers key r') eqn:E; [|done]. exfalso.
      by destruct (chain_out _ _ _ _ _ Hc Hin E) as [_ H].
Qed.

Lemma find_app_skip a rs key :
  (∀ r', r' ∈ a → covers key r' = false) → rangeContaining (a ++ rs) key = rangeContaining rs key.
Proof.
  intros Ha. unfold rangeContaining. induction a as [|r a IH]; [done|]. simpl.
  fold (covers key r). rewrite Ha by (by left). apply IH. intros. apply Ha. by right.
Qed.

Lemma tiling_contains rs key :
  tiling rs → ∃ r, rangeContaining rs key = Some r ∧ r ∈ rs ∧ covers key r = true ∧
    ∀ r', r' ∈ rs → covers key r' = true → r' = r.
Proof.
  intros (a & r & b & -> & Hr & Ha & Hb)%(tiling_route _ key). exists r. split_and!.
  - rewrite find_app_skip by done. unfold rangeContaining. simpl. fold (covers key r). by rewrite Hr.
  - apply elem_of_app. right. by left.
  - done.
  - intros r' Hin E. apply elem_of_app in Hin as [Hin|[->|Hin]%elem_of_cons]; [|done|].
    + by rewrite Ha in E.
    + by rewrite Hb in E.
Qed.

(** ** Codec *)

Definition metaCommand_ok (c : metaCommand) : Prop :=
  lenZ (mc_Start c) + lenZ (mc_End c) + 12 < 2 ^ 32 ∧ in_u64 (mc_ShardID c).

Lemma decode_encode_meta c : metaCommand_ok c → decodeMetaCommand (encodeMetaCommand c) = Ok c.
Proof.
  intros [Hl Hs]. unfold encodeMetaCommand, decodeMetaCommand. rewrite !appendChunk_chunk, <-!app_assoc.
  rewrite <-app_comm_cons. rewrite app_nil_l. rewrite takeChunk_chunk by lens. cbn [res_bind].
  rewrite takeChunk_chunk by lens. cbn [res_bind]. rewrite lenZ_put_u64.
  rewrite <-(app_nil_r (put_u64 _)), get_put_u64 by done. by destruct c.
Qed.

(** ** The directory as a finite map

    The rows of the range space are a finite map from a range's start to its end
    and shard. *)

Abbreviation dirMap := (gmap bytes (bytes * Z)).

Definition rangeVal (e : bytes * Z) : bytes := chunk e.1 ++ put_u64 e.2.
Definition rangeVal_ok (e : bytes * Z) : Prop := lenZ e.1 + 8 < 2 ^ 32 ∧ in_u64 e.2.

Definition dir_at (p : bytes) (m : gmap bytes bytes) (D : dirMap) : Prop :=
  (∀ start, m !! rangeKey p start = rangeVal <$> D !! start) ∧ map_Forall (λ _, rangeVal_ok) D.

Definition metaStep (D : dirMap) (c : metaCommand) : dirMap :=
  if decide (mc_Op c = opMetaPut) then <[mc_Start c := (mc_End c, mc_ShardID c)]> D
  else if decide (mc_Op c = opMetaDelete) then delete (mc_Start c) D
  else D.

Definition knownMetaOp (c : metaCommand) : Prop :=
  mc_Op c ∈ [opMetaPut; opMetaDelete; opBackupPut; opBackupDelete].

(** The listing of a directory: its ranges in ascending order of their start. *)
Definition startsBefore (a b : rangeEntry) : Prop := bytes_lt (r_Start a) (r_Start b).
Definition lists (l : list rangeEntry) (D : dirMap) : Prop :=
  StronglySorted startsBefore l ∧ ∀ r, r ∈ l ↔ D !! r_Start r = Some (r_End r, r_ShardID r).

Lemma startsBefore_NoDup l : StronglySorted startsBefore l → NoDup l.
Proof.
  induction 1 as [|a l Hs IH Hf]; constructor; [|done]. intros Hin.
  rewrite Forall_forall in Hf. by eapply bytes_lt_irrefl, Hf.
Qed.

Lemma lists_unique l1 l2 D : lists l1 D → lists l2 D → l1 = l2.
Proof.
  intros [S1 H1] [S2 H2].
  assert (AntiSymm (=) startsBefore).
  { intros a b Ha Hb. exfalso. eapply (bytes_lt_irrefl (r_Start a)), bytes_lt_trans; eauto. }
  apply (StronglySorted_unique startsBefore); [done..|].
  apply NoDup_Permutation; [by apply startsBefore_NoDup..|]. intros r. by rewrite H1, H2.
Qed.

Lemma rangeRow_val start e : rangeVal_ok e → rangeRow (start, rangeVal e) = Some (mkRange start e.1 e.2).
Proof.
  intros [Hl Hs]. unfold rangeRow, rangeVal. cbn [fst snd]. rewrite takeChunk_chunk by lens.
  rewrite lenZ_put_u64. simpl. rewrite <-(app_nil_r (put_u64 _)), get_put_u64 by done. done.
Qed.

Lemma rangeKey_inj p a b : rangeKey p a = rangeKey p b → a = b.
Proof. apply app_inv_head. Qed.

Lemma rangeKey_app p a : rangeKey p a = p ++ subData :: a.
Proof. unfold rangeKey, rangeSpace. by rewrite <-app_assoc. Qed.

Lemma rangeKey_sub p a b r : b ≠ subData → rangeKey p a ≠ p ++ b :: r.
Proof. intros Hb E. rewrite rangeKey_app in E. apply app_inv_head in E. congruence. Qed.

Section metasm.
Context {S : Type} `{LocalStoreSpec S} (m : baseSM S) (Hlive : ls_live (sm_store m)).
Local Abbreviation p_ := (sm_prefix m).

Lemma metaOps_ok c : knownMetaOp c → ∃ op, metaOps m c = Ok [op] ∧ op_CF op = CFReplData ∧
  p_ `prefix_of` op_Key op.
Proof.
  intros Hk. unfold metaOps. repeat case_decide; try by (eexists; split_and!; [done|done|apply prefix_app_r; by eexists]).
  all: try (eexists; split_and!; [done|done|]; simpl; unfold rangeKey, rangeSpace, backupKey, backupSpace;
    rewrite <-?app_assoc; by apply prefix_app_r).
  exfalso. unfold knownMetaOp in Hk. set_solver.
Qed.

Lemma metaOps_dir c op mm D :
  metaCommand_ok c → metaOps m c = Ok [op] → dir_at p_ mm D →
  dir_at p_ (apply_ops CFReplData [op] mm) (metaStep D c).
Proof.
  intros [Hc1 Hc2] E [Hd Hv]. unfold metaOps, metaStep in *. repeat case_decide; try done; injection E as <-.
  - split; [|apply map_Forall_insert_2; [split; simpl; [lens|done]|done]]. intros start.
    change (<[rangeKey p_ (mc_Start c) := appendChunk [] (mc_End c) ++ put_u64 (mc_ShardID c)]> mm !! rangeKey p_ start
      = rangeVal <$> (<[mc_Start c := (mc_End c, mc_ShardID c)]> D !! start)).
    destruct (decide (start = mc_Start c)) as [->|Hne]; [by rewrite !lookup_insert_eq|].
    rewrite !lookup_insert_ne by (first [congruence | intros ?%rangeKey_inj; congruence]). apply Hd.
  - split; [|by apply map_Forall_delete]. intros start.
    change (delete (rangeKey p_ (mc_Start c)) mm !! rangeKey p_ start = rangeVal <$> (delete (mc_Start c) D !! start)).
    destruct (decide (start = mc_Start c)) as [->|Hne]; [by rewrite !lookup_delete_eq|].
    rewrite !lookup_delete_ne by (first [congruence | intros ?%rangeKey_inj; congruence]). apply Hd.
  - split; [|done]. intros start. rewrite apply_ops_lookup_ne; [apply Hd|]. apply Forall_singleton. simpl.
    unfold backupKey, backupSpace. rewrite <-app_assoc. intros E. symmetry in E. by eapply rangeKey_sub in E.
  - split; [|done]. intros start. rewrite apply_ops_lookup_ne; [apply Hd|]. apply Forall_singleton. simpl.
    unfold backupKey, backupSpace. rewrite <-app_assoc. intros E. symmetry in E. by eapply rangeKey_sub in E.
Qed.

Lemma metaEntries_ok es cs ops0 :
  Forall2 (λ e c, decodeMetaCommand (e_Cmd e) = Ok c ∧ knownMetaOp c ∧ metaCommand_ok c) es cs →
  ∃ rs os, metaEntries m es ops0 = Ok (rs, ops0 ++ os) ∧ length rs = length es ∧
    Forall (λ op, op_CF op = CFReplData ∧ p_ `prefix_of` op_Key op) os ∧
    ∀ mm D, dir_at p_ mm D → dir_at p_ (apply_ops CFReplData os mm) (fold_left metaStep cs D).
Proof.
  intros Hf. revert ops0. induction Hf as [|e c es cs (Hd & Hk & Hok) Hf IH]; intros ops0.
  { exists [], []. rewrite app_nil_r. by split_and!. }
  cbn [metaEntries]. rewrite Hd. cbn [res_bind]. destruct (metaOps_ok c Hk) as (op & E & Hop).
  rewrite E. cbn [res_bind]. destruct (IH (ops0 ++ [op])) as (rs & os & -> & Hlen & Hos & Hdir). cbn [res_bind].
  exists (mkResult 1 [] :: rs), (op :: os). split_and!.
  - by rewrite <-app_assoc.
  - simpl. by rewrite Hlen.
  - by constructor.
  - intros mm D HD. apply (Hdir (apply_ops CFReplData [op] mm) (metaStep D c)). by apply metaOps_dir.
Qed.

Lemma metaUpdate_ok es cs D :
  Forall2 (λ e c, decodeMetaCommand (e_Cmd e) = Ok c ∧ knownMetaOp c ∧ metaCommand_ok c) es cs →
  dir_at p_ (base m) D →
  ∃ rs st, metaUpdate m es = Ok (rs, with_store m st) ∧ length rs = length es ∧ ls_live st ∧
    dir_at p_ (ls_view st CFReplData) (fold_left metaStep cs D) ∧
    ∀ k, ¬ p_ `prefix_of` k → ls_view st CFReplData !! k = base m !! k.
Proof.
  intros Hf HD. unfold metaUpdate. destruct (last es) as [lst|] eqn:Hl.
  2:{ apply last_None in Hl as ->. apply Forall2_nil_inv_l in Hf as ->. exists [], (sm_store m).
      split_and!; try done. by destruct m. }
  destruct (metaEntries_ok es cs [] Hf) as (rs & os & -> & Hlen & Hos & Hdir). cbn [res_bind].
  rewrite app_nil_l. set (ap := putOp CFReplData (appliedKey p_) (put_u64 (e_Index lst))).
  destruct (ls_BatchRC_ok (sm_store m) (os ++ [ap])) as (st & -> & Hst & Hv); [done| |].
  { apply Forall_app. split; [|by apply Forall_singleton]. eapply Forall_impl; [done|]. by intros op [-> _]. }
  cbn [store_res res_bind]. exists rs, st. split_and!; try done.
  - rewrite Hv by done. rewrite apply_ops_app. destruct (Hdir _ _ HD) as [H1 H2]. split; [|done].
    intros start. rewrite apply_ops_lookup_ne; [apply H1|]. apply Forall_singleton. simpl.
    intros E. symmetry in E. by eapply rangeKey_sub in E.
  - intros k Hk. rewrite Hv by done. apply apply_ops_lookup_ne. apply Forall_app. split.
    + eapply Forall_impl; [done|]. intros op [_ Hp] <-. done.
    + apply Forall_singleton. intros <-. apply Hk. by apply prefix_app_r.
Qed.

End metasm.

Section listing.
Context {S : Type} `{LocalStoreSpec S} (m : baseSM S) (Hlive : ls_live (sm_store m)).
Local Abbreviation p_ := (sm_prefix m).

Definition dirRows : list (bytes * bytes) :=
  stripped (rangeSpace p_) (newSliceIterator (base m) (Some (rangeSpace p_)) (prefixEnd (rangeSpace p_)) 0).

Lemma dirRows_sorted : StronglySorted bytes_lt dirRows.*1.
Proof.
  unfold dirRows, stripped. rewrite <-list_fmap_compose.
  set (rows := newSliceIterator _ _ _ _).
  assert (StronglySorted bytes_lt rows.*1) as Hs
    by (unfold rows; rewrite newSliceIterator_keys; apply scan_keys_sorted).
  assert (Forall (λ kv, rangeSpace p_ `prefix_of` kv.1) rows) as Hp.
  { apply Forall_forall. intros [k v] Hin. by apply elem_of_prefix_scan in Hin as [_ ?]. }
  clearbody rows. induction rows as [|[k v] rows IH]; [constructor|]. inversion Hs as [|? ? Hs' Hf]; subst.
  inversion Hp as [|? ? Hk Hp']; subst. cbn [fmap list_fmap]. constructor; [by apply IH|].
  rewrite Forall_fmap in Hf |- *. rewrite Forall_forall in Hf, Hp' |- *. intros [k' v'] Hin.
  simpl in Hk. destruct Hk as [a ->]. specialize (Hf _ Hin). destruct (Hp' _ Hin) as [b Eb]. simpl in Eb, Hf |- *. subst k'.
  rewrite !drop_app_length. unfold bytes_lt in Hf. by rewrite bcompare_app_l in Hf.
Qed.

Lemma metaList_ok D : dir_at p_ (base m) D →
  ∃ l, metaLookup m metaListQuery = Ok (ARanges l) ∧ lists l D.
Proof.
  intros [Hd Hv]. unfold metaLookup. destruct (ls_Snapshot_ok (sm_store m) Hlive) as (sn & -> & Hsn).
  cbn [store_res res_bind]. unfold scanUnder. rewrite sn_Scan_ok, Hsn by done. cbn [store_res res_bind].
  fold dirRows. exists (omap rangeRow dirRows). split; [done|].
  assert (∀ st v, (st, v) ∈ dirRows → ∃ e, D !! st = Some e ∧ v = rangeVal e ∧ rangeVal_ok e) as Hrows.
  { intros st v Hin%elem_of_stripped_scan. fold (rangeKey p_ st) in Hin. rewrite Hd in Hin.
    apply fmap_Some in Hin as (e & He & ->). exists e. split_and!; [done|done|by eapply Hv]. }
  split.
  - pose proof dirRows_sorted as Hs. induction dirRows as [|[st v] rows IH]; [constructor|].
    inversion Hs as [|? ? Hs' Hf]; subst. destruct (Hrows st v) as (e & He & -> & Hok); [by left|].
    assert (∀ st v, (st, v) ∈ rows → ∃ e, D !! st = Some e ∧ v = rangeVal e ∧ rangeVal_ok e) as Hrows'.
    { intros. apply Hrows. by right. }
    cbn [omap list_omap]. rewrite rangeRow_val by done. constructor; [by apply IH|].
    apply Forall_forall. intros r Hin. apply list_elem_of_omap in Hin as ([st' v'] & Hin & Er).
    destruct (Hrows' _ _ Hin) as (e' & _ & -> & Hok'). rewrite rangeRow_val in Er by done. injection Er as <-.
    unfold startsBefore. simpl. rewrite Forall_fmap, Forall_forall in Hf. by apply (Hf _ Hin).
  - intros r. rewrite list_elem_of_omap. split.
    + intros ([st v] & Hin & Er). destruct (Hrows _ _ Hin) as (e & He & -> & Hok).
      rewrite rangeRow_val in Er by done. injection Er as <-. simpl. by destruct e.
    + intros Hr. exists (r_Start r, rangeVal (r_End r, r_ShardID r)). split.
      * apply elem_of_stripped_scan. fold (rangeKey p_ (r_Start r)). by rewrite Hd, Hr.
      * rewrite rangeRow_val by (by eapply Hv). by destruct r.
Qed.

End listing.

(** ** Splitting and merging ranges *)

Lemma sorted_chain lo a hi : chain lo a hi → StronglySorted startsBefore a ∧ Forall (λ r, bytes_le lo (r_Start r) ∧ bytes_lt (r_Start r) hi) a.
Proof.
  revert lo. induction a as [|r a IH]; simpl; intros lo; [by repeat constructor|].
  intros (<- & He & Hlt & Hc). destruct (IH _ Hc) as [IH1 IH2]. split.
  - constructor; [done|]. eapply Forall_impl; [done|]. intros r' [H1 _]. by eapply bytes_lt_le_trans.
  - constructor.
    + split; [apply bytes_le_lteq; by right|]. eapply bytes_lt_le_trans; [done|by eapply chain_le].
    + eapply Forall_impl; [done|]. intros r' [H1 H2]. split; [|done].
      apply bytes_le_lteq. left. by eapply bytes_lt_le_trans.
Qed.

Lemma tiling_sorted l : tiling l → StronglySorted startsBefore l.
Proof.
  intros (a & r & -> & Hc & _). apply sorted_chain in Hc as [H1 H2]. induction H1 as [|x a Hs IH Hf]; simpl.
  - repeat constructor.
  - inversion H2; subst. constructor; [by apply IH|]. apply Forall_app. split; [done|].
    apply Forall_singleton. unfold startsBefore. tauto.
Qed.

(** Cutting one range of a tiling in two keeps it a tiling. *)
Lemma tiling_split a r b key sh :
  tiling (a ++ r :: b) → covers key r = true → key ≠ r_Start r → key ≠ [] →
  tiling (a ++ mkRange (r_Start r) key (r_ShardID r) :: mkRange key (r_End r) sh :: b).
Proof.
  intros (a0 & l & E & Hc & He) Hk Hne Hnil. unfold covers in Hk. rewrite inRoute_spec in Hk.
  destruct Hk as [Hk1 Hk2]. apply bytes_le_lteq in Hk1 as [Hk1|Hk1]; [|congruence].
  destruct b as [|b0 b _] using rev_ind.
  - apply app_inj_tail in E as [<- <-]. exists (a ++ [mkRange (r_Start r) key (r_ShardID r)]), (mkRange key (r_End r) sh).
    rewrite <-app_assoc. split_and!; [done| |done]. apply chain_app. exists (r_Start r). simpl. by split_and!.
  - rewrite app_comm_cons, app_assoc in E. apply app_inj_tail in E as [<- <-].
    apply chain_app in Hc as (mid & Hc1 & <- & Hre & Hlt & Hc2). destruct Hk2 as [|Hk2]; [done|].
    exists (a ++ mkRange (r_Start r) key (r_ShardID r) :: mkRange key (r_End r) sh :: b), b0.
    split_and!; [by rewrite <-app_assoc| |done]. apply chain_app. exists (r_Start r). simpl. by split_and!.
Qed.

(** Joining two neighbours of a tiling keeps it a tiling. *)
Lemma tiling_merge a r1 r2 b sh :
  tiling (a ++ r1 :: r2 :: b) → tiling (a ++ mkRange (r_Start r1) (r_End r2) sh :: b).
Proof.
  intros (a0 & l & E & Hc & He). destruct b as [|b0 b _] using rev_ind.
  - change (a ++ r1 :: [r2]) with (a ++ [r1] ++ [r2]) in E. rewrite app_assoc in E.
    apply app_inj_tail in E as [<- <-]. apply chain_app in Hc as (mid & Hc1 & <- & _ & _ & Hc2).
    by exists a, (mkRange (r_Start r1) (r_End r2) sh).
  - rewrite !app_comm_cons, app_assoc in E. apply app_inj_tail in E as [<- <-].
    apply chain_app in Hc as (mid & Hc1 & <- & Hn1 & Hl1 & E2 & Hn2 & Hl2 & Hc2).
    exists (a ++ mkRange (r_Start r1) (r_End r2) sh :: b), b0.
    split_and!; [by rewrite <-app_assoc| |done]. apply chain_app. exists (r_Start r1). simpl.
    split_and!; try done. by eapply bytes_lt_trans.
Qed.

(** The shard of a routing key. *)
Definition routed (l : list rangeEntry) (k : bytes) : option Z := r_ShardID <$> rangeContaining l k.

Lemma rangeContaining_mid a r b k :
  tiling (a ++ r :: b) → covers k r = true → rangeContaining (a ++ r :: b) k = Some r.
Proof.
  intros Ht Hk. destruct (tiling_contains _ k Ht) as (r' & -> & _ & _ & Hu). f_equal. symmetry. apply Hu; [|done].
  apply elem_of_app. right. by left.
Qed.

Lemma rangeContaining_in l r k : rangeContaining l k = Some r → r ∈ l ∧ covers k r = true.
Proof.
  unfold rangeContaining. intros Hf. apply List.find_some in Hf as [H1 H2]. split; [|done].
  by apply list_elem_of_In.
Qed.

Lemma rangeContaining_other a r b c k :
  tiling (a ++ r :: b) → tiling (a ++ c ++ b) → covers k r = false → (∀ x, x ∈ c → covers k x = false) →
  rangeContaining (a ++ c ++ b) k = rangeContaining (a ++ r :: b) k.
Proof.
  intros Ht Ht' Hr Hc. destruct (tiling_contains _ k Ht) as (r1 & -> & Hin & H1 & Hu).
  destruct (tiling_contains _ k Ht') as (r2 & -> & Hin2 & H2 & _). f_equal. apply Hu; [|done].
  apply elem_of_app. apply elem_of_app in Hin2 as [?|[Hx|?]%elem_of_app]; [by left| |right; by right].
  rewrite Hc in H2 by done. done.
Qed.

(** A listing and its map. *)
Definition dirPair (r : rangeEntry) : bytes * (bytes * Z) := (r_Start r, (r_End r, r_ShardID r)).
Definition dirOf (l : list rangeEntry) : dirMap := list_to_map (dirPair <$> l).

Lemma starts_fst l : (dirPair <$> l).*1 = r_Start <$> l.
Proof. by rewrite <-list_fmap_compose. Qed.

Lemma starts_NoDup l : StronglySorted startsBefore l → NoDup (r_Start <$> l).
Proof.
  induction 1 as [|a l Hs IH Hf]; [constructor|]. cbn [fmap list_fmap]. constructor; [|done].
  intros (r & E & Hin)%list_elem_of_fmap. rewrite Forall_forall in Hf. apply Hf in Hin.
  unfold startsBefore in Hin. rewrite E in Hin. by apply bytes_lt_irrefl in Hin.
Qed.

Lemma elem_of_dirOf l r :
  NoDup (r_Start <$> l) → r ∈ l ↔ dirOf l !! r_Start r = Some (r_End r, r_ShardID r).
Proof.
  intros Hnd. unfold dirOf. rewrite <-elem_of_list_to_map by (by rewrite starts_fst).
  fold (dirPair r). rewrite list_elem_of_fmap. split; [by exists r|].
  intros ([] & E & Hin). destruct r. unfold dirPair in E. simpl in E. by simplify_eq.
Qed.

Lemma lists_dirOf l D : StronglySorted startsBefore l → lists l D ↔ D = dirOf l.
Proof.
  intros Hs. pose proof (starts_NoDup _ Hs) as Hnd. split.
  - intros [_ Hl]. apply map_eq. intros st. apply option_eq. intros [e sh].
    pose proof (Hl (mkRange st e sh)) as H1. pose proof (elem_of_dirOf l (mkRange st e sh) Hnd) as H2.
    simpl in H1, H2. by rewrite <-H1, <-H2.
  - intros ->. split; [done|]. intros r. by apply elem_of_dirOf.
Qed.

Lemma dirOf_perm l1 l2 : NoDup (r_Start <$> l1) → l1 ≡ₚ l2 → dirOf l1 = dirOf l2.
Proof.
  intros Hnd Hp. apply list_to_map_proper; [by rewrite starts_fst|by rewrite Hp].
Qed.

Lemma dirOf_cons r l : dirOf (r :: l) = <[r_Start r := (r_End r, r_ShardID r)]> (dirOf l).
Proof. done. Qed.

(** The two puts of a split change the route of the keys of the new range only. *)
Lemma split_routes l D r key sh :
  lists l D → tiling l → rangeContaining l key = Some r → key ≠ r_Start r → key ≠ [] →
  ∃ l', lists l' (<[key := (r_End r, sh)]> (<[r_Start r := (key, r_ShardID r)]> D)) ∧ tiling l' ∧
    ∀ k, routed l' k = if inRoute k key (r_End r) then Some sh else routed l k.
Proof.
  intros Hl Ht Hr Hne Hnil. pose proof (rangeContaining_in _ _ _ Hr) as [Hin Hcov].
  apply list_elem_of_split in Hin as (a & b & ->).
  set (r1 := mkRange (r_Start r) key (r_ShardID r)). set (r2 := mkRange key (r_End r) sh).
  pose proof (tiling_split _ _ _ key sh Ht Hcov Hne Hnil) as Ht'. fold r1 r2 in Ht'.
  exists (a ++ r1 :: r2 :: b). split_and!; [|done|].
  - apply lists_dirOf in Hl as ->; [|by apply tiling_sorted]. apply lists_dirOf; [by apply tiling_sorted|].
    rewrite (dirOf_perm (a ++ r :: b) (r :: a ++ b)), (dirOf_perm (a ++ r1 :: r2 :: b) (r1 :: r2 :: a ++ b));
      [|by apply starts_NoDup, tiling_sorted|by rewrite <-!Permutation_middle|
       by apply starts_NoDup, tiling_sorted|by rewrite <-Permutation_middle].
    rewrite !dirOf_cons. simpl. rewrite insert_insert_eq. by rewrite insert_insert_ne.
  - intros k. unfold routed. unfold covers in Hcov. rewrite inRoute_spec in Hcov. destruct Hcov as [Hc1 Hc2].
    destruct (inRoute k key (r_End r)) eqn:E2.
    { change (a ++ r1 :: r2 :: b) with (a ++ [r1] ++ r2 :: b) in *. rewrite app_assoc in Ht' |- *.
      by rewrite rangeContaining_mid. }
    destruct (covers k r1) eqn:E1.
    { rewrite (rangeContaining_mid a r1 (r2 :: b)) by done. rewrite (rangeContaining_mid a r b); [done|done|].
      unfold covers in E1 |- *. rewrite inRoute_spec in E1 |- *. simpl in E1. destruct E1 as [? [?|?]]; [done|].
      split; [done|]. destruct Hc2 as [?|Hc2]; [by left|right; by eapply bytes_lt_trans]. }
    f_equal. apply (rangeContaining_other a r b [r1; r2]); [done|done| |].
    + apply not_true_is_false. unfold covers in E1 |- *. rewrite inRoute_spec. intros [H1 H2].
      apply not_true_iff_false in E1, E2. rewrite inRoute_spec in E1, E2. simpl in E1.
      destruct (decide (bytes_lt k key)); [naive_solver|]. apply E2. split; [by apply bytes_le_not_lt|done].
    + intros x [->|[->|[]%elem_of_nil]%elem_of_cons]%elem_of_cons; done.
Qed.

Lemma tiling_adjacent a r1 r2 b :
  tiling (a ++ r1 :: r2 :: b) →
  r_Start r2 = r_End r1 ∧ r_End r1 ≠ [] ∧ bytes_lt (r_Start r1) (r_End r1) ∧
  (r_End r2 = [] ∨ bytes_lt (r_Start r2) (r_End r2)).
Proof.
  intros (a0 & l & E & Hc & He). destruct b as [|b0 b _] using rev_ind.
  - change (a ++ r1 :: [r2]) with (a ++ [r1] ++ [r2]) in E. rewrite app_assoc in E.
    apply app_inj_tail in E as [<- <-]. apply chain_app in Hc as (mid & Hc1 & <- & ? & ? & Hc2). auto.
  - rewrite !app_comm_cons, app_assoc in E. apply app_inj_tail in E as [<- <-].
    apply chain_app in Hc as (mid & Hc1 & <- & Hn1 & Hl1 & E2 & Hn2 & Hl2 & Hc2). rewrite E2. auto.
Qed.

(** The put and the delete of a merge move the absorbed range's keys only. *)
Lemma merge_routes a r1 r2 b D :
  lists (a ++ r1 :: r2 :: b) D → tiling (a ++ r1 :: r2 :: b) →
  let l' := a ++ mkRange (r_Start r1) (r_End r2) (r_ShardID r1) :: b in
  lists l' (delete (r_Start r2) (<[r_Start r1 := (r_End r2, r_ShardID r1)]> D)) ∧ tiling l' ∧
    ∀ k, routed l' k = if covers k r2 then Some (r_ShardID r1) else routed (a ++ r1 :: r2 :: b) k.
Proof.
  intros Hl Ht l'. set (r := mkRange (r_Start r1) (r_End r2) (r_ShardID r1)) in l'.
  pose proof (tiling_merge _ _ _ _ (r_ShardID r1) Ht) as Ht'. fold r l' in Ht'.
  assert (NoDup (r_Start <$> (r1 :: r2 :: a ++ b))) as Hnd.
  { apply tiling_sorted, starts_NoDup in Ht. rewrite <-!Permutation_middle in Ht. done. }
  split_and!; [|done|].
  - apply lists_dirOf in Hl as ->; [|by apply tiling_sorted]. apply lists_dirOf; [by apply tiling_sorted|].
    subst l'. rewrite (dirOf_perm (a ++ r :: b) (r :: a ++ b)), (dirOf_perm (a ++ r1 :: r2 :: b) (r1 :: r2 :: a ++ b));
      [|by apply starts_NoDup, tiling_sorted|by rewrite <-!Permutation_middle|
       by apply starts_NoDup, tiling_sorted|by rewrite <-Permutation_middle].
    rewrite !dirOf_cons. simpl. rewrite insert_insert_eq.
    cbn [fmap list_fmap] in Hnd. apply NoDup_cons in Hnd as [H1 Hnd]. apply NoDup_cons in Hnd as [H2 _].
    rewrite delete_insert_ne by set_solver. rewrite delete_insert_id; [done|].
    apply not_elem_of_list_to_map_1. by rewrite starts_fst.
  - intros k. unfold routed.
    destruct (tiling_adjacent _ _ _ _ Ht) as (Ea & Hna & Hla & Hlb).
    destruct (covers k r2) eqn:E2.
    { subst l'. rewrite rangeContaining_mid; [done|done|]. unfold covers in E2 |- *. rewrite inRoute_spec in E2 |- *.
      simpl. destruct E2 as [E2 ?]. split; [|done]. rewrite Ea in E2. apply bytes_le_lteq. left. by eapply bytes_lt_le_trans. }
    destruct (covers k r1) eqn:E1.
    { subst l'. rewrite (rangeContaining_mid a r1 (r2 :: b)) by done. rewrite rangeContaining_mid; [done|done|].
      unfold covers in E1 |- *. rewrite inRoute_spec in E1 |- *. simpl. destruct E1 as [? [?|?]]; [done|].
      split; [done|]. rewrite Ea in Hlb. destruct Hlb as [?|Hlb]; [by left|right; by eapply bytes_lt_trans]. }
    f_equal. symmetry. apply (rangeContaining_other a r b [r1; r2]); [done|done| |].
    + apply not_true_is_false. unfold covers in E1, E2 |- *. rewrite inRoute_spec. simpl. intros [H1 H2].
      apply not_true_iff_false in E1, E2. rewrite inRoute_spec in E1, E2. rewrite Ea in E2.
      destruct (decide (bytes_lt k (r_End r1))); [naive_solver|]. apply E2. split; [by apply bytes_le_not_lt|done].
    + intros x [->|[->|[]%elem_of_nil]%elem_of_cons]%elem_of_cons; done.
Qed.

(** ** Routes of stored rows *)

(** The rows of a collection: its data rows and its rows in the due indexes. *)
Definition dueSub (b : byte) : Prop := b = subTTL ∨ b = subBudExp ∨ b = subBudTombGC.
Definition collKey (p ns coll k : bytes) : Prop :=
  (∃ sc r, k = dkey p sc ns coll r) ∨ (∃ sub t r, dueSub sub ∧ k = ikey p sub t ns coll r).

(** A shard's bookkeeping: the applied index, freezes and the dedup window. *)
Definition localKey (p k : bytes) : Prop :=
  ∃ sub r, (sub = subMeta ∨ sub = subDedup ∨ sub = subDedupRing) ∧ k = p ++ sub :: r.

Lemma lenZ_suffix_app (a b : bytes) : lenZ (a ++ b) < 2 ^ 32 → lenZ b < 2 ^ 32.
Proof. lens. Qed.

Lemma two_chunks ns coll r :
  lenZ (chunk ns ++ chunk coll ++ r) < 2 ^ 32 →
  takeChunk (chunk ns ++ chunk coll ++ r) = Ok (ns, chunk coll ++ r) ∧ takeChunk (chunk coll ++ r) = Ok (coll, r).
Proof. intros Hl. by rewrite !takeChunk_chunk by lens. Qed.

Lemma nsCollOfSuffix_data sc ns coll r :
  lenZ (dkey [] sc ns coll r) < 2 ^ 32 → nsCollOfSuffix (dkey [] sc ns coll r) = Some (ns, coll).
Proof.
  intros Hl. unfold dkey in *. rewrite app_nil_l in *. unfold nsCollOfSuffix.
  rewrite decide_True by done. cbn [mbind option_bind].
  destruct (two_chunks ns coll (sc :: r)) as [-> ->]; [lens|done].
Qed.

Lemma nsCollOfSuffix_due sub t ns coll r :
  dueSub sub → lenZ (ikey [] sub t ns coll r) < 2 ^ 32 → nsCollOfSuffix (ikey [] sub t ns coll r) = Some (ns, coll).
Proof.
  intros Hs Hl. unfold ikey in *. rewrite app_nil_l in *. unfold nsCollOfSuffix.
  rewrite decide_False by (by destruct Hs as [->|[->| ->]]). rewrite decide_True by done.
  destruct (Z.ltb_spec (lenZ (sub :: put_u64 t ++ chunk ns ++ chunk coll ++ r)) 9); [lens|]. cbn [mbind option_bind].
  change (drop 9 (sub :: put_u64 t ++ chunk ns ++ chunk coll ++ r)) with (drop 8 (put_u64 t ++ chunk ns ++ chunk coll ++ r)).
  rewrite drop_app_field by apply length_put_u64.
  destruct (two_chunks ns coll r) as [-> ->]; [lens|done].
Qed.

Lemma collKey_suffix p ns coll k : collKey p ns coll k → ∃ suf, k = p ++ suf ∧ collKey [] ns coll suf.
Proof.
  intros [(sc & r & ->)|(sub & t & r & Hs & ->)].
  - exists (dkey [] sc ns coll r). split; [done|]. left. eauto.
  - exists (ikey [] sub t ns coll r). split; [done|]. right. eauto 6.
Qed.

Lemma nsCollOfSuffix_coll ns coll suf :
  collKey [] ns coll suf → lenZ suf < 2 ^ 32 → nsCollOfSuffix suf = Some (ns, coll).
Proof.
  intros [(sc & r & ->)|(sub & t & r & Hs & ->)] Hl; [by apply nsCollOfSuffix_data|by apply nsCollOfSuffix_due].
Qed.

Lemma RerouteSuffix_coll ns coll suf n :
  collKey [] ns coll suf → lenZ suf < 2 ^ 32 → RerouteSuffix suf n = Ok (Some (ShardForKey ns coll n)).
Proof.
  intros Hc Hl. pose proof (nsCollOfSuffix_coll _ _ _ Hc Hl) as E. unfold RerouteSuffix.
  destruct Hc as [(sc & r & ->)|(sub & t & r & Hs & ->)].
  - unfold dkey in *. rewrite app_nil_l in *. rewrite decide_False by (by intros [?|[?|?]]).
    rewrite decide_True by (by left). rewrite bool_decide_eq_false_2 by naive_solver. simpl andb. by rewrite E.
  - unfold ikey in *. rewrite app_nil_l in *.
    rewrite decide_False by (by destruct Hs as [->|[->| ->]]; intros [?|[?|?]]).
    rewrite decide_True by (destruct Hs; tauto).
    destruct (Z.ltb_spec (lenZ (sub :: put_u64 t ++ chunk ns ++ chunk coll ++ r)) 9); [lens|].
    rewrite andb_false_r. by rewrite E.
Qed.

Lemma ShardForKey_in ns coll n : 0 ≤ n < 2 ^ 64 - 2 → ShardForKey ns coll n ∈ NewHashDirectory n.
Proof.
  intros Hn. unfold ShardForKey, NewHashDirectory. set (h := fnv64a _).
  assert (0 < clampShards n < 2 ^ 64 - 1) as Hc by (unfold clampShards; case_match; lia).
  pose proof (Z.mod_pos_bound h (clampShards n) ltac:(lia)). apply list_elem_of_fmap.
  exists (Z.to_nat (h mod clampShards n)). split; [by rewrite Z2Nat.id by lia|].
  apply elem_of_seq. lia.
Qed.

Lemma encoded_entries (es : list entry) cs :
  Forall (λ c, knownMetaOp c ∧ metaCommand_ok c) cs → e_Cmd <$> es = encodeMetaCommand <$> cs →
  Forall2 (λ e c, decodeMetaCommand (e_Cmd e) = Ok c ∧ knownMetaOp c ∧ metaCommand_ok c) es cs.
Proof.
  intros Hcs. revert es. induction Hcs as [|c cs [Hk Hok] Hcs IH]; intros [|e es]; try done.
  cbn [fmap list_fmap]. intros [= He Hes]. constructor; [|by apply IH]. rewrite He. by rewrite decode_encode_meta.
Qed.

Lemma metaEntries_poison {S} `{LocalStore S} (m : baseSM S) es e ops :
  e ∈ es → (∀ c, decodeMetaCommand (e_Cmd e) ≠ Ok c ∨ ¬ knownMetaOp c) → ∃ err, metaEntries m es ops = Err err.
Proof.
  intros Hin Hbad. revert ops. induction es as [|e' es IH]; intros ops; [by apply elem_of_nil in Hin|].
  cbn [metaEntries]. destruct (decodeMetaCommand (e_Cmd e')) as [c|] eqn:Ed; cbn [res_bind]; [|eauto].
  destruct (metaOps m c) as [os|] eqn:Eo; cbn [res_bind]; [|eauto].
  apply elem_of_cons in Hin as [<-|Hin].
  - exfalso. destruct (Hbad c) as [|Hk]; [done|]. apply Hk. unfold metaOps in Eo. unfold knownMetaOp.
    repeat case_decide; set_solver.
  - destruct (IH Hin (ops ++ os)) as [err ->]. cbn [res_bind]. eauto.
Qed.

(** ** Properties *)

(** C40: the meta shard is the directory it is meant to be. Applying any sequence of
    encoded meta commands succeeds and moves the stored range rows as the commands move
    a finite map from range starts to (end, shard); a listing returns exactly the ranges
    of that map, in ascending order of their start; other shards' rows are untouched. *)
Theorem meta_directory_refines {S} `{LocalStoreSpec S} (m : baseSM S) (D : dirMap)
    (es : list entry) (cs : list metaCommand) :
  ls_live (sm_store m) → dir_at (sm_prefix m) (base m) D →
  Forall (λ c, knownMetaOp c ∧ metaCommand_ok c) cs → e_Cmd <$> es = encodeMetaCommand <$> cs →
  ∃ rs m' l, metaUpdate m es = Ok (rs, m') ∧ length rs = length es ∧
    metaLookup m' metaListQuery = Ok (ARanges l) ∧ lists l (fold_left metaStep cs D) ∧
    dir_at (sm_prefix m) (base m') (fold_left metaStep cs D) ∧
    ∀ k, ¬ sm_prefix m `prefix_of` k → base m' !! k = base m !! k.
Proof.
  intros Hl HD Hcs Hes.
  destruct (metaUpdate_ok m Hl es cs D) as (rs & st & HU & Hlen & Hst & HD' & Hoff); [|done|].
  { by apply encoded_entries. }
  destruct (metaList_ok (with_store m st) Hst _ HD') as (ls & HL & Hls).
  exists rs, (with_store m st), ls. by split_and!.
Qed.

(** a re-shard keeps every row with its collection. Every row a collection has in a
    shard, data or due index, is sent to the shard that hash routing gives the collection
    under the new count, which is one of the new shards; the shard's bookkeeping is
    dropped, and a backup attributes the row to the same collection. *)
Theorem reroute_consistent (p ns coll k : bytes) (n : Z) :
  length p = 8%nat → 0 ≤ n < 2 ^ 64 - 2 → lenZ k < 2 ^ 32 →
  (collKey p ns coll k →
     RerouteSuffix (drop 8 k) n = Ok (Some (ShardForKey ns coll n)) ∧
     ShardForKey ns coll n ∈ NewHashDirectory n ∧
     NamespaceCollectionOfKey k = (if get_u64 p <? firstDataShard then None else Some (ns, coll))) ∧
  (localKey p k → RerouteSuffix (drop 8 k) n = Ok None ∧ NamespaceCollectionOfKey k = None).
Proof.
  intros Hp Hn Hl. unfold NamespaceCollectionOfKey. split.
  - intros (suf & -> & Hc)%collKey_suffix. rewrite drop_app_field, take_app_field by done.
    apply lenZ_suffix_app in Hl as Hs. split_and!; [by apply RerouteSuffix_coll|by apply ShardForKey_in|].
    destruct (Z.ltb_spec (lenZ (p ++ suf)) 8) as [H8|_].
    { rewrite lenZ_app in H8. pose proof (lenZ_nonneg suf). unfold lenZ in H8 at 1. lia. }
    by rewrite (nsCollOfSuffix_coll ns coll).
  - intros (sub & r & Hs & ->). rewrite drop_app_field, take_app_field by done. split.
    + unfold RerouteSuffix. by rewrite decide_True.
    + destruct Hs as [->|[->| ->]]; by repeat case_match.
Qed.

(** the meta shard does not contain poison. One undecodable entry, or one with an
    operation it does not know, makes the whole [Update] return an error, which the
    consensus engine treats as fatal; [sm_fatal.go] states the opposite as the invariant
    of every state machine, and the data shards keep it. *)
Theorem meta_poison_fatal {S} `{LocalStore S} (m : baseSM S) (es : list entry) (e : entry) :
  e ∈ es → (∀ c, decodeMetaCommand (e_Cmd e) ≠ Ok c ∨ ¬ knownMetaOp c) →
  ∃ err, metaUpdate m es = Err err.
Proof.
  intros Hin Hbad. unfold metaUpdate. destruct (last es) as [lst|] eqn:El.
  - destruct (metaEntries_poison m es e [] Hin Hbad) as [err ->]. by exists err.
  - apply last_None in El as ->. by apply elem_of_nil in Hin.
Qed.

(** ** Witnesses *)

Definition meta0 : baseSM MemStore := newBaseSM NewMemStore MetaShardID.
Definition fullRange : metaCommand := mkMeta opMetaPut [] [] firstDataShard.
Definition badEntry : entry := mkEntry 1 [x09].

Lemma meta0_dir : dir_at (sm_prefix meta0) (base meta0) ∅.
Proof. split; [|apply map_Forall_empty]. intros start. rewrite lookup_empty. by vm_compute. Qed.

Lemma meta_directory_refines_witness :
  ∃ rs m' l, metaUpdate meta0 [mkEntry 1 (encodeMetaCommand fullRange)] = Ok (rs, m') ∧ length rs = 1%nat ∧
    metaLookup m' metaListQuery = Ok (ARanges l) ∧ lists l (fold_left metaStep [fullRange] ∅) ∧
    dir_at (sm_prefix meta0) (base m') (fold_left metaStep [fullRange] ∅) ∧
    ∀ k, ¬ sm_prefix meta0 `prefix_of` k → base m' !! k = base meta0 !! k.
Proof.
  apply (meta_directory_refines meta0 ∅ [mkEntry 1 (encodeMetaCommand fullRange)] [fullRange]).
  - done.
  - apply meta0_dir.
  - apply Forall_singleton. split; [by left|]. split; [done|vm_compute; split; congruence].
  - done.
Defined.

Lemma reroute_consistent_witness :
  RerouteSuffix (drop 8 (cardKey (put_u64 2) (lit "ns") (lit "c"))) 4 = Ok (Some (ShardForKey (lit "ns") (lit "c") 4)) ∧
  ShardForKey (lit "ns") (lit "c") 4 ∈ NewHashDirectory 4 ∧
  NamespaceCollectionOfKey (cardKey (put_u64 2) (lit "ns") (lit "c")) = Some (lit "ns", lit "c").
Proof.
  apply (reroute_consistent (put_u64 2) (lit "ns") (lit "c") (cardKey (put_u64 2) (lit "ns") (lit "c")) 4);
    [done|lia|vm_compute; reflexivity|].
  left. exists scopeCard, []. apply cardKey_dkey.
Defined.

Lemma meta_poison_fatal_witness :
  ∃ err, metaUpdate meta0 [mkEntry 1 (encodeMetaCommand fullRange); badEntry] = Err err.
Proof.
  apply (meta_poison_fatal meta0 [mkEntry 1 (encodeMetaCommand fullRange); badEntry] badEntry).
  - right. by left.
  - intros c. left. by vm_compute.
Defined.

End Meta.
