(* ===== verification/Control.v ===== *)
(** * Splitting and merging ranges (control.go, manager.go)

    [Control.Split] and [Control.Merge] over a node's store. The consensus engine is
    an argument: it answers each call with an outcome, so that a run can fail at any
    point. All shards of the node share one store, each under its own prefix. *)

From S2P Require Import Prelude Bytes Strconv Storage Command Keys Ctx CtxLogic Budget ShardSM Samples ShardFrame ShardUpdate Meta.

Local Open Scope Z_scope.
#[local] Set Default Proof Using "Type*".

Module Control.
Import Storage Command Keys Ctx CtxLogic ShardSM ShardFrame ShardUpdate Meta.

(** ** The node *)

(** What the engine makes of one call: it takes effect at a log index, it has no
    effect and fails, or it takes effect and the caller sees an error (a timeout). *)
Inductive raftOutcome :=
  | Committed (index : Z)
  | Dropped
  | TimedOut (index : Z).

Inductive ctlErr :=
  | errHashMode
  | errEmptySplitKey
  | errNoRange
  | errSplitAtStart
  | errEmptyBoundary
  | errNotAdjacent
  | errSameShard
  | errEngine
  | errStateMachine (e : gerr).

Record node (S : Type) := mkNode {
  n_store : S;
  n_calls : nat;                       (** engine calls made so far *)
  n_dir : option (list rangeEntry);    (** cached ranges; [None] in hash-routed mode *)
}.
Arguments mkNode {S}.
Arguments n_store {S}.
Arguments n_calls {S}.
Arguments n_dir {S}.

Definition ctl (S A : Type) : Type := node S → res ctlErr A * node S.

#[export] Instance ctl_ret {S} : MRet (ctl S) := λ A a c, (Ok a, c).
#[export] Instance ctl_bind {S} : MBind (ctl S) := λ A B f m c,
  match m c with
  | (Ok a, c') => f a c'
  | (Err e, c') => (Err e, c')
  end.

Definition ingestBatch : nat := 256.

Section control.
Context {S : Type} `{LocalStore S} `{FloatText} (raft : nat → raftOutcome).

Definition fail {A} (e : ctlErr) : ctl S A := λ c, (Err e, c).

(** The entry [cmd] at [index] on the shard's state machine. *)
Definition applyTo (store : S) (shardID index : Z) (cmd : bytes) : gres (list ProposeResult * S) :=
  if decide (shardID = MetaShardID) then
    do? (rs, m) ← metaUpdate (newBaseSM store shardID) [mkEntry index cmd]; Ok (rs, sm_store m)
  else
    do? (rs, m) ← Update (newBaseSM store shardID) [mkEntry index cmd]; Ok (rs, sm_store m).

(** [Propose], on the un-batched path that control commands take. *)
Definition Propose (shardID : Z) (cmd : bytes) : ctl S ProposeResult := λ c,
  let next st := mkNode st (Datatypes.S (n_calls c)) (n_dir c) in
  match raft (n_calls c) with
  | Dropped => (Err errEngine, next (n_store c))
  | Committed index =>
      match applyTo (n_store c) shardID index cmd with
      | Ok (rs, st) => (Ok (default (mkResult 0 []) (head rs)), next st)
      | Err e => (Err (errStateMachine e), next (n_store c))
      end
  | TimedOut index =>
      match applyTo (n_store c) shardID index cmd with
      | Ok (_, st) => (Err errEngine, next st)
      | Err e => (Err (errStateMachine e), next (n_store c))
      end
  end.

(** A call with no effect on the store: a linearizable read, [StartShard], [waitLeader]. *)
Definition engineCall {A} (f : S → gres A) : ctl S A := λ c,
  let c' := mkNode (n_store c) (Datatypes.S (n_calls c)) (n_dir c) in
  match raft (n_calls c) with
  | Committed _ => match f (n_store c) with Ok a => (Ok a, c') | Err e => (Err (errStateMachine e), c') end
  | _ => (Err errEngine, c')
  end.

Definition setDir (l : list rangeEntry) : ctl S () := λ c,
  (Ok (), mkNode (n_store c) (n_calls c) (Some l)).

Definition Refresh : ctl S () :=
  v ← engineCall (λ st, metaLookup (newBaseSM st MetaShardID) metaListQuery);
  setDir (match v with ARanges l => l | _ => [] end).

Definition StartShard (shardID : Z) : ctl S () := engineCall (λ _, Ok ()).
Definition waitLeader (shardID : Z) : ctl S () := engineCall (λ _, Ok ()).

Definition readRange (shardID : Z) (start stop : bytes) : ctl S (list rawKV) :=
  engineCall (λ st, do? v ← Lookup (newBaseSM st shardID) (migrateScanQuery start stop 0);
                    Ok (match v with ARaw l => l | _ => [] end)).

(** The batches [kvs[off:off+256]], in order. *)
Definition batchOffsets (n : nat) : list nat :=
  (λ i, ingestBatch * i)%nat <$> seq 0 ((n + (ingestBatch - 1)) / ingestBatch).

Fixpoint proposeAll (shard : Z) (cmds : list bytes) : ctl S () :=
  match cmds with
  | [] => mret ()
  | cmd :: cmds' => _ ← Propose shard cmd; proposeAll shard cmds'
  end.

Definition ingestInto (shard : Z) (kvs : list rawKV) : ctl S () :=
  proposeAll shard ((λ off, encodeIngest (take ingestBatch (drop off kvs))) <$> batchOffsets (length kvs)).

Definition cachedRanges : ctl S (list rangeEntry) := λ c, (Ok (default [] (n_dir c)), c).

Definition metaPut (start stop : bytes) (shard : Z) : bytes :=
  encodeMetaCommand (mkMeta opMetaPut start stop shard).
Definition metaDelete (start : bytes) : bytes := encodeMetaCommand (mkMeta opMetaDelete start [] 0).

(** Move the range [[splitKey, old.End)] to [newShard] and cut the directory over. *)
Definition splitRange (splitKey : bytes) (old : rangeEntry) (newShard : Z) : ctl S () :=
  _ ← StartShard newShard;
  _ ← waitLeader newShard;
  _ ← Propose (r_ShardID old) (encodeFreeze splitKey (r_End old));
  kvs ← readRange (r_ShardID old) splitKey (r_End old);
  _ ← ingestInto newShard kvs;
  _ ← Propose MetaShardID (metaPut (r_Start old) splitKey (r_ShardID old));
  _ ← Propose MetaShardID (metaPut splitKey (r_End old) newShard);
  _ ← Propose (r_ShardID old) (encodePurge splitKey (r_End old));
  Refresh.

Definition Split (splitKey : bytes) : ctl S Z := λ c,
  match n_dir c with
  | None => (Err errHashMode, c)
  | Some _ =>
      if lenZ splitKey =? 0 then (Err errEmptySplitKey, c)
      else
        (_ ← Refresh;
         ranges ← cachedRanges;
         match rangeContaining ranges splitKey with
         | None => fail errNoRange
         | Some old =>
             if decide (r_Start old = splitKey) then fail errSplitAtStart
             else
               let newShard := uint64 (maxShardID ranges + 1) in
               _ ← splitRange splitKey old newShard; mret newShard
         end) c
  end.

(** The ranges on the two sides of the boundary: the last match of each wins. *)
Definition adjacent (boundary : bytes) (ranges : list rangeEntry) : option rangeEntry * option rangeEntry :=
  fold_left (λ '(l, r) e,
    (if (0 <? lenZ (r_End e)) && bool_decide (r_End e = boundary) then Some e else l,
     if decide (r_Start e = boundary) then Some e else r)) ranges (None, None).

Definition mergeRange (lft rgt : rangeEntry) : ctl S () :=
  kvs ← readRange (r_ShardID rgt) (r_Start rgt) (r_End rgt);
  _ ← ingestInto (r_ShardID lft) kvs;
  _ ← Propose (r_ShardID lft) (encodeUnfreeze (r_Start rgt) (r_End rgt));
  _ ← Propose MetaShardID (metaPut (r_Start lft) (r_End rgt) (r_ShardID lft));
  _ ← Propose MetaShardID (metaDelete (r_Start rgt));
  _ ← Propose (r_ShardID rgt) (encodePurge (r_Start rgt) (r_End rgt));
  Refresh.

Definition Merge (boundary : bytes) : ctl S () := λ c,
  match n_dir c with
  | None => (Err errHashMode, c)
  | Some _ =>
      if lenZ boundary =? 0 then (Err errEmptyBoundary, c)
      else
        (_ ← Refresh;
         ranges ← cachedRanges;
         match adjacent boundary ranges with
         | (Some lft, Some rgt) =>
             if decide (r_ShardID lft = r_ShardID rgt) then fail errSameShard
             else mergeRange lft rgt
         | _ => fail errNotAdjacent
         end) c
  end.

End control.

(** ** Codecs of the control commands *)

Definition pair_ok (start stop : bytes) : Prop := lenZ start + lenZ stop + 8 < 2 ^ 32.

Lemma decodePurge_pair b start stop :
  pair_ok start stop → decodePurge (appendChunk (appendChunk [b] start) stop) = Ok (start, stop).
Proof.
  intros Hl. unfold pair_ok in Hl. unfold decodePurge. rewrite !appendChunk_chunk, <-!app_assoc.
  destruct (Z.ltb_spec (lenZ ([b] ++ chunk start ++ chunk stop)) 1); [lens|].
  change (drop 1 ([b] ++ chunk start ++ chunk stop)) with (chunk start ++ chunk stop).
  rewrite takeChunk_chunk by lens. cbn [res_bind].
  pose proof (takeChunk_chunk stop []) as E. rewrite !app_nil_r in E. by rewrite E by lens.
Qed.

(** A migrated row small enough that a batch of 256 fits a 32-bit length. *)
Definition kv_small (kv : rawKV) : Prop := lenZ (Suffix kv) + lenZ (RValue kv) + 8 < 2 ^ 24.

Definition encKV (kv : rawKV) : bytes := chunk (Suffix kv) ++ chunk (RValue kv).

Lemma encodeIngest_eq kvs :
  encodeIngest kvs = [opByte opIngest] ++ put_u32 (uint32 (Z.of_nat (length kvs))) ++ concat (encKV <$> kvs).
Proof.
  unfold encodeIngest.
  assert (∀ buf, fold_left (λ buf kv, appendChunk (appendChunk buf (Suffix kv)) (RValue kv)) kvs buf
    = buf ++ concat (encKV <$> kvs)) as E.
  { induction kvs as [|kv kvs IH]; intros buf; simpl; [by rewrite app_nil_r|].
    rewrite IH, !appendChunk_chunk. unfold encKV. by rewrite <-!app_assoc. }
  rewrite E. by rewrite <-app_assoc.
Qed.

Lemma lenZ_encKVs kvs :
  Forall kv_small kvs → lenZ (concat (encKV <$> kvs)) ≤ (2 ^ 24 - 1) * Z.of_nat (length kvs).
Proof.
  induction 1 as [|kv kvs Hkv Hf IH]; [done|]. cbn [fmap list_fmap concat]. unfold encKV, kv_small in *.
  simpl length. lens.
Qed.

Lemma decodeKVs_enc kvs : Forall kv_small kvs → (length kvs ≤ 256)%nat →
  decodeKVs (length kvs) (concat (encKV <$> kvs)) = Ok kvs.
Proof.
  induction 1 as [|kv kvs Hkv Hf IH]; intros Hn; [done|]. pose proof (lenZ_encKVs _ Hf) as Hl.
  simpl length in Hn |- *. cbn [decodeKVs fmap list_fmap concat]. unfold encKV at 1. rewrite <-!app_assoc.
  unfold kv_small in Hkv. rewrite takeChunk_chunk by lens. cbn [res_bind]. rewrite takeChunk_chunk by lens. cbn [res_bind].
  rewrite IH by lia. cbn [res_bind]. by destruct kv.
Qed.

Lemma decodeIngest_encode kvs :
  Forall kv_small kvs → (length kvs ≤ 256)%nat → decodeIngest (encodeIngest kvs) = Ok kvs.
Proof.
  intros Hf Hn. rewrite encodeIngest_eq. unfold decodeIngest.
  match goal with |- context [lenZ ?l <? 5] => destruct (Z.ltb_spec (lenZ l) 5); [lens|] end.
  change (drop 1 ([opByte opIngest] ++ ?x)) with x.
  change (drop 5 ([opByte opIngest] ++ ?x)) with (drop 4 x).
  rewrite get_put_u32 by apply uint32_range. rewrite uint32_id by zlia. rewrite Nat2Z.id.
  rewrite drop_app_field by apply length_put_u32. by apply decodeKVs_enc.
Qed.

(** ** The effect of a control command on the store *)

Definition withOps (l : list StoreOp) (u : updateCtx) : updateCtx :=
  mkCtx (ops u ++ l) (exists_ u) (zscore u) (cardDelta u) (htype u) (vals u) (dedupSeq u) (inBatchDedup u).

Lemma withOps_app l1 l2 u : withOps l2 (withOps l1 u) = withOps (l1 ++ l2) u.
Proof. unfold withOps. simpl. by rewrite app_assoc. Qed.
Lemma withOps_nil u : withOps [] u = u.
Proof. unfold withOps. rewrite app_nil_r. by destruct u. Qed.

Lemma mfold_addOps {A} (f : () → A → M ()) (g : A → StoreOp) l u :
  (∀ a, f () a = addOp (g a)) → mfold f () l u = (Ok (), withOps (g <$> l) u).
Proof.
  intros Hf. revert u. induction l as [|a l IH]; intros u; [cbn; by rewrite withOps_nil|].
  cbn [mfold]. rewrite Hf. unfold mbind, M_bind. simpl. rewrite IH. unfold withOps. simpl. by rewrite <-app_assoc.
Qed.

Section effects.
Context {S : Type} `{LocalStoreSpec S} `{FloatText} (s : baseSM S) (Hlive : ls_live (sm_store s)).
Local Abbreviation p_ := (sm_prefix s).

Definition appliedOp (idx : Z) : StoreOp := putOp CFReplData (appliedKey p_) (put_u64 idx).

Lemma Update_control cmd idx os r :
  (∀ fz u, applyEntryBody s cmd fz u = (Ok r, withOps os u)) → Forall (λ op, op_CF op = CFReplData) os →
  ∃ st, Update s [mkEntry idx cmd] = Ok ([r], with_store s st) ∧ ls_live st ∧
    ∀ cf, cf_valid cf = true → ls_view st cf = apply_ops cf (os ++ [appliedOp idx]) (ls_view (sm_store s) cf).
Proof.
  intros Hb Hos. destruct (startCtx_ok s Hlive) as (fz & seq & _ & Hfz & Hseq). unfold Update. cbn [last].
  rewrite Hfz, Hseq. cbn [res_bind applyEntries]. unfold applyEntrySafe. cbn [e_Cmd]. rewrite Hb. cbn [res_bind].
  cbn [withOps dedupSeq set_dedupSeq emptyCtx cardDelta ops]. rewrite Z.eqb_refl, map_to_list_empty. cbn [cardOps res_bind].
  rewrite !app_nil_l. destruct (ls_BatchRC_ok (sm_store s) (os ++ [appliedOp idx])) as (st & E & Hst & Hv); [done| |].
  { apply Forall_app. split; [|by apply Forall_singleton]. eapply Forall_impl; [exact Hos|]. by intros op ->. }
  cbn [e_Index]. fold (appliedOp idx). rewrite E. cbn [fatal_res res_bind]. exists st. by split_and!.
Qed.

Lemma body_freeze start stop fz u :
  pair_ok start stop →
  applyEntryBody s (encodeFreeze start stop) fz u =
    (Ok (mkResult 1 []), withOps [putOp CFReplData (frozenKey p_ start) stop] u).
Proof using Type.
  intros Hl. unfold applyEntryBody. change (opKindOf <$> head (encodeFreeze start stop)) with (Some opFreeze).
  rewrite decide_False by (by intros [?|?]). rewrite decide_True by (by left).
  unfold applyFreeze. assert (decodePurge (encodeFreeze start stop) = Ok (start, stop)) as -> by (by apply decodePurge_pair). reflexivity.
Qed.

Lemma body_unfreeze start stop fz u :
  pair_ok start stop →
  applyEntryBody s (encodeUnfreeze start stop) fz u =
    (Ok (mkResult 1 []), withOps [delOp CFReplData (frozenKey p_ start)] u).
Proof using Type.
  intros Hl. unfold applyEntryBody. change (opKindOf <$> head (encodeUnfreeze start stop)) with (Some opUnfreeze).
  rewrite decide_False by (by intros [?|?]). rewrite decide_True by (by right).
  unfold applyFreeze. assert (decodePurge (encodeUnfreeze start stop) = Ok (start, stop)) as -> by (by apply decodePurge_pair). reflexivity.
Qed.

Definition ingestOp (kv : rawKV) : StoreOp := putOp CFReplData (p_ ++ Suffix kv) (RValue kv).
Definition purgeOp (kv : rawKV) : StoreOp := delOp CFReplData (p_ ++ Suffix kv).

Lemma body_ingest kvs fz u :
  Forall kv_small kvs → (length kvs ≤ 256)%nat →
  applyEntryBody s (encodeIngest kvs) fz u =
    (Ok (mkResult (uint64 (Z.of_nat (length kvs))) []), withOps (ingestOp <$> kvs) u).
Proof using Type.
  intros Hf Hn. unfold applyEntryBody.
  assert (opKindOf <$> head (encodeIngest kvs) = Some opIngest) as -> by (by rewrite encodeIngest_eq).
  rewrite decide_True by (by left). unfold applyMigrate.
  destruct (encodeIngest kvs) as [|b tl] eqn:E; [by rewrite encodeIngest_eq in E|].
  assert (opKindOf b = opIngest) as ->.
  { rewrite encodeIngest_eq in E. by apply cons_eq_inv in E as [<- _]. }
  rewrite <-E, decodeIngest_encode by done. unfold mbind, M_bind, lift.
  rewrite (mfold_addOps _ ingestOp) by done. done.
Qed.

(** The rows of the shard whose route is in the range. *)
Definition routedRows (start stop : bytes) : list rawKV :=
  rangeRows p_ start stop (newSliceIterator (base s) (Some p_) (prefixEnd p_) 0).

Lemma body_purge start stop fz u :
  pair_ok start stop →
  applyEntryBody s (encodePurge start stop) fz u =
    (Ok (mkResult (uint64 (Z.of_nat (length (routedRows start stop)))) []), withOps (purgeOp <$> routedRows start stop) u).
Proof.
  intros Hl. unfold applyEntryBody. change (opKindOf <$> head (encodePurge start stop)) with (Some opPurge).
  rewrite decide_True by (by right). unfold applyMigrate.
  change (encodePurge start stop) with (opByte opPurge :: tail (encodePurge start stop)) at 1.
  cbn [opKindOf opByte]. change (opKindOf (opByte opPurge)) with opPurge. cbv iota.
  unfold encodePurge. rewrite decodePurge_pair, ls_Scan_ok by done. unfold mbind, M_bind, lift. cbn [fatal_res].
  fold (base s) (routedRows start stop). rewrite (mfold_addOps _ purgeOp) by done. done.
Qed.

Lemma readRange_ok start stop :
  Lookup s (migrateScanQuery start stop 0) = Ok (ARaw (routedRows start stop)).
Proof.
  unfold Lookup. destruct (ls_Snapshot_ok (sm_store s) Hlive) as (sn & -> & Hsn). cbn [store_res res_bind].
  unfold scanRange. rewrite sn_Scan_ok, Hsn by done. done.
Qed.

Lemma elem_of_routedRows start stop kv :
  kv ∈ routedRows start stop ↔
  base s !! (p_ ++ Suffix kv) = Some (RValue kv) ∧ ∃ rk, routeKeyOf (Suffix kv) = Some rk ∧ inRoute rk start stop = true.
Proof using Type.
  unfold routedRows, rangeRows. rewrite list_elem_of_omap. split.
  - intros ([k v] & Hin & E). apply elem_of_prefix_scan in Hin as [Hk [suf ->]]. rewrite drop_app_length in E.
    destruct (routeKeyOf suf) as [rk|] eqn:Er; [|done]. destruct (inRoute rk start stop) eqn:Ei; [|done].
    injection E as <-. simpl. eauto.
  - intros (Hk & rk & Er & Ei). exists (p_ ++ Suffix kv, RValue kv). split.
    + apply elem_of_prefix_scan. split; [done|by apply prefix_app_r].
    + rewrite drop_app_length, Er, Ei. by destruct kv.
Qed.

End effects.

(** ** A program logic for the control plane

    [hoare P m Q E]: from a store and cached directory in [P], [m] ends in [Q] when it
    returns; it fails only when the engine fails a call, and then it ends in [E]. *)

Definition allCommitted (raft : nat → raftOutcome) : Prop := ∀ i, ∃ idx, raft i = Committed idx.

Section logic.
Context {S : Type} `{LocalStoreSpec S} `{FloatText} (raft : nat → raftOutcome).

Definition assn : Type := S → option (list rangeEntry) → Prop.

Definition hoare {A} (P : assn) (m : ctl S A) (Q : A → assn) (E : assn) : Prop :=
  ∀ c, P (n_store c) (n_dir c) →
  match m c with
  | (Ok a, c') => Q a (n_store c') (n_dir c')
  | (Err e, c') => E (n_store c') (n_dir c') ∧ e = errEngine ∧ ¬ allCommitted raft
  end.

Lemma hoare_ret {A} (a : A) (Q : A → assn) E : hoare (Q a) (mret a) Q E.
Proof. by intros c. Qed.

Lemma hoare_bind {A B} (m : ctl S A) (f : A → ctl S B) P R Q E :
  hoare P m R E → (∀ a, hoare (R a) (f a) Q E) → hoare P (m ≫= f) Q E.
Proof.
  intros Hm Hf c Hc. specialize (Hm c Hc). unfold mbind, ctl_bind.
  destruct (m c) as [[a|e] c']; [|done]. by apply Hf.
Qed.

Lemma hoare_conseq {A} (m : ctl S A) (P P' : assn) (Q Q' : A → assn) (E : assn) :
  hoare P m Q E → (∀ st d, P' st d → P st d) → (∀ a st d, Q a st d → Q' a st d) → hoare P' m Q' E.
Proof. intros Hm HP HQ c Hc. specialize (Hm c (HP _ _ Hc)). destruct (m c) as [[a|e] c']; auto. Qed.

Lemma hoare_pure {A} (P : assn) (X : Prop) (m : ctl S A) (Q : A → assn) E :
  (X → hoare P m Q E) → hoare (λ st d, P st d ∧ X) m Q E.
Proof. intros Hm c [Hc HX]. by apply Hm. Qed.

Lemma hoare_propose sh cmd (P Q E : assn) :
  (∀ st d idx, P st d → E st d ∧ ∃ rs st', applyTo st sh idx cmd = Ok (rs, st') ∧ Q st' d ∧ E st' d) →
  hoare P (Propose raft sh cmd) (λ _, Q) E.
Proof.
  intros HP c Hc. unfold Propose. destruct (raft (n_calls c)) as [idx| |idx] eqn:Er.
  - destruct (HP _ _ idx Hc) as (_ & rs & st' & -> & HQ & _). done.
  - destruct (HP _ _ 0 Hc) as (HE & _). split_and!; [done|done|]. intros Ha. destruct (Ha (n_calls c)). congruence.
  - destruct (HP _ _ idx Hc) as (_ & rs & st' & -> & _ & HE). split_and!; [done|done|].
    intros Ha. destruct (Ha (n_calls c)). congruence.
Qed.

Lemma hoare_engine {A} (f : S → gres A) (P : assn) (Q : A → assn) (E : assn) :
  (∀ st d, P st d → E st d ∧ ∃ a, f st = Ok a ∧ Q a st d) → hoare P (engineCall raft f) Q E.
Proof.
  intros HP c Hc. unfold engineCall. destruct (HP _ _ Hc) as (HE & a & Ea & HQ).
  destruct (raft (n_calls c)) eqn:Er; [by rewrite Ea|split_and!; try done..];
    intros Ha; destruct (Ha (n_calls c)); congruence.
Qed.

(** ** Rows and prefixes *)

Definition viewOf (st : S) : gmap bytes bytes := ls_view st CFReplData.

Lemma prefix_row sh sh' suf suf' :
  in_u64 sh → in_u64 sh' → put_u64 sh ++ suf = put_u64 sh' ++ suf' → sh = sh' ∧ suf = suf'.
Proof.
  intros Ha Hb E. apply app_inj_1 in E as [E ->]; [|by rewrite !length_put_u64].
  split; [by apply put_u64_inj in E|done].
Qed.

Lemma prefix_off sh sh' (k suf : bytes) :
  in_u64 sh → in_u64 sh' → sh ≠ sh' → put_u64 sh `prefix_of` k → k ≠ put_u64 sh' ++ suf.
Proof. intros Ha Hb Hne [r ->] E. by apply prefix_row in E as [? _]. Qed.

(** A control command on a data shard. *)
Lemma data_effect st sh idx cmd os r :
  ls_live st → sh ≠ MetaShardID →
  (∀ fz u, applyEntryBody (newBaseSM st sh) cmd fz u = (Ok r, withOps os u)) →
  Forall (λ op, op_CF op = CFReplData) os →
  ∃ rs st', applyTo st sh idx cmd = Ok (rs, st') ∧ ls_live st' ∧
    viewOf st' = <[appliedKey (put_u64 sh) := put_u64 idx]> (apply_ops CFReplData os (viewOf st)).
Proof.
  intros Hl Hsh Hb Hos. unfold applyTo. rewrite decide_False by done.
  destruct (Update_control (newBaseSM st sh) Hl cmd idx os r Hb Hos) as (st' & -> & Hst & Hv). cbn [res_bind].
  exists [r], st'. split_and!; [done|done|]. unfold viewOf. rewrite Hv, apply_ops_app by done. done.
Qed.

(** A command on the meta shard. *)
Lemma meta_effect st idx c D :
  ls_live st → knownMetaOp c → metaCommand_ok c → dir_at (put_u64 MetaShardID) (viewOf st) D →
  ∃ rs st', applyTo st MetaShardID idx (encodeMetaCommand c) = Ok (rs, st') ∧ ls_live st' ∧
    dir_at (put_u64 MetaShardID) (viewOf st') (metaStep D c) ∧
    ∀ k, ¬ put_u64 MetaShardID `prefix_of` k → viewOf st' !! k = viewOf st !! k.
Proof.
  intros Hl Hk Hc HD. unfold applyTo. rewrite decide_True by done.
  destruct (metaUpdate_ok (newBaseSM st MetaShardID) Hl [mkEntry idx (encodeMetaCommand c)] [c] D)
    as (rs & st' & -> & _ & Hst & HD' & Hoff); [|done|].
  { constructor; [|done]. cbn [e_Cmd]. by rewrite decode_encode_meta. }
  cbn [res_bind]. by exists rs, st'.
Qed.

End logic.

(** ** Splitting *)

Lemma maxShardID_le l r : r ∈ l → r_ShardID r ≤ maxShardID l.
Proof.
  unfold maxShardID. assert (∀ l mx, mx ≤ fold_left (λ mx r, if mx <? r_ShardID r then r_ShardID r else mx) l mx) as Hmx.
  { intros l'. induction l' as [|x l' IH]; intros mx; simpl; [lia|]. etransitivity; [|apply IH].
    destruct (Z.ltb_spec mx (r_ShardID x)); lia. }
  generalize 0. induction l as [|x l IH]; intros mx; simpl; [by intros ?%elem_of_nil|].
  rewrite elem_of_cons. intros [->|Hin]; [|by apply IH]. etransitivity; [|apply Hmx].
  destruct (Z.ltb_spec mx (r_ShardID x)); lia.
Qed.

(** A suffix of a migratable row. *)
Definition routable (suf rk : bytes) : Prop := routeKeyOf suf = Some rk.

Lemma routable_not_meta r rk : ¬ routable (subMeta :: r) rk.
Proof. done. Qed.

(** The rows of a collection by the layout of their keys: everything in its scope of the data
    space (type, cardinality, elements, score and expiry pointers, a budget's pool, leases and
    tombstones), and its rows in the index of expiring members. *)
Definition collRow (ns coll suf : bytes) : Prop :=
  lenZ suf < 2 ^ 32 ∧ ((∃ scope rest, suf = dkey [] scope ns coll rest) ∨ ∃ t rest, suf = ikey [] subTTL t ns coll rest).

Lemma collRow_routable ns coll suf : collRow ns coll suf → routable suf (routeKey ns coll).
Proof.
  intros [Hlen [(scope & rest & ->)|(t & rest & ->)]]; unfold routable, routeKeyOf, dkey, ikey in *; cbn [app] in *.
  - rewrite decide_True by done. cbn [mbind option_bind]. rewrite !takeChunk_chunk by lens. done.
  - rewrite decide_False, decide_True by done. destruct (Z.ltb_spec (lenZ (subTTL :: put_u64 t ++ chunk ns ++ chunk coll ++ rest)) 9); [lens|].
    cbn [mbind option_bind drop]. rewrite (drop_app_field 8) by apply length_put_u64. rewrite !takeChunk_chunk by lens. done.
Qed.

Definition kvmap (kvs : list rawKV) : gmap bytes bytes := list_to_map ((λ kv, (Suffix kv, RValue kv)) <$> kvs).

Lemma kvmap_None kvs suf : (∀ kv, kv ∈ kvs → Suffix kv ≠ suf) → kvmap kvs !! suf = None.
Proof.
  intros Hn. apply not_elem_of_list_to_map_1. intros (x & Ex & Hin)%list_elem_of_fmap.
  apply list_elem_of_fmap in Hin as (kv & -> & Hin). simpl in Ex. by eapply Hn.
Qed.

Lemma kvmap_Some kvs kv : NoDup (Suffix <$> kvs) → kv ∈ kvs → kvmap kvs !! Suffix kv = Some (RValue kv).
Proof.
  intros Hnd Hin. apply elem_of_list_to_map_1.
  - by rewrite <-list_fmap_compose.
  - apply list_elem_of_fmap. by exists kv.
Qed.

(** Ingesting rows whose suffixes are distinct. *)
Lemma apply_ingest (p : bytes) (kvs : list rawKV) (m : gmap bytes bytes) suf :
  NoDup (Suffix <$> kvs) →
  apply_ops CFReplData ((λ kv, putOp CFReplData (p ++ Suffix kv) (RValue kv)) <$> kvs) m !! (p ++ suf) =
    match kvmap kvs !! suf with Some v => Some v | None => m !! (p ++ suf) end.
Proof.
  revert m. induction kvs as [|kv kvs IH]; intros m Hnd; [done|]. cbn [fmap list_fmap] in Hnd |- *.
  apply NoDup_cons in Hnd as [Hni Hnd].
  change (apply_ops CFReplData (putOp CFReplData (p ++ Suffix kv) (RValue kv) :: ?l) m) with
    (apply_ops CFReplData l (<[p ++ Suffix kv := RValue kv]> m)).
  rewrite IH by done. change (kvmap (kv :: kvs)) with (<[Suffix kv := RValue kv]> (kvmap kvs)).
  destruct (decide (suf = Suffix kv)) as [->|Hne].
  - rewrite lookup_insert_eq, kvmap_None; [by rewrite lookup_insert_eq|].
    intros kv' Hin E. apply Hni, list_elem_of_fmap. by exists kv'.
  - rewrite (lookup_insert_ne (kvmap kvs)) by congruence. case_match; [done|]. rewrite lookup_insert_ne; [done|].
    intros E%app_inv_head. congruence.
Qed.

Lemma apply_purge (p : bytes) (kvs : list rawKV) (m : gmap bytes bytes) suf :
  apply_ops CFReplData ((λ kv, delOp CFReplData (p ++ Suffix kv)) <$> kvs) m !! (p ++ suf) =
    if decide (suf ∈ (Suffix <$> kvs)) then None else m !! (p ++ suf).
Proof.
  revert m. induction kvs as [|kv kvs IH]; intros m; [done|]. cbn [fmap list_fmap].
  change (apply_ops CFReplData (delOp CFReplData (p ++ Suffix kv) :: ?l) m) with
    (apply_ops CFReplData l (delete (p ++ Suffix kv) m)).
  rewrite IH. destruct (decide (suf ∈ (Suffix <$> kvs))) as [Hin|Hni].
  - rewrite decide_True; [done|by right].
  - destruct (decide (suf = Suffix kv)) as [->|Hne].
    + rewrite decide_True by (by left). by rewrite lookup_delete_eq.
    + rewrite decide_False by (intros [?|?]%elem_of_cons; done). rewrite lookup_delete_ne; [done|].
      intros E%app_inv_head. congruence.
Qed.

Lemma NoDup_routedRows {S} `{LocalStoreSpec S} (s : baseSM S) start stop : NoDup (Suffix <$> routedRows s start stop).
Proof.
  unfold routedRows, rangeRows. pose proof (stripped_scan_NoDup (sm_prefix s) (base s)) as Hnd. unfold stripped in Hnd.
  set (f := λ '(k, v), _ : option rawKV).
  assert (∀ k v kv, f (k, v) = Some kv → Suffix kv = drop (length (sm_prefix s)) k) as Hf.
  { intros k v kv. unfold f. repeat case_match; try done. by intros [= <-]. }
  clearbody f. induction (newSliceIterator _ _ _ _) as [|[k v] rows IH]; [constructor|].
  cbn [fmap list_fmap omap list_omap] in Hnd |- *. apply NoDup_cons in Hnd as [Hni Hnd]. specialize (IH Hnd).
  destruct (f (k, v)) as [kv|] eqn:E; [|done]. cbn [fmap list_fmap]. constructor; [|done]. rewrite (Hf _ _ _ E).
  intros (kv' & E' & Hin)%list_elem_of_fmap. apply list_elem_of_omap in Hin as ([k' v'] & Hin & E2).
  apply Hni. rewrite (Hf _ _ _ E2) in E'. simpl. rewrite E'.
  rewrite <-list_fmap_compose. apply list_elem_of_fmap. exists (k', v'). by split.
Qed.

(** The batches of an ingest are the rows, in order. *)
Lemma batches_concat {A} (l : list A) :
  concat ((λ off, take ingestBatch (drop off l)) <$> batchOffsets (length l)) = l.
Proof.
  unfold batchOffsets. set (n := ((length l + (ingestBatch - 1)) / ingestBatch)%nat).
  assert (∀ k, concat ((λ off, take ingestBatch (drop off l)) <$> ((λ i, ingestBatch * i)%nat <$> seq 0 k)) = take (ingestBatch * k) l) as E.
  { intros k. induction k as [|k IH]; [by rewrite Nat.mul_0_r|].
    rewrite seq_S, !fmap_app, concat_app, IH. cbn [fmap list_fmap concat Nat.add]. rewrite app_nil_r.
    rewrite Nat.mul_succ_r. by rewrite take_take_drop. }
  rewrite E. apply take_ge. unfold n. pose proof (Nat.div_mod_eq (length l + (ingestBatch - 1)) ingestBatch).
  pose proof (Nat.mod_upper_bound (length l + (ingestBatch - 1)) ingestBatch ltac:(done)).
  unfold ingestBatch in *. lia.
Qed.

Section split.
Context {S : Type} `{LocalStoreSpec S} `{FloatText} (raft : nat → raftOutcome).
Context (V0 : gmap bytes bytes) (D : dirMap) (l : list rangeEntry) (key : bytes) (r : rangeEntry) (n : Z).

Definition row (V : gmap bytes bytes) (sh : Z) (suf : bytes) : option bytes := V !! (put_u64 sh ++ suf).

(** What a split assumes: a directory without gaps, a key inside a range, a shard id
    that has no data yet, and rows that fit an ingest batch. *)
Record splitPre : Prop := {
  sp_dir : dir_at (put_u64 MetaShardID) V0 D;
  sp_lists : lists l D;
  sp_tiling : tiling l;
  sp_range : rangeContaining l key = Some r;
  sp_start : key ≠ r_Start r;
  sp_key : key ≠ [];
  sp_n : in_u64 n;
  sp_nmeta : n ≠ MetaShardID;
  sp_nold : n ≠ r_ShardID r;
  sp_oldmeta : r_ShardID r ≠ MetaShardID;
  sp_fresh : ∀ suf rk, routable suf rk → row V0 n suf = None;
  sp_small : map_Forall (λ k v, lenZ k + lenZ v + 8 < 2 ^ 24) V0;
  sp_keylen : lenZ key < 2 ^ 24;
}.
Context (Hpre : splitPre).

Local Abbreviation old := (r_ShardID r).
Local Abbreviation stop := (r_End r).
Local Abbreviation metaP := (put_u64 MetaShardID).

(** The rows of the other shards are as they were. *)
Definition intact (V : gmap bytes bytes) : Prop :=
  ∀ sh suf rk, in_u64 sh → sh ≠ MetaShardID → sh ≠ n → routable suf rk → row V sh suf = row V0 sh suf.
(** The new shard has the given rows. *)
Definition fed (kvs : list rawKV) (V : gmap bytes bytes) : Prop :=
  ∀ suf rk, routable suf rk → row V n suf = kvmap kvs !! suf.
(** The new shard has the rows of the moved range. *)
Definition full (V : gmap bytes bytes) : Prop :=
  ∀ suf rk, routable suf rk → row V n suf = if inRoute rk key stop then row V0 old suf else None.
(** The old shard has lost the rows of the moved range, and nothing else has changed. *)
Definition moved (V : gmap bytes bytes) : Prop :=
  ∀ sh suf rk, in_u64 sh → sh ≠ MetaShardID → sh ≠ n → routable suf rk →
    row V sh suf = if bool_decide (sh = old) && inRoute rk key stop then None else row V0 sh suf.
Definition frozen (V : gmap bytes bytes) : Prop := V !! frozenKey (put_u64 old) key = Some stop.

Definition Dgap : dirMap := <[r_Start r := (key, old)]> D.
Definition Dsplit : dirMap := <[key := (stop, n)]> Dgap.

Definition staged (D1 : dirMap) (R : gmap bytes bytes → Prop) : assn :=
  λ st _, ls_live st ∧ dir_at metaP (viewOf st) D1 ∧ R (viewOf st).

(** Where a failed split can leave the node. *)
Definition aborted : assn := λ st _, ls_live st ∧
  ((dir_at metaP (viewOf st) D ∧ intact (viewOf st)) ∨
   (dir_at metaP (viewOf st) Dgap ∧ intact (viewOf st) ∧ full (viewOf st)) ∨
   (dir_at metaP (viewOf st) Dsplit ∧ full (viewOf st) ∧ (intact (viewOf st) ∨ moved (viewOf st)))).

Lemma old_range : in_u64 old ∧ lenZ (r_Start r) < 2 ^ 24 ∧ lenZ stop < 2 ^ 24.
Proof.
  destruct Hpre as [[Hd Hv] [_ Hl] _ Hr _ _ _ _ _ _ _ Hs _]. apply rangeContaining_in in Hr as [Hin _].
  apply Hl in Hin. pose proof (Hv _ _ Hin) as [_ Hu]. split; [done|].
  specialize (Hd (r_Start r)). rewrite Hin in Hd. apply Hs in Hd. unfold rangeVal in Hd. rewrite rangeKey_app in Hd.
  simpl in Hd. lens.
Qed.

Lemma split_pair : pair_ok key stop.
Proof. destruct old_range as (_ & _ & Hs). pose proof (sp_keylen Hpre). unfold pair_ok. lens. Qed.

(** The effect of a data command on rows, freezes and the directory. *)
Lemma data_rows sh idx os V V' :
  in_u64 sh → sh ≠ MetaShardID → Forall (λ op, put_u64 sh `prefix_of` op_Key op) os →
  V' = <[appliedKey (put_u64 sh) := put_u64 idx]> (apply_ops CFReplData os V) →
  (∀ D1, dir_at metaP V D1 → dir_at metaP V' D1) ∧
  (∀ sh' suf, in_u64 sh' → sh' ≠ sh → row V' sh' suf = row V sh' suf) ∧
  (∀ suf rk, routable suf rk → row V' sh suf = apply_ops CFReplData os V !! (put_u64 sh ++ suf)) ∧
  V' !! frozenKey (put_u64 old) key = apply_ops CFReplData os V !! frozenKey (put_u64 old) key.
Proof.
  intros Hu Hm Hos ->.
  assert (∀ sh' suf, in_u64 sh' → sh' ≠ sh → row (<[appliedKey (put_u64 sh) := put_u64 idx]> (apply_ops CFReplData os V)) sh' suf = row V sh' suf) as Hoff.
  { intros sh' suf Hu' Hne. assert (sh ≠ sh') by congruence. unfold row. rewrite lookup_insert_ne.
    - apply apply_ops_lookup_ne. eapply Forall_impl; [exact Hos|]. intros op Hp. by apply (prefix_off sh sh').
    - apply (prefix_off sh sh'); try done. by apply prefix_app_r. }
  split_and!.
  - intros D1 [Hd Hv]. split; [|done]. intros start. rewrite <-Hd, !rangeKey_app. by apply (Hoff MetaShardID).
  - done.
  - intros suf rk Hr. unfold row. rewrite lookup_insert_ne; [done|]. unfold appliedKey. intros E%app_inv_head.
    subst suf. by apply routable_not_meta in Hr.
  - rewrite lookup_insert_ne; [done|]. unfold appliedKey, frozenKey, frozenSpace. intros E.
    rewrite <-!app_assoc in E. destruct (decide (sh = old)) as [->|Hne].
    + apply app_inv_head in E. by apply cons_eq_inv in E as [_ E].
    + by apply prefix_row in E as [? _]; [|done|apply old_range].
Qed.

(** The rows a scan of the old shard returns. *)
Definition scanned (kvs : list rawKV) : Prop :=
  NoDup (Suffix <$> kvs) ∧ Forall kv_small kvs ∧
  ∀ kv, kv ∈ kvs ↔ row V0 old (Suffix kv) = Some (RValue kv) ∧
    ∃ rk, routable (Suffix kv) rk ∧ inRoute rk key stop = true.

Lemma intact_old V suf rk : intact V → routable suf rk → row V old suf = row V0 old suf.
Proof.
  intros Hi Hr. apply (Hi old suf rk); [apply old_range|apply Hpre| |done].
  intros E. by apply (sp_nold Hpre).
Qed.

Lemma scanned_rows st : intact (viewOf st) → scanned (routedRows (newBaseSM st old) key stop).
Proof.
  intros Hi. destruct old_range as (Hu & _).
  assert (∀ kv, kv ∈ routedRows (newBaseSM st old) key stop ↔ row V0 old (Suffix kv) = Some (RValue kv) ∧
    ∃ rk, routable (Suffix kv) rk ∧ inRoute rk key stop = true) as Hin.
  { intros kv. rewrite elem_of_routedRows. change (base (newBaseSM st old)) with (viewOf st).
    change (sm_prefix (newBaseSM st old)) with (put_u64 old).
    fold (row (viewOf st) old (Suffix kv)).
    split; intros (Hk & rk & Hr & Hir); (split; [|by exists rk]); by rewrite <-Hk, (intact_old _ _ rk Hi). }
  split_and!; [apply NoDup_routedRows| |exact Hin]. apply Forall_forall. intros kv [Hk _]%Hin.
  apply (sp_small Hpre) in Hk. unfold kv_small. lens.
Qed.

Lemma scanned_full kvs V : scanned kvs → fed kvs V → full V.
Proof.
  intros (Hnd & _ & Hin) Hf suf rk Hr. rewrite (Hf _ _ Hr). destruct (inRoute rk key stop) eqn:Ei.
  - destruct (row V0 old suf) as [v|] eqn:Ev.
    + apply (kvmap_Some kvs (mkRawKV suf v)); [done|]. apply Hin. eauto.
    + apply kvmap_None. intros kv [Hk _]%Hin <-. congruence.
  - apply kvmap_None. intros kv (_ & rk' & Hr' & Ei')%Hin <-. unfold routable in *. congruence.
Qed.

(** Each step, with the states in which it can leave the node when it fails. *)

Lemma aborted_intact st d : ls_live st → dir_at metaP (viewOf st) D → intact (viewOf st) → aborted st d.
Proof. intros Hl Hd Hi. split; [done|]. by left. Qed.

Lemma aborted_start R st d : (∀ V, R V → intact V) → staged D R st d → aborted st d.
Proof. intros HR (Hl & Hd & HV). split; [done|]. left. auto. Qed.

Lemma step_engine {A} (f : S → gres A) a :
  (∀ st, f st = Ok a) → ∀ R, (∀ V, R V → intact V) → hoare raft (staged D R) (engineCall raft f) (λ _, staged D R) aborted.
Proof. intros Hf R HR. apply hoare_engine. intros st d Hst. split; [by apply (aborted_start R)|]. by exists a. Qed.

Lemma step_freeze :
  hoare raft (staged D (λ V, intact V ∧ fed [] V)) (Propose raft old (encodeFreeze key stop))
    (λ _, staged D (λ V, intact V ∧ fed [] V ∧ frozen V)) aborted.
Proof.
  destruct old_range as (Hu & _). apply hoare_propose. intros st d idx (Hl & Hd & Hi & Hf).
  split; [by apply aborted_intact|].
  destruct (data_effect st old idx (encodeFreeze key stop) [putOp CFReplData (frozenKey (put_u64 old) key) stop] (mkResult 1 []))
    as (rs & st' & E & Hl' & HV); [done|apply Hpre|intros; apply body_freeze, split_pair|by apply Forall_singleton|].
  assert (put_u64 old `prefix_of` frozenKey (put_u64 old) key) as Hpfx.
  { unfold frozenKey, frozenSpace. rewrite <-!app_assoc. by apply prefix_app_r. }
  destruct (λ Hp, data_rows old idx _ _ _ Hu (sp_oldmeta Hpre) Hp HV) as (R1 & R2 & R3 & R4); [by apply Forall_singleton|].
  assert (intact (viewOf st') ∧ fed [] (viewOf st') ∧ frozen (viewOf st')) as Hq.
  { split_and!.
    - intros sh suf rk Hsh Hm Hn Hr. destruct (decide (sh = old)) as [->|Hne].
      + rewrite (R3 _ _ Hr), apply_ops_lookup_ne; [by eapply Hi|]. apply Forall_singleton. simpl.
        unfold frozenKey, frozenSpace. rewrite <-!app_assoc. intros Ek%app_inv_head. subst suf. by apply routable_not_meta in Hr.
      + rewrite R2 by done. by eapply Hi.
    - intros suf rk Hr. rewrite R2; [by eapply Hf|apply Hpre|apply Hpre].
    - unfold frozen. rewrite R4. change (<[frozenKey (put_u64 old) key := stop]> (viewOf st) !! frozenKey (put_u64 old) key = Some stop).
      by rewrite lookup_insert_eq. }
  exists rs, st'. split; [done|]. split; [|apply aborted_intact; [done|by apply R1|tauto]].
  split; [done|]. split; [by apply R1|done].
Qed.

Lemma step_read :
  hoare raft (staged D (λ V, intact V ∧ fed [] V ∧ frozen V)) (readRange raft old key stop)
    (λ kvs st d, staged D (λ V, intact V ∧ fed [] V ∧ frozen V) st d ∧ scanned kvs) aborted.
Proof.
  apply hoare_engine. intros st d Hst. destruct Hst as (Hl & Hd & Hi & Hf). split; [by apply aborted_intact|]. exists (routedRows (newBaseSM st old) key stop).
  rewrite readRange_ok by done. split; [done|]. split; [|by apply scanned_rows]. split; [done|]. by split.
Qed.

Lemma step_ingest kvs kvs1 :
  Forall kv_small kvs → (length kvs ≤ 256)%nat → NoDup (Suffix <$> kvs1 ++ kvs) →
  hoare raft (staged D (λ V, intact V ∧ fed kvs1 V ∧ frozen V)) (Propose raft n (encodeIngest kvs))
    (λ _, staged D (λ V, intact V ∧ fed (kvs1 ++ kvs) V ∧ frozen V)) aborted.
Proof.
  intros Hs Hlen Hnd. pose proof (sp_n Hpre) as Hun. apply hoare_propose. intros st d idx (Hl & Hd & Hi & Hf & Hz).
  split; [by apply aborted_intact|].
  destruct (data_effect st n idx (encodeIngest kvs) (ingestOp (newBaseSM st n) <$> kvs)
    (mkResult (uint64 (Z.of_nat (length kvs))) [])) as (rs & st' & E & Hl' & HV);
    [done|apply Hpre|intros; by apply body_ingest|by apply Forall_fmap, Forall_true|].
  destruct (λ Hp, data_rows n idx _ _ _ Hun (sp_nmeta Hpre) Hp HV) as (R1 & R2 & R3 & R4).
  { apply Forall_fmap, Forall_true. intros kv. by apply prefix_app_r. }
  assert (intact (viewOf st') ∧ fed (kvs1 ++ kvs) (viewOf st') ∧ frozen (viewOf st')) as Hq.
  { split_and!.
    - intros sh suf rk Hsh Hm Hn Hr. rewrite R2 by done. by eapply Hi.
    - intros suf rk Hr. rewrite (R3 _ _ Hr). rewrite fmap_app in Hnd. apply NoDup_app in Hnd as (Hn1 & Hdis & Hn2).
      etransitivity; [apply (apply_ingest (put_u64 n) kvs); done|]. fold (row (viewOf st) n suf). rewrite (Hf _ _ Hr).
      unfold kvmap. rewrite fmap_app, list_to_map_app, lookup_union. fold (kvmap kvs1) (kvmap kvs).
      destruct (kvmap kvs !! suf) as [v|] eqn:Ev, (kvmap kvs1 !! suf) as [v1|] eqn:Ev1; try done.
      apply elem_of_list_to_map_2, list_elem_of_fmap in Ev as (kv & Ek & Hin).
      apply elem_of_list_to_map_2, list_elem_of_fmap in Ev1 as (kv1 & Ek1 & Hin1). simplify_eq.
      exfalso. eapply Hdis; apply list_elem_of_fmap; eauto.
    - unfold frozen. rewrite R4, apply_ops_lookup_ne; [done|]. apply Forall_fmap, Forall_true. intros kv.
      unfold frozenKey, frozenSpace. rewrite <-!app_assoc. intros Ek. apply prefix_row in Ek as [En _]; [|done|apply old_range].
      by apply (sp_nold Hpre). }
  exists rs, st'. split; [done|]. split; [|apply aborted_intact; [done|by apply R1|tauto]].
  split; [done|]. split; [by apply R1|done].
Qed.

Lemma step_ingest_all bs kvs1 :
  Forall (λ b, Forall kv_small b ∧ (length b ≤ 256)%nat) bs → NoDup (Suffix <$> kvs1 ++ concat bs) →
  hoare raft (staged D (λ V, intact V ∧ fed kvs1 V ∧ frozen V)) (proposeAll raft n (encodeIngest <$> bs))
    (λ _, staged D (λ V, intact V ∧ fed (kvs1 ++ concat bs) V ∧ frozen V)) aborted.
Proof.
  intros Hbs. revert kvs1. induction Hbs as [|b bs [Hs Hlen] Hbs IH]; intros kvs1 Hnd.
  { cbn [fmap list_fmap proposeAll concat]. rewrite app_nil_r. by intros c. }
  cbn [concat] in Hnd. rewrite app_assoc in Hnd. cbn [fmap list_fmap proposeAll concat]. eapply hoare_bind.
  - apply step_ingest; [done|done|]. rewrite fmap_app in Hnd. by apply NoDup_app in Hnd as (? & _ & _).
  - intros ?. rewrite app_assoc. by apply IH.
Qed.

Lemma step_ingestInto kvs :
  scanned kvs →
  hoare raft (staged D (λ V, intact V ∧ fed [] V ∧ frozen V)) (ingestInto raft n kvs)
    (λ _, staged D (λ V, intact V ∧ full V ∧ frozen V)) aborted.
Proof.
  intros Hk. pose proof Hk as (Hnd & Hs & _). unfold ingestInto.
  rewrite (list_fmap_compose (λ off, take ingestBatch (drop off kvs)) encodeIngest).
  set (bs := (λ off, take ingestBatch (drop off kvs)) <$> batchOffsets (length kvs)).
  assert (concat bs = kvs) as Ec by apply batches_concat.
  eapply hoare_conseq; [apply (step_ingest_all bs [])|done|].
  - apply Forall_fmap, Forall_true. intros off. split; [by apply Forall_take, Forall_drop|].
    rewrite length_take. unfold ingestBatch. lia.
  - by rewrite Ec.
  - intros _ st d (Hl & Hd & Hi & Hf & Hz). rewrite app_nil_l, Ec in Hf. split; [done|]. split; [done|].
    split_and!; [done|by eapply scanned_full|done].
Qed.

(** A meta command leaves the data shards alone. *)
Lemma meta_rows V V' :
  (∀ k, ¬ metaP `prefix_of` k → V' !! k = V !! k) →
  (∀ sh suf, in_u64 sh → sh ≠ MetaShardID → row V' sh suf = row V sh suf) ∧
  V' !! frozenKey (put_u64 old) key = V !! frozenKey (put_u64 old) key.
Proof.
  intros Hoff. assert (∀ sh suf, in_u64 sh → sh ≠ MetaShardID → V' !! (put_u64 sh ++ suf) = V !! (put_u64 sh ++ suf)) as Hr.
  { intros sh suf Hu Hm. apply Hoff. intros Hp. eapply (prefix_off MetaShardID sh _ suf); [done|done|congruence|exact Hp|done]. }
  split; [done|]. unfold frozenKey, frozenSpace. rewrite <-!app_assoc. apply Hr; [apply old_range|apply Hpre].
Qed.

Lemma rows_intact V V' : (∀ sh suf, in_u64 sh → sh ≠ MetaShardID → row V' sh suf = row V sh suf) → intact V → intact V'.
Proof. intros Hr Hi sh suf rk Hu Hm Hn Hrk. rewrite Hr by done. by eapply Hi. Qed.
Lemma rows_full V V' : (∀ sh suf, in_u64 sh → sh ≠ MetaShardID → row V' sh suf = row V sh suf) → full V → full V'.
Proof. intros Hr Hf suf rk Hrk. rewrite Hr by apply Hpre. by eapply Hf. Qed.

Lemma step_meta start e sh D1 (E : assn) :
  lenZ start < 2 ^ 24 → lenZ e < 2 ^ 24 → in_u64 sh →
  (∀ st d, staged D1 (λ V, intact V ∧ full V ∧ frozen V) st d → E st d) →
  (∀ st d, staged (<[start := (e, sh)]> D1) (λ V, intact V ∧ full V ∧ frozen V) st d → E st d) →
  hoare raft (staged D1 (λ V, intact V ∧ full V ∧ frozen V)) (Propose raft MetaShardID (metaPut start e sh))
    (λ _, staged (<[start := (e, sh)]> D1) (λ V, intact V ∧ full V ∧ frozen V)) E.
Proof.
  intros Hst He Hsh HE1 HE2. apply hoare_propose. intros st d idx Hs. split; [by apply HE1|].
  destruct Hs as (Hl & Hd & Hi & Hf & Hz).
  destruct (meta_effect st idx (mkMeta opMetaPut start e sh) D1) as (rs & st' & E' & Hl' & Hd' & Hoff);
    [done|by left|split; simpl; [lens|done]|done|].
  destruct (meta_rows _ _ Hoff) as [Hr Hfz].
  assert (staged (<[start := (e, sh)]> D1) (λ V, intact V ∧ full V ∧ frozen V) st' d) as Hq.
  { split; [done|]. split; [done|]. split_and!; [by eapply rows_intact|by eapply rows_full|]. unfold frozen. by rewrite Hfz. }
  exists rs, st'. auto.
Qed.

Lemma step_purge :
  hoare raft (staged Dsplit (λ V, intact V ∧ full V ∧ frozen V)) (Propose raft old (encodePurge key stop))
    (λ _, staged Dsplit (λ V, moved V ∧ full V ∧ frozen V)) aborted.
Proof.
  destruct old_range as (Hu & _). apply hoare_propose. intros st d idx (Hl & Hd & Hi & Hf & Hz).
  split; [split; [done|]; right; right; auto|].
  edestruct (data_effect st old idx (encodePurge key stop) (purgeOp (newBaseSM st old) <$> routedRows (newBaseSM st old) key stop))
    as (rs & st' & E & Hl' & HV); [done|apply Hpre|intros; apply body_purge; [done|apply split_pair]|by apply Forall_fmap, Forall_true|].
  destruct (λ Hp, data_rows old idx _ _ _ Hu (sp_oldmeta Hpre) Hp HV) as (R1 & R2 & R3 & R4).
  { apply Forall_fmap, Forall_true. intros kv. by apply prefix_app_r. }
  assert (moved (viewOf st') ∧ full (viewOf st') ∧ frozen (viewOf st')) as Hq.
  { split_and!.
    - intros sh suf rk Hsh Hm Hn Hr. destruct (decide (sh = old)) as [->|Hne].
      + rewrite bool_decide_eq_true_2 by done. rewrite (R3 _ _ Hr), andb_true_l.
        etransitivity; [apply (apply_purge (put_u64 old) (routedRows (newBaseSM st old) key stop))|].
        fold (row (viewOf st) old suf). rewrite (intact_old _ _ _ Hi Hr).
        destruct (scanned_rows st Hi) as (_ & _ & Hin). destruct (inRoute rk key stop) eqn:Ei.
        * case_decide as Hd1; [done|]. destruct (row V0 old suf) as [v|] eqn:Ev; [|done]. exfalso. apply Hd1.
          apply list_elem_of_fmap. exists (mkRawKV suf v). split; [done|]. apply Hin. eauto.
        * rewrite decide_False; [done|]. intros (kv & -> & Hkv)%list_elem_of_fmap. apply Hin in Hkv as (_ & rk' & Hr' & Ei').
          unfold routable in *. congruence.
      + rewrite bool_decide_eq_false_2 by done. rewrite R2 by done. by eapply Hi.
    - intros suf rk Hr. rewrite R2; [by eapply Hf|apply Hpre|apply Hpre].
    - unfold frozen. rewrite R4, apply_ops_lookup_ne; [done|]. apply Forall_fmap, Forall_forall. intros kv Hin Ek. simpl in Ek.
      destruct (scanned_rows st Hi) as (_ & _ & Hin'). apply Hin' in Hin as (_ & rk & Hr & _).
      unfold frozenKey, frozenSpace in Ek. rewrite <-!app_assoc in Ek. apply app_inv_head in Ek. rewrite Ek in Hr.
      by apply routable_not_meta in Hr. }
  exists rs, st'. split; [done|]. split; [split; [done|]; split; [by apply R1|done]|].
  split; [done|]. right; right. split_and!; [by apply R1|tauto|right; tauto].
Qed.

Lemma step_refresh D1 R (E : assn) :
  (∀ st d, staged D1 R st d → E st d) →
  hoare raft (staged D1 R) (Refresh raft) (λ _ st d, staged D1 R st d ∧ ∃ l', d = Some l' ∧ lists l' D1) E.
Proof.
  intros HE. unfold Refresh. eapply hoare_bind with (R := λ v st d, staged D1 R st d ∧ ∃ l', v = ARanges l' ∧ lists l' D1).
  - apply hoare_engine. intros st d Hst. split; [by apply HE|]. pose proof Hst as (Hl & Hd & _).
    destruct (metaList_ok (newBaseSM st MetaShardID) Hl D1 Hd) as (l' & El & Hl'). exists (ARanges l').
    split; [done|]. split; [done|]. by exists l'.
  - intros v c (Hst & l' & -> & Hl'). simpl. split; [done|]. by exists l'.
Qed.

Lemma splitRange_spec :
  hoare raft (staged D (λ V, intact V ∧ fed [] V)) (splitRange raft key r n)
    (λ _ st d, staged Dsplit (λ V, moved V ∧ full V ∧ frozen V) st d ∧ ∃ l', d = Some l' ∧ lists l' Dsplit) aborted.
Proof.
  destruct old_range as (Hu & Hst & Hen). unfold splitRange.
  eapply hoare_bind; [apply (step_engine (λ _, Ok ()) ()); [done|tauto]|intros ?].
  eapply hoare_bind; [apply (step_engine (λ _, Ok ()) ()); [done|tauto]|intros ?].
  eapply hoare_bind; [apply step_freeze|intros ?]. eapply hoare_bind; [apply step_read|intros kvs].
  apply hoare_pure. intros Hk.
  eapply hoare_bind; [by apply step_ingestInto|intros ?].
  eapply hoare_bind; [apply step_meta; [done|apply Hpre|done|..]|intros ?].
  { intros st d (Hl & Hd & Hi & Hf & _). by apply aborted_intact. }
  { intros st d (Hl & Hd & Hi & Hf & _). split; [done|]. right; left. auto. }
  eapply hoare_bind; [apply step_meta; [apply Hpre|done|apply Hpre|..]|intros ?].
  { intros st d (Hl & Hd & Hi & Hf & _). split; [done|]. right; left. auto. }
  { intros st d (Hl & Hd & Hi & Hf & _). split; [done|]. right; right. auto. }
  eapply hoare_bind; [apply step_purge|intros ?].
  apply step_refresh. intros st d (Hl & Hd & Hm & Hf & _). split; [done|]. right; right. auto.
Qed.

End split.

(** ** Split as a whole *)

Definition splitReady {S} `{LocalStoreSpec S} (c : node S) (D : dirMap) (l : list rangeEntry) (key : bytes) (r : rangeEntry) : Prop :=
  ls_live (n_store c) ∧ is_Some (n_dir c) ∧
  Forall (λ r, MetaShardID < r_ShardID r < 2 ^ 64 - 1) l ∧
  splitPre (viewOf (n_store c)) D l key r (maxShardID l + 1).

Lemma Split_spec {S} `{LocalStoreSpec S} `{FloatText} raft (c : node S) D l key r :
  splitReady c D l key r →
  let n := maxShardID l + 1 in let V0 := viewOf (n_store c) in
  match Split raft key c with
  | (Ok n', c') => n' = n ∧ staged (Dsplit D key r n) (λ V, moved V0 key r n V ∧ full V0 key r n V ∧ frozen key r V) (n_store c') (n_dir c') ∧
      ∃ l', n_dir c' = Some l' ∧ lists l' (Dsplit D key r n)
  | (Err e, c') => aborted V0 D key r n (n_store c') (n_dir c') ∧ e = errEngine ∧ ¬ allCommitted raft
  end.
Proof.
  intros (Hl & [l0 Hd0] & Hsh & Hpre) n V0. unfold Split. rewrite Hd0.
  assert (lenZ key =? 0 = false) as ->.
  { pose proof (sp_key _ _ _ _ _ _ Hpre). destruct key; [done|]. apply Z.eqb_neq. lens. }
  set (m := (_ ← Refresh raft; _)).
  enough (hoare raft (staged D (λ V, intact V0 n V ∧ fed n [] V)) m
    (λ n' st d, n' = n ∧ staged (Dsplit D key r n) (λ V, moved V0 key r n V ∧ full V0 key r n V ∧ frozen key r V) st d ∧
      ∃ l', d = Some l' ∧ lists l' (Dsplit D key r n)) (aborted V0 D key r n)) as Hm.
  { apply (Hm c). split; [done|]. split; [apply Hpre|]. split; [done|]. intros suf rk Hr. by apply (sp_fresh _ _ _ _ _ _ Hpre) in Hr. }
  unfold m. eapply hoare_bind.
  { apply step_refresh. intros st d (Hl1 & Hd1 & Hi1 & _). by eapply aborted_intact. }
  intros ?. cbv beta.
  intros c1 (Hst & l1 & Ed1 & Hl1). unfold mbind, ctl_bind, cachedRanges. rewrite Ed1. change (default [] (Some l1)) with l1.
  rewrite (lists_unique l1 l D) by (done || apply Hpre). rewrite (sp_range _ _ _ _ _ _ Hpre).
  rewrite decide_False by (pose proof (sp_start _ _ _ _ _ _ Hpre); congruence).
  rewrite uint64_id by apply Hpre. fold n.
  pose proof (splitRange_spec raft V0 D l key r n Hpre c1 Hst) as Hs.
  destruct (splitRange raft key r n c1) as [[[]|e] c2]; [|done]. simpl. tauto.
Qed.

Lemma split_route l key r k :
  tiling l → rangeContaining l key = Some r → inRoute k key (r_End r) = true → rangeContaining l k = Some r.
Proof.
  intros Ht Hr Hi. destruct (tiling_contains l k Ht) as (x & -> & _ & _ & Hu). f_equal. symmetry.
  apply rangeContaining_in in Hr as [Hin Hc]. apply Hu; [done|]. unfold covers in *. rewrite inRoute_spec in *.
  split; [by etransitivity; [apply Hc|apply Hi]|apply Hi].
Qed.

(** ** Properties *)

(** C12: a split moves exactly the range it is asked to move. When it returns, the new
    directory still covers every key with one range; only keys of [[splitKey, end)] have a new
    shard; every row in the data space of every collection and in its index of expiring
    members is found, unchanged, on the shard its collection is now routed to; and the old
    shard rejects further writes to the moved range. The due indexes of budget leases and
    tombstones and the dedup window are not among these rows: they stay behind. *)
Theorem split_moves_range {S} `{LocalStoreSpec S} `{FloatText} raft (c c' : node S) D l key r n :
  splitReady c D l key r → Split raft key c = (Ok n, c') →
  ∃ l', n_dir c' = Some l' ∧ tiling l' ∧ lists l' (Dsplit D key r n) ∧
    (∀ k, routed l' k = if inRoute k key (r_End r) then Some n else routed l k) ∧
    (∀ ns coll suf sh, collRow ns coll suf → routed l (routeKey ns coll) = Some sh →
       ∃ sh', routed l' (routeKey ns coll) = Some sh' ∧ row (viewOf (n_store c')) sh' suf = row (viewOf (n_store c)) sh suf) ∧
    frozen key r (viewOf (n_store c')).
Proof.
  intros Hc HS. pose proof (Split_spec raft c D l key r Hc) as Hs. rewrite HS in Hs.
  destruct Hs as (-> & (Hl & Hd & Hm & Hf & Hz) & l' & El & Hl'). destruct Hc as (_ & _ & Hsh & Hpre).
  set (n := maxShardID l + 1) in *.
  destruct (split_routes l D r key n) as (l2 & Hl2 & Ht2 & Hr2); [apply Hpre..|].
  rewrite (lists_unique l2 l' _ Hl2 Hl') in *. exists l'. split_and!; [done|done|done|done| |done].
  intros ns coll suf sh Hr%collRow_routable Hsh1. set (rk := routeKey ns coll) in *. rewrite Hr2. destruct (inRoute rk key (r_End r)) eqn:Ei.
  - exists n. split; [done|]. rewrite (Hf _ _ Hr), Ei.
    unfold routed in Hsh1. rewrite (split_route l key r rk) in Hsh1 by (done || apply Hpre). by injection Hsh1 as <-.
  - exists sh. split; [done|]. unfold routed in Hsh1. apply fmap_Some in Hsh1 as (x & Hx & ->).
    apply rangeContaining_in in Hx as [Hx _]. pose proof (maxShardID_le _ _ Hx). rewrite Forall_forall in Hsh.
    specialize (Hsh _ Hx). unfold MetaShardID in *.
    rewrite (Hm _ _ rk) by (done || (unfold n, MetaShardID; zlia)). by rewrite Ei, andb_false_r.
Qed.

(** C32: a split that fails loses nothing. Whatever call the engine fails, every
    migratable row is still on the shard it was on or already on the new one; while the
    directory is the old one, every shard answers as before. A split fails only when the
    engine fails a call. *)
Theorem split_abort_safe {S} `{LocalStoreSpec S} `{FloatText} raft (c c' : node S) D l key r e :
  splitReady c D l key r → Split raft key c = (Err e, c') →
  let V0 := viewOf (n_store c) in let V := viewOf (n_store c') in let n := maxShardID l + 1 in
  e = errEngine ∧ ¬ allCommitted raft ∧
  (∀ suf rk sh v, routable suf rk → routed l rk = Some sh → row V0 sh suf = Some v →
     row V sh suf = Some v ∨ row V n suf = Some v) ∧
  ((dir_at (put_u64 MetaShardID) V D ∧ ∀ suf rk sh, routable suf rk → routed l rk = Some sh → row V sh suf = row V0 sh suf) ∨
   dir_at (put_u64 MetaShardID) V (Dgap D key r) ∨ dir_at (put_u64 MetaShardID) V (Dsplit D key r n)).
Proof.
  intros Hc HS V0 V n. pose proof (Split_spec raft c D l key r Hc) as Hs. rewrite HS in Hs.
  destruct Hs as ((Hl & Ha) & -> & Hn). destruct Hc as (_ & _ & Hsh & Hpre). fold n in Hpre, Ha. fold V0 V in Ha, Hpre.
  assert (∀ rk sh, routed l rk = Some sh → in_u64 sh ∧ sh ≠ MetaShardID ∧ sh ≠ n) as Hr1.
  { intros rk sh Hrk. unfold routed in Hrk. apply fmap_Some in Hrk as (x & Hx & ->).
    apply rangeContaining_in in Hx as [Hx _]. pose proof (maxShardID_le _ _ Hx). rewrite Forall_forall in Hsh.
    specialize (Hsh _ Hx). unfold MetaShardID in *. unfold n. split_and!; zlia. }
  assert (intact V0 n V → ∀ suf rk sh, routable suf rk → routed l rk = Some sh → row V sh suf = row V0 sh suf) as Hi.
  { intros Hi suf rk sh Hr Hrk. apply Hr1 in Hrk as (? & ? & ?). by eapply Hi. }
  split_and!; [done|done| |destruct Ha as [[Hd Hint]|[(Hd & _)|(Hd & _)]]; [left; split; [done|by apply Hi]|by right; left|by right; right]].
  intros suf rk sh v Hr Hrk Hv. destruct Ha as [[Hd Hint]|[(Hd & Hint & _)|(Hd & Hf & [Hint|Hm])]];
    [left; by rewrite (Hi Hint _ rk)..|].
  apply Hr1 in Hrk as Hsh'. destruct Hsh' as (Hu & H1' & H2').
  destruct (inRoute rk key (r_End r)) eqn:Ei.
  - right. rewrite (Hf _ _ Hr), Ei. unfold routed in Hrk. rewrite (split_route l key r rk) in Hrk by (done || apply Hpre).
    by injection Hrk as <-.
  - left. rewrite (Hm _ _ rk) by done. by rewrite Ei, andb_false_r.
Qed.

(** ** Sample nodes *)

Import Samples.

Definition good : nat → raftOutcome := λ i, Committed (Z.of_nat i + 1).
(** The engine drops one call. *)
Definition dropping (k : nat) : nat → raftOutcome := λ i, if decide (i = k) then Dropped else good i.

Definition put1 (st : MemStore) (sh : Z) (cmd : bytes) : MemStore :=
  match applyTo st sh 1 cmd with Ok (_, st') => st' | Err _ => st end.

Definition addCmd : bytes := Samples.cmdOf opSAdd [] [mkItem (lit "m") [] 0 0].
Definition storeA : MemStore := put1 NewMemStore firstDataShard addCmd.
Definition storeB : MemStore := put1 storeA MetaShardID (metaPut [] [] firstDataShard).
Definition nodeB : node MemStore := mkNode storeB 0 (Some []).
Definition key0 : bytes := routeKey Samples.ns0 Samples.coll0.
Definition full0 : rangeEntry := mkRange [] [] firstDataShard.

Lemma storeA_dir : dir_at (put_u64 MetaShardID) (viewOf storeA) ∅.
Proof.
  split; [|apply map_Forall_empty]. intros start. rewrite lookup_empty.
  assert (map_Forall (λ k _, take 8 k ≠ put_u64 MetaShardID) (viewOf storeA)) as Hall
    by (apply (bool_decide_unpack _); vm_compute; exact I).
  destruct (viewOf storeA !! _) eqn:E; [|done]. apply Hall in E. by rewrite rangeKey_app in E.
Qed.

Lemma storeB_dir : dir_at (put_u64 MetaShardID) (viewOf storeB) {[ [] := ([], firstDataShard) ]}.
Proof.
  destruct (meta_effect storeA 1 (mkMeta opMetaPut [] [] firstDataShard) ∅) as (rs & st & E & _ & Hd & _);
    [done|by left|split; [done|vm_compute; split; congruence]|apply storeA_dir|].
  unfold storeB, put1. fold (metaPut [] [] firstDataShard) in E. rewrite E. done.
Qed.

Lemma nodeB_ready : splitReady nodeB {[ [] := ([], firstDataShard) ]} [full0] key0 full0.
Proof.
  split_and!; [done|by eexists|apply Forall_singleton; vm_compute; split; congruence|].
  assert (map_Forall (λ k v, take 8 k ≠ put_u64 3 ∧ lenZ k + lenZ v + 8 < 2 ^ 24) (viewOf storeB)) as Hall
    by (apply (bool_decide_unpack _); vm_compute; exact I).
  change (viewOf (n_store nodeB)) with (viewOf storeB). split.
  - apply storeB_dir.
  - split; [repeat constructor|]. intros r. rewrite list_elem_of_singleton. split.
    + intros ->. by rewrite lookup_singleton_eq.
    + intros [E1 E2]%lookup_singleton_Some. destruct r. simpl in *. by simplify_eq.
  - by exists [], full0.
  - vm_compute; reflexivity.
  - by vm_compute.
  - by vm_compute.
  - vm_compute; split; congruence.
  - by vm_compute.
  - by vm_compute.
  - by vm_compute.
  - intros suf rk _. unfold row. destruct (viewOf storeB !! (put_u64 3 ++ suf)) eqn:E; [|done]. apply Hall in E as [E _].
    by rewrite take_app_field in E by apply length_put_u64.
  - intros k v E. by apply Hall in E as [_ ?].
  - vm_compute; reflexivity.
Qed.

Lemma split_moves_range_witness :
  match Split good key0 nodeB with
  | (Ok n, c') =>
      ∃ l', n_dir c' = Some l' ∧ tiling l' ∧ lists l' (Dsplit {[ [] := ([], firstDataShard) ]} key0 full0 n) ∧
        (∀ k, routed l' k = if inRoute k key0 (r_End full0) then Some n else routed [full0] k) ∧
        (∀ ns coll suf sh, collRow ns coll suf → routed [full0] (routeKey ns coll) = Some sh →
           ∃ sh', routed l' (routeKey ns coll) = Some sh' ∧ row (viewOf (n_store c')) sh' suf = row (viewOf (n_store nodeB)) sh suf) ∧
        frozen key0 full0 (viewOf (n_store c'))
  | (Err _, _) => False
  end.
Proof.
  destruct (Split good key0 nodeB) as [[n|e] c'] eqn:E.
  - exact (split_moves_range good nodeB c' _ [full0] key0 full0 n nodeB_ready E).
  - assert (Samples.succeeded (Split good key0 nodeB).1 = true) as Hs by (vm_compute; reflexivity).
    rewrite E in Hs. discriminate Hs.
Defined.

Lemma split_abort_safe_witness :
  match Split (dropping 6) key0 nodeB with
  | (Ok _, _) => False
  | (Err e, c') => e = errEngine
  end.
Proof.
  destruct (Split (dropping 6) key0 nodeB) as [[n|e] c'] eqn:E.
  - assert (Samples.succeeded (Split (dropping 6) key0 nodeB).1 = false) as Hs by (vm_compute; reflexivity).
    rewrite E in Hs. discriminate Hs.
  - exact (proj1 (split_abort_safe (dropping 6) nodeB c' _ [full0] key0 full0 e nodeB_ready E)).
Defined.

(** ** What splits and merges leave behind *)

(** the cut-over is not atomic and cannot be resumed. When the second of its two
    directory writes fails, the moved range belongs to no shard, a collection in it has no
    route, and a new attempt to split at the key is refused. *)
Theorem split_gap_unroutable :
  let c1 := (Split (dropping 7) key0 nodeB).2 in
  let c2 := (Refresh good c1).2 in
  ShardFor (default [] (n_dir c2)) ns0 coll0 = 0 ∧
  (Split (dropping 7) key0 nodeB).1 = Err errEngine ∧
  (Split good key0 c1).1 = Err errNoRange.
Proof. vm_compute. split_and!; reflexivity. Qed.

(** A node with a budget and one lease on its only shard. *)
Definition ttlInitCmd : bytes :=
  cmdOf opBudInit [] [mkItem (Budget.Budget.modeStrict :: putI64 5 ++ putI64 0 ++ putI64 0 ++ putI64 10000000 ++ putI64 10000000 ++
    putI64 10000000 ++ putI64 10000000) [] 0 0].
Definition storeL : MemStore :=
  put1 (put1 (put1 NewMemStore firstDataShard ttlInitCmd) firstDataShard (grantCmd lease0 2 1000 500))
    MetaShardID (metaPut [] [] firstDataShard).
Definition nodeL : node MemStore := mkNode storeL 0 (Some []).

Definition incrCmd : bytes := cmdOf opHIncrBy (lit "key") [mkItem (lit "f") (putI64 1) 0 0].
Definition storeH : MemStore :=
  put1 (put1 NewMemStore firstDataShard incrCmd) MetaShardID (metaPut [] [] firstDataShard).
Definition nodeH : node MemStore := mkNode storeH 0 (Some []).

(** a split forgets state of the collections it moves. The expiry index of leased
    budgets stays on the old shard, so an expired lease of a moved budget is never due on
    the shard that now owns it; and the dedup window stays, so a retried keyed increment
    is applied a second time. *)
Theorem split_forgets_indexes :
  let c1 := (Split good key0 nodeL).2 in
  let c2 := (Split good key0 nodeH).2 in
  ShardFor (default [] (n_dir c1)) ns0 coll0 = 3 ∧
  (∃ d, Lookup (newBaseSM (n_store nodeL) 2) (budExpiryDueQuery 100000000 0) = Ok (ABudDue [d])) ∧
  Lookup (newBaseSM (n_store c1) 3) (budExpiryDueQuery 100000000 0) = Ok (ABudDue []) ∧
  Lookup (newBaseSM (n_store nodeH) 2) (hGetQuery ns0 coll0 (lit "f")) = Ok (AValue (Some (lit "1"))) ∧
  Lookup (newBaseSM (put1 (n_store nodeH) 2 incrCmd) 2) (hGetQuery ns0 coll0 (lit "f")) = Ok (AValue (Some (lit "1"))) ∧
  Lookup (newBaseSM (put1 (n_store c2) 3 incrCmd) 3) (hGetQuery ns0 coll0 (lit "f")) = Ok (AValue (Some (lit "2"))).
Proof. vm_compute. split_and!; [reflexivity|eexists; reflexivity|reflexivity..]. Qed.

(** Two splits and the merge of the middle range back into the first shard. *)
Definition key1 : bytes := routeKey ns0 (lit "d").
Definition nodeM : node MemStore := (Merge good key0 (Split good key1 (Split good key0 nodeB).2).2).2.

(** a merge lifts a freeze it should keep. After splits at two keys and the merge of
    the middle range, the last range is still on another shard, but the first shard no
    longer rejects writes to it: a write sent there by a stale client is acknowledged and
    is invisible to readers. *)
Theorem merge_lifts_freeze :
  let wr := encodeCommand (mkCommand opSAdd ns0 (lit "d") [] [mkItem (lit "x") [] 0 0]) in
  ShardFor (default [] (n_dir nodeM)) ns0 (lit "d") = 4 ∧
  (∃ st, applyTo (n_store (Split good key0 nodeB).2) 2 9 wr = Ok ([mkResult 0 frozenMark], st)) ∧
  (∃ st, applyTo (n_store nodeM) 2 9 wr = Ok ([mkResult 1 []], st)).
Proof. vm_compute. split_and!; [reflexivity|eexists; reflexivity..]. Qed.

End Control.
