(* ===== verification/Records.v ===== *)
(** * Record messages and keys (storage/envelope.go, recordstore/encode.go, selection.go)

    The stored messages of the record store, their (third-party) protobuf codec as a
    type class with its round-trip law, and the key layout of the record column
    families. *)

From S2P Require Import Prelude Bytes Hlc Version Conflict Storage Command Uvarint.

Local Open Scope Z_scope.

Module Records.
Import Version Conflict Storage Command Uvarint.

(** ** Messages *)

Record LatestPointer := mkLP {
  lp_Winner : option ProtoVersion;
  lp_SiblingVersions : list ProtoVersion;
  lp_ExpiresAt : option Z;
  lp_Tombstone : bool;
  lp_LocalGeneration : Z;
  lp_InlineValue : option bytes;
}.

Record MutationEnvelope := mkEnvelope {
  me_MutationId : bytes;
  me_Kind : Z;
  me_LogicalKey : bytes;
  me_Value : option ValueBody;
  me_Version : option ProtoVersion;
  me_ExpiresAt : option Z;
  me_Tombstone : bool;
  me_Namespace : bytes;
  me_OriginClusterId : bytes;
  me_OriginMemberId : bytes;
  me_OriginSequence : Z;
}.

#[export] Instance LatestPointer_eq_dec : EqDecision LatestPointer.
Proof. solve_decision. Defined.
#[export] Instance MutationEnvelope_eq_dec : EqDecision MutationEnvelope.
Proof. solve_decision. Defined.

(** MutationKind_MUTATION_KIND_PUT and _DELETE; RecordKind_RECORD_KIND_KV. *)
Definition kindPut : Z := 1.
Definition kindDelete : Z := 2.
Definition recordKindKV : Z := 1.

(** [proto.Marshal] and [proto.Unmarshal] on the three messages. Marshalling can fail
    (a string that is not UTF-8). *)
Class Proto := {
  EncodeStoredRecord : StoredRecord → option bytes;
  DecodeStoredRecord : bytes → option StoredRecord;
  EncodeLatestPointer : LatestPointer → option bytes;
  DecodeLatestPointer : bytes → option LatestPointer;
  EncodeMutationEnvelope : MutationEnvelope → option bytes;
}.

(** The documented contract: what is marshalled unmarshals to an equal message. *)
Class ProtoSpec `{Proto} := {
  decode_record r b : EncodeStoredRecord r = Some b → DecodeStoredRecord b = Some r;
  decode_pointer p b : EncodeLatestPointer p = Some b → DecodeLatestPointer b = Some p;
}.

(** ** Values *)

(** [rec.GetValue().GetInline()]: nil when the value is absent or external. *)
Definition GetInline (v : option ValueBody) : bytes :=
  match v with Some (VInline b) => b | _ => [] end.

Definition InlineValueMax : Z := 512.

(** [None] is Go's nil slice. *)
Definition InlineValue (rec : StoredRecord) : option bytes :=
  if sr_tombstone rec then None
  else match sr_Value rec with
       | Some (VInline b) => if InlineValueMax <? lenZ b then None else Some b
       | _ => None
       end.

(** The last-write-wins winner of a list of records, first on a tie. *)
Definition winnerOf (r : StoredRecord) (rs : list StoredRecord) : StoredRecord :=
  fold_left (λ w r, if 0 <? Version_Compare (recVersion r) (recVersion w) then r else w) rs r.

Definition RebuildLatestPointer (records : list StoredRecord) : option LatestPointer :=
  match records with
  | [] => None
  | r :: rs =>
      let w := winnerOf r rs in
      Some (mkLP (sr_version w) [] (sr_ExpiresAt w) (sr_tombstone w) 0 (InlineValue w))
  end.

(** ** Keys *)

(** [joinKey]: each part with a length prefix. *)
Definition joinKey (parts : list bytes) : bytes := fold_left lenPrefix parts [].

Definition ReplLogKey (partition : bytes) (seq : Z) : bytes :=
  joinKey [lit "local"; partition; put_u64 seq].

Definition latestKey (ns userKey : bytes) : bytes := lenPrefix [] ns ++ userKey.
Definition namespacePrefix (ns : bytes) : bytes := lenPrefix [] ns.

Definition encodeVersion (v : Version) : bytes :=
  lenPrefix (lenPrefix (put_u64 (HLCPhysicalMs v) ++ put_u32 (HLCLogical v)) (WriterClusterID v))
    (WriterMemberID v) ++ put_u64 (WriterSequence v).

Definition dataKeyPrefix (ns userKey : bytes) : bytes := lenPrefix (lenPrefix [] ns) userKey.
Definition dataKey (ns userKey : bytes) (v : Version) : bytes :=
  dataKeyPrefix ns userKey ++ encodeVersion v.

Definition ttlSentinel : byte := xff.
Definition ttlBucketMs : Z := 60000.

(** Go's integer division truncates towards zero. *)
Definition ttlBucketStart (expiresMs : Z) : Z := int64 (Z.quot expiresMs ttlBucketMs * ttlBucketMs).

Definition ttlKey (expiresMs : Z) (ns userKey : bytes) : bytes :=
  lenPrefix ([ttlSentinel] ++ put_u64 (uint64 (ttlBucketStart expiresMs))) ns ++ userKey.
Definition ttlLowBound : bytes := [ttlSentinel].
Definition ttlScanBound (nowMs : Z) : bytes :=
  [ttlSentinel] ++ put_u64 (uint64 (int64 (ttlBucketStart nowMs + ttlBucketMs))).

Definition parseTTLKey (k : bytes) : option (bytes * bytes) :=
  if lenZ k <? 9 then None
  else match k with
       | b :: _ => if decide (b = ttlSentinel) then takePrefixed (drop 9 k) else None
       | [] => None
       end.

Definition parseLatestKey (k : bytes) : option (bytes * bytes) := takePrefixed k.

Definition NamespaceOfKey (key : bytes) : option bytes :=
  match key with
  | [] => None
  | b :: _ => if decide (b = ttlSentinel) then fst <$> parseTTLKey key else fst <$> takePrefixed key
  end.

(** ** Unambiguity *)

(** Identifiers short enough for their length prefix (any length a process can hold). *)
Definition id_ok (b : bytes) : Prop := lenZ b < 2 ^ 63.

Definition version_ok (v : Version) : Prop :=
  in_u64 (HLCPhysicalMs v) ∧ in_u32 (HLCLogical v) ∧ id_ok (WriterClusterID v) ∧ id_ok (WriterMemberID v) ∧
  in_u64 (WriterSequence v).

Lemma latestKey_inj ns1 ns2 k1 k2 :
  id_ok ns1 → id_ok ns2 → latestKey ns1 k1 = latestKey ns2 k2 → ns1 = ns2 ∧ k1 = k2.
Proof. intros H1 H2. by apply lenPrefix_inj. Qed.

Lemma put_u32_inj a b : in_u32 a → in_u32 b → put_u32 a = put_u32 b → a = b.
Proof.
  intros Ha Hb E. rewrite <-(get_put_u32 a []), <-(get_put_u32 b []) by done. by rewrite E.
Qed.

Lemma encodeVersion_eq v :
  encodeVersion v = put_u64 (HLCPhysicalMs v) ++ put_u32 (HLCLogical v) ++ lenPrefix [] (WriterClusterID v) ++
    lenPrefix [] (WriterMemberID v) ++ put_u64 (WriterSequence v).
Proof. unfold encodeVersion. rewrite (lenPrefix_app (lenPrefix _ _)), (lenPrefix_app (put_u64 _ ++ _)). by rewrite <-!app_assoc. Qed.

Lemma encodeVersion_inj v1 v2 : version_ok v1 → version_ok v2 → encodeVersion v1 = encodeVersion v2 → v1 = v2.
Proof.
  intros (P1 & L1 & C1 & M1 & S1) (P2 & L2 & C2 & M2 & S2) E. rewrite !encodeVersion_eq in E.
  apply app_inj_1 in E as [Ep E]; [|by rewrite !length_put_u64].
  apply app_inj_1 in E as [El E]; [|by rewrite !length_put_u32].
  apply lenPrefix_inj in E as [Ec E]; [|done..]. apply lenPrefix_inj in E as [Em E]; [|done..].
  apply put_u64_inj in Ep, E; [|done..]. apply put_u32_inj in El; [|done..].
  destruct v1, v2; simpl in *; congruence.
Qed.

Lemma dataKeyPrefix_eq ns k : dataKeyPrefix ns k = lenPrefix [] ns ++ lenPrefix [] k.
Proof. unfold dataKeyPrefix. by rewrite lenPrefix_app. Qed.

Lemma dataKeyPrefix_inj ns1 ns2 k1 k2 r1 r2 :
  id_ok ns1 → id_ok ns2 → id_ok k1 → id_ok k2 → dataKeyPrefix ns1 k1 ++ r1 = dataKeyPrefix ns2 k2 ++ r2 →
  ns1 = ns2 ∧ k1 = k2 ∧ r1 = r2.
Proof.
  intros ???? E. rewrite !dataKeyPrefix_eq, <-!app_assoc in E.
  apply lenPrefix_inj in E as [-> E]; [|done..]. by apply lenPrefix_inj in E as [-> ->]; [|done..].
Qed.

Lemma dataKey_inj ns1 ns2 k1 k2 v1 v2 :
  id_ok ns1 → id_ok ns2 → id_ok k1 → id_ok k2 → version_ok v1 → version_ok v2 →
  dataKey ns1 k1 v1 = dataKey ns2 k2 v2 → ns1 = ns2 ∧ k1 = k2 ∧ v1 = v2.
Proof.
  intros ?????? E. apply dataKeyPrefix_inj in E as (-> & -> & E); [|done..].
  apply encodeVersion_inj in E; done.
Qed.

(** Latest-pointer keys and TTL keys share a column family. They are apart for
    namespaces shorter than 128 bytes. *)
Lemma latestKey_ttl ns k t ns' k' : lenZ ns < 128 → latestKey ns k ≠ ttlKey t ns' k'.
Proof.
  intros Hl E. unfold latestKey in E. rewrite lenPrefix_short in E by done.
  unfold ttlKey in E. rewrite lenPrefix_app in E. simpl in E. injection E as E _.
  apply (f_equal byteZ) in E. rewrite byteZ_Zbyte, Z.mod_small in E by lens. change (byteZ ttlSentinel) with 255 in E. lens.
Qed.

End Records.
