(* ===== verification/RecordSamples.v ===== *)
(** * A concrete message codec and sample records

    An executable codec that satisfies the protobuf contract, and records for the
    evaluated examples of the record-store components. *)

From S2P Require Import Prelude Bytes Hlc Version Conflict Storage Command Uvarint Records.
From stdpp Require Import countable.

Local Open Scope Z_scope.

Module RecordSamples.
Import Version Conflict Storage Records.

(** A positive number as a string of bits. *)
Fixpoint posBytes (p : positive) : bytes :=
  match p with xH => [] | xO p => x00 :: posBytes p | xI p => x01 :: posBytes p end.

Fixpoint bytesPos (b : bytes) : positive :=
  match b with [] => xH | x00 :: b => xO (bytesPos b) | _ :: b => xI (bytesPos b) end.

Lemma bytesPos_posBytes p : bytesPos (posBytes p) = p.
Proof. induction p; simpl; by f_equal. Qed.

#[export] Instance ProtoVersion_countable : Countable ProtoVersion.
Proof.
  refine (inj_countable
    (λ v, [encode (p_HlcPhysicalMs v); encode (p_HlcLogical v); encode (p_WriterClusterId v); encode (p_WriterMemberId v); encode (p_WriterSequence v)] : list positive)
    (λ l, match l with
          | [a0; a1; a2; a3; a4] =>
              x0 ← decode a0; x1 ← decode a1; x2 ← decode a2; x3 ← decode a3; x4 ← decode a4; Some (mkProtoVersion x0 x1 x2 x3 x4)
          | _ => None
          end) _).
  intros []. by repeat (rewrite decode_encode; cbn).
Defined.

#[export] Instance ValueBody_countable : Countable ValueBody :=
  inj_countable' (λ v, match v with VInline b => inl b | VExternal b => inr (inl b) | VEmpty => inr (inr ()) end)
    (λ s, match s with inl b => VInline b | inr (inl b) => VExternal b | inr (inr _) => VEmpty end) ltac:(by intros []).

#[export] Instance StoredRecord_countable : Countable StoredRecord.
Proof.
  refine (inj_countable
    (λ r, [encode (sr_LogicalKey r); encode (sr_Value r); encode (sr_version r); encode (sr_ExpiresAt r); encode (sr_tombstone r); encode (sr_Kind r); encode (sr_Namespace r); encode (sr_OriginClusterId r); encode (sr_OriginMemberId r); encode (sr_LocalApplyMs r); encode (sr_ConflictState r)] : list positive)
    (λ l, match l with
          | [a0; a1; a2; a3; a4; a5; a6; a7; a8; a9; a10] =>
              x0 ← decode a0; x1 ← decode a1; x2 ← decode a2; x3 ← decode a3; x4 ← decode a4; x5 ← decode a5; x6 ← decode a6; x7 ← decode a7; x8 ← decode a8; x9 ← decode a9; x10 ← decode a10; Some (mkStoredRecord x0 x1 x2 x3 x4 x5 x6 x7 x8 x9 x10)
          | _ => None
          end) _).
  intros []. by repeat (rewrite decode_encode; cbn).
Defined.

#[export] Instance LatestPointer_countable : Countable LatestPointer.
Proof.
  refine (inj_countable
    (λ p, [encode (lp_Winner p); encode (lp_SiblingVersions p); encode (lp_ExpiresAt p); encode (lp_Tombstone p); encode (lp_LocalGeneration p); encode (lp_InlineValue p)] : list positive)
    (λ l, match l with
          | [a0; a1; a2; a3; a4; a5] =>
              x0 ← decode a0; x1 ← decode a1; x2 ← decode a2; x3 ← decode a3; x4 ← decode a4; x5 ← decode a5; Some (mkLP x0 x1 x2 x3 x4 x5)
          | _ => None
          end) _).
  intros []. by repeat (rewrite decode_encode; cbn).
Defined.

#[export] Instance MutationEnvelope_countable : Countable MutationEnvelope.
Proof.
  refine (inj_countable
    (λ m, [encode (me_MutationId m); encode (me_Kind m); encode (me_LogicalKey m); encode (me_Value m); encode (me_Version m); encode (me_ExpiresAt m); encode (me_Tombstone m); encode (me_Namespace m); encode (me_OriginClusterId m); encode (me_OriginMemberId m); encode (me_OriginSequence m)] : list positive)
    (λ l, match l with
          | [a0; a1; a2; a3; a4; a5; a6; a7; a8; a9; a10] =>
              x0 ← decode a0; x1 ← decode a1; x2 ← decode a2; x3 ← decode a3; x4 ← decode a4; x5 ← decode a5; x6 ← decode a6; x7 ← decode a7; x8 ← decode a8; x9 ← decode a9; x10 ← decode a10; Some (mkEnvelope x0 x1 x2 x3 x4 x5 x6 x7 x8 x9 x10)
          | _ => None
          end) _).
  intros []. by repeat (rewrite decode_encode; cbn).
Defined.

#[export] Instance bitProto : Proto := {
  EncodeStoredRecord r := Some (posBytes (encode r));
  DecodeStoredRecord b := decode (bytesPos b);
  EncodeLatestPointer p := Some (posBytes (encode p));
  DecodeLatestPointer b := decode (bytesPos b);
  EncodeMutationEnvelope m := Some (posBytes (encode m));
}.

#[export] Instance bitProtoSpec : ProtoSpec.
Proof. split; intros x b [= <-]; simpl; rewrite bytesPos_posBytes; apply decode_encode. Qed.

(** ** Records *)

Definition ver (t : Z) (writer : bytes) (seq : Z) : Version := mkVersion t 0 (lit "c") writer seq.

(** A put, or a tombstone, of key "k" in namespace "ns" by a writer. *)
Definition putRec (key : bytes) (t : Z) (writer : bytes) (seq : Z) (value : bytes) : StoredRecord :=
  mkStoredRecord key (Some (VInline value)) (Some (ToProto (ver t writer seq))) None false 1 (lit "ns") (lit "c") writer 0 0.
Definition delRec (key : bytes) (t : Z) (writer : bytes) (seq : Z) : StoredRecord :=
  mkStoredRecord key None (Some (ToProto (ver t writer seq))) None true 1 (lit "ns") (lit "c") writer 0 0.
Definition ttlRec (key : bytes) (t : Z) (writer : bytes) (seq : Z) (value : bytes) (exp : Z) : StoredRecord :=
  mkStoredRecord key (Some (VInline value)) (Some (ToProto (ver t writer seq))) (Some exp) false 1 (lit "ns") (lit "c") writer 0 0.

End RecordSamples.
