(* ===== verification/RecordStore.v ===== *)
(** * The record store (internal/recordstore/store.go)

    The local versioned-record engine every replication path writes through: version
    stamping, the atomic last-write-wins [Apply], sibling storage, reads and scans. The
    store's mutable fields are one record, threaded through the operations; an operation
    returns its result, or error, and the new state. A key's stripe lock serialises the
    operations on that key, so an operation is one step. *)

From S2P Require Import Prelude Bytes Hlc Version Conflict Storage Command Uvarint Records.

Local Open Scope Z_scope.

#[local] Set Default Proof Using "Type*".

Module RecordStore.
Import Hlc Version Conflict Storage Command Uvarint Records.

(** ** State *)

Record latestEntry := mkEntry { le_ver : Version; le_tombstone : bool }.

Record Store (L : Type) := mkStore {
  rs_local : L;
  rs_clock : Clock;
  rs_seq : Z;
  rs_clusterID : bytes;
  rs_memberID : bytes;
  rs_logSeq : Z;
  rs_latestVer : gmap Z (gmap bytes latestEntry);
  rs_liveKeys : Z;
  rs_observed : list (StoredRecord * bool);  (** the observer's calls, latest first *)
}.
Arguments mkStore {L}.
Arguments rs_local {L}.
Arguments rs_clock {L}.
Arguments rs_seq {L}.
Arguments rs_clusterID {L}.
Arguments rs_memberID {L}.
Arguments rs_logSeq {L}.
Arguments rs_latestVer {L}.
Arguments rs_liveKeys {L}.
Arguments rs_observed {L}.

Inductive recErr := RStore (e : storeErr) | RDecode | REncode.

Definition fromStore {A} (m : res storeErr A) : res recErr A :=
  match m with Ok a => Ok a | Err e => Err (RStore e) end.
Definition fromDecode {A} (m : option A) : res recErr A :=
  match m with Some a => Ok a | None => Err RDecode end.
Definition fromEncode {A} (m : option A) : res recErr A :=
  match m with Some a => Ok a | None => Err REncode end.

Definition numStripes : Z := 512.
Definition maxVerCachePer : Z := 8192.

Definition fnv32 (h : Z) (b : byte) : Z := uint32 (Z.lxor h (byteZ b) * 16777619).

Definition stripeIdx (ns key : bytes) : Z :=
  fold_left fnv32 key (fold_left fnv32 ns 2166136261) mod numStripes.

Definition cacheKey (ns key : bytes) : bytes := ns ++ [x00] ++ key.

(** [s.latestVer[si]]. *)
Definition stripeCache (c : gmap Z (gmap bytes latestEntry)) (si : Z) : gmap bytes latestEntry :=
  default ∅ (c !! si).

Definition cacheGet (c : gmap Z (gmap bytes latestEntry)) (ns key : bytes) : option latestEntry :=
  stripeCache c (stripeIdx ns key) !! cacheKey ns key.

(** Record a winner; a full stripe is reset first. *)
Definition cachePut (c : gmap Z (gmap bytes latestEntry)) (ns key : bytes) (e : latestEntry) :=
  let si := stripeIdx ns key in
  let m := stripeCache c si in
  <[si := if Z.of_nat (size m) <? maxVerCachePer then <[cacheKey ns key := e]> m
          else {[cacheKey ns key := e]}]> c.

Definition cacheDrop (c : gmap Z (gmap bytes latestEntry)) (ns key : bytes) :=
  let si := stripeIdx ns key in <[si := delete (cacheKey ns key) (stripeCache c si)]> c.

(** The outcome of comparing an incoming record with the standing winner. *)
Record choice := mkChoice {
  ch_winner : Version;
  ch_tombstone : bool;
  ch_expiry : option Z;
  ch_inline : option bytes;
  ch_priorKnown : bool;
  ch_priorTombstone : bool;
}.

Record ScanRow := mkRow {
  row_Key : bytes; row_Value : bytes; row_Version : Version; row_ExpiresAtMs : option Z }.

Record ExpiredEntry := mkExpired { ex_Namespace : bytes; ex_Key : bytes; ex_IndexKey : bytes }.

Record GetOutcome := mkOutcome {
  go_Found : bool;
  go_Value : bytes;
  go_Version : Version;
  go_Tombstone : bool;
  go_ConflictNone : bool;
  go_ExpiresAtMs : option Z;
}.

Definition zeroVersion : Version := FromProto None.

(** [GetOutcome{}]. *)
Definition noOutcome : GetOutcome := mkOutcome false [] zeroVersion false false None.

Section Ops.
Context {L : Type} `{LocalStore L} `{Proto}.

Definition setLocal (st : Store L) (l : L) : Store L :=
  mkStore l (rs_clock st) (rs_seq st) (rs_clusterID st) (rs_memberID st) (rs_logSeq st)
    (rs_latestVer st) (rs_liveKeys st) (rs_observed st).
Definition setCache (st : Store L) c : Store L :=
  mkStore (rs_local st) (rs_clock st) (rs_seq st) (rs_clusterID st) (rs_memberID st) (rs_logSeq st)
    c (rs_liveKeys st) (rs_observed st).
Definition setLogSeq (st : Store L) n : Store L :=
  mkStore (rs_local st) (rs_clock st) (rs_seq st) (rs_clusterID st) (rs_memberID st) n
    (rs_latestVer st) (rs_liveKeys st) (rs_observed st).
Definition setClock (st : Store L) c n : Store L :=
  mkStore (rs_local st) c n (rs_clusterID st) (rs_memberID st) (rs_logSeq st)
    (rs_latestVer st) (rs_liveKeys st) (rs_observed st).
Definition setLive (st : Store L) n : Store L :=
  mkStore (rs_local st) (rs_clock st) (rs_seq st) (rs_clusterID st) (rs_memberID st) (rs_logSeq st)
    (rs_latestVer st) n (rs_observed st).
Definition observe (st : Store L) rec won : Store L :=
  mkStore (rs_local st) (rs_clock st) (rs_seq st) (rs_clusterID st) (rs_memberID st) (rs_logSeq st)
    (rs_latestVer st) (rs_liveKeys st) ((rec, won) :: rs_observed st).

Definition NewStore (l : L) (clusterID memberID : bytes) (clock : Clock) (seq : Z) : Store L :=
  mkStore l clock seq clusterID memberID 0 ∅ 0 [].

Definition LiveKeys (st : Store L) : Z := rs_liveKeys st.

(** ** Originating a mutation *)

Definition NextVersion (wall : Z) (st : Store L) : Version * Store L :=
  let '(ts, c) := Now wall (rs_clock st) in
  let '(n, seq) := Sequencer_Next (rs_seq st) in
  (mkVersion (PhysicalMs ts) (Logical ts) (rs_clusterID st) (rs_memberID st) n, setClock st c seq).

Definition BuildRecord (wall : Z) (ns key value : bytes) (v : Version) (tombstone : bool)
    (ttlMs : option Z) (st : Store L) : StoredRecord * Store L :=
  let body := if tombstone then None else Some (VInline value) in
  let rec exp := mkStoredRecord key body (Some (ToProto v)) exp tombstone recordKindKV ns
                   (WriterClusterID v) (WriterMemberID v) 0 0 in
  match ttlMs with
  | None => (rec None, st)
  | Some ttl =>
      let '(ts, c) := Now wall (rs_clock st) in
      (rec (Some (int64 (uint64 (PhysicalMs ts + uint64 ttl)))), setClock st c (rs_seq st))
  end.

(** ** Apply *)

(** The winner among the incoming record and the standing one. The cached winner spares
    the read when the incoming version is newer. *)
Definition chooseWinner (rec : StoredRecord) (st : Store L) : res recErr choice :=
  let ns := sr_Namespace rec in
  let key := sr_LogicalKey rec in
  let recVer := recVersion rec in
  let incoming known tomb :=
    mkChoice recVer (sr_tombstone rec) (sr_ExpiresAt rec) (InlineValue rec) known tomb in
  let slow :=
    do? cur ← fromStore (ls_Get (rs_local st) CFKVMeta (latestKey ns key)) ;
    match cur with
    | None => Ok (incoming false false)
    | Some cur =>
        do? lp ← fromDecode (DecodeLatestPointer cur) ;
        let curWin := FromProto (lp_Winner lp) in
        if 0 <=? Version_Compare curWin recVer
        then Ok (mkChoice curWin (lp_Tombstone lp) (lp_ExpiresAt lp)
                   (if Version_Equal curWin recVer then InlineValue rec else lp_InlineValue lp)
                   true (lp_Tombstone lp))
        else Ok (incoming true (lp_Tombstone lp))
    end in
  match cacheGet (rs_latestVer st) ns key with
  | Some cached =>
      if 0 <? Version_Compare recVer (le_ver cached) then Ok (incoming true (le_tombstone cached)) else slow
  | None => slow
  end.

Definition pointerFor (c : choice) : LatestPointer :=
  mkLP (Some (ToProto (ch_winner c))) [] (ch_expiry c) (ch_tombstone c) 0 (ch_inline c).

Definition envelopeFor (rec : StoredRecord) (kind : Z) : MutationEnvelope :=
  mkEnvelope (MutationID (recVersion rec)) kind (sr_LogicalKey rec) (sr_Value rec) (sr_version rec)
    (sr_ExpiresAt rec) (sr_tombstone rec) (sr_Namespace rec) (sr_OriginClusterId rec)
    (sr_OriginMemberId rec) (WriterSequence (recVersion rec)).

(** The engine's per-row TTL: the expiry of a live record, else none. *)
Definition nativeTTL (expiry : option Z) (tombstone : bool) : Z :=
  match expiry with Some e => if tombstone then 0 else e | None => 0 end.

Definition applyRows (rec : StoredRecord) (c : choice) (recBytes lpBytes envBytes : bytes) (logSeq : Z)
    : list StoreOp :=
  let ns := sr_Namespace rec in
  let key := sr_LogicalKey rec in
  let recVer := recVersion rec in
  [mkStoreOp CFKVData (dataKey ns key recVer) recBytes false (nativeTTL (sr_ExpiresAt rec) (sr_tombstone rec));
   mkStoreOp CFKVMeta (latestKey ns key) lpBytes false (nativeTTL (ch_expiry c) (ch_tombstone c));
   putOp CFReplLog (ReplLogKey ns logSeq) envBytes] ++
  match sr_ExpiresAt rec with
  | Some e => if sr_tombstone rec then [] else [putOp CFKVMeta (ttlKey e ns key) (encodeVersion recVer)]
  | None => []
  end.

(** The live-key count after the winner's liveness went from [before] to [after]. *)
Definition liveAfter (n : Z) (before after : bool) : Z :=
  if after && negb before then int64 (n + 1)
  else if before && negb after then int64 (n - 1) else n.

Definition Apply (rec : StoredRecord) (kind : Z) (st : Store L) : res recErr Version * Store L :=
  match chooseWinner rec st with
  | Err e => (Err e, st)
  | Ok c =>
      match fromEncode (EncodeStoredRecord rec), fromEncode (EncodeLatestPointer (pointerFor c)),
            fromEncode (EncodeMutationEnvelope (envelopeFor rec kind)) with
      | Ok recBytes, Ok lpBytes, Ok envBytes =>
          let logSeq := uint64 (rs_logSeq st + 1) in
          let st := setLogSeq st logSeq in
          match ls_BatchRC (rs_local st) (applyRows rec c recBytes lpBytes envBytes logSeq) with
          | Err e => (Err (RStore e), st)
          | Ok l =>
              let st := setLocal st l in
              let st := setLive st (liveAfter (rs_liveKeys st) (ch_priorKnown c && negb (ch_priorTombstone c))
                                      (negb (ch_tombstone c))) in
              let st := setCache st (cachePut (rs_latestVer st) (sr_Namespace rec) (sr_LogicalKey rec)
                                       (mkEntry (ch_winner c) (ch_tombstone c))) in
              (Ok (ch_winner c), observe st rec (Version_Compare (ch_winner c) (recVersion rec) =? 0))
          end
      | _, _, _ => (Err REncode, st)
      end
  end.

(** ** Scans *)

Definition scanLow (ns : bytes) (start : option bytes) : bytes :=
  match start with Some k => latestKey ns k | None => namespacePrefix ns end.
Definition scanHigh (ns : bytes) (stop : option bytes) : option bytes :=
  match stop with Some k => Some (latestKey ns k) | None => prefixEnd (namespacePrefix ns) end.
Definition userKeyOf (ns k : bytes) : bytes := drop (length (namespacePrefix ns)) k.

(** The winner's record behind a latest pointer; any failure reads as absent. *)
Definition winnerRecord (l : L) (ns userKey : bytes) (lp : LatestPointer) : option StoredRecord :=
  match ls_Get l CFKVData (dataKey ns userKey (FromProto (lp_Winner lp))) with
  | Ok (Some b) => DecodeStoredRecord b
  | _ => None
  end.

(** One row of a range scan: [None] when it is hidden or unreadable. *)
Definition scanRow (l : L) (ns : bytes) (nowMs : Z) (kv : StoreKV) : option ScanRow :=
  match DecodeLatestPointer kv.2 with
  | None => None
  | Some lp =>
      let userKey := userKeyOf ns kv.1 in
      let expired := match lp_ExpiresAt lp with Some e => e <=? nowMs | None => false end in
      if lp_Tombstone lp || expired then None
      else
        let value := match lp_InlineValue lp with
                     | Some v => Some v
                     | None => (λ r, GetInline (sr_Value r)) <$> winnerRecord l ns userKey lp
                     end in
        (λ v, mkRow userKey v (FromProto (lp_Winner lp)) (lp_ExpiresAt lp)) <$> value
  end.

(** [limit] rows at most when positive; the source stops the iterator there. *)
Definition capped {A} (limit : Z) (l : list A) : list A :=
  if 0 <? limit then take (Z.to_nat limit) l else l.

Definition ScanRange (ns : bytes) (start stop : option bytes) (limit nowMs : Z) (st : Store L)
    : res recErr (list ScanRow) :=
  do? kvs ← fromStore (ls_Scan (rs_local st) CFKVMeta (Some (scanLow ns start)) (scanHigh ns stop) 0) ;
  Ok (capped limit (omap (scanRow (rs_local st) ns nowMs) kvs)).

Definition scanRecord (l : L) (ns : bytes) (kv : StoreKV) : option StoredRecord :=
  match DecodeLatestPointer kv.2 with
  | None => None
  | Some lp => winnerRecord l ns (userKeyOf ns kv.1) lp
  end.

Definition ScanRecords (ns : bytes) (start stop : option bytes) (st : Store L)
    : res recErr (list StoredRecord) :=
  do? kvs ← fromStore (ls_Scan (rs_local st) CFKVMeta (Some (scanLow ns start)) (scanHigh ns stop) 0) ;
  Ok (omap (scanRecord (rs_local st) ns) kvs).

(** The cursor strictly after a row. Appending an empty user key to a nil slice leaves it
    nil, which reads as no last key. *)
Definition resumeAfter (ns : bytes) (kv : StoreKV) : option bytes :=
  match userKeyOf ns kv.1 with [] => None | userKey => Some (userKey ++ [x00]) end.

Definition ScanRecordsFrom (ns : bytes) (start : option bytes) (limit : Z) (st : Store L)
    : res recErr (list StoredRecord * option bytes) :=
  do? kvs ← fromStore (ls_Scan (rs_local st) CFKVMeta (Some (scanLow ns start))
                         (prefixEnd (namespacePrefix ns)) limit) ;
  let next := if (0 <? limit) && (limit <=? Z.of_nat (length kvs))
              then list.last kvs ≫= resumeAfter ns else None in
  Ok (omap (scanRecord (rs_local st) ns) kvs, next).

(** ** The TTL index *)

Definition expiredEntry (kv : StoreKV) : option ExpiredEntry :=
  (λ p, mkExpired p.1 p.2 kv.1) <$> parseTTLKey kv.1.

Definition ExpiredEntries (nowMs limit : Z) (st : Store L) : res recErr (list ExpiredEntry) :=
  do? kvs ← fromStore (ls_Scan (rs_local st) CFKVMeta (Some ttlLowBound) (Some (ttlScanBound nowMs)) 0) ;
  Ok (capped limit (omap expiredEntry kvs)).

Definition ClearTTLIndex (indexKey : bytes) (st : Store L) : res recErr unit * Store L :=
  match ls_Batch (rs_local st) [delOp CFKVMeta indexKey] with
  | Ok l => (Ok (), setLocal st l)
  | Err e => (Err (RStore e), st)
  end.

Definition ExpiresAt (ns key : bytes) (st : Store L) : option Z :=
  match ls_Get (rs_local st) CFKVMeta (latestKey ns key) with
  | Ok (Some cur) => match DecodeLatestPointer cur with Some lp => lp_ExpiresAt lp | None => None end
  | _ => None
  end.

(** ** Siblings *)

Definition siblingPointer (winner : StoredRecord) (siblings : list StoredRecord) : LatestPointer :=
  mkLP (sr_version winner)
    (omap (λ r, if Version_Equal (recVersion r) (recVersion winner) then None else
                Some (default (ToProto zeroVersion) (sr_version r))) siblings)
    None (sr_tombstone winner) 0 (InlineValue winner).

Definition siblingRow (ns key : bytes) (r : StoredRecord) : res recErr StoreOp :=
  do? b ← fromEncode (EncodeStoredRecord r) ; Ok (putOp CFKVData (dataKey ns key (recVersion r)) b).

Fixpoint siblingRows (ns key : bytes) (rs : list StoredRecord) : res recErr (list StoreOp) :=
  match rs with
  | [] => Ok []
  | r :: rs =>
      do? op ← siblingRow ns key r ;
      do? ops ← siblingRows ns key rs ;
      Ok (op :: ops)
  end.

Definition ApplySiblings (ns key : bytes) (siblings : list StoredRecord) (st : Store L)
    : res recErr unit * Store L :=
  match siblings with
  | [] => (Ok (), st)
  | r :: rs =>
      let st := setCache st (cacheDrop (rs_latestVer st) ns key) in
      let winner := winnerOf r rs in
      match siblingRows ns key siblings with
      | Err e => (Err e, st)
      | Ok ops =>
          match EncodeLatestPointer (siblingPointer winner siblings) with
          | None => (Err REncode, st)
          | Some lpBytes =>
              match ls_BatchRC (rs_local st) (ops ++ [putOp CFKVMeta (latestKey ns key) lpBytes]) with
              | Ok l => (Ok (), setLocal st l)
              | Err e => (Err (RStore e), st)
              end
          end
      end
  end.

(** ** Point reads *)

Definition GetRecord (ns key : bytes) (st : Store L) : res recErr (option StoredRecord) :=
  do? cur ← fromStore (ls_Get (rs_local st) CFKVMeta (latestKey ns key)) ;
  match cur with
  | None => Ok None
  | Some cur =>
      do? lp ← fromDecode (DecodeLatestPointer cur) ;
      do? rb ← fromStore (ls_Get (rs_local st) CFKVData (dataKey ns key (FromProto (lp_Winner lp)))) ;
      match rb with
      | None => Ok None
      | Some rb => do? rec ← fromDecode (DecodeStoredRecord rb) ; Ok (Some rec)
      end
  end.

Definition Get (ns key : bytes) (st : Store L) : res recErr GetOutcome :=
  do? cur ← fromStore (ls_Get (rs_local st) CFKVMeta (latestKey ns key)) ;
  match cur with
  | None => Ok noOutcome
  | Some cur =>
      do? lp ← fromDecode (DecodeLatestPointer cur) ;
      let win := FromProto (lp_Winner lp) in
      let out found value :=
        mkOutcome found value win (lp_Tombstone lp) (bool_decide (lp_SiblingVersions lp = [])) (lp_ExpiresAt lp) in
      if lp_Tombstone lp then Ok (out false [])
      else match lp_InlineValue lp with
           | Some v => Ok (out true v)
           | None =>
               do? rb ← fromStore (ls_Get (rs_local st) CFKVData (dataKey ns key win)) ;
               match rb with
               | None => Ok (out false [])
               | Some rb =>
                   do? rec ← fromDecode (DecodeStoredRecord rb) ; Ok (out true (GetInline (sr_Value rec)))
               end
           end
  end.

(** ** Forget *)

Definition Forget (ns key : bytes) (st : Store L) : res recErr unit * Store L :=
  match ls_Scan (rs_local st) CFKVData (Some (dataKeyPrefix ns key)) (prefixEnd (dataKeyPrefix ns key)) 0 with
  | Err e => (Err (RStore e), st)
  | Ok kvs =>
      match ls_Batch (rs_local st)
              (delOp CFKVMeta (latestKey ns key) :: ((λ kv, delOp CFKVData kv.1) <$> kvs)) with
      | Ok l => (Ok (), setLocal st l)
      | Err e => (Err (RStore e), st)
      end
  end.

End Ops.

End RecordStore.
