(* ===== verification/RecordRefine.v ===== *)
(** * The record store implements last-write-wins (recordstore)

    The abstract record store is a map from (namespace, key) to the winning record. The
    invariant [rs_inv] relates a store to it; [Apply] is one last-write-wins resolution,
    reads answer from the map. *)

From S2P Require Import Prelude Bytes Hlc Version Conflict Storage Command Uvarint Records RecordSamples RecordStore.

Local Open Scope Z_scope.

#[local] Set Default Proof Using "Type".

Module RecordRefine.
Import Hlc Version Conflict Storage Command Uvarint Records RecordStore.

(** ** Well-formed records *)

Definition ns_ok (ns : bytes) : Prop := lenZ ns < 128 ∧ x00 ∉ ns.

Definition record_ok (r : StoredRecord) : Prop :=
  ns_ok (sr_Namespace r) ∧ id_ok (sr_LogicalKey r) ∧ version_ok (recVersion r).

Definition keyOf (r : StoredRecord) : bytes * bytes := (sr_Namespace r, sr_LogicalKey r).

(** The pointer to a winner with no siblings. *)
Definition winnerPointer (r : StoredRecord) : LatestPointer :=
  mkLP (Some (ToProto (recVersion r))) [] (sr_ExpiresAt r) (sr_tombstone r) 0 (InlineValue r).

Definition live (r : StoredRecord) : Prop := sr_tombstone r = false.
#[export] Instance live_dec r : Decision (live r).
Proof. unfold live. apply _. Defined.

Abbreviation winners := (gmap (bytes * bytes) StoredRecord).

Definition absorbInto (A : winners) (r : StoredRecord) : winners :=
  partial_alter (λ held, absorb held r) (keyOf r) A.

Definition liveCount (A : winners) : Z := Z.of_nat (size (filter (λ p, live p.2) A)).

(** A version stamps one record of a key. *)
Definition agrees (A : winners) (r : StoredRecord) : Prop :=
  ∀ w, A !! keyOf r = Some w → recVersion w = recVersion r → w = r.

Lemma ns_ok_id ns : ns_ok ns → id_ok ns.
Proof. intros [Hl _]. unfold id_ok. lia. Qed.

Lemma FromProto_ToProto v : FromProto (Some (ToProto v)) = v.
Proof. by destruct v. Qed.

Lemma Compare_ge_beats w r :
  (0 <=? Version_Compare (recVersion w) (recVersion r)) = negb (bool_decide (beats r w)).
Proof.
  rewrite Version_Compare_cmp. destruct (bool_decide_reflect (beats r w)) as [Hb|Hb]; unfold beats in Hb;
    [by rewrite Hb|by destruct (version_cmp _ _)].
Qed.

Lemma Version_Equal_eq a b : Version_Equal a b = true ↔ a = b.
Proof.
  unfold Version_Equal. rewrite !andb_true_iff, !Z.eqb_eq, !bool_decide_eq_true.
  split; [intros [[[[? ?] ?] ?] ?]; destruct a, b; simpl in *; congruence|by intros ->].
Qed.

Lemma absorb_None r : absorb None r = Some r.
Proof. unfold absorb, HLCLastWriteWins_Resolve. simpl. by destruct (sr_tombstone r). Qed.

Lemma absorb_Some w r : (recVersion w = recVersion r → w = r) → absorb (Some w) r = Some (if decide (beats r w) then r else w).
Proof.
  intros Hu. unfold absorb, HLCLastWriteWins_Resolve. cbn [fold_left lww_step].
  destruct (0 <? _) eqn:E.
  - apply Compare_beats in E. rewrite decide_False by (by apply beats_asym). simpl. by destruct (sr_tombstone w).
  - assert (¬ beats w r) as Hn by (rewrite <-Compare_beats; congruence). cbn [resultRecord].
    assert ((if decide (beats r w) then r else w) = r) as ->.
    { destruct (decide (beats r w)); [done|]. apply Hu. destruct (not_beats_cases w r Hn) as [|]; [contradiction|done]. }
    by destruct (sr_tombstone r).
Qed.

(** ** The cache *)

Lemma cacheKey_inj ns1 ns2 k1 k2 :
  x00 ∉ ns1 → x00 ∉ ns2 → cacheKey ns1 k1 = cacheKey ns2 k2 → ns1 = ns2 ∧ k1 = k2.
Proof. intros H1 H2 E. by apply sep_split in E. Qed.

Lemma stripeCache_insert c si si' m :
  stripeCache (<[si := m]> c) si' = if decide (si' = si) then m else stripeCache c si'.
Proof.
  unfold stripeCache. destruct (decide _) as [->|]; [by rewrite lookup_insert_eq|by rewrite lookup_insert_ne].
Qed.

Lemma cacheGet_put c ns k ns' k' e :
  x00 ∉ ns → x00 ∉ ns' → cacheGet (cachePut c ns k e) ns' k' =
    if decide ((ns', k') = (ns, k)) then Some e
    else if decide (stripeIdx ns' k' = stripeIdx ns k)
         then if Z.of_nat (size (stripeCache c (stripeIdx ns k))) <? maxVerCachePer then cacheGet c ns' k' else None
         else cacheGet c ns' k'.
Proof.
  intros H1 H2. unfold cacheGet, cachePut. rewrite stripeCache_insert.
  destruct (decide ((ns', k') = (ns, k))) as [[= -> ->]|Hne].
  { rewrite decide_True by done. case_match; [apply lookup_insert_eq|apply lookup_singleton_eq]. }
  assert (cacheKey ns k ≠ cacheKey ns' k') as Hk.
  { intros E%cacheKey_inj; [|done..]. naive_solver. }
  destruct (decide _) as [->|]; [|done].
  case_match; [by rewrite lookup_insert_ne|by rewrite lookup_singleton_ne].
Qed.

(** ** Keys in order *)

(** The user keys of a namespace in [[start, stop)], in byte order, and their winners. *)
Definition keysIn (A : winners) (ns : bytes) (start stop : option bytes) : list bytes :=
  merge_sort bytes_le
    (filter (λ k, in_bounds start stop k)
       (omap (λ p, if decide (p.1.1 = ns) then Some p.1.2 else None) (map_to_list A))).

Definition recordsIn (A : winners) (ns : bytes) (start stop : option bytes) : list StoredRecord :=
  omap (λ k, A !! (ns, k)) (keysIn A ns start stop).

Lemma elem_of_keysIn A ns start stop k :
  k ∈ keysIn A ns start stop ↔ is_Some (A !! (ns, k)) ∧ in_bounds start stop k.
Proof.
  unfold keysIn. rewrite merge_sort_Permutation, list_elem_of_filter, list_elem_of_omap. split.
  - intros (Hb & [[ns' k'] r] & Hin%elem_of_map_to_list & E). simpl in E. case_decide; simplify_eq. eauto.
  - intros [[r Hr] Hb]. split; [done|]. exists ((ns, k), r). rewrite elem_of_map_to_list. simpl.
    by rewrite decide_True.
Qed.

Lemma keysIn_NoDup A ns start stop : NoDup (keysIn A ns start stop).
Proof.
  unfold keysIn. rewrite merge_sort_Permutation. apply NoDup_filter.
  assert (∀ l : list (bytes * bytes * StoredRecord), NoDup l.*1 →
    NoDup (omap (λ p, if decide (p.1.1 = ns) then Some p.1.2 else None) l)) as Hl.
  { induction l as [|[[ns' k'] r] l IH]; simpl; [constructor|]. intros [Hn Hd]%NoDup_cons.
    case_decide; simpl; [|by apply IH]. apply NoDup_cons. split; [|by apply IH]. subst ns'.
    intros ([[ns'' k''] r''] & Hin & E)%list_elem_of_omap. simpl in E. case_decide; simplify_eq. apply Hn.
    apply list_elem_of_fmap. by exists ((ns, k'), r''). }
  apply Hl, NoDup_fst_map_to_list.
Qed.

Lemma prefix_le (p k : bytes) : bytes_le p (p ++ k).
Proof. apply (prefixEnd_spec p (p ++ k)). by apply prefix_app_r. Qed.

Lemma app_bytes_le (p k1 k2 : bytes) : bytes_le (p ++ k1) (p ++ k2) ↔ bytes_le k1 k2.
Proof. unfold bytes_le. by rewrite bcompare_app_l. Qed.

Lemma app_bytes_lt (p k1 k2 : bytes) : bytes_lt (p ++ k1) (p ++ k2) ↔ bytes_lt k1 k2.
Proof. unfold bytes_lt. by rewrite bcompare_app_l. Qed.

(** A scan between two keys of a namespace sees keys of the namespace only. *)
Lemma scan_bounds ns start stop x :
  in_bounds (Some (scanLow ns start)) (scanHigh ns stop) x ↔
  ∃ k, x = latestKey ns k ∧ in_bounds start stop k.
Proof.
  unfold scanLow, scanHigh, latestKey, namespacePrefix. set (p := lenPrefix [] ns).
  assert (in_bounds (Some (match start with Some k => p ++ k | None => p end))
            (match stop with Some k => Some (p ++ k) | None => prefixEnd p end) x → p `prefix_of` x) as Hp.
  { intros [Hlo Hhi]. apply prefixEnd_spec. split.
    - trans (match start with Some k => p ++ k | None => p end); [|done]. destruct start; [apply prefix_le|done].
    - destruct stop as [e|]; [|done].
      pose proof (proj2 (prefixEnd_spec p (p ++ e)) (prefix_app_r p p e (reflexivity p))) as [_ He].
      destruct (prefixEnd p); [|done]. by eapply bytes_lt_trans. }
  assert (∀ k, in_bounds (Some (match start with Some k => p ++ k | None => p end))
            (match stop with Some k => Some (p ++ k) | None => prefixEnd p end) (p ++ k) ↔ in_bounds start stop k) as Hk.
  { intros k. pose proof (proj2 (prefixEnd_spec p (p ++ k)) (prefix_app_r p p k (reflexivity p))) as [_ He].
    unfold in_bounds. destruct start, stop; rewrite ?app_bytes_le, ?app_bytes_lt; pose proof (prefix_le p k); tauto. }
  split; [intros Hb; destruct (Hp Hb) as [k ->]; exists k; by rewrite <-Hk|intros (k & -> & Hb); by apply Hk].
Qed.

Lemma bytes_le_succ (k x : bytes) : bytes_le (k ++ [x00]) x ↔ bytes_lt k x.
Proof.
  unfold bytes_le, bytes_lt. revert x. induction k as [|b k IH]; intros [|c x]; simpl; [naive_solver| |naive_solver|].
  - pose proof (byteZ_range c). destruct (byteZ c); [by destruct x|naive_solver|lia].
  - destruct (Z.compare_spec (byteZ b) (byteZ c)); [apply IH|naive_solver..].
Qed.

Lemma keysIn_sorted A ns start stop : StronglySorted bytes_le (keysIn A ns start stop).
Proof. apply StronglySorted_merge_sort; apply _. Qed.

(** Resuming after the last key of a page gives the keys the page left out. *)
Lemma keysIn_resume A ns start n k :
  list.last (take n (keysIn A ns start None)) = Some k →
  keysIn A ns (Some (k ++ [x00])) None = drop n (keysIn A ns start None).
Proof.
  intros Hk. set (l := keysIn A ns start None) in *. apply last_Some in Hk as [l' Hl'].
  pose proof (StronglySorted_strict l (keysIn_sorted _ _ _ _) (keysIn_NoDup _ _ _ _)) as Hs.
  pose proof (take_drop n l) as El. rewrite Hl' in El. rewrite <-El in Hs.
  apply StronglySorted_app in Hs as (Hx & Hs1 & Hs2).
  apply (StronglySorted_unique bytes_le).
  - apply keysIn_sorted.
  - pose proof (keysIn_sorted A ns start None) as Hd. fold l in Hd. rewrite <-(take_drop n l) in Hd.
    by apply StronglySorted_app in Hd as (_ & _ & Hd).
  - apply NoDup_Permutation; [apply keysIn_NoDup|apply (sublist_NoDup _ l); [apply keysIn_NoDup|apply sublist_drop]|].
    intros x. rewrite elem_of_keysIn. unfold in_bounds. rewrite bytes_le_succ. split.
    + intros [Hsome [Hlt _]]. assert (x ∈ l) as Hin.
      { apply elem_of_keysIn. split; [done|]. split; [|done]. destruct start as [s|]; [|done].
        assert (k ∈ l) as [_ [Hsk _]]%elem_of_keysIn by (rewrite <-El; set_solver).
        trans k; [done|]. apply bytes_le_lteq. by left. }
      rewrite <-El in Hin. apply elem_of_app in Hin as [Hin|]; [|done].
      apply StronglySorted_app in Hs1 as (Hx' & _ & _).
      assert (bytes_le x k) as Hle.
      { apply elem_of_app in Hin as [Hin| ->%list_elem_of_singleton]; [|done]. apply bytes_le_lteq. left.
        apply Hx'; [done|by left]. }
      by apply bytes_lt_nle in Hlt.
    + intros Hd. assert (x ∈ l) as [Hsome _]%elem_of_keysIn by (rewrite <-El; set_solver).
      split_and!; [done| |done]. apply Hx; [set_solver|done].
Qed.

Lemma omap_fmap_ext {B C D} (f : B → C) (g : C → option D) (h : B → option D) (l : list B) :
  (∀ x, x ∈ l → g (f x) = h x) → omap g (f <$> l) = omap h l.
Proof.
  induction l as [|x l IH]; intros E; [done|]. simpl. rewrite (E x) by left.
  destruct (h x); f_equal; apply IH; intros y Hy; apply E; by right.
Qed.

Lemma omap_omap {B C D} (f : B → option C) (g : C → option D) (l : list B) :
  omap g (omap f l) = omap (λ x, f x ≫= g) l.
Proof.
  induction l as [|x l IH]; [done|]. cbn [omap list_omap]. destruct (f x); cbn; [|done].
  destruct (g _); by rewrite <-IH.
Qed.

(** ** The invariant *)

Section Inv.
Context {L : Type} {LS : LocalStore L} {LSS : LocalStoreSpec L} {PB : Proto} {PBS : ProtoSpec}.

(** Marshalling accepts the record, its pointer and its envelope. *)
Definition marshals (r : StoredRecord) : Prop :=
  is_Some (EncodeStoredRecord r) ∧ is_Some (EncodeLatestPointer (winnerPointer r)) ∧
  ∀ kind, is_Some (EncodeMutationEnvelope (envelopeFor r kind)).

Definition storable (r : StoredRecord) : Prop := record_ok r ∧ marshals r.

(** What the meta and data rows of a key say when its winner is [h]. *)
Definition meta_row (m : gmap bytes bytes) (ns k : bytes) (h : option StoredRecord) : Prop :=
  match h with
  | Some r => ∃ b, m !! latestKey ns k = Some b ∧ DecodeLatestPointer b = Some (winnerPointer r)
  | None => m !! latestKey ns k = None
  end.

Definition data_row (d : gmap bytes bytes) (ns k : bytes) (h : option StoredRecord) : Prop :=
  match h with
  | Some r => keyOf r = (ns, k) ∧ storable r ∧
      ∃ b, d !! dataKey ns k (recVersion r) = Some b ∧ DecodeStoredRecord b = Some r
  | None => True
  end.

Record rs_inv (st : Store L) (A : winners) : Prop := {
  inv_live : ls_live (rs_local st);
  inv_meta ns k : ns_ok ns → meta_row (ls_view (rs_local st) CFKVMeta) ns k (A !! (ns, k));
  inv_data ns k : data_row (ls_view (rs_local st) CFKVData) ns k (A !! (ns, k));
  inv_cache ns k e : ns_ok ns → cacheGet (rs_latestVer st) ns k = Some e →
    ∃ r, A !! (ns, k) = Some r ∧ e = mkEntry (recVersion r) (sr_tombstone r);
  inv_count : rs_liveKeys st = int64 (liveCount A);
}.

Lemma rs_inv_new l cl me ck sq :
  ls_live l → ls_view l CFKVMeta = ∅ → rs_inv (NewStore l cl me ck sq) ∅.
Proof.
  intros Hl Hm. constructor; simpl; [done| | | |done].
  - intros ns k _. by rewrite Hm, lookup_empty.
  - intros ns k. by rewrite lookup_empty.
  - intros ns k e _. unfold cacheGet, stripeCache. rewrite lookup_empty. done.
Qed.

(** *** Choosing the winner *)

(** The choice that makes [w] the winner over the prior holder [h]. *)
Definition choiceOf (h : option StoredRecord) (w : StoredRecord) : choice :=
  mkChoice (recVersion w) (sr_tombstone w) (sr_ExpiresAt w) (InlineValue w)
    (bool_decide (is_Some h)) (match h with Some r => sr_tombstone r | None => false end).

Lemma pointerFor_choiceOf h w : pointerFor (choiceOf h w) = winnerPointer w.
Proof. done. Qed.

Lemma chooseWinner_ok st A r :
  rs_inv st A → ns_ok (sr_Namespace r) → agrees A r →
  ∃ w, absorb (A !! keyOf r) r = Some w ∧ chooseWinner r st = Ok (choiceOf (A !! keyOf r) w).
Proof.
  intros Hi Hns Hag. pose proof (inv_meta _ _ Hi _ (sr_LogicalKey r) Hns) as Hm.
  pose proof (inv_cache _ _ Hi (sr_Namespace r) (sr_LogicalKey r)) as Hc. fold (keyOf r) in Hm, Hc.
  unfold chooseWinner. rewrite ls_Get_ok by (apply Hi || done). cbn [fromStore res_bind].
  destruct (A !! keyOf r) as [w|] eqn:EA; simpl in Hm.
  - destruct Hm as (b & -> & Hb). cbn [res_bind fromDecode]. rewrite Hb. cbn [res_bind fromDecode].
    rewrite absorb_Some by (by apply Hag). exists (if decide (beats r w) then r else w). split; [done|].
    assert ((if 0 <=? Version_Compare (recVersion w) (recVersion r)
             then Ok (mkChoice (recVersion w) (sr_tombstone w) (sr_ExpiresAt w)
                    (if Version_Equal (recVersion w) (recVersion r) then InlineValue r else InlineValue w) true (sr_tombstone w))
             else Ok (mkChoice (recVersion r) (sr_tombstone r) (sr_ExpiresAt r) (InlineValue r) true (sr_tombstone w)))
            = (Ok (choiceOf (Some w) (if decide (beats r w) then r else w)) : res recErr choice)) as Hslow.
    { rewrite Compare_ge_beats. destruct (decide (beats r w)) as [Hb'|Hb'].
      - by rewrite bool_decide_eq_true_2.
      - rewrite bool_decide_eq_false_2 by done. cbn [negb]. destruct (Version_Equal _ _) eqn:Eq; [|done].
        apply Version_Equal_eq in Eq. by rewrite (Hag w). }
    cbn [winnerPointer lp_Winner lp_Tombstone lp_ExpiresAt lp_InlineValue]. rewrite FromProto_ToProto.
    destruct (cacheGet _ _ _) as [e|] eqn:Ec; [|exact Hslow].
    destruct (Hc e Hns eq_refl) as (w' & [= <-] & ->). cbn [le_ver le_tombstone].
    destruct (0 <? _) eqn:Eb; [|exact Hslow]. apply Compare_beats in Eb. by rewrite decide_True.
  - rewrite Hm. rewrite absorb_None. exists r. split; [done|].
    destruct (cacheGet _ _ _) as [e|] eqn:Ec; [|done].
    destruct (Hc e Hns eq_refl) as (w' & ? & _). done.
Qed.

(** *** One apply *)

Lemma applyRows_meta r c rb lb eb n m ns k :
  ns_ok (sr_Namespace r) → ns_ok ns →
  apply_ops CFKVMeta (applyRows r c rb lb eb n) m !! latestKey ns k =
    if decide ((ns, k) = keyOf r) then Some lb else m !! latestKey ns k.
Proof.
  intros H1 H2. unfold applyRows. rewrite apply_ops_app. cbn.
  assert (∀ e (v : bytes) (m' : gmap bytes bytes), <[ttlKey e (sr_Namespace r) (sr_LogicalKey r) := v]> m' !! latestKey ns k = m' !! latestKey ns k) as Ht.
  { intros e v m'. apply lookup_insert_ne, not_eq_sym, latestKey_ttl, H2. }
  assert (<[latestKey (sr_Namespace r) (sr_LogicalKey r) := lb]> m !! latestKey ns k =
    if decide ((ns, k) = keyOf r) then Some lb else m !! latestKey ns k) as Hl.
  { destruct (decide _) as [[= -> ->]|Hne]; [apply lookup_insert_eq|]. apply lookup_insert_ne.
    intros [E1 E2]%latestKey_inj; [|by apply ns_ok_id..]. apply Hne. unfold keyOf. congruence. }
  destruct (sr_ExpiresAt r); [destruct (sr_tombstone r)|]; [exact Hl|etrans; [apply Ht|exact Hl]|exact Hl].
Qed.

Lemma applyRows_data r c rb lb eb n d :
  apply_ops CFKVData (applyRows r c rb lb eb n) d = <[dataKey (sr_Namespace r) (sr_LogicalKey r) (recVersion r) := rb]> d.
Proof.
  unfold applyRows. rewrite apply_ops_app. cbn. by destruct (sr_ExpiresAt r); [destruct (sr_tombstone r)|].
Qed.

Lemma applyRows_valid r c rb lb eb n : Forall (λ op, cf_valid (op_CF op) = true) (applyRows r c rb lb eb n).
Proof. unfold applyRows. destruct (sr_ExpiresAt r); [destruct (sr_tombstone r)|]; repeat constructor. Qed.

Lemma absorbInto_insert A r w : absorb (A !! keyOf r) r = Some w → absorbInto A r = <[keyOf r := w]> A.
Proof. intros E. unfold absorbInto. apply map_eq. intros i. destruct (decide (i = keyOf r)) as [->|].
  - by rewrite lookup_partial_alter_eq, lookup_insert_eq.
  - by rewrite lookup_partial_alter_ne, lookup_insert_ne.
Qed.

Lemma absorb_keeps (P : StoredRecord → Prop) h r w :
  absorb h r = Some w → P r → (∀ v, h = Some v → P v) → P w.
Proof.
  unfold absorb, HLCLastWriteWins_Resolve. intros E Hr Hh. destruct h as [v|]; cbn [fold_left lww_step] in E.
  - specialize (Hh v eq_refl). destruct (0 <? _); cbn in E; case_match; simplify_eq/=; done.
  - cbn in E. case_match; simplify_eq/=; done.
Qed.

Lemma liveCount_insert A k w :
  int64 (liveCount (<[k := w]> A)) =
    liveAfter (int64 (liveCount A)) (match A !! k with Some r => negb (sr_tombstone r) | None => false end)
      (negb (sr_tombstone w)).
Proof.
  assert (∀ z, int64 (int64 z + 1) = int64 (z + 1) ∧ int64 (int64 z - 1) = int64 (z - 1)) as Hz.
  { intros z. split; [apply int64_add_l|]. apply (int64_add_l z (-1)). }
  set (before := match A !! k with Some r => negb (sr_tombstone r) | None => false end).
  assert (liveCount (delete k A) = liveCount A - Z.b2z before) as Hd.
  { unfold liveCount, before. rewrite map_filter_delete. destruct (A !! k) as [r|] eqn:E.
    - destruct (sr_tombstone r) eqn:Et; simpl.
      + rewrite delete_id; [lia|]. apply map_lookup_filter_None. right. intros x Hx. unfold live. simpl. congruence.
      + assert (filter (λ p : bytes * bytes * StoredRecord, live p.2) A !! k = Some r) as Hs by (by apply map_lookup_filter_Some).
        rewrite map_size_delete_Some by eauto. apply lookup_lt_Some_size in Hs || idtac.
        assert (size (filter (λ p : bytes * bytes * StoredRecord, live p.2) A) ≠ 0%nat) as Hne.
        { intros H0%map_size_empty_inv. rewrite H0 in Hs. by rewrite lookup_empty in Hs. }
        lia.
    - rewrite delete_id; [simpl; lia|]. apply map_lookup_filter_None. by left. }
  assert (liveCount (<[k := w]> A) = liveCount (delete k A) + Z.b2z (negb (sr_tombstone w))) as Hin.
  { rewrite <-insert_delete_eq. unfold liveCount. destruct (sr_tombstone w) eqn:Et; simpl.
    - rewrite map_filter_insert_False by (unfold live; simpl; congruence). rewrite delete_delete_eq. lia.
    - rewrite map_filter_insert_True by done. rewrite map_size_insert_None; [lia|].
      apply map_lookup_filter_None. left. apply lookup_delete_eq. }
  rewrite Hin, Hd. unfold liveAfter. destruct before, (sr_tombstone w); simpl; destruct (Hz (liveCount A)) as [E1 E2].
  - rewrite E2. f_equal; lia.
  - f_equal; lia.
  - f_equal; lia.
  - rewrite E1. f_equal; lia.
Qed.

(** A winner's data row survives an apply: another key or version has another row, and
    the winner's own version is the record itself. *)
Lemma data_row_apply A r w d rb ns k :
  absorb (A !! keyOf r) r = Some w → agrees A r → storable r →
  DecodeStoredRecord rb = Some r → (∀ ns k, data_row d ns k (A !! (ns, k))) →
  data_row (<[dataKey (sr_Namespace r) (sr_LogicalKey r) (recVersion r) := rb]> d) ns k (<[keyOf r := w]> A !! (ns, k)).
Proof.
  intros Ew Hag Hst Hrb Hd.
  assert (∀ v, A !! (ns, k) = Some v → data_row (<[dataKey (sr_Namespace r) (sr_LogicalKey r) (recVersion r) := rb]> d) ns k (Some v)) as Hold.
  { intros v Hv. specialize (Hd ns k). rewrite Hv in Hd. destruct Hd as (E & Hs & b & Hb & Hdec).
    split_and!; [done..|]. injection E as <- <-.
    destruct (decide (dataKey (sr_Namespace r) (sr_LogicalKey r) (recVersion r) =
                      dataKey (sr_Namespace v) (sr_LogicalKey v) (recVersion v))) as [Ek|Ek];
      [|exists b; by rewrite lookup_insert_ne].
    rewrite <-Ek. exists rb. rewrite lookup_insert_eq. split; [done|]. destruct Hst as [(? & ? & ?) _], Hs as [(? & ? & ?) _].
    apply dataKey_inj in Ek as (En & Ekk & Ev); [|first [done|by apply ns_ok_id]..]. rewrite Hrb. f_equal. symmetry. apply Hag; [|congruence].
    unfold keyOf. by rewrite En, Ekk. }
  destruct (decide ((ns, k) = keyOf r)) as [E|Hne].
  - rewrite E, lookup_insert_eq. injection E as -> ->.
    apply (absorb_keeps (λ v, data_row _ _ _ (Some v)) _ _ _ Ew); [|exact Hold].
    split_and!; [done..|]. exists rb. by rewrite lookup_insert_eq.
  - rewrite lookup_insert_ne by done. destruct (A !! (ns, k)); [by apply Hold|done].
Qed.

(** Applying a storable record is one last-write-wins resolution of its key. *)
Lemma Apply_ok st A r kind :
  rs_inv st A → storable r → agrees A r →
  ∃ w st', absorb (A !! keyOf r) r = Some w ∧ Apply r kind st = (Ok (recVersion w), st') ∧
    rs_inv st' (absorbInto A r) ∧ rs_observed st' = (r, bool_decide (w = r)) :: rs_observed st.
Proof using Type PBS.
  intros Hi Hst Hag. pose proof Hst as [(Hns & Hk & Hv) [[rb Hrb] [_ Henv]]].
  destruct (chooseWinner_ok st A r Hi Hns Hag) as (w & Ew & Ec). unfold Apply. rewrite Ec.
  assert (storable w ∧ (recVersion w = recVersion r → w = r)) as [Hw Hwr].
  { apply (absorb_keeps (λ v, storable v ∧ (recVersion v = recVersion r → v = r)) _ _ _ Ew); [done|]. intros v Ev. split; [|by apply Hag].
    pose proof (inv_data _ _ Hi (sr_Namespace r) (sr_LogicalKey r)) as Hd.
    fold (keyOf r) in Hd. rewrite Ev in Hd. apply Hd. }
  destruct Hw as [_ [_ [[lb Hlb] _]]]. destruct (Henv kind) as [eb Heb].
  rewrite pointerFor_choiceOf, Hrb, Hlb, Heb. cbn [fromEncode].
  edestruct ls_BatchRC_ok as (l' & -> & Hl' & Hview); [apply Hi|apply applyRows_valid|].
  exists w. eexists. split_and!; [done..| |].
  - rewrite (absorbInto_insert A r w Ew). split; cbn [observe setCache setLive setLocal setLogSeq rs_local rs_latestVer rs_liveKeys].
    + done.
    + intros ns k Hn. rewrite Hview by done. unfold meta_row. rewrite applyRows_meta by done.
      destruct (decide _) as [->|Hne].
      * rewrite lookup_insert_eq. exists lb. split; [done|]. by apply decode_pointer.
      * rewrite lookup_insert_ne by done. by apply (inv_meta _ _ Hi).
    + intros ns k. rewrite Hview by done. rewrite applyRows_data.
      apply data_row_apply; [done..|by apply decode_record|apply Hi].
    + intros ns k e Hn. rewrite cacheGet_put by (apply Hns || apply Hn). destruct (decide _) as [->|Hne].
      * intros [= <-]. exists w. by rewrite lookup_insert_eq.
      * rewrite lookup_insert_ne by done. intros He. apply (inv_cache _ _ Hi); [done|]. by repeat case_match.
    + rewrite liveCount_insert, <-(inv_count _ _ Hi). f_equal.
      cbn [choiceOf ch_priorKnown ch_priorTombstone]. by destruct (A !! keyOf r).
  - cbn. do 2 f_equal. rewrite Version_Compare_cmp. destruct (bool_decide_reflect (w = r)) as [->|Hne].
    + by rewrite (cmp_refl version_cmp).
    + destruct (version_cmp _ _) eqn:E; [|done..]. apply (cmp_eq (cmp:=version_cmp)) in E. by apply Hwr in E.
Qed.

(** *** Reads *)

Definition outcomeOf (h : option StoredRecord) : GetOutcome :=
  match h with
  | None => noOutcome
  | Some r => mkOutcome (negb (sr_tombstone r)) (if sr_tombstone r then [] else GetInline (sr_Value r))
                (recVersion r) (sr_tombstone r) true (sr_ExpiresAt r)
  end.

Lemma InlineValue_Some r v : InlineValue r = Some v → GetInline (sr_Value r) = v.
Proof.
  unfold InlineValue, GetInline. repeat case_match; intros; simplify_eq; done.
Qed.

Lemma inv_pointer st A ns k :
  rs_inv st A → ns_ok ns →
  match A !! (ns, k) with
  | Some r => ∃ b rb, ls_Get (rs_local st) CFKVMeta (latestKey ns k) = Ok (Some b) ∧
      DecodeLatestPointer b = Some (winnerPointer r) ∧
      ls_Get (rs_local st) CFKVData (dataKey ns k (recVersion r)) = Ok (Some rb) ∧
      DecodeStoredRecord rb = Some r
  | None => ls_Get (rs_local st) CFKVMeta (latestKey ns k) = Ok None
  end.
Proof.
  intros Hi Hn. pose proof (inv_meta _ _ Hi ns k Hn) as Hm. pose proof (inv_data _ _ Hi ns k) as Hd.
  destruct (A !! (ns, k)) as [r|]; simpl in Hm, Hd.
  - destruct Hm as (b & Hb & Hp), Hd as (_ & _ & rb & Hrb & Hr). exists b, rb.
    by rewrite !ls_Get_ok, Hb, Hrb by (done || apply Hi).
  - rewrite ls_Get_ok by (done || apply Hi). by rewrite Hm.
Qed.

Lemma Get_ok st A ns k : rs_inv st A → ns_ok ns → Get ns k st = Ok (outcomeOf (A !! (ns, k))).
Proof.
  intros Hi Hn. pose proof (inv_pointer st A ns k Hi Hn) as Hp. unfold Get.
  destruct (A !! (ns, k)) as [r|]; [|by rewrite Hp].
  destruct Hp as (b & rb & -> & Hb & Hrb & Hr). cbn [fromStore res_bind]. rewrite Hb. cbn [fromDecode res_bind].
  cbn [winnerPointer lp_Winner lp_Tombstone lp_ExpiresAt lp_InlineValue lp_SiblingVersions outcomeOf].
  rewrite FromProto_ToProto, Hrb. cbn [fromStore res_bind]. rewrite Hr. cbn [fromDecode res_bind].
  destruct (sr_tombstone r); [done|]. destruct (InlineValue r) as [v|] eqn:Ei; [|done].
  by rewrite (InlineValue_Some r v).
Qed.

Lemma GetRecord_ok st A ns k : rs_inv st A → ns_ok ns → GetRecord ns k st = Ok (A !! (ns, k)).
Proof.
  intros Hi Hn. pose proof (inv_pointer st A ns k Hi Hn) as Hp. unfold GetRecord.
  destruct (A !! (ns, k)) as [r|]; [|by rewrite Hp].
  destruct Hp as (b & rb & -> & Hb & Hrb & Hr). cbn [fromStore res_bind]. rewrite Hb. cbn [fromDecode res_bind].
  cbn [winnerPointer lp_Winner]. rewrite FromProto_ToProto, Hrb. cbn [fromStore res_bind]. by rewrite Hr.
Qed.

Lemma ExpiresAt_ok st A ns k : rs_inv st A → ns_ok ns → ExpiresAt ns k st = A !! (ns, k) ≫= sr_ExpiresAt.
Proof.
  intros Hi Hn. pose proof (inv_pointer st A ns k Hi Hn) as Hp. unfold ExpiresAt.
  destruct (A !! (ns, k)) as [r|]; [|by rewrite Hp]. by destruct Hp as (b & rb & -> & -> & _).
Qed.

(** *** Scans *)

Lemma scan_keys_ns st A ns start stop :
  rs_inv st A → ns_ok ns →
  scan_keys (ls_view (rs_local st) CFKVMeta) (Some (scanLow ns start)) (scanHigh ns stop)
    = latestKey ns <$> keysIn A ns start stop.
Proof.
  intros Hi Hn. apply (StronglySorted_unique bytes_le).
  - apply StronglySorted_merge_sort; apply _.
  - apply (StronglySorted_fmap _ bytes_le bytes_le); [intros k1 k2; by apply app_bytes_le|].
    apply StronglySorted_merge_sort; apply _.
  - assert (Inj (=) (=) (latestKey ns)) by (intros k1 k2; apply (inj (app _))).
    apply NoDup_Permutation; [apply scan_keys_NoDup|apply NoDup_fmap; [done|apply keysIn_NoDup]|].
    intros x. rewrite elem_of_scan_keys, scan_bounds, list_elem_of_fmap. split.
    + intros [[v Hv] (k & -> & Hb)]. exists k. split; [done|]. apply elem_of_keysIn. split; [|done].
      pose proof (inv_meta _ _ Hi ns k Hn) as Hm. destruct (A !! (ns, k)); [done|]. simpl in Hm. congruence.
    + intros (k & -> & [[r Hr] Hb]%elem_of_keysIn). split; [|eauto].
      pose proof (inv_meta _ _ Hi ns k Hn) as Hm. rewrite Hr in Hm. destruct Hm as (b & -> & _). eauto.
Qed.

Lemma userKeyOf_latestKey ns k : userKeyOf ns (latestKey ns k) = k.
Proof. unfold userKeyOf, latestKey, namespacePrefix. apply drop_app_length. Qed.

Lemma winnerRecord_ok st A ns k r :
  rs_inv st A → ns_ok ns → A !! (ns, k) = Some r → winnerRecord (rs_local st) ns k (winnerPointer r) = Some r.
Proof.
  intros Hi Hn Hr. pose proof (inv_pointer st A ns k Hi Hn) as Hp. rewrite Hr in Hp.
  destruct Hp as (b & rb & _ & _ & Hrb & Hd). unfold winnerRecord. cbn [winnerPointer lp_Winner].
  by rewrite FromProto_ToProto, Hrb.
Qed.

(** The rows of a page of the scan, one per winner. *)
Definition pageOf (limit : Z) (l : list bytes) : list bytes := if 0 <? limit then take (Z.to_nat limit) l else l.

Lemma ls_Scan_ns st A ns start stop limit :
  rs_inv st A → ns_ok ns →
  ls_Scan (rs_local st) CFKVMeta (Some (scanLow ns start)) (scanHigh ns stop) limit =
  Ok ((λ k, (latestKey ns k, default [] (ls_view (rs_local st) CFKVMeta !! latestKey ns k))) <$>
        pageOf limit (keysIn A ns start stop)).
Proof.
  intros Hi Hn. rewrite ls_Scan_ok by (done || apply Hi). f_equal. unfold pageOf.
  destruct (Z.ltb_spec 0 limit); [rewrite newSliceIterator_limit by done|];
    rewrite newSliceIterator_all by lia; rewrite (scan_keys_ns st A) by done; [rewrite fmap_take|];
    by rewrite <-list_fmap_compose.
Qed.

(** What a scan row decodes to. *)
Lemma scan_row_pointer st A ns k r :
  rs_inv st A → ns_ok ns → A !! (ns, k) = Some r →
  DecodeLatestPointer (default [] (ls_view (rs_local st) CFKVMeta !! latestKey ns k)) = Some (winnerPointer r).
Proof.
  intros Hi Hn Hr. pose proof (inv_meta _ _ Hi ns k Hn) as Hm. rewrite Hr in Hm.
  by destruct Hm as (b & -> & Hb).
Qed.

Lemma scanRecord_ok st A ns start stop (l : list bytes) :
  rs_inv st A → ns_ok ns → (∀ k, k ∈ l → k ∈ keysIn A ns start stop) →
  omap (scanRecord (rs_local st) ns)
    ((λ k, (latestKey ns k, default [] (ls_view (rs_local st) CFKVMeta !! latestKey ns k))) <$> l)
  = omap (λ k, A !! (ns, k)) l.
Proof.
  intros Hi Hn Hl. apply omap_fmap_ext. intros k Hk. apply Hl, elem_of_keysIn in Hk as [[r Hr] _].
  unfold scanRecord. cbn [fst snd]. rewrite (scan_row_pointer st A ns k r), userKeyOf_latestKey by done.
  rewrite Hr. by apply (winnerRecord_ok st A).
Qed.

Lemma ScanRecords_ok st A ns start stop :
  rs_inv st A → ns_ok ns → ScanRecords ns start stop st = Ok (recordsIn A ns start stop).
Proof.
  intros Hi Hn. unfold ScanRecords. rewrite (ls_Scan_ns st A) by done. cbn [fromStore res_bind].
  by rewrite (scanRecord_ok st A ns start stop).
Qed.

(** The row a range scan returns for a winner. *)
Definition rowOf (nowMs : Z) (r : StoredRecord) : option ScanRow :=
  if sr_tombstone r || match sr_ExpiresAt r with Some e => e <=? nowMs | None => false end then None
  else Some (mkRow (sr_LogicalKey r) (GetInline (sr_Value r)) (recVersion r) (sr_ExpiresAt r)).

Lemma ScanRange_ok st A ns start stop limit nowMs :
  rs_inv st A → ns_ok ns →
  ScanRange ns start stop limit nowMs st = Ok (capped limit (omap (rowOf nowMs) (recordsIn A ns start stop))).
Proof.
  intros Hi Hn. unfold ScanRange. rewrite (ls_Scan_ns st A) by done. cbn [fromStore res_bind]. do 2 f_equal.
  unfold recordsIn, pageOf. rewrite Z.ltb_irrefl.
  rewrite omap_omap. apply omap_fmap_ext. intros k [[r Hr] _]%elem_of_keysIn. rewrite Hr. cbn [mbind option_bind].
  unfold scanRow, rowOf. cbn [fst snd]. rewrite (scan_row_pointer st A ns k r), userKeyOf_latestKey by done.
  rewrite (winnerRecord_ok st A ns k r) by done.
  cbn [winnerPointer lp_Winner lp_Tombstone lp_ExpiresAt lp_InlineValue]. rewrite FromProto_ToProto.
  destruct (_ || _); [done|]. pose proof (inv_data _ _ Hi ns k) as Hd. rewrite Hr in Hd. destruct Hd as [[= _ <-] _].
  destruct (InlineValue r) as [v|] eqn:Ei; [|done]. simpl. by rewrite (InlineValue_Some r v).
Qed.

(** *** Paging *)

Lemma ScanRecordsFrom_ok st A ns start limit :
  rs_inv st A → ns_ok ns → 0 < limit →
  let keys := keysIn A ns start None in
  let page := take (Z.to_nat limit) keys in
  ScanRecordsFrom ns start limit st =
    Ok (omap (λ k, A !! (ns, k)) page,
        if limit <=? Z.of_nat (length keys)
        then list.last page ≫= λ k, match k with [] => None | _ => Some (k ++ [x00]) end else None).
Proof.
  intros Hi Hn Hlim keys page. unfold ScanRecordsFrom.
  rewrite (ls_Scan_ns st A ns start None) by done. unfold pageOf. destruct (Z.ltb_spec 0 limit); [|lia].
  fold keys page. cbn [fromStore res_bind andb]. rewrite length_fmap.
  rewrite (scanRecord_ok st A ns start None) by (done || intros k Hk; by eapply subseteq_take).
  assert ((limit <=? Z.of_nat (length page)) = (limit <=? Z.of_nat (length keys))) as ->.
  { unfold page. rewrite length_take. apply Bool.eq_iff_eq_true. rewrite !Z.leb_le. lia. }
  do 2 f_equal. destruct (limit <=? _); [|done]. rewrite fmap_last. destruct (list.last page) as [k|]; [|done]. simpl.
  unfold resumeAfter. cbn [fst]. rewrite userKeyOf_latestKey. by destruct k.
Qed.

(** Sweeping a namespace page by page, resuming at each cursor. *)
Fixpoint sweep (fuel : nat) (ns : bytes) (start : option bytes) (limit : Z) (st : Store L)
    : res recErr (list StoredRecord) :=
  match fuel with
  | O => Ok []
  | S fuel =>
      do? page ← ScanRecordsFrom ns start limit st ;
      match page.2 with
      | None => Ok page.1
      | Some cursor => do? rest ← sweep fuel ns (Some cursor) limit st ; Ok (page.1 ++ rest)
      end
  end.

Lemma sweep_ok st A ns limit fuel start :
  rs_inv st A → ns_ok ns → 1 < limit → (length (keysIn A ns start None) < fuel)%nat →
  sweep fuel ns start limit st = Ok (recordsIn A ns start None).
Proof.
  intros Hi Hn Hlim. revert start. induction fuel as [|fuel IH]; intros start Hf; [lia|]. cbn [sweep].
  rewrite (ScanRecordsFrom_ok st A) by (done || lia). cbn [res_bind fst snd]. unfold recordsIn.
  set (keys := keysIn A ns start None) in *. destruct (Z.leb_spec limit (Z.of_nat (length keys))).
  - destruct (list.last (take (Z.to_nat limit) keys)) as [k|] eqn:El.
    + assert (k ≠ []) as Hk.
      { intros ->. apply last_Some in El as [l' El].
        assert (length (take (Z.to_nat limit) keys) = Z.to_nat limit) as Hlen by (rewrite length_take; lia).
        rewrite El, length_app in Hlen. simpl in Hlen. destruct l' as [|x l']; [simpl in Hlen; lia|].
        pose proof (StronglySorted_strict keys (keysIn_sorted _ _ _ _) (keysIn_NoDup _ _ _ _)) as Hs.
        rewrite <-(take_drop (Z.to_nat limit) keys), El in Hs. apply StronglySorted_app in Hs as (_ & Hs & _).
        apply StronglySorted_app in Hs as (Hs & _ & _). specialize (Hs x [] ltac:(left) ltac:(left)).
        unfold bytes_lt in Hs. by destruct x. }
      cbn [mbind option_bind]. destruct k as [|b k]; [done|].
      rewrite IH; [|rewrite (keysIn_resume _ _ _ _ _ El), length_drop; fold keys; lia].
      cbn [res_bind]. f_equal. unfold recordsIn. rewrite (keysIn_resume _ _ _ _ _ El). fold keys.
      rewrite <-omap_app. by rewrite take_drop.
    + apply last_None in El. apply (f_equal length) in El. rewrite length_take in El. simpl in El. lia.
  - by rewrite take_ge by lia.
Qed.

(** *** Runs of deliveries *)

(** Deliver records one at a time, each with its mutation kind. *)
Fixpoint applyAll (l : list (StoredRecord * Z)) (st : Store L) : res recErr unit * Store L :=
  match l with
  | [] => (Ok (), st)
  | (r, kind) :: l =>
      match Apply r kind st with
      | (Ok _, st) => applyAll l st
      | (Err e, st) => (Err e, st)
      end
  end.

(** A version stamps one record of a key. *)
Definition stamped (l : list StoredRecord) : Prop :=
  ∀ r1 r2, r1 ∈ l → r2 ∈ l → keyOf r1 = keyOf r2 → recVersion r1 = recVersion r2 → r1 = r2.

Lemma absorbInto_lookup l A k :
  fold_left absorbInto l A !! k = fold_left absorb (filter (λ r, keyOf r = k) l) (A !! k).
Proof.
  revert A. induction l as [|r l IH]; intros A; [done|]. cbn [fold_left]. rewrite IH, filter_cons. unfold absorbInto.
  case_decide as E; [by rewrite <-E, lookup_partial_alter_eq|by rewrite lookup_partial_alter_ne].
Qed.

Lemma applyAll_ok (l : list (StoredRecord * Z)) h st A :
  rs_inv st A → stamped (h ++ l.*1) → Forall storable l.*1 → (∀ k w, A !! k = Some w → w ∈ h ∧ keyOf w = k) →
  ∃ st', applyAll l st = (Ok (), st') ∧ rs_inv st' (fold_left absorbInto l.*1 A).
Proof using Type PBS.
  revert h st A. induction l as [|[r kind] l IH]; intros h st A Hi Hs Hall Hh; [by exists st|].
  cbn [applyAll]. apply Forall_cons in Hall as [Hr Hall].
  destruct (Apply_ok st A r kind) as (w & st' & Ew & -> & Hi' & _); [done..| |].
  { intros w Hw Ev. destruct (Hh _ _ Hw) as [Hin Hk]. apply Hs; [by apply elem_of_app; left| |done..].
    apply elem_of_app; right; left. }
  apply (IH (h ++ [r])); [done|by rewrite <-app_assoc|done|]. intros k v. unfold absorbInto. cbn [fst].
  destruct (decide (k = keyOf r)) as [->|Hne].
  - rewrite lookup_partial_alter_eq. cbn beta. rewrite Ew. intros [= <-].
    apply (absorb_keeps (λ v, v ∈ h ++ [r] ∧ keyOf v = keyOf r) _ _ _ Ew).
    + split; [|done]. apply elem_of_app; right; left.
    + intros v Hv. destruct (Hh _ _ Hv). split; [|done]. by apply elem_of_app; left.
  - rewrite lookup_partial_alter_ne by done. intros Hv. destruct (Hh _ _ Hv). split; [|done]. by apply elem_of_app; left.
Qed.

End Inv.

(** ** Convergence *)

Lemma fold_absorb_same (l1 l2 : list StoredRecord) :
  (∀ r, r ∈ l1 ↔ r ∈ l2) → versions_unique l1 → fold_left absorb l1 None = fold_left absorb l2 None.
Proof.
  intros Hm Hu. pose proof (absorb_fold_winner l1 None) as H1. pose proof (absorb_fold_winner l2 None) as H2.
  simpl in H1, H2. destruct (fold_left absorb l1 None) as [w1|], (fold_left absorb l2 None) as [w2|]; [| | |done].
  - f_equal. apply (is_winner_unique l1); [done..|]. destruct H2 as [Hi Hw]. split; [by apply Hm|].
    intros r Hr. apply Hw. by apply Hm.
  - destruct H2 as [_ ->], H1 as [Hi _]. by apply Hm, elem_of_nil in Hi.
  - destruct H1 as [_ ->], H2 as [Hi _]. by apply Hm, elem_of_nil in Hi.
Qed.

Lemma absorbInto_same (l1 l2 : list StoredRecord) :
  (∀ r, r ∈ l1 ↔ r ∈ l2) → stamped l1 → fold_left absorbInto l1 ∅ = fold_left absorbInto l2 ∅.
Proof.
  intros Hm Hs. apply map_eq. intros k. rewrite !absorbInto_lookup, lookup_empty. apply fold_absorb_same.
  - intros r. rewrite !list_elem_of_filter. naive_solver.
  - intros r1 r2. rewrite !list_elem_of_filter. intros [<- ?] [? ?] ?. by apply Hs.
Qed.

(** What a key holds after absorbing a list of records. *)
Lemma absorbInto_winner (l : list StoredRecord) k :
  match fold_left absorbInto l ∅ !! k with
  | Some w => is_winner w (filter (λ r, keyOf r = k) l)
  | None => ∀ r, r ∈ l → keyOf r ≠ k
  end.
Proof.
  rewrite absorbInto_lookup, lookup_empty. pose proof (absorb_fold_winner (filter (λ r, keyOf r = k) l) None) as Hw.
  destruct (fold_left absorb _ None); [done|]. destruct Hw as [_ Hf]. intros r Hr Hk.
  assert (r ∈ filter (λ r, keyOf r = k) l) as Hin by (by apply list_elem_of_filter).
  rewrite Hf in Hin. by apply elem_of_nil in Hin.
Qed.

Section Convergence.
Context {L : Type} {LS : LocalStore L} {LSS : LocalStoreSpec L} {PB : Proto} {PBS : ProtoSpec}.

(** Two replicas of one history: what they were delivered, in which order and how many
    times each may differ. *)
Definition empty_store (s : L) : Prop := ls_live s ∧ ls_view s CFKVMeta = ∅.

Definition same_answers (t1 t2 : Store L) (ns : bytes) : Prop :=
  (∀ k, Get ns k t1 = Get ns k t2 ∧ GetRecord ns k t1 = GetRecord ns k t2) ∧
  (∀ start stop limit nowMs, ScanRange ns start stop limit nowMs t1 = ScanRange ns start stop limit nowMs t2).

(** C9: replicas converge. Two nodes that start empty and are delivered the same
    records, in any order and with any repetition (re-deliveries, anti-entropy, retries),
    accept every one of them and end with the same answer to every read and range scan
    and the same live-key count; what a key holds is the record no other record of the
    key beats. The records are well formed, marshal, and a version stamps one record. *)
Theorem kv_replicas_converge (l1 l2 : list (StoredRecord * Z)) (s1 s2 : L) c1 m1 k1 q1 c2 m2 k2 q2 :
  empty_store s1 → empty_store s2 → (∀ r, r ∈ l1.*1 ↔ r ∈ l2.*1) → stamped l1.*1 → Forall storable l1.*1 →
  ∃ t1 t2, applyAll l1 (NewStore s1 c1 m1 k1 q1) = (Ok (), t1) ∧ applyAll l2 (NewStore s2 c2 m2 k2 q2) = (Ok (), t2) ∧
    LiveKeys t1 = LiveKeys t2 ∧
    ∀ ns, ns_ok ns → same_answers t1 t2 ns ∧
      ∀ k, ∃ h, GetRecord ns k t1 = Ok h ∧
        match h with
        | Some w => is_winner w (filter (λ r, keyOf r = (ns, k)) l1.*1)
        | None => ∀ r, r ∈ l1.*1 → keyOf r ≠ (ns, k)
        end.
Proof using Type PBS.
  intros [Hl1 Hv1] [Hl2 Hv2] Hm Hs Hall.
  assert (stamped l2.*1) as Hs2 by (intros ????; apply Hs; by apply Hm).
  assert (Forall storable l2.*1) as Hall2 by (rewrite Forall_forall in *; intros ??; apply Hall; by apply Hm).
  destruct (applyAll_ok l1 [] (NewStore s1 c1 m1 k1 q1) ∅) as (t1 & E1 & I1); [by apply rs_inv_new|done..|].
  destruct (applyAll_ok l2 [] (NewStore s2 c2 m2 k2 q2) ∅) as (t2 & E2 & I2); [by apply rs_inv_new|done..|].
  rewrite <-(absorbInto_same l1.*1 l2.*1) in I2 by done. set (A := fold_left absorbInto l1.*1 ∅) in *.
  exists t1, t2. split_and!; [done..|unfold LiveKeys; by rewrite (inv_count _ _ I1), (inv_count _ _ I2)|].
  intros ns Hn. split; [split|].
  - intros k. by rewrite !(Get_ok _ A), !(GetRecord_ok _ A).
  - intros. by rewrite !(ScanRange_ok _ A).
  - intros k. exists (A !! (ns, k)). split; [by apply GetRecord_ok|]. apply absorbInto_winner.
Qed.

(** C39: a page-by-page sweep is complete and terminates. Following the cursors of
    [ScanRecordsFrom] with pages of two or more rows reaches the end of the namespace
    within one page per key and one, and yields every winning record of the namespace
    (tombstones included) exactly once, in key order. *)
Theorem sweep_complete (st : Store L) (A : winners) (ns : bytes) (limit : Z) (fuel : nat) :
  rs_inv st A → ns_ok ns → 1 < limit → (length (keysIn A ns None None) < fuel)%nat →
  sweep fuel ns None limit st = ScanRecords ns None None st ∧
  ScanRecords ns None None st = Ok (recordsIn A ns None None).
Proof.
  intros Hi Hn Hl Hf. rewrite (sweep_ok st A) by done. by rewrite (ScanRecords_ok st A).
Qed.

End Convergence.

(** ** Evaluated examples *)

Import RecordSamples.

Definition freshStore : Store MemStore := NewStore NewMemStore (lit "c") (lit "m") (NewClock 500) 0.

Lemma empty_mem : empty_store NewMemStore.
Proof. split; [done|]. vm_compute. reflexivity. Qed.

Definition deliveries : list (StoredRecord * Z) :=
  [(putRec (lit "a") 1 (lit "m") 1 (lit "v1"), kindPut); (delRec (lit "a") 2 (lit "n") 1, kindDelete);
   (putRec (lit "b") 3 (lit "m") 2 (lit "v2"), kindPut)].

Definition deliveries' : list (StoredRecord * Z) :=
  [(putRec (lit "b") 3 (lit "m") 2 (lit "v2"), kindPut); (delRec (lit "a") 2 (lit "n") 1, kindDelete);
   (putRec (lit "a") 1 (lit "m") 1 (lit "v1"), kindPut); (delRec (lit "a") 2 (lit "n") 1, kindDelete)].

Lemma deliveries_stamped : stamped deliveries.*1.
Proof.
  intros r1 r2. unfold deliveries. cbn [fmap list_fmap fst]. rewrite !elem_of_cons, !elem_of_nil.
  intros [->|[->|[->|[]]]] [->|[->|[->|[]]]]; vm_compute; congruence.
Qed.

Lemma storable_sample key t w seq v :
  lenZ key < 100 → in_u64 t → in_u64 seq → lenZ w < 100 → storable (putRec key t w seq v) ∧ storable (delRec key t w seq).
Proof.
  intros Hk Ht Hs Hw. assert (ns_ok (lit "ns")) as Hn.
  { split; [vm_compute; congruence|]. apply (bool_decide_unpack _). vm_compute. exact I. }
  assert (version_ok (ver t w seq)) as Hv.
  { split; [exact Ht|]. split; [unfold in_u32; cbn; lia|]. split; [vm_compute; congruence|]. split; [|exact Hs].
    unfold id_ok. cbn. lia. }
  assert (id_ok key) as Hi by (unfold id_ok; lia).
  split; (split; [split; [exact Hn|split; [exact Hi|exact Hv]]|]); (split; [eexists; reflexivity|]);
    (split; [eexists; reflexivity|intros kind; eexists; reflexivity]).
Qed.

Lemma deliveries_storable : Forall storable deliveries.*1.
Proof.
  unfold deliveries. cbn [fmap list_fmap fst]. rewrite !Forall_cons. split_and!; [| | |by apply Forall_nil].
  - apply storable_sample; vm_compute; intuition congruence.
  - apply (storable_sample _ _ _ _ []); vm_compute; intuition congruence.
  - apply storable_sample; vm_compute; intuition congruence.
Qed.

Lemma kv_replicas_converge_witness :
  ∃ t1 t2, applyAll deliveries freshStore = (Ok (), t1) ∧ applyAll deliveries' freshStore = (Ok (), t2) ∧
    LiveKeys t1 = LiveKeys t2.
Proof.
  destruct (kv_replicas_converge deliveries deliveries' NewMemStore NewMemStore (lit "c") (lit "m") (NewClock 500) 0
    (lit "c") (lit "m") (NewClock 500) 0) as (t1 & t2 & E1 & E2 & El & _);
    [exact empty_mem|exact empty_mem| |exact deliveries_stamped|exact deliveries_storable|eauto].
  intros r. unfold deliveries, deliveries'. cbn [fmap list_fmap fst]. rewrite !elem_of_cons, !elem_of_nil. intuition.
Defined.

Lemma sweep_complete_witness :
  ∃ st A, rs_inv st A ∧ sweep 3 (lit "ns") None 2 st = ScanRecords (lit "ns") None None st.
Proof.
  destruct (applyAll_ok deliveries [] freshStore ∅) as (st & _ & Hi);
    [apply rs_inv_new; apply empty_mem|exact deliveries_stamped|exact deliveries_storable|done|].
  exists st, (fold_left absorbInto deliveries.*1 ∅). split; [exact Hi|].
  apply (sweep_complete st (fold_left absorbInto deliveries.*1 ∅) (lit "ns") 2 3).
  - exact Hi.
  - split; [vm_compute; congruence|]. apply (bool_decide_unpack _). vm_compute. exact I.
  - lia.
  - vm_compute. lia.
Defined.

(** *** Deviations *)

(** Evicting a key leaves its cached winner and its count: applying the record again
    counts the one key twice. *)
Theorem forget_overcounts :
  let r := putRec (lit "k") 5 (lit "m") 1 (lit "v") in
  let st := (Apply r kindPut freshStore).2 in
  let st := (Forget (lit "ns") (lit "k") st).2 in
  let st' := (Apply r kindPut st).2 in
  LiveKeys st = 1 ∧ GetRecord (lit "ns") (lit "k") st = Ok None ∧
  LiveKeys st' = 2 ∧ ScanRecords (lit "ns") None None st' = Ok [r].
Proof. vm_compute. done. Qed.

(** Re-delivering one of two siblings erases the conflict: the pointer is rewritten
    without its sibling versions. *)
Theorem apply_erases_siblings :
  let a := putRec (lit "k") 5 (lit "m") 1 (lit "x") in
  let b := putRec (lit "k") 5 (lit "n") 1 (lit "y") in
  let st := (ApplySiblings (lit "ns") (lit "k") [a; b] freshStore).2 in
  let st' := (Apply a kindPut st).2 in
  res_map go_ConflictNone (Get (lit "ns") (lit "k") st) = Ok false ∧
  res_map go_ConflictNone (Get (lit "ns") (lit "k") st') = Ok true.
Proof. vm_compute. done. Qed.

(** Storing siblings drops the winner's expiry from the pointer, so the key no longer
    expires, and does not count the key. *)
Theorem siblings_drop_expiry :
  let a := putRec (lit "k") 5 (lit "m") 1 (lit "x") in
  let b := ttlRec (lit "k") 6 (lit "n") 1 (lit "y") 100 in
  let st := (ApplySiblings (lit "ns") (lit "k") [a; b] freshStore).2 in
  ExpiresAt (lit "ns") (lit "k") (Apply b kindPut freshStore).2 = Some 100 ∧
  ExpiresAt (lit "ns") (lit "k") st = None ∧ LiveKeys st = 0.
Proof. vm_compute. done. Qed.

(** The cache key of a namespace with a NUL byte is also the cache key of another
    namespace's key, and the two share a stripe: an older write then replaces a newer one. *)
Definition nsRec (ns key : bytes) (t : Z) : StoredRecord :=
  mkStoredRecord key (Some (VInline [])) (Some (ToProto (ver t (lit "m") t))) None false 1 ns (lit "c") (lit "m") 0 0.

Theorem cache_collision_regresses :
  let key := lit "x" in
  let ns := [x61; x00] in
  let st := (applyAll [(nsRec ns key 9, kindPut); (nsRec [x61] (x00 :: key) 5, kindPut);
                       (nsRec ns key 7, kindPut)] freshStore).2 in
  GetRecord ns key st = Ok (Some (nsRec ns key 7)).
Proof. vm_compute. done. Qed.

End RecordRefine.
