(* ===== verification/RecordRepair.v ===== *)
(** * Repairing the latest pointers of a restored cut (internal/recordstore/repair.go)

    A restore of an HLC cut drops the records written after the cut and keeps the pointer
    rows verbatim. [RepairCutMeta] repoints the pointers whose winner was dropped. *)

From S2P Require Import Prelude Bytes Hlc Version Conflict Storage Command Uvarint Records RecordSamples RecordStore RecordRefine.

Local Open Scope Z_scope.

#[local] Set Default Proof Using "Type".

Module RecordRepair.
Import Version Conflict Storage Command Uvarint Records RecordStore RecordRefine.

Record lpEntry := mkLpEntry { le_ns : bytes; le_uk : bytes; le_lp : LatestPointer }.

Definition lpNativeTTL (lp : LatestPointer) : Z := nativeTTL (lp_ExpiresAt lp) (lp_Tombstone lp).

(** The versions of the surviving records: the source's set is only tested for membership. *)
Definition survivorSet (recs : list StoredRecord) : list Version := recVersion <$> recs.

Definition survivingSiblings (sibs : list ProtoVersion) (present : list Version) (winner : Version) : list ProtoVersion :=
  filter (λ s, FromProto (Some s) ≠ winner ∧ FromProto (Some s) ∈ present) sibs.

Definition repairBatch : Z := 1000.

Section Ops.
Context {L : Type} `{LocalStore L} `{Proto}.

Definition dataPresent (l : L) (ns userKey : bytes) (v : Version) : res recErr bool :=
  do? row ← fromStore (ls_Get l CFKVData (dataKey ns userKey v)) ; Ok (bool_decide (is_Some row)).

(** The siblings still present, in order, and whether any is not. *)
Fixpoint presentSiblings (l : L) (ns userKey : bytes) (sibs : list ProtoVersion)
    : res recErr (list ProtoVersion * bool) :=
  match sibs with
  | [] => Ok ([], false)
  | s :: sibs =>
      do? present ← dataPresent l ns userKey (FromProto (Some s)) ;
      do? rest ← presentSiblings l ns userKey sibs ;
      Ok (if present then (s :: rest.1, rest.2) else (rest.1, true))
  end.

(** All decodable records of one user key. *)
Definition scanKeyRecords (l : L) (ns userKey : bytes) : res recErr (list StoredRecord) :=
  let pfx := dataKeyPrefix ns userKey in
  do? kvs ← fromStore (ls_Scan l CFKVData (Some pfx) (prefixEnd pfx) 0) ;
  Ok (omap (λ kv, DecodeStoredRecord kv.2) kvs).

(** The decodable latest pointers, from a scan below the TTL sentinel. *)
Definition lpEntryOf (kv : StoreKV) : option lpEntry :=
  match parseLatestKey kv.1, DecodeLatestPointer kv.2 with
  | Some (ns, uk), Some lp => Some (mkLpEntry ns uk lp)
  | _, _ => None
  end.

Definition putPointer (ns uk : bytes) (lp : LatestPointer) : res recErr StoreOp :=
  do? b ← fromEncode (EncodeLatestPointer lp) ;
  Ok (mkStoreOp CFKVMeta (latestKey ns uk) b false (lpNativeTTL lp)).

(** The rows one pointer's repair writes. *)
Definition repairOps (l : L) (e : lpEntry) : res recErr (list StoreOp) :=
  let ns := le_ns e in
  let uk := le_uk e in
  let lp := le_lp e in
  do? winnerPresent ← dataPresent l ns uk (FromProto (lp_Winner lp)) ;
  if winnerPresent : bool then
    do? sibs ← presentSiblings l ns uk (lp_SiblingVersions lp) ;
    if sibs.2 : bool then
      do? op ← putPointer ns uk (mkLP (lp_Winner lp) sibs.1 (lp_ExpiresAt lp) (lp_Tombstone lp) 0 (lp_InlineValue lp)) ;
      Ok [op]
    else Ok []
  else
    do? survivors ← scanKeyRecords l ns uk ;
    let stale := match lp_ExpiresAt lp with Some e => [delOp CFKVMeta (ttlKey e ns uk)] | None => [] end in
    match RebuildLatestPointer survivors with
    | None => Ok (stale ++ [delOp CFKVMeta (latestKey ns uk)])
    | Some nlp =>
        let win := FromProto (lp_Winner nlp) in
        let nlp := mkLP (lp_Winner nlp) (survivingSiblings (lp_SiblingVersions lp) (survivorSet survivors) win)
                     (lp_ExpiresAt nlp) (lp_Tombstone nlp) 0 (lp_InlineValue nlp) in
        do? op ← putPointer ns uk nlp ;
        Ok (stale ++ [op] ++
            match lp_ExpiresAt nlp with
            | Some e => if lp_Tombstone nlp then [] else [putOp CFKVMeta (ttlKey e ns uk) (encodeVersion win)]
            | None => []
            end)
    end.

Definition repairFlush (ops : list StoreOp) (l : L) : res recErr unit * L :=
  match ops with
  | [] => (Ok (), l)
  | _ => match ls_BatchRC l ops with Ok l => (Ok (), l) | Err e => (Err (RStore e), l) end
  end.

Fixpoint repairLoop (entries : list lpEntry) (ops : list StoreOp) (l : L) : res recErr unit * L :=
  match entries with
  | [] => repairFlush ops l
  | e :: entries =>
      match repairOps l e with
      | Err err => (Err err, l)
      | Ok new =>
          let ops := ops ++ new in
          if repairBatch <=? Z.of_nat (length ops) then
            match repairFlush ops l with
            | (Ok _, l) => repairLoop entries [] l
            | (Err err, l) => (Err err, l)
            end
          else repairLoop entries ops l
      end
  end.

Definition RepairCutMeta (l : L) : res recErr unit * L :=
  match ls_Scan l CFKVMeta None (Some ttlLowBound) 0 with
  | Err e => (Err (RStore e), l)
  | Ok kvs => repairLoop (omap lpEntryOf kvs) [] l
  end.

End Ops.

(** ** The repair as a function of the data rows *)

Definition presentIn (d : gmap bytes bytes) (ns uk : bytes) (v : Version) : Prop := is_Some (d !! dataKey ns uk v).
#[export] Instance presentIn_dec d ns uk v : Decision (presentIn d ns uk v).
Proof. unfold presentIn. apply _. Defined.

Section Spec.
Context {L : Type} {LS : LocalStore L} {LSS : LocalStoreSpec L} {PB : Proto} {PBS : ProtoSpec}.

Definition survivorsIn (d : gmap bytes bytes) (ns uk : bytes) : list StoredRecord :=
  omap (λ kv, DecodeStoredRecord kv.2) (newSliceIterator d (Some (dataKeyPrefix ns uk)) (prefixEnd (dataKeyPrefix ns uk)) 0).

Definition keptSiblings (d : gmap bytes bytes) (ns uk : bytes) (sibs : list ProtoVersion) : list ProtoVersion :=
  filter (λ s, presentIn d ns uk (FromProto (Some s))) sibs.

(** What becomes of a pointer: [None] when no record of its key survives. *)
Definition repaired (d : gmap bytes bytes) (ns uk : bytes) (lp : LatestPointer) : option LatestPointer :=
  if decide (presentIn d ns uk (FromProto (lp_Winner lp))) then
    Some (if decide (keptSiblings d ns uk (lp_SiblingVersions lp) = lp_SiblingVersions lp) then lp
          else mkLP (lp_Winner lp) (keptSiblings d ns uk (lp_SiblingVersions lp)) (lp_ExpiresAt lp) (lp_Tombstone lp) 0
                 (lp_InlineValue lp))
  else (λ nlp, mkLP (lp_Winner nlp)
                 (survivingSiblings (lp_SiblingVersions lp) (survivorSet (survivorsIn d ns uk)) (FromProto (lp_Winner nlp)))
                 (lp_ExpiresAt nlp) (lp_Tombstone nlp) 0 (lp_InlineValue nlp))
       <$> RebuildLatestPointer (survivorsIn d ns uk).

Lemma dataPresent_ok l ns uk v :
  ls_live l → dataPresent l ns uk v = Ok (bool_decide (presentIn (ls_view l CFKVData) ns uk v)).
Proof. intros Hl. unfold dataPresent. by rewrite ls_Get_ok. Qed.

Lemma presentSiblings_ok l ns uk sibs :
  ls_live l →
  presentSiblings l ns uk sibs =
    Ok (keptSiblings (ls_view l CFKVData) ns uk sibs,
        negb (bool_decide (keptSiblings (ls_view l CFKVData) ns uk sibs = sibs))).
Proof.
  intros Hl. induction sibs as [|s sibs IH]; [done|]. cbn [presentSiblings]. rewrite dataPresent_ok by done.
  cbn [res_bind]. rewrite IH. cbn [res_bind fst snd]. unfold keptSiblings. rewrite filter_cons.
  set (kept := filter _ sibs). destruct (decide _) as [Hp|Hp].
  - rewrite bool_decide_eq_true_2 by done. do 3 f_equal. apply bool_decide_ext.
    split; [intros E; by rewrite E|intros E; by injection E].
  - rewrite bool_decide_eq_false_2 by done. do 2 f_equal. symmetry. apply negb_true_iff, bool_decide_eq_false_2.
    assert (length kept ≤ length sibs)%nat by apply length_filter.
    intros E%(f_equal length). cbn [length] in E. lia.
Qed.

Lemma scanKeyRecords_ok l ns uk : ls_live l → scanKeyRecords l ns uk = Ok (survivorsIn (ls_view l CFKVData) ns uk).
Proof. intros Hl. unfold scanKeyRecords. by rewrite ls_Scan_ok. Qed.

(** The rows a repair writes: at most one pointer row, and TTL-index rows. *)
Definition ttlOnly (rows : list StoreOp) : Prop := Forall (λ op, ∃ e ns uk, op_CF op = CFKVMeta ∧ op_Key op = ttlKey e ns uk) rows.

Definition encodes (o : option LatestPointer) : Prop :=
  match o with Some lp => is_Some (EncodeLatestPointer lp) | None => True end.

Definition rowsFor (d : gmap bytes bytes) (e : lpEntry) (rows : list StoreOp) : Prop :=
  ∃ pre mid post, rows = pre ++ mid ++ post ∧ ttlOnly pre ∧ ttlOnly post ∧
    match repaired d (le_ns e) (le_uk e) (le_lp e) with
    | None => mid = [delOp CFKVMeta (latestKey (le_ns e) (le_uk e))]
    | Some lp => mid = [] ∧ lp = le_lp e ∨
        ∃ b, EncodeLatestPointer lp = Some b ∧
             mid = [mkStoreOp CFKVMeta (latestKey (le_ns e) (le_uk e)) b false (lpNativeTTL lp)]
    end.

Definition repairable (d : gmap bytes bytes) (e : lpEntry) : Prop :=
  encodes (repaired d (le_ns e) (le_uk e) (le_lp e)).

Lemma repairOps_ok l e :
  ls_live l → repairable (ls_view l CFKVData) e →
  ∃ rows, repairOps l e = Ok rows ∧ rowsFor (ls_view l CFKVData) e rows.
Proof.
  intros Hl Henc.
  cut (∃ pre mid post, repairOps l e = Ok (pre ++ mid ++ post) ∧ ttlOnly pre ∧ ttlOnly post ∧
    match repaired (ls_view l CFKVData) (le_ns e) (le_uk e) (le_lp e) with
    | None => mid = [delOp CFKVMeta (latestKey (le_ns e) (le_uk e))]
    | Some lp => mid = [] ∧ lp = le_lp e ∨
        ∃ b, EncodeLatestPointer lp = Some b ∧
             mid = [mkStoreOp CFKVMeta (latestKey (le_ns e) (le_uk e)) b false (lpNativeTTL lp)]
    end).
  { intros (pre & mid & post & E & Hr). eexists. split; [exact E|]. by exists pre, mid, post. }
  unfold repairable, repairOps, repaired, putPointer in *. rewrite dataPresent_ok by done. cbn [res_bind].
  set (d := ls_view l CFKVData) in *.
  destruct (decide (presentIn d (le_ns e) (le_uk e) (FromProto (lp_Winner (le_lp e))))) as [Hp|Hp].
  - rewrite bool_decide_eq_true_2 by done. rewrite presentSiblings_ok by done. cbn [res_bind fst snd]. fold d.
    destruct (decide _) as [Hk|Hk].
    + rewrite bool_decide_eq_true_2 by done. exists [], [], []. split_and!; [done|by constructor..|by left].
    + rewrite bool_decide_eq_false_2 by done. cbn [negb]. simpl in Henc. destruct Henc as [b Hb]. rewrite Hb.
      cbn [fromEncode res_bind]. eexists [], [_], []. split_and!; [done|by constructor..|]. right. eauto.
  - rewrite bool_decide_eq_false_2 by done. rewrite scanKeyRecords_ok by done. cbn [res_bind]. fold d.
    set (stale := match lp_ExpiresAt (le_lp e) with Some _ => _ | None => _ end).
    assert (ttlOnly stale) as Hstale.
    { unfold stale. destruct (lp_ExpiresAt _); [|constructor]. apply Forall_singleton. eauto. }
    destruct (RebuildLatestPointer _) as [nlp|]; simpl in Henc |- *.
    + destruct Henc as [b Hb]. rewrite Hb. cbn [fromEncode res_bind].
      eexists stale, [_], _. split_and!; [done|done| |right; eauto].
      destruct (lp_ExpiresAt nlp); [|constructor]. destruct (lp_Tombstone nlp); [constructor|].
      apply Forall_singleton. eauto.
    + eexists stale, [_], []. split_and!; [done|done|constructor|done].
Qed.

Lemma rowsFor_meta d e rows : rowsFor d e rows → Forall (λ op, op_CF op = CFKVMeta) rows.
Proof.
  intros (pre & mid & post & -> & Hpre & Hpost & Hmid).
  assert (∀ rs, ttlOnly rs → Forall (λ op, op_CF op = CFKVMeta) rs) as Ht.
  { intros rs Hrs. eapply Forall_impl; [exact Hrs|]. by intros op (? & ? & ? & ? & _). }
  rewrite !Forall_app. split_and!; [by apply Ht| |by apply Ht].
  destruct (repaired _ _ _ _); [destruct Hmid as [[-> _]|(b & _ & ->)]|subst mid]; by repeat constructor.
Qed.

Lemma apply_ops_meta_data cf ops d : cf ≠ CFKVMeta → Forall (λ op, op_CF op = CFKVMeta) ops → apply_ops cf ops d = d.
Proof.
  intros Hcf Ho. revert d. induction Ho as [|op ops E Ho IH]; intros d; [done|]. cbn [apply_ops fold_left].
  unfold apply_ops in IH. rewrite IH. unfold apply_op. rewrite E. destruct (Z.eqb_spec CFKVMeta cf); [congruence|done].
Qed.

Lemma repairFlush_ok ops l :
  ls_live l → Forall (λ op, op_CF op = CFKVMeta) ops →
  ∃ l', repairFlush ops l = (Ok (), l') ∧ ls_live l' ∧ (∀ cf, cf_valid cf = true → cf ≠ CFKVMeta → ls_view l' cf = ls_view l cf) ∧
    ls_view l' CFKVMeta = apply_ops CFKVMeta ops (ls_view l CFKVMeta).
Proof.
  intros Hl Ho. unfold repairFlush. destruct ops as [|op ops']; [by exists l|]. set (ops := op :: ops') in *.
  destruct (ls_BatchRC_ok l ops) as (l' & -> & Hl' & Hv); [done| |].
  { eapply Forall_impl; [exact Ho|]. by intros ? ->. }
  exists l'. split_and!; [done..| |by rewrite Hv]. intros cf Hcf Hne. rewrite Hv by done. by apply apply_ops_meta_data.
Qed.

Lemma repairLoop_ok entries ops l :
  ls_live l → Forall (λ op, op_CF op = CFKVMeta) ops → Forall (repairable (ls_view l CFKVData)) entries →
  ∃ l' rowss, repairLoop entries ops l = (Ok (), l') ∧ ls_live l' ∧ (∀ cf, cf_valid cf = true → cf ≠ CFKVMeta → ls_view l' cf = ls_view l cf) ∧
    ls_view l' CFKVMeta = apply_ops CFKVMeta (ops ++ concat rowss) (ls_view l CFKVMeta) ∧
    Forall2 (rowsFor (ls_view l CFKVData)) entries rowss.
Proof.
  revert ops l. induction entries as [|e entries IH]; intros ops l Hl Ho He.
  { destruct (repairFlush_ok ops l) as (l' & ? & ? & ? & ?); [done..|]. exists l', []. cbn [repairLoop concat].
    rewrite app_nil_r. by split_and!. }
  apply Forall_cons in He as [He Hes]. destruct (repairOps_ok l e) as (rows & E & Hrows); [done..|].
  cbn [repairLoop]. rewrite E. assert (Forall (λ op, op_CF op = CFKVMeta) (ops ++ rows)) as Ho'.
  { apply Forall_app. split; [done|]. by eapply rowsFor_meta. }
  destruct (repairBatch <=? _).
  - destruct (repairFlush_ok (ops ++ rows) l) as (l1 & -> & Hl1 & Hd1 & Hm1); [done..|].
    destruct (IH [] l1) as (l' & rowss & E' & Hl' & Hd' & Hm' & Hall); [done..|by rewrite (Hd1 CFKVData)|].
    rewrite (Hd1 CFKVData) in Hall by done. exists l', (rows :: rowss). split_and!; [done..| | |by constructor].
    { intros cf Hcf Hne. by rewrite Hd', Hd1. }
    rewrite Hm', Hm1. cbn [concat app]. by rewrite app_assoc, (apply_ops_app _ (ops ++ rows)).
  - destruct (IH (ops ++ rows) l) as (l' & rowss & E' & Hl' & Hd' & Hm' & Hall); [done..|].
    exists l', (rows :: rowss). split_and!; [done..| |by constructor]. rewrite Hm'. cbn [concat]. by rewrite app_assoc.
Qed.

(** *** The effect on one pointer row *)

Definition entryKey (e : lpEntry) : bytes := latestKey (le_ns e) (le_uk e).

Lemma apply_ops_untouched cf ops m x : Forall (λ op, op_Key op ≠ x) ops → apply_ops cf ops m !! x = m !! x.
Proof.
  intros Ho. revert m. induction Ho as [|op ops E Ho IH]; intros m; [done|]. cbn [apply_ops fold_left].
  unfold apply_ops in IH. rewrite IH. unfold apply_op. destruct (_ =? _); [|done].
  destruct (op_Delete op); [by rewrite lookup_delete_ne|by rewrite lookup_insert_ne].
Qed.

Lemma ttlOnly_untouched rows m ns k :
  lenZ ns < 128 → ttlOnly rows → apply_ops CFKVMeta rows m !! latestKey ns k = m !! latestKey ns k.
Proof.
  intros Hn Ht. apply apply_ops_untouched. eapply Forall_impl; [exact Ht|].
  intros op (e & ns' & uk & _ & ->). by apply not_eq_sym, latestKey_ttl.
Qed.

(** What the row of entry [e] holds after its repair: [o], when it held [o0] before. *)
Definition row_after (d : gmap bytes bytes) (e : lpEntry) (o0 o : option bytes) : Prop :=
  match repaired d (le_ns e) (le_uk e) (le_lp e) with
  | None => o = None
  | Some lp => o = o0 ∧ lp = le_lp e ∨ ∃ b, EncodeLatestPointer lp = Some b ∧ o = Some b
  end.

Lemma rowsFor_lookup d e rows m ns k :
  lenZ ns < 128 → rowsFor d e rows →
  (entryKey e ≠ latestKey ns k → apply_ops CFKVMeta rows m !! latestKey ns k = m !! latestKey ns k) ∧
  (entryKey e = latestKey ns k →
   row_after d e (m !! latestKey ns k) (apply_ops CFKVMeta rows m !! latestKey ns k)).
Proof.
  intros Hn (pre & mid & post & -> & Hpre & Hpost & Hmid). rewrite !apply_ops_app, ttlOnly_untouched by done.
  rewrite <-(ttlOnly_untouched pre m ns k) by done. set (m' := apply_ops CFKVMeta pre m). unfold row_after.
  destruct (repaired _ _ _ _); [destruct Hmid as [[-> ->]|(b & Hb & ->)]|subst mid]; cbn;
    (split; [intros Hne|intros E; rewrite <-E]).
  - done.
  - by left.
  - by rewrite lookup_insert_ne.
  - right. exists b. split; [done|]. apply lookup_insert_eq.
  - by rewrite lookup_delete_ne.
  - apply lookup_delete_eq.
Qed.

Lemma rowss_lookup d entries rowss m ns k :
  lenZ ns < 128 → Forall2 (rowsFor d) entries rowss → NoDup (entryKey <$> entries) →
  (latestKey ns k ∉ entryKey <$> entries → apply_ops CFKVMeta (concat rowss) m !! latestKey ns k = m !! latestKey ns k) ∧
  (∀ e, e ∈ entries → entryKey e = latestKey ns k →
   row_after d e (m !! latestKey ns k) (apply_ops CFKVMeta (concat rowss) m !! latestKey ns k)).
Proof.
  intros Hn Hall. revert m. induction Hall as [|e0 rows entries rowss Hr Hall IH]; intros m Hnd.
  { split; [done|]. by intros e He%elem_of_nil. }
  cbn [concat]. rewrite apply_ops_app. rewrite fmap_cons in Hnd. apply NoDup_cons in Hnd as [Hnin Hnd].
  destruct (IH (apply_ops CFKVMeta rows m) Hnd) as [IHa IHb].
  destruct (rowsFor_lookup d e0 rows m ns k Hn Hr) as [Hne Heq]. split.
  - rewrite fmap_cons, not_elem_of_cons. intros [Hx Hx']. rewrite IHa by done. apply Hne. congruence.
  - intros e [->|He]%elem_of_cons E.
    + rewrite IHa by (by rewrite <-E). by apply Heq.
    + rewrite <-Hne.
      * by apply IHb.
      * intros E0. apply Hnin. rewrite E0, <-E. by apply list_elem_of_fmap_2.
Qed.

(** *** The entries of a scan *)

(** The rows of the meta family are those the store writes: pointers and TTL entries. *)
Definition meta_wf (m : gmap bytes bytes) : Prop :=
  ∀ x v, m !! x = Some v →
    (∃ ns k, lenZ ns < 128 ∧ id_ok k ∧ x = latestKey ns k) ∨ (∃ rest, x = ttlSentinel :: rest).

Lemma below_sentinel x : bytes_lt x ttlLowBound ↔ ∀ rest, x ≠ ttlSentinel :: rest.
Proof.
  unfold bytes_lt, ttlLowBound. destruct x as [|b x]; simpl; [naive_solver|].
  destruct (decide (b = ttlSentinel)) as [->|Hb].
  - rewrite Z.compare_refl. destruct x; naive_solver.
  - assert (byteZ b ≠ byteZ ttlSentinel) by (by intros ?%(inj byteZ)). pose proof (byteZ_range b).
    change (byteZ ttlSentinel) with 255 in *. destruct (Z.compare_spec (byteZ b) 255); [lia| |lia].
    split; [|done]. intros _ rest [= ->]. done.
Qed.

Lemma latestKey_below ns k : lenZ ns < 128 → bytes_lt (latestKey ns k) ttlLowBound.
Proof.
  intros Hn. apply below_sentinel. intros rest. unfold latestKey. rewrite lenPrefix_short by done.
  intros [= E _]. apply (f_equal byteZ) in E. rewrite byteZ_Zbyte, Z.mod_small in E by lens.
  change (byteZ ttlSentinel) with 255 in E. lia.
Qed.

Lemma parseLatestKey_key ns k : lenZ ns < 128 → id_ok k → parseLatestKey (latestKey ns k) = Some (ns, k).
Proof.
  intros Hn Hk. apply takePrefixed_lenPrefix. rewrite lenPrefix_short by done. unfold id_ok in Hk.
  rewrite lenZ_app, lenZ_cons. lia.
Qed.

Definition entriesOf (m : gmap bytes bytes) : list lpEntry := omap lpEntryOf (newSliceIterator m None (Some ttlLowBound) 0).

Lemma elem_of_entriesOf m e :
  meta_wf m →
  e ∈ entriesOf m ↔ lenZ (le_ns e) < 128 ∧ id_ok (le_uk e) ∧ m !! entryKey e ≫= DecodeLatestPointer = Some (le_lp e).
Proof.
  intros Hwf. unfold entriesOf. rewrite list_elem_of_omap. split.
  - intros ([x v] & [Hx [_ Hb]]%elem_of_newSliceIterator & E). unfold lpEntryOf in E. simpl in E.
    destruct (Hwf x v Hx) as [(ns & k & Hn & Hk & ->)|[rest ->]];
      [|exfalso; by apply (proj1 (below_sentinel _) Hb rest)].
    rewrite parseLatestKey_key in E by done. destruct (DecodeLatestPointer v) eqn:Ed; [|done].
    injection E as <-. unfold entryKey. simpl. by rewrite Hx.
  - intros (Hn & Hk & Hm). destruct (m !! entryKey e) as [v|] eqn:Ev; [|done]. simpl in Hm.
    exists (entryKey e, v). rewrite elem_of_newSliceIterator. split_and!; [done|split; [done|by apply latestKey_below]|].
    unfold lpEntryOf, entryKey. simpl. rewrite parseLatestKey_key, Hm by done. by destruct e.
Qed.

Lemma entriesOf_NoDup m : meta_wf m → NoDup (entryKey <$> entriesOf m).
Proof.
  intros Hwf. unfold entriesOf.
  assert (∀ l : list StoreKV, (∀ x v, (x, v) ∈ l → m !! x = Some v ∧ bytes_lt x ttlLowBound) →
    sublist (entryKey <$> omap lpEntryOf l) l.*1) as Hl.
  { induction l as [|[x v] l IH]; intros Hin; [done|]. cbn [omap list_omap].
    destruct (Hin x v) as [Hx Hb]; [left|].
    assert (sublist (entryKey <$> omap lpEntryOf l) l.*1) as IH' by (apply IH; intros ???; apply Hin; by right).
    destruct (lpEntryOf (x, v)) as [e|] eqn:E; [|by apply sublist_cons].
    destruct (Hwf x v Hx) as [(ns & k & Hn & Hk & ->)|[rest ->]];
      [|exfalso; by apply (proj1 (below_sentinel _) Hb rest)].
    unfold lpEntryOf in E. simpl in E. rewrite parseLatestKey_key in E by done. case_match; [|done].
    injection E as <-. cbn. by apply sublist_skip. }
  eapply sublist_NoDup; [|apply Hl].
  - rewrite newSliceIterator_keys. apply scan_keys_NoDup.
  - intros x v [? [_ ?]]%elem_of_newSliceIterator. done.
Qed.

(** *** Soundness *)

(** The data rows are those the store writes: a key's rows carry their version. *)
Definition data_wf (d : gmap bytes bytes) : Prop :=
  ∀ ns uk x v r, d !! (dataKeyPrefix ns uk ++ x) = Some v → DecodeStoredRecord v = Some r → x = encodeVersion (recVersion r).

Lemma survivor_present d ns uk r :
  data_wf d → r ∈ survivorsIn d ns uk → presentIn d ns uk (recVersion r).
Proof.
  intros Hwf ([x v] & [Hx [z ->]]%elem_of_prefix_scan & Hr)%list_elem_of_omap.
  rewrite (Hwf ns uk z v r Hx Hr) in Hx. unfold presentIn, dataKey. by rewrite Hx.
Qed.

Lemma winnerOf_winner r rs : is_winner (winnerOf r rs) (r :: rs).
Proof.
  unfold winnerOf. assert (∀ w seen, is_winner w seen →
    is_winner (fold_left (λ w r, if 0 <? Version_Compare (recVersion r) (recVersion w) then r else w) rs w) (seen ++ rs)) as Hf.
  { induction rs as [|x rs IH]; intros w seen Hw; [by rewrite app_nil_r|]. cbn [fold_left].
    replace (seen ++ x :: rs) with ((seen ++ [x]) ++ rs) by (by rewrite <-app_assoc). apply IH.
    destruct Hw as [Hin Hw]. destruct (0 <? _) eqn:E.
    - apply Compare_beats in E. split; [apply elem_of_app; right; left|]. intros y [Hy| ->%list_elem_of_singleton]%elem_of_app.
      + intros Hb. apply (Hw y Hy). by apply (beats_trans _ x).
      + intros Hb. by apply (beats_asym x x).
    - assert (¬ beats x w) by (rewrite <-Compare_beats; congruence). split; [by apply elem_of_app; left|].
      intros y [Hy| ->%list_elem_of_singleton]%elem_of_app; [by apply Hw|done]. }
  apply (Hf r [r]). split; [left|]. intros y ->%list_elem_of_singleton Hb. by apply (beats_asym r r).
Qed.

(** The pointer points at records that are there. *)
Definition anchored (d : gmap bytes bytes) (ns uk : bytes) (lp : LatestPointer) : Prop :=
  presentIn d ns uk (FromProto (lp_Winner lp)) ∧
  ∀ s, s ∈ lp_SiblingVersions lp → presentIn d ns uk (FromProto (Some s)).

(** What the repair of pointer [lp] must leave: an intact pointer is left alone, a
    pointer whose winner survived loses only its cut siblings, a pointer whose winner was
    cut moves to the surviving record no other survivor beats, keeping the surviving
    siblings, or goes when nothing survived. *)
Definition cut_outcome (d : gmap bytes bytes) (ns uk : bytes) (lp : LatestPointer) (o : option LatestPointer) : Prop :=
  (anchored d ns uk lp → o = Some lp) ∧
  (presentIn d ns uk (FromProto (lp_Winner lp)) → ∃ lp', o = Some lp' ∧ lp_Winner lp' = lp_Winner lp ∧
     lp_Tombstone lp' = lp_Tombstone lp ∧ lp_ExpiresAt lp' = lp_ExpiresAt lp ∧ lp_InlineValue lp' = lp_InlineValue lp ∧
     ∀ s, s ∈ lp_SiblingVersions lp' ↔ s ∈ lp_SiblingVersions lp ∧ presentIn d ns uk (FromProto (Some s))) ∧
  (¬ presentIn d ns uk (FromProto (lp_Winner lp)) → survivorsIn d ns uk = [] → o = None) ∧
  (¬ presentIn d ns uk (FromProto (lp_Winner lp)) → survivorsIn d ns uk ≠ [] → ∃ lp' w, o = Some lp' ∧
     is_winner w (survivorsIn d ns uk) ∧ lp_Winner lp' = sr_version w ∧ lp_Tombstone lp' = sr_tombstone w ∧
     lp_ExpiresAt lp' = sr_ExpiresAt w ∧ lp_InlineValue lp' = InlineValue w ∧
     ∀ s, s ∈ lp_SiblingVersions lp' ↔ s ∈ lp_SiblingVersions lp ∧ FromProto (Some s) ≠ recVersion w ∧
       ∃ r, r ∈ survivorsIn d ns uk ∧ recVersion r = FromProto (Some s)).

Lemma repaired_outcome d ns uk lp : cut_outcome d ns uk lp (repaired d ns uk lp).
Proof.
  assert (anchored d ns uk lp → keptSiblings d ns uk (lp_SiblingVersions lp) = lp_SiblingVersions lp) as Hk.
  { intros [_ Hs]. unfold keptSiblings. induction (lp_SiblingVersions lp) as [|s sibs IH]; [done|].
    rewrite filter_cons_True by (apply Hs; left). f_equal. apply IH. intros s' Hs'. apply Hs. by right. }
  unfold repaired, cut_outcome. destruct (decide (presentIn _ _ _ _)) as [Hp|Hp]; (split; [|split; [|split]]).
  - intros Ha. by rewrite decide_True by auto.
  - intros _. destruct (decide _) as [E|E]; (eexists; split_and!; [done..|]); intros s; cbn [lp_SiblingVersions].
    + rewrite <-E at 1. unfold keptSiblings. rewrite list_elem_of_filter. naive_solver.
    + unfold keptSiblings. rewrite list_elem_of_filter. naive_solver.
  - done.
  - done.
  - by intros [? _].
  - done.
  - by intros _ ->.
  - intros _. destruct (survivorsIn d ns uk) as [|r rs] eqn:Es; [done|]. intros _. cbn [RebuildLatestPointer fmap option_fmap option_map].
    eexists _, (winnerOf r rs). split_and!; [done|apply winnerOf_winner|done..|]. intros s.
    cbn [lp_SiblingVersions lp_Winner]. unfold survivingSiblings, survivorSet. rewrite list_elem_of_filter, list_elem_of_fmap.
    unfold recVersion at 1. naive_solver.
Qed.

Lemma repaired_anchored d ns uk lp lp' : data_wf d → repaired d ns uk lp = Some lp' → anchored d ns uk lp'.
Proof.
  intros Hwf E. unfold repaired in E. destruct (decide (presentIn _ _ _ _)) as [Hp|Hp].
  - injection E as <-. destruct (decide _) as [Ek|Ek]; split; [done| |done|]; intros s; cbn [lp_SiblingVersions].
    + rewrite <-Ek. unfold keptSiblings. rewrite list_elem_of_filter. tauto.
    + unfold keptSiblings. rewrite list_elem_of_filter. tauto.
  - destruct (survivorsIn d ns uk) as [|r rs] eqn:Es; [done|]. injection E as <-. split; cbn [lp_Winner lp_SiblingVersions].
    + apply (survivor_present d ns uk (winnerOf r rs) Hwf). rewrite Es. apply winnerOf_winner.
    + intros s. unfold survivingSiblings. rewrite list_elem_of_filter.
      intros [[_ (y & -> & Hy)%(list_elem_of_fmap recVersion (r :: rs))] _]. apply survivor_present; [done|]. by rewrite Es.
Qed.

(** What the repair leaves of the pointers [m] over the records [d]. *)
Definition pointersRepaired (d m m' : gmap bytes bytes) : Prop :=
  ∀ ns uk, lenZ ns < 128 → id_ok uk →
    let row := m !! latestKey ns uk in
    let row' := m' !! latestKey ns uk in
    match row ≫= DecodeLatestPointer with
    | None => row' = row
    | Some lp => cut_outcome d ns uk lp (row' ≫= DecodeLatestPointer) ∧
        ∀ lp', row' ≫= DecodeLatestPointer = Some lp' → anchored d ns uk lp'
    end.

Lemma repair_cut (l : L) :
  ls_live l → meta_wf (ls_view l CFKVMeta) → data_wf (ls_view l CFKVData) →
  Forall (repairable (ls_view l CFKVData)) (entriesOf (ls_view l CFKVMeta)) →
  ∃ l', RepairCutMeta l = (Ok (), l') ∧ ls_live l' ∧ (∀ cf, cf_valid cf = true → cf ≠ CFKVMeta → ls_view l' cf = ls_view l cf) ∧
    pointersRepaired (ls_view l CFKVData) (ls_view l CFKVMeta) (ls_view l' CFKVMeta).
Proof using Type PBS.
  intros Hl Hm Hd Hr. unfold RepairCutMeta. rewrite ls_Scan_ok by done.
  fold (entriesOf (ls_view l CFKVMeta)). set (m := ls_view l CFKVMeta) in *. set (d := ls_view l CFKVData) in *.
  destruct (repairLoop_ok (entriesOf m) [] l) as (l' & rowss & E & Hl' & Hd' & Hm' & Hall); [done|constructor|done|].
  exists l'. split_and!; [done..|]. unfold pointersRepaired. intros ns uk Hn Hk. cbv zeta. set (row := m !! _). set (row' := ls_view l' CFKVMeta !! _). fold m in Hm'. rewrite app_nil_l in Hm'.
  destruct (rowss_lookup d (entriesOf m) rowss m ns uk Hn Hall (entriesOf_NoDup m Hm)) as [Hout Hin].
  rewrite <-Hm' in Hout, Hin. fold row row' in Hout, Hin. destruct (row ≫= DecodeLatestPointer) as [lp|] eqn:Erow.
  - assert (row' ≫= DecodeLatestPointer = repaired d ns uk lp) as ->.
    { pose proof (Hin (mkLpEntry ns uk lp)) as Ha. unfold row_after in Ha. cbn [le_ns le_uk le_lp] in Ha.
      destruct (repaired d ns uk lp) as [lp'|].
      - destruct Ha as [[-> ->]|(b & Hb & ->)]; [by apply elem_of_entriesOf|done|done|]. by apply decode_pointer.
      - rewrite Ha; [done|by apply elem_of_entriesOf|done]. }
    split; [apply repaired_outcome|]. intros lp'. by apply repaired_anchored.
  - apply Hout. intros (e & Ee & He)%list_elem_of_fmap. apply elem_of_entriesOf in He as (_ & _ & He); [|done].
    unfold row in Erow. rewrite Ee, He in Erow. done.
Qed.

(** C33: repairing a restored cut is sound. Over rows the store writes,
    [RepairCutMeta] succeeds and leaves the records alone; a pointer whose winner and
    siblings survived the cut is left as it was, one that lost its winner points at the
    last-write-wins winner of the key's surviving records with the surviving siblings, one
    whose key has no surviving record is gone, and no pointer is left dangling. *)
Theorem repair_cut_sound (l : L) :
  ls_live l → meta_wf (ls_view l CFKVMeta) → data_wf (ls_view l CFKVData) →
  Forall (repairable (ls_view l CFKVData)) (entriesOf (ls_view l CFKVMeta)) →
  ∃ l', RepairCutMeta l = (Ok (), l') ∧ ls_view l' CFKVData = ls_view l CFKVData ∧
    pointersRepaired (ls_view l CFKVData) (ls_view l CFKVMeta) (ls_view l' CFKVMeta).
Proof using Type PBS.
  intros Hl Hm Hd Hr. destruct (repair_cut l Hl Hm Hd Hr) as (l' & E & _ & Hv & Hp). exists l'. split; [done|]. split; [by apply Hv|done].
Qed.

End Spec.

(** ** An evaluated example *)

Section Singleton.
Context {PB : Proto}.

Lemma data_wf_singleton ns uk b r :
  DecodeStoredRecord b = Some r → lenZ (dataKey ns uk (recVersion r)) < 2 ^ 62 →
  data_wf {[dataKey ns uk (recVersion r) := b]}.
Proof.
  intros Hb Hl ns' uk' x v r' [Ek <-]%lookup_singleton_Some Hr. rewrite Hb in Hr. injection Hr as <-.
  assert (∀ ns uk x, lenZ ns + lenZ uk ≤ lenZ (dataKeyPrefix ns uk ++ x)) as Hle.
  { intros. rewrite dataKeyPrefix_eq. unfold lenPrefix. lens. }
  pose proof (Hle ns' uk' x) as H1. pose proof (Hle ns uk (encodeVersion (recVersion r))) as H2.
  rewrite <-Ek in H1. unfold dataKey in *. pose proof (lenZ_nonneg ns). pose proof (lenZ_nonneg uk).
  pose proof (lenZ_nonneg ns'). pose proof (lenZ_nonneg uk').
  apply dataKeyPrefix_inj in Ek as (_ & _ & E); [done|unfold id_ok; lia..].
Qed.

End Singleton.

Import RecordSamples.

(** A key whose winner (written at 9) was cut, with a survivor written at 5. *)
Definition cutSurvivor : StoredRecord := putRec (lit "k") 5 (lit "m") 1 (lit "v").
Definition cutPointer : LatestPointer := winnerPointer (putRec (lit "k") 9 (lit "m") 2 (lit "w")).
Definition bytesOf {A} (f : A → option bytes) (a : A) : bytes := default [] (f a).

Definition cutStore : MemStore :=
  mkMemStore
    (<[CFKVData := {[dataKey (lit "ns") (lit "k") (recVersion cutSurvivor) := bytesOf EncodeStoredRecord cutSurvivor]}]>
       {[CFKVMeta := {[latestKey (lit "ns") (lit "k") := bytesOf EncodeLatestPointer cutPointer]}]}) false.

Lemma repair_cut_sound_witness :
  ∃ l', RepairCutMeta cutStore = (Ok (), l') ∧
    ls_view l' CFKVMeta !! latestKey (lit "ns") (lit "k") ≫= DecodeLatestPointer = Some (winnerPointer cutSurvivor).
Proof.
  destruct (repair_cut_sound cutStore) as (l' & E & _ & _).
  - reflexivity.
  - intros x v Hx. left. exists (lit "ns"), (lit "k"). split; [vm_compute; congruence|]. split; [vm_compute; congruence|].
    change (ls_view cutStore CFKVMeta) with ({[latestKey (lit "ns") (lit "k") := bytesOf EncodeLatestPointer cutPointer]} : gmap bytes bytes) in Hx.
    by apply lookup_singleton_Some in Hx as [-> _].
  - apply (data_wf_singleton (lit "ns") (lit "k") _ cutSurvivor); vm_compute; reflexivity.
  - apply Forall_true. intros e. unfold repairable, encodes. destruct (repaired _ _ _ _); [eexists; reflexivity|exact I].
  - exists l'. split; [exact E|].
    assert (l' = (RepairCutMeta cutStore).2) as -> by (by rewrite E). vm_compute. reflexivity.
Defined.

End RecordRepair.
