(* ===== verification/OutLog.v ===== *)
(** * The cross-cluster outbound log and its sender (internal/replication/global)

    The per-peer, partitioned log of mutations to ship to the peer clusters (outlog.go)
    and the sender that drains it (sender.go). The remote call is an argument: a function
    of the state of the world that delivers a batch to a peer and says whether it was
    acknowledged. *)

From S2P Require Import Prelude Bytes Hlc Version Conflict Storage Command Records RecordStore.

Local Open Scope Z_scope.

#[local] Set Default Proof Using "Type".

Module OutLog.
Import Version Conflict Storage Command Records.

(** ** Messages *)

Record GlobalMutationId := mkGMId { gi_ClusterId : bytes; gi_MemberId : bytes; gi_WriterSequence : Z }.

Record GlobalMutation := mkGM {
  gm_Id : option GlobalMutationId;
  gm_Namespace : bytes;
  gm_Key : bytes;
  gm_Record : option StoredRecord;
  gm_Partition : Z;
}.

#[export] Instance GlobalMutationId_eq_dec : EqDecision GlobalMutationId.
Proof. solve_decision. Defined.
#[export] Instance GlobalMutation_eq_dec : EqDecision GlobalMutation.
Proof. solve_decision. Defined.

Class GlobalProto := {
  EncodeGlobalMutation : GlobalMutation → option bytes;
  DecodeGlobalMutation : bytes → option GlobalMutation;
}.

Class GlobalProtoSpec `{GlobalProto} := {
  decode_mutation m b : EncodeGlobalMutation m = Some b → DecodeGlobalMutation b = Some m;
}.

(** ** Keys *)

Definition numPartitions : Z := 16.

Definition Partition (ns key : bytes) : Z :=
  fold_left RecordStore.fnv32 (ns ++ [x00] ++ key) 2166136261 mod numPartitions.

Definition pk (peer : bytes) (partition : Z) : bytes := peer ++ [x00] ++ put_u32 partition.

Definition outPrefix (peer : bytes) (partition : Z) : bytes :=
  lit "gout" ++ [x00] ++ peer ++ [x00] ++ put_u32 partition.

Definition outKey (peer : bytes) (partition seq : Z) : bytes := outPrefix peer partition ++ put_u64 seq.

(** ** The log *)

Record Log (L : Type) := mkLog {
  ol_store : L;
  ol_budget : Z;
  ol_seq : gmap bytes Z;
  ol_bytes : gmap bytes Z;
  ol_checkpoint : gmap bytes Z;
}.
Arguments mkLog {L}.
Arguments ol_store {L}.
Arguments ol_budget {L}.
Arguments ol_seq {L}.
Arguments ol_bytes {L}.
Arguments ol_checkpoint {L}.

Record OutEntry := mkOutEntry { oe_Seq : Z; oe_Mutation : GlobalMutation }.

Inductive outErr := ErrOutLogFull | OMarshal | OStore (e : storeErr).

(** Reading a Go map of integers. *)
Definition at0 (m : gmap bytes Z) (k : bytes) : Z := default 0 (m !! k).

Section Ops.
Context {L : Type} `{LocalStore L} `{GlobalProto}.

Definition NewOutLog (store : L) (budgetBytes : Z) : Log L := mkLog store budgetBytes ∅ ∅ ∅.

Definition Append (peer : bytes) (m : GlobalMutation) (globalDurabilityRequired : bool) (l : Log L)
    : res outErr unit * Log L :=
  let key := pk peer (gm_Partition m) in
  if globalDurabilityRequired && (0 <? ol_budget l) && (ol_budget l <=? at0 (ol_bytes l) key)
  then (Err ErrOutLogFull, l)
  else
    let seq := uint64 (at0 (ol_seq l) key + 1) in
    match EncodeGlobalMutation m with
    | None => (Err OMarshal, l)
    | Some b =>
        match ls_Put (ol_store l) CFReplLog (outKey peer (gm_Partition m) seq) b with
        | Err e => (Err (OStore e), l)
        | Ok store =>
            (Ok (), mkLog store (ol_budget l) (<[key := seq]> (ol_seq l))
                      (<[key := int64 (at0 (ol_bytes l) key + lenZ b)]> (ol_bytes l)) (ol_checkpoint l))
        end
    end.

(** An undecodable row is skipped. *)
Definition outEntry (kv : StoreKV) : option OutEntry :=
  mkOutEntry (get_u64 (drop (length kv.1 - 8) kv.1)) <$> DecodeGlobalMutation kv.2.

Definition IterateFrom (peer : bytes) (partition fromSeq limit : Z) (l : Log L) : res storeErr (list OutEntry) :=
  do? kvs ← ls_Scan (ol_store l) CFReplLog (Some (outKey peer partition (uint64 (fromSeq + 1))))
              (prefixEnd (outPrefix peer partition)) limit ;
  Ok (omap outEntry kvs).

Definition Checkpoint (peer : bytes) (partition seq : Z) (l : Log L) : Log L :=
  let key := pk peer partition in
  if at0 (ol_checkpoint l) key <? seq
  then mkLog (ol_store l) (ol_budget l) (ol_seq l) (ol_bytes l) (<[key := seq]> (ol_checkpoint l))
  else l.

(** The deletions of a compaction: what is left of the store, how many rows went and
    their size. A failed deletion is skipped. *)
Fixpoint compactLoop (peer : bytes) (partition cp : Z) (entries : list OutEntry) (store : L) (removed freed : Z)
    : L * Z * Z :=
  match entries with
  | [] => (store, removed, freed)
  | e :: entries =>
      if cp <? oe_Seq e then (store, removed, freed)
      else match ls_Delete store CFReplLog (outKey peer partition (oe_Seq e)) with
           | Ok store =>
               compactLoop peer partition cp entries store (removed + 1)
                 (int64 (freed + lenZ (default [] (EncodeGlobalMutation (oe_Mutation e)))))
           | Err _ => compactLoop peer partition cp entries store removed freed
           end
  end.

Definition CompactBelowCheckpoint (peer : bytes) (partition : Z) (l : Log L) : res storeErr Z * Log L :=
  let key := pk peer partition in
  let cp := at0 (ol_checkpoint l) key in
  if cp =? 0 then (Ok 0, l)
  else match IterateFrom peer partition 0 0 l with
       | Err e => (Err e, l)
       | Ok entries =>
           let '(store, removed, freed) := compactLoop peer partition cp entries (ol_store l) 0 0 in
           (Ok removed, mkLog store (ol_budget l) (ol_seq l)
              (<[key := Z.max 0 (int64 (at0 (ol_bytes l) key - freed))]> (ol_bytes l)) (ol_checkpoint l))
       end.

Definition LogBytes (peer : bytes) (partition : Z) (l : Log L) : Z := at0 (ol_bytes l) (pk peer partition).
Definition LastSeq (peer : bytes) (partition : Z) (l : Log L) : Z := at0 (ol_seq l) (pk peer partition).

(** ** The sender *)

Definition batch : Z := 256.

Record Sender (W : Type) := mkSender {
  sd_world : W;
  sd_log : Log L;
  sd_cursor : gmap bytes Z;
}.
Arguments mkSender {W}.
Arguments sd_world {W}.
Arguments sd_log {W}.
Arguments sd_cursor {W}.

(** The partitions, in the order of the loop. *)
Definition partitions : list Z := Z.of_nat <$> seq 0 (Z.to_nat numPartitions).

Section Drain.
Context {W : Type} (PushGlobal : W → bytes → list GlobalMutation → W * bool).

(** One peer and one partition: ship what follows the cursor; on success move the
    cursor, checkpoint and compact. Returns how many entries were sent. *)
Definition drainPart (peer : bytes) (part : Z) (s : Sender W) : Z * Sender W :=
  let cursor := at0 (sd_cursor s) (pk peer part) in
  match IterateFrom peer part cursor batch (sd_log s) with
  | Err _ => (0, s)
  | Ok entries =>
      match last entries with
      | None => (0, s)
      | Some e =>
          let '(w, ok) := PushGlobal (sd_world s) peer (oe_Mutation <$> entries) in
          if ok
          then (Z.of_nat (length entries),
                mkSender w
                  (CompactBelowCheckpoint peer part (Checkpoint peer part (oe_Seq e) (sd_log s))).2
                  (<[pk peer part := oe_Seq e]> (sd_cursor s)))
          else (0, mkSender w (sd_log s) (sd_cursor s))
      end
  end.

Definition drainStep (acc : Z * Sender W) (pp : bytes * Z) : Z * Sender W :=
  let '(n, s) := drainPart pp.1 pp.2 acc.2 in (acc.1 + n, s).

Definition DrainOnce (peers : list bytes) (s : Sender W) : Z * Sender W :=
  fold_left drainStep (peers ≫= λ p, (λ part, (p, part)) <$> partitions) (0, s).

End Drain.

End Ops.

Arguments mkSender {L W}.
Arguments sd_world {L W}.
Arguments sd_log {L W}.
Arguments sd_cursor {L W}.

(** ** The log as a sequence per peer and partition *)

(** The entries of a history, numbered from [k + 1]. *)
Fixpoint entriesFrom (k : Z) (h : list GlobalMutation) : list OutEntry :=
  match h with [] => [] | m :: h => mkOutEntry (k + 1) m :: entriesFrom (k + 1) h end.

Lemma length_entriesFrom k h : length (entriesFrom k h) = length h.
Proof. revert k. induction h as [|m h IH]; intros k; simpl; [done|]. by rewrite IH. Qed.

Lemma drop_entriesFrom n k h : drop n (entriesFrom k h) = entriesFrom (k + Z.of_nat n) (drop n h).
Proof.
  revert k h. induction n as [|n IH]; intros k h; [by rewrite !drop_0, Z.add_0_r|]. destruct h as [|m h]; [done|].
  simpl. rewrite IH. f_equal. lia.
Qed.

Lemma take_entriesFrom n k h : take n (entriesFrom k h) = entriesFrom k (take n h).
Proof. revert k h. induction n as [|n IH]; intros k [|m h]; simpl; [done..|]. by rewrite IH. Qed.

Lemma elem_of_entriesFrom k h e :
  e ∈ entriesFrom k h ↔ ∃ i, h !! i = Some (oe_Mutation e) ∧ oe_Seq e = k + Z.of_nat i + 1.
Proof.
  revert k. induction h as [|m h IH]; intros k; simpl.
  { rewrite elem_of_nil. split; [done|]. by intros (i & Hi & _). }
  rewrite elem_of_cons, IH. split.
  - intros [->|(i & Hi & E)]; [exists 0%nat; split; [done|simpl; lia]|]. exists (S i). split; [done|lia].
  - intros ([|i] & Hi & E); [left|right; exists i; split; [done|lia]].
    destruct e as [sq g]. simpl in *. injection Hi as ->. f_equal. lia.
Qed.

Lemma entriesFrom_sorted k h : StronglySorted (λ a b, oe_Seq a < oe_Seq b) (entriesFrom k h).
Proof.
  revert k. induction h as [|m h IH]; intros k; simpl; constructor; [apply IH|].
  apply Forall_forall. intros e (i & _ & ->)%elem_of_entriesFrom. simpl. lia.
Qed.

Lemma entriesFrom_NoDup k h : NoDup (oe_Seq <$> entriesFrom k h).
Proof.
  revert k. induction h as [|m h IH]; intros k; simpl; [constructor|]. apply NoDup_cons. split; [|apply IH].
  intros (e & E & (i & _ & Hi)%elem_of_entriesFrom)%list_elem_of_fmap. simpl in E. lia.
Qed.

Lemma fmap_entriesFrom k h : oe_Mutation <$> entriesFrom k h = h.
Proof. revert k. induction h as [|m h IH]; intros k; [done|]. cbn. f_equal. apply IH. Qed.

Lemma last_entriesFrom k h e : list.last (entriesFrom k h) = Some e → oe_Seq e = k + Z.of_nat (length h).
Proof.
  revert k. induction h as [|m h IH]; intros k; [done|]. cbn [entriesFrom length].
  destruct h as [|m' h]; [intros [= <-]; simpl; lia|]. intros E. rewrite (IH (k + 1)); [lia|]. exact E.
Qed.

Definition peer_ok (p : bytes) : Prop := x00 ∉ p.

Lemma pk_inj p1 p2 q1 q2 :
  peer_ok p1 → peer_ok p2 → in_u32 q1 → in_u32 q2 → pk p1 q1 = pk p2 q2 → p1 = p2 ∧ q1 = q2.
Proof. intros H1 H2 ?? E. apply sep_split in E as [-> E]; [|done..]. split; [done|]. by apply put_u32_inj. Qed.

Lemma outPrefix_pk p q : outPrefix p q = lit "gout" ++ [x00] ++ pk p q.
Proof. done. Qed.

(** Keys of different logs are apart. *)
Lemma outPrefix_inj p1 p2 q1 q2 r1 r2 :
  peer_ok p1 → peer_ok p2 → in_u32 q1 → in_u32 q2 →
  outPrefix p1 q1 ++ r1 = outPrefix p2 q2 ++ r2 → p1 = p2 ∧ q1 = q2 ∧ r1 = r2.
Proof.
  intros ???? E. rewrite !outPrefix_pk in E. rewrite <-!app_assoc in E. apply app_inv_head, app_inv_head in E.
  unfold pk in E. rewrite <-!app_assoc in E. apply sep_split in E as [-> E]; [|done..].
  apply app_inj_1 in E as [E ->]; [|by rewrite !length_put_u32]. split_and!; [done| |done]. by apply put_u32_inj.
Qed.

Lemma apply_put cf k v m : apply_ops cf [putOp cf k v] m = <[k := v]> m.
Proof. cbn. unfold apply_op. cbn. by rewrite Z.eqb_refl. Qed.

Lemma apply_del cf k m : apply_ops cf [delOp cf k] m = delete k m.
Proof. cbn. unfold apply_op. cbn. by rewrite Z.eqb_refl. Qed.

Section Spec.
Context {L : Type} {LS : LocalStore L} {LSS : LocalStoreSpec L} {GP : GlobalProto} {GPS : GlobalProtoSpec}.

(** The rows of one log: the entries of history [h] past the first [c]. *)
Definition rows_ok (m : gmap bytes bytes) (peer : bytes) (part : Z) (h : list GlobalMutation) (c : nat) : Prop :=
  ∀ x v, m !! (outPrefix peer part ++ x) = Some v ↔
    ∃ i g, (c ≤ i)%nat ∧ h !! i = Some g ∧ x = put_u64 (Z.of_nat i + 1) ∧ EncodeGlobalMutation g = Some v.

Definition hist_ok (h : list GlobalMutation) : Prop :=
  Z.of_nat (length h) < 2 ^ 64 - 1 ∧ Forall (λ g, is_Some (EncodeGlobalMutation g)) h.

Lemma rows_lookup m peer part h c i :
  rows_ok m peer part h c → hist_ok h → (i < length h)%nat → (c ≤ i)%nat →
  ∃ g v, h !! i = Some g ∧ EncodeGlobalMutation g = Some v ∧ m !! outKey peer part (Z.of_nat i + 1) = Some v.
Proof.
  intros Hr [_ Hh] Hi Hc. destruct (lookup_lt_is_Some_2 h i Hi) as [g Hg].
  rewrite Forall_lookup in Hh. destruct (Hh i g Hg) as [v Hv]. exists g, v. split_and!; [done..|].
  apply Hr. exists i, g. done.
Qed.

Lemma log_keys_sorted peer part (l : list OutEntry) :
  StronglySorted (λ a b, oe_Seq a < oe_Seq b) l → (∀ e, e ∈ l → in_u64 (oe_Seq e)) →
  StronglySorted bytes_le ((λ e, outKey peer part (oe_Seq e)) <$> l).
Proof.
  induction l as [|e l IH]; intros Hs Hu; [constructor|].
  apply StronglySorted_inv in Hs as [Hs Hf']. cbn. constructor; [apply IH; [done|]; intros; apply Hu; by right|].
  apply Forall_forall. intros x (e' & -> & He')%list_elem_of_fmap. rewrite Forall_forall in Hf'.
  unfold bytes_le, outKey. rewrite bcompare_app_l, bcompare_put_u64 by (apply Hu; first [left|by right]).
  specialize (Hf' e' He'). simpl in Hf'. rewrite (proj2 (Z.compare_lt_iff _ _) Hf'). done.
Qed.

(** A scan past sequence [from] reads the entries past it. *)
Lemma scan_keys_log m peer part h c (from n : nat) :
  rows_ok m peer part h c → hist_ok h → n = Nat.max from c → (n ≤ length h)%nat →
  scan_keys m (Some (outKey peer part (Z.of_nat from + 1))) (prefixEnd (outPrefix peer part)) =
    (λ e, outKey peer part (oe_Seq e)) <$> entriesFrom (Z.of_nat n) (drop n h).
Proof.
  intros Hr Hh Hn Hf. assert (∀ e, e ∈ entriesFrom (Z.of_nat n) (drop n h) → in_u64 (oe_Seq e)) as Hu.
  { intros e (i & Hi%lookup_lt_Some & ->)%elem_of_entriesFrom. rewrite length_drop in Hi. destruct Hh. zlia. }
  apply (StronglySorted_unique bytes_le).
  - apply StronglySorted_merge_sort; apply _.
  - by apply log_keys_sorted; [apply entriesFrom_sorted|].
  - apply NoDup_Permutation; [apply scan_keys_NoDup| |].
    + pose proof (entriesFrom_NoDup (Z.of_nat n) (drop n h)) as Hnd. rewrite (list_fmap_compose oe_Seq (outKey peer part)).
      apply NoDup_fmap_2_strong; [|done].
      intros a b (ea & -> & Ha)%list_elem_of_fmap (eb & -> & Hb)%list_elem_of_fmap E.
      unfold outKey in E. apply app_inv_head in E. apply put_u64_inj in E; auto.
    + intros x. rewrite elem_of_scan_keys, list_elem_of_fmap. split.
      * intros [[v Hv] Hb]. assert (outPrefix peer part `prefix_of` x) as [y ->].
        { apply prefixEnd_spec. split; [|apply Hb]. trans (outKey peer part (Z.of_nat from + 1)); [|apply Hb].
          apply (prefixEnd_spec (outPrefix peer part)). by apply prefix_app_r. }
        apply Hr in Hv as (i & g & Hc & Hg & -> & _). exists (mkOutEntry (Z.of_nat i + 1) g). split; [done|].
        apply elem_of_entriesFrom. destruct Hb as [Hb _]. unfold outKey, bytes_le in Hb.
        pose proof (lookup_lt_Some _ _ _ Hg). rewrite bcompare_app_l, bcompare_put_u64 in Hb by (destruct Hh; zlia).
        assert (from ≤ i)%nat as Hle.
        { destruct (Z.compare_spec (Z.of_nat from + 1) (Z.of_nat i + 1)); [lia|lia|done]. }
        exists (i - n)%nat. rewrite lookup_drop. replace (n + (i - n))%nat with i by lia. simpl. split; [done|lia].
      * intros (e & -> & He). pose proof (Hu e He) as Hin. apply elem_of_entriesFrom in He as (i & Hi & Es). rewrite lookup_drop in Hi.
        destruct Hh as [Hl Hall]. rewrite Forall_lookup in Hall. destruct (Hall _ _ Hi) as [v Hv]. split.
        -- exists v. apply Hr. exists (n + i)%nat, (oe_Mutation e). split_and!; [lia|done| |done]. f_equal. lia.
        -- pose proof (proj2 (prefixEnd_spec (outPrefix peer part) (outKey peer part (oe_Seq e))) ltac:(by apply prefix_app_r)) as [_ Hhi].
           split; [|exact Hhi]. unfold outKey, bytes_le. rewrite bcompare_app_l, bcompare_put_u64 by zlia.
           destruct (Z.compare_spec (Z.of_nat from + 1) (oe_Seq e)); [done|done|lia].
Qed.

Lemma outKey_seq peer part z : in_u64 z → get_u64 (drop (length (outKey peer part z) - 8) (outKey peer part z)) = z.
Proof.
  intros Hz. unfold outKey. rewrite length_app, length_put_u64.
  replace (length (outPrefix peer part) + 8 - 8)%nat with (length (outPrefix peer part)) by lia.
  rewrite drop_app_length. rewrite <-(app_nil_r (put_u64 z)). by apply get_put_u64.
Qed.

Lemma IterateFrom_ok l peer part h c (from n : nat) limit :
  ls_live (ol_store l) → rows_ok (ls_view (ol_store l) CFReplLog) peer part h c → hist_ok h →
  n = Nat.max from c → (n ≤ length h)%nat →
  IterateFrom peer part (Z.of_nat from) limit l =
    Ok (entriesFrom (Z.of_nat n) (if 0 <? limit then take (Z.to_nat limit) (drop n h) else drop n h)).
Proof using Type GPS.
  intros Hl Hr Hh Hn Hf. unfold IterateFrom. rewrite ls_Scan_ok by done. cbn [res_bind]. f_equal.
  rewrite uint64_id by (destruct Hh; zlia). set (m := ls_view (ol_store l) CFReplLog) in *.
  assert (∀ es : list OutEntry, (∀ e, e ∈ es → e ∈ entriesFrom (Z.of_nat n) (drop n h)) →
    omap outEntry ((λ k, (k, default [] (m !! k))) <$> ((λ e, outKey peer part (oe_Seq e)) <$> es)) = es) as Homap.
  { induction es as [|e es IH]; intros Hin; [done|]. cbn [fmap list_fmap omap list_omap].
    destruct (proj1 (elem_of_entriesFrom _ _ _) (Hin e ltac:(left))) as (i & Hi & Es). rewrite lookup_drop in Hi.
    pose proof (lookup_lt_Some _ _ _ Hi) as Hlt. destruct (rows_lookup m peer part h c (n + i)) as (g & v & Hg & Hv & Hrow); [done|done|lia|lia|].
    replace (Z.of_nat (n + i) + 1) with (oe_Seq e) in Hrow by lia. rewrite Hrow. simpl. rewrite Hi in Hg. injection Hg as <-.
    unfold outEntry. simpl. rewrite outKey_seq by (destruct Hh; zlia). rewrite (decode_mutation _ _ Hv). simpl.
    destruct e as [sq g]. simpl. f_equal. apply IH. intros; apply Hin; by right. }
  destruct (Z.ltb_spec 0 limit).
  - rewrite newSliceIterator_limit by done. rewrite newSliceIterator_all by lia.
    rewrite (scan_keys_log m peer part h c from n) by done. rewrite <-!fmap_take, take_entriesFrom. apply Homap.
    intros e. rewrite <-take_entriesFrom. intros (i & Hi & _)%elem_of_take. by eapply list_elem_of_lookup_2.
  - rewrite newSliceIterator_all by lia. rewrite (scan_keys_log m peer part h c from n) by done. by apply Homap.
Qed.

(** ** The invariant *)

Definition upd {B} (f : bytes → Z → B) (p : bytes) (q : Z) (x : B) : bytes → Z → B :=
  λ p' q', if decide ((p', q') = (p, q)) then x else f p' q'.

Lemma upd_eq {B} (f : bytes → Z → B) p q x : upd f p q x p q = x.
Proof. unfold upd. by rewrite decide_True. Qed.
Lemma upd_ne {B} (f : bytes → Z → B) p q x p' q' : (p', q') ≠ (p, q) → upd f p q x p' q' = f p' q'.
Proof. intros. unfold upd. by rewrite decide_False. Qed.

(** Log [l] holds, for each peer and partition, the history [H] past its first [C]
    entries. *)
Record log_inv (l : Log L) (H : bytes → Z → list GlobalMutation) (C : bytes → Z → nat) : Prop := {
  li_live : ls_live (ol_store l);
  li_seq p q : peer_ok p → in_u32 q → at0 (ol_seq l) (pk p q) = Z.of_nat (length (H p q));
  li_rows p q : peer_ok p → in_u32 q → rows_ok (ls_view (ol_store l) CFReplLog) p q (H p q) (C p q);
  li_hist p q : hist_ok (H p q);
  li_le p q : (C p q ≤ length (H p q))%nat;
}.

Lemma log_inv_new s b : ls_live s → ls_view s CFReplLog = ∅ → log_inv (NewOutLog s b) (λ _ _, []) (λ _ _, 0%nat).
Proof.
  intros Hl Hv. split; simpl; [done| | | |done].
  - intros. unfold at0. by rewrite lookup_empty.
  - intros p q _ _ x v. rewrite Hv, lookup_empty. split; [done|]. by intros (i & g & _ & ? & _).
  - intros. split; [simpl; lia|constructor].
Qed.

Lemma outKey_ne p q p' q' z x :
  peer_ok p → peer_ok p' → in_u32 q → in_u32 q' → (p', q') ≠ (p, q) → outKey p q z ≠ outPrefix p' q' ++ x.
Proof. intros ???? Hne E. apply outPrefix_inj in E as (-> & -> & _); done. Qed.

Lemma rows_ok_append m p q h c g b :
  rows_ok m p q h c → (c ≤ length h)%nat → EncodeGlobalMutation g = Some b → Z.of_nat (length h) < 2 ^ 64 - 2 →
  rows_ok (<[outKey p q (Z.of_nat (length h) + 1) := b]> m) p q (h ++ [g]) c.
Proof.
  intros Hr Hle Hb Hh x v. unfold outKey. destruct (decide (x = put_u64 (Z.of_nat (length h) + 1))) as [->|Hx].
  - rewrite lookup_insert_eq. split.
    + intros [= <-]. exists (length h), g. split_and!; [lia| |done|done]. by rewrite lookup_app_r, Nat.sub_diag.
    + intros (i & g' & Hc & Hg' & E & Hv'). pose proof (lookup_lt_Some _ _ _ Hg') as Hlt. rewrite length_app in Hlt. simpl in Hlt.
      apply put_u64_inj in E; [|zlia..]. assert (i = length h) as -> by lia.
      rewrite lookup_app_r, Nat.sub_diag in Hg' by lia. injection Hg' as <-. congruence.
  - rewrite lookup_insert_ne by (intros E%app_inv_head; done). rewrite (Hr x v). split.
    + intros (i & g' & Hc & Hg' & -> & Hv'). exists i, g'. split_and!; [done| |done|done]. by apply lookup_app_l_Some.
    + intros (i & g' & Hc & Hg' & -> & Hv'). exists i, g'. split_and!; [done| |done|done].
      apply lookup_app_Some in Hg' as [?|[Hge Hg']]; [done|]. destruct (i - length h)%nat eqn:Ei; [|done].
      exfalso. apply Hx. do 2 f_equal. lia.
Qed.

Lemma Append_ok l H C peer g req :
  log_inv l H C → peer_ok peer → in_u32 (gm_Partition g) → is_Some (EncodeGlobalMutation g) →
  Z.of_nat (length (H peer (gm_Partition g))) < 2 ^ 64 - 2 →
  req && (0 <? ol_budget l) && (ol_budget l <=? at0 (ol_bytes l) (pk peer (gm_Partition g))) = false →
  ∃ l', Append peer g req l = (Ok (), l') ∧ log_inv l' (upd H peer (gm_Partition g) (H peer (gm_Partition g) ++ [g])) C ∧
    ol_checkpoint l' = ol_checkpoint l ∧ ol_budget l' = ol_budget l.
Proof.
  intros Hi Hp Hq [b Hb] Hlen Hbud. unfold Append. rewrite Hbud, Hb. set (q := gm_Partition g) in *.
  rewrite (li_seq _ _ _ Hi) by done. rewrite uint64_id by zlia.
  edestruct (ls_Put_ok (ol_store l) CFReplLog) as (s' & -> & Hl' & Hv); [apply Hi|done|].
  eexists. split; [reflexivity|]. split; [|done]. split; cbn [ol_store ol_seq].
  - done.
  - intros p' q' Hp' Hq'. unfold at0. destruct (decide ((p', q') = (peer, q))) as [[= -> ->]|Hne].
    + rewrite upd_eq, lookup_insert_eq, length_app. simpl. lia.
    + rewrite upd_ne, lookup_insert_ne by (done || intros E; apply pk_inj in E as [-> ->]; done). by apply (li_seq _ _ _ Hi).
  - intros p' q' Hp' Hq' x v. rewrite Hv, apply_put by done.
    destruct (decide ((p', q') = (peer, q))) as [[= -> ->]|Hne].
    + rewrite upd_eq. apply rows_ok_append; [by apply (li_rows _ _ _ Hi)|apply Hi|done|done].
    + rewrite upd_ne by done. rewrite lookup_insert_ne by (by apply outKey_ne). by apply (li_rows _ _ _ Hi).
  - intros p' q'. destruct (decide ((p', q') = (peer, q))) as [[= -> ->]|Hne]; [|rewrite upd_ne by done; apply Hi].
    rewrite upd_eq. destruct (li_hist _ _ _ Hi peer q) as [_ Hall]. split; [rewrite length_app; simpl; lia|].
    apply Forall_app. split; [done|]. apply Forall_singleton. eauto.
  - intros p' q'. pose proof (li_le _ _ _ Hi p' q'). destruct (decide ((p', q') = (peer, q))) as [[= -> ->]|Hne].
    + rewrite upd_eq, length_app. lia.
    + by rewrite upd_ne.
Qed.

(** *** Compaction *)

Lemma rows_ok_delete m p q h c :
  rows_ok m p q h c → hist_ok h → rows_ok (delete (outKey p q (Z.of_nat c + 1)) m) p q h (S c).
Proof.
  intros Hr [Hh _] x v. unfold outKey. destruct (decide (x = put_u64 (Z.of_nat c + 1))) as [->|Hx].
  - rewrite lookup_delete_eq. split; [done|]. intros (i & g & Hc & Hg%lookup_lt_Some & E & _).
    apply put_u64_inj in E; zlia.
  - rewrite lookup_delete_ne by (intros E%app_inv_head; done). rewrite (Hr x v). split.
    + intros (i & g & Hc & Hg & -> & Hv). exists i, g. split_and!; [|done..].
      destruct (decide (i = c)) as [->|]; [done|lia].
    + intros (i & g & Hc & Hg & -> & Hv). exists i, g. split_and!; [lia|done..].
Qed.

Lemma rows_ok_other m p q p' q' h c z :
  peer_ok p → peer_ok p' → in_u32 q → in_u32 q' → (p', q') ≠ (p, q) →
  rows_ok m p' q' h c → rows_ok (delete (outKey p q z) m) p' q' h c.
Proof. intros ????? Hr x v. rewrite lookup_delete_ne by (by apply outKey_ne). apply Hr. Qed.

Lemma compactLoop_ok p q h (cp c : nat) s removed freed :
  peer_ok p → in_u32 q → ls_live s → rows_ok (ls_view s CFReplLog) p q h c → hist_ok h →
  (c ≤ length h)%nat → (cp ≤ length h)%nat →
  ∃ s' r f, compactLoop p q (Z.of_nat cp) (entriesFrom (Z.of_nat c) (drop c h)) s removed freed = (s', r, f) ∧
    ls_live s' ∧ rows_ok (ls_view s' CFReplLog) p q h (Nat.max c cp) ∧
    ∀ p' q' h' c', peer_ok p' → in_u32 q' → (p', q') ≠ (p, q) →
      rows_ok (ls_view s CFReplLog) p' q' h' c' → rows_ok (ls_view s' CFReplLog) p' q' h' c'.
Proof.
  intros Hp Hq. remember (length h - c)%nat as n eqn:En. revert c s removed freed En.
  induction n as [|n IH]; intros c s removed freed En Hl Hr Hh Hc Hcp.
  { rewrite drop_ge by lia. cbn. exists s, removed, freed. replace (Nat.max c cp) with c by lia. done. }
  destruct (drop c h) as [|g rest] eqn:Ed; [apply (f_equal length) in Ed; rewrite length_drop in Ed; simpl in Ed; lia|].
  cbn [entriesFrom compactLoop oe_Seq]. destruct (Z.ltb_spec (Z.of_nat cp) (Z.of_nat c + 1)).
  { exists s, removed, freed. replace (Nat.max c cp) with c by lia. done. }
  destruct (ls_Delete_ok s CFReplLog (outKey p q (Z.of_nat c + 1))) as (s1 & -> & Hl1 & Hv1); [done..|].
  assert (rest = drop (S c) h) as ->.
  { apply (f_equal (drop 1)) in Ed. rewrite drop_drop in Ed. cbn in Ed. by rewrite Nat.add_1_r in Ed. }
  replace (Z.of_nat c + 1) with (Z.of_nat (S c)) in * by lia.
  edestruct (IH (S c) s1) as (s' & r & f & E & Hl' & Hr' & Hother); [lia|done| |done|lia|done|].
  { rewrite Hv1, apply_del by done. replace (Z.of_nat (S c)) with (Z.of_nat c + 1) by lia. by apply rows_ok_delete. }
  exists s', r, f. split; [exact E|]. split; [done|]. split; [by replace (Nat.max c cp) with (Nat.max (S c) cp) by lia|].
  intros p' q' h' c' ??? Hr0. apply Hother; [done..|]. rewrite Hv1, apply_del by done. by apply rows_ok_other.
Qed.

Lemma Compact_ok l H C p q (cp : nat) :
  log_inv l H C → peer_ok p → in_u32 q → (0 < cp ≤ length (H p q))%nat → at0 (ol_checkpoint l) (pk p q) = Z.of_nat cp →
  let l' := (CompactBelowCheckpoint p q l).2 in
  log_inv l' H (upd C p q (Nat.max (C p q) cp)) ∧ ol_checkpoint l' = ol_checkpoint l.
Proof using Type GPS.
  intros Hi Hp Hq Hcp Ecp. unfold CompactBelowCheckpoint. rewrite Ecp. destruct (Z.eqb_spec (Z.of_nat cp) 0); [lia|].
  pose proof (li_le _ _ _ Hi p q) as Hle.
  change (IterateFrom p q 0 0 l) with (IterateFrom p q (Z.of_nat 0) 0 l).
  rewrite (IterateFrom_ok l p q (H p q) (C p q) 0 (C p q) 0); [|apply Hi|by apply (li_rows _ _ _ Hi)|apply Hi|lia|done].
  change (0 <? 0) with false. cbn iota.
  destruct (compactLoop_ok p q (H p q) cp (C p q) (ol_store l) 0 0) as (s' & r & f & -> & Hl' & Hr' & Ho);
    [done|done|apply Hi|by apply (li_rows _ _ _ Hi)|apply Hi|done|lia|].
  cbn [snd]. split; [|done]. split; cbn [ol_store ol_seq]; [done|apply Hi| |apply Hi|].
  - intros p' q' Hp' Hq'. destruct (decide ((p', q') = (p, q))) as [[= -> ->]|Hne]; [by rewrite upd_eq|].
    rewrite upd_ne by done. apply Ho; [done..|]. by apply (li_rows _ _ _ Hi).
  - intros p' q'. pose proof (li_le _ _ _ Hi p' q').
    destruct (decide ((p', q') = (p, q))) as [[= -> ->]|Hne]; [rewrite upd_eq; lia|by rewrite upd_ne].
Qed.

Lemma Checkpoint_inv l H C p q z : log_inv l H C → log_inv (Checkpoint p q z l) H C.
Proof. intros Hi. unfold Checkpoint. destruct (_ <? _); [|done]. by destruct Hi. Qed.

(** *** Draining *)

Section Drain.
Context {W : Type} (PushGlobal : W → bytes → list GlobalMutation → W * bool).

(** The sender is past the first [K] entries of each log, and they are compacted. *)
Record snd_inv (s : Sender W) (H : bytes → Z → list GlobalMutation) (K : bytes → Z → nat) : Prop := {
  si_log : log_inv (sd_log s) H K;
  si_cursor p q : peer_ok p → in_u32 q → at0 (sd_cursor s) (pk p q) = Z.of_nat (K p q);
  si_check p q : peer_ok p → in_u32 q → at0 (ol_checkpoint (sd_log s)) (pk p q) = Z.of_nat (K p q);
}.

Definition pending (H : bytes → Z → list GlobalMutation) (K : bytes → Z → nat) p q : list GlobalMutation :=
  take (Z.to_nat batch) (drop (K p q) (H p q)).

Lemma drainPart_ok s H K p q :
  snd_inv s H K → peer_ok p → in_u32 q →
  let s' := (drainPart PushGlobal p q s).2 in
  match pending H K p q with
  | [] => s' = s
  | ms => let '(w, ok) := PushGlobal (sd_world s) p ms in
      sd_world s' = w ∧ snd_inv s' H (if ok then upd K p q (K p q + length ms)%nat else K)
  end.
Proof using Type GPS.
  intros [Hi Hc Hk] Hp Hq. unfold drainPart. rewrite Hc by done.
  pose proof (li_le _ _ _ Hi p q) as Hle.
  rewrite (IterateFrom_ok (sd_log s) p q (H p q) (K p q) (K p q) (K p q) batch);
    [|apply Hi|by apply (li_rows _ _ _ Hi)|apply Hi|lia|done].
  change (0 <? batch) with true. cbn iota. fold (pending H K p q). rewrite fmap_entriesFrom.
  destruct (list.last (entriesFrom (Z.of_nat (K p q)) (pending H K p q))) as [e|] eqn:El; last first.
  { apply last_None in El. destruct (pending H K p q); done. }
  pose proof (last_entriesFrom _ _ _ El) as Es.
  destruct (pending H K p q) as [|g ms'] eqn:Ep; [done|]. rewrite <-Ep in *. set (ms := pending H K p q) in *.
  destruct (PushGlobal (sd_world s) p ms) as [w []]; cbn [snd]; [|by split].
  assert (0 < length ms)%nat by (rewrite Ep; simpl; lia).
  assert (K p q + length ms ≤ length (H p q))%nat as Hlen by (unfold ms, pending; rewrite length_take, length_drop; lia).
  cbn [sd_world]. split; [done|]. set (K' := (K p q + length ms)%nat).
  assert (oe_Seq e = Z.of_nat K') as Es' by lia. rewrite Es'.
  set (lg := Checkpoint p q (Z.of_nat K') (sd_log s)).
  assert (at0 (ol_checkpoint lg) (pk p q) = Z.of_nat K') as Hcp.
  { unfold lg, Checkpoint. rewrite Hk by done. destruct (Z.ltb_spec (Z.of_nat (K p q)) (Z.of_nat K')); [|lia].
    unfold at0. cbn. by rewrite lookup_insert_eq. }
  assert (∀ p' q', peer_ok p' → in_u32 q' → (p', q') ≠ (p, q) → pk p q ≠ pk p' q') as Hpk.
  { intros p' q' ?? Hne E. apply pk_inj in E as [-> ->]; done. }
  destruct (Compact_ok lg H K p q K') as [Hi' Hk']; [by apply Checkpoint_inv|done|done|lia|done|].
  replace (Nat.max (K p q) K') with K' in Hi' by lia. split; cbn [sd_log sd_cursor]; [done| |].
  - intros p' q' Hp' Hq'. unfold at0. destruct (decide ((p', q') = (p, q))) as [[= -> ->]|Hne];
      [by rewrite upd_eq, lookup_insert_eq|]. rewrite upd_ne, lookup_insert_ne by auto. by apply Hc.
  - intros p' q' Hp' Hq'. rewrite Hk'. destruct (decide ((p', q') = (p, q))) as [[= -> ->]|Hne]; [by rewrite upd_eq|].
    rewrite upd_ne by done. unfold lg, Checkpoint, at0. case_match; [|by apply Hk].
    cbn. rewrite lookup_insert_ne by auto. by apply Hk.
Qed.

End Drain.

End Spec.

End OutLog.
