(* ===== verification/Applier.v ===== *)
(** * Applying mutations of other clusters (internal/replication/global)

    The applier of inbound mutations and the server entry point around it (applier.go,
    server.go), the range summaries and fetches of anti-entropy (antientropy.go) and the
    reconciler that drives them (reconcile.go). The applier writes through the three
    operations it declares as an interface; the record store implements it. *)

From S2P Require Import Prelude Bytes Strconv Hlc Version Conflict Storage Command Records RecordStore RecordRefine OutLog.

Local Open Scope Z_scope.

#[local] Set Default Proof Using "Type".

Module Applier.
Import Version Conflict Storage Command Records RecordStore RecordRefine OutLog.

(** ** The record store interface (applier.go) *)

Class RecordOps (S : Type) := {
  ro_GetRecord : bytes → bytes → S → res recErr (option StoredRecord);
  ro_Apply : StoredRecord → Z → S → res recErr Version * S;
  ro_ApplySiblings : bytes → bytes → list StoredRecord → S → res recErr unit * S;
}.

(** What it promises: the store is a map of winners, [ro_Apply] is one last-write-wins
    resolution of the record's key. *)
Class RecordOpsSpec (S : Type) `{RecordOps S} := {
  ro_models : S → winners → Prop;
  ro_storable : StoredRecord → Prop;
  ro_GetRecord_ok st A ns k : ro_models st A → ns_ok ns → ro_GetRecord ns k st = Ok (A !! (ns, k));
  ro_held st A k r : ro_models st A → A !! k = Some r → keyOf r = k ∧ ro_storable r;
  ro_Apply_ok st A r kind :
    ro_models st A → ro_storable r → agrees A r →
    ∃ v st', ro_Apply r kind st = (Ok v, st') ∧ ro_models st' (absorbInto A r);
}.

#[export] Instance Store_RecordOps {L} `{LocalStore L} `{Proto} : RecordOps (Store L) := {
  ro_GetRecord := GetRecord;
  ro_Apply := RecordStore.Apply;
  ro_ApplySiblings := ApplySiblings;
}.

#[export] Program Instance Store_RecordOpsSpec {L} `{LocalStoreSpec L} `{ProtoSpec} : RecordOpsSpec (Store L) := {
  ro_models := rs_inv;
  ro_storable := storable;
}.
Next Obligation. intros. by apply GetRecord_ok. Qed.
Next Obligation.
  intros L ???? st A [ns k] r Hi Hr. pose proof (inv_data _ _ Hi ns k) as Hd. rewrite Hr in Hd. naive_solver.
Qed.
Next Obligation.
  intros L ???? st A r kind Hi Hs Ha. destruct (Apply_ok st A r kind Hi Hs Ha) as (w & st' & _ & E & Hi' & _). eauto.
Qed.

(** ** The applier *)

Definition vecNSPrefix : bytes := [x00] ++ lit "vec" ++ [x00].
Definition IsMutationNamespace (ns : bytes) : bool := bool_decide (vecNSPrefix `prefix_of` ns).

Definition mutationKey (id : option GlobalMutationId) : bytes :=
  match id with
  | Some i => gi_ClusterId i ++ [x00] ++ gi_MemberId i ++ [x00] ++ Strconv.FormatUint (gi_WriterSequence i)
  | None => [x00] ++ [x00] ++ Strconv.FormatUint 0
  end.

(** [ap_vectors] is the calls of the vector sink, latest first, when one is installed;
    [ap_notified] those of the post-apply hook. *)
Record Applier (S VR : Type) := mkApplier {
  ap_store : S;
  ap_applied : gset bytes;
  ap_vectors : option (list VR);
  ap_notified : list (bytes * bytes * option StoredRecord);
}.
Arguments mkApplier {S VR}.
Arguments ap_store {S VR}.
Arguments ap_applied {S VR}.
Arguments ap_vectors {S VR}.
Arguments ap_notified {S VR}.

Section Ops.
Context {S VR : Type} `{RecordOps S}.
Context (registry : Registry) (policyFor : bytes → bytes) (Unwrap : option StoredRecord → option VR).

Definition Applied (id : option GlobalMutationId) (a : Applier S VR) : bool :=
  bool_decide (mutationKey id ∈ ap_applied a).

(** [res.Record]: nil for siblings and rejections. *)
Definition resolved (r : ResolveResult) : option StoredRecord := resultRecord r.

(** The write a resolution asks for. *)
Definition applyResolved (ns key : bytes) (r : ResolveResult) (st : S) : res recErr unit * S :=
  match r with
  | KindWinner w => let '(e, st) := ro_Apply w kindPut st in (res_map (λ _, ()) e, st)
  | KindTombstone w => let '(e, st) := ro_Apply w kindDelete st in (res_map (λ _, ()) e, st)
  | KindSiblings rs => ro_ApplySiblings ns key rs st
  | KindReject _ => (Ok (), st)
  end.

Definition isReject (r : ResolveResult) : bool := match r with KindReject _ => true | _ => false end.

Definition applyMutation (m : GlobalMutation) (a : Applier S VR) : res recErr bool * Applier S VR :=
  let id := mutationKey (gm_Id m) in
  if decide (id ∈ ap_applied a) then (Ok false, a)
  else
    let ns := gm_Namespace m in
    let key := gm_Key m in
    let incoming := gm_Record m in
    if IsMutationNamespace ns then
      let vectors := match ap_vectors a, Unwrap incoming with
                     | Some vs, Some v => Some (v :: vs)
                     | vs, _ => vs
                     end in
      (Ok true, mkApplier (ap_store a) ({[id]} ∪ ap_applied a) vectors (ap_notified a))
    else
      let existing := match ro_GetRecord ns key (ap_store a) with
                      | Ok (Some rec) => [Some rec]
                      | _ => []
                      end in
      let r := Registry_Resolver (policyFor ns) registry existing incoming in
      match applyResolved ns key r (ap_store a) with
      | (Err e, st) => (Err e, mkApplier st (ap_applied a) (ap_vectors a) (ap_notified a))
      | (Ok _, st) =>
          (Ok true, mkApplier st ({[id]} ∪ ap_applied a) (ap_vectors a)
                      (if isReject r then ap_notified a else (ns, key, resolved r) :: ap_notified a))
      end.

(** The server's batch: stops at the first error; the count of newly applied ones. *)
Fixpoint PushGlobal (ms : list GlobalMutation) (a : Applier S VR) (applied : Z) : res recErr Z * Applier S VR :=
  match ms with
  | [] => (Ok applied, a)
  | m :: ms =>
      match applyMutation m a with
      | (Err e, a) => (Err e, a)
      | (Ok ok, a) => PushGlobal ms a (if ok then applied + 1 else applied)
      end
  end.

End Ops.

(** ** Anti-entropy *)

Record KeyRange := mkKeyRange { kr_Namespace : bytes; kr_Start : option bytes; kr_End : option bytes }.

Section AntiEntropy.
Context {L : Type} `{LocalStore L} `{Proto} (sha256 : bytes → bytes).

Definition hashInput (rec : StoredRecord) : bytes :=
  let v := recVersion rec in
  sr_LogicalKey rec ++ put_u64 (HLCPhysicalMs v) ++ put_u64 (WriterSequence v) ++ WriterClusterID v ++ WriterMemberID v.

Definition rangeHash (r : KeyRange) (st : Store L) : bytes :=
  match ScanRecords (kr_Namespace r) (kr_Start r) (kr_End r) st with
  | Err _ => []
  | Ok recs => sha256 (recs ≫= hashInput)
  end.

Definition Summarize (ranges : list KeyRange) (st : Store L) : list (KeyRange * bytes) :=
  (λ r, (r, rangeHash r st)) <$> ranges.

Definition mutationOf (rec : StoredRecord) : GlobalMutation :=
  let v := recVersion rec in
  mkGM (Some (mkGMId (WriterClusterID v) (WriterMemberID v) (WriterSequence v))) (sr_Namespace rec) (sr_LogicalKey rec)
    (Some rec) (Partition (sr_Namespace rec) (sr_LogicalKey rec)).

Definition FetchRange (r : KeyRange) (st : Store L) : list GlobalMutation :=
  match ScanRecords (kr_Namespace r) (kr_Start r) (kr_End r) st with
  | Err _ => []
  | Ok recs => mutationOf <$> recs
  end.

(** ** The reconciler

    The two remote calls are arguments: the summary of a peer, [None] when the call
    fails, and the mutations its range stream delivers before it ends. *)
Context {VR LO : Type} `{LocalStore LO} `{GlobalProto}.
Context (registry : Registry) (policyFor : bytes → bytes) (Unwrap : option StoredRecord → option VR).
Context (RangeSummary : bytes → list KeyRange → option (list (KeyRange * bytes))).
Context (FetchRangeFrom : bytes → KeyRange → list GlobalMutation).

Record Reconciler := mkReconciler { rc_applier : Applier (Store L) VR; rc_log : Log LO }.

Definition rangesOf (namespaces : list bytes) : list KeyRange := (λ ns, mkKeyRange ns None None) <$> namespaces.

(** Apply what the stream delivers; an error of one mutation is counted and skipped. *)
Definition fetchAndApply (peer : bytes) (kr : KeyRange) (a : Applier (Store L) VR) : Applier (Store L) VR :=
  fold_left (λ a m, (applyMutation registry policyFor Unwrap m a).2) (FetchRangeFrom peer kr) a.

Definition reconcileRange (peer : bytes) (localByNS : gmap bytes bytes) (acc : Z * Applier (Store L) VR)
    (rh : KeyRange * bytes) : Z * Applier (Store L) VR :=
  if decide (rh.2 = default [] (localByNS !! kr_Namespace rh.1)) then acc
  else (acc.1 + 1, fetchAndApply peer rh.1 acc.2).

(** A peer's log counts as caught up through its last entry. *)
Definition checkpointAll (peer : bytes) (l : Log LO) : Log LO :=
  fold_left (λ l part, Checkpoint peer part (LastSeq peer part l) l) partitions l.

Definition reconcilePeer (ranges : list KeyRange) (localByNS : gmap bytes bytes) (acc : Z * Reconciler) (peer : bytes)
    : Z * Reconciler :=
  match RangeSummary peer ranges with
  | None => acc
  | Some hashes =>
      let '(n, a) := fold_left (reconcileRange peer localByNS) hashes (acc.1, rc_applier acc.2) in
      (n, mkReconciler a (checkpointAll peer (rc_log acc.2)))
  end.

Definition ReconcileOnce (namespaces : list bytes) (peers : list bytes) (r : Reconciler) : Z * Reconciler :=
  let ranges := rangesOf namespaces in
  let localByNS := fold_left (λ m h, <[kr_Namespace h.1 := h.2]> m) (Summarize ranges (ap_store (rc_applier r))) ∅ in
  fold_left (reconcilePeer ranges localByNS) peers (0, r).

End AntiEntropy.

(** ** One inbound mutation *)

Lemma ns_ok_not_vector ns : ns_ok ns → IsMutationNamespace ns = false.
Proof.
  intros [_ Hn]. apply bool_decide_eq_false_2. intros [k ->]. apply Hn. unfold vecNSPrefix. left.
Qed.

Lemma absorbInto_held A r w :
  A !! keyOf r = Some w → keyOf w = keyOf r → absorb (Some w) r = Some w → absorbInto A w = absorbInto A r.
Proof.
  intros Hw Hk Ha. assert (absorb (Some w) w = Some w) as Hww.
  { rewrite absorb_Some by done. f_equal. by destruct (decide (beats w w)). }
  rewrite (absorbInto_insert A r w) by (by rewrite Hw). rewrite (absorbInto_insert A w w) by (by rewrite Hk, Hw).
  by rewrite Hk.
Qed.

(** The resolution of a held record and an incoming one is their last-write-wins merge. *)
Lemma resolve_absorb h r :
  ∃ w, absorb h r = Some w ∧
    HLCLastWriteWins_Resolve [h] (Some r) = if sr_tombstone w then KindTombstone w else KindWinner w.
Proof.
  unfold absorb, HLCLastWriteWins_Resolve. destruct h as [v|]; cbn [fold_left lww_step].
  - destruct (0 <? _); eexists; (split; [|reflexivity]); cbn; by case_match.
  - eexists; (split; [|reflexivity]); cbn; by case_match.
Qed.

Section Spec.
Context {S VR : Type} {RO : RecordOps S} {ROS : RecordOpsSpec S}.
Context (registry : Registry) (policyFor : bytes → bytes) (Unwrap : option StoredRecord → option VR).

Definition uses_lww (ns : bytes) : Prop := Registry_Resolver (policyFor ns) registry = HLCLastWriteWins_Resolve.

(** A key-value mutation whose record is the one it names. *)
Definition mutation_of (m : GlobalMutation) (r : StoredRecord) : Prop :=
  gm_Record m = Some r ∧ keyOf r = (gm_Namespace m, gm_Key m) ∧ ns_ok (gm_Namespace m) ∧ ro_storable r ∧
  uses_lww (gm_Namespace m).

Lemma winner_facts A r w st :
  absorb (A !! keyOf r) r = Some w → ro_models st A → ro_storable r → agrees A r →
  ro_storable w ∧ agrees A w ∧ absorbInto A w = absorbInto A r.
Proof.
  intros Ew HA Hs Hag. destruct (A !! keyOf r) as [v|] eqn:Ev; [|rewrite absorb_None in Ew; injection Ew as <-; done].
  pose proof Ew as Ew'. rewrite absorb_Some in Ew' by (by apply Hag). injection Ew' as <-.
  destruct (decide (beats r v)); [done|]. destruct (ro_held _ _ _ _ HA Ev) as [Hkv Hsv].
  split_and!; [done| |by apply absorbInto_held]. intros v' Hv' _. rewrite Hkv, Ev in Hv'. congruence.
Qed.

Lemma applyMutation_ok m r a A :
  mutation_of m r → ro_models (ap_store a) A → agrees A r → mutationKey (gm_Id m) ∉ ap_applied a →
  ∃ a', applyMutation registry policyFor Unwrap m a = (Ok true, a') ∧ ro_models (ap_store a') (absorbInto A r) ∧
    ap_applied a' = {[mutationKey (gm_Id m)]} ∪ ap_applied a.
Proof.
  intros (Hr & Hk & Hn & Hs & Hlww) HA Hag Hid. unfold applyMutation. rewrite decide_False by done.
  rewrite ns_ok_not_vector by done. rewrite (ro_GetRecord_ok _ A) by done. rewrite Hlww, Hr, <-Hk.
  set (existing := match A !! keyOf r with Some rec => [Some rec] | None => [] end).
  assert (HLCLastWriteWins_Resolve existing (Some r) = HLCLastWriteWins_Resolve [A !! keyOf r] (Some r)) as ->.
  { unfold existing. by destruct (A !! keyOf r). }
  destruct (resolve_absorb (A !! keyOf r) r) as (w & Ew & ->).
  destruct (winner_facts A r w (ap_store a)) as (Hsw & Haw & Eabs); [done..|].
  destruct (ro_Apply_ok (ap_store a) A w (if sr_tombstone w then kindDelete else kindPut)) as (v & st' & Ea & HA'); [done..|].
  rewrite Eabs in HA'. unfold applyResolved. destruct (sr_tombstone w); rewrite Ea; cbn [res_map];
    (eexists; split; [reflexivity|done]).
Qed.

(** *** A node among known mutations *)

Definition recordsOf (ms : list GlobalMutation) : list StoredRecord := omap gm_Record ms.

Lemma elem_of_recordsOf ms r : r ∈ recordsOf ms ↔ ∃ m, m ∈ ms ∧ gm_Record m = Some r.
Proof. apply list_elem_of_omap. Qed.

(** The mutations of a system: each carries a well-formed record, an id stands for one
    record and a version stamps one record of a key. *)
Record universe (U : list GlobalMutation) : Prop := {
  un_wf m : m ∈ U → ∃ r, mutation_of m r;
  un_id m1 m2 : m1 ∈ U → m2 ∈ U → mutationKey (gm_Id m1) = mutationKey (gm_Id m2) → gm_Record m1 = gm_Record m2;
  un_stamped : stamped (recordsOf U);
}.

(** Node [a] holds the winners of the records [R], all from the system's mutations, among
    them those of every mutation it has marked applied. *)
Record node_inv (U : list GlobalMutation) (a : Applier S VR) (R : list StoredRecord) : Prop := {
  ni_models : ro_models (ap_store a) (fold_left absorbInto R ∅);
  ni_known r : r ∈ R → r ∈ recordsOf U;
  ni_applied m r : m ∈ U → mutationKey (gm_Id m) ∈ ap_applied a → gm_Record m = Some r → r ∈ R;
}.

Lemma fold_absorbInto_elem (R : list StoredRecord) k w : fold_left absorbInto R ∅ !! k = Some w → w ∈ R ∧ keyOf w = k.
Proof.
  rewrite absorbInto_lookup, lookup_empty. intros E.
  pose proof (absorb_fold_winner (filter (λ r, keyOf r = k) R) None) as Hw. rewrite E in Hw.
  destruct Hw as [Hw _]. simpl in Hw. apply list_elem_of_filter in Hw as [? ?]. done.
Qed.

Lemma node_agrees U a R r : universe U → node_inv U a R → r ∈ recordsOf U → agrees (fold_left absorbInto R ∅) r.
Proof.
  intros HU Hn Hr w Hw Ev. apply fold_absorbInto_elem in Hw as [Hw Hk].
  apply (un_stamped _ HU); [by apply (ni_known _ _ _ Hn)|done..].
Qed.

Lemma node_apply U a R m :
  universe U → node_inv U a R → m ∈ U →
  ∃ ok a' R', applyMutation registry policyFor Unwrap m a = (Ok ok, a') ∧ node_inv U a' R' ∧
    ∀ r, r ∈ R' ↔ r ∈ R ∨ gm_Record m = Some r.
Proof.
  intros HU Hn Hm. destruct (un_wf _ HU m Hm) as [r Hr]. pose proof Hr as (Er & _).
  destruct (decide (mutationKey (gm_Id m) ∈ ap_applied a)) as [Hin|Hin].
  { exists false, a, R. unfold applyMutation. rewrite decide_True by done. split_and!; [done..|].
    intros r'. split; [by left|]. intros [|E]; [done|]. by apply (ni_applied _ _ _ Hn m). }
  assert (r ∈ recordsOf U) as HrU by (apply elem_of_recordsOf; eauto).
  destruct (applyMutation_ok m r a _ Hr (ni_models _ _ _ Hn) (node_agrees U a R r HU Hn HrU) Hin) as (a' & E & HA & Eap).
  exists true, a', (R ++ [r]). split; [done|]. split.
  - split; [by rewrite fold_left_app| |].
    + intros r' [?| ->%list_elem_of_singleton]%elem_of_app; [by apply (ni_known _ _ _ Hn)|done].
    + intros m' r' Hm' Hid Er'. rewrite Eap in Hid. apply elem_of_union in Hid as [Hid|Hid].
      * apply elem_of_singleton in Hid. rewrite (un_id _ HU m' m Hm' Hm Hid) in Er'. apply elem_of_app. right.
        apply list_elem_of_singleton. congruence.
      * apply elem_of_app. left. by apply (ni_applied _ _ _ Hn m').
  - intros r'. rewrite elem_of_app, list_elem_of_singleton, Er. naive_solver.
Qed.

Lemma node_push U ms a R n :
  universe U → node_inv U a R → (∀ m, m ∈ ms → m ∈ U) →
  ∃ n' a' R', PushGlobal registry policyFor Unwrap ms a n = (Ok n', a') ∧ node_inv U a' R' ∧
    ∀ r, r ∈ R' ↔ r ∈ R ∨ r ∈ recordsOf ms.
Proof.
  intros HU. revert a R n. induction ms as [|m ms IH]; intros a R n Hn Hms.
  { exists n, a, R. split_and!; [done..|]. intros r. cbn. rewrite elem_of_nil. naive_solver. }
  destruct (node_apply U a R m) as (ok & a1 & R1 & E & Hn1 & HR1); [done|done|apply Hms; left|].
  destruct (IH a1 R1 (if ok then n + 1 else n)) as (n' & a' & R' & E' & Hn' & HR'); [done|intros; apply Hms; by right|].
  exists n', a', R'. cbn [PushGlobal]. rewrite E. split_and!; [done..|]. intros r. rewrite HR', HR1, !elem_of_recordsOf.
  setoid_rewrite elem_of_cons. naive_solver.
Qed.

End Spec.

End Applier.
