(* ===== verification/GlobalSystem.v ===== *)
(** * Active-active replication between clusters

    The system the node assembles (cmd/wavespan-node/main.go): every cluster applies its own
    writes to its record store, appends them to the outbound log of each peer, drains the
    logs over a network that may lose a batch or its acknowledgement, and applies what it
    receives. Each cluster is one node. *)

From S2P Require Import Prelude Bytes Strconv Hlc Version Conflict Storage Command Records RecordSamples RecordStore RecordRefine OutLog Applier.

Local Open Scope Z_scope.

#[local] Set Default Proof Using "Type".

Module GlobalSystem.
Import Version Conflict Storage Command Records RecordStore RecordRefine OutLog Applier.

(** ** The system *)

(** What the network does to one call: it arrives and the answer comes back, it is lost,
    or the answer is lost. *)
Inductive delivery := Delivered | Lost | AckLost.

Section System.
Context {S VR L : Type} `{RecordOps S} `{LocalStore L} `{GlobalProto}.
Context (registry : Registry) (policyFor : bytes → bytes) (Unwrap : option StoredRecord → option VR).
Context (clusters : list bytes) (memberOf : bytes → bytes) (localOnly durable : bytes → bool).

Record sys := mkSys {
  sy_nodes : gmap bytes (Applier S VR);
  sy_out : gmap bytes (Log L * gmap bytes Z);
}.

Definition peersOf (c : bytes) : list bytes := filter (λ p, p ≠ c) clusters.

(** The mutation cluster [c] ships for a record it wrote. *)
Definition mutationFor (c : bytes) (rec : StoredRecord) : GlobalMutation :=
  mkGM (Some (mkGMId c (memberOf c) (WriterSequence (recVersion rec)))) (sr_Namespace rec) (sr_LogicalKey rec) (Some rec)
    (Partition (sr_Namespace rec) (sr_LogicalKey rec)).

(** The tap of the coordinator: append to every peer's log, errors ignored. *)
Definition appendToPeers (c : bytes) (rec : StoredRecord) (l : Log L) : Log L :=
  if localOnly (sr_Namespace rec) then l
  else fold_left (λ l p, (Append p (mutationFor c rec) (durable (sr_Namespace rec)) l).2) (peersOf c) l.

(** A write at its origin: the durable local apply, then the tap. *)
Definition write (c : bytes) (rec : StoredRecord) (kind : Z) (s : sys) : sys :=
  match sy_nodes s !! c with
  | None => s
  | Some a =>
      let '(e, st) := ro_Apply rec kind (ap_store a) in
      let nodes := <[c := mkApplier st (ap_applied a) (ap_vectors a) (ap_notified a)]> (sy_nodes s) in
      match e, sy_out s !! c with
      | Ok _, Some (l, cur) => mkSys nodes (<[c := (appendToPeers c rec l, cur)]> (sy_out s))
      | _, _ => mkSys nodes (sy_out s)
      end
  end.

(** The remote call: the script says what the network does, call by call, and delivers
    once it is spent. *)
Definition deliver (w : gmap bytes (Applier S VR) * list delivery) (peer : bytes) (ms : list GlobalMutation)
    : (gmap bytes (Applier S VR) * list delivery) * bool :=
  let '(o, rest) := match w.2 with [] => (Delivered, []) | o :: rest => (o, rest) end in
  match o, w.1 !! peer with
  | Lost, _ | _, None => ((w.1, rest), false)
  | _, Some a =>
      let '(e, a') := PushGlobal registry policyFor Unwrap ms a 0 in
      ((<[peer := a']> w.1, rest), match e, o with Ok _, Delivered => true | _, _ => false end)
  end.

Definition drain (c : bytes) (script : list delivery) (s : sys) : sys :=
  match sy_out s !! c with
  | None => s
  | Some (l, cur) =>
      let r := (DrainOnce deliver (peersOf c) (mkSender (sy_nodes s, script) l cur)).2 in
      mkSys (sd_world r).1 (<[c := (sd_log r, sd_cursor r)]> (sy_out s))
  end.

Inductive event :=
  | EvWrite (c : bytes) (rec : StoredRecord) (kind : Z)
  | EvDrain (c : bytes) (script : list delivery).

Definition step (s : sys) (e : event) : sys :=
  match e with
  | EvWrite c rec kind => write c rec kind s
  | EvDrain c script => drain c script s
  end.

Definition run (es : list event) (s : sys) : sys := fold_left step es s.

(** Every cluster drains once over a network that delivers. *)
Definition round : list event := (λ c, EvDrain c []) <$> clusters.

Definition initial (fresh : S) (store : L) (budget : Z) : sys :=
  mkSys (list_to_map ((λ c, (c, mkApplier fresh ∅ None [])) <$> clusters))
    (list_to_map ((λ c, (c, (NewOutLog store budget, ∅))) <$> clusters)).

End System.

Arguments mkSys {S VR L}.
Arguments sy_nodes {S VR L}.
Arguments sy_out {S VR L}.

(** ** Reachable states *)

Section Spec.
Context {S VR L : Type} {RO : RecordOps S} {ROS : RecordOpsSpec S} {LS : LocalStore L} {LSS : LocalStoreSpec L}.
Context {GP : GlobalProto} {GPS : GlobalProtoSpec}.
Context (registry : Registry) (policyFor : bytes → bytes) (Unwrap : option StoredRecord → option VR).
Context (clusters : list bytes).

Abbreviation nodes_t := (gmap bytes (Applier S VR)).

(** The nodes hold the winners of the records [R]. *)
Definition nodes_ok (U : list GlobalMutation) (nodes : nodes_t) (R : bytes → list StoredRecord) : Prop :=
  ∀ c, c ∈ clusters → ∃ a, nodes !! c = Some a ∧ node_inv U a (R c).

(** [R'] grew from [R] by records of [ms] only. *)
Definition grows (R R' : bytes → list StoredRecord) (ms : list GlobalMutation) : Prop :=
  ∀ c r, (r ∈ R c → r ∈ R' c) ∧ (r ∈ R' c → r ∈ R c ∨ r ∈ recordsOf ms).

Lemma deliver_ok U nodes script p ms R :
  universe registry policyFor U → nodes_ok U nodes R → p ∈ clusters → (∀ m, m ∈ ms → m ∈ U) →
  let '(w, ok) := deliver registry policyFor Unwrap (nodes, script) p ms in
  ∃ R', nodes_ok U w.1 R' ∧ grows R R' ms ∧ (ok = true → ∀ r, r ∈ recordsOf ms → r ∈ R' p) ∧
    (script = [] → ok = true ∧ w.2 = []).
Proof.
  intros HU Hn Hp Hms. unfold deliver. cbn [fst snd].
  destruct (Hn p Hp) as (a & Ea & Ha). rewrite Ea.
  destruct (node_push registry policyFor Unwrap U ms a (R p) 0 HU Ha Hms) as (n' & a' & Rp & E & Ha' & HRp).
  set (R' := λ c, if decide (c = p) then Rp else R c).
  assert (nodes_ok U (<[p := a']> nodes) R') as Hn'.
  { intros c Hc. unfold R'. destruct (decide (c = p)) as [->|Hne]; [exists a'; by rewrite lookup_insert_eq|].
    rewrite lookup_insert_ne by done. by apply Hn. }
  assert (grows R R' ms) as Hg.
  { intros c r. unfold R'. destruct (decide (c = p)) as [->|]; [rewrite HRp|]; naive_solver. }
  assert (∀ r, r ∈ recordsOf ms → r ∈ R' p) as Hin.
  { intros r Hr. unfold R'. rewrite decide_True by done. apply HRp. by right. }
  destruct script as [|[] rest]; cbn; rewrite ?E; cbn.
  - exists R'. done.
  - exists R'. split_and!; [done..|]. done.
  - exists R. split_and!; [done| |done|done]. intros c r. naive_solver.
  - exists R'. split_and!; [done..|]. done.
Qed.

(** *** One drain *)

(** The sender of cluster [c]: its logs [H], what it has shipped [K], and that every
    shipped record is at its peer. *)
Record drain_inv (U : list GlobalMutation) (c : bytes) (s : Sender (nodes_t * list delivery)) (R : bytes → list StoredRecord)
    (H : bytes → Z → list GlobalMutation) (K : bytes → Z → nat) : Prop := {
  di_nodes : nodes_ok U (sd_world s).1 R;
  di_snd : snd_inv (L := L) s H K;
  di_known p q m : m ∈ H p q → m ∈ U;
  di_sent p q m r : p ∈ peersOf clusters c → in_u32 q → m ∈ take (K p q) (H p q) → gm_Record m = Some r → r ∈ R p;
}.

(** The step from [K] to [K']: forward, and by a batch on [pq] when the network delivers. *)
Definition ships (H : bytes → Z → list GlobalMutation) (K K' : bytes → Z → nat) (good : Prop) (pqs : list (bytes * Z)) : Prop :=
  ∀ p q, (K p q ≤ K' p q)%nat ∧
    (good → (p, q) ∈ pqs → (Nat.min (length (H p q)) (K p q + Z.to_nat batch) ≤ K' p q)%nat).

Lemma take_pending H K p q :
  take (K p q + length (pending H K p q)) (H p q) = take (K p q) (H p q) ++ pending H K p q.
Proof.
  unfold pending. rewrite <-take_take_drop. f_equal. rewrite length_take.
  set (l := drop (K p q) (H p q)). destruct (Nat.le_ge_cases (Z.to_nat batch) (length l)).
  - by rewrite Nat.min_l.
  - rewrite Nat.min_r by done. by rewrite (take_ge l (length l)), take_ge.
Qed.

Context (Hpeers : Forall peer_ok clusters).

Lemma drainPart_inv U c s R H K p q :
  universe registry policyFor U → drain_inv U c s R H K → p ∈ peersOf clusters c → in_u32 q →
  let s' := (drainPart (deliver registry policyFor Unwrap) p q s).2 in
  ∃ R' K', drain_inv U c s' R' H K' ∧ (∀ c r, r ∈ R c → r ∈ R' c) ∧
    (∀ c r, r ∈ R' c → r ∈ R c ∨ r ∈ recordsOf (H p q)) ∧
    ships H K K' ((sd_world s).2 = []) [(p, q)] ∧ ((sd_world s).2 = [] → (sd_world s').2 = []).
Proof using Type GPS Hpeers.
  intros HU [Hn Hs Hk Hsent] Hp Hq s'. pose proof Hp as [Hpc HpC]%list_elem_of_filter.
  assert (peer_ok p) as Hpok by (by eapply Forall_forall in Hpeers).
  pose proof (drainPart_ok (deliver registry policyFor Unwrap) s H K p q Hs Hpok Hq) as Hd. fold s' in Hd.
  pose proof (li_le _ _ _ (si_log _ _ _ Hs) p q) as Hle.
  destruct (pending H K p q) as [|g rest] eqn:Ep.
  - exists R, K. assert (length (H p q) ≤ K p q)%nat as Hend.
    { apply (f_equal length) in Ep. unfold pending in Ep. rewrite length_take, length_drop in Ep.
      change (Z.to_nat batch) with 256%nat in Ep. cbn [length] in Ep. lia. }
    rewrite Hd. split_and!; [by split|auto|auto| |done].
    intros p' q'. split; [lia|]. intros _ [= -> ->]%list_elem_of_singleton. lia.
  - set (ms := g :: rest) in *. assert (∀ m, m ∈ ms → m ∈ H p q) as Hms.
    { intros m Hm. rewrite <-Ep in Hm. unfold pending in Hm. apply elem_of_take in Hm as (i & Hi & _).
      rewrite lookup_drop in Hi. by eapply list_elem_of_lookup_2. }
    pose proof (deliver_ok U (sd_world s).1 (sd_world s).2 p ms R HU Hn HpC) as Hdel.
    rewrite <-surjective_pairing in Hdel.
    cbv zeta in Hd. revert Hd Hdel. destruct (deliver registry policyFor Unwrap (sd_world s) p ms) as [w ok]. intros [Ew Hs'] Hdel.
    destruct Hdel as (R' & Hn' & Hg & Hok & Hgood); [intros m Hm; by eapply Hk, Hms|].
    exists R', (if ok then upd K p q (K p q + length ms)%nat else K).
    split_and!.
    + split; [by rewrite Ew|done|done|]. intros p' q' m r Hp' Hq' Hm Hr.
      assert (r ∈ R p' ∨ (p', q') = (p, q) ∧ ok = true ∧ m ∈ ms) as [?|(Epq & Eok & Hm')]; [|by apply Hg|].
      { destruct ok; [|left; by eapply Hsent]. destruct (decide ((p', q') = (p, q))) as [Epq|Hne].
        - injection Epq as -> ->. rewrite upd_eq in Hm. rewrite <-Ep, take_pending, Ep in Hm.
          apply elem_of_app in Hm as [Hm|Hm]; [left; by eapply Hsent|by right].
        - left. rewrite upd_ne in Hm by done. by eapply Hsent. }
      injection Epq as -> ->. apply Hok; [done|]. apply elem_of_recordsOf. eauto.
    + intros c' r Hr. by apply Hg.
    + intros c' r Hr. apply Hg in Hr as [?|Hr]; [by left|right]. apply elem_of_recordsOf in Hr as (m & Hm & Hr).
      apply elem_of_recordsOf. eauto.
    + intros p' q'. assert (length ms = Nat.min 256 (length (H p q) - K p q))%nat as Hlen.
      { rewrite <-Ep. unfold pending. by rewrite length_take, length_drop. }
      change (Z.to_nat batch) with 256%nat. destruct (decide ((p', q') = (p, q))) as [Epq|Hne].
      * injection Epq as -> ->. destruct ok; [rewrite upd_eq; split; [lia|intros _ _; lia]|].
        split; [lia|]. intros Hsc. by destruct (Hgood Hsc).
      * split; [destruct ok; [by rewrite upd_ne|done]|]. by intros _ Hin%list_elem_of_singleton.
    + intros Hsc. rewrite Ew. by apply Hgood.
Qed.

Lemma drain_fold U c H pqs n s R K :
  universe registry policyFor U → drain_inv U c s R H K → (∀ pq, pq ∈ pqs → pq.1 ∈ peersOf clusters c ∧ in_u32 pq.2) →
  let s' := (fold_left (drainStep (deliver registry policyFor Unwrap)) pqs (n, s)).2 in
  ∃ R' K', drain_inv U c s' R' H K' ∧ (∀ c r, r ∈ R c → r ∈ R' c) ∧
    (∀ c r, r ∈ R' c → r ∈ R c ∨ ∃ p q, r ∈ recordsOf (H p q)) ∧ ships H K K' ((sd_world s).2 = []) pqs.
Proof using Type GPS Hpeers.
  intros HU. revert n s R K. induction pqs as [|[p q] pqs IH]; intros n s R K Hd Hin.
  { exists R, K. split_and!; [exact Hd|auto|auto|]. intros p q. split; [done|]. by intros _ ?%elem_of_nil. }
  destruct (Hin (p, q) ltac:(left)) as [Hp Hq].
  destruct (drainPart_inv U c s R H K p q HU Hd Hp Hq) as (R1 & K1 & Hd1 & Hg1 & Hs1 & Hk1 & Hsc).
  set (d := drainPart (deliver registry policyFor Unwrap) p q s) in *. cbn [fold_left].
  assert (drainStep (deliver registry policyFor Unwrap) (n, s) (p, q) = (n + d.1, d.2)) as ->.
  { unfold drainStep. cbn [fst snd]. fold d. by destruct d. }
  destruct (IH (n + d.1) d.2 R1 K1 Hd1 ltac:(intros; apply Hin; by right)) as (R' & K' & Hd' & Hg' & Hs' & Hk').
  exists R', K'. split_and!; [exact Hd'|auto| |].
  - intros c' r Hr. apply Hs' in Hr as [Hr|?]; [|by right]. apply Hs1 in Hr as [?|?]; [by left|right; eauto].
  - intros p' q'. destruct (Hk1 p' q') as [Hle1 Hgood1], (Hk' p' q') as [Hle' Hgood']. split; [lia|].
    intros Hs Hpq. apply elem_of_cons in Hpq as [E|Hpq].
    + specialize (Hgood1 Hs ltac:(rewrite E; left)). lia.
    + specialize (Hgood' (Hsc Hs) Hpq). lia.
Qed.

Lemma elem_of_partitions q : q ∈ partitions ↔ 0 ≤ q < numPartitions.
Proof.
  unfold partitions. rewrite list_elem_of_fmap. setoid_rewrite elem_of_seq. unfold numPartitions. split.
  - intros (i & -> & Hi). lia.
  - intros Hq. exists (Z.to_nat q). lia.
Qed.

Lemma DrainOnce_inv U c H s R K :
  universe registry policyFor U → drain_inv U c s R H K →
  let s' := (DrainOnce (deliver registry policyFor Unwrap) (peersOf clusters c) s).2 in
  ∃ R' K', drain_inv U c s' R' H K' ∧ (∀ c r, r ∈ R c → r ∈ R' c) ∧
    (∀ c r, r ∈ R' c → r ∈ R c ∨ ∃ p q, r ∈ recordsOf (H p q)) ∧
    (∀ p q, (K p q ≤ K' p q)%nat) ∧
    ((sd_world s).2 = [] → ∀ p q, p ∈ peersOf clusters c → q ∈ partitions →
       (Nat.min (length (H p q)) (K p q + Z.to_nat batch) ≤ K' p q)%nat).
Proof using Type GPS Hpeers.
  intros HU Hd. unfold DrainOnce.
  destruct (drain_fold U c H (peersOf clusters c ≫= λ p, (λ part, (p, part)) <$> partitions) 0 s R K HU Hd)
    as (R' & K' & Hd' & Hg & Hs & Hk).
  { intros [p q] (p' & (q' & [= -> ->] & Hq)%list_elem_of_fmap & Hp)%list_elem_of_bind. split; [done|].
    apply elem_of_partitions in Hq. unfold numPartitions in Hq. cbn [snd]. zlia. }
  exists R', K'. split_and!; [done..| |]; intros; [apply Hk|]. apply Hk; [done|].
  apply list_elem_of_bind. exists p. split; [|done]. apply list_elem_of_fmap. eauto.
Qed.

(** *** One write *)

Lemma snd_append {W} (s : Sender W) (H : bytes → Z → list GlobalMutation) K p g :
  snd_inv (L := L) s H K → peer_ok p → in_u32 (gm_Partition g) → is_Some (EncodeGlobalMutation g) →
  Z.of_nat (length (H p (gm_Partition g))) < 2 ^ 64 - 2 →
  snd_inv (mkSender (sd_world s) (Append p g false (sd_log s)).2 (sd_cursor s))
    (upd H p (gm_Partition g) (H p (gm_Partition g) ++ [g])) K.
Proof.
  intros [Hi Hc Hk] Hp Hq He Hl.
  destruct (Append_ok (sd_log s) H K p g false) as (l' & -> & Hi' & Ec & _); [done..|].
  split; cbn [sd_log sd_cursor snd]; [done|done|]. by rewrite Ec.
Qed.

(** Appending to a list of distinct peers. *)
Lemma snd_appends (g : GlobalMutation) ps {W} (s : Sender W) (H : bytes → Z → list GlobalMutation) K :
  NoDup ps → Forall peer_ok ps → in_u32 (gm_Partition g) → is_Some (EncodeGlobalMutation g) →
  (∀ p, p ∈ ps → Z.of_nat (length (H p (gm_Partition g))) < 2 ^ 64 - 2) → snd_inv (L := L) s H K →
  ∃ H', snd_inv (mkSender (sd_world s) (fold_left (λ l p, (Append p g false l).2) ps (sd_log s)) (sd_cursor s)) H' K ∧
    ∀ p q, H' p q = if decide (p ∈ ps ∧ q = gm_Partition g) then H p q ++ [g] else H p q.
Proof.
  intros Hn Hp Hq He. revert s H. induction ps as [|p ps IH]; intros s H Hl Hs.
  { exists H. split; [by destruct s|]. intros p q. rewrite decide_False; [done|]. by intros [?%elem_of_nil _]. }
  apply NoDup_cons in Hn as [Hpn Hn]. apply Forall_cons in Hp as [Hp Hps].
  pose proof (snd_append s H K p g Hs Hp Hq He (Hl p ltac:(left))) as Hs1.
  edestruct (IH Hn Hps) as (H' & Hs' & EH); [|exact Hs1|].
  { intros p' Hp'. rewrite upd_ne; [apply Hl; by right|]. by intros [= ->]. }
  exists H'. split; [done|]. intros p' q'. rewrite EH. unfold upd.
  destruct (decide ((p', q') = (p, gm_Partition g))) as [[= -> ->]|Hne].
  - rewrite decide_False by (by intros [? _]). rewrite decide_True; [done|]. split; [left|done].
  - apply decide_ext. rewrite elem_of_cons. split; [intros [? ?]; by split; [right|]|].
    intros [[->|?] ->]; [by destruct Hne|done].
Qed.

(** *** The whole system *)

Context (memberOf : bytes → bytes) (localOnly durable : bytes → bool) (Hnodup : NoDup clusters).

Lemma drain_inv_mono U c s nodes R R' H K script :
  drain_inv U c s R H K → nodes_ok U nodes R' → (∀ c r, r ∈ R c → r ∈ R' c) →
  drain_inv U c (mkSender (nodes, script) (sd_log s) (sd_cursor s)) R' H K.
Proof. intros [Hn [Hi Hc Hk] Hkn Hs] Hn' Hg. split; [done|by split|done|]. intros. eapply Hg, Hs; eauto. Qed.

(** State [s] after the writes [Wr]: the nodes hold the winners of [R], cluster [c]'s log
    for peer [p] is [H c p] and its first [K c p] entries are at the peer. *)
Record sys_inv (U : list GlobalMutation) (Wr : bytes → list StoredRecord) (s : @sys S VR L) (R : bytes → list StoredRecord)
    (H : bytes → bytes → Z → list GlobalMutation) (K : bytes → bytes → Z → nat) : Prop := {
  sv_out c : c ∈ clusters → ∃ l cur, sy_out s !! c = Some (l, cur) ∧
    drain_inv U c (mkSender (sy_nodes s, []) l cur) R (H c) (K c);
  sv_nodes : nodes_ok U (sy_nodes s) R;
  sv_written c r : c ∈ clusters → r ∈ Wr c → r ∈ R c ∧
    ∀ p, p ∈ peersOf clusters c → mutationFor memberOf c r ∈ H c p (Partition (sr_Namespace r) (sr_LogicalKey r));
  sv_sourced c r : c ∈ clusters → r ∈ R c → ∃ c', c' ∈ clusters ∧ r ∈ Wr c';
  sv_log c p q m : c ∈ clusters → m ∈ H c p q → ∃ r, r ∈ Wr c ∧ m = mutationFor memberOf c r;
  sv_len c p q : (length (H c p q) ≤ length (Wr c))%nat;
}.

Lemma sys_drain U Wr s R H K c script :
  universe registry policyFor U → sys_inv U Wr s R H K → c ∈ clusters →
  ∃ R' K', sys_inv U Wr (drain registry policyFor Unwrap clusters c script s) R' H K' ∧
    (∀ c' p q, (K c' p q ≤ K' c' p q)%nat) ∧
    (script = [] → ∀ p q, p ∈ peersOf clusters c → q ∈ partitions →
       (Nat.min (length (H c p q)) (K c p q + Z.to_nat batch) ≤ K' c p q)%nat).
Proof using Type GPS Hpeers.
  intros HU Hi Hc. destruct (sv_out _ _ _ _ _ _ Hi c Hc) as (l & cur & El & Hd). unfold drain. rewrite El.
  apply (drain_inv_mono _ _ _ (sy_nodes s) R R _ _ script) in Hd; [|apply Hi|done]. cbn [sd_log sd_cursor] in Hd.
  destruct (DrainOnce_inv U c (H c) _ R (K c) HU Hd) as (R' & Kc & Hd' & Hg & Hsrc & Hle & Hgood).
  set (s' := (DrainOnce _ _ _).2) in *. exists R', (λ c', if decide (c' = c) then Kc else K c'). split; [split|split].
  - intros c' Hc'. cbn [sy_out sy_nodes]. destruct (decide (c' = c)) as [->|Hne].
    + rewrite lookup_insert_eq. eexists _, _. split; [done|]. eapply drain_inv_mono; [exact Hd'|apply Hd'|done].
    + rewrite lookup_insert_ne by done. destruct (sv_out _ _ _ _ _ _ Hi c' Hc') as (l' & cur' & El' & Hd2).
      exists l', cur'. split; [done|]. exact (drain_inv_mono _ _ _ _ _ _ _ _ [] Hd2 (di_nodes _ _ _ _ _ _ Hd') Hg).
  - apply Hd'.
  - intros c' r Hc' Hr. destruct (sv_written _ _ _ _ _ _ Hi c' r Hc' Hr). eauto.
  - intros c' r Hc' [Hr|(p & q & (m & Hm & Em)%elem_of_recordsOf)]%Hsrc; [by eapply (sv_sourced _ _ _ _ _ _ Hi)|].
    destruct (sv_log _ _ _ _ _ _ Hi c p q m Hc Hm) as (r' & Hr' & ->). injection Em as <-. eauto.
  - apply Hi.
  - apply Hi.
  - intros c' p q. destruct (decide (c' = c)) as [->|]; [apply Hle|done].
  - intros ->. rewrite decide_True by done. by apply Hgood.
Qed.

Definition addTo (Wr : bytes → list StoredRecord) (c : bytes) (r : StoredRecord) : bytes → list StoredRecord :=
  λ c', if decide (c' = c) then Wr c ++ [r] else Wr c'.

Lemma elem_of_addTo Wr c r c' r' : r' ∈ addTo Wr c r c' ↔ r' ∈ Wr c' ∨ c' = c ∧ r' = r.
Proof.
  unfold addTo. destruct (decide (c' = c)) as [->|Hne]; [|by split; [left|intros [?|[? _]]]].
  rewrite elem_of_app, list_elem_of_singleton. split; (intros [?|?]; [by left|right]); [done|by destruct H].
Qed.

(** A write the system can ship: its namespace is replicated and its mutation marshals. *)
Definition shippable (c : bytes) (r : StoredRecord) : Prop :=
  localOnly (sr_Namespace r) = false ∧ durable (sr_Namespace r) = false ∧
  is_Some (EncodeGlobalMutation (mutationFor memberOf c r)).

Lemma Partition_range ns k : 0 ≤ Partition ns k < numPartitions.
Proof. apply Z.mod_pos_bound. done. Qed.

Lemma write_node U (a : Applier S VR) R c r kind :
  universe registry policyFor U → node_inv U a R → mutationFor memberOf c r ∈ U →
  ∃ v st, ro_Apply r kind (ap_store a) = (Ok v, st) ∧
    node_inv U (mkApplier st (ap_applied a) (ap_vectors a) (ap_notified a)) (R ++ [r]).
Proof.
  intros HU Ha Hm. destruct (un_wf _ _ _ HU _ Hm) as (r' & Hr'). pose proof Hr' as ([= <-] & _ & _ & Hst & _).
  assert (r ∈ recordsOf U) as Hr by (apply elem_of_recordsOf; eauto).
  destruct (ro_Apply_ok (ap_store a) _ r kind (ni_models _ _ _ Ha) Hst (node_agrees _ _ U a R r HU Ha Hr)) as (v & st & E & HA).
  exists v, st. split; [done|]. split; cbn [ap_store ap_applied].
  - by rewrite fold_left_app.
  - intros x [?| ->%list_elem_of_singleton]%elem_of_app; [by apply (ni_known _ _ _ Ha)|done].
  - intros m x ???. apply elem_of_app. left. by eapply (ni_applied _ _ _ Ha).
Qed.

(** The ghost state of a write: its record at the origin, its mutation in every log. *)
Lemma sys_write_ghost U Wr s R H K c r nodes l cur (Hc : bytes → Z → list GlobalMutation) :
  sys_inv U Wr s R H K → c ∈ clusters → mutationFor memberOf c r ∈ U → nodes_ok U nodes (addTo R c r) →
  drain_inv U c (mkSender (sy_nodes s, []) l cur) R (H c) (K c) →
  ∀ l', snd_inv (L := L) (mkSender (nodes, [] : list delivery) l' cur) Hc (K c) →
  (∀ p q, Hc p q = if decide (p ∈ peersOf clusters c ∧ q = Partition (sr_Namespace r) (sr_LogicalKey r))
                   then H c p q ++ [mutationFor memberOf c r] else H c p q) →
  sys_inv U (addTo Wr c r) (mkSys nodes (<[c := (l', cur)]> (sy_out s))) (addTo R c r)
    (λ c', if decide (c' = c) then Hc else H c') K.
Proof.
  intros Hi HcC Hm Hn' Hd l' Hs' EH.
  assert (∀ c' x, x ∈ R c' → x ∈ addTo R c r c') as HgR by (intros; apply elem_of_addTo; by left).
  assert (∀ p q m, m ∈ Hc p q → m ∈ H c p q ∨ m = mutationFor memberOf c r) as HHc.
  { intros p q m. rewrite EH. destruct (decide _); [|by left]. rewrite elem_of_app, list_elem_of_singleton. done. }
  split; cbn [sy_out sy_nodes].
  - intros c' Hc'. destruct (decide (c' = c)) as [->|Hne].
    + rewrite lookup_insert_eq. exists l', cur. split; [done|]. split; [done|done| |].
      * intros p q m [?| ->]%HHc; [|done]. by eapply (di_known _ _ _ _ _ _ Hd).
      * intros p q m x Hp Hq Hin Hx. apply HgR. eapply (di_sent _ _ _ _ _ _ Hd); [done|done| |done].
        rewrite EH in Hin. destruct (decide _); [|done]. rewrite take_app_le in Hin; [done|].
        apply (li_le _ _ _ (si_log _ _ _ (di_snd _ _ _ _ _ _ Hd))).
    + rewrite lookup_insert_ne by done. destruct (sv_out _ _ _ _ _ _ Hi c' Hc') as (l2 & cur2 & E2 & Hd2).
      exists l2, cur2. split; [done|]. exact (drain_inv_mono _ _ _ _ _ _ _ _ [] Hd2 Hn' HgR).
  - done.
  - intros c' x Hc' [Hx|[-> ->]]%elem_of_addTo.
    + destruct (sv_written _ _ _ _ _ _ Hi c' x Hc' Hx) as [Hin Hlog]. split; [by apply HgR|]. intros p Hp.
      destruct (decide (c' = c)) as [->|]; [|by apply Hlog]. rewrite EH. destruct (decide _); [|by apply Hlog].
      apply elem_of_app. left. by apply Hlog.
    + split; [apply elem_of_addTo; by right|]. intros p Hp. rewrite decide_True by done. rewrite EH, decide_True by done.
      apply elem_of_app. right. left.
  - intros c' x Hc' [Hx|[-> ->]]%elem_of_addTo; [|exists c; split; [done|apply elem_of_addTo; by right]].
    destruct (sv_sourced _ _ _ _ _ _ Hi c' x Hc' Hx) as (c2 & ? & ?). exists c2. split; [done|]. apply elem_of_addTo. by left.
  - intros c' p q m Hc' Hin. destruct (decide (c' = c)) as [->|]; [apply HHc in Hin as [Hin| ->]|].
    2: exists r; split; [apply elem_of_addTo; by right|done].
    all: destruct (sv_log _ _ _ _ _ _ Hi _ _ _ _ Hc' Hin) as (x & Hx & ->); exists x; split; [apply elem_of_addTo; by left|done].
  - intros c' p q. pose proof (sv_len _ _ _ _ _ _ Hi c' p q). unfold addTo. destruct (decide (c' = c)) as [->|]; [|done].
    rewrite EH. rewrite length_app. case_match; rewrite ?length_app; simpl; lia.
Qed.

Lemma sys_write U Wr s R H K c r kind :
  universe registry policyFor U → sys_inv U Wr s R H K → c ∈ clusters → mutationFor memberOf c r ∈ U → shippable c r →
  Z.of_nat (length (Wr c)) < 2 ^ 64 - 2 →
  ∃ R' H', sys_inv U (addTo Wr c r) (write clusters memberOf localOnly durable c r kind s) R' H' K.
Proof using Type Hpeers Hnodup.
  intros HU Hi Hc Hm (Hlo & Hdu & Henc) Hlen. unfold write.
  destruct (sv_nodes _ _ _ _ _ _ Hi c Hc) as (a & Ea & Ha). rewrite Ea.
  destruct (write_node U a (R c) c r kind HU Ha Hm) as (v & st & -> & Ha').
  destruct (sv_out _ _ _ _ _ _ Hi c Hc) as (l & cur & -> & Hd).
  set (a' := mkApplier st _ _ _) in *. set (nodes := <[c := a']> (sy_nodes s)).
  assert (nodes_ok U nodes (addTo R c r)) as Hn'.
  { intros c' Hc'. unfold nodes, addTo. destruct (decide (c' = c)) as [->|]; [exists a'; by rewrite lookup_insert_eq|].
    rewrite lookup_insert_ne by done. by apply (sv_nodes _ _ _ _ _ _ Hi). }
  assert (∀ c' x, x ∈ R c' → x ∈ addTo R c r c') as HgR by (intros; apply elem_of_addTo; by left).
  unfold appendToPeers. rewrite Hlo, Hdu. set (g := mutationFor memberOf c r) in *.
  pose proof (Partition_range (sr_Namespace r) (sr_LogicalKey r)) as Hq. unfold numPartitions in Hq.
  destruct (snd_appends g (peersOf clusters c) (mkSender (nodes, [] : list delivery) l cur) (H c) (K c)) as (Hc' & Hs' & EH).
  - by apply NoDup_filter.
  - apply Forall_forall. intros p [_ Hp]%list_elem_of_filter. by eapply Forall_forall in Hpeers.
  - cbn. zlia.
  - done.
  - intros p _. pose proof (sv_len _ _ _ _ _ _ Hi c p (gm_Partition g)). lia.
  - apply (drain_inv_mono _ _ _ nodes R (addTo R c r) _ _ []) in Hd; [apply Hd|done|done].
  - exists (addTo R c r), (λ c', if decide (c' = c) then Hc' else H c').
    by apply (sys_write_ghost U Wr s R H K c r nodes l cur Hc').
Qed.

(** *** Runs *)

Definition writesOf (es : list event) : list (bytes * StoredRecord) :=
  omap (λ e, match e with EvWrite c r _ => Some (c, r) | EvDrain _ _ => None end) es.

Definition writtenAt (ws : list (bytes * StoredRecord)) (c : bytes) : list StoredRecord :=
  omap (λ w, if decide (w.1 = c) then Some w.2 else None) ws.

Definition mutationsOf (es : list event) : list GlobalMutation :=
  (λ w, mutationFor memberOf w.1 w.2) <$> writesOf es.

Definition event_ok (e : event) : Prop :=
  match e with
  | EvWrite c r _ => c ∈ clusters ∧ shippable c r
  | EvDrain c _ => c ∈ clusters
  end.

Abbreviation grun := (run registry policyFor Unwrap clusters memberOf localOnly durable).

Lemma length_writtenAt ws c : (length (writtenAt ws c) ≤ length ws)%nat.
Proof. unfold writtenAt. induction ws as [|w ws IH]; cbn; [done|]. destruct (decide _); cbn; lia. Qed.

Lemma addTo_written ws c r c' : addTo (writtenAt ws) c r c' = writtenAt (ws ++ [(c, r)]) c'.
Proof.
  unfold addTo, writtenAt. rewrite omap_app. cbn. destruct (decide (c' = c)) as [->|Hne].
  - by rewrite decide_True.
  - by rewrite decide_False, app_nil_r.
Qed.

Lemma sys_inv_ext U Wr Wr' s R H K : (∀ c, Wr c = Wr' c) → sys_inv U Wr s R H K → sys_inv U Wr' s R H K.
Proof.
  intros E Hi. split; [apply Hi|apply Hi| | | |].
  - intros c r. rewrite <-E. apply Hi.
  - intros c r Hc Hr. destruct (sv_sourced _ _ _ _ _ _ Hi c r Hc Hr) as (c' & ? & Hw). rewrite E in Hw. eauto.
  - intros c p q m Hc Hm. destruct (sv_log _ _ _ _ _ _ Hi c p q m Hc Hm) as (r & Hw & ->). rewrite E in Hw. eauto.
  - intros c p q. rewrite <-E. apply Hi.
Qed.

Lemma run_inv U es ws s R H K :
  universe registry policyFor U → sys_inv U (writtenAt ws) s R H K → Forall event_ok es →
  (∀ m, m ∈ mutationsOf es → m ∈ U) → Z.of_nat (length ws + length es) < 2 ^ 64 - 2 →
  ∃ R' H' K', sys_inv U (writtenAt (ws ++ writesOf es)) (grun es s) R' H' K'.
Proof using Type GPS Hpeers Hnodup.
  intros HU. revert ws s R H K. induction es as [|e es IH]; intros ws s R H K Hi Hok Hm Hlen.
  { cbn. rewrite app_nil_r. eauto. }
  apply Forall_cons in Hok as [He Hok]. cbn [run fold_left]. destruct e as [c r kind|c script]; cbn [step].
  - destruct He as [Hc Hship]. pose proof (length_writtenAt ws c). cbn [length] in Hlen.
    destruct (sys_write U (writtenAt ws) s R H K c r kind) as (R1 & H1 & Hi1); [done..|apply Hm; left|done|lia|].
    apply (sys_inv_ext _ _ (writtenAt (ws ++ [(c, r)]))) in Hi1; [|intros; apply addTo_written].
    destruct (IH _ _ _ _ _ Hi1 Hok) as (R' & H' & K' & Hi'); [intros; apply Hm; by right|rewrite length_app; cbn; lia|].
    exists R', H', K'. cbn [writesOf omap list_omap]. rewrite <-app_assoc in Hi'. exact Hi'.
  - destruct (sys_drain U (writtenAt ws) s R H K c script) as (R1 & K1 & Hi1 & _); [done..|].
    cbn [length] in Hlen. destruct (IH _ _ _ _ _ Hi1 Hok) as (R' & H' & K' & Hi'); [done|lia|]. exists R', H', K'. exact Hi'.
Qed.

(** *** Draining to the end *)

Definition progressed (H : bytes → bytes → Z → list GlobalMutation) (K K' : bytes → bytes → Z → nat) (n : nat) (cs : list bytes) : Prop :=
  ∀ c p q, c ∈ cs → p ∈ peersOf clusters c → q ∈ partitions → (Nat.min (length (H c p q)) (K c p q + n) ≤ K' c p q)%nat.

Lemma drains_inv U Wr cs s R H K :
  universe registry policyFor U → sys_inv U Wr s R H K → (∀ c, c ∈ cs → c ∈ clusters) →
  ∃ R' K', sys_inv U Wr (grun ((λ c, EvDrain c []) <$> cs) s) R' H K' ∧ (∀ c p q, (K c p q ≤ K' c p q)%nat) ∧
    progressed H K K' (Z.to_nat batch) cs.
Proof using Type GPS Hpeers.
  intros HU. revert s R K. induction cs as [|c cs IH]; intros s R K Hi Hcs.
  { exists R, K. split_and!; [done..|]. by intros c p q ?%elem_of_nil. }
  destruct (sys_drain U Wr s R H K c []) as (R1 & K1 & Hi1 & Hle1 & Hg1); [done|done|apply Hcs; left|].
  destruct (IH _ R1 K1 Hi1) as (R' & K' & Hi' & Hle' & Hp'); [intros; apply Hcs; by right|].
  exists R', K'. split; [exact Hi'|]. split; [intros c' p q; specialize (Hle1 c' p q); specialize (Hle' c' p q); lia|].
  intros c' p q [->|Hc']%elem_of_cons Hp Hq.
  - specialize (Hg1 eq_refl p q Hp Hq). specialize (Hle' c p q). lia.
  - specialize (Hp' c' p q Hc' Hp Hq). specialize (Hle1 c' p q). lia.
Qed.

Definition rounds (n : nat) : list event := concat (replicate n (round clusters)).

Lemma rounds_inv U Wr n s R H K :
  universe registry policyFor U → sys_inv U Wr s R H K →
  ∃ R' K', sys_inv U Wr (grun (rounds n) s) R' H K' ∧ progressed H K K' (n * Z.to_nat batch) clusters.
Proof using Type GPS Hpeers.
  intros HU. revert s R K. induction n as [|n IH]; intros s R K Hi.
  { exists R, K. split; [exact Hi|]. intros c p q _ _ _. lia. }
  destruct (drains_inv U Wr clusters s R H K HU Hi) as (R1 & K1 & Hi1 & _ & Hp1); [done|].
  destruct (IH _ R1 K1 Hi1) as (R' & K' & Hi' & Hp'). exists R', K'. split.
  - unfold rounds in *. cbn [replicate concat]. unfold run in *. rewrite fold_left_app. exact Hi'.
  - intros c p q Hc Hp Hq. specialize (Hp1 c p q Hc Hp Hq). specialize (Hp' c p q Hc Hp Hq). lia.
Qed.

(** With its logs shipped, a cluster has been delivered every write. *)
Lemma settled_records U ws s R H K c r :
  sys_inv U (writtenAt ws) s R H K → c ∈ clusters → (∀ w, w ∈ ws → w.1 ∈ clusters) →
  (∀ c p q, c ∈ clusters → p ∈ peersOf clusters c → q ∈ partitions → (length (H c p q) ≤ K c p q)%nat) →
  r ∈ R c ↔ r ∈ ws.*2.
Proof.
  intros Hi Hc Hws Hall. split.
  - intros Hr. destruct (sv_sourced _ _ _ _ _ _ Hi c r Hc Hr) as (c' & _ & Hw). unfold writtenAt in Hw.
    apply list_elem_of_omap in Hw as ([c2 r2] & Hin & E). cbn in E. destruct (decide _); [|done]. injection E as <-.
    apply list_elem_of_fmap. by exists (c2, r2).
  - intros ([c' r'] & -> & Hin)%list_elem_of_fmap. cbn [snd]. pose proof (Hws _ Hin) as Hc'. cbn in Hc'.
    assert (r' ∈ writtenAt ws c') as Hw. { apply list_elem_of_omap. exists (c', r'). cbn. by rewrite decide_True. }
    destruct (sv_written _ _ _ _ _ _ Hi c' r' Hc' Hw) as [HR Hlog].
    destruct (decide (c = c')) as [->|Hne]; [done|]. assert (c ∈ peersOf clusters c') as Hp by (by apply list_elem_of_filter).
    pose proof (Partition_range (sr_Namespace r') (sr_LogicalKey r')) as Hq.
    destruct (sv_out _ _ _ _ _ _ Hi c' Hc') as (l & cur & _ & Hd).
    eapply (di_sent _ _ _ _ _ _ Hd c (Partition (sr_Namespace r') (sr_LogicalKey r'))); [done| | |].
    + unfold numPartitions in Hq. zlia.
    + rewrite take_ge; [by apply Hlog|]. apply Hall; [done|done|]. by apply elem_of_partitions.
    + done.
Qed.

(** ** Properties *)

Lemma initial_inv U fresh store budget :
  ro_models fresh ∅ → ls_live store → ls_view store CFReplLog = ∅ →
  sys_inv U (writtenAt []) (initial clusters fresh store budget) (λ _, []) (λ _ _ _, []) (λ _ _ _, 0%nat).
Proof using Type Hnodup.
  intros Hf Hl Hv.
  assert (∀ (B : Type) (x : B) c, c ∈ clusters →
    (list_to_map ((λ c, (c, x)) <$> clusters) : gmap bytes B) !! c = Some x) as Hmap.
  { intros B x c Hc. apply elem_of_list_to_map; [|apply list_elem_of_fmap; eauto].
    rewrite <-list_fmap_compose. by rewrite list_fmap_id. }
  assert (nodes_ok U (sy_nodes (@initial S VR L clusters fresh store budget)) (λ _, [])) as Hn.
  { intros c Hc. cbn [initial sy_nodes]. rewrite Hmap by done. eexists. split; [done|]. split; [done| |].
    - by intros r ?%elem_of_nil.
    - intros m r _ Hin. by apply elem_of_empty in Hin. }
  split; [|done| |by intros ????%elem_of_nil|by intros ??????%elem_of_nil|done].
  - intros c Hc. cbn [initial sy_out]. rewrite Hmap by done. eexists _, _. split; [done|]. split.
    + exact Hn.
    + split; [by apply log_inv_new|done|done].
    + by intros ????%elem_of_nil.
    + intros ?????? Hin. by apply elem_of_nil in Hin.
  - by intros c r _ ?%elem_of_nil.
Qed.

Lemma recordsOf_mutationsOf es : recordsOf (mutationsOf es) = (writesOf es).*2.
Proof.
  unfold recordsOf, mutationsOf. induction (writesOf es) as [|w ws IH]; [done|]. rewrite !fmap_cons, <-IH. done.
Qed.

Lemma length_writesOf es : (length (writesOf es) ≤ length es)%nat.
Proof. unfold writesOf. induction es as [|[] es IH]; cbn; lia. Qed.

Lemma settled_winner (R : list StoredRecord) ws k :
  (∀ r, r ∈ R ↔ r ∈ ws) → stamped ws →
  fold_left absorbInto R ∅ !! k = fold_left absorbInto ws ∅ !! k.
Proof.
  intros Hm Hs. rewrite (absorbInto_same R ws Hm); [done|]. intros r1 r2 H1 H2. apply Hs; by apply Hm.
Qed.

(** C6: Active-active replication converges. Take any run of writes at any clusters and of
    drains over a network that loses batches and acknowledgements at will; once every
    cluster has drained over a network that delivers, at most one round per 256 events,
    all clusters answer every read with the same record, the last-write-wins winner of all
    the writes of the key anywhere. Mutation ids and versions are unique, and the
    namespaces use the default policy. *)
Theorem active_active_converges (es : list event) (n : nat) fresh store budget (ns k : bytes) :
  ro_models fresh ∅ → ls_live store → ls_view store CFReplLog = ∅ → Forall event_ok es →
  universe registry policyFor (mutationsOf es) → Z.of_nat (length es) < 2 ^ 63 → (length es ≤ n * 256)%nat → ns_ok ns →
  let s := grun (es ++ rounds n) (initial clusters fresh store budget) in
  ∃ h, (∀ c, c ∈ clusters → ∃ a, sy_nodes s !! c = Some a ∧ ro_GetRecord ns k (ap_store a) = Ok h) ∧
    match h with
    | Some w => is_winner w (filter (λ r, keyOf r = (ns, k)) (writesOf es).*2)
    | None => ∀ r, r ∈ (writesOf es).*2 → keyOf r ≠ (ns, k)
    end.
Proof using Type GPS Hpeers Hnodup.
  intros Hf Hl Hv Hok HU Hlen Hn Hns s. unfold s, run. rewrite fold_left_app.
  destruct (run_inv (mutationsOf es) es [] (initial clusters fresh store budget) (λ _, []) (λ _ _ _, []) (λ _ _ _, 0%nat))
    as (R1 & H1 & K1 & Hi1); [done|by apply initial_inv|done|done|cbn; lia|]. cbn [app] in Hi1.
  destruct (rounds_inv _ _ n _ _ _ _ HU Hi1) as (R & K & Hi & Hp). unfold run in Hi. set (s1 := fold_left _ (rounds n) _) in *.
  assert (∀ c r, c ∈ clusters → r ∈ R c ↔ r ∈ (writesOf es).*2) as Hset.
  { intros c r Hc. eapply settled_records; [exact Hi|done| |].
    - intros [c' r'] (e & He & E)%list_elem_of_omap. rewrite Forall_forall in Hok. specialize (Hok e He).
      destruct e; [|done]. injection E as -> ->. apply Hok.
    - intros c' p q Hc' Hp' Hq. specialize (Hp c' p q Hc' Hp' Hq). pose proof (sv_len _ _ _ _ _ _ Hi c' p q) as Hlen1.
      pose proof (length_writtenAt (writesOf es) c').
      pose proof (length_writesOf es).
      change (Z.to_nat batch) with 256%nat in Hp. lia. }
  pose proof (un_stamped _ _ _ HU) as Hst. rewrite recordsOf_mutationsOf in Hst.
  exists (fold_left absorbInto (writesOf es).*2 ∅ !! (ns, k)). split.
  - intros c Hc. destruct (sv_nodes _ _ _ _ _ _ Hi c Hc) as (a & Ea & Ha). exists a. split; [done|].
    rewrite (ro_GetRecord_ok _ _ ns k (ni_models _ _ _ Ha) Hns). f_equal. apply settled_winner; [|done]. intros r. by apply Hset.
  - apply absorbInto_winner.
Qed.

(** C30: The sender leaves no gaps. At every point of such a run, each write of cluster [c] has
    either reached peer [p], which then holds a record of the key the write does not beat,
    or is among the entries the next drain of [c] reads after its cursor for [p]. *)
Theorem outlog_no_gaps (es : list event) fresh store budget (c p : bytes) (r : StoredRecord) :
  ro_models fresh ∅ → ls_live store → ls_view store CFReplLog = ∅ → Forall event_ok es →
  universe registry policyFor (mutationsOf es) → Z.of_nat (length es) < 2 ^ 63 →
  (c, r) ∈ writesOf es → p ∈ peersOf clusters c →
  let s := grun es (initial clusters fresh store budget) in
  let q := Partition (sr_Namespace r) (sr_LogicalKey r) in
  (∃ a w, sy_nodes s !! p = Some a ∧ ro_GetRecord (sr_Namespace r) (sr_LogicalKey r) (ap_store a) = Ok (Some w) ∧ ¬ beats r w) ∨
  (∃ l cur entries, sy_out s !! c = Some (l, cur) ∧ IterateFrom p q (at0 cur (pk p q)) 0 l = Ok entries ∧
     mutationFor memberOf c r ∈ oe_Mutation <$> entries).
Proof using Type GPS Hpeers Hnodup.
  intros Hf Hl Hv Hok HU Hlen Hw Hp s q. pose proof (Partition_range (sr_Namespace r) (sr_LogicalKey r)) as Hq.
  assert (in_u32 q) as Hq32 by (unfold numPartitions in Hq; zlia).
  destruct (run_inv (mutationsOf es) es [] (initial clusters fresh store budget) (λ _, []) (λ _ _ _, []) (λ _ _ _, 0%nat))
    as (R & H & K & Hi); [done|by apply initial_inv|done|done|cbn; lia|]. fold s in Hi. cbn [app] in Hi.
  assert (c ∈ clusters) as Hc.
  { apply list_elem_of_omap in Hw as (e & He & E). rewrite Forall_forall in Hok. specialize (Hok e He).
    destruct e; [|done]. injection E as -> ->. apply Hok. }
  assert (p ∈ clusters ∧ peer_ok p) as [HpC Hpok].
  { apply list_elem_of_filter in Hp as [_ Hp]. split; [done|]. by eapply Forall_forall in Hpeers. }
  destruct (sv_out _ _ _ _ _ _ Hi c Hc) as (l & cur & El & Hd).
  assert (r ∈ writtenAt (writesOf es) c) as Hw'. { apply list_elem_of_omap. exists (c, r). cbn. by rewrite decide_True. }
  destruct (sv_written _ _ _ _ _ _ Hi c r Hc Hw') as [_ Hlog]. specialize (Hlog p Hp). fold q in Hlog.
  pose proof (di_snd _ _ _ _ _ _ Hd) as [Hlg Hcur _]. cbn [sd_log sd_cursor] in Hlg, Hcur.
  rewrite <-(take_drop (K c p q) (H c p q)) in Hlog. apply elem_of_app in Hlog as [Hlog|Hlog].
  - left. pose proof (di_sent _ _ _ _ _ _ Hd p q _ r Hp Hq32 Hlog eq_refl) as Hr.
    destruct (sv_nodes _ _ _ _ _ _ Hi p HpC) as (a & Ea & Ha). exists a.
    destruct (un_wf _ _ _ HU (mutationFor memberOf c r)) as (r' & Hr'); [apply list_elem_of_fmap; by exists (c, r)|].
    destruct Hr' as ([= <-] & _ & Hns & _).
    pose proof (absorbInto_winner (R p) (keyOf r)) as Hwin. pose proof (ni_models _ _ _ Ha) as HA.
    apply (ro_GetRecord_ok _ _ (sr_Namespace r) (sr_LogicalKey r)) in HA; [|done]. fold (keyOf r) in HA.
    destruct (fold_left absorbInto (R p) ∅ !! keyOf r) as [w|]; [|by apply Hwin in Hr].
    exists w. split_and!; [done..|]. apply Hwin. by apply list_elem_of_filter.
  - right. pose proof (li_le _ _ _ Hlg p q). exists l, cur, (entriesFrom (Z.of_nat (K c p q)) (drop (K c p q) (H c p q))).
    split; [done|]. rewrite Hcur by done. rewrite fmap_entriesFrom. split; [|done].
    rewrite (IterateFrom_ok l p q (H c p q) (K c p q) (K c p q) (K c p q) 0);
      [done|apply Hlg|by apply (li_rows _ _ _ Hlg)|apply Hlg|lia|done].
Qed.

End Spec.

(** ** Evaluated examples *)

Import RecordSamples.

#[local] Instance GlobalMutationId_countable : Countable GlobalMutationId.
Proof.
  refine (inj_countable
    (λ i, [encode (gi_ClusterId i); encode (gi_MemberId i); encode (gi_WriterSequence i)] : list positive)
    (λ l, match l with
          | [a0; a1; a2] =>
              x0 ← decode a0; x1 ← decode a1; x2 ← decode a2; Some (mkGMId x0 x1 x2)
          | _ => None
          end) _).
  intros []. by repeat (rewrite decode_encode; cbn).
Defined.
#[local] Instance GlobalMutation_countable : Countable GlobalMutation.
Proof.
  refine (inj_countable
    (λ m, [encode (gm_Id m); encode (gm_Namespace m); encode (gm_Key m); encode (gm_Record m); encode (gm_Partition m)] : list positive)
    (λ l, match l with
          | [a0; a1; a2; a3; a4] =>
              x0 ← decode a0; x1 ← decode a1; x2 ← decode a2; x3 ← decode a3; x4 ← decode a4; Some (mkGM x0 x1 x2 x3 x4)
          | _ => None
          end) _).
  intros []. by repeat (rewrite decode_encode; cbn).
Defined.

#[export] Instance bitGlobalProto : GlobalProto := {
  EncodeGlobalMutation m := Some (posBytes (encode m));
  DecodeGlobalMutation b := decode (bytesPos b);
}.
#[export] Instance bitGlobalProtoSpec : GlobalProtoSpec.
Proof. split. intros m b [= <-]. simpl. rewrite bytesPos_posBytes. apply decode_encode. Qed.

Definition sampleClusters : list bytes := [lit "A"; lit "B"].
Definition sampleMember (c : bytes) : bytes := lit "m".
Definition noVector (r : option StoredRecord) : option unit := None.
Definition lwwEverywhere (ns : bytes) : bytes := PolicyHLCLastWriteWins.
Definition never (ns : bytes) : bool := false.

(** A put of key "k" at a cluster. *)
Definition clusterPut (c : bytes) (t : Z) (seq : Z) : StoredRecord :=
  mkStoredRecord (lit "k") (Some (VInline (lit "v"))) (Some (ToProto (mkVersion t 0 c (lit "m") seq))) None false 1 (lit "ns") c
    (lit "m") 0 0.

(** Two concurrent writes, a lost batch, a lost acknowledgement. *)
Definition sampleEvents : list event :=
  [EvWrite (lit "A") (clusterPut (lit "A") 5 1) kindPut; EvDrain (lit "A") [Lost];
   EvWrite (lit "B") (clusterPut (lit "B") 7 1) kindPut; EvDrain (lit "B") [AckLost]].

Definition sampleInitial : @sys (Store MemStore) unit MemStore :=
  initial sampleClusters freshStore NewMemStore 0.

Lemma clusterPut_storable c t seq : lenZ c < 100 → in_u64 t → in_u64 seq → storable (clusterPut c t seq).
Proof.
  intros Hc Ht Hs. split; [|split; [eexists; reflexivity|split; [eexists; reflexivity|intros; eexists; reflexivity]]].
  split; [split; [vm_compute; congruence|apply (bool_decide_unpack _); vm_compute; exact I]|].
  split; [vm_compute; congruence|]. split; [exact Ht|]. split; [unfold in_u32; cbn; lia|].
  split; [unfold id_ok; cbn; lia|]. split; [vm_compute; congruence|exact Hs].
Qed.

Lemma sampleEvents_ok : Forall (event_ok sampleClusters sampleMember never never) sampleEvents.
Proof.
  assert (lit "A" ∈ sampleClusters ∧ lit "B" ∈ sampleClusters) as [HA HB] by (split; [left|right; left]).
  assert (∀ c t s, shippable sampleMember never never c (clusterPut c t s)) as Hs
    by (intros; split; [done|]; split; [done|eexists; reflexivity]).
  repeat apply Forall_cons_2; [by split|done|by split|done|apply Forall_nil_2].
Qed.

Lemma sampleEvents_universe : universe NewRegistry lwwEverywhere (mutationsOf sampleMember sampleEvents).
Proof.
  unfold mutationsOf, sampleEvents. cbn [writesOf omap list_omap fmap list_fmap fst snd]. split.
  - intros m Hm. exists (default (clusterPut [] 0 0) (gm_Record m)). apply elem_of_cons in Hm as [->|[->|Hm]%elem_of_cons].
    3: by apply elem_of_nil in Hm.
    all: split; [reflexivity|]; split; [reflexivity|]; split;
      [split; [vm_compute; congruence|apply (bool_decide_unpack _); vm_compute; exact I]|];
      split; [apply clusterPut_storable; vm_compute; intuition congruence|reflexivity].
  - intros m1 m2 [->|[->|?%elem_of_nil]%elem_of_cons]%elem_of_cons [->|[->|?%elem_of_nil]%elem_of_cons]%elem_of_cons;
      first [done|intros E; vm_compute in E; congruence].
  - intros r1 r2. unfold recordsOf. cbn [omap list_omap mutationFor gm_Record].
    intros [->|[->|?%elem_of_nil]%elem_of_cons]%elem_of_cons [->|[->|?%elem_of_nil]%elem_of_cons]%elem_of_cons;
      first [done|intros _ E; vm_compute in E; congruence].
Qed.

Lemma sample_models : ro_models freshStore ∅.
Proof. apply rs_inv_new; [reflexivity|vm_compute; reflexivity]. Qed.

Lemma sampleClusters_ok : Forall peer_ok sampleClusters ∧ NoDup sampleClusters.
Proof.
  split; [|apply (bool_decide_unpack _); vm_compute; exact I].
  repeat apply Forall_cons_2; [..|apply Forall_nil_2]; apply (bool_decide_unpack _); vm_compute; exact I.
Qed.

Lemma active_active_converges_witness :
  let s := run NewRegistry lwwEverywhere noVector sampleClusters sampleMember never never
             (sampleEvents ++ rounds sampleClusters 1) sampleInitial in
  ∃ h, ∀ c, c ∈ sampleClusters → ∃ a, sy_nodes s !! c = Some a ∧ ro_GetRecord (lit "ns") (lit "k") (ap_store a) = Ok h.
Proof.
  destruct (active_active_converges NewRegistry lwwEverywhere noVector sampleClusters (proj1 sampleClusters_ok) sampleMember never never
    (proj2 sampleClusters_ok) sampleEvents 1 freshStore NewMemStore 0 (lit "ns") (lit "k")) as (h & Hh & _).
  - exact sample_models.
  - reflexivity.
  - vm_compute. reflexivity.
  - exact sampleEvents_ok.
  - exact sampleEvents_universe.
  - vm_compute. reflexivity.
  - cbn. lia.
  - split; [vm_compute; congruence|]. apply (bool_decide_unpack _). vm_compute. exact I.
  - exists h. exact Hh.
Defined.

Lemma outlog_no_gaps_witness :
  let s := run NewRegistry lwwEverywhere noVector sampleClusters sampleMember never never sampleEvents sampleInitial in
  let r := clusterPut (lit "A") 5 1 in
  let q := Partition (lit "ns") (lit "k") in
  (∃ a w, sy_nodes s !! lit "B" = Some a ∧ ro_GetRecord (lit "ns") (lit "k") (ap_store a) = Ok (Some w) ∧ ¬ beats r w) ∨
  (∃ l cur entries, sy_out s !! lit "A" = Some (l, cur) ∧ IterateFrom (lit "B") q (at0 cur (pk (lit "B") q)) 0 l = Ok entries ∧
     mutationFor sampleMember (lit "A") r ∈ oe_Mutation <$> entries).
Proof.
  apply (outlog_no_gaps NewRegistry lwwEverywhere noVector sampleClusters (proj1 sampleClusters_ok) sampleMember never never
    (proj2 sampleClusters_ok) sampleEvents freshStore NewMemStore 0 (lit "A") (lit "B") (clusterPut (lit "A") 5 1)).
  - exact sample_models.
  - reflexivity.
  - vm_compute. reflexivity.
  - exact sampleEvents_ok.
  - exact sampleEvents_universe.
  - vm_compute. reflexivity.
  - left.
  - apply (bool_decide_unpack _). vm_compute. exact I.
Defined.

(** *** Deviations *)

Definition samplePut (seq : Z) : GlobalMutation := mutationFor sampleMember (lit "A") (clusterPut (lit "A") seq seq).
Definition sampleQ : Z := Partition (lit "ns") (lit "k").
Definition sent (r : res storeErr (list OutEntry)) : res storeErr (list Z) :=
  res_map (fmap (λ e, match gm_Id (oe_Mutation e) with Some i => gi_WriterSequence i | None => 0 end)) r.

(** The sequence map is in memory: a log reopened over its rows starts at sequence 1 again
    and overwrites an entry that was never sent. *)
Theorem outlog_restart_overwrites :
  let l := (Append (lit "B") (samplePut 1) false (NewOutLog NewMemStore 0)).2 in
  let l' := (Append (lit "B") (samplePut 2) false (NewOutLog (ol_store l) 0)).2 in
  sent (IterateFrom (lit "B") sampleQ 0 0 l) = Ok [1] ∧ sent (IterateFrom (lit "B") sampleQ 0 0 l') = Ok [2].
Proof. vm_compute. done. Qed.

(** A reconcile round marks the whole log as received; the next drain ships one batch of
    256 and then deletes the rest unsent. *)
Definition fullLog : Log MemStore :=
  fold_left (λ l i, (Append (lit "B") (samplePut i) false l).2) (Z.of_nat <$> seq 1 257) (NewOutLog NewMemStore 0).

Definition accept (w : list GlobalMutation) (peer : bytes) (ms : list GlobalMutation) : list GlobalMutation * bool :=
  (w ++ ms, true).

Theorem reconcile_drops_unsent :
  let noDivergence := λ (p : bytes) (rs : list KeyRange), Some [] in
  let noFetch := λ (p : bytes) (r : KeyRange), [] in
  let r := (ReconcileOnce (λ b, b) NewRegistry lwwEverywhere noVector noDivergence noFetch [lit "ns"] [lit "B"]
              (mkReconciler (mkApplier freshStore ∅ None []) fullLog)).2 in
  let s := (drainPart accept (lit "B") sampleQ (mkSender [] (rc_log r) ∅)).2 in
  length (sd_world s) = 256%nat ∧ samplePut 257 ∉ sd_world s ∧
  sent (IterateFrom (lit "B") sampleQ 0 0 (sd_log s)) = Ok [] ∧
  sent (IterateFrom (lit "B") sampleQ 0 0 (sd_log (drainPart accept (lit "B") sampleQ (mkSender [] fullLog ∅)).2)) = Ok [257].
Proof. split_and!; [vm_compute; reflexivity|apply (bool_decide_unpack _); vm_compute; exact I|vm_compute; reflexivity..]. Qed.

(** A vector mutation is marked applied and dropped when no sink is installed, which is
    how the node builds its applier. *)
Theorem vector_mutation_dropped :
  let ns := vecNSPrefix ++ lit "c" in
  let m := mkGM (Some (mkGMId (lit "A") (lit "m") 1)) ns (lit "k") (Some (nsRec ns (lit "k") 5)) 0 in
  let '(r, a) := applyMutation NewRegistry lwwEverywhere noVector m (mkApplier freshStore ∅ None []) in
  r = Ok true ∧ Applied (gm_Id m) a = true ∧ GetRecord ns (lit "k") (ap_store a) = Ok None ∧ ap_vectors a = None.
Proof. vm_compute. done. Qed.

(** A write to a namespace that requires global durability is not shipped when the log is
    over budget, and the tap ignores the error. *)
Theorem durable_write_not_shipped :
  let durable := λ ns : bytes, true in
  let tap := appendToPeers sampleClusters sampleMember never durable (lit "A") in
  let l := tap (clusterPut (lit "A") 2 2) (tap (clusterPut (lit "A") 1 1) (NewOutLog NewMemStore 10)) in
  sent (IterateFrom (lit "B") sampleQ 0 0 l) = Ok [1].
Proof. vm_compute. done. Qed.

(** Under keep-siblings a third concurrent writer makes the node forget one of the first
    two: the applier resolves against the winner only. *)
Theorem third_sibling_lost :
  let siblings := λ ns : bytes, PolicyKeepSiblings in
  let m := λ c, mutationFor sampleMember c (clusterPut c 5 1) in
  let '(_, a) := PushGlobal NewRegistry siblings noVector [m (lit "A"); m (lit "B"); m (lit "C")]
                   (mkApplier freshStore ∅ None []) 0 in
  (∃ b lp, ls_Get (rs_local (ap_store a)) CFKVMeta (latestKey (lit "ns") (lit "k")) = Ok (Some b) ∧
     DecodeLatestPointer b = Some lp ∧
     p_WriterClusterId <$> lp_Winner lp = Some (lit "C") ∧ p_WriterClusterId <$> lp_SiblingVersions lp = [lit "B"]) ∧
  length (match KeepSiblings_Resolve [Some (clusterPut (lit "A") 5 1); Some (clusterPut (lit "B") 5 1)]
            (Some (clusterPut (lit "C") 5 1)) with KindSiblings rs => rs | _ => [] end) = 3%nat.
Proof. vm_compute. split; [eexists _, _; done|done]. Qed.

End GlobalSystem.
