(* ===== verification/Float64.v ===== *)
(** * Double-precision floating point

    Go's float64, as the IEEE 754 binary64 numbers of the Standard Library's SpecFloat:
    executable addition, multiplication, division and comparison with rounding to nearest.
    Constants are quotients of exactly representable integers, which is how Go rounds them.
    Products are rounded before they are added (no fused multiply-add). *)

From Stdlib Require Import Floats.SpecFloat.
From S2P Require Import Prelude Bytes.

Local Open Scope Z_scope.

Module Float64.

Definition prec : Z := 53.
Definition emax : Z := 1024.

Definition float64 : Type := spec_float.

#[export] Instance float64_eq_dec : EqDecision float64.
Proof. solve_decision. Defined.

Definition fadd : float64 → float64 → float64 := SFadd prec emax.
Definition fsub : float64 → float64 → float64 := SFsub prec emax.
Definition fmul : float64 → float64 → float64 := SFmul prec emax.
Definition fdiv : float64 → float64 → float64 := SFdiv prec emax.

(** [float64(z)] for an integer. *)
Definition of_Z (z : Z) : float64 := binary_normalize prec emax z 0 false.

(** The constant [num/den]. *)
Definition ratio (num den : Z) : float64 := fdiv (of_Z num) (of_Z den).

(** The operators [<] and [==]; both are false on a NaN. *)
Definition fltb (x y : float64) : bool := SFltb x y.
Definition feqb (x y : float64) : bool := SFeqb x y.

(** [int(x)] of a number in range: truncation toward zero. *)
Definition trunc (x : float64) : Z :=
  match x with
  | S754_finite s m e =>
      let v := if 0 <=? e then Z.pos m * 2 ^ e else Z.pos m / 2 ^ (- e) in
      if s then - v else v
  | _ => 0
  end.

Definition is_nan (x : float64) : bool := match x with S754_nan => true | _ => false end.

(** [cmp.Compare]: NaN equals itself and is below every number. *)
Definition cmp_Compare (x y : float64) : comparison :=
  match is_nan x, is_nan y with
  | true, true => Eq
  | true, false => Lt
  | false, true => Gt
  | false, false => match SFcompare x y with Some c => c | None => Eq end
  end.

(** ** The order of the numbers *)

(** Numbers compare as the triples of their class, exponent and mantissa. *)
Definition fkey (x : float64) : (Z * Z) * Z :=
  match x with
  | S754_nan => (-3, 0, 0)
  | S754_infinity true => (-2, 0, 0)
  | S754_finite true m e => (-1, - e, - Z.pos m)
  | S754_zero _ => (0, 0, 0)
  | S754_finite false m e => (1, e, Z.pos m)
  | S754_infinity false => (2, 0, 0)
  end.

Definition key_compare : (Z * Z) * Z → (Z * Z) * Z → comparison := cmp_pair (cmp_pair Z.compare Z.compare) Z.compare.

Lemma cmp_Compare_key x y : cmp_Compare x y = key_compare (fkey x) (fkey y).
Proof.
  unfold key_compare, cmp_pair, cmp_Compare.
  destruct x as [[]|[]| |[] m1 e1], y as [[]|[]| |[] m2 e2]; simpl; try done.
  destruct (Z.compare_spec e1 e2), (Z.compare_spec (- e1) (- e2)); by lia || idtac.
Qed.

Lemma feqb_compare x y :
  feqb x y = negb (is_nan x) && negb (is_nan y) && match cmp_Compare x y with Eq => true | _ => false end.
Proof.
  unfold feqb, SFeqb, cmp_Compare.
  destruct x as [[]|[]| |[] m1 e1], y as [[]|[]| |[] m2 e2]; try done; simpl; by repeat case_match.
Qed.

#[export] Instance key_compare_total : TotalCmp key_compare := _.

(** [x <= y] of [cmp.Compare], a total preorder. *)
Definition fle (x y : float64) : Prop := cmp_Compare x y ≠ Gt.

#[export] Instance fle_dec : RelDecision fle.
Proof. intros x y. unfold fle. apply _. Defined.
#[export] Instance fle_total : Total fle.
Proof.
  intros x y. unfold fle. rewrite !cmp_Compare_key, (cmp_antisym (cmp:=key_compare) (fkey x) (fkey y)).
  destruct (key_compare _ _); naive_solver.
Qed.
Lemma cmp_le_trans {A} (cmp : A → A → comparison) `{!TotalCmp cmp} a b c : cmp a b ≠ Gt → cmp b c ≠ Gt → cmp a c ≠ Gt.
Proof.
  intros H1 H2. destruct (cmp a b) eqn:E1; [by apply (cmp_eq (cmp:=cmp)) in E1 as ->| |done].
  destruct (cmp b c) eqn:E2; [apply (cmp_eq (cmp:=cmp)) in E2 as <-; congruence| |done].
  by rewrite (cmp_lt_trans _ _ _ E1 E2).
Qed.

#[export] Instance fle_trans : Transitive fle.
Proof. intros x y z. unfold fle. rewrite !cmp_Compare_key. apply (cmp_le_trans key_compare). Qed.

End Float64.
