(* ===== verification/LatencyGraph.v ===== *)
(** * The latency graph (internal/latencygraph/graph.go)

    Directed edges from the local member to its peers with smoothed round-trip times, the
    placement score over them, and their expiry. A [time.Time] is a number of nanoseconds,
    a float64 a binary64 number (Float64). The lock makes an operation one step. *)

From S2P Require Import Prelude Bytes Float64.

Local Open Scope Z_scope.

Module LatencyGraph.
Import Float64.

(** [t.UnixMilli()]. *)
Definition UnixMilli (t : Z) : Z := t / 1000000.

Record Edge := mkEdge {
  ed_To : bytes;
  ed_EWMARttMs : float64;
  ed_P95RttMs : float64;
  ed_PacketLoss : float64;
  ed_LastSuccessMs : Z;
  ed_LastFailureMs : Z;
  ed_SampleCount : Z;
}.

Record ScoreWeights := mkWeights {
  w_EWMA : float64; w_P95 : float64; w_PacketLoss : float64;
  w_LoadPressure : float64; w_DiskPressure : float64; w_Topology : float64;
}.

Definition DefaultScoreWeights : ScoreWeights :=
  mkWeights (ratio 55 100) (ratio 15 100) (ratio 10 100) (ratio 10 100) (ratio 5 100) (ratio 5 100).

Record Config := mkConfig {
  cf_EWMAAlpha : float64;
  cf_RefMaxRttMs : float64;
  cf_EdgeExpiry : Z;
  cf_RecentWindow : Z;
  cf_Weights : ScoreWeights;
}.

Definition DefaultConfig : Config := mkConfig (ratio 2 10) (of_Z 50) (30 * 1000000000) 64 DefaultScoreWeights.

Record edgeState := mkEdgeState { es_Edge : Edge; es_recent : list float64 }.

Record Graph := mkGraph { gr_cfg : Config; gr_edges : gmap bytes edgeState }.

(** [x <= y], false on a NaN. *)
Definition fleb (x y : float64) : bool := fltb x y || feqb x y.

Definition New (cfg : Config) : Graph :=
  let zero := of_Z 0 in
  let one := of_Z 1 in
  let alpha := if fleb (cf_EWMAAlpha cfg) zero || fltb one (cf_EWMAAlpha cfg) then ratio 2 10 else cf_EWMAAlpha cfg in
  let ref := if fleb (cf_RefMaxRttMs cfg) zero then of_Z 50 else cf_RefMaxRttMs cfg in
  let window := if cf_RecentWindow cfg <=? 0 then 64 else cf_RecentWindow cfg in
  mkGraph (mkConfig alpha ref (cf_EdgeExpiry cfg) window (cf_Weights cfg)) ∅.

(** The nearest-rank quantile of a sorted copy. *)
Definition percentile (vals : list float64) (q : float64) : float64 :=
  match vals with
  | [] => of_Z 0
  | _ =>
      let c := merge_sort fle vals in
      let n := Z.of_nat (length c) in
      let idx := trunc (fmul q (of_Z (n - 1))) in
      let idx := if idx <? 0 then 0 else idx in
      let idx := if n <=? idx then n - 1 else idx in
      default (of_Z 0) (c !! Z.to_nat idx)
  end.

Definition AddSample (to : bytes) (rtt : Z) (success : bool) (now : Z) (g : Graph) : Graph :=
  let e := default (mkEdgeState (mkEdge to (of_Z 0) (of_Z 0) (of_Z 0) 0 0 0) []) (gr_edges g !! to) in
  let ed := es_Edge e in
  let count := uint32 (ed_SampleCount ed + 1) in
  let a := cf_EWMAAlpha (gr_cfg g) in
  let keep := fsub (of_Z 1) a in
  let e' :=
    if success then
      let ms := fdiv (of_Z rtt) (of_Z 1000000) in
      let ewma := if (count =? 1) || feqb (ed_EWMARttMs ed) (of_Z 0) then ms
                  else fadd (fmul a ms) (fmul keep (ed_EWMARttMs ed)) in
      let recent := es_recent e ++ [ms] in
      let w := Z.to_nat (cf_RecentWindow (gr_cfg g)) in
      let recent := if (w <? length recent)%nat then drop (length recent - w) recent else recent in
      mkEdgeState (mkEdge (ed_To ed) ewma (percentile recent (ratio 95 100))
                     (fadd (fmul a (of_Z 0)) (fmul keep (ed_PacketLoss ed)))
                     (UnixMilli now) (ed_LastFailureMs ed) count) recent
    else
      mkEdgeState (mkEdge (ed_To ed) (ed_EWMARttMs ed) (ed_P95RttMs ed)
                     (fadd (fmul a (of_Z 1)) (fmul keep (ed_PacketLoss ed)))
                     (ed_LastSuccessMs ed) (UnixMilli now) count) (es_recent e) in
  mkGraph (gr_cfg g) (<[to := e']> (gr_edges g)).

Definition EdgeTo (g : Graph) (to : bytes) : option Edge := es_Edge <$> gr_edges g !! to.

Definition edge_le (a b : Edge) : Prop := bytes_le (ed_To a) (ed_To b).
#[export] Instance edge_le_dec : RelDecision edge_le.
Proof. intros a b. unfold edge_le. apply _. Defined.

Definition Edges (g : Graph) : list Edge := merge_sort edge_le (es_Edge <$> (map_to_list (gr_edges g)).*2).

(** The time of the last sample of an edge. *)
Definition lastSample (ed : Edge) : Z :=
  if ed_LastSuccessMs ed <? ed_LastFailureMs ed then ed_LastFailureMs ed else ed_LastSuccessMs ed.

Definition Expire (now : Z) (g : Graph) : Graph :=
  let cutoff := UnixMilli (now - cf_EdgeExpiry (gr_cfg g)) in
  mkGraph (gr_cfg g) (filter (λ kv, cutoff ≤ lastSample (es_Edge kv.2)) (gr_edges g)).

Definition normalize (g : Graph) (rttMs : float64) : float64 :=
  let v := fdiv rttMs (cf_RefMaxRttMs (gr_cfg g)) in
  if fltb (of_Z 1) v then of_Z 1
  else if fltb v (of_Z 0) then of_Z 0
  else v.

Definition Score (g : Graph) (to : bytes) (loadPressure diskPressure topologyPenalty : float64) : float64 :=
  let w := cf_Weights (gr_cfg g) in
  let '(ewma, p95, loss) :=
    match gr_edges g !! to with
    | Some e => (normalize g (ed_EWMARttMs (es_Edge e)), normalize g (ed_P95RttMs (es_Edge e)), ed_PacketLoss (es_Edge e))
    | None => (of_Z 1, of_Z 1, of_Z 0)
    end in
  fadd (fadd (fadd (fadd (fadd (fmul (w_EWMA w) ewma) (fmul (w_P95 w) p95)) (fmul (w_PacketLoss w) loss))
    (fmul (w_LoadPressure w) loadPressure)) (fmul (w_DiskPressure w) diskPressure)) (fmul (w_Topology w) topologyPenalty).

Definition TopologyPenalty (selfZone selfRegion selfGeo peerZone peerRegion peerGeo : bytes) : float64 :=
  if bool_decide (selfGeo = []) || bool_decide (peerGeo = []) || bool_decide (selfRegion = []) ||
     bool_decide (peerRegion = []) then ratio 5 10
  else if negb (bool_decide (selfGeo = peerGeo)) then of_Z 1
  else if negb (bool_decide (selfRegion = peerRegion)) then ratio 4 10
  else if negb (bool_decide (selfZone = peerZone)) then ratio 2 10
  else of_Z 0.

(** ** What the operations keep *)

(** A quantile is one of the values. *)
Lemma percentile_elem vals q : vals ≠ [] → percentile vals q ∈ vals.
Proof.
  intros Hv. unfold percentile. destruct vals as [|v vals]; [done|]. set (c := merge_sort fle (v :: vals)).
  assert (c ≡ₚ v :: vals) as Hp by apply merge_sort_Permutation.
  assert (length c = S (length vals)) as Hl by (by rewrite Hp).
  cbv zeta. set (i := trunc _). set (i1 := if i <? 0 then 0 else i).
  set (i2 := if _ <=? i1 then _ else i1).
  assert (0 ≤ i2 < Z.of_nat (length c)) as Hi.
  { subst i2 i1. destruct (Z.ltb_spec i 0), (Z.leb_spec (Z.of_nat (length c)) 0); try lia;
      destruct (Z.leb_spec (Z.of_nat (length c)) i); lia. }
  destruct (lookup_lt_is_Some_2 c (Z.to_nat i2)) as [x Hx]; [lia|]. rewrite Hx. simpl.
  rewrite <-Hp. by eapply list_elem_of_lookup_2.
Qed.

Record edge_ok (window : Z) (to : bytes) (e : edgeState) : Prop := {
  eo_to : ed_To (es_Edge e) = to;
  eo_window : Z.of_nat (length (es_recent e)) ≤ window;
  eo_p95 : if decide (es_recent e = []) then ed_P95RttMs (es_Edge e) = of_Z 0 else ed_P95RttMs (es_Edge e) ∈ es_recent e;
}.

Definition graph_ok (g : Graph) : Prop :=
  0 < cf_RecentWindow (gr_cfg g) ∧ map_Forall (edge_ok (cf_RecentWindow (gr_cfg g))) (gr_edges g).

Lemma New_ok cfg : graph_ok (New cfg).
Proof. split; [simpl; destruct (Z.leb_spec (cf_RecentWindow cfg) 0); lia|apply map_Forall_empty]. Qed.

Lemma AddSample_ok to rtt success now g : graph_ok g → graph_ok (AddSample to rtt success now g).
Proof.
  intros [Hw Hf]. split; [done|]. simpl. apply map_Forall_insert_2; [|done].
  set (e := default _ (gr_edges g !! to)).
  assert (edge_ok (cf_RecentWindow (gr_cfg g)) to e) as [E1 E2 E3].
  { subst e. destruct (gr_edges g !! to) as [e|] eqn:E; [by apply (Hf to e)|]. split; [done|simpl; lia|done]. }
  destruct success; [|by split]. set (w := Z.to_nat _). set (r := es_recent e ++ _).
  assert (r ≠ []) as Hr by (subst r; by destruct (es_recent e)).
  set (r' := if (w <? length r)%nat then drop (length r - w) r else r).
  assert (r' ≠ [] ∧ Z.of_nat (length r') ≤ cf_RecentWindow (gr_cfg g)) as [Hne Hle].
  { subst r'. destruct (Nat.ltb_spec w (length r)) as [Hlt|].
    - split; [|rewrite length_drop; lia]. intros E%(f_equal length). rewrite length_drop in E. simpl in E. lia.
    - split; [done|lia]. }
  split; simpl; [done..|]. rewrite decide_False by done. by apply percentile_elem.
Qed.

Lemma Expire_ok now g : graph_ok g → graph_ok (Expire now g).
Proof. intros [Hw Hf]. split; [done|]. intros to e [He _]%map_lookup_filter_Some. by apply (Hf to). Qed.

Inductive sampleEvent :=
  | ESample (to : bytes) (rtt : Z) (success : bool) (now : Z)
  | EExpire (now : Z).

Definition graphStep (g : Graph) (e : sampleEvent) : Graph :=
  match e with
  | ESample to rtt success now => AddSample to rtt success now g
  | EExpire now => Expire now g
  end.

(** ** Properties *)

(** The graph a node has after any samples and expirations keeps at most the configured
    number of recent round-trip times per peer, and the 95th percentile of an edge that was
    ever reached is one of them. *)
Theorem latency_window_bounded (cfg : Config) (es : list sampleEvent) (to : bytes) (e : edgeState) :
  let g := fold_left graphStep es (New cfg) in
  gr_edges g !! to = Some e →
  Z.of_nat (length (es_recent e)) ≤ cf_RecentWindow (gr_cfg g) ∧
  (es_recent e ≠ [] → ed_P95RttMs (es_Edge e) ∈ es_recent e).
Proof.
  intros g He. assert (graph_ok g) as [_ Hf].
  { subst g. clear He. pose proof (New_ok cfg) as Hn. revert Hn. generalize (New cfg). induction es as [|e' es IH]; intros g0 Hn; [done|].
    apply IH. destruct e'; [by apply AddSample_ok|by apply Expire_ok]. }
  destruct (Hf to e He) as [_ Hle Hp]. split; [done|]. intros Hne. by rewrite decide_False in Hp.
Qed.

Lemma latency_window_bounded_witness :
  let g := fold_left graphStep [ESample (lit "b") 5000000 true 0; ESample (lit "b") 7000000 true 0; ESample (lit "b") 0 false 0]
             (New (mkConfig (ratio 2 10) (of_Z 50) 30 1 DefaultScoreWeights)) in
  ∃ e, gr_edges g !! lit "b" = Some e ∧ es_recent e = [of_Z 7] ∧ ed_P95RttMs (es_Edge e) ∈ es_recent e.
Proof.
  intros g. destruct (gr_edges g !! lit "b") as [e|] eqn:E; [|exfalso; vm_compute in E; discriminate].
  assert (es_recent e = [of_Z 7]) as Er.
  { assert (es_recent <$> gr_edges g !! lit "b" = Some [of_Z 7]) as Hx by (vm_compute; reflexivity).
    rewrite E in Hx. by injection Hx. }
  exists e. split; [done|]. split; [done|].
  apply (latency_window_bounded (mkConfig (ratio 2 10) (of_Z 50) 30 1 DefaultScoreWeights) _ (lit "b") e E). by rewrite Er.
Defined.

End LatencyGraph.
