(* ===== verification/Membership.v ===== *)
(** * Membership (internal/membership: identity.go, liveness.go, roster.go, gossip.go)

    The SWIM-style roster of a node and the gossip driver around it. A [time.Time] is a
    number of nanoseconds; the transport, the random choices and the measured round-trip
    times are arguments. A nil dereference is [None]. The observers of the inspector are
    left out: they only report. *)

From S2P Require Import Prelude Bytes Float64 LatencyGraph.

Local Open Scope Z_scope.

Module Membership.
Import LatencyGraph.

(** ** Identity *)

Record Member := mkMember {
  ClusterID : bytes;
  MemberID : bytes;
  StorageUUID : bytes;
  NodeName : bytes;
  Zone : bytes;
  Region : bytes;
  Geo : bytes;
  GossipAddr : bytes;
  DataAddr : bytes;
  AdminAddr : bytes;
}.

#[export] Instance Member_eq_dec : EqDecision Member.
Proof. solve_decision. Defined.

Definition SameNode (m other : Member) : bool :=
  negb (bool_decide (NodeName m = [])) && bool_decide (NodeName m = NodeName other).

(** ** Liveness states *)

Inductive State := StateAlive | StateSuspect | StateUnreachable | StateDead | StateForgotten.

#[export] Instance State_eq_dec : EqDecision State.
Proof. solve_decision. Defined.

Definition ordinal (s : State) : Z :=
  match s with StateAlive => 0 | StateSuspect => 1 | StateUnreachable => 2 | StateDead => 3 | StateForgotten => 4 end.

(** Durations are nanoseconds. *)
Record LivenessConfig := mkLiveness {
  SuspicionTimeout : Z;
  UnreachableTimeout : Z;
  DeadRetention : Z;
  ForgottenRetention : Z;
}.

Definition nsSecond : Z := 1000000000.

Definition DefaultLivenessConfig : LivenessConfig :=
  mkLiveness (3 * nsSecond) (10 * nsSecond) (5 * 60 * nsSecond) (5 * 60 * nsSecond).

(** [d.Milliseconds()]. *)
Definition Milliseconds (d : Z) : Z := Z.quot d 1000000.

(** ** The roster *)

Record memberState := mkState {
  ms_member : Member;
  ms_state : State;
  ms_incarnation : Z;
  ms_lastSeenMs : Z;
  ms_stateSince : Z;
  ms_repairDone : bool;
}.

Record MemberView := mkView {
  mv_Member : Member;
  mv_State : State;
  mv_Incarnation : Z;
  mv_LastSeenMs : Z;
}.

Definition view (ms : memberState) : MemberView :=
  mkView (ms_member ms) (ms_state ms) (ms_incarnation ms) (ms_lastSeenMs ms).

Definition viewID (v : MemberView) : bytes := MemberID (mv_Member v).

Record Roster := mkRoster {
  ro_selfID : bytes;
  ro_members : gmap bytes memberState;
  ro_cfg : LivenessConfig;
  ro_membersSnap : list MemberView;
  ro_liveSnap : list MemberView;
}.

Definition view_le (a b : MemberView) : Prop := bytes_le (viewID a) (viewID b).
#[export] Instance view_le_dec : RelDecision view_le.
Proof. intros a b. unfold view_le. apply _. Defined.

(** The views of the members in the given states, sorted by id. *)
Definition snapshotOf (keep : State → bool) (m : gmap bytes memberState) : list MemberView :=
  merge_sort view_le (view <$> filter (λ ms, keep (ms_state ms) = true) ((map_to_list m).*2)).

Definition rebuildSnapshots (r : Roster) : Roster :=
  mkRoster (ro_selfID r) (ro_members r) (ro_cfg r)
    (snapshotOf (λ s, negb (bool_decide (s = StateForgotten))) (ro_members r))
    (snapshotOf (λ s, bool_decide (s = StateAlive)) (ro_members r)).

Definition set_members (r : Roster) (m : gmap bytes memberState) : Roster :=
  mkRoster (ro_selfID r) m (ro_cfg r) (ro_membersSnap r) (ro_liveSnap r).

Definition NewRoster (self : Member) (cfg : LivenessConfig) (selfIncarnation : Z) : Roster :=
  rebuildSnapshots (mkRoster (MemberID self)
    {[MemberID self := mkState self StateAlive selfIncarnation 0 0 false]} cfg [] []).

Definition Self (r : Roster) : option Member := ms_member <$> ro_members r !! ro_selfID r.

Definition setState (ms : memberState) (s : State) (now : Z) : memberState :=
  if bool_decide (ms_state ms = s) then ms
  else mkState (ms_member ms) s (ms_incarnation ms) (ms_lastSeenMs ms) (UnixMilli now) (ms_repairDone ms).

Definition set_member (ms : memberState) (m : Member) : memberState :=
  mkState m (ms_state ms) (ms_incarnation ms) (ms_lastSeenMs ms) (ms_stateSince ms) (ms_repairDone ms).
Definition set_incarnation (ms : memberState) (i : Z) : memberState :=
  mkState (ms_member ms) (ms_state ms) i (ms_lastSeenMs ms) (ms_stateSince ms) (ms_repairDone ms).
Definition set_lastSeen (ms : memberState) (t : Z) : memberState :=
  mkState (ms_member ms) (ms_state ms) (ms_incarnation ms) t (ms_stateSince ms) (ms_repairDone ms).

Definition Upsert (m : Member) (now : Z) (r : Roster) : Roster :=
  rebuildSnapshots (set_members r (<[MemberID m :=
    match ro_members r !! MemberID m with
    | None => mkState m StateAlive 0 (UnixMilli now) (UnixMilli now) false
    | Some ms => set_member ms m
    end]> (ro_members r))).

Definition ackState (ms : memberState) (now : Z) : memberState :=
  let ms := set_lastSeen ms (UnixMilli now) in
  if bool_decide (ms_state ms = StateAlive) then ms
  else setState (set_incarnation ms (uint64 (ms_incarnation ms + 1))) StateAlive now.

Definition ObserveAck (id : bytes) (now : Z) (r : Roster) : Roster :=
  rebuildSnapshots (match ro_members r !! id with
                    | None => r
                    | Some ms => set_members r (<[id := ackState ms now]> (ro_members r))
                    end).

Definition Suspect (id : bytes) (now : Z) (r : Roster) : Roster :=
  rebuildSnapshots (match ro_members r !! id with
                    | None => r
                    | Some ms =>
                        if bool_decide (id = ro_selfID r) then r
                        else if bool_decide (ms_state ms = StateAlive)
                        then set_members r (<[id := setState ms StateSuspect now]> (ro_members r))
                        else r
                    end).

(** The merge of a view into the record of another member. *)
Definition mergeState (ms : memberState) (u : MemberView) (now : Z) : memberState :=
  if ms_incarnation ms <? mv_Incarnation u
  then setState (set_member (set_incarnation ms (mv_Incarnation u)) (mv_Member u)) (mv_State u) now
  else if (mv_Incarnation u =? ms_incarnation ms) && (ordinal (ms_state ms) <? ordinal (mv_State u))
  then setState ms (mv_State u) now
  else ms.

(** The refutation of a stale record about the local member. *)
Definition refute (self : memberState) (u : MemberView) (now : Z) : memberState :=
  let stale := negb (bool_decide (mv_State u = StateAlive)) || negb (bool_decide (mv_Member u = ms_member self)) in
  if stale && (ms_incarnation self <=? mv_Incarnation u)
  then setState (set_incarnation self (uint64 (mv_Incarnation u + 1))) StateAlive now
  else self.

Definition ApplyGossip (u : MemberView) (now : Z) (r : Roster) : option Roster :=
  if bool_decide (viewID u = ro_selfID r) then
    self ← ro_members r !! ro_selfID r;
    Some (rebuildSnapshots (set_members r (<[ro_selfID r := refute self u now]> (ro_members r))))
  else
    Some (rebuildSnapshots (set_members r (<[viewID u :=
      match ro_members r !! viewID u with
      | None => mkState (mv_Member u) (mv_State u) (mv_Incarnation u) (UnixMilli now) (UnixMilli now) false
      | Some ms => mergeState ms u now
      end]> (ro_members r)))).

(** What a tick does to one member; [None] deletes it. *)
Definition tickMember (cfg : LivenessConfig) (now : Z) (ms : memberState) : option memberState :=
  let elapsed := int64 (UnixMilli now - ms_stateSince ms) in
  match ms_state ms with
  | StateAlive => Some ms
  | StateSuspect => Some (if Milliseconds (SuspicionTimeout cfg) <=? elapsed then setState ms StateUnreachable now else ms)
  | StateUnreachable => Some (if Milliseconds (UnreachableTimeout cfg) <=? elapsed then setState ms StateDead now else ms)
  | StateDead =>
      Some (if (Milliseconds (DeadRetention cfg) <=? elapsed) || ms_repairDone ms
            then setState ms StateForgotten now else ms)
  | StateForgotten => if Milliseconds (ForgottenRetention cfg) <=? elapsed then None else Some ms
  end.

Definition Tick (now : Z) (r : Roster) : Roster :=
  rebuildSnapshots (set_members r (map_imap (λ id ms,
    if bool_decide (id = ro_selfID r) then Some ms else tickMember (ro_cfg r) now ms) (ro_members r))).

Definition MarkRepairComplete (id : bytes) (r : Roster) : Roster :=
  rebuildSnapshots (match ro_members r !! id with
                    | None => r
                    | Some ms =>
                        set_members r (<[id := mkState (ms_member ms) (ms_state ms) (ms_incarnation ms) (ms_lastSeenMs ms)
                                                 (ms_stateSince ms) true]> (ro_members r))
                    end).

Definition Members (r : Roster) : list MemberView := ro_membersSnap r.
Definition Live (r : Roster) : list MemberView := ro_liveSnap r.
Definition GetMember (id : bytes) (r : Roster) : option MemberView := view <$> ro_members r !! id.

(** ** Gossip *)

Record HolderSummaryWire := mkSummary {
  hs_MemberID : bytes;
  hs_Bloom : bytes;
  hs_HLL : bytes;
  hs_ApproxKeys : Z;
  hs_Namespaces : list bytes;
  hs_GeneratedAtUnixMs : Z;
}.

Record ConfigDeltaWire := mkDelta { cd_Key : bytes; cd_Value : bytes; cd_Version : Z; cd_Origin : bytes }.

Record HeldBucketWire := mkHeld {
  hb_MemberID : bytes;
  hb_Collection : bytes;
  hb_QVer : Z;
  hb_Buckets : list Z;
  hb_GeneratedAtUnixMs : Z;
}.

Record GossipMessage := mkMessage {
  gm_From : Member;
  gm_Members : list MemberView;
  gm_Summaries : list HolderSummaryWire;
  gm_ConfigDeltas : list ConfigDeltaWire;
  gm_HeldBuckets : list HeldBucketWire;
}.

(** The hooks of the other subsystems, over their state [X]. *)
Record Hooks (X : Type) := mkHooks {
  provideSummary : option (X → HolderSummaryWire);
  consumeSummary : option (HolderSummaryWire → X → X);
  provideConfig : option (X → list ConfigDeltaWire);
  consumeConfig : option (list ConfigDeltaWire → X → X);
  provideBuckets : option (X → list HeldBucketWire);
  consumeBuckets : option (list HeldBucketWire → X → X);
}.
Arguments mkHooks {X}.
Arguments provideSummary {X}.
Arguments consumeSummary {X}.
Arguments provideConfig {X}.
Arguments consumeConfig {X}.
Arguments provideBuckets {X}.
Arguments consumeBuckets {X}.

Record Gossip (X : Type) := mkGossip { go_roster : Roster; go_graph : Graph; go_x : X }.
Arguments mkGossip {X}.
Arguments go_roster {X}.
Arguments go_graph {X}.
Arguments go_x {X}.

Section Gossip.
Context {X : Type} (hooks : Hooks X).

Definition consumeSummaries (ss : list HolderSummaryWire) (x : X) : X :=
  match consumeSummary hooks with
  | None => x
  | Some f => fold_left (λ x s, f s x) ss x
  end.

Definition consumeConfigDeltas (ds : list ConfigDeltaWire) (x : X) : X :=
  match ds, consumeConfig hooks with
  | _ :: _, Some f => f ds x
  | _, _ => x
  end.

Definition consumeHeldBuckets (bs : list HeldBucketWire) (x : X) : X :=
  match bs, consumeBuckets hooks with
  | _ :: _, Some f => f bs x
  | _, _ => x
  end.

Definition outgoing (g : Gossip X) : option GossipMessage :=
  self ← Self (go_roster g);
  Some (mkMessage self (Members (go_roster g))
    (match provideSummary hooks with Some f => [f (go_x g)] | None => [] end)
    (match provideConfig hooks with Some f => f (go_x g) | None => [] end)
    (match provideBuckets hooks with Some f => f (go_x g) | None => [] end)).

Definition applyViews (vs : list MemberView) (now : Z) (r : Roster) : option Roster :=
  fold_left (λ o u, r ← o; ApplyGossip u now r) vs (Some r).

(** Merging a message: what [HandleGossip] and [merge] have in common. *)
Definition merge (m : GossipMessage) (now : Z) (g : Gossip X) : option (Gossip X) :=
  let r := ObserveAck (MemberID (gm_From m)) now (Upsert (gm_From m) now (go_roster g)) in
  r ← applyViews (gm_Members m) now r;
  Some (mkGossip r (go_graph g)
    (consumeHeldBuckets (gm_HeldBuckets m) (consumeConfigDeltas (gm_ConfigDeltas m) (consumeSummaries (gm_Summaries m) (go_x g))))).

Definition HandleGossip (m : GossipMessage) (now : Z) (g : Gossip X) : option (GossipMessage * Gossip X) :=
  g ← merge m now g;
  out ← outgoing g;
  Some (out, g).

(** A random member worth probing; [draw] is the random number. *)
Definition selectPeer (draw : nat) (g : Gossip X) : option (option MemberView) :=
  self ← Self (go_roster g);
  let cand := filter (λ m, viewID m ≠ MemberID self ∧ mv_State m ≠ StateDead) (Members (go_roster g)) in
  Some (cand !! (draw mod length cand)%nat).

(** Up to [fanout] live relays; [shuffle] is the random permutation. *)
Definition selectRelays (shuffle : list MemberView → list MemberView) (fanout : nat) (targetID : bytes) (g : Gossip X)
    : option (list MemberView) :=
  self ← Self (go_roster g);
  Some (take fanout (shuffle (filter (λ m, viewID m ≠ MemberID self ∧ viewID m ≠ targetID) (Live (go_roster g))))).

(** What a round is given: clock, measured time, random choices, and the answers of the
    transport, direct and through a relay. *)
Record Round := mkRound {
  rd_now : Z;
  rd_rtt : Z;
  rd_draw : nat;
  rd_shuffle : list MemberView → list MemberView;
  rd_fanout : nat;
  rd_Ping : bytes → GossipMessage → option (option GossipMessage);
  rd_IndirectPing : bytes → bytes → GossipMessage → option (option GossipMessage);
}.

Definition mergeReply (reply : option GossipMessage) (now : Z) (g : Gossip X) : option (Gossip X) :=
  match reply with
  | None => Some g
  | Some m => merge m now g
  end.

Definition with_roster (g : Gossip X) (r : Roster) : Gossip X := mkGossip r (go_graph g) (go_x g).

Fixpoint indirect (rd : Round) (msg : GossipMessage) (peer : MemberView) (relays : list MemberView) (g : Gossip X)
    : option (Gossip X) :=
  match relays with
  | [] => Some (with_roster g (Suspect (viewID peer) (rd_now rd) (go_roster g)))
  | relay :: relays =>
      match rd_IndirectPing rd (GossipAddr (mv_Member relay)) (GossipAddr (mv_Member peer)) msg with
      | Some reply => mergeReply reply (rd_now rd) (with_roster g (ObserveAck (viewID peer) (rd_now rd) (go_roster g)))
      | None => indirect rd msg peer relays g
      end
  end.

Definition probe (rd : Round) (peer : MemberView) (g : Gossip X) : option (Gossip X) :=
  msg ← outgoing g;
  match rd_Ping rd (GossipAddr (mv_Member peer)) msg with
  | Some reply =>
      let graph := AddSample (viewID peer) (rd_rtt rd) true (rd_now rd) (go_graph g) in
      mergeReply reply (rd_now rd) (mkGossip (ObserveAck (viewID peer) (rd_now rd) (go_roster g)) graph (go_x g))
  | None =>
      let g := mkGossip (go_roster g) (AddSample (viewID peer) 0 false (rd_now rd) (go_graph g)) (go_x g) in
      relays ← selectRelays (rd_shuffle rd) (rd_fanout rd) (viewID peer) g;
      indirect rd msg peer relays g
  end.

Definition GossipTick (rd : Round) (g : Gossip X) : option (Gossip X) :=
  peer ← selectPeer (rd_draw rd) g;
  g ← match peer with
      | Some peer => probe rd peer g
      | None => Some g
      end;
  Some (with_roster g (Tick (rd_now rd) (go_roster g))).

Definition Join (seeds : list bytes) (rd : Round) (g : Gossip X) : option (Gossip X) :=
  msg ← outgoing g;
  fold_left (λ o addr, g ← o; match rd_Ping rd addr msg with Some reply => mergeReply reply (rd_now rd) g | None => Some g end)
    seeds (Some g).

End Gossip.

End Membership.
