(* ===== verification/MembershipSafety.v ===== *)
(** * What the roster guarantees

    The roster's invariant over any sequence of events, the order in which records about a
    member supersede each other, and what a gossip exchange establishes. *)

From S2P Require Import Prelude Bytes Float64 LatencyGraph Membership.

Local Open Scope Z_scope.
#[local] Set Default Proof Using "Type".

Module MembershipSafety.
Import LatencyGraph Membership.

(** ** The roster invariant *)

Record roster_ok (r : Roster) : Prop := {
  rk_self : ∃ ms, ro_members r !! ro_selfID r = Some ms ∧ ms_state ms = StateAlive;
  rk_ids id ms : ro_members r !! id = Some ms → MemberID (ms_member ms) = id;
  rk_snap : rebuildSnapshots r = r;
}.

Lemma rebuilt_ok r m :
  (∃ ms, m !! ro_selfID r = Some ms ∧ ms_state ms = StateAlive) →
  (∀ id ms, m !! id = Some ms → MemberID (ms_member ms) = id) → roster_ok (rebuildSnapshots (set_members r m)).
Proof. intros Hs Hi. by split. Qed.

(** A change of one record. *)
Lemma rebuilt_insert_ok r id ms :
  roster_ok r → MemberID (ms_member ms) = id → (id = ro_selfID r → ms_state ms = StateAlive) →
  roster_ok (rebuildSnapshots (set_members r (<[id := ms]> (ro_members r)))).
Proof.
  intros [(ms0 & Hs & Ha) Hi _] Hid Hself. apply rebuilt_ok.
  - destruct (decide (id = ro_selfID r)) as [->|].
    + exists ms. rewrite lookup_insert_eq. auto.
    + exists ms0. by rewrite lookup_insert_ne.
  - intros id' ms'. destruct (decide (id = id')) as [->|].
    + rewrite lookup_insert_eq. by intros [= <-].
    + rewrite lookup_insert_ne by done. apply Hi.
Qed.

Lemma rebuilt_same_ok r : roster_ok r → roster_ok (rebuildSnapshots r).
Proof. intros Hr. by rewrite (rk_snap r Hr). Qed.

Lemma setState_member ms s now : ms_member (setState ms s now) = ms_member ms.
Proof. unfold setState. by case_bool_decide. Qed.
Lemma setState_state ms s now : ms_state (setState ms s now) = s.
Proof. unfold setState. by case_bool_decide. Qed.
Lemma setState_incarnation ms s now : ms_incarnation (setState ms s now) = ms_incarnation ms.
Proof. unfold setState. by case_bool_decide. Qed.
#[local] Hint Rewrite setState_member setState_state setState_incarnation : roster.

Lemma ackState_facts ms now :
  ms_member (ackState ms now) = ms_member ms ∧ ms_state (ackState ms now) = StateAlive ∧
  ms_incarnation (ackState ms now) = if bool_decide (ms_state ms = StateAlive) then ms_incarnation ms else uint64 (ms_incarnation ms + 1).
Proof. unfold ackState. simpl. case_bool_decide; [done|]. by autorewrite with roster. Qed.

Lemma refute_facts self u now :
  ms_state self = StateAlive → ms_member (refute self u now) = ms_member self ∧ ms_state (refute self u now) = StateAlive.
Proof. intros Ha. unfold refute. case_match; [|done]. by autorewrite with roster. Qed.

Lemma mergeState_member ms u now :
  MemberID (ms_member ms) = viewID u → MemberID (ms_member (mergeState ms u now)) = viewID u.
Proof. intros E. unfold mergeState. repeat case_match; autorewrite with roster; done. Qed.

Lemma NewRoster_ok self cfg inc : roster_ok (NewRoster self cfg inc).
Proof.
  split; simpl.
  - rewrite lookup_singleton_eq. eauto.
  - intros id ms [<- <-]%lookup_singleton_Some. done.
  - done.
Qed.

Lemma Upsert_ok m now r : roster_ok r → roster_ok (Upsert m now r).
Proof.
  intros Hr. apply rebuilt_insert_ok; [done| |]; destruct (ro_members r !! MemberID m) as [ms|] eqn:E; simpl; try done.
  intros Es. destruct (rk_self r Hr) as (ms' & Hs & Ha). rewrite <-Es, E in Hs. by injection Hs as ->.
Qed.

Lemma ObserveAck_ok id now r : roster_ok r → roster_ok (ObserveAck id now r).
Proof.
  intros Hr. unfold ObserveAck. destruct (ro_members r !! id) as [ms|] eqn:E; [|by apply rebuilt_same_ok].
  destruct (ackState_facts ms now) as (E1 & E2 & _). apply rebuilt_insert_ok; [done| |done].
  rewrite E1. by apply (rk_ids r Hr).
Qed.

Lemma Suspect_ok id now r : roster_ok r → roster_ok (Suspect id now r).
Proof.
  intros Hr. unfold Suspect. destruct (ro_members r !! id) as [ms|] eqn:E; [|by apply rebuilt_same_ok].
  case_bool_decide; [by apply rebuilt_same_ok|]. case_bool_decide; [|by apply rebuilt_same_ok].
  apply rebuilt_insert_ok; [done| |done]. rewrite setState_member. by apply (rk_ids r Hr).
Qed.

Lemma MarkRepairComplete_ok id r : roster_ok r → roster_ok (MarkRepairComplete id r).
Proof.
  intros Hr. unfold MarkRepairComplete. destruct (ro_members r !! id) as [ms|] eqn:E; [|by apply rebuilt_same_ok].
  apply rebuilt_insert_ok; [done|exact (rk_ids r Hr id ms E)|]. intros ->.
  destruct (rk_self r Hr) as (ms' & Hs & Ha). simpl. congruence.
Qed.

Lemma ApplyGossip_ok u now r : roster_ok r → ∃ r', ApplyGossip u now r = Some r' ∧ roster_ok r' ∧ ro_selfID r' = ro_selfID r.
Proof.
  intros Hr. destruct (rk_self r Hr) as (self & Hs & Ha). unfold ApplyGossip. case_bool_decide as E.
  - rewrite Hs. simpl. eexists. split_and!; [done| |done]. destruct (refute_facts self u now Ha) as [E1 E2].
    apply rebuilt_insert_ok; [done| |done]. rewrite E1. by apply (rk_ids r Hr).
  - eexists. split_and!; [done| |done]. apply rebuilt_insert_ok; [done| |done].
    destruct (ro_members r !! viewID u) as [ms|] eqn:Em; [|done]. apply mergeState_member. by apply (rk_ids r Hr).
Qed.

Lemma tickMember_member cfg now ms ms' : tickMember cfg now ms = Some ms' → ms_member ms' = ms_member ms.
Proof. unfold tickMember. intros E. repeat case_match; simplify_eq; by autorewrite with roster. Qed.

Lemma Tick_ok now r : roster_ok r → roster_ok (Tick now r).
Proof.
  intros Hr. apply rebuilt_ok.
  - destruct (rk_self r Hr) as (ms & Hs & Ha). exists ms. rewrite map_lookup_imap, Hs. simpl. by rewrite bool_decide_true.
  - intros id ms. rewrite map_lookup_imap. destruct (ro_members r !! id) as [ms0|] eqn:E; [|done]. simpl.
    pose proof (rk_ids r Hr id ms0 E). case_bool_decide; [by intros [= <-]|]. intros Ht%tickMember_member. by rewrite Ht.
Qed.

(** ** Snapshots *)

Lemma elem_of_snapshot keep m u :
  u ∈ snapshotOf keep m ↔ ∃ id ms, m !! id = Some ms ∧ keep (ms_state ms) = true ∧ u = view ms.
Proof.
  unfold snapshotOf. rewrite merge_sort_Permutation, list_elem_of_fmap. split.
  - intros (ms & -> & [Hk Hin]%list_elem_of_filter). apply list_elem_of_fmap in Hin as ([id ms'] & -> & Hin).
    apply elem_of_map_to_list in Hin. eauto.
  - intros (id & ms & Hm & Hk & ->). exists ms. split; [done|]. apply list_elem_of_filter. split; [done|].
    apply list_elem_of_fmap. exists (id, ms). split; [done|]. by apply elem_of_map_to_list.
Qed.

Definition ids_ok (m : gmap bytes memberState) : Prop := ∀ id ms, m !! id = Some ms → MemberID (ms_member ms) = id.

Lemma NoDup_fmap_filter {A B} (f : A → B) (P : A → Prop) `{∀ x, Decision (P x)} l :
  NoDup (f <$> l) → NoDup (f <$> filter P l).
Proof.
  induction l as [|x l IH]; [done|]. rewrite fmap_cons, NoDup_cons. intros [Hx Hn]. rewrite filter_cons.
  case_decide; [|by apply IH]. rewrite fmap_cons, NoDup_cons. split; [|by apply IH]. intros Hin. apply Hx.
  apply list_elem_of_fmap in Hin as (y & E & [_ Hin]%list_elem_of_filter). apply list_elem_of_fmap. by exists y.
Qed.

Lemma snapshot_NoDup keep m : ids_ok m → NoDup (viewID <$> snapshotOf keep m).
Proof.
  intros Hi. unfold snapshotOf. rewrite merge_sort_Permutation, <-list_fmap_compose.
  assert (NoDup ((λ ms, MemberID (ms_member ms)) <$> (map_to_list m).*2)) as Hn.
  { rewrite <-list_fmap_compose.
    assert (((λ ms, MemberID (ms_member ms)) ∘ snd) <$> map_to_list m = (map_to_list m).*1) as ->.
    { apply list_fmap_ext. intros i [id ms] Hx. simpl. apply Hi, elem_of_map_to_list. by eapply list_elem_of_lookup_2. }
    apply NoDup_fst_map_to_list. }
  by apply NoDup_fmap_filter.
Qed.

Lemma snapshot_sorted keep m : ids_ok m → StronglySorted bytes_lt (viewID <$> snapshotOf keep m).
Proof.
  intros Hi. pose proof (snapshot_NoDup keep m Hi) as Hn.
  assert (StronglySorted view_le (snapshotOf keep m)) as Hs.
  { apply StronglySorted_merge_sort; unfold view_le.
    - intros x y z H1 H2. by etrans.
    - intros x y. apply (total bytes_le). }
  induction Hs as [|v l Hs IH Hf]; [constructor|]. rewrite fmap_cons in Hn |- *. apply NoDup_cons in Hn as [Hx Hn].
  constructor; [by apply IH|]. apply Forall_fmap. rewrite Forall_forall in Hf |- *. intros w Hw.
  destruct (proj1 (bytes_le_lteq _ _) (Hf w Hw)) as [|E]; [done|]. destruct Hx. apply list_elem_of_fmap. by exists w.
Qed.

(** The view of one id in a snapshot. *)
Lemma snapshot_filter keep m id :
  ids_ok m → filter (λ v, viewID v = id) (snapshotOf keep m) =
  match m !! id with Some ms => if keep (ms_state ms) then [view ms] else [] | None => [] end.
Proof.
  intros Hi. pose proof (snapshot_NoDup keep m Hi) as Hn.
  assert (∀ v, v ∈ snapshotOf keep m → viewID v = id → ∃ ms, m !! id = Some ms ∧ keep (ms_state ms) = true ∧ v = view ms) as Hv.
  { intros v Hin Hid. apply elem_of_snapshot in Hin as (id' & ms & Hm & Hk & ->). pose proof (Hi _ _ Hm) as E.
    change (MemberID (ms_member ms) = id) in Hid. subst id. rewrite E. eauto. }
  destruct (filter _ (snapshotOf keep m)) as [|v l] eqn:E.
  - destruct (m !! id) as [ms|] eqn:Em; [|done]. destruct (keep (ms_state ms)) eqn:Ek; [|done].
    assert (view ms ∈ filter (λ v, viewID v = id) (snapshotOf keep m)) as Hin.
    { apply list_elem_of_filter. split; [by apply Hi|]. apply elem_of_snapshot. eauto. }
    rewrite E in Hin. by apply not_elem_of_nil in Hin.
  - assert (v ∈ filter (λ v, viewID v = id) (snapshotOf keep m)) as Hin by (rewrite E; left).
    apply list_elem_of_filter in Hin as [Hid Hin]. destruct (Hv v Hin Hid) as (ms & -> & -> & ->).
    destruct l as [|w l]; [done|exfalso].
    assert (NoDup (viewID <$> filter (λ v, viewID v = id) (snapshotOf keep m))) as Hn2.
    { by apply NoDup_fmap_filter. }
    assert (w ∈ filter (λ v, viewID v = id) (snapshotOf keep m)) as Hw by (rewrite E; right; left).
    apply list_elem_of_filter in Hw as [Hwid _]. rewrite E in Hn2. rewrite !fmap_cons in Hn2.
    apply NoDup_cons in Hn2 as [Hx _]. apply Hx. rewrite Hid, <-Hwid. left.
Qed.

(** ** Which record supersedes which *)

(** Records about a member are ordered by incarnation, then by severity. *)
Definition rank : Type := Z * Z.
Definition rank_compare : rank → rank → comparison := cmp_pair Z.compare Z.compare.
Definition rmax (a b : rank) : rank := match rank_compare a b with Lt => b | _ => a end.
Definition omax (o : option rank) (b : rank) : rank := match o with Some a => rmax a b | None => b end.

Definition viewRank (u : MemberView) : rank := (mv_Incarnation u, ordinal (mv_State u)).
Definition stateRank (ms : memberState) : rank := (ms_incarnation ms, ordinal (ms_state ms)).
Definition rankOf (r : Roster) (id : bytes) : option rank := stateRank <$> ro_members r !! id.

Definition rle (a b : rank) : Prop := rank_compare a b ≠ Gt.

Lemma rle_refl a : rle a a.
Proof. unfold rle. by rewrite (cmp_refl rank_compare). Qed.
Lemma rle_antisym a b : rle a b → rle b a → a = b.
Proof.
  unfold rle. intros H1 H2. rewrite (cmp_antisym (cmp:=rank_compare) a b) in H2.
  destruct (rank_compare a b) eqn:E; [by apply (cmp_eq (cmp:=rank_compare))|done|done].
Qed.
Lemma rle_trans a b c : rle a b → rle b c → rle a c.
Proof. apply (Float64.cmp_le_trans rank_compare). Qed.
Lemma rmax_spec a b : rle a (rmax a b) ∧ rle b (rmax a b) ∧ (rmax a b = a ∨ rmax a b = b).
Proof.
  unfold rmax, rle. destruct (rank_compare a b) eqn:E.
  - apply (cmp_eq (cmp:=rank_compare)) in E as ->. rewrite (cmp_refl rank_compare). auto.
  - rewrite E, (cmp_refl rank_compare). auto.
  - rewrite (cmp_refl rank_compare), (cmp_antisym (cmp:=rank_compare) a b), E. auto.
Qed.

Lemma mergeState_rank ms u now : stateRank (mergeState ms u now) = rmax (stateRank ms) (viewRank u).
Proof.
  unfold mergeState, rmax, rank_compare, cmp_pair, stateRank, viewRank. simpl.
  destruct (Z.ltb_spec (ms_incarnation ms) (mv_Incarnation u)) as [H1|H1].
  { rewrite (proj2 (Z.compare_lt_iff _ _) H1). by autorewrite with roster. }
  destruct (Z.eqb_spec (mv_Incarnation u) (ms_incarnation ms)) as [E|E]; cbn [andb].
  - rewrite E, Z.compare_refl. destruct (Z.ltb_spec (ordinal (ms_state ms)) (ordinal (mv_State u))) as [H2|H2].
    + rewrite (proj2 (Z.compare_lt_iff _ _) H2). by autorewrite with roster.
    + destruct (Z.compare_spec (ordinal (ms_state ms)) (ordinal (mv_State u))); done || lia.
  - destruct (Z.compare_spec (ms_incarnation ms) (mv_Incarnation u)); done || lia.
Qed.

(** The record of another member after a view of it. *)
Definition merged (o : option memberState) (u : MemberView) (now : Z) : memberState :=
  match o with
  | None => mkState (mv_Member u) (mv_State u) (mv_Incarnation u) (UnixMilli now) (UnixMilli now) false
  | Some ms => mergeState ms u now
  end.

Lemma merged_rank o u now : stateRank (merged o u now) = omax (stateRank <$> o) (viewRank u).
Proof. destruct o; [apply mergeState_rank|done]. Qed.

(** A view changes the record it is about only. *)
Lemma ApplyGossip_record u now r r' id :
  ApplyGossip u now r = Some r' → id ≠ ro_selfID r →
  ro_members r' !! id = if decide (viewID u = id) then Some (merged (ro_members r !! id) u now) else ro_members r !! id.
Proof.
  unfold ApplyGossip. intros E Hne. case_bool_decide as Eu.
  - destruct (ro_members r !! ro_selfID r) as [self|]; simpl in E; [|done]. injection E as <-.
    rewrite decide_False by congruence. simpl. by rewrite lookup_insert_ne.
  - injection E as <-. simpl. case_decide as E; [|by rewrite lookup_insert_ne].
    subst id. by rewrite lookup_insert_eq.
Qed.

Lemma applyViews_cons u vs now r :
  applyViews (u :: vs) now r = match ApplyGossip u now r with Some r' => applyViews vs now r' | None => None end.
Proof.
  unfold applyViews. simpl. destruct (ApplyGossip u now r); [done|]. induction vs; simpl; [done|].
  assert (∀ (vs : list MemberView), fold_left (λ o u, r ← o; ApplyGossip u now r) vs None = None) as Hn by (intros vs'; by induction vs').
  apply Hn.
Qed.

Lemma applyViews_ok vs now r :
  roster_ok r → ∃ r', applyViews vs now r = Some r' ∧ roster_ok r' ∧ ro_selfID r' = ro_selfID r.
Proof.
  revert r. induction vs as [|u vs IH]; intros r Hr; [by exists r|]. rewrite applyViews_cons.
  destruct (ApplyGossip_ok u now r Hr) as (r1 & -> & Hr1 & E1). destruct (IH r1 Hr1) as (r2 & -> & Hr2 & E2).
  exists r2. split_and!; [done..|congruence].
Qed.

Lemma applyViews_record vs now r r' id :
  roster_ok r → applyViews vs now r = Some r' → id ≠ ro_selfID r →
  ro_members r' !! id = fold_left (λ o u, Some (merged o u now)) (filter (λ u, viewID u = id) vs) (ro_members r !! id).
Proof.
  revert r. induction vs as [|u vs IH]; intros r Hr E Hne; [by injection E as <-|]. rewrite applyViews_cons in E.
  destruct (ApplyGossip_ok u now r Hr) as (r1 & E1 & Hr1 & Es). rewrite E1 in E.
  rewrite (IH r1 Hr1 E) by congruence. rewrite (ApplyGossip_record _ _ _ _ _ E1 Hne), filter_cons.
  by case_decide.
Qed.

(** The rank of a member after merging some views is the maximum of what was known and
    what the views say. *)
Lemma applyViews_rank vs now r r' id :
  roster_ok r → applyViews vs now r = Some r' → id ≠ ro_selfID r →
  rankOf r' id = fold_left (λ o u, Some (omax o (viewRank u))) (filter (λ u, viewID u = id) vs) (rankOf r id).
Proof.
  intros Hr E Hne. unfold rankOf. rewrite (applyViews_record _ _ _ _ _ Hr E Hne).
  generalize (ro_members r !! id). induction (filter _ vs) as [|u l IH]; intros o; [done|]. simpl.
  rewrite IH. simpl. by rewrite merged_rank.
Qed.

Lemma rank_upper vs o :
  let m := fold_left (λ o u, Some (omax o (viewRank u))) vs o in
  (∀ a, o = Some a → ∃ b, m = Some b ∧ rle a b) ∧
  (∀ u, u ∈ vs → ∃ b, m = Some b ∧ rle (viewRank u) b) ∧
  (∀ b, m = Some b → o = Some b ∨ ∃ u, u ∈ vs ∧ b = viewRank u).
Proof.
  revert o. induction vs as [|u vs IH]; intros o m.
  { split_and!; [eauto using rle_refl|by intros u ?%not_elem_of_nil|auto]. }
  destruct (IH (Some (omax o (viewRank u)))) as (I1 & I2 & I3). fold m in I1, I2, I3.
  destruct (I1 _ eq_refl) as (b & Hb & Hle). assert (rle (viewRank u) b) as Hu.
  { eapply rle_trans; [|exact Hle]. destruct o; simpl; [apply rmax_spec|apply rle_refl]. }
  split_and!.
  - intros a ->. exists b. split; [done|]. eapply rle_trans; [|exact Hle]. apply rmax_spec.
  - intros u' [->|Hin]%elem_of_cons; [by exists b|by apply I2].
  - intros b' Hb'. destruct (I3 b' Hb') as [[= E]|(u' & Hin & ->)]; [|right; exists u'; split; [by right|done]].
    destruct o as [a|]; simpl in E; [|right; exists u; split; [by left|done]].
    destruct (rmax_spec a (viewRank u)) as (_ & _ & [Ea|Ea]); [left; congruence|right; exists u; split; [by left|congruence]].
Qed.

(** So it depends on the set of views only. *)
Lemma rank_max_set vs1 vs2 o :
  (∀ u, u ∈ vs1 ↔ u ∈ vs2) →
  fold_left (λ o u, Some (omax o (viewRank u))) vs1 o = fold_left (λ o u, Some (omax o (viewRank u))) vs2 o.
Proof.
  intros Hset. destruct (rank_upper vs1 o) as (A1 & A2 & A3). destruct (rank_upper vs2 o) as (B1 & B2 & B3).
  set (m1 := fold_left _ vs1 o) in *. set (m2 := fold_left _ vs2 o) in *.
  assert (∀ (m m' : option rank) (vs vs' : list MemberView), (∀ u, u ∈ vs → u ∈ vs') →
    (∀ b, m = Some b → o = Some b ∨ ∃ u, u ∈ vs ∧ b = viewRank u) →
    (∀ a, o = Some a → ∃ b, m' = Some b ∧ rle a b) → (∀ u, u ∈ vs' → ∃ b, m' = Some b ∧ rle (viewRank u) b) →
    ∀ b, m = Some b → ∃ b', m' = Some b' ∧ rle b b') as Hle.
  { intros m m' vs vs' Hs H3 H1 H2 b Hb. destruct (H3 b Hb) as [?|(u & Hu & ->)]; [by apply H1|by apply H2, Hs]. }
  pose proof (Hle m1 m2 vs1 vs2 (λ u, proj1 (Hset u)) A3 B1 B2) as L12.
  pose proof (Hle m2 m1 vs2 vs1 (λ u, proj2 (Hset u)) B3 A1 A2) as L21.
  destruct m1 as [b1|] eqn:E1, m2 as [b2|] eqn:E2; try done.
  - destruct (L12 b1 eq_refl) as (? & [= <-] & ?), (L21 b2 eq_refl) as (? & [= <-] & ?). f_equal. by apply rle_antisym.
  - by destruct (L12 b1 eq_refl) as (? & ? & ?).
  - by destruct (L21 b2 eq_refl) as (? & ? & ?).
Qed.

(** ** Events of a roster *)

Inductive rosterEvent :=
  | RUpsert (m : Member) (now : Z)
  | RAck (id : bytes) (now : Z)
  | RSuspect (id : bytes) (now : Z)
  | RGossip (u : MemberView) (now : Z)
  | RTick (now : Z)
  | RRepairDone (id : bytes).

Definition rosterStep (e : rosterEvent) (r : Roster) : option Roster :=
  match e with
  | RUpsert m now => Some (Upsert m now r)
  | RAck id now => Some (ObserveAck id now r)
  | RSuspect id now => Some (Suspect id now r)
  | RGossip u now => ApplyGossip u now r
  | RTick now => Some (Tick now r)
  | RRepairDone id => Some (MarkRepairComplete id r)
  end.

Fixpoint rosterRun (es : list rosterEvent) (r : Roster) : option Roster :=
  match es with
  | [] => Some r
  | e :: es => r ← rosterStep e r; rosterRun es r
  end.

Lemma self_kept e r r' : rosterStep e r = Some r' → ro_selfID r' = ro_selfID r.
Proof.
  destruct e; simpl; try (intros [= <-]).
  - done.
  - unfold ObserveAck. by case_match.
  - unfold Suspect. by repeat case_match.
  - unfold ApplyGossip. case_bool_decide; [|by intros [= <-]]. destruct (_ !! _); simpl; [by intros [= <-]|done].
  - done.
  - unfold MarkRepairComplete. by case_match.
Qed.

Lemma rosterStep_ok e r : roster_ok r → ∃ r', rosterStep e r = Some r' ∧ roster_ok r'.
Proof.
  intros Hr. destruct e; simpl; eauto using Upsert_ok, ObserveAck_ok, Suspect_ok, Tick_ok, MarkRepairComplete_ok.
  destruct (ApplyGossip_ok u now r Hr) as (r' & E & Hr' & _). eauto.
Qed.

Lemma rosterRun_ok es r : roster_ok r → ∃ r', rosterRun es r = Some r' ∧ roster_ok r'.
Proof.
  revert r. induction es as [|e es IH]; intros r Hr; [by exists r|]. simpl.
  destruct (rosterStep_ok e r Hr) as (r1 & -> & Hr1). by apply IH.
Qed.

Definition reached (r : Roster) : Prop := ∃ self cfg inc es, rosterRun es (NewRoster self cfg inc) = Some r.

Lemma reached_ok r : reached r → roster_ok r.
Proof.
  intros (self & cfg & inc & es & E). destruct (rosterRun_ok es _ (NewRoster_ok self cfg inc)) as (r' & E' & Hr). congruence.
Qed.

(** ** A gossip exchange *)

Lemma Upsert_other m now r id : id ≠ MemberID m → ro_members (Upsert m now r) !! id = ro_members r !! id.
Proof. intros Hne. simpl. by rewrite lookup_insert_ne. Qed.

Lemma ObserveAck_other id' now r id : id ≠ id' → ro_members (ObserveAck id' now r) !! id = ro_members r !! id.
Proof. intros Hne. unfold ObserveAck. case_match; simpl; [by rewrite lookup_insert_ne|done]. Qed.

(** After a contact with a member it is known, alive and under its current address. *)
Definition seen (r : Roster) (m : Member) : Prop :=
  ∃ ms, ro_members r !! MemberID m = Some ms ∧ ms_state ms = StateAlive ∧ ms_member ms = m.

Lemma contact_seen m now r : seen (ObserveAck (MemberID m) now (Upsert m now r)) m.
Proof.
  unfold seen, ObserveAck, Upsert. simpl. rewrite lookup_insert_eq. simpl. rewrite lookup_insert_eq.
  eexists. split; [done|]. match goal with |- context [ackState ?x now] => destruct (ackState_facts x now) as (-> & -> & _) end.
  by case_match.
Qed.

(** The sender's own record keeps it so. *)
Lemma applyViews_seen vs now r r' m :
  roster_ok r → applyViews vs now r = Some r' → MemberID m ≠ ro_selfID r → seen r m →
  (∀ u, u ∈ vs → viewID u = MemberID m → mv_State u = StateAlive ∧ mv_Member u = m) → seen r' m.
Proof.
  intros Hr E Hne (ms & Hm & Ha & Hmm) Hvs. unfold seen. rewrite (applyViews_record _ _ _ _ _ Hr E Hne), Hm.
  assert (∀ u, u ∈ filter (λ u, viewID u = MemberID m) vs → mv_State u = StateAlive ∧ mv_Member u = m) as Hf.
  { intros u [Hu Hin]%list_elem_of_filter. by apply Hvs. }
  clear E Hm Hvs. revert ms Ha Hmm. induction (filter _ vs) as [|u l IH]; intros ms Ha Hmm; [by exists ms|]. simpl.
  destruct (Hf u) as [Hua Hum]; [left|]. apply IH; [intros; apply Hf; by right| |].
  - unfold mergeState. rewrite Hua. repeat case_match; autorewrite with roster; done.
  - unfold mergeState. rewrite Hum. repeat case_match; autorewrite with roster; done.
Qed.

(** The local record through a merge. *)
Lemma applyViews_self vs now r r' :
  roster_ok r → applyViews vs now r = Some r' → Self r' = Self r.
Proof.
  revert r. induction vs as [|u vs IH]; intros r Hr E; [by injection E as <-|]. rewrite applyViews_cons in E.
  destruct (ApplyGossip_ok u now r Hr) as (r1 & E1 & Hr1 & Es). rewrite E1 in E. rewrite (IH r1 Hr1 E). clear E IH.
  unfold Self. rewrite Es. unfold ApplyGossip in E1. case_bool_decide as Eu.
  - destruct (rk_self r Hr) as (self & Hs & Ha). rewrite Hs in E1. simpl in E1. injection E1 as <-. simpl.
    rewrite lookup_insert_eq, Hs. simpl. by destruct (refute_facts self u now Ha) as [-> _].
  - injection E1 as <-. simpl. by rewrite lookup_insert_ne.
Qed.

Definition rjoin (o1 o2 : option rank) : option rank := match o2 with None => o1 | Some b => Some (omax o1 b) end.

Lemma rjoin_absorb a b : rjoin a (rjoin b a) = rjoin b a.
Proof.
  destruct a as [a|], b as [b|]; simpl; try done; f_equal.
  - destruct (rmax_spec a (rmax b a)) as (H1 & H2 & H3), (rmax_spec b a) as (H4 & H5 & H6).
    apply rle_antisym; [|done]. destruct H3 as [E|E]; rewrite E; [done|apply rle_refl].
  - destruct (rmax_spec a a) as (_ & _ & [E|E]); done.
Qed.

(** A member that is not forgotten is in the outgoing delta. *)
Definition not_forgotten (r : Roster) (id : bytes) : Prop :=
  ∀ ms, ro_members r !! id = Some ms → ms_state ms ≠ StateForgotten.

Lemma Members_filter r id :
  roster_ok r → not_forgotten r id →
  filter (λ u, viewID u = id) (Members r) = match ro_members r !! id with Some ms => [view ms] | None => [] end.
Proof.
  intros Hr Hnf. pose proof (rk_snap r Hr) as Es. unfold Members. rewrite <-Es. simpl. rewrite snapshot_filter by exact (rk_ids r Hr).
  destruct (ro_members r !! id) as [ms|] eqn:E; [|done]. by rewrite bool_decide_false by by apply Hnf.
Qed.

Lemma Members_elem r u : roster_ok r → u ∈ Members r →
  ∃ ms, ro_members r !! viewID u = Some ms ∧ u = view ms ∧ ms_state ms ≠ StateForgotten.
Proof.
  intros Hr. pose proof (rk_snap r Hr) as Es. unfold Members. rewrite <-Es. simpl. rewrite elem_of_snapshot.
  intros (id & ms & Hm & Hk & ->). exists ms. pose proof (rk_ids r Hr id ms Hm) as E. unfold viewID. simpl. rewrite E.
  split_and!; [done..|]. by case_bool_decide.
Qed.

Lemma joined_not_forgotten r r1 r2 id :
  not_forgotten r1 id → not_forgotten r2 id → rankOf r id = rjoin (rankOf r1 id) (rankOf r2 id) → not_forgotten r id.
Proof.
  intros H1 H2 E ms Hms Hst. unfold rankOf in E. rewrite Hms in E. simpl in E.
  assert (ordinal (ms_state ms) < 4); [|by rewrite Hst in *].
  assert (∀ r ms', ro_members r !! id = Some ms' → not_forgotten r id → ordinal (ms_state ms') < 4) as Hord.
  { intros r' ms' Hms' Hnf. specialize (Hnf ms' Hms'). by destruct (ms_state ms'). }
  destruct (ro_members r1 !! id) as [a|] eqn:E1, (ro_members r2 !! id) as [b|] eqn:E2; simpl in E; try done.
  - destruct (rmax_spec (stateRank a) (stateRank b)) as (_ & _ & [Er|Er]); rewrite Er in E; injection E as _ ->; eauto.
  - injection E as _ ->. eauto.
  - injection E as _ ->. eauto.
Qed.

Section Exchange.
Context {X : Type} (hooks : Hooks X).

(** What merging a message of a live member does. *)
Lemma merge_spec m now (g : Gossip X) r0 :
  roster_ok (go_roster g) → roster_ok r0 → ro_selfID r0 ≠ ro_selfID (go_roster g) →
  Self r0 = Some (gm_From m) → gm_Members m = Members r0 →
  ∃ g', merge hooks m now g = Some g' ∧ roster_ok (go_roster g') ∧ ro_selfID (go_roster g') = ro_selfID (go_roster g) ∧
    Self (go_roster g') = Self (go_roster g) ∧ seen (go_roster g') (gm_From m) ∧
    ∀ id, id ≠ ro_selfID (go_roster g) → id ≠ ro_selfID r0 → not_forgotten r0 id →
      rankOf (go_roster g') id = rjoin (rankOf (go_roster g) id) (rankOf r0 id).
Proof.
  intros Hg Hr0 Hne Hs Hm. unfold merge. set (r1 := ObserveAck _ _ _).
  assert (roster_ok r1) as Hr1 by (by apply ObserveAck_ok, Upsert_ok).
  assert (ro_selfID r1 = ro_selfID (go_roster g)) as Es1 by (subst r1; unfold ObserveAck; by case_match).
  assert (MemberID (gm_From m) = ro_selfID r0) as Ef.
  { unfold Self in Hs. destruct (ro_members r0 !! ro_selfID r0) as [ms|] eqn:E; [|done]. injection Hs as <-. by apply (rk_ids r0 Hr0). }
  destruct (applyViews_ok (gm_Members m) now r1 Hr1) as (r2 & E2 & Hr2 & Es2). rewrite E2. simpl.
  eexists. split_and!; [done|done|simpl; congruence| | |]; simpl.
  - rewrite (applyViews_self _ _ _ _ Hr1 E2). unfold Self. rewrite Es1. subst r1.
    rewrite ObserveAck_other, Upsert_other by congruence. done.
  - eapply applyViews_seen; [exact Hr1|exact E2|congruence|apply contact_seen|]. intros u Hu Hid. rewrite Hm in Hu.
    apply (Members_elem r0 u Hr0) in Hu as (ms & Hms & -> & _). rewrite Hid, Ef in Hms. unfold Self in Hs. rewrite Hms in Hs.
    injection Hs as <-. destruct (rk_self r0 Hr0) as (ms' & Hms' & Ha). rewrite Hms in Hms'. injection Hms' as <-. done.
  - intros id H1 H2 Hnf. rewrite (applyViews_rank _ _ _ _ _ Hr1 E2) by congruence. rewrite Hm, (Members_filter r0 id Hr0 Hnf).
    assert (rankOf r1 id = rankOf (go_roster g) id) as ->.
    { unfold rankOf. subst r1. rewrite ObserveAck_other, Upsert_other by congruence. done. }
    change (rankOf r0 id) with (stateRank <$> ro_members r0 !! id). destruct (ro_members r0 !! id) as [ms|]; done.
Qed.

End Exchange.

(** ** Properties *)

(** C34: Whatever a node hears, probes and times out, in any order: its roster operations never
    dereference a missing record, the node itself stays known and alive, and the cached
    snapshots are exactly the members that are not forgotten, respectively alive, once each
    and sorted by id. *)
Theorem roster_invariant (self : Member) (cfg : LivenessConfig) (incarnation : Z) (es : list rosterEvent) :
  ∃ r, rosterRun es (NewRoster self cfg incarnation) = Some r ∧
    (∃ ms, ro_members r !! MemberID self = Some ms ∧ ms_state ms = StateAlive ∧ Self r = Some (ms_member ms)) ∧
    StronglySorted bytes_lt (viewID <$> Members r) ∧ StronglySorted bytes_lt (viewID <$> Live r) ∧
    (∀ u, u ∈ Members r ↔ ∃ id ms, ro_members r !! id = Some ms ∧ ms_state ms ≠ StateForgotten ∧ u = view ms) ∧
    (∀ u, u ∈ Live r ↔ ∃ id ms, ro_members r !! id = Some ms ∧ ms_state ms = StateAlive ∧ u = view ms).
Proof.
  destruct (rosterRun_ok es _ (NewRoster_ok self cfg incarnation)) as (r & E & Hr).
  assert (ro_selfID r = MemberID self) as Eid.
  { change (MemberID self) with (ro_selfID (NewRoster self cfg incarnation)). revert E. generalize (NewRoster self cfg incarnation).
    clear Hr. induction es as [|e es IH]; intros r0 E; simpl in E; [congruence|].
    destruct (rosterStep e r0) as [r1|] eqn:E1; [|done]. rewrite (IH r1 E). by eapply self_kept. }
  exists r. pose proof (rk_snap r Hr) as Es. split; [done|]. split.
  { destruct (rk_self r Hr) as (ms & Hm & Ha). exists ms. unfold Self. rewrite <-Eid, Hm. done. }
  unfold Members, Live. rewrite <-Es. simpl. split_and!.
  - apply snapshot_sorted. exact (rk_ids r Hr).
  - apply snapshot_sorted. exact (rk_ids r Hr).
  - intros u. rewrite elem_of_snapshot. setoid_rewrite negb_true_iff. setoid_rewrite bool_decide_eq_false. done.
  - intros u. rewrite elem_of_snapshot. setoid_rewrite bool_decide_eq_true. done.
Qed.

(** Merging gossip is insensitive to order and repetition: two nodes that know the same
    about a third member and hear the same views, in any order and any number of times,
    agree on its incarnation and state. *)
Theorem gossip_order_irrelevant (r1 r2 : Roster) (us1 us2 : list MemberView) (now1 now2 : Z) (id : bytes) :
  reached r1 → reached r2 → id ≠ ro_selfID r1 → id ≠ ro_selfID r2 → rankOf r1 id = rankOf r2 id →
  (∀ u, u ∈ us1 ↔ u ∈ us2) →
  ∃ r1' r2', applyViews us1 now1 r1 = Some r1' ∧ applyViews us2 now2 r2 = Some r2' ∧ rankOf r1' id = rankOf r2' id.
Proof.
  intros Hr1%reached_ok Hr2%reached_ok H1 H2 Er Hset.
  destruct (applyViews_ok us1 now1 r1 Hr1) as (r1' & E1 & _ & _), (applyViews_ok us2 now2 r2 Hr2) as (r2' & E2 & _ & _).
  exists r1', r2'. split_and!; [done..|]. rewrite (applyViews_rank _ _ _ _ _ Hr1 E1 H1), (applyViews_rank _ _ _ _ _ Hr2 E2 H2), Er.
  apply rank_max_set. intros u. rewrite !list_elem_of_filter. by rewrite Hset.
Qed.

(** C24: A successful probe synchronises two nodes: each sees the other alive under its current
    address, and on every third member neither has forgotten they agree, on the later of
    what the two knew. *)
Theorem gossip_exchange_agrees {X} (hooks : Hooks X) (gA gB : Gossip X) (rd : Round) (peer : MemberView) (nowB : Z) :
  reached (go_roster gA) → reached (go_roster gB) → ro_selfID (go_roster gA) ≠ ro_selfID (go_roster gB) →
  ∃ msg reply gB', outgoing hooks gA = Some msg ∧ HandleGossip hooks msg nowB gB = Some (reply, gB') ∧
    (viewID peer = ro_selfID (go_roster gB) → rd_Ping rd (GossipAddr (mv_Member peer)) msg = Some (Some reply) →
     ∃ gA', probe hooks rd peer gA = Some gA' ∧
       (∀ mB, Self (go_roster gB) = Some mB → seen (go_roster gA') mB) ∧
       (∀ mA, Self (go_roster gA) = Some mA → seen (go_roster gB') mA) ∧
       ∀ id, id ≠ ro_selfID (go_roster gA) → id ≠ ro_selfID (go_roster gB) →
         not_forgotten (go_roster gA) id → not_forgotten (go_roster gB) id →
         rankOf (go_roster gA') id = rankOf (go_roster gB') id ∧
         rankOf (go_roster gB') id = rjoin (rankOf (go_roster gB) id) (rankOf (go_roster gA) id)).
Proof.
  intros HA%reached_ok HB%reached_ok Hne. destruct (rk_self _ HA) as (a & Ha & _). destruct (rk_self _ HB) as (b & Hb & _).
  assert (∀ g : Gossip X, roster_ok (go_roster g) → ∃ msg, outgoing hooks g = Some msg ∧
    Self (go_roster g) = Some (gm_From msg) ∧ gm_Members msg = Members (go_roster g)) as Hout.
  { intros g Hg. destruct (rk_self _ Hg) as (ms & Hm & _). unfold outgoing, Self. rewrite Hm. simpl. by eexists. }
  destruct (Hout gA HA) as (msg & Eo & Es & Em).
  destruct (merge_spec hooks msg nowB gB (go_roster gA) HB HA) as (gB' & EB & HB' & EsB & ESB & Hseen & HrB); [congruence|done..|].
  destruct (Hout gB' HB') as (reply & Eo' & Es' & Em'). exists msg, reply, gB'.
  split_and!; [done|unfold HandleGossip; rewrite EB; simpl; by rewrite Eo'|]. intros Hpeer Hping.
  set (rA := ObserveAck (viewID peer) (rd_now rd) (go_roster gA)).
  set (gA1 := mkGossip rA (AddSample (viewID peer) (rd_rtt rd) true (rd_now rd) (go_graph gA)) (go_x gA)).
  assert (roster_ok rA ∧ ro_selfID rA = ro_selfID (go_roster gA)) as [HrA EsA].
  { split; [by apply ObserveAck_ok|]. subst rA. unfold ObserveAck. by case_match. }
  destruct (merge_spec hooks reply (rd_now rd) gA1 (go_roster gB') HrA HB') as (gA' & EA & _ & _ & _ & HseenA & HA'); [change (go_roster gA1) with rA; congruence|done..|].
  exists gA'. split_and!.
  - unfold probe. rewrite Eo. simpl. by rewrite Hping.
  - intros mB HmB. congruence.
  - intros mA HmA. congruence.
  - intros id H1 H2 HfA HfB. specialize (HrB id H2 H1 HfA).
    assert (not_forgotten (go_roster gB') id) as HfB' by exact (joined_not_forgotten _ _ _ id HfB HfA HrB).
    split; [|done]. change (go_roster gA1) with rA in HA'. rewrite HA' by (congruence || done). rewrite HrB.
    assert (rankOf rA id = rankOf (go_roster gA) id) as ->.
    { unfold rankOf. subst rA. rewrite ObserveAck_other by congruence. done. }
    apply rjoin_absorb.
Qed.

(** A node refutes a stale record about itself, a suspicion or an old address: the record it
    gossips afterwards makes every node that had heard nothing later about it see it alive
    under its current address. *)
Theorem refutation_supersedes (rB rC : Roster) (b : memberState) (u : MemberView) (now now' : Z) :
  reached rB → reached rC → ro_selfID rC ≠ ro_selfID rB → ro_members rB !! ro_selfID rB = Some b →
  viewID u = ro_selfID rB → mv_State u ≠ StateAlive ∨ mv_Member u ≠ ms_member b →
  0 ≤ mv_Incarnation u < 2 ^ 64 - 1 → ms_incarnation b ≤ mv_Incarnation u →
  (∀ c, ro_members rC !! ro_selfID rB = Some c → ms_incarnation c ≤ mv_Incarnation u) →
  ∃ rB' own rC', ApplyGossip u now rB = Some rB' ∧ own ∈ Members rB' ∧ viewID own = ro_selfID rB ∧
    ApplyGossip own now' rC = Some rC' ∧ seen rC' (ms_member b).
Proof.
  intros HB%reached_ok HC%reached_ok Hne Hb Hu Hst Hw Hle HrC.
  destruct (rk_self rB HB) as (b' & Hb' & Ha). rewrite Hb in Hb'. injection Hb' as <-.
  pose proof (rk_ids rB HB _ _ Hb) as Eid.
  set (b2 := refute b u now).
  assert (ms_incarnation b2 = mv_Incarnation u + 1 ∧ ms_state b2 = StateAlive ∧ ms_member b2 = ms_member b) as (B1 & B2 & B3).
  { destruct (refute_facts b u now Ha) as [F1 F2]. split_and!; [|done|done]. subst b2. unfold refute.
    assert (negb (bool_decide (mv_State u = StateAlive)) || negb (bool_decide (mv_Member u = ms_member b)) = true) as ->.
    { apply orb_true_iff. rewrite !negb_true_iff, !bool_decide_eq_false. tauto. }
    rewrite (proj2 (Z.leb_le _ _) Hle). cbn [andb]. autorewrite with roster. simpl. rewrite uint64_id by zlia. done. }
  set (rB' := rebuildSnapshots (set_members rB (<[ro_selfID rB := b2]> (ro_members rB)))).
  assert (ApplyGossip u now rB = Some rB') as EA by (unfold ApplyGossip; rewrite bool_decide_true, Hb by done; done).
  assert (viewID (view b2) = ro_selfID rB) as Ev by (unfold viewID; simpl; congruence).
  exists rB', (view b2).
  destruct (ApplyGossip_ok (view b2) now' rC HC) as (rC' & EC & _ & _). exists rC'. split_and!; [done| |done|done|].
  - apply elem_of_snapshot. exists (ro_selfID rB), b2. simpl. rewrite lookup_insert_eq, B2. done.
  - exists (merged (ro_members rC !! ro_selfID rB) (view b2) now'). rewrite Eid.
    rewrite (ApplyGossip_record _ _ _ _ _ EC) by done. rewrite decide_True by done. split; [done|].
    destruct (ro_members rC !! ro_selfID rB) as [c|] eqn:Ec; simpl; [|by rewrite B2].
    specialize (HrC c eq_refl). unfold mergeState. simpl. rewrite B1, (proj2 (Z.ltb_lt _ _)) by lia.
    autorewrite with roster. by rewrite B2.
Qed.

(** What a tick does to the record of another member. *)
Lemma Tick_record now r id ms :
  id ≠ ro_selfID r → ro_members r !! id = Some ms → ro_members (Tick now r) !! id = tickMember (ro_cfg r) now ms.
Proof. intros Hne Hm. simpl. rewrite map_lookup_imap, Hm. simpl. by rewrite bool_decide_false. Qed.

Lemma tick_advances cfg now ms s s' timeout :
  ms_state ms = s → s ≠ s' →
  (s, s', timeout) ∈ [(StateSuspect, StateUnreachable, SuspicionTimeout cfg); (StateUnreachable, StateDead, UnreachableTimeout cfg);
                      (StateDead, StateForgotten, DeadRetention cfg)] →
  0 ≤ ms_stateSince ms → 0 ≤ Milliseconds timeout → ms_stateSince ms + Milliseconds timeout ≤ UnixMilli now < 2 ^ 63 →
  ∃ ms', tickMember cfg now ms = Some ms' ∧ ms_state ms' = s' ∧ ms_stateSince ms' = UnixMilli now.
Proof.
  intros Hs Hss Hin H0 Ht Hn. exists (setState ms s' now).
  assert (ms_state (setState ms s' now) = s' ∧ ms_stateSince (setState ms s' now) = UnixMilli now) as Hx.
  { split; [apply setState_state|]. unfold setState. rewrite bool_decide_false by congruence. done. }
  split; [|done]. unfold tickMember. rewrite int64_id by zlia. rewrite Hs. apply list_elem_of_In in Hin. simpl in Hin.
  destruct Hin as [[= <- <- <-]|[[= <- <- <-]|[[= <- <- <-]|[]]]]; rewrite (proj2 (Z.leb_le _ _)) by lia; done.
Qed.

(** A member that is suspected and never heard of again leaves the roster: ticks at the
    configured distances declare it unreachable, dead and forgotten, after which it is not
    gossiped any more, and then delete its record. *)
Theorem silent_member_reclaimed (r : Roster) (id : bytes) (ms : memberState) (t1 t2 t3 t4 : Z) :
  id ≠ ro_selfID r → ro_members r !! id = Some ms → ms_state ms = StateSuspect → 0 ≤ ms_stateSince ms →
  0 ≤ Milliseconds (SuspicionTimeout (ro_cfg r)) → 0 ≤ Milliseconds (UnreachableTimeout (ro_cfg r)) →
  0 ≤ Milliseconds (DeadRetention (ro_cfg r)) → 0 ≤ Milliseconds (ForgottenRetention (ro_cfg r)) →
  ms_stateSince ms + Milliseconds (SuspicionTimeout (ro_cfg r)) ≤ UnixMilli t1 →
  UnixMilli t1 + Milliseconds (UnreachableTimeout (ro_cfg r)) ≤ UnixMilli t2 →
  UnixMilli t2 + Milliseconds (DeadRetention (ro_cfg r)) ≤ UnixMilli t3 →
  UnixMilli t3 + Milliseconds (ForgottenRetention (ro_cfg r)) ≤ UnixMilli t4 < 2 ^ 63 →
  let r3 := Tick t3 (Tick t2 (Tick t1 r)) in
  (∃ ms3, ro_members r3 !! id = Some ms3 ∧ ms_state ms3 = StateForgotten) ∧ ro_members (Tick t4 r3) !! id = None.
Proof.
  intros Hne Hm Hs H0 HS HU HD HF E1 E2 E3 E4 r3.
  destruct (tick_advances (ro_cfg r) t1 ms _ StateUnreachable _ Hs ltac:(done) ltac:(left) H0 HS) as (ms1 & T1 & S1 & C1); [lia|].
  assert (ro_members (Tick t1 r) !! id = Some ms1) as M1 by (by rewrite (Tick_record t1 r id ms Hne Hm)).
  destruct (tick_advances (ro_cfg r) t2 ms1 _ StateDead _ S1 ltac:(done) ltac:(right; left)) as (ms2 & T2 & S2 & C2); [lia|lia|lia|].
  assert (ro_members (Tick t2 (Tick t1 r)) !! id = Some ms2) as M2 by (by rewrite (Tick_record t2 (Tick t1 r) id ms1 Hne M1)).
  destruct (tick_advances (ro_cfg r) t3 ms2 _ StateForgotten _ S2 ltac:(done) ltac:(right; right; left)) as (ms3 & T3 & S3 & C3); [lia|lia|lia|].
  assert (ro_members r3 !! id = Some ms3) as M3 by (by subst r3; rewrite (Tick_record t3 (Tick t2 (Tick t1 r)) id ms2 Hne M2)).
  split; [by exists ms3|]. rewrite (Tick_record t4 r3 id ms3 Hne M3). unfold tickMember. rewrite S3.
  change (ro_cfg r3) with (ro_cfg r). rewrite int64_id by zlia. by rewrite (proj2 (Z.leb_le _ _)) by lia.
Qed.

(** ** Sample members *)

Definition sampleMember (id addr : bytes) : Member := mkMember (lit "c1") id (lit "u") (lit "n") [] [] [] addr addr [].
Definition memberA : Member := sampleMember (lit "a") (lit "a:1").
Definition memberB : Member := sampleMember (lit "b") (lit "b:1").
Definition memberC : Member := sampleMember (lit "c") (lit "c:1").

Definition rosterOf (self : Member) (es : list rosterEvent) : Roster :=
  default (NewRoster self DefaultLivenessConfig 1) (rosterRun es (NewRoster self DefaultLivenessConfig 1)).

Lemma rosterOf_reached self es : reached (rosterOf self es).
Proof.
  destruct (rosterRun_ok es _ (NewRoster_ok self DefaultLivenessConfig 1)) as (r & E & _).
  exists self, DefaultLivenessConfig, 1, es. unfold rosterOf. by rewrite E.
Qed.

Definition noHooks : Hooks () := mkHooks None None None None None None.
Definition sampleGossip (r : Roster) : Gossip () := mkGossip r (New DefaultConfig) ().

Lemma gossip_order_irrelevant_witness :
  let u := mkView memberC StateSuspect 3 0 in
  let v := mkView memberC StateAlive 4 0 in
  let rA := rosterOf memberA [] in
  let rB := rosterOf memberB [] in
  ∃ rA' rB', applyViews [u; v] 0 rA = Some rA' ∧ applyViews [v; u; v] 0 rB = Some rB' ∧
    rankOf rA' (lit "c") = rankOf rB' (lit "c") ∧ rankOf rA' (lit "c") = Some (4, 0).
Proof.
  intros u v rA rB.
  destruct (gossip_order_irrelevant rA rB [u; v] [v; u; v] 0 0 (lit "c") (rosterOf_reached _ _) (rosterOf_reached _ _))
    as (rA' & rB' & E1 & E2 & E3).
  - vm_compute. congruence.
  - vm_compute. congruence.
  - vm_compute. reflexivity.
  - intros w. rewrite !elem_of_cons. tauto.
  - exists rA', rB'. split_and!; [done..|].
    assert (match applyViews [u; v] 0 rA with Some r => rankOf r (lit "c") = Some (4, 0) | None => False end) as Hx
      by (vm_compute; reflexivity).
    by rewrite E1 in Hx.
Defined.

Lemma gossip_exchange_agrees_witness :
  let gA := sampleGossip (rosterOf memberA [RUpsert memberB 0; RGossip (mkView memberC StateSuspect 3 0) 0]) in
  let gB := sampleGossip (rosterOf memberB [RGossip (mkView memberC StateAlive 2 0) 0]) in
  ∃ msg reply gB' gA', HandleGossip noHooks msg 0 gB = Some (reply, gB') ∧
    probe noHooks (mkRound 0 1000 0 id 3 (λ _ _, Some (Some reply)) (λ _ _ _, None)) (mkView memberB StateAlive 0 0) gA = Some gA' ∧
    rankOf (go_roster gA') (lit "c") = rankOf (go_roster gB') (lit "c").
Proof.
  intros gA gB. set (peer := mkView memberB StateAlive 0 0).
  destruct (gossip_exchange_agrees noHooks gA gB (mkRound 0 1000 0 id 3 (λ _ _, None) (λ _ _ _, None)) peer 0
    (rosterOf_reached _ _) (rosterOf_reached _ _) ltac:(vm_compute; congruence)) as (msg & reply & gB' & Eo & EH & _).
  destruct (gossip_exchange_agrees noHooks gA gB (mkRound 0 1000 0 id 3 (λ _ _, Some (Some reply)) (λ _ _ _, None)) peer 0
    (rosterOf_reached _ _) (rosterOf_reached _ _) ltac:(vm_compute; congruence)) as (msg2 & reply2 & gB2 & Eo2 & EH2 & Hx).
  rewrite Eo in Eo2. injection Eo2 as <-. rewrite EH in EH2. injection EH2 as <- <-.
  destruct (Hx eq_refl eq_refl) as (gA' & Ep & _ & _ & Hr). exists msg, reply, gB', gA'. split_and!; [done..|].
  apply Hr.
  - vm_compute. congruence.
  - vm_compute. congruence.
  - intros ms Hms. assert (ms_state <$> ro_members (go_roster gA) !! lit "c" = Some StateSuspect) as Hs by (vm_compute; reflexivity).
    rewrite Hms in Hs. injection Hs as ->. discriminate.
  - intros ms Hms. assert (ms_state <$> ro_members (go_roster gB) !! lit "c" = Some StateAlive) as Hs by (vm_compute; reflexivity).
    rewrite Hms in Hs. injection Hs as ->. discriminate.
Defined.

Lemma refutation_supersedes_witness :
  let rB := rosterOf memberB [] in
  let rC := rosterOf memberC [RGossip (mkView memberB StateDead 7 0) 0] in
  ∃ rB' own rC', ApplyGossip (mkView memberB StateSuspect 7 0) 0 rB = Some rB' ∧ own ∈ Members rB' ∧
    viewID own = lit "b" ∧ ApplyGossip own 0 rC = Some rC' ∧ seen rC' memberB.
Proof.
  intros rB rC.
  apply (refutation_supersedes rB rC (mkState memberB StateAlive 1 0 0 false) (mkView memberB StateSuspect 7 0) 0 0
    (rosterOf_reached _ _) (rosterOf_reached _ _)).
  - vm_compute. congruence.
  - vm_compute. reflexivity.
  - reflexivity.
  - left. discriminate.
  - simpl. lia.
  - simpl. lia.
  - intros c Hc. assert (ms_incarnation <$> ro_members rC !! lit "b" = Some 7) as Hi by (vm_compute; reflexivity).
    change (ro_selfID rB) with (lit "b") in Hc. rewrite Hc in Hi. injection Hi as ->. simpl. lia.
Defined.

Lemma silent_member_reclaimed_witness :
  let r := rosterOf memberA [RUpsert memberB 0; RSuspect (lit "b") 0] in
  let r3 := Tick 400000000000 (Tick 20000000000 (Tick 4000000000 r)) in
  (∃ ms3, ro_members r3 !! lit "b" = Some ms3 ∧ ms_state ms3 = StateForgotten) ∧
  ro_members (Tick 800000000000 r3) !! lit "b" = None.
Proof.
  intros r r3. destruct (ro_members r !! lit "b") as [ms|] eqn:E; [|exfalso; vm_compute in E; discriminate].
  assert (ms = mkState memberB StateSuspect 0 0 0 false) as ->
    by (vm_compute in E; injection E as <-; vm_compute; reflexivity).
  apply (silent_member_reclaimed r (lit "b") (mkState memberB StateSuspect 0 0 0 false) 4000000000 20000000000 400000000000 800000000000); try exact E;
    vm_compute; (reflexivity || congruence || (split; congruence)).
Defined.

(** ** Where the roster does not do what it says *)

(** The bump over a stale record wraps at 64 bits: a record about the local member with the
    largest incarnation lowers its own, against the stated monotonicity. *)
Theorem refutation_wraps :
  match ApplyGossip (mkView memberB StateSuspect (2 ^ 64 - 1) 0) 0 (rosterOf memberB []) with
  | Some r => rankOf (rosterOf memberB []) (lit "b") = Some (1, 0) ∧ rankOf r (lit "b") = Some (0, 0)
  | None => False
  end.
Proof. vm_compute. done. Qed.

End MembershipSafety.
