(* ===== verification/Placement.v ===== *)
(** * Replica placement (internal/placement/placement.go)

    The choice of nearby durable-replica candidates for a write: hard filters, an in-place
    partition by geography, and an order by score over the latency graph. *)

From S2P Require Import Prelude Bytes Float64 LatencyGraph Membership.

Local Open Scope Z_scope.

Module Placement.
Import Float64 LatencyGraph Membership.

Inductive GeoPolicy := PreferLocalGeo | RequireLocalGeo | LatencyOnly.

Record Policy := mkPolicy {
  TargetNearbyReplicas : Z;
  MinAckNearbyReplicas : Z;
  RequireDistinctNodes : bool;
  GeoOf : GeoPolicy;
  AllowSpilloverForDurability : bool;
  ComplianceGeo : bytes;
}.

Record Candidate := mkCandidate { ca_Member : Member; ca_Score : float64; ca_GeoSpillover : bool }.

Inductive placementErr := ErrNoCandidates | ErrInsufficientLocalReplicas.

(** ** Order by score *)

Definition cmpCandidate (a b : Candidate) : comparison :=
  if negb (feqb (ca_Score a) (ca_Score b)) then cmp_Compare (ca_Score a) (ca_Score b)
  else bcompare (MemberID (ca_Member a)) (MemberID (ca_Member b)).

Definition cand_le (a b : Candidate) : Prop := cmpCandidate a b ≠ Gt.
#[export] Instance cand_le_dec : RelDecision cand_le.
Proof. intros a b. unfold cand_le. apply _. Defined.

Definition sortByScore (cs : list Candidate) : list Candidate := merge_sort cand_le cs.

Definition markSpillover (cs : list Candidate) : list Candidate :=
  (λ c, mkCandidate (ca_Member c) (ca_Score c) true) <$> cs.

(** ** Selection *)

Definition swap {A} (i j : nat) (l : list A) : list A :=
  match l !! i, l !! j with
  | Some x, Some y => <[i := y]> (<[j := x]> l)
  | _, _ => l
  end.

Section Select.
Context (self : Member) (graph : Graph) (policy : Policy).

Definition complianceGeo : bytes := if bool_decide (ComplianceGeo policy = []) then Geo self else ComplianceGeo policy.

(** The hard filters. *)
Definition eligible (mv : MemberView) : bool :=
  negb (bool_decide (MemberID (mv_Member mv) = MemberID self)) && bool_decide (mv_State mv = StateAlive) &&
  negb (RequireDistinctNodes policy && SameNode self (mv_Member mv)).

Definition candidateOf (m : Member) : Candidate :=
  mkCandidate m (Score graph (MemberID m) (of_Z 0) (of_Z 0)
                   (TopologyPenalty (Zone self) (Region self) (Geo self) (Zone m) (Region m) (Geo m))) false.

Definition sameGeo (m : Member) : bool :=
  negb (bool_decide (Geo m = [])) && negb (bool_decide (Geo self = [])) && bool_decide (Geo m = complianceGeo).

(** One member: append it, and swap it into the compliance-geo part. *)
Definition selectStep (acc : list Candidate * nat) (mv : MemberView) : list Candidate * nat :=
  let '(all, nSame) := acc in
  if eligible mv then
    let all := all ++ [candidateOf (mv_Member mv)] in
    if sameGeo (mv_Member mv) then (swap (length all - 1) nSame all, S nSame) else (all, nSame)
  else acc.

Definition Select (members : list MemberView) : res placementErr (list Candidate) :=
  let '(all, nSame) := fold_left selectStep members ([], O) in
  let same := take nSame all in
  let other := drop nSame all in
  match GeoOf policy with
  | RequireLocalGeo =>
      if Z.of_nat (length same) <? MinAckNearbyReplicas policy then Err ErrInsufficientLocalReplicas
      else Ok (sortByScore same)
  | LatencyOnly =>
      match all with
      | [] => Err ErrNoCandidates
      | _ => Ok (sortByScore all)
      end
  | PreferLocalGeo =>
      if AllowSpilloverForDurability policy then
        if (Z.of_nat (length same) <? MinAckNearbyReplicas policy) && bool_decide (all = []) then Err ErrNoCandidates
        else Ok (sortByScore same ++ markSpillover (sortByScore other))
      else if (Z.of_nat (length same) <? MinAckNearbyReplicas policy) && bool_decide (same = []) then Err ErrNoCandidates
      else Ok (sortByScore same)
  end.

(** ** The partition *)

Lemma swap_last_app {A} (same other : list A) (x : A) :
  let l := (same ++ other) ++ [x] in
  ∃ other', swap (length l - 1) (length same) l = same ++ x :: other' ∧ other' ≡ₚ other.
Proof.
  intros l. assert (length l - 1 = length same + length other)%nat as Hl by (subst l; rewrite !length_app; simpl; lia).
  assert (l !! (length l - 1)%nat = Some x) as Hx.
  { rewrite Hl. subst l. rewrite lookup_app_r by (rewrite length_app; lia). rewrite length_app.
    by replace (length same + length other - (length same + length other))%nat with 0%nat by lia. }
  destruct other as [|y other].
  - exists []. split; [|done]. unfold swap. rewrite Hx. simpl in Hl. rewrite Nat.add_0_r in Hl. rewrite Hl in Hx |- *. rewrite Hx.
    rewrite list_insert_id by (by rewrite list_lookup_insert_eq by (eapply lookup_lt_Some; exact Hx)).
    rewrite list_insert_id by done. subst l. by rewrite app_nil_r.
  - assert (l !! length same = Some y) as Hy.
    { subst l. rewrite <-app_assoc, lookup_app_r by lia. by rewrite Nat.sub_diag. }
    exists (other ++ [y]). split; [|by rewrite Permutation_app_comm].
    unfold swap. rewrite Hx, Hy, Hl. subst l. rewrite <-app_assoc. simpl.
    rewrite insert_app_r_alt by lia. rewrite Nat.sub_diag. simpl.
    replace (length same + S (length other))%nat with (length same + (1 + length other))%nat by lia.
    rewrite insert_app_r. simpl. do 2 f_equal.
    by rewrite insert_app_r_alt, Nat.sub_diag by lia.
Qed.

(** The loop keeps the compliance-geo candidates in front. *)
Lemma select_partition members all n :
  fold_left selectStep members ([], O) = (all, n) →
  take n all ≡ₚ candidateOf ∘ mv_Member <$> filter (λ mv, eligible mv && sameGeo (mv_Member mv) = true) members ∧
  drop n all ≡ₚ candidateOf ∘ mv_Member <$> filter (λ mv, eligible mv && negb (sameGeo (mv_Member mv)) = true) members.
Proof.
  assert (∀ ms same other, ∃ same' other', fold_left selectStep ms (same ++ other, length same) = (same' ++ other', length same') ∧
    same' ≡ₚ same ++ (candidateOf ∘ mv_Member <$> filter (λ mv, eligible mv && sameGeo (mv_Member mv) = true) ms) ∧
    other' ≡ₚ other ++ (candidateOf ∘ mv_Member <$> filter (λ mv, eligible mv && negb (sameGeo (mv_Member mv)) = true) ms)) as Hloop.
  { induction ms as [|mv ms IH]; intros same other; [by exists same, other; rewrite !app_nil_r|]. cbn [fold_left]. rewrite !filter_cons.
    unfold selectStep at 2. destruct (eligible mv) eqn:Ee; cbn [andb].
    2: { destruct (IH same other) as (s' & o' & E & Hs & Ho). exists s', o'. split_and!; [done..]. }
    destruct (sameGeo (mv_Member mv)) eqn:Es; cbn [negb].
    - destruct (swap_last_app same other (candidateOf (mv_Member mv))) as (o1 & -> & Hp).
      destruct (IH (same ++ [candidateOf (mv_Member mv)]) o1) as (s' & o' & E & Hs & Ho).
      exists s', o'. rewrite length_app in E. simpl in E. rewrite Nat.add_1_r, <-app_assoc in E. simpl in E.
      split_and!; [done| |by rewrite Ho, Hp]. rewrite Hs, <-app_assoc. done.
    - destruct (IH same (other ++ [candidateOf (mv_Member mv)])) as (s' & o' & E & Hs & Ho).
      exists s', o'. rewrite app_assoc in E. split_and!; [done|done|]. rewrite Ho, <-app_assoc. done. }
  intros E. destruct (Hloop members [] []) as (s' & o' & E' & Hs & Ho). simpl in E'. rewrite E in E'. injection E' as -> ->.
  rewrite take_app_length, drop_app_length. done.
Qed.

Lemma partition_filter {A} (p q : A → bool) (l : list A) :
  filter (λ x, p x && q x = true) l ++ filter (λ x, p x && negb (q x) = true) l ≡ₚ filter (λ x, p x = true) l.
Proof.
  induction l as [|x l IH]; [done|]. rewrite !filter_cons. destruct (p x), (q x); cbn [andb negb]; try done.
  - simpl. by rewrite IH.
  - simpl. rewrite <-Permutation_middle. by rewrite IH.
Qed.

(** The candidates are eligible members, none of them twice. *)
Lemma Select_members members cands :
  Select members = Ok cands → ca_Member <$> cands ⊆+ mv_Member <$> filter (λ mv, eligible mv = true) members.
Proof.
  unfold Select. destruct (fold_left _ members ([], O)) as [all n] eqn:E. destruct (select_partition _ _ _ E) as [Hs Ho].
  pose proof (partition_filter eligible (λ mv, sameGeo (mv_Member mv)) members) as Hp. cbn beta in Hp.
  assert (∀ ms : list MemberView, ca_Member <$> (candidateOf ∘ mv_Member <$> ms) = mv_Member <$> ms) as Hc.
  { intros ms. rewrite <-list_fmap_compose. done. }
  apply (fmap_Permutation ca_Member) in Hs, Ho. rewrite Hc in Hs, Ho.
  assert (∀ cs, ca_Member <$> sortByScore cs ≡ₚ ca_Member <$> cs) as Hsort by (intros cs; unfold sortByScore; by rewrite merge_sort_Permutation).
  assert (∀ cs, ca_Member <$> markSpillover cs = ca_Member <$> cs) as Hm.
  { intros cs. unfold markSpillover. rewrite <-list_fmap_compose. done. }
  assert ((ca_Member <$> all) ≡ₚ mv_Member <$> filter (λ mv, eligible mv = true) members) as Hall.
  { rewrite <-(take_drop n all), fmap_app, Hs, Ho, <-fmap_app. by rewrite Hp. }
  assert ((ca_Member <$> take n all) ⊆+ mv_Member <$> filter (λ mv, eligible mv = true) members) as Hsame.
  { rewrite <-Hall. rewrite <-(take_drop n all) at 2. rewrite fmap_app. apply submseteq_inserts_r. done. }
  repeat case_match; intros [= <-]; rewrite ?fmap_app, ?Hm, ?Hsort; try done.
  - rewrite <-fmap_app, take_drop, Hall. done.
  - rewrite Hall. done.
Qed.

End Select.

(** ** The order *)

(** Candidates compare as the pairs of their score and, unless that is a NaN, their id. *)
Definition candKey (c : Candidate) : ((Z * Z) * Z) * bytes :=
  (fkey (ca_Score c), if is_nan (ca_Score c) then [] else MemberID (ca_Member c)).

Lemma cmpCandidate_key a b : cmpCandidate a b = cmp_pair key_compare bcompare (candKey a) (candKey b).
Proof.
  unfold cmpCandidate, cmp_pair, candKey. cbn [fst snd]. rewrite feqb_compare, <-cmp_Compare_key. unfold cmp_Compare.
  destruct (is_nan (ca_Score a)), (is_nan (ca_Score b)); cbn [negb andb]; try done. by repeat case_match.
Qed.

#[export] Instance cand_le_total : Total cand_le.
Proof.
  intros a b. unfold cand_le. rewrite !cmpCandidate_key.
  rewrite (cmp_antisym (cmp:=cmp_pair key_compare bcompare) (candKey a) (candKey b)). destruct (cmp_pair _ _ _ _); naive_solver.
Qed.
#[export] Instance cand_le_trans : Transitive cand_le.
Proof. intros a b c. unfold cand_le. rewrite !cmpCandidate_key. apply (cmp_le_trans (cmp_pair key_compare bcompare)). Qed.

Lemma sortByScore_sorted cs : StronglySorted cand_le (sortByScore cs).
Proof. apply StronglySorted_merge_sort; apply _. Qed.

(** ** Properties *)

(** The members the policy admits, in the compliance geography or outside it. *)
Definition admitted (self : Member) (graph : Graph) (policy : Policy) (members : list MemberView) (near : bool) : list Candidate :=
  candidateOf self graph ∘ mv_Member <$>
    filter (λ mv, eligible self policy mv && (if near then sameGeo self policy (mv_Member mv)
                                              else negb (sameGeo self policy (mv_Member mv))) = true) members.

(** What a selection may be: the admitted members in order of score, the compliance
    geography first; never one outside it when the policy requires it or forbids spillover;
    and a failure only when there are not enough. *)
Definition selection (self : Member) (graph : Graph) (policy : Policy) (members : list MemberView)
    (r : res placementErr (list Candidate)) : Prop :=
  let near := admitted self graph policy members true in
  let far := admitted self graph policy members false in
  match GeoOf policy, r with
  | RequireLocalGeo, Ok cs =>
      MinAckNearbyReplicas policy ≤ Z.of_nat (length cs) ∧ cs ≡ₚ near ∧ StronglySorted cand_le cs
  | RequireLocalGeo, Err e => e = ErrInsufficientLocalReplicas ∧ Z.of_nat (length near) < MinAckNearbyReplicas policy
  | LatencyOnly, Ok cs => cs ≠ [] ∧ cs ≡ₚ near ++ far ∧ StronglySorted cand_le cs
  | PreferLocalGeo, Ok cs =>
      ∃ cs1 cs2, cs = cs1 ++ markSpillover cs2 ∧ cs1 ≡ₚ near ∧ StronglySorted cand_le cs1 ∧
        if AllowSpilloverForDurability policy then cs2 ≡ₚ far ∧ StronglySorted cand_le cs2 else cs2 = []
  | _, Err e => e = ErrNoCandidates ∧ near = [] ∧ (far = [] ∨ GeoOf policy = PreferLocalGeo ∧ AllowSpilloverForDurability policy = false)
  end.

(** Placement selects exactly the admitted members. *)
Theorem select_admitted (self : Member) (graph : Graph) (policy : Policy) (members : list MemberView) :
  selection self graph policy members (Select self graph policy members).
Proof.
  unfold Select. destruct (fold_left _ members ([], O)) as [all n] eqn:E.
  destruct (select_partition _ _ _ _ _ _ E) as [Hs Ho]. set (same := take n all) in *. set (other := drop n all) in *.
  assert (all = same ++ other) as Eall by (symmetry; apply take_drop).
  change (same ≡ₚ admitted self graph policy members true) in Hs.
  change (other ≡ₚ admitted self graph policy members false) in Ho.
  assert (∀ cs, sortByScore cs ≡ₚ cs) as Hp by (intros; apply merge_sort_Permutation).
  unfold selection. destruct (GeoOf policy) eqn:Eg.
  - destruct (AllowSpilloverForDurability policy).
    + destruct (_ && _) eqn:Eb; [|exists (sortByScore same), (sortByScore other); split_and!; [done| |apply sortByScore_sorted| |apply sortByScore_sorted]; by rewrite Hp].
      apply andb_true_iff in Eb as [_ ->%bool_decide_eq_true]. symmetry in Eall. apply app_eq_nil in Eall as [E1 E2].
      rewrite E1 in Hs. rewrite E2 in Ho. apply Permutation_nil_l in Hs, Ho. auto.
    + destruct (_ && _) eqn:Eb; [|exists (sortByScore same), []; rewrite app_nil_r; split_and!; [done|by rewrite Hp|apply sortByScore_sorted|done]].
      apply andb_true_iff in Eb as [_ E1%bool_decide_eq_true]. rewrite E1 in Hs. apply Permutation_nil_l in Hs. auto 10.
  - destruct (Z.ltb_spec (Z.of_nat (length same)) (MinAckNearbyReplicas policy)) as [Hlt|Hge].
    + split; [done|]. by rewrite <-Hs.
    + split_and!; [by rewrite Hp|by rewrite Hp|apply sortByScore_sorted].
  - destruct all as [|c all']; [|].
    + symmetry in Eall. apply app_eq_nil in Eall as [E1 E2]. rewrite E1 in Hs. rewrite E2 in Ho. apply Permutation_nil_l in Hs, Ho. auto.
    + split_and!; [|by rewrite Hp, Eall, Hs, Ho|apply sortByScore_sorted].
      intros En. assert (c :: all' ≡ₚ []) as Hx by (by rewrite <-En, Hp). by apply Permutation_nil_r in Hx.
Qed.

End Placement.
