(* ===== verification/LocalRepl.v ===== *)
(** * Replication inside a cluster (internal/replication/local, internal/grpcsrv/replication.go)

    The receiver of replica writes with its dedupe cache, the directory of durable holders,
    the fill to the target count, the repair queue and engine, the coalescing of replica
    writes, and the handlers of the replication service.

    What a node cannot see of the others is a world [W]: a call to a peer answers and changes
    it. The roster, the latency graph, the clock and the own record store are read from it. *)

From S2P Require Import Prelude Bytes Hlc Version Conflict Storage Command Records RecordStore.
From S2P Require Import Float64 LatencyGraph Membership Placement.

Local Open Scope Z_scope.

Module LocalRepl.
Import Hlc Version Conflict Storage Command Records RecordStore LatencyGraph Membership Placement.

(** ** Dedupe by mutation id *)

Record Idempotency := mkIdem { im_seen : gmap bytes Version; im_order : list bytes; im_cap : Z }.

Definition NewIdempotency (capacity : Z) : Idempotency :=
  mkIdem ∅ [] (if capacity <=? 0 then 8192 else capacity).

Definition idemCheck (mutationID : bytes) (i : Idempotency) : option Version := im_seen i !! mutationID.

(** The oldest id leaves a full cache; its capacity is positive, so there is one. *)
Definition idemRecord (mutationID : bytes) (v : Version) (i : Idempotency) : Idempotency :=
  match im_seen i !! mutationID with
  | Some _ => i
  | None =>
      let '(seen, order) :=
        if im_cap i <=? Z.of_nat (length (im_order i))
        then match im_order i with
             | oldest :: rest => (delete oldest (im_seen i), rest)
             | [] => (im_seen i, [])
             end
        else (im_seen i, im_order i) in
      mkIdem (<[mutationID := v]> seen) (order ++ [mutationID]) (im_cap i)
  end.

(** ** Durable holders of a key *)

Record HolderDirectory := mkHolders { hd_self : bytes; hd_holders : gmap bytes (gmap bytes Version) }.

Definition NewHolderDirectory (self : bytes) : HolderDirectory := mkHolders self ∅.

Definition keyID (ns key : bytes) : bytes := ns ++ [x00] ++ key.

Fixpoint splitKeyID (id : bytes) : bytes * bytes :=
  match id with
  | [] => ([], [])
  | b :: rest => if bool_decide (b = x00) then ([], rest) else let '(ns, key) := splitKeyID rest in (b :: ns, key)
  end.

Definition holdersAt (d : HolderDirectory) (id : bytes) : gmap bytes Version := default ∅ (hd_holders d !! id).

Definition RecordHolder (ns key member : bytes) (v : Version) (d : HolderDirectory) : HolderDirectory :=
  let id := keyID ns key in
  mkHolders (hd_self d) (<[id := <[member := v]> (holdersAt d id)]> (hd_holders d)).

Definition RemoveHolder (ns key member : bytes) (d : HolderDirectory) : HolderDirectory :=
  let id := keyID ns key in
  match hd_holders d !! id with
  | None => d
  | Some m =>
      let m := delete member m in
      mkHolders (hd_self d) (if bool_decide (m = ∅) then delete id (hd_holders d) else <[id := m]> (hd_holders d))
  end.

Definition Holders (ns key : bytes) (d : HolderDirectory) : list bytes :=
  merge_sort bytes_le (map_to_list (holdersAt d (keyID ns key))).*1.

Definition Count (ns key : bytes) (d : HolderDirectory) : Z := Z.of_nat (size (holdersAt d (keyID ns key))).

Definition aliveIn (isAlive : option (bytes → bool)) (member : bytes) : bool :=
  match isAlive with None => true | Some f => f member end.

Definition UnderReplicatedEstimate (targetHolders : Z) (isAlive : option (bytes → bool)) (d : HolderDirectory) : Z :=
  Z.of_nat (length (filter (λ m : gmap bytes Version,
    Z.of_nat (length (filter (λ member, aliveIn isAlive member = true) (map_to_list m).*1)) < targetHolders)
    (map_to_list (hd_holders d)).*2)).

Definition keysHeldBy (member : bytes) (d : HolderDirectory) : list bytes :=
  merge_sort bytes_le (filter (λ id, is_Some (holdersAt d id !! member)) (map_to_list (hd_holders d)).*1).

(** ** Replica writes *)

Record StoreReplicaRequest := mkReplicaReq {
  rq_Namespace : bytes;
  rq_Key : bytes;
  rq_Record : StoredRecord;
  rq_CoordinatorMemberId : bytes;
  rq_MutationId : bytes;
}.

Record StoreReplicaResponse := mkReplicaResp {
  rp_Durable : bool;
  rp_MemberId : bytes;
  rp_AppliedVersion : option ProtoVersion;
}.

Definition BuildRequest (ns key : bytes) (rec : StoredRecord) (coordinatorMemberID : bytes) : StoreReplicaRequest :=
  mkReplicaReq ns key rec coordinatorMemberID (MutationID (recVersion rec)).

Definition kindOf (rec : StoredRecord) : Z := if sr_tombstone rec then kindDelete else kindPut.

(** A receiver: its record store, its dedupe cache, and the keys it has announced through
    [onStored], newest first. *)
Record Receiver (L : Type) := mkReceiver {
  rv_store : Store L;
  rv_memberID : bytes;
  rv_idem : Idempotency;
  rv_stored : list (bytes * bytes);
}.
Arguments mkReceiver {L}.
Arguments rv_store {L}.
Arguments rv_memberID {L}.
Arguments rv_idem {L}.
Arguments rv_stored {L}.

Section Receiver.
Context {L : Type} `{LocalStore L} `{Proto}.

Definition NewReceiver (store : Store L) (memberID : bytes) (idem : option Idempotency) : Receiver L :=
  mkReceiver store memberID (default (NewIdempotency 0) idem) [].

Definition ReceiverApply (req : StoreReplicaRequest) (r : Receiver L) : res recErr StoreReplicaResponse * Receiver L :=
  match idemCheck (rq_MutationId req) (rv_idem r) with
  | Some v => (Ok (mkReplicaResp true (rv_memberID r) (Some (ToProto v))), r)
  | None =>
      let rec := rq_Record req in
      match Apply rec (kindOf rec) (rv_store r) with
      | (Err e, st) => (Err e, mkReceiver st (rv_memberID r) (rv_idem r) (rv_stored r))
      | (Ok winner, st) =>
          (Ok (mkReplicaResp true (rv_memberID r) (Some (ToProto winner))),
           mkReceiver st (rv_memberID r) (idemRecord (rq_MutationId req) (recVersion rec) (rv_idem r))
             (if sr_tombstone rec then rv_stored r else (rq_Namespace req, rq_Key req) :: rv_stored r))
      end
  end.

(** The handlers of the replication service. A batch applies its entries concurrently; [order]
    is the order in which they take the record store. An entry that fails answers that it is
    not durable, and the answers keep the positions of the requests. *)
Definition StoreReplicaBatch (order : list nat) (reqs : list StoreReplicaRequest) (r : Receiver L)
    : list StoreReplicaResponse * Receiver L :=
  let step acc i :=
    let '(resps, r) := acc in
    match reqs !! i with
    | None => acc
    | Some req =>
        let '(resp, r) := ReceiverApply req r in
        (<[i := match resp with
                | Ok p => p
                | Err _ => mkReplicaResp false (rv_memberID r) None
                end]> resps, r)
    end in
  fold_left step order (replicate (length reqs) (mkReplicaResp false (rv_memberID r) None), r).

Definition FetchReplica (ns key : bytes) (st : Store L) : res recErr (option StoredRecord) := GetRecord ns key st.

Definition backfillMaxPage : Z := 1024.

Definition Backfill (ns : bytes) (cursor : option bytes) (limit : Z) (st : Store L)
    : res recErr (list StoredRecord * option bytes) :=
  let limit := if (limit <=? 0) || (backfillMaxPage <? limit) then backfillMaxPage else limit in
  ScanRecordsFrom ns cursor limit st.

Definition ScanLocal (ns : bytes) (start stop : option bytes) (limit nowMs : Z) (st : Store L)
    : res recErr (list ScanRow) := ScanRange ns start stop limit nowMs st.

End Receiver.

(** ** Coalescing of replica writes *)

Definition batchMaxOps : nat := 128.

(** One turn of the flusher of a destination: the group it takes and the queue it leaves. *)
Definition takeGroup {A} (queue : list A) : list A * list A :=
  if (batchMaxOps <? length queue)%nat then (take batchMaxOps queue, drop batchMaxOps queue) else (queue, []).

Inductive rpcErr := Unimplemented | OtherRPC.

(** What each caller of a group receives. *)
Definition ship {W} (batch : list StoreReplicaRequest → W → res rpcErr (list StoreReplicaResponse) * W)
    (unary : StoreReplicaRequest → W → res rpcErr StoreReplicaResponse * W)
    (group : list StoreReplicaRequest) (w : W) : list (res rpcErr StoreReplicaResponse) * W :=
  let '(r, w) := batch group w in
  match r with
  | Ok resps =>
      (if (length resps =? length group)%nat then Ok <$> resps else (λ _, Err OtherRPC) <$> group, w)
  | Err Unimplemented =>
      fold_left (λ acc req, let '(out, w) := acc in let '(r, w) := unary req w in (out ++ [r], w)) group ([], w)
  | Err e => ((λ _, Err e) <$> group, w)
  end.

(** ** The repair queue: a heap by deficit, then age *)

(** The position field of an item is written by the heap and never read; it is left out. *)
Record RepairItem := mkItem {
  ri_Namespace : bytes;
  ri_Key : bytes;
  ri_Record : option StoredRecord;
  ri_Deficit : Z;
  ri_EnqueuedAtMs : Z;
}.

Abbreviation repairQueue := (list RepairItem).

Definition less (a b : RepairItem) : bool :=
  if negb (ri_Deficit a =? ri_Deficit b) then ri_Deficit b <? ri_Deficit a
  else ri_EnqueuedAtMs a <? ri_EnqueuedAtMs b.

Definition Less (q : repairQueue) (i j : nat) : bool :=
  match q !! i, q !! j with
  | Some a, Some b => less a b
  | _, _ => false
  end.

Open Scope nat_scope.

(** container/heap; the fuel is the length of the queue. *)
Fixpoint up (fuel j : nat) (q : repairQueue) : repairQueue :=
  match fuel with
  | O => q
  | S fuel =>
      let i := (j - 1) / 2 in
      if (i =? j) || negb (Less q j i) then q else up fuel i (swap i j q)
  end.

Fixpoint down (fuel i n : nat) (q : repairQueue) : repairQueue :=
  match fuel with
  | O => q
  | S fuel =>
      let j1 := 2 * i + 1 in
      if n <=? j1 then q
      else
        let j2 := j1 + 1 in
        let j := if (j2 <? n) && Less q j2 j1 then j2 else j1 in
        if negb (Less q j i) then q else down fuel j n (swap i j q)
  end.

Definition heapPush (x : RepairItem) (q : repairQueue) : repairQueue :=
  let q := q ++ [x] in up (length q) (length q - 1) q.

Definition heapPop (q : repairQueue) : option (RepairItem * repairQueue) :=
  let n := length q - 1 in
  let q := down (length q) 0 n (swap 0 n q) in
  it ← q !! n;
  Some (it, take n q).

Close Scope nat_scope.

(** ** Fill and repair *)

(** What the engine reads and calls. *)
Record Cluster (W : Type) := mkCluster {
  cl_Members : W → list MemberView;
  cl_Graph : W → Graph;
  cl_IsAlive : W → bytes → bool;
  cl_NowMs : W → Z;
  cl_GetRecord : bytes → bytes → W → res recErr (option StoredRecord);
  cl_ScanRecordsFrom : bytes → option bytes → Z → W → res recErr (list StoredRecord * option bytes);
  cl_StoreReplica : Member → StoreReplicaRequest → W → option StoreReplicaResponse * W;
}.
Arguments mkCluster {W}.
Arguments cl_Members {W}.
Arguments cl_Graph {W}.
Arguments cl_IsAlive {W}.
Arguments cl_NowMs {W}.
Arguments cl_GetRecord {W}.
Arguments cl_ScanRecordsFrom {W}.
Arguments cl_StoreReplica {W}.

Record FanoutJob := mkJob { fj_Namespace : bytes; fj_Key : bytes; fj_Record : StoredRecord }.

(** The state of a node that fill and repair change: the world, the holders, the repair queue
    with the ids queued, the cursors of the sweep, and the pending fill jobs. *)
Record Repl (W : Type) := mkRepl {
  re_world : W;
  re_holders : HolderDirectory;
  re_queue : repairQueue;
  re_pending : gset bytes;
  re_cursor : gmap bytes (option bytes);
  re_jobs : list FanoutJob;
}.
Arguments mkRepl {W}.
Arguments re_world {W}.
Arguments re_holders {W}.
Arguments re_queue {W}.
Arguments re_pending {W}.
Arguments re_cursor {W}.
Arguments re_jobs {W}.

Definition countAlive (members : list MemberView) : Z :=
  Z.of_nat (length (filter (λ m, mv_State m = StateAlive) members)).

Definition capTarget (target : Z) (members : list MemberView) : Z :=
  let alive := countAlive members in if alive <? target then alive else target.

Definition fanoutQueueCap : nat := 4096.

Section Repair.
Context {W : Type} (cl : Cluster W) (self : Member) (policy : Policy) (everywhere : option (bytes → bool)).

Definition targetHolders : Z := TargetNearbyReplicas policy + 1.

Definition isEverywhere (ns : bytes) : bool := match everywhere with None => false | Some f => f ns end.

Definition set_world (s : Repl W) (w : W) : Repl W :=
  mkRepl w (re_holders s) (re_queue s) (re_pending s) (re_cursor s) (re_jobs s).
Definition set_holders (s : Repl W) (d : HolderDirectory) : Repl W :=
  mkRepl (re_world s) d (re_queue s) (re_pending s) (re_cursor s) (re_jobs s).
Definition set_queue (s : Repl W) (q : repairQueue) (p : gset bytes) : Repl W :=
  mkRepl (re_world s) (re_holders s) q p (re_cursor s) (re_jobs s).
Definition set_cursor (s : Repl W) (c : gmap bytes (option bytes)) : Repl W :=
  mkRepl (re_world s) (re_holders s) (re_queue s) (re_pending s) c (re_jobs s).
Definition set_jobs (s : Repl W) (js : list FanoutJob) : Repl W :=
  mkRepl (re_world s) (re_holders s) (re_queue s) (re_pending s) (re_cursor s) js.

Definition aliveMemberCount (s : Repl W) : Z := countAlive (cl_Members cl (re_world s)).

Definition effectiveTarget (s : Repl W) : Z := capTarget targetHolders (cl_Members cl (re_world s)).

Definition effectiveTargetFor (ns : bytes) (s : Repl W) : Z :=
  if isEverywhere ns then aliveMemberCount s else effectiveTarget s.

Definition aliveHolderCount (ns key : bytes) (s : Repl W) : Z :=
  Z.of_nat (length (filter (λ h, cl_IsAlive cl (re_world s) h = true) (Holders ns key (re_holders s)))).

Definition RepairEnqueue (item : RepairItem) (s : Repl W) : Repl W :=
  let deficit := effectiveTarget s - aliveHolderCount (ri_Namespace item) (ri_Key item) s in
  if deficit <=? 0 then s
  else
    let id := keyID (ri_Namespace item) (ri_Key item) in
    if bool_decide (id ∈ re_pending s) then s
    else set_queue s
           (heapPush (mkItem (ri_Namespace item) (ri_Key item) (ri_Record item) deficit (cl_NowMs cl (re_world s))) (re_queue s))
           ({[id]} ∪ re_pending s).

Definition newItem (ns key : bytes) (rec : StoredRecord) : RepairItem := mkItem ns key (Some rec) 0 0.

Definition OnMemberDead (memberID : bytes) (s : Repl W) : Repl W :=
  fold_left (λ s id,
    let '(ns, key) := splitKeyID id in
    let s := set_holders s (RemoveHolder ns key memberID (re_holders s)) in
    match cl_GetRecord cl ns key (re_world s) with
    | Ok (Some rec) => RepairEnqueue (newItem ns key rec) s
    | _ => s
    end) (keysHeldBy memberID (re_holders s)) s.

Definition QueueDepth (s : Repl W) : Z := Z.of_nat (length (re_queue s)).

Definition pop (s : Repl W) : option (RepairItem * Repl W) :=
  match re_queue s with
  | [] => None
  | _ =>
      '(it, q) ← heapPop (re_queue s);
      Some (it, set_queue s q (re_pending s ∖ {[keyID (ri_Namespace it) (ri_Key it)]}))
  end.

Definition isHolder (ns key member : bytes) (s : Repl W) : bool := bool_decide (member ∈ Holders ns key (re_holders s)).

Definition repairCandidates (ns : bytes) (s : Repl W) : list Candidate :=
  let members := cl_Members cl (re_world s) in
  if isEverywhere ns then
    (λ m, mkCandidate (mv_Member m) (Float64.of_Z 0) false) <$>
      filter (λ m, mv_State m = StateAlive ∧ viewID m ≠ MemberID self) members
  else match Select self (cl_Graph cl (re_world s)) policy members with
       | Ok cands => cands
       | Err _ => []
       end.

(** One push to a member that is not a holder yet; [true] when it answered durably. *)
Definition push (ns key : bytes) (rec : StoredRecord) (m : Member) (s : Repl W) : bool * Repl W :=
  let '(resp, w) := cl_StoreReplica cl m (BuildRequest ns key rec (MemberID self)) (re_world s) in
  let s := set_world s w in
  if match resp with Some p => rp_Durable p | None => false end
  then (true, set_holders s (RecordHolder ns key (MemberID m) (recVersion rec) (re_holders s)))
  else (false, s).

(** Push to the candidates in order until [enough] holds; [true] when it does. *)
Fixpoint pushAll (enough : Repl W → bool) (ns key : bytes) (rec : StoredRecord) (cands : list Candidate) (s : Repl W)
    : bool * Repl W :=
  match cands with
  | [] => (false, s)
  | c :: cands =>
      if isHolder ns key (MemberID (ca_Member c)) s then pushAll enough ns key rec cands s
      else
        let '(ok, s) := push ns key rec (ca_Member c) s in
        if ok && enough s then (true, s) else pushAll enough ns key rec cands s
  end.

(** The part of [ProcessOne] once the record is known. *)
Definition repairRecord (ns key : bytes) (rec : StoredRecord) (target : Z) (s : Repl W) : Repl W :=
  let enough s := target <=? aliveHolderCount ns key s in
  let s := set_holders s (RecordHolder ns key (MemberID self) (recVersion rec) (re_holders s)) in
  if enough s then s
  else
    let '(done, s) := pushAll enough ns key rec (repairCandidates ns s) s in
    if done then s
    else if negb (enough s) then RepairEnqueue (newItem ns key rec) s else s.

Definition ProcessOne (s : Repl W) : bool * Repl W :=
  match pop s with
  | None => (false, s)
  | Some (it, s) =>
      let target := effectiveTargetFor (ri_Namespace it) s in
      if target <=? aliveHolderCount (ri_Namespace it) (ri_Key it) s then (true, s)
      else
        match ri_Record it with
        | Some rec => (true, repairRecord (ri_Namespace it) (ri_Key it) rec target s)
        | None =>
            match cl_GetRecord cl (ri_Namespace it) (ri_Key it) (re_world s) with
            | Ok (Some rec) => (true, repairRecord (ri_Namespace it) (ri_Key it) rec target s)
            | _ => (true, s)
            end
        end
  end.

Definition BackfillOnce (namespaces : list bytes) (batch : Z) (s : Repl W) : Repl W :=
  let batch := if batch <=? 0 then 1024 else batch in
  fold_left (λ s ns,
    match cl_ScanRecordsFrom cl ns (default None (re_cursor s !! ns)) batch (re_world s) with
    | Err _ => s
    | Ok (recs, next) =>
        fold_left (λ s rec, RepairEnqueue (newItem ns (sr_LogicalKey rec) rec) s) recs
          (set_cursor s (<[ns := next]> (re_cursor s)))
    end) namespaces s.

(** *** Fill after a write *)

Definition FanoutEnqueue (job : FanoutJob) (s : Repl W) : Repl W :=
  if (length (re_jobs s) <? fanoutQueueCap)%nat then set_jobs s (re_jobs s ++ [job])
  else RepairEnqueue (newItem (fj_Namespace job) (fj_Key job) (fj_Record job)) s.

Definition fillEverywhere (job : FanoutJob) (s : Repl W) : Repl W :=
  let '(missed, s) :=
    fold_left (λ acc m,
      let '(missed, s) := acc in
      if negb (bool_decide (mv_State m = StateAlive)) || bool_decide (viewID m = MemberID self) then acc
      else if isHolder (fj_Namespace job) (fj_Key job) (viewID m) s then acc
      else
        let '(ok, s) := push (fj_Namespace job) (fj_Key job) (fj_Record job) (mv_Member m) s in
        (missed || negb ok, s)) (cl_Members cl (re_world s)) (false, s) in
  if missed then RepairEnqueue (newItem (fj_Namespace job) (fj_Key job) (fj_Record job)) s else s.

Definition Fill (job : FanoutJob) (s : Repl W) : Repl W :=
  if isEverywhere (fj_Namespace job) then fillEverywhere job s
  else
    let target := capTarget targetHolders (cl_Members cl (re_world s)) in
    let count s := Count (fj_Namespace job) (fj_Key job) (re_holders s) in
    if target <=? count s then s
    else
      let '(done, s) :=
        match Select self (cl_Graph cl (re_world s)) policy (cl_Members cl (re_world s)) with
        | Err _ => (false, s)
        | Ok cands => pushAll (λ s, target <=? count s) (fj_Namespace job) (fj_Key job) (fj_Record job) cands s
        end in
      if done then s
      else if count s <? target then RepairEnqueue (newItem (fj_Namespace job) (fj_Key job) (fj_Record job)) s
      else s.

(** One turn of the worker. *)
Definition FanoutRun (s : Repl W) : Repl W :=
  match re_jobs s with
  | [] => s
  | job :: jobs => Fill job (set_jobs s jobs)
  end.

End Repair.

(** ** Anti-entropy between the nodes of a cluster *)

Section Sync.
Context {L : Type} `{LocalStore L} `{Proto} (sha256 : bytes → bytes).

Definition digestInput (rec : StoredRecord) : bytes :=
  let v := recVersion rec in
  put_u64 (lenZ (sr_LogicalKey rec)) ++ sr_LogicalKey rec ++ put_u64 (HLCPhysicalMs v) ++
  put_u32 (HLCLogical v) ++ put_u64 (WriterSequence v) ++ WriterClusterID v ++ WriterMemberID v.

Definition DigestRecords (recs : list StoredRecord) : bytes := sha256 (mjoin (digestInput <$> recs)).

Definition RangeDigest (ns : bytes) (start stop : option bytes) (st : Store L) : res recErr (bytes * Z) :=
  do? recs ← ScanRecords ns start stop st;
  Ok (DigestRecords recs, Z.of_nat (length recs)).

Definition alivePeerAddrs (self : Member) (members : list MemberView) : list bytes :=
  (λ m, DataAddr (mv_Member m)) <$> filter (λ m, mv_State m = StateAlive ∧ viewID m ≠ MemberID self) members.

Record IntraAntiEntropy := mkAE { ae_store : Store L; ae_cursor : gmap bytes (option bytes) }.

(** The calls of one pass: the record a peer answers with, and its digest of a range when the
    digest phase is on; [None] when the peer has no record or cannot answer. *)
Context (fetch : bytes → bytes → bytes → option StoredRecord).
Context (digest : option (bytes → bytes → option bytes → option bytes → option bytes)).

(** The best record of a key among the local one and those of the peers. *)
Definition bestOf (peers : list bytes) (ns : bytes) (rec : StoredRecord) : bool * StoredRecord :=
  fold_left (λ acc addr,
    let '(changed, best) := acc in
    match fetch addr ns (sr_LogicalKey rec) with
    | Some pr => if 0 <? Version_Compare (recVersion pr) (recVersion best) then (true, pr) else acc
    | None => acc
    end) peers (false, rec).

Definition adopt (peers : list bytes) (ns : bytes) (acc : Z * Store L) (rec : StoredRecord) : Z * Store L :=
  let '(updated, st) := acc in
  match bestOf peers ns rec with
  | (false, _) => acc
  | (true, best) =>
      match Apply best (kindOf best) st with
      | (Ok _, st) => (updated + 1, st)
      | (Err _, st) => (updated, st)
      end
  end.

(** The peers whose digest of the scanned range differs or is missing. *)
Definition fetchPeers (peers : list bytes) (ns : bytes) (start next : option bytes) (recs : list StoredRecord) : list bytes :=
  match digest, recs with
  | Some d, _ :: _ => filter (λ addr, d addr ns start next ≠ Some (DigestRecords recs)) peers
  | _, _ => peers
  end.

Definition reconcileNS (batch : Z) (peers : list bytes) (acc : Z * IntraAntiEntropy) (ns : bytes) : Z * IntraAntiEntropy :=
  let '(updated, a) := acc in
  let start := default None (ae_cursor a !! ns) in
  match ScanRecordsFrom ns start batch (ae_store a) with
  | Err _ => acc
  | Ok (recs, next) =>
      let '(updated, st) := fold_left (adopt (fetchPeers peers ns start next recs) ns) recs (updated, ae_store a) in
      (updated, mkAE st (<[ns := next]> (ae_cursor a)))
  end.

Definition IntraReconcileOnce (batch : Z) (namespaces peers : list bytes) (a : IntraAntiEntropy) : Z * IntraAntiEntropy :=
  match peers with
  | [] => (0, a)
  | _ => fold_left (reconcileNS batch peers) namespaces (0, a)
  end.

(** ** Bootstrap of a joining node *)

Definition bootstrapPage : Z := 512.

Context (page : bytes → bytes → option bytes → Z → option (list StoredRecord * option bytes)).

Fixpoint pageFromAnyPeer (peers : list bytes) (ns : bytes) (cursor : option bytes)
    : option (list StoredRecord * option bytes) :=
  match peers with
  | [] => None
  | addr :: peers =>
      match page addr ns cursor bootstrapPage with
      | Some r => Some r
      | None => pageFromAnyPeer peers ns cursor
      end
  end.

Definition bootApply (acc : Z * Store L) (rec : StoredRecord) : Z * Store L :=
  let '(applied, st) := acc in
  match Apply rec (kindOf rec) st with
  | (Ok _, st) => (applied + 1, st)
  | (Err _, st) => (applied, st)
  end.

(** The pages of one namespace; [fuel] bounds the pages read before the context ends. *)
Fixpoint bootPages (fuel : nat) (peers : list bytes) (ns : bytes) (cursor : option bytes) (acc : Z * Store L) : Z * Store L :=
  match fuel with
  | O => acc
  | S fuel =>
      match pageFromAnyPeer peers ns cursor with
      | None => acc
      | Some (recs, next) =>
          let acc := fold_left bootApply recs acc in
          match next with
          | None | Some [] => acc
          | Some _ => bootPages fuel peers ns next acc
          end
      end
  end.

Definition BootstrapOnce (fuel : nat) (namespaces peers : list bytes) (st : Store L) : Z * Store L :=
  fold_left (λ acc ns, bootPages fuel peers ns None acc) namespaces (0, st).

End Sync.

End LocalRepl.
