(* ===== verification/RepairHeap.v ===== *)
(** * The repair queue and the holder directory: properties

    The heap of the repair queue yields the most urgent item first, the dedupe cache is a
    bounded map of the latest ids, and the ids of the directory read back to their keys. *)

From S2P Require Import Prelude Bytes Hlc Version Conflict Storage Command Records RecordStore.
From S2P Require Import Float64 LatencyGraph Membership Placement LocalRepl.

Local Open Scope Z_scope.

Module RepairHeap.
Import Version Conflict Records RecordStore Membership Placement LocalRepl.

(** ** The order of urgency *)

(** [a] is at least as urgent as [b]. *)
Definition urgent (a b : RepairItem) : Prop := less b a = false.

Lemma urgent_spec a b :
  urgent a b ↔ ri_Deficit b < ri_Deficit a ∨ ri_Deficit a = ri_Deficit b ∧ ri_EnqueuedAtMs a ≤ ri_EnqueuedAtMs b.
Proof. unfold urgent, less. destruct (Z.eqb_spec (ri_Deficit b) (ri_Deficit a)); simpl; lia. Qed.

Lemma not_urgent a b : less b a = true → urgent b a.
Proof. rewrite urgent_spec. unfold less. destruct (Z.eqb_spec (ri_Deficit b) (ri_Deficit a)); simpl; lia. Qed.

#[export] Instance urgent_preorder : PreOrder urgent.
Proof. split; [intros a|intros a b c]; rewrite !urgent_spec; lia. Qed.

(** ** Positions *)

#[local] Instance item_inhabited : Inhabited RepairItem := populate (mkItem [] [] None 0 0).

Open Scope nat_scope.

Lemma length_swap {A} i j (q : list A) : length (swap i j q) = length q.
Proof. unfold swap. repeat case_match; by rewrite ?length_insert. Qed.

Lemma swap_lookup {A} `{!Inhabited A} i j k (q : list A) :
  i < length q → j < length q →
  swap i j q !!! k = q !!! (if decide (k = i) then j else if decide (k = j) then i else k).
Proof.
  intros Hi Hj. unfold swap. rewrite (list_lookup_lookup_total_lt q i), (list_lookup_lookup_total_lt q j) by done.
  destruct (decide (k = i)) as [->|Hki].
  { by rewrite list_lookup_total_insert_eq by (by rewrite length_insert). }
  rewrite list_lookup_total_insert_ne by done.
  destruct (decide (k = j)) as [->|Hkj]; [by rewrite list_lookup_total_insert_eq|by rewrite list_lookup_total_insert_ne].
Qed.

Lemma swap_Permutation {A} i j (q : list A) : swap i j q ≡ₚ q.
Proof.
  unfold swap. destruct (q !! i) as [x|] eqn:Hi, (q !! j) as [y|] eqn:Hj; try done.
  destruct (decide (i = j)) as [->|Hne].
  { rewrite Hi in Hj. injection Hj as ->. by rewrite (list_insert_id q j), list_insert_id by (by rewrite ?list_insert_id). }
  symmetry. apply Permutation_inj. split; [by rewrite !length_insert|].
  exists (λ k, if decide (k = i) then j else if decide (k = j) then i else k). split.
  - intros a b. repeat case_decide; congruence.
  - intros k. pose proof (lookup_lt_Some _ _ _ Hi). pose proof (lookup_lt_Some _ _ _ Hj).
    repeat case_decide; subst; rewrite ?list_lookup_insert_ne by done; rewrite ?list_lookup_insert_eq by (by rewrite ?length_insert);
      rewrite ?list_lookup_insert_ne by done; rewrite ?list_lookup_insert_eq by (by rewrite ?length_insert); done.
Qed.

Lemma up_Permutation fuel j q : up fuel j q ≡ₚ q.
Proof. revert j q. induction fuel as [|n IH]; intros j q; simpl; [done|]. case_match; [done|]. by rewrite IH, swap_Permutation. Qed.

Lemma down_Permutation fuel i n q : down fuel i n q ≡ₚ q.
Proof.
  revert i q. induction fuel as [|m IH]; intros i q; simpl; [done|]. do 2 (case_match; [done|]). by rewrite IH, swap_Permutation.
Qed.

Lemma heapPush_Permutation x q : heapPush x q ≡ₚ x :: q.
Proof. unfold heapPush. rewrite up_Permutation. symmetry. apply Permutation_cons_append. Qed.

Lemma heapPop_Permutation q it q' : heapPop q = Some (it, q') → q ≡ₚ it :: q'.
Proof.
  unfold heapPop. set (p := down _ _ _ _). assert (p ≡ₚ q) as Hp by (subst p; by rewrite down_Permutation, swap_Permutation).
  destruct (p !! (length q - 1)) as [x|] eqn:Ex; [|done]. intros [= <- <-].
  transitivity p; [done|]. rewrite <-(take_drop (length q - 1) p) at 1. apply Permutation_length in Hp.
  rewrite (drop_S p x) by done. pose proof (lookup_lt_Some _ _ _ Ex).
  rewrite drop_ge by lia. symmetry. apply Permutation_cons_append.
Qed.

Lemma heapPop_Some q : q ≠ [] → is_Some (heapPop q).
Proof.
  intros Hq. unfold heapPop. set (p := down _ _ _ _). assert (p ≡ₚ q) as Hp by (subst p; by rewrite down_Permutation, swap_Permutation).
  apply Permutation_length in Hp. destruct (lookup_lt_is_Some_2 p (length q - 1)) as [x ->]; [destruct q; simpl in *; [done|lia]|].
  by eexists.
Qed.

(** ** The heap *)

Definition parent (k : nat) : nat := (k - 1) / 2.

Definition ordered (q : repairQueue) (a b : nat) : Prop := urgent (q !!! a) (q !!! b).

(** Every item of the first [n] positions is at most as urgent as its parent. *)
Definition heap (n : nat) (q : repairQueue) : Prop := ∀ k, 0 < k < n → ordered q (parent k) k.

(** The same except between [j] and its parent, or between [i] and its children. *)
Definition heap_up (n : nat) (q : repairQueue) (j : nat) : Prop :=
  (∀ k, 0 < k < n → k ≠ j → ordered q (parent k) k) ∧ (∀ k, 0 < k < n → parent k = j → 0 < j → ordered q (parent j) k).
Definition heap_down (n : nat) (q : repairQueue) (i : nat) : Prop :=
  (∀ k, 0 < k < n → parent k ≠ i → ordered q (parent k) k) ∧ (∀ k, 0 < k < n → parent k = i → 0 < i → ordered q (parent i) k).

Lemma Less_urgent q i j : i < length q → j < length q → Less q i j = less (q !!! i) (q !!! j).
Proof. intros Hi Hj. unfold Less. by rewrite (list_lookup_lookup_total_lt q i), (list_lookup_lookup_total_lt q j). Qed.

Lemma parent_lt k : 0 < k → parent k < k.
Proof. unfold parent. intros. apply Nat.Div0.div_lt_upper_bound. lia. Qed.

Lemma parent_child i k : 0 < k → parent k = i ↔ k = 2 * i + 1 ∨ k = 2 * i + 2.
Proof.
  unfold parent. intros Hk. pose proof (Nat.div_mod (k - 1) 2 ltac:(lia)). pose proof (Nat.mod_upper_bound (k - 1) 2 ltac:(lia)).
  split; [intros <-; lia|]. intros [->| ->]; [replace (2 * i + 1 - 1) with (i * 2) by lia; by apply Nat.div_mul|].
  replace (2 * i + 2 - 1) with (1 + i * 2) by lia. rewrite Nat.div_add by lia. done.
Qed.

Lemma up_heap fuel j q : j < fuel → j < length q → heap_up (length q) q j → heap (length q) (up fuel j q).
Proof.
  revert j q. induction fuel as [|fuel IH]; intros j q Hf Hj [H1 H2]; [lia|]. cbn [up]. cbv zeta. fold (parent j).
  destruct (Nat.eqb_spec (parent j) j) as [Ep|Hp]; cbn [orb].
  { assert (j = 0) as -> by (pose proof (parent_lt j); lia). intros k Hk. apply H1; lia. }
  assert (0 < j) as Hj0 by (destruct j; [done|lia]). pose proof (parent_lt j Hj0) as Hlt. set (i := parent j) in *.
  rewrite Less_urgent by (done || lia). destruct (less (q !!! j) (q !!! i)) eqn:El; cbn [negb].
  2: { intros k Hk. destruct (decide (k = j)) as [->|]; [exact El|by apply H1]. }
  apply not_urgent in El. rewrite <-(length_swap i j q). apply IH; [lia|rewrite length_swap; lia|].
  rewrite length_swap. unfold heap_up, ordered in *. split.
  - intros k Hk Hki. rewrite !swap_lookup by lia. pose proof (parent_lt k ltac:(lia)).
    rewrite (decide_False (P := k = i)) by done. destruct (decide (k = j)) as [->|Hkj].
    { fold i. by rewrite decide_True. }
    destruct (decide (parent k = i)) as [Ek|]; [transitivity (q !!! i); [done|rewrite <-Ek; by apply H1]|].
    destruct (decide (parent k = j)) as [Ek|]; [by apply H2|by apply H1].
  - intros k Hk Hki Hi0. pose proof (parent_lt i Hi0). rewrite !swap_lookup by lia.
    rewrite (decide_False (P := parent i = i)), (decide_False (P := parent i = j)) by lia.
    pose proof (parent_lt k ltac:(lia)). rewrite (decide_False (P := k = i)) by lia.
    assert (urgent (q !!! parent i) (q !!! i)) as Hpi by (apply H1; lia).
    destruct (decide (k = j)); [done|]. transitivity (q !!! i); [done|]. rewrite <-Hki. by apply H1.
Qed.

Lemma down_heap fuel i n q : n - i < fuel → n ≤ length q → heap_down n q i → heap n (down fuel i n q).
Proof.
  revert i q. induction fuel as [|fuel IH]; intros i q Hf Hn [H1 H2]; [lia|]. cbn [down]. cbv zeta.
  replace (2 * i + 1 + 1) with (2 * i + 2) by lia.
  destruct (Nat.leb_spec n (2 * i + 1)) as [Hle|Hlt].
  { intros k Hk. apply H1; [done|]. rewrite parent_child by lia. lia. }
  set (j := if _ && _ then _ else _).
  assert (i < j < n ∧ parent j = i ∧ ∀ k, 0 < k < n → parent k = i → ordered q j k) as (Hj & Hpj & Hbest).
  { assert (∀ k, 0 < k < n → parent k = i → k = 2 * i + 1 ∨ k = 2 * i + 2) as Hc by (intros k ? ?; apply parent_child; [lia|done]).
    subst j. destruct (Nat.ltb_spec (2 * i + 2) n) as [H2n|H2n]; cbn [andb].
    - rewrite Less_urgent by lia. destruct (less _ _) eqn:El.
      + split_and!; [lia..|apply parent_child; lia|]. intros k Hk Hp. unfold ordered.
        destruct (Hc k Hk Hp) as [->| ->]; [by apply not_urgent|reflexivity].
      + split_and!; [lia..|apply parent_child; lia|]. intros k Hk Hp. unfold ordered.
        destruct (Hc k Hk Hp) as [->| ->]; [reflexivity|exact El].
    - split_and!; [lia..|apply parent_child; lia|]. intros k Hk Hp. unfold ordered. destruct (Hc k Hk Hp) as [->| ->]; [reflexivity|lia]. }
  clearbody j. rewrite Less_urgent by lia. destruct (less (q !!! j) (q !!! i)) eqn:El; cbn [negb].
  2: { intros k Hk. destruct (decide (parent k = i)) as [Ek|]; [|by apply H1]. unfold ordered. rewrite Ek.
       transitivity (q !!! j); [exact El|by apply Hbest]. }
  apply not_urgent in El. apply IH; [lia|by rewrite length_swap|]. unfold heap_down, ordered in *. split.
  - intros k Hk Hkj. rewrite !swap_lookup by lia. rewrite (decide_False (P := parent k = j)) by done.
    pose proof (parent_lt k ltac:(lia)). destruct (decide (k = j)) as [->|Hne].
    { rewrite Hpj, decide_True by done. rewrite decide_False by lia. done. }
    destruct (decide (k = i)) as [->|Hki].
    { rewrite decide_False by lia. apply H2; [lia|done|lia]. }
    destruct (decide (parent k = i)) as [Ek|]; [by apply Hbest|by apply H1].
  - intros k Hk Hkj Hj0. rewrite Hpj, !swap_lookup by lia. rewrite decide_True by done.
    pose proof (parent_lt k ltac:(lia)). rewrite !decide_False by lia. rewrite <-Hkj. apply H1; [done|lia].
Qed.

(** The first item of a heap is the most urgent one. *)
Lemma heap_first n q k : heap n q → k < n → ordered q 0 k.
Proof.
  intros Hh. induction k as [k IH] using lt_wf_ind. intros Hk. destruct (decide (k = 0)) as [->|Hne]; [unfold ordered; reflexivity|].
  unfold ordered. pose proof (parent_lt k ltac:(lia)). transitivity (q !!! parent k); [apply IH; lia|apply Hh; lia].
Qed.

Lemma heapPush_heap x q : heap (length q) q → heap (S (length q)) (heapPush x q).
Proof.
  intros Hh. unfold heapPush. set (p := q ++ [x]). assert (length p = S (length q)) as Hl by (subst p; rewrite length_app; simpl; lia).
  rewrite <-Hl. apply up_heap; [lia..|]. rewrite Hl. assert (∀ k, k < length q → p !!! k = q !!! k) as Hp.
  { intros k Hk. subst p. rewrite !list_lookup_total_alt. by rewrite lookup_app_l. }
  split; intros k Hk Hc.
  - pose proof (parent_lt k ltac:(lia)). unfold ordered. rewrite !Hp by lia. apply Hh. lia.
  - pose proof (parent_lt k ltac:(lia)). lia.
Qed.

Lemma heapPop_heap q it q' :
  heap (length q) q → heapPop q = Some (it, q') → heap (length q') q' ∧ ∀ x, x ∈ q' → urgent it x.
Proof.
  intros Hh E. pose proof (heapPop_Permutation q it q' E) as Hp. apply Permutation_length in Hp as Hlen. simpl in Hlen.
  assert (∀ x, x ∈ q → urgent (q !!! 0) x) as Hmin.
  { intros x [k Hk]%list_elem_of_lookup_1. apply list_lookup_total_correct in Hk as Hk'. rewrite <-Hk'.
    apply (heap_first (length q)); [done|by eapply lookup_lt_Some]. }
  revert E. unfold heapPop. set (n := length q - 1). set (p := swap 0 n q). set (r := down (length q) 0 n p).
  assert (length p = length q) as Hlp by apply length_swap.
  assert (length r = length q) as Hlr by (rewrite <-Hlp; apply Permutation_length, down_Permutation).
  assert (heap n r ∧ r !! n = Some (q !!! 0)) as [Hr Hlast].
  { split.
    - apply down_heap; [lia|lia|]. split; [|lia]. intros k Hk Hc. unfold ordered, p. pose proof (parent_lt k ltac:(lia)).
      rewrite !swap_lookup by lia. rewrite (decide_False (P := k = 0)), (decide_False (P := k = n)), !decide_False by lia. apply Hh. lia.
    - assert (∀ fuel i q0, n ≤ length q0 → down fuel i n q0 !! n = q0 !! n) as Hd.
      { induction fuel as [|f IH]; intros i q0 Hn; [done|]. cbn [down]. cbv zeta. destruct (Nat.leb_spec n (2 * i + 1)); [done|].
        set (j := if _ && _ then _ else _). assert (j < n) as Hj.
        { subst j. destruct (Nat.ltb_spec (2 * i + 1 + 1) n); cbn [andb]; [destruct (Less _ _ _)|]; lia. }
        destruct (negb _); [done|]. rewrite IH by (by rewrite length_swap). unfold swap.
        repeat case_match; [|done..]. rewrite !list_lookup_insert_ne by lia. done. }
      unfold r. rewrite Hd by lia. rewrite (list_lookup_lookup_total_lt p n) by lia. unfold p. rewrite swap_lookup by lia.
      destruct (decide (n = 0)) as [->|]; [by destruct (decide (0 = 0))|]. by rewrite decide_True. }
  rewrite Hlast. cbn [mbind option_bind]. intros [= <- <-].
  assert (length (take n r) = n) as Hlt by (rewrite length_take; lia). rewrite Hlt. split.
  - intros k Hk. unfold ordered. pose proof (parent_lt k ltac:(lia)). rewrite !list_lookup_total_alt, !lookup_take_lt by lia.
    rewrite <-!list_lookup_total_alt. by apply Hr.
  - intros x Hx. apply Hmin. rewrite Hp. by right.
Qed.

Close Scope nat_scope.

(** ** The queue of the engine *)

Definition itemID (it : RepairItem) : bytes := keyID (ri_Namespace it) (ri_Key it).

(** A heap without duplicates, with the ids of its items recorded as pending. *)
Record queue_ok {W} (s : Repl W) : Prop := {
  qo_heap : heap (length (re_queue s)) (re_queue s);
  qo_nodup : NoDup (itemID <$> re_queue s);
  qo_pending id : id ∈ re_pending s ↔ id ∈ itemID <$> re_queue s;
}.

Section Engine.
Context {W : Type} (cl : Cluster W) (self : Member) (policy : Policy) (everywhere : option (bytes → bool)).

Lemma queue_ok_same (s s' : Repl W) : re_queue s' = re_queue s → re_pending s' = re_pending s → queue_ok s → queue_ok s'.
Proof. intros Eq Ep []. split; by rewrite ?Eq, ?Ep. Qed.

Lemma Enqueue_ok item (s : Repl W) : queue_ok s → queue_ok (RepairEnqueue cl policy item s).
Proof.
  intros [Hh Hn Hp]. unfold RepairEnqueue. case_match; [done|]. case_bool_decide as Hin; [done|].
  set (it := mkItem _ _ _ _ _). pose proof (heapPush_Permutation it (re_queue s)) as Hperm.
  split; cbn [set_queue re_queue re_pending].
  - rewrite (Permutation_length Hperm). by apply heapPush_heap.
  - rewrite Hperm. cbn. apply NoDup_cons. split; [|done]. by rewrite <-Hp.
  - intros id. rewrite elem_of_union, elem_of_singleton, Hp, Hperm, fmap_cons, elem_of_cons. done.
Qed.

Lemma pop_ok (s : Repl W) :
  queue_ok s → re_queue s ≠ [] →
  ∃ it s', pop s = Some (it, s') ∧ queue_ok s' ∧ re_queue s ≡ₚ it :: re_queue s' ∧ (∀ x, x ∈ re_queue s' → urgent it x) ∧
    re_world s' = re_world s ∧ re_holders s' = re_holders s ∧ re_jobs s' = re_jobs s.
Proof.
  intros [Hh Hn Hp] Hne. destruct (heapPop_Some _ Hne) as [[it q] E]. unfold pop. destruct (re_queue s) as [|x q0] eqn:Eq; [done|].
  rewrite <-Eq in *. rewrite E. cbn [mbind option_bind]. eexists it, _. split; [done|]. cbn [set_queue re_queue].
  destruct (heapPop_heap _ _ _ Hh E) as [Hh' Hu]. pose proof (heapPop_Permutation _ _ _ E) as Hperm.
  rewrite Hperm in Hn. cbn in Hn. apply NoDup_cons in Hn as [Hni Hn]. split_and!; try done. split; [done..|].
  cbn [set_queue re_queue re_pending]. intros id. rewrite elem_of_difference, elem_of_singleton, Hp, Hperm. cbn. rewrite elem_of_cons.
  fold (itemID it). split; [naive_solver|]. intros Hi. split; [by right|]. intros ->. done.
Qed.

Lemma push_ok ns key rec m (s : Repl W) : queue_ok s → queue_ok (push cl self ns key rec m s).2.
Proof. intros Hs. unfold push. destruct (cl_StoreReplica _ _ _ _). case_match; by apply (queue_ok_same s). Qed.

Lemma pushAll_ok enough ns key rec cands (s : Repl W) : queue_ok s → queue_ok (pushAll cl self enough ns key rec cands s).2.
Proof.
  revert s. induction cands as [|c cands IH]; intros s Hs; [done|]. cbn [pushAll]. case_match; [by apply IH|].
  pose proof (push_ok ns key rec (ca_Member c) s Hs) as Hq. destruct (push _ _ _ _ _ _ _) as [ok s']. cbn [snd] in Hq.
  case_match; [done|by apply IH].
Qed.

Lemma repairRecord_ok ns key rec target (s : Repl W) :
  queue_ok s → queue_ok (repairRecord cl self policy everywhere ns key rec target s).
Proof.
  intros Hs. unfold repairRecord. cbv zeta. set (s1 := set_holders s _). assert (queue_ok s1) as H1 by (by apply (queue_ok_same s)).
  case_match; [done|]. pose proof (pushAll_ok (λ s, target <=? aliveHolderCount cl ns key s) ns key rec
    (repairCandidates cl self policy everywhere ns s1) s1 H1) as Hq.
  destruct (pushAll _ _ _ _ _ _ _ _) as [dn s2]. cbn [snd] in Hq. repeat case_match; [done|by apply Enqueue_ok|done].
Qed.

Lemma ProcessOne_ok (s : Repl W) : queue_ok s → queue_ok (ProcessOne cl self policy everywhere s).2.
Proof.
  intros Hs. unfold ProcessOne. destruct (re_queue s) as [|x q] eqn:Eq; [unfold pop; by rewrite Eq|].
  destruct (pop_ok s Hs) as (it & s' & -> & Hs' & _); [by rewrite Eq|].
  case_match; [done|]. repeat case_match; cbn [snd]; try done; by apply repairRecord_ok.
Qed.

Lemma fold_ok {A} (f : Repl W → A → Repl W) (l : list A) (s : Repl W) :
  (∀ s a, queue_ok s → queue_ok (f s a)) → queue_ok s → queue_ok (fold_left f l s).
Proof. intros Hf. revert s. induction l as [|a l IH]; intros s Hs; [done|]. cbn. apply IH. by apply Hf. Qed.

Lemma OnMemberDead_ok m (s : Repl W) : queue_ok s → queue_ok (OnMemberDead cl policy m s).
Proof.
  intros Hs. unfold OnMemberDead. apply fold_ok; [|done]. clear s Hs. intros s id Hs. destruct (splitKeyID id) as [ns key]. cbv zeta.
  set (s1 := set_holders s _). assert (queue_ok s1) as H1 by (by apply (queue_ok_same s)).
  repeat case_match; try done. by apply Enqueue_ok.
Qed.

Lemma BackfillOnce_ok nss batch (s : Repl W) : queue_ok s → queue_ok (BackfillOnce cl policy nss batch s).
Proof.
  intros Hs. unfold BackfillOnce. cbv zeta. apply fold_ok; [|done]. clear s Hs. intros s ns Hs.
  destruct (cl_ScanRecordsFrom _ _ _ _ _) as [[recs next]|]; [|done].
  apply fold_ok; [intros; by apply Enqueue_ok|by apply (queue_ok_same s)].
Qed.

Lemma FanoutEnqueue_ok job (s : Repl W) : queue_ok s → queue_ok (FanoutEnqueue cl policy job s).
Proof. intros Hs. unfold FanoutEnqueue. case_match; [by apply (queue_ok_same s)|by apply Enqueue_ok]. Qed.

Lemma fillEverywhere_ok job (s : Repl W) : queue_ok s → queue_ok (fillEverywhere cl self policy job s).
Proof.
  intros Hs. unfold fillEverywhere. set (f := fold_left _ _ _).
  assert (queue_ok f.2) as Hf; [|destruct f as [missed s']; case_match; [by apply Enqueue_ok|done]].
  subst f. generalize (cl_Members cl (re_world s)) as ms, false as b. intros ms. revert s Hs.
  induction ms as [|m ms IH]; intros s Hs b; [done|]. cbn [fold_left]. case_match; [by apply IH|]. case_match; [by apply IH|].
  pose proof (push_ok (fj_Namespace job) (fj_Key job) (fj_Record job) (mv_Member m) s Hs) as Hq.
  destruct (push _ _ _ _ _ _ _) as [ok s']. by apply IH.
Qed.

Lemma Fill_ok job (s : Repl W) : queue_ok s → queue_ok (Fill cl self policy everywhere job s).
Proof.
  intros Hs. unfold Fill. case_match; [by apply fillEverywhere_ok|]. case_match; [done|].
  set (f := match Select _ _ _ _ with Ok _ => _ | Err _ => _ end).
  assert (queue_ok f.2) as Hf by (subst f; case_match; [by apply pushAll_ok|done]).
  destruct f as [dn s']. cbn [snd] in Hf. repeat case_match; [done|by apply Enqueue_ok|done].
Qed.

(** What can happen to the queue; the world may change in any way in between. *)
Inductive replEvent :=
  | RvEnqueue (item : RepairItem) | RvFanout (job : FanoutJob) | RvRun | RvProcess | RvDead (m : bytes)
  | RvBackfill (nss : list bytes) (batch : Z) | RvWorld (w : W) | RvHolders (d : HolderDirectory).

Definition replStep (s : Repl W) (e : replEvent) : Repl W :=
  match e with
  | RvEnqueue item => RepairEnqueue cl policy item s
  | RvFanout job => FanoutEnqueue cl policy job s
  | RvRun => FanoutRun cl self policy everywhere s
  | RvProcess => (ProcessOne cl self policy everywhere s).2
  | RvDead m => OnMemberDead cl policy m s
  | RvBackfill nss batch => BackfillOnce cl policy nss batch s
  | RvWorld w => set_world s w
  | RvHolders d => set_holders s d
  end.

Lemma replStep_ok s e : queue_ok s → queue_ok (replStep s e).
Proof.
  intros Hs. destruct e; cbn [replStep].
  - by apply Enqueue_ok.
  - by apply FanoutEnqueue_ok.
  - unfold FanoutRun. case_match; [done|]. apply Fill_ok. by apply (queue_ok_same s).
  - by apply ProcessOne_ok.
  - by apply OnMemberDead_ok.
  - by apply BackfillOnce_ok.
  - by apply (queue_ok_same s).
  - by apply (queue_ok_same s).
Qed.

End Engine.

(** C29: The repair queue serves the most urgent key first. Whatever sequence of enqueues, fills,
    repairs, deaths and sweeps ran before, in whatever world, no key is queued twice, the
    pending set is exactly the ids of the queue, and a non-empty queue yields an item that
    is at least as far below its target as every other one, and among those of the same
    deficit at least as old. *)
Theorem repair_most_urgent_first {W} (cl : Cluster W) (self : Member) (policy : Policy) (everywhere : option (bytes → bool))
    (es : list replEvent) (w : W) (d : HolderDirectory) (cursor : gmap bytes (option bytes)) (jobs : list FanoutJob) :
  let s := fold_left (replStep cl self policy everywhere) es (mkRepl w d [] ∅ cursor jobs) in
  NoDup (itemID <$> re_queue s) ∧
  (∀ id, id ∈ re_pending s ↔ id ∈ itemID <$> re_queue s) ∧
  match pop s with
  | None => re_queue s = []
  | Some (it, s') =>
      re_queue s ≡ₚ it :: re_queue s' ∧
      ∀ x, x ∈ re_queue s' →
        ri_Deficit x < ri_Deficit it ∨ ri_Deficit x = ri_Deficit it ∧ ri_EnqueuedAtMs it ≤ ri_EnqueuedAtMs x
  end.
Proof.
  intros s. assert (queue_ok s) as Hs.
  { apply fold_ok; [intros; by apply replStep_ok|]. split; cbn; [intros k Hk; lia|constructor|set_solver]. }
  split_and!; [apply Hs..|]. destruct (re_queue s) as [|x q] eqn:Eq; [unfold pop; by rewrite Eq|].
  destruct (pop_ok s Hs) as (it & s' & -> & _ & Hp & Hu & _); [by rewrite Eq|]. rewrite <-Eq. split; [done|].
  intros y Hy. specialize (Hu y Hy). rewrite urgent_spec in Hu. lia.
Qed.

(** ** Ids of keys *)

Lemma splitKeyID_keyID ns key : x00 ∉ ns → splitKeyID (keyID ns key) = (ns, key).
Proof.
  intros Hn. unfold keyID. induction ns as [|b ns IH]; [done|]. cbn [app splitKeyID].
  apply not_elem_of_cons in Hn as [Hb Hn]. rewrite bool_decide_eq_false_2 by congruence.
  change (ns ++ x00 :: key) with (ns ++ [x00] ++ key). by rewrite IH.
Qed.

Lemma keysHeldBy_elem member d id :
  id ∈ keysHeldBy member d → ∃ mm v, hd_holders d !! id = Some mm ∧ mm !! member = Some v.
Proof.
  unfold keysHeldBy. rewrite merge_sort_Permutation, list_elem_of_filter. intros [[v Hv] _]. unfold holdersAt in Hv.
  destruct (hd_holders d !! id) as [mm|]; [by exists mm, v|]. cbn [default] in Hv.
  by rewrite lookup_empty in Hv.
Qed.

End RepairHeap.
