(* ===== verification/Cache.v ===== *)
(** * Dynamic caches (internal/cache)

    The gossiped holder summaries (a bloom filter and a HyperLogLog sketch), the directory
    that resolves likely holders from them, the store of cache replicas and its evictor, the
    fetch from the closest holder, range certificates, and live subscriptions. *)

From S2P Require Import Prelude Bytes Hlc Version Conflict Storage Command Records RecordStore.
From S2P Require Import Float64 LatencyGraph Membership Placement LocalRepl.

Local Open Scope Z_scope.

Module Cache.
Import Float64 Hlc Version Conflict Storage Command Records RecordStore LatencyGraph Membership Placement LocalRepl.

(** ** Bloom filter *)

Definition bloomBits : Z := 2 ^ 17.
Definition bloomWords : nat := 2048.
Definition bloomK : nat := 7.

Abbreviation Bloom := (list Z).

Definition NewBloom : Bloom := replicate bloomWords 0.

Definition bloomHashes (key : bytes) : Z * Z := (fnv64a key, Z.lor (fnv64 key) 1).

(** The bits of a key. *)
Definition bloomProbes (key : bytes) : list Z :=
  let '(a, b) := bloomHashes key in
  (λ i, uint64 (a + uint64 (Z.of_nat i * b)) mod bloomBits) <$> seq 0 bloomK.

Definition wordOf (f : list Z) (i : Z) : Z := default 0 (f !! Z.to_nat i).

Definition setBit (f : Bloom) (bit : Z) : Bloom :=
  <[Z.to_nat (bit / 64) := Z.lor (wordOf f (bit / 64)) (Z.shiftl 1 (bit mod 64))]> f.

Definition BloomAdd (key : bytes) (f : Bloom) : Bloom := fold_left setBit (bloomProbes key) f.

Definition hasBit (f : Bloom) (bit : Z) : bool := negb (Z.land (wordOf f (bit / 64)) (Z.shiftl 1 (bit mod 64)) =? 0).

Definition MaybeContains (key : bytes) (f : Bloom) : bool := forallb (hasBit f) (bloomProbes key).

(** encoding/binary, little endian. *)
Definition le_put_u64 (w : Z) : bytes := reverse (put_u64 w).
Definition le_get_u64 (b : bytes) : Z := get_u64 (reverse b).

Definition BloomBytes (f : Bloom) : bytes := mjoin (le_put_u64 <$> f).

Definition BloomFromBytes (b : bytes) : Bloom :=
  if negb (length b =? bloomWords * 8)%nat then NewBloom
  else (λ i, le_get_u64 (take 8 (drop (i * 8) b))) <$> seq 0 bloomWords.

(** ** HyperLogLog *)

Definition hllP : Z := 14.
Definition hllM : nat := 16384.
Definition hllMaxR : Z := 64 - hllP + 1.

Abbreviation HLL := (list Z).

Definition NewHLL : HLL := replicate hllM 0.

Definition hllHash (key : bytes) : Z :=
  let x := fnv64a key in
  let x := Z.lxor x (Z.shiftr x 30) in
  let x := uint64 (x * 0xbf58476d1ce4e5b9) in
  let x := Z.lxor x (Z.shiftr x 27) in
  let x := uint64 (x * 0x94d049bb133111eb) in
  Z.lxor x (Z.shiftr x 31).

(** math/bits, on a 64-bit word. *)
Definition LeadingZeros64 (x : Z) : Z := if x =? 0 then 64 else 63 - Z.log2 x.

Definition hllIndex (key : bytes) : nat := Z.to_nat (Z.shiftr (hllHash key) (64 - hllP)).

Definition hllRho (key : bytes) : Z :=
  let rho := LeadingZeros64 (uint64 (Z.shiftl (hllHash key) hllP)) + 1 in
  if hllMaxR <? rho then hllMaxR else rho.

Definition HLLAdd (key : bytes) (h : HLL) : HLL :=
  let idx := hllIndex key in
  if default 0 (h !! idx) <? hllRho key then <[idx := hllRho key]> h else h.

Definition HLLMerge (other : option HLL) (h : HLL) : HLL :=
  match other with
  | None => h
  | Some o => zip_with (λ x y, if x <? y then y else x) h o
  end.

Definition HLLBytes (h : HLL) : bytes := Zbyte <$> h.

Definition HLLFromBytes (b : bytes) : HLL :=
  if negb (length b =? hllM)%nat then NewHLL else byteZ <$> b.

(** ** The directory of holder summaries *)

Definition combinedKey (ns key : bytes) : bytes := ns ++ [x00] ++ key.

Record peerSummary := mkPeerSummary {
  ps_bloom : Bloom;
  ps_hll : HLL;
  ps_approxKeys : Z;
  ps_namespaces : list bytes;
  ps_generated : Z;
}.

Record Directory := mkDirectory {
  dr_self : bytes;
  dr_own : Bloom;
  dr_ownHLL : HLL;
  dr_ownNS : gset bytes;
  dr_ownGen : Z;
  dr_peers : gmap bytes peerSummary;
  dr_changed : bool;
}.

Definition NewDirectory (self : bytes) : Directory := mkDirectory self NewBloom NewHLL ∅ 0 ∅ false.

Definition AddHeldKey (ns key : bytes) (nowMs : Z) (d : Directory) : Directory :=
  let ck := combinedKey ns key in
  mkDirectory (dr_self d) (BloomAdd ck (dr_own d)) (HLLAdd ck (dr_ownHLL d)) ({[ns]} ∪ dr_ownNS d) nowMs (dr_peers d) true.

Definition sortedNames (s : gset bytes) : list bytes := merge_sort bytes_le (elements s).

(** The live-key count is filled in by the caller. *)
Definition OwnSummary (d : Directory) : HolderSummaryWire :=
  mkSummary (dr_self d) (BloomBytes (dr_own d)) (HLLBytes (dr_ownHLL d)) 0 (sortedNames (dr_ownNS d)) (dr_ownGen d).

Definition ApplyPeerSummary (s : HolderSummaryWire) (d : Directory) : Directory :=
  if bool_decide (hs_MemberID s = []) || bool_decide (hs_MemberID s = dr_self d) then d
  else if match dr_peers d !! hs_MemberID s with Some cur => hs_GeneratedAtUnixMs s <=? ps_generated cur | None => false end then d
  else mkDirectory (dr_self d) (dr_own d) (dr_ownHLL d) (dr_ownNS d) (dr_ownGen d)
         (<[hs_MemberID s := mkPeerSummary (BloomFromBytes (hs_Bloom s)) (HLLFromBytes (hs_HLL s)) (hs_ApproxKeys s)
                               (hs_Namespaces s) (hs_GeneratedAtUnixMs s)]> (dr_peers d)) (dr_changed d).

(** The union of the sketches of this node and of the alive peers, which the estimate reads. *)
Definition unionHLL (isAlive : option (bytes → bool)) (d : Directory) : HLL :=
  map_fold (λ member s u, if aliveIn isAlive member then HLLMerge (Some (ps_hll s)) u else u)
    (HLLMerge (Some (dr_ownHLL d)) NewHLL) (dr_peers d).

Definition PeerReplicaSum (isAlive : option (bytes → bool)) (d : Directory) : Z :=
  map_fold (λ member s total, if aliveIn isAlive member then uint64 (total + ps_approxKeys s) else total) 0 (dr_peers d).

Definition Namespaces (isAlive : option (bytes → bool)) (d : Directory) : list bytes :=
  sortedNames (map_fold (λ member s acc, if aliveIn isAlive member then list_to_set (ps_namespaces s) ∪ acc else acc)
                 (dr_ownNS d) (dr_peers d)).

(** The peers whose filter may contain the key; [iter] is the order of iteration of the map. *)
Definition ResolveHolders (iter : list bytes → list bytes) (ns key : bytes) (d : Directory) : list bytes :=
  let holds member := match dr_peers d !! member with
                      | Some s => MaybeContains (combinedKey ns key) (ps_bloom s)
                      | None => false
                      end in
  filter (λ member, holds member = true) (iter (map_to_list (dr_peers d)).*1).

Definition DropPeer (member : bytes) (d : Directory) : Directory :=
  mkDirectory (dr_self d) (dr_own d) (dr_ownHLL d) (dr_ownNS d) (dr_ownGen d) (delete member (dr_peers d)) (dr_changed d).

(** ** Range certificates *)

Record RangeCoverageCertificate := mkCert {
  ce_Namespace : bytes;
  ce_StartKey : option bytes;
  ce_EndKey : option bytes;
  ce_OwnerMemberId : bytes;
  ce_OwnerEpoch : Z;
  ce_ValidUntilUnixMs : Z;
}.

Abbreviation CertStore := (gmap bytes (list RangeCoverageCertificate)).

Definition CertPut (cert : RangeCoverageCertificate) (s : CertStore) : CertStore :=
  <[ce_Namespace cert := default [] (s !! ce_Namespace cert) ++ [cert]]> s.

Definition rangeContains (cs ce qs qe : option bytes) : bool :=
  if match cs, qs with
     | Some c, None => true
     | Some c, Some q => match bcompare q c with Lt => true | _ => false end
     | None, _ => false
     end then false
  else if match ce, qe with
     | Some c, None => true
     | Some c, Some q => match bcompare q c with Gt => true | _ => false end
     | None, _ => false
     end then false
  else true.

Definition certValid (epoch : option (bytes → bytes → Z)) (ns : bytes) (nowMs : Z) (c : RangeCoverageCertificate) : bool :=
  negb (ce_ValidUntilUnixMs c <=? nowMs) &&
  match epoch with None => true | Some f => ce_OwnerEpoch c =? f ns (ce_OwnerMemberId c) end.

Definition Covers (epoch : option (bytes → bytes → Z)) (ns : bytes) (start stop : option bytes) (nowMs : Z) (s : CertStore) : bool :=
  existsb (λ c, certValid epoch ns nowMs c && rangeContains (ce_StartKey c) (ce_EndKey c) start stop) (default [] (s !! ns)).

(** ** Fetch from the closest holder *)

Record SubscriptionOffer := mkOffer { so_SourceMemberId : bytes; so_SourceDataAddr : bytes }.

Record FetchReplicaResponse := mkFetchResp {
  fr_Found : bool;
  fr_Record : StoredRecord;
  fr_SubscriptionOffer : option SubscriptionOffer;
  fr_AlternateHolderMemberIds : list bytes;
}.

(** A result found: the record, the member that served it, and its offer. *)
Record FetchResult := mkFetchResult { fe_Record : StoredRecord; fe_Source : bytes; fe_Offer : option SubscriptionOffer }.

Definition memberByID (members : list MemberView) (id : bytes) : option Member :=
  '(_, mv) ← list_find (λ mv, viewID mv = id ∧ mv_State mv = StateAlive) members;
  Some (mv_Member mv).

Section Fetch.
Context (graph : Graph) (members : list MemberView) (rpc : bytes → bytes → bytes → option FetchReplicaResponse).

Definition latency (m : Member) : float64 := Score graph (MemberID m) (of_Z 0) (of_Z 0) (of_Z 0).

(** The inner loop of the insertion sort: [m] moves left past the slower members. *)
Fixpoint sink (m : Member) (sorted : list Member) : list Member :=
  match sorted with
  | [] => [m]
  | x :: rest => if fltb (latency m) (latency x) then x :: sink m rest else m :: x :: rest
  end.

(** [sorted] is the sorted part of the slice, last element first. *)
Definition orderHoldersByLatency (ids : list bytes) : list Member :=
  reverse (fold_left (λ sorted m, sink m sorted) (omap (memberByID members) ids) []).

Fixpoint fetchAlternates (ns key : bytes) (alts : list bytes) : option FetchResult :=
  match alts with
  | [] => None
  | alt :: alts =>
      match memberByID members alt with
      | None => fetchAlternates ns key alts
      | Some am =>
          match rpc (DataAddr am) ns key with
          | Some r => if fr_Found r then Some (mkFetchResult (fr_Record r) (MemberID am) None) else fetchAlternates ns key alts
          | None => fetchAlternates ns key alts
          end
      end
  end.

Fixpoint fetchFrom (ns key : bytes) (candidates : list Member) : option FetchResult :=
  match candidates with
  | [] => None
  | m :: candidates =>
      match rpc (DataAddr m) ns key with
      | None => fetchFrom ns key candidates
      | Some r =>
          if fr_Found r then Some (mkFetchResult (fr_Record r) (MemberID m) (fr_SubscriptionOffer r))
          else match fetchAlternates ns key (fr_AlternateHolderMemberIds r) with
               | Some f => Some f
               | None => fetchFrom ns key candidates
               end
      end
  end.

(** The error result of the interface is never an error here; the outer [res] is kept for
    the readers of it. *)
Definition Fetch (iter : list bytes → list bytes) (dir : Directory) (ns key : bytes) : res () (option FetchResult) :=
  Ok (fetchFrom ns key (orderHoldersByLatency (ResolveHolders iter ns key dir))).

End Fetch.

(** ** Cache replicas *)

Definition cacheKeyID (ns key : bytes) : bytes := ns ++ [x00] ++ key.

Definition splitCacheKeyID (id : bytes) : bytes * bytes := splitKeyID id.

(** The record store is the one of the node, shared with the replication path. *)
Record CacheStore (L : Type) := mkCacheStore { ca_rec : Store L; ca_cached : gmap bytes Z }.
Arguments mkCacheStore {L}.
Arguments ca_rec {L}.
Arguments ca_cached {L}.

Section Store.
Context {L : Type} `{LocalStore L} `{Proto}.

Definition NewCacheStore (rec : Store L) : CacheStore L := mkCacheStore rec ∅.

Definition CachePut (rec : StoredRecord) (nowMs : Z) (s : CacheStore L) : res recErr unit * CacheStore L :=
  match Apply rec (kindOf rec) (ca_rec s) with
  | (Err e, st) => (Err e, mkCacheStore st (ca_cached s))
  | (Ok _, st) =>
      (Ok (), mkCacheStore st (<[cacheKeyID (sr_Namespace rec) (sr_LogicalKey rec) := nowMs]> (ca_cached s)))
  end.

Definition IsCacheReplica (ns key : bytes) (nowMs : Z) (s : CacheStore L) : bool * CacheStore L :=
  let id := cacheKeyID ns key in
  match ca_cached s !! id with
  | Some _ => (true, mkCacheStore (ca_rec s) (<[id := nowMs]> (ca_cached s)))
  | None => (false, s)
  end.

Definition Promote (ns key : bytes) (s : CacheStore L) : CacheStore L :=
  mkCacheStore (ca_rec s) (delete (cacheKeyID ns key) (ca_cached s)).

(** [iter] is the order of iteration of the map. *)
Definition idleBefore (iter : list bytes → list bytes) (cutoffMs : Z) (s : CacheStore L) : list (bytes * bytes) :=
  splitCacheKeyID <$> filter (λ id, default cutoffMs (ca_cached s !! id) < cutoffMs) (iter (map_to_list (ca_cached s)).*1).

Definition Evict (ns key : bytes) (s : CacheStore L) : res recErr unit * CacheStore L :=
  match Forget ns key (ca_rec s) with
  | (Err e, st) => (Err e, mkCacheStore st (ca_cached s))
  | (Ok _, st) => (Ok (), mkCacheStore st (delete (cacheKeyID ns key) (ca_cached s)))
  end.

Definition EvictIdle (iter : list bytes → list bytes) (idleTTL nowMs : Z) (s : CacheStore L) : Z * CacheStore L :=
  let cutoff := int64 (nowMs - Milliseconds idleTTL) in
  fold_left (λ acc ent,
    let '(n, s) := acc in
    match Evict ent.1 ent.2 s with
    | (Ok _, s) => (n + 1, s)
    | (Err _, s) => (n, s)
    end) (idleBefore iter cutoff s) (0, s).

End Store.

(** ** Subscriptions: the source *)

Record CacheUpdate := mkUpdate {
  cu_Namespace : bytes;
  cu_Key : bytes;
  cu_Record : option StoredRecord;
  cu_SnapshotRequired : bool;
  cu_StreamSequence : Z;
}.

(** The channels of the subscribers of a key by id, the last sequence of a key, the next id. *)
Record SubscriptionSource := mkSource {
  sb_subs : gmap bytes (gmap Z (list CacheUpdate));
  sb_seq : gmap bytes Z;
  sb_nextID : Z;
}.

Definition NewSubscriptionSource : SubscriptionSource := mkSource ∅ ∅ 0.

Definition subChanCap : nat := 32.

Definition subsOf (s : SubscriptionSource) (keyID : bytes) : gmap Z (list CacheUpdate) := default ∅ (sb_subs s !! keyID).

Definition register (keyID : bytes) (s : SubscriptionSource) : Z * SubscriptionSource :=
  let id := uint64 (sb_nextID s + 1) in
  (id, mkSource (<[keyID := <[id := []]> (subsOf s keyID)]> (sb_subs s)) (sb_seq s) id).

Definition unregister (keyID : bytes) (id : Z) (s : SubscriptionSource) : SubscriptionSource :=
  match sb_subs s !! keyID with
  | None => s
  | Some m =>
      let m := delete id m in
      mkSource (if bool_decide (m = ∅) then delete keyID (sb_subs s) else <[keyID := m]> (sb_subs s)) (sb_seq s) (sb_nextID s)
  end.

Definition curSeq (keyID : bytes) (s : SubscriptionSource) : Z := default 0 (sb_seq s !! keyID).

(** A send that does not block. *)
Definition trySend (u : CacheUpdate) (ch : list CacheUpdate) : bool * list CacheUpdate :=
  if (length ch <? subChanCap)%nat then (true, ch ++ [u]) else (false, ch).

Definition offer (u resync : CacheUpdate) (ch : list CacheUpdate) : list CacheUpdate :=
  let '(sent, ch) := trySend u ch in
  if sent then ch else (trySend resync ch).2.

Section Notify.
Context {L : Type} `{LocalStore L} `{Proto}.

Definition Notify (ns key : bytes) (st : Store L) (s : SubscriptionSource) : SubscriptionSource :=
  let keyID := combinedKey ns key in
  let m := subsOf s keyID in
  if bool_decide (m = ∅) then s
  else
    let seq := uint64 (curSeq keyID s + 1) in
    let s := mkSource (sb_subs s) (<[keyID := seq]> (sb_seq s)) (sb_nextID s) in
    match GetRecord ns key st with
    | Ok (Some rec) =>
        mkSource (<[keyID := offer (mkUpdate ns key (Some rec) false seq) (mkUpdate ns key None true seq) <$> m]> (sb_subs s))
          (sb_seq s) (sb_nextID s)
    | _ => s
    end.

(** What a new stream sends first. *)
Definition firstUpdate (ns key : bytes) (st : Store L) (s : SubscriptionSource) : option CacheUpdate :=
  match GetRecord ns key st with
  | Ok (Some rec) => Some (mkUpdate ns key (Some rec) false (curSeq (combinedKey ns key) s))
  | _ => None
  end.

(** ** Subscriptions: the subscriber *)

(** One update of a stream: [refetch] is the answer of the fetcher to a resync. *)
Definition onUpdate (refetch : option StoredRecord) (nowMs : Z) (u : CacheUpdate) (acc : Z * CacheStore L) : Z * CacheStore L :=
  let '(lastSeq, cs) := acc in
  if cu_SnapshotRequired u || (negb (lastSeq =? 0) && (uint64 (lastSeq + 1) <? cu_StreamSequence u)) then
    (cu_StreamSequence u, match refetch with Some rec => (CachePut rec nowMs cs).2 | None => cs end)
  else
    (cu_StreamSequence u, match cu_Record u with Some rec => (CachePut rec nowMs cs).2 | None => cs end).

End Notify.

End Cache.
