(* ===== verification/CacheSafety.v ===== *)
(** * The caches keep their promises

    Holder summaries find every announced holder, sketches of several nodes add up, a range
    certificate covers what it says, a fetch finds a reachable holder, and the directory
    stays well formed. *)

From S2P Require Import Prelude Bytes Hlc Version Conflict Storage Command Records RecordSamples RecordStore RecordRefine RecordRepair.
From S2P Require Import Float64 LatencyGraph Membership Placement LocalRepl RepairHeap Cache.

Local Open Scope Z_scope.

#[local] Set Default Proof Using "All".

Module CacheSafety.
Import Float64 Hlc Version Conflict Storage Command Records RecordSamples RecordStore RecordRefine RecordRepair LatencyGraph Membership Placement LocalRepl Cache.

(** ** Bloom filters *)

Definition bloom_wf (f : Bloom) : Prop := length f = bloomWords ∧ Forall in_u64 f.

Definition bit_ok (bit : Z) : Prop := 0 ≤ bit < bloomBits.

Lemma NewBloom_wf : bloom_wf NewBloom.
Proof. split; [apply length_replicate|]. apply Forall_replicate. unfold in_u64. lia. Qed.

Lemma bloomProbes_ok key : Forall bit_ok (bloomProbes key).
Proof.
  unfold bloomProbes. destruct (bloomHashes key) as [a b]. apply Forall_fmap, Forall_forall. intros i _. cbn.
  unfold bit_ok, bloomBits. apply Z.mod_pos_bound. lia.
Qed.

Lemma bit_word bit : bit_ok bit → (Z.to_nat (bit / 64) < bloomWords)%nat ∧ 0 ≤ bit mod 64 < 64.
Proof. unfold bit_ok, bloomBits, bloomWords. intros Hb. split; [|apply Z.mod_pos_bound; lia].
  assert (bit / 64 < 2048) by (apply Z.div_lt_upper_bound; lia). lia.
Qed.

Lemma wordOf_range f i : Forall in_u64 f → in_u64 (wordOf f i).
Proof.
  intros Hf. unfold wordOf. destruct (f !! Z.to_nat i) as [w|] eqn:E; cbn; [by eapply Forall_lookup_1|]. unfold in_u64. lia.
Qed.

Lemma bits_u64 w : 0 ≤ w → (∀ n, 64 ≤ n → Z.testbit w n = false) → in_u64 w.
Proof.
  intros Hw Hb. unfold in_u64. destruct (decide (w = 0)) as [->|Hz]; [lia|]. split; [done|].
  apply Z.log2_lt_pow2; [lia|]. destruct (Z_lt_ge_dec (Z.log2 w) 64) as [|Hl]; [done|].
  specialize (Hb (Z.log2 w) ltac:(lia)). by rewrite Z.bit_log2 in Hb by lia.
Qed.

Lemma u64_bits w n : in_u64 w → 64 ≤ n → Z.testbit w n = false.
Proof.
  intros [H0 H1] Hn. destruct (decide (w = 0)) as [->|Hz]; [apply Z.testbit_0_l|]. apply Z.bits_above_log2; [done|].
  assert (Z.log2 w < 64) by (apply Z.log2_lt_pow2; lia). lia.
Qed.

Lemma testbit_one n m : 0 ≤ m → Z.testbit (Z.shiftl 1 m) n = bool_decide (n = m).
Proof.
  intros Hm. destruct (Z_lt_ge_dec n 0) as [Hn|Hn]; [rewrite Z.testbit_neg_r by lia; symmetry; apply bool_decide_eq_false; lia|].
  rewrite Z.shiftl_mul_pow2, Z.mul_1_l by done. case_bool_decide as E; [subst; by apply Z.pow2_bits_true|].
  by apply Z.pow2_bits_false.
Qed.

(** A bit of the filter, which the mask test reads. *)
Definition bitAt (f : Bloom) (bit : Z) : bool := Z.testbit (wordOf f (bit / 64)) (bit mod 64).

Lemma hasBit_bitAt f bit : bit_ok bit → hasBit f bit = bitAt f bit.
Proof.
  intros Hb. destruct (bit_word bit Hb) as [_ Hm]. unfold hasBit, bitAt. set (w := wordOf f (bit / 64)). set (m := bit mod 64) in *.
  destruct (Z.testbit w m) eqn:E.
  - apply negb_true_iff, Z.eqb_neq. intros Hz. apply (f_equal (λ z, Z.testbit z m)) in Hz.
    rewrite Z.land_spec, E, testbit_one, bool_decide_true, Z.testbit_0_l in Hz by lia. done.
  - apply negb_false_iff, Z.eqb_eq. apply Z.bits_inj'. intros n Hn. rewrite Z.land_spec, Z.testbit_0_l, testbit_one by lia.
    case_bool_decide; [subst n; by rewrite E|apply andb_false_r].
Qed.

Lemma setBit_wf f bit : bit_ok bit → bloom_wf f → bloom_wf (setBit f bit).
Proof.
  intros Hb [Hl Hf]. destruct (bit_word bit Hb) as [_ Hm]. split; [by unfold setBit; rewrite length_insert|]. apply Forall_insert; [done|].
  apply bits_u64.
  - apply Z.lor_nonneg. split; [by apply wordOf_range|]. apply Z.shiftl_nonneg. lia.
  - intros n Hn. rewrite Z.lor_spec, testbit_one, (u64_bits _ n) by (done || lia || by apply wordOf_range).
    apply bool_decide_eq_false. lia.
Qed.

Lemma setBit_bitAt f bit bit' : bit_ok bit → bit_ok bit' → bloom_wf f → bitAt (setBit f bit) bit' = bitAt f bit' || bool_decide (bit' = bit).
Proof.
  intros Hb Hb' [Hl _]. destruct (bit_word bit Hb) as [Hw Hm], (bit_word bit' Hb') as [Hw' Hm']. unfold bitAt, setBit, wordOf at 1.
  unfold bit_ok in *. destruct (decide (bit' / 64 = bit / 64)) as [E|Hne].
  - rewrite E, list_lookup_insert_eq by (by rewrite Hl). cbn. rewrite Z.lor_spec, testbit_one by lia. f_equal.
    apply bool_decide_ext. split; [intros Em; rewrite (Z.div_mod bit' 64), (Z.div_mod bit 64) by lia; congruence|by intros ->].
  - rewrite list_lookup_insert_ne by (pose proof (Z.div_pos bit 64); pose proof (Z.div_pos bit' 64); lia). fold (wordOf f (bit' / 64)). rewrite bool_decide_false by (intros ->; done). by rewrite orb_false_r.
Qed.

Lemma setBits f bits :
  Forall bit_ok bits → bloom_wf f →
  bloom_wf (fold_left setBit bits f) ∧
  ∀ bit, bit_ok bit → bitAt (fold_left setBit bits f) bit = bitAt f bit || bool_decide (bit ∈ bits).
Proof.
  intros Hbs. revert f. induction Hbs as [|b bits Hb Hbs IH]; intros f Hf; cbn [fold_left].
  { split; [done|]. intros bit _. by rewrite bool_decide_false, orb_false_r by apply not_elem_of_nil. }
  destruct (IH (setBit f b) (setBit_wf f b Hb Hf)) as [Hwf Hbit]. split; [done|]. intros bit Hok. rewrite Hbit, setBit_bitAt by done.
  rewrite <-orb_assoc. f_equal. rewrite <-bool_decide_or. apply bool_decide_ext. by rewrite elem_of_cons.
Qed.

Lemma BloomAdd_wf key f : bloom_wf f → bloom_wf (BloomAdd key f).
Proof. intros Hf. by apply (setBits f _ (bloomProbes_ok key)). Qed.

Lemma MaybeContains_bits key f : MaybeContains key f = true ↔ Forall (λ bit, bitAt f bit = true) (bloomProbes key).
Proof.
  unfold MaybeContains. rewrite forallb_forall, Forall_forall. pose proof (bloomProbes_ok key) as Hok. rewrite Forall_forall in Hok.
  split; intros Hall bit Hbit; [rewrite <-hasBit_bitAt by auto|apply list_elem_of_In in Hbit; rewrite hasBit_bitAt by auto; auto].
  by apply Hall, list_elem_of_In.
Qed.

(** A filter contains the keys added to it, and keeps those it contained. *)
Lemma BloomAdd_contains key key' f :
  bloom_wf f → key' = key ∨ MaybeContains key' f = true → MaybeContains key' (BloomAdd key f) = true.
Proof.
  intros Hf Hor. destruct (setBits f _ (bloomProbes_ok key) Hf) as [_ Hbits]. apply MaybeContains_bits.
  pose proof (bloomProbes_ok key') as Hok. rewrite Forall_forall in Hok |- *. intros bit Hbit. unfold BloomAdd. rewrite Hbits by auto.
  apply orb_true_iff. destruct Hor as [->|Hc]; [right; by apply bool_decide_eq_true|left].
  apply MaybeContains_bits in Hc. rewrite Forall_forall in Hc. auto.
Qed.

(** ** The wire form of a filter *)

Lemma le_put_u64_length w : length (le_put_u64 w) = 8%nat.
Proof. unfold le_put_u64. by rewrite length_reverse, length_put_u64. Qed.

Lemma le_get_put w : in_u64 w → le_get_u64 (le_put_u64 w) = w.
Proof. intros Hw. unfold le_get_u64, le_put_u64. rewrite reverse_involutive, <-(app_nil_r (put_u64 w)). by apply get_put_u64. Qed.

Lemma words_split (f : list Z) (n i : nat) :
  length f = n → (i < n)%nat → take 8 (drop (i * 8) (mjoin (le_put_u64 <$> f))) = le_put_u64 (default 0 (f !! i)).
Proof.
  revert n i. induction f as [|w f IH]; intros n i <- Hi; [cbn in Hi; lia|].
  change (mjoin (le_put_u64 <$> w :: f)) with (le_put_u64 w ++ mjoin (le_put_u64 <$> f)). destruct i as [|i].
  - rewrite drop_0, take_app_length' by (by rewrite le_put_u64_length). done.
  - cbn [length] in Hi. rewrite drop_app_ge by (rewrite le_put_u64_length; lia). rewrite le_put_u64_length.
    replace (S i * 8 - 8)%nat with (i * 8)%nat by lia. apply (IH (length f)); [done|lia].
Qed.

Lemma BloomFromBytes_Bytes f : bloom_wf f → BloomFromBytes (BloomBytes f) = f.
Proof.
  intros [Hl Hf]. unfold BloomFromBytes. assert (length (BloomBytes f) = bloomWords * 8)%nat as Hlen.
  { rewrite <-Hl. unfold BloomBytes. clear Hl Hf. induction f as [|w f IH]; [done|].
    change (mjoin (le_put_u64 <$> w :: f)) with (le_put_u64 w ++ mjoin (le_put_u64 <$> f)). cbn [length]. rewrite length_app, IH, le_put_u64_length. lia. }
  rewrite Hlen, Nat.eqb_refl. cbn [negb]. apply list_eq. intros i. rewrite list_lookup_fmap. destruct (decide (i < bloomWords)%nat) as [Hi|Hi].
  - rewrite lookup_seq_lt by done. cbn [fmap option_fmap option_map]. unfold BloomBytes. rewrite (words_split f bloomWords) by done.
    destruct (lookup_lt_is_Some_2 f i ltac:(lia)) as [w Hw]. rewrite Hw. cbn. f_equal. rewrite Hw. apply le_get_put. by eapply Forall_lookup_1.
  - rewrite lookup_seq_ge by lia. cbn. symmetry. apply lookup_ge_None. lia.
Qed.

(** ** Sketches *)

Definition hll_wf (h : HLL) : Prop := length h = hllM ∧ Forall (λ r, 0 ≤ r ≤ hllMaxR) h.

Lemma NewHLL_wf : hll_wf NewHLL.
Proof. split; [apply length_replicate|]. apply Forall_replicate. unfold hllMaxR, hllP. lia. Qed.

Lemma LeadingZeros64_range x : in_u64 x → 0 ≤ LeadingZeros64 x ≤ 64.
Proof.
  intros [H0 H1]. unfold LeadingZeros64. case_match; [lia|]. pose proof (Z.log2_nonneg x). assert (Z.log2 x < 64) by (apply Z.log2_lt_pow2; lia). lia.
Qed.

Lemma hllRho_range key : 1 ≤ hllRho key ≤ hllMaxR.
Proof.
  unfold hllRho. pose proof (LeadingZeros64_range _ (uint64_range (Z.shiftl (hllHash key) hllP))) as Hr. set (z := LeadingZeros64 _) in *.
  unfold hllMaxR, hllP in *. case_match; lia.
Qed.

Lemma HLLAdd_wf key h : hll_wf h → hll_wf (HLLAdd key h).
Proof.
  intros [Hl Hf]. unfold HLLAdd. case_match; [|done]. split; [by rewrite length_insert|]. apply Forall_insert; [done|].
  pose proof (hllRho_range key). lia.
Qed.

Lemma HLLMerge_wf o h : hll_wf h → match o with Some o => hll_wf o | None => True end → hll_wf (HLLMerge o h).
Proof.
  intros [Hl Hf]. destruct o as [o|]; [|done]. intros [Hlo Hfo]. unfold HLLMerge. split; [rewrite length_zip_with, Hl, Hlo; lia|].
  apply Forall_lookup_2. intros i r (x & y & -> & Hx & Hy)%lookup_zip_with_Some.
  pose proof (Forall_lookup_1 _ _ _ _ Hf Hx). pose proof (Forall_lookup_1 _ _ _ _ Hfo Hy). cbn in *. case_match; lia.
Qed.

(** A register of a sketch. *)
Definition reg (h : HLL) (i : nat) : Z := default 0 (h !! i).

Lemma u64_lxor x y : in_u64 x → in_u64 y → in_u64 (Z.lxor x y).
Proof.
  intros Hx Hy. apply bits_u64; [apply Z.lxor_nonneg; unfold in_u64 in *; lia|].
  intros n Hn. by rewrite Z.lxor_spec, !u64_bits.
Qed.

Lemma u64_shiftr x n : in_u64 x → 0 ≤ n → in_u64 (Z.shiftr x n).
Proof.
  intros Hx Hn. apply bits_u64; [apply Z.shiftr_nonneg; unfold in_u64 in *; lia|]. intros m Hm. rewrite Z.shiftr_spec by lia. apply u64_bits; [done|lia].
Qed.

Lemma hllIndex_lt key : (hllIndex key < hllM)%nat.
Proof.
  unfold hllIndex. assert (in_u64 (hllHash key)) as Hh.
  { unfold hllHash. repeat apply u64_lxor; repeat apply u64_shiftr; try apply uint64_range; try lia. }
  unfold hllP, in_u64 in *. rewrite Z.shiftr_div_pow2 by lia. change (2 ^ (64 - 14)) with 1125899906842624.
  assert (hllHash key / 1125899906842624 < 16384) by (apply Z.div_lt_upper_bound; [lia|]; destruct Hh as [_ Hh]; eapply Z.lt_le_trans; [exact Hh|]; done).
  replace hllM with (Z.to_nat 16384) by (vm_compute; reflexivity). lia.
Qed.

Lemma HLLAdd_reg key h i : hll_wf h → reg (HLLAdd key h) i = if decide (hllIndex key = i) then Z.max (reg h i) (hllRho key) else reg h i.
Proof.
  intros [Hl _]. unfold HLLAdd. fold (reg h (hllIndex key)). pose proof (hllIndex_lt key) as Hi. case_decide as Hk.
  - subst i. case_match; [|lia]. unfold reg at 1. rewrite list_lookup_insert_eq by (by rewrite Hl). cbn. lia.
  - case_match; [|done]. unfold reg. by rewrite list_lookup_insert_ne.
Qed.

Lemma HLLMerge_reg o h i : hll_wf o → hll_wf h → reg (HLLMerge (Some o) h) i = Z.max (reg h i) (reg o i).
Proof.
  intros [Hlo _] [Hl _]. unfold reg, HLLMerge. rewrite lookup_zip_with. destruct (h !! i) as [x|] eqn:Ex, (o !! i) as [y|] eqn:Ey; cbn.
  - case_match; lia.
  - apply lookup_lt_Some in Ex. apply lookup_ge_None in Ey. lia.
  - apply lookup_lt_Some in Ey. apply lookup_ge_None in Ex. lia.
  - done.
Qed.

Lemma hll_ext h1 h2 : hll_wf h1 → hll_wf h2 → (∀ i, reg h1 i = reg h2 i) → h1 = h2.
Proof.
  intros [H1 _] [H2 _] Hr. apply list_eq. intros i. specialize (Hr i). unfold reg in Hr.
  destruct (h1 !! i) as [x|] eqn:Ex, (h2 !! i) as [y|] eqn:Ey; cbn in Hr; [by subst| | |done].
  - apply lookup_lt_Some in Ex. apply lookup_ge_None in Ey. lia.
  - apply lookup_lt_Some in Ey. apply lookup_ge_None in Ex. lia.
Qed.

(** The sketch of a list of keys. *)
Definition sketchFrom (h : HLL) (ks : list bytes) : HLL := fold_left (λ h k, HLLAdd k h) ks h.
Definition sketch (ks : list bytes) : HLL := sketchFrom NewHLL ks.

Lemma sketchFrom_wf h ks : hll_wf h → hll_wf (sketchFrom h ks).
Proof. revert h. induction ks as [|k ks IH]; intros h Hh; [done|]. by apply IH, HLLAdd_wf. Qed.

Lemma sketch_wf ks : hll_wf (sketch ks).
Proof. apply sketchFrom_wf, NewHLL_wf. Qed.

(** A register is the largest rank of the keys that fall into it. *)
Lemma sketchFrom_reg h ks i b : hll_wf h → reg (sketchFrom h ks) i ≤ b ↔ reg h i ≤ b ∧ ∀ k, k ∈ ks → hllIndex k = i → hllRho k ≤ b.
Proof.
  revert h. induction ks as [|k ks IH]; intros h Hh.
  { split; [intros Hb; split; [done|]; by intros ? ?%not_elem_of_nil|by intros [? _]]. }
  cbn [sketchFrom fold_left]. fold (sketchFrom (HLLAdd k h) ks). rewrite IH, HLLAdd_reg by auto using HLLAdd_wf. case_decide as Hk; split.
  - intros [Hb Hall]. split; [lia|]. intros k' [->|Hk']%elem_of_cons ?; [lia|auto].
  - intros [Hb Hall]. pose proof (Hall k ltac:(by left) Hk). split; [lia|]. intros k' Hk'. apply Hall. by right.
  - intros [Hb Hall]. split; [done|]. intros k' [->|Hk']%elem_of_cons ?; [done|auto].
  - intros [Hb Hall]. split; [done|]. intros k' Hk'. apply Hall. by right.
Qed.

Lemma sketch_reg ks i b : reg (sketch ks) i ≤ b ↔ 0 ≤ b ∧ ∀ k, k ∈ ks → hllIndex k = i → hllRho k ≤ b.
Proof.
  unfold sketch. rewrite sketchFrom_reg by apply NewHLL_wf. assert (reg NewHLL i = 0) as ->; [|done]. unfold reg, NewHLL.
  destruct (decide (i < hllM)%nat); [by rewrite lookup_replicate_2|]. by rewrite (proj2 (lookup_ge_None _ _)) by (rewrite length_replicate; lia).
Qed.

(** Two numbers with the same upper bounds are equal. *)
Lemma bounds_eq x y : (∀ b, x ≤ b ↔ y ≤ b) → x = y.
Proof. intros Hb. pose proof (Hb x). pose proof (Hb y). lia. Qed.

(** The order and the number of times keys are added make no difference. *)
Lemma sketch_ext ks ks' : (∀ k, k ∈ ks ↔ k ∈ ks') → sketch ks = sketch ks'.
Proof.
  intros Hk. apply hll_ext; [apply sketch_wf..|]. intros i. apply bounds_eq. intros b. rewrite !sketch_reg. setoid_rewrite Hk. done.
Qed.

(** Merging sketches is the sketch of all the keys. *)
Lemma HLLMerge_sketch ks ks' : HLLMerge (Some (sketch ks')) (sketch ks) = sketch (ks ++ ks').
Proof.
  apply hll_ext; [apply HLLMerge_wf; apply sketch_wf|apply sketch_wf|]. intros i. apply bounds_eq. intros b.
  rewrite HLLMerge_reg, Z.max_lub_iff, !sketch_reg by apply sketch_wf. setoid_rewrite elem_of_app. split.
  - intros [[Hb H1] [_ H2]]. split; [done|]. intros k [Hk|Hk]; auto.
  - intros [Hb Hk]. split; (split; [done|]); auto.
Qed.

Lemma HLLFromBytes_Bytes h : hll_wf h → HLLFromBytes (HLLBytes h) = h.
Proof.
  intros [Hl Hf]. unfold HLLFromBytes, HLLBytes. rewrite length_fmap, Hl, Nat.eqb_refl. cbn [negb]. rewrite <-list_fmap_compose.
  rewrite <-(list_fmap_id h) at 2. apply list_fmap_ext. intros i r Hr. cbn. rewrite byteZ_Zbyte.
  pose proof (Forall_lookup_1 _ _ _ _ Hf Hr) as Hb. cbn in Hb. unfold hllMaxR, hllP in Hb. apply Z.mod_small. lia.
Qed.

(** ** Gossip of holder summaries *)

(** A key a node came to hold, and when. *)
Abbreviation heldOp := (bytes * bytes * Z)%type.
Definition opKey (op : heldOp) : bytes := combinedKey op.1.1 op.1.2.

(** The directory of a node that came to hold these keys. *)
Definition announcing (self : bytes) (ops : list heldOp) : Directory :=
  fold_left (λ d op, AddHeldKey op.1.1 op.1.2 op.2 d) ops (NewDirectory self).

Lemma announcing_snoc self ops op : announcing self (ops ++ [op]) = AddHeldKey op.1.1 op.1.2 op.2 (announcing self ops).
Proof. unfold announcing. by rewrite fold_left_app. Qed.

Record announced (self : bytes) (ops : list heldOp) (d : Directory) : Prop := {
  an_self : dr_self d = self;
  an_wf : bloom_wf (dr_own d);
  an_own k : k ∈ opKey <$> ops → MaybeContains k (dr_own d) = true;
  an_hll : dr_ownHLL d = sketch (opKey <$> ops);
  an_gen : dr_ownGen d = default 0 (snd <$> list.last ops);
  an_peers : dr_peers d = ∅;
}.

Lemma announcing_ok self ops : announced self ops (announcing self ops).
Proof.
  induction ops as [|op ops IH] using rev_ind; [split; try done; [apply NewBloom_wf|by intros k ?%not_elem_of_nil]|].
  rewrite announcing_snoc. destruct IH as [? ? Hown Hhll ? ?]. split; cbn [AddHeldKey dr_self dr_own dr_ownHLL dr_ownGen dr_peers]; try done.
  - by apply BloomAdd_wf.
  - intros k. rewrite fmap_app, elem_of_app. intros [Hk|Hk]; apply BloomAdd_contains; auto. left. by apply list_elem_of_singleton in Hk.
  - rewrite Hhll, fmap_app. unfold sketch, sketchFrom. by rewrite fold_left_app.
  - by rewrite last_snoc.
Qed.

(** What a peer reads back from a summary. *)
Definition parsed (d : Directory) : peerSummary :=
  mkPeerSummary (dr_own d) (dr_ownHLL d) 0 (sortedNames (dr_ownNS d)) (dr_ownGen d).

Lemma parse_summary self ops :
  let d := announcing self ops in
  mkPeerSummary (BloomFromBytes (hs_Bloom (OwnSummary d))) (HLLFromBytes (hs_HLL (OwnSummary d))) (hs_ApproxKeys (OwnSummary d))
    (hs_Namespaces (OwnSummary d)) (hs_GeneratedAtUnixMs (OwnSummary d)) = parsed d.
Proof.
  intros d. destruct (announcing_ok self ops) as [_ Hwf _ Hhll _ _]. fold d in Hwf, Hhll. cbn [OwnSummary hs_Bloom hs_HLL].
  rewrite BloomFromBytes_Bytes by done. by rewrite HLLFromBytes_Bytes by (rewrite Hhll; apply sketch_wf).
Qed.

Lemma subseteq_take_le {A : Type} (l : list A) (n m : nat) x : (n ≤ m)%nat → x ∈ take n l → x ∈ take m l.
Proof.
  intros Hle [i [Hi Hlt]%lookup_take_Some]%list_elem_of_lookup. apply list_elem_of_lookup. exists i. apply lookup_take_Some. split; [done|lia].
Qed.

Lemma elem_of_snoc {A : Type} (x y : A) l : x ∈ l ++ [y] ↔ x ∈ l ∨ x = y.
Proof. by rewrite elem_of_app, list_elem_of_singleton. Qed.

Lemma sorted_lookup (l : list Z) (i j : nat) x y : StronglySorted Z.lt l → l !! i = Some x → l !! j = Some y → (i < j)%nat → x < y.
Proof.
  intros Hl. revert i j. induction Hl as [|z l Hl IH Hz]; intros i j Hi Hj Hlt; [done|]. destruct j as [|j]; [lia|].
  cbn in Hj. destruct i as [|i]; [|apply (IH i j); [done|done|lia]]. injection Hi as ->. by eapply (Forall_lookup_1 _ _ _ _ Hz).
Qed.

Lemma unionHLL_reg isAlive d :
  hll_wf (dr_ownHLL d) → (∀ id s, dr_peers d !! id = Some s → hll_wf (ps_hll s)) →
  hll_wf (unionHLL isAlive d) ∧ ∀ i b, reg (unionHLL isAlive d) i ≤ b ↔
    0 ≤ b ∧ reg (dr_ownHLL d) i ≤ b ∧ ∀ id s, dr_peers d !! id = Some s → aliveIn isAlive id = true → reg (ps_hll s) i ≤ b.
Proof.
  intros Hown Hpeers. unfold unionHLL. set (f := λ member s u, if aliveIn isAlive member then HLLMerge (Some (ps_hll s)) u else u).
  revert Hpeers. apply (map_fold_weak_ind (λ u peers, (∀ id s, peers !! id = Some s → hll_wf (ps_hll s)) → hll_wf u ∧ ∀ i b, reg u i ≤ b ↔
    0 ≤ b ∧ reg (dr_ownHLL d) i ≤ b ∧ ∀ id s, peers !! id = Some s → aliveIn isAlive id = true → reg (ps_hll s) i ≤ b)).
  - intros _. split; [by apply HLLMerge_wf; [apply NewHLL_wf|]|]. intros i b. rewrite HLLMerge_reg by (done || apply NewHLL_wf).
    change NewHLL with (sketch []). rewrite Z.max_lub_iff, sketch_reg. split; [intros [[? _] ?]; split_and!; [done..|]; intros id s; by rewrite lookup_empty|].
    intros (? & ? & _). split; [split; [done|]; by intros ? ?%not_elem_of_nil|done].
  - intros id s m u Hid IH Hwf. destruct IH as [Hu Hreg].
    { intros id' s' Hs'. apply (Hwf id'). by rewrite lookup_insert_ne by congruence. }
    assert (hll_wf (ps_hll s)) as Hs by (apply (Hwf id); by rewrite lookup_insert_eq).
    assert (∀ i b, (∀ id' s', <[id := s]> m !! id' = Some s' → aliveIn isAlive id' = true → reg (ps_hll s') i ≤ b) ↔
      (aliveIn isAlive id = true → reg (ps_hll s) i ≤ b) ∧ ∀ id' s', m !! id' = Some s' → aliveIn isAlive id' = true → reg (ps_hll s') i ≤ b) as Hins.
    { intros i b. split.
      - intros Hall. split; [apply Hall; by rewrite lookup_insert_eq|]. intros id' s' Hs'. apply Hall. by rewrite lookup_insert_ne by congruence.
      - intros [H1 H2] id' s'. destruct (decide (id' = id)) as [->|Hne]; [rewrite lookup_insert_eq; by intros [= <-]|].
        rewrite lookup_insert_ne by done. apply H2. }
    unfold f. destruct (aliveIn isAlive id) eqn:Ea.
    + split; [by apply HLLMerge_wf|]. intros i b. rewrite HLLMerge_reg, Z.max_lub_iff, Hreg, Hins by done. intuition.
    + split; [done|]. intros i b. rewrite Hreg, Hins. intuition. done.
Qed.

(** What a fetch asks, and whom. *)

Lemma memberByID_id members id m : memberByID members id = Some m → MemberID m = id.
Proof.
  unfold memberByID. destruct (list_find _ members) as [[i mv]|] eqn:E; [|done]. intros [= <-].
  by apply list_find_Some in E as (_ & [<- _] & _).
Qed.

Lemma sink_perm graph m sorted : sink graph m sorted ≡ₚ m :: sorted.
Proof. induction sorted as [|x sorted IH]; [done|]. cbn. case_match; [rewrite IH; apply Permutation_swap|done]. Qed.

Lemma orderHolders_elem graph members ids m : m ∈ orderHoldersByLatency graph members ids ↔ ∃ id, id ∈ ids ∧ memberByID members id = Some m.
Proof.
  unfold orderHoldersByLatency. rewrite elem_of_reverse, <-list_elem_of_omap. generalize (omap (memberByID members) ids) as l. intros l.
  assert (∀ acc, fold_left (λ sorted m, sink graph m sorted) l acc ≡ₚ l ++ acc) as Hp; [|rewrite Hp; by rewrite app_nil_r].
  induction l as [|x l IH]; intros acc; [done|]. cbn [fold_left]. rewrite IH, sink_perm. by rewrite <-Permutation_middle.
Qed.

Section FetchFrom.
Context (members : list MemberView) (rpc : bytes → bytes → bytes → option FetchReplicaResponse) (ns key : bytes).

Lemma fetchFrom_finds m rec candidates :
  m ∈ candidates → (∃ r, rpc (DataAddr m) ns key = Some r ∧ fr_Found r = true ∧ fr_Record r = rec) → ∃ f, fetchFrom members rpc ns key candidates = Some f.
Proof.
  intros Hm (r & Hr & Hf & _). induction candidates as [|x candidates IH]; [by apply not_elem_of_nil in Hm|]. cbn.
  apply elem_of_cons in Hm as [<-|Hm]; [rewrite Hr, Hf; by eexists|]. repeat case_match; eauto.
Qed.

Lemma fetchAlternates_sound alts f :
  fetchAlternates members rpc ns key alts = Some f →
  ∃ m, memberByID members (fe_Source f) = Some m ∧ ∃ r, rpc (DataAddr m) ns key = Some r ∧ fr_Found r = true ∧ fr_Record r = fe_Record f.
Proof.
  induction alts as [|alt alts IH]; [done|]. cbn. destruct (memberByID members alt) as [am|] eqn:Em; [|done].
  destruct (rpc (DataAddr am) ns key) as [r|] eqn:Er; [|done]. destruct (fr_Found r) eqn:Ef; [|done]. intros [= <-]. exists am.
  cbn [fe_Source fe_Record]. rewrite (memberByID_id _ _ _ Em). eauto.
Qed.

Lemma fetchFrom_sound candidates f :
  fetchFrom members rpc ns key candidates = Some f → (∀ m, m ∈ candidates → memberByID members (MemberID m) = Some m) →
  ∃ m, memberByID members (fe_Source f) = Some m ∧ ∃ r, rpc (DataAddr m) ns key = Some r ∧ fr_Found r = true ∧ fr_Record r = fe_Record f.
Proof.
  intros Hf Hc. induction candidates as [|x candidates IH]; [done|]. cbn in Hf.
  assert (∀ m, m ∈ candidates → memberByID members (MemberID m) = Some m) as Hc' by (intros m Hm; apply Hc; by right).
  destruct (rpc (DataAddr x) ns key) as [r|] eqn:Er; [|by apply IH]. destruct (fr_Found r) eqn:Ef.
  - injection Hf as <-. exists x. cbn [fe_Source fe_Record]. split; [apply Hc; by left|eauto].
  - destruct (fetchAlternates _ _ _ _ _) as [f'|] eqn:Ea; [|by apply IH]. injection Hf as <-. by eapply fetchAlternates_sound.
Qed.

End FetchFrom.

Section Gossip.
(** What each node came to hold, at strictly increasing times. *)
Context (ops : bytes → list heldOp) (self : bytes) (Htimes : ∀ id, StronglySorted Z.lt (0 :: (snd <$> ops id))).

(** The directory of node [id] after the first [n] keys. *)
Definition dirAt (id : bytes) (n : nat) : Directory := announcing id (take n (ops id)).

(** The directory of [self] after it learned the summaries [anns]: node, number of keys. *)
Definition learned (anns : list (bytes * nat)) : Directory :=
  fold_left (λ d a, ApplyPeerSummary (OwnSummary (dirAt a.1 a.2)) d) anns (announcing self (ops self)).

Lemma gen_mono id (n m : nat) : (n ≤ length (ops id))%nat → (m ≤ length (ops id))%nat → dr_ownGen (dirAt id n) ≤ dr_ownGen (dirAt id m) ↔ (n ≤ m)%nat.
Proof.
  intros Hn Hm. unfold dirAt. rewrite !(an_gen _ _ _ (announcing_ok _ _)).
  assert (∀ p, (p ≤ length (ops id))%nat → (0 :: (snd <$> ops id)) !! p = Some (default 0 (snd <$> list.last (take p (ops id))))) as Hp.
  { intros [|p] Hp; [done|]. transitivity ((snd <$> ops id) !! p); [done|]. rewrite list_lookup_fmap.
    destruct (lookup_lt_is_Some_2 (ops id) p ltac:(lia)) as [x Hx]. rewrite last_lookup, length_take, Nat.min_l by lia. cbn [Nat.pred].
    rewrite lookup_take_lt by lia. by rewrite Hx. }
  pose proof (Hp n Hn) as En. pose proof (Hp m Hm) as Em. set (tn := default 0 _) in *. set (tm := default 0 (_ <$> list.last (take m _))) in *.
  specialize (Htimes id). split; [intros Hle|intros Hle].
  - destruct (decide (n ≤ m)%nat) as [|Hgt]; [done|]. pose proof (sorted_lookup _ _ _ _ _ Htimes Em En ltac:(lia)). lia.
  - destruct (decide (n = m)) as [->|Hne]; [done|].
    pose proof (sorted_lookup _ _ _ _ _ Htimes En Em ltac:(lia)). lia.
Qed.

(** A peer is known by the longest history it announced. *)
Record knows (anns : list (bytes * nat)) (d : Directory) : Prop := {
  kn_self : dr_self d = self;
  kn_own : dr_ownHLL d = sketch (opKey <$> ops self);
  kn_from id s : dr_peers d !! id = Some s → (id ≠ [] ∧ id ≠ self) ∧
    ∃ n, (id, n) ∈ anns ∧ s = parsed (dirAt id n) ∧ ∀ n', (id, n') ∈ anns → (n' ≤ n)%nat;
  kn_to id n : (id, n) ∈ anns → id ≠ [] → id ≠ self → is_Some (dr_peers d !! id);
}.

Lemma learned_snoc anns id n :
  learned (anns ++ [(id, n)]) =
    let d := learned anns in
    if bool_decide (id = []) || bool_decide (id = dr_self d) then d
    else if match dr_peers d !! id with Some cur => dr_ownGen (dirAt id n) <=? ps_generated cur | None => false end then d
    else mkDirectory (dr_self d) (dr_own d) (dr_ownHLL d) (dr_ownNS d) (dr_ownGen d) (<[id := parsed (dirAt id n)]> (dr_peers d)) (dr_changed d).
Proof.
  unfold learned. rewrite fold_left_app. cbn [fold_left fst snd]. fold (learned anns). unfold ApplyPeerSummary.
  pose proof (parse_summary id (take n (ops id))) as Ep. fold (dirAt id n) in Ep. cbv zeta in Ep. rewrite Ep.
  cbn [OwnSummary hs_MemberID hs_GeneratedAtUnixMs]. by rewrite (an_self _ _ _ (announcing_ok id (take n (ops id)) : announced _ _ (dirAt id n))).
Qed.

Lemma learned_knows anns : Forall (λ a, (a.2 ≤ length (ops a.1))%nat) anns → knows anns (learned anns).
Proof.
  induction anns as [|[id n] anns IH] using rev_ind; intros Hlen.
  { destruct (announcing_ok self (ops self)) as [? ? ? ? ? Hp]. split; try done.
    - intros id s. unfold learned. cbn [fold_left]. by rewrite Hp, lookup_empty.
    - by intros id n ?%not_elem_of_nil. }
  apply Forall_app in Hlen as [Hlen [Hn _]%Forall_cons]. cbn [fst snd] in Hn. destruct (IH Hlen) as [Hs Ho Hfrom Hto]. clear IH.
  rewrite Forall_forall in Hlen. rewrite learned_snoc. cbv zeta. rewrite Hs.
  destruct (bool_decide (id = []) || bool_decide (id = self)) eqn:Esk.
  { apply orb_true_iff in Esk. rewrite !bool_decide_eq_true in Esk. split; [done..| |].
    - intros id' s Hid. destruct (Hfrom id' s Hid) as ([? ?] & n' & Hin & Es & Hmax). split; [done|]. exists n'.
      setoid_rewrite elem_of_snoc. split_and!; [by left|done|]. intros n'' [?|[= -> ->]]; [auto|]. by destruct Esk.
    - intros id' n' [?|[= -> ->]]%elem_of_snoc ? ?; [by eapply Hto|]. by destruct Esk. }
  apply orb_false_iff in Esk as [Hnil Hself]. apply bool_decide_eq_false in Hnil, Hself.
  destruct (match dr_peers (learned anns) !! id with Some _ => _ | None => _ end) eqn:Eold.
  - destruct (dr_peers (learned anns) !! id) as [cur|] eqn:Ecur; [|done]. apply Z.leb_le in Eold.
    destruct (Hfrom id cur Ecur) as (_ & m & Hm & -> & Hmax). apply gen_mono in Eold; [|done|by apply (Hlen (id, m))]. split; [done..| |].
    + intros id' s Hid. destruct (Hfrom id' s Hid) as (Hne & n' & Hin & Es & Hmax'). split; [done|]. exists n'.
      setoid_rewrite elem_of_snoc. split_and!; [by left|done|]. intros n'' [?|[= -> ->]]; [auto|].
      rewrite Ecur in Hid. injection Hid as <-. etransitivity; [exact Eold|]. auto.
    + intros id' n' [?|[= -> ->]]%elem_of_snoc ? ?; [by eapply Hto|by eexists].
  - split; cbn [dr_self dr_ownHLL dr_peers]; [done..| |].
    + intros id' s. setoid_rewrite elem_of_snoc. destruct (decide (id' = id)) as [->|Hne].
      * rewrite lookup_insert_eq. intros [= <-]. split; [done|]. exists n. split_and!; [by right|done|]. intros n' [Hn'|[= ->]]; [|done].
        destruct (Hto id n' Hn' Hnil Hself) as [cur Ecur]. destruct (Hfrom id cur Ecur) as (_ & m & Hm & -> & Hmax). rewrite Ecur in Eold.
        apply Z.leb_gt in Eold. cbn [parsed ps_generated] in Eold. etransitivity; [by apply Hmax|].
        apply (gen_mono id m n); [by apply (Hlen (id, m))|done|lia].
      * rewrite lookup_insert_ne by done. intros Hid. destruct (Hfrom id' s Hid) as (? & n' & Hin & Es & Hmax). split; [done|]. exists n'.
        split_and!; [by left|done|]. intros n'' [?|[= -> ->]]; [auto|done].
    + intros id' n' [?|[= -> ->]]%elem_of_snoc ? ?; [|rewrite lookup_insert_eq; by eexists].
      destruct (decide (id' = id)) as [->|Hne]; [rewrite lookup_insert_eq; by eexists|]. rewrite lookup_insert_ne by done. by eapply Hto.
Qed.

(** For every key a summary announced, the member that announced it is among the likely
    holders, stale and repeated summaries notwithstanding. *)
Lemma announced_resolved (anns : list (bytes * nat)) (iter : list bytes → list bytes) (id : bytes) (n : nat) (ns key : bytes) (t : Z) :
  Forall (λ a, (a.2 ≤ length (ops a.1))%nat) anns → (∀ l, iter l ≡ₚ l) → (id, n) ∈ anns → id ≠ [] → id ≠ self →
  (ns, key, t) ∈ take n (ops id) → id ∈ ResolveHolders iter ns key (learned anns).
Proof.
  intros Hlen Hiter Hin Hnil Hself Hk. destruct (learned_knows anns Hlen) as [_ _ Hfrom Hto].
  destruct (Hto id n Hin Hnil Hself) as [s Hs]. destruct (Hfrom id s Hs) as (_ & m & _ & -> & Hmax).
  unfold ResolveHolders. apply list_elem_of_filter. rewrite Hs. split.
  - cbn [parsed ps_bloom]. apply (an_own _ _ _ (announcing_ok id (take m (ops id)))). apply list_elem_of_fmap. exists (ns, key, t). split; [done|].
    eapply subseteq_take_le; [by apply Hmax|done].
  - rewrite Hiter. apply list_elem_of_fmap. eexists (_, _). split; [|by apply elem_of_map_to_list]. done.
Qed.

(** Sketches add up. The union the key-count estimate reads is the sketch of the keys of this
    node and of those the alive peers announced, each counted once. *)
Theorem union_sketch_exact (anns : list (bytes * nat)) (isAlive : option (bytes → bool)) (ks : list bytes) :
  Forall (λ a, (a.2 ≤ length (ops a.1))%nat) anns →
  (∀ k, k ∈ ks ↔ k ∈ opKey <$> ops self ∨
     ∃ id n, (id, n) ∈ anns ∧ id ≠ [] ∧ id ≠ self ∧ aliveIn isAlive id = true ∧ k ∈ opKey <$> take n (ops id)) →
  unionHLL isAlive (learned anns) = sketch ks.
Proof.
  intros Hlen Hks. destruct (learned_knows anns Hlen) as [_ Ho Hfrom Hto].
  assert (∀ id s, dr_peers (learned anns) !! id = Some s → ∃ n, (id, n) ∈ anns ∧ ps_hll s = sketch (opKey <$> take n (ops id)) ∧
    ∀ n', (id, n') ∈ anns → (n' ≤ n)%nat) as Hhll.
  { intros id s Hs. destruct (Hfrom id s Hs) as (_ & n & Hin & -> & Hmax). exists n. split_and!; [done| |done].
    apply (an_hll _ _ _ (announcing_ok id (take n (ops id)))). }
  destruct (unionHLL_reg isAlive (learned anns)) as [Hwf Hreg]; [rewrite Ho; apply sketch_wf| |].
  { intros id s (n & _ & -> & _)%Hhll. apply sketch_wf. }
  apply hll_ext; [done|apply sketch_wf|]. intros i. apply bounds_eq. intros b. rewrite Hreg, Ho, !sketch_reg. split.
  - intros (Hb & [_ Hown] & Hpeer). split; [done|]. intros k [Hk|(id & n & Hin & Hnil & Hself & Hal & Hk)]%Hks; [by apply Hown|].
    destruct (Hto id n Hin Hnil Hself) as [s Hs]. destruct (Hhll id s Hs) as (m & _ & Em & Hmax). specialize (Hpeer id s Hs Hal).
    rewrite Em, sketch_reg in Hpeer. apply Hpeer. apply list_elem_of_fmap in Hk as (op & -> & Hop). apply list_elem_of_fmap_2.
    eapply subseteq_take_le; [by apply Hmax|done].
  - intros [Hb Hall]. split_and!; [done|done|intros k Hk; apply Hall, Hks; by left|]. intros id s Hs Hal.
    destruct (Hfrom id s Hs) as ([Hnil Hself] & _). destruct (Hhll id s Hs) as (m & Hm & -> & _). rewrite sketch_reg. split; [done|].
    intros k Hk. apply Hall, Hks. right. by exists id, m.
Qed.

(** ** Fetch *)

(** A member that answers for the key, at its address. *)
Definition answersFor (rpc : bytes → bytes → bytes → option FetchReplicaResponse) (ns key : bytes) (m : Member) (rec : StoredRecord) : Prop :=
  ∃ r, rpc (DataAddr m) ns key = Some r ∧ fr_Found r = true ∧ fr_Record r = rec.

(** C20: Announced keys can be fetched. Let each node come to hold its keys at strictly increasing
    times, and let a node learn their summaries in any order, stale and repeated ones included. If
    a member that announced a key is alive and answers for it, a fetch of the key returns a
    record, and the record is the answer of an alive member. *)
Theorem announced_key_fetched (anns : list (bytes * nat)) (iter : list bytes → list bytes) (graph : Graph) (members : list MemberView)
    (rpc : bytes → bytes → bytes → option FetchReplicaResponse) (id : bytes) (n : nat) (ns key : bytes) (t : Z) (m : Member) (rec : StoredRecord) :
  Forall (λ a, (a.2 ≤ length (ops a.1))%nat) anns → (∀ l, iter l ≡ₚ l) → (id, n) ∈ anns → id ≠ [] → id ≠ self →
  (ns, key, t) ∈ take n (ops id) → memberByID members id = Some m → answersFor rpc ns key m rec →
  ∃ f m', Fetch graph members rpc iter (learned anns) ns key = Ok (Some f) ∧
    memberByID members (fe_Source f) = Some m' ∧ answersFor rpc ns key m' (fe_Record f).
Proof.
  intros Hlen Hiter Hin Hnil Hself Hk Hm Hans. unfold Fetch.
  pose proof (announced_resolved anns iter id n ns key t Hlen Hiter Hin Hnil Hself Hk) as Hres.
  destruct (fetchFrom_finds members rpc ns key m rec (orderHoldersByLatency graph members (ResolveHolders iter ns key (learned anns)))) as [f Hf].
  - rewrite orderHolders_elem. eauto.
  - done.
  - rewrite Hf. destruct (fetchFrom_sound members rpc ns key _ f Hf) as (m' & Hm' & Ha).
    { intros x (id' & _ & Hx)%orderHolders_elem. by rewrite (memberByID_id _ _ _ Hx). }
    by exists f, m'.
Qed.

End Gossip.

(** ** Examples of gossip *)

Definition sampleOps (id : bytes) : list heldOp :=
  if decide (id = lit "b") then [(lit "ns", lit "k1", 10); (lit "ns", lit "k2", 20)]
  else if decide (id = lit "d") then [(lit "ns", lit "k2", 15)] else [(lit "ns", lit "k3", 5)].

Lemma sample_times id : StronglySorted Z.lt (0 :: (snd <$> sampleOps id)).
Proof. unfold sampleOps. repeat case_decide; cbn; repeat constructor. Qed.

(** The newer summary of b arrives before the older one. *)
Definition sampleAnns : list (bytes * nat) := [(lit "b", 2%nat); (lit "d", 1%nat); (lit "b", 1%nat)].

Lemma sample_anns : Forall (λ a, (a.2 ≤ length (sampleOps a.1))%nat) sampleAnns.
Proof. repeat constructor. Qed.

Definition sampleMember (id : bytes) : MemberView := mkView (mkMember (lit "c") id id id [] [] [] id id []) StateAlive 1 0.
Definition sampleMembers : list MemberView := sampleMember <$> [lit "a"; lit "b"; lit "d"].
Definition sampleRec : StoredRecord := putRec (lit "k2") 10 (lit "b") 1 (lit "v").

(** Node b answers; node d cannot be reached. *)
Definition sampleRpc (addr ns key : bytes) : option FetchReplicaResponse :=
  if decide (addr = lit "b") then Some (mkFetchResp true sampleRec None []) else None.

Lemma announced_key_fetched_witness :
  ∃ f m', Fetch (LatencyGraph.New LatencyGraph.DefaultConfig) sampleMembers sampleRpc id (learned sampleOps (lit "a") sampleAnns) (lit "ns") (lit "k2") =
      Ok (Some f) ∧
    memberByID sampleMembers (fe_Source f) = Some m' ∧ answersFor sampleRpc (lit "ns") (lit "k2") m' (fe_Record f).
Proof.
  apply (announced_key_fetched sampleOps (lit "a") sample_times sampleAnns id (LatencyGraph.New LatencyGraph.DefaultConfig) sampleMembers sampleRpc
    (lit "b") 2 (lit "ns") (lit "k2") 20 (mv_Member (sampleMember (lit "b"))) sampleRec).
  - apply sample_anns.
  - done.
  - by left.
  - done.
  - done.
  - right. by left.
  - reflexivity.
  - eexists. split; [reflexivity|done].
Defined.

Lemma union_sketch_exact_witness :
  unionHLL (Some (λ m, bool_decide (m = lit "b"))) (learned sampleOps (lit "a") sampleAnns) =
  sketch (opKey <$> [(lit "ns", lit "k1", 10); (lit "ns", lit "k2", 20); (lit "ns", lit "k3", 5)]).
Proof.
  apply (union_sketch_exact sampleOps (lit "a") sample_times sampleAnns (Some (λ m, bool_decide (m = lit "b")))
    (opKey <$> [(lit "ns", lit "k1", 10); (lit "ns", lit "k2", 20); (lit "ns", lit "k3", 5)])).
  - apply sample_anns.
  - intros k. split.
    + intros [op [-> Hop]]%list_elem_of_fmap. rewrite !elem_of_cons in Hop. destruct Hop as [->|[->|[->|Hop]]].
      * right. exists (lit "b"), 2%nat. split_and!; [by left|done|done|done|]. by left.
      * right. exists (lit "b"), 2%nat. split_and!; [by left|done|done|done|]. right. by left.
      * left. by left.
      * by apply not_elem_of_nil in Hop.
    + intros [Hk|(m & n & Hin & _ & _ & Hal%bool_decide_eq_true & Hk)].
      * apply list_elem_of_singleton in Hk as ->. right. right. by left.
      * subst m. apply list_elem_of_fmap in Hk as (op & -> & Hop). assert (op ∈ sampleOps (lit "b")) as Hb by (by eapply subseteq_take).
        apply list_elem_of_fmap_2. change (op ∈ [(lit "ns", lit "k1", 10); (lit "ns", lit "k2", 20)]) in Hb.
        rewrite !elem_of_cons in Hb. rewrite !elem_of_cons. destruct Hb as [->|[->|Hb]]; [auto|auto|by apply not_elem_of_nil in Hb].
Defined.

(** ** Deviations of the summaries *)

(** A summary is dated by the last key added, in milliseconds, and a peer drops a summary
    that is not newer: a key that arrives in the millisecond of the last announced one is not
    found at peers, until another key is added. *)
Theorem same_millisecond_key_hidden :
  let d1 := AddHeldKey (lit "ns") (lit "k1") 10 (NewDirectory (lit "b")) in
  let d2 := AddHeldKey (lit "ns") (lit "k2") 10 d1 in
  let p := ApplyPeerSummary (OwnSummary d2) (ApplyPeerSummary (OwnSummary d1) (NewDirectory (lit "a"))) in
  ResolveHolders id (lit "ns") (lit "k1") p = [lit "b"] ∧ ResolveHolders id (lit "ns") (lit "k2") p = [].
Proof. split; vm_compute; reflexivity. Qed.

(** ** Range certificates *)

Lemma rangeContains_sound cs ce qs qe k : rangeContains cs ce qs qe = true → in_bounds qs qe k → in_bounds cs ce k.
Proof.
  unfold rangeContains, in_bounds. intros Hc [Hlo Hhi].
  destruct (match cs, qs with Some _, None => _ | Some _, Some _ => _ | None, _ => _ end) eqn:E1; [done|].
  destruct (match ce, qe with Some _, None => _ | Some _, Some _ => _ | None, _ => _ end) eqn:E2; [done|]. split.
  - destruct cs as [c|]; [|done]. destruct qs as [q|]; [|done]. transitivity q; [|done]. unfold bytes_le.
    rewrite bcompare_antisym. by destruct (bcompare q c).
  - destruct ce as [c|]; [|done]. destruct qe as [q|]; [|done]. assert (bytes_le q c) as Hle by (unfold bytes_le; by destruct (bcompare q c)).
    apply bytes_le_lteq in Hle as [Hle| <-]; [by eapply bytes_lt_trans|done].
Qed.

(** A store of certificates after these were issued. *)
Definition issued (certs : list RangeCoverageCertificate) : CertStore := fold_left (λ s c, CertPut c s) certs ∅.

Lemma issued_lookup certs ns : default [] (issued certs !! ns) = filter (λ c, ce_Namespace c = ns) certs.
Proof.
  unfold issued. induction certs as [|c certs IH] using rev_ind; [cbn [fold_left]; by rewrite lookup_empty|].
  rewrite fold_left_app, filter_app. cbn [fold_left]. unfold CertPut at 1. rewrite filter_cons, filter_nil. case_decide as Hc.
  - subst ns. rewrite lookup_insert_eq. cbn. by rewrite IH.
  - rewrite lookup_insert_ne by done. by rewrite app_nil_r, IH.
Qed.

(** Coverage is never claimed without a certificate: one of those issued for the namespace,
    unexpired and of the owner's current epoch, whose range has every key of the query. *)
Theorem covers_certified (certs : list RangeCoverageCertificate) (epoch : option (bytes → bytes → Z)) (ns : bytes)
    (start stop : option bytes) (nowMs : Z) :
  Covers epoch ns start stop nowMs (issued certs) = true →
  ∃ c, c ∈ certs ∧ ce_Namespace c = ns ∧ nowMs < ce_ValidUntilUnixMs c ∧
    (∀ f, epoch = Some f → ce_OwnerEpoch c = f ns (ce_OwnerMemberId c)) ∧
    ∀ k, in_bounds start stop k → in_bounds (ce_StartKey c) (ce_EndKey c) k.
Proof.
  unfold Covers. rewrite issued_lookup, existsb_exists. intros (c & Hc & [Hv Hr]%andb_true_iff). apply list_elem_of_In, list_elem_of_filter in Hc as [Hn Hc].
  unfold certValid in Hv. apply andb_true_iff in Hv as [Ht He]. exists c. split_and!; [done..| | |].
  - apply negb_true_iff, Z.leb_gt in Ht. done.
  - intros f ->. by apply Z.eqb_eq.
  - intros k. by apply rangeContains_sound.
Qed.

Definition sampleCert (until epoch : Z) : RangeCoverageCertificate := mkCert (lit "ns") (Some (lit "a")) (Some (lit "m")) (lit "b") epoch until.

Lemma covers_certified_witness :
  ∃ c, c ∈ [sampleCert 5 1; sampleCert 100 2] ∧ ce_Namespace c = lit "ns" ∧ 50 < ce_ValidUntilUnixMs c ∧
    (∀ f, Some (λ _ _ : bytes, 2) = Some f → ce_OwnerEpoch c = f (lit "ns") (ce_OwnerMemberId c)) ∧
    ∀ k, in_bounds (Some (lit "b")) (Some (lit "c")) k → in_bounds (ce_StartKey c) (ce_EndKey c) k.
Proof.
  apply (covers_certified [sampleCert 5 1; sampleCert 100 2] (Some (λ _ _, 2)) (lit "ns") (Some (lit "b")) (Some (lit "c")) 50).
  vm_compute. reflexivity.
Defined.

(** ** Eviction *)

Section Evict.
Context {L : Type} {LS : LocalStore L} {LSS : LocalStoreSpec L} {PB : Proto} {PBS : ProtoSpec}.

(** The rows of a store, which reads go by. *)
Record rows_inv (st : Store L) (A : winners) : Prop := {
  ri_live : ls_live (rs_local st);
  ri_meta ns k : ns_ok ns → meta_row (ls_view (rs_local st) CFKVMeta) ns k (A !! (ns, k));
  ri_data ns k : data_row (ls_view (rs_local st) CFKVData) ns k (A !! (ns, k));
}.

Lemma rs_rows st A : rs_inv st A → rows_inv st A.
Proof. intros [? ? ? _ _]. by split. Qed.

Lemma rows_read st A ns k : rows_inv st A → ns_ok ns → GetRecord ns k st = Ok (A !! (ns, k)).
Proof.
  intros [Hl Hm Hd] Hn. specialize (Hm ns k Hn). specialize (Hd ns k). unfold GetRecord. rewrite ls_Get_ok by done. cbn [fromStore res_bind].
  destruct (A !! (ns, k)) as [r|]; [|by rewrite Hm]. destruct Hm as (b & -> & Hb). destruct Hd as (Hk & _ & rb & Hrb & Hr).
  cbn [fromDecode res_bind]. rewrite Hb. cbn [fromDecode res_bind winnerPointer lp_Winner]. rewrite FromProto_ToProto, ls_Get_ok by done.
  cbn [fromStore res_bind]. rewrite Hrb. by rewrite Hr.
Qed.

Lemma Forget_rows st A ns k :
  rows_inv st A → ns_ok ns → id_ok k → ∃ st', Forget ns k st = (Ok (), st') ∧ rows_inv st' (delete (ns, k) A).
Proof.
  intros [Hl Hm Hd] Hn Hk. unfold Forget. set (p := dataKeyPrefix ns k). rewrite ls_Scan_ok by done.
  set (kvs := newSliceIterator _ _ _ _). set (dels := (λ kv, delOp CFKVData kv.1) <$> kvs).
  destruct (ls_Batch_ok (rs_local st) (delOp CFKVMeta (latestKey ns k) :: dels)) as (l & -> & Hl' & Hv); [done| |].
  { apply Forall_cons. split; [done|]. apply Forall_fmap, Forall_true. done. }
  eexists. split; [done|]. split; cbn [setLocal rs_local]; [done| |].
  - intros ns' k' Hn'. rewrite Hv by done.
    assert (∀ m, apply_ops CFKVMeta (delOp CFKVMeta (latestKey ns k) :: dels) m = delete (latestKey ns k) m) as Hmeta.
    { intros m. change (apply_ops CFKVMeta dels (delete (latestKey ns k) m) = delete (latestKey ns k) m). generalize (delete (latestKey ns k) m) as m'.
      unfold dels. generalize kvs as rows. induction rows as [|kv rows IH]; [done|]. exact IH. }
    rewrite Hmeta. destruct (decide ((ns', k') = (ns, k))) as [[= -> ->]|Hne].
    + rewrite lookup_delete_eq. cbn. by rewrite lookup_delete_eq.
    + rewrite lookup_delete_ne by congruence. specialize (Hm ns' k' Hn'). unfold meta_row in *.
      rewrite lookup_delete_ne; [done|]. intros [E1 E2]%latestKey_inj; [|by apply ns_ok_id..]. congruence.
  - intros ns' k'. rewrite Hv by done. destruct (decide ((ns', k') = (ns, k))) as [[= -> ->]|Hne]; [by rewrite lookup_delete_eq|].
    rewrite lookup_delete_ne by congruence. specialize (Hd ns' k'). destruct (A !! (ns', k')) as [r|]; [|done].
    destruct Hd as (Hkr & Hs & b & Hb & Hdec). split_and!; [done..|]. exists b. split; [|done].
    change (apply_ops CFKVData dels (ls_view (rs_local st) CFKVData) !! dataKey ns' k' (recVersion r) = Some b). rewrite apply_ops_untouched; [done|].
    apply Forall_fmap, Forall_forall. intros [x v] [Hx Hbd]%elem_of_newSliceIterator E. cbn in E. subst x.
    apply prefixEnd_spec in Hbd as [y Hy]. destruct Hs as [(Hnr & Hkk & _) _]. injection Hkr as En Ek. rewrite En in Hnr. rewrite Ek in Hkk.
    unfold dataKey in Hy. apply dataKeyPrefix_inj in Hy as (-> & -> & _); [done|by apply ns_ok_id|by apply ns_ok_id|done|done].
Qed.

Definition dropKeys (ents : list (bytes * bytes)) (A : winners) : winners := fold_left (λ A ent, delete ent A) ents A.

Lemma dropKeys_lookup ents A k : dropKeys ents A !! k = if decide (k ∈ ents) then None else A !! k.
Proof.
  unfold dropKeys. revert A. induction ents as [|e ents IH]; intros A; cbn [fold_left].
  { by rewrite decide_False by apply not_elem_of_nil. }
  rewrite IH. destruct (decide (k ∈ ents)) as [Hin|Hin]; [by rewrite decide_True by (by right)|].
  destruct (decide (k = e)) as [->|Hne]; [rewrite lookup_delete_eq, decide_True by (by left); done|].
  rewrite lookup_delete_ne by done. by rewrite decide_False by (by intros [?|?]%elem_of_cons).
Qed.

Lemma evictAll_ok ents n s A :
  Forall (λ e, ns_ok e.1 ∧ id_ok e.2) ents → rows_inv (ca_rec s) A →
  ∃ s', fold_left (λ acc ent, let '(n, s) := acc in match Evict ent.1 ent.2 s with (Ok _, s) => (n + 1, s) | (Err _, s) => (n, s) end) ents (n, s) =
      (n + Z.of_nat (length ents), s') ∧ rows_inv (ca_rec s') (dropKeys ents A) ∧
    ∀ id, ca_cached s' !! id = if decide (id ∈ (λ e, cacheKeyID e.1 e.2) <$> ents) then None else ca_cached s !! id.
Proof.
  intros He. revert n s A. induction He as [|[ns k] ents [Hn Hk] He IH]; intros n s A Hs; cbn [fold_left fst snd].
  { exists s. split_and!; [cbn; f_equal; lia|done|]. intros id. by rewrite decide_False by apply not_elem_of_nil. }
  destruct (Forget_rows (ca_rec s) A ns k Hs Hn Hk) as (st' & Ef & Hst').
  assert (Evict ns k s = (Ok (), mkCacheStore st' (delete (cacheKeyID ns k) (ca_cached s)))) as -> by (unfold Evict; by rewrite Ef).
  destruct (IH (n + 1) (mkCacheStore st' (delete (cacheKeyID ns k) (ca_cached s))) _ Hst') as (s' & E & Hs' & Hc). exists s'.
  split_and!; [rewrite E; f_equal; cbn [length]; lia|done|]. intros id. rewrite Hc. cbn [ca_cached fmap list_fmap fst snd].
  destruct (decide (id ∈ (λ e, cacheKeyID e.1 e.2) <$> ents)) as [Hin|Hin]; [by rewrite decide_True by (by right)|].
  destruct (decide (id = cacheKeyID ns k)) as [->|Hne]; [rewrite lookup_delete_eq, decide_True by (by left); done|].
  rewrite lookup_delete_ne by done. by rewrite decide_False by (by intros [?|?]%elem_of_cons).
Qed.

Lemma split_cacheKeyID ns key : x00 ∉ ns → splitKeyID (cacheKeyID ns key) = (ns, key).
Proof. apply RepairHeap.splitKeyID_keyID. Qed.

(** The entries of a cache are the ids of keys. *)
Definition cached_ok (s : CacheStore L) : Prop :=
  ∀ id t, ca_cached s !! id = Some t → ∃ ns key, id = cacheKeyID ns key ∧ ns_ok ns ∧ id_ok key.

Definition idleSince (cutoff : Z) (s : CacheStore L) (ns key : bytes) : Prop :=
  ∃ t, ca_cached s !! cacheKeyID ns key = Some t ∧ t < cutoff.

Lemma idleBefore_elem iter cutoff s ns key :
  (∀ l, iter l ≡ₚ l) → cached_ok s → (ns, key) ∈ idleBefore iter cutoff s ↔ ns_ok ns ∧ id_ok key ∧ idleSince cutoff s ns key.
Proof.
  intros Hiter Hc. unfold idleBefore. rewrite list_elem_of_fmap. setoid_rewrite list_elem_of_filter. setoid_rewrite Hiter. split.
  - intros (id & Esp & Ht & Hin). apply list_elem_of_fmap in Hin as ([id' t] & -> & Hin%elem_of_map_to_list). cbn [fst] in *.
    destruct (Hc id' t Hin) as (ns' & key' & -> & Hn & Hk). unfold splitCacheKeyID in Esp. rewrite split_cacheKeyID in Esp by apply Hn.
    injection Esp as -> ->. split_and!; [done..|]. exists t. by rewrite Hin in Ht.
  - intros (Hn & Hk & t & Ht & Hlt). exists (cacheKeyID ns key). split_and!.
    + unfold splitCacheKeyID. symmetry. apply split_cacheKeyID. apply Hn.
    + by rewrite Ht.
    + apply list_elem_of_fmap. exists (cacheKeyID ns key, t). split; [done|]. by apply elem_of_map_to_list.
Qed.

Lemma EvictIdle_exact (iter : list bytes → list bytes) (idleTTL nowMs : Z) (s : CacheStore L) (A : winners) (n : Z) (s' : CacheStore L) (ns key : bytes) :
  (∀ l, iter l ≡ₚ l) → rows_inv (ca_rec s) A → cached_ok s → EvictIdle iter idleTTL nowMs s = (n, s') → ns_ok ns → id_ok key →
  (idleSince (int64 (nowMs - Milliseconds idleTTL)) s ns key → GetRecord ns key (ca_rec s') = Ok None ∧ ca_cached s' !! cacheKeyID ns key = None) ∧
  (¬ idleSince (int64 (nowMs - Milliseconds idleTTL)) s ns key →
    GetRecord ns key (ca_rec s') = GetRecord ns key (ca_rec s) ∧ ca_cached s' !! cacheKeyID ns key = ca_cached s !! cacheKeyID ns key).
Proof.
  intros Hiter Hr Hc E Hn Hk. unfold EvictIdle in E. set (cutoff := int64 _) in *. set (ents := idleBefore iter cutoff s) in *.
  assert (∀ ns' key', (ns', key') ∈ ents ↔ ns_ok ns' ∧ id_ok key' ∧ idleSince cutoff s ns' key') as Hents by (intros; by apply idleBefore_elem).
  destruct (evictAll_ok ents 0 s A) as (s2 & E2 & Hs2 & Hc2); [|done|].
  { apply Forall_forall. intros [ns' key'] Hin. by apply Hents in Hin as (? & ? & _). }
  rewrite E in E2. injection E2 as _ <-. rewrite (rows_read _ _ _ _ Hs2 Hn), (rows_read _ _ _ _ Hr Hn), dropKeys_lookup, Hc2.
  assert (cacheKeyID ns key ∈ (λ e, cacheKeyID e.1 e.2) <$> ents ↔ (ns, key) ∈ ents) as Hid.
  { split; [|intros Hin; apply list_elem_of_fmap; by exists (ns, key)]. intros ([ns' key'] & Ek & Hin)%list_elem_of_fmap. cbn [fst snd] in Ek.
    pose proof (proj1 (Hents _ _) Hin) as (Hn' & _). apply (f_equal splitKeyID) in Ek.
    rewrite !split_cacheKeyID in Ek by (apply Hn || apply Hn'). by rewrite Ek. }
  split; intros Hi.
  - assert ((ns, key) ∈ ents) as Hin by (by apply Hents). by rewrite !decide_True by (done || by apply Hid).
  - assert ((ns, key) ∉ ents) as Hin by (by intros (_ & _ & ?)%Hents). by rewrite !decide_False by (done || by rewrite Hid).
Qed.

(** *** Which replicas have a cache entry *)

(** What a node does with its replicas: it caches a fetched record, serves a read of a cached
    key, stores a durable replica and promotes the key, and evicts. *)
Inductive cacheOp :=
  | OpCache (rec : StoredRecord) (nowMs : Z)
  | OpServe (ns key : bytes) (nowMs : Z)
  | OpHold (rec : StoredRecord) (kind : Z)
  | OpEvict (iter : list bytes → list bytes) (idleTTL nowMs : Z).

Definition cacheStep (s : CacheStore L) (op : cacheOp) : CacheStore L :=
  match op with
  | OpCache rec now => (CachePut rec now s).2
  | OpServe ns key now => (IsCacheReplica ns key now s).2
  | OpHold rec kind => Promote (sr_Namespace rec) (sr_LogicalKey rec) (mkCacheStore (Apply rec kind (ca_rec s)).2 (ca_cached s))
  | OpEvict iter ttl now => (EvictIdle iter ttl now s).2
  end.

(** The keys held durably after the operations. *)
Definition durableAfter (D : list (bytes * bytes)) (op : cacheOp) : list (bytes * bytes) :=
  match op with OpHold rec _ => keyOf rec :: D | _ => D end.

(** A record is fetched to be cached for a key that is not held durably. *)
Fixpoint cachesOthers (D : list (bytes * bytes)) (ops : list cacheOp) : Prop :=
  match ops with
  | [] => True
  | op :: ops =>
      match op with
      | OpCache rec _ => ns_ok (sr_Namespace rec) ∧ id_ok (sr_LogicalKey rec) ∧ keyOf rec ∉ D
      | OpHold rec _ => ns_ok (sr_Namespace rec)
      | _ => True
      end ∧ cachesOthers (durableAfter D op) ops
  end.

Definition index_ok (D : list (bytes * bytes)) (s : CacheStore L) : Prop :=
  cached_ok s ∧ Forall (λ k, x00 ∉ k.1 ∧ ca_cached s !! cacheKeyID k.1 k.2 = None) D.

Lemma index_ok_sub D s s' :
  index_ok D s → (∀ id, is_Some (ca_cached s' !! id) → is_Some (ca_cached s !! id)) → index_ok D s'.
Proof.
  intros [Hc HD] Hsub. split.
  - intros id t Ht. destruct (Hsub id) as [t' Ht']; [by rewrite Ht|]. eauto.
  - eapply Forall_impl; [exact HD|]. intros k [? Hk]. split; [done|]. apply eq_None_not_Some. intros Hs%Hsub. rewrite Hk in Hs. by destruct Hs.
Qed.

Lemma EvictIdle_index iter ttl now s id : is_Some (ca_cached (EvictIdle iter ttl now s).2 !! id) → is_Some (ca_cached s !! id).
Proof.
  unfold EvictIdle. generalize 0 as n. generalize (idleBefore iter (int64 (now - Milliseconds ttl)) s) as ents. intros ents. revert s.
  induction ents as [|ent ents IH]; intros s n; [done|]. cbn [fold_left]. destruct (Evict ent.1 ent.2 s) as [r s1] eqn:Ev.
  assert (is_Some (ca_cached s1 !! id) → is_Some (ca_cached s !! id)) as Hs1.
  { unfold Evict in Ev. destruct (Forget ent.1 ent.2 (ca_rec s)) as [[|] st]; injection Ev as <- <-; [|done]. cbn [ca_cached]. intros [t [_ Ht]%lookup_delete_Some]. eauto. }
  intros Hs. destruct r; apply IH in Hs; auto.
Qed.

Lemma cacheKeyID_inj ns key ns' key' : x00 ∉ ns → x00 ∉ ns' → cacheKeyID ns key = cacheKeyID ns' key' → (ns, key) = (ns', key').
Proof. intros Hn Hn' E. apply (f_equal splitKeyID) in E. by rewrite !split_cacheKeyID in E. Qed.

(** Durable replicas are not in the index. *)
Lemma run_index ops D s : index_ok D s → cachesOthers D ops → index_ok (fold_left durableAfter ops D) (fold_left cacheStep ops s).
Proof.
  revert D s. induction ops as [|op ops IH]; intros D s Hi Hops; [done|]. cbn [fold_left cachesOthers] in *. destruct Hops as [Hop Hops].
  apply IH; [|done]. destruct op as [rec now|ns key now|rec kind|iter ttl now]; cbn [cacheStep durableAfter].
  - unfold CachePut. destruct (Apply _ _ _) as [[|] st]; cbn [snd]; [|by eapply index_ok_sub]. destruct Hop as (Hn & Hk & HD), Hi as [Hc Hd]. split.
    + intros id t. cbn [ca_cached]. intros [[<- _]|[_ Ht]]%lookup_insert_Some; [by eexists _, _|by eapply Hc].
    + apply Forall_forall. intros k Hin. rewrite Forall_forall in Hd. destruct (Hd k Hin) as [H0 Hk0]. split; [done|]. cbn [ca_cached].
      rewrite lookup_insert_ne; [done|]. intros E%cacheKeyID_inj; [|apply Hn|done]. apply HD. unfold keyOf. rewrite E. by destruct k.
  - unfold IsCacheReplica. destruct (ca_cached s !! cacheKeyID ns key) as [t|] eqn:Et; [|done]. eapply index_ok_sub; [done|]. cbn [snd ca_cached].
    intros id. destruct (decide (id = cacheKeyID ns key)) as [->|Hne]; [by rewrite Et|by rewrite lookup_insert_ne].
  - assert (index_ok D (Promote (sr_Namespace rec) (sr_LogicalKey rec) (mkCacheStore (Apply rec kind (ca_rec s)).2 (ca_cached s)))) as [Hc Hd].
    { eapply index_ok_sub; [done|]. cbn [Promote ca_cached]. intros id [t [_ Ht]%lookup_delete_Some]. eauto. }
    split; [done|]. constructor; [|done]. split; [apply Hop|]. apply lookup_delete_eq.
  - eapply index_ok_sub; [done|]. apply EvictIdle_index.
Qed.


End Evict.

(** ** The types of a directory *)

(** A sketch of bytes. *)
Definition hll_typed (h : HLL) : Prop := length h = hllM ∧ Forall (λ r, 0 ≤ r < 256) h.

Record directory_typed (d : Directory) : Prop := {
  dt_own : bloom_wf (dr_own d);
  dt_hll : hll_wf (dr_ownHLL d);
  dt_peers id s : dr_peers d !! id = Some s → bloom_wf (ps_bloom s) ∧ hll_typed (ps_hll s) ∧ id ≠ [] ∧ id ≠ dr_self d;
}.

Lemma hll_wf_typed h : hll_wf h → hll_typed h.
Proof.
  intros [Hl Hf]. split; [done|]. eapply Forall_impl; [exact Hf|]. intros r Hr. cbn in *. unfold hllMaxR, hllP in Hr. lia.
Qed.

(** Whatever bytes arrive, the filter read has 2048 words and the sketch 16384 bytes. *)
Lemma BloomFromBytes_wf b : bloom_wf (BloomFromBytes b).
Proof.
  unfold BloomFromBytes. case_match eqn:E; [apply NewBloom_wf|]. split; [by rewrite length_fmap, length_seq|].
  apply negb_false_iff, Nat.eqb_eq in E. apply Forall_fmap, Forall_forall. intros i Hi%elem_of_seq. cbn. unfold le_get_u64. apply get_u64_range.
Qed.

Lemma HLLFromBytes_typed b : hll_typed (HLLFromBytes b).
Proof.
  unfold HLLFromBytes. case_match eqn:E; [apply hll_wf_typed, NewHLL_wf|]. apply negb_false_iff, Nat.eqb_eq in E.
  split; [by rewrite length_fmap|]. apply Forall_fmap, Forall_forall. intros x _. cbn. apply byteZ_range.
Qed.

Lemma HLLMerge_typed o h : hll_typed o → hll_typed h → hll_typed (HLLMerge (Some o) h).
Proof.
  intros [Hlo Hfo] [Hl Hf]. unfold HLLMerge. split; [rewrite length_zip_with, Hl, Hlo; lia|].
  apply Forall_lookup_2. intros i r (x & y & -> & Hx & Hy)%lookup_zip_with_Some.
  pose proof (Forall_lookup_1 _ _ _ _ Hf Hx). pose proof (Forall_lookup_1 _ _ _ _ Hfo Hy). cbn in *. case_match; lia.
Qed.

(** What can happen to a directory. *)
Inductive dirOp :=
  | OpAdd (ns key : bytes) (nowMs : Z)
  | OpSummary (s : HolderSummaryWire)
  | OpDrop (member : bytes).

Definition dirStep (d : Directory) (op : dirOp) : Directory :=
  match op with
  | OpAdd ns key now => AddHeldKey ns key now d
  | OpSummary s => ApplyPeerSummary s d
  | OpDrop m => DropPeer m d
  end.

Lemma dirStep_typed d op : directory_typed d → directory_typed (dirStep d op).
Proof.
  intros [Ho Hh Hp]. destruct op as [ns key now|s|m]; cbn [dirStep].
  - split; cbn [AddHeldKey dr_own dr_ownHLL dr_peers]; [by apply BloomAdd_wf|by apply HLLAdd_wf|done].
  - unfold ApplyPeerSummary. destruct (_ || _) eqn:Esk; [done|]. apply orb_false_iff in Esk as [E1%bool_decide_eq_false E2%bool_decide_eq_false].
    destruct (match dr_peers d !! _ with Some _ => _ | None => _ end); [done|]. split; cbn [dr_own dr_ownHLL dr_peers dr_self]; [done..|].
    intros id x. destruct (decide (id = hs_MemberID s)) as [->|Hne]; [rewrite lookup_insert_eq|rewrite lookup_insert_ne by done; apply Hp].
    intros [= <-]. cbn [ps_bloom ps_hll]. split_and!; [apply BloomFromBytes_wf|apply HLLFromBytes_typed|done|done].
  - split; cbn [DropPeer dr_own dr_ownHLL dr_peers dr_self]; [done..|]. intros id x [_ Hx]%lookup_delete_Some. by apply Hp.
Qed.

(** Directories are well typed. Whatever keys a node adds and whatever summaries its peers
    send, its filters have 2048 words of 64 bits, its sketches 16384 bytes with its own ranks
    at most 51, no peer has the empty id or its own, and the union of the sketches is one. *)
Theorem directory_well_typed (self : bytes) (ops : list dirOp) (isAlive : option (bytes → bool)) :
  let d := fold_left dirStep ops (NewDirectory self) in directory_typed d ∧ hll_typed (unionHLL isAlive d).
Proof.
  intros d. assert (directory_typed d) as Hd.
  { subst d. assert (directory_typed (NewDirectory self)) as H0.
    { split; [apply NewBloom_wf|apply NewHLL_wf|]. intros id s. cbn. by rewrite lookup_empty. }
    revert H0. generalize (NewDirectory self) as d. induction ops as [|op ops IH]; intros d Hd; [done|]. by apply IH, dirStep_typed. }
  split; [done|]. destruct Hd as [_ Hh Hp]. unfold unionHLL.
  assert (∀ id s, dr_peers d !! id = Some s → hll_typed (ps_hll s)) as Hs by (intros id s Hid; by apply (Hp id)). revert Hs.
  apply (map_fold_weak_ind (λ u peers, (∀ id s, peers !! id = Some s → hll_typed (ps_hll s)) → hll_typed u)).
  - intros _. apply HLLMerge_typed; apply hll_wf_typed; [done|apply NewHLL_wf].
  - intros id s m u Hid IH Hs. assert (hll_typed u) as Hu.
    { apply IH. intros id' s' Hs'. apply (Hs id'). by rewrite lookup_insert_ne by congruence. }
    case_match; [|done]. apply HLLMerge_typed; [|done]. apply (Hs id). by rewrite lookup_insert_eq.
Qed.

(** ** Examples of eviction *)

Definition cachedRec : StoredRecord := putRec (lit "k") 5 (lit "m") 1 (lit "v").

(** A record cached at 1000 ms. *)
Definition sampleCache : CacheStore MemStore := (CachePut cachedRec 1000 (NewCacheStore freshStore)).2.

(** The node then stores a durable replica of another key that it had cached. *)
Definition heldRec : StoredRecord := putRec (lit "h") 5 (lit "m") 2 (lit "v").
Definition sampleCacheOps : list (cacheOp) := [OpCache cachedRec 1000; OpCache heldRec 1000; OpHold heldRec kindPut].

Lemma sample_rows : ∃ A, rows_inv (ca_rec (fold_left cacheStep sampleCacheOps (NewCacheStore freshStore))) A.
Proof.
  assert (∀ w : StoredRecord, cachedRec = w → storable w) as S1 by (intros w <-; apply storable_sample; vm_compute; intuition congruence).
  assert (storable heldRec) as S2 by (apply storable_sample; vm_compute; intuition congruence).
  destruct (Apply_ok freshStore ∅ cachedRec (kindOf cachedRec)) as (w1 & st1 & _ & E1 & H1 & _); [apply rs_inv_new; apply empty_mem|by apply S1|by intros w; rewrite lookup_empty|].
  destruct (Apply_ok st1 _ heldRec (kindOf heldRec) H1 S2) as (w2 & st2 & _ & E2 & H2 & _); [intros w Hw Hv; vm_compute in Hw; discriminate Hw|].
  destruct (Apply_ok st2 _ heldRec kindPut H2 S2) as (w3 & st3 & _ & E3 & H3 & _); [intros w Hw Hv; vm_compute in Hw; by injection Hw|].
  eexists. apply rs_rows. unfold sampleCacheOps. cbn [fold_left cacheStep]. unfold CachePut. cbn [ca_rec NewCacheStore]. rewrite E1. cbn [snd ca_rec]. rewrite E2. cbn [snd ca_rec]. rewrite E3. exact H3.
Qed.


(** ** Deviations *)

(** A cache entry outlives the replica's promotion: a node that had cached a key stores a
    durable replica of a newer version and acknowledges it; nothing clears the entry, and the
    evictor then drops the durable replica. *)
Theorem eviction_drops_durable :
  let newer := putRec (lit "k") 9 (lit "n") 1 (lit "w") in
  let '(resp, rv) := ReceiverApply (BuildRequest (lit "ns") (lit "k") newer (lit "n")) (NewReceiver (ca_rec sampleCache) (lit "m") None) in
  let cache := mkCacheStore (rv_store rv) (ca_cached sampleCache) in
  let '(evicted, cache') := EvictIdle id 600000000000 700000 cache in
  res_map rp_Durable resp = Ok true ∧ GetRecord (lit "ns") (lit "k") (ca_rec cache) = Ok (Some newer) ∧
  evicted = 1 ∧ GetRecord (lit "ns") (lit "k") (ca_rec cache') = Ok None.
Proof. vm_compute. done. Qed.

(** Applied writes, each notified to one subscriber that does not read. *)
Definition burst (n : nat) : Store MemStore * SubscriptionSource :=
  fold_left (λ acc i,
    let st := (Apply (putRec (lit "k") (Z.of_nat i + 1) (lit "m") (Z.of_nat i + 1) (lit "v")) kindPut acc.1).2 in
    (st, Notify (lit "ns") (lit "k") st acc.2))
    (seq 0 n) (freshStore, (register (combinedKey (lit "ns") (lit "k")) NewSubscriptionSource).2).

(** The signal to resync goes to the channel that is full, and is lost with the update: a
    subscriber that reads the 32 buffered updates of 33 writes is one write behind and was
    not told. *)
Theorem resync_signal_lost :
  let '(st, src) := burst 33 in
  let ch := default [] (subsOf src (combinedKey (lit "ns") (lit "k")) !! 1) in
  let '(lastSeq, cache) := fold_left (λ acc u, onUpdate None 0 u acc) ch (0, NewCacheStore freshStore) in
  length ch = 32%nat ∧ existsb cu_SnapshotRequired ch = false ∧ curSeq (combinedKey (lit "ns") (lit "k")) src = 33 ∧ lastSeq = 32 ∧
  res_map (fmap (HLCPhysicalMs ∘ recVersion)) (GetRecord (lit "ns") (lit "k") st) = Ok (Some 33) ∧
  res_map (fmap (HLCPhysicalMs ∘ recVersion)) (GetRecord (lit "ns") (lit "k") (ca_rec cache)) = Ok (Some 32).
Proof. vm_compute. done. Qed.

End CacheSafety.
