(* ===== verification/Kv.v ===== *)
(** * The key-value API (internal/kv, internal/ttl)

    The write coordinator (origin plus nearby acknowledgements), the local-first reader with
    the fetch on a miss, the range scanner with the merge of holders, and the sweeper that
    tombstones expired keys. *)

From S2P Require Import Prelude Bytes Hlc Version Conflict Storage Command Records RecordStore.
From S2P Require Import Float64 LatencyGraph Membership Placement LocalRepl Cache.

Local Open Scope Z_scope.

Module Kv.
Import Hlc Version Conflict Storage Command Records RecordStore Membership Placement LocalRepl Cache.

(** ** Coordinator *)

Inductive kvErr := ErrInsufficientNearbyReplicas | ErrDiskPressure | KVStore (e : recErr).

Record PutOutcome := mkPut { po_Version : Version; po_AckedNearbyReplicas : Z; po_GeoSpillover : bool }.

(** What one write is given from outside: the readings of the wall clock by the two calls of
    the clock, the disk gate, and which of the calls in flight completes next. *)
Record WriteEnv := mkWriteEnv { we_wall : Z; we_wall' : Z; we_pressure : bool; we_sched : list nat }.

(** A replica call that was still running when its write returned. *)
Record Call := mkCall { call_ns : bytes; call_key : bytes; call_rec : StoredRecord; call_cand : Candidate }.

Section Coordinator.
Context {L W : Type} `{LocalStore L} `{Proto}.
Context (cl : Cluster W) (self : Member) (policy : Policy) (everywhere : option (bytes → bool)).
(** The receiver of this node holds the record store and the dedupe cache that the
    coordinator shares with it. *)
Context (recv : W → Receiver L) (setRecv : Receiver L → W → W).
Context (globalTap : bytes → bytes → StoredRecord → W → W) (onShed : W → W).

Abbreviation need := (MinAckNearbyReplicas policy).

Definition on_recv (f : Receiver L → Receiver L) (s : Repl W) : Repl W :=
  set_world s (setRecv (f (recv (re_world s))) (re_world s)).

Definition with_store (st : Store L) (r : Receiver L) : Receiver L :=
  mkReceiver st (rv_memberID r) (rv_idem r) (rv_stored r).

Definition recordIdem (idemKey : bytes) (v : Version) (s : Repl W) : Repl W :=
  match idemKey with
  | [] => s
  | _ => on_recv (λ r, mkReceiver (rv_store r) (rv_memberID r) (idemRecord idemKey v (rv_idem r)) (rv_stored r)) s
  end.

(** The collection loop: [inflight] calls are running, [rest] are candidates not tried yet.
    Each turn receives the result of one running call; a failure launches the next candidate.
    The calls still running at an early return are returned with the result. *)
Fixpoint collect (fuel : nat) (sched : list nat) (ns key : bytes) (rec : StoredRecord) (inflight rest : list Candidate)
    (acked : Z) (spill : bool) (s : Repl W) : (Z * bool) * list Candidate * Repl W :=
  match fuel with
  | O => ((acked, spill), inflight, s)
  | S fuel =>
      let i := (hd O sched mod length inflight)%nat in
      match inflight !! i with
      | None => ((acked, spill), inflight, s)
      | Some c =>
          let inflight := take i inflight ++ drop (i + 1) inflight in
          let '(ok, s) := push cl self ns key rec (ca_Member c) s in
          if ok then
            let acked := acked + 1 in
            let spill := spill || ca_GeoSpillover c in
            if need <=? acked then ((acked, spill), inflight, s)
            else collect fuel (tl sched) ns key rec inflight rest acked spill s
          else
            match rest with
            | c' :: rest => collect fuel (tl sched) ns key rec (inflight ++ [c']) rest acked spill s
            | [] => collect fuel (tl sched) ns key rec inflight [] acked spill s
            end
      end
  end.

(** Every candidate is launched at most once, so their number bounds the turns. *)
Definition replicateMinAck (sched : list nat) (cands : list Candidate) (ns key : bytes) (rec : StoredRecord) (s : Repl W)
    : (Z * bool) * list Candidate * Repl W :=
  if need <=? 0 then ((0, false), [], s)
  else
    let n := Z.to_nat need in
    collect (length cands) sched ns key rec (take n cands) (drop n cands) 0 false s.

(** The write once the origin copy is durable. *)
Definition replicateWrite (env : WriteEnv) (ns key idemKey : bytes) (candidates : option (list Candidate))
    (v : Version) (rec : StoredRecord) (s : Repl W) : res kvErr PutOutcome * list Call * Repl W :=
  let localOnly := (Ok (mkPut v 0 false), [], recordIdem idemKey v s) in
  let replicate cands :=
    let '((acked, spill), running, s) := replicateMinAck (we_sched env) cands ns key rec s in
    let calls := mkCall ns key rec <$> running in
    if acked <? need then (Err ErrInsufficientNearbyReplicas, calls, s)
    else
      let s := recordIdem idemKey v s in
      (Ok (mkPut v acked spill), calls, FanoutEnqueue cl policy (mkJob ns key rec) s) in
  match candidates with
  | None =>
      match Select self (cl_Graph cl (re_world s)) policy (cl_Members cl (re_world s)) with
      | Err _ => if need <=? 0 then localOnly else (Err ErrInsufficientNearbyReplicas, [], s)
      | Ok cands => replicate cands
      end
  | Some [] => localOnly
  | Some cands => replicate cands
  end.

(** The part of a write that makes the origin copy durable. *)
Definition originWrite (env : WriteEnv) (ns key value : bytes) (tombstone : bool) (ttlMs : option Z) (s : Repl W)
    : res kvErr (Version * StoredRecord) * Repl W :=
  let '(v, st) := NextVersion (we_wall env) (rv_store (recv (re_world s))) in
  let '(rec, st) := BuildRecord (we_wall' env) ns key value v tombstone ttlMs st in
  match Apply rec (if tombstone then kindDelete else kindPut) st with
  | (Err e, st) => (Err (KVStore e), on_recv (with_store st) s)
  | (Ok _, st) =>
      let s := on_recv (with_store st) s in
      let s := set_holders s (RecordHolder ns key (MemberID self) v (re_holders s)) in
      let s := if tombstone then s
               else on_recv (λ r, mkReceiver (rv_store r) (rv_memberID r) (rv_idem r) ((ns, key) :: rv_stored r)) s in
      (Ok (v, rec), set_world s (globalTap ns key rec (re_world s)))
  end.

Definition write (env : WriteEnv) (ns key value : bytes) (tombstone : bool) (ttlMs : option Z) (idemKey : bytes)
    (candidates : option (list Candidate)) (s : Repl W) : res kvErr PutOutcome * list Call * Repl W :=
  match (if bool_decide (idemKey = []) then None else idemCheck idemKey (rv_idem (recv (re_world s)))) with
  | Some v => (Ok (mkPut v need false), [], s)
  | None =>
      if we_pressure env then (Err ErrDiskPressure, [], set_world s (onShed (re_world s)))
      else
        match originWrite env ns key value tombstone ttlMs s with
        | (Err e, s) => (Err e, [], s)
        | (Ok (v, rec), s) => replicateWrite env ns key idemKey candidates v rec s
        end
  end.

Definition Put (env : WriteEnv) (ns key value : bytes) (ttlMs : option Z) (idemKey : bytes) :=
  write env ns key value false ttlMs idemKey None.

(** An explicit set of candidates; a nil one is the default path. *)
Definition PutTo (env : WriteEnv) (ns key value : bytes) (candidates : option (list Candidate)) (idemKey : bytes) :=
  write env ns key value false None idemKey candidates.

Definition Delete (env : WriteEnv) (ns key idemKey : bytes) := write env ns key [] true None idemKey None.

(** Such a call completes later. *)
Definition straggle (c : Call) (s : Repl W) : Repl W :=
  (push cl self (call_ns c) (call_key c) (call_rec c) (ca_Member (call_cand c)) s).2.

End Coordinator.

(** ** Reader *)

Inductive ReadSource :=
  READ_SOURCE_UNSPECIFIED | LOCAL_DURABLE | LOCAL_DYNAMIC_CACHE | FETCHED_CLOSEST_HOLDER | ROUTED_RANGE | GLOBAL_REMOTE.
Inductive Completeness := COMPLETENESS_UNSPECIFIED | COMPLETE | PARTIAL | BEST_EFFORT.

Record ResponseMeta := mkMeta {
  rm_ServedByMemberId : bytes;
  rm_Source : ReadSource;
  rm_SiblingsPresent : bool;
  rm_Completeness : Completeness;
  rm_ObservedVersion : option ProtoVersion;
}.

Record GetResult := mkGetResult { gr_Meta : ResponseMeta; gr_Found : bool; gr_Value : bytes; gr_ExpiresAtUnixMs : option Z }.

Section Reader.
Context {L : Type} `{LocalStore L} `{Proto}.
Context (self : Member) (fetcher : option (bytes → bytes → res () (option FetchResult))).

(** A read: the offers it subscribes to are returned beside the result. *)
Definition ReaderGet (nowMs : Z) (ns key : bytes) (s : CacheStore L)
    : res recErr GetResult * option SubscriptionOffer * CacheStore L :=
  let answer (out : GetOutcome) source completeness :=
    let expired := match go_ExpiresAtMs out with Some e => e <=? nowMs | None => false end in
    mkGetResult
      (mkMeta (MemberID self) source (negb (go_ConflictNone out)) completeness
         (if go_Found out || go_Tombstone out then Some (ToProto (go_Version out)) else None))
      (go_Found out && negb expired) (if expired then [] else go_Value out) (go_ExpiresAtMs out) in
  match Get ns key (ca_rec s) with
  | Err e => (Err e, None, s)
  | Ok out =>
      if go_Found out || go_Tombstone out then
        let '(cached, s) := IsCacheReplica ns key nowMs s in
        (Ok (answer out (if cached then LOCAL_DYNAMIC_CACHE else LOCAL_DURABLE) COMPLETE), None, s)
      else
        match fetcher with
        | None => (Ok (answer out LOCAL_DURABLE COMPLETE), None, s)
        | Some f =>
            match f ns key with
            | Err _ => (Ok (answer out LOCAL_DURABLE PARTIAL), None, s)
            | Ok None => (Ok (answer out LOCAL_DURABLE COMPLETE), None, s)
            | Ok (Some fr) =>
                let s := (CachePut (fe_Record fr) nowMs s).2 in
                match Get ns key (ca_rec s) with
                | Err e => (Err e, fe_Offer fr, s)
                | Ok out => (Ok (answer out FETCHED_CLOSEST_HOLDER COMPLETE), fe_Offer fr, s)
                end
            end
        end
  end.

Definition failSoft (r : res recErr GetResult) : GetResult :=
  match r with
  | Ok g => g
  | Err _ => mkGetResult (mkMeta (MemberID self) READ_SOURCE_UNSPECIFIED false PARTIAL None) false [] None
  end.

(** Local answers are taken in order, the misses afterwards and concurrently; [order] is the
    order in which the misses complete. *)
Definition wouldFetch (ns : bytes) (s : CacheStore L) (key : bytes) : bool :=
  match fetcher with
  | None => false
  | Some _ => match Get ns key (ca_rec s) with
              | Ok out => negb (go_Found out) && negb (go_Tombstone out)
              | Err _ => false
              end
  end.

Definition multiStep (nowMs : Z) (ns : bytes) (keys : list bytes) (acc : list (option GetResult) * CacheStore L) (i : nat)
    : list (option GetResult) * CacheStore L :=
  let '(results, s) := acc in
  match keys !! i with
  | None => acc
  | Some k => let '(r, _, s) := ReaderGet nowMs ns k s in (<[i := Some (failSoft r)]> results, s)
  end.

Definition multiLocal (nowMs : Z) (ns : bytes) (keys : list bytes) (acc : list nat * (list (option GetResult) * CacheStore L)) (i : nat)
    : list nat * (list (option GetResult) * CacheStore L) :=
  let '(missIdx, (results, s)) := acc in
  match keys !! i with
  | None => acc
  | Some k => if wouldFetch ns s k then (missIdx ++ [i], (results, s)) else (missIdx, multiStep nowMs ns keys (results, s) i)
  end.

Definition MultiGet (order : list nat → list nat) (nowMs : Z) (ns : bytes) (keys : list bytes) (s : CacheStore L)
    : list (option GetResult) * CacheStore L :=
  let '(missIdx, acc) := fold_left (multiLocal nowMs ns keys) (seq 0 (length keys)) ([], (replicate (length keys) None, s)) in
  fold_left (multiStep nowMs ns keys) (order missIdx) acc.

End Reader.

(** ** Scanner *)

Abbreviation rowMerge := (gmap bytes ScanRow).

Definition mergeAdd (m : rowMerge) (r : ScanRow) : rowMerge :=
  match m !! row_Key r with
  | Some cur => if 0 <? Version_Compare (row_Version r) (row_Version cur) then <[row_Key r := r]> m else m
  | None => <[row_Key r := r]> m
  end.

Definition row_le (a b : ScanRow) : Prop := bytes_le (row_Key a) (row_Key b).
#[export] Instance row_le_dec : RelDecision row_le.
Proof. intros a b. unfold row_le. apply _. Defined.

Definition sorted (m : rowMerge) : list ScanRow := merge_sort row_le (map_to_list m).*2.

Inductive ScanMode := SCAN_MODE_UNSPECIFIED | CACHE_FAST | LOCAL_ONLY | CACHE_COMPLETE | ROUTED_EVENTUAL.

Inductive ScanResponse :=
  | ScanHeader (mode : ScanMode) (completeness : Completeness) (observedAtMs : Z)
  | ScanRowMsg (key value : bytes) (version : ProtoVersion) (expiresAtMs : option Z)
  | ScanTrailer (rowsReturned : Z) (finalCompleteness : Completeness).

Section Scanner.
Context {L : Type} `{LocalStore L} `{Proto}.
Context (self : Member) (members : list MemberView).
(** A remote scan: [None] when the call fails or there is no scanner of holders. *)
Context (holderScan : Member → bytes → option bytes → option bytes → Z → option (list ScanRow)).
Context (covers : bytes → option bytes → option bytes → Z → bool).

Definition scanLocal (ns : bytes) (start stop : option bytes) (limit now : Z) (st : Store L) : list ScanRow :=
  match ScanRange ns start stop limit now st with
  | Err _ => []
  | Ok rows => rows
  end.

Definition unexpired (now : Z) (r : ScanRow) : bool :=
  negb (negb (now =? 0) && match row_ExpiresAtMs r with Some e => e <=? now | None => false end).

Definition remoteRows (ns : bytes) (start stop : option bytes) (fetch now : Z) : list ScanRow :=
  mjoin ((λ mv,
    if negb (bool_decide (mv_State mv = StateAlive)) || bool_decide (viewID mv = MemberID self) then []
    else match holderScan (mv_Member mv) ns start stop fetch with
         | None => []
         | Some rows => filter (λ r, unexpired now r = true) rows
         end) <$> members).

Definition routed (ns : bytes) (start stop : option bytes) (limit now : Z) (st : Store L) : list ScanRow :=
  let fetch := if 0 <? limit then limit * 2 else 0 in
  let m := fold_left mergeAdd (scanLocal ns start stop fetch now st) ∅ in
  sorted (fold_left mergeAdd (remoteRows ns start stop fetch now) m).

Definition rowMsg (r : ScanRow) : ScanResponse :=
  ScanRowMsg (row_Key r) (row_Value r) (ToProto (row_Version r)) (row_ExpiresAtMs r).

(** The messages of a scan in order; a failed send cuts them short. *)
Definition Scan (mode : ScanMode) (ns : bytes) (start stop : option bytes) (limit now : Z) (st : Store L) : list ScanResponse :=
  let mode := match mode with SCAN_MODE_UNSPECIFIED => CACHE_FAST | m => m end in
  let '(rows, completeness) :=
    match mode with
    | ROUTED_EVENTUAL => (routed ns start stop limit now st, PARTIAL)
    | CACHE_COMPLETE => (scanLocal ns start stop limit now st, if covers ns start stop now then COMPLETE else BEST_EFFORT)
    | _ => (scanLocal ns start stop limit now st, BEST_EFFORT)
    end in
  let rows := if (0 <? limit) && (limit <? Z.of_nat (length rows)) then take (Z.to_nat limit) rows else rows in
  ScanHeader mode completeness now :: (rowMsg <$> rows) ++ [ScanTrailer (Z.of_nat (length rows)) completeness].

End Scanner.

(** ** Sweeper of expired keys *)

Definition Expired (expiresAtMs : option Z) (nowMs : Z) : bool :=
  match expiresAtMs with Some e => e <=? nowMs | None => false end.

Definition sweepBatch : Z := 256.

Section Sweeper.
Context {L W : Type} `{LocalStore L} `{Proto}.
Context (store : W → Store L) (setStore : Store L → W → W).
Context (tombstone : bytes → bytes → W → bool * W).

Definition sweepEntry (now : Z) (acc : Z * W) (e : ExpiredEntry) : Z * W :=
  let '(emitted, w) := acc in
  let '(emitted, w) :=
    match ExpiresAt (ex_Namespace e) (ex_Key e) (store w) with
    | Some exp =>
        if exp <=? now then
          let '(ok, w) := tombstone (ex_Namespace e) (ex_Key e) w in ((if ok then emitted + 1 else emitted), w)
        else (emitted, w)
    | None => (emitted, w)
    end in
  (emitted, setStore (ClearTTLIndex (ex_IndexKey e) (store w)).2 w).

Definition SweepOnce (now : Z) (w : W) : Z * W :=
  match ExpiredEntries now sweepBatch (store w) with
  | Err _ => (0, w)
  | Ok entries => fold_left (sweepEntry now) entries (0, w)
  end.

End Sweeper.

End Kv.
