(* ===== verification/KvSpec.v ===== *)
(** * Writes, reads and scans of the key-value API

    A write fails for want of acknowledgements exactly when too few candidates answer; a
    batch read answers every key, the local ones as single reads; a routed scan with a limit
    is a prefix of the scan without, and shows the newest row of each key. *)

From S2P Require Import Prelude Bytes Hlc Version Conflict Storage Command Records RecordSamples RecordStore RecordRefine.
From S2P Require Import Float64 LatencyGraph Membership Placement LocalRepl RepairHeap Cache Kv.

Local Open Scope Z_scope.

#[local] Set Default Proof Using "All".

Module KvSpec.
Import Hlc Version Conflict Storage Command Records RecordSamples RecordStore RecordRefine LatencyGraph Membership Placement LocalRepl Cache Kv.

(** ** Acknowledgements *)

Section MinAck.
Context {L W : Type} {LS : LocalStore L} {PB : Proto}.
Context (recv : W → Receiver L) (setRecv : Receiver L → W → W).
Context (cl : Cluster W) (self : Member) (policy : Policy).
Context (ns key : bytes) (rec : StoredRecord).
(** Which candidates acknowledge the record. *)
Context (ok : Candidate → bool) (Hok : ∀ c s, (push cl self ns key rec (ca_Member c) s).1 = ok c).

Notation need := (MinAckNearbyReplicas policy).

Definition acks (cands : list Candidate) : Z := Z.of_nat (length (filter (λ c, ok c = true) cands)).

Lemma acks_cons c cands : acks (c :: cands) = (if ok c then 1 else 0) + acks cands.
Proof. unfold acks. rewrite filter_cons. destruct (ok c); [rewrite decide_True by done; cbn [length]; lia|by rewrite decide_False]. Qed.

Lemma acks_app l1 l2 : acks (l1 ++ l2) = acks l1 + acks l2.
Proof. unfold acks. rewrite filter_app, length_app. lia. Qed.

Lemma acks_perm l1 l2 : l1 ≡ₚ l2 → acks l1 = acks l2.
Proof. intros Hp. unfold acks. by rewrite Hp. Qed.

Lemma take_out (l : list Candidate) (i : nat) c : l !! i = Some c → l ≡ₚ c :: take i l ++ drop (i + 1) l.
Proof. intros Hi. rewrite <-(take_drop_middle l i c Hi) at 1. rewrite Nat.add_1_r. by rewrite Permutation_middle. Qed.

(** While candidates are left, as many calls run as acknowledgements are missing. *)
Lemma collect_acks (fuel : nat) sched inflight rest acked spill s :
  (length inflight + length rest ≤ fuel)%nat → 0 ≤ acked < need →
  Z.of_nat (length inflight) ≤ need - acked → (rest ≠ [] → Z.of_nat (length inflight) = need - acked) →
  (collect cl self policy fuel sched ns key rec inflight rest acked spill s).1.1.1 = Z.min need (acked + acks inflight + acks rest).
Proof.
  revert sched inflight rest acked spill s. induction fuel as [|fuel IH]; intros sched inflight rest acked spill s Hf Ha Hlen Hrest.
  { destruct inflight, rest; cbn in Hf; [|lia..]. change (acks []) with 0. cbn. lia. }
  cbn [collect]. set (i := (hd O sched mod length inflight)%nat). destruct (inflight !! i) as [c|] eqn:Ei.
  - pose proof (take_out _ _ _ Ei) as Hp. pose proof (Permutation_length Hp) as Hl. cbn [length] in Hl. set (infl := take i inflight ++ drop (i + 1) inflight) in *.
    rewrite (acks_perm _ _ Hp), acks_cons. pose proof (Hok c s) as Hc. destruct (push cl self ns key rec (ca_Member c) s) as [b s1]. cbn [fst] in Hc. subst b.
    destruct (ok c).
    + destruct (need <=? acked + 1) eqn:En; [cbn; unfold acks; lia|]. rewrite IH; [lia|lia|lia|lia|]. intros Hr. specialize (Hrest Hr). lia.
    + destruct rest as [|c' rest]; [rewrite IH; [lia|cbn in *; lia|done|lia|done]|].
      rewrite IH, acks_app, !acks_cons; [change (acks []) with 0; lia| |done| |]; rewrite ?length_app; cbn [length] in *; specialize (Hrest ltac:(done)); lia.
  - destruct inflight as [|c0 inflight]; [|exfalso; apply lookup_ge_None in Ei; pose proof (Nat.mod_upper_bound (hd O sched) (length (c0 :: inflight))); cbn [length] in *; lia].
    destruct rest as [|c' rest]; [change (acks []) with 0; cbn; lia|]. specialize (Hrest ltac:(done)). cbn in Hrest. lia.
Qed.

Lemma replicateMinAck_acks (sched : list nat) (cands : list Candidate) (s : Repl W) :
  (replicateMinAck cl self policy sched cands ns key rec s).1.1.1 = Z.max 0 (Z.min need (acks cands)).
Proof.
  unfold replicateMinAck. destruct (need <=? 0) eqn:En; [cbn; unfold acks; lia|].
  assert (0 < need) as Hn by lia. rewrite collect_acks.
  - rewrite <-(take_drop (Z.to_nat need) cands) at 3. rewrite acks_app. unfold acks. lia.
  - rewrite <-length_app, take_drop. done.
  - lia.
  - rewrite length_take. lia.
  - intros Hd. rewrite length_take. destruct (decide (Z.to_nat need ≤ length cands)%nat); [lia|]. by rewrite drop_ge in Hd by lia.
Qed.

(** The candidates of a write: the explicit ones, or else those the placement selects. *)
Definition candidatesOf (candidates : option (list Candidate)) (s : Repl W) : list Candidate :=
  match candidates with
  | Some cands => cands
  | None => match Select self (cl_Graph cl (re_world s)) policy (cl_Members cl (re_world s)) with Ok cands => cands | Err _ => [] end
  end.


End MinAck.

(** ** The merge of rows *)

Definition key_lt (a b : ScanRow) : Prop := bytes_lt (row_Key a) (row_Key b).

(** A row replaces another of its key when its version is later. *)
Definition later (a b : ScanRow) : bool := 0 <? Version_Compare (row_Version a) (row_Version b).

Definition pick (cur : option ScanRow) (r : ScanRow) : option ScanRow :=
  match cur with Some c => if later r c then Some r else cur | None => Some r end.

Lemma merge_lookup (rows : list ScanRow) (m : rowMerge) (k : bytes) :
  fold_left mergeAdd rows m !! k = fold_left pick (filter (λ r, row_Key r = k) rows) (m !! k).
Proof.
  revert m. induction rows as [|r rows IH]; intros m; [done|]. cbn [fold_left]. rewrite IH, filter_cons. unfold mergeAdd. case_decide as Hk.
  - cbn [fold_left]. f_equal. rewrite Hk. unfold pick, later. destruct (m !! k) as [c|] eqn:Ec; [case_match; [by rewrite lookup_insert_eq|done]|].
    by rewrite lookup_insert_eq.
  - f_equal. repeat case_match; try done; by rewrite lookup_insert_ne.
Qed.

(** The record of a row's version, to compare rows as the conflict resolver compares records. *)
Definition rowRec (r : ScanRow) : StoredRecord := mkStoredRecord [] None (Some (ToProto (row_Version r))) None false 0 [] [] [] 0 0.

Lemma later_beats a b : later a b = true ↔ beats (rowRec a) (rowRec b).
Proof.
  rewrite <-Compare_beats. unfold later, recVersion, rowRec. cbn [sr_version]. by rewrite !FromProto_ToProto.
Qed.

(** The rows of one key: the first of the latest ones is kept. *)
Lemma pick_latest (rows : list ScanRow) (cur : option ScanRow) :
  (is_Some cur ∨ rows ≠ []) →
  ∃ w, fold_left pick rows cur = Some w ∧ (cur = Some w ∨ w ∈ rows) ∧ ∀ r, cur = Some r ∨ r ∈ rows → later r w = false.
Proof.
  revert cur. induction rows as [|r rows IH]; intros cur Hne; cbn [fold_left].
  { destruct Hne as [[c ->]|]; [|done]. exists c. split_and!; [done|by left|]. intros r [[= ->]|Hr]; [|by apply not_elem_of_nil in Hr].
    destruct (later r r) eqn:E; [|done]. apply later_beats in E. by destruct (beats_asym _ _ E). }
  assert (∃ c, pick cur r = Some c ∧ (cur = Some c ∨ c = r) ∧ (∀ x, cur = Some x ∨ x = r → ¬ beats (rowRec x) (rowRec c))) as (c & Ec & Hfrom & Hmax).
  { unfold pick. assert (∀ x, ¬ beats (rowRec x) (rowRec x)) as Hirr by (intros x Hx; by destruct (beats_asym _ _ Hx)).
    destruct cur as [c|]; [|exists r; split_and!; [done|by right|]; by intros x [?| ->]].
    destruct (later r c) eqn:El.
    - exists r. split_and!; [done|by right|]. intros x [[= <-]| ->]; [|done]. by apply beats_asym, later_beats.
    - exists c. split_and!; [done|by left|]. intros x [[= <-]| ->]; [done|]. rewrite <-later_beats. by rewrite El. }
  destruct (IH (Some c) ltac:(by left)) as (w & Ew & Hw & Hall). rewrite <-Ec in Ew. exists w. split; [done|]. split.
  - destruct Hw as [[= ->]|Hw]; [destruct Hfrom as [?| ->]; [by left|right; by left]|right; by right].
  - intros x Hx. specialize (Hall c ltac:(by left)). destruct (later x w) eqn:E; [exfalso|done]. apply later_beats in E. revert E.
    destruct Hx as [Hx|[Hx|Hx]%elem_of_cons].
    + apply (not_beats_trans _ (rowRec c)); [apply Hmax; by left|rewrite <-later_beats; by rewrite Hall].
    + apply (not_beats_trans _ (rowRec c)); [apply Hmax; by right|rewrite <-later_beats; by rewrite Hall].
    + rewrite <-later_beats. destruct (IH (Some c) ltac:(by left)) as (w' & Ew' & _ & Hall'). rewrite <-Ec, Ew in Ew'. injection Ew' as <-.
      by rewrite Hall' by (by right).
Qed.

Definition mergeRows (rows : list ScanRow) : rowMerge := fold_left mergeAdd rows ∅.

Lemma mergeRows_spec (rows : list ScanRow) (k : bytes) :
  match mergeRows rows !! k with
  | Some w => row_Key w = k ∧ w ∈ rows ∧ ∀ r, r ∈ rows → row_Key r = k → later r w = false
  | None => ∀ r, r ∈ rows → row_Key r ≠ k
  end.
Proof.
  unfold mergeRows. rewrite merge_lookup, lookup_empty. destruct (filter (λ r, row_Key r = k) rows) as [|r0 l] eqn:Ef.
  { cbn. intros r Hr Hk. apply (not_elem_of_nil r). rewrite <-Ef. by apply list_elem_of_filter. }
  destruct (pick_latest (r0 :: l) None ltac:(by right)) as (w & -> & [|Hw] & Hall); [done|]. rewrite <-Ef in Hw, Hall.
  apply list_elem_of_filter in Hw as [Hk Hw]. split_and!; [done..|]. intros r Hr Hkr. apply Hall. right. by apply list_elem_of_filter.
Qed.

(** ** The rows in key order *)

#[local] Instance row_le_trans : Transitive row_le.
Proof. intros a b c. unfold row_le. apply transitivity. Qed.
#[local] Instance row_le_total : Total row_le.
Proof. intros a b. unfold row_le. apply total, _. Qed.

Lemma sorted_elem (rows : list ScanRow) r : r ∈ sorted (mergeRows rows) ↔ mergeRows rows !! row_Key r = Some r.
Proof.
  unfold sorted. rewrite merge_sort_Permutation, list_elem_of_fmap. split.
  - intros ([k x] & -> & Hin%elem_of_map_to_list). cbn. pose proof (mergeRows_spec rows k) as Hs. rewrite Hin in Hs. by destruct Hs as [-> _].
  - intros Hr. exists (row_Key r, r). split; [done|]. by apply elem_of_map_to_list.
Qed.

Lemma sorted_strict (rows : list ScanRow) : StronglySorted key_lt (sorted (mergeRows rows)).
Proof.
  assert (StronglySorted row_le (sorted (mergeRows rows))) as Hs by (apply StronglySorted_merge_sort; apply _).
  assert (NoDup (row_Key <$> sorted (mergeRows rows))) as Hn.
  { unfold sorted. rewrite merge_sort_Permutation. rewrite <-list_fmap_compose.
    replace ((row_Key ∘ snd) <$> map_to_list (mergeRows rows)) with (map_to_list (mergeRows rows)).*1; [apply NoDup_fst_map_to_list|].
    apply list_fmap_ext. intros i [k x] Hi. apply list_elem_of_lookup_2, elem_of_map_to_list in Hi. pose proof (mergeRows_spec rows k) as Hk.
    rewrite Hi in Hk. destruct Hk as [Hk _]. cbn. by rewrite Hk. }
  induction Hs as [|r l Hs IH Hr]; [constructor|]. cbn in Hn. apply NoDup_cons in Hn as [Hni Hn]. constructor; [by apply IH|].
  rewrite Forall_forall in Hr |- *. intros x Hx. specialize (Hr x Hx). unfold row_le in Hr. apply bytes_le_lteq in Hr as [Hr|Hr]; [done|].
  exfalso. apply Hni. rewrite Hr. by apply list_elem_of_fmap_2.
Qed.

(** Two lists in key order agree on their first [n] rows when the one has the first [n] rows
    of the other, and no key the other lacks. *)
Lemma take_agree (n : nat) (X Y : list ScanRow) :
  StronglySorted key_lt X → StronglySorted key_lt Y →
  (∀ y, y ∈ take n Y → y ∈ X) → (∀ x, x ∈ X → ∃ y, y ∈ Y ∧ row_Key y = row_Key x) → take n X = take n Y.
Proof.
  intros HX. revert n Y. induction HX as [|x X HX IH Hx]; intros n Y HY Hin Hkeys.
  { destruct n as [|n], Y as [|y Y]; [done..|]. destruct (not_elem_of_nil y). apply Hin. by left. }
  destruct n as [|n]; [done|]. destruct HY as [|y Y HY Hy].
  { destruct (Hkeys x ltac:(by left)) as (y & Hy & _). by apply not_elem_of_nil in Hy. }
  rewrite Forall_forall in Hx, Hy. assert (∀ a, ¬ bytes_lt a a) as Hirr by (intros a; unfold bytes_lt; by rewrite bcompare_refl).
  assert (x = y) as ->.
  { pose proof (Hin y ltac:(by left)) as Hyx. apply elem_of_cons in Hyx as [->|Hyx]; [done|]. exfalso.
    specialize (Hx y Hyx). destruct (Hkeys x ltac:(by left)) as (y' & Hy' & Ek). apply elem_of_cons in Hy' as [->|Hy'].
    - unfold key_lt in Hx. rewrite Ek in Hx. by apply Hirr in Hx.
    - specialize (Hy y' Hy'). unfold key_lt in *. rewrite Ek in Hy. apply (Hirr (row_Key x)). by eapply bytes_lt_trans. }
  cbn [take]. f_equal. apply IH; [done| |].
  - intros y' Hy'. assert (y' ∈ Y) as HyY by (by eapply subseteq_take). pose proof (Hin y' ltac:(by right)) as H'. apply elem_of_cons in H' as [->|H']; [|done].
    by destruct (Hirr _ (Hy y HyY)).
  - intros x' Hx'. destruct (Hkeys x' ltac:(by right)) as (y' & Hy' & Ek). apply elem_of_cons in Hy' as [->|Hy']; [|by exists y'].
    specialize (Hx x' Hx'). unfold key_lt in Hx. rewrite Ek in Hx. by apply Hirr in Hx.
Qed.

(** A part of a source that the limit cannot tell from the source. *)
Definition enough (n : nat) (full part : list ScanRow) : Prop :=
  StronglySorted key_lt full ∧ ∃ tail, full = part ++ tail ∧ (tail = [] ∨ (n ≤ length part)%nat).

Lemma keys_NoDup (l : list ScanRow) : StronglySorted key_lt l → NoDup (row_Key <$> l).
Proof.
  induction 1 as [|r l Hl IH Hr]; [constructor|]. cbn. apply NoDup_cons. split; [|done]. rewrite Forall_forall in Hr.
  intros (x & Ek & Hx)%list_elem_of_fmap. specialize (Hr x Hx). unfold key_lt, bytes_lt in Hr. by rewrite Ek, bcompare_refl in Hr.
Qed.

(** The row at a place below the limit has all its rivals in the parts. *)
Lemma part_complete (n : nat) (full part rows : list ScanRow) y :
  enough n full part → full ⊆ rows → y ∈ take n (sorted (mergeRows rows)) →
  filter (λ r, row_Key r = row_Key y) part = filter (λ r, row_Key r = row_Key y) full.
Proof.
  intros [Hs (tail & -> & Hlen)] Hsub Hy. rewrite filter_app. destruct (filter (λ r, row_Key r = row_Key y) tail) as [|x l] eqn:Et; [by rewrite app_nil_r|].
  exfalso. assert (x ∈ filter (λ r, row_Key r = row_Key y) tail) as [Hkx Hx]%list_elem_of_filter by (rewrite Et; by left).
  destruct Hlen as [->|Hlen]; [by apply not_elem_of_nil in Hx|]. apply list_elem_of_lookup in Hy as [i [Hi Hin]%lookup_take_Some].
  assert (length (row_Key <$> part) ≤ length (row_Key <$> take i (sorted (mergeRows rows))))%nat as Hle.
  { apply submseteq_length, NoDup_submseteq; [apply keys_NoDup; by apply StronglySorted_app in Hs as (_ & ? & _)|].
    intros k (p & -> & Hp)%list_elem_of_fmap. assert (key_lt p y) as Hpy.
    { apply StronglySorted_app in Hs as (Hs & _). unfold key_lt. rewrite <-Hkx. by apply Hs. }
    pose proof (mergeRows_spec rows (row_Key p)) as Hm. destruct (mergeRows rows !! row_Key p) as [w|] eqn:Ew;
      [|destruct (Hm p); [apply Hsub, elem_of_app; by left|done]]. destruct Hm as (Hkw & _).
    assert (w ∈ sorted (mergeRows rows)) as Hw by (apply sorted_elem; by rewrite Hkw). rewrite <-Hkw. apply list_elem_of_fmap_2.
    pose proof (sorted_strict rows) as HY. rewrite <-(take_drop_middle _ _ _ Hi) in Hw, HY. apply StronglySorted_app in HY as (_ & _ & HY).
    apply StronglySorted_inv in HY as [_ HY]. rewrite Forall_forall in HY.
    assert (key_lt w y) as Hwy by (unfold key_lt; by rewrite Hkw). unfold key_lt in *. assert (∀ a, ¬ bytes_lt a a) as Hirr by (intros a; unfold bytes_lt; by rewrite bcompare_refl).
    apply elem_of_app in Hw as [|[->|Hw]%elem_of_cons]; [done|by apply Hirr in Hwy|].
    specialize (HY w Hw). destruct (Hirr (row_Key w)). by eapply bytes_lt_trans. }
  rewrite !length_fmap, length_take in Hle. lia.
Qed.

Lemma filter_mjoin {A : Type} (P : A → Prop) `{!∀ x, Decision (P x)} (ls : list (list A)) : filter P (mjoin ls) = mjoin (filter P <$> ls).
Proof. induction ls as [|l ls IH]; [done|]. cbn. rewrite filter_app. by f_equal. Qed.

(** Merging parts is as good as merging the sources, up to the limit. *)
Lemma merge_limit (n : nat) (fulls parts : list (list ScanRow)) :
  Forall2 (enough n) fulls parts → take n (sorted (mergeRows (mjoin parts))) = take n (sorted (mergeRows (mjoin fulls))).
Proof.
  intros Hall. apply take_agree; [apply sorted_strict..| |].
  - intros y Hy. assert (y ∈ sorted (mergeRows (mjoin fulls))) as Hyf by (by eapply subseteq_take). apply sorted_elem in Hyf. apply sorted_elem.
    unfold mergeRows in *. rewrite merge_lookup in *. rewrite <-Hyf. f_equal. rewrite !filter_mjoin.
    assert (∀ l, l ∈ fulls → l ⊆ mjoin fulls) as Hsub by (intros l Hl x Hx; apply list_elem_of_join; eauto).
    f_equal. revert Hsub Hy. generalize (mjoin fulls) as rows. intros rows Hsub Hy. clear Hyf.
    induction Hall as [|full part fulls parts He Hall IH]; [done|]. cbn. f_equal; [|apply IH; intros l Hl; apply Hsub; by right].
    apply (part_complete n full part rows); [done|apply Hsub; by left|done].
  - intros x Hx%sorted_elem. pose proof (mergeRows_spec (mjoin parts) (row_Key x)) as Hm. rewrite Hx in Hm. destruct Hm as (_ & Hin & _).
    assert (x ∈ mjoin fulls) as Hxf.
    { clear Hx. induction Hall as [|full part fulls parts [_ (tail & -> & _)] Hall IH]; [done|]. cbn in *.
      apply elem_of_app in Hin as [Hin|Hin]; apply elem_of_app; [left; apply elem_of_app; by left|right; auto]. }
    pose proof (mergeRows_spec (mjoin fulls) (row_Key x)) as Hf. destruct (mergeRows (mjoin fulls) !! row_Key x) as [y|] eqn:Ey; [|by destruct (Hf x Hxf)].
    destruct Hf as (Hk & _). exists y. split; [|done]. apply sorted_elem. by rewrite Hk.
Qed.

(** ** Routed scans *)

Lemma StronglySorted_omap {A B : Type} (R : A → A → Prop) (R' : B → B → Prop) (f : A → option B) (l : list A) :
  StronglySorted R l → (∀ x y a b, R x y → f x = Some a → f y = Some b → R' a b) → StronglySorted R' (omap f l).
Proof.
  intros Hl Hf. induction Hl as [|x l Hl IH Hx]; [constructor|]. cbn. destruct (f x) as [a|] eqn:Ea; [|done]. constructor; [done|].
  rewrite Forall_forall in Hx. apply Forall_forall. intros b (y & Hy & Eb)%list_elem_of_omap. by eapply Hf; [apply Hx| |].
Qed.

Lemma StronglySorted_filter {A : Type} (R : A → A → Prop) (P : A → Prop) `{!∀ x, Decision (P x)} (l : list A) :
  StronglySorted R l → StronglySorted R (filter P l).
Proof.
  induction 1 as [|x l Hl IH Hx]; [constructor|]. rewrite filter_cons. case_decide; [|done]. constructor; [done|].
  rewrite Forall_forall in Hx |- *. intros y [_ Hy]%list_elem_of_filter. by apply Hx.
Qed.

Lemma filter_length_split {A : Type} (P : A → Prop) `{!∀ x, Decision (P x)} (l : list A) :
  (length (filter P l) + length (filter (λ x, ¬ P x) l) = length l)%nat.
Proof. induction l as [|x l IH]; [done|]. rewrite !filter_cons. repeat case_decide; cbn [length]; try done; lia. Qed.

Lemma capped_enough (n : nat) (fetch : Z) (full : list ScanRow) :
  StronglySorted key_lt full → (fetch ≤ 0 ∨ Z.of_nat n ≤ fetch) → enough n full (capped fetch full).
Proof.
  intros Hs Hf. split; [done|]. unfold capped. destruct (0 <? fetch) eqn:E; [|exists []; rewrite app_nil_r; auto].
  exists (drop (Z.to_nat fetch) full). split; [by rewrite take_drop|]. rewrite length_take.
  destruct (decide (length full ≤ Z.to_nat fetch)%nat); [left; by apply drop_ge|]. right. lia.
Qed.

Section Routed.
Context {L : Type} {LS : LocalStore L} {LSS : LocalStoreSpec L} {PB : Proto} {PBS : ProtoSpec}.
Context (self : Member) (members : list MemberView).
Context (holderScan : Member → bytes → option bytes → option bytes → Z → option (list ScanRow)).
Context (covers : bytes → option bytes → option bytes → Z → bool).
Context (st : Store L) (A : winners) (Hi : rs_inv st A) (ns : bytes) (Hns : ns_ok ns) (start stop : option bytes) (now limit : Z) (Hlimit : 0 < limit).
(** The other holders: which answer, and with the first rows of which, in key order; at most
    as many of their rows have expired as are asked for. *)
Context (answered : Member → bool) (holderRows : Member → list ScanRow).
Context (Hscan : ∀ m n, holderScan m ns start stop n = if answered m then Some (capped n (holderRows m)) else None).
Context (Hrows : ∀ m, StronglySorted key_lt (holderRows m)).
Context (Hexpired : ∀ m, Z.of_nat (length (filter (λ r, unexpired now r ≠ true) (holderRows m))) ≤ limit).

Definition localRows : list ScanRow := omap (rowOf now) (recordsIn A ns start stop).

Lemma localRows_sorted : StronglySorted key_lt localRows.
Proof.
  unfold localRows, recordsIn. rewrite omap_omap.
  apply (StronglySorted_omap bytes_lt key_lt); [apply StronglySorted_strict; [apply keysIn_sorted|apply keysIn_NoDup]|].
  assert (∀ k a, (A !! (ns, k) ≫= rowOf now) = Some a → row_Key a = k) as Hk.
  { intros k a. destruct (A !! (ns, k)) as [r|] eqn:Er; [|done]. cbn. unfold rowOf. case_match; [done|]. intros [= <-]. cbn.
    pose proof (inv_data _ _ Hi ns k) as Hd. rewrite Er in Hd. by destruct Hd as [[= _ ->] _]. }
  intros x y a b Hlt Ha%Hk Hb%Hk. unfold key_lt. by rewrite Ha, Hb.
Qed.

Lemma scanLocal_capped fetch : scanLocal ns start stop fetch now st = capped fetch localRows.
Proof. unfold scanLocal. by rewrite (ScanRange_ok st A). Qed.

(** What one member contributes. *)
Definition rowsFrom (fetch : Z) (mv : MemberView) : list ScanRow :=
  if negb (bool_decide (mv_State mv = StateAlive)) || bool_decide (viewID mv = MemberID self) then []
  else if answered (mv_Member mv) then filter (λ r, unexpired now r = true) (capped fetch (holderRows (mv_Member mv))) else [].

Lemma remoteRows_from fetch : remoteRows self members holderScan ns start stop fetch now = mjoin (rowsFrom fetch <$> members).
Proof.
  unfold remoteRows. f_equal. apply list_fmap_ext. intros i mv _. unfold rowsFrom. case_match; [done|]. rewrite Hscan. by destruct (answered _).
Qed.

Lemma rowsFrom_enough mv : enough (Z.to_nat limit) (rowsFrom 0 mv) (rowsFrom (limit * 2) mv).
Proof.
  unfold rowsFrom. case_match; [split; [constructor|by exists []; auto]|]. case_match; [|split; [constructor|by exists []; auto]].
  set (rows := holderRows (mv_Member mv)). unfold capped. rewrite Z.ltb_irrefl. destruct (0 <? limit * 2) eqn:E; [|lia].
  split; [by apply StronglySorted_filter, Hrows|]. exists (filter (λ r, unexpired now r = true) (drop (Z.to_nat (limit * 2)) rows)).
  split; [rewrite <-(take_drop (Z.to_nat (limit * 2)) rows) at 1; apply filter_app|].
  destruct (decide (length rows ≤ Z.to_nat (limit * 2))%nat) as [Hle|Hgt]; [left; by rewrite drop_ge|]. right.
  set (front := take (Z.to_nat (limit * 2)) rows). assert (length front = Z.to_nat (limit * 2)) as Hf by (unfold front; rewrite length_take; lia).
  pose proof (Hexpired (mv_Member mv)) as He. fold rows in He. rewrite <-(take_drop (Z.to_nat (limit * 2)) rows), filter_app, length_app in He. fold front in He.
  pose proof (filter_length_split (λ r, unexpired now r = true) front) as Hsp. lia.
Qed.

Lemma routed_merge fetchLimit :
  routed self members holderScan ns start stop fetchLimit now st =
    let fetch := if 0 <? fetchLimit then fetchLimit * 2 else 0 in
    sorted (mergeRows (mjoin (capped fetch localRows :: (rowsFrom fetch <$> members)))).
Proof.
  unfold routed. cbv zeta. rewrite scanLocal_capped, remoteRows_from. unfold mergeRows. cbn [mjoin list_join]. by rewrite fold_left_app.
Qed.

(** The rows a scan without a limit shows: those of this node and of the holders that answer. *)
Definition allRows : list ScanRow := localRows ++ mjoin (rowsFrom 0 <$> members).


End Routed.

(** ** Batch reads *)

Section Multi.
Context {L : Type} {LS : LocalStore L} {PB : Proto}.
Context (self : Member) (fetcher : option (bytes → bytes → res () (option FetchResult))) (now : Z) (ns : bytes) (keys : list bytes).

(** Caches that differ in the times of their entries only. *)
Definition touched (s s' : CacheStore L) : Prop :=
  ca_rec s' = ca_rec s ∧ ∀ id, is_Some (ca_cached s' !! id) ↔ is_Some (ca_cached s !! id).

Lemma touched_refl s : touched s s.
Proof. done. Qed.

Lemma wouldFetch_touched s s' k : touched s s' → wouldFetch fetcher ns s' k = wouldFetch fetcher ns s k.
Proof. intros [Er _]. unfold wouldFetch. by rewrite Er. Qed.

(** The answer of a single read. *)
Definition answer (s : CacheStore L) (k : bytes) : GetResult := failSoft self (ReaderGet self fetcher now ns k s).1.1.

Lemma local_read_touched s s' k :
  touched s s' → wouldFetch fetcher ns s k = false → answer s' k = answer s k ∧ touched s (ReaderGet self fetcher now ns k s').2.
Proof.
  intros [Er Hc] Hw. unfold answer, ReaderGet. rewrite Er. unfold wouldFetch in Hw. destruct (Get ns k (ca_rec s)) as [out|e]; [|done].
  destruct (go_Found out || go_Tombstone out) eqn:Eh.
  - unfold IsCacheReplica. pose proof (Hc (cacheKeyID ns k)) as Hk.
    destruct (ca_cached s' !! cacheKeyID ns k) as [t'|] eqn:Et', (ca_cached s !! cacheKeyID ns k) as [t|] eqn:Et; cbn [fst snd].
    + split; [done|]. split; [done|]. intros id. cbn [ca_cached]. rewrite <-Hc.
      destruct (decide (id = cacheKeyID ns k)) as [->|Hne]; [rewrite lookup_insert_eq, Et'; split; by eexists|by rewrite lookup_insert_ne].
    + destruct (proj1 Hk ltac:(by eexists)) as [? [=]].
    + destruct (proj2 Hk ltac:(by eexists)) as [? [=]].
    + split; [done|]. split; [done|]. done.
  - rewrite <-negb_orb, Eh in Hw. case_match; [done|done].
Qed.

Notation results := (list (option GetResult)).

(** After the local pass over the keys below [n]: the local ones answered, the misses listed. *)
Record passedLocal (s0 : CacheStore L) (n : nat) (acc : list nat * (results * CacheStore L)) : Prop := {
  pl_miss i : i ∈ acc.1 ↔ (i < n)%nat ∧ ∃ k, keys !! i = Some k ∧ wouldFetch fetcher ns s0 k = true;
  pl_len : length acc.2.1 = length keys;
  pl_done i k : (i < n)%nat → keys !! i = Some k → wouldFetch fetcher ns s0 k = false → acc.2.1 !! i = Some (Some (answer s0 k));
  pl_touched : touched s0 acc.2.2;
}.

Lemma multiLocal_pass s0 (n : nat) :
  (n ≤ length keys)%nat →
  passedLocal s0 n (fold_left (multiLocal self fetcher now ns keys) (seq 0 n) ([], (replicate (length keys) None, s0))).
Proof.
  induction n as [|n IH]; intros Hn.
  { split; cbn; [|by rewrite length_replicate|intros i k Hi; lia|apply touched_refl].
    intros i. split; [by intros ?%not_elem_of_nil|intros [? _]; lia]. }
  rewrite seq_S, fold_left_app. cbn [fold_left]. destruct (IH ltac:(lia)) as [Hm Hl Hd Ht]. rewrite Nat.add_0_l.
  destruct (fold_left _ _ _) as [miss [res s]]. cbn [fst snd] in *. unfold multiLocal.
  destruct (lookup_lt_is_Some_2 keys n ltac:(lia)) as [k Hk]. rewrite Hk, (wouldFetch_touched s0) by done.
  destruct (wouldFetch fetcher ns s0 k) eqn:Ew.
  - split; cbn [fst snd]; [|done| |done].
    + intros i. rewrite elem_of_app, list_elem_of_singleton, Hm. split; [intros [[? ?]| ->]; [split; [lia|done]|split; [lia|by exists k]]|].
      intros [Hi Hex]. destruct (decide (i = n)) as [->|]; [by right|left; split; [lia|done]].
    + intros i k' Hi Hk' Hw. destruct (decide (i = n)) as [->|]; [rewrite Hk in Hk'; injection Hk' as <-; congruence|]. apply Hd; [lia|done..].
  - unfold multiStep. rewrite Hk. destruct (local_read_touched s0 s k Ht Ew) as [Ha Ht']. unfold answer in Ha.
    destruct (ReaderGet self fetcher now ns k s) as [[r off] s1]. cbn [fst snd] in *. split; cbn [fst snd]; [|by rewrite length_insert| |done].
    + intros i. rewrite Hm. split; [intros [? ?]; split; [lia|done]|]. intros [Hi Hex]. split; [|done]. destruct (decide (i = n)) as [->|]; [|lia].
      destruct Hex as (k' & Hk' & Hw). rewrite Hk in Hk'. injection Hk' as <-. congruence.
    + intros i k' Hi Hk' Hw. destruct (decide (i = n)) as [->|Hne].
      * rewrite Hk in Hk'. injection Hk' as <-. rewrite list_lookup_insert_eq by lia. by rewrite Ha.
      * rewrite list_lookup_insert_ne by done. apply Hd; [lia|done..].
Qed.

Lemma multiStep_fold (idx : list nat) (acc : results * CacheStore L) :
  length acc.1 = length keys →
  let out := fold_left (multiStep self fetcher now ns keys) idx acc in
  length out.1 = length keys ∧ (∀ i, i ∉ idx → out.1 !! i = acc.1 !! i) ∧
  ∀ i, i ∈ idx ∨ (∃ r, acc.1 !! i = Some (Some r)) → (i < length keys)%nat → ∃ r, out.1 !! i = Some (Some r).
Proof.
  revert acc. induction idx as [|j idx IH]; intros acc Hl; cbn [fold_left].
  { split_and!; [done..|]. intros i [Hi|Hi] _; [by apply not_elem_of_nil in Hi|done]. }
  assert (length (multiStep self fetcher now ns keys acc j).1 = length keys ∧
    (∀ i, i ≠ j → (multiStep self fetcher now ns keys acc j).1 !! i = acc.1 !! i) ∧
    ((j < length keys)%nat → ∃ r, (multiStep self fetcher now ns keys acc j).1 !! j = Some (Some r))) as (Hl1 & Hs1 & Hj).
  { destruct acc as [res s]. unfold multiStep. cbn [fst] in *. destruct (keys !! j) as [k|] eqn:Ek.
    - destruct (ReaderGet self fetcher now ns k s) as [[r off] s1]. cbn [fst]. split_and!; [by rewrite length_insert|intros; by rewrite list_lookup_insert_ne|].
      intros Hj. rewrite list_lookup_insert_eq by lia. by eexists.
    - split_and!; [done..|]. apply lookup_ge_None in Ek. intros. lia. }
  destruct (IH _ Hl1) as (Hl2 & Hs2 & Hi2). split_and!; [done| |].
  - intros i [Hne Hi]%not_elem_of_cons. rewrite Hs2 by done. by apply Hs1.
  - intros i Hi Hlt. apply Hi2; [|done]. destruct (decide (i = j)) as [->|Hne]; [right; by apply Hj|]. rewrite Hs1 by done.
    destruct Hi as [[?|?]%elem_of_cons|?]; [done|by left|by right].
Qed.

(** A batch read answers every key, whatever the order in which its fetches complete, and
    answers a key held here as a single read of it would. *)
Theorem multiget_answers (order : list nat → list nat) (s : CacheStore L) (i : nat) (k : bytes) :
  (∀ l, order l ≡ₚ l) → keys !! i = Some k →
  ∃ r, (MultiGet self fetcher order now ns keys s).1 !! i = Some (Some r) ∧
    (wouldFetch fetcher ns s k = false → r = failSoft self (ReaderGet self fetcher now ns k s).1.1).
Proof.
  intros Hord Hk. unfold MultiGet. pose proof (multiLocal_pass s (length keys) ltac:(done)) as [Hm Hl Hd Ht].
  destruct (fold_left (multiLocal _ _ _ _ _) _ _) as [miss acc]. cbn [fst snd] in *. pose proof (lookup_lt_Some _ _ _ Hk) as Hlt.
  destruct (multiStep_fold (order miss) acc Hl) as (_ & Hs & Hi). destruct (wouldFetch fetcher ns s k) eqn:Ew.
  - destruct (Hi i) as [r Hr]; [|done|by exists r]. left. rewrite Hord. apply Hm. split; [done|by exists k].
  - exists (answer s k). split; [|done]. rewrite Hs; [by apply Hd|]. rewrite Hord, Hm. intros (_ & k' & Hk' & Hw). rewrite Hk in Hk'. injection Hk' as <-. congruence.
Qed.

End Multi.

(** ** Examples *)

Definition memberOf (id : bytes) : Member := mkMember (lit "c") id id id [] [] [] id id [].
Definition candidateNamed (id : bytes) : Candidate := mkCandidate (memberOf id) (Float64.of_Z 0) false.

(** A cluster in which only b and d acknowledge. *)
Definition answersWrite (m : Member) : bool := bool_decide (MemberID m = lit "b" ∨ MemberID m = lit "d").
Definition deafCluster : Cluster (Receiver MemStore) :=
  mkCluster (λ _, []) (λ _, LatencyGraph.New LatencyGraph.DefaultConfig) (λ _ _, true) (λ _, 0) (λ _ _ _, Ok None) (λ _ _ _ _, Ok ([], None))
    (λ m _ w, (if answersWrite m then Some (mkReplicaResp true (MemberID m) None) else None, w)).
Definition deafState : Repl (Receiver MemStore) :=
  mkRepl (NewReceiver freshStore (lit "a") None) (NewHolderDirectory (lit "a")) [] ∅ ∅ [].
Definition twoAcks : Policy := mkPolicy 2 2 true PreferLocalGeo true [].
Definition sampleWrite : StoredRecord := putRec (lit "k") 5 (lit "m") 1 (lit "v").
Definition fourCandidates : list Candidate := candidateNamed <$> [lit "e"; lit "b"; lit "f"; lit "d"].


Definition rowAt (k : bytes) (t : Z) : ScanRow := mkRow k (lit "v") (ver t (lit "m") 1) None.
Definition viewOf (id : bytes) : MemberView := mkView (memberOf id) StateAlive 1 0.

(** Node b has newer rows of k1 and k3, node d does not answer. *)
Definition holderRowsOf (m : Member) : list ScanRow := [rowAt (lit "k1") 9; rowAt (lit "k3") 9].
Definition holderScanOf (m : Member) (ns : bytes) (start stop : option bytes) (n : Z) : option (list ScanRow) :=
  if bool_decide (MemberID m = lit "b") then Some (capped n (holderRowsOf m)) else None.
Definition scanStore : Store MemStore := (Apply sampleWrite kindPut freshStore).2.

Lemma scan_inv : ∃ A, rs_inv scanStore A.
Proof.
  destruct (Apply_ok freshStore ∅ sampleWrite kindPut) as (w & st' & _ & E & Hi & _).
  - apply rs_inv_new; apply empty_mem.
  - apply storable_sample; vm_compute; intuition congruence.
  - intros w. by rewrite lookup_empty.
  - exists (absorbInto ∅ sampleWrite). unfold scanStore. by rewrite E.
Qed.


Lemma multiget_answers_witness :
  ∃ r, (MultiGet (memberOf (lit "a")) (Some (λ _ _, Ok None)) id 0 (lit "ns") [lit "x"; lit "k"] (NewCacheStore scanStore)).1 !! 1%nat = Some (Some r) ∧
    (wouldFetch (Some (λ _ _, Ok None)) (lit "ns") (NewCacheStore scanStore) (lit "k") = false →
     r = failSoft (memberOf (lit "a")) (ReaderGet (memberOf (lit "a")) (Some (λ _ _, Ok None)) 0 (lit "ns") (lit "k") (NewCacheStore scanStore)).1.1).
Proof.
  apply (multiget_answers (memberOf (lit "a")) (Some (λ _ _, Ok None)) 0 (lit "ns") [lit "x"; lit "k"] id (NewCacheStore scanStore) 1 (lit "k")).
  - done.
  - reflexivity.
Defined.

(** ** Deviations *)

(** A fetch that could not reach any holder reports no error, so a read that found nothing
    because the holder of the key is down claims to be complete. *)
Theorem unreachable_read_complete :
  let dir := ApplyPeerSummary (OwnSummary (AddHeldKey (lit "ns") (lit "x") 10 (NewDirectory (lit "b")))) (NewDirectory (lit "a")) in
  let fetch := Fetch (LatencyGraph.New LatencyGraph.DefaultConfig) [viewOf (lit "a"); viewOf (lit "b")] (λ _ _ _, None) id dir in
  let '(r, _, _) := ReaderGet (memberOf (lit "a")) (Some fetch) 0 (lit "ns") (lit "x") (NewCacheStore freshStore) in
  ResolveHolders id (lit "ns") (lit "x") dir = [lit "b"] ∧
  res_map (λ g, (gr_Found g, rm_Completeness (gr_Meta g))) r = Ok (false, COMPLETE).
Proof. vm_compute. done. Qed.

(** The merge of a routed scan does not see tombstones: a key deleted here comes back from a
    holder that still has the old value. *)
Theorem routed_scan_resurrects :
  let st := (Apply (delRec (lit "k1") 20 (lit "m") 2) kindDelete freshStore).2 in
  let rows := routed (memberOf (lit "a")) [viewOf (lit "a"); viewOf (lit "b")] holderScanOf (lit "ns") None None 0 0 st in
  res_map go_Tombstone (Get (lit "ns") (lit "k1") st) = Ok true ∧ row_Key <$> rows = [lit "k1"; lit "k3"].
Proof. vm_compute. done. Qed.

(** A tombstone that is written by the sweeper. *)
Definition tombstoneAt (ns key : bytes) (st : Store MemStore) : bool * Store MemStore :=
  match Apply (delRec key 1000000 (lit "m") 9) kindDelete st with (Ok _, st) => (true, st) | (Err _, st) => (false, st) end.

(** The sweep reads the whole minute it runs in and clears the index entries of keys that
    have not expired yet: a key that expires later in that minute is never tombstoned. *)
Theorem sweep_forgets_pending :
  let st := (Apply (ttlRec (lit "k") 5 (lit "m") 1 (lit "v") 90000) kindPut freshStore).2 in
  let '(n1, st1) := SweepOnce id (λ st _, st) tombstoneAt 61000 st in
  let '(n2, st2) := SweepOnce id (λ st _, st) tombstoneAt 600000 st1 in
  let '(n3, st3) := SweepOnce id (λ st _, st) tombstoneAt 600000 st in
  n1 = 0 ∧ n2 = 0 ∧ res_map go_Tombstone (Get (lit "ns") (lit "k") st2) = Ok false ∧
  n3 = 1 ∧ res_map go_Tombstone (Get (lit "ns") (lit "k") st3) = Ok true.
Proof. vm_compute. done. Qed.

(** An explicit but empty set of candidates is acknowledged without any nearby replica,
    whatever the policy asks for. *)
Theorem empty_candidates_acked :
  (PutTo deafCluster (memberOf (lit "a")) twoAcks id (λ r _, r) (λ _ _ _ w, w) id (mkWriteEnv 1000 1000 false []) (lit "ns") (lit "k") (lit "v")
     (Some []) [] deafState).1.1 = Ok (mkPut (mkVersion 1000 0 (lit "c") (lit "m") 1) 0 false).
Proof. vm_compute. reflexivity. Qed.

End KvSpec.
