(* ===== verification/KvSystem.v ===== *)
(** * A cluster of key-value nodes

    The coordinators, receivers, fill and repair workers and anti-entropy passes of a cluster,
    run in any interleaving over a network that loses requests and answers. *)

From S2P Require Import Prelude Bytes Hlc Version Conflict Storage Command Records RecordStore RecordRefine.
From S2P Require Import Float64 LatencyGraph Membership Placement LocalRepl Cache Kv.

Local Open Scope Z_scope.

#[local] Set Default Proof Using "Type".

Module KvSystem.
Import Hlc Version Conflict Storage Command Records RecordStore RecordRefine LatencyGraph Membership Placement LocalRepl Kv.

Section System.
Context {L : Type} {LS : LocalStore L} {LSS : LocalStoreSpec L} {PB : Proto} {PBS : ProtoSpec}.
(** The cluster, the digest function, and the member that listens at an address. *)
Context (clusterID : bytes) (sha256 : bytes → bytes) (resolve : bytes → option bytes).

(** ** State *)

Inductive delivery := Delivered | RequestLost | ReplyLost.

Record World := mkWorld { wo_nodes : gmap bytes (Receiver L); wo_net : list delivery }.

Definition setNode (i : bytes) (rv : Receiver L) (w : World) : World := mkWorld (<[i := rv]> (wo_nodes w)) (wo_net w).

(** A replica write over the network: the first of [wo_net] is the fate of the call. *)
Definition callStore (m : Member) (req : StoreReplicaRequest) (w : World) : option StoreReplicaResponse * World :=
  let fate := hd Delivered (wo_net w) in
  let w := mkWorld (wo_nodes w) (tl (wo_net w)) in
  match fate, resolve (DataAddr m) with
  | RequestLost, _ | _, None => (None, w)
  | _, Some id =>
      match wo_nodes w !! id with
      | None => (None, w)
      | Some rv =>
          let '(resp, rv) := ReceiverApply req rv in
          (match fate, resp with Delivered, Ok p => Some p | _, _ => None end, setNode id rv w)
      end
  end.

(** What a node sees while it runs one operation. *)
Record NodeView := mkNodeView { nv_members : list MemberView; nv_graph : Graph; nv_alive : bytes → bool; nv_now : Z }.

Definition storeAt (i : bytes) (w : World) : option (Store L) := rv_store <$> wo_nodes w !! i.

Definition clusterAt (i : bytes) (nv : NodeView) : Cluster World :=
  mkCluster (λ _, nv_members nv) (λ _, nv_graph nv) (λ _, nv_alive nv) (λ _, nv_now nv)
    (λ ns key w, match storeAt i w with Some st => GetRecord ns key st | None => Ok None end)
    (λ ns cursor limit w, match storeAt i w with Some st => ScanRecordsFrom ns cursor limit st | None => Ok ([], None) end)
    callStore.

(** What a node keeps beside its receiver. *)
Record Local := mkLocal {
  lo_holders : HolderDirectory;
  lo_queue : repairQueue;
  lo_pending : gset bytes;
  lo_cursor : gmap bytes (option bytes);
  lo_jobs : list FanoutJob;
  lo_syncCursor : gmap bytes (option bytes);
}.

(** An acknowledged write: where, what, and how many nearby replicas acknowledged it. *)
Record Ack := mkAck { ak_origin : bytes; ak_ns : bytes; ak_key : bytes; ak_version : Version; ak_acked : Z }.

Record Sys := mkSys { sy_world : World; sy_local : gmap bytes Local; sy_running : list (Member * Call); sy_acks : list Ack }.

(** ** Steps *)

Definition replOf (w : World) (net : list delivery) (lo : Local) : Repl World :=
  mkRepl (mkWorld (wo_nodes w) net) (lo_holders lo) (lo_queue lo) (lo_pending lo) (lo_cursor lo) (lo_jobs lo).

Definition localOf (s : Repl World) (lo : Local) : Local :=
  mkLocal (re_holders s) (re_queue s) (re_pending s) (re_cursor s) (re_jobs s) (lo_syncCursor lo).

(** Run an operation of the repair and fill workers of node [i]. *)
Definition onNode (i : bytes) (net : list delivery) (op : Repl World → Repl World) (s : Sys) : Sys :=
  match sy_local s !! i with
  | None => s
  | Some lo =>
      let r := op (replOf (sy_world s) net lo) in
      mkSys (re_world r) (<[i := localOf r lo]> (sy_local s)) (sy_running s) (sy_acks s)
  end.

(** A write request of a client. *)
Record Request := mkRequest {
  rt_ns : bytes; rt_key : bytes; rt_value : bytes; rt_tombstone : bool; rt_ttl : option Z; rt_idem : bytes;
  rt_candidates : option (list Candidate);
}.

(** Node settings: the placement policy and the namespaces replicated everywhere. *)
Context (policy : Policy) (everywhere : option (bytes → bool)).

(** A client write at node [i]. A replay of an idempotency key answers for an earlier write;
    the log keeps the writes that were carried out. *)
Definition writeAt (i : bytes) (self : Member) (nv : NodeView) (env : WriteEnv) (rq : Request) (net : list delivery) (s : Sys) : Sys :=
  match sy_local s !! i, wo_nodes (sy_world s) !! i with
  | Some lo, Some rv =>
      let '(result, calls, r) :=
        write (clusterAt i nv) self policy (λ w, default rv (wo_nodes w !! i)) (setNode i) (λ _ _ _ w, w) (λ w, w)
          env (rt_ns rq) (rt_key rq) (rt_value rq) (rt_tombstone rq) (rt_ttl rq) (rt_idem rq) (rt_candidates rq)
          (replOf (sy_world s) net lo) in
      let replay := negb (bool_decide (rt_idem rq = [])) && bool_decide (is_Some (idemCheck (rt_idem rq) (rv_idem rv))) in
      mkSys (re_world r) (<[i := localOf r lo]> (sy_local s)) (sy_running s ++ ((self,.) <$> calls))
        (sy_acks s ++ match result with
                      | Ok out => if replay then []
                                  else [mkAck i (rt_ns rq) (rt_key rq) (po_Version out) (po_AckedNearbyReplicas out)]
                      | Err _ => []
                      end)
  | _, _ => s
  end.

(** The [n]th call still running completes. *)
Definition lateCall (n : nat) (nv : NodeView) (net : list delivery) (s : Sys) : Sys :=
  match sy_running s !! n with
  | None => s
  | Some (self, c) =>
      let i := MemberID self in
      let s := mkSys (sy_world s) (sy_local s) (take n (sy_running s) ++ drop (n + 1) (sy_running s)) (sy_acks s) in
      onNode i net (straggle (clusterAt i nv) self c) s
  end.

(** An anti-entropy pass of node [i] over the peers at [addrs]; [lost] calls fail. *)
Definition fetchAt (lost : bytes → bool) (w : World) (addr ns key : bytes) : option StoredRecord :=
  if lost addr then None
  else match resolve addr ≫= λ j, storeAt j w with
       | None => None
       | Some st => match GetRecord ns key st with Ok r => r | Err _ => None end
       end.

Definition digestAt (lost : bytes → bool) (w : World) (addr ns : bytes) (start stop : option bytes) : option bytes :=
  if lost addr then None
  else match resolve addr ≫= λ j, storeAt j w with
       | None => None
       | Some st => match RangeDigest sha256 ns start stop st with Ok (d, _) => Some d | Err _ => None end
       end.

Definition syncAt (i : bytes) (self : Member) (nv : NodeView) (lost : bytes → bool) (useDigest : bool) (batch : Z)
    (namespaces : list bytes) (s : Sys) : Sys :=
  match sy_local s !! i, wo_nodes (sy_world s) !! i with
  | Some lo, Some rv =>
      let w := sy_world s in
      let '(_, a) :=
        IntraReconcileOnce sha256 (fetchAt lost w) (if useDigest then Some (digestAt lost w) else None) batch namespaces
          (alivePeerAddrs self (nv_members nv)) (mkAE (rv_store rv) (lo_syncCursor lo)) in
      mkSys (setNode i (with_store (ae_store a) rv) w)
        (<[i := mkLocal (lo_holders lo) (lo_queue lo) (lo_pending lo) (lo_cursor lo) (lo_jobs lo) (ae_cursor a)]> (sy_local s))
        (sy_running s) (sy_acks s)
  | _, _ => s
  end.

Inductive event :=
  | EvWrite (self : Member) (nv : NodeView) (env : WriteEnv) (rq : Request) (net : list delivery)
  | EvLate (n : nat) (nv : NodeView) (net : list delivery)
  | EvFill (self : Member) (nv : NodeView) (net : list delivery)
  | EvRepair (self : Member) (nv : NodeView) (net : list delivery)
  | EvBackfill (self : Member) (nv : NodeView) (namespaces : list bytes) (batch : Z)
  | EvDead (self : Member) (nv : NodeView) (dead : bytes)
  | EvSync (self : Member) (nv : NodeView) (lost : bytes → bool) (useDigest : bool) (batch : Z) (namespaces : list bytes).

Definition step (s : Sys) (e : event) : Sys :=
  match e with
  | EvWrite self nv env rq net => writeAt (MemberID self) self nv env rq net s
  | EvLate n nv net => lateCall n nv net s
  | EvFill self nv net => onNode (MemberID self) net (FanoutRun (clusterAt (MemberID self) nv) self policy everywhere) s
  | EvRepair self nv net =>
      onNode (MemberID self) net (λ r, (ProcessOne (clusterAt (MemberID self) nv) self policy everywhere r).2) s
  | EvBackfill self nv nss batch => onNode (MemberID self) [] (BackfillOnce (clusterAt (MemberID self) nv) policy nss batch) s
  | EvDead self nv dead => onNode (MemberID self) [] (OnMemberDead (clusterAt (MemberID self) nv) policy dead) s
  | EvSync self nv lost useDigest batch nss => syncAt (MemberID self) self nv lost useDigest batch nss s
  end.

Definition freshNode (store : L) (id : bytes) : Receiver L :=
  NewReceiver (NewStore store clusterID id (NewClock 500) 0) id None.

Definition freshLocal (id : bytes) : Local := mkLocal (NewHolderDirectory id) [] ∅ ∅ [] ∅.

(** A cluster of empty nodes. *)
Definition freshSys (store : L) (ids : list bytes) : Sys :=
  mkSys (mkWorld (list_to_map ((λ id, (id, freshNode store id)) <$> ids)) [])
    (list_to_map ((λ id, (id, freshLocal id)) <$> ids)) [] [].

Definition run (s : Sys) (es : list event) : Sys := fold_left step es s.

End System.
End KvSystem.
