(* ===== verification/KvSafety.v ===== *)
(** * Acknowledged writes are durable

    The invariant of a cluster of key-value nodes and its consequence: what a write reported
    as acknowledged is held by its origin and by as many other nodes, whatever runs
    afterwards, and every entry of a holder directory is true. *)

From S2P Require Import Prelude Bytes Hlc Version Conflict Storage Command Records RecordSamples RecordStore RecordRefine.
From S2P Require Import Float64 LatencyGraph Membership Placement LocalRepl RepairHeap Cache Kv KvSystem.

Local Open Scope Z_scope.

#[local] Set Default Proof Using "All".

Module KvSafety.
Import Hlc Version Conflict Storage Command Records RecordSamples RecordStore RecordRefine Membership Placement LocalRepl RepairHeap Kv KvSystem.

Section Safety.
Context {L : Type} {LS : LocalStore L} {LSS : LocalStoreSpec L} {PB : Proto} {PBS : ProtoSpec}.

(** ** One store *)

(** The store answers with a record at least as new as [r] for its key. *)
Definition heldStore (st : Store L) (r : StoredRecord) : Prop :=
  ∃ x, GetRecord (sr_Namespace r) (sr_LogicalKey r) st = Ok (Some x) ∧ ¬ beats r x.

(** The records written so far: well formed, one per mutation id. *)
Record hist (H : list StoredRecord) : Prop := {
  hi_storable r : r ∈ H → storable r;
  hi_unique r1 r2 : r1 ∈ H → r2 ∈ H → MutationID (recVersion r1) = MutationID (recVersion r2) → r1 = r2;
}.

Definition store_ok (H : list StoredRecord) (st : Store L) : Prop :=
  ∃ A, rs_inv st A ∧ ∀ k w, A !! k = Some w → w ∈ H.

(** The part of a store that stamps versions. *)
Definition writer (st : Store L) : Clock * Z * (bytes * bytes) := (rs_clock st, rs_seq st, (rs_clusterID st, rs_memberID st)).

Lemma Apply_writer r kind st : writer (Apply r kind st).2 = writer st.
Proof. unfold Apply. repeat case_match; done. Qed.

Lemma inv_key st A k w : rs_inv st A → A !! k = Some w → keyOf w = k ∧ storable w.
Proof.
  intros Hi Hk. destruct k as [ns k]. pose proof (inv_data _ _ Hi ns k) as Hd. rewrite Hk in Hd. by destruct Hd as (? & ? & _).
Qed.

Lemma store_read H st ns k :
  store_ok H st → ns_ok ns → ∃ h, GetRecord ns k st = Ok h ∧ ∀ w, h = Some w → w ∈ H ∧ keyOf w = (ns, k).
Proof.
  intros (A & Hi & HA) Hn. exists (A !! (ns, k)). split; [by apply GetRecord_ok|]. intros w Hw.
  split; [by eapply HA|]. by apply (inv_key st A (ns, k)).
Qed.

Lemma held_absorb A st r r' :
  rs_inv st A → storable r' → agrees A r → keyOf r' = keyOf r →
  (∃ x, A !! keyOf r' = Some x ∧ ¬ beats r' x) → ∃ x, absorbInto A r !! keyOf r' = Some x ∧ ¬ beats r' x.
Proof.
  intros Hi Hs Hag Hk (x & Hx & Hb). rewrite Hk in *. unfold absorbInto. rewrite lookup_partial_alter_eq, Hx, absorb_Some by (by apply Hag).
  eexists. split; [done|]. case_decide; [|done]. apply (not_beats_trans _ x); [done|by apply beats_asym].
Qed.

Lemma absorb_held A r : agrees A r → ∃ x, absorbInto A r !! keyOf r = Some x ∧ ¬ beats r x.
Proof.
  intros Hag. unfold absorbInto. rewrite lookup_partial_alter_eq. destruct (A !! keyOf r) as [x|] eqn:Hx.
  - rewrite absorb_Some by (by apply Hag). eexists. split; [done|]. case_decide; [|done]. intros Hb. by apply (beats_asym r r).
  - rewrite absorb_None. eexists. split; [done|]. intros Hb. by apply (beats_asym r r).
Qed.

Lemma heldStore_inv st A r : rs_inv st A → storable r → heldStore st r ↔ ∃ x, A !! keyOf r = Some x ∧ ¬ beats r x.
Proof.
  intros Hi [[Hn _] _]. unfold heldStore. rewrite (GetRecord_ok st A) by done. fold (keyOf r).
  split; intros (x & E & ?); exists x; (split; [|done]); [by injection E|by rewrite E].
Qed.

(** Applying a record of the history succeeds, makes the store hold it, and loses nothing. *)
Lemma store_apply H st r kind o st' :
  hist H → store_ok H st → r ∈ H → Apply r kind st = (o, st') →
  (∃ v, o = Ok v) ∧ store_ok H st' ∧ heldStore st' r ∧ (∀ r', storable r' → heldStore st r' → heldStore st' r').
Proof.
  intros Hh (A & Hi & HA) Hr E. pose proof (hi_storable H Hh r Hr) as Hst.
  assert (agrees A r) as Hag.
  { intros w Hw Ev. apply (hi_unique H Hh); [by eapply HA|done|by rewrite Ev]. }
  destruct (Apply_ok st A r kind Hi Hst Hag) as (w & st1 & Ew & Ea & Hi' & _). rewrite E in Ea. injection Ea as -> ->.
  split_and!; [by eexists| | |].
  - exists (absorbInto A r). split; [done|]. intros k x Hx. destruct (decide (k = keyOf r)) as [->|Hne].
    + rewrite (absorbInto_insert A r w Ew), lookup_insert_eq in Hx. injection Hx as <-.
      apply (absorb_keeps (λ v, v ∈ H) _ _ _ Ew); [done|]. intros v Hv. by eapply HA.
    + unfold absorbInto in Hx. rewrite lookup_partial_alter_ne in Hx by done. by eapply HA.
  - rewrite heldStore_inv by done. by apply absorb_held.
  - intros r' Hs. rewrite !heldStore_inv by done. destruct (decide (keyOf r' = keyOf r)) as [Ek|Hne].
    + by apply (held_absorb A st).
    + unfold absorbInto. by rewrite lookup_partial_alter_ne.
Qed.

(** ** One node *)

Definition heldBy (rv : Receiver L) (r : StoredRecord) : Prop := heldStore (rv_store rv) r.

Record node_ok (H : list StoredRecord) (i : bytes) (rv : Receiver L) : Prop := {
  no_id : rv_memberID rv = i;
  no_store : store_ok H (rv_store rv);
  no_idem mid v : im_seen (rv_idem rv) !! mid = Some v → idSep ∈ mid →
    ∃ r, r ∈ H ∧ MutationID (recVersion r) = mid ∧ heldBy rv r;
}.

Lemma idemRecord_lookup mid v i m' v' :
  im_seen (idemRecord mid v i) !! m' = Some v' → im_seen i !! m' = Some v' ∨ m' = mid ∧ v' = v.
Proof.
  unfold idemRecord. case_match; [auto|]. destruct (decide (m' = mid)) as [->|Hne]; [|].
  - repeat case_match; simplify_eq; cbn [im_seen]; rewrite lookup_insert_eq; intros [= ->]; auto.
  - repeat case_match; simplify_eq; cbn [im_seen]; rewrite lookup_insert_ne by done; auto;
      rewrite lookup_delete_Some; intros [_ ?]; auto.
Qed.

Lemma MutationID_sep v : idSep ∈ MutationID v.
Proof. unfold MutationID, mutationID. rewrite !elem_of_app, !elem_of_cons. auto. Qed.

Lemma receive_ok H i rv rec ns key c resp rv' :
  hist H → node_ok H i rv → rec ∈ H → ReceiverApply (BuildRequest ns key rec c) rv = (resp, rv') →
  (∃ p, resp = Ok p ∧ rp_Durable p = true) ∧ node_ok H i rv' ∧ heldBy rv' rec ∧
  (∀ r, storable r → heldBy rv r → heldBy rv' r) ∧ writer (rv_store rv') = writer (rv_store rv).
Proof.
  intros Hh [Hid Hst Hidem] Hr. unfold ReceiverApply. cbn [BuildRequest rq_MutationId rq_Record].
  destruct (idemCheck _ _) as [v|] eqn:Ei.
  { intros [= <- <-]. destruct (Hidem _ _ Ei (MutationID_sep _)) as (r & Hr' & Em & Hheld).
    rewrite (hi_unique H Hh r rec) in Hheld by done. split_and!; try done; by eexists. }
  destruct (Apply rec (kindOf rec) (rv_store rv)) as [o st'] eqn:Ea.
  pose proof (Apply_writer rec (kindOf rec) (rv_store rv)) as Hw. rewrite Ea in Hw.
  destruct (store_apply H _ _ _ _ _ Hh Hst Hr Ea) as ([v ->] & Hst' & Hheld & Hmono).
  intros [= <- <-]. split_and!; [by eexists| |done..]. split; cbn [rv_memberID rv_store rv_idem]; [done..|].
  intros mid v' [Hs|[-> ->]]%idemRecord_lookup Hsep; [|by exists rec].
  destruct (Hidem _ _ Hs Hsep) as (r & Hr' & Em & Hb). exists r. split_and!; [done..|]. apply Hmono; [by apply (hi_storable H)|done].
Qed.

(** ** The world *)

Context (clusterID : bytes) (sha256 : bytes → bytes) (resolve : bytes → option bytes).

Definition held (w : World) (i : bytes) (r : StoredRecord) : Prop := ∃ rv, wo_nodes w !! i = Some rv ∧ heldBy rv r.

Definition world_ok (H : list StoredRecord) (w : World) : Prop := ∀ i rv, wo_nodes w !! i = Some rv → node_ok H i rv.

(** No node loses a record, and none stamps a version. *)
Record evolves (w w' : World) : Prop := {
  ev_held i r : storable r → held w i r → held w' i r;
  ev_writer i : (λ rv, writer (rv_store rv)) <$> wo_nodes w' !! i = (λ rv, writer (rv_store rv)) <$> wo_nodes w !! i;
}.

#[local] Instance evolves_preorder : PreOrder evolves.
Proof. split; [by intros w|]. intros w1 w2 w3 [H1 E1] [H2 E2]. split; [auto|]. intros i. by rewrite E2. Qed.

Lemma evolves_net w net : evolves w (mkWorld (wo_nodes w) net).
Proof. done. Qed.

Lemma evolves_setNode w i rv rv' :
  wo_nodes w !! i = Some rv → (∀ r, storable r → heldBy rv r → heldBy rv' r) → writer (rv_store rv') = writer (rv_store rv) →
  evolves w (setNode i rv' w).
Proof.
  intros Hi Hm Hw. split.
  - intros j r Hr (rvj & Hj & Hh). unfold held, setNode. cbn [wo_nodes]. destruct (decide (j = i)) as [->|Hne].
    + rewrite lookup_insert_eq. rewrite Hi in Hj. injection Hj as ->. eauto.
    + rewrite lookup_insert_ne by done. eauto.
  - intros j. unfold setNode. cbn [wo_nodes]. destruct (decide (j = i)) as [->|Hne];
      [by rewrite lookup_insert_eq, Hi; cbn; rewrite Hw|by rewrite lookup_insert_ne].
Qed.

Lemma world_ok_setNode H w i rv : world_ok H w → node_ok H i rv → world_ok H (setNode i rv w).
Proof.
  intros Hw Hn j rvj. unfold setNode. cbn [wo_nodes]. destruct (decide (j = i)) as [->|Hne];
    [rewrite lookup_insert_eq; by intros [= <-]|rewrite lookup_insert_ne by done; apply Hw].
Qed.

Lemma callStore_ok H w m rec ns key c resp w' :
  hist H → world_ok H w → rec ∈ H → callStore resolve m (BuildRequest ns key rec c) w = (resp, w') →
  world_ok H w' ∧ evolves w w' ∧
  (∀ p, resp = Some p → rp_Durable p = true → ∃ id, resolve (DataAddr m) = Some id ∧ held w' id rec).
Proof.
  intros Hh Hw Hr. unfold callStore. set (w1 := mkWorld (wo_nodes w) (tl (wo_net w))). cbv zeta.
  assert (∀ resp w', (None, w1) = (resp, w') → world_ok H w' ∧ evolves w w' ∧
    (∀ p, resp = Some p → rp_Durable p = true → ∃ id, resolve (DataAddr m) = Some id ∧ held w' id rec)) as Hnone.
  { intros ? ? [= <- <-]. split_and!; [done|apply evolves_net|done]. }
  assert (∀ id rv, resolve (DataAddr m) = Some id → wo_nodes w1 !! id = Some rv → ∀ fate resp w',
    (let '(o, rv) := ReceiverApply (BuildRequest ns key rec c) rv in
     (match fate, o with Delivered, Ok p => Some p | _, _ => None end, setNode id rv w1)) = (resp, w') →
    world_ok H w' ∧ evolves w w' ∧
    (∀ p, resp = Some p → rp_Durable p = true → ∃ id, resolve (DataAddr m) = Some id ∧ held w' id rec)) as Hcall.
  { intros id rv Eid Erv fate resp0 w0. destruct (ReceiverApply _ rv) as [o rv'] eqn:Ea.
    destruct (receive_ok H id rv rec ns key c o rv' Hh (Hw id rv Erv) Hr Ea) as (_ & Hn' & Hheld & Hmono & Hwr).
    intros [= <- <-]. split_and!.
    - by apply world_ok_setNode.
    - transitivity w1; [apply evolves_net|by apply (evolves_setNode w1 id rv)].
    - intros p _ _. exists id. split; [done|]. exists rv'. split; [apply lookup_insert_eq|done]. }
  destruct (hd Delivered (wo_net w)); destruct (resolve (DataAddr m)) as [id|] eqn:Eid; try apply Hnone;
    destruct (wo_nodes w1 !! id) as [rv|] eqn:Erv; try apply Hnone.
  - apply (Hcall id rv eq_refl Erv Delivered).
  - apply (Hcall id rv eq_refl Erv ReplyLost).
Qed.

(** ** The state of the workers of a node *)

Definition holders_ok (H : list StoredRecord) (w : World) (d : HolderDirectory) : Prop :=
  ∀ id mm member v, hd_holders d !! id = Some mm → mm !! member = Some v →
    ∃ r, r ∈ H ∧ keyID (sr_Namespace r) (sr_LogicalKey r) = id ∧ recVersion r = v ∧ held w member r.

Definition about (H : list StoredRecord) (ns key : bytes) (r : StoredRecord) : Prop := r ∈ H ∧ keyOf r = (ns, key).

(** A record of the key that node [i] holds, or a newer one. *)
Definition own (H : list StoredRecord) (w : World) (i ns key : bytes) (r : StoredRecord) : Prop := about H ns key r ∧ held w i r.

Definition item_ok (H : list StoredRecord) (w : World) (i : bytes) (it : RepairItem) : Prop :=
  match ri_Record it with Some r => own H w i (ri_Namespace it) (ri_Key it) r | None => False end.

Definition job_ok (H : list StoredRecord) (w : World) (i : bytes) (j : FanoutJob) : Prop :=
  own H w i (fj_Namespace j) (fj_Key j) (fj_Record j).

Record repl_ok (H : list StoredRecord) (i : bytes) (s : Repl World) : Prop := {
  rk_world : world_ok H (re_world s);
  rk_holders : holders_ok H (re_world s) (re_holders s);
  rk_queue it : it ∈ re_queue s → item_ok H (re_world s) i it;
  rk_jobs j : j ∈ re_jobs s → job_ok H (re_world s) i j;
}.

(** An operation that keeps all that. *)
Definition sound (H : list StoredRecord) (i : bytes) (s s' : Repl World) : Prop := repl_ok H i s' ∧ evolves (re_world s) (re_world s').

Lemma sound_refl H i s : repl_ok H i s → sound H i s s.
Proof. done. Qed.
Lemma sound_trans H i s1 s2 s3 : sound H i s1 s2 → (repl_ok H i s2 → sound H i s2 s3) → sound H i s1 s3.
Proof. intros [H1 E1] H2. destruct (H2 H1) as [H3 E2]. split; [done|by etransitivity]. Qed.

Lemma holders_evolve H w w' d : hist H → evolves w w' → holders_ok H w d → holders_ok H w' d.
Proof.
  intros Hh He Hd id mm member v Hid Hm. destruct (Hd id mm member v Hid Hm) as (r & Hr & Hk & Hv & Hheld).
  exists r. split_and!; [done..|]. apply (ev_held _ _ He); [by apply (hi_storable H)|done].
Qed.

Lemma own_evolve H w w' i ns key r : hist H → evolves w w' → own H w i ns key r → own H w' i ns key r.
Proof. intros Hh He [[Hr Hk] Hheld]. split; [done|]. apply (ev_held _ _ He); [by apply (hi_storable H)|done]. Qed.

Lemma item_evolve H w w' i it : hist H → evolves w w' → item_ok H w i it → item_ok H w' i it.
Proof. intros Hh He. unfold item_ok. case_match; [by apply own_evolve|done]. Qed.

Lemma RecordHolder_holders H w d ns key member r :
  about H ns key r → held w member r → holders_ok H w d → holders_ok H w (RecordHolder ns key member (recVersion r) d).
Proof.
  intros [Hr Hk] Hheld Hd id mm m' v. unfold RecordHolder. cbn [hd_holders]. destruct (decide (id = keyID ns key)) as [->|Hne].
  - rewrite lookup_insert_eq. intros [= <-]. destruct (decide (m' = member)) as [->|Hm].
    + rewrite lookup_insert_eq. intros [= <-]. exists r. split_and!; try done. by injection Hk as -> ->.
    + rewrite lookup_insert_ne by done. unfold holdersAt. destruct (hd_holders d !! keyID ns key) as [mm0|] eqn:E; cbn [default].
      * intros Hv. by apply (Hd _ _ _ _ E Hv).
      * by rewrite lookup_empty.
  - rewrite lookup_insert_ne by done. apply Hd.
Qed.

Lemma RemoveHolder_holders H w d ns key member : holders_ok H w d → holders_ok H w (RemoveHolder ns key member d).
Proof.
  intros Hd. unfold RemoveHolder. destruct (hd_holders d !! keyID ns key) as [m|] eqn:E; [|done]. intros id mm m' v. cbn [hd_holders].
  case_bool_decide; [rewrite lookup_delete_Some; intros [_ ?]; by apply Hd|].
  destruct (decide (id = keyID ns key)) as [->|Hne]; [|rewrite lookup_insert_ne by done; apply Hd].
  rewrite lookup_insert_eq. intros [= <-]. rewrite lookup_delete_Some. intros [_ Hv]. by apply (Hd _ _ _ _ E Hv).
Qed.

(** ** Operations of the workers *)

(** Addresses of the roster are those of the members, or of nobody. *)
Definition addr_ok (m : Member) : Prop := ∀ id, resolve (DataAddr m) = Some id → id = MemberID m.

Section Ops.
Context (H : list StoredRecord) (Hh : hist H) (i : bytes) (nv : NodeView) (self : Member).
Context (policy : Policy) (everywhere : option (bytes → bool)).
Context (Hself : MemberID self = i) (Hnodup : NoDup (viewID <$> nv_members nv)) (Hviews : ∀ v, v ∈ nv_members nv → addr_ok (mv_Member v)).

Local Abbreviation cl := (clusterAt resolve i nv).

Lemma push_sound ns key rec m s ok s' :
  repl_ok H i s → about H ns key rec → addr_ok m → push cl self ns key rec m s = (ok, s') →
  sound H i s s' ∧ (ok = true → held (re_world s') (MemberID m) rec).
Proof.
  intros Hs Hab Ha. pose proof Hs as [Hw Hd Hq Hj]. unfold push. cbn [cl_StoreReplica clusterAt].
  destruct (callStore _ _ _ _) as [resp w'] eqn:Ec.
  destruct (callStore_ok H _ _ _ _ _ _ _ _ Hh Hw (proj1 Hab) Ec) as (Hw' & He & Hok).
  assert (repl_ok H i (set_world s w')) as Hs'.
  { split; [done|by apply (holders_evolve H (re_world s))| |].
    - intros it Hit. apply (item_evolve H (re_world s)); auto.
    - intros j Hjn. apply (own_evolve H (re_world s)); [done..|by apply Hj]. }
  destruct resp as [p|]; [destruct (rp_Durable p) eqn:Ep|].
  - intros [= <- <-]. destruct (Hok p eq_refl Ep) as (id & Eid & Hheld). rewrite (Ha _ Eid) in Hheld.
    split; [|done]. split; [|done]. destruct Hs' as [? ? ? ?]. split; [done| |done..]. by apply RecordHolder_holders.
  - intros [= <- <-]. done.
  - intros [= <- <-]. done.
Qed.

Lemma Enqueue_sound item s :
  repl_ok H i s → item_ok H (re_world s) i item → sound H i s (RepairEnqueue cl policy item s).
Proof.
  intros Hs Hit. unfold RepairEnqueue. case_match; [done|]. case_bool_decide; [done|]. split; [|done].
  destruct Hs as [Hw Hd Hq Hj]. split; cbn [set_queue re_world re_holders re_queue re_jobs]; [done..| |done].
  intros it. rewrite heapPush_Permutation, elem_of_cons. intros [->|Hin]; [done|by apply Hq].
Qed.

Lemma newItem_ok w ns key rec : own H w i ns key rec → item_ok H w i (newItem ns key rec).
Proof. done. Qed.

Lemma pushAll_sound enough ns key rec cands s :
  repl_ok H i s → about H ns key rec → Forall (λ c, addr_ok (ca_Member c)) cands →
  sound H i s (pushAll cl self enough ns key rec cands s).2.
Proof.
  revert s. induction cands as [|c cands IH]; intros s Hs Hab Hc; [done|]. apply Forall_cons in Hc as [Hc Hcs]. cbn [pushAll].
  case_match; [by apply IH|]. destruct (push _ _ _ _ _ _ _) as [ok s'] eqn:Ep.
  destruct (push_sound _ _ _ _ _ _ _ Hs Hab Hc Ep) as [Hs' _]. case_match; [done|].
  eapply sound_trans; [done|]. intros. by apply IH.
Qed.

Lemma Select_sound graph members cands :
  Select self graph policy members = Ok cands → NoDup (viewID <$> members) →
  NoDup (MemberID ∘ ca_Member <$> cands) ∧
  ∀ c, c ∈ cands → ∃ v, v ∈ members ∧ ca_Member c = mv_Member v ∧ viewID v ≠ MemberID self.
Proof.
  intros Hs%Select_members Hn. split.
  - apply (fmap_submseteq MemberID) in Hs. rewrite <-!list_fmap_compose in Hs. apply submseteq_Permutation in Hs as [k Hk].
    assert (NoDup (viewID <$> filter (λ mv, eligible self policy mv = true) members)) as Hf.
    { eapply sublist_NoDup; [exact Hn|]. apply fmap_sublist, sublist_filter. }
    change (MemberID ∘ mv_Member) with viewID in Hk. rewrite Hk in Hf. by apply NoDup_app in Hf as [? _].
  - intros c Hc. apply (list_elem_of_fmap_2 ca_Member) in Hc. eapply elem_of_submseteq in Hs; [|exact Hc].
    apply list_elem_of_fmap in Hs as (v & E & [He Hv]%list_elem_of_filter). exists v. split_and!; [done..|].
    unfold eligible in He. rewrite !andb_true_iff, negb_true_iff, bool_decide_eq_false in He. unfold viewID. naive_solver.
Qed.

Lemma candidates_addr graph cands :
  Select self graph policy (nv_members nv) = Ok cands → Forall (λ c, addr_ok (ca_Member c)) cands.
Proof.
  intros Hs. apply Forall_forall. intros c Hc. destruct (Select_sound _ _ _ Hs Hnodup) as [_ Hm].
  destruct (Hm c Hc) as (v & Hv & -> & _). by apply Hviews.
Qed.

Lemma repairCandidates_addr ns s : Forall (λ c, addr_ok (ca_Member c)) (repairCandidates cl self policy everywhere ns s).
Proof.
  unfold repairCandidates. cbn [clusterAt cl_Members cl_Graph]. case_match.
  - apply Forall_fmap, Forall_forall. intros v [_ Hv]%list_elem_of_filter. by apply Hviews.
  - case_match eqn:E; [by eapply candidates_addr|constructor].
Qed.

Lemma repairRecord_sound ns key rec target s :
  repl_ok H i s → own H (re_world s) i ns key rec →
  sound H i s (repairRecord cl self policy everywhere ns key rec target s).
Proof.
  intros Hs [Hab Hheld]. unfold repairRecord. cbv zeta. rewrite Hself. set (s1 := set_holders s _).
  assert (sound H i s s1) as H1.
  { split; [|done]. destruct Hs as [Hw Hd Hq Hj]. split; [done| |done..]. by apply RecordHolder_holders. }
  eapply sound_trans; [exact H1|]. intros Hs1. case_match; [done|].
  pose proof (pushAll_sound (λ s, target <=? aliveHolderCount cl ns key s) ns key rec (repairCandidates cl self policy everywhere ns s1) s1
    Hs1 Hab (repairCandidates_addr ns s1)) as H2.
  destruct (pushAll _ _ _ _ _ _ _ _) as [dn s2]. cbn [snd] in H2. case_match; [done|]. case_match; [|done].
  eapply sound_trans; [done|]. intros. apply Enqueue_sound; [done|]. apply newItem_ok, (own_evolve _ (re_world s)); [done| |done].
  etransitivity; [apply H1|apply H2].
Qed.

Lemma local_read ns key rec s :
  repl_ok H i s → ns_ok ns → cl_GetRecord cl ns key (re_world s) = Ok (Some rec) → own H (re_world s) i ns key rec.
Proof.
  intros Hs Hn. cbn [clusterAt cl_GetRecord]. unfold storeAt. destruct (wo_nodes (re_world s) !! i) as [rv|] eqn:Ei; [|done].
  cbn. intros Eg. destruct (store_read H (rv_store rv) ns key) as (h & Eh & Hw); [apply (rk_world _ _ _ Hs _ _ Ei)|done|].
  rewrite Eg in Eh. injection Eh as <-. destruct (Hw rec eq_refl) as [Hr Hk]. split; [done|]. exists rv. split; [done|].
  exists rec. injection Hk as -> ->. split; [done|]. intros Hb. by apply (beats_asym rec rec).
Qed.

Lemma ProcessOne_sound s : repl_ok H i s → sound H i s (ProcessOne cl self policy everywhere s).2.
Proof.
  intros Hs. unfold ProcessOne. destruct (pop s) as [[it s1]|] eqn:Ep; [|done].
  assert (sound H i s s1 ∧ item_ok H (re_world s) i it ∧ re_world s1 = re_world s) as (H1 & Hit & Ew).
  { unfold pop in Ep. destruct (re_queue s) as [|x q] eqn:Eq; [done|]. rewrite <-Eq in Ep.
    destruct (heapPop (re_queue s)) as [[it' q']|] eqn:Eh; [|done]. injection Ep as <- <-.
    pose proof (heapPop_Permutation _ _ _ Eh) as Hp. destruct Hs as [Hw Hd Hq Hj].
    split; [|split; [apply Hq; rewrite Hp; by left|done]]. split; [|done]. split; [done..| |done].
    cbn [set_queue re_queue re_world]. intros y Hy. apply Hq. rewrite Hp. by right. }
  rewrite <-Ew in Hit. case_match; [done|]. unfold item_ok in Hit.
  destruct (ri_Record it) as [rec|]; [|done]. eapply sound_trans; [exact H1|]. intros. by apply repairRecord_sound.
Qed.

Lemma fold_sound {A} (f : Repl World → A → Repl World) (P : A → Prop) (l : list A) s :
  (∀ s' a, P a → repl_ok H i s' → evolves (re_world s) (re_world s') → sound H i s' (f s' a)) →
  Forall P l → repl_ok H i s → sound H i s (fold_left f l s).
Proof.
  revert s. induction l as [|a l IH]; intros s Hf Hl Hs; [done|]. apply Forall_cons in Hl as [Ha Hl]. cbn [fold_left].
  destruct (Hf s a Ha Hs) as [H1 E1]; [done|]. eapply sound_trans; [by split|]. intros _. apply IH; [|done..].
  intros s' a' Ha' Hs' He. apply Hf; [done..|]. by transitivity (re_world (f s a)).
Qed.

Lemma OnMemberDead_sound m s : repl_ok H i s → sound H i s (OnMemberDead cl policy m s).
Proof.
  intros Hs. unfold OnMemberDead. apply (fold_sound _ (λ id, ∃ ns key, ns_ok ns ∧ id = keyID ns key)); [| |done].
  - intros s' id (ns & key & Hn & ->) Hs' _. clear s Hs. rename s' into s, Hs' into Hs. rewrite splitKeyID_keyID by apply Hn. cbv zeta.
    set (s1 := set_holders s _). assert (sound H i s s1) as H1.
    { split; [|done]. destruct Hs as [Hw Hd Hq Hj]. split; [done| |done..]. by apply RemoveHolder_holders. }
    eapply sound_trans; [exact H1|]. intros Hs1. destruct (cl_GetRecord _ _ _ _) as [[rec|]|] eqn:Eg; [|done..].
    apply Enqueue_sound; [done|]. apply newItem_ok. by apply local_read.
  - apply Forall_forall. intros id (mm & v & Hid & Hm)%keysHeldBy_elem.
    destruct (rk_holders _ _ _ Hs _ _ _ _ Hid Hm) as (r & Hr & <- & _). exists (sr_Namespace r), (sr_LogicalKey r).
    split; [|done]. by apply (hi_storable H Hh r Hr).
Qed.

Lemma BackfillOnce_sound nss batch s :
  Forall ns_ok nss → repl_ok H i s → sound H i s (BackfillOnce cl policy nss batch s).
Proof.
  intros Hn Hs. unfold BackfillOnce. cbv zeta. set (b := if batch <=? 0 then 1024 else batch).
  assert (0 < b) as Hb by (subst b; destruct (Z.leb_spec batch 0); lia). clearbody b.
  apply (fold_sound _ ns_ok); [|done..]. intros s' ns Hns Hs' _. clear s Hs. rename s' into s, Hs' into Hs. cbn [clusterAt cl_ScanRecordsFrom]. unfold storeAt.
  destruct (wo_nodes (re_world s) !! i) as [rv|] eqn:Ei; cbn [fmap option_fmap option_map].
  2: { destruct Hs; split; [by split|done]. }
  destruct (no_store _ _ _ (rk_world _ _ _ Hs _ _ Ei)) as (A & Hi & HA).
  rewrite (ScanRecordsFrom_ok _ A) by done. cbv zeta. set (next := if _ : bool then _ else _). clearbody next.
  set (s1 := set_cursor s _). assert (sound H i s s1) as H1 by (destruct Hs; split; [by split|done]).
  eapply sound_trans; [exact H1|]. intros Hs1. apply (fold_sound _ (λ rec, own H (re_world s) i ns (sr_LogicalKey rec) rec)); [| |done].
  - intros s2 rec Hrec Hs2 He. apply Enqueue_sound; [done|]. apply newItem_ok. by apply (own_evolve H (re_world s)).
  - apply Forall_forall. intros rec (k & Hk & Er)%list_elem_of_omap. destruct (inv_key _ _ _ _ Hi Er) as [Ek Hst].
    injection Ek as <- <-. split; [split; [by eapply HA|done]|]. exists rv. split; [done|]. apply (heldStore_inv _ A); [done..|].
    exists rec. split; [done|]. intros Hbt. by apply (beats_asym rec rec).
Qed.

Lemma FanoutEnqueue_sound job s :
  repl_ok H i s → job_ok H (re_world s) i job → sound H i s (FanoutEnqueue cl policy job s).
Proof.
  intros Hs Hjob. unfold FanoutEnqueue. case_match; [|by apply Enqueue_sound].
  split; [|done]. destruct Hs as [Hw Hd Hq Hj]. split; [done..|]. cbn [set_jobs re_jobs re_world].
  intros j. rewrite elem_of_app, list_elem_of_singleton. intros [?| ->]; [by apply Hj|done].
Qed.

Lemma fillEverywhere_sound job s :
  repl_ok H i s → job_ok H (re_world s) i job → sound H i s (fillEverywhere cl self policy job s).
Proof.
  intros Hs Hjob. unfold fillEverywhere. cbn [clusterAt cl_Members]. set (f := fold_left _ _ _).
  assert (sound H i s f.2) as Hf.
  { subst f. generalize false as b. revert s Hs Hjob. pose proof Hviews as Hm. revert Hm. generalize (nv_members nv) as ms.
    induction ms as [|m ms IH]; intros Hm s Hs Hjob b; [done|]. cbn [fold_left].
    assert (∀ v, v ∈ ms → addr_ok (mv_Member v)) as Hms by (intros v Hv; apply Hm; by right).
    case_match; [by apply IH|]. case_match; [by apply IH|]. destruct (push _ _ _ _ _ _ _) as [ok s'] eqn:Ep.
    destruct (push_sound _ _ _ _ _ _ _ Hs (proj1 Hjob) (Hm m ltac:(by left)) Ep) as [Hs' _].
    eapply sound_trans; [exact Hs'|]. intros Hr. apply IH; [done..|]. apply (own_evolve H (re_world s)); [done|apply Hs'|done]. }
  destruct f as [missed s']. cbn [snd] in Hf. case_match; [|done]. eapply sound_trans; [exact Hf|]. intros.
  apply Enqueue_sound; [done|]. apply newItem_ok, (own_evolve H (re_world s)); [done|apply Hf|done].
Qed.

Lemma Fill_sound job s :
  repl_ok H i s → job_ok H (re_world s) i job → sound H i s (Fill cl self policy everywhere job s).
Proof.
  intros Hs Hjob. unfold Fill. case_match; [by apply fillEverywhere_sound|]. case_match; [done|].
  set (f := match Select _ _ _ _ with Ok _ => _ | Err _ => _ end).
  assert (sound H i s f.2) as Hf.
  { subst f. cbn [clusterAt cl_Members cl_Graph]. destruct (Select _ _ _ _) as [cands|] eqn:Es; [|done].
    apply pushAll_sound; [done|apply Hjob|by eapply candidates_addr]. }
  destruct f as [dn s']. cbn [snd] in Hf. case_match; [done|]. case_match; [|done]. eapply sound_trans; [exact Hf|]. intros.
  apply Enqueue_sound; [done|]. apply newItem_ok, (own_evolve H (re_world s)); [done|apply Hf|done].
Qed.

Lemma FanoutRun_sound s : repl_ok H i s → sound H i s (FanoutRun cl self policy everywhere s).
Proof.
  intros Hs. unfold FanoutRun. destruct (re_jobs s) as [|job jobs] eqn:Ej; [done|].
  set (s1 := set_jobs s jobs). assert (sound H i s s1) as H1.
  { split; [|done]. destruct Hs as [Hw Hd Hq Hj]. split; [done..|]. intros j Hin. apply Hj. rewrite Ej. by right. }
  eapply sound_trans; [exact H1|]. intros. apply Fill_sound; [done|]. apply (rk_jobs _ _ _ Hs). rewrite Ej. by left.
Qed.

(** *** The collection of acknowledgements *)

Definition ids (cs : list Candidate) : list bytes := (λ c, MemberID (ca_Member c)) <$> cs.

Lemma collect_sound (fuel : nat) (sched : list nat) (ns key : bytes) (rec : StoredRecord) (inflight rest : list Candidate) (acked : Z) (spill : bool)
    (s : Repl World) (S : gset bytes) (out : Z * bool) (running : list Candidate) (s' : Repl World) :
  repl_ok H i s → about H ns key rec → Forall (λ c, addr_ok (ca_Member c)) (inflight ++ rest) →
  NoDup (ids (inflight ++ rest)) → i ∉ ids (inflight ++ rest) →
  i ∉ S → Z.of_nat (size S) = acked → (∀ j, j ∈ S → j ∉ ids (inflight ++ rest) ∧ held (re_world s) j rec) →
  collect cl self policy fuel sched ns key rec inflight rest acked spill s = (out, running, s') →
  sound H i s s' ∧ running ⊆ inflight ++ rest ∧
  ∃ S' : gset bytes, i ∉ S' ∧ Z.of_nat (size S') = out.1 ∧ ∀ j, j ∈ S' → held (re_world s') j rec.
Proof.
  revert sched inflight rest acked spill s S. induction fuel as [|fuel IH]; intros sched inflight rest acked spill s S Hs Hab Ha Hnd Hi HiS HS Hheld;
    cbn [collect].
  { intros [= <- <- <-]. split_and!; [done|intros x Hx; apply elem_of_app; by left|]. exists S. split_and!; [done..|]. intros j Hj. by apply Hheld. }
  set (n := (hd O sched mod length inflight)%nat). destruct (inflight !! n) as [c|] eqn:Ec.
  2: { intros [= <- <- <-]. split_and!; [done|intros x Hx; apply elem_of_app; by left|]. exists S. split_and!; [done..|]. intros j Hj. by apply Hheld. }
  replace (n + 1)%nat with (Datatypes.S n) by lia. set (inf := take n inflight ++ drop (Datatypes.S n) inflight).
  assert (inflight ≡ₚ c :: inf) as Hp.
  { rewrite <-(take_drop_middle _ _ _ Ec) at 1. subst inf. by rewrite Permutation_middle. }
  clearbody inf n. destruct (push _ _ _ _ _ _ _) as [ok s1] eqn:Epush.
  unfold ids in Hnd, Hi, Hheld. rewrite Hp in Ha, Hnd, Hi. setoid_rewrite Hp in Hheld. fold ids in Hnd, Hi, Hheld. cbn [app] in Ha, Hnd, Hi, Hheld. change (ids (c :: inf ++ rest)) with (MemberID (ca_Member c) :: ids (inf ++ rest)) in *. apply Forall_cons in Ha as [Hc Ha].
  apply NoDup_cons in Hnd as [Hnc Hnd]. apply not_elem_of_cons in Hi as [Hic Hi].
  destruct (push_sound _ _ _ _ _ _ _ Hs Hab Hc Epush) as [H1 Hok].
  assert (∀ j, held (re_world s) j rec → held (re_world s1) j rec) as Hev.
  { intros j. apply (ev_held _ _ (proj2 H1)), (hi_storable H Hh). apply Hab. }
  assert (∀ (l : list Candidate), l ⊆ inf ++ rest → l ⊆ inflight ++ rest) as Hsub.
  { intros l Hl x Hx. apply Hl in Hx. rewrite Hp. cbn. by right. }
  destruct ok.
  - set (S1 := {[MemberID (ca_Member c)]} ∪ S).
    assert (MemberID (ca_Member c) ∉ S) as HcS by (intros Hin; apply (Hheld _ Hin); by left).
    assert (i ∉ S1 ∧ Z.of_nat (size S1) = acked + 1 ∧ ∀ j, j ∈ S1 → j ∉ ids (inf ++ rest) ∧ held (re_world s1) j rec) as (HiS1 & HS1 & Hh1).
    { split_and!; [subst S1; rewrite elem_of_union, elem_of_singleton; by intros [?|?]| |].
      - subst S1. rewrite size_union by (intros x ->%elem_of_singleton; done). rewrite size_singleton. lia.
      - intros j [->%elem_of_singleton|Hj]%elem_of_union; [split; [done|by apply Hok]|].
        destruct (Hheld j Hj) as [Hn ?]. split; [|auto]. intros Hin. apply Hn. by right. }
    case_match.
    + intros [= <- <- <-]. split_and!; [done|apply Hsub; intros x Hx; apply elem_of_app; by left|]. exists S1. split_and!; [done..|]. intros j Hj. by apply Hh1.
    + intros Hc'. destruct (IH _ _ _ _ _ _ S1 (proj1 H1) Hab Ha Hnd Hi HiS1 HS1 Hh1 Hc') as (H2 & Hr & HS'). split_and!; [|by apply Hsub|done].
      eapply sound_trans; [exact H1|done].
  - assert (∀ j, j ∈ S → j ∉ ids (inf ++ rest) ∧ held (re_world s1) j rec) as Hh1.
    { intros j Hj. destruct (Hheld j Hj) as [Hn ?]. split; [|auto]. intros Hin. apply Hn. by right. }
    destruct rest as [|c' rest]; intros Hc'.
    + destruct (IH _ _ _ _ _ _ S (proj1 H1) Hab Ha Hnd Hi HiS HS Hh1 Hc') as (H2 & Hr & HS'). split_and!; [|by apply Hsub|done].
      eapply sound_trans; [exact H1|done].
    + assert (inf ++ c' :: rest = (inf ++ [c']) ++ rest) as E by (by rewrite <-app_assoc). rewrite E in Ha, Hnd, Hi, Hh1, Hsub.
      destruct (IH _ _ _ _ _ _ S (proj1 H1) Hab Ha Hnd Hi HiS HS Hh1 Hc') as (H2 & Hr & HS'). split_and!; [|by apply Hsub|done].
      eapply sound_trans; [exact H1|done].
Qed.

Lemma straggle_sound c s :
  repl_ok H i s → about H (call_ns c) (call_key c) (call_rec c) → addr_ok (ca_Member (call_cand c)) →
  sound H i s (straggle cl self c s).
Proof.
  intros Hs Hab Ha. unfold straggle. destruct (push _ _ _ _ _ _ _) as [ok s'] eqn:Ep. by eapply push_sound.
Qed.

End Ops.

(** ** A write *)

Context (Hcluster : idSep ∉ clusterID ∧ id_ok clusterID).
(** Marshalling accepts well-formed records. The codec refuses strings that are not UTF-8; a write
    of such a record fails and is not acknowledged. *)
Context (Hmarshal : ∀ r, record_ok r → marshals r).

Record writer_ok (n : Z) (i : bytes) (st : Store L) : Prop := {
  wr_member : rs_memberID st = i;
  wr_cluster : rs_clusterID st = clusterID;
  wr_id : idSep ∉ i ∧ id_ok i;
  wr_seq : 0 ≤ rs_seq st ≤ n;
  wr_clock : ts_wf (last (rs_clock st)) ∧ PhysicalMs (last (rs_clock st)) ≤ 2 ^ 62 + 2 * n;
}.

Definition writers_ok (n : Z) (w : World) : Prop := ∀ i rv, wo_nodes w !! i = Some rv → writer_ok n i (rv_store rv).

(** The records of the history come from the nodes, each with its own sequence number. *)
Definition wrote (H : list StoredRecord) (w : World (L := L)) : Prop :=
  ∀ r, r ∈ H → ∃ rv, wo_nodes w !! WriterMemberID (recVersion r) = Some rv ∧ WriterClusterID (recVersion r) = clusterID ∧
    1 ≤ WriterSequence (recVersion r) ≤ rs_seq (rv_store rv).

Lemma writer_eq n i st st' : writer st' = writer st → writer_ok n i st → writer_ok n i st'.
Proof. unfold writer. intros [= Ec Es Ek Em] [? ? ? ? ?]. split; by rewrite ?Ec, ?Es, ?Ek, ?Em. Qed.

Lemma evolves_node w w' i rv' :
  evolves w w' → wo_nodes w' !! i = Some rv' → ∃ rv, wo_nodes w !! i = Some rv ∧ writer (rv_store rv') = writer (rv_store rv).
Proof.
  intros He Hi. pose proof (ev_writer _ _ He i) as E. rewrite Hi in E. cbn in E.
  destruct (wo_nodes w !! i) as [rv|]; [|done]. cbn in E. exists rv. split; [done|]. by apply (inj Some) in E.
Qed.

Lemma evolves_node_fwd w w' i rv :
  evolves w w' → wo_nodes w !! i = Some rv → ∃ rv', wo_nodes w' !! i = Some rv' ∧ writer (rv_store rv') = writer (rv_store rv).
Proof.
  intros He Hi. pose proof (ev_writer _ _ He i) as E. rewrite Hi in E. cbn in E.
  destruct (wo_nodes w' !! i) as [rv'|]; [|done]. cbn in E. exists rv'. split; [done|]. by apply (inj Some) in E.
Qed.

Lemma writers_evolve n w w' : evolves w w' → writers_ok n w → writers_ok n w'.
Proof.
  intros He Hw i rv' Hi. destruct (evolves_node _ _ _ _ He Hi) as (rv & Hi' & E). apply (writer_eq _ _ (rv_store rv)); [done|by apply Hw].
Qed.

Lemma wrote_evolve H w w' : evolves w w' → wrote H w → wrote H w'.
Proof.
  intros He Hw r Hr. destruct (Hw r Hr) as (rv & Hi & Hc & Hs). destruct (evolves_node_fwd _ _ _ _ He Hi) as (rv' & Hi' & E).
  exists rv'. unfold writer in E. injection E as _ -> _ _. done.
Qed.

(** A larger history. *)
Lemma node_mono H H' i rv : H ⊆ H' → node_ok H i rv → node_ok H' i rv.
Proof.
  intros Hsub [Hid (A & Hi & HA) Hidem]. split; [done| |].
  - exists A. split; [done|]. intros k w Hk. by eapply Hsub, HA.
  - intros mid v Hm Hs. destruct (Hidem mid v Hm Hs) as (r & Hr & ? & ?). exists r. split_and!; [by apply Hsub|done..].
Qed.

Lemma own_mono H H' w i ns key r : H ⊆ H' → own H w i ns key r → own H' w i ns key r.
Proof. intros Hsub [[Hr Hk] Hheld]. split; [split; [by apply Hsub|done]|done]. Qed.

Lemma holders_mono H H' w d : H ⊆ H' → holders_ok H w d → holders_ok H' w d.
Proof.
  intros Hsub Hd id mm m v Hid Hm. destruct (Hd id mm m v Hid Hm) as (r & Hr & ?). exists r. split; [by apply Hsub|done].
Qed.

Lemma item_mono H H' w i it : H ⊆ H' → item_ok H w i it → item_ok H' w i it.
Proof. intros Hsub. unfold item_ok. case_match; [by apply own_mono|done]. Qed.

(** Stamping changes the clock and the sequence only. *)
Lemma setClock_store H st c q : store_ok H st → store_ok H (setClock st c q).
Proof. intros (A & [] & HA). exists A. by split. Qed.

Definition wall_ok (wall : Z) : Prop := 0 ≤ wall ≤ 2 ^ 62.

Lemma Now_ok n wall c t c' :
  0 ≤ n < 2 ^ 61 → wall_ok wall → ts_wf (last c) → PhysicalMs (last c) ≤ 2 ^ 62 + n → Now wall c = (t, c') →
  last c' = t ∧ ts_wf t ∧ PhysicalMs t ≤ 2 ^ 62 + n + 1.
Proof.
  intros Hn Hw Hc Hp E. destruct (Now_spec wall c t c') as (E1 & _ & Hwf & _ & Hb); [split; [done|]|..|done|].
  - destruct Hc. unfold phys_ok. lia.
  - unfold phys_ok, wall_ok in *. lia.
  - split_and!; [done..|]. unfold wall_ok in *. lia.
Qed.

Lemma stamp_ok n i st wall wall' ns key value tombstone ttl v st1 rec st2 :
  0 ≤ n < 2 ^ 60 → writer_ok n i st → wall_ok wall → wall_ok wall' → ns_ok ns → id_ok key →
  NextVersion wall st = (v, st1) → BuildRecord wall' ns key value v tombstone ttl st1 = (rec, st2) →
  record_ok rec ∧ recVersion rec = v ∧ keyOf rec = (ns, key) ∧ sr_tombstone rec = tombstone ∧
  WriterClusterID v = clusterID ∧ WriterMemberID v = i ∧ WriterSequence v = rs_seq st + 1 ∧
  writer_ok (n + 1) i st2 ∧ rs_seq st2 = rs_seq st + 1 ∧ ∃ c, st2 = setClock st c (rs_seq st + 1).
Proof.
  intros Hn [Hm Hc Hid Hs [Hwf Hp]] Hw Hw' Hns Hk. unfold NextVersion. destruct (Now wall (rs_clock st)) as [ts c1] eqn:E1.
  destruct (Now_ok (2 * n) wall _ _ _ ltac:(lia) Hw Hwf Hp E1) as (L1 & Hwf1 & Hp1).
  unfold Sequencer_Next. rewrite uint64_id by zlia. intros [= <- <-]. set (v := mkVersion _ _ _ _ _).
  assert (version_ok v) as Hv.
  { destruct Hwf1 as [? Hl1]. unfold maxLogical in Hl1. unfold version_ok, v. cbn. rewrite Hm, Hc. destruct Hid, Hcluster.
    split_and!; try done; zlia. }
  unfold BuildRecord. cbv zeta.
  assert (∀ exp, record_ok (mkStoredRecord key (if tombstone then None else Some (VInline value)) (Some (ToProto v)) exp tombstone
    recordKindKV ns (WriterClusterID v) (WriterMemberID v) 0 0)) as Hrec by done.
  destruct ttl as [ttl|].
  - cbn [rs_clock setClock]. destruct (Now wall' c1) as [ts2 c2] eqn:E2. intros [= <- <-].
    destruct (Now_ok (2 * n + 1) wall' _ _ _ ltac:(lia) Hw' ltac:(by rewrite L1) ltac:(rewrite L1; lia) E2) as (L2 & Hwf2 & Hp2).
    split_and!; try done; [|by exists c2]. split; cbn [rs_memberID rs_clusterID rs_seq rs_clock setClock]; [done..|lia|].
    rewrite L2. split; [done|lia].
  - intros [= <- <-]. split_and!; try done; [|by exists c1].
    split; cbn [rs_memberID rs_clusterID rs_seq rs_clock setClock]; [done..|lia|]. rewrite L1. split; [done|lia].
Qed.

(** A new record extends the history. *)
Lemma hist_snoc n H w i rv rec :
  0 ≤ n < 2 ^ 60 → hist H → wrote H w → writers_ok n w → wo_nodes w !! i = Some rv → record_ok rec →
  WriterClusterID (recVersion rec) = clusterID → WriterMemberID (recVersion rec) = i →
  WriterSequence (recVersion rec) = rs_seq (rv_store rv) + 1 → hist (H ++ [rec]).
Proof.
  intros Hn Hh Hwr Hws Hi Hrec Hc Hm Hq.
  assert (∀ r, r ∈ H → MutationID (recVersion r) ≠ MutationID (recVersion rec)) as Hne.
  { intros r Hr E. destruct (Hwr r Hr) as (rvr & Hir & Hcr & Hsr). pose proof (wr_id _ _ _ (Hws _ _ Hir)) as [Hsep _].
    pose proof (wr_id _ _ _ (Hws _ _ Hi)) as [Hsep' _]. pose proof (wr_seq _ _ _ (Hws _ _ Hi)). pose proof (wr_seq _ _ _ (Hws _ _ Hir)).
    apply MutationID_injective in E as (_ & E2 & E3); try (rewrite ?Hc, ?Hcr, ?Hm, ?Hq; first [apply Hcluster|done|zlia]).
    rewrite E2, Hm, Hi in Hir. injection Hir as <-. lia. }
  split.
  - intros r [Hr| ->%list_elem_of_singleton]%elem_of_app; [by apply (hi_storable H)|]. split; [done|by apply Hmarshal].
  - intros r1 r2 [H1| ->%list_elem_of_singleton]%elem_of_app [H2| ->%list_elem_of_singleton]%elem_of_app E; [|exfalso..|done].
    + by apply (hi_unique H).
    + by apply (Hne r1).
    + by apply (Hne r2).
Qed.

(** What a step leaves behind: a longer history, a world in order, nothing lost. *)
Record after (n : Z) (H H' : list StoredRecord) (w w' : World (L := L)) : Prop := {
  af_sub : H ⊆ H';
  af_hist : hist H';
  af_wrote : wrote H' w';
  af_writers : writers_ok n w';
  af_held i r : storable r → held w i r → held w' i r;
  af_dom i : is_Some (wo_nodes w' !! i) ↔ is_Some (wo_nodes w !! i);
}.

Lemma evolves_dom w w' i : evolves w w' → is_Some (wo_nodes w' !! i) ↔ is_Some (wo_nodes w !! i).
Proof.
  intros He. pose proof (ev_writer _ _ He i) as E. destruct (wo_nodes w' !! i), (wo_nodes w !! i); cbn in E; try done; split; by eexists.
Qed.

Lemma writers_mono n n' w : n ≤ n' → writers_ok n w → writers_ok n' w.
Proof. intros Hn Hw i rv Hi. destruct (Hw i rv Hi) as [? ? ? ? [? ?]]. split; [done..|lia|split; [done|lia]]. Qed.

Lemma after_evolves n n' H w w' : n ≤ n' → hist H → wrote H w → writers_ok n w → evolves w w' → after n' H H w w'.
Proof.
  intros Hn Hh Hwr Hws He. split; [done..|by eapply wrote_evolve|eapply writers_evolve; [done|by eapply writers_mono]| |].
  - apply (ev_held _ _ He).
  - intros i. by apply evolves_dom.
Qed.

Lemma after_then n H H' w w' w'' : after n H H' w w' → evolves w' w'' → after n H H' w w''.
Proof.
  intros [Hsub Hh Hwr Hws Hheld Hdom] He. split; [done..|by eapply wrote_evolve|by eapply writers_evolve| |].
  - intros i r Hr Hw. apply (ev_held _ _ He); auto.
  - intros i. rewrite (evolves_dom w' w'') by done. apply Hdom.
Qed.

(** One node of the world gets a new store with the record it has stamped. *)
Lemma stamped_world n H w i rv rvF rec :
  0 ≤ n < 2 ^ 60 → hist H → wrote H w → writers_ok n w → world_ok H w → wo_nodes w !! i = Some rv → hist (H ++ [rec]) →
  WriterClusterID (recVersion rec) = clusterID → WriterMemberID (recVersion rec) = i →
  WriterSequence (recVersion rec) = rs_seq (rv_store rv) + 1 → rs_seq (rv_store rvF) = rs_seq (rv_store rv) + 1 →
  node_ok (H ++ [rec]) i rvF → writer_ok (n + 1) i (rv_store rvF) → (∀ r, storable r → heldBy rv r → heldBy rvF r) →
  after (n + 1) H (H ++ [rec]) w (setNode i rvF w) ∧ world_ok (H ++ [rec]) (setNode i rvF w).
Proof.
  intros Hn Hh Hwr Hws Hw Hi Hh' Hc Hm Hq HqF Hno Hwo Hheld.
  assert (H ⊆ H ++ [rec]) as Hsub by (intros x Hx; apply elem_of_app; by left). split; [split|].
  - done.
  - done.
  - intros r [Hr| ->%list_elem_of_singleton]%elem_of_app; unfold setNode; cbn [wo_nodes].
    + destruct (Hwr r Hr) as (rvr & Hir & Hcr & Hsr). destruct (decide (WriterMemberID (recVersion r) = i)) as [Ei|Hne].
      * rewrite Ei, lookup_insert_eq. rewrite Ei, Hi in Hir. injection Hir as <-. exists rvF. split_and!; [done..|lia|lia].
      * rewrite lookup_insert_ne by done. by exists rvr.
    + rewrite Hm, lookup_insert_eq. pose proof (wr_seq _ _ _ (Hws _ _ Hi)). exists rvF. split_and!; [done..|lia|lia].
  - intros j rvj. unfold setNode. cbn [wo_nodes]. destruct (decide (j = i)) as [->|Hne].
    + rewrite lookup_insert_eq. by intros [= <-].
    + rewrite lookup_insert_ne by done. intros Hj. apply (writers_mono n (n + 1) w); [lia|done|done].
  - intros j r Hr (rvj & Hj & Hhj). unfold held, setNode. cbn [wo_nodes]. destruct (decide (j = i)) as [->|Hne].
    + rewrite lookup_insert_eq. rewrite Hi in Hj. injection Hj as <-. eauto.
    + rewrite lookup_insert_ne by done. eauto.
  - intros j. unfold setNode. cbn [wo_nodes]. destruct (decide (j = i)) as [->|Hne];
      [rewrite lookup_insert_eq, Hi; split; by eexists|by rewrite lookup_insert_ne].
  - intros j rvj. unfold setNode. cbn [wo_nodes]. destruct (decide (j = i)) as [->|Hne].
    + rewrite lookup_insert_eq. by intros [= <-].
    + rewrite lookup_insert_ne by done. intros Hj. by apply (node_mono H), Hw.
Qed.

Section Write.
Context (i : bytes) (self : Member) (nv : NodeView) (policy : Policy) (rv0 : Receiver L).
Context (Hself : MemberID self = i) (Hnodup : NoDup (viewID <$> nv_members nv)).
Context (Hviews : ∀ v, v ∈ nv_members nv → addr_ok (mv_Member v)).

Local Abbreviation cl := (clusterAt resolve i nv).
Local Abbreviation recv := (λ w : World (L := L), default rv0 (wo_nodes w !! i)).
Local Abbreviation noTap := (λ (_ _ : bytes) (_ : StoredRecord) (w : World (L := L)), w).

(** Explicit candidates are distinct members other than the origin, with current addresses. *)
Definition candidates_ok (cands : list Candidate) : Prop :=
  Forall (λ c, addr_ok (ca_Member c)) cands ∧ NoDup (ids cands) ∧ i ∉ ids cands.

Record write_pre (n : Z) (H : list StoredRecord) (s : Repl World) : Prop := {
  wp_n : 0 ≤ n < 2 ^ 60;
  wp_hist : hist H;
  wp_repl : repl_ok H i s;
  wp_wrote : wrote H (re_world s);
  wp_writers : writers_ok n (re_world s);
  wp_node : is_Some (wo_nodes (re_world s) !! i);
}.

Lemma originWrite_ok n H s env ns key value tombstone ttl :
  write_pre n H s → wall_ok (we_wall env) → wall_ok (we_wall' env) → ns_ok ns → id_ok key →
  ∃ rec s', originWrite self recv (setNode i) noTap env ns key value tombstone ttl s = (Ok (recVersion rec, rec), s') ∧
    after (n + 1) H (H ++ [rec]) (re_world s) (re_world s') ∧ repl_ok (H ++ [rec]) i s' ∧
    own (H ++ [rec]) (re_world s') i ns key rec.
Proof.
  intros [Hn Hh [Hw Hd Hq Hj] Hwr Hws [rv Hi]] Hw1 Hw2 Hns Hk. unfold originWrite. cbv beta. rewrite Hi. cbn [default from_option id].
  destruct (NextVersion (we_wall env) (rv_store rv)) as [v st1] eqn:E1. destruct (BuildRecord (we_wall' env) ns key value v tombstone ttl st1) as [rec st2] eqn:E2.
  destruct (stamp_ok n i _ _ _ _ _ _ _ _ _ _ _ _ Hn (Hws _ _ Hi) Hw1 Hw2 Hns Hk E1 E2)
    as (Hrec & Hv & Hkey & Ht & Hc & Hm & Hsq & Hwo & Hq2 & c & Est). rewrite <-Hv in *. set (H' := H ++ [rec]).
  assert (hist H') as Hh' by (by eapply (hist_snoc n H)). assert (rec ∈ H') as Hin by (apply elem_of_app; right; by left).
  pose proof (Hw _ _ Hi) as Hnode. destruct (Apply rec (if tombstone then kindDelete else kindPut) st2) as [o st3] eqn:Ea.
  assert (H ⊆ H') as Hsub by (intros x Hx; apply elem_of_app; by left). pose proof (node_mono H H' i rv Hsub Hnode) as [Hid Hst Hidem].
  assert (store_ok H' st2) as Hst2 by (rewrite Est; by apply setClock_store).
  destruct (store_apply H' st2 rec _ o st3 Hh' Hst2 Hin Ea) as ([v' ->] & Hst3 & Hheld & Hmono).
  pose proof (Apply_writer rec (if tombstone then kindDelete else kindPut) st2) as Ew. rewrite Ea in Ew. cbn [snd] in Ew.
  assert (∀ r, storable r → heldStore (rv_store rv) r → heldStore st3 r) as Hkeep.
  { intros r Hr Hhr. apply Hmono; [done|]. rewrite Est. exact Hhr. }
  (* the node after the write *)
  set (rvF := mkReceiver st3 (rv_memberID rv) (rv_idem rv) (if tombstone then rv_stored rv else (ns, key) :: rv_stored rv)).
  assert (node_ok H' i rvF) as HnF.
  { split; [done..|]. intros mid x Hmid Hsep. destruct (Hidem mid x Hmid Hsep) as (r & Hr & Em & Hb). exists r.
    split_and!; [done..|]. apply Hkeep; [by apply (hi_storable H')|done]. }
  destruct (stamped_world n H (re_world s) i rv rvF rec) as [Haf HwF]; try done.
  { change (rv_store rvF) with st3. unfold writer in Ew. injection Ew as _ -> _ _. done. }
  { by apply (writer_eq _ _ st2). }
  set (wF := setNode i rvF (re_world s)) in *.
  assert (held wF i rec) as HheldF by (exists rvF; split; [apply lookup_insert_eq|done]).
  set (sF := set_holders (set_world s wF) (RecordHolder ns key (MemberID self) (recVersion rec) (re_holders s))).
  exists rec, sF. split; [|split; [exact Haf|split; [|done]]].
  - subst sF wF rvF. destruct tombstone; cbn [on_recv with_store]; unfold on_recv, set_world, set_holders, with_store, setNode;
      cbn [re_world re_holders re_queue re_pending re_cursor re_jobs wo_nodes wo_net]; rewrite ?Hi; cbn [default]; [done|].
    rewrite lookup_insert_eq, insert_insert_eq. done.
  - assert (∀ j r, storable r → held (re_world s) j r → held wF j r) as Hheldw by apply (af_held _ _ _ _ _ Haf).
    assert (∀ ns key r, own H (re_world s) i ns key r → own H' wF i ns key r) as Hown.
    { intros ns' key' r [[Hr Hk'] Hhr]. split; [split; [by apply Hsub|done]|]. apply Hheldw; [by apply (hi_storable H)|done]. }
    split; cbn [sF set_holders set_world re_world re_holders re_queue re_jobs].
    + done.
    + rewrite Hself. apply RecordHolder_holders; [done..|]. intros id mm m' x Hid' Hm'.
      destruct (Hd id mm m' x Hid' Hm') as (r & Hr & ? & ? & Hb). exists r. split_and!; [by apply Hsub|done..|].
      apply Hheldw; [by apply (hi_storable H)|done].
    + intros it Hit. specialize (Hq it Hit). unfold item_ok in *. destruct (ri_Record it); [by apply Hown|done].
    + intros j Hjin. specialize (Hj j Hjin). by apply Hown.
Qed.

Lemma recordIdem_sound H idemKey v s :
  hist H → repl_ok H i s → is_Some (wo_nodes (re_world s) !! i) → idSep ∉ idemKey →
  sound H i s (recordIdem recv (setNode i) idemKey v s).
Proof.
  intros Hh [Hw Hd Hq Hj] [rv Hi] Hsep. unfold recordIdem. destruct idemKey as [|b k]; [done|]. unfold on_recv. cbv beta.
  rewrite Hi. cbn [default from_option id]. set (rv' := mkReceiver _ _ _ _). set (w' := setNode i rv' (re_world s)).
  assert (evolves (re_world s) w') as He by (by apply (evolves_setNode _ i rv)).
  assert (node_ok H i rv') as Hn.
  { destruct (Hw _ _ Hi) as [Hid Hst Hidem]. split; [done..|]. intros mid x [Hm|[-> _]]%idemRecord_lookup Hs; [by eapply Hidem|done]. }
  split; [|done]. split; [by apply world_ok_setNode|by apply (holders_evolve H (re_world s))| |].
  - intros it Hit. apply (item_evolve H (re_world s)); auto.
  - intros j Hjn. apply (own_evolve H (re_world s)); [done..|by apply Hj].
Qed.

Definition call_ok (H : list StoredRecord) (c : Call) : Prop :=
  about H (call_ns c) (call_key c) (call_rec c) ∧ addr_ok (ca_Member (call_cand c)).

(** A write is held by its origin and by as many other nodes as it reports. *)
Definition acked (H : list StoredRecord) (w : World) (ns key : bytes) (v : Version) (k : Z) : Prop :=
  ∃ r (S : gset bytes), about H ns key r ∧ recVersion r = v ∧ i ∉ S ∧ k ≤ Z.of_nat (size S) ∧ held w i r ∧
    ∀ j, j ∈ S → held w j r.

Lemma acked_evolve H w w' ns key v k : hist H → evolves w w' → acked H w ns key v k → acked H w' ns key v k.
Proof.
  intros Hh He (r & S & Hab & Hv & HiS & Hk & Hi & HS). exists r, S. assert (storable r) by (apply (hi_storable H Hh), Hab).
  split_and!; try done; [by apply (ev_held _ _ He)|]. intros j Hj. apply (ev_held _ _ He); auto.
Qed.

Lemma replicate_ok H s sched cands ns key rec out running s' :
  hist H → repl_ok H i s → own H (re_world s) i ns key rec → candidates_ok cands →
  replicateMinAck cl self policy sched cands ns key rec s = (out, running, s') →
  sound H i s s' ∧ running ⊆ cands ∧ acked H (re_world s') ns key (recVersion rec) out.1.
Proof.
  intros Hh Hs [Hab Hheld] (Ha & Hnd & Hi). unfold replicateMinAck. destruct (_ <=? 0).
  { intros [= <- <- <-]. split_and!; [done|intros x Hx; by apply not_elem_of_nil in Hx|]. exists rec, ∅. split_and!; try done; set_solver. }
  cbv zeta. set (n := Z.to_nat _). intros Hc. rewrite <-(take_drop n cands) in Ha, Hnd, Hi.
  destruct (collect_sound H Hh i nv self policy None Hself Hnodup Hviews _ _ _ _ _ _ _ _ _ _ ∅ _ _ _ Hs Hab Ha Hnd Hi ltac:(set_solver)
    ltac:(done) ltac:(set_solver) Hc) as (H1 & Hrun & S & HiS & HS & Hheld').
  rewrite take_drop in Hrun. split_and!; [done..|]. exists rec, S. split_and!; try done; [lia|].
  apply (ev_held _ _ (proj2 H1)); [by apply (hi_storable H Hh), Hab|done].
Qed.

Lemma replicateWrite_ok H s env ns key idemKey candidates rec result calls s' :
  hist H → repl_ok H i s → is_Some (wo_nodes (re_world s) !! i) → own H (re_world s) i ns key rec → idSep ∉ idemKey →
  (∀ cands, candidates = Some cands → candidates_ok cands) →
  replicateWrite cl self policy recv (setNode i) env ns key idemKey candidates (recVersion rec) rec s = (result, calls, s') →
  sound H i s s' ∧ Forall (call_ok H) calls ∧
  (∀ out, result = Ok out → acked H (re_world s') ns key (po_Version out) (po_AckedNearbyReplicas out)).
Proof.
  intros Hh Hs Hi Hown Hsep Hcands. unfold replicateWrite. cbv zeta.
  pose proof (recordIdem_sound H idemKey (recVersion rec) s Hh Hs Hi Hsep) as Hidem.
  assert (∀ w, evolves (re_world s) w → acked H w ns key (recVersion rec) 0) as Hzero.
  { intros w He. destruct (own_evolve H _ _ i ns key rec Hh He Hown) as [Hab Hheld]. exists rec, ∅. split_and!; try done; set_solver. }
  assert (∀ cands result calls s', candidates_ok cands →
    (let '(acked, spill, running, s) := replicateMinAck cl self policy (we_sched env) cands ns key rec s in
     let calls := mkCall ns key rec <$> running in
     if acked <? MinAckNearbyReplicas policy then (Err ErrInsufficientNearbyReplicas, calls, s)
     else (Ok (mkPut (recVersion rec) acked spill), calls,
           FanoutEnqueue cl policy (mkJob ns key rec) (recordIdem recv (setNode i) idemKey (recVersion rec) s))) = (result, calls, s') →
    sound H i s s' ∧ Forall (call_ok H) calls ∧
    (∀ out, result = Ok out → acked H (re_world s') ns key (po_Version out) (po_AckedNearbyReplicas out))) as Hrep.
  { intros cands result0 calls0 s0 Hc. destruct (replicateMinAck _ _ _ _ _ _ _ _ _) as [[[a spill] running] s1] eqn:Er.
    destruct (replicate_ok H s _ _ _ _ _ _ _ _ Hh Hs Hown Hc Er) as (H1 & Hrun & Hack). cbn [fst] in Hack.
    assert (Forall (call_ok H) (mkCall ns key rec <$> running)) as Hcalls.
    { apply Forall_fmap, Forall_forall. intros c Hcin. split; [apply Hown|]. destruct Hc as [Ha _]. rewrite Forall_forall in Ha. by apply Ha, Hrun. }
    case_match; intros [= <- <- <-]; [done|].
    assert (is_Some (wo_nodes (re_world s1) !! i)) as Hi1 by (by rewrite (evolves_dom (re_world s)) by apply H1).
    pose proof (recordIdem_sound H idemKey (recVersion rec) s1 Hh (proj1 H1) Hi1 Hsep) as H2.
    set (s2 := recordIdem recv (setNode i) idemKey (recVersion rec) s1) in *.
    assert (sound H i s2 (FanoutEnqueue cl policy (mkJob ns key rec) s2)) as H3.
    { apply (FanoutEnqueue_sound H Hh i nv self policy None Hself Hnodup Hviews); [apply H2|].
      apply (own_evolve H (re_world s)); [done| |done]. etransitivity; [apply H1|apply H2]. }
    split_and!; [eapply sound_trans; [exact H1|]; intros _; by eapply sound_trans|done|].
    intros out [= <-]. apply (acked_evolve H (re_world s1)); [done| |done]. etransitivity; [apply H2|apply H3]. }
  destruct candidates as [[|c cands]|].
  - intros [= <- <- <-]. split_and!; [done|constructor|]. intros out [= <-]. apply Hzero, Hidem.
  - apply Hrep. by apply Hcands.
  - cbn [clusterAt cl_Graph cl_Members]. destruct (Select _ _ _ _) as [cands|] eqn:Es.
    + apply Hrep. destruct (Select_sound H Hh i nv self policy None Hself Hnodup Hviews _ _ _ Es Hnodup) as [Hnd Hmem].
      split_and!; [by apply (candidates_addr H Hh i nv self policy None Hself Hnodup Hviews _ _ Es)|done|].
      intros (c & Ec & Hc)%list_elem_of_fmap. destruct (Hmem c Hc) as (v & _ & Ev & Hne). apply Hne. rewrite Hself, Ec. by rewrite Ev.
    + case_match; intros [= <- <- <-]; (split_and!; [done|constructor|]); intros out [= <-]. apply Hzero, Hidem.
Qed.

Lemma write_ok n H s env ns key value tombstone ttl idemKey candidates result calls s' :
  write_pre n H s → wall_ok (we_wall env) → wall_ok (we_wall' env) → ns_ok ns → id_ok key → idSep ∉ idemKey →
  (∀ cands, candidates = Some cands → candidates_ok cands) →
  write cl self policy recv (setNode i) noTap (λ w, w) env ns key value tombstone ttl idemKey candidates s = (result, calls, s') →
  ∃ H', after (n + 1) H H' (re_world s) (re_world s') ∧ repl_ok H' i s' ∧ Forall (call_ok H') calls ∧
    ((idemKey = [] ∨ idemCheck idemKey (rv_idem (recv (re_world s))) = None) →
     ∀ out, result = Ok out → acked H' (re_world s') ns key (po_Version out) (po_AckedNearbyReplicas out)).
Proof.
  intros Hpre Hw1 Hw2 Hns Hk Hsep Hc. pose proof Hpre as [Hn Hh Hs Hwr Hws Hi]. unfold write. cbv beta.
  assert (after (n + 1) H H (re_world s) (re_world s)) as Hsame by (apply (after_evolves n); [lia|done..]).
  destruct (if bool_decide (idemKey = []) then None else _) as [v|] eqn:Ei.
  { intros [= <- <- <-]. exists H. split_and!; [done..|constructor|]. intros Hno. exfalso.
    case_bool_decide; [done|]. destruct Hno as [?|Hno]; [done|]. by rewrite Hno in Ei. }
  destruct (we_pressure env).
  { intros [= <- <- <-]. exists H. split_and!; [done|by destruct Hs|constructor|done]. }
  destruct (originWrite_ok n H s env ns key value tombstone ttl Hpre Hw1 Hw2 Hns Hk) as (rec & s1 & -> & Haf & Hs1 & Hown).
  intros Hrep. assert (is_Some (wo_nodes (re_world s1) !! i)) as Hi1 by (by rewrite (af_dom _ _ _ _ _ Haf)).
  destruct (replicateWrite_ok (H ++ [rec]) s1 env ns key idemKey candidates rec result calls s' (af_hist _ _ _ _ _ Haf) Hs1 Hi1 Hown Hsep Hc Hrep)
    as (H1 & Hcalls & Hack).
  exists (H ++ [rec]). split_and!; [by eapply after_then, H1|apply H1|done|by intros _].
Qed.

End Write.

(** ** An anti-entropy pass *)

Definition store_le (H : list StoredRecord) (st st' : Store L) : Prop :=
  store_ok H st' ∧ (∀ r, storable r → heldStore st r → heldStore st' r) ∧ writer st' = writer st.

Lemma store_le_refl H st : store_ok H st → store_le H st st.
Proof. done. Qed.
Lemma store_le_trans H st1 st2 st3 : store_le H st1 st2 → store_le H st2 st3 → store_le H st1 st3.
Proof. intros (? & Hm1 & E1) (? & Hm2 & E2). split_and!; [done|auto|by rewrite E2]. Qed.

Section Sync.
Context (H : list StoredRecord) (Hh : hist H) (fetch : bytes → bytes → bytes → option StoredRecord).
Context (digest : option (bytes → bytes → option bytes → option bytes → option bytes)).
Context (Hfetch : ∀ addr ns key r, ns_ok ns → fetch addr ns key = Some r → r ∈ H).

Lemma bestOf_ok peers ns rec changed best :
  ns_ok ns → rec ∈ H → bestOf fetch peers ns rec = (changed, best) → best ∈ H.
Proof.
  intros Hns Hr. unfold bestOf. set (f := λ _, _).
  assert (∀ ps acc, acc.2 ∈ H → (fold_left f ps acc).2 ∈ H) as Hf.
  { induction ps as [|a ps IH]; intros [b x] Hx; [done|]. cbn [fold_left]. apply IH. subst f. cbn.
    destruct (fetch a ns (sr_LogicalKey rec)) as [pr|] eqn:E; [|done]. case_match; [|done]. by eapply Hfetch. }
  intros E. specialize (Hf peers (false, rec) Hr). by rewrite E in Hf.
Qed.

Lemma adopt_ok peers ns u st rec :
  ns_ok ns → rec ∈ H → store_ok H st → store_le H st (adopt fetch peers ns (u, st) rec).2.
Proof.
  intros Hns Hr Hst. unfold adopt. destruct (bestOf fetch peers ns rec) as [[] best] eqn:Eb; [|done].
  pose proof (bestOf_ok _ _ _ _ _ Hns Hr Eb) as Hb. destruct (Apply best (kindOf best) st) as [o st'] eqn:Ea.
  destruct (store_apply H st best _ o st' Hh Hst Hb Ea) as ([v ->] & Hst' & _ & Hm). split_and!; [done..|].
  pose proof (Apply_writer best (kindOf best) st) as E. by rewrite Ea in E.
Qed.

Lemma adoptAll_ok peers ns recs u st :
  ns_ok ns → (∀ r, r ∈ recs → r ∈ H) → store_ok H st → store_le H st (fold_left (adopt fetch peers ns) recs (u, st)).2.
Proof.
  intros Hns. revert u st. induction recs as [|r recs IH]; intros u st Hr Hst; [done|]. cbn [fold_left].
  pose proof (adopt_ok peers ns u st r Hns (Hr r ltac:(by left)) Hst) as H1. destruct (adopt _ _ _ _ _) as [u' st']. cbn [snd] in H1.
  eapply store_le_trans; [exact H1|]. apply IH; [intros x Hx; apply Hr; by right|apply H1].
Qed.

Lemma reconcileNS_ok batch peers acc ns :
  0 < batch → ns_ok ns → store_ok H (ae_store acc.2) →
  store_le H (ae_store acc.2) (ae_store (reconcileNS sha256 fetch digest batch peers acc ns).2).
Proof.
  intros Hb Hns Hst. destruct acc as [u a]. cbn [snd] in *. unfold reconcileNS. pose proof Hst as (A & Hi & HA).
  rewrite (ScanRecordsFrom_ok _ A) by done. cbv zeta. set (recs := omap _ _). set (peers' := fetchPeers _ _ _ _ _ _ _).
  assert (∀ r, r ∈ recs → r ∈ H) as Hr by (intros r (k & _ & Ek)%list_elem_of_omap; by eapply HA).
  pose proof (adoptAll_ok peers' ns recs u (ae_store a) Hns Hr Hst) as H1. by destruct (fold_left _ recs _).
Qed.

Lemma IntraReconcile_ok batch nss peers a :
  0 < batch → Forall ns_ok nss → store_ok H (ae_store a) →
  store_le H (ae_store a) (ae_store (IntraReconcileOnce sha256 fetch digest batch nss peers a).2).
Proof.
  intros Hb Hns Hst. unfold IntraReconcileOnce. destruct peers as [|p peers]; [done|]. generalize 0 as u. revert a Hst.
  induction nss as [|ns nss IH]; intros a Hst u; [done|]. apply Forall_cons in Hns as [Hn Hns]. cbn [fold_left].
  pose proof (reconcileNS_ok batch (p :: peers) (u, a) ns Hb Hn Hst) as H1. destruct (reconcileNS _ _ _ _ _ _ _) as [u' a'].
  cbn [snd] in H1. eapply store_le_trans; [exact H1|]. apply IH; [done|apply H1].
Qed.

End Sync.

Lemma fetchAt_ok H w lost addr ns key r :
  world_ok H w → ns_ok ns → fetchAt resolve lost w addr ns key = Some r → r ∈ H.
Proof.
  intros Hw Hns. unfold fetchAt, storeAt. destruct (lost addr); [done|]. destruct (resolve addr) as [j|]; [|done]. cbn.
  destruct (wo_nodes w !! j) as [rv|] eqn:Ej; [|done]. cbn. destruct (store_read H (rv_store rv) ns key) as (h & -> & Hr); [apply (Hw _ _ Ej)|done|].
  intros ->. by apply Hr.
Qed.

(** ** The invariant of the system *)

Record local_ok (H : list StoredRecord) (w : World) (i : bytes) (lo : Local) : Prop := {
  lk_holders : holders_ok H w (lo_holders lo);
  lk_queue it : it ∈ lo_queue lo → item_ok H w i it;
  lk_jobs j : j ∈ lo_jobs lo → job_ok H w i j;
}.

Record sys_ok (n : Z) (H : list StoredRecord) (s : Sys) : Prop := {
  so_hist : hist H;
  so_world : world_ok H (sy_world s);
  so_dom i : is_Some (sy_local s !! i) ↔ is_Some (wo_nodes (sy_world s) !! i);
  so_wrote : wrote H (sy_world s);
  so_writers : writers_ok n (sy_world s);
  so_local i lo : sy_local s !! i = Some lo → local_ok H (sy_world s) i lo;
  so_running p : p ∈ sy_running s → call_ok H p.2;
  so_acks a : a ∈ sy_acks s → acked (ak_origin a) H (sy_world s) (ak_ns a) (ak_key a) (ak_version a) (ak_acked a);
}.

Definition view_ok (nv : NodeView) : Prop :=
  NoDup (viewID <$> nv_members nv) ∧ ∀ v, v ∈ nv_members nv → addr_ok (mv_Member v).

(** What is asked of the environment: rosters without duplicates and with addresses that
    reach nobody else, walls clocks in range, keys and idempotency keys of the documented
    form, explicit candidates that are distinct other members. *)
Definition event_ok (e : event) : Prop :=
  match e with
  | EvWrite self nv env rq _ =>
      view_ok nv ∧ wall_ok (we_wall env) ∧ wall_ok (we_wall' env) ∧ ns_ok (rt_ns rq) ∧ id_ok (rt_key rq) ∧ idSep ∉ rt_idem rq ∧
      ∀ cands, rt_candidates rq = Some cands → candidates_ok (MemberID self) cands
  | EvLate _ nv _ | EvFill _ nv _ | EvRepair _ nv _ | EvDead _ nv _ => view_ok nv
  | EvBackfill _ nv nss _ => view_ok nv ∧ Forall ns_ok nss
  | EvSync _ nv _ _ batch nss => 0 < batch ∧ Forall ns_ok nss
  end.

Lemma call_mono H H' c : H ⊆ H' → call_ok H c → call_ok H' c.
Proof. intros Hsub [[Hr Hk] Ha]. split; [split; [by apply Hsub|done]|done]. Qed.

Lemma local_after n H H' w w' i lo : after n H H' w w' → hist H → local_ok H w i lo → local_ok H' w' i lo.
Proof.
  intros [Hsub _ _ _ Hheld _] Hh [Hd Hq Hj].
  assert (∀ ns key r, own H w i ns key r → own H' w' i ns key r) as Hown.
  { intros ns key r [[Hr Hk] Hhr]. split; [split; [by apply Hsub|done]|]. apply Hheld; [by apply (hi_storable H)|done]. }
  split.
  - intros id mm m v Hid Hm. destruct (Hd id mm m v Hid Hm) as (r & Hr & ? & ? & Hb). exists r. split_and!; [by apply Hsub|done..|].
    apply Hheld; [by apply (hi_storable H)|done].
  - intros it Hit. specialize (Hq it Hit). unfold item_ok in *. destruct (ri_Record it); [by apply Hown|done].
  - intros j Hjn. by apply Hown, Hj.
Qed.

Lemma acked_after n H H' w w' i ns key v k : after n H H' w w' → hist H → acked i H w ns key v k → acked i H' w' ns key v k.
Proof.
  intros [Hsub _ _ _ Hheld _] Hh (r & S & [Hr Hk] & Hv & HiS & Hsz & Hi & HS). exists r, S.
  assert (storable r) by (by apply (hi_storable H)). split_and!; try done; [split; [by apply Hsub|done]|by apply Hheld|]. auto.
Qed.

(** A step that replaces the local state of one node and logs new calls and acknowledgements. *)
Lemma sys_after n n' H H' s w' i lo' calls acks :
  sys_ok n H s → is_Some (sy_local s !! i) → after n' H H' (sy_world s) w' → world_ok H' w' → local_ok H' w' i lo' → (∀ p, p ∈ calls → call_ok H' p.2) →
  (∀ a, a ∈ acks → acked (ak_origin a) H' w' (ak_ns a) (ak_key a) (ak_version a) (ak_acked a)) →
  sys_ok n' H' (mkSys w' (<[i := lo']> (sy_local s)) (sy_running s ++ calls) (sy_acks s ++ acks)).
Proof.
  intros [Hh Hw Hd Hwr Hws Hl Hr Ha] Hi Haf Hw' Hlo Hcalls Hacks. pose proof Haf as [Hsub Hh' Hwr' Hws' _ Hdom].
  split; cbn [sy_world sy_local sy_running sy_acks]; try done.
  - intros j. rewrite Hdom, <-Hd. destruct (decide (j = i)) as [->|Hne]; [rewrite lookup_insert_eq|by rewrite lookup_insert_ne].
    split; [done|by eexists].
  - intros j lo. destruct (decide (j = i)) as [->|Hne]; [rewrite lookup_insert_eq; by intros [= <-]|].
    rewrite lookup_insert_ne by done. intros Hj. by eapply local_after, Hl.
  - intros p [Hp|Hp]%elem_of_app; [|by apply Hcalls]. by apply (call_mono H), Hr.
  - intros a [Hin|Hin]%elem_of_app; [|by apply Hacks]. by eapply acked_after, Ha.
Qed.

Lemma repl_of H i w net lo : repl_ok H i (replOf w net lo) ↔ world_ok H w ∧ local_ok H w i lo.
Proof. split; [intros [? ? ? ?]; by split|intros [? []]; by split]. Qed.

Lemma local_of H i s lo : repl_ok H i s → local_ok H (re_world s) i (localOf s lo).
Proof. intros [? ? ? ?]. by split. Qed.

Lemma onNode_ok n H i net op s :
  sys_ok n H s → (∀ r, repl_ok H i r → sound H i r (op r)) → sys_ok (n + 1) H (onNode i net op s).
Proof.
  intros Hs Hop. pose proof Hs as [Hh Hw Hd Hwr Hws Hl Hr Ha]. unfold onNode. destruct (sy_local s !! i) as [lo|] eqn:Ei.
  2: { split; try done. apply (writers_mono n); [lia|done]. }
  destruct (Hop (replOf (sy_world s) net lo)) as [Hrepl He]; [by apply repl_of; auto|]. set (r := op _) in *.
  rewrite <-(app_nil_r (sy_running s)), <-(app_nil_r (sy_acks s)).
  apply (sys_after n (n + 1) H H); [done|by eexists| |apply Hrepl|by apply local_of|intros p Hp; by apply not_elem_of_nil in Hp..].
  apply (after_evolves n); [lia|done..|]. etransitivity; [apply (evolves_net _ net)|exact He].
Qed.

Lemma sys_mono n n' H s : n ≤ n' → sys_ok n H s → sys_ok n' H s.
Proof. intros Hn [? ? ? ? ? ? ? ?]. split; try done. by apply (writers_mono n). Qed.

Section Step.
Context (policy : Policy) (everywhere : option (bytes → bool)).

Lemma writeAt_ok n H self nv env rq net s :
  0 ≤ n < 2 ^ 60 → sys_ok n H s → event_ok (EvWrite self nv env rq net) →
  ∃ H', sys_ok (n + 1) H' (writeAt resolve policy (MemberID self) self nv env rq net s).
Proof.
  intros Hn Hs ([Hnd Hviews] & Hw1 & Hw2 & Hns & Hk & Hsep & Hc). pose proof Hs as [Hh Hw Hd Hwr Hws Hl Hr Ha].
  set (i := MemberID self) in *. unfold writeAt. destruct (sy_local s !! i) as [lo|] eqn:Ei; [|exists H; apply (sys_mono n); [lia|done]].
  destruct (wo_nodes (sy_world s) !! i) as [rv|] eqn:Erv; [|exists H; apply (sys_mono n); [lia|done]].
  destruct (write _ _ _ _ _ _ _ _ _ _ _ _ _ _ _) as [[result calls] r] eqn:Ewr.
  assert (write_pre i n H (replOf (sy_world s) net lo)) as Hpre.
  { split; try done. by apply repl_of; auto. }
  destruct (write_ok i self nv policy rv eq_refl Hnd Hviews n H _ env _ _ _ _ _ _ _ _ _ _ Hpre Hw1 Hw2 Hns Hk Hsep Hc Ewr)
    as (H' & Haf & Hrepl & Hcalls & Hack).
  exists H'. apply (sys_after n (n + 1) H H'); [done|by eexists| |apply Hrepl|by apply local_of| |].
  - destruct Haf as [? ? ? ? Hheld Hdom]. split; try done.
  - intros p (c & -> & Hcin)%list_elem_of_fmap. rewrite Forall_forall in Hcalls. by apply Hcalls.
  - intros a. destruct result as [out|]; [|by intros ?%not_elem_of_nil]. cbn [re_world replOf wo_nodes] in Hack. rewrite Erv in Hack.
    destruct (negb (bool_decide (rt_idem rq = [])) && bool_decide (is_Some (idemCheck (rt_idem rq) (rv_idem rv)))) eqn:Erep;
      [by intros ?%not_elem_of_nil|].
    intros ->%list_elem_of_singleton. apply Hack; [|done]. apply andb_false_iff in Erep as [E%negb_false_iff|E].
    + apply bool_decide_eq_true in E. by left.
    + apply bool_decide_eq_false, eq_None_not_Some in E. by right.
Qed.

Lemma lateCall_ok n H k nv net s :
  sys_ok n H s → view_ok nv → sys_ok (n + 1) H (lateCall resolve k nv net s).
Proof.
  intros Hs [Hnd Hviews]. unfold lateCall. destruct (sy_running s !! k) as [[self c]|] eqn:Ek; [|apply (sys_mono n); [lia|done]].
  cbv zeta. destruct Hs as [Hh Hw Hd Hwr Hws Hl Hr Ha].
  assert (call_ok H c) as [Hab Hadr] by (apply (Hr (self, c)); by eapply list_elem_of_lookup_2).
  apply onNode_ok.
  - split; try done. cbn [sy_running]. intros p [Hp|Hp]%elem_of_app; apply Hr; [by eapply subseteq_take|by eapply subseteq_drop].
  - intros r Hrepl. by apply (straggle_sound H Hh _ nv self policy None eq_refl Hnd Hviews).
Qed.

Lemma syncAt_ok n H self nv lost useDigest batch nss s :
  sys_ok n H s → 0 < batch → Forall ns_ok nss →
  sys_ok (n + 1) H (syncAt sha256 resolve (MemberID self) self nv lost useDigest batch nss s).
Proof.
  intros Hs Hb Hns. pose proof Hs as [Hh Hw Hd Hwr Hws Hl Hr Ha]. set (i := MemberID self). unfold syncAt.
  destruct (sy_local s !! i) as [lo|] eqn:Ei; [|apply (sys_mono n); [lia|done]].
  destruct (wo_nodes (sy_world s) !! i) as [rv|] eqn:Erv; [|apply (sys_mono n); [lia|done]].
  set (peers := alivePeerAddrs _ _). set (dig := if useDigest then _ else _).
  destruct (Hw _ _ Erv) as [Hid Hst Hidem].
  pose proof (IntraReconcile_ok H Hh (fetchAt resolve lost (sy_world s)) dig
    (λ addr ns key r, fetchAt_ok H (sy_world s) lost addr ns key r Hw) batch nss peers (mkAE (rv_store rv) (lo_syncCursor lo)) Hb Hns Hst)
    as (Hst' & Hmono & Hwriter).
  destruct (IntraReconcileOnce _ _ _ _ _ _ _) as [u a]. cbn [snd ae_store] in *. set (rv' := with_store (ae_store a) rv).
  assert (node_ok H i rv') as Hn.
  { split; [done..|]. intros mid v Hm Hsep. destruct (Hidem mid v Hm Hsep) as (r & Hrin & ? & Hb'). exists r. split_and!; [done..|].
    apply Hmono; [by apply (hi_storable H)|done]. }
  assert (evolves (sy_world s) (setNode i rv' (sy_world s))) as He by (by apply (evolves_setNode _ i rv)).
  rewrite <-(app_nil_r (sy_running s)), <-(app_nil_r (sy_acks s)).
  assert (after (n + 1) H H (sy_world s) (setNode i rv' (sy_world s))) as Haf by (apply (after_evolves n); [lia|done..]).
  apply (sys_after n (n + 1) H H); [done|by eexists|done|by apply world_ok_setNode| |intros p Hp; by apply not_elem_of_nil in Hp..].
  destruct (local_after _ _ _ _ _ _ _ Haf Hh (Hl _ _ Ei)). by split.
Qed.

Lemma step_ok n H s e :
  0 ≤ n < 2 ^ 60 → sys_ok n H s → event_ok e → ∃ H', sys_ok (n + 1) H' (step sha256 resolve policy everywhere s e).
Proof.
  intros Hn Hs He. destruct e; cbn [step] in *; cbn [event_ok] in He.
  - by apply (writeAt_ok n H).
  - exists H. by apply lateCall_ok.
  - exists H. apply onNode_ok; [done|]. intros r Hr. destruct He.
    by apply (FanoutRun_sound H (so_hist _ _ _ Hs) _ nv self policy everywhere eq_refl).
  - exists H. apply onNode_ok; [done|]. intros r Hr. destruct He.
    by apply (ProcessOne_sound H (so_hist _ _ _ Hs) _ nv self policy everywhere eq_refl).
  - exists H. apply onNode_ok; [done|]. intros r Hr. destruct He as [[? ?] ?].
    by apply (BackfillOnce_sound H (so_hist _ _ _ Hs) _ nv self policy everywhere eq_refl).
  - exists H. apply onNode_ok; [done|]. intros r Hr. destruct He.
    by apply (OnMemberDead_sound H (so_hist _ _ _ Hs) _ nv self policy everywhere eq_refl).
  - exists H. destruct He. by apply syncAt_ok.
Qed.

Lemma run_ok n H s es :
  0 ≤ n → n + Z.of_nat (length es) ≤ 2 ^ 60 → sys_ok n H s → Forall event_ok es →
  ∃ H' n', sys_ok n' H' (run sha256 resolve policy everywhere s es).
Proof.
  revert n H s. induction es as [|e es IH]; intros n H s Hn Hlen Hs Hes; [by exists H, n|]. apply Forall_cons in Hes as [He Hes].
  cbn [length] in Hlen. destruct (step_ok n H s e) as (H' & Hs'); [lia|done..|]. unfold run. cbn [fold_left]. apply (IH (n + 1) H'); [lia..|done|done].
Qed.

Lemma fresh_ok store nodes :
  empty_store store → Forall (λ id, idSep ∉ id ∧ id_ok id) nodes → sys_ok 0 [] (freshSys clusterID store nodes).
Proof.
  intros [Hl Hv] Hids. rewrite Forall_forall in Hids.
  assert (∀ {A} (f : bytes → A) i x, list_to_map (M := gmap bytes A) ((λ id, (id, f id)) <$> nodes) !! i = Some x → i ∈ nodes ∧ x = f i) as Hlook.
  { intros A f i x Hi%elem_of_list_to_map_2. apply list_elem_of_fmap in Hi as (id & [= -> ->] & ?). done. }
  split; cbn [freshSys sy_world sy_local sy_running sy_acks wo_nodes]; try (intros ? Hin; by apply not_elem_of_nil in Hin).
  - split; [intros r Hin|intros r1 r2 Hin]; by apply not_elem_of_nil in Hin.
  - intros i rv [Hin ->]%Hlook. split; cbn [freshNode NewReceiver rv_memberID rv_store rv_idem default]; [done| |].
    + exists ∅. split; [by apply rs_inv_new|]. intros k w. by rewrite lookup_empty.
    + intros mid v. cbn. by rewrite lookup_empty.
  - intros i. assert (∀ {A} (f : bytes → A), is_Some (list_to_map (M := gmap bytes A) ((λ id, (id, f id)) <$> nodes) !! i) ↔ i ∈ nodes) as Hdom.
    { intros A f. split; [intros [x [? _]%Hlook]; done|]. intros Hin. destruct (_ !! i) as [x|] eqn:E; [by eexists|]. exfalso.
      apply not_elem_of_list_to_map in E. apply E. apply list_elem_of_fmap. exists (i, f i). split; [done|]. apply list_elem_of_fmap. by exists i. }
    by rewrite !Hdom.
  - intros i rv [Hin ->]%Hlook. split; cbn; [done..|by apply Hids|lia|]. split; [|lia]. unfold ts_wf, maxLogical. cbn. lia.
  - intros i lo [Hin ->]%Hlook. split; cbn; try (intros ? Hx; by apply not_elem_of_nil in Hx). intros id mm m v Hid. cbn in Hid. by rewrite lookup_empty in Hid.
Qed.

End Step.

(** ** Properties *)

(** Member [j] answers for the key with version [v] or a newer one. *)
Definition answers (w : World) (j ns key : bytes) (v : Version) : Prop :=
  ∃ rv x, wo_nodes w !! j = Some rv ∧ GetRecord ns key (rv_store rv) = Ok (Some x) ∧ 0 ≤ Version_Compare (recVersion x) v.

Lemma held_answers H w j ns key r v : about H ns key r → recVersion r = v → held w j r → answers w j ns key v.
Proof.
  intros [_ Hk] <- (rv & Hj & x & Hg & Hb). injection Hk as <- <-. exists rv, x. split_and!; [done..|].
  apply Z.leb_le. rewrite Compare_ge_beats. by rewrite bool_decide_eq_false_2.
Qed.

(** C2: Acknowledged writes are durable. A cluster of empty nodes runs client writes with and
    without explicit candidates, calls that complete after their write returned, fills,
    repairs, sweeps, deaths of members and anti-entropy passes, in any interleaving, over a
    network that loses requests and answers. Every write that was carried out and returned
    success is then held, in the version it returned or a newer one, by the node that
    coordinated it and by at least as many other nodes as it reported. *)
Theorem acked_write_durable (policy : Policy) (everywhere : option (bytes → bool)) (store : L) (nodes : list bytes)
    (es : list event) (a : Ack) :
  empty_store store → Forall (λ id, idSep ∉ id ∧ id_ok id) nodes → Forall event_ok es → Z.of_nat (length es) ≤ 2 ^ 60 →
  a ∈ sy_acks (run sha256 resolve policy everywhere (freshSys clusterID store nodes) es) →
  ∃ S : gset bytes, ak_origin a ∉ S ∧ ak_acked a ≤ Z.of_nat (size S) ∧
    ∀ j, j = ak_origin a ∨ j ∈ S →
      answers (sy_world (run sha256 resolve policy everywhere (freshSys clusterID store nodes) es)) j (ak_ns a) (ak_key a) (ak_version a).
Proof.
  intros Hst Hids Hes Hlen Ha.
  destruct (run_ok policy everywhere 0 [] _ es ltac:(lia) ltac:(lia) (fresh_ok policy everywhere store nodes Hst Hids) Hes) as (H & n & Hs).
  destruct (so_acks _ _ _ Hs a Ha) as (r & S & Hab & Hv & Hi & Hk & Hheld & HS). exists S. split_and!; [done..|].
  intros j [->|Hj]; eapply held_answers; eauto.
Qed.

(** C23: Holder directories are true. After any such run, a member a node lists as a durable
    holder of a key at a version answers for the key with that version or a newer one. *)
Theorem holder_directory_true (policy : Policy) (everywhere : option (bytes → bool)) (store : L) (nodes : list bytes)
    (es : list event) (i : bytes) (lo : Local) (ns key member : bytes) (v : Version) :
  empty_store store → Forall (λ id, idSep ∉ id ∧ id_ok id) nodes → Forall event_ok es → Z.of_nat (length es) ≤ 2 ^ 60 →
  sy_local (run sha256 resolve policy everywhere (freshSys clusterID store nodes) es) !! i = Some lo → ns_ok ns →
  holdersAt (lo_holders lo) (keyID ns key) !! member = Some v →
  answers (sy_world (run sha256 resolve policy everywhere (freshSys clusterID store nodes) es)) member ns key v.
Proof.
  intros Hst Hids Hes Hlen Hlo [_ Hn] Hm.
  destruct (run_ok policy everywhere 0 [] _ es ltac:(lia) ltac:(lia) (fresh_ok policy everywhere store nodes Hst Hids) Hes) as (H & n & Hs).
  unfold holdersAt in Hm. destruct (hd_holders (lo_holders lo) !! keyID ns key) as [mm|] eqn:Emm; [|cbn in Hm; by rewrite lookup_empty in Hm].
  destruct (lk_holders _ _ _ _ (so_local _ _ _ Hs i lo Hlo) _ _ _ _ Emm Hm) as (r & Hr & Hk & Hv & Hheld).
  apply (held_answers H _ _ _ _ r); [split; [done|]|done..].
  apply cacheKey_inj in Hk as [E1 E2]; [unfold keyOf; congruence| |done]. by apply (hi_storable H (so_hist _ _ _ Hs) r Hr).
Qed.

End Safety.

(** ** Examples *)

Definition someID (addr : bytes) : option bytes := Some addr.

Definition sampleNode (id : bytes) : Member := mkMember (lit "c") id id id [] [] [] id id [].
Definition sampleView (alive : list bytes) : NodeView :=
  mkNodeView ((λ id, mkView (sampleNode id) StateAlive 1 0) <$> alive) (LatencyGraph.New LatencyGraph.DefaultConfig) (λ _, true) 0.
Definition nodeA : bytes := lit "a".
Definition nodeB : bytes := lit "b".
Definition nodeC : bytes := lit "d".
Definition samplePolicy : Policy := mkPolicy 1 1 true PreferLocalGeo true [].
Definition putReq (key : bytes) : Request := mkRequest (lit "ns") key (lit "v") false None [] None.
Definition sampleEnv (t : Z) : WriteEnv := mkWriteEnv t t false [].
Definition abc : list bytes := [nodeA; nodeB; nodeC].

(** The first call of a write is lost, its fallback is acknowledged; then a fill, a write at
    another node, and an anti-entropy pass. *)
Definition sampleEvents : list event :=
  [EvWrite (sampleNode nodeA) (sampleView abc) (sampleEnv 1000) (putReq (lit "k")) [RequestLost; Delivered];
   EvFill (sampleNode nodeA) (sampleView abc) [ReplyLost];
   EvWrite (sampleNode nodeB) (sampleView abc) (sampleEnv 2000) (putReq (lit "k")) [];
   EvSync (sampleNode nodeC) (sampleView abc) (λ _, false) true 256 [lit "ns"]].

Definition sampleSys : Sys := freshSys (lit "c") NewMemStore abc.
Definition noHash (b : bytes) : bytes := b.
Definition sampleRun (es : list event) : Sys := run noHash someID samplePolicy None sampleSys es.

Definition sampleAck : Ack := mkAck nodeA (lit "ns") (lit "k") (mkVersion 1000 0 (lit "c") nodeA 1) 1.

Lemma sample_marshals r : record_ok r → marshals r.
Proof. intros _. split_and!; [by eexists|by eexists|]. intros k. by eexists. Qed.

Lemma sample_cluster : idSep ∉ lit "c" ∧ id_ok (lit "c").
Proof. split; [apply (bool_decide_unpack _); vm_compute; exact I|]. vm_compute. done. Qed.

Lemma sample_ids : Forall (λ id, idSep ∉ id ∧ id_ok id) abc.
Proof. repeat constructor; try (apply (bool_decide_unpack _); vm_compute; exact I); vm_compute; congruence. Qed.

Lemma sample_view : view_ok someID (sampleView abc).
Proof.
  split; [apply (bool_decide_unpack _); vm_compute; exact I|]. intros v Hv id [= <-].
  cbn in Hv. rewrite !elem_of_cons in Hv. destruct Hv as [->|[->|[->|Hv]]]; [done..|]. by apply not_elem_of_nil in Hv.
Qed.

Lemma sample_ns : ns_ok (lit "ns").
Proof. split; [vm_compute; done|]. apply (bool_decide_unpack _). vm_compute. exact I. Qed.

Lemma sample_put self t net :
  0 ≤ t ≤ 2 ^ 62 → event_ok someID (EvWrite self (sampleView abc) (sampleEnv t) (putReq (lit "k")) net).
Proof.
  intros Ht. split_and!; [apply sample_view|exact Ht|exact Ht|apply sample_ns|vm_compute; done|apply not_elem_of_nil|]. intros cands [=].
Qed.

Lemma sample_events : Forall (event_ok someID) sampleEvents.
Proof.
  unfold sampleEvents. apply Forall_cons; split; [apply sample_put; lia|]. apply Forall_cons; split; [apply sample_view|].
  apply Forall_cons; split; [apply sample_put; lia|]. apply Forall_cons; split; [|apply Forall_nil_2].
  split; [lia|]. apply Forall_cons; split; [apply sample_ns|apply Forall_nil_2].
Qed.

Lemma sample_acked : sy_acks (sampleRun sampleEvents) !! O = Some sampleAck.
Proof. vm_compute. reflexivity. Qed.

Lemma acked_write_durable_witness :
  ∃ S : gset bytes, ak_origin sampleAck ∉ S ∧ ak_acked sampleAck ≤ Z.of_nat (size S) ∧
    ∀ j, j = ak_origin sampleAck ∨ j ∈ S →
      answers (sy_world (sampleRun sampleEvents)) j (ak_ns sampleAck) (ak_key sampleAck) (ak_version sampleAck).
Proof.
  apply (acked_write_durable (lit "c") noHash someID sample_cluster sample_marshals samplePolicy None NewMemStore abc sampleEvents sampleAck).
  - apply empty_mem.
  - apply sample_ids.
  - apply sample_events.
  - cbn. lia.
  - eapply list_elem_of_lookup_2. apply sample_acked.
Defined.

Definition sampleHolders (i : bytes) : Local := default (freshLocal i) (sy_local (sampleRun sampleEvents) !! i).

Lemma holder_directory_true_witness :
  answers (sy_world (sampleRun sampleEvents)) nodeC (lit "ns") (lit "k") (mkVersion 1000 0 (lit "c") nodeA 1).
Proof.
  apply (holder_directory_true (lit "c") noHash someID sample_cluster sample_marshals samplePolicy None NewMemStore abc sampleEvents
    nodeA (sampleHolders nodeA) (lit "ns") (lit "k") nodeC).
  - apply empty_mem.
  - apply sample_ids.
  - apply sample_events.
  - cbn. lia.
  - vm_compute. reflexivity.
  - apply sample_ns.
  - vm_compute. reflexivity.
Defined.

(** ** Deviations *)

(** A node that restarts: its store is kept, its sequence starts again (main.go). *)
Definition restart (i : bytes) (s : Sys (L := MemStore)) : Sys :=
  match wo_nodes (sy_world s) !! i with
  | None => s
  | Some rv =>
      let st := NewStore (rs_local (rv_store rv)) (lit "c") i (NewClock 500) 0 in
      mkSys (setNode i (NewReceiver st i None) (sy_world s)) (<[i := freshLocal i]> (sy_local s)) [] (sy_acks s)
  end.

Definition getAt (i : bytes) (ns key : bytes) (s : Sys (L := MemStore)) : option (option StoredRecord) :=
  match storeAt i (sy_world s) with
  | Some st => match GetRecord ns key st with Ok r => Some r | Err _ => None end
  | None => None
  end.

Definition ab : list bytes := [nodeA; nodeB].

(** A write acknowledged after a restart of its coordinator is not durable at the replica
    that acknowledged it: the sequence starts again, the mutation id repeats, and the
    replica answers from its dedupe cache without storing the record. *)
Theorem restart_ack_not_durable :
  let put key t := EvWrite (sampleNode nodeA) (sampleView ab) (sampleEnv t) (putReq key) [] in
  let step1 := run noHash someID samplePolicy None (freshSys (lit "c") NewMemStore ab) [put (lit "k") 1000] in
  let step2 := run noHash someID samplePolicy None (restart nodeA step1) [put (lit "k2") 5000] in
  (ak_key <$> sy_acks step2) = [lit "k"; lit "k2"] ∧ (ak_acked <$> sy_acks step2) = [1; 1] ∧
  getAt nodeB (lit "ns") (lit "k2") step2 = Some None.
Proof. vm_compute. done. Qed.

(** A member missed by the fill of a namespace replicated everywhere is not repaired once the
    nearby target is met: the repair queue takes the key only below the nearby target. *)
Theorem everywhere_gap_dropped :
  let all _ := true in
  let abcd := abc ++ [lit "e"] in
  let es := [EvWrite (sampleNode nodeA) (sampleView abcd) (sampleEnv 1000) (putReq (lit "k")) [];
             EvFill (sampleNode nodeA) (sampleView abcd) [Delivered; RequestLost]] in
  let s := run noHash someID samplePolicy (Some all) (freshSys (lit "c") NewMemStore abcd) es in
  (lo_queue <$> sy_local s !! nodeA) = Some [] ∧ (lo_jobs <$> sy_local s !! nodeA) = Some [] ∧
  getAt (lit "e") (lit "ns") (lit "k") s = Some None.
Proof. vm_compute. done. Qed.

End KvSafety.
