(* ===== verification/KvSync.v ===== *)
(** * Anti-entropy converges inside a cluster

    Sweeps of the intra-cluster anti-entropy leave every node that holds a key with the
    newest record any node held. *)

From S2P Require Import Prelude Bytes Hlc Version Conflict Storage Command Records RecordSamples RecordStore RecordRefine.
From S2P Require Import Float64 LatencyGraph Membership Placement LocalRepl RepairHeap Cache Kv KvSystem KvSafety.

Local Open Scope Z_scope.

#[local] Set Default Proof Using "All".

Module KvSync.
Import Hlc Version Conflict Storage Command Records RecordSamples RecordStore RecordRefine Membership Placement LocalRepl Kv KvSystem KvSafety.

(** ** Digests *)

Definition keyVersion (r : StoredRecord) : bytes * Version := (sr_LogicalKey r, recVersion r).

(** The digest tells apart any two ranges of records with different keys or versions. *)
Definition faithful (sha256 : bytes → bytes) (H : list StoredRecord) : Prop :=
  ∀ l1 l2, l1 ⊆ H → l2 ⊆ H → DigestRecords sha256 l1 = DigestRecords sha256 l2 → keyVersion <$> l1 = keyVersion <$> l2.

(** Writer ids of one length each make the hashed text unambiguous. *)
Lemma digestInput_inj a b (r1 r2 : StoredRecord) (t1 t2 : bytes) :
  (∀ r, r = r1 ∨ r = r2 → record_ok r ∧ length (WriterClusterID (recVersion r)) = a ∧ length (WriterMemberID (recVersion r)) = b) →
  digestInput r1 ++ t1 = digestInput r2 ++ t2 → keyVersion r1 = keyVersion r2 ∧ t1 = t2.
Proof.
  intros Hok E. destruct (Hok r1 (or_introl eq_refl)) as ((_ & Hk1 & Hp1 & Hl1 & _ & _ & Hs1) & Hc1 & Hm1).
  destruct (Hok r2 (or_intror eq_refl)) as ((_ & Hk2 & Hp2 & Hl2 & _ & _ & Hs2) & Hc2 & Hm2).
  unfold digestInput in E. rewrite <-!app_assoc in E. unfold id_ok in *.
  apply app_inj_1 in E as [E1 E]; [|by rewrite !length_put_u64]. apply put_u64_inj in E1; [|unfold in_u64, lenZ in *; zlia..].
  unfold lenZ in E1. apply Nat2Z.inj in E1. apply app_inj_1 in E as [Ek E]; [|done].
  apply app_inj_1 in E as [Ep E]; [|by rewrite !length_put_u64]. apply app_inj_1 in E as [El E]; [|by rewrite !length_put_u32].
  apply app_inj_1 in E as [Es E]; [|by rewrite !length_put_u64]. apply app_inj_1 in E as [Ec E]; [|by rewrite Hc1, Hc2].
  apply app_inj_1 in E as [Em E]; [|by rewrite Hm1, Hm2]. apply put_u64_inj in Ep, Es; [|done..]. apply put_u32_inj in El; [|done..].
  split; [|done]. unfold keyVersion. f_equal; [done|]. destruct (recVersion r1), (recVersion r2). simpl in *. congruence.
Qed.

Lemma digest_faithful (sha256 : bytes → bytes) (H : list StoredRecord) a b :
  (∀ x y, sha256 x = sha256 y → x = y) →
  (∀ r, r ∈ H → record_ok r ∧ length (WriterClusterID (recVersion r)) = a ∧ length (WriterMemberID (recVersion r)) = b) →
  faithful sha256 H.
Proof.
  intros Hinj Hok l1 l2 H1 H2 E%Hinj. revert l2 H2 E. induction l1 as [|r1 l1 IH]; intros [|r2 l2] H2 E; [done| | |].
  - cbn in E. symmetry in E. apply (f_equal length) in E. unfold digestInput in E. rewrite !length_app, length_put_u64 in E. simpl in E. lia.
  - cbn in E. apply (f_equal length) in E. unfold digestInput in E. rewrite !length_app, length_put_u64 in E. simpl in E. lia.
  - cbn in E. apply (digestInput_inj a b) in E as [E1 E2]; [|intros r [->| ->]; apply Hok; [apply H1|apply H2]; by left].
    cbn. rewrite E1. f_equal. apply IH; [intros x Hx; apply H1; by right|intros x Hx; apply H2; by right|done].
Qed.

(** ** The pages of a sweep *)

Lemma keysIn_dom (A A' : winners) ns start : (∀ k, is_Some (A' !! k) ↔ is_Some (A !! k)) → keysIn A' ns start None = keysIn A ns start None.
Proof.
  intros Hd. apply (StronglySorted_unique bytes_le); [apply keysIn_sorted..|].
  apply NoDup_Permutation; [apply keysIn_NoDup..|]. intros k. by rewrite !elem_of_keysIn, Hd.
Qed.

Definition pageAt (batch : Z) (A : winners) (ns : bytes) (start : option bytes) : list bytes :=
  take (Z.to_nat batch) (keysIn A ns start None).

Definition nextCursor (batch : Z) (A : winners) (ns : bytes) (start : option bytes) : option bytes :=
  let keys := keysIn A ns start None in
  if batch <=? Z.of_nat (length keys)
  then list.last (pageAt batch A ns start) ≫= λ k, match k with [] => None | _ => Some (k ++ [x00]) end else None.

Lemma pageAt_dom (A A' : winners) batch ns start : (∀ k, is_Some (A' !! k) ↔ is_Some (A !! k)) → pageAt batch A' ns start = pageAt batch A ns start.
Proof. intros Hd. unfold pageAt. by rewrite (keysIn_dom A A'). Qed.

Lemma nextCursor_dom (A A' : winners) batch ns start :
  (∀ k, is_Some (A' !! k) ↔ is_Some (A !! k)) → nextCursor batch A' ns start = nextCursor batch A ns start.
Proof. intros Hd. unfold nextCursor. by rewrite (pageAt_dom A A'), (keysIn_dom A A'). Qed.

(** A page of two keys or more ends at a non-empty key, so a full page always has a successor. *)
Lemma nextCursor_cases batch A ns start :
  1 < batch →
  nextCursor batch A ns start = None ∧ pageAt batch A ns start = keysIn A ns start None ∨
  ∃ c, nextCursor batch A ns start = Some c ∧ keysIn A ns (Some c) None = drop (Z.to_nat batch) (keysIn A ns start None) ∧
    batch ≤ Z.of_nat (length (keysIn A ns start None)).
Proof.
  intros Hb. unfold nextCursor, pageAt. set (keys := keysIn A ns start None). case_match eqn:Ec; [|left; split; [done|apply take_ge; lia]].
  right. destruct (list.last (take (Z.to_nat batch) keys)) as [k|] eqn:El.
  - assert (k ≠ []) as Hk.
    { intros ->. apply last_Some in El as [l' Hl']. pose proof (f_equal length Hl') as Hlen. rewrite length_take, length_app in Hlen. cbn in Hlen.
      destruct l' as [|k0 l']; [cbn in Hlen; lia|].
      pose proof (StronglySorted_strict keys (keysIn_sorted _ _ _ _) (keysIn_NoDup _ _ _ _)) as Hs.
      rewrite <-(take_drop (Z.to_nat batch) keys), Hl' in Hs. apply StronglySorted_app in Hs as (_ & Hs & _). cbn in Hs.
      apply StronglySorted_inv in Hs as [_ Hs]. rewrite Forall_forall in Hs. specialize (Hs [] ltac:(apply elem_of_app; right; by left)).
      by destruct k0. }
    cbn. destruct k as [|b k]; [done|]. exists ((b :: k) ++ [x00]). split_and!; [done| |lia]. by apply keysIn_resume.
  - apply last_None in El. apply (f_equal length) in El. rewrite length_take in El. cbn in El. lia.
Qed.

Definition cursorN (batch : Z) (A : winners) (ns : bytes) (j : nat) (c : option bytes) : option bytes := Nat.iter j (nextCursor batch A ns) c.

Lemma cursorN_S batch A ns j c : cursorN batch A ns (S j) c = cursorN batch A ns j (nextCursor batch A ns c).
Proof. unfold cursorN. by rewrite Nat.iter_succ_r. Qed.

Lemma cursorN_next batch A ns j c : cursorN batch A ns (S j) c = nextCursor batch A ns (cursorN batch A ns j c).
Proof. done. Qed.

(** From a cursor, the pages reach every key from there on, and then the start. *)
Lemma sweep_end batch A ns (n : nat) c :
  1 < batch → (length (keysIn A ns c None) ≤ n)%nat →
  (∃ j, (j ≤ n + 1)%nat ∧ cursorN batch A ns j c = None) ∧
  ∀ k, k ∈ keysIn A ns c None → ∃ j, (j ≤ n)%nat ∧ k ∈ pageAt batch A ns (cursorN batch A ns j c).
Proof.
  intros Hb. revert c. induction n as [n IH] using lt_wf_ind. intros c Hn.
  destruct (nextCursor_cases batch A ns c Hb) as [[En Ep]|(c' & En & Ek & Hl)].
  { split; [exists 1%nat; split; [lia|done]|]. intros k Hk. exists O. split; [lia|]. unfold cursorN. cbn. by rewrite Ep. }
  destruct (IH (n - 1)%nat ltac:(lia) (Some c')) as [(j & Hj & E) Hall]; [rewrite Ek, length_drop; lia|]. split.
  - exists (S j). rewrite cursorN_S, En. split; [lia|done].
  - intros k Hk. rewrite <-(take_drop (Z.to_nat batch)) in Hk. apply elem_of_app in Hk as [Hk|Hk]; [by exists O; split; [lia|]|].
    rewrite <-Ek in Hk. destruct (Hall k Hk) as (j' & Hj' & Hp). exists (S j'). rewrite cursorN_S, En. split; [lia|done].
Qed.

Lemma keysIn_from A ns c : (length (keysIn A ns c None) ≤ length (keysIn A ns None None))%nat.
Proof.
  apply submseteq_length, NoDup_submseteq; [apply keysIn_NoDup|]. intros k [Hk _]%elem_of_keysIn. apply elem_of_keysIn. split; [done|]. by split.
Qed.

(** Twice the number of pages reads every key, from any cursor. *)
Lemma sweep_covers batch A ns c k :
  1 < batch → is_Some (A !! (ns, k)) →
  ∃ j, (j < 2 * (length (keysIn A ns None None) + 1))%nat ∧ k ∈ pageAt batch A ns (cursorN batch A ns j c).
Proof.
  intros Hb Hk. set (n := length (keysIn A ns None None)). destruct (sweep_end batch A ns n c Hb (keysIn_from A ns c)) as [(j & Hj & Ej) _].
  destruct (sweep_end batch A ns n None Hb ltac:(done)) as [_ Hall]. destruct (Hall k) as (j' & Hj' & Hp); [apply elem_of_keysIn; split; [done|by split]|].
  exists (j' + j)%nat. split; [lia|]. unfold cursorN in *. by rewrite Nat.iter_add, Ej.
Qed.

(** ** Which peers are read *)

Lemma recordsIn_elem (A : winners) ns start stop r : r ∈ recordsIn A ns start stop ↔ ∃ k, A !! (ns, k) = Some r ∧ in_bounds start stop k.
Proof.
  unfold recordsIn. rewrite list_elem_of_omap. split.
  - intros (k & [_ Hb]%elem_of_keysIn & E). eauto.
  - intros (k & E & Hb). exists k. split; [|done]. apply elem_of_keysIn. split; [by eexists|done].
Qed.

Lemma length_recordsIn (A : winners) ns start stop : length (recordsIn A ns start stop) = length (keysIn A ns start stop).
Proof.
  unfold recordsIn. assert (Forall (λ k, is_Some (A !! (ns, k))) (keysIn A ns start stop)) as Hk
    by (apply Forall_forall; by intros k [Hk _]%elem_of_keysIn).
  induction Hk as [|k l [r Hr] _ IH]; [done|]. cbn. rewrite Hr. cbn. by f_equal.
Qed.

Lemma fetchPeers_sub sha256 digest peers ns start next recs : fetchPeers sha256 digest peers ns start next recs ⊆ peers.
Proof. unfold fetchPeers. repeat case_match; try done. intros x [_ Hx]%list_elem_of_filter. done. Qed.

Lemma fetchPeers_skip sha256 digest peers ns start next recs addr :
  addr ∈ peers → addr ∉ fetchPeers sha256 digest peers ns start next recs →
  ∃ d, digest = Some d ∧ d addr ns start next = Some (DigestRecords sha256 recs).
Proof.
  intros Ha Hna. unfold fetchPeers in Hna. destruct digest as [d|]; [|done]. destruct recs as [|r0 recs0]; [done|].
  exists d. split; [done|]. rewrite list_elem_of_filter in Hna.
  destruct (decide (d addr ns start next = Some (DigestRecords sha256 (r0 :: recs0)))) as [|Hne]; [done|]. exfalso. by apply Hna.
Qed.

Lemma IntraReconcileOnce_peers {L : Type} {LS : LocalStore L} {PB : Proto} sha256 fetch digest batch nss peers (a : IntraAntiEntropy (L := L)) :
  peers ≠ [] → IntraReconcileOnce sha256 fetch digest batch nss peers a = fold_left (reconcileNS sha256 fetch digest batch peers) nss (0, a).
Proof. by destruct peers. Qed.

(** ** One pass *)

Definition cursorOf {L : Type} (a : IntraAntiEntropy (L := L)) (ns : bytes) : option bytes := default None (ae_cursor a !! ns).

(** The node holds records of the history. *)
Definition holding {L : Type} {LS : LocalStore L} {LSS : LocalStoreSpec L} {PB : Proto} {PBS : ProtoSpec}
    (H : list StoredRecord) (st : Store L) (A : winners) : Prop :=
  rs_inv st A ∧ ∀ k w, A !! k = Some w → w ∈ H.

Lemma holding_key {L : Type} {LS : LocalStore L} {LSS : LocalStoreSpec L} {PB : Proto} {PBS : ProtoSpec} H (st : Store L) A k w :
  holding H st A → A !! k = Some w → w ∈ H ∧ keyOf w = k.
Proof. intros [Hi HA] Hk. split; [by eapply HA|]. by apply (inv_key st A). Qed.

Section Pass.
Context {L : Type} {LS : LocalStore L} {LSS : LocalStoreSpec L} {PB : Proto} {PBS : ProtoSpec}.
Context (sha256 : bytes → bytes) (H : list StoredRecord) (Hh : hist H).
Context (fetch : bytes → bytes → bytes → option StoredRecord).
Context (digest : option (bytes → bytes → option bytes → option bytes → option bytes)).
(** What the peers hold, which does not change during the sweep. *)
Context (peers : list bytes) (peer : bytes → winners).
Context (Hpeer : ∀ addr k x, addr ∈ peers → peer addr !! k = Some x → x ∈ H ∧ keyOf x = k).
Context (Hfetch : ∀ addr ns key, ns_ok ns → addr ∈ peers → fetch addr ns key = peer addr !! (ns, key)).
Context (Hdigest : ∀ d addr ns start stop h, ns_ok ns → digest = Some d → addr ∈ peers → d addr ns start stop = Some h →
  faithful sha256 H ∧ h = DigestRecords sha256 (recordsIn (peer addr) ns start stop)).

(** No peer among [ps] has a newer record for the key of [r]. *)
Definition newest (ps : list bytes) (r : StoredRecord) : Prop :=
  ∀ addr x, addr ∈ ps → peer addr !! keyOf r = Some x → ¬ beats x r.

Section Namespace.
Context (ns : bytes) (Hns : ns_ok ns).

Lemma bestOf_newest ps rec changed best :
  ps ⊆ peers → rec ∈ H → sr_Namespace rec = ns → bestOf fetch ps ns rec = (changed, best) →
  keyOf best = keyOf rec ∧ newest ps best ∧ ¬ beats rec best ∧
  (if changed then beats best rec ∧ ∃ addr, addr ∈ ps ∧ peer addr !! keyOf rec = Some best else best = rec).
Proof.
  intros Hps Hr Hn. unfold bestOf.
  (* processed peers first *)
  assert (∀ todo done changed0 best0 changed best, done ++ todo ⊆ ps →
    keyOf best0 = keyOf rec → newest done best0 → ¬ beats rec best0 →
    (if changed0 : bool then beats best0 rec ∧ ∃ addr, addr ∈ ps ∧ peer addr !! keyOf rec = Some best0 else best0 = rec) →
    fold_left (λ acc addr, let '(_, best) := acc in
      match fetch addr ns (sr_LogicalKey rec) with
      | Some pr => if 0 <? Version_Compare (recVersion pr) (recVersion best) then (true, pr) else acc
      | None => acc
      end) todo (changed0, best0) = (changed, best) →
    keyOf best = keyOf rec ∧ newest (done ++ todo) best ∧ ¬ beats rec best ∧
    (if changed then beats best rec ∧ ∃ addr, addr ∈ ps ∧ peer addr !! keyOf rec = Some best else best = rec)) as Hloop.
  { induction todo as [|addr todo IH]; intros dn c0 b0 c b Hin Hk Hnew Hnb Hc; cbn [fold_left].
    { rewrite app_nil_r. intros [= <- <-]. done. }
    assert (addr ∈ ps) as Ha by (apply Hin, elem_of_app; right; by left).
    assert ((dn ++ [addr]) ++ todo ⊆ ps) as Hin' by (by rewrite <-app_assoc).
    rewrite (Hfetch addr) by auto. rewrite <-Hn at 1. change (sr_Namespace rec, sr_LogicalKey rec) with (keyOf rec).
    destruct (peer addr !! keyOf rec) as [pr|] eqn:Ep.
    - destruct (Hpeer addr _ _ (Hps _ Ha) Ep) as [Hpr Hkp]. destruct (0 <? _) eqn:Ec.
      + apply Compare_beats in Ec. intros E. replace (dn ++ addr :: todo) with ((dn ++ [addr]) ++ todo) by (by rewrite <-app_assoc).
        apply (IH (dn ++ [addr]) true pr c b); try done.
        * intros a x [Ha'| ->%list_elem_of_singleton]%elem_of_app Hx.
          -- apply (not_beats_trans _ b0); [apply (Hnew a); [done|by rewrite Hk, <-Hkp]|by apply beats_asym].
          -- rewrite Hkp, Ep in Hx. injection Hx as <-. intros Hb. by apply (beats_asym pr pr).
        * apply (not_beats_trans _ b0); [done|by apply beats_asym].
        * split; [|by exists addr]. destruct c0; [by apply (beats_trans _ b0), Hc|by rewrite <-Hc].
      + intros E. replace (dn ++ addr :: todo) with ((dn ++ [addr]) ++ todo) by (by rewrite <-app_assoc).
        apply (IH (dn ++ [addr]) c0 b0 c b); try done. intros a x [Ha'| ->%list_elem_of_singleton]%elem_of_app Hx; [by apply (Hnew a)|].
        rewrite Hk, Ep in Hx. injection Hx as <-. rewrite <-Compare_beats. by rewrite Ec.
    - intros E. replace (dn ++ addr :: todo) with ((dn ++ [addr]) ++ todo) by (by rewrite <-app_assoc).
      apply (IH (dn ++ [addr]) c0 b0 c b); try done. intros a x [Ha'| ->%list_elem_of_singleton]%elem_of_app Hx; [by apply (Hnew a)|].
      by rewrite Hk, Ep in Hx. }
  intros E. apply (Hloop ps [] false rec); try done; [intros a x Ha; by apply not_elem_of_nil in Ha|].
  intros Hb. by apply (beats_asym rec rec).
Qed.

(** What a pass makes of the record of a key. *)
Definition improved (ps : list bytes) (r b : StoredRecord) : Prop :=
  newest ps b ∧ ¬ beats r b ∧ (b = r ∨ ∃ addr, addr ∈ ps ∧ peer addr !! keyOf r = Some b).

Lemma adopt_improves ps u st A rec :
  ps ⊆ peers → holding H st A → A !! keyOf rec = Some rec → sr_Namespace rec = ns →
  ∃ u' st' b, adopt fetch ps ns (u, st) rec = (u', st') ∧ holding H st' (<[keyOf rec := b]> A) ∧ improved ps rec b ∧ keyOf b = keyOf rec.
Proof.
  intros Hps Hst Hrec Hn. destruct (holding_key _ _ _ _ _ Hst Hrec) as [Hr _]. unfold adopt.
  destruct (bestOf fetch ps ns rec) as [changed best] eqn:Eb.
  destruct (bestOf_newest ps rec changed best Hps Hr Hn Eb) as (Hk & Hnew & Hnb & Hc). destruct changed.
  - destruct Hc as [Hb (addr & Ha & Ep)]. destruct (Hpeer addr _ _ (Hps _ Ha) Ep) as [HbH _]. destruct Hst as [Hi HA].
    assert (agrees A best) as Hag.
    { intros w Hw Ev. apply (hi_unique H Hh); [by eapply HA|done|by rewrite Ev]. }
    destruct (Apply_ok st A best (kindOf best) Hi (hi_storable H Hh _ HbH) Hag) as (w & st' & Ew & -> & Hi' & _).
    rewrite Hk, Hrec, absorb_Some, decide_True in Ew by (done || intros Ev; apply Hag; by rewrite ?Hk). injection Ew as <-.
    exists (u + 1), st', best. split; [done|]. assert (absorbInto A best = <[keyOf rec := best]> A) as EA.
    { rewrite <-Hk. apply absorbInto_insert. rewrite Hk, Hrec, absorb_Some, decide_True by (done || intros Ev; apply Hag; by rewrite ?Hk). done. }
    rewrite EA in Hi'. split; [|split; [|done]].
    + split; [done|]. intros k x. destruct (decide (k = keyOf rec)) as [->|Hne];
        [rewrite lookup_insert_eq; by intros [= <-]|rewrite lookup_insert_ne by done; apply HA].
    + split_and!; [done..|right; by exists addr].
  - subst best. exists u, st, rec. split; [done|]. rewrite insert_id by done. split; [done|]. split; [|done]. split_and!; [done..|by left].
Qed.

Lemma adoptAll_improves ps recs u st A :
  ps ⊆ peers → holding H st A → NoDup (keyOf <$> recs) → (∀ r, r ∈ recs → A !! keyOf r = Some r ∧ sr_Namespace r = ns) →
  ∃ u' st' A', fold_left (adopt fetch ps ns) recs (u, st) = (u', st') ∧ holding H st' A' ∧
    (∀ k, k ∉ keyOf <$> recs → A' !! k = A !! k) ∧ (∀ r, r ∈ recs → ∃ b, A' !! keyOf r = Some b ∧ improved ps r b).
Proof.
  intros Hps. revert u st A. induction recs as [|r recs IH]; intros u st A Hst Hnd Hrecs.
  { exists u, st, A. split_and!; [done..|]. intros r Hr. by apply not_elem_of_nil in Hr. }
  cbn in Hnd. apply NoDup_cons in Hnd as [Hni Hnd]. destruct (Hrecs r ltac:(by left)) as [Hr Hn].
  cbn [fold_left]. destruct (adopt_improves ps u st A r Hps Hst Hr Hn) as (u1 & st1 & b & -> & Hst1 & Himp & Hkb).
  destruct (IH u1 st1 (<[keyOf r := b]> A) Hst1 Hnd) as (u2 & st2 & A2 & E2 & Hst2 & Hsame & Hall).
  { intros x Hx. destruct (Hrecs x ltac:(by right)) as [Ex ?]. split; [|done]. rewrite lookup_insert_ne; [done|].
    intros Ek. apply Hni. rewrite Ek. by apply list_elem_of_fmap_2. }
  exists u2, st2, A2. split_and!; [done..| |].
  - intros k Hk. cbn in Hk. apply not_elem_of_cons in Hk as [Hk1 Hk2]. rewrite Hsame by done. by rewrite lookup_insert_ne.
  - intros x [->|Hx]%elem_of_cons; [|by apply Hall]. exists b. rewrite Hsame by done. by rewrite lookup_insert_eq.
Qed.

(** The peers left out by the digest have nothing newer in the range. *)
Lemma digest_skips start next recs addr r :
  recs ⊆ H → (∀ r, r ∈ recs → sr_Namespace r = ns) → addr ∈ peers → addr ∉ fetchPeers sha256 digest peers ns start next recs → r ∈ recs →
  ∀ x, peer addr !! keyOf r = Some x → recVersion x = recVersion r.
Proof.
  intros HrH Hrn Ha Hna Hr x Hx. destruct (fetchPeers_skip _ _ _ _ _ _ _ _ Ha Hna) as (d & Ed & Eq).
  destruct (Hdigest _ _ _ _ _ _ Hns Ed Ha Eq) as [Hfaithful Eh]. symmetry in Eh. apply Hfaithful in Eh; [| |done].
  2: { intros y (k & Ek & _)%recordsIn_elem. by apply (Hpeer addr (ns, k)). }
  assert (keyVersion r ∈ keyVersion <$> recordsIn (peer addr) ns start next) as Hin by (rewrite Eh; by apply list_elem_of_fmap_2).
  apply list_elem_of_fmap in Hin as (y & Ekv & (k & Ek & _)%recordsIn_elem). destruct (Hpeer addr _ _ Ha Ek) as [_ Hky].
  injection Ekv as E1 E2. injection Hky as Eyn Eyk. assert (keyOf r = (ns, k)) as Ekr.
  { unfold keyOf. rewrite (Hrn r Hr). congruence. }
  rewrite Ekr, Ek in Hx. injection Hx as <-. done.
Qed.

Lemma improved_all start next recs r b :
  recs ⊆ H → (∀ r, r ∈ recs → sr_Namespace r = ns) → r ∈ recs → keyOf b = keyOf r →
  improved (fetchPeers sha256 digest peers ns start next recs) r b → improved peers r b.
Proof.
  intros HrH Hrn Hr Hk (Hnew & Hnb & Hfrom). split_and!; [|done|].
  - intros addr x Ha Hx. destruct (decide (addr ∈ fetchPeers sha256 digest peers ns start next recs)) as [Hin|Hni]; [by apply (Hnew addr)|].
    rewrite Hk in Hx. pose proof (digest_skips start next recs addr r HrH Hrn Ha Hni Hr x Hx) as Ev.
    unfold beats in *. by rewrite Ev.
  - destruct Hfrom as [->|(addr & Ha & E)]; [by left|]. right. exists addr. split; [by eapply fetchPeers_sub|done].
Qed.

(** Records only get replaced by newer ones, of the same keys. *)
Record moved (A A' : winners) : Prop := {
  mv_dom k : is_Some (A' !! k) ↔ is_Some (A !! k);
  mv_from k r : A !! k = Some r → ∃ b, A' !! k = Some b ∧ (b = r ∨ improved peers r b);
}.

(** The pages read, as far as the peers' records go. *)
Record passed (batch : Z) (ns : bytes) (a a' : IntraAntiEntropy (L := L)) (A A' : winners) : Prop := {
  pa_cursor : cursorOf a' ns = nextCursor batch A ns (cursorOf a ns);
  pa_page k b : k ∈ pageAt batch A ns (cursorOf a ns) → A' !! (ns, k) = Some b → newest peers b;
}.

Lemma reconcileNS_spec batch u a A :
  1 < batch → holding H (ae_store a) A →
  ∃ u' a' A', reconcileNS sha256 fetch digest batch peers (u, a) ns = (u', a') ∧ holding H (ae_store a') A' ∧ moved A A' ∧ passed batch ns a a' A A' ∧
    ∀ ns', ns' ≠ ns → cursorOf a' ns' = cursorOf a ns' ∧ ∀ k, A' !! (ns', k) = A !! (ns', k).
Proof.
  intros Hb Hst. unfold reconcileNS. fold (cursorOf a ns). set (start := cursorOf a ns).
  rewrite (ScanRecordsFrom_ok _ A) by (apply Hst || done || lia). cbv zeta. fold (pageAt batch A ns start) (nextCursor batch A ns start).
  set (next := nextCursor batch A ns start). set (page := pageAt batch A ns start).
  set (recs := omap (λ k, A !! (ns, k)) page).
  assert (∀ r, r ∈ recs → ∃ k, k ∈ page ∧ A !! (ns, k) = Some r ∧ r ∈ H ∧ keyOf r = (ns, k)) as Hrecs.
  { intros r (k & Hk & E)%list_elem_of_omap. exists k. split_and!; [done..| |]; by apply (holding_key _ _ _ _ _ Hst E). }
  assert (∀ k, k ∈ page → ∃ r, r ∈ recs ∧ A !! (ns, k) = Some r ∧ keyOf r = (ns, k)) as Hpage.
  { intros k Hk. assert (k ∈ keysIn A ns start None) as [[r Hr] _]%elem_of_keysIn by (by eapply subseteq_take).
    exists r. split_and!; [apply list_elem_of_omap; eauto|done|]. by apply (holding_key _ _ _ _ _ Hst Hr). }
  assert (NoDup (keyOf <$> recs)) as Hnd.
  { subst recs. assert (NoDup page) as Hp by (eapply sublist_NoDup; [apply keysIn_NoDup|apply sublist_take]). revert Hp.
    generalize page as l. induction l as [|k l IH]; [constructor|]. intros [Hni Hp]%NoDup_cons. cbn.
    destruct (A !! (ns, k)) as [r|] eqn:Er; [|by apply IH]. cbn. apply NoDup_cons. split; [|by apply IH].
    destruct (holding_key _ _ _ _ _ Hst Er) as [_ ->]. intros (r' & Ek & (k' & Hk' & Er')%list_elem_of_omap)%list_elem_of_fmap.
    destruct (holding_key _ _ _ _ _ Hst Er') as [_ E']. rewrite E' in Ek. injection Ek as ->. done. }
  set (ps := fetchPeers _ _ _ _ _ _ _).
  destruct (adoptAll_improves ps recs u (ae_store a) A) as (u' & st' & A' & -> & Hst' & Hsame & Hall); [apply fetchPeers_sub|done..| |].
  { intros r (k & _ & E & _ & Ek)%Hrecs. split; [by rewrite Ek|by injection Ek]. }
  assert (∀ r, r ∈ recs → ∃ b, A' !! keyOf r = Some b ∧ improved peers r b) as Himp.
  { intros r Hr. destruct (Hall r Hr) as (b & Eb & Hi). exists b. split; [done|].
    apply (improved_all start next recs); [intros x (? & _ & _ & ? & _)%Hrecs; done| |done| |done].
    - intros x (k & _ & _ & _ & Ek)%Hrecs. by injection Ek.
    - by apply (holding_key _ _ _ _ _ Hst' Eb). }
  exists u', (mkAE st' (<[ns := next]> (ae_cursor a))), A'. split; [done|]. split; [done|]. split; [|split; [split|]].
  - split.
    + intros k. destruct (decide (k ∈ keyOf <$> recs)) as [(r & -> & Hr)%list_elem_of_fmap|Hni]; [|by rewrite Hsame].
      destruct (Himp r Hr) as (b & -> & _). destruct (Hrecs r Hr) as (k' & _ & E & _ & Ek). rewrite Ek, E. split; by eexists.
    + intros k r Ek. destruct (decide (k ∈ keyOf <$> recs)) as [(r' & -> & Hr)%list_elem_of_fmap|Hni].
      * destruct (Himp r' Hr) as (b & Eb & Hi). exists b. split; [done|]. right.
        destruct (Hrecs r' Hr) as (k' & _ & E & _ & Ek'). rewrite Ek', E in Ek. by injection Ek as <-.
      * exists r. rewrite Hsame by done. auto.
  - unfold cursorOf. cbn [ae_cursor]. by rewrite lookup_insert_eq.
  - intros k b (r & Hr & Er & Ek)%Hpage Hb'. destruct (Himp r Hr) as (b' & Eb & Hi). rewrite Ek, Hb' in Eb. injection Eb as <-. apply Hi.
  - intros ns' Hne. unfold cursorOf. cbn [ae_cursor]. rewrite lookup_insert_ne by done. split; [done|]. intros k.
    apply Hsame. intros (r & Ek & (k' & _ & _ & _ & Ek')%Hrecs)%list_elem_of_fmap. rewrite Ek' in Ek. by injection Ek.
Qed.

End Namespace.

Lemma improved_key A st k r b : holding H st A → A !! k = Some r → b = r ∨ improved peers r b → keyOf b = k.
Proof.
  intros Hst Hk Hb. destruct (holding_key _ _ _ _ _ Hst Hk) as [_ Hr].
  destruct Hb as [->|(_ & _ & [->|(addr & Ha & E)])]; [done..|]. rewrite Hr in E. by apply (Hpeer addr _ _ Ha).
Qed.

Lemma moved_trans st A1 A2 A3 : holding H st A1 → moved A1 A2 → moved A2 A3 → moved A1 A3.
Proof.
  intros Hst [D1 F1] [D2 F2]. split; [intros k; by rewrite D2|]. intros k r Hk. destruct (F1 k r Hk) as (b & Hb & H1).
  destruct (F2 k b Hb) as (c & Hc & H2). exists c. split; [done|]. pose proof (improved_key _ _ _ _ _ Hst Hk H1) as Hkb.
  destruct H2 as [->|H2]; [done|]. destruct H1 as [->|H1]; [by right|]. right. destruct H1 as (_ & N1 & F), H2 as (N & N2 & G).
  split_and!; [done|by apply (not_beats_trans _ b)|]. destruct (holding_key _ _ _ _ _ Hst Hk) as [_ Hkr].
  rewrite Hkb, <-Hkr in G. destruct G as [->|G]; [done|by right].
Qed.

(** A page read early in the pass is not touched by the namespaces that follow. *)
Lemma IntraReconcileOnce_spec batch nss a A :
  1 < batch → Forall ns_ok nss → NoDup nss → peers ≠ [] → holding H (ae_store a) A →
  ∃ u' a' A', IntraReconcileOnce sha256 fetch digest batch nss peers a = (u', a') ∧ holding H (ae_store a') A' ∧ moved A A' ∧
    (∀ ns, ns ∈ nss → passed batch ns a a' A A').
Proof.
  intros Hb Hns Hnd Hpe Hst. rewrite IntraReconcileOnce_peers by done. generalize 0 as u. intros u.
  assert (∃ u' a' A', fold_left (reconcileNS sha256 fetch digest batch peers) nss (u, a) = (u', a') ∧ holding H (ae_store a') A' ∧ moved A A' ∧
    (∀ ns, ns ∈ nss → passed batch ns a a' A A') ∧ ∀ ns, ns ∉ nss → cursorOf a' ns = cursorOf a ns ∧ ∀ k, A' !! (ns, k) = A !! (ns, k))
    as (u' & a' & A' & ? & ? & ? & ? & _); [|by exists u', a', A'].
  revert u a A Hst. induction nss as [|ns nss IH]; intros u a A Hst.
  { exists u, a, A. split_and!; [done..| | |done]; [split; [done|eauto]|]. intros ns Hin. by apply not_elem_of_nil in Hin. }
  apply Forall_cons in Hns as [Hn Hns]. apply NoDup_cons in Hnd as [Hni Hnd]. cbn [fold_left].
  destruct (reconcileNS_spec ns Hn batch u a A Hb Hst) as (u1 & a1 & A1 & -> & Hst1 & Hmv1 & [Hc1 Hp1] & Ho1).
  destruct (IH Hns Hnd u1 a1 A1 Hst1) as (u2 & a2 & A2 & -> & Hst2 & Hmv2 & Hp2 & Ho2).
  exists u2, a2, A2. split_and!; [done..|by apply (moved_trans (ae_store a) _ A1)| |].
  - intros x [->|Hx]%elem_of_cons.
    + destruct (Ho2 ns Hni) as [Ec Ek]. split; [by rewrite Ec|]. intros k b Hk. rewrite Ek. by apply Hp1.
    + destruct (Ho1 x) as [Ec Ek]; [by intros ->|]. destruct (Hp2 x Hx) as [Hc Hp]. split.
      * rewrite Hc, Ec. by apply nextCursor_dom, (mv_dom _ _ Hmv1).
      * intros k b. rewrite <-(pageAt_dom A A1), <-Ec by apply Hmv1. apply Hp.
  - intros x [Hne Hx]%not_elem_of_cons. destruct (Ho1 x Hne) as [Ec1 Ek1], (Ho2 x Hx) as [Ec2 Ek2].
    split; [by rewrite Ec2|]. intros k. by rewrite Ek2.
Qed.

End Pass.

(** ** Sweeps of the nodes of a cluster *)

Section Cluster.
Context {L : Type} {LS : LocalStore L} {LSS : LocalStoreSpec L} {PB : Proto} {PBS : ProtoSpec}.
Context (sha256 : bytes → bytes) (resolve : bytes → option bytes) (policy : Policy) (everywhere : option (bytes → bool)).

Definition isNode (s : Sys (L := L)) (i : bytes) : Prop := is_Some (wo_nodes (sy_world s) !! i).

Definition sweeper (e : event) : option bytes := match e with EvSync self _ _ _ _ _ => Some (MemberID self) | _ => None end.

Definition usesDigest (e : event) : bool := match e with EvSync _ _ _ d _ _ => d | _ => false end.

Definition passesOf (i : bytes) (es : list event) : nat := length (filter (λ e, sweeper e = Some i) es).

(** A pass of a node that sees every other node alive, in which no call is lost. *)
Definition sweeping (s : Sys (L := L)) (batch : Z) (nss : list bytes) (e : event) : Prop :=
  match e with
  | EvSync self nv lost _ b l =>
      isNode s (MemberID self) ∧ b = batch ∧ l = nss ∧ (∀ addr, lost addr = false) ∧ alivePeerAddrs self (nv_members nv) ≠ [] ∧
      ∀ j, isNode s j → j ≠ MemberID self → ∃ addr, addr ∈ alivePeerAddrs self (nv_members nv) ∧ resolve addr = Some j
  | _ => False
  end.

Definition syncCursorAt (s : Sys (L := L)) (i ns : bytes) : option bytes :=
  match sy_local s !! i with Some lo => default None (lo_syncCursor lo !! ns) | None => None end.

Context (H : list StoredRecord) (Hh : hist H) (s0 : Sys (L := L)) (A0 : bytes → winners) (batch : Z) (nss : list bytes).
Context (Hbatch : 1 < batch) (Hnss : Forall ns_ok nss) (Hnd : NoDup nss).

(** The state after the sweeps [es]: records only move towards the newest, and the pages
    already read hold the newest record any node had. *)
Record swept (es : list event) (s : Sys (L := L)) (A : bytes → winners) : Prop := {
  sw_hold i rv : wo_nodes (sy_world s) !! i = Some rv → holding H (rv_store rv) (A i);
  sw_node i : isNode s i ↔ isNode s0 i;
  sw_local i : is_Some (sy_local s !! i) ↔ isNode s0 i;
  sw_keys i k : is_Some (A i !! k) ↔ is_Some (A0 i !! k);
  sw_from i k r : isNode s0 i → A i !! k = Some r → ∃ j, isNode s0 j ∧ A0 j !! k = Some r;
  sw_kept i k x : A0 i !! k = Some x → ∃ y, A i !! k = Some y ∧ ¬ beats x y;
  sw_cursor i ns : ns ∈ nss → isNode s0 i → syncCursorAt s i ns = cursorN batch (A0 i) ns (passesOf i es) (syncCursorAt s0 i ns);
  sw_covered i ns (j : nat) k b : ns ∈ nss → isNode s0 i → (j < passesOf i es)%nat →
    k ∈ pageAt batch (A0 i) ns (cursorN batch (A0 i) ns j (syncCursorAt s0 i ns)) → A i !! (ns, k) = Some b →
    ∀ i' x, isNode s0 i' → A0 i' !! (ns, k) = Some x → ¬ beats x b;
}.

(** What a peer holds, seen through its address. *)
Definition peerAt (s : Sys (L := L)) (A : bytes → winners) (addr : bytes) : winners :=
  match resolve addr with Some j => if decide (is_Some (wo_nodes (sy_world s) !! j)) then A j else ∅ | None => ∅ end.

Section Peers.
Context (s : Sys (L := L)) (A : bytes → winners) (lost : bytes → bool).
Context (Hhold : ∀ i rv, wo_nodes (sy_world s) !! i = Some rv → holding H (rv_store rv) (A i)) (Hlost : ∀ addr, lost addr = false).

Lemma peerAt_key addr k x : peerAt s A addr !! k = Some x → x ∈ H ∧ keyOf x = k.
Proof.
  unfold peerAt. destruct (resolve addr) as [j|]; [|by rewrite lookup_empty]. case_decide as Hj; [|by rewrite lookup_empty].
  destruct Hj as [rv Hj]. apply (holding_key H (rv_store rv)). by apply Hhold.
Qed.

Lemma fetchAt_peer addr ns key : ns_ok ns → fetchAt resolve lost (sy_world s) addr ns key = peerAt s A addr !! (ns, key).
Proof.
  intros Hn. unfold fetchAt, peerAt, storeAt. rewrite Hlost. destruct (resolve addr) as [j|]; cbn; [|by rewrite lookup_empty].
  destruct (wo_nodes (sy_world s) !! j) as [rv|] eqn:Ej; cbn.
  - rewrite decide_True by eauto. by rewrite (GetRecord_ok _ (A j)) by (done || apply Hhold; done).
  - rewrite decide_False by (intros [? ?]; done). by rewrite lookup_empty.
Qed.

Lemma digestAt_peer addr ns start stop h :
  ns_ok ns → digestAt sha256 resolve lost (sy_world s) addr ns start stop = Some h →
  h = DigestRecords sha256 (recordsIn (peerAt s A addr) ns start stop).
Proof.
  intros Hn. unfold digestAt, peerAt, storeAt. rewrite Hlost. destruct (resolve addr) as [j|]; cbn; [|done].
  destruct (wo_nodes (sy_world s) !! j) as [rv|] eqn:Ej; cbn; [|done]. unfold RangeDigest.
  rewrite (ScanRecords_ok _ (A j)) by (done || apply Hhold; done). cbn. intros [= <-]. by rewrite decide_True by eauto.
Qed.

End Peers.

Lemma passesOf_snoc i es e : passesOf i (es ++ [e]) = (passesOf i es + if decide (sweeper e = Some i) then 1 else 0)%nat.
Proof. unfold passesOf. rewrite filter_app, length_app, filter_cons, filter_nil. by case_decide. Qed.

(** The node states after a pass of node [i], which leaves [A'] there. *)
Definition setWinners (i : bytes) (A' : winners) (A : bytes → winners) (j : bytes) : winners := if decide (j = i) then A' else A j.

Section OnePass.
Context (es : list event) (s : Sys (L := L)) (A : bytes → winners) (Hsw : swept es s A).
Context (self : Member) (peers : list bytes) (Hi : isNode s0 (MemberID self)).
Context (Hreach : ∀ j, isNode s0 j → j ≠ MemberID self → ∃ addr, addr ∈ peers ∧ resolve addr = Some j).
Context (A' : winners) (Hmoved : moved peers (peerAt s A) (A (MemberID self)) A').

Notation i := (MemberID self).

Lemma moved_back k b : A' !! k = Some b → ∃ r, A i !! k = Some r ∧ ¬ beats r b ∧ (b = r ∨ improved (peerAt s A) peers r b).
Proof.
  intros Hb. destruct (proj1 (mv_dom _ _ _ _ Hmoved k) (mk_is_Some _ _ Hb)) as [r Hr].
  destruct (mv_from _ _ _ _ Hmoved k r Hr) as (b' & Hb' & Hor). rewrite Hb in Hb'. injection Hb' as <-. exists r.
  split_and!; [done| |done]. destruct Hor as [->|(_ & Hn & _)]; [|done]. intros Hx. by apply (beats_asym r r).
Qed.

Lemma swept_keys j k : is_Some (setWinners i A' A j !! k) ↔ is_Some (A0 j !! k).
Proof.
  unfold setWinners. case_decide; [subst j; rewrite (mv_dom _ _ _ _ Hmoved)|]; apply (sw_keys _ _ _ Hsw).
Qed.

Lemma swept_from j k r : isNode s0 j → setWinners i A' A j !! k = Some r → ∃ j', isNode s0 j' ∧ A0 j' !! k = Some r.
Proof.
  unfold setWinners. case_decide; [subst j|apply (sw_from _ _ _ Hsw)]. intros _ Hr.
  destruct (moved_back _ _ Hr) as (y & Hy & _ & [->|(_ & _ & [->|(addr & _ & Hp)])]); [by apply (sw_from _ _ _ Hsw i)..|].
  assert (keyOf y = k) as Ek.
  { destruct (proj2 (sw_node _ _ _ Hsw i) Hi) as [rv Hrv]. by apply (holding_key H (rv_store rv) (A i) k y (sw_hold _ _ _ Hsw _ _ Hrv)). }
  rewrite Ek in Hp. unfold peerAt in Hp. destruct (resolve addr) as [j|]; [|by rewrite lookup_empty in Hp].
  case_decide as Hj; [|by rewrite lookup_empty in Hp]. by apply (sw_from _ _ _ Hsw j); [apply (sw_node _ _ _ Hsw)|].
Qed.

Lemma swept_kept j k x : A0 j !! k = Some x → ∃ y, setWinners i A' A j !! k = Some y ∧ ¬ beats x y.
Proof.
  intros Hx. destruct (sw_kept _ _ _ Hsw j k x Hx) as (y & Hy & Hn). unfold setWinners. case_decide; [subst j|by exists y].
  destruct (mv_from _ _ _ _ Hmoved k y Hy) as (b & Hb & _). exists b. split; [done|].
  destruct (moved_back _ _ Hb) as (r & Hr & Hnb & _). rewrite Hy in Hr. injection Hr as <-. by apply (not_beats_trans _ y).
Qed.

(** The page read holds the newest record any node had. *)
Lemma page_covered k b :
  newest (peerAt s A) peers b → keyOf b = k → A' !! k = Some b → ∀ i' x, isNode s0 i' → A0 i' !! k = Some x → ¬ beats x b.
Proof.
  intros Hnew Hkb Hb i' x Hi' Hx. destruct (sw_kept _ _ _ Hsw i' _ _ Hx) as (y & Hy & Hxy). apply (not_beats_trans _ y); [done|].
  destruct (decide (i' = i)) as [->|Hne].
  { destruct (moved_back _ _ Hb) as (r & Hr & Hnb & _). rewrite Hy in Hr. by injection Hr as <-. }
  destruct (Hreach i' Hi' Hne) as (addr & Ha & Hres). apply (Hnew addr); [done|]. unfold peerAt. rewrite Hres, Hkb.
  by rewrite decide_True by (by apply (sw_node _ _ _ Hsw)).
Qed.

End OnePass.

Lemma sweep_step es s A e :
  swept es s A → sweeping s0 batch nss e → (usesDigest e = true → faithful sha256 H) →
  ∃ A', swept (es ++ [e]) (step sha256 resolve policy everywhere s e) A'.
Proof.
  destruct e as [| | | | | |self nv lost useDigest b l]; try done. intros Hsw (Hi & -> & -> & Hlost & Hpe & Hreach) Hf. cbn [usesDigest] in Hf.
  set (i := MemberID self) in *. set (peers := alivePeerAddrs self (nv_members nv)) in *. cbn [step]. fold i. unfold syncAt.
  destruct (proj2 (sw_local _ _ _ Hsw i) Hi) as [lo Elo]. destruct (proj2 (sw_node _ _ _ Hsw i) Hi) as [rv Erv]. rewrite Elo, Erv. fold peers.
  set (w := sy_world s). set (dig := if useDigest then _ else _). set (a := mkAE (rv_store rv) (lo_syncCursor lo)).
  destruct (IntraReconcileOnce_spec sha256 H Hh (fetchAt resolve lost w) dig peers (peerAt s A)
    (λ addr k x _, peerAt_key s A lost (sw_hold _ _ _ Hsw) Hlost addr k x)
    (λ addr ns key Hn _, fetchAt_peer s A lost (sw_hold _ _ _ Hsw) Hlost addr ns key Hn)) with (batch := batch) (nss := nss) (a := a) (A := A i)
    as (u' & a' & A' & -> & Hst' & Hmv & Hpa); [|done..|by apply (sw_hold _ _ _ Hsw)|].
  { intros d addr ns start stop h Hn Ed _ Eh. unfold dig in Ed. destruct useDigest; [|done]. injection Ed as <-.
    split; [by apply Hf|]. by apply (digestAt_peer s A lost (sw_hold _ _ _ Hsw) Hlost). }
  exists (setWinners i A' A). split.
  - intros j rvj. cbn [sy_world setNode wo_nodes]. unfold setWinners. case_decide; [subst j|].
    + rewrite lookup_insert_eq. by intros [= <-].
    + rewrite lookup_insert_ne by done. apply (sw_hold _ _ _ Hsw).
  - intros j. rewrite <-(sw_node _ _ _ Hsw). unfold isNode. cbn [sy_world setNode wo_nodes]. fold w.
    destruct (decide (j = i)) as [->|Hne]; [rewrite lookup_insert_eq|by rewrite lookup_insert_ne]. split; [by eexists|done].
  - intros j. rewrite <-(sw_local _ _ _ Hsw). cbn [sy_local].
    destruct (decide (j = i)) as [->|Hne]; [rewrite lookup_insert_eq|by rewrite lookup_insert_ne]. split; [done|by eexists].
  - intros j k. by apply (swept_keys es s A Hsw self peers Hi Hreach).
  - intros j k r. by apply (swept_from es s A Hsw self peers Hi Hreach).
  - intros j k x. by apply (swept_kept es s A Hsw self peers Hi Hreach).
  - intros j ns Hns Hj. rewrite passesOf_snoc. unfold syncCursorAt at 1. cbn [sy_local]. cbn [sweeper]. fold i.
    destruct (decide (j = i)) as [->|Hne].
    + rewrite lookup_insert_eq. cbn [lo_syncCursor]. fold (cursorOf a' ns). rewrite (pa_cursor _ _ _ _ _ _ _ _ (Hpa ns Hns)), decide_True by done.
      rewrite (nextCursor_dom (A0 i) (A i)) by apply (sw_keys _ _ _ Hsw). rewrite Nat.add_1_r, cursorN_next.
      rewrite <-(sw_cursor _ _ _ Hsw i ns) by done.
      unfold syncCursorAt. by rewrite Elo.
    + rewrite lookup_insert_ne, decide_False, Nat.add_0_r by congruence. apply (sw_cursor _ _ _ Hsw); done.
  - intros j ns n k b Hns Hj. rewrite passesOf_snoc. cbn [sweeper]. fold i. unfold setWinners. destruct (decide (j = i)) as [->|Hne].
    + rewrite decide_True by done. intros Hn Hk Hb. destruct (decide (n = passesOf i es)) as [->|Hnp].
      * assert (keyOf b = (ns, k)) as Hkb by (by apply (holding_key _ _ _ _ _ Hst' Hb)).
        apply (page_covered es s A Hsw self peers Hi Hreach A' Hmv (ns, k) b); [|done..].
        apply (pa_page _ _ _ _ _ _ _ _ (Hpa ns Hns) k); [|done]. rewrite (pageAt_dom (A0 i) (A i)) by apply (sw_keys _ _ _ Hsw).
        unfold cursorOf, a. cbn [ae_cursor]. rewrite <-(sw_cursor _ _ _ Hsw i ns) in Hk by done. unfold syncCursorAt in Hk. by rewrite Elo in Hk.
      * destruct (moved_back es s A Hsw self peers Hi Hreach A' Hmv _ _ Hb) as (r & Hr & Hnb & _). intros i' x Hi' Hx.
        apply (not_beats_trans _ r); [|done]. apply (sw_covered _ _ _ Hsw i ns n k r) with (i' := i'); try done. lia.
    + rewrite decide_False by congruence. intros Hn. apply (sw_covered _ _ _ Hsw); try done. lia.
Qed.

Lemma sweeps es s A ss :
  swept es s A → Forall (λ e, sweeping s0 batch nss e ∧ (usesDigest e = true → faithful sha256 H)) ss →
  ∃ A', swept (es ++ ss) (run sha256 resolve policy everywhere s ss) A'.
Proof.
  revert es s A. induction ss as [|e ss IH]; intros es s A Hsw Hss; [exists A; by rewrite app_nil_r|].
  apply Forall_cons in Hss as [[He Hf] Hss]. destruct (sweep_step es s A e Hsw He Hf) as [A' Hsw'].
  unfold run. cbn [fold_left]. destruct (IH _ _ _ Hsw' Hss) as [A'' Hsw'']. exists A''. by rewrite <-app_assoc in Hsw''.
Qed.

End Cluster.

(** ** Convergence *)

Lemma nodes_choice {A B : Type} (m : gmap bytes A) (P : A → B → Prop) (b0 : B) :
  (∀ i x, m !! i = Some x → ∃ b, P x b) → ∃ f : bytes → B, ∀ i x, m !! i = Some x → P x (f i).
Proof.
  induction m as [|i x m Hi IH] using map_ind; intros Hm; [by exists (λ _, b0)|].
  destruct IH as [f Hf]; [intros j y Hj; apply (Hm j); by rewrite lookup_insert_ne by (intros ->; congruence)|].
  destruct (Hm i x) as [b Hb]; [by rewrite lookup_insert_eq|]. exists (λ j, if decide (j = i) then b else f j). intros j y.
  case_decide; [subst j; rewrite lookup_insert_eq; by intros [= <-]|]. rewrite lookup_insert_ne by done. apply Hf.
Qed.

Section Converges.
Context {L : Type} {LS : LocalStore L} {LSS : LocalStoreSpec L} {PB : Proto} {PBS : ProtoSpec}.
Context (clusterID : bytes) (sha256 : bytes → bytes) (resolve : bytes → option bytes).
Context (Hcluster : idSep ∉ clusterID ∧ id_ok clusterID).
(** Marshalling accepts well-formed records. *)
Context (Hmarshal : ∀ r, record_ok r → marshals r).

(** The record a node answers with. *)
Definition recordAt (i ns key : bytes) (s : Sys (L := L)) : option StoredRecord :=
  match storeAt i (sy_world s) with
  | Some st => match GetRecord ns key st with Ok r => r | Err _ => None end
  | None => None
  end.

Lemma recordAt_ok H es s A s0 A0 batch nss i ns key :
  ns_ok ns → swept H s0 A0 batch nss es s A → recordAt i ns key s = if decide (isNode s i) then A i !! (ns, key) else None.
Proof.
  intros Hn Hsw. unfold recordAt, storeAt, isNode. destruct (wo_nodes (sy_world s) !! i) as [rv|] eqn:Ei; cbn.
  - rewrite decide_True by eauto. rewrite (GetRecord_ok _ (A i)); [done| |done]. by apply (sw_hold _ _ _ _ _ _ _ _ Hsw).
  - by rewrite decide_False by (intros [? ?]; done).
Qed.

Lemma swept_start n H s batch nss : sys_ok clusterID resolve n H s → ∃ A0, swept H s A0 batch nss [] s A0.
Proof.
  intros Hs. destruct (nodes_choice (wo_nodes (sy_world s)) (λ rv A, holding H (rv_store rv) A) ∅) as [A0 HA0].
  { intros i rv Hi. by apply (no_store _ _ _ (so_world _ _ _ _ _ Hs i rv Hi)). }
  exists A0. split; try done.
  - intros i. apply (so_dom _ _ _ _ _ Hs).
  - intros i k r Hi Hk. by exists i.
  - intros i k x Hk. exists x. split; [done|]. intros Hx. by apply (beats_asym x x).
  - intros i ns j k b _ _ Hj. cbn in Hj. lia.
Qed.

(** Nodes with ids of one length have unambiguous digests. *)
Lemma history_faithful n H s :
  sys_ok clusterID resolve n H s → (∀ x y, sha256 x = sha256 y → x = y) → (∀ i j, isNode s i → isNode s j → length i = length j) → faithful sha256 H.
Proof.
  intros Hs Hinj Hlen. destruct H as [|r0 H0]; [intros l1 l2 H1 H2 _; apply list_nil_subseteq in H1, H2; by subst|].
  apply (digest_faithful sha256 _ (length clusterID) (length (WriterMemberID (recVersion r0)))); [done|]. intros r Hr.
  destruct (so_wrote _ _ _ _ _ Hs r Hr) as (rv & Hrv & Hc & _), (so_wrote _ _ _ _ _ Hs r0 ltac:(by left)) as (rv0 & Hrv0 & _).
  split_and!; [by apply (hi_storable _ (so_hist _ _ _ _ _ Hs))|by rewrite Hc|]. apply Hlen; by eexists.
Qed.

(** C4: Anti-entropy converges. After any run of the cluster, let the nodes sweep: passes of any
    nodes in any order, each seeing every other node and losing no call, with pages of two
    keys or more, and twice one more than its number of keys of the namespace for each node.
    Then the nodes that held a key still do, no other node does, and they all hold one and the
    same record: one of those held before, and none of those was newer. With the digest phase
    on, the digest must not collide and the node ids must have one length. *)
Theorem intra_sync_converges (policy : Policy) (everywhere : option (bytes → bool)) (store : L) (nodes : list bytes)
    (es ss : list event) (batch : Z) (nss : list bytes) (ns key : bytes) (s s' : Sys (L := L)) :
  empty_store store → Forall (λ id, idSep ∉ id ∧ id_ok id) nodes → Forall (event_ok resolve) es → Z.of_nat (length es) ≤ 2 ^ 60 →
  s = run sha256 resolve policy everywhere (freshSys clusterID store nodes) es →
  s' = run sha256 resolve policy everywhere s ss →
  1 < batch → Forall ns_ok nss → NoDup nss → ns ∈ nss → Forall (sweeping resolve s batch nss) ss →
  Forall (λ e, usesDigest e = false) ss ∨
    (∀ x y, sha256 x = sha256 y → x = y) ∧ (∀ i j, isNode s i → isNode s j → length i = length j) →
  (∀ i st recs, storeAt i (sy_world s) = Some st → ScanRecords ns None None st = Ok recs → (2 * (length recs + 1) ≤ passesOf i ss)%nat) →
  (∀ i, is_Some (recordAt i ns key s') ↔ is_Some (recordAt i ns key s)) ∧
  ∀ i r, recordAt i ns key s' = Some r →
    (∃ j, recordAt j ns key s = Some r) ∧ (∀ j x, recordAt j ns key s = Some x → ¬ beats x r) ∧
    ∀ j r', recordAt j ns key s' = Some r' → r' = r.
Proof.
  intros Hst Hids Hes Hlen Es Es' Hb Hnss Hnd Hin Hss Hdig Hcount.
  destruct (run_ok clusterID sha256 resolve Hcluster Hmarshal policy everywhere 0 [] _ es ltac:(lia) ltac:(lia)
    (fresh_ok clusterID sha256 resolve Hcluster Hmarshal policy everywhere store nodes Hst Hids) Hes) as (H & n & Hs). rewrite <-Es in Hs.
  assert (ns_ok ns) as Hn by (rewrite Forall_forall in Hnss; auto). pose proof (so_hist _ _ _ _ _ Hs) as Hh.
  destruct (swept_start n H s batch nss Hs) as [A0 H0].
  destruct (sweeps sha256 resolve policy everywhere H Hh s A0 batch nss Hb Hnss Hnd [] s A0 ss H0) as [A Hsw].
  { apply Forall_and. split; [done|]. apply Forall_forall. intros e He Hu. destruct Hdig as [Hd|[Hd1 Hd2]].
    - rewrite Forall_forall in Hd. by rewrite (Hd e He) in Hu.
    - by apply (history_faithful n _ s). }
  rewrite <-Es' in Hsw. cbn [app] in Hsw.
  assert (∀ i, recordAt i ns key s = if decide (isNode s i) then A0 i !! (ns, key) else None) as R0 by (intros i; by eapply recordAt_ok).
  assert (∀ i, recordAt i ns key s' = if decide (isNode s i) then A i !! (ns, key) else None) as R1.
  { intros i. erewrite recordAt_ok by done. apply decide_ext, (sw_node _ _ _ _ _ _ _ _ Hsw). }
  assert (∀ i r, recordAt i ns key s' = Some r → (∃ j, recordAt j ns key s = Some r) ∧ ∀ j x, recordAt j ns key s = Some x → ¬ beats x r) as Hmax.
  { intros i r. rewrite R1. case_decide as Hi; [|done]. intros Hr. split.
    - destruct (sw_from _ _ _ _ _ _ _ _ Hsw i _ _ Hi Hr) as (j & Hj & Ej). exists j. by rewrite R0, decide_True.
    - intros j x. rewrite R0. case_decide as Hj; [|done]. intros Hx.
      destruct (sweep_covers batch (A0 i) ns (syncCursorAt s i ns) key Hb) as (p & Hp & Hk);
        [apply (sw_keys _ _ _ _ _ _ _ _ Hsw); by eexists|].
      apply (sw_covered _ _ _ _ _ _ _ _ Hsw i ns p key r) with (i' := j); try done. eapply Nat.lt_le_trans; [exact Hp|].
      destruct Hi as [rv Hi]. rewrite <-(length_recordsIn (A0 i)). apply (Hcount i (rv_store rv)); [unfold storeAt; by rewrite Hi|].
      apply ScanRecords_ok; [|done]. by apply (sw_hold _ _ _ _ _ _ _ _ H0). }
  assert (∀ j x, recordAt j ns key s = Some x → x ∈ H) as HH.
  { intros j x. rewrite R0. case_decide as Hj; [|done]. destruct Hj as [rv Hj]. apply (sw_hold _ _ _ _ _ _ _ _ H0 j rv Hj). }
  split; [intros i; rewrite R0, R1; case_decide; [apply (sw_keys _ _ _ _ _ _ _ _ Hsw)|done]|].
  intros i r Hr. destruct (Hmax i r Hr) as [[j Hj] Hr1]. split_and!; [by exists j|done|].
  intros i' r' Hr'. destruct (Hmax i' r' Hr') as [[j' Hj'] Hr2]. pose proof (Hr1 j' r' Hj') as N1. pose proof (Hr2 j r Hj) as N2.
  apply (hi_unique H Hh); [by eapply HH..|]. by apply not_beats_cases in N1 as [N1| ->].
Qed.

End Converges.

(** ** Examples *)

(** Node a writes a key; node b overwrites it, and its call to a is lost. *)
Definition staleEvents : list event :=
  [EvWrite (sampleNode nodeA) (sampleView abc) (sampleEnv 1000) (putReq (lit "k")) [];
   EvWrite (sampleNode nodeB) (sampleView abc) (sampleEnv 2000) (putReq (lit "k")) [RequestLost]].

Definition sampleSweep (i : bytes) : event := EvSync (sampleNode i) (sampleView abc) (λ _, false) true 2 [lit "ns"].

Definition sampleSweeps : list event := concat (replicate 4 (sampleSweep <$> abc)).

Definition stampsAt (s : Sys (L := MemStore)) : list (option Z) := (λ i, HLCPhysicalMs ∘ recVersion <$> recordAt i (lit "ns") (lit "k") s) <$> abc.

Lemma stale_before : stampsAt (sampleRun staleEvents) = [Some 1000; Some 2000; Some 2000].
Proof. vm_compute. reflexivity. Qed.

Definition staleSys : Sys := sampleRun staleEvents.
Definition syncedSys : Sys := run noHash someID samplePolicy None staleSys sampleSweeps.

Lemma keys_listed {A : Type} (m : gmap bytes A) (l : list bytes) i :
  forallb (λ i, bool_decide (i ∈ l)) (map_to_list m).*1 = true → is_Some (m !! i) → i ∈ l.
Proof.
  rewrite forallb_forall. intros Hd [x Hi]. specialize (Hd i). apply (bool_decide_eq_true _), Hd. apply list_elem_of_In, list_elem_of_fmap.
  exists (i, x). split; [done|]. by apply elem_of_map_to_list.
Qed.

Lemma stale_nodes i : isNode staleSys i → i ∈ abc.
Proof. apply keys_listed. vm_compute. reflexivity. Qed.

Lemma abc_cases i (P : bytes → Prop) : i ∈ abc → P nodeA → P nodeB → P nodeC → P i.
Proof. unfold abc. rewrite !elem_of_cons. intros [->|[->|[->|Hi]]]; [done..|]. by apply not_elem_of_nil in Hi. Qed.

Lemma sample_sweeping : Forall (sweeping someID staleSys 2 [lit "ns"]) sampleSweeps.
Proof.
  assert (∀ i, i ∈ abc → sweeping someID staleSys 2 [lit "ns"] (sampleSweep i)) as Hi.
  { intros i Hi. split_and!; [|done|done|done| |].
    - apply (abc_cases i (isNode staleSys) Hi); apply (bool_decide_unpack _); vm_compute; exact I.
    - apply (abc_cases i (λ i, alivePeerAddrs (sampleNode i) _ ≠ []) Hi); vm_compute; done.
    - intros j Hj%stale_nodes Hne. exists j. split; [|done]. revert Hne.
      apply (abc_cases i (λ i, j ≠ i → j ∈ alivePeerAddrs (sampleNode i) _) Hi);
        apply (abc_cases j (λ j, j ≠ _ → j ∈ _) Hj); intros Hne; first [done|by left|by right; left|by right; right; left]. }
  unfold sampleSweeps. apply Forall_concat, Forall_replicate, Forall_fmap, Forall_forall. exact Hi.
Qed.

Definition enoughPasses (i : bytes) : bool :=
  match storeAt i (sy_world staleSys) with
  | Some st => match ScanRecords (lit "ns") None None st with Ok recs => (2 * (length recs + 1) <=? passesOf i sampleSweeps)%nat | Err _ => true end
  | None => true
  end.

Lemma sample_counts i : i ∈ abc → enoughPasses i = true.
Proof. intros Hi. apply (abc_cases i (λ i, enoughPasses i = true) Hi); vm_compute; reflexivity. Qed.

Lemma intra_sync_converges_witness :
  (∀ i, is_Some (recordAt i (lit "ns") (lit "k") syncedSys) ↔ is_Some (recordAt i (lit "ns") (lit "k") staleSys)) ∧
  ∀ i r, recordAt i (lit "ns") (lit "k") syncedSys = Some r →
    (∃ j, recordAt j (lit "ns") (lit "k") staleSys = Some r) ∧ (∀ j x, recordAt j (lit "ns") (lit "k") staleSys = Some x → ¬ beats x r) ∧
    ∀ j r', recordAt j (lit "ns") (lit "k") syncedSys = Some r' → r' = r.
Proof.
  apply (intra_sync_converges (lit "c") noHash someID sample_cluster sample_marshals samplePolicy None NewMemStore abc staleEvents sampleSweeps
    2 [lit "ns"] (lit "ns") (lit "k") staleSys syncedSys).
  - apply empty_mem.
  - apply sample_ids.
  - apply Forall_cons; split; [apply sample_put; lia|]. apply Forall_cons; split; [apply sample_put; lia|apply Forall_nil_2].
  - cbn. lia.
  - reflexivity.
  - reflexivity.
  - lia.
  - apply Forall_cons; split; [apply sample_ns|apply Forall_nil_2].
  - apply NoDup_singleton.
  - by left.
  - apply sample_sweeping.
  - right. split; [done|]. intros i j Hi%stale_nodes Hj%stale_nodes.
    apply (abc_cases i (λ i, length i = length j) Hi); apply (abc_cases j (λ j, _ = length j) Hj); reflexivity.
  - intros i st recs Hi Hr. assert (i ∈ abc) as Hin.
    { apply stale_nodes. unfold storeAt in Hi. destruct (wo_nodes _ !! i) eqn:E; [by eexists|done]. }
    pose proof (sample_counts i Hin) as E. unfold enoughPasses in E. rewrite Hi, Hr in E. by apply Nat.leb_le.
Defined.

Lemma synced_after : stampsAt syncedSys = [Some 2000; Some 2000; Some 2000].
Proof. vm_compute. reflexivity. Qed.

(** ** Deviations *)

Definition ambiguousRec (cluster member : bytes) : StoredRecord :=
  mkStoredRecord (lit "k") None (Some (ToProto (mkVersion 1000 0 cluster member 1))) None false 0 (lit "ns") cluster member 0 0.

(** The digest does not separate the cluster id from the member id: records of one key, one
    written by member 2a of cluster eu-1 and one by member a of cluster eu-12, have the same
    digest whatever the hash, so that two nodes that hold one each take their ranges for equal. *)
Theorem digest_ambiguous (sha256 : bytes → bytes) :
  let r1 := ambiguousRec (lit "eu-1") (lit "2a") in
  let r2 := ambiguousRec (lit "eu-12") (lit "a") in
  keyVersion r1 ≠ keyVersion r2 ∧ DigestRecords sha256 [r1] = DigestRecords sha256 [r2].
Proof. split; [by vm_compute|]. unfold DigestRecords. f_equal. Qed.

End KvSync.
