(* ===== verification/Graph.v ===== *)
(** * Graph store (internal/graph)

    Property-graph records in the graph data family and the label, property and adjacency
    entries derived from them in the graph index family: the key encodings (keys.go), the
    atomic batches and reads (store.go), the index seeks and the rebuild (index.go), and the
    graph of a key (selection.go). The protobuf codec (record.go) is a type class. *)

From Stdlib Require Import Floats.SpecFloat.
From S2P Require Import Prelude Bytes Hlc Version Conflict Storage Command Uvarint Float64.

Local Open Scope Z_scope.

Module Graph.
Import Version Conflict Storage Uvarint Float64.

(** ** Messages (cypher.proto) *)

(** A property value; [VUnset] is a nil message or one with no field set. *)
Inductive Value :=
  | VUnset
  | VNull (b : bool)
  | VBool (b : bool)
  | VInt (i : Z)
  | VDouble (f : float64)
  | VString (s : bytes)
  | VBytes (b : bytes)
  | VList (vs : list Value)
  | VMap (entries : list (bytes * Value)).

#[export] Instance Value_eq_dec : EqDecision Value.
Proof.
  refine (fix go v1 v2 := let _ : EqDecision Value := @go in
    match v1, v2 with
    | VUnset, VUnset => left eq_refl
    | VNull b1, VNull b2 => cast_if (decide (b1 = b2))
    | VBool b1, VBool b2 => cast_if (decide (b1 = b2))
    | VInt i1, VInt i2 => cast_if (decide (i1 = i2))
    | VDouble f1, VDouble f2 => cast_if (decide (f1 = f2))
    | VString s1, VString s2 => cast_if (decide (s1 = s2))
    | VBytes b1, VBytes b2 => cast_if (decide (b1 = b2))
    | VList l1, VList l2 => cast_if (decide (l1 = l2))
    | VMap m1, VMap m2 => cast_if (decide (m1 = m2))
    | _, _ => right _
    end); congruence.
Defined.

Record NodeRecord := mkNode {
  nd_GraphId : bytes;
  nd_NodeId : bytes;
  nd_Labels : list bytes;
  nd_Properties : gmap bytes Value;
  nd_Version : option ProtoVersion;
  nd_Tombstone : bool;
}.

Record EdgeRecord := mkEdge {
  ed_GraphId : bytes;
  ed_EdgeId : bytes;
  ed_StartNode : bytes;
  ed_EndNode : bytes;
  ed_Type : bytes;
  ed_Properties : gmap bytes Value;
  ed_Version : option ProtoVersion;
  ed_Tombstone : bool;
}.

#[export] Instance NodeRecord_eq_dec : EqDecision NodeRecord.
Proof. solve_decision. Defined.
#[export] Instance EdgeRecord_eq_dec : EqDecision EdgeRecord.
Proof. solve_decision. Defined.

(** [proto.Marshal] and [proto.Unmarshal] on the two records; marshalling can fail (a string
    that is not UTF-8). *)
Class GraphProto := {
  EncodeNode : NodeRecord → option bytes;
  DecodeNode : bytes → option NodeRecord;
  EncodeEdge : EdgeRecord → option bytes;
  DecodeEdge : bytes → option EdgeRecord;
}.

(** The documented contract: what is marshalled unmarshals to an equal message. *)
Class GraphProtoSpec `{GraphProto} := {
  decode_node n b : EncodeNode n = Some b → DecodeNode b = Some n;
  decode_edge e b : EncodeEdge e = Some b → DecodeEdge b = Some e;
}.

(** ** Keys (keys.go) *)

Definition pfxNode : bytes := lit "n".
Definition pfxEdge : bytes := lit "e".
Definition pfxLabel : bytes := lit "l".
Definition pfxProp : bytes := lit "p".
Definition pfxOutAdj : bytes := lit "ao".
Definition pfxInAdj : bytes := lit "ai".

Definition lp (dst s : bytes) : bytes := lenPrefix dst s.

(** The field and what follows it; a nil rest when the field is malformed. *)
Definition decodeLP (b : bytes) : bytes * option bytes :=
  match takePrefixed b with
  | Some (s, rest) => (s, Some rest)
  | None => ([], None)
  end.

Definition NodePrefix (graph : bytes) : bytes := lp pfxNode graph.
Definition EdgePrefix (graph : bytes) : bytes := lp pfxEdge graph.
Definition NodeKey (graph nodeID : bytes) : bytes := lp (lp pfxNode graph) nodeID.
Definition EdgeKey (graph edgeID : bytes) : bytes := lp (lp pfxEdge graph) edgeID.
Definition LabelPrefix (graph label : bytes) : bytes := lp (lp pfxLabel graph) label.
Definition LabelKey (graph label nodeID : bytes) : bytes := lp (lp (lp pfxLabel graph) label) nodeID.

Definition tagNull : byte := Zbyte 0.
Definition tagBool : byte := Zbyte 1.
Definition tagInt : byte := Zbyte 2.
Definition tagDouble : byte := Zbyte 3.
Definition tagString : byte := Zbyte 4.
Definition tagBytes : byte := Zbyte 5.

(** [math.Float64bits]: sign, biased exponent and mantissa; the NaN is the one [math.NaN]
    returns. *)
Definition Float64bits (f : float64) : Z :=
  let sign (s : bool) := if s then 2 ^ 63 else 0 in
  match f with
  | S754_zero s => sign s
  | S754_infinity s => sign s + 2047 * 2 ^ 52
  | S754_nan => 2047 * 2 ^ 52 + 2 ^ 51 + 1
  | S754_finite s m e =>
      if Z.pos m <? 2 ^ 52 then sign s + Z.pos m
      else sign s + (e + 1075) * 2 ^ 52 + (Z.pos m - 2 ^ 52)
  end.

(** The bits of a number as the index orders them: the sign flipped, negatives inverted. *)
Definition orderedBits (bits : Z) : Z :=
  if negb (Z.land bits (2 ^ 63) =? 0) then Z.lxor bits (2 ^ 64 - 1) else Z.lor bits (2 ^ 63).

Definition EncodeOrderedValue (v : Value) : bytes :=
  match v with
  | VBool b => [tagBool; if b then Zbyte 1 else Zbyte 0]
  | VInt i => tagInt :: put_u64 (Z.lxor (uint64 i) (2 ^ 63))
  | VDouble f => tagDouble :: put_u64 (orderedBits (Float64bits f))
  | VString s => tagString :: s
  | VBytes b => tagBytes :: b
  | _ => [tagNull]
  end.

Definition TypeTag (v : Value) : byte := default tagNull (head (EncodeOrderedValue v)).

Definition propValuePrefix (graph label prop : bytes) (val : Value) : bytes :=
  lp (lp (lp pfxProp graph) label) prop ++ EncodeOrderedValue val.
Definition PropKey (graph label prop : bytes) (val : Value) (nodeID : bytes) : bytes :=
  propValuePrefix graph label prop val ++ nodeID.
Definition PropTypePrefix (graph label prop : bytes) (typeTag : byte) : bytes :=
  lp (lp (lp pfxProp graph) label) prop ++ [typeTag].

Definition OutAdjPrefix (graph src : bytes) : bytes := lp (lp pfxOutAdj graph) src.
Definition OutAdjKey (graph src edgeType dst edgeID : bytes) : bytes :=
  lp (lp (lp (lp (lp pfxOutAdj graph) src) edgeType) dst) edgeID.
Definition InAdjPrefix (graph dst : bytes) : bytes := lp (lp pfxInAdj graph) dst.
Definition InAdjKey (graph dst edgeType src edgeID : bytes) : bytes :=
  lp (lp (lp (lp (lp pfxInAdj graph) dst) edgeType) src) edgeID.

(** The graph of a key (selection.go). *)
Definition OfKey (key : bytes) : option bytes :=
  let one := take 1 key in
  let two := take 2 key in
  let rest :=
    if bool_decide (two = pfxOutAdj) || bool_decide (two = pfxInAdj) then Some (drop 2 key)
    else if bool_decide (one = pfxNode) || bool_decide (one = pfxEdge) || bool_decide (one = pfxLabel) || bool_decide (one = pfxProp)
    then Some (drop 1 key) else None in
  match rest with
  | None => None
  | Some r => match decodeLP r with (g, Some _) => Some g | (_, None) => None end
  end.

(** The partition a node routes to (partition.go): a 32-bit FNV-1a hash. *)
Definition NumPartitions : Z := 256.
Definition Partition (graphID nodeID : bytes) : Z :=
  fold_left (λ h b, uint32 (Z.lxor h (byteZ b) * 16777619)) (graphID ++ [x00] ++ nodeID) 2166136261 mod NumPartitions.

(** ** The store (store.go) *)

Inductive graphErr := GMarshal | GUnmarshal | GStore (e : storeErr).

Definition fromStore {A} (r : res storeErr A) : res graphErr A :=
  match r with Ok a => Ok a | Err e => Err (GStore e) end.
Definition fromEncode {A} (o : option A) : res graphErr A := match o with Some a => Ok a | None => Err GMarshal end.
Definition fromDecode {A} (o : option A) : res graphErr A := match o with Some a => Ok a | None => Err GUnmarshal end.

(** The operations of a mutation batch. *)
Abbreviation Batch := (list StoreOp).

Section Store.
Context {L : Type} `{LocalStore L} `{GraphProto}.

(** The index entries of a live node, and of a live edge. *)
Definition nodeIndexOps (graph : bytes) (n : NodeRecord) : Batch :=
  nd_Labels n ≫= λ label,
    putOp CFGraphIndex (LabelKey graph label (nd_NodeId n)) [] ::
    ((λ '(prop, val), putOp CFGraphIndex (PropKey graph label prop val (nd_NodeId n)) []) <$> map_to_list (nd_Properties n)).

Definition edgeIndexOps (graph : bytes) (e : EdgeRecord) : Batch :=
  [putOp CFGraphIndex (OutAdjKey graph (ed_StartNode e) (ed_Type e) (ed_EndNode e) (ed_EdgeId e)) (ed_EdgeId e);
   putOp CFGraphIndex (InAdjKey graph (ed_EndNode e) (ed_Type e) (ed_StartNode e) (ed_EdgeId e)) (ed_EdgeId e)].

Definition PutNode (n : NodeRecord) (b : Batch) : res graphErr Batch :=
  do? rec ← fromEncode (EncodeNode n) ;
  let b := b ++ [putOp CFGraphData (NodeKey (nd_GraphId n) (nd_NodeId n)) rec] in
  if nd_Tombstone n then Ok b else Ok (b ++ nodeIndexOps (nd_GraphId n) n).

Definition PutEdge (e : EdgeRecord) (b : Batch) : res graphErr Batch :=
  do? rec ← fromEncode (EncodeEdge e) ;
  let b := b ++ [putOp CFGraphData (EdgeKey (ed_GraphId e) (ed_EdgeId e)) rec] in
  if ed_Tombstone e then Ok b else Ok (b ++ edgeIndexOps (ed_GraphId e) e).

Definition Commit (b : Batch) (s : L) : res graphErr L := fromStore (ls_Batch s b).

Definition CreateNode (n : NodeRecord) (s : L) : res graphErr L := do? b ← PutNode n [] ; Commit b s.
Definition CreateEdge (e : EdgeRecord) (s : L) : res graphErr L := do? b ← PutEdge e [] ; Commit b s.

Definition GetNode (graph nodeID : bytes) (s : L) : res graphErr (option NodeRecord) :=
  do? v ← fromStore (ls_Get s CFGraphData (NodeKey graph nodeID)) ;
  match v with
  | None => Ok None
  | Some v => do? n ← fromDecode (DecodeNode v) ; Ok (if nd_Tombstone n then None else Some n)
  end.

Definition GetEdge (graph edgeID : bytes) (s : L) : res graphErr (option EdgeRecord) :=
  do? v ← fromStore (ls_Get s CFGraphData (EdgeKey graph edgeID)) ;
  match v with
  | None => Ok None
  | Some v => do? e ← fromDecode (DecodeEdge v) ; Ok (if ed_Tombstone e then None else Some e)
  end.

(** What a scan keeps of a lookup: the live record, nothing on an error. *)
Definition found {A} (r : res graphErr (option A)) : option A := match r with Ok o => o | Err _ => None end.

Definition scanAdjacency (graph prefix : bytes) (s : L) : res graphErr (list EdgeRecord) :=
  do? rows ← fromStore (ls_Scan s CFGraphIndex (Some prefix) (prefixEnd prefix) 0) ;
  Ok (omap (λ row, found (GetEdge graph row.2 s)) rows).

(** An empty type means any. *)
Definition typedPrefix (prefix edgeType : bytes) : bytes :=
  if bool_decide (edgeType = []) then prefix else prefix ++ lp [] edgeType.

Definition ScanOutgoing (graph src edgeType : bytes) (s : L) : res graphErr (list EdgeRecord) :=
  scanAdjacency graph (typedPrefix (OutAdjPrefix graph src) edgeType) s.
Definition ScanIncoming (graph dst edgeType : bytes) (s : L) : res graphErr (list EdgeRecord) :=
  scanAdjacency graph (typedPrefix (InAdjPrefix graph dst) edgeType) s.

(** ** Indexes (index.go) *)

Definition hasLabel (n : NodeRecord) (label : bytes) : bool := existsb (λ l, bool_decide (l = label)) (nd_Labels n).

Definition valueEqual (a b : Value) : bool :=
  match a, b with
  | VInt x, VInt y => x =? y
  | VString x, VString y => bool_decide (x = y)
  | VDouble x, VDouble y => feqb x y
  | VBool x, VBool y => Bool.eqb x y
  | _, _ => false
  end.

(** The loop over the rows of an index: the ids of the rows, each once, that [keep] accepts. *)
Definition collectStep (keep : bytes → bool) (idOf : bytes → option bytes) (out : list bytes) (row : StoreKV) : list bytes :=
  match idOf row.1 with
  | None => out
  | Some id => if bool_decide (id ∈ out) then out else if keep id then out ++ [id] else out
  end.
Definition collectIDs (keep : bytes → bool) (idOf : bytes → option bytes) (rows : list StoreKV) : list bytes :=
  fold_left (collectStep keep idOf) rows [].

Definition ScanLabel (graph label : bytes) (s : L) : res graphErr (list bytes) :=
  let prefix := LabelPrefix graph label in
  do? rows ← fromStore (ls_Scan s CFGraphIndex (Some prefix) (prefixEnd prefix) 0) ;
  Ok (collectIDs (λ id, match found (GetNode graph id s) with Some n => hasLabel n label | None => false end)
        (λ k, Some (decodeLP (drop (length prefix) k)).1) rows).

Definition propMatches (cur : Value) (eq : option Value) (gte : option Z) : bool :=
  match eq with
  | Some v => valueEqual cur v
  | None =>
      match gte with
      | Some m => match cur with VInt i => m <=? i | _ => false end
      | None => true
      end
  end.

Definition seekProp (graph label prop start : bytes) (stop : option bytes) (nodeOffset : nat)
    (eq : option Value) (gte : option Z) (s : L) : res graphErr (list bytes) :=
  do? rows ← fromStore (ls_Scan s CFGraphIndex (Some start) stop 0) ;
  Ok (collectIDs
        (λ id, match found (GetNode graph id s) with
               | Some n => hasLabel n label &&
                   match nd_Properties n !! prop with Some cur => propMatches cur eq gte | None => false end
               | None => false
               end)
        (λ k, if (length k <? nodeOffset)%nat then None else Some (drop nodeOffset k)) rows).

Definition SeekProperty (graph label prop : bytes) (val : Value) (s : L) : res graphErr (list bytes) :=
  let prefix := propValuePrefix graph label prop val in
  seekProp graph label prop prefix (prefixEnd prefix) (length prefix) (Some val) None s.

Definition SeekPropertyGTE (graph label prop : bytes) (from : Z) (s : L) : res graphErr (list bytes) :=
  let start := propValuePrefix graph label prop (VInt from) in
  let typePrefix := PropTypePrefix graph label prop tagInt in
  seekProp graph label prop start (prefixEnd typePrefix) (length typePrefix + 8) None (Some from) s.

(** The decodable records of a graph, in key order. *)
Definition nodesOf (graph : bytes) (s : L) : res graphErr (list NodeRecord) :=
  let prefix := NodePrefix graph in
  do? rows ← fromStore (ls_Scan s CFGraphData (Some prefix) (prefixEnd prefix) 0) ;
  Ok (omap (λ row, DecodeNode row.2) rows).
Definition edgesOf (graph : bytes) (s : L) : res graphErr (list EdgeRecord) :=
  let prefix := EdgePrefix graph in
  do? rows ← fromStore (ls_Scan s CFGraphData (Some prefix) (prefixEnd prefix) 0) ;
  Ok (omap (λ row, DecodeEdge row.2) rows).

Definition AllNodes (graph : bytes) (s : L) : res graphErr (list NodeRecord) :=
  do? ns ← nodesOf graph s ; Ok (filter (λ n, nd_Tombstone n = false) ns).

Definition wipeOp (row : StoreKV) : StoreOp := delOp CFGraphIndex row.1.

Definition wipeIndex (s : L) : res graphErr L :=
  do? rows ← fromStore (ls_Scan s CFGraphIndex None None 0) ;
  fromStore (ls_Batch s (wipeOp <$> rows)).

Definition RebuildIndexes (graph : bytes) (s : L) : res graphErr L :=
  do? s ← wipeIndex s ;
  do? ns ← nodesOf graph s ;
  do? es ← edgesOf graph s ;
  Commit ((ns ≫= λ n, if nd_Tombstone n then [] else nodeIndexOps graph n) ++
          (es ≫= λ e, if ed_Tombstone e then [] else edgeIndexOps graph e)) s.

End Store.

End Graph.
