(* ===== verification/GraphSpec.v ===== *)
(** * The graph store answers from its records

    An abstract graph holds the last record written for every node and edge id. Whatever
    batches are committed, point reads, label scans, property seeks, range seeks, full scans
    and adjacency scans return exactly what the abstract graph holds, stale index entries
    notwithstanding. *)

From Stdlib Require Import Floats.SpecFloat.
From S2P Require Import Prelude Bytes Hlc Version Conflict Storage Command Uvarint Float64 Graph.

Local Open Scope Z_scope.
Set Default Proof Using "Type*".

Module GraphSpec.
Import Version Conflict Storage Command Uvarint Float64 Graph.

(** ** Keys *)

(** Go's lengths fit an int. *)
Definition small (b : bytes) : Prop := lenZ b < 2 ^ 63.

Lemma lp_app dst s : lp dst s = dst ++ lp [] s.
Proof. apply lenPrefix_app. Qed.

Lemma lp_inj p s1 s2 r1 r2 : small s1 → small s2 → lp p s1 ++ r1 = lp p s2 ++ r2 → s1 = s2 ∧ r1 = r2.
Proof.
  intros H1 H2 E. rewrite !(lp_app p), <-!app_assoc in E. apply app_inv_head in E. by apply lenPrefix_inj in E.
Qed.

Lemma lp_inj_nil p s1 s2 : small s1 → small s2 → lp p s1 = lp p s2 → s1 = s2.
Proof. intros H1 H2 E. apply (lp_inj p s1 s2 [] []); [done..|]. by rewrite !app_nil_r. Qed.

Lemma lp_not_nil p s : p ≠ [] → lp p s ≠ [].
Proof. rewrite lp_app. by destruct p. Qed.

(** Nested fields under one prefix. *)
Definition fields (p : bytes) (fs : list bytes) : bytes := fold_left lp fs p.

Lemma fields_app p fs r : fields p fs ++ r = p ++ fields [] fs ++ r.
Proof.
  revert p r. induction fs as [|f fs IH]; intros p r; [done|]. cbn [fields fold_left]. fold (fields (lp p f) fs) (fields (lp [] f) fs).
  rewrite IH, (IH (lp [] f)), (lp_app p). by rewrite <-!app_assoc.
Qed.

Lemma fields_inj p fs1 fs2 r1 r2 :
  Forall small fs1 → Forall small fs2 → length fs1 = length fs2 →
  fields p fs1 ++ r1 = fields p fs2 ++ r2 → fs1 = fs2 ∧ r1 = r2.
Proof.
  intros H1 H2 Hl E. rewrite !(fields_app p) in E. apply app_inv_head in E. revert fs2 H2 Hl E.
  induction H1 as [|f1 fs1 Hf1 Hfs1 IH]; intros [|f2 fs2] H2 Hl E; try done.
  apply Forall_cons in H2 as [Hf2 Hfs2]. cbn [fields fold_left] in E. fold (fields (lp [] f1) fs1) (fields (lp [] f2) fs2) in E.
  rewrite (fields_app (lp [] f1)), (fields_app (lp [] f2)) in E. apply lp_inj in E as [-> E]; [|done..].
  injection Hl as Hl. destruct (IH fs2 Hfs2 Hl E) as [-> ->]. done.
Qed.

#[local] Opaque lp.

(** ** The abstract graph *)

Inductive Mutation := PNode (n : NodeRecord) | PEdge (e : EdgeRecord).

Record AGraph := mkAGraph {
  ag_nodes : gmap (bytes * bytes) NodeRecord;
  ag_edges : gmap (bytes * bytes) EdgeRecord;
}.

Definition emptyGraph : AGraph := mkAGraph ∅ ∅.

Definition absPut (a : AGraph) (m : Mutation) : AGraph :=
  match m with
  | PNode n => mkAGraph (<[(nd_GraphId n, nd_NodeId n) := n]> (ag_nodes a)) (ag_edges a)
  | PEdge e => mkAGraph (ag_nodes a) (<[(ed_GraphId e, ed_EdgeId e) := e]> (ag_edges a))
  end.

Definition liveNode (a : AGraph) (g id : bytes) : option NodeRecord :=
  ag_nodes a !! (g, id) ≫= λ n, if nd_Tombstone n then None else Some n.
Definition liveEdge (a : AGraph) (g id : bytes) : option EdgeRecord :=
  ag_edges a !! (g, id) ≫= λ e, if ed_Tombstone e then None else Some e.

(** The entries of the index a live record has. *)
Definition nodeEntries (n : NodeRecord) : list (bytes * bytes) :=
  nd_Labels n ≫= λ label,
    (LabelKey (nd_GraphId n) label (nd_NodeId n), []) ::
    ((λ pv, (PropKey (nd_GraphId n) label pv.1 pv.2 (nd_NodeId n), [])) <$> map_to_list (nd_Properties n)).
Definition edgeEntries (e : EdgeRecord) : list (bytes * bytes) :=
  [(OutAdjKey (ed_GraphId e) (ed_StartNode e) (ed_Type e) (ed_EndNode e) (ed_EdgeId e), ed_EdgeId e);
   (InAdjKey (ed_GraphId e) (ed_EndNode e) (ed_Type e) (ed_StartNode e) (ed_EdgeId e), ed_EdgeId e)].
Definition entries (m : Mutation) : list (bytes * bytes) :=
  match m with
  | PNode n => if nd_Tombstone n then [] else nodeEntries n
  | PEdge e => if ed_Tombstone e then [] else edgeEntries e
  end.

(** Values and ids of Go types: 64-bit integers, and byte strings and keys an int can index. *)
Definition value_ok (v : Value) : Prop := match v with VInt i => in_i64 i | _ => True end.

Definition rec_ok (m : Mutation) : Prop :=
  match m with
  | PNode n => small (nd_GraphId n) ∧ small (nd_NodeId n) ∧ Forall small (nd_Labels n) ∧
      map_Forall (λ p v, small p ∧ value_ok v) (nd_Properties n)
  | PEdge e => small (ed_GraphId e) ∧ small (ed_EdgeId e) ∧ small (ed_StartNode e) ∧ small (ed_EndNode e) ∧ small (ed_Type e)
  end.
Definition mut_ok (m : Mutation) : Prop := rec_ok m ∧ Forall (λ kv, small kv.1) (entries m).

#[export] Instance small_dec b : Decision (small b).
Proof. unfold small. apply _. Defined.
#[export] Instance value_ok_dec v : Decision (value_ok v).
Proof. unfold value_ok, in_i64. destruct v; apply _. Defined.
#[export] Instance mut_ok_dec m : Decision (mut_ok m).
Proof. unfold mut_ok, rec_ok. destruct m; apply _. Defined.

(** ** Index scans *)

Lemma collectStep_spec keep idOf (out : list bytes) k v :
  NoDup out → NoDup (collectStep keep idOf out (k, v)) ∧
  ∀ id, id ∈ collectStep keep idOf out (k, v) ↔ id ∈ out ∨ (keep id = true ∧ idOf k = Some id).
Proof.
  intros Hn. unfold collectStep. cbn [fst]. destruct (idOf k) as [i|]; [|split; [done|]; intros id; split; [auto|]; intros [?|[_ [=]]]; done].
  case_bool_decide as Hi; [split; [done|]; intros id; split; [auto|]; intros [?|[_ [= <-]]]; done|].
  destruct (keep i) eqn:Ei; [|split; [done|]; intros id; split; [auto|]; intros [?|[? [= <-]]]; [done|congruence]].
  split.
  - apply NoDup_app. split_and!; [done| |apply NoDup_singleton]. intros x Hx ->%list_elem_of_singleton. done.
  - intros id. rewrite elem_of_app, list_elem_of_singleton. split; [intros [?| ->]; auto|intros [?|[_ [= ->]]]; auto].
Qed.

Lemma collectIDs_from keep idOf (rows : list StoreKV) (out : list bytes) :
  NoDup out → NoDup (fold_left (collectStep keep idOf) rows out) ∧
  ∀ id, id ∈ fold_left (collectStep keep idOf) rows out ↔
    id ∈ out ∨ (keep id = true ∧ ∃ k v, (k, v) ∈ rows ∧ idOf k = Some id).
Proof.
  revert out. induction rows as [|[k v] rows IH]; intros out Hn; cbn [fold_left].
  { split; [done|]. intros id. split; [auto|]. intros [?|(_ & ? & ? & []%elem_of_nil & _)]; done. }
  destruct (collectStep_spec keep idOf out k v Hn) as [Hn' Hs].
  destruct (IH _ Hn') as [HN HE]. split; [done|]. intros id. rewrite HE, Hs. split.
  - intros [[?|[? ?]]|(? & k' & v' & ? & ?)]; [by left|right; split; [done|]; exists k, v; split; [left|done]|].
    right. split; [done|]. exists k', v'. split; [by right|done].
  - intros [?|(? & k' & v' & [[= -> ->]|Hin]%elem_of_cons & ?)]; [auto..|]. right. eauto.
Qed.

Lemma collectIDs_spec keep idOf (rows : list StoreKV) :
  NoDup (collectIDs keep idOf rows) ∧
  ∀ id, id ∈ collectIDs keep idOf rows ↔ keep id = true ∧ ∃ k v, (k, v) ∈ rows ∧ idOf k = Some id.
Proof.
  destruct (collectIDs_from keep idOf rows [] NoDup_nil_2) as [HN HE]. split; [done|]. intros id. unfold collectIDs. rewrite HE.
  split; [intros [[]%elem_of_nil|?]; done|auto].
Qed.

Lemma hasLabel_spec n l : hasLabel n l = true ↔ l ∈ nd_Labels n.
Proof.
  unfold hasLabel. rewrite existsb_exists. split.
  - intros (x & Hx%list_elem_of_In & E%bool_decide_eq_true). by subst.
  - intros Hl. exists l. rewrite bool_decide_eq_true. split; [by apply list_elem_of_In|done].
Qed.

Lemma decodeLP_len b : lenZ (decodeLP b).1 ≤ lenZ b.
Proof.
  unfold decodeLP, takePrefixed. destruct (Uvarint b) as [[l n]|]; [|apply lenZ_nonneg].
  destruct (_ <? l); [apply lenZ_nonneg|]. cbn [fst]. unfold lenZ. rewrite length_take, length_drop. lia.
Qed.

Lemma decodeLP_lp id r : lenZ (lp [] id ++ r) < 2 ^ 64 → (decodeLP (lp [] id ++ r)).1 = id.
Proof. intros Hl. unfold decodeLP. Transparent lp. unfold lp in *. Opaque lp. by rewrite takePrefixed_lenPrefix. Qed.

(** ** Ordered values *)

Lemma lxor_signBit u : in_u64 u → Z.lxor u (2 ^ 63) = if 2 ^ 63 <=? u then u - 2 ^ 63 else u + 2 ^ 63.
Proof.
  intros Hu. destruct (Z.leb_spec (2 ^ 63) u) as [Hle|Hlt].
  - rewrite <-ldiff_signBit by done. apply Z.bits_inj'. intros n Hn. rewrite Z.lxor_spec, Z.ldiff_spec. unfold signBit.
    destruct (Z.eq_dec n 63) as [->|Hne]; [|rewrite Z.pow2_bits_false by lia; by rewrite xorb_false_r, andb_true_r].
    rewrite testbit63 by done. by destruct (Z.leb_spec (2 ^ 63) u); [|lia].
  - rewrite <-lor_signBit by done. apply Z.bits_inj'. intros n Hn. rewrite Z.lxor_spec, Z.lor_spec. unfold signBit.
    destruct (Z.eq_dec n 63) as [->|Hne]; [|rewrite Z.pow2_bits_false by lia; by rewrite xorb_false_r, orb_false_r].
    rewrite testbit63 by done. by destruct (Z.leb_spec (2 ^ 63) u); [lia|].
Qed.

Lemma int_flip i : in_i64 i → Z.lxor (uint64 i) (2 ^ 63) = i + 2 ^ 63.
Proof.
  intros Hi. rewrite lxor_signBit by apply uint64_range. pose proof (int64_cast i Hi) as Ei. pose proof (uint64_range i) as Hu.
  destruct (Z.leb_spec 0 i).
  - rewrite uint64_id by zlia. destruct (Z.leb_spec (2 ^ 63) i); zlia.
  - assert (uint64 i = i + 2 ^ 64) as ->; [|destruct (Z.leb_spec (2 ^ 63) (i + 2 ^ 64)); zlia].
    Transparent uint64. unfold uint64. Opaque uint64. symmetry. apply (Z.mod_unique_pos _ _ (-1)); zlia.
Qed.

(** Integers are ordered by their encodings, whatever follows them. *)
Lemma encode_int_le i j r1 r2 :
  in_i64 i → in_i64 j → i < j → bytes_lt (EncodeOrderedValue (VInt i) ++ r1) (EncodeOrderedValue (VInt j) ++ r2).
Proof.
  intros Hi Hj Hlt. unfold EncodeOrderedValue, bytes_lt. rewrite !int_flip by done.
  rewrite bcompare_app_same_length by (cbn [length]; by rewrite !length_put_u64). cbn [bcompare]. rewrite Z.compare_refl.
  rewrite bcompare_put_u64 by zlia. destruct (Z.compare_spec (i + 2 ^ 63) (j + 2 ^ 63)); [lia|done|lia].
Qed.

Definition zeroDouble (v : Value) : bool := match v with VDouble (S754_zero _) => true | _ => false end.

Lemma feqb_eq x y : feqb x y = true → zeroDouble (VDouble y) = false → x = y.
Proof.
  rewrite feqb_compare, cmp_Compare_key. intros H Hz. apply andb_true_iff in H as [_ H].
  destruct (key_compare (fkey x) (fkey y)) eqn:E; [|done..]. apply (cmp_eq (cmp:=key_compare)) in E.
  destruct x as [[]|[]| |[] m1 e1], y as [[]|[]| |[] m2 e2]; try done; injection E as E1 E2; f_equal; lia.
Qed.

Lemma valueEqual_encode cur v :
  valueEqual cur v = true → zeroDouble v = false → EncodeOrderedValue cur = EncodeOrderedValue v.
Proof.
  destruct cur, v; try done; cbn [valueEqual]; intros E Hz.
  - by apply eqb_prop in E as ->.
  - by apply Z.eqb_eq in E as ->.
  - by apply feqb_eq in E as ->.
  - by apply bool_decide_eq_true in E as ->.
Qed.

Lemma NoDup_omap_in {A B : Type} (f : A → option B) (l : list A) :
  NoDup l → (∀ x1 x2 y, x1 ∈ l → x2 ∈ l → f x1 = Some y → f x2 = Some y → x1 = x2) → NoDup (omap f l).
Proof.
  induction 1 as [|x l Hx Hl IH]; intros Hf; [constructor|]. cbn [omap list_omap].
  assert (NoDup (omap f l)) as IH' by (apply IH; intros x1 x2 y ??; apply Hf; by right).
  destruct (f x) as [y|] eqn:E; [|done]. constructor; [|done]. intros (x' & Hx' & E')%list_elem_of_omap.
  assert (x = x') as -> by (apply (Hf x x' y); [left|by right|done..]). done.
Qed.

Lemma newSliceIterator_NoDup m start stop : NoDup (newSliceIterator m start stop 0).
Proof. apply (NoDup_fmap_1 fst). rewrite newSliceIterator_keys. apply scan_keys_NoDup. Qed.

Section Store.
Context {L : Type} `{LocalStoreSpec L} `{GraphProtoSpec}.

(** A caller's batch: the mutations are collected and committed, or dropped on an error. *)
Definition addMut (b : res graphErr Batch) (m : Mutation) : res graphErr Batch :=
  do? b ← b ; match m with PNode n => PutNode n b | PEdge e => PutEdge e b end.

Definition runBatch (s : L) (ms : list Mutation) : L :=
  match (do? b ← fold_left addMut ms (Ok []) ; Commit b s) with Ok s' => s' | Err _ => s end.

Definition encodable (m : Mutation) : bool :=
  match m with PNode n => bool_decide (is_Some (EncodeNode n)) | PEdge e => bool_decide (is_Some (EncodeEdge e)) end.

Definition absBatch (a : AGraph) (ms : list Mutation) : AGraph := if forallb encodable ms then fold_left absPut ms a else a.

Definition puts (kvs : list (bytes * bytes)) (m : gmap bytes bytes) : gmap bytes bytes :=
  fold_left (λ m kv, <[kv.1 := kv.2]> m) kvs m.

Definition dataKey (m : Mutation) : bytes :=
  match m with PNode n => NodeKey (nd_GraphId n) (nd_NodeId n) | PEdge e => EdgeKey (ed_GraphId e) (ed_EdgeId e) end.
Definition payload (m : Mutation) : bytes :=
  default [] (match m with PNode n => EncodeNode n | PEdge e => EncodeEdge e end).

Definition indexPut (kv : bytes * bytes) : StoreOp := putOp CFGraphIndex kv.1 kv.2.
Definition mutOps (m : Mutation) : Batch := putOp CFGraphData (dataKey m) (payload m) :: (indexPut <$> entries m).

Lemma nodeIndexOps_entries n : nodeIndexOps (nd_GraphId n) n = indexPut <$> nodeEntries n.
Proof.
  unfold nodeIndexOps, nodeEntries. induction (nd_Labels n) as [|l ls IH]; [done|]. cbn [mbind list_bind].
  rewrite fmap_app, IH. f_equal. cbn [fmap list_fmap]. f_equal. rewrite <-list_fmap_compose. apply list_fmap_ext. by intros ? [p v].
Qed.

Lemma addMut_ops m b : addMut (Ok b) m = if encodable m then Ok (b ++ mutOps m) else Err GMarshal.
Proof.
  destruct m as [n|e]; unfold addMut, mutOps, payload, encodable; cbn [res_bind dataKey entries].
  - unfold PutNode. destruct (EncodeNode n) as [rec|] eqn:E; [|done]. rewrite bool_decide_true by eauto.
    cbn [fromEncode res_bind default]. destruct (nd_Tombstone n); [done|]. rewrite nodeIndexOps_entries, <-app_assoc. done.
  - unfold PutEdge. destruct (EncodeEdge e) as [rec|] eqn:E; [|done]. rewrite bool_decide_true by eauto.
    cbn [fromEncode res_bind default]. destruct (ed_Tombstone e); [done|]. by rewrite <-app_assoc.
Qed.

Lemma addMut_err ms e : fold_left addMut ms (Err e) = Err e.
Proof. by induction ms. Qed.

Lemma addMut_all ms b :
  fold_left addMut ms (Ok b) = if forallb encodable ms then Ok (b ++ (ms ≫= mutOps)) else Err GMarshal.
Proof.
  revert b. induction ms as [|m ms IH]; intros b; [cbn; by rewrite app_nil_r|]. cbn [fold_left forallb].
  rewrite addMut_ops. destruct (encodable m); [|by rewrite addMut_err]. rewrite IH. cbn [andb mbind list_bind].
  by rewrite app_assoc.
Qed.

Lemma apply_indexPuts kvs m : apply_ops CFGraphIndex (indexPut <$> kvs) m = puts kvs m.
Proof. revert m. induction kvs as [|kv kvs IH]; intros m; [done|]. apply IH. Qed.
Lemma apply_indexPuts_data kvs m : apply_ops CFGraphData (indexPut <$> kvs) m = m.
Proof. revert m. induction kvs as [|kv kvs IH]; intros m; [done|]. apply IH. Qed.

Lemma mutOps_data m d : apply_ops CFGraphData (mutOps m) d = <[dataKey m := payload m]> d.
Proof. unfold mutOps. apply (apply_indexPuts_data (entries m)). Qed.
Lemma mutOps_index m i : apply_ops CFGraphIndex (mutOps m) i = puts (entries m) i.
Proof. unfold mutOps. apply (apply_indexPuts (entries m)). Qed.

Lemma mutOps_valid ms : Forall (λ op, cf_valid (op_CF op) = true) (ms ≫= mutOps).
Proof.
  apply Forall_forall. intros op (m & Hop & _)%list_elem_of_bind. unfold mutOps in Hop.
  apply elem_of_cons in Hop as [->|(kv & -> & _)%list_elem_of_fmap]; by vm_compute.
Qed.

(** ** The invariant *)

Lemma puts_lookup kvs i k v : puts kvs i !! k = Some v → (k, v) ∈ kvs ∨ i !! k = Some v.
Proof.
  revert i. induction kvs as [|[k' v'] kvs IH]; intros i; [auto|]. cbn [puts fold_left]. intros [Hin|E]%IH; [by left; right|].
  cbn [fst snd] in E. destruct (decide (k' = k)) as [->|Hne].
  - rewrite lookup_insert_eq in E. injection E as ->. left. left.
  - rewrite lookup_insert_ne in E by done. by right.
Qed.

Lemma puts_keep kvs i k v : i !! k = Some v → (∀ v', (k, v') ∈ kvs → v' = v) → puts kvs i !! k = Some v.
Proof.
  revert i. induction kvs as [|[k' v'] kvs IH]; intros i Hi Hf; [done|]. apply IH; [|intros w Hw; apply Hf; by right].
  cbn [fst snd]. destruct (decide (k' = k)) as [->|Hne]; [|by rewrite lookup_insert_ne].
  rewrite lookup_insert_eq. f_equal. apply Hf. left.
Qed.

Lemma puts_in kvs i k v : (k, v) ∈ kvs → (∀ v', (k, v') ∈ kvs → v' = v) → puts kvs i !! k = Some v.
Proof.
  revert i. induction kvs as [|[k' v'] kvs IH]; intros i Hin Hf; [by apply elem_of_nil in Hin|].
  destruct (decide (k' = k)) as [->|Hne].
  - apply (puts_keep kvs); [|intros w Hw; apply Hf; by right]. cbn [fst snd]. rewrite lookup_insert_eq. f_equal. apply Hf. left.
  - apply IH; [|intros w Hw; apply Hf; by right]. apply elem_of_cons in Hin as [[= -> ->]|Hin]; done.
Qed.

(** An entry of a node has no value and a key of its own kind; an entry of an edge determines it. *)
Definition isNodeKey (k : bytes) : Prop := head k = Some x6c ∨ head k = Some x70.
Definition edge_small (e : EdgeRecord) : Prop := rec_ok (PEdge e).
Definition isEntry (P : EdgeRecord → Prop) (k v : bytes) : Prop :=
  small k ∧ ((v = [] ∧ isNodeKey k) ∨ ∃ e, edge_small e ∧ P e ∧ (k, v) ∈ edgeEntries e).

Lemma LabelKey_fields g l id : LabelKey g l id = fields pfxLabel [g; l; id].
Proof. done. Qed.
Lemma PropKey_fields g l p v id : PropKey g l p v id = fields pfxProp [g; l; p] ++ EncodeOrderedValue v ++ id.
Proof. unfold PropKey, propValuePrefix. by rewrite <-app_assoc. Qed.
Lemma OutAdjKey_fields g s t d id : OutAdjKey g s t d id = fields pfxOutAdj [g; s; t; d; id].
Proof. done. Qed.
Lemma InAdjKey_fields g d t s id : InAdjKey g d t s id = fields pfxInAdj [g; d; t; s; id].
Proof. done. Qed.

Lemma head_fields b p fs r : head (fields (b :: p) fs ++ r) = Some b.
Proof. by rewrite fields_app. Qed.
Lemma head_fields_nil b p fs : head (fields (b :: p) fs) = Some b.
Proof. rewrite <-(app_nil_r (fields (b :: p) fs)). apply head_fields. Qed.
Lemma second_fields b c p fs : head (tail (fields (b :: c :: p) fs)) = Some c.
Proof. rewrite <-(app_nil_r (fields _ fs)). by rewrite fields_app. Qed.

Lemma nodeEntries_key n k v : (k, v) ∈ nodeEntries n → v = [] ∧ isNodeKey k.
Proof.
  unfold nodeEntries. intros (l & Hin & _)%list_elem_of_bind. apply elem_of_cons in Hin as [[= -> ->]|Hin].
  - split; [done|]. left. apply (head_fields_nil x6c [] [_; _; _]).
  - apply list_elem_of_fmap in Hin as ([p w] & [= -> ->] & _). split; [done|]. right.
    rewrite PropKey_fields. apply (head_fields x70 []).
Qed.

Lemma elem_of_two {A B : Type} (k : A) (v : B) k1 v1 k2 v2 : (k, v) ∈ [(k1, v1); (k2, v2)] → (k = k1 ∧ v = v1) ∨ (k = k2 ∧ v = v2).
Proof. intros [[= -> ->]|[[= -> ->]|[]%elem_of_nil]%elem_of_cons]%elem_of_cons; auto. Qed.

Lemma edgeEntries_head e k v : (k, v) ∈ edgeEntries e → head k = Some x61 ∧ v = ed_EdgeId e.
Proof.
  unfold edgeEntries. intros [[-> ->]|[-> ->]]%elem_of_two; (split; [|done]).
  - apply (head_fields_nil x61 [x6f] [_; _; _; _; _]).
  - apply (head_fields_nil x61 [x69] [_; _; _; _; _]).
Qed.

(** The key of an adjacency entry gives the graph, the ends and the id of the edge. *)
Definition ends (e : EdgeRecord) : bytes * bytes * bytes * bytes * bytes :=
  (ed_GraphId e, ed_EdgeId e, ed_StartNode e, ed_Type e, ed_EndNode e).

Lemma edgeEntries_ends e1 e2 k v1 v2 :
  edge_small e1 → edge_small e2 → (k, v1) ∈ edgeEntries e1 → (k, v2) ∈ edgeEntries e2 → ends e1 = ends e2.
Proof.
  intros (S1 & S2 & S3 & S4 & S5) (T1 & T2 & T3 & T4 & T5). unfold edgeEntries, ends.
  intros [[-> _]|[-> _]]%elem_of_two [[E _]|[E _]]%elem_of_two; rewrite ?OutAdjKey_fields, ?InAdjKey_fields in E.
  1,4: rewrite <-(app_nil_r (fields _ _)), <-(app_nil_r (fields _ [_; _; _; _; ed_EdgeId e2])) in E;
    apply fields_inj in E as [[= -> -> -> -> ->] _]; [done|by rewrite !Forall_cons..|done].
  all: apply (f_equal (head ∘ tail)) in E; unfold compose in E; unfold pfxOutAdj, pfxInAdj in E;
    change (lit "ao") with [x61; x6f] in E; change (lit "ai") with [x61; x69] in E; by rewrite !second_fields in E.
Qed.

Lemma isEntry_fun P k v1 v2 : isEntry P k v1 → isEntry P k v2 → v1 = v2.
Proof.
  intros [_ [[-> H1']|(e1 & S1 & _ & H1')]] [_ [[-> H2']|(e2 & S2 & _ & H2')]]; [done| | |].
  - apply edgeEntries_head in H2' as [E _]. destruct H1' as [E'|E']; rewrite E in E'; done.
  - apply edgeEntries_head in H1' as [E _]. destruct H2' as [E'|E']; rewrite E in E'; done.
  - pose proof (edgeEntries_ends _ _ _ _ _ S1 S2 H1' H2') as [= _ E _ _ _].
    apply edgeEntries_head in H1' as [_ ->], H2' as [_ ->]. done.
Qed.

(** What the two families hold: the records of the abstract graph under their keys, and at
    least the entries of the live ones of the graphs [G]; [P] holds of every live edge ever written. *)
Record ginv (G : bytes → Prop) (P : EdgeRecord → Prop) (d i : gmap bytes bytes) (a : AGraph) : Prop := {
  gi_nodes g id : small g → small id → DecodeNode <$> d !! NodeKey g id = Some <$> ag_nodes a !! (g, id);
  gi_edges g id : small g → small id → DecodeEdge <$> d !! EdgeKey g id = Some <$> ag_edges a !! (g, id);
  gi_nown g id n : ag_nodes a !! (g, id) = Some n → nd_GraphId n = g ∧ nd_NodeId n = id ∧ mut_ok (PNode n);
  gi_eown g id e : ag_edges a !! (g, id) = Some e →
    ed_GraphId e = g ∧ ed_EdgeId e = id ∧ mut_ok (PEdge e) ∧ (ed_Tombstone e = false → P e);
  gi_keys k : is_Some (d !! k) → ∃ g id, small g ∧ small id ∧ (k = NodeKey g id ∨ k = EdgeKey g id);
  gi_nidx g id n k v : G g → ag_nodes a !! (g, id) = Some n → (k, v) ∈ entries (PNode n) → i !! k = Some v;
  gi_eidx g id e k v : G g → ag_edges a !! (g, id) = Some e → (k, v) ∈ entries (PEdge e) → i !! k = Some v;
  gi_entry k v : i !! k = Some v → isEntry P k v;
}.

Lemma ginv_empty G P : ginv G P ∅ ∅ emptyGraph.
Proof.
  constructor; cbn [ag_nodes ag_edges emptyGraph]; intros *; rewrite ?lookup_empty; try done.
Qed.

Lemma NodeKey_inj g1 id1 g2 id2 : small g1 → small id1 → small g2 → small id2 → NodeKey g1 id1 = NodeKey g2 id2 → (g1, id1) = (g2, id2).
Proof.
  intros ???? E. change (fields pfxNode [g1; id1] = fields pfxNode [g2; id2]) in E.
  rewrite <-(app_nil_r (fields _ _)), <-(app_nil_r (fields _ [g2; id2])) in E.
  apply fields_inj in E as [[= -> ->] _]; [done|by rewrite !Forall_cons..|done].
Qed.
Lemma EdgeKey_inj g1 id1 g2 id2 : small g1 → small id1 → small g2 → small id2 → EdgeKey g1 id1 = EdgeKey g2 id2 → (g1, id1) = (g2, id2).
Proof.
  intros ???? E. change (fields pfxEdge [g1; id1] = fields pfxEdge [g2; id2]) in E.
  rewrite <-(app_nil_r (fields _ _)), <-(app_nil_r (fields _ [g2; id2])) in E.
  apply fields_inj in E as [[= -> ->] _]; [done|by rewrite !Forall_cons..|done].
Qed.
Lemma NodeKey_head g id : head (NodeKey g id) = Some x6e.
Proof. apply (head_fields_nil x6e [] [_; _]). Qed.
Lemma EdgeKey_head g id : head (EdgeKey g id) = Some x65.
Proof. apply (head_fields_nil x65 [] [_; _]). Qed.
Lemma NodeKey_EdgeKey g id g' id' : NodeKey g id ≠ EdgeKey g' id'.
Proof. intros E. apply (f_equal head) in E. by rewrite NodeKey_head, EdgeKey_head in E. Qed.

Lemma entries_isEntry (P : EdgeRecord → Prop) m k v :
  mut_ok m → match m with PEdge e => ed_Tombstone e = false → P e | _ => True end → (k, v) ∈ entries m → isEntry P k v.
Proof.
  intros [Hm Hs] HP Hin. split; [by apply (Forall_forall _ _) with (x := (k, v)) in Hs|]. destruct m as [n|e]; cbn [entries] in Hin.
  - destruct (nd_Tombstone n); [by apply elem_of_nil in Hin|]. left. by apply nodeEntries_key in Hin.
  - destruct (ed_Tombstone e) eqn:Et; [by apply elem_of_nil in Hin|]. right. exists e. auto.
Qed.

(** The index after a write: the new entries, and every entry that was there. *)
Lemma index_put P m i k v :
  (∀ k v, i !! k = Some v → isEntry P k v) → (∀ k v, (k, v) ∈ entries m → isEntry P k v) →
  i !! k = Some v ∨ (k, v) ∈ entries m → puts (entries m) i !! k = Some v.
Proof.
  intros Hi Hm [Hk|Hk].
  - apply puts_keep; [done|]. intros v' Hv'. apply (isEntry_fun P k); auto.
  - apply puts_in; [done|]. intros v' Hv'. apply (isEntry_fun P k); auto.
Qed.

(** The index after a write: what was there stays, the new entries are there, and all are entries. *)
Lemma index_grows G P d i a m :
  ginv G P d i a → mut_ok m → match m with PEdge e => ed_Tombstone e = false → P e | _ => True end →
  (∀ k v, i !! k = Some v ∨ (k, v) ∈ entries m → puts (entries m) i !! k = Some v) ∧
  (∀ k v, puts (entries m) i !! k = Some v → isEntry P k v).
Proof.
  intros I Hm HP. pose proof (λ k v, entries_isEntry P m k v Hm HP) as Hent. split.
  - intros k v. apply (index_put P); [apply (gi_entry _ _ _ _ _ I)|done].
  - intros k v [Hk|Hk]%puts_lookup; [by apply Hent|by apply (gi_entry _ _ _ _ _ I)].
Qed.

Lemma ginv_put_node G P d i a n rec :
  ginv G P d i a → mut_ok (PNode n) → EncodeNode n = Some rec →
  ginv G P (<[NodeKey (nd_GraphId n) (nd_NodeId n) := rec]> d) (puts (entries (PNode n)) i) (absPut a (PNode n)).
Proof.
  intros I Hm Erec. destruct (index_grows G P d i a (PNode n) I Hm Logic.I) as [Hput Hent'].
  pose proof Hm as [(Sg & Si & _) _]. split; cbn [absPut ag_nodes ag_edges].
  - intros g id Hg Hid. destruct (decide ((nd_GraphId n, nd_NodeId n) = (g, id))) as [Eq|Hne].
    + injection Eq as <- <-. rewrite !lookup_insert_eq. cbn. f_equal. by apply decode_node.
    + rewrite !lookup_insert_ne; [by apply (gi_nodes _ _ _ _ _ I)|done|]. intros E%NodeKey_inj; done.
  - intros g id Hg Hid. rewrite lookup_insert_ne by apply NodeKey_EdgeKey. by apply (gi_edges _ _ _ _ _ I).
  - intros g id n'. destruct (decide ((nd_GraphId n, nd_NodeId n) = (g, id))) as [Eq|Hne].
    + injection Eq as <- <-. rewrite lookup_insert_eq. by intros [= <-].
    + rewrite lookup_insert_ne by done. apply (gi_nown _ _ _ _ _ I).
  - apply (gi_eown _ _ _ _ _ I).
  - intros k. destruct (decide (NodeKey (nd_GraphId n) (nd_NodeId n) = k)) as [<-|Hne]; [eauto 8|].
    rewrite lookup_insert_ne by done. apply (gi_keys _ _ _ _ _ I).
  - intros g id n' k v HG. destruct (decide ((nd_GraphId n, nd_NodeId n) = (g, id))) as [Eq|Hne].
    + injection Eq as <- <-. rewrite lookup_insert_eq. intros [= <-] Hin. by apply Hput; right.
    + rewrite lookup_insert_ne by done. intros Hn Hin. apply Hput. left. by apply (gi_nidx _ _ _ _ _ I _ _ _ _ _ HG Hn).
  - intros g id e k v HG Hl Hin. apply Hput. left. by apply (gi_eidx _ _ _ _ _ I _ _ _ _ _ HG Hl).
  - done.
Qed.

Lemma ginv_put_edge (G : bytes → Prop) (P : EdgeRecord → Prop) d i a e rec :
  ginv G P d i a → mut_ok (PEdge e) → EncodeEdge e = Some rec → (ed_Tombstone e = false → P e) →
  ginv G P (<[EdgeKey (ed_GraphId e) (ed_EdgeId e) := rec]> d) (puts (entries (PEdge e)) i) (absPut a (PEdge e)).
Proof.
  intros I Hm Erec HP. destruct (index_grows G P d i a (PEdge e) I Hm HP) as [Hput Hent'].
  pose proof Hm as [(Sg & Si & _) _]. split; cbn [absPut ag_nodes ag_edges].
  - intros g id Hg Hid. rewrite lookup_insert_ne by (intros E; by eapply NodeKey_EdgeKey). by apply (gi_nodes _ _ _ _ _ I).
  - intros g id Hg Hid. destruct (decide ((ed_GraphId e, ed_EdgeId e) = (g, id))) as [Eq|Hne].
    + injection Eq as <- <-. rewrite !lookup_insert_eq. cbn. f_equal. by apply decode_edge.
    + rewrite !lookup_insert_ne; [by apply (gi_edges _ _ _ _ _ I)|done|]. intros E%EdgeKey_inj; done.
  - apply (gi_nown _ _ _ _ _ I).
  - intros g id e'. destruct (decide ((ed_GraphId e, ed_EdgeId e) = (g, id))) as [Eq|Hne].
    + injection Eq as <- <-. rewrite lookup_insert_eq. by intros [= <-].
    + rewrite lookup_insert_ne by done. apply (gi_eown _ _ _ _ _ I).
  - intros k. destruct (decide (EdgeKey (ed_GraphId e) (ed_EdgeId e) = k)) as [<-|Hne]; [eauto 8|].
    rewrite lookup_insert_ne by done. apply (gi_keys _ _ _ _ _ I).
  - intros g id n k v HG Hl Hin. apply Hput. left. by apply (gi_nidx _ _ _ _ _ I _ _ _ _ _ HG Hl).
  - intros g id e' k v HG. destruct (decide ((ed_GraphId e, ed_EdgeId e) = (g, id))) as [Eq|Hne].
    + injection Eq as <- <-. rewrite lookup_insert_eq. intros [= <-] Hin. by apply Hput; right.
    + rewrite lookup_insert_ne by done. intros Hn Hin. apply Hput. left. by apply (gi_eidx _ _ _ _ _ I _ _ _ _ _ HG Hn).
  - done.
Qed.

Lemma ginv_put (G : bytes → Prop) (P : EdgeRecord → Prop) d i a m :
  ginv G P d i a → mut_ok m → encodable m = true → match m with PEdge e => ed_Tombstone e = false → P e | _ => True end →
  ginv G P (<[dataKey m := payload m]> d) (puts (entries m) i) (absPut a m).
Proof.
  intros I Hm He HP. destruct m as [n|e]; unfold encodable in He; apply bool_decide_eq_true in He as [rec Erec];
    unfold payload; rewrite Erec; [by apply ginv_put_node|by apply ginv_put_edge].
Qed.

(** ** Commits *)

Definition edgeHolds (P : EdgeRecord → Prop) (m : Mutation) : Prop :=
  match m with PEdge e => ed_Tombstone e = false → P e | _ => True end.

Lemma ginv_puts G P ms d i a :
  ginv G P d i a → Forall mut_ok ms → Forall (edgeHolds P) ms → forallb encodable ms = true →
  ginv G P (apply_ops CFGraphData (ms ≫= mutOps) d) (apply_ops CFGraphIndex (ms ≫= mutOps) i) (fold_left absPut ms a).
Proof.
  revert d i a. induction ms as [|m ms IH]; intros d i a I Hm HP He; [done|].
  apply Forall_cons in Hm as [Hm1 Hm]. apply Forall_cons in HP as [HP1 HP]. apply andb_true_iff in He as [He1 He].
  cbn [mbind list_bind fold_left]. rewrite !apply_ops_app, mutOps_data, mutOps_index. apply IH; [|done..]. by apply ginv_put.
Qed.

Definition gok (G : bytes → Prop) (P : EdgeRecord → Prop) (s : L) (a : AGraph) : Prop :=
  ls_live s ∧ ginv G P (ls_view s CFGraphData) (ls_view s CFGraphIndex) a.

Lemma cf_graph_data : cf_valid CFGraphData = true.
Proof. by vm_compute. Qed.
Lemma cf_graph_index : cf_valid CFGraphIndex = true.
Proof. by vm_compute. Qed.

Lemma runBatch_ok G P s a ms :
  gok G P s a → Forall mut_ok ms → Forall (edgeHolds P) ms → gok G P (runBatch s ms) (absBatch a ms).
Proof.
  intros [Hl I] Hm HP. unfold runBatch, absBatch. rewrite addMut_all. destruct (forallb encodable ms) eqn:He; [|done].
  cbn [res_bind app]. unfold Commit. destruct (ls_Batch_ok s _ Hl (mutOps_valid ms)) as (s' & -> & Hl' & Hv).
  cbn [fromStore]. split; [done|]. rewrite !Hv by (apply cf_graph_data || apply cf_graph_index). by apply ginv_puts.
Qed.

Lemma runBatches_ok G P s a bs :
  gok G P s a → Forall (Forall mut_ok) bs → Forall (Forall (edgeHolds P)) bs → gok G P (fold_left runBatch bs s) (fold_left absBatch bs a).
Proof.
  revert s a. induction bs as [|b bs IH]; intros s a K Hm HP; [done|].
  apply Forall_cons in Hm as [Hm1 Hm]. apply Forall_cons in HP as [HP1 HP]. apply IH; [|done..]. by apply runBatch_ok.
Qed.

(** ** Point reads *)

Lemma GetNode_ok G P s a g id : gok G P s a → small g → small id → GetNode g id s = Ok (liveNode a g id).
Proof.
  intros [Hl I] Hg Hid. unfold GetNode. rewrite ls_Get_ok by (done || apply cf_graph_data). cbn [fromStore res_bind].
  pose proof (gi_nodes _ _ _ _ _ I g id Hg Hid) as E. unfold liveNode.
  destruct (ls_view s CFGraphData !! NodeKey g id) as [v|], (ag_nodes a !! (g, id)) as [n|]; cbn in E; try done.
  injection E as ->. cbn. by destruct (nd_Tombstone n).
Qed.

Lemma GetEdge_ok G P s a g id : gok G P s a → small g → small id → GetEdge g id s = Ok (liveEdge a g id).
Proof.
  intros [Hl I] Hg Hid. unfold GetEdge. rewrite ls_Get_ok by (done || apply cf_graph_data). cbn [fromStore res_bind].
  pose proof (gi_edges _ _ _ _ _ I g id Hg Hid) as E. unfold liveEdge.
  destruct (ls_view s CFGraphData !! EdgeKey g id) as [v|], (ag_edges a !! (g, id)) as [n|]; cbn in E; try done.
  injection E as ->. cbn. by destruct (ed_Tombstone n).
Qed.

(** ** Index seeks *)

Lemma scan_ok G P s a cf start stop :
  gok G P s a → cf_valid cf = true → fromStore (ls_Scan s cf start stop 0) = Ok (newSliceIterator (ls_view s cf) start stop 0).
Proof. intros [Hl _] Hc. by rewrite ls_Scan_ok. Qed.

Lemma small_suffix p r : small (p ++ r) → small r.
Proof. unfold small. rewrite lenZ_app. pose proof (lenZ_nonneg p). lia. Qed.

Lemma index_key_small G P s a k v : gok G P s a → ls_view s CFGraphIndex !! k = Some v → small k.
Proof. intros [_ I] Hk. by apply (gi_entry _ _ _ _ _ I) in Hk as [? _]. Qed.

Lemma liveNode_stored a g id n : liveNode a g id = Some n → ag_nodes a !! (g, id) = Some n ∧ nd_Tombstone n = false.
Proof. unfold liveNode. destruct (ag_nodes a !! (g, id)) as [n'|]; [|done]. cbn. destruct (nd_Tombstone n') eqn:E; [done|]. by intros [= ->]. Qed.
Lemma liveEdge_stored a g id e : liveEdge a g id = Some e → ag_edges a !! (g, id) = Some e ∧ ed_Tombstone e = false.
Proof. unfold liveEdge. destruct (ag_edges a !! (g, id)) as [n'|]; [|done]. cbn. destruct (ed_Tombstone n') eqn:E; [done|]. by intros [= ->]. Qed.

(** The entries of a live node are in the index. *)
Lemma live_entry G P s a g id n k v :
  gok G P s a → G g → liveNode a g id = Some n → (k, v) ∈ nodeEntries n → ls_view s CFGraphIndex !! k = Some v.
Proof.
  intros [_ I] HG [Hn Ht]%liveNode_stored Hin. apply (gi_nidx _ _ _ _ _ I _ _ _ k v HG Hn). cbn [entries]. by rewrite Ht.
Qed.

Lemma labelEntry n l : l ∈ nd_Labels n → (LabelKey (nd_GraphId n) l (nd_NodeId n), []) ∈ nodeEntries n.
Proof. intros Hl. apply list_elem_of_bind. exists l. split; [left|done]. Qed.
Lemma propEntry n l p v :
  l ∈ nd_Labels n → nd_Properties n !! p = Some v → (PropKey (nd_GraphId n) l p v (nd_NodeId n), []) ∈ nodeEntries n.
Proof.
  intros Hl Hp. apply list_elem_of_bind. exists l. split; [|done]. right. apply list_elem_of_fmap. exists (p, v).
  split; [done|]. by apply elem_of_map_to_list.
Qed.

Lemma ScanLabel_ok G P s a g l :
  gok G P s a → G g → small g →
  ∃ ids, ScanLabel g l s = Ok ids ∧ NoDup ids ∧ ∀ id, id ∈ ids ↔ ∃ n, liveNode a g id = Some n ∧ l ∈ nd_Labels n.
Proof.
  intros K HG Hg. unfold ScanLabel. rewrite (scan_ok G P s a) by (done || apply cf_graph_index). cbn [res_bind]. eexists. split; [done|].
  set (keep := λ id : bytes, _). set (idOf := λ k : bytes, _). set (rows := newSliceIterator _ _ _ _).
  destruct (collectIDs_spec keep idOf rows) as [HN HE]. split; [exact HN|]. intros id. rewrite HE. unfold keep, idOf, rows. split.
  - intros (Hk & k & v & [Hkv [r ->]]%elem_of_prefix_scan & E). rewrite drop_app_length in E. injection E as <-.
    pose proof (index_key_small G P s a _ _ K Hkv) as Hs%small_suffix.
    rewrite (GetNode_ok G P s a) in Hk; [|done..|unfold small in *; pose proof (decodeLP_len r); lia]. cbn [found] in Hk.
    destruct (liveNode a g _) as [n|]; [|done]. exists n. by rewrite <-hasLabel_spec.
  - intros (n & Hn & Hl). pose proof (proj1 (liveNode_stored _ _ _ _ Hn)) as Hst.
    destruct (gi_nown _ _ _ _ _ (proj2 K) _ _ _ Hst) as (Eg & Ei & [(_ & Si & _) _]).
    pose proof (live_entry G P s a _ _ _ _ _ K HG Hn (labelEntry n l Hl)) as Hkv. rewrite Eg, Ei in *. split.
    + rewrite (GetNode_ok G P s a) by done. rewrite Hn. by apply hasLabel_spec.
    + exists (LabelKey g l id), []. pose proof (index_key_small G P s a _ _ K Hkv) as Hs.
      assert (LabelKey g l id = LabelPrefix g l ++ lp [] id) as Ek by apply lp_app. rewrite Ek in *. split.
      * apply elem_of_prefix_scan. split; [done|]. by apply prefix_app_r.
      * rewrite drop_app_length. f_equal. rewrite <-(app_nil_r (lp [] id)). apply decodeLP_lp. rewrite app_nil_r.
        apply small_suffix in Hs. unfold small in Hs. lia.
Qed.

(** A seek of the property index: the live nodes that match, of those an entry of the range names. *)
(** A seek answers nodes that match, and finds those whose index row is in the range it scans. *)
Lemma seekProp_spec G P s a g l p start stop off eq gte :
  gok G P s a → G g → small g →
  let hit id n cur := liveNode a g id = Some n ∧ l ∈ nd_Labels n ∧ nd_Properties n !! p = Some cur ∧ propMatches cur eq gte = true in
  ∃ ids, seekProp g l p start stop off eq gte s = Ok ids ∧ NoDup ids ∧ (∀ id, id ∈ ids → ∃ n cur, hit id n cur) ∧
    ∀ id n cur, hit id n cur → (∃ pre, length pre = off ∧ PropKey g l p cur id = pre ++ id ∧ in_bounds (Some start) stop (PropKey g l p cur id)) → id ∈ ids.
Proof.
  intros K HG Hg hit. unfold seekProp. rewrite (scan_ok G P s a) by (done || apply cf_graph_index). cbn [res_bind]. eexists. split; [done|].
  set (keep := λ id : bytes, _). set (idOf := λ k : bytes, _). set (rows := newSliceIterator _ _ _ _).
  destruct (collectIDs_spec keep idOf rows) as [HN HE]. split; [exact HN|]. split.
  - intros id (Hk & k & v & [Hkv _]%elem_of_newSliceIterator & E)%HE. unfold keep, idOf in *. destruct (_ <? off)%nat; [done|]. injection E as <-.
    pose proof (index_key_small G P s a _ _ K Hkv) as Hs. rewrite <-(take_drop off k) in Hs. apply small_suffix in Hs.
    rewrite (GetNode_ok G P s a) in Hk by done. cbn [found] in Hk. destruct (liveNode a g _) as [n|] eqn:Hn; [|done].
    apply andb_true_iff in Hk as [Hl Hm]. destruct (nd_Properties n !! p) as [cur|] eqn:Hp; [|done].
    exists n, cur. unfold hit. by rewrite <-hasLabel_spec.
  - intros id n cur (Hn & Hl & Hp & Hm) (pre & <- & Ek & Hb). apply HE. unfold keep, idOf, rows. pose proof (proj1 (liveNode_stored _ _ _ _ Hn)) as Hst.
    destruct (gi_nown _ _ _ _ _ (proj2 K) _ _ _ Hst) as (Eg & Ei & [(_ & Si & _) _]).
    pose proof (live_entry G P s a _ _ _ _ _ K HG Hn (propEntry n l p cur Hl Hp)) as Hkv. rewrite Eg, Ei in *. split.
    + rewrite (GetNode_ok G P s a) by done. rewrite Hn. cbn [found]. rewrite Hp, Hm, andb_true_r. by apply hasLabel_spec.
    + exists (PropKey g l p cur id), []. split; [by apply elem_of_newSliceIterator|].
      rewrite Ek. destruct (Nat.ltb_spec (length (pre ++ id)) (length pre)) as [Hlt|]; [rewrite length_app in Hlt; lia|].
      by rewrite drop_app_length.
Qed.

Lemma seekProp_ok G P s a g l p start stop off eq gte :
  gok G P s a → G g → small g →
  (∀ id n cur, liveNode a g id = Some n → l ∈ nd_Labels n → nd_Properties n !! p = Some cur → propMatches cur eq gte = true →
     ∃ pre, length pre = off ∧ PropKey g l p cur id = pre ++ id ∧ in_bounds (Some start) stop (PropKey g l p cur id)) →
  ∃ ids, seekProp g l p start stop off eq gte s = Ok ids ∧ NoDup ids ∧
    ∀ id, id ∈ ids ↔ ∃ n cur, liveNode a g id = Some n ∧ l ∈ nd_Labels n ∧ nd_Properties n !! p = Some cur ∧ propMatches cur eq gte = true.
Proof.
  intros K HG Hg Hrange. destruct (seekProp_spec G P s a g l p start stop off eq gte K HG Hg) as (ids & E & HN & Hs & Hc).
  exists ids. split_and!; [done..|]. intros id. split; [apply Hs|]. intros (n & cur & Hn & Hl & Hp & Hm). by apply (Hc id n cur); [|apply (Hrange id n)].
Qed.

(** The row of a value is in the range of a seek for a value with the same encoding. *)
Lemma PropKey_seek g l p cur v id : EncodeOrderedValue cur = EncodeOrderedValue v →
  ∃ pre, length pre = length (propValuePrefix g l p v) ∧ PropKey g l p cur id = pre ++ id ∧
    in_bounds (Some (propValuePrefix g l p v)) (prefixEnd (propValuePrefix g l p v)) (PropKey g l p cur id).
Proof.
  intros E. exists (propValuePrefix g l p v). unfold PropKey, propValuePrefix. rewrite E. split_and!; [done..|].
  apply prefixEnd_spec. by apply prefix_app_r.
Qed.

Lemma SeekProperty_ok G P s a g l p v :
  gok G P s a → G g → small g → zeroDouble v = false →
  ∃ ids, SeekProperty g l p v s = Ok ids ∧ NoDup ids ∧
    ∀ id, id ∈ ids ↔ ∃ n cur, liveNode a g id = Some n ∧ l ∈ nd_Labels n ∧ nd_Properties n !! p = Some cur ∧ valueEqual cur v = true.
Proof.
  intros K HG Hg Hz. apply (seekProp_ok G P s a); [done..|]. intros id n cur Hn Hl Hp Hm. by apply PropKey_seek, valueEqual_encode.
Qed.

(** A seek for a zero answers nodes that have a zero, and all those that have that zero. *)
Lemma SeekProperty_zero G P s a g l p v :
  gok G P s a → G g → small g → zeroDouble v = true →
  ∃ ids, SeekProperty g l p v s = Ok ids ∧ NoDup ids ∧
    (∀ id, id ∈ ids → ∃ n cur, liveNode a g id = Some n ∧ l ∈ nd_Labels n ∧ nd_Properties n !! p = Some cur ∧ valueEqual cur v = true) ∧
    ∀ id n, liveNode a g id = Some n → l ∈ nd_Labels n → nd_Properties n !! p = Some v → id ∈ ids.
Proof.
  intros K HG Hg Hz. destruct (seekProp_spec G P s a g l p (propValuePrefix g l p v) (prefixEnd (propValuePrefix g l p v))
    (length (propValuePrefix g l p v)) (Some v) None K HG Hg) as (ids & E & HN & Hs & Hc).
  exists ids. split_and!; [done|done|apply Hs|]. intros id n Hn Hl Hp. apply (Hc id n v); [|by apply PropKey_seek].
  split_and!; [done..|]. by destruct v as [| | | |[]| | | |].
Qed.

Lemma SeekPropertyGTE_ok G P s a g l p from :
  gok G P s a → G g → small g → in_i64 from →
  ∃ ids, SeekPropertyGTE g l p from s = Ok ids ∧ NoDup ids ∧
    ∀ id, id ∈ ids ↔ ∃ n i, liveNode a g id = Some n ∧ l ∈ nd_Labels n ∧ nd_Properties n !! p = Some (VInt i) ∧ from ≤ i.
Proof.
  intros K HG Hg Hf.
  destruct (seekProp_ok G P s a g l p (propValuePrefix g l p (VInt from)) (prefixEnd (PropTypePrefix g l p tagInt))
    (length (PropTypePrefix g l p tagInt) + 8) None (Some from)) as (ids & E & HN & HE); [done..| |].
  - intros id n cur Hn Hl Hp Hm. cbn [propMatches] in Hm. destruct cur as [| | |i| | | | |]; try done. apply Z.leb_le in Hm.
    pose proof (proj1 (liveNode_stored _ _ _ _ Hn)) as Hst. destruct (gi_nown _ _ _ _ _ (proj2 K) _ _ _ Hst) as (_ & _ & [(_ & _ & _ & Hpr) _]).
    pose proof (proj2 (Hpr _ _ Hp)) as Hi. cbn [value_ok] in Hi.
    exists (propValuePrefix g l p (VInt i)). split_and!; [|done|].
    + unfold propValuePrefix, PropTypePrefix. rewrite !length_app. cbn [EncodeOrderedValue length]. rewrite length_put_u64. lia.
    + assert (PropTypePrefix g l p tagInt `prefix_of` PropKey g l p (VInt i) id) as [_ Hb]%prefixEnd_spec.
      { unfold PropKey, propValuePrefix, PropTypePrefix. rewrite <-app_assoc. apply prefix_app. cbn [EncodeOrderedValue app].
        apply prefix_cons, prefix_nil. }
      split; [|exact Hb]. unfold PropKey, propValuePrefix, bytes_le. rewrite <-app_assoc, bcompare_app_l.
      rewrite <-(app_nil_r (EncodeOrderedValue (VInt from))). destruct (decide (from = i)) as [->|Hne].
      * rewrite bcompare_app_l. by destruct id.
      * pose proof (encode_int_le from i [] id Hf Hi ltac:(lia)) as Hlt. unfold bytes_lt in Hlt. by rewrite Hlt.
  - exists ids. split_and!; [done..|]. intros id. rewrite HE. split.
    + intros (n & cur & Hn & Hl & Hp & Hm). cbn [propMatches] in Hm. destruct cur as [| | |i| | | | |]; try done. apply Z.leb_le in Hm. eauto 8.
    + intros (n & i & Hn & Hl & Hp & Hm). exists n, (VInt i). split_and!; [done..|]. cbn. by apply Z.leb_le.
Qed.

(** ** Full scans *)

Lemma nodesOf_ok G P s a g :
  gok G P s a → small g →
  ∃ ns, nodesOf g s = Ok ns ∧ NoDup ns ∧ ∀ n, n ∈ ns ↔ ∃ id, ag_nodes a !! (g, id) = Some n.
Proof.
  intros K Hg. unfold nodesOf. rewrite (scan_ok G P s a) by (done || apply cf_graph_data). cbn [res_bind]. eexists. split; [done|].
  set (rows := newSliceIterator _ _ _ _).
  assert (∀ k v n, (k, v) ∈ rows → DecodeNode v = Some n →
    ag_nodes a !! (g, nd_NodeId n) = Some n ∧ k = NodeKey g (nd_NodeId n)) as Hrow.
  { intros k v n [Hkv [r Er]]%elem_of_prefix_scan Hd. destruct (gi_keys _ _ _ _ _ (proj2 K) k) as (g' & id & Hg' & Hid & [->| ->]); [eauto| |].
    - change (NodeKey g' id) with (lp (NodePrefix g') id) in Er. rewrite lp_app in Er. apply lp_inj in Er as [-> _]; [|done..].
      pose proof (gi_nodes _ _ _ _ _ (proj2 K) g id Hg Hid) as E. rewrite Hkv in E. cbn in E.
      destruct (ag_nodes a !! (g, id)) as [n'|] eqn:En; [|done]. cbn in E. rewrite Hd in E. injection E as ->.
      destruct (gi_nown _ _ _ _ _ (proj2 K) _ _ _ En) as (_ & <- & _). done.
    - apply (f_equal head) in Er. rewrite EdgeKey_head in Er. unfold NodePrefix in Er. rewrite lp_app in Er. done. }
  split.
  - apply NoDup_omap_in; [apply newSliceIterator_NoDup|]. intros [k1 v1] [k2 v2] n H1' H2' E1 E2.
    destruct (Hrow _ _ _ H1' E1) as [_ ->], (Hrow _ _ _ H2' E2) as [_ ->]. f_equal.
    apply elem_of_prefix_scan in H1' as [H1' _], H2' as [H2' _]. congruence.
  - intros n. rewrite list_elem_of_omap. split; [intros ([k v] & Hin & Hd); destruct (Hrow _ _ _ Hin Hd); eauto|].
    intros (id & Hst). destruct (gi_nown _ _ _ _ _ (proj2 K) _ _ _ Hst) as (_ & Ei & [(_ & Si & _) _]). rewrite Ei in Si.
    pose proof (gi_nodes _ _ _ _ _ (proj2 K) g id Hg Si) as E. rewrite Hst in E.
    destruct (ls_view s CFGraphData !! NodeKey g id) as [v|] eqn:Ev; [|done]. injection E as E.
    exists (NodeKey g id, v). split; [|done]. apply elem_of_prefix_scan. split; [done|].
    change (NodeKey g id) with (lp (NodePrefix g) id). rewrite lp_app. by apply prefix_app_r.
Qed.

Lemma edgesOf_ok G P s a g :
  gok G P s a → small g →
  ∃ es, edgesOf g s = Ok es ∧ NoDup es ∧ ∀ n, n ∈ es ↔ ∃ id, ag_edges a !! (g, id) = Some n.
Proof.
  intros K Hg. unfold edgesOf. rewrite (scan_ok G P s a) by (done || apply cf_graph_data). cbn [res_bind]. eexists. split; [done|].
  set (rows := newSliceIterator _ _ _ _).
  assert (∀ k v n, (k, v) ∈ rows → DecodeEdge v = Some n →
    ag_edges a !! (g, ed_EdgeId n) = Some n ∧ k = EdgeKey g (ed_EdgeId n)) as Hrow.
  { intros k v n [Hkv [r Er]]%elem_of_prefix_scan Hd. destruct (gi_keys _ _ _ _ _ (proj2 K) k) as (g' & id & Hg' & Hid & [->| ->]); [eauto| |]; swap 1 2.
    - change (EdgeKey g' id) with (lp (EdgePrefix g') id) in Er. rewrite lp_app in Er. apply lp_inj in Er as [-> _]; [|done..].
      pose proof (gi_edges _ _ _ _ _ (proj2 K) g id Hg Hid) as E. rewrite Hkv in E. cbn in E.
      destruct (ag_edges a !! (g, id)) as [n'|] eqn:En; [|done]. cbn in E. rewrite Hd in E. injection E as ->.
      destruct (gi_eown _ _ _ _ _ (proj2 K) _ _ _ En) as (_ & <- & _). done.
    - apply (f_equal head) in Er. rewrite NodeKey_head in Er. unfold EdgePrefix in Er. rewrite lp_app in Er. done. }
  split.
  - apply NoDup_omap_in; [apply newSliceIterator_NoDup|]. intros [k1 v1] [k2 v2] n H1' H2' E1 E2.
    destruct (Hrow _ _ _ H1' E1) as [_ ->], (Hrow _ _ _ H2' E2) as [_ ->]. f_equal.
    apply elem_of_prefix_scan in H1' as [H1' _], H2' as [H2' _]. congruence.
  - intros n. rewrite list_elem_of_omap. split; [intros ([k v] & Hin & Hd); destruct (Hrow _ _ _ Hin Hd); eauto|].
    intros (id & Hst). destruct (gi_eown _ _ _ _ _ (proj2 K) _ _ _ Hst) as (_ & Ei & [(_ & Si & _) _] & _). rewrite Ei in Si.
    pose proof (gi_edges _ _ _ _ _ (proj2 K) g id Hg Si) as E. rewrite Hst in E.
    destruct (ls_view s CFGraphData !! EdgeKey g id) as [v|] eqn:Ev; [|done]. injection E as E.
    exists (EdgeKey g id, v). split; [|done]. apply elem_of_prefix_scan. split; [done|].
    change (EdgeKey g id) with (lp (EdgePrefix g) id). rewrite lp_app. by apply prefix_app_r.
Qed.

Lemma AllNodes_ok G P s a g :
  gok G P s a → small g →
  ∃ ns, AllNodes g s = Ok ns ∧ NoDup ns ∧ ∀ n, n ∈ ns ↔ ∃ id, liveNode a g id = Some n.
Proof.
  intros K Hg. destruct (nodesOf_ok G P s a g K Hg) as (ns & E & HN & HE). unfold AllNodes. rewrite E. cbn [res_bind].
  eexists. split; [done|]. split; [by apply NoDup_filter|]. intros n. rewrite list_elem_of_filter, HE. split.
  - intros (Ht & id & Hn). exists id. unfold liveNode. rewrite Hn. cbn. by rewrite Ht.
  - intros (id & Hn). destruct (liveNode_stored _ _ _ _ Hn) as [Hst Ht]. eauto.
Qed.

(** ** Adjacency *)

(** The two directions: the prefix and the fields of the key of an edge, and its near end. *)
Definition adjPfx (out : bool) : bytes := if out then pfxOutAdj else pfxInAdj.
Definition near (out : bool) (e : EdgeRecord) : bytes := if out then ed_StartNode e else ed_EndNode e.
Definition adjFields (out : bool) (e : EdgeRecord) : list bytes :=
  [ed_GraphId e; near out e; ed_Type e; near (negb out) e; ed_EdgeId e].

Lemma edgeEntries_adj e k v : (k, v) ∈ edgeEntries e ↔ v = ed_EdgeId e ∧ ∃ out, k = fields (adjPfx out) (adjFields out e).
Proof.
  unfold edgeEntries. split.
  - intros [[-> ->]|[-> ->]]%elem_of_two; (split; [done|]); [by exists true|by exists false].
  - intros [-> [[] ->]].
    + change (fields _ _) with (OutAdjKey (ed_GraphId e) (ed_StartNode e) (ed_Type e) (ed_EndNode e) (ed_EdgeId e)). apply elem_of_cons. by left.
    + change (fields _ _) with (InAdjKey (ed_GraphId e) (ed_EndNode e) (ed_Type e) (ed_StartNode e) (ed_EdgeId e)). apply elem_of_cons. right. apply elem_of_cons. by left.
Qed.

Lemma adjPfx_inj o1 o2 fs1 fs2 r1 r2 : fields (adjPfx o1) fs1 ++ r1 = fields (adjPfx o2) fs2 ++ r2 → o1 = o2.
Proof.
  intros E. apply (f_equal (head ∘ tail)) in E. unfold compose in E.
  destruct o1, o2; [reflexivity| | |reflexivity]; exfalso; cbn [adjPfx] in E; unfold pfxOutAdj, pfxInAdj in E;
    change (lit "ao") with [x61; x6f] in E; change (lit "ai") with [x61; x69] in E;
    rewrite (fields_app [x61; x6f]), (fields_app [x61; x69]) in E; discriminate E.
Qed.

(** The ends and the type of an edge are a function of its graph and id. *)
Definition stable (E : bytes * bytes → bytes * bytes * bytes) (e : EdgeRecord) : Prop :=
  E (ed_GraphId e, ed_EdgeId e) = (ed_StartNode e, ed_Type e, ed_EndNode e).

#[export] Instance stable_dec E e : Decision (stable E e).
Proof. unfold stable. apply _. Defined.
#[export] Instance edgeHolds_dec P `{!∀ e, Decision (P e)} m : Decision (edgeHolds P m).
Proof. unfold edgeHolds. destruct m; apply _. Defined.

Lemma stable_fields E out e1 e2 :
  stable E e1 → stable E e2 → ed_GraphId e1 = ed_GraphId e2 → ed_EdgeId e1 = ed_EdgeId e2 → adjFields out e1 = adjFields out e2.
Proof.
  unfold stable. intros H1' H2' Eg Ei. rewrite Eg, Ei, H2' in H1'. injection H1' as Es Et Ee. unfold adjFields, near.
  rewrite Eg, Ei, Et. destruct out; cbn [negb]; by rewrite Es, Ee.
Qed.

Lemma fields_snoc p fs t : fields p fs ++ lp [] t = fields p (fs ++ [t]).
Proof. unfold fields. rewrite fold_left_app. cbn [fold_left]. by rewrite (lp_app (fold_left _ _ _)). Qed.

Definition adjQuery (out : bool) (g x t : bytes) : bytes := typedPrefix (fields (adjPfx out) [g; x]) t.

(** The prefix of a query covers the key of an edge exactly when the edge answers it. *)
Lemma adjQuery_spec out o g x t e :
  small g → small x → small t → edge_small e →
  adjQuery out g x t `prefix_of` fields (adjPfx o) (adjFields o e) ↔
  o = out ∧ ed_GraphId e = g ∧ near o e = x ∧ (t = [] ∨ ed_Type e = t).
Proof.
  intros Hg Hx Ht (S1 & S2 & S3 & S4 & S5). unfold adjQuery, typedPrefix.
  assert (∀ b, small (near b e)) as Hn by (by intros []).
  assert (∀ b y, fields (adjPfx b) [ed_GraphId e; near b e; ed_Type e; y; ed_EdgeId e] =
    fields (adjPfx b) [ed_GraphId e; near b e; ed_Type e] ++ lp (lp [] y) (ed_EdgeId e)) as E3.
  { intros b y. rewrite (lp_app (lp [] y)), app_assoc, !fields_snoc. done. }
  assert (∀ b, fields (adjPfx b) [ed_GraphId e; near b e; ed_Type e] = fields (adjPfx b) [ed_GraphId e; near b e] ++ lp [] (ed_Type e)) as E2.
  { intros b. by rewrite fields_snoc. }
  unfold adjFields. rewrite E3. case_bool_decide as Et.
  - rewrite E2, <-app_assoc. split.
    + intros [r E]. pose proof (adjPfx_inj _ _ _ _ _ _ E) as ->.
      apply fields_inj in E as [[= -> ->] _]; [by auto|by rewrite !Forall_cons..|done].
    + intros (-> & <- & <- & _). by apply prefix_app_r.
  - rewrite fields_snoc. cbn [app]. split.
    + intros [r E]. pose proof (adjPfx_inj _ _ _ _ _ _ E) as ->.
      apply fields_inj in E as [[= -> -> ->] _]; [by auto|by rewrite !Forall_cons..|done].
    + intros (-> & <- & <- & [?| <-]); [done|]. by apply prefix_app_r.
Qed.

Lemma adjRow G E s a out g x t k v :
  gok G (stable E) s a → small g → small x → small t →
  (k, v) ∈ newSliceIterator (ls_view s CFGraphIndex) (Some (adjQuery out g x t)) (prefixEnd (adjQuery out g x t)) 0 →
  ∃ e, edge_small e ∧ stable E e ∧ v = ed_EdgeId e ∧ k = fields (adjPfx out) (adjFields out e) ∧
       ed_GraphId e = g ∧ near out e = x ∧ (t = [] ∨ ed_Type e = t).
Proof.
  intros [_ I] Hg Hx Ht [Hkv Hp]%elem_of_prefix_scan. apply (gi_entry _ _ _ _ _ I) in Hkv as [_ [[_ Hk]|(e & Se & Pe & Hin)]].
  - destruct Hp as [r ->]. assert (head (adjQuery out g x t ++ r) = Some x61) as E1.
    { unfold adjQuery, typedPrefix. destruct (bool_decide _); [|rewrite fields_snoc, <-app_assoc || rewrite fields_snoc];
        destruct out; [apply (head_fields x61 [x6f])|apply (head_fields x61 [x69])|apply (head_fields x61 [x6f])|apply (head_fields x61 [x69])]. }
    destruct Hk as [Hk|Hk]; rewrite E1 in Hk; done.
  - apply edgeEntries_adj in Hin as (-> & o & ->). apply adjQuery_spec in Hp as (-> & ? & ? & ?); [|done..]. eauto 10.
Qed.

Lemma scanAdj_ok G E s a out g x t :
  gok G (stable E) s a → G g → small g → small x → small t →
  ∃ es, scanAdjacency g (adjQuery out g x t) s = Ok es ∧ NoDup es ∧
    ∀ e, e ∈ es ↔ ∃ id, liveEdge a g id = Some e ∧ near out e = x ∧ (t = [] ∨ ed_Type e = t).
Proof.
  intros K HG Hg Hx Ht. unfold scanAdjacency. rewrite (scan_ok G (stable E) s a) by (done || apply cf_graph_index). cbn [res_bind].
  eexists. split; [done|]. set (rows := newSliceIterator _ _ _ _).
  assert (∀ k v e, (k, v) ∈ rows → found (GetEdge g v s) = Some e →
    liveEdge a g v = Some e ∧ v = ed_EdgeId e ∧ k = fields (adjPfx out) (adjFields out e) ∧ near out e = x ∧ (t = [] ∨ ed_Type e = t)) as Hrow.
  { intros k v e Hin Hf. destruct (adjRow _ _ _ _ _ _ _ _ _ _ K Hg Hx Ht Hin) as (e0 & (_ & Si & _) & P0 & -> & -> & Eg & En & Et).
    rewrite (GetEdge_ok G (stable E) s a) in Hf by done. cbn [found] in Hf. destruct (liveEdge_stored _ _ _ _ Hf) as [Hst Hl].
    destruct (gi_eown _ _ _ _ _ (proj2 K) _ _ _ Hst) as (Eg' & Ei & _ & Pe).
    pose proof (stable_fields E out e e0 (Pe Hl) P0 ltac:(congruence) Ei) as Ef. rewrite Ef, Ei. injection Ef as _ -> -> _ _. auto. }
  split.
  - apply NoDup_omap_in; [apply newSliceIterator_NoDup|]. intros [k1 v1] [k2 v2] e H1' H2' E1 E2. cbn [snd] in E1, E2.
    destruct (Hrow _ _ _ H1' E1) as (_ & -> & -> & _), (Hrow _ _ _ H2' E2) as (_ & -> & -> & _). done.
  - intros e. rewrite list_elem_of_omap. split.
    + intros ([k v] & Hin & Hf). destruct (Hrow _ _ _ Hin Hf) as (Hl & _ & _ & ? & ?). eauto.
    + intros (id & Hl & En & Et). destruct (liveEdge_stored _ _ _ _ Hl) as [Hst Htm].
      destruct (gi_eown _ _ _ _ _ (proj2 K) _ _ _ Hst) as (Eg & Ei & [Se _] & _).
      assert (small id) as Si by (rewrite <-Ei; apply Se).
      exists (fields (adjPfx out) (adjFields out e), id). split; [|cbn [snd]; by rewrite (GetEdge_ok G (stable E) s a), Hl].
      apply elem_of_prefix_scan. split.
      * apply (gi_eidx _ _ _ _ _ (proj2 K) _ _ _ _ _ HG Hst). cbn [entries]. rewrite Htm. apply edgeEntries_adj. eauto.
      * by apply adjQuery_spec.
Qed.

End Store.

End GraphSpec.
