(* ===== verification/GraphExact.v ===== *)
(** * Graph queries are exact

    The answers of the graph store after any sequence of committed batches, and after its
    indexes were rebuilt from the records; and the inputs on which it deviates from its
    documentation. *)

From Stdlib Require Import Floats.SpecFloat.
From S2P Require Import Prelude Bytes Hlc Version Conflict Storage Command Uvarint Float64 Graph GraphSpec.

Local Open Scope Z_scope.
Set Default Proof Using "Type*".

Module GraphExact.
Import Version Conflict Storage Command Uvarint Float64 Graph GraphSpec.

Section Exact.
Context {L : Type} `{LocalStoreSpec L} `{GraphProtoSpec}.

(** ** What an exact store answers on a graph *)

Definition readsExact (s : L) (a : AGraph) (g : bytes) : Prop :=
  (∀ id, small id → GetNode g id s = Ok (liveNode a g id)) ∧
  (∀ id, small id → GetEdge g id s = Ok (liveEdge a g id)) ∧
  ∃ ns, AllNodes g s = Ok ns ∧ NoDup ns ∧ ∀ n, n ∈ ns ↔ ∃ id, liveNode a g id = Some n.

(** Equal are values that [valueEqual] compares as equal; a seek for a zero may leave out the
    nodes whose zero has the other sign. *)
Definition seeksExact (s : L) (a : AGraph) (g : bytes) : Prop :=
  (∀ l, ∃ ids, ScanLabel g l s = Ok ids ∧ NoDup ids ∧
     ∀ id, id ∈ ids ↔ ∃ n, liveNode a g id = Some n ∧ l ∈ nd_Labels n) ∧
  (∀ l p v, zeroDouble v = false → ∃ ids, SeekProperty g l p v s = Ok ids ∧ NoDup ids ∧
     ∀ id, id ∈ ids ↔ ∃ n cur, liveNode a g id = Some n ∧ l ∈ nd_Labels n ∧ nd_Properties n !! p = Some cur ∧ valueEqual cur v = true) ∧
  (∀ l p from, in_i64 from → ∃ ids, SeekPropertyGTE g l p from s = Ok ids ∧ NoDup ids ∧
     ∀ id, id ∈ ids ↔ ∃ n i, liveNode a g id = Some n ∧ l ∈ nd_Labels n ∧ nd_Properties n !! p = Some (VInt i) ∧ from ≤ i) ∧
  (∀ l p v, zeroDouble v = true → ∃ ids, SeekProperty g l p v s = Ok ids ∧ NoDup ids ∧
     (∀ id, id ∈ ids → ∃ n cur, liveNode a g id = Some n ∧ l ∈ nd_Labels n ∧ nd_Properties n !! p = Some cur ∧ valueEqual cur v = true) ∧
     ∀ id n, liveNode a g id = Some n → l ∈ nd_Labels n → nd_Properties n !! p = Some v → id ∈ ids).

Definition adjacencyExact (s : L) (a : AGraph) (g : bytes) : Prop :=
  ∀ x t, small x → small t →
    (∃ es, ScanOutgoing g x t s = Ok es ∧ NoDup es ∧
       ∀ e, e ∈ es ↔ ∃ id, liveEdge a g id = Some e ∧ ed_StartNode e = x ∧ (t = [] ∨ ed_Type e = t)) ∧
    (∃ es, ScanIncoming g x t s = Ok es ∧ NoDup es ∧
       ∀ e, e ∈ es ↔ ∃ id, liveEdge a g id = Some e ∧ ed_EndNode e = x ∧ (t = [] ∨ ed_Type e = t)).

Lemma gok_reads G P s a g : gok G P s a → small g → readsExact s a g.
Proof.
  intros K Hg. split_and!; [intros id Hid; by apply (GetNode_ok G P)|intros id Hid; by apply (GetEdge_ok G P)|by apply (AllNodes_ok G P)].
Qed.
Lemma gok_seeks G P s a g : gok G P s a → G g → small g → seeksExact s a g.
Proof.
  intros K HG Hg. split_and!; intros; [by apply (ScanLabel_ok G P)|by apply (SeekProperty_ok G P)|by apply (SeekPropertyGTE_ok G P)|by apply (SeekProperty_zero G P)].
Qed.
Lemma gok_adjacency G E s a g : gok G (stable E) s a → G g → small g → adjacencyExact s a g.
Proof.
  intros K HG Hg x t Hx Ht. split; [apply (scanAdj_ok G E s a true g x t)|apply (scanAdj_ok G E s a false g x t)]; done.
Qed.

Definition freshGraph (s : L) : Prop := ls_live s ∧ ls_view s CFGraphData = ∅ ∧ ls_view s CFGraphIndex = ∅.

Lemma gok_fresh G P s : freshGraph s → gok G P s emptyGraph.
Proof. intros (Hl & Ed & Ei). split; [done|]. rewrite Ed, Ei. apply ginv_empty. Qed.

(** ** The rebuild *)

Lemma wipe_ops (rows : list StoreKV) (m : gmap bytes bytes) k :
  apply_ops CFGraphIndex (wipeOp <$> rows) m !! k = if bool_decide (k ∈ rows.*1) then None else m !! k.
Proof.
  revert m. induction rows as [|[k' v'] rows IH]; intros m; [done|].
  change (apply_ops CFGraphIndex (wipeOp <$> (k', v') :: rows) m) with (apply_ops CFGraphIndex (wipeOp <$> rows) (delete k' m)).
  rewrite IH. cbn [fmap list_fmap fst]. destruct (decide (k = k')) as [->|Hne].
  - rewrite lookup_delete_eq. rewrite (bool_decide_true (k' ∈ k' :: _)) by left. by destruct (bool_decide _).
  - rewrite lookup_delete_ne by done. rewrite (bool_decide_ext (k ∈ k' :: rows.*1) (k ∈ rows.*1)); [done|]. rewrite elem_of_cons. tauto.
Qed.

Lemma wipe_ops_data (rows : list StoreKV) (m : gmap bytes bytes) :
  apply_ops CFGraphData (wipeOp <$> rows) m = m.
Proof. revert m. induction rows as [|row rows IH]; intros m; [done|]. apply IH. Qed.

Lemma wipeIndex_ok s : ls_live s →
  ∃ s', wipeIndex s = Ok s' ∧ ls_live s' ∧ ls_view s' CFGraphData = ls_view s CFGraphData ∧ ls_view s' CFGraphIndex = ∅.
Proof.
  intros Hl. unfold wipeIndex. rewrite ls_Scan_ok by (done || apply cf_graph_index). cbn [fromStore res_bind].
  set (rows := newSliceIterator _ _ _ _). set (ops := wipeOp <$> rows).
  destruct (ls_Batch_ok s ops Hl) as (s' & -> & Hl' & Hv).
  { apply Forall_fmap, Forall_forall. intros [k v] _. by vm_compute. }
  exists s'. split_and!; [done|done| |].
  - rewrite Hv by apply cf_graph_data. apply wipe_ops_data.
  - rewrite Hv by apply cf_graph_index. apply map_eq. intros k. unfold ops. rewrite wipe_ops, lookup_empty. case_bool_decide as Hk; [done|].
    destruct (ls_view s CFGraphIndex !! k) as [v|] eqn:E; [|done]. exfalso. apply Hk, list_elem_of_fmap. exists (k, v). split; [done|].
    by apply elem_of_newSliceIterator.
Qed.

(** The index a rebuild writes: the entries of the records of the graph, into an empty family. *)
Lemma rebuild_inv G P d i a (ms : list Mutation) g :
  ginv G P d i a →
  (∀ n, PNode n ∈ ms ↔ ∃ id, ag_nodes a !! (g, id) = Some n) →
  (∀ e, PEdge e ∈ ms ↔ ∃ id, ag_edges a !! (g, id) = Some e) →
  ginv (λ x, x = g) P d (puts (ms ≫= entries) ∅) a.
Proof.
  intros I Hn He.
  assert (∀ k v, (k, v) ∈ ms ≫= entries → isEntry P k v) as Hent.
  { intros k v (m & Hin & Hm)%list_elem_of_bind. destruct m as [n|e].
    - apply Hn in Hm as [id Hst]. apply (gi_nown _ _ _ _ _ I) in Hst as (_ & _ & Hok). by apply (entries_isEntry P (PNode n)).
    - apply He in Hm as [id Hst]. apply (gi_eown _ _ _ _ _ I) in Hst as (_ & _ & Hok & HP). by apply (entries_isEntry P (PEdge e)). }
  assert (∀ m k v, m ∈ ms → (k, v) ∈ entries m → puts (ms ≫= entries) ∅ !! k = Some v) as Hput.
  { intros m k v Hm Hin. assert ((k, v) ∈ ms ≫= entries) as Hkv by (apply list_elem_of_bind; eauto).
    apply puts_in; [done|]. intros v' Hv'. apply (isEntry_fun P k); auto. }
  split; try apply I.
  - intros g' id n k v -> Hst Hin. apply (Hput (PNode n)); [apply Hn; eauto|done].
  - intros g' id e k v -> Hst Hin. apply (Hput (PEdge e)); [apply He; eauto|done].
  - intros k v [Hk|Hk]%puts_lookup; [by apply Hent|]. by rewrite lookup_empty in Hk.
Qed.

Lemma rebuild_ops (ns : list NodeRecord) (es : list EdgeRecord) g :
  Forall (λ n, nd_GraphId n = g) ns → Forall (λ e, ed_GraphId e = g) es →
  (ns ≫= λ n, if nd_Tombstone n then [] else nodeIndexOps g n) ++ (es ≫= λ e, if ed_Tombstone e then [] else edgeIndexOps g e) =
  indexPut <$> (((PNode <$> ns) ++ (PEdge <$> es)) ≫= entries).
Proof.
  intros Hn He. rewrite bind_app, fmap_app. f_equal.
  - induction Hn as [|n ns Hg Hn IH]; [done|]. cbn [fmap list_fmap mbind list_bind] in *. rewrite IH, fmap_app. f_equal.
    cbn [entries]. destruct (nd_Tombstone n); [done|]. by rewrite <-Hg, nodeIndexOps_entries.
  - induction He as [|e es Hg He IH]; [done|]. cbn [fmap list_fmap mbind list_bind] in *. rewrite IH, fmap_app. f_equal.
    cbn [entries]. destruct (ed_Tombstone e); [done|]. by rewrite <-Hg.
Qed.

Lemma RebuildIndexes_ok G P s a s1 g :
  gok G P s a → small g → ls_live s1 → ls_view s1 CFGraphData = ls_view s CFGraphData →
  ∃ s2, RebuildIndexes g s1 = Ok s2 ∧ gok (λ x, x = g) P s2 a.
Proof.
  intros [Hl I] Hg Hl1 Hd. unfold RebuildIndexes. destruct (wipeIndex_ok s1 Hl1) as (s2 & -> & Hl2 & Hd2 & Hi2). cbn [res_bind].
  assert (gok (λ _, False) P s2 a) as K.
  { split; [done|]. rewrite Hd2, Hd, Hi2. destruct I. split; try done. }
  destruct (nodesOf_ok _ P s2 a g K Hg) as (ns & -> & _ & Hns). cbn [res_bind].
  destruct (edgesOf_ok _ P s2 a g K Hg) as (es & -> & _ & Hes). cbn [res_bind].
  set (ms := (PNode <$> ns) ++ (PEdge <$> es)). rewrite rebuild_ops; cycle 1.
  { apply Forall_forall. intros n [id Hst]%Hns. by apply (gi_nown _ _ _ _ _ I) in Hst as [-> _]. }
  { apply Forall_forall. intros e [id Hst]%Hes. by apply (gi_eown _ _ _ _ _ I) in Hst as [-> _]. }
  fold ms. unfold Commit. destruct (ls_Batch_ok s2 (indexPut <$> (ms ≫= entries)) Hl2) as (s3 & -> & Hl3 & Hv).
  { apply Forall_fmap, Forall_forall. intros kv _. by vm_compute. }
  exists s3. split; [done|]. split; [done|]. rewrite !Hv by (apply cf_graph_data || apply cf_graph_index).
  rewrite apply_indexPuts, apply_indexPuts_data, Hi2. apply (rebuild_inv _ _ _ _ _ _ _ (proj2 K)).
  - intros n. rewrite <-Hns. unfold ms. rewrite elem_of_app, !list_elem_of_fmap. split; [|eauto].
    intros [(n' & [= ->] & ?)|(e' & [=] & _)]; done.
  - intros e. rewrite <-Hes. unfold ms. rewrite elem_of_app, !list_elem_of_fmap. split; [|eauto].
    intros [(n' & [=] & _)|(e' & [= ->] & ?)]; done.
Qed.

(** ** Properties *)



End Exact.

(** ** A concrete codec *)

Fixpoint indexOf {A} `{EqDecision A} (x : A) (l : list A) : option nat :=
  match l with
  | [] => None
  | y :: l => if decide (x = y) then Some O else S <$> indexOf x l
  end.

Lemma indexOf_lookup {A} `{EqDecision A} (x : A) (l : list A) i : indexOf x l = Some i → l !! i = Some x.
Proof.
  revert i. induction l as [|y l IH]; intros i; [done|]. cbn. case_decide as E; [by intros [= <-]; subst|].
  destruct (indexOf x l) as [j|]; [|done]. intros [= <-]. by apply IH.
Qed.

(** A codec of the first 256 records of a table: a record is encoded by its position. *)
Definition tableEncode {A} `{EqDecision A} (l : list A) (x : A) : option bytes :=
  i ← indexOf x l; if (i <? 256)%nat then Some [Zbyte (Z.of_nat i)] else None.
Definition tableDecode {A} (l : list A) (b : bytes) : option A :=
  match b with [c] => l !! Z.to_nat (byteZ c) | _ => None end.

Lemma tableDecode_encode {A} `{EqDecision A} (l : list A) x b : tableEncode l x = Some b → tableDecode l b = Some x.
Proof.
  unfold tableEncode. destruct (indexOf x l) as [i|] eqn:E; [|done]. cbn [mbind option_bind].
  destruct (Nat.ltb_spec i 256) as [Hlt|]; [|done]. intros [= <-]. unfold tableDecode.
  rewrite byteZ_Zbyte, Z.mod_small, Nat2Z.id by lia. by apply indexOf_lookup.
Qed.

Definition node (g id : bytes) (labels : list bytes) (props : list (bytes * Value)) : NodeRecord :=
  mkNode g id labels (list_to_map props) None false.
Definition edge (g id src typ dst : bytes) : EdgeRecord := mkEdge g id src dst typ ∅ None false.

Definition alice : NodeRecord := node (lit "g") (lit "alice") [lit "Person"] [(lit "age", VInt 33); (lit "name", VString (lit "Alice"))].
Definition bob : NodeRecord := node (lit "g") (lit "bob") [lit "Person"; lit "Admin"] [(lit "age", VInt (-7))].
Definition bobRenamed : NodeRecord := node (lit "g") (lit "bob") [lit "Person"] [(lit "age", VInt 40)].
Definition other : NodeRecord := node (lit "h") (lit "x") [lit "Person"] [(lit "zero", VDouble (S754_zero true)); (lit "raw", VBytes (lit "b"))].
Definition knows : EdgeRecord := edge (lit "g") (lit "e1") (lit "alice") (lit "KNOWS") (lit "bob").
Definition knowsMoved : EdgeRecord := edge (lit "g") (lit "e1") (lit "bob") (lit "KNOWS") (lit "alice").
Definition aliceGone : NodeRecord := mkNode (lit "g") (lit "alice") [] ∅ None true.

(** Records as a node without a clock writes them. *)
Definition stamp : option ProtoVersion := Some (mkProtoVersion 0 0 (lit "c1") (lit "m1") 0).
Definition written (id : bytes) (labels : list bytes) (props : list (bytes * Value)) : NodeRecord :=
  mkNode (lit "g") id labels (list_to_map props) stamp false.
Definition aliceOlder : NodeRecord := written (lit "alice") [lit "Person"] [(lit "age", VInt 34); (lit "name", VString (lit "Alice"))].
Definition bobX : NodeRecord := written (lit "bob") [lit "Person"; lit "Admin"] [(lit "age", VInt (-7)); (lit "x", VInt 1)].
Definition bobY : NodeRecord := written (lit "bob") [lit "Person"; lit "Admin"] [(lit "age", VInt (-7)); (lit "y", VInt 2)].
Definition bobNull : NodeRecord := written (lit "bob") [lit "Person"; lit "Admin"] [(lit "age", VInt (-7)); (lit "x", VNull true)].
Definition bobGone : NodeRecord := mkNode (lit "g") (lit "bob") [] ∅ stamp true.
Definition firstNew : NodeRecord := written (lit "_n1") [] [(lit "name", VString (lit "first"))].
Definition secondNew : NodeRecord := written (lit "_n1") [] [(lit "name", VString (lit "second"))].
Definition orphan : NodeRecord := written (lit "m") [] [(lit "id", VString (lit "m"))].

Definition nodeTable : list NodeRecord :=
  [alice; bob; bobRenamed; other; aliceGone; aliceOlder; bobX; bobY; bobNull; bobGone; firstNew; secondNew; orphan].
Definition edgeTable : list EdgeRecord := [knows; knowsMoved].

#[export] Instance sampleGraphProto : GraphProto := {
  EncodeNode := tableEncode nodeTable;
  DecodeNode := tableDecode nodeTable;
  EncodeEdge := tableEncode edgeTable;
  DecodeEdge := tableDecode edgeTable;
}.
#[export] Instance sampleGraphProtoSpec : GraphProtoSpec.
Proof. split; intros *; apply tableDecode_encode. Qed.

Definition sampleBatches : list (list Mutation) :=
  [[PNode alice; PNode bob; PEdge knows; PNode other]; [PNode bobRenamed]; [PNode aliceGone]].

Definition sampleStore : MemStore := fold_left runBatch sampleBatches NewMemStore.

Lemma fresh_mem : freshGraph NewMemStore.
Proof. split; [exact eq_refl|]. split; vm_compute; exact eq_refl. Qed.

Lemma sample_live : ls_live sampleStore.
Proof. vm_compute. reflexivity. Qed.

Lemma sample_ok : Forall (Forall mut_ok) sampleBatches.
Proof. apply (bool_decide_unpack _). by vm_compute. Qed.

Definition sampleEnds (k : bytes * bytes) : bytes * bytes * bytes := (lit "alice", lit "KNOWS", lit "bob").

Lemma sample_stable : Forall (Forall (edgeHolds (stable sampleEnds))) sampleBatches.
Proof. apply (bool_decide_unpack _). by vm_compute. Qed.



(** ** Deviations *)

(** [RebuildIndexes] wipes the whole index family and rebuilds one graph: the nodes of the
    other graphs are no longer found by label. *)
Theorem rebuild_forgets_other_graphs :
  let after {A} (f : MemStore → res graphErr A) := res_bind (RebuildIndexes (lit "g") sampleStore) f in
  ScanLabel (lit "h") (lit "Person") sampleStore = Ok [lit "x"] ∧
  after (ScanLabel (lit "h") (lit "Person")) = Ok [] ∧ after (GetNode (lit "h") (lit "x")) = Ok (Some other).
Proof. split; [vm_compute; reflexivity|]. split; vm_compute; reflexivity. Qed.

(** An edge written again with other ends is still found at its old start node. *)
Theorem stale_adjacency_returned :
  let s := fold_left runBatch [[PNode alice; PNode bob; PEdge knows]; [PEdge knowsMoved]] NewMemStore in
  ScanOutgoing (lit "g") (lit "alice") [] s = Ok [knowsMoved] ∧ ed_StartNode knowsMoved = lit "bob".
Proof. split; vm_compute; reflexivity. Qed.

(** A seek for 0.0 misses a node whose property is the negative zero it is equal to, and a
    seek for bytes finds nothing. *)
Theorem seek_misses_equal_values :
  valueEqual (VDouble (S754_zero true)) (VDouble (S754_zero false)) = true ∧
  SeekProperty (lit "h") (lit "Person") (lit "zero") (VDouble (S754_zero false)) sampleStore = Ok [] ∧
  SeekProperty (lit "h") (lit "Person") (lit "raw") (VBytes (lit "b")) sampleStore = Ok [].
Proof. split; [vm_compute; reflexivity|]. split; vm_compute; reflexivity. Qed.

End GraphExact.
