(* ===== verification/CypherSyntax.v ===== *)
(** * Cypher: lexer and parser (internal/cypher/parser)

    The tokens, the syntax tree and the hand-written recursive-descent parser of the query
    language. The parser state is the list of the remaining tokens; reading past its end is
    the panic of an index out of range. *)

From Stdlib Require Import Floats.SpecFloat.
From S2P Require Import Prelude Bytes Command Float64.

Local Open Scope Z_scope.

Module CypherSyntax.
Import Command Float64.

(** ** Tokens (lexer.go) *)

Inductive TokenType := TokEOF | TokKeyword | TokIdent | TokInt | TokFloat | TokString | TokParam | TokPunct.

#[export] Instance TokenType_eq_dec : EqDecision TokenType.
Proof. solve_decision. Defined.

Record Token := mkToken { tk_Type : TokenType; tk_Val : bytes; tk_Pos : Z }.

(** The errors, and the two ways the parser could fail to return one: a read past the last
    token, and running out of fuel. *)
Inductive cypherErr :=
  | ErrUnexpectedChar (c : byte) (pos : Z)
  | ErrUnterminated (pos : Z)
  | ErrEmptyQuery
  | ErrExpectedKeyword (kw got : bytes) (pos : Z)
  | ErrExpectedPunct (s got : bytes) (pos : Z)
  | ErrUnsupported (kw : bytes)
  | ErrUnexpectedToken (got : bytes) (pos : Z)
  | ErrSetVariable (got : bytes)
  | ErrSetAssignment
  | ErrSetProperty
  | ErrDeleteVariable (got : bytes)
  | ErrCallName
  | ErrProcedureName
  | ErrProcedureUnsupported (name : bytes)
  | ErrYieldColumn
  | ErrUnwindVariable
  | ErrAlias
  | ErrLabel
  | ErrRelType
  | ErrPropertyKey
  | ErrExprKeyword (got : bytes)
  | ErrPropertyName
  | ErrExprToken (got : bytes) (pos : Z)
  | IndexOutOfRange
  | OutOfFuel.

Definition keywords : list bytes :=
  lit <$> ["MATCH"; "OPTIONAL"; "WHERE"; "CREATE"; "SET"; "DELETE"; "RETURN"; "WITH"; "UNWIND"; "AS"; "ORDER"; "BY";
           "SKIP"; "LIMIT"; "DISTINCT"; "AND"; "OR"; "NOT"; "NULL"; "TRUE"; "FALSE"; "ASC"; "DESC"; "IN"; "CALL"; "YIELD";
           "MERGE"; "REMOVE"; "DETACH"; "LOAD"]%string.

Definition inRange (lo hi : Z) (c : byte) : bool := (lo <=? byteZ c) && (byteZ c <=? hi).

Definition isDigit (c : byte) : bool := inRange 48 57 c.

(** [unicode.IsLetter] and [unicode.IsDigit] of the code point of a single byte. *)
Definition IsLetter (c : byte) : bool :=
  inRange 65 90 c || inRange 97 122 c || (byteZ c =? 170) || (byteZ c =? 181) || (byteZ c =? 186) ||
  inRange 192 214 c || inRange 216 246 c || inRange 248 255 c.

Definition isIdentStart (c : byte) : bool := IsLetter c || bool_decide (c = x5f).
Definition isIdentChar (c : byte) : bool := IsLetter c || isDigit c || bool_decide (c = x5f).

(** [strings.ToUpper] on ASCII. A word with other letters is not changed here: none of those
    the lexer puts together has an upper case in ASCII, so it is not a keyword either way. *)
Definition upperByte (c : byte) : byte := if inRange 97 122 c then Zbyte (byteZ c - 32) else c.
Definition ToUpper (w : bytes) : bytes := upperByte <$> w.

Definition isKeywordWord (w : bytes) : bool := bool_decide (ToUpper w ∈ keywords).

(** The longest prefix of bytes that satisfy [f], and the rest. *)
Fixpoint spanWhile (f : byte → bool) (s : bytes) : bytes * bytes :=
  match s with
  | c :: s' => if f c then let '(a, b) := spanWhile f s' in (c :: a, b) else ([], s)
  | [] => ([], [])
  end.

(** The content of a string after its opening quote, and what follows the closing one. *)
Fixpoint lexString (quote : byte) (s : bytes) : option (bytes * bytes) :=
  match s with
  | [] => None
  | c :: s' =>
      match s' with
      | d :: s'' =>
          if bool_decide (c = x5c) then
            match lexString quote s'' with Some (a, b) => Some (d :: a, b) | None => None end
          else if bool_decide (c = quote) then Some ([], s')
          else match lexString quote s' with Some (a, b) => Some (c :: a, b) | None => None end
      | [] => if bool_decide (c = quote) then Some ([], []) else None
      end
  end.

Definition lexNumber (s : bytes) : TokenType * bytes * bytes :=
  let '(a, b) := spanWhile (λ c, isDigit c || bool_decide (c = x2e)) s in
  (if existsb (λ c, bool_decide (c = x2e)) a then TokFloat else TokInt, a, b).

Definition multiPunct : list bytes := lit <$> ["<>"; "<="; ">="; "->"; "<-"; "=~"]%string.
Definition singlePunct : bytes := lit "()[]{}:,.-><=+*/|".

Definition lexPunct (s : bytes) : option (bytes * bytes) :=
  if bool_decide (take 2 s ∈ multiPunct) then Some (take 2 s, drop 2 s)
  else match s with
       | c :: s' => if bool_decide (c ∈ singlePunct) then Some ([c], s') else None
       | [] => None
       end.

Definition isSpace (c : byte) : bool := bool_decide (c = x20) || bool_decide (c = x09) || bool_decide (c = x0a) || bool_decide (c = x0d).
Definition isQuote (c : byte) : bool := bool_decide (c = x27) || bool_decide (c = x22).

(** The token at the start of the input, if it is not blank, and what follows it. *)
Definition lexOne (c : byte) (s' : bytes) (i : Z) : res cypherErr (option Token * bytes) :=
  let s := c :: s' in
  if isSpace c then Ok (None, s')
  else if isQuote c then
    match lexString c s' with
    | None => Err (ErrUnterminated i)
    | Some (v, rest) => Ok (Some (mkToken TokString v i), rest)
    end
  else if bool_decide (c = x24) then
    let '(v, rest) := spanWhile isIdentChar s' in Ok (Some (mkToken TokParam v i), rest)
  else if isDigit c || (bool_decide (c = x2e) && match s' with d :: _ => isDigit d | [] => false end) then
    let '(ty, v, rest) := lexNumber s in Ok (Some (mkToken ty v i), rest)
  else if isIdentStart c then
    let '(v, rest) := spanWhile isIdentChar s' in
    let word := c :: v in
    Ok (Some (if isKeywordWord word then mkToken TokKeyword (ToUpper word) i else mkToken TokIdent word i), rest)
  else
    match lexPunct s with
    | None => Err (ErrUnexpectedChar c i)
    | Some (op, rest) => Ok (Some (mkToken TokPunct op i), rest)
    end.

(** Every turn of the loop reads at least one byte, so the length of the input is fuel enough. *)
Fixpoint lexLoop (fuel : nat) (s : bytes) (i : Z) : res cypherErr (list Token) :=
  match s with
  | [] => Ok [mkToken TokEOF [] i]
  | c :: s' =>
      match fuel with
      | O => Err OutOfFuel
      | S fuel =>
          do? (t, rest) ← lexOne c s' i ;
          do? ts ← lexLoop fuel rest (i + lenZ s - lenZ rest) ;
          Ok (match t with Some t => t :: ts | None => ts end)
      end
  end.

Definition Lex (input : bytes) : res cypherErr (list Token) := lexLoop (length input) input 0.

(** ** Syntax tree (ast.go) *)

Inductive Direction := DirOut | DirIn | DirBoth.

(** Literals are a constructor each; a map is the list of its entries, one for each key. *)
Inductive Expr :=
  | Variable_ (name : bytes)
  | PropertyAccess (var prop : bytes)
  | LitInt (i : Z)
  | LitFloat (f : float64)
  | LitStr (s : bytes)
  | LitBool (b : bool)
  | LitNull
  | LitList (es : list Expr)
  | LitMap (entries : list (bytes * Expr))
  | Parameter_ (name : bytes)
  | BinaryExpr (op : bytes) (l r : Expr)
  | UnaryExpr (op : bytes) (e : Expr)
  | FunctionCall (name : bytes) (args : list Expr).

Record NodePattern := mkNodePattern { np_Variable : bytes; np_Labels : list bytes; np_Properties : list (bytes * Expr) }.
Record RelPattern := mkRelPattern {
  rp_Variable : bytes; rp_Types : list bytes; rp_Direction : Direction; rp_Properties : list (bytes * Expr);
}.
Record PatternPart := mkPatternPart { pp_Node : NodePattern; pp_Rels : list RelPattern; pp_Nodes : list NodePattern }.
Record SetItem := mkSetItem { si_Variable : bytes; si_Property : bytes; si_Value : Expr }.
Record ReturnItem := mkReturnItem { ri_Expr : Expr; ri_Alias : bytes }.
Record SortItem := mkSortItem { so_Expr : Expr; so_Desc : bool }.

Inductive Clause :=
  | MatchClause (optional : bool) (patterns : list PatternPart) (wh : option Expr)
  | CreateClause (patterns : list PatternPart)
  | SetClause (items : list SetItem)
  | DeleteClause (variables : list bytes) (detach : bool)
  | UnwindClause (e : Expr) (alias : bytes)
  | ReturnClause (distinct : bool) (items : list ReturnItem) (orderBy : list SortItem) (skip limit : option Expr)
  | WithClause (distinct : bool) (items : list ReturnItem) (wh : option Expr) (orderBy : list SortItem) (skip limit : option Expr)
  | CallClause (procedure : bytes) (args : list Expr) (yields : list bytes).

(** ** The parser (parser.go) *)

Definition Parser (A : Type) : Type := list Token → res cypherErr (A * list Token).

Definition peek (ts : list Token) : res cypherErr Token := match ts with t :: _ => Ok t | [] => Err IndexOutOfRange end.
Definition next : Parser Token := λ ts, match ts with t :: ts => Ok (t, ts) | [] => Err IndexOutOfRange end.

Definition isKeyword (kw : bytes) (t : Token) : bool := bool_decide (tk_Type t = TokKeyword) && bool_decide (tk_Val t = kw).
Definition isPunct (s : bytes) (t : Token) : bool := bool_decide (tk_Type t = TokPunct) && bool_decide (tk_Val t = s).
Definition isIdent (t : Token) : bool := bool_decide (tk_Type t = TokIdent).
Definition isName (t : Token) : bool := isIdent t || bool_decide (tk_Type t = TokKeyword).

(** Read the token if it satisfies the test. *)
Definition accept (test : Token → bool) : Parser bool := λ ts,
  do? t ← peek ts ; if test t then Ok (true, tail ts) else Ok (false, ts).
Definition acceptKeyword (kw : bytes) : Parser bool := accept (isKeyword kw).
Definition acceptPunct (s : bytes) : Parser bool := accept (isPunct s).

Definition expectKeyword (kw : bytes) : Parser unit := λ ts,
  do? (ok, ts') ← acceptKeyword kw ts ;
  if ok : bool then Ok ((), ts') else do? t ← peek ts' ; Err (ErrExpectedKeyword kw (tk_Val t) (tk_Pos t)).
Definition expectPunct (s : bytes) : Parser unit := λ ts,
  do? (ok, ts') ← acceptPunct s ts ;
  if ok : bool then Ok ((), ts') else do? t ← peek ts' ; Err (ErrExpectedPunct s (tk_Val t) (tk_Pos t)).

(** The value of the next token, which must satisfy the test. *)
Definition expectTok (test : Token → bool) (err : bytes → cypherErr) : Parser bytes := λ ts,
  do? t ← peek ts ; if test t then Ok (tk_Val t, tail ts) else Err (err (tk_Val t)).

Definition digitsVal (s : bytes) : Z := fold_left (λ a c, 10 * a + (byteZ c - 48)) s 0.

(** [strconv.ParseInt] of decimal digits: the largest int64 when they do not fit. *)
Definition ParseIntLit (s : bytes) : Z := Z.min (digitsVal s) (2 ^ 63 - 1).

(** [strconv.ParseFloat] of digits and points: the nearest double, 0 when there are two points. *)
Definition ParseFloatLit (s : bytes) : float64 :=
  let '(whole, rest) := spanWhile isDigit s in
  let frac := drop 1 rest in
  if forallb isDigit frac then
    match digitsVal (whole ++ frac) with
    | Zpos m => SFdiv prec emax (S754_finite false m 0) (S754_finite false (Z.to_pos (10 ^ lenZ frac)) 0)
    | _ => S754_zero false
    end
  else S754_zero false.

(** [props[key] = v] on the entries of a map. *)
Fixpoint putEntry {A} (k : bytes) (v : A) (l : list (bytes * A)) : list (bytes * A) :=
  match l with
  | [] => [(k, v)]
  | (k', v') :: l => if decide (k' = k) then (k, v) :: l else (k', v') :: putEntry k v l
  end.

Definition compareOps : list bytes := lit <$> ["="; "<>"; "<"; ">"; "<="; ">="]%string.
Definition isCompareOp (t : Token) : bool := bool_decide (tk_Type t = TokPunct) && bool_decide (tk_Val t ∈ compareOps).
Definition isAddOp (t : Token) : bool := isPunct (lit "+") t || isPunct (lit "-") t.
Definition isMulOp (t : Token) : bool := isPunct (lit "*") t || isPunct (lit "/") t.

(** A loop that reads operators of one level: the tree grows to the left. [fuel] bounds the turns. *)
Section Loops.
Context {A : Type}.

Fixpoint binLoop (fuel : nat) (test : Token → bool) (operand : Parser Expr) (lhs : Expr) (ts : list Token)
    : res cypherErr (Expr * list Token) :=
  match fuel with
  | O => Err OutOfFuel
  | S fuel =>
      do? t ← peek ts ;
      if test t then
        do? (rhs, ts) ← operand (tail ts) ;
        binLoop fuel test operand (BinaryExpr (tk_Val t) lhs rhs) ts
      else Ok (lhs, ts)
  end.

(** One or more items separated by commas, added to [acc]. *)
Fixpoint commaLoop {B : Type} (fuel : nat) (item : Parser A) (add : A → B → B) (acc : B) (ts : list Token)
    : res cypherErr (B * list Token) :=
  match fuel with
  | O => Err OutOfFuel
  | S fuel =>
      do? (x, ts) ← item ts ;
      do? (more, ts) ← acceptPunct (lit ",") ts ;
      if more : bool then commaLoop fuel item add (add x acc) ts else Ok (add x acc, ts)
  end.

End Loops.

Definition snoc {A} (x : A) (l : list A) : list A := l ++ [x].
Definition addEntry {A} (kv : bytes * A) (l : list (bytes * A)) : list (bytes * A) := putEntry kv.1 kv.2 l.

(** The loop [for { item; if !accept(",") break }]: no more turns than tokens. *)
Definition commaList {A} (item : Parser A) : Parser (list A) := λ ts, commaLoop (S (length ts)) item snoc [] ts.

(** *** Expressions, by precedence *)

Section Levels.
Context (expr primary notExpr : Parser Expr).

Definition multiplicative : Parser Expr := λ ts,
  do? (lhs, ts) ← primary ts ; binLoop (S (length ts)) isMulOp primary lhs ts.
Definition additive : Parser Expr := λ ts,
  do? (lhs, ts) ← multiplicative ts ; binLoop (S (length ts)) isAddOp multiplicative lhs ts.
Definition comparison : Parser Expr := λ ts,
  do? (lhs, ts) ← additive ts ;
  do? t ← peek ts ;
  if isCompareOp t then
    do? (rhs, ts) ← additive (tail ts) ; Ok (BinaryExpr (tk_Val t) lhs rhs, ts)
  else
    do? (ok, ts) ← acceptKeyword (lit "IN") ts ;
    if ok : bool then do? (rhs, ts) ← additive ts ; Ok (BinaryExpr (lit "IN") lhs rhs, ts)
    else Ok (lhs, ts).
Definition notLevel : Parser Expr := λ ts,
  do? (ok, ts) ← acceptKeyword (lit "NOT") ts ;
  if ok : bool then do? (e, ts) ← notExpr ts ; Ok (UnaryExpr (lit "NOT") e, ts) else comparison ts.
Definition andExpr : Parser Expr := λ ts,
  do? (lhs, ts) ← notLevel ts ; binLoop (S (length ts)) (isKeyword (lit "AND")) notLevel lhs ts.
Definition orExpr : Parser Expr := λ ts,
  do? (lhs, ts) ← andExpr ts ; binLoop (S (length ts)) (isKeyword (lit "OR")) andExpr lhs ts.

Definition entry : Parser (bytes * Expr) := λ ts,
  do? (key, ts) ← expectTok isName (λ _, ErrPropertyKey) ts ;
  do? (_, ts) ← expectPunct (lit ":") ts ;
  do? (v, ts) ← expr ts ; Ok ((key, v), ts).

Definition properties : Parser (list (bytes * Expr)) := λ ts,
  do? (_, ts) ← expectPunct (lit "{") ts ;
  do? (empty, ts) ← acceptPunct (lit "}") ts ;
  if empty : bool then Ok ([], ts)
  else
    do? (props, ts) ← commaLoop (S (length ts)) entry addEntry [] ts ;
    do? (_, ts) ← expectPunct (lit "}") ts ; Ok (props, ts).

Definition callArgs : Parser (list Expr) := λ ts,
  do? (_, ts) ← expectPunct (lit "(") ts ;
  do? t ← peek ts ;
  do? (args, ts) ← (if isPunct (lit ")") t then Ok ([], ts) else commaList expr ts) ;
  do? (_, ts) ← expectPunct (lit ")") ts ; Ok (args, ts).

Definition listLiteral : Parser Expr := λ ts,
  do? (_, ts) ← expectPunct (lit "[") ts ;
  do? (empty, ts) ← acceptPunct (lit "]") ts ;
  if empty : bool then Ok (LitList [], ts)
  else
    do? (es, ts) ← commaList expr ts ;
    do? (_, ts) ← expectPunct (lit "]") ts ; Ok (LitList es, ts).

(** A name: a variable, an access to a property, or the call of a dotted function. *)
Definition identExpr (name : bytes) : Parser Expr := λ ts,
  do? (dot, ts) ← acceptPunct (lit ".") ts ;
  if dot : bool then
    do? (prop, ts) ← expectTok isIdent (λ _, ErrPropertyName) ts ;
    do? t ← peek ts ;
    if isPunct (lit "(") t then
      do? (args, ts) ← callArgs ts ; Ok (FunctionCall (name ++ lit "." ++ prop) args, ts)
    else Ok (PropertyAccess name prop, ts)
  else Ok (Variable_ name, ts).

Definition primaryLevel : Parser Expr := λ ts,
  do? t ← peek ts ;
  let rest := tail ts in
  match tk_Type t with
  | TokInt => Ok (LitInt (ParseIntLit (tk_Val t)), rest)
  | TokFloat => Ok (LitFloat (ParseFloatLit (tk_Val t)), rest)
  | TokString => Ok (LitStr (tk_Val t), rest)
  | TokParam => Ok (Parameter_ (tk_Val t), rest)
  | TokKeyword =>
      if bool_decide (tk_Val t = lit "TRUE") then Ok (LitBool true, rest)
      else if bool_decide (tk_Val t = lit "FALSE") then Ok (LitBool false, rest)
      else if bool_decide (tk_Val t = lit "NULL") then Ok (LitNull, rest)
      else Err (ErrExprKeyword (tk_Val t))
  | TokIdent => identExpr (tk_Val t) rest
  | TokPunct =>
      if bool_decide (tk_Val t = lit "(") then
        do? (e, ts) ← expr rest ; do? (_, ts) ← expectPunct (lit ")") ts ; Ok (e, ts)
      else if bool_decide (tk_Val t = lit "[") then listLiteral ts
      else if bool_decide (tk_Val t = lit "{") then do? (m, ts) ← properties ts ; Ok (LitMap m, ts)
      else if bool_decide (tk_Val t = lit "-") then do? (e, ts) ← primary rest ; Ok (UnaryExpr (lit "-") e, ts)
      else Err (ErrExprToken (tk_Val t) (tk_Pos t))
  | TokEOF => Err (ErrExprToken (tk_Val t) (tk_Pos t))
  end.

End Levels.

(** The recursion through parentheses, signs and NOT: each level reads a token, so the number of
    tokens is fuel enough. *)
Fixpoint primary (fuel : nat) : Parser Expr := λ ts,
  match fuel with
  | O => Err OutOfFuel
  | S fuel => primaryLevel (orExpr (primary fuel) (notExpr fuel)) (primary fuel) ts
  end
with notExpr (fuel : nat) : Parser Expr := λ ts,
  match fuel with
  | O => Err OutOfFuel
  | S fuel => notLevel (primary fuel) (notExpr fuel) ts
  end.

Definition expr : Parser Expr := λ ts,
  let fuel := S (length ts) in orExpr (primary fuel) (notExpr fuel) ts.

(** *** Patterns *)

(** Labels: each after a colon. *)
Fixpoint labelLoop (fuel : nat) (acc : list bytes) (ts : list Token) : res cypherErr (list bytes * list Token) :=
  match fuel with
  | O => Err OutOfFuel
  | S fuel =>
      do? (colon, ts) ← acceptPunct (lit ":") ts ;
      if colon : bool then do? (l, ts) ← expectTok isName (λ _, ErrLabel) ts ; labelLoop fuel (acc ++ [l]) ts
      else Ok (acc, ts)
  end.

(** An optional name, and optional properties. *)
Definition optIdent : Parser bytes := λ ts,
  do? t ← peek ts ; if isIdent t then Ok (tk_Val t, tail ts) else Ok ([], ts).
Definition optProperties : Parser (list (bytes * Expr)) := λ ts,
  do? t ← peek ts ; if isPunct (lit "{") t then properties expr ts else Ok ([], ts).

Definition nodePattern : Parser NodePattern := λ ts,
  do? (_, ts) ← expectPunct (lit "(") ts ;
  do? (var, ts) ← optIdent ts ;
  do? (labels, ts) ← labelLoop (S (length ts)) [] ts ;
  do? (props, ts) ← optProperties ts ;
  do? (_, ts) ← expectPunct (lit ")") ts ;
  Ok (mkNodePattern var labels props, ts).

(** The types of a relationship, separated by bars. *)
Fixpoint typeLoop (fuel : nat) (acc : list bytes) (ts : list Token) : res cypherErr (list bytes * list Token) :=
  match fuel with
  | O => Err OutOfFuel
  | S fuel =>
      do? (t, ts) ← expectTok isName (λ _, ErrRelType) ts ;
      do? (more, ts) ← acceptPunct (lit "|") ts ;
      if more : bool then typeLoop fuel (acc ++ [t]) ts else Ok (acc ++ [t], ts)
  end.

(** The part in brackets, when there is one. *)
Definition relDetail : Parser (bytes * list bytes * list (bytes * Expr)) := λ ts,
  do? (open, ts) ← acceptPunct (lit "[") ts ;
  if open : bool then
    do? (var, ts) ← optIdent ts ;
    do? (colon, ts) ← acceptPunct (lit ":") ts ;
    do? (types, ts) ← (if colon : bool then typeLoop (S (length ts)) [] ts else Ok ([], ts)) ;
    do? (props, ts) ← optProperties ts ;
    do? (_, ts) ← expectPunct (lit "]") ts ;
    Ok ((var, types, props), ts)
  else Ok (([], [], []), ts).

Definition relPattern : Parser RelPattern := λ ts,
  do? (leftArrow, ts) ← acceptPunct (lit "<-") ts ;
  do? (_, ts) ← (if leftArrow : bool then Ok ((), ts) else expectPunct (lit "-") ts) ;
  do? (detail, ts) ← relDetail ts ;
  do? (rightArrow, ts) ← acceptPunct (lit "->") ts ;
  do? (_, ts) ← (if rightArrow : bool then Ok ((), ts) else expectPunct (lit "-") ts) ;
  let '(var, types, props) := detail in
  Ok (mkRelPattern var types
        (match leftArrow, rightArrow with true, false => DirIn | false, true => DirOut | _, _ => DirBoth end) props, ts).

Fixpoint hopLoop (fuel : nat) (rels : list RelPattern) (nodes : list NodePattern) (ts : list Token)
    : res cypherErr ((list RelPattern * list NodePattern) * list Token) :=
  match fuel with
  | O => Err OutOfFuel
  | S fuel =>
      do? t ← peek ts ;
      if isPunct (lit "-") t || isPunct (lit "<-") t then
        do? (rel, ts) ← relPattern ts ;
        do? (nn, ts) ← nodePattern ts ;
        hopLoop fuel (rels ++ [rel]) (nodes ++ [nn]) ts
      else Ok ((rels, nodes), ts)
  end.

Definition patternPart : Parser PatternPart := λ ts,
  do? (n, ts) ← nodePattern ts ;
  do? (hops, ts) ← hopLoop (S (length ts)) [] [] ts ;
  Ok (mkPatternPart n hops.1 hops.2, ts).

Definition patternList : Parser (list PatternPart) := commaList patternPart.

(** *** Clauses *)

(** An expression after a keyword, when the keyword is there. *)
Definition optExpr (kw : bytes) : Parser (option Expr) := λ ts,
  do? (ok, ts) ← acceptKeyword kw ts ;
  if ok : bool then do? (e, ts) ← expr ts ; Ok (Some e, ts) else Ok (None, ts).

Definition matchClause (optional : bool) : Parser Clause := λ ts,
  do? (patterns, ts) ← patternList ts ;
  do? (wh, ts) ← optExpr (lit "WHERE") ts ;
  Ok (MatchClause optional patterns wh, ts).

Definition createClause : Parser Clause := λ ts,
  do? (patterns, ts) ← patternList ts ; Ok (CreateClause patterns, ts).

Definition setItem : Parser SetItem := λ ts,
  do? (v, ts) ← expectTok isIdent ErrSetVariable ts ;
  do? (dot, ts) ← acceptPunct (lit ".") ts ;
  if dot : bool then
    do? (prop, ts) ← expectTok isIdent (λ _, ErrSetProperty) ts ;
    do? (_, ts) ← expectPunct (lit "=") ts ;
    do? (val, ts) ← expr ts ; Ok (mkSetItem v prop val, ts)
  else Err ErrSetAssignment.

Definition setClause : Parser Clause := λ ts, do? (items, ts) ← commaList setItem ts ; Ok (SetClause items, ts).

Definition deleteClause (detach : bool) : Parser Clause := λ ts,
  do? (vars, ts) ← commaList (expectTok isIdent ErrDeleteVariable) ts ; Ok (DeleteClause vars detach, ts).

Fixpoint dottedLoop (fuel : nat) (name : bytes) (ts : list Token) : res cypherErr (bytes * list Token) :=
  match fuel with
  | O => Err OutOfFuel
  | S fuel =>
      do? (dot, ts) ← acceptPunct (lit ".") ts ;
      if dot : bool then
        do? (part, ts) ← expectTok isIdent (λ _, ErrProcedureName) ts ; dottedLoop fuel (name ++ lit "." ++ part) ts
      else Ok (name, ts)
  end.

Definition callClause : Parser Clause := λ ts,
  do? (name, ts) ← expectTok isIdent (λ _, ErrCallName) ts ;
  do? (name, ts) ← dottedLoop (S (length ts)) name ts ;
  if bool_decide (lit "vector." `prefix_of` name) || bool_decide (lit "kv." `prefix_of` name) then
    do? (args, ts) ← callArgs expr ts ;
    do? (yield, ts) ← acceptKeyword (lit "YIELD") ts ;
    do? (yields, ts) ← (if yield : bool then commaList (expectTok isIdent (λ _, ErrYieldColumn)) ts else Ok ([], ts)) ;
    Ok (CallClause name args yields, ts)
  else Err (ErrProcedureUnsupported name).

Definition unwindClause : Parser Clause := λ ts,
  do? (e, ts) ← expr ts ;
  do? (_, ts) ← expectKeyword (lit "AS") ts ;
  do? (alias, ts) ← expectTok isIdent (λ _, ErrUnwindVariable) ts ; Ok (UnwindClause e alias, ts).

Definition returnItem : Parser ReturnItem := λ ts,
  do? (e, ts) ← expr ts ;
  do? (as_, ts) ← acceptKeyword (lit "AS") ts ;
  if as_ : bool then do? (alias, ts) ← expectTok isIdent (λ _, ErrAlias) ts ; Ok (mkReturnItem e alias, ts)
  else Ok (mkReturnItem e [], ts).

Definition sortItem : Parser SortItem := λ ts,
  do? (e, ts) ← expr ts ;
  do? (desc, ts) ← acceptKeyword (lit "DESC") ts ;
  if desc : bool then Ok (mkSortItem e true, ts)
  else do? (_, ts) ← acceptKeyword (lit "ASC") ts ; Ok (mkSortItem e false, ts).

Definition orderSkipLimit : Parser (list SortItem * option Expr * option Expr) := λ ts,
  do? (order, ts) ← acceptKeyword (lit "ORDER") ts ;
  do? (items, ts) ← (if order : bool then do? (_, ts) ← expectKeyword (lit "BY") ts ; commaList sortItem ts else Ok ([], ts)) ;
  do? (skip, ts) ← optExpr (lit "SKIP") ts ;
  do? (limit, ts) ← optExpr (lit "LIMIT") ts ;
  Ok ((items, skip, limit), ts).

Definition returnClause : Parser Clause := λ ts,
  do? (distinct, ts) ← acceptKeyword (lit "DISTINCT") ts ;
  do? (items, ts) ← commaList returnItem ts ;
  do? (osl, ts) ← orderSkipLimit ts ;
  let '(order, skip, limit) := osl in Ok (ReturnClause distinct items order skip limit, ts).

Definition withClause : Parser Clause := λ ts,
  do? (distinct, ts) ← acceptKeyword (lit "DISTINCT") ts ;
  do? (items, ts) ← commaList returnItem ts ;
  do? (osl, ts) ← orderSkipLimit ts ;
  do? (wh, ts) ← optExpr (lit "WHERE") ts ;
  let '(order, skip, limit) := osl in Ok (WithClause distinct items wh order skip limit, ts).

Definition unsupported : list bytes := lit <$> ["MERGE"; "REMOVE"; "DETACH"; "LOAD"]%string.

Definition clause : Parser Clause := λ ts,
  do? t ← peek ts ;
  let rest := tail ts in
  let kw k := isKeyword k t in
  if kw (lit "MATCH") then matchClause false rest
  else if kw (lit "OPTIONAL") then do? (_, ts) ← expectKeyword (lit "MATCH") rest ; matchClause true ts
  else if kw (lit "CREATE") then createClause rest
  else if kw (lit "SET") then setClause rest
  else if kw (lit "DELETE") then deleteClause false rest
  else if kw (lit "RETURN") then returnClause rest
  else if kw (lit "WITH") then withClause rest
  else if kw (lit "UNWIND") then unwindClause rest
  else if kw (lit "CALL") then callClause rest
  else if existsb kw unsupported then Err (ErrUnsupported (tk_Val t))
  else Err (ErrUnexpectedToken (tk_Val t) (tk_Pos t)).

Fixpoint clauseLoop (fuel : nat) (acc : list Clause) (ts : list Token) : res cypherErr (list Clause) :=
  match fuel with
  | O => Err OutOfFuel
  | S fuel =>
      do? t ← peek ts ;
      if bool_decide (tk_Type t = TokEOF) then Ok acc
      else do? (c, ts) ← clause ts ; clauseLoop fuel (acc ++ [c]) ts
  end.

(** A query is the list of its clauses. *)
Definition parseTokens (ts : list Token) : res cypherErr (list Clause) :=
  do? cs ← clauseLoop (S (length ts)) [] ts ;
  match cs with [] => Err ErrEmptyQuery | _ => Ok cs end.

Definition Parse (input : bytes) : res cypherErr (list Clause) := do? ts ← Lex input ; parseTokens ts.

End CypherSyntax.
