(* ===== verification/CypherTotal.v ===== *)
(** * The Cypher parser always answers

    Every input gives a query or a syntax error: the lexer and the parser never read past the
    last token, and their loops end. *)

From S2P Require Import Prelude Bytes Command Float64 CypherSyntax.

Local Open Scope Z_scope.

Module CypherTotal.
Import Command CypherSyntax.

(** ** Results *)

(** A syntax error, neither a panic nor a loop that was cut short. *)
Definition syntaxError (e : cypherErr) : Prop := e ≠ IndexOutOfRange ∧ e ≠ OutOfFuel.

(** The token list ends with the end of the input. *)
Definition ended (ts : list Token) : Prop := ∃ init t, ts = init ++ [t] ∧ tk_Type t = TokEOF.

(** The weakest precondition of a parser: it fails with a syntax error or establishes [Q]. *)
Definition wp {A} (r : res cypherErr (A * list Token)) (Q : A → list Token → Prop) : Prop :=
  match r with Ok (a, ts) => Q a ts | Err e => syntaxError e end.

Lemma parse_bind {A B} (m : res cypherErr (A * list Token)) (k : A * list Token → res cypherErr (B * list Token)) Q :
  wp m (λ a ts, wp (k (a, ts)) Q) → wp (res_bind m k) Q.
Proof. by destruct m as [[a ts]|e]. Qed.

Lemma parse_mono {A} (m : res cypherErr (A * list Token)) (P Q : A → list Token → Prop) :
  wp m P → (∀ a ts, P a ts → Q a ts) → wp m Q.
Proof. destruct m as [[a ts]|e]; cbn; auto. Qed.

(** A parser is [good] up to [n] tokens: on an ended list it leaves an ended list, shorter by
    at least [d]. *)
Definition good {A} (n d : nat) (p : Parser A) : Prop :=
  ∀ ts, ended ts → (length ts ≤ n)%nat → wp (p ts) (λ _ ts', ended ts' ∧ (length ts' + d ≤ length ts)%nat).

Lemma good_weaken {A} (n m d : nat) (p : Parser A) : good n d p → (m ≤ n)%nat → good m d p.
Proof. intros Hp Hm ts He Hl. apply Hp; [done|lia]. Qed.
Lemma good_less {A} (n d d' : nat) (p : Parser A) : good n d p → (d' ≤ d)%nat → good n d' p.
Proof. intros Hp Hd ts He Hl. eapply parse_mono; [by apply Hp|]. intros a ts' [? ?]. split; [done|lia]. Qed.

(** ** Tokens *)

Lemma ended_peek ts : ended ts → ∃ t ts', ts = t :: ts' ∧ peek ts = Ok t.
Proof. intros (init & t & -> & _). destruct init as [|t' init]; cbn; eauto. Qed.

Lemma ended_tail t ts : ended (t :: ts) → tk_Type t ≠ TokEOF → ended ts.
Proof.
  intros (init & e & E & He) Ht. destruct init as [|t' init]; injection E as -> E; [done|]. exists init, e. done.
Qed.

Definition testOk (test : Token → bool) : Prop := ∀ t, test t = true → tk_Type t ≠ TokEOF.

Lemma isKeyword_ok kw : testOk (isKeyword kw).
Proof. intros t [E _]%andb_true_iff. apply bool_decide_eq_true in E. congruence. Qed.
Lemma isPunct_ok s : testOk (isPunct s).
Proof. intros t [E _]%andb_true_iff. apply bool_decide_eq_true in E. congruence. Qed.
Lemma isIdent_ok : testOk isIdent.
Proof. intros t E%bool_decide_eq_true. congruence. Qed.
Lemma isName_ok : testOk isName.
Proof. intros t [E|E%bool_decide_eq_true]%orb_true_iff; [by apply isIdent_ok|congruence]. Qed.
Lemma isCompareOp_ok : testOk isCompareOp.
Proof. intros t [E _]%andb_true_iff. apply bool_decide_eq_true in E. congruence. Qed.
Lemma isAddOp_ok : testOk isAddOp.
Proof. intros t [E|E]%orb_true_iff; by apply isPunct_ok in E. Qed.
Lemma isMulOp_ok : testOk isMulOp.
Proof. intros t [E|E]%orb_true_iff; by apply isPunct_ok in E. Qed.

Create HintDb cypher.
#[export] Hint Resolve isKeyword_ok isPunct_ok isIdent_ok isName_ok isCompareOp_ok isAddOp_ok isMulOp_ok : cypher.

(** Reading the next token: the rule every parser starts with. *)
Lemma wp_peek {B} ts (k : Token → res cypherErr (B * list Token)) Q :
  ended ts → (∀ t ts', ts = t :: ts' → wp (k t) Q) → wp (res_bind (peek ts) k) Q.
Proof. intros He Hk. destruct (ended_peek ts He) as (t & ts' & -> & ->). by eapply Hk. Qed.

Lemma accept_good n test : testOk test → good n 0 (accept test).
Proof.
  intros Ht ts He Hl. unfold accept. apply wp_peek; [done|]. intros t ts' ->. destruct (test t) eqn:E; cbn.
  - split; [|lia]. apply (ended_tail t); [done|by apply Ht].
  - split; [done|lia].
Qed.

(** An accepted token is read. *)
Lemma wp_accept {B} test ts (k : bool * list Token → res cypherErr (B * list Token)) Q :
  testOk test → ended ts →
  (∀ ts', ended ts' → (length ts' + 1 ≤ length ts)%nat → wp (k (true, ts')) Q) → wp (k (false, ts)) Q →
  wp (res_bind (accept test ts) k) Q.
Proof.
  intros Ht He H1 H2. unfold accept. destruct (ended_peek ts He) as (t & ts' & -> & ->). cbn [res_bind].
  destruct (test t) eqn:E; [|done]. apply H1; [|cbn; lia]. apply (ended_tail t); [done|by apply Ht].
Qed.

Lemma expectKeyword_good n kw : good n 1 (expectKeyword kw).
Proof.
  intros ts He Hl. unfold expectKeyword, acceptKeyword. apply wp_accept; [auto with cypher|done| |]; [by cbn|].
  apply wp_peek; [done|]. intros t ts' _. by cbn.
Qed.
Lemma expectPunct_good n s : good n 1 (expectPunct s).
Proof.
  intros ts He Hl. unfold expectPunct, acceptPunct. apply wp_accept; [auto with cypher|done| |]; [by cbn|].
  apply wp_peek; [done|]. intros t ts' _. by cbn.
Qed.

Lemma expectTok_good n test err : testOk test → (∀ b, syntaxError (err b)) → good n 1 (expectTok test err).
Proof.
  intros Ht Herr ts He Hl. unfold expectTok. apply wp_peek; [done|]. intros t ts' ->. destruct (test t) eqn:E; cbn; [|apply Herr].
  split; [|lia]. apply (ended_tail t); [done|by apply Ht].
Qed.

(** Sequencing good parsers. *)
Lemma wp_good {A B} n d (p : Parser A) ts (k : A * list Token → res cypherErr (B * list Token)) Q :
  good n d p → ended ts → (length ts ≤ n)%nat →
  (∀ a ts', ended ts' → (length ts' + d ≤ length ts)%nat → wp (k (a, ts')) Q) → wp (res_bind (p ts) k) Q.
Proof. intros Hp He Hl Hk. apply parse_bind. eapply parse_mono; [by apply Hp|]. intros a ts' [He' Hl']. by apply Hk. Qed.

(** ** Loops *)

Lemma binLoop_good n fuel test operand lhs ts :
  testOk test → good n 1 operand → ended ts → (length ts ≤ n)%nat → (length ts < fuel)%nat →
  wp (binLoop fuel test operand lhs ts) (λ _ ts', ended ts' ∧ (length ts' ≤ length ts)%nat).
Proof.
  intros Ht Hp. revert lhs ts. induction fuel as [|fuel IH]; intros lhs ts He Hl Hf; [lia|]. cbn [binLoop].
  apply wp_peek; [done|]. intros t ts0 ->. cbn [length tail] in *. destruct (test t) eqn:E; cbn [wp].
  - pose proof (ended_tail _ _ He (Ht _ E)) as He0. apply (wp_good n 1); [done|done|lia|]. intros a ts' He' Hl'.
    eapply parse_mono; [apply IH; [done|lia|lia]|]. intros ? ? [? ?]. split; [done|lia].
  - split; [done|cbn; lia].
Qed.

Lemma commaLoop_good {A B} n d fuel (item : Parser A) (add : A → B → B) acc ts :
  good n (S d) item → ended ts → (length ts ≤ n)%nat → (length ts < fuel)%nat →
  wp (commaLoop fuel item add acc ts) (λ _ ts', ended ts' ∧ (length ts' + S d ≤ length ts)%nat).
Proof.
  intros Hp. revert acc ts. induction fuel as [|fuel IH]; intros acc ts He Hl Hf; [lia|]. cbn [commaLoop].
  apply (wp_good n (S d)); [done|done|done|]. intros a ts' He' Hl'. unfold acceptPunct. apply wp_accept; [auto with cypher|done| |].
  - intros ts'' He'' Hl''. eapply parse_mono; [apply IH; [done|lia|lia]|]. intros ? ? [? ?]. split; [done|lia].
  - split; [done|lia].
Qed.

Lemma commaList_good {A} n d (item : Parser A) : good n (S d) item → good n (S d) (commaList item).
Proof. intros Hp ts He Hl. unfold commaList. apply (commaLoop_good n); [done|done|done|lia]. Qed.

#[export] Hint Resolve expectKeyword_good expectPunct_good expectTok_good commaList_good accept_good : cypher.
#[export] Hint Extern 1 (syntaxError _) => (split; discriminate) : cypher.
#[export] Hint Extern 2 (∀ _ : bytes, syntaxError _) => (intros; split; discriminate) : cypher.

Ltac plia := cbn [length] in *; lia.

(** One step of a parser: peek, accept or run a good parser; then the numbers. *)
Ltac pstep :=
  cbv beta iota;
  lazymatch goal with
  | |- wp (res_bind (peek _) _) _ => apply wp_peek; [done|intros ? ? ->; cbn [length tail] in *]
  | |- wp (res_bind (acceptPunct _ _) _) _ => apply wp_accept; [auto with cypher|done|intros ? ? ?|]
  | |- wp (res_bind (acceptKeyword _ _) _) _ => apply wp_accept; [auto with cypher|done|intros ? ? ?|]
  | |- wp (res_bind (res_bind _ _) _) _ => apply parse_bind
  | |- wp (res_bind (Ok _) _) _ => cbn [res_bind]
  | |- wp (res_bind (_ ?ts) _) _ =>
      first [eapply wp_good; [eassumption|done|cbn [length] in *; lia|intros ? ? ? ?]
            |eapply (wp_good (length ts)); [solve [eauto with cypher]|done|done|intros ? ? ? ?]]
  | |- wp (Err _) _ => cbn [wp]; auto with cypher
  | |- wp (Ok _) _ => cbn [wp]; first [done|split; [done|cbn [length] in *; lia]]
  end.

(** ** Expressions *)

Section Levels.
Context (n : nat) (primary notExpr : Parser Expr).
Context (Hprim : good n 1 primary) (Hnot : good (pred n) 1 notExpr).

Lemma multiplicative_good : good n 1 (multiplicative primary).
Proof using Hprim.
  intros ts He Hl. unfold multiplicative. pstep.
  eapply parse_mono; [apply (binLoop_good n); [auto with cypher|done|done|lia|lia]|]. intros ? ? [? ?]. split; [done|lia].
Qed.

Lemma additive_good : good n 1 (additive primary).
Proof using Hprim.
  intros ts He Hl. unfold additive. pose proof multiplicative_good as Hm. pstep.
  eapply parse_mono; [apply (binLoop_good n); [auto with cypher|done|done|lia|lia]|]. intros ? ? [? ?]. split; [done|lia].
Qed.

Lemma comparison_good : good n 1 (comparison primary).
Proof using Hprim.
  intros ts He Hl. unfold comparison. pose proof additive_good as Ha. pstep. pstep. destruct (isCompareOp _) eqn:E.
  - match goal with H : ended (_ :: _) |- _ => pose proof (ended_tail _ _ H (isCompareOp_ok _ E)) end. pstep. pstep.
  - pstep; [pstep; pstep|pstep].
Qed.

Lemma notLevel_good : good n 1 (notLevel primary notExpr).
Proof using Hprim Hnot.
  intros ts He Hl. unfold notLevel. pstep.
  - eapply wp_good; [exact Hnot|done|lia|intros ? ? ? ?]. pstep.
  - by apply comparison_good.
Qed.

Lemma andExpr_good : good n 1 (andExpr primary notExpr).
Proof using Hprim Hnot.
  intros ts He Hl. unfold andExpr. pose proof notLevel_good as Hm. pstep.
  eapply parse_mono; [apply (binLoop_good n); [auto with cypher|done|done|lia|lia]|]. intros ? ? [? ?]. split; [done|lia].
Qed.

Lemma orExpr_good : good n 1 (orExpr primary notExpr).
Proof using Hprim Hnot.
  intros ts He Hl. unfold orExpr. pose proof andExpr_good as Hm. pstep.
  eapply parse_mono; [apply (binLoop_good n); [auto with cypher|done|done|lia|lia]|]. intros ? ? [? ?]. split; [done|lia].
Qed.

End Levels.

Section Primary.
Context (n : nat) (expr primary : Parser Expr).
Context (Hexpr : good n 1 expr) (Hprim : good n 1 primary).

Lemma entry_good : good n 3 (entry expr).
Proof using Hexpr. intros ts He Hl. unfold entry. do 4 pstep. Qed.

Lemma properties_good : good (S n) 2 (properties expr).
Proof using Hexpr.
  intros ts He Hl. unfold properties. pstep. pstep; [pstep|]. apply parse_bind. pose proof entry_good.
  eapply parse_mono; [apply (commaLoop_good n 2); [done|done|lia|lia]|]. intros ? ? [? ?]. pstep. pstep.
Qed.

Lemma callArgs_good : good (S n) 2 (callArgs expr).
Proof using Hexpr.
  intros ts He Hl. unfold callArgs. pstep. pstep. destruct (isPunct _ _); [pstep; pstep; pstep|].
  apply parse_bind. eapply parse_mono; [apply (commaList_good n 0); [done|done|cbn [length] in *; lia]|]. cbn. intros ? ? [? ?]. pstep. pstep.
Qed.

Lemma listLiteral_good : good (S n) 2 (listLiteral expr).
Proof using Hexpr.
  intros ts He Hl. unfold listLiteral. pstep. pstep; [pstep|].
  eapply wp_good; [apply (commaList_good n 0); done|done|lia|intros ? ? ? ?]. pstep. pstep.
Qed.

Lemma identExpr_good name : good n 0 (identExpr expr name).
Proof using Hexpr.
  intros ts He Hl. unfold identExpr. pstep; [|pstep]. pstep. pstep. destruct (isPunct _ _); [|pstep].
  eapply wp_good; [apply callArgs_good|done|cbn [length] in *; lia|intros ? ? ? ?]. pstep.
Qed.

Lemma primaryLevel_good : good (S n) 1 (primaryLevel expr primary).
Proof using Hexpr Hprim.
  intros ts He Hl. unfold primaryLevel. pstep. rename ts' into rest || idtac.
  destruct (tk_Type _) eqn:Et; cbn zeta.
  1: pstep.
  all: match goal with H : ended (_ :: ?l) |- _ => assert (ended l) as Hr by (apply (ended_tail _ _ H); congruence) end.
  - repeat (case_match; [pstep|]). pstep.
  - eapply parse_mono; [apply identExpr_good; [done|lia]|]. intros ? ? [? ?]. split; [done|cbn; lia].
  - pstep.
  - pstep.
  - pstep.
  - pstep.
  - case_match; [pstep; pstep; pstep|]. case_match.
    { eapply parse_mono; [apply listLiteral_good; [done|cbn; lia]|]. cbn. intros ? ? [? ?]. split; [done|lia]. }
    case_match; [|case_match; [pstep; pstep|pstep]].
    eapply wp_good; [apply properties_good|done|cbn; lia|intros ? ? ? ?]. pstep.
Qed.

End Primary.

Lemma primary_good fuel : good fuel 1 (primary fuel) ∧ good (pred fuel) 1 (notExpr fuel).
Proof.
  induction fuel as [|fuel [IHp IHn]].
  - split; intros ts (init & t & -> & _) Hl; rewrite length_app in Hl; cbn in Hl; lia.
  - split.
    + apply (primaryLevel_good fuel); [by apply orExpr_good|done].
    + apply (notLevel_good fuel); done.
Qed.

Lemma expr_good n : good n 1 expr.
Proof.
  intros ts He Hl. unfold expr. destruct (primary_good (S (length ts))) as [Hp Hn].
  apply (orExpr_good (S (length ts)) _ _ Hp Hn); [done|lia].
Qed.

Lemma properties_any n : good n 2 (properties expr).
Proof. apply (good_weaken (S n)); [apply properties_good, expr_good|lia]. Qed.
Lemma callArgs_any n : good n 2 (callArgs expr).
Proof. apply (good_weaken (S n)); [apply callArgs_good, expr_good|lia]. Qed.
#[export] Hint Resolve expr_good properties_any callArgs_any : cypher.

(** ** Patterns *)

(** A loop that reads a token and more in each turn. *)
Ltac loopgo IH := eapply parse_mono; [apply IH; [done|plia]|]; cbn; intros ? ? [? ?]; split; [done|plia].

Lemma labelLoop_good fuel acc ts :
  ended ts → (length ts < fuel)%nat → wp (labelLoop fuel acc ts) (λ _ ts', ended ts' ∧ (length ts' ≤ length ts)%nat).
Proof.
  revert acc ts. induction fuel as [|fuel IH]; intros acc ts He Hf; [plia|]. cbn [labelLoop]. pstep; [pstep; loopgo IH|pstep].
Qed.

Lemma typeLoop_good fuel acc ts :
  ended ts → (length ts < fuel)%nat → wp (typeLoop fuel acc ts) (λ _ ts', ended ts' ∧ (length ts' ≤ length ts)%nat).
Proof.
  revert acc ts. induction fuel as [|fuel IH]; intros acc ts He Hf; [plia|]. cbn [typeLoop]. pstep. pstep; [loopgo IH|pstep].
Qed.

Lemma dottedLoop_good fuel name ts :
  ended ts → (length ts < fuel)%nat → wp (dottedLoop fuel name ts) (λ _ ts', ended ts' ∧ (length ts' ≤ length ts)%nat).
Proof.
  revert name ts. induction fuel as [|fuel IH]; intros name ts He Hf; [plia|]. cbn [dottedLoop]. pstep; [pstep; loopgo IH|pstep].
Qed.

Lemma optIdent_good n : good n 0 optIdent.
Proof.
  intros ts He Hl. unfold optIdent. pstep. destruct (isIdent _) eqn:E; [|pstep].
  pose proof (ended_tail _ _ He (isIdent_ok _ E)). pstep.
Qed.
Lemma optProperties_good n : good n 0 optProperties.
Proof.
  intros ts He Hl. unfold optProperties. pstep. destruct (isPunct _ _) eqn:E; [|pstep].
  eapply parse_mono; [apply (properties_any n); [done|done]|]. intros ? ? [? ?]. split; [done|plia].
Qed.
#[export] Hint Resolve optIdent_good optProperties_good : cypher.

Lemma nodePattern_good n : good n 1 nodePattern.
Proof.
  intros ts He Hl. unfold nodePattern. pstep. pstep. apply parse_bind.
  eapply parse_mono; [apply labelLoop_good; [done|plia]|]. cbn. intros ? ? [? ?]. pstep. pstep. pstep.
Qed.

Lemma relDetail_good n : good n 0 relDetail.
Proof.
  intros ts He Hl. unfold relDetail. pstep; [|pstep]. pstep. pstep.
  - apply parse_bind. eapply parse_mono; [apply typeLoop_good; [done|plia]|]. cbn. intros ? ? [? ?]. pstep. pstep. pstep.
  - pstep. pstep. pstep. pstep.
Qed.
#[export] Hint Resolve nodePattern_good relDetail_good : cypher.

Lemma relPattern_good n : good n 1 relPattern.
Proof.
  intros ts He Hl. unfold relPattern. pstep.
  - pstep. pstep. pstep; pstep; repeat case_match; pstep.
  - pstep. pstep. pstep; pstep; repeat case_match; pstep.
Qed.
#[export] Hint Resolve relPattern_good : cypher.

Lemma hopLoop_good fuel rels nodes ts :
  ended ts → (length ts < fuel)%nat → wp (hopLoop fuel rels nodes ts) (λ _ ts', ended ts' ∧ (length ts' ≤ length ts)%nat).
Proof.
  revert rels nodes ts. induction fuel as [|fuel IH]; intros rels nodes ts He Hf; [plia|]. cbn [hopLoop]. pstep.
  destruct (_ || _); [|pstep]. pstep. pstep. loopgo IH.
Qed.

Lemma patternPart_good n : good n 1 patternPart.
Proof.
  intros ts He Hl. unfold patternPart. pstep. apply parse_bind. eapply parse_mono; [apply hopLoop_good; [done|plia]|]. intros ? ? [? ?]. pstep.
Qed.
#[export] Hint Resolve patternPart_good : cypher.

Lemma patternList_good n : good n 1 patternList.
Proof. apply commaList_good, patternPart_good. Qed.
#[export] Hint Resolve patternList_good : cypher.

(** ** Clauses *)

Lemma optExpr_good n kw : good n 0 (optExpr kw).
Proof. intros ts He Hl. unfold optExpr. pstep; [pstep; pstep|pstep]. Qed.
Lemma setItem_good n : good n 1 setItem.
Proof. intros ts He Hl. unfold setItem. pstep. pstep; [|pstep]. pstep. pstep. pstep. pstep. Qed.
Lemma returnItem_good n : good n 1 returnItem.
Proof. intros ts He Hl. unfold returnItem. pstep. pstep; [pstep; pstep|pstep]. Qed.
Lemma sortItem_good n : good n 1 sortItem.
Proof. intros ts He Hl. unfold sortItem. pstep. pstep; [pstep|]. pstep; pstep. Qed.
#[export] Hint Resolve optExpr_good setItem_good returnItem_good sortItem_good : cypher.

Lemma orderSkipLimit_good n : good n 0 orderSkipLimit.
Proof.
  intros ts He Hl. unfold orderSkipLimit. pstep.
  - pstep. pstep. eapply parse_mono; [apply (commaList_good (length ts) 0); [auto with cypher|done|plia]|]. cbn. intros ? ? [? ?]. pstep. pstep. pstep.
  - pstep. pstep. pstep. pstep.
Qed.
#[export] Hint Resolve orderSkipLimit_good : cypher.

Lemma matchClause_good n o : good n 1 (matchClause o).
Proof. intros ts He Hl. unfold matchClause. pstep. pstep. pstep. Qed.
Lemma createClause_good n : good n 1 createClause.
Proof. intros ts He Hl. unfold createClause. pstep. pstep. Qed.
Lemma setClause_good n : good n 1 setClause.
Proof. intros ts He Hl. unfold setClause. pstep. pstep. Qed.
Lemma deleteClause_good n d : good n 1 (deleteClause d).
Proof. intros ts He Hl. unfold deleteClause. pstep. pstep. Qed.
Lemma unwindClause_good n : good n 1 unwindClause.
Proof. intros ts He Hl. unfold unwindClause. pstep. pstep. pstep. pstep. Qed.
Lemma returnClause_good n : good n 1 returnClause.
Proof. intros ts He Hl. unfold returnClause. pstep; (pstep; pstep; repeat case_match; pstep). Qed.
Lemma withClause_good n : good n 1 withClause.
Proof. intros ts He Hl. unfold withClause. pstep; (pstep; pstep; pstep; repeat case_match; pstep). Qed.
Lemma callClause_good n : good n 1 callClause.
Proof.
  intros ts He Hl. unfold callClause. pstep. apply parse_bind. eapply parse_mono; [apply dottedLoop_good; [done|plia]|]. intros ? ? [? ?].
  destruct (_ || _); [|pstep]. pstep. pstep; [|pstep; pstep]. pstep. pstep.
Qed.

Lemma clause_good n : good n 1 clause.
Proof.
  intros ts He Hl. unfold clause. pstep. cbn zeta.
  repeat match goal with |- wp (if isKeyword ?k ?t then _ else _) _ =>
    destruct (isKeyword k t) eqn:?;
      [match goal with H : isKeyword _ _ = true |- _ => pose proof (ended_tail _ _ He (isKeyword_ok _ _ H)) end|] end.
  all: try (eapply parse_mono; [first [apply (matchClause_good (length ts'))|apply (createClause_good (length ts'))|apply (setClause_good (length ts'))
    |apply (deleteClause_good (length ts'))|apply (returnClause_good (length ts'))|apply (withClause_good (length ts'))
    |apply (unwindClause_good (length ts'))|apply (callClause_good (length ts'))]; done|]; intros ? ? [? ?]; split; [done|plia]).
  - pstep. eapply parse_mono; [apply (matchClause_good (length ts')); [done|plia]|]. intros ? ? [? ?]. split; [done|plia].
  - destruct (existsb _ _); pstep.
Qed.

Lemma clauseLoop_total fuel acc ts :
  ended ts → (length ts < fuel)%nat → match clauseLoop fuel acc ts with Ok _ => True | Err e => syntaxError e end.
Proof.
  revert acc ts. induction fuel as [|fuel IH]; intros acc ts He Hf; [lia|]. cbn [clauseLoop].
  destruct (ended_peek ts He) as (t & ts' & Ets & ->). cbn [res_bind]. case_bool_decide; [done|].
  pose proof (clause_good (length ts) ts He ltac:(lia)) as Hc. destruct (clause ts) as [[c ts0]|e]; [|done].
  destruct Hc as [He0 Hl0]. cbn [res_bind]. apply IH; [done|lia].
Qed.

(** ** The lexer *)

Lemma spanWhile_app f s : (spanWhile f s).1 ++ (spanWhile f s).2 = s.
Proof. induction s as [|c s IH]; [done|]. cbn. destruct (f c); [|done]. destruct (spanWhile f s). cbn in *. by rewrite IH. Qed.
Lemma spanWhile_length f s : (length (spanWhile f s).2 ≤ length s)%nat.
Proof. rewrite <-(spanWhile_app f s) at 2. rewrite length_app. lia. Qed.

Lemma lexString_cons q c d s :
  lexString q (c :: d :: s) =
    if bool_decide (c = x5c) then match lexString q s with Some (a, b) => Some (d :: a, b) | None => None end
    else if bool_decide (c = q) then Some ([], d :: s)
    else match lexString q (d :: s) with Some (a, b) => Some (c :: a, b) | None => None end.
Proof. done. Qed.

Lemma lexString_length q s v rest : lexString q s = Some (v, rest) → (length rest < length s)%nat.
Proof.
  revert v rest. assert (∀ n s v rest, (length s ≤ n)%nat → lexString q s = Some (v, rest) → (length rest < length s)%nat) as Hgen; [|eauto].
  clear s. induction n as [|n IH]; intros s v rest Hl E; [destruct s; cbn in *; [done|lia]|].
  destruct s as [|c [|d s]]; [done| |rewrite lexString_cons in E].
  - cbn [lexString] in E. case_bool_decide; [|done]. injection E as <- <-. cbn. lia.
  - cbn [length] in *. case_bool_decide.
    + destruct (lexString q s) as [[a b]|] eqn:E'; [|done]. injection E as <- <-. apply IH in E'; [|lia]. lia.
    + case_bool_decide; [injection E as <- <-; cbn; lia|].
      destruct (lexString q (d :: s)) as [[a b]|] eqn:E'; [|done]. injection E as <- <-.
      apply IH in E'; cbn [length] in *; lia.
Qed.

(** A turn of the lexer reads at least one byte. *)
Lemma lexOne_reads c s i :
  match lexOne c s i with Ok (_, rest) => (length rest ≤ length s)%nat | Err e => syntaxError e end.
Proof.
  unfold lexOne. cbn zeta. destruct (isSpace c); [lia|]. destruct (isQuote c).
  { destruct (lexString c s) as [[v rest]|] eqn:E; [apply lexString_length in E; lia|by split]. }
  case_bool_decide.
  { pose proof (spanWhile_length isIdentChar s) as Hs. destruct (spanWhile isIdentChar s). exact Hs. }
  destruct (isDigit c || _) eqn:Ed.
  { unfold lexNumber. set (f := λ c : byte, isDigit c || bool_decide (c = x2e)).
    assert (f c = true) as Hf.
    { unfold f. apply orb_true_iff in Ed as [->|[-> _]%andb_true_iff]; [done|apply orb_true_r]. }
    cbn [spanWhile]. rewrite Hf. pose proof (spanWhile_length f s) as Hs. destruct (spanWhile f s). exact Hs. }
  destruct (isIdentStart c).
  { pose proof (spanWhile_length isIdentChar s) as Hs. destruct (spanWhile isIdentChar s). exact Hs. }
  unfold lexPunct. destruct (bool_decide (take 2 (c :: s) ∈ multiPunct)).
  - cbv beta iota. change (drop 2 (c :: s)) with (drop 1 s). rewrite length_drop. lia.
  - destruct (bool_decide (c ∈ singlePunct)); [lia|by split].
Qed.

Lemma lexLoop_total fuel s i :
  (length s ≤ fuel)%nat → match lexLoop fuel s i with Ok ts => ended ts | Err e => syntaxError e end.
Proof.
  revert s i. induction fuel as [|fuel IH]; intros s i Hl; (destruct s as [|c s]; [by exists [], (mkToken TokEOF [] i)|]); [cbn in Hl; lia|].
  cbn [lexLoop]. pose proof (lexOne_reads c s i) as Hr. destruct (lexOne c s i) as [[t rest]|e]; [|done]. cbn [res_bind].
  pose proof (IH rest (i + lenZ (c :: s) - lenZ rest) ltac:(cbn in Hl; lia)) as Ht. destruct (lexLoop fuel rest _) as [ts|e]; [|done].
  cbn [res_bind]. destruct t as [t|]; [|done]. destruct Ht as (init & e & -> & He). by exists (t :: init), e.
Qed.

(** ** Property *)

(** C37: Parsing. On every input the parser returns a query with at least one clause or a syntax
    error: it never reads past the last token and all its loops end. *)
Theorem parse_total (input : bytes) :
  match Parse input with Ok cs => cs ≠ [] | Err e => e ≠ IndexOutOfRange ∧ e ≠ OutOfFuel end.
Proof.
  unfold Parse, Lex. pose proof (lexLoop_total (length input) input 0 ltac:(lia)) as Ht.
  destruct (lexLoop _ _ _) as [ts|e]; [|done]. cbn [res_bind]. unfold parseTokens.
  pose proof (clauseLoop_total (S (length ts)) [] ts Ht ltac:(lia)) as Hc.
  destruct (clauseLoop _ _ _) as [[|c cs]|e]; cbn [res_bind]; done.
Qed.

End CypherTotal.
