(* ===== verification/CypherPrint.v ===== *)
(** * A printer for Cypher, and the round trip

    Queries print as token sequences in which every operator is parenthesised, and token
    sequences print as text. Lexing and parsing the text gives the query back. *)

From S2P Require Import Prelude Bytes Strconv Command Float64 CypherSyntax CypherTotal.

Local Open Scope Z_scope.

Module CypherPrint.
Import Strconv Command Float64 CypherSyntax CypherTotal.

(** ** Tokens without positions *)

Abbreviation Lexeme := (TokenType * bytes)%type.

Definition strip (t : Token) : Lexeme := (tk_Type t, tk_Val t).
Definition kw (s : String.string) : Lexeme := (TokKeyword, lit s).
Definition pu (s : String.string) : Lexeme := (TokPunct, lit s).
Definition eof : Lexeme := (TokEOF, []).

(** ** Well-formed names and numbers *)

Definition identShape (s : bytes) : bool :=
  match s with c :: r => isIdentStart c && forallb isIdentChar r | [] => false end.
Definition identOk (s : bytes) : bool := identShape s && negb (isKeywordWord s).
(** A label, a type or a key may be a keyword, which the lexer puts in upper case. *)
Definition nameOk (s : bytes) : bool := identShape s && (negb (isKeywordWord s) || bool_decide (ToUpper s = s)).
Definition nameLex (s : bytes) : Lexeme := (if isKeywordWord s then TokKeyword else TokIdent, s).

(** Text of digits and a point that starts with a digit. *)
Definition floatShape (s : bytes) : bool :=
  match s with
  | c :: r => isDigit c && forallb (λ c, isDigit c || bool_decide (c = x2e)) r && existsb (λ c, bool_decide (c = x2e)) r
  | [] => false
  end.

(** The first dot of a function name. *)
Definition splitDot (s : bytes) : bytes * bytes :=
  let '(a, b) := spanWhile (λ c, negb (bool_decide (c = x2e))) s in (a, drop 1 b).

Fixpoint splitDots (fuel : nat) (s : bytes) : list bytes :=
  match fuel with
  | O => [s]
  | S fuel =>
      let '(a, b) := spanWhile (λ c, negb (bool_decide (c = x2e))) s in
      match b with [] => [a] | _ :: b => a :: splitDots fuel b end
  end.

(** ** The printer *)

Definition mulOps : list bytes := lit <$> ["*"; "/"]%string.
Definition addOps : list bytes := lit <$> ["+"; "-"]%string.
Definition wordOps : list bytes := lit <$> ["IN"; "AND"; "OR"]%string.
Definition binOps : list bytes := mulOps ++ addOps ++ compareOps ++ wordOps.
Definition opLex (op : bytes) : Lexeme := (if bool_decide (op ∈ wordOps) then TokKeyword else TokPunct, op).

Fixpoint commas (lss : list (list Lexeme)) : list Lexeme :=
  match lss with
  | [] => []
  | [ls] => ls
  | ls :: lss => ls ++ pu "," :: commas lss
  end.

Section Printer.
(** The text of a floating-point literal. *)
Context (floatText : float64 → bytes).

Fixpoint pexpr (e : Expr) : list Lexeme :=
  match e with
  | Variable_ n => [(TokIdent, n)]
  | PropertyAccess v p => [(TokIdent, v); pu "."; (TokIdent, p)]
  | LitInt i => [(TokInt, FormatUint i)]
  | LitFloat f => [(TokFloat, floatText f)]
  | LitStr s => [(TokString, s)]
  | LitBool b => [if b then kw "TRUE" else kw "FALSE"]
  | LitNull => [kw "NULL"]
  | LitList es => pu "[" :: commas (map pexpr es) ++ [pu "]"]
  | LitMap kvs => pu "{" :: commas (map (λ kv, nameLex kv.1 :: pu ":" :: pexpr kv.2) kvs) ++ [pu "}"]
  | Parameter_ n => [(TokParam, n)]
  | BinaryExpr op l r => pu "(" :: pexpr l ++ opLex op :: pexpr r ++ [pu ")"]
  | UnaryExpr op e => if bool_decide (op = lit "-") then pu "-" :: pexpr e else pu "(" :: kw "NOT" :: pexpr e ++ [pu ")"]
  | FunctionCall name args =>
      let '(a, b) := splitDot name in
      [(TokIdent, a); pu "."; (TokIdent, b); pu "("] ++ commas (map pexpr args) ++ [pu ")"]
  end.

(** The expressions the parser builds. *)
Fixpoint wfExpr (e : Expr) : bool :=
  match e with
  | Variable_ n => identOk n
  | PropertyAccess v p => identOk v && identOk p
  | LitInt i => (0 <=? i) && (i <? 2 ^ 63)
  | LitFloat f => floatShape (floatText f) && bool_decide (ParseFloatLit (floatText f) = f)
  | LitStr _ | LitBool _ | LitNull => true
  | LitList es => forallb wfExpr es
  | LitMap kvs => bool_decide (NoDup (map fst kvs)) && forallb (λ kv, nameOk kv.1 && wfExpr kv.2) kvs
  | Parameter_ n => forallb isIdentChar n
  | BinaryExpr op l r => bool_decide (op ∈ binOps) && wfExpr l && wfExpr r
  | UnaryExpr op e => (bool_decide (op = lit "-") || bool_decide (op = lit "NOT")) && wfExpr e
  | FunctionCall name args =>
      let '(a, b) := splitDot name in
      identOk a && identOk b && bool_decide (name = a ++ lit "." ++ b) && forallb wfExpr args
  end.

End Printer.

(** Induction on expressions, with the hypothesis for the members of lists and maps. *)
Lemma Expr_ind_nested (P : Expr → Prop) :
  (∀ n, P (Variable_ n)) → (∀ v p, P (PropertyAccess v p)) → (∀ i, P (LitInt i)) → (∀ f, P (LitFloat f)) →
  (∀ s, P (LitStr s)) → (∀ b, P (LitBool b)) → P LitNull → (∀ es, Forall P es → P (LitList es)) →
  (∀ kvs, Forall (λ kv, P kv.2) kvs → P (LitMap kvs)) → (∀ n, P (Parameter_ n)) →
  (∀ op l r, P l → P r → P (BinaryExpr op l r)) → (∀ op e, P e → P (UnaryExpr op e)) →
  (∀ name args, Forall P args → P (FunctionCall name args)) → ∀ e, P e.
Proof.
  intros H1 H2 H3 H4 H5 H6 H7 H8 H9 H10 H11 H12 H13. fix IH 1. intros [n|v p|i|f|s|b| |es|kvs|n|op l r|op e|name args].
  - apply H1.
  - apply H2.
  - apply H3.
  - apply H4.
  - apply H5.
  - apply H6.
  - apply H7.
  - apply H8. induction es as [|e es IHes]; constructor; [apply IH|apply IHes].
  - apply H9. induction kvs as [|[k e] kvs IHkvs]; constructor; [apply IH|apply IHkvs].
  - apply H10.
  - apply H11; apply IH.
  - apply H12; apply IH.
  - apply H13. induction args as [|e es IHes]; constructor; [apply IH|apply IHes].
Qed.

(** ** Reading printed tokens *)

(** The parser reads the printed tokens of a value when the next token satisfies [ok]. *)
Definition reads {A} (p : Parser A) (ls : list Lexeme) (ok : Lexeme → bool) (x : A) : Prop :=
  ∀ ts t r, strip <$> ts = ls → ok (strip t) = true → p (ts ++ t :: r) = Ok (x, t :: r).

Lemma isPunct_strip s t : isPunct s t = bool_decide (strip t = (TokPunct, s)).
Proof.
  unfold isPunct, strip. destruct t as [ty v pos]. cbn. do 2 case_bool_decide; subst; cbn; symmetry;
    first [by apply bool_decide_eq_true|apply bool_decide_eq_false; congruence].
Qed.
Lemma isKeyword_strip s t : isKeyword s t = bool_decide (strip t = (TokKeyword, s)).
Proof.
  unfold isKeyword, strip. destruct t as [ty v pos]. cbn. do 2 case_bool_decide; subst; cbn; symmetry;
    first [by apply bool_decide_eq_true|apply bool_decide_eq_false; congruence].
Qed.

Lemma acceptPunct_hit s t ts : strip t = (TokPunct, s) → acceptPunct s (t :: ts) = Ok (true, ts).
Proof. intros E. unfold acceptPunct, accept. cbn. by rewrite isPunct_strip, E, bool_decide_true. Qed.
Lemma acceptPunct_miss s t ts : strip t ≠ (TokPunct, s) → acceptPunct s (t :: ts) = Ok (false, t :: ts).
Proof. intros E. unfold acceptPunct, accept. cbn. by rewrite isPunct_strip, bool_decide_false. Qed.
Lemma acceptKeyword_hit s t ts : strip t = (TokKeyword, s) → acceptKeyword s (t :: ts) = Ok (true, ts).
Proof. intros E. unfold acceptKeyword, accept. cbn. by rewrite isKeyword_strip, E, bool_decide_true. Qed.
Lemma acceptKeyword_miss s t ts : strip t ≠ (TokKeyword, s) → acceptKeyword s (t :: ts) = Ok (false, t :: ts).
Proof. intros E. unfold acceptKeyword, accept. cbn. by rewrite isKeyword_strip, bool_decide_false. Qed.
Lemma expectPunct_hit s t ts : strip t = (TokPunct, s) → expectPunct s (t :: ts) = Ok ((), ts).
Proof. intros E. unfold expectPunct. by rewrite acceptPunct_hit. Qed.
Lemma expectKeyword_hit s t ts : strip t = (TokKeyword, s) → expectKeyword s (t :: ts) = Ok ((), ts).
Proof. intros E. unfold expectKeyword. by rewrite acceptKeyword_hit. Qed.
Lemma expectIdent_hit err t ts v : strip t = (TokIdent, v) → expectTok isIdent err (t :: ts) = Ok (v, ts).
Proof. intros [= E1 E2]. unfold expectTok, isIdent. cbn. by rewrite E1, E2. Qed.
Lemma expectName_hit err t ts v : strip t = nameLex v → expectTok isName err (t :: ts) = Ok (v, ts).
Proof. intros [= E1 E2]. unfold expectTok, isName, isIdent. cbn. rewrite E1, E2. by destruct (isKeywordWord v). Qed.

(** ** Precedence *)

Definition lMul (l : Lexeme) : bool := bool_decide (l = pu "*") || bool_decide (l = pu "/").
Definition lAdd (l : Lexeme) : bool := bool_decide (l = pu "+") || bool_decide (l = pu "-").
Definition lCmp (l : Lexeme) : bool := bool_decide (l.1 = TokPunct) && bool_decide (l.2 ∈ compareOps).
Definition lWord (w : String.string) (l : Lexeme) : bool := bool_decide (l = kw w).

Lemma isMulOp_strip t : isMulOp t = lMul (strip t).
Proof. unfold isMulOp. by rewrite !isPunct_strip. Qed.
Lemma isAddOp_strip t : isAddOp t = lAdd (strip t).
Proof. unfold isAddOp. by rewrite !isPunct_strip. Qed.
Lemma isCompareOp_strip t : isCompareOp t = lCmp (strip t).
Proof. done. Qed.

(** What may follow an operand, and what may follow an expression. *)
Definition stopPrim (l : Lexeme) : bool := negb (bool_decide (l = pu ".") || bool_decide (l = pu "(")).
Definition stopExpr (l : Lexeme) : bool :=
  stopPrim l && negb (lMul l || lAdd l || lCmp l || lWord "IN" l || lWord "AND" l || lWord "OR" l).

(** What an operand starts with. *)
Definition startLex (l : Lexeme) : bool :=
  negb (bool_decide (l = kw "NOT") || bool_decide (l = pu ")") || bool_decide (l = pu "]") || bool_decide (l = pu "}")).
Definition starts (ts : list Token) : Prop := ∃ h ts', ts = h :: ts' ∧ startLex (strip h) = true.

Lemma binLoop_stop n test operand lhs t r : test t = false → binLoop (S n) test operand lhs (t :: r) = Ok (lhs, t :: r).
Proof. intros E. cbn. by rewrite E. Qed.

Lemma binLoop_one n test operand lhs rhs o ts t r :
  test o = true → operand ts = Ok (rhs, t :: r) → test t = false →
  binLoop (S (S n)) test operand lhs (o :: ts) = Ok (BinaryExpr (tk_Val o) lhs rhs, t :: r).
Proof. intros E1 E2 E3. cbn. rewrite E1, E2. cbn. by rewrite E3. Qed.

Section Levels.
Context (primary notExpr : Parser Expr).

Lemma mul_stop ts e t r :
  primary ts = Ok (e, t :: r) → lMul (strip t) = false → multiplicative primary ts = Ok (e, t :: r).
Proof. intros E H. unfold multiplicative. rewrite E. cbn [res_bind]. apply binLoop_stop. by rewrite isMulOp_strip. Qed.

Lemma add_stop ts e t r :
  primary ts = Ok (e, t :: r) → lMul (strip t) = false → lAdd (strip t) = false → additive primary ts = Ok (e, t :: r).
Proof.
  intros E H1 H2. unfold additive. rewrite (mul_stop ts e t r) by done. cbn [res_bind]. apply binLoop_stop. by rewrite isAddOp_strip.
Qed.

Lemma lWord_false w t ts : lWord w (strip t) = false → acceptKeyword (lit w) (t :: ts) = Ok (false, t :: ts).
Proof. intros H. apply acceptKeyword_miss. by apply bool_decide_eq_false in H. Qed.

Lemma cmp_of ts e t r :
  additive primary ts = Ok (e, t :: r) → lCmp (strip t) = false → lWord "IN" (strip t) = false →
  comparison primary ts = Ok (e, t :: r).
Proof.
  intros E H1 H2. unfold comparison. rewrite E. cbn [res_bind peek]. rewrite isCompareOp_strip, H1. by rewrite lWord_false.
Qed.

Lemma not_of ts x : starts ts → comparison primary ts = Ok x → notLevel primary notExpr ts = Ok x.
Proof.
  intros (h & ts' & -> & Hh) E. unfold notLevel. rewrite acceptKeyword_miss; [done|].
  intros Eh. rewrite Eh in Hh. vm_compute in Hh. done.
Qed.

Lemma and_of ts e t r :
  notLevel primary notExpr ts = Ok (e, t :: r) → lWord "AND" (strip t) = false → andExpr primary notExpr ts = Ok (e, t :: r).
Proof. intros E H. unfold andExpr. rewrite E. cbn [res_bind]. apply binLoop_stop. by rewrite isKeyword_strip. Qed.

Lemma or_of ts e t r :
  andExpr primary notExpr ts = Ok (e, t :: r) → lWord "OR" (strip t) = false → orExpr primary notExpr ts = Ok (e, t :: r).
Proof. intros E H. unfold orExpr. rewrite E. cbn [res_bind]. apply binLoop_stop. by rewrite isKeyword_strip. Qed.

Lemma stopExpr_all l :
  stopExpr l = true →
  stopPrim l = true ∧ lMul l = false ∧ lAdd l = false ∧ lCmp l = false ∧ lWord "IN" l = false ∧ lWord "AND" l = false ∧ lWord "OR" l = false.
Proof. unfold stopExpr. rewrite andb_true_iff, negb_true_iff, !orb_false_iff. tauto. Qed.

(** An operand that nothing follows is an expression. *)
Lemma expr_of_primary ts e t r :
  primary ts = Ok (e, t :: r) → starts ts → stopExpr (strip t) = true → orExpr primary notExpr ts = Ok (e, t :: r).
Proof.
  intros E Hs (_ & H1 & H2 & H3 & H4 & H5 & H6)%stopExpr_all.
  apply or_of, H6. apply and_of, H5. apply not_of; [done|]. apply cmp_of; [by apply add_stop|done..].
Qed.

(** Two operands and an operator between them. *)
Lemma expr_of_binary op ts l o ts2 e t r :
  op ∈ binOps → strip o = opLex op → starts ts → starts ts2 →
  primary ts = Ok (l, o :: ts2) → primary ts2 = Ok (e, t :: r) → stopExpr (strip t) = true →
  orExpr primary notExpr ts = Ok (BinaryExpr op l e, t :: r).
Proof.
  intros Hop Ho Hs1 Hs2 E1 E2 (_ & H1 & H2 & H3 & H4 & H5 & H6)%stopExpr_all.
  assert (tk_Val o = op) as Hv by (apply (f_equal snd) in Ho; exact Ho).
  unfold binOps in Hop. apply elem_of_app in Hop as [Hop|[Hop|[Hop|Hop]%elem_of_app]%elem_of_app].
  - assert (lMul (opLex op) = true) as Hm.
    { revert Hop. clear. unfold mulOps. intros (x & -> & Hx)%list_elem_of_fmap. repeat (apply elem_of_cons in Hx as [->|Hx]; [by vm_compute|]). by apply elem_of_nil in Hx. }
    assert (multiplicative primary ts = Ok (BinaryExpr op l e, t :: r)) as E.
    { unfold multiplicative. rewrite E1. cbn [res_bind length]. rewrite <-Hv. apply binLoop_one; [by rewrite isMulOp_strip, Ho|done|by rewrite isMulOp_strip]. }
    apply or_of, H6. apply and_of, H5. apply not_of; [done|]. apply cmp_of; [|done..].
    unfold additive. rewrite E. cbn [res_bind]. apply binLoop_stop. by rewrite isAddOp_strip.
  - assert (lMul (opLex op) = false ∧ lAdd (opLex op) = true) as [Hm Ha].
    { revert Hop. clear. unfold addOps. intros (x & -> & Hx)%list_elem_of_fmap. repeat (apply elem_of_cons in Hx as [->|Hx]; [by vm_compute|]). by apply elem_of_nil in Hx. }
    apply or_of, H6. apply and_of, H5. apply not_of; [done|]. apply cmp_of; [|done..].
    unfold additive. rewrite (mul_stop ts l o ts2) by (done || by rewrite Ho). cbn [res_bind length]. rewrite <-Hv.
    apply binLoop_one; [by rewrite isAddOp_strip, Ho|by apply mul_stop|by rewrite isAddOp_strip].
  - assert (lMul (opLex op) = false ∧ lAdd (opLex op) = false ∧ lCmp (opLex op) = true) as (Hm & Ha & Hc).
    { revert Hop. clear. unfold compareOps. intros (x & -> & Hx)%list_elem_of_fmap. repeat (apply elem_of_cons in Hx as [->|Hx]; [by vm_compute|]). by apply elem_of_nil in Hx. }
    apply or_of, H6. apply and_of, H5. apply not_of; [done|]. unfold comparison.
    rewrite (add_stop ts l o ts2) by (done || by rewrite Ho). cbn [res_bind peek tail]. rewrite isCompareOp_strip, Ho, Hc.
    rewrite (add_stop ts2 e t r) by done. cbn [res_bind]. by rewrite Hv.
  - unfold wordOps in Hop. apply list_elem_of_fmap in Hop as (x & -> & Hx).
    apply elem_of_cons in Hx as [->|Hx]; [|apply elem_of_cons in Hx as [->|Hx]; [|apply elem_of_cons in Hx as [->|[]%elem_of_nil]]];
      change (opLex _) with (kw "IN") in Ho || change (opLex _) with (kw "AND") in Ho || change (opLex _) with (kw "OR") in Ho.
    + apply or_of, H6. apply and_of, H5. apply not_of; [done|]. unfold comparison.
      rewrite (add_stop ts l o ts2) by (done || by rewrite Ho). cbn [res_bind peek]. rewrite isCompareOp_strip, Ho. cbn [lCmp].
      rewrite acceptKeyword_hit by done. cbn [res_bind]. by rewrite (add_stop ts2 e t r).
    + apply or_of, H6. unfold andExpr. rewrite (not_of ts (l, o :: ts2)); [|done|apply cmp_of; [apply add_stop; by rewrite ?Ho|by rewrite Ho..]].
      cbn [res_bind length]. rewrite <-Hv at 2. apply binLoop_one; [by rewrite isKeyword_strip, Ho|apply not_of; [done|apply cmp_of; [by apply add_stop|done..]]|by rewrite isKeyword_strip].
    + unfold orExpr. rewrite (and_of ts l o ts2); [|apply not_of; [done|apply cmp_of; [apply add_stop; by rewrite ?Ho|by rewrite Ho..]]|by rewrite Ho].
      cbn [res_bind length]. rewrite <-Hv at 2. apply binLoop_one; [by rewrite isKeyword_strip, Ho| |by rewrite isKeyword_strip].
      apply and_of; [|done]. apply not_of; [done|apply cmp_of; [by apply add_stop|done..]].
Qed.

End Levels.

(** ** Lists *)

(** Reading printed tokens when at most [n] are left. *)
Definition readsN {A} (n : nat) (p : Parser A) (ls : list Lexeme) (ok : Lexeme → bool) (x : A) : Prop :=
  ∀ ts t r, strip <$> ts = ls → ok (strip t) = true → (length (ts ++ t :: r) ≤ n)%nat → p (ts ++ t :: r) = Ok (x, t :: r).

Lemma commaLoop_reads {A B} n (item : Parser A) (add : A → B → B) (ok : Lexeme → bool) (pr : A → list Lexeme) xs :
  xs ≠ [] → ok (pu ",") = true → Forall (λ x, readsN n item (pr x) ok x) xs →
  ∀ fuel acc ts t r,
    strip <$> ts = commas (map pr xs) → ok (strip t) = true → strip t ≠ pu "," →
    (length (ts ++ t :: r) ≤ n)%nat → (length xs ≤ fuel)%nat →
    commaLoop fuel item add acc (ts ++ t :: r) = Ok (fold_left (λ b x, add x b) xs acc, t :: r).
Proof.
  intros Hne Hc Hxs. induction Hxs as [|x xs Hx Hxs IH]; [done|]. intros fuel acc ts t r Hts Ht Hnc Hl Hf.
  destruct fuel as [|fuel]; [cbn in Hf; lia|]. cbn [commaLoop]. destruct xs as [|y xs].
  - cbn [map commas] in Hts. rewrite (Hx ts t r) by done. cbn [res_bind]. by rewrite acceptPunct_miss.
  - change (commas (map pr (x :: y :: xs))) with (pr x ++ pu "," :: commas (map pr (y :: xs))) in Hts.
    apply fmap_app_inv in Hts as (ts1 & ts2 & E1 & E2 & ->). symmetry in E2. apply fmap_cons_inv in E2 as (o & ts3 & Eo & E3 & ->).
    rewrite <-app_assoc in *. cbn [app] in *. rewrite (Hx ts1 o (ts3 ++ t :: r)); [|done|by rewrite <-Eo|done]. cbn [res_bind].
    rewrite acceptPunct_hit by done. cbn [res_bind]. rewrite IH; [done|done|done|done|done| |cbn in *; lia].
    rewrite !length_app in *. cbn in *. rewrite length_app in *. cbn in *. lia.
Qed.

Lemma commas_cons (ls : list Lexeme) lss : ∃ ls', commas (ls :: lss) = ls ++ ls'.
Proof. destruct lss as [|l lss]; [exists []; by rewrite app_nil_r|]. by eexists. Qed.

Lemma fold_snoc {A} (xs acc : list A) : fold_left (λ b x, snoc x b) xs acc = acc ++ xs.
Proof.
  revert acc. induction xs as [|x xs IH]; intros acc; [by rewrite app_nil_r|]. cbn. rewrite IH. unfold snoc. by rewrite <-app_assoc.
Qed.

Lemma putEntry_new {A} k (v : A) l : k ∉ map fst l → putEntry k v l = l ++ [(k, v)].
Proof.
  induction l as [|[k' v'] l IH]; intros Hk; [done|]. cbn in *. apply not_elem_of_cons in Hk as [Hne Hk].
  rewrite decide_False by done. by rewrite IH.
Qed.

Lemma fold_addEntry {A} (kvs acc : list (bytes * A)) :
  NoDup (map fst (acc ++ kvs)) → fold_left (λ b x, addEntry x b) kvs acc = acc ++ kvs.
Proof.
  revert acc. induction kvs as [|[k v] kvs IH]; intros acc Hn; [by rewrite app_nil_r|]. cbn [fold_left]. unfold addEntry at 2. cbn [fst snd].
  rewrite putEntry_new.
  - rewrite IH; [by rewrite <-app_assoc|]. by rewrite <-app_assoc.
  - rewrite map_app in Hn. cbn in Hn. apply NoDup_app in Hn as (_ & Hd & _). intros Hk. apply (Hd k Hk). left.
Qed.

Lemma starts_head ls ts rest : strip <$> ts = ls → match ls with h :: _ => startLex h | [] => false end = true → starts (ts ++ rest).
Proof. intros <-. destruct ts as [|h ts]; [done|]. intros Hh. by exists h, (ts ++ rest). Qed.

Section Reading.
Context (floatText : float64 → bytes).

Lemma startLex_type ty v : ty ≠ TokKeyword → ty ≠ TokPunct → startLex (ty, v) = true.
Proof. intros H1 H2. unfold startLex, kw, pu. rewrite !bool_decide_false by congruence. done. Qed.

Lemma pexpr_head e : match pexpr floatText e with h :: _ => startLex h | [] => false end = true.
Proof.
  destruct e as [n|v p|i|f|s|b| |es|kvs|n|op l r|op e|name args]; cbn [pexpr]; try (by apply startLex_type).
  - by destruct b.
  - done.
  - done.
  - done.
  - done.
  - by destruct (bool_decide _).
  - destruct (splitDot name). by apply startLex_type.
Qed.

(** An expression inside brackets, given that its operands are read. *)
Lemma inner_reads f e :
  (∀ ts t r, strip <$> ts = pexpr floatText e → stopPrim (strip t) = true → (length (ts ++ t :: r) ≤ f)%nat →
     primary f (ts ++ t :: r) = Ok (e, t :: r)) →
  readsN f (orExpr (primary f) (notExpr f)) (pexpr floatText e) stopExpr e.
Proof.
  intros Hp ts t r Hts Ht Hl. apply expr_of_primary; [|by eapply starts_head; [done|apply pexpr_head]|done].
  apply Hp; [done|by apply stopExpr_all in Ht as [? _]|done].
Qed.

Definition primaryReads (e : Expr) : Prop :=
  ∀ f ts t r, strip <$> ts = pexpr floatText e → stopPrim (strip t) = true → (length (ts ++ t :: r) ≤ f)%nat →
    primary f (ts ++ t :: r) = Ok (e, t :: r).

Lemma args_reads f es ts t r :
  es ≠ [] → Forall primaryReads es → strip <$> ts = commas (map (pexpr floatText) es) →
  stopExpr (strip t) = true → strip t ≠ pu "," → (length (ts ++ t :: r) ≤ f)%nat →
  commaList (orExpr (primary f) (notExpr f)) (ts ++ t :: r) = Ok (es, t :: r).
Proof.
  intros Hne Hes Hts Ht Hnc Hl. unfold commaList.
  rewrite (commaLoop_reads f _ snoc stopExpr (pexpr floatText) es); [by rewrite fold_snoc|done|done| |done|done|done|done|].
  - eapply Forall_impl; [done|]. intros e He. apply inner_reads. intros ???. apply He.
  - assert (length es ≤ length ts)%nat; [|rewrite length_app in *; cbn in *; lia].
    rewrite <-(length_fmap strip ts), Hts. clear. induction es as [|e [|e' es] IH]; [done| |].
    + cbn. pose proof (pexpr_head e). destruct (pexpr floatText e); [done|cbn; lia].
    + change (commas (map (pexpr floatText) (e :: e' :: es))) with (pexpr floatText e ++ pu "," :: commas (map (pexpr floatText) (e' :: es))).
      rewrite length_app. cbn [length] in *. lia.
Qed.

(** Take the tokens that print as a concrete list apart. *)
Ltac tokens H :=
  lazymatch type of H with
  | strip <$> ?ts = [] => apply fmap_nil_inv in H as ->
  | strip <$> ?ts = _ :: _ =>
      let t := fresh "t" in let ts' := fresh "ts" in let E := fresh "E" in let H' := fresh "H" in
      apply fmap_cons_inv in H as (t & ts' & E & H' & ->); symmetry in E, H'; tokens H'
  | strip <$> ?ts = _ ++ _ =>
      let a := fresh "ts" in let b := fresh "ts" in let Ea := fresh "H" in let Eb := fresh "H" in
      apply fmap_app_inv in H as (a & b & Ea & Eb & ->); symmetry in Ea, Eb; tokens Eb
  | _ => idtac
  end.

Lemma digitsVal_parse acc s n : parse_digits acc s = Some n → fold_left (λ a c, 10 * a + (byteZ c - 48)) s acc = n.
Proof.
  revert acc. induction s as [|c s IH]; intros acc E; [by injection E|]. cbn in *. unfold digit_val in E.
  destruct (_ && _); [|done]. rewrite <-(IH _ E). f_equal. lia.
Qed.

Lemma ParseIntLit_Format i : 0 ≤ i < 2 ^ 63 → ParseIntLit (FormatUint i) = i.
Proof.
  intros Hi. assert (ParseUint (FormatUint i) = Some i) as E by (apply ParseUint_FormatUint; zlia).
  unfold ParseUint in E. destruct (FormatUint i) as [|c s] eqn:Ef; [done|].
  destruct (parse_digits 0 (c :: s)) as [n|] eqn:En; [|done]. destruct (n <? 2 ^ 64); [|done]. injection E as ->.
  apply digitsVal_parse in En. unfold ParseIntLit, digitsVal. rewrite En. lia.
Qed.

Lemma primaryLevel_tok (ex pr : Parser Expr) t ts :
  primaryLevel ex pr (t :: ts) =
  match tk_Type t with
  | TokInt => Ok (LitInt (ParseIntLit (tk_Val t)), ts)
  | TokFloat => Ok (LitFloat (ParseFloatLit (tk_Val t)), ts)
  | TokString => Ok (LitStr (tk_Val t), ts)
  | TokParam => Ok (Parameter_ (tk_Val t), ts)
  | TokIdent => identExpr ex (tk_Val t) ts
  | _ => primaryLevel ex pr (t :: ts)
  end.
Proof. unfold primaryLevel. cbn [res_bind peek tail]. by destruct (tk_Type t). Qed.

Lemma primaryLevel_punct (ex pr : Parser Expr) t ts s :
  strip t = (TokPunct, s) →
  primaryLevel ex pr (t :: ts) =
  if bool_decide (s = lit "(") then do? (e, ts) ← ex ts ; do? (_, ts) ← expectPunct (lit ")") ts ; Ok (e, ts)
  else if bool_decide (s = lit "[") then listLiteral ex (t :: ts)
  else if bool_decide (s = lit "{") then do? (m, ts) ← properties ex (t :: ts) ; Ok (LitMap m, ts)
  else if bool_decide (s = lit "-") then do? (e, ts) ← pr ts ; Ok (UnaryExpr (lit "-") e, ts)
  else Err (ErrExprToken s (tk_Pos t)).
Proof. intros [= E1 <-]. unfold primaryLevel. cbn [res_bind peek tail]. by rewrite E1. Qed.

Lemma stopPrim_all l : stopPrim l = true → l ≠ pu "." ∧ l ≠ pu "(".
Proof. unfold stopPrim. rewrite negb_true_iff, orb_false_iff, !bool_decide_eq_false. done. Qed.

Lemma ident_reads ex v ts t r : stopPrim (strip t) = true → ts = t :: r → identExpr ex v ts = Ok (Variable_ v, t :: r).
Proof. intros [H1 H2]%stopPrim_all ->. unfold identExpr. by rewrite acceptPunct_miss. Qed.

Lemma prop_reads ex v p d i t r :
  strip d = pu "." → strip i = (TokIdent, p) → stopPrim (strip t) = true →
  identExpr ex v (d :: i :: t :: r) = Ok (PropertyAccess v p, t :: r).
Proof.
  intros Hd Hi [H1 H2]%stopPrim_all. unfold identExpr. rewrite acceptPunct_hit by done. cbn [res_bind].
  rewrite (expectIdent_hit _ i _ p) by done. cbn [res_bind peek]. by rewrite isPunct_strip, bool_decide_false.
Qed.

Lemma starts_miss s t : startLex (strip t) = true → s = ")"%string ∨ s = "]"%string ∨ s = "}"%string → strip t ≠ pu s.
Proof. intros H1 H2 E. rewrite E in H1. destruct H2 as [->|[->| ->]]; by vm_compute in H1. Qed.

Lemma commas_starts es ts rest :
  es ≠ [] → strip <$> ts = commas (map (pexpr floatText) es) → ∃ h ts', ts ++ rest = h :: ts' ∧ startLex (strip h) = true.
Proof.
  intros Hne Hts. destruct es as [|e es]; [done|]. cbn [map] in Hts. destruct (commas_cons (pexpr floatText e) (map (pexpr floatText) es)) as [ls' E].
  rewrite E in Hts. pose proof (pexpr_head e) as Hh. destruct (pexpr floatText e) as [|h ls]; [done|].
  apply fmap_cons_inv in Hts as (t & ts' & Et & _ & ->). exists t, (ts' ++ rest). by rewrite <-Et.
Qed.

Lemma list_reads f es o ts c t r :
  Forall primaryReads es → strip o = pu "[" → strip c = pu "]" → strip <$> ts = commas (map (pexpr floatText) es) →
  (length (ts ++ c :: t :: r) ≤ f)%nat →
  listLiteral (orExpr (primary f) (notExpr f)) (o :: ts ++ c :: t :: r) = Ok (LitList es, t :: r).
Proof.
  intros Hes Ho Hc Hts Hl. unfold listLiteral. rewrite expectPunct_hit by done. cbn [res_bind]. destruct (decide (es = [])) as [->|Hne].
  - apply fmap_nil_inv in Hts as ->. cbn [app]. by rewrite acceptPunct_hit.
  - destruct (commas_starts es ts (c :: t :: r) Hne Hts) as (h & ts' & E & Hh). rewrite E, acceptPunct_miss by (eapply (starts_miss "]"); eauto).
    cbn [res_bind]. rewrite <-E, (args_reads f es ts c (t :: r)); [|done|done|done|by rewrite Hc|by rewrite Hc|done].
    cbn [res_bind]. by rewrite expectPunct_hit.
Qed.

Lemma callArgs_reads f es o ts c t r :
  Forall primaryReads es → strip o = pu "(" → strip c = pu ")" → strip <$> ts = commas (map (pexpr floatText) es) →
  (length (ts ++ c :: t :: r) ≤ f)%nat →
  callArgs (orExpr (primary f) (notExpr f)) (o :: ts ++ c :: t :: r) = Ok (es, t :: r).
Proof.
  intros Hes Ho Hc Hts Hl. unfold callArgs. rewrite expectPunct_hit by done. cbn [res_bind]. destruct (decide (es = [])) as [->|Hne].
  - apply fmap_nil_inv in Hts as ->. cbn [app peek res_bind]. rewrite isPunct_strip, bool_decide_true by done.
    cbn [res_bind]. by rewrite expectPunct_hit.
  - destruct (commas_starts es ts (c :: t :: r) Hne Hts) as (h & ts' & E & Hh). rewrite E. cbn [peek res_bind].
    rewrite isPunct_strip, bool_decide_false by (eapply (starts_miss ")"); eauto). rewrite <-E.
    rewrite (args_reads f es ts c (t :: r)); [|done|done|done|by rewrite Hc|by rewrite Hc|done]. cbn [res_bind]. by rewrite expectPunct_hit.
Qed.

Definition pentry (kv : bytes * Expr) : list Lexeme := nameLex kv.1 :: pu ":" :: pexpr floatText kv.2.

Lemma entry_reads f kv : primaryReads kv.2 → readsN f (entry (orExpr (primary f) (notExpr f))) (pentry kv) stopExpr kv.
Proof.
  intros He ts t r Hts Ht Hl. destruct kv as [k v]. unfold pentry in Hts. cbn [fst snd] in *.
  apply fmap_cons_inv in Hts as (tk & ts1 & Ek & Hts & ->). symmetry in Ek, Hts.
  apply fmap_cons_inv in Hts as (tc & ts2 & Ec & Hts & ->). symmetry in Ec, Hts. cbn [app] in *.
  unfold entry. rewrite (expectName_hit _ tk _ k) by done. cbn [res_bind]. rewrite expectPunct_hit by done. cbn [res_bind].
  rewrite (inner_reads f v); [done| |done|done|cbn in *; lia]. intros ???. apply He.
Qed.

Lemma props_reads f kvs o ts c t r :
  Forall (λ kv, primaryReads kv.2) kvs → NoDup (map fst kvs) → strip o = pu "{" → strip c = pu "}" →
  strip <$> ts = commas (map pentry kvs) → (length (ts ++ c :: t :: r) ≤ f)%nat →
  properties (orExpr (primary f) (notExpr f)) (o :: ts ++ c :: t :: r) = Ok (kvs, t :: r).
Proof.
  intros Hes Hn Ho Hc Hts Hl. unfold properties. rewrite expectPunct_hit by done. cbn [res_bind]. destruct (decide (kvs = [])) as [->|Hne].
  - apply fmap_nil_inv in Hts as ->. cbn [app]. by rewrite acceptPunct_hit.
  - assert (∃ h ts', ts ++ c :: t :: r = h :: ts' ∧ strip h ≠ pu "}") as (h & ts' & E & Hh).
    { destruct kvs as [|kv kvs]; [done|]. cbn [map] in Hts. destruct (commas_cons (pentry kv) (map pentry kvs)) as [ls' E'].
      rewrite E' in Hts. apply fmap_cons_inv in Hts as (h & ts' & Et & _ & ->). eexists h, _. split; [done|]. rewrite <-Et.
      unfold nameLex. by destruct (isKeywordWord _). }
    rewrite E, acceptPunct_miss by done. cbn [res_bind]. rewrite <-E.
    rewrite (commaLoop_reads f _ addEntry stopExpr pentry kvs); [|done|done| |done|by rewrite Hc|by rewrite Hc|done|].
    + cbn [res_bind]. rewrite (fold_addEntry kvs []) by done. by rewrite expectPunct_hit.
    + eapply Forall_impl; [done|]. intros kv. apply entry_reads.
    + assert (length kvs ≤ length ts)%nat; [|rewrite length_app; cbn; lia].
      rewrite <-(length_fmap strip ts), Hts. clear. induction kvs as [|kv [|kv' kvs] IH]; [done|cbn; lia|].
      change (commas (map pentry (kv :: kv' :: kvs))) with (pentry kv ++ pu "," :: commas (map pentry (kv' :: kvs))).
      rewrite length_app. cbn [length] in *. lia.
Qed.

Lemma primary_step f ts : primary (S f) ts = primaryLevel (orExpr (primary f) (notExpr f)) (primary f) ts.
Proof. done. Qed.
Lemma notExpr_step f ts : notExpr (S f) ts = notLevel (primary f) (notExpr f) ts.
Proof. done. Qed.

(** A token of a literal or a name. *)
Lemma atom_reads e ty v :
  pexpr floatText e = [(ty, v)] →
  (∀ ex pr t ts r, strip t = (ty, v) → ts = r → (match r with t' :: _ => stopPrim (strip t') = true | [] => False end) →
     primaryLevel ex pr (t :: ts) = Ok (e, r)) → primaryReads e.
Proof.
  intros Ee Hp f ts t r Hts Ht Hl. rewrite Ee in Hts. apply fmap_cons_inv in Hts as (t0 & ts0 & E0 & Hts & ->).
  symmetry in Hts. apply fmap_nil_inv in Hts as ->. destruct f as [|f]; [cbn in Hl; lia|]. rewrite primary_step. by apply Hp.
Qed.

Lemma binary_reads op l e : op ∈ binOps → primaryReads l → primaryReads e → primaryReads (BinaryExpr op l e).
Proof.
  intros Hop Hl He f ts t r Hts Ht Hf. cbn [pexpr] in Hts.
  apply fmap_cons_inv in Hts as (o & ts1 & Eo & Hts & ->). symmetry in Eo, Hts.
  apply fmap_app_inv in Hts as (tl & ts2 & El & Hts & ->). symmetry in El, Hts.
  apply fmap_cons_inv in Hts as (oo & ts3 & Eoo & Hts & ->). symmetry in Eoo, Hts.
  apply fmap_app_inv in Hts as (te & ts4 & Ee & Hts & ->). symmetry in Ee, Hts.
  apply fmap_cons_inv in Hts as (c & ts5 & Ec & Hts & ->). symmetry in Ec, Hts. apply fmap_nil_inv in Hts as ->.
  cbn [app] in *. rewrite <-!app_assoc in *. cbn [app] in *. rewrite <-!app_assoc in *. cbn [app] in *.
  destruct f as [|f]; [cbn in Hf; lia|]. rewrite primary_step, (primaryLevel_punct _ _ o _ (lit "(")) by done.
  rewrite bool_decide_true by done. cbn [length] in Hf. rewrite !length_app in Hf. cbn [length] in Hf. rewrite length_app in Hf. cbn [length] in Hf.
  rewrite (expr_of_binary (primary f) (notExpr f) op (tl ++ oo :: te ++ c :: t :: r) l oo (te ++ c :: t :: r) e c (t :: r)).
  - cbn [res_bind]. by rewrite expectPunct_hit.
  - done.
  - done.
  - by eapply starts_head; [done|apply pexpr_head].
  - by eapply starts_head; [done|apply pexpr_head].
  - apply Hl; [done| |rewrite !length_app; cbn; rewrite length_app; cbn; lia]. rewrite Eoo. unfold opLex.
    revert Hop. clear. intros Hop. unfold binOps in Hop.
    repeat (apply elem_of_app in Hop as [Hop|Hop]); unfold mulOps, addOps, compareOps, wordOps in Hop;
      apply list_elem_of_fmap in Hop as (x & -> & Hx); repeat (apply elem_of_cons in Hx as [->|Hx]; [by vm_compute|]); by apply elem_of_nil in Hx.
  - apply He; [done|by rewrite Ec|rewrite length_app; cbn; lia].
  - by rewrite Ec.
Qed.

Lemma unary_reads op e : op = lit "-" ∨ op = lit "NOT" → primaryReads e → primaryReads (UnaryExpr op e).
Proof.
  intros Hop He f ts t r Hts Ht Hf. cbn [pexpr] in Hts. destruct Hop as [->| ->].
  - rewrite bool_decide_true in Hts by done. apply fmap_cons_inv in Hts as (o & ts1 & Eo & Hts & ->). symmetry in Eo, Hts. cbn [app] in *.
    destruct f as [|f]; [cbn in Hf; lia|]. rewrite primary_step, (primaryLevel_punct _ _ o _ (lit "-")) by done.
    do 3 (rewrite bool_decide_false by done). rewrite bool_decide_true by done. rewrite He; [done|done|done|cbn in Hf; lia].
  - rewrite bool_decide_false in Hts by done. apply fmap_cons_inv in Hts as (o & ts1 & Eo & Hts & ->). symmetry in Eo, Hts.
    apply fmap_cons_inv in Hts as (nn & ts2 & En & Hts & ->). symmetry in En, Hts.
    apply fmap_app_inv in Hts as (te & ts4 & Ee & Hts & ->). symmetry in Ee, Hts.
    apply fmap_cons_inv in Hts as (c & ts5 & Ec & Hts & ->). symmetry in Ec, Hts. apply fmap_nil_inv in Hts as ->.
    cbn [app] in *. rewrite <-!app_assoc in *. cbn [app length] in *. rewrite length_app in Hf. cbn [length] in Hf.
    destruct f as [|[|f]]; [lia..|]. rewrite primary_step, (primaryLevel_punct _ _ o _ (lit "(")) by done. rewrite bool_decide_true by done.
    assert (notLevel (primary (S f)) (notExpr (S f)) (nn :: te ++ c :: t :: r) = Ok (UnaryExpr (lit "NOT") e, c :: t :: r)) as En'.
    { unfold notLevel at 1. rewrite acceptKeyword_hit by done. cbn [res_bind]. rewrite notExpr_step.
      rewrite (not_of _ _ _ (e, c :: t :: r)); [done|by eapply starts_head; [done|apply pexpr_head]|].
      apply cmp_of; [|by rewrite Ec..]. apply add_stop; [|by rewrite Ec..]. apply He; [done|by rewrite Ec|rewrite length_app; cbn; lia]. }
    rewrite (or_of _ _ _ (UnaryExpr (lit "NOT") e) c (t :: r)); [cbn [res_bind]; by rewrite expectPunct_hit| |by rewrite Ec].
    apply and_of; [done|by rewrite Ec].
Qed.

Lemma call_reads name a b es :
  splitDot name = (a, b) → name = a ++ lit "." ++ b → Forall primaryReads es → primaryReads (FunctionCall name es).
Proof.
  intros Es En Hes f ts t r Hts Ht Hf. cbn [pexpr] in Hts. rewrite Es in Hts. cbn [app] in Hts.
  apply fmap_cons_inv in Hts as (ta & ts1 & Ea & Hts & ->). symmetry in Ea, Hts.
  apply fmap_cons_inv in Hts as (td & ts2 & Ed & Hts & ->). symmetry in Ed, Hts.
  apply fmap_cons_inv in Hts as (tb & ts3 & Eb & Hts & ->). symmetry in Eb, Hts.
  apply fmap_cons_inv in Hts as (tp & ts4 & Ep & Hts & ->). symmetry in Ep, Hts.
  apply fmap_app_inv in Hts as (te & ts5 & Ee & Hts & ->). symmetry in Ee, Hts.
  apply fmap_cons_inv in Hts as (c & ts6 & Ec & Hts & ->). symmetry in Ec, Hts. apply fmap_nil_inv in Hts as ->.
  cbn [app] in *. rewrite <-!app_assoc in *. cbn [app length] in *.
  destruct f as [|f]; [lia|]. rewrite primary_step, primaryLevel_tok. pose proof Ea as [= Ea1 Ea2]. rewrite Ea1, Ea2.
  unfold identExpr. rewrite acceptPunct_hit by done. cbn [res_bind]. rewrite (expectIdent_hit _ tb _ b) by done. cbn [res_bind peek].
  rewrite isPunct_strip, bool_decide_true by done. rewrite (callArgs_reads f es tp te c t r); [|done..|lia]. cbn [res_bind]. by rewrite <-En.
Qed.

Lemma primary_reads e : wfExpr floatText e = true → primaryReads e.
Proof.
  induction e as [n|v p|i|fl|s|b| |es IH|kvs IH|n|op l e IHl IHe|op e IHe|name es IH] using Expr_ind_nested; cbn [wfExpr]; intros Hw.
  - apply (atom_reads _ TokIdent n); [done|]. intros ex pr t ts r [= E1 <-] -> Hr. rewrite primaryLevel_tok, E1.
    destruct r as [|t' r]; [done|]. by apply ident_reads.
  - intros f ts t r Hts Ht Hl. cbn [pexpr] in Hts.
    apply fmap_cons_inv in Hts as (ta & ts1 & Ea & Hts & ->). symmetry in Ea, Hts.
    apply fmap_cons_inv in Hts as (td & ts2 & Ed & Hts & ->). symmetry in Ed, Hts.
    apply fmap_cons_inv in Hts as (tb & ts3 & Eb & Hts & ->). symmetry in Eb, Hts. apply fmap_nil_inv in Hts as ->. cbn [app] in *.
    destruct f as [|f]; [cbn in Hl; lia|]. rewrite primary_step, primaryLevel_tok. pose proof Ea as [= Ea1 Ea2]. rewrite Ea1, Ea2. by apply prop_reads.
  - apply (atom_reads _ TokInt (FormatUint i)); [done|]. intros ex pr t ts r [= E1 E2] -> Hr. rewrite primaryLevel_tok, E1, E2.
    apply andb_true_iff in Hw as [?%Z.leb_le ?%Z.ltb_lt]. by rewrite ParseIntLit_Format.
  - apply (atom_reads _ TokFloat (floatText fl)); [done|]. intros ex pr t ts r [= E1 E2] -> Hr. rewrite primaryLevel_tok, E1, E2.
    apply andb_true_iff in Hw as [_ Hw%bool_decide_eq_true]. by rewrite Hw.
  - apply (atom_reads _ TokString s); [done|]. intros ex pr t ts r [= E1 E2] -> Hr. by rewrite primaryLevel_tok, E1, E2.
  - apply (atom_reads _ TokKeyword (if b then lit "TRUE" else lit "FALSE")); [by destruct b|].
    intros ex pr t ts r [= E1 E2] -> Hr. unfold primaryLevel. cbn [peek res_bind tail]. rewrite E1, E2. by destruct b.
  - apply (atom_reads _ TokKeyword (lit "NULL")); [done|].
    intros ex pr t ts r [= E1 E2] -> Hr. unfold primaryLevel. cbn [peek res_bind tail]. by rewrite E1, E2.
  - intros f ts t r Hts Ht Hl. cbn [pexpr] in Hts. apply fmap_cons_inv in Hts as (o & ts1 & Eo & Hts & ->). symmetry in Eo, Hts.
    apply fmap_app_inv in Hts as (te & ts5 & Ee & Hts & ->). symmetry in Ee, Hts.
    apply fmap_cons_inv in Hts as (c & ts6 & Ec & Hts & ->). symmetry in Ec, Hts. apply fmap_nil_inv in Hts as ->.
    cbn [app] in *. rewrite <-!app_assoc in *. cbn [app length] in *. destruct f as [|f]; [lia|].
    rewrite primary_step, (primaryLevel_punct _ _ o _ (lit "[")) by done. rewrite bool_decide_false, bool_decide_true by done.
    apply list_reads; [|done..|lia]. apply Forall_forall. intros e He. rewrite Forall_forall in IH. apply IH; [done|].
    rewrite forallb_forall in Hw. by apply Hw, list_elem_of_In.
  - apply andb_true_iff in Hw as [Hn%bool_decide_eq_true Hw].
    intros f ts t r Hts Ht Hl. cbn [pexpr] in Hts. apply fmap_cons_inv in Hts as (o & ts1 & Eo & Hts & ->). symmetry in Eo, Hts.
    apply fmap_app_inv in Hts as (te & ts5 & Ee & Hts & ->). symmetry in Ee, Hts.
    apply fmap_cons_inv in Hts as (c & ts6 & Ec & Hts & ->). symmetry in Ec, Hts. apply fmap_nil_inv in Hts as ->.
    cbn [app] in *. rewrite <-!app_assoc in *. cbn [app length] in *. destruct f as [|f]; [lia|].
    rewrite primary_step, (primaryLevel_punct _ _ o _ (lit "{")) by done. do 2 (rewrite bool_decide_false by done). rewrite bool_decide_true by done.
    rewrite (props_reads f kvs o te c t r); [done| |done..|lia]. apply Forall_forall. intros kv Hkv. rewrite Forall_forall in IH. apply IH; [done|].
    rewrite forallb_forall in Hw. apply list_elem_of_In, Hw, andb_true_iff in Hkv as [_ ?]. done.
  - apply (atom_reads _ TokParam n); [done|]. intros ex pr t ts r [= E1 E2] -> Hr. by rewrite primaryLevel_tok, E1, E2.
  - apply andb_true_iff in Hw as [[Hop%bool_decide_eq_true ?]%andb_true_iff ?]. apply binary_reads; auto.
  - apply andb_true_iff in Hw as [Hop ?]. apply unary_reads; [|auto]. apply orb_true_iff in Hop as [?%bool_decide_eq_true|?%bool_decide_eq_true]; auto.
  - destruct (splitDot name) as [a b] eqn:Es. apply andb_true_iff in Hw as [[_ En%bool_decide_eq_true]%andb_true_iff Hw].
    apply (call_reads name a b); [done|done|]. apply Forall_forall. intros e He. rewrite Forall_forall in IH. apply IH; [done|].
    rewrite forallb_forall in Hw. by apply Hw, list_elem_of_In.
Qed.

Lemma expr_reads e : wfExpr floatText e = true → reads expr (pexpr floatText e) stopExpr e.
Proof.
  intros Hw ts t r Hts Ht. unfold expr. apply (inner_reads (S (length (ts ++ t :: r)))); [|done|done|lia]. intros ???. by apply primary_reads.
Qed.

End Reading.

End CypherPrint.
