(* ===== verification/CypherRound.v ===== *)
(** * Printed Cypher queries parse back

    Printers for patterns and clauses on top of the printer for expressions, the text of a token
    sequence, and the round trip: the text of a query lexes and parses to the query. *)

From S2P Require Import Prelude Bytes Strconv Command Float64 CypherSyntax CypherTotal CypherPrint.

Local Open Scope Z_scope.

Module CypherRound.
Import Strconv Command Float64 CypherSyntax CypherTotal CypherPrint.

(** ** Parsing at the level of lexemes *)

(** On tokens that strip to [ls] the parser gives [x] and leaves tokens that strip to [ls']. *)
Definition parses {A} (p : Parser A) (ls : list Lexeme) (x : A) (ls' : list Lexeme) : Prop :=
  ∀ ts, strip <$> ts = ls → ∃ ts', p ts = Ok (x, ts') ∧ strip <$> ts' = ls'.

(** The next lexeme satisfies the test. *)
Definition follow (ok : Lexeme → bool) (ls : list Lexeme) : Prop :=
  match ls with l :: _ => ok l = true | [] => False end.

Definition isnt (l : Lexeme) : Lexeme → bool := λ l', negb (bool_decide (l' = l)).

Lemma follow_impl (ok ok' : Lexeme → bool) ls : (∀ l, ok l = true → ok' l = true) → follow ok ls → follow ok' ls.
Proof. destruct ls as [|l ls]; [done|]. intros H. apply H. Qed.

Lemma acceptPunct_parses s ls : parses (acceptPunct (lit s)) (pu s :: ls) true ls.
Proof. intros ts Hts. apply fmap_cons_inv in Hts as (t & ts' & E & -> & ->). exists ts'. split; [|done]. by apply acceptPunct_hit. Qed.
Lemma acceptPunct_skips s ls : follow (isnt (pu s)) ls → parses (acceptPunct (lit s)) ls false ls.
Proof.
  destruct ls as [|l ls]; [done|]. unfold follow, isnt. intros Hl%negb_true_iff%bool_decide_eq_false ts Hts.
  apply fmap_cons_inv in Hts as (t & ts' & -> & -> & ->). exists (t :: ts'). split; [|done]. by apply acceptPunct_miss.
Qed.
Lemma acceptKeyword_parses s ls : parses (acceptKeyword (lit s)) (kw s :: ls) true ls.
Proof. intros ts Hts. apply fmap_cons_inv in Hts as (t & ts' & E & -> & ->). exists ts'. split; [|done]. by apply acceptKeyword_hit. Qed.
Lemma acceptKeyword_skips s ls : follow (isnt (kw s)) ls → parses (acceptKeyword (lit s)) ls false ls.
Proof.
  destruct ls as [|l ls]; [done|]. unfold follow, isnt. intros Hl%negb_true_iff%bool_decide_eq_false ts Hts.
  apply fmap_cons_inv in Hts as (t & ts' & -> & -> & ->). exists (t :: ts'). split; [|done]. by apply acceptKeyword_miss.
Qed.
Lemma expectPunct_parses s ls : parses (expectPunct (lit s)) (pu s :: ls) () ls.
Proof. intros ts Hts. apply fmap_cons_inv in Hts as (t & ts' & E & -> & ->). exists ts'. split; [|done]. by apply expectPunct_hit. Qed.
Lemma expectKeyword_parses s ls : parses (expectKeyword (lit s)) (kw s :: ls) () ls.
Proof. intros ts Hts. apply fmap_cons_inv in Hts as (t & ts' & E & -> & ->). exists ts'. split; [|done]. by apply expectKeyword_hit. Qed.
Lemma expectIdent_parses err v ls : parses (expectTok isIdent err) ((TokIdent, v) :: ls) v ls.
Proof. intros ts Hts. apply fmap_cons_inv in Hts as (t & ts' & E & -> & ->). exists ts'. split; [|done]. by apply expectIdent_hit. Qed.
Lemma expectName_parses err v ls : parses (expectTok isName err) (nameLex v :: ls) v ls.
Proof. intros ts Hts. apply fmap_cons_inv in Hts as (t & ts' & E & -> & ->). exists ts'. split; [|done]. by apply expectName_hit. Qed.

(** Run the next parser of a sequence on the tokens of [Hts]. *)
Ltac run Hts H :=
  let ts' := fresh "ts" in let Hn := fresh "Hts" in let E := fresh "E" in
  destruct (H _ Hts) as (ts' & E & Hn); cbn beta in E; rewrite E; clear E; cbn [res_bind]; clear Hts; rename Hn into Hts.

(** The same with holes in the lemma, which the tokens fill. *)
Tactic Notation "step" hyp(Hts) open_constr(H) := run Hts H.

(** The same when the lemma asks what follows. *)
Tactic Notation "stepf" hyp(Hts) open_constr(H) "by" tactic3(tac) :=
  let ts' := fresh "ts" in let Hn := fresh "Hts" in let E := fresh "E" in
  unshelve (epose proof (H _ _ Hts) as E); [tac|]; destruct E as (ts' & E & Hn); cbn beta in E; rewrite E; clear E; cbn [res_bind]; clear Hts; rename Hn into Hts.

(** Append to the right. *)
Ltac flat Hts := repeat (progress (cbn [app] in Hts; rewrite <-?app_assoc in Hts)).

Lemma peek_parses ls ts : strip <$> ts = ls → ls ≠ [] → ∃ t ts', ts = t :: ts' ∧ hd_error ls = Some (strip t).
Proof. intros <- Hne. destruct ts as [|t ts]; [done|]. by exists t, ts. Qed.

Lemma isPunct_pu s t : isPunct (lit s) t = bool_decide (strip t = pu s).
Proof. apply isPunct_strip. Qed.

(** ** Lists *)

Lemma length_commas {A} (pr : A → list Lexeme) xs ls : ls ≠ [] → (length xs ≤ length (commas (map pr xs) ++ ls))%nat.
Proof.
  intros Hls. assert (1 ≤ length ls)%nat by (destruct ls; [done|cbn; lia]).
  induction xs as [|x [|y xs] IH]; [cbn; lia|rewrite length_app; cbn; lia|].
  change (commas (map pr (x :: y :: xs))) with (pr x ++ pu "," :: commas (map pr (y :: xs))).
  rewrite length_app in *. rewrite length_app. cbn [length] in *. lia.
Qed.

(** Every item parses when what follows satisfies [ok]. *)
Definition itemsParse {A} (item : Parser A) (pr : A → list Lexeme) (ok : Lexeme → bool) (xs : list A) : Prop :=
  Forall (λ x, ∀ ls, follow ok ls → parses item (pr x ++ ls) x ls) xs.

Lemma commaLoop_parses {A B} (item : Parser A) (add : A → B → B) pr ok xs ls :
  itemsParse item pr ok xs → xs ≠ [] → ok (pu ",") = true → follow ok ls → follow (isnt (pu ",")) ls →
  ∀ fuel acc, (length xs ≤ fuel)%nat →
  parses (commaLoop fuel item add acc) (commas (map pr xs) ++ ls) (fold_left (λ b x, add x b) xs acc) ls.
Proof.
  intros Hxs Hne Hc Hok Hnc. induction Hxs as [|x xs Hx Hxs IH]; [done|]. intros fuel acc Hf ts Hts.
  destruct fuel as [|fuel]; [cbn in Hf; lia|]. cbn [commaLoop]. destruct xs as [|y xs].
  - cbn [map commas] in Hts. run Hts (Hx ls Hok). run Hts (acceptPunct_skips "," ls Hnc). by exists ts1.
  - change (commas (map pr (x :: y :: xs))) with (pr x ++ pu "," :: commas (map pr (y :: xs))) in Hts.
    rewrite <-app_assoc in Hts. cbn [app] in Hts. run Hts (Hx (pu "," :: commas (map pr (y :: xs)) ++ ls) Hc).
    run Hts (acceptPunct_parses "," (commas (map pr (y :: xs)) ++ ls)). apply IH; [done|cbn in *; lia|done].
Qed.

(** The loops give themselves one turn more than there are tokens. *)
Lemma commaLoop_enough {A B} (item : Parser A) (add : A → B → B) pr ok xs ls acc :
  itemsParse item pr ok xs → xs ≠ [] → ok (pu ",") = true → follow ok ls → follow (isnt (pu ",")) ls →
  parses (λ ts, commaLoop (S (length ts)) item add acc ts) (commas (map pr xs) ++ ls) (fold_left (λ b x, add x b) xs acc) ls.
Proof.
  intros Hxs Hne Hc Hok Hnc ts Hts. eapply commaLoop_parses; [done..| |done]. rewrite <-(length_fmap strip ts), Hts.
  pose proof (length_commas pr xs ls) as Hl. destruct ls as [|l ls]; [done|]. specialize (Hl ltac:(done)). lia.
Qed.

Lemma commaList_parses {A} (item : Parser A) pr ok xs ls :
  itemsParse item pr ok xs → xs ≠ [] → ok (pu ",") = true → follow ok ls → follow (isnt (pu ",")) ls →
  parses (commaList item) (commas (map pr xs) ++ ls) xs ls.
Proof. intros. pose proof (fold_snoc xs []) as Ef. cbn [app] in Ef. pose proof (commaLoop_enough item snoc pr ok xs ls []) as H'. rewrite Ef in H'. by apply H'. Qed.

Section Round.
Context (floatText : float64 → bytes).

Lemma expr_parses e ls : wfExpr floatText e = true → follow stopExpr ls → parses expr (pexpr floatText e ++ ls) e ls.
Proof.
  intros Hw Hls ts Hts. apply fmap_app_inv in Hts as (ts1 & ts2 & E1 & E2 & ->). symmetry in E1, E2. destruct ls as [|l ls]; [done|].
  apply fmap_cons_inv in E2 as (t & r & -> & -> & ->). exists (t :: r). split; [|done]. by apply (expr_reads floatText e Hw).
Qed.

(** ** Patterns *)

Definition pprops (kvs : list (bytes * Expr)) : list Lexeme :=
  match kvs with [] => [] | _ => pu "{" :: commas (map (pentry floatText) kvs) ++ [pu "}"] end.
Definition pvar (v : bytes) : list Lexeme := match v with [] => [] | _ => [(TokIdent, v)] end.
Definition pnode (n : NodePattern) : list Lexeme :=
  pu "(" :: pvar (np_Variable n) ++ concat (map (λ l, [pu ":"; nameLex l]) (np_Labels n)) ++ pprops (np_Properties n) ++ [pu ")"].

Fixpoint ptypes (l : list bytes) : list Lexeme :=
  match l with [] => [] | [t] => [nameLex t] | t :: l => nameLex t :: pu "|" :: ptypes l end.
Definition prelTypes (types : list bytes) : list Lexeme := match types with [] => [] | _ => pu ":" :: ptypes types end.
Definition prel (r : RelPattern) : list Lexeme :=
  (match rp_Direction r with DirIn => pu "<-" | _ => pu "-" end) :: pu "[" :: pvar (rp_Variable r) ++
  prelTypes (rp_Types r) ++ pprops (rp_Properties r) ++
  [pu "]"; match rp_Direction r with DirOut => pu "->" | _ => pu "-" end].
Definition ppart (p : PatternPart) : list Lexeme :=
  pnode (pp_Node p) ++ concat (zip_with (λ r n, prel r ++ pnode n) (pp_Rels p) (pp_Nodes p)).

Definition wfVar (v : bytes) : bool := match v with [] => true | _ => identOk v end.
Definition wfProps (kvs : list (bytes * Expr)) : bool :=
  bool_decide (NoDup (map fst kvs)) && forallb (λ kv, nameOk kv.1 && wfExpr floatText kv.2) kvs.
Definition wfNode (n : NodePattern) : bool := wfVar (np_Variable n) && forallb nameOk (np_Labels n) && wfProps (np_Properties n).
Definition wfRel (r : RelPattern) : bool := wfVar (rp_Variable r) && forallb nameOk (rp_Types r) && wfProps (rp_Properties r).
Definition wfPart (p : PatternPart) : bool :=
  wfNode (pp_Node p) && forallb wfRel (pp_Rels p) && forallb wfNode (pp_Nodes p) &&
  bool_decide (length (pp_Rels p) = length (pp_Nodes p)).

Lemma entry_parses kv ls : wfExpr floatText kv.2 = true → follow stopExpr ls → parses (entry expr) (pentry floatText kv ++ ls) kv ls.
Proof.
  intros Hw Hls ts Hts. destruct kv as [k e]. cbn [fst snd pentry app] in *. unfold entry.
  run Hts (expectName_parses (λ _, ErrPropertyKey) k (pu ":" :: pexpr floatText e ++ ls)). run Hts (expectPunct_parses ":" (pexpr floatText e ++ ls)).
  run Hts (expr_parses e ls Hw Hls). by eexists.
Qed.

Lemma optProperties_parses kvs ls :
  wfProps kvs = true → follow (isnt (pu "{")) ls → parses optProperties (pprops kvs ++ ls) kvs ls.
Proof.
  unfold wfProps. intros [Hn%bool_decide_eq_true Hw]%andb_true_iff Hls ts Hts. unfold optProperties. destruct kvs as [|kv kvs].
  - cbn [pprops app] in Hts. destruct ls as [|l ls]; [done|]. apply fmap_cons_inv in Hts as (t & ts' & -> & -> & ->). cbn [peek res_bind].
    cbn in Hls. apply negb_true_iff in Hls. rewrite isPunct_pu, Hls. by exists (t :: ts').
  - assert (itemsParse (entry expr) (pentry floatText) stopExpr (kv :: kvs)) as Hit.
    { apply Forall_forall. intros kv' Hkv ls'. apply entry_parses. rewrite forallb_forall in Hw.
      apply list_elem_of_In, Hw, andb_true_iff in Hkv as [_ ?]. done. }
    cbn [pprops app] in Hts. rewrite <-app_assoc in Hts. cbn [app] in Hts.
    pose proof Hts as Hts0. apply fmap_cons_inv in Hts0 as (t & ts0 & Et & _ & ->). cbn [peek res_bind].
    rewrite isPunct_pu, <-Et, bool_decide_true by done. unfold properties.
    run Hts (expectPunct_parses "{" (commas (map (pentry floatText) (kv :: kvs)) ++ pu "}" :: ls)).
    assert (follow (isnt (pu "}")) (commas (map (pentry floatText) (kv :: kvs)) ++ pu "}" :: ls)) as Hf.
    { cbn [map]. destruct (commas_cons (pentry floatText kv) (map (pentry floatText) kvs)) as [ls' ->]. cbn. unfold nameLex. by destruct (isKeywordWord _). }
    run Hts (acceptPunct_skips "}" _ Hf).
    run Hts (commaLoop_enough (entry expr) addEntry (pentry floatText) stopExpr (kv :: kvs) (pu "}" :: ls) [] Hit ltac:(done) eq_refl eq_refl eq_refl).
    rewrite (fold_addEntry (kv :: kvs) []) by done. cbn [app]. run Hts (expectPunct_parses "}" ls). by eexists.
Qed.

Lemma optIdent_parses v ls : follow (λ l, negb (bool_decide (l.1 = TokIdent))) ls → parses optIdent (pvar v ++ ls) v ls.
Proof.
  intros Hls ts Hts. unfold optIdent. destruct v as [|c v].
  - cbn [pvar app] in Hts. destruct ls as [|l ls]; [done|]. apply fmap_cons_inv in Hts as (t & ts' & -> & -> & ->). cbn [peek res_bind].
    cbn in Hls. apply negb_true_iff in Hls. unfold isIdent. rewrite Hls. by exists (t :: ts').
  - cbn [pvar app] in Hts. apply fmap_cons_inv in Hts as (t & ts' & [= E1 E2] & -> & ->). cbn [peek res_bind tail].
    unfold isIdent. rewrite <-E1, <-E2, bool_decide_true by done. by exists ts'.
Qed.

Lemma labelLoop_parses labels ls :
  ∀ fuel acc, (length labels < fuel)%nat → follow (isnt (pu ":")) ls →
  parses (labelLoop fuel acc) (concat (map (λ l, [pu ":"; nameLex l]) labels) ++ ls) (acc ++ labels) ls.
Proof.
  induction labels as [|l labels IH]; intros fuel acc Hf Hls ts Hts; destruct fuel as [|fuel]; [cbn in Hf; lia| |cbn in Hf; lia|].
  - cbn [map concat app] in Hts. cbn [labelLoop]. run Hts (acceptPunct_skips ":" ls Hls). rewrite app_nil_r. by eexists.
  - cbn [map concat app] in Hts. cbn [labelLoop]. step Hts (acceptPunct_parses ":" _). step Hts (expectName_parses (λ _, ErrLabel) l _).
    destruct (IH fuel (acc ++ [l]) ltac:(cbn in Hf; lia) Hls _ Hts) as (ts' & E & Hts'). rewrite E. exists ts'. by rewrite <-app_assoc.
Qed.

Lemma nodePattern_parses n ls : wfNode n = true → parses nodePattern (pnode n ++ ls) n ls.
Proof.
  destruct n as [v labels props]. unfold wfNode, pnode. cbn [np_Variable np_Labels np_Properties]. intros [[Hv Hl]%andb_true_iff Hp]%andb_true_iff ts Hts.
  flat Hts. unfold nodePattern. step Hts (expectPunct_parses "(" _).
  stepf Hts (optIdent_parses v _) by (destruct labels; [destruct props|]; done).
  assert (length labels < S (length ts1))%nat as Hlen.
  { rewrite <-(length_fmap strip ts1), Hts, length_app. clear. induction labels; cbn in *; lia. }
  stepf Hts (labelLoop_parses labels _ _ [] Hlen) by (by destruct props).
  stepf Hts (optProperties_parses props _ Hp) by done. step Hts (expectPunct_parses ")" ls). by eexists.
Qed.

Lemma typeLoop_parses types ls :
  types ≠ [] → follow (isnt (pu "|")) ls → ∀ fuel acc, (length types ≤ fuel)%nat →
  parses (typeLoop fuel acc) (ptypes types ++ ls) (acc ++ types) ls.
Proof.
  intros Hne Hls. induction types as [|t types IH]; [done|]. intros fuel acc Hf ts Hts. destruct fuel as [|fuel]; [cbn in Hf; lia|]. cbn [typeLoop].
  destruct types as [|t' types].
  - cbn [ptypes app] in Hts. step Hts (expectName_parses (λ _, ErrRelType) t _). run Hts (acceptPunct_skips "|" ls Hls). by eexists.
  - change (ptypes (t :: t' :: types)) with (nameLex t :: pu "|" :: ptypes (t' :: types)) in Hts. cbn [app] in Hts.
    step Hts (expectName_parses (λ _, ErrRelType) t _). step Hts (acceptPunct_parses "|" _).
    destruct (IH ltac:(done) fuel (acc ++ [t]) ltac:(cbn in *; lia) _ Hts) as (ts' & E & Hts'). rewrite E. exists ts'. by rewrite <-app_assoc.
Qed.

Lemma length_ptypes types : (length types ≤ length (ptypes types))%nat.
Proof. induction types as [|t [|t' types] IH]; [done..|]. cbn [ptypes length] in *. lia. Qed.

Lemma relTypes_parses types ls :
  follow (isnt (pu ":")) ls → follow (isnt (pu "|")) ls →
  parses (λ ts, do? (colon, ts) ← acceptPunct (lit ":") ts ; if colon : bool then typeLoop (S (length ts)) [] ts else Ok ([], ts))
    (prelTypes types ++ ls) types ls.
Proof.
  intros H1 H2 ts Hts. destruct types as [|t types].
  - run Hts (acceptPunct_skips ":" ls H1). by eexists.
  - cbn [prelTypes app] in Hts. step Hts (acceptPunct_parses ":" _).
    apply (typeLoop_parses (t :: types) ls ltac:(done) H2 _ []); [|done].
    rewrite <-(length_fmap strip ts0), Hts, length_app. pose proof (length_ptypes (t :: types)). lia.
Qed.

Lemma relDetail_parses v types props ls :
  wfProps props = true →
  parses relDetail (pu "[" :: pvar v ++ prelTypes types ++ pprops props ++ pu "]" :: ls)
    (v, types, props) ls.
Proof.
  intros Hp ts Hts. unfold relDetail. step Hts (acceptPunct_parses "[" _).
  stepf Hts (optIdent_parses v _) by (destruct types; [destruct props|]; done).
  destruct (relTypes_parses types (pprops props ++ pu "]" :: ls) ltac:(by destruct props) ltac:(by destruct props) _ Hts) as (ts' & E & Hts').
  clear Hts. destruct (acceptPunct (lit ":") ts1) as [[colon ts2]|e]; cbn [res_bind] in *; [|done]. rewrite E. cbn [res_bind].
  stepf Hts' (optProperties_parses props _ Hp) by done. step Hts' (expectPunct_parses "]" ls). by eexists.
Qed.

Lemma relPattern_parses r ls : wfRel r = true → parses relPattern (prel r ++ ls) r ls.
Proof.
  destruct r as [v types dir props]. unfold wfRel, prel. cbn [rp_Variable rp_Types rp_Direction rp_Properties].
  intros [_ Hp]%andb_true_iff ts Hts. flat Hts. unfold relPattern. destruct dir.
  - stepf Hts (acceptPunct_skips "<-" _) by done. step Hts (expectPunct_parses "-" _). step Hts (relDetail_parses v types props _ Hp).
    step Hts (acceptPunct_parses "->" _). by eexists.
  - step Hts (acceptPunct_parses "<-" _). step Hts (relDetail_parses v types props _ Hp).
    stepf Hts (acceptPunct_skips "->" _) by done. step Hts (expectPunct_parses "-" _). by eexists.
  - stepf Hts (acceptPunct_skips "<-" _) by done. step Hts (expectPunct_parses "-" _). step Hts (relDetail_parses v types props _ Hp).
    stepf Hts (acceptPunct_skips "->" _) by done. step Hts (expectPunct_parses "-" _). by eexists.
Qed.

(** A pattern part ends where no relationship starts. *)
Definition stopPart (l : Lexeme) : bool := isnt (pu "-") l && isnt (pu "<-") l.

Lemma hopLoop_parses rels nodes ls :
  length rels = length nodes → forallb wfRel rels = true → forallb wfNode nodes = true → follow stopPart ls →
  ∀ fuel accR accN, (length rels < fuel)%nat →
  parses (hopLoop fuel accR accN) (concat (zip_with (λ r n, prel r ++ pnode n) rels nodes) ++ ls) (accR ++ rels, accN ++ nodes) ls.
Proof.
  intros Hlen Hr Hn Hls. revert nodes Hlen Hr Hn.
  induction rels as [|r rels IH]; intros [|n nodes] Hlen Hr Hn fuel accR accN Hf ts Hts; [|done..|]; (destruct fuel as [|fuel]; [cbn in Hf; lia|]); cbn [hopLoop].
  - destruct ls as [|l ls]; [done|]. cbn [zip_with concat app] in Hts. pose proof Hts as Hts0. apply fmap_cons_inv in Hts0 as (t & ts' & -> & _ & ->). cbn [peek res_bind].
    unfold follow, stopPart, isnt in Hls. rewrite <-negb_orb in Hls. apply negb_true_iff in Hls. rewrite !isPunct_pu, Hls.
    rewrite !app_nil_r. by eexists.
  - cbn [forallb] in *. apply andb_true_iff in Hr as [Hr1 Hr], Hn as [Hn1 Hn]. cbn [zip_with concat] in Hts. flat Hts.
    assert (∃ t ts', ts = t :: ts' ∧ isPunct (lit "-") t || isPunct (lit "<-") t = true) as (t & ts' & -> & Et).
    { unfold prel in Hts. cbn [app] in Hts. apply fmap_cons_inv in Hts as (t & ts' & Et & _ & ->). exists t, ts'. split; [done|].
      rewrite !isPunct_pu, <-Et. by destruct (rp_Direction r). }
    cbn [peek res_bind]. rewrite Et. step Hts (relPattern_parses r _ Hr1). step Hts (nodePattern_parses n _ Hn1).
    destruct (IH nodes ltac:(cbn in *; lia) Hr Hn fuel (accR ++ [r]) (accN ++ [n]) ltac:(cbn in *; lia) _ Hts) as (ts'' & E & Hts').
    rewrite E. exists ts''. by rewrite <-!app_assoc.
Qed.

Lemma patternPart_parses p ls : wfPart p = true → follow stopPart ls → parses patternPart (ppart p ++ ls) p ls.
Proof.
  destruct p as [n rels nodes]. unfold wfPart, ppart. cbn [pp_Node pp_Rels pp_Nodes].
  intros [[[Hn Hr]%andb_true_iff Hns]%andb_true_iff Hl%bool_decide_eq_true]%andb_true_iff Hls ts Hts. flat Hts. unfold patternPart.
  step Hts (nodePattern_parses n _ Hn).
  assert (length rels < S (length ts0))%nat as Hlen.
  { rewrite <-(length_fmap strip ts0), Hts, length_app. clear -Hl. revert nodes Hl.
    induction rels as [|r rels IH]; intros [|n nodes] Hl; [cbn; lia|done..|]. specialize (IH nodes ltac:(cbn in *; lia)).
    assert (1 ≤ length (prel r))%nat by (unfold prel; cbn [length]; lia). cbn [zip_with concat length]. rewrite !length_app. lia. }
  step Hts (hopLoop_parses rels nodes ls Hl Hr Hns Hls _ [] [] Hlen). by eexists.
Qed.

(** ** Clauses *)

Definition popt (k : String.string) (e : option Expr) : list Lexeme :=
  match e with Some e => kw k :: pexpr floatText e | None => [] end.
Definition psetItem (i : SetItem) : list Lexeme :=
  (TokIdent, si_Variable i) :: pu "." :: (TokIdent, si_Property i) :: pu "=" :: pexpr floatText (si_Value i).
Definition pidents (vs : list bytes) : list Lexeme := commas (map (λ v, [(TokIdent, v)]) vs).
Definition pitem (i : ReturnItem) : list Lexeme :=
  pexpr floatText (ri_Expr i) ++ match ri_Alias i with [] => [] | a => [kw "AS"; (TokIdent, a)] end.
Definition psort (i : SortItem) : list Lexeme := pexpr floatText (so_Expr i) ++ (if so_Desc i then [kw "DESC"] else []).
Definition porder (o : list SortItem) : list Lexeme :=
  match o with [] => [] | _ => kw "ORDER" :: kw "BY" :: commas (map psort o) end.
Definition pdistinct (d : bool) : list Lexeme := if d then [kw "DISTINCT"] else [].
Definition pyield (ys : list bytes) : list Lexeme := match ys with [] => [] | _ => kw "YIELD" :: pidents ys end.
Definition nameParts (p : bytes) : list bytes := splitDots (length p) p.
Definition pdotted (parts : list bytes) : list Lexeme :=
  match parts with [] => [] | a :: parts => (TokIdent, a) :: concat (map (λ x, [pu "."; (TokIdent, x)]) parts) end.
Definition dotted (a : bytes) (parts : list bytes) : bytes := fold_left (λ n x, n ++ lit "." ++ x) parts a.

Definition pclause (c : Clause) : list Lexeme :=
  match c with
  | MatchClause o ps wh => (if o then [kw "OPTIONAL"] else []) ++ kw "MATCH" :: commas (map ppart ps) ++ popt "WHERE" wh
  | CreateClause ps => kw "CREATE" :: commas (map ppart ps)
  | SetClause items => kw "SET" :: commas (map psetItem items)
  | DeleteClause vs _ => kw "DELETE" :: pidents vs
  | UnwindClause e a => kw "UNWIND" :: pexpr floatText e ++ [kw "AS"; (TokIdent, a)]
  | ReturnClause d items o sk li =>
      kw "RETURN" :: pdistinct d ++ commas (map pitem items) ++ porder o ++ popt "SKIP" sk ++ popt "LIMIT" li
  | WithClause d items wh o sk li =>
      kw "WITH" :: pdistinct d ++ commas (map pitem items) ++ porder o ++ popt "SKIP" sk ++ popt "LIMIT" li ++ popt "WHERE" wh
  | CallClause p args ys =>
      kw "CALL" :: pdotted (nameParts p) ++ pu "(" :: commas (map (pexpr floatText) args) ++ pu ")" :: pyield ys
  end.

Definition wfOpt (e : option Expr) : bool := match e with Some e => wfExpr floatText e | None => true end.
Definition wfSetItem (i : SetItem) : bool := identOk (si_Variable i) && identOk (si_Property i) && wfExpr floatText (si_Value i).
Definition wfItem (i : ReturnItem) : bool := wfExpr floatText (ri_Expr i) && wfVar (ri_Alias i).
Definition wfSort (i : SortItem) : bool := wfExpr floatText (so_Expr i).
Definition some {A} (l : list A) : bool := match l with [] => false | _ => true end.

(** The clauses the parser builds: it knows no DETACH DELETE. *)
Definition wfClause (c : Clause) : bool :=
  match c with
  | MatchClause _ ps wh => some ps && forallb wfPart ps && wfOpt wh
  | CreateClause ps => some ps && forallb wfPart ps
  | SetClause items => some items && forallb wfSetItem items
  | DeleteClause vs d => some vs && forallb identOk vs && negb d
  | UnwindClause e a => wfExpr floatText e && identOk a
  | ReturnClause _ items o sk li => some items && forallb wfItem items && forallb wfSort o && wfOpt sk && wfOpt li
  | WithClause _ items wh o sk li => some items && forallb wfItem items && forallb wfSort o && wfOpt sk && wfOpt li && wfOpt wh
  | CallClause p args ys =>
      match nameParts p with a :: parts => forallb identOk (a :: parts) && bool_decide (dotted a parts = p) | [] => false end &&
      (bool_decide (lit "vector." `prefix_of` p) || bool_decide (lit "kv." `prefix_of` p)) &&
      forallb (wfExpr floatText) args && forallb identOk ys
  end.

(** What may follow a clause: another clause, or the end. *)
Definition clauseStops : list Lexeme :=
  eof :: (kw <$> ["MATCH"; "OPTIONAL"; "CREATE"; "SET"; "DELETE"; "RETURN"; "WITH"; "UNWIND"; "CALL"]%string).
Definition stopClause (l : Lexeme) : bool := bool_decide (l ∈ clauseStops).

Lemma follow_clause ok ls : forallb ok clauseStops = true → follow stopClause ls → follow ok ls.
Proof.
  intros Hok. apply follow_impl. intros l Hl%bool_decide_eq_true. rewrite forallb_forall in Hok. by apply Hok, list_elem_of_In.
Qed.

Lemma follow_popt ok k e ls : ok (kw k) = true → follow ok ls → follow ok (popt k e ++ ls).
Proof. by destruct e. Qed.

Lemma follow_and (ok ok' : Lexeme → bool) ls : follow (λ l, ok l && ok' l) ls → follow ok ls ∧ follow ok' ls.
Proof. destruct ls as [|l ls]; [done|]. cbn. intros ?%andb_true_iff. done. Qed.

Lemma optExpr_parses k e ls :
  wfOpt e = true → follow (λ l, stopExpr l && isnt (kw k) l) ls → parses (optExpr (lit k)) (popt k e ++ ls) e ls.
Proof.
  intros Hw [H1 H2]%follow_and ts Hts. unfold optExpr. destruct e as [e|]; cbn [popt] in Hts.
  - flat Hts. step Hts (acceptKeyword_parses k _). step Hts (expr_parses e ls Hw H1). by eexists.
  - step Hts (acceptKeyword_skips k ls H2). by eexists.
Qed.

Lemma forallb_items {A} (item : Parser A) pr ok wf xs :
  forallb wf xs = true → (∀ x ls, wf x = true → follow ok ls → parses item (pr x ++ ls) x ls) → itemsParse item pr ok xs.
Proof. intros Hw Hi. apply Forall_forall. intros x Hx ls. apply Hi. rewrite forallb_forall in Hw. by apply Hw, list_elem_of_In. Qed.

Lemma some_ne {A} (l : list A) : some l = true → l ≠ [].
Proof. by destruct l. Qed.

Lemma setItem_parses i ls : wfSetItem i = true → follow stopExpr ls → parses setItem (psetItem i ++ ls) i ls.
Proof.
  destruct i as [v p e]. unfold wfSetItem, psetItem. cbn [si_Variable si_Property si_Value]. intros [_ Hw]%andb_true_iff Hls ts Hts. flat Hts.
  unfold setItem. step Hts (expectIdent_parses ErrSetVariable v _). step Hts (acceptPunct_parses "." _).
  step Hts (expectIdent_parses (λ _, ErrSetProperty) p _). step Hts (expectPunct_parses "=" _). step Hts (expr_parses e ls Hw Hls). by eexists.
Qed.

Definition stopItem (l : Lexeme) : bool := stopExpr l && isnt (kw "AS") l.
Definition stopSort (l : Lexeme) : bool := stopExpr l && isnt (kw "DESC") l && isnt (kw "ASC") l.

Lemma returnItem_parses i ls : wfItem i = true → follow stopItem ls → parses returnItem (pitem i ++ ls) i ls.
Proof.
  destruct i as [e a]. unfold wfItem, pitem. cbn [ri_Expr ri_Alias]. intros [Hw _]%andb_true_iff [H1 H2]%follow_and ts Hts. flat Hts.
  unfold returnItem. destruct a as [|c a].
  - step Hts (expr_parses e ls Hw H1). step Hts (acceptKeyword_skips "AS" ls H2). by eexists.
  - flat Hts. stepf Hts (expr_parses e _ Hw) by done. step Hts (acceptKeyword_parses "AS" _).
    step Hts (expectIdent_parses (λ _, ErrAlias) (c :: a) _). by eexists.
Qed.

Lemma sortItem_parses i ls : wfSort i = true → follow stopSort ls → parses sortItem (psort i ++ ls) i ls.
Proof.
  destruct i as [e d]. unfold wfSort, psort. cbn [so_Expr so_Desc]. intros Hw [[H1 H2]%follow_and H3]%follow_and ts Hts. flat Hts.
  unfold sortItem. destruct d; flat Hts.
  - stepf Hts (expr_parses e _ Hw) by done. step Hts (acceptKeyword_parses "DESC" _). by eexists.
  - step Hts (expr_parses e ls Hw H1). step Hts (acceptKeyword_skips "DESC" ls H2). step Hts (acceptKeyword_skips "ASC" ls H3). by eexists.
Qed.

(** Nothing of a projection goes on with the next lexeme. *)
Definition stopProj (l : Lexeme) : bool :=
  stopSort l && isnt (pu ",") l && isnt (kw "AS") l && isnt (kw "ORDER") l && isnt (kw "SKIP") l && isnt (kw "LIMIT") l.

Lemma follow_stopProj ls :
  follow stopProj ls →
  follow (λ l, stopExpr l && isnt (kw "LIMIT") l) ls ∧ follow (λ l, stopExpr l && isnt (kw "SKIP") l) ls ∧
  follow stopSort ls ∧ follow (isnt (pu ",")) ls ∧ follow stopItem ls ∧ follow (isnt (kw "ORDER")) ls.
Proof.
  destruct ls as [|l ls]; [done|]. cbn. unfold stopProj, stopItem, stopSort. rewrite !andb_true_iff. tauto.
Qed.

Lemma orderSkipLimit_parses o sk li ls :
  forallb wfSort o = true → wfOpt sk = true → wfOpt li = true → follow stopProj ls →
  parses orderSkipLimit (porder o ++ popt "SKIP" sk ++ popt "LIMIT" li ++ ls) (o, sk, li) ls.
Proof.
  intros Ho Hsk Hli (H1 & H2 & H3 & H4 & H5 & H6)%follow_stopProj ts Hts. unfold orderSkipLimit. destruct o as [|x o]; cbn [porder] in Hts; flat Hts.
  - stepf Hts (acceptKeyword_skips "ORDER" _) by (by repeat apply follow_popt).
    stepf Hts (optExpr_parses "SKIP" sk _ Hsk) by (by apply follow_popt). step Hts (optExpr_parses "LIMIT" li ls Hli H1). by eexists.
  - step Hts (acceptKeyword_parses "ORDER" _). step Hts (expectKeyword_parses "BY" _).
    epose proof (commaList_parses sortItem psort stopSort (x :: o) _ (forallb_items _ _ _ _ _ Ho sortItem_parses) ltac:(done) eq_refl _) as Hc.
    stepf Hts Hc by (by repeat apply follow_popt). 
    stepf Hts (optExpr_parses "SKIP" sk _ Hsk) by (by apply follow_popt). step Hts (optExpr_parses "LIMIT" li ls Hli H1). by eexists.
    Unshelve. by repeat apply follow_popt.
Qed.

Lemma pexpr_distinct e ls : follow (isnt (kw "DISTINCT")) (pexpr floatText e ++ ls).
Proof.
  destruct e as [n|v p|i|f|t|b| |es|kvs|n|op l r|op e|name es]; try done; cbn [pexpr].
  - by destruct b.
  - by case_bool_decide.
  - by destruct (splitDot name).
Qed.

Lemma distinct_parses d items ls :
  some items = true → parses (acceptKeyword (lit "DISTINCT")) (pdistinct d ++ commas (map pitem items) ++ ls) d (commas (map pitem items) ++ ls).
Proof.
  intros Hne. destruct d; [apply acceptKeyword_parses|]. apply acceptKeyword_skips.
  destruct items as [|i items]; [done|]. cbn [map]. destruct (commas_cons (pitem i) (map pitem items)) as [ls' ->].
  unfold pitem. rewrite <-!app_assoc. apply pexpr_distinct.
Qed.

Lemma items_parses items ls :
  some items = true → forallb wfItem items = true → follow (λ l, stopItem l && isnt (pu ",") l) ls →
  parses (commaList returnItem) (commas (map pitem items) ++ ls) items ls.
Proof.
  intros Hne Hw [H1 H2]%follow_and.
  exact (commaList_parses returnItem pitem stopItem items ls (forallb_items _ _ _ _ _ Hw returnItem_parses) (some_ne _ Hne) eq_refl H1 H2).
Qed.

Lemma follow_porder ok o ls : ok (kw "ORDER") = true → follow ok ls → follow ok (porder o ++ ls).
Proof. by destruct o. Qed.

Lemma patternList_parses ps ls :
  some ps = true → forallb wfPart ps = true → follow stopPart ls → follow (isnt (pu ",")) ls →
  parses patternList (commas (map ppart ps) ++ ls) ps ls.
Proof.
  intros Hne Hw H1 H2.
  exact (commaList_parses patternPart ppart stopPart ps ls (forallb_items _ _ _ _ _ Hw patternPart_parses) (some_ne _ Hne) eq_refl H1 H2).
Qed.

Lemma idents_parses err vs ls :
  some vs = true → follow (isnt (pu ",")) ls → parses (commaList (expectTok isIdent err)) (pidents vs ++ ls) vs ls.
Proof.
  intros Hne Hls. eapply commaList_parses with (ok := λ _, true); [|by apply some_ne|done|by destruct ls|done].
  apply Forall_forall. intros v _ ls' _. apply expectIdent_parses.
Qed.

Lemma callArgs_parses args ls :
  forallb (wfExpr floatText) args = true →
  parses (callArgs expr) (pu "(" :: commas (map (pexpr floatText) args) ++ pu ")" :: ls) args ls.
Proof.
  intros Hw ts Hts. unfold callArgs. step Hts (expectPunct_parses "(" _). destruct (decide (args = [])) as [->|Hne].
  - cbn [map commas app] in Hts. pose proof Hts as Hts0. apply fmap_cons_inv in Hts0 as (t & ts' & Et & _ & ->). cbn [peek res_bind].
    rewrite isPunct_pu, <-Et, bool_decide_true by done. cbn [res_bind]. step Hts (expectPunct_parses ")" _). by eexists.
  - assert (∃ t ts', ts0 = t :: ts' ∧ startLex (strip t) = true) as (t & ts' & -> & Et).
    { apply fmap_app_inv in Hts as (ts1 & ts2 & E1 & _ & ->). by apply (commas_starts floatText args). }
    cbn [peek res_bind]. rewrite isPunct_pu, bool_decide_false by (apply starts_miss; auto).
    step Hts (commaList_parses expr (pexpr floatText) stopExpr args (pu ")" :: ls) (forallb_items _ _ _ _ _ Hw expr_parses) Hne eq_refl eq_refl eq_refl).
    step Hts (expectPunct_parses ")" _). by eexists.
Qed.

Lemma dottedLoop_parses parts ls :
  follow (isnt (pu ".")) ls → ∀ fuel name, (length parts < fuel)%nat →
  parses (dottedLoop fuel name) (concat (map (λ x, [pu "."; (TokIdent, x)]) parts) ++ ls) (dotted name parts) ls.
Proof.
  intros Hls. induction parts as [|x parts IH]; intros fuel name Hf ts Hts; (destruct fuel as [|fuel]; [cbn in Hf; lia|]); cbn [dottedLoop map concat] in *; flat Hts.
  - step Hts (acceptPunct_skips "." ls Hls). by eexists.
  - step Hts (acceptPunct_parses "." _). step Hts (expectIdent_parses (λ _, ErrProcedureName) x _). apply IH; [cbn in Hf; lia|done].
Qed.

(** The clause parser on the keyword of a clause. *)
Ltac dispatch Hts :=
  let t := fresh "t" in let ts' := fresh "ts" in let Et := fresh "Et" in let Hn := fresh "Hts" in
  pose proof Hts as Hn; apply fmap_cons_inv in Hn as (t & ts' & Et & Hn & ->); symmetry in Hn; clear Hts; rename Hn into Hts;
  unfold clause; cbn [peek res_bind tail]; cbv zeta; rewrite !isKeyword_strip, <-Et;
  repeat (rewrite bool_decide_false by done); rewrite bool_decide_true by done; clear Et.

Lemma match_parses o ps wh ls :
  some ps = true → forallb wfPart ps = true → wfOpt wh = true → follow stopClause ls →
  parses (matchClause o) (commas (map ppart ps) ++ popt "WHERE" wh ++ ls) (MatchClause o ps wh) ls.
Proof.
  intros Hne Hw Hwh Hls ts Hts. unfold matchClause.
  assert (follow stopPart (popt "WHERE" wh ++ ls) ∧ follow (isnt (pu ",")) (popt "WHERE" wh ++ ls)) as [H1 H2]
    by (split; (apply follow_popt; [done|by eapply follow_clause])).
  step Hts (patternList_parses ps _ Hne Hw H1 H2). stepf Hts (optExpr_parses "WHERE" wh _ Hwh) by (by eapply follow_clause). by eexists.
Qed.

Lemma call_parses p args ys ls :
  wfClause (CallClause p args ys) = true → follow stopClause ls → parses callClause (tail (pclause (CallClause p args ys)) ++ ls) (CallClause p args ys) ls.
Proof.
  cbn [wfClause pclause tail]. destruct (nameParts p) as [|a parts]; [done|].
  intros [[[[_ Ed%bool_decide_eq_true]%andb_true_iff Hp]%andb_true_iff Ha]%andb_true_iff Hy]%andb_true_iff Hls ts Hts. cbn [pdotted] in Hts. flat Hts.
  unfold callClause. step Hts (expectIdent_parses (λ _, ErrCallName) a _).
  assert (length parts < S (length ts0))%nat as Hl.
  { rewrite <-(length_fmap strip ts0), Hts, length_app. clear. induction parts; cbn in *; lia. }
  unshelve epose proof (dottedLoop_parses parts _ _ _ a Hl _ Hts) as (ts1 & E & Hts1); [done|]. rewrite E, Ed. cbn [res_bind]. clear E Hts Hl.
  rewrite Hp. step Hts1 (callArgs_parses args _ Ha). destruct ys as [|y ys]; cbn [pyield] in Hts1; flat Hts1.
  - stepf Hts1 (acceptKeyword_skips "YIELD" _) by (by eapply follow_clause). by eexists.
  - step Hts1 (acceptKeyword_parses "YIELD" _). stepf Hts1 (idents_parses (λ _, ErrYieldColumn) (y :: ys) ls eq_refl) by (by eapply follow_clause).
    by eexists.
Qed.

Lemma return_parses d items o sk li ls :
  wfClause (ReturnClause d items o sk li) = true → follow stopClause ls →
  parses returnClause (tail (pclause (ReturnClause d items o sk li)) ++ ls) (ReturnClause d items o sk li) ls.
Proof.
  cbn [wfClause pclause tail]. intros [[[[Hne Hi]%andb_true_iff Ho]%andb_true_iff Hsk]%andb_true_iff Hli]%andb_true_iff Hls ts Hts. flat Hts.
  unfold returnClause. step Hts (distinct_parses d items _ Hne).
  stepf Hts (items_parses items _ Hne Hi) by (apply follow_porder; [done|]; repeat (apply follow_popt; [done|]); by eapply follow_clause).
  stepf Hts (orderSkipLimit_parses o sk li ls Ho Hsk Hli) by (by eapply follow_clause). by eexists.
Qed.

Lemma with_parses d items wh o sk li ls :
  wfClause (WithClause d items wh o sk li) = true → follow stopClause ls →
  parses withClause (tail (pclause (WithClause d items wh o sk li)) ++ ls) (WithClause d items wh o sk li) ls.
Proof.
  cbn [wfClause pclause tail].
  intros [[[[[Hne Hi]%andb_true_iff Ho]%andb_true_iff Hsk]%andb_true_iff Hli]%andb_true_iff Hwh]%andb_true_iff Hls ts Hts. flat Hts.
  unfold withClause. step Hts (distinct_parses d items _ Hne).
  stepf Hts (items_parses items _ Hne Hi) by (apply follow_porder; [done|]; repeat (apply follow_popt; [done|]); by eapply follow_clause).
  stepf Hts (orderSkipLimit_parses o sk li _ Ho Hsk Hli) by (apply follow_popt; [done|]; by eapply follow_clause).
  stepf Hts (optExpr_parses "WHERE" wh ls Hwh) by (by eapply follow_clause). by eexists.
Qed.

Lemma clause_parses c ls : wfClause c = true → follow stopClause ls → parses clause (pclause c ++ ls) c ls.
Proof.
  intros Hw Hls ts Hts. destruct c as [o ps wh|ps|items|vs det|e a|d items ord sk li|d items wh ord sk li|p args ys].
  - apply andb_true_iff in Hw as [[Hne Hw]%andb_true_iff Hwh]. cbn [pclause] in Hts. destruct o; flat Hts.
    + dispatch Hts. step Hts (expectKeyword_parses "MATCH" _). by apply (match_parses true ps wh ls).
    + dispatch Hts. by apply (match_parses false ps wh ls).
  - apply andb_true_iff in Hw as [Hne Hw]. cbn [pclause] in Hts. flat Hts. dispatch Hts. unfold createClause.
    destruct (patternList_parses ps ls Hne Hw ltac:(by eapply follow_clause) ltac:(by eapply follow_clause) _ Hts) as (ts' & -> & Hts'). by eexists.
  - apply andb_true_iff in Hw as [Hne Hw]. cbn [pclause] in Hts. flat Hts. dispatch Hts. unfold setClause.
    step Hts (commaList_parses setItem psetItem stopExpr items ls (forallb_items _ _ _ _ _ Hw setItem_parses) (some_ne _ Hne) eq_refl
      (follow_clause stopExpr ls eq_refl Hls) (follow_clause (isnt (pu ",")) ls eq_refl Hls)). by eexists.
  - apply andb_true_iff in Hw as [[Hne Hw]%andb_true_iff Hd%negb_true_iff]. subst det. cbn [pclause] in Hts. flat Hts. dispatch Hts. unfold deleteClause.
    step Hts (idents_parses ErrDeleteVariable vs ls Hne (follow_clause (isnt (pu ",")) ls eq_refl Hls)). by eexists.
  - apply andb_true_iff in Hw as [Hw _]. cbn [pclause] in Hts. flat Hts. dispatch Hts. unfold unwindClause.
    stepf Hts (expr_parses e _ Hw) by done. step Hts (expectKeyword_parses "AS" _). step Hts (expectIdent_parses (λ _, ErrUnwindVariable) a _). by eexists.
  - change (pclause (ReturnClause d items ord sk li)) with (kw "RETURN" :: tail (pclause (ReturnClause d items ord sk li))) in Hts.
    rewrite <-app_comm_cons in Hts. dispatch Hts. by apply (return_parses d items ord sk li ls).
  - change (pclause (WithClause d items wh ord sk li)) with (kw "WITH" :: tail (pclause (WithClause d items wh ord sk li))) in Hts.
    rewrite <-app_comm_cons in Hts. dispatch Hts. by apply (with_parses d items wh ord sk li ls).
  - change (pclause (CallClause p args ys)) with (kw "CALL" :: tail (pclause (CallClause p args ys))) in Hts.
    rewrite <-app_comm_cons in Hts. dispatch Hts. by apply (call_parses p args ys ls).
Qed.

(** ** Queries *)

Definition pquery (cs : list Clause) : list Lexeme := concat (map pclause cs).

Lemma pclause_head c : ∃ l ls, pclause c = l :: ls ∧ stopClause l = true ∧ l ≠ eof.
Proof. destruct c as [[]| | | | | | |]; cbn [pclause app]; (eexists _, _; split; [done|split; [by vm_compute|done]]). Qed.

Lemma pquery_follow cs : follow stopClause (pquery cs ++ [eof]).
Proof.
  destruct cs as [|c cs]; [done|]. unfold pquery. cbn [map concat]. destruct (pclause_head c) as (l & ls & -> & Hl & _). done.
Qed.

Lemma clauseLoop_query cs fuel acc ts :
  forallb wfClause cs = true → (length cs < fuel)%nat → strip <$> ts = pquery cs ++ [eof] → clauseLoop fuel acc ts = Ok (acc ++ cs).
Proof.
  revert fuel acc ts. induction cs as [|c cs IH]; intros fuel acc ts Hw Hf Hts; (destruct fuel as [|fuel]; [cbn in Hf; lia|]); cbn [clauseLoop].
  - apply fmap_cons_inv in Hts as (t & ts' & [= Et _] & _ & ->). cbn [peek res_bind]. by rewrite <-Et, bool_decide_true, app_nil_r.
  - cbn [forallb] in Hw. apply andb_true_iff in Hw as [Hc Hw]. unfold pquery in Hts. cbn [map concat] in Hts. rewrite <-app_assoc in Hts.
    destruct (pclause_head c) as (l & ls & Ec & Hl & Hne). pose proof Hts as Hts0. rewrite Ec in Hts0.
    apply fmap_cons_inv in Hts0 as (t & ts' & Et & _ & ->). cbn [peek res_bind]. rewrite bool_decide_false.
    + step Hts (clause_parses c _ Hc (pquery_follow cs)). rewrite IH; [by rewrite <-app_assoc|done|cbn in Hf; lia|done].
    + intros Ety. apply bool_decide_eq_true in Hl. rewrite Et in Hl, Hne. unfold strip in *. rewrite Ety in *.
      unfold clauseStops in Hl. apply elem_of_cons in Hl as [?|Hl]; [done|]. apply list_elem_of_fmap in Hl as (x & Ex & _). done.
Qed.

End Round.

End CypherRound.
