(* ===== verification/CypherText.v ===== *)
(** * The text of a Cypher query

    Token sequences as text, and the round trip: lexing and parsing the text of a query gives
    the query back. *)

From S2P Require Import Prelude Bytes Strconv Command Float64 CypherSyntax CypherTotal CypherPrint CypherRound.

Local Open Scope Z_scope.

Module CypherText.
Import Strconv Command Float64 CypherSyntax CypherTotal CypherPrint CypherRound.

(** ** Text of lexemes *)

Definition escapeByte (c : byte) : bytes := if bool_decide (c = x5c) || bool_decide (c = x27) then [x5c; c] else [c].
Definition escape (s : bytes) : bytes := concat (map escapeByte s).

Definition lexText (l : Lexeme) : bytes :=
  match l.1 with
  | TokString => x27 :: escape l.2 ++ [x27]
  | TokParam => x24 :: l.2
  | _ => l.2
  end.

(** Every lexeme is followed by a space. *)
Definition renderLex (ls : list Lexeme) : bytes := concat (map (λ l, lexText l ++ [x20]) ls).

(** The lexemes the lexer gives. *)
Definition wfLex (l : Lexeme) : bool :=
  match l.1 with
  | TokEOF => false
  | TokKeyword => identShape l.2 && isKeywordWord l.2 && bool_decide (ToUpper l.2 = l.2)
  | TokIdent => identOk l.2
  | TokInt => some l.2 && forallb isDigit l.2
  | TokFloat => floatShape l.2
  | TokString => true
  | TokParam => forallb isIdentChar l.2
  | TokPunct => bool_decide (l.2 ∈ multiPunct ++ map (λ c, [c]) singlePunct)
  end.

(** ** Lexing the text *)

Lemma spanWhile_all (f : byte → bool) s c rest : forallb f s = true → f c = false → spanWhile f (s ++ c :: rest) = (s, c :: rest).
Proof.
  intros Hs Hc. induction s as [|d s IH]; cbn in *; [by rewrite Hc|]. apply andb_true_iff in Hs as [-> Hs]. by rewrite IH.
Qed.

Lemma lexString_escape s d rest : lexString x27 (escape s ++ x27 :: d :: rest) = Some (s, d :: rest).
Proof.
  induction s as [|c s IH]; [done|]. unfold escape, escapeByte in *. cbn [map concat].
  destruct (bool_decide (c = x5c) || bool_decide (c = x27)) eqn:E; cbn [app].
  - cbn [lexString]. rewrite bool_decide_true by done. by rewrite IH.
  - apply orb_false_iff in E as [E1 E2].
    destruct (concat (map _ s) ++ x27 :: d :: rest) as [|e r] eqn:Er; [by destruct (concat (map _ s))|].
    cbn [lexString] in *. rewrite E1, E2. by rewrite IH.
Qed.

Lemma digit_class c : isDigit c = true → isSpace c = false ∧ isQuote c = false ∧ bool_decide (c = x24) = false.
Proof. destruct c; by vm_compute. Qed.
Lemma ident_class c :
  isIdentStart c = true → isSpace c = false ∧ isQuote c = false ∧ bool_decide (c = x24) = false ∧ isDigit c = false ∧ bool_decide (c = x2e) = false.
Proof. destruct c; by vm_compute. Qed.

Lemma lexNumber_text s rest :
  forallb (λ c, isDigit c || bool_decide (c = x2e)) s = true →
  lexNumber (s ++ x20 :: rest) = (if existsb (λ c, bool_decide (c = x2e)) s then TokFloat else TokInt, s, x20 :: rest).
Proof. intros Hs. unfold lexNumber. by rewrite spanWhile_all. Qed.

Lemma lexOne_number c s rest i :
  isDigit c = true → forallb (λ c, isDigit c || bool_decide (c = x2e)) s = true →
  lexOne c (s ++ x20 :: rest) i =
    Ok (Some (mkToken (if existsb (λ c, bool_decide (c = x2e)) s then TokFloat else TokInt) (c :: s) i), x20 :: rest).
Proof.
  intros Hc Hs. destruct (digit_class c Hc) as (E1 & E2 & E3). unfold lexOne. rewrite E1, E2, E3, Hc. cbn [orb]. rewrite app_comm_cons.
  rewrite (lexNumber_text (c :: s)) by (cbn; by rewrite Hc). cbn [existsb]. replace (bool_decide (c = x2e)) with false; [done|].
  symmetry. apply bool_decide_eq_false. intros ->. by vm_compute in Hc.
Qed.

Lemma lexOne_word c s rest i :
  isIdentStart c = true → forallb isIdentChar s = true →
  lexOne c (s ++ x20 :: rest) i =
    Ok (Some (if isKeywordWord (c :: s) then mkToken TokKeyword (ToUpper (c :: s)) i else mkToken TokIdent (c :: s) i), x20 :: rest).
Proof.
  intros Hc Hs. destruct (ident_class c Hc) as (E1 & E2 & E3 & E4 & E5). unfold lexOne. rewrite E1, E2, E3, E4, E5, Hc. cbn [orb andb].
  by rewrite spanWhile_all.
Qed.

(** Lexing the text of a well-formed lexeme gives the lexeme and leaves the space. *)
Lemma lexOne_text l rest i :
  wfLex l = true → ∃ c s, lexText l = c :: s ∧ lexOne c (s ++ x20 :: rest) i = Ok (Some (mkToken l.1 l.2 i), x20 :: rest).
Proof.
  destruct l as [[] v]; unfold wfLex, lexText; cbn [fst snd]; intros Hw; [done|..].
  - apply andb_true_iff in Hw as [[Hs Hk]%andb_true_iff Hu%bool_decide_eq_true]. destruct v as [|c v]; [done|].
    cbn in Hs. apply andb_true_iff in Hs as [Hc Hs]. exists c, v. split; [done|]. by rewrite lexOne_word, Hk, Hu.
  - apply andb_true_iff in Hw as [Hs Hk%negb_true_iff]. destruct v as [|c v]; [done|].
    cbn in Hs. apply andb_true_iff in Hs as [Hc Hs]. exists c, v. split; [done|]. by rewrite lexOne_word, Hk.
  - apply andb_true_iff in Hw as [Hn Hd]. destruct v as [|c v]; [done|]. cbn in Hd. apply andb_true_iff in Hd as [Hc Hd]. exists c, v. split; [done|].
    assert (existsb (λ c, bool_decide (c = x2e)) v = false) as Hx.
    { clear -Hd. induction v as [|d v IH]; [done|]. cbn in *. apply andb_true_iff in Hd as [Hd Hv]. rewrite IH by done.
      rewrite orb_false_r. apply bool_decide_eq_false. intros ->. by vm_compute in Hd. }
    rewrite lexOne_number; [by rewrite Hx|done|]. clear -Hd. induction v as [|d v IH]; [done|]. cbn in *. apply andb_true_iff in Hd as [-> Hv]. by rewrite IH.
  - destruct v as [|c v]; [done|]. cbn in Hw. apply andb_true_iff in Hw as [[Hc Hd]%andb_true_iff Hx]. exists c, v. split; [done|].
    by rewrite lexOne_number, Hx.
  - eexists _, _. split; [done|]. rewrite <-app_assoc. cbn [app]. unfold lexOne. cbn [isSpace isQuote].
    replace (isSpace x27) with false by done. replace (isQuote x27) with true by done. by rewrite lexString_escape.
  - eexists _, _. split; [done|]. unfold lexOne. replace (isSpace x24) with false by done. replace (isQuote x24) with false by done.
    rewrite bool_decide_true by done. by rewrite spanWhile_all.
  - apply bool_decide_eq_true in Hw. let l := eval vm_compute in (multiPunct ++ map (λ c, [c]) singlePunct) in change (v ∈ l) in Hw.
    repeat (apply elem_of_cons in Hw as [->|Hw]; [eexists _, _; split; reflexivity|]). by apply elem_of_nil in Hw.
Qed.

Lemma lexLoop_render ls fuel i :
  forallb wfLex ls = true → (length (renderLex ls) ≤ fuel)%nat →
  ∃ ts, lexLoop fuel (renderLex ls) i = Ok ts ∧ strip <$> ts = ls ++ [eof].
Proof.
  revert fuel i. induction ls as [|l ls IH]; intros fuel i Hw Hf; [destruct fuel; by eexists|].
  cbn [forallb] in Hw. apply andb_true_iff in Hw as [Hl Hw].
  destruct (lexOne_text l (renderLex ls) i Hl) as (c & s & E & El). unfold renderLex in *. cbn [map concat] in *. rewrite E in *.
  rewrite <-!app_assoc in *. cbn [app] in *. cbn [length] in Hf. rewrite length_app in Hf. cbn [length] in Hf.
  destruct fuel as [|[|fuel]]; [lia..|]. cbn [lexLoop]. rewrite El. cbn [res_bind].
  unfold lexOne at 1. replace (isSpace x20) with true by done. cbn [res_bind].
  match goal with |- context [lexLoop fuel _ ?j] => destruct (IH fuel j Hw ltac:(lia)) as (ts & -> & Hts) end. cbn [res_bind].
  eexists. split; [done|]. cbn [fmap list_fmap]. rewrite Hts. by destruct l.
Qed.

(** ** Printed lexemes are well formed *)

Definition lexes (ls : list Lexeme) : Prop := forallb wfLex ls = true.

Lemma lexes_cons l ls : wfLex l = true → lexes ls → lexes (l :: ls).
Proof. unfold lexes. cbn. by intros -> ->. Qed.
Lemma lexes_app ls ls' : lexes ls → lexes ls' → lexes (ls ++ ls').
Proof. unfold lexes. rewrite forallb_app. by intros -> ->. Qed.
Lemma lexes_nil : lexes [].
Proof. done. Qed.

Lemma lexes_commas lss : Forall lexes lss → lexes (commas lss).
Proof.
  induction 1 as [|ls lss Hls Hlss IH]; [done|]. destruct lss as [|ls' lss]; [done|].
  change (commas (ls :: ls' :: lss)) with (ls ++ pu "," :: commas (ls' :: lss)). apply lexes_app; [done|]. by apply lexes_cons.
Qed.
Lemma lexes_concat lss : Forall lexes lss → lexes (concat lss).
Proof. induction 1; [done|]. cbn. by apply lexes_app. Qed.
Lemma Forall_lexes {A} (pr : A → list Lexeme) (wf : A → bool) xs :
  forallb wf xs = true → (∀ x, wf x = true → lexes (pr x)) → Forall lexes (map pr xs).
Proof. rewrite forallb_forall. intros Hw Hp. apply Forall_map, Forall_forall. intros x Hx. by apply Hp, Hw, list_elem_of_In. Qed.

Lemma wfLex_name v : nameOk v = true → wfLex (nameLex v) = true.
Proof.
  unfold nameOk, nameLex, wfLex, identOk. intros [Hs Hk]%andb_true_iff. destruct (isKeywordWord v) eqn:E; cbn [fst snd]; rewrite Hs, E; [|done].
  cbn [negb orb andb] in *. done.
Qed.

Lemma wfLex_op op : op ∈ binOps → wfLex (opLex op) = true.
Proof.
  intros Hop. let l := eval vm_compute in binOps in change (op ∈ l) in Hop.
  repeat (apply elem_of_cons in Hop as [->|Hop]; [by vm_compute|]). by apply elem_of_nil in Hop.
Qed.

Lemma wfLex_int i : 0 ≤ i < 2 ^ 63 → wfLex (TokInt, FormatUint i) = true.
Proof.
  intros Hi. destruct (FormatUint_spec i) as (Hn & Hd & _); [unfold in_u64; lia|]. unfold wfLex. cbn [fst snd]. destruct (FormatUint i); [done|]. cbn [some andb].
  apply forallb_forall. intros c Hc. rewrite Forall_forall in Hd. apply list_elem_of_In, Hd in Hc. destruct Hc as [z Hz]. by destruct c.
Qed.

#[local] Hint Resolve lexes_nil lexes_cons lexes_app lexes_commas lexes_concat wfLex_name wfLex_op : lexes.
#[local] Hint Extern 1 (wfLex (pu _) = true) => vm_compute; reflexivity : lexes.
#[local] Hint Extern 1 (wfLex (kw _) = true) => vm_compute; reflexivity : lexes.
#[local] Hint Extern 1 (wfLex (TokIdent, _) = true) => cbn : lexes.

Section Text.
Context (floatText : float64 → bytes).

Lemma pexpr_lexes e : wfExpr floatText e = true → lexes (pexpr floatText e).
Proof.
  induction e as [n|v p|i|fl|s|b| |es IH|kvs IH|n|op l e IHl IHe|op e IHe|name es IH] using Expr_ind_nested; cbn [wfExpr pexpr]; intros Hw.
  - auto with lexes.
  - apply andb_true_iff in Hw as [??]. auto with lexes.
  - apply andb_true_iff in Hw as [?%Z.leb_le ?%Z.ltb_lt]. apply lexes_cons; [|done]. apply wfLex_int. lia.
  - apply andb_true_iff in Hw as [? _]. apply lexes_cons; done.
  - done.
  - by destruct b.
  - done.
  - apply lexes_cons; [done|]. apply lexes_app; [|done]. apply lexes_commas, Forall_map. rewrite forallb_forall in Hw.
    rewrite Forall_forall in *. intros e He. apply IH; [done|]. by apply Hw, list_elem_of_In.
  - apply andb_true_iff in Hw as [_ Hw]. apply lexes_cons; [done|]. apply lexes_app; [|done]. apply lexes_commas, Forall_map. rewrite forallb_forall in Hw.
    rewrite Forall_forall in *. intros kv Hkv. pose proof Hkv as [Hn He]%list_elem_of_In%Hw%andb_true_iff. cbn. auto 6 with lexes.
  - apply lexes_cons; done.
  - apply andb_true_iff in Hw as [[Hop%bool_decide_eq_true ?]%andb_true_iff ?]. auto 8 with lexes.
  - apply andb_true_iff in Hw as [_ ?]. case_bool_decide; auto 8 with lexes.
  - destruct (splitDot name) as [a b]. apply andb_true_iff in Hw as [[[Ha Hb]%andb_true_iff _]%andb_true_iff Hw].
    apply lexes_app; [auto with lexes|]. apply lexes_app; [|done]. apply lexes_commas, Forall_map. rewrite forallb_forall in Hw.
    rewrite Forall_forall in *. intros e He. apply IH; [done|]. by apply Hw, list_elem_of_In.
Qed.

Lemma pprops_lexes kvs : wfProps floatText kvs = true → lexes (pprops floatText kvs).
Proof.
  unfold wfProps. intros [_ Hw]%andb_true_iff. assert (lexes (commas (map (pentry floatText) kvs))) as Hc.
  { eapply lexes_commas, Forall_lexes; [done|]. intros [k e] [??]%andb_true_iff. unfold pentry. cbn [fst snd] in *. auto using pexpr_lexes with lexes. }
  destruct kvs; [done|]. unfold pprops. auto with lexes.
Qed.

Lemma pvar_lexes v : wfVar v = true → lexes (pvar v).
Proof. destruct v; [done|]. intros. by apply lexes_cons. Qed.

Lemma pnode_lexes n : wfNode floatText n = true → lexes (pnode floatText n).
Proof.
  unfold wfNode, pnode. intros [[Hv Hl]%andb_true_iff Hp]%andb_true_iff.
  assert (lexes (concat (map (λ l, [pu ":"; nameLex l]) (np_Labels n)))).
  { eapply lexes_concat, Forall_lexes; [exact Hl|]. auto with lexes. }
  auto 8 using pvar_lexes, pprops_lexes with lexes.
Qed.

Lemma prelTypes_lexes types : forallb nameOk types = true → lexes (prelTypes types).
Proof.
  intros Hw. assert (lexes (ptypes types)) as Ht.
  { induction types as [|t types IH]; [done|]. cbn in Hw. apply andb_true_iff in Hw as [Ht Hw]. specialize (IH Hw). destruct types; cbn [ptypes]; auto with lexes. }
  destruct types; [done|]. unfold prelTypes. auto with lexes.
Qed.

Lemma prel_lexes r : wfRel floatText r = true → lexes (prel floatText r).
Proof.
  unfold wfRel, prel. intros [[Hv Hl]%andb_true_iff Hp]%andb_true_iff.
  apply lexes_cons; [by destruct (rp_Direction r)|]. apply lexes_cons; [done|].
  repeat apply lexes_app; auto using pvar_lexes, prelTypes_lexes, pprops_lexes. by destruct (rp_Direction r).
Qed.

Lemma ppart_lexes p : wfPart floatText p = true → lexes (ppart floatText p).
Proof.
  unfold wfPart, ppart. intros [[[Hn Hr]%andb_true_iff Hns]%andb_true_iff _]%andb_true_iff. apply lexes_app; [by apply pnode_lexes|].
  apply lexes_concat. revert Hr Hns. generalize (pp_Nodes p). induction (pp_Rels p) as [|r rels IH]; intros [|n nodes] Hr Hns; [constructor..|].
  cbn in Hr, Hns. apply andb_true_iff in Hr as [??], Hns as [??]. constructor; [|auto]. auto using prel_lexes, pnode_lexes with lexes.
Qed.

Lemma popt_lexes k e : wfLex (kw k) = true → wfOpt floatText e = true → lexes (popt floatText k e).
Proof. destruct e; [|done]. intros. apply lexes_cons; [done|]. by apply pexpr_lexes. Qed.

Lemma pidents_lexes vs : forallb identOk vs = true → lexes (pidents vs).
Proof. intros Hw. eapply lexes_commas, Forall_lexes; [exact Hw|]. intros v Hv. by apply lexes_cons. Qed.

Lemma pitems_lexes items : forallb (wfItem floatText) items = true → lexes (commas (map (pitem floatText) items)).
Proof.
  intros Hw. eapply lexes_commas, Forall_lexes; [exact Hw|]. intros [e a] [He Ha]%andb_true_iff. unfold pitem. cbn [ri_Expr ri_Alias] in *.
  apply lexes_app; [by apply pexpr_lexes|]. destruct a; [done|]. auto with lexes.
Qed.

Lemma porder_lexes o : forallb (wfSort floatText) o = true → lexes (porder floatText o).
Proof.
  intros Hw. assert (lexes (commas (map (psort floatText) o))).
  { eapply lexes_commas, Forall_lexes; [exact Hw|]. intros [e d] He. unfold psort. cbn [so_Expr so_Desc]. apply lexes_app; [by apply pexpr_lexes|by destruct d]. }
  destruct o; [done|]. unfold porder. auto with lexes.
Qed.

Lemma pyield_lexes ys : forallb identOk ys = true → lexes (pyield ys).
Proof. intros Hw. pose proof (pidents_lexes ys Hw). destruct ys; [done|]. unfold pyield. auto with lexes. Qed.

Lemma pdotted_lexes parts : forallb identOk parts = true → lexes (pdotted parts).
Proof.
  destruct parts as [|a parts]; [done|]. cbn. intros [Ha Hw]%andb_true_iff. apply lexes_cons; [done|].
  eapply lexes_concat, Forall_lexes; [exact Hw|]. intros x Hx. auto with lexes.
Qed.

Lemma pparts_lexes ps : forallb (wfPart floatText) ps = true → lexes (commas (map (ppart floatText) ps)).
Proof. intros Hw. eapply lexes_commas, Forall_lexes; [exact Hw|]. apply ppart_lexes. Qed.

Lemma pclause_lexes c : wfClause floatText c = true → lexes (pclause floatText c).
Proof.
  destruct c as [o ps wh|ps|items|vs det|e a|d items ord sk li|d items wh ord sk li|p args ys]; cbn [wfClause pclause]; intros Hw.
  - apply andb_true_iff in Hw as [[_ Hw]%andb_true_iff Hwh]. apply lexes_app; [by destruct o|]. auto using pparts_lexes, popt_lexes with lexes.
  - apply andb_true_iff in Hw as [_ Hw]. auto using pparts_lexes with lexes.
  - apply andb_true_iff in Hw as [_ Hw]. apply lexes_cons; [done|]. eapply lexes_commas, Forall_lexes; [exact Hw|].
    intros [v p e] [[Hv Hp]%andb_true_iff He]%andb_true_iff. unfold psetItem. cbn in *. auto 7 using pexpr_lexes with lexes.
  - apply andb_true_iff in Hw as [[_ Hw]%andb_true_iff _]. auto using pidents_lexes with lexes.
  - apply andb_true_iff in Hw as [He Ha]. auto 6 using pexpr_lexes with lexes.
  - apply andb_true_iff in Hw as [[[[_ Hi]%andb_true_iff Ho]%andb_true_iff Hsk]%andb_true_iff Hli]. apply lexes_cons; [done|].
    apply lexes_app; [by destruct d|]. auto using pitems_lexes, porder_lexes, popt_lexes with lexes.
  - apply andb_true_iff in Hw as [[[[[_ Hi]%andb_true_iff Ho]%andb_true_iff Hsk]%andb_true_iff Hli]%andb_true_iff Hwh]. apply lexes_cons; [done|].
    apply lexes_app; [by destruct d|]. auto 8 using pitems_lexes, porder_lexes, popt_lexes with lexes.
  - apply andb_true_iff in Hw as [[[Hp _]%andb_true_iff Ha]%andb_true_iff Hy]. apply lexes_cons; [done|]. apply lexes_app.
    { apply pdotted_lexes. destruct (nameParts p); [done|]. by apply andb_true_iff in Hp as [? _]. }
    apply lexes_cons; [done|]. apply lexes_app; [|auto using pyield_lexes with lexes].
    eapply lexes_commas, Forall_lexes; [exact Ha|]. apply pexpr_lexes.
Qed.

(** ** The round trip *)

(** The text of a query. *)
Definition printQuery (cs : list Clause) : bytes := renderLex (pquery floatText cs).
Definition wfQuery (cs : list Clause) : bool := some cs && forallb (wfClause floatText) cs.

End Text.

(** ** Properties *)

(** C18: Printing a query and parsing the text gives the query: every clause, pattern,
    projection and expression, with every operator, is read back as the same tree. The query
    is one the parser can build, with the literals' floating-point texts given by
    [floatText]. *)
Theorem parse_print (floatText : float64 → bytes) (cs : list Clause) :
  wfQuery floatText cs = true → Parse (printQuery floatText cs) = Ok cs.
Proof.
  intros [Hne Hw]%andb_true_iff. unfold Parse, Lex.
  destruct (lexLoop_render (pquery floatText cs) (length (printQuery floatText cs)) 0) as (ts & E & Hts); [|done|].
  { eapply lexes_concat, Forall_lexes; [exact Hw|]. apply pclause_lexes. }
  fold (printQuery floatText cs) in E. rewrite E. cbn [res_bind]. unfold parseTokens. rewrite (clauseLoop_query floatText cs _ [] ts); [by destruct cs|done| |done].
  rewrite <-(length_fmap strip ts), Hts, length_app. apply Nat.lt_succ_r. transitivity (length (pquery floatText cs)); [|lia].
  unfold pquery. clear. induction cs as [|c cs IH]; [done|]. cbn [map concat length]. rewrite length_app.
  destruct (pclause_head floatText c) as (l & ls & -> & _). cbn [length]. lia.
Qed.

Definition sampleFloat (f : float64) : bytes := lit "0.5".
Definition sampleQuery : list Clause :=
  [ MatchClause true
      [ mkPatternPart (mkNodePattern (lit "a") [lit "User"] [(lit "name", LitStr (lit "it's"))])
          [mkRelPattern (lit "r") [lit "KNOWS"; lit "LIKES"] DirIn []; mkRelPattern [] [] DirOut []]
          [mkNodePattern (lit "b") [] []; mkNodePattern [] [] []] ]
      (Some (BinaryExpr (lit "OR")
        (BinaryExpr (lit "=") (PropertyAccess (lit "a") (lit "age")) (BinaryExpr (lit "+") (LitInt 1) (BinaryExpr (lit "*") (LitInt 2) (LitInt 3))))
        (UnaryExpr (lit "NOT") (BinaryExpr (lit "IN") (Variable_ (lit "b")) (LitList [LitBool true; LitNull; UnaryExpr (lit "-") (LitInt 7)])))));
    CallClause (lit "vector.search") [Parameter_ (lit "q"); LitMap [(lit "k", LitInt 3)]] [lit "node"; lit "score"];
    UnwindClause (LitList [LitInt 1]) (lit "x");
    WithClause true [mkReturnItem (Variable_ (lit "x")) (lit "y")] (Some (BinaryExpr (lit ">") (Variable_ (lit "y")) (LitFloat (ParseFloatLit (lit "0.5")))))
      [mkSortItem (Variable_ (lit "y")) true] (Some (LitInt 1)) (Some (LitInt 2));
    CreateClause [mkPatternPart (mkNodePattern (lit "c") [] []) [] []];
    SetClause [mkSetItem (lit "c") (lit "p") (FunctionCall (lit "kv.get") [LitStr (lit "k")])];
    DeleteClause [lit "b"] false;
    ReturnClause false [mkReturnItem (Variable_ (lit "a")) []] [] None None ].

Lemma parse_print_witness :
  Parse (printQuery sampleFloat sampleQuery) = Ok sampleQuery.
Proof. apply (parse_print sampleFloat sampleQuery). vm_compute. reflexivity. Defined.

End CypherText.
