(* ===== verification/CypherExec.v ===== *)
(** * Cypher: planner and executor (internal/cypher/planner)

    The logical plan of a query (logical.go), the evaluation of expressions (eval.go), the
    executor over a graph store (executor.go, executor_write.go), the guardrails and the
    built-in kv and collection procedures. The key-value and collection backends are records of
    operations over a state; the vector procedures are a parameter. *)

From Stdlib Require Import Floats.SpecFloat.
From stdpp Require Import sorting.
From S2P Require Import Prelude Bytes Strconv Hlc Version Conflict Storage Command Uvarint Float64 Graph CypherSyntax.

Local Open Scope Z_scope.

Module CypherExec.
Import Strconv Version Conflict Storage Command Float64 Graph CypherSyntax.

(** ** Logical plans (logical.go) *)

Inductive LogicalOp :=
  | LabelScan (variable label : bytes)
  | AllNodesScan (variable : bytes)
  | PropertyFilter (predicate : Expr)
  | ExpandOutgoing (from to relVar typ : bytes)
  | ExpandIncoming (from to relVar typ : bytes)
  | ExpandBoth (from to relVar typ : bytes)
  | Unwind (e : Expr) (alias : bytes)
  | Project (items : list ReturnItem) (distinct : bool)
  | Sort (keys : list SortItem)
  | SkipLimit (skip limit : option Expr)
  | CreatePatterns (patterns : list PatternPart)
  | SetItems (items : list SetItem)
  | DeleteVars (variables : list bytes)
  | ProcCall (procedure : bytes) (args : list Expr) (yields : list bytes).

Definition appendOrderSkipLimit (ops : list LogicalOp) (order : list SortItem) (skip limit : option Expr) : list LogicalOp :=
  let ops := match order with [] => ops | _ => ops ++ [Sort order] end in
  match skip, limit with None, None => ops | _, _ => ops ++ [SkipLimit skip limit] end.

Section Planner.
(** The order in which a [range] statement visits the entries of a map. *)
Context (rangeOrder : ∀ A, list A → list A).

Definition andPred (pred : option Expr) (eq : Expr) : option Expr :=
  match pred with None => Some eq | Some p => Some (BinaryExpr (lit "AND") p eq) end.

Definition inlinePropFilter (n : NodePattern) : list LogicalOp :=
  match fold_left (λ pred '(prop, val), andPred pred (BinaryExpr (lit "=") (PropertyAccess (np_Variable n) prop) val))
          (rangeOrder _ (np_Properties n)) None with
  | None => []
  | Some pred => [PropertyFilter pred]
  end.

(** The first name of a list, or the empty name. *)
Definition firstName (l : list bytes) : bytes := match l with t :: _ => t | [] => [] end.

Definition expandOp (rel : RelPattern) (from to : bytes) : LogicalOp :=
  let typ := firstName (rp_Types rel) in
  match rp_Direction rel with
  | DirIn => ExpandIncoming from to (rp_Variable rel) typ
  | DirBoth => ExpandBoth from to (rp_Variable rel) typ
  | DirOut => ExpandOutgoing from to (rp_Variable rel) typ
  end.

(** The hops of a pattern from a node on; every relationship has its node. *)
Fixpoint planHops (from : bytes) (rels : list RelPattern) (nodes : list NodePattern) : list LogicalOp :=
  match rels, nodes with
  | rel :: rels, n :: nodes => expandOp rel from (np_Variable n) :: inlinePropFilter n ++ planHops (np_Variable n) rels nodes
  | _, _ => []
  end.

Definition planAnchor (n : NodePattern) : LogicalOp :=
  match np_Labels n with l :: _ => LabelScan (np_Variable n) l | [] => AllNodesScan (np_Variable n) end.

Definition planPart (p : PatternPart) : list LogicalOp :=
  planAnchor (pp_Node p) :: inlinePropFilter (pp_Node p) ++ planHops (np_Variable (pp_Node p)) (pp_Rels p) (pp_Nodes p).

Definition planMatch (patterns : list PatternPart) (wh : option Expr) : list LogicalOp :=
  (patterns ≫= planPart) ++ match wh with Some e => [PropertyFilter e] | None => [] end.

Definition planClause (c : Clause) : list LogicalOp :=
  match c with
  | MatchClause _ patterns wh => planMatch patterns wh
  | CreateClause patterns => [CreatePatterns patterns]
  | SetClause items => [SetItems items]
  | DeleteClause variables _ => [DeleteVars variables]
  | UnwindClause e alias => [Unwind e alias]
  | CallClause procedure args yields => [ProcCall procedure args yields]
  | WithClause distinct items wh orderBy skip limit =>
      appendOrderSkipLimit (Project items distinct :: match wh with Some e => [PropertyFilter e] | None => [] end) orderBy skip limit
  | ReturnClause distinct items orderBy skip limit => appendOrderSkipLimit [Project items distinct] orderBy skip limit
  end.

Definition Plan (q : list Clause) : list LogicalOp := q ≫= planClause.

End Planner.

(** ** Values (eval.go) *)

Definition vNull : Value := VNull true.

(** What a variable is bound to. *)
Inductive Binding := BNode (n : NodeRecord) | BEdge (e : EdgeRecord) | BValue (v : Value).

Abbreviation bindingRow := (gmap bytes Binding).

Definition bindingToValue (b : option Binding) : Value :=
  match b with
  | Some (BValue v) => v
  | Some (BNode n) => VString (nd_NodeId n)
  | Some (BEdge e) => VString (ed_EdgeId e)
  | None => vNull
  end.

Definition propOf (b : option Binding) (prop : bytes) : Value :=
  match b with
  | Some (BNode n) => default vNull (nd_Properties n !! prop)
  | Some (BEdge e) => default vNull (ed_Properties e !! prop)
  | _ => vNull
  end.

(** The value of a literal; in lists and maps only the literals count. *)
Fixpoint literalValue (e : Expr) : option Value :=
  match e with
  | LitInt i => Some (VInt i)
  | LitFloat f => Some (VDouble f)
  | LitStr s => Some (VString s)
  | LitBool b => Some (VBool b)
  | LitNull => Some vNull
  | LitList es => Some (VList (concat (map (λ el, match literalValue el with Some v => [v] | None => [] end) es)))
  | LitMap kvs => Some (VMap (concat (map (λ kv, match literalValue kv.2 with Some v => [(kv.1, v)] | None => [] end) kvs)))
  | _ => None
  end.

Definition valueTruthy (v : Value) : bool :=
  match v with VBool b => b | VNull _ | VUnset => false | _ => true end.

Definition asFloat (v : Value) : option float64 :=
  match v with VInt i => Some (of_Z i) | VDouble f => Some f | _ => None end.

Definition GetIntValue (v : Value) : Z := match v with VInt i => i | _ => 0 end.
Definition GetStringValue (v : Value) : bytes := match v with VString s => s | _ => [] end.

Section Values.
(** [strconv.FormatFloat] with the shortest digits. *)
Context (FormatFloat : float64 → bytes).

Definition valueKey (v : Value) : bytes :=
  match v with
  | VInt i => lit "i" ++ FormatInt i
  | VDouble f => lit "f" ++ FormatFloat f
  | VString s => lit "s" ++ s
  | VBool b => lit "b" ++ (if b then lit "true" else lit "false")
  | VBytes b => lit "y" ++ b
  | _ => lit "n"
  end.

Definition compareValues (a b : Value) : Z :=
  match asFloat a, asFloat b with
  | Some af, Some bf => if fltb af bf then -1 else if fltb bf af then 1 else 0
  | _, _ => strings_Compare (valueKey a) (valueKey b)
  end.

Definition arith (l r : Value) (ff : float64 → float64 → float64) (fi : Z → Z → Z) : Value :=
  match l, r with
  | VInt a, VInt b => VInt (fi a b)
  | _, _ =>
      match asFloat l, asFloat r with
      | Some lf, Some rf => VDouble (ff lf rf)
      | _, _ => vNull
      end
  end.

(** [-f]: the sign flipped. *)
Definition fneg (f : float64) : float64 := SFopp f.

Definition unaryValue (op : bytes) (v : Value) : Value :=
  if bool_decide (op = lit "NOT") then VBool (negb (valueTruthy v))
  else if bool_decide (op = lit "-") then
    match v with VInt i => VInt (int64 (- i)) | VDouble f => VDouble (fneg f) | _ => vNull end
  else vNull.

(** The operators that evaluate both operands. *)
Definition binaryValue (op : bytes) (l r : Value) : Value :=
  let opIs s := bool_decide (op = lit s) in
  if opIs "=" then VBool (compareValues l r =? 0)
  else if opIs "<>" then VBool (negb (compareValues l r =? 0))
  else if opIs "<" then VBool (compareValues l r <? 0)
  else if opIs ">" then VBool (0 <? compareValues l r)
  else if opIs "<=" then VBool (compareValues l r <=? 0)
  else if opIs ">=" then VBool (0 <=? compareValues l r)
  else if opIs "+" then arith l r fadd (λ a b, int64 (a + b))
  else if opIs "-" then arith l r fsub (λ a b, int64 (a - b))
  else if opIs "*" then arith l r fmul (λ a b, int64 (a * b))
  else if opIs "/" then arith l r fdiv (λ a b, if b =? 0 then 0 else int64 (Z.quot a b))
  else if opIs "IN" then
    VBool (match r with VList vs => existsb (λ elem, compareValues l elem =? 0) vs | _ => false end)
  else vNull.

End Values.

(** [utf8.Valid]. *)
Fixpoint utf8_Valid (s : bytes) : bool :=
  match s with
  | [] => true
  | a :: s1 =>
      if inRange 0 127 a then utf8_Valid s1
      else match s1 with
      | b :: s2 =>
          if inRange 194 223 a && inRange 128 191 b then utf8_Valid s2
          else match s2 with
          | c :: s3 =>
              if ((inRange 224 224 a && inRange 160 191 b) || (inRange 225 236 a && inRange 128 191 b) ||
                  (inRange 237 237 a && inRange 128 159 b) || (inRange 238 239 a && inRange 128 191 b)) && inRange 128 191 c
              then utf8_Valid s3
              else match s3 with
              | d :: s4 =>
                  if ((inRange 240 240 a && inRange 144 191 b) || (inRange 241 243 a && inRange 128 191 b) ||
                      (inRange 244 244 a && inRange 128 143 b)) && inRange 128 191 c && inRange 128 191 d
                  then utf8_Valid s4 else false
              | [] => false
              end
          | [] => false
          end
      | [] => false
      end
  end.

Definition vAuto (b : bytes) : Value := if utf8_Valid b then VString b else VBytes b.

(** ** Guardrails (guardrails.go, router.go) *)

Record Limits := mkLimits {
  MaxRowsReturned : Z; MaxIntermediateRows : Z; MaxTraversalDepth : Z;
  MaxRemoteFragments : Z; QueryTimeoutMs : Z; MaxMemoryBytes : Z;
}.

#[export] Instance Limits_eq_dec : EqDecision Limits.
Proof. solve_decision. Defined.

Definition DefaultLimits : Limits := mkLimits 100000 1000000 8 128 30000 (512 * 2 ^ 20).

Record Route := mkRoute { rt_Fragments : Z; rt_Capped : bool; rt_PartialGraphPossible : bool }.

Definition RouteFragments (targetPartitions : Z) (limits : Limits) : Route :=
  let capped := MaxRemoteFragments limits <? targetPartitions in
  mkRoute (if capped then MaxRemoteFragments limits else targetPartitions) capped (capped || (1 <? targetPartitions)).

(** ** The executor (executor.go) *)

(** Key-value and collection access, over a state [K] of the backends with errors [BE]. *)
Record KVAccess (K BE : Type) := mkKVAccess {
  kv_Get : bytes → bytes → K → res BE (bytes * bool * bool) * K;
  kv_Put : bytes → bytes → bytes → option Z → K → res BE bytes * K;
  kv_Delete : bytes → bytes → K → res BE bytes * K;
}.
Arguments mkKVAccess {K BE} _ _ _.
Arguments kv_Get {K BE} _ _ _ _.
Arguments kv_Put {K BE} _ _ _ _ _ _.
Arguments kv_Delete {K BE} _ _ _ _.

Record CollectionsAccess (K BE : Type) := mkCollectionsAccess {
  co_SAdd : bytes → bytes → bytes → K → res BE Z * K;
  co_SRem : bytes → bytes → bytes → K → res BE Z * K;
  co_SIsMember : bytes → bytes → bytes → K → res BE bool * K;
  co_SCard : bytes → bytes → K → res BE Z * K;
  co_SMembers : bytes → bytes → Z → K → res BE (list bytes) * K;
  co_HSet : bytes → bytes → bytes → bytes → K → res BE Z * K;
  co_HGet : bytes → bytes → bytes → K → res BE (bytes * bool) * K;
  co_HGetAll : bytes → bytes → Z → K → res BE (list (bytes * bytes)) * K;
  co_ZAdd : bytes → bytes → bytes → float64 → K → res BE Z * K;
  co_ZScore : bytes → bytes → bytes → K → res BE (float64 * bool) * K;
  co_ZRange : bytes → bytes → Z → K → res BE (list (bytes * float64)) * K;
}.
Arguments co_SAdd {K BE} _ _ _ _ _.
Arguments co_SRem {K BE} _ _ _ _ _.
Arguments co_SIsMember {K BE} _ _ _ _ _.
Arguments co_SCard {K BE} _ _ _ _.
Arguments co_SMembers {K BE} _ _ _ _ _.
Arguments co_HSet {K BE} _ _ _ _ _ _.
Arguments co_HGet {K BE} _ _ _ _ _.
Arguments co_HGetAll {K BE} _ _ _ _ _.
Arguments co_ZAdd {K BE} _ _ _ _ _ _.
Arguments co_ZScore {K BE} _ _ _ _ _.
Arguments co_ZRange {K BE} _ _ _ _ _.

(** The errors of a query; [ErrPanic] is a slice index out of range. *)
Inductive execErr (BE : Type) :=
  | ErrUnknownFunction (name : bytes)
  | ErrUnknownProcedure (name : bytes)
  | ErrArity (fn : bytes)
  | ErrNotConfigured (fn : bytes)
  | ErrMissingArg (fn : bytes) (i : Z)
  | ErrNotString (fn : bytes) (i : Z)
  | ErrNotNumber (fn : bytes) (i : Z)
  | ErrTTLMap
  | ErrTTLInt
  | ErrBackend (fn a b : bytes) (e : BE)
  | ErrGuardrail (limit : bytes) (value max : Z)
  | ErrGraph (e : graphErr)
  | ErrPanic.
Arguments ErrUnknownFunction {BE} _.
Arguments ErrUnknownProcedure {BE} _.
Arguments ErrArity {BE} _.
Arguments ErrNotConfigured {BE} _.
Arguments ErrMissingArg {BE} _ _.
Arguments ErrNotString {BE} _ _.
Arguments ErrNotNumber {BE} _ _.
Arguments ErrTTLMap {BE}.
Arguments ErrTTLInt {BE}.
Arguments ErrBackend {BE} _ _ _ _.
Arguments ErrGuardrail {BE} _ _ _.
Arguments ErrGraph {BE} _.
Arguments ErrPanic {BE}.

(** Warnings, by what they say. *)
Inductive Warning := WarnKvGet (ns key : bytes) | WarnVector (unreachable : Z).

(** What a query changes: the graph store, the backends, the clock of new versions and the
    fields of the executor. *)
Record Exec (L K V BE : Type) := mkExec {
  ex_Store : L;
  ex_Backend : K;
  ex_Clock : V;
  ex_evalErr : option (execErr BE);
  ex_pods : gset bytes;
  ex_warns : list Warning;
  ex_columns : list bytes;
  ex_forcedPartial : bool;
}.
Arguments mkExec {L K V BE} _ _ _ _ _ _ _ _.
Arguments ex_Store {L K V BE} _.
Arguments ex_Backend {L K V BE} _.
Arguments ex_Clock {L K V BE} _.
Arguments ex_evalErr {L K V BE} _.
Arguments ex_pods {L K V BE} _.
Arguments ex_warns {L K V BE} _.
Arguments ex_columns {L K V BE} _.
Arguments ex_forcedPartial {L K V BE} _.

(** What a query is given: the fields of the executor it does not change. *)
Record Config (K V BE : Type) := mkConfig {
  cf_GraphID : bytes;
  cf_Limits : Limits;
  cf_Router : option (Z → bytes);
  cf_SelfCluster : bytes;
  cf_SelfMember : bytes;
  cf_Params : gmap bytes Value;
  cf_NewVersion : option (V → ProtoVersion * V);
  cf_KV : option (KVAccess K BE);
  cf_Collections : option (CollectionsAccess K BE);
}.
Arguments cf_GraphID {K V BE} _.
Arguments cf_Limits {K V BE} _.
Arguments cf_Router {K V BE} _.
Arguments cf_SelfCluster {K V BE} _.
Arguments cf_SelfMember {K V BE} _.
Arguments cf_Params {K V BE} _.
Arguments cf_NewVersion {K V BE} _.
Arguments cf_KV {K V BE} _.
Arguments cf_Collections {K V BE} _.

Section Monad.
Context {L K V BE : Type}.

Definition with_ex_Store (s : L) (x : Exec L K V BE) : Exec L K V BE :=
  mkExec s (ex_Backend x) (ex_Clock x) (ex_evalErr x) (ex_pods x) (ex_warns x) (ex_columns x) (ex_forcedPartial x).
Definition with_ex_Backend (k : K) (x : Exec L K V BE) : Exec L K V BE :=
  mkExec (ex_Store x) k (ex_Clock x) (ex_evalErr x) (ex_pods x) (ex_warns x) (ex_columns x) (ex_forcedPartial x).
Definition with_ex_Clock (v : V) (x : Exec L K V BE) : Exec L K V BE :=
  mkExec (ex_Store x) (ex_Backend x) v (ex_evalErr x) (ex_pods x) (ex_warns x) (ex_columns x) (ex_forcedPartial x).
Definition with_ex_evalErr (e : option (execErr BE)) (x : Exec L K V BE) : Exec L K V BE :=
  mkExec (ex_Store x) (ex_Backend x) (ex_Clock x) e (ex_pods x) (ex_warns x) (ex_columns x) (ex_forcedPartial x).
Definition with_ex_pods (p : gset bytes) (x : Exec L K V BE) : Exec L K V BE :=
  mkExec (ex_Store x) (ex_Backend x) (ex_Clock x) (ex_evalErr x) p (ex_warns x) (ex_columns x) (ex_forcedPartial x).
Definition with_ex_columns (c : list bytes) (x : Exec L K V BE) : Exec L K V BE :=
  mkExec (ex_Store x) (ex_Backend x) (ex_Clock x) (ex_evalErr x) (ex_pods x) (ex_warns x) c (ex_forcedPartial x).

Definition MarkPartial (w : Warning) (x : Exec L K V BE) : Exec L K V BE :=
  mkExec (ex_Store x) (ex_Backend x) (ex_Clock x) (ex_evalErr x) (ex_pods x) (ex_warns x ++ [w]) (ex_columns x) true.
Definition setEvalErr (e : execErr BE) (x : Exec L K V BE) : Exec L K V BE :=
  match ex_evalErr x with None => with_ex_evalErr (Some e) x | Some _ => x end.

(** A step of a query: what it changed stays when it fails. *)
Definition M (A : Type) : Type := Exec L K V BE → res (execErr BE) A * Exec L K V BE.

Definition ret {A} (a : A) : M A := λ x, (Ok a, x).
Definition fail {A} (e : execErr BE) : M A := λ x, (Err e, x).
Definition bind {A B} (m : M A) (f : A → M B) : M B := λ x,
  match m x with (Ok a, x) => f a x | (Err e, x) => (Err e, x) end.
Definition liftRes {A} (r : res graphErr A) : M A := λ x, (match r with Ok a => Ok a | Err e => Err (ErrGraph e) end, x).
(** An argument error, which changes nothing. *)
Definition liftArg {A} (r : res (execErr BE) A) : M A := λ x, (r, x).
(** A call of a backend. *)
Definition backend {A} (fn a b : bytes) (op : K → res BE A * K) : M A := λ x,
  let '(r, k) := op (ex_Backend x) in
  (match r with Ok v => Ok v | Err e => Err (ErrBackend fn a b e) end, with_ex_Backend k x).

(** The loop over a list, results in order. *)
Fixpoint forEach {A B} (f : A → M B) (l : list A) : M (list B) :=
  match l with
  | [] => ret []
  | a :: l => bind (f a) (λ b, bind (forEach f l) (λ bs, ret (b :: bs)))
  end.

End Monad.
Arguments M : clear implicits.

Notation "'go?' p ← m ; k" :=
  (bind m (λ z, match z with p => k end))
  (at level 100, p pattern at level 0, m at level 90, k at level 200,
   right associativity, format "'go?'  p  ←  m ; '//' k") : go_scope.

Section Executor.
Context {L : Type} `{LocalStore L} `{GraphProto} {K V BE : Type}.
Context (FormatFloat : float64 → bytes) (rangeOrder : ∀ A, list A → list A) (cfg : Config K V BE).
Abbreviation X := (Exec L K V BE).
Abbreviation Q := (M L K V BE).

Definition ScalarFunc : Type := list Value → Q Value.
Definition Procedure : Type := list Value → list bytes → bindingRow → Q (list bindingRow).

(** *** Built-ins (proc_kv.go, proc_collections.go) *)

Definition stringArg (fn : bytes) (args : list Value) (i : nat) : res (execErr BE) bytes :=
  match args !! i with
  | None => Err (ErrMissingArg fn (Z.of_nat i + 1))
  | Some (VString s) => Ok s
  | Some _ => Err (ErrNotString fn (Z.of_nat i + 1))
  end.

Definition numberArg (fn : bytes) (args : list Value) (i : nat) : res (execErr BE) float64 :=
  match args !! i with
  | None => Err (ErrMissingArg fn (Z.of_nat i + 1))
  | Some v => match asFloat v with Some f => Ok f | None => Err (ErrNotNumber fn (Z.of_nat i + 1)) end
  end.

Definition kvGet : ScalarFunc := λ args,
  if negb (length args =? 2)%nat then fail (ErrArity (lit "kv.get"))
  else match cf_KV cfg with
  | None => fail (ErrNotConfigured (lit "kv.get"))
  | Some KV =>
      go? ns ← liftArg (stringArg (lit "kv.get") args 0) ;
      go? key ← liftArg (stringArg (lit "kv.get") args 1) ;
      go? (val, found, partial) ← backend (lit "kv.get") ns key (kv_Get KV ns key) ;
      λ x,
        let x := if partial : bool then MarkPartial (WarnKvGet ns key) x else x in
        (Ok (if found : bool then vAuto val else vNull), x)
  end.

(** The optional fourth argument of a put. *)
Definition kvPutTTL (args : list Value) : res (execErr BE) (option Z) :=
  match args !! 3%nat with
  | None => Ok None
  | Some (VMap entries) =>
      match list_find (λ kv, kv.1 = lit "ttlMs") entries with
      | None => Ok None
      | Some (_, (_, VInt ms)) => Ok (Some ms)
      | Some _ => Err ErrTTLInt
      end
  | Some _ => Err ErrTTLMap
  end.

Definition kvPut : Procedure := λ args _ row,
  if (length args <? 3)%nat || (4 <? length args)%nat then fail (ErrArity (lit "kv.put"))
  else match cf_KV cfg with
  | None => fail (ErrNotConfigured (lit "kv.put"))
  | Some KV =>
      go? ns ← liftArg (stringArg (lit "kv.put") args 0) ;
      go? key ← liftArg (stringArg (lit "kv.put") args 1) ;
      go? value ← liftArg (stringArg (lit "kv.put") args 2) ;
      go? ttlMs ← liftArg (kvPutTTL args) ;
      go? ver ← backend (lit "kv.put") ns key (kv_Put KV ns key value ttlMs) ;
      ret [<[lit "version" := BValue (VString ver)]> row]
  end.

Definition kvDelete : Procedure := λ args _ row,
  if negb (length args =? 2)%nat then fail (ErrArity (lit "kv.delete"))
  else match cf_KV cfg with
  | None => fail (ErrNotConfigured (lit "kv.delete"))
  | Some KV =>
      go? ns ← liftArg (stringArg (lit "kv.delete") args 0) ;
      go? key ← liftArg (stringArg (lit "kv.delete") args 1) ;
      go? ver ← backend (lit "kv.delete") ns key (kv_Delete KV ns key) ;
      ret [<[lit "version" := BValue (VString ver)]> row]
  end.

Fixpoint stringArgs (fn : bytes) (args : list Value) (i n : nat) : res (execErr BE) (list bytes) :=
  match n with
  | O => Ok []
  | S n => do? s ← stringArg fn args i ; do? ss ← stringArgs fn args (S i) n ; Ok (s :: ss)
  end.

(** The backend and [n] string arguments. *)
Definition collStrArgs (fn : bytes) (args : list Value) (n : nat) : res (execErr BE) (CollectionsAccess K BE * list bytes) :=
  if negb (length args =? n)%nat then Err (ErrArity fn)
  else match cf_Collections cfg with
  | None => Err (ErrNotConfigured fn)
  | Some C => do? a ← stringArgs fn args 0 n ; Ok (C, a)
  end.

Definition arg (a : list bytes) (i : nat) : bytes := nth i a [].

Definition setContains : ScalarFunc := λ args,
  go? (C, a) ← liftArg (collStrArgs (lit "set.contains(ns, coll, member)") args 3) ;
  go? ok ← backend (lit "set.contains") (arg a 0) (arg a 1) (co_SIsMember C (arg a 0) (arg a 1) (arg a 2)) ;
  ret (VBool ok).

Definition setCard : ScalarFunc := λ args,
  go? (C, a) ← liftArg (collStrArgs (lit "set.card(ns, coll)") args 2) ;
  go? n ← backend (lit "set.card") (arg a 0) (arg a 1) (co_SCard C (arg a 0) (arg a 1)) ;
  ret (VInt (int64 n)).

Definition hashGet : ScalarFunc := λ args,
  go? (C, a) ← liftArg (collStrArgs (lit "hash.get(ns, coll, field)") args 3) ;
  go? (v, found) ← backend (lit "hash.get") (arg a 0) (arg a 1) (co_HGet C (arg a 0) (arg a 1) (arg a 2)) ;
  ret (if found : bool then vAuto v else vNull).

Definition zsetScore : ScalarFunc := λ args,
  go? (C, a) ← liftArg (collStrArgs (lit "zset.score(ns, coll, member)") args 3) ;
  go? (sc, found) ← backend (lit "zset.score") (arg a 0) (arg a 1) (co_ZScore C (arg a 0) (arg a 1) (arg a 2)) ;
  ret (if found : bool then VDouble sc else vNull).

Definition setAdd : Procedure := λ args _ row,
  go? (C, a) ← liftArg (collStrArgs (lit "set.add(ns, coll, member)") args 3) ;
  go? n ← backend (lit "set.add") (arg a 0) (arg a 1) (co_SAdd C (arg a 0) (arg a 1) (arg a 2)) ;
  ret [<[lit "added" := BValue (VInt (int64 n))]> row].

Definition setRemove : Procedure := λ args _ row,
  go? (C, a) ← liftArg (collStrArgs (lit "set.remove(ns, coll, member)") args 3) ;
  go? n ← backend (lit "set.remove") (arg a 0) (arg a 1) (co_SRem C (arg a 0) (arg a 1) (arg a 2)) ;
  ret [<[lit "removed" := BValue (VInt (int64 n))]> row].

Definition setMembers : Procedure := λ args _ row,
  go? (C, a) ← liftArg (collStrArgs (lit "set.members(ns, coll)") args 2) ;
  go? members ← backend (lit "set.members") (arg a 0) (arg a 1) (co_SMembers C (arg a 0) (arg a 1) 0) ;
  ret ((λ m, <[lit "member" := BValue (vAuto m)]> row) <$> members).

Definition hashSet : Procedure := λ args _ row,
  go? (C, a) ← liftArg (collStrArgs (lit "hash.set(ns, coll, field, value)") args 4) ;
  go? n ← backend (lit "hash.set") (arg a 0) (arg a 1) (co_HSet C (arg a 0) (arg a 1) (arg a 2) (arg a 3)) ;
  ret [<[lit "added" := BValue (VInt (int64 n))]> row].

Definition hashGetAll : Procedure := λ args _ row,
  go? (C, a) ← liftArg (collStrArgs (lit "hash.getAll(ns, coll)") args 2) ;
  go? rows ← backend (lit "hash.getAll") (arg a 0) (arg a 1) (co_HGetAll C (arg a 0) (arg a 1) 0) ;
  ret ((λ '(f, v), <[lit "value" := BValue (vAuto v)]> (<[lit "field" := BValue (vAuto f)]> row)) <$> rows).

Definition zsetAdd : Procedure := λ args _ row,
  if negb (length args =? 4)%nat then fail (ErrArity (lit "zset.add"))
  else match cf_Collections cfg with
  | None => fail (ErrNotConfigured (lit "zset.add"))
  | Some C =>
      go? ns ← liftArg (stringArg (lit "zset.add") args 0) ;
      go? coll ← liftArg (stringArg (lit "zset.add") args 1) ;
      go? member ← liftArg (stringArg (lit "zset.add") args 2) ;
      go? score ← liftArg (numberArg (lit "zset.add") args 3) ;
      go? n ← backend (lit "zset.add") ns coll (co_ZAdd C ns coll member score) ;
      ret [<[lit "added" := BValue (VInt (int64 n))]> row]
  end.

Definition zsetRange : Procedure := λ args _ row,
  go? (C, a) ← liftArg (collStrArgs (lit "zset.range(ns, coll)") args 2) ;
  go? rows ← backend (lit "zset.range") (arg a 0) (arg a 1) (co_ZRange C (arg a 0) (arg a 1) 0) ;
  ret ((λ '(m, sc), <[lit "score" := BValue (VDouble sc)]> (<[lit "member" := BValue (vAuto m)]> row)) <$> rows).

(** The registries, filled by the [init] functions. *)
Definition registered {A} (table : list (String.string * A)) (name : bytes) : option A :=
  snd <$> find (λ e, bool_decide (lit e.1 = name)) table.

Definition funcs (name : bytes) : option ScalarFunc :=
  registered [("kv.get", kvGet); ("set.contains", setContains); ("set.card", setCard);
              ("hash.get", hashGet); ("zset.score", zsetScore)]%string name.

(** The vector procedures. *)
Context (vectorProcs : bytes → option Procedure).

Definition procedures (name : bytes) : option Procedure :=
  match registered [("kv.put", kvPut); ("kv.delete", kvDelete); ("set.add", setAdd); ("set.remove", setRemove);
                    ("set.members", setMembers); ("hash.set", hashSet); ("hash.getAll", hashGetAll);
                    ("zset.add", zsetAdd); ("zset.range", zsetRange)]%string name with
  | Some p => Some p
  | None => vectorProcs name
  end.

(** *** Expressions (eval.go) *)

(** The value of an expression in a row. It never fails: an error of a function call is kept
    in the executor, the first one wins, and the call is null. *)
Fixpoint evalScalar (e : Expr) (row : bindingRow) (x : X) : Value * X :=
  match e with
  | Parameter_ name => (default vNull (cf_Params cfg !! name), x)
  | Variable_ name => (bindingToValue (row !! name), x)
  | PropertyAccess var prop => (propOf (row !! var) prop, x)
  | UnaryExpr op e => let '(v, x) := evalScalar e row x in (unaryValue op v, x)
  | BinaryExpr op l r =>
      let '(lv, x1) := evalScalar l row x in
      if bool_decide (op = lit "AND") then
        if valueTruthy lv then let '(rv, x) := evalScalar r row x1 in (VBool (valueTruthy rv), x) else (VBool false, x1)
      else if bool_decide (op = lit "OR") then
        if valueTruthy lv then (VBool true, x1) else let '(rv, x) := evalScalar r row x1 in (VBool (valueTruthy rv), x)
      else let '(rv, x) := evalScalar r row x1 in (binaryValue FormatFloat op lv rv, x)
  | FunctionCall name args =>
      match funcs name with
      | None => (vNull, setEvalErr (ErrUnknownFunction name) x)
      | Some fn =>
          let '(vs, x) := (fix evalArgs (es : list Expr) (x : X) : list Value * X :=
            match es with
            | [] => ([], x)
            | e :: es => let '(v, x) := evalScalar e row x in let '(vs, x) := evalArgs es x in (v :: vs, x)
            end) args x in
          match fn vs x with
          | (Ok v, x) => (v, x)
          | (Err err, x) => (vNull, setEvalErr err x)
          end
      end
  | _ => (default vNull (literalValue e), x)
  end.

Definition evalM (e : Expr) (row : bindingRow) : Q Value := λ x, let '(v, x) := evalScalar e row x in (Ok v, x).
Definition evalBool (e : Expr) (row : bindingRow) : Q bool := go? v ← evalM e row ; ret (valueTruthy v).

(** *** Operators (executor.go) *)

Definition PodFor (partition : Z) : bytes :=
  match cf_Router cfg with Some pod => pod partition | None => cf_SelfMember cfg end.

Definition touch (nodeID : bytes) : Q () := λ x,
  (Ok (), with_ex_pods ({[PodFor (Partition (cf_GraphID cfg) nodeID)]} ∪ ex_pods x) x).

(** A read of the graph store. *)
Definition onStore {A} (f : L → res graphErr A) : Q A := λ x, liftRes (f (ex_Store x)) x.

Definition nodesByID (ids : list bytes) : Q (list NodeRecord) := λ x,
  (Ok (omap (λ id, found (GetNode (cf_GraphID cfg) id (ex_Store x))) ids), x).

(** Zero limits are the default ones. *)
Definition limits : Limits := if decide (cf_Limits cfg = mkLimits 0 0 0 0 0 0) then DefaultLimits else cf_Limits cfg.

Definition checkIntermediate (n : Z) : Q () :=
  if MaxIntermediateRows limits <? n then fail (ErrGuardrail (lit "maxIntermediateRows") n (MaxIntermediateRows limits)) else ret ().
Definition checkDepth (d : Z) : Q () :=
  if MaxTraversalDepth limits <? d then fail (ErrGuardrail (lit "maxTraversalDepth") d (MaxTraversalDepth limits)) else ret ().

(** A variable that is bound to a node is a constraint; the nodes are fetched once, for the
    first row that needs them. *)
Fixpoint scanLoop (variable : bytes) (fetch : Q (list NodeRecord)) (fetched : option (list NodeRecord)) (rows : list bindingRow)
    : Q (list bindingRow) :=
  match rows with
  | [] => ret []
  | r :: rows =>
      match r !! variable with
      | Some (BNode _) => go? out ← scanLoop variable fetch fetched rows ; ret (r :: out)
      | _ =>
          go? nodes ← (match fetched with Some ns => ret ns | None => fetch end) ;
          go? new ← forEach (λ n, go? _ ← touch (nd_NodeId n) ; ret (<[variable := BNode n]> r)) nodes ;
          go? out ← scanLoop variable fetch (Some nodes) rows ;
          ret (new ++ out)
      end
  end.
Definition scan (rows : list bindingRow) (variable : bytes) (fetch : Q (list NodeRecord)) : Q (list bindingRow) :=
  scanLoop variable fetch None rows.

(** The row of one edge: none when the other node is gone. *)
Definition bindHop (r : bindingRow) (to relVar : bytes) (edge : EdgeRecord) (otherID : bytes) : Q (list bindingRow) := λ x,
  match found (GetNode (cf_GraphID cfg) otherID (ex_Store x)) with
  | None => (Ok [], x)
  | Some other =>
      let nr := <[to := BNode other]> r in
      let nr := if bool_decide (relVar = []) then nr else <[relVar := BEdge edge]> nr in
      (go? _ ← touch otherID ; ret [nr]) x
  end.

Definition outgoingHops (r : bindingRow) (node : NodeRecord) (to relVar typ : bytes) : Q (list bindingRow) :=
  go? edges ← onStore (ScanOutgoing (cf_GraphID cfg) (nd_NodeId node) typ) ;
  go? out ← forEach (λ edge, bindHop r to relVar edge (ed_EndNode edge)) edges ; ret (concat out).
Definition incomingHops (r : bindingRow) (node : NodeRecord) (to relVar typ : bytes) : Q (list bindingRow) :=
  go? edges ← onStore (ScanIncoming (cf_GraphID cfg) (nd_NodeId node) typ) ;
  go? out ← forEach (λ edge, bindHop r to relVar edge (ed_StartNode edge)) edges ; ret (concat out).

Definition expand (rows : list bindingRow) (from to relVar typ : bytes) (outgoing : bool) : Q (list bindingRow) :=
  go? _ ← checkDepth 1 ;
  go? out ← forEach (λ r,
    match r !! from with
    | Some (BNode node) => if outgoing then outgoingHops r node to relVar typ else incomingHops r node to relVar typ
    | _ => ret []
    end) rows ;
  ret (concat out).

(** Both scans come before the first row is made. *)
Definition bothHops (r : bindingRow) (node : NodeRecord) (to relVar typ : bytes) : Q (list bindingRow) :=
  go? outE ← onStore (ScanOutgoing (cf_GraphID cfg) (nd_NodeId node) typ) ;
  go? inE ← onStore (ScanIncoming (cf_GraphID cfg) (nd_NodeId node) typ) ;
  go? o ← forEach (λ edge, bindHop r to relVar edge (ed_EndNode edge)) outE ;
  go? i ← forEach (λ edge, bindHop r to relVar edge (ed_StartNode edge)) inE ;
  ret (concat o ++ concat i).

Definition expandBoth (rows : list bindingRow) (from to relVar typ : bytes) : Q (list bindingRow) :=
  go? _ ← checkDepth 1 ;
  go? out ← forEach (λ r,
    match r !! from with
    | Some (BNode node) => bothHops r node to relVar typ
    | _ => ret []
    end) rows ;
  ret (concat out).

Definition filterRows (predicate : Expr) (rows : list bindingRow) : Q (list bindingRow) :=
  go? out ← forEach (λ r, go? ok ← evalBool predicate r ; ret (if ok : bool then [r] else [])) rows ;
  ret (concat out).

Definition unwind (rows : list bindingRow) (e : Expr) (alias : bytes) : Q (list bindingRow) :=
  go? out ← forEach (λ r,
    go? v ← evalM e r ;
    ret (match v with VList vs => (λ elem, <[alias := BValue elem]> r) <$> vs | _ => [] end)) rows ;
  ret (concat out).

Definition itemName (item : ReturnItem) : bytes :=
  match ri_Alias item with
  | [] =>
      match ri_Expr item with
      | Variable_ name => name
      | PropertyAccess var prop => var ++ lit "." ++ prop
      | _ => lit "expr"
      end
  | alias => alias
  end.
Definition projectColumns (items : list ReturnItem) : list bytes := itemName <$> items.

(** The columns of a row and its key for DISTINCT. *)
Fixpoint projectRow (items : list ReturnItem) (r nr : bindingRow) (key : bytes) : Q (bindingRow * bytes) :=
  match items with
  | [] => ret (nr, key)
  | item :: items =>
      go? v ← evalM (ri_Expr item) r ;
      projectRow items r (<[itemName item := BValue v]> nr) (key ++ valueKey FormatFloat v ++ [x1f])
  end.

Fixpoint projectLoop (items : list ReturnItem) (distinct : bool) (seen : gset bytes) (rows : list bindingRow) : Q (list bindingRow) :=
  match rows with
  | [] => ret []
  | r :: rows =>
      go? (nr, key) ← projectRow items r ∅ [] ;
      if distinct && bool_decide (key ∈ seen) then projectLoop items distinct seen rows
      else go? out ← projectLoop items distinct ({[key]} ∪ seen) rows ; ret (nr :: out)
  end.

Definition project (rows : list bindingRow) (items : list ReturnItem) (distinct : bool) : Q (list bindingRow) := λ x,
  projectLoop items distinct ∅ rows (with_ex_columns (projectColumns items) x).

(** The order of ORDER BY. *)
Fixpoint rowLess (keys : list SortItem) (r1 r2 : bindingRow) : Q bool :=
  match keys with
  | [] => ret false
  | k :: keys =>
      go? a ← evalM (so_Expr k) r1 ;
      go? b ← evalM (so_Expr k) r2 ;
      let c := compareValues FormatFloat a b in
      if c =? 0 then rowLess keys r1 r2 else ret (if so_Desc k then 0 <? c else c <? 0)
  end.

(** [sort.SliceStable], as the insertion sort it is for up to twenty rows (longer slices are
    merged from such blocks): [r] moves left past the rows of the sorted part, last first, that
    it is less than. *)
Fixpoint insertRow (keys : list SortItem) (r : bindingRow) (revSorted : list bindingRow) : Q (list bindingRow) :=
  match revSorted with
  | [] => ret [r]
  | s :: rest =>
      go? less ← rowLess keys r s ;
      if less : bool then go? rest ← insertRow keys r rest ; ret (s :: rest) else ret (r :: s :: rest)
  end.
Fixpoint sortLoop (keys : list SortItem) (revSorted rows : list bindingRow) : Q (list bindingRow) :=
  match rows with
  | [] => ret (rev revSorted)
  | r :: rows => go? revSorted ← insertRow keys r revSorted ; sortLoop keys revSorted rows
  end.
Definition sortRows (rows : list bindingRow) (keys : list SortItem) : Q (list bindingRow) := sortLoop keys [] rows.

(** [rows[n:]] and [rows[:n]]: a negative bound is a panic. *)
Definition sliceFrom (n : Z) (rows : list bindingRow) : Q (list bindingRow) :=
  if n <? 0 then fail ErrPanic else ret (drop (Z.to_nat n) rows).
Definition sliceTo (n : Z) (rows : list bindingRow) : Q (list bindingRow) :=
  if n <? 0 then fail ErrPanic else ret (take (Z.to_nat n) rows).

Definition evalCount (e : Expr) : Q Z := go? v ← evalM e ∅ ; ret (GetIntValue v).

Definition skipLimit (rows : list bindingRow) (skip limit : option Expr) : Q (list bindingRow) :=
  go? n ← (match skip with Some e => evalCount e | None => ret 0 end) ;
  go? rows ← sliceFrom (Z.min n (Z.of_nat (length rows))) rows ;
  match limit with
  | None => ret rows
  | Some e => go? n ← evalCount e ; if n <? Z.of_nat (length rows) then sliceTo n rows else ret rows
  end.

Definition evalArgs (args : list Expr) (r : bindingRow) : Q (list Value) := forEach (λ e, evalM e r) args.

Definition procCall (procedure : bytes) (args : list Expr) (yields : list bytes) (rows : list bindingRow) : Q (list bindingRow) :=
  match procedures procedure with
  | None => fail (ErrUnknownProcedure procedure)
  | Some proc =>
      go? out ← forEach (λ r, go? vs ← evalArgs args r ; proc vs yields r) rows ; ret (concat out)
  end.

(** *** Writes (executor_write.go) *)

Definition version : Q (option ProtoVersion) := λ x,
  match cf_NewVersion cfg with
  | Some new => let '(v, clock) := new (ex_Clock x) in (Ok (Some v), with_ex_Clock clock x)
  | None => (Ok (Some (mkProtoVersion 0 0 (cf_SelfCluster cfg) (cf_SelfMember cfg) 0)), x)
  end.

Fixpoint evalProps (props : list (bytes * Expr)) (row : bindingRow) (out : gmap bytes Value) : Q (gmap bytes Value) :=
  match props with
  | [] => ret out
  | (k, e) :: props => go? v ← evalM e row ; evalProps props row (<[k := v]> out)
  end.

(** The batch and the counter of generated ids of one CREATE. *)
Abbreviation CreateState := (Batch * Z)%type.

Definition emitNode (np : NodePattern) (row : bindingRow) (st : CreateState) : Q (bytes * CreateState) :=
  match (if bool_decide (np_Variable np = []) then None else row !! np_Variable np) with
  | Some (BNode bound) => ret (nd_NodeId bound, st)
  | _ =>
      go? props ← evalProps (rangeOrder _ (np_Properties np)) row ∅ ;
      let given := match props !! lit "id" with Some v => GetStringValue v | None => [] end in
      let seq := if bool_decide (given = []) then st.2 + 1 else st.2 in
      let id := if bool_decide (given = []) then lit "_n" ++ FormatInt seq else given in
      go? ver ← version ;
      go? b ← liftRes (PutNode (mkNode (cf_GraphID cfg) id (np_Labels np) props ver false) st.1) ;
      ret (id, (b, seq))
  end.

Definition createEdge (rel : RelPattern) (from endID : bytes) (row : bindingRow) (st : CreateState) : Q CreateState :=
  let typ := firstName (rp_Types rel) in
  let '(start, stop) := match rp_Direction rel with DirIn => (endID, from) | _ => (from, endID) end in
  let edgeID := start ++ lit "|" ++ typ ++ lit "|" ++ stop in
  go? props ← evalProps (rangeOrder _ (rp_Properties rel)) row ∅ ;
  go? ver ← version ;
  go? b ← liftRes (PutEdge (mkEdge (cf_GraphID cfg) edgeID start stop typ props ver false) st.1) ;
  ret (b, st.2).

Fixpoint createHops (from : bytes) (rels : list RelPattern) (nodes : list NodePattern) (row : bindingRow) (st : CreateState) : Q CreateState :=
  match rels, nodes with
  | rel :: rels, n :: nodes =>
      go? (endID, st) ← emitNode n row st ;
      go? st ← createEdge rel from endID row st ;
      createHops endID rels nodes row st
  | _, _ => ret st
  end.

Definition createPart (row : bindingRow) (part : PatternPart) (st : CreateState) : Q CreateState :=
  go? (startID, st) ← emitNode (pp_Node part) row st ; createHops startID (pp_Rels part) (pp_Nodes part) row st.

(** A loop that passes a value on. *)
Fixpoint forFold {A S} (f : A → S → Q S) (l : list A) (s : S) : Q S :=
  match l with
  | [] => ret s
  | a :: l => go? s ← f a s ; forFold f l s
  end.

Definition commitBatch (b : Batch) : Q () := λ x,
  match Commit b (ex_Store x) with
  | Ok s => (Ok (), with_ex_Store s x)
  | Err e => (Err (ErrGraph e), x)
  end.

Definition create (patterns : list PatternPart) (rows : list bindingRow) : Q () :=
  let rows := match rows with [] => [∅] | _ => rows end in
  go? st ← forFold (λ row st, forFold (createPart row) patterns st) rows ([], 0) ;
  commitBatch st.1.

Definition cloneNode (n : NodeRecord) : NodeRecord :=
  mkNode (nd_GraphId n) (nd_NodeId n) (nd_Labels n) (nd_Properties n) None false.
Definition with_Property (p : bytes) (v : Value) (n : NodeRecord) : NodeRecord :=
  mkNode (nd_GraphId n) (nd_NodeId n) (nd_Labels n) (<[p := v]> (nd_Properties n)) (nd_Version n) (nd_Tombstone n).
Definition with_Version (v : option ProtoVersion) (n : NodeRecord) : NodeRecord :=
  mkNode (nd_GraphId n) (nd_NodeId n) (nd_Labels n) (nd_Properties n) v (nd_Tombstone n).

Definition setOne (r : bindingRow) (item : SetItem) (updated : gmap bytes NodeRecord) : Q (gmap bytes NodeRecord) :=
  match r !! si_Variable item with
  | Some (BNode n) =>
      let cur := default (cloneNode n) (updated !! nd_NodeId n) in
      go? v ← evalM (si_Value item) r ;
      ret (<[nd_NodeId n := with_Property (si_Property item) v cur]> updated)
  | _ => ret updated
  end.

Definition putUpdated (n : NodeRecord) (b : Batch) : Q Batch := go? ver ← version ; liftRes (PutNode (with_Version ver n) b).

Definition set (items : list SetItem) (rows : list bindingRow) : Q () :=
  go? updated ← forFold (λ r u, forFold (setOne r) items u) rows ∅ ;
  go? b ← forFold putUpdated (rangeOrder _ (snd <$> map_to_list updated)) [] ;
  commitBatch b.

Definition boundNodes (variables : list bytes) (rows : list bindingRow) : gset bytes :=
  list_to_set (rows ≫= λ r, omap (λ v, match r !! v with Some (BNode n) => Some (nd_NodeId n) | _ => None end) variables).
Definition boundEdges (variables : list bytes) (rows : list bindingRow) : gset bytes :=
  list_to_set (rows ≫= λ r, omap (λ v, match r !! v with Some (BEdge e) => Some (ed_EdgeId e) | _ => None end) variables).

Definition deadNode (id : bytes) (b : Batch) : Q Batch :=
  go? ver ← version ; liftRes (PutNode (mkNode (cf_GraphID cfg) id [] ∅ ver true) b).
Definition deadEdge (id : bytes) (b : Batch) : Q Batch :=
  go? ver ← version ; liftRes (PutEdge (mkEdge (cf_GraphID cfg) id [] [] [] ∅ ver true) b).

Definition del (variables : list bytes) (rows : list bindingRow) : Q () :=
  go? b ← forFold deadNode (rangeOrder _ (elements (boundNodes variables rows))) [] ;
  go? b ← forFold deadEdge (rangeOrder _ (elements (boundEdges variables rows))) b ;
  commitBatch b.

(** *** The pipeline (executor.go) *)

Definition apply (op : LogicalOp) (rows : list bindingRow) : Q (list bindingRow) :=
  match op with
  | LabelScan variable label =>
      scan rows variable (go? ids ← onStore (ScanLabel (cf_GraphID cfg) label) ; nodesByID ids)
  | AllNodesScan variable => scan rows variable (onStore (AllNodes (cf_GraphID cfg)))
  | PropertyFilter predicate => filterRows predicate rows
  | ExpandOutgoing from to relVar typ => expand rows from to relVar typ true
  | ExpandIncoming from to relVar typ => expand rows from to relVar typ false
  | ExpandBoth from to relVar typ => expandBoth rows from to relVar typ
  | Unwind e alias => unwind rows e alias
  | Project items distinct => project rows items distinct
  | Sort keys => sortRows rows keys
  | SkipLimit skip limit => skipLimit rows skip limit
  | CreatePatterns patterns => go? _ ← create patterns rows ; ret rows
  | SetItems items => go? _ ← set items rows ; ret rows
  | DeleteVars variables => go? _ ← del variables rows ; ret rows
  | ProcCall procedure args yields => procCall procedure args yields rows
  end.

(** The error an operator left in the executor. *)
Definition checkEvalErr : Q () := λ x, (match ex_evalErr x with Some e => Err e | None => Ok () end, x).

Definition runOp (op : LogicalOp) (rows : list bindingRow) : Q (list bindingRow) :=
  go? rows ← apply op rows ;
  go? _ ← checkEvalErr ;
  go? _ ← checkIntermediate (Z.of_nat (length rows)) ;
  ret rows.

Definition toOutput (columns : list bytes) (r : bindingRow) : gmap bytes Value :=
  match columns with
  | [] => (λ b, bindingToValue (Some b)) <$> r
  | _ => list_to_map (omap (λ col, match r !! col with Some (BValue v) => Some (col, v) | _ => None end) columns)
  end.

Inductive QueryCompleteness := COMPLETE | PARTIAL.
Record QueryMeta := mkQueryMeta {
  qm_ServedByClusterId : bytes;
  qm_ParticipatingMembers : list bytes;
  qm_Completeness : QueryCompleteness;
  qm_PartialGraphPossible : bool;
  qm_Warnings : list Warning;
}.
Record Result := mkResult { rs_Columns : list bytes; rs_Rows : list (gmap bytes Value); rs_Meta : QueryMeta }.

Definition meta (x : X) : QueryMeta :=
  let partial := (1 <? Z.of_nat (size (ex_pods x))) || ex_forcedPartial x in
  mkQueryMeta (cf_SelfCluster cfg) (merge_sort bytes_le (elements (ex_pods x)))
    (if partial then PARTIAL else COMPLETE) partial (ex_warns x).

Definition Execute (q : list Clause) : Q Result := λ x,
  let x := with_ex_evalErr None (with_ex_pods ∅ x) in
  (go? rows ← forFold runOp (Plan rangeOrder q) [∅] ;
   λ x,
     let out := toOutput (ex_columns x) <$> rows in
     if MaxRowsReturned limits <? Z.of_nat (length out)
     then (Err (ErrGuardrail (lit "maxRowsReturned") (Z.of_nat (length out)) (MaxRowsReturned limits)), x)
     else (Ok (mkResult (ex_columns x) out (meta x)), x)) x.

(** *** The service (service.go) *)

Inductive queryErr := QueryParse (e : cypherErr) | QueryExec (e : execErr BE).
Inductive CypherResult := RowResult (columns : gmap bytes Value) | MetaResult (m : QueryMeta).

(** The messages a query streams: its rows, then the metadata. *)
Definition Query (text : bytes) (x : X) : res queryErr (list CypherResult) * X :=
  match Parse text with
  | Err e => (Err (QueryParse e), x)
  | Ok ast =>
      match Execute ast x with
      | (Err e, x) => (Err (QueryExec e), x)
      | (Ok res, x) => (Ok ((RowResult <$> rs_Rows res) ++ [MetaResult (rs_Meta res)]), x)
      end
  end.

End Executor.

End CypherExec.
