(* ===== verification/CypherMatch.v ===== *)
(** * MATCH finds exactly the matches

    What a MATCH clause means on the abstract graph, and the theorem that the operators the
    planner makes of it compute that from the store. *)

From Stdlib Require Import Floats.SpecFloat.
From S2P Require Import Prelude Bytes Strconv Hlc Version Conflict Storage Command Uvarint Float64 Graph GraphSpec GraphExact CypherSyntax CypherExec.

Local Open Scope Z_scope.
Set Default Proof Using "Type*".

Module CypherMatch.
Import Version Conflict Storage Command Float64 Graph GraphSpec GraphExact CypherSyntax CypherExec.

(** ** Expressions without function calls *)

Section Pure.
Context (FormatFloat : float64 → bytes) (params : gmap bytes Value).

Fixpoint noCalls (e : Expr) : bool :=
  match e with
  | FunctionCall _ _ => false
  | UnaryExpr _ e => noCalls e
  | BinaryExpr _ l r => noCalls l && noCalls r
  | _ => true
  end.

(** Their value: AND and OR on the truth of both sides. *)
Fixpoint evalPure (e : Expr) (row : bindingRow) : Value :=
  match e with
  | Parameter_ name => default vNull (params !! name)
  | Variable_ name => bindingToValue (row !! name)
  | PropertyAccess var prop => propOf (row !! var) prop
  | UnaryExpr op e => unaryValue op (evalPure e row)
  | BinaryExpr op l r =>
      if bool_decide (op = lit "AND") then VBool (valueTruthy (evalPure l row) && valueTruthy (evalPure r row))
      else if bool_decide (op = lit "OR") then VBool (valueTruthy (evalPure l row) || valueTruthy (evalPure r row))
      else binaryValue FormatFloat op (evalPure l row) (evalPure r row)
  | _ => default vNull (literalValue e)
  end.

End Pure.

(** ** Plain patterns *)

(** The patterns whose plan does what they mean. The planner looks at the first label of the
    node a part starts at, and not at the labels of the others; at the first type of a
    relationship and not at its properties; and it binds the end of a relationship again when its
    name is bound. So: a part starts at a node with at most one label, or at one that an earlier
    part named, without a label; the nodes the relationships lead to have no labels and new names
    or none; a relationship has at most one type, no properties and a new name or none. With two
    or more relationships in the clause, they have different types, so that none can be matched
    twice. [nb] and [eb] are the names of nodes and relationships seen so far. *)
Definition hopPlain (nb eb : gset bytes) (rel : RelPattern) (np : NodePattern) : bool :=
  bool_decide (np_Labels np = [] ∧ (np_Variable np = [] ∨ np_Variable np ∉ nb ∪ eb) ∧
    (length (rp_Types rel) ≤ 1)%nat ∧ [] ∉ rp_Types rel ∧ rp_Properties rel = [] ∧
    (rp_Variable rel = [] ∨ rp_Variable rel ∉ nb ∪ eb ∧ rp_Variable rel ≠ np_Variable np)).

Definition bindName (v : bytes) (s : gset bytes) : gset bytes := if bool_decide (v = []) then s else s ∪ {[v]}.

Fixpoint plainHops (nb eb : gset bytes) (rels : list RelPattern) (nodes : list NodePattern) : option (gset bytes * gset bytes) :=
  match rels, nodes with
  | rel :: rels, np :: nodes =>
      if hopPlain nb eb rel np then plainHops (nb ∪ {[np_Variable np]}) (bindName (rp_Variable rel) eb) rels nodes else None
  | _, _ => Some (nb, eb)
  end.

Definition anchorPlain (nb eb : gset bytes) (np : NodePattern) : bool :=
  bool_decide ((np_Variable np ∉ nb ∪ eb ∧ (length (np_Labels np) ≤ 1)%nat) ∨ (np_Variable np ∈ nb ∧ np_Variable np ≠ [] ∧ np_Labels np = [])).

Fixpoint plainParts (nb eb : gset bytes) (ps : list PatternPart) : bool :=
  match ps with
  | [] => true
  | p :: ps =>
      anchorPlain nb eb (pp_Node p) &&
      match plainHops (nb ∪ {[np_Variable (pp_Node p)]}) eb (pp_Rels p) (pp_Nodes p) with
      | Some (nb, eb) => plainParts nb eb ps
      | None => false
      end
  end.

Definition relTypes (ps : list PatternPart) : list bytes := p ← ps; firstName ∘ rp_Types <$> pp_Rels p.

Definition plainMatch (ps : list PatternPart) : bool :=
  plainParts ∅ ∅ ps && bool_decide ((length (relTypes ps) ≤ 1)%nat ∨ [] ∉ relTypes ps ∧ NoDup (relTypes ps)).

Section Match.
Context {L : Type} `{LocalStoreSpec L} `{GraphProtoSpec} {K V BE : Type}.
Context (FormatFloat : float64 → bytes) (rangeOrder : ∀ A, list A → list A) (cfg : Config K V BE).
Context (vectorProcs : bytes → option (Procedure (L:=L) (K:=K) (V:=V) (BE:=BE))).
(** A bound on the rows a query can have. *)
Context (N : nat).
Abbreviation X := (Exec L K V BE).
Abbreviation Q := (M L K V BE).

Abbreviation eval := (evalPure FormatFloat (cf_Params cfg)).

Lemma evalScalar_pure e row (x : X) : noCalls e = true → evalScalar FormatFloat cfg e row x = (eval e row, x).
Proof using Type.
  revert x. induction e; intros x Hn; cbn [noCalls] in Hn; try done.
  - apply andb_true_iff in Hn as [Hl Hr]. cbn [evalScalar evalPure]. rewrite IHe1 by done.
    destruct (bool_decide (op = lit "AND")); [destruct (valueTruthy (eval e1 row)); [by rewrite IHe2|done]|].
    destruct (bool_decide (op = lit "OR")); [destruct (valueTruthy (eval e1 row)); [done|by rewrite IHe2]|]. by rewrite IHe2.
  - cbn [evalScalar evalPure]. by rewrite IHe.
Qed.

(** ** Steps that only read *)

(** The rows [R] describes, at most [k] of them. *)
Definition rowsAre (k : nat) (R : bindingRow → Prop) (rs : list bindingRow) : Prop :=
  (∀ r : bindingRow, r ∈ rs ↔ R r) ∧ (length rs ≤ k)%nat.

Lemma rowsAre_impl (k k' : nat) (R R' : bindingRow → Prop) (rs : list bindingRow) : rowsAre k R rs → (∀ r, R r ↔ R' r) → (k ≤ k')%nat → rowsAre k' R' rs.
Proof. intros [Hr Hk] HR Hle. split; [intros r; by rewrite Hr|lia]. Qed.

Lemma rowsAre_nil (k : nat) (R : bindingRow → Prop) : (∀ r, ¬ R r) → rowsAre k R [].
Proof. intros HR. split; [intros r; split; [intros []%elem_of_nil|intros []%HR]|cbn; lia]. Qed.

Lemma rowsAre_one (r0 : bindingRow) : rowsAre 1 (λ r, r = r0) [r0].
Proof. split; [intros r; apply list_elem_of_singleton|done]. Qed.

Lemma rowsAre_app (k k' : nat) (R R' : bindingRow → Prop) (rs rs' : list bindingRow) : rowsAre k R rs → rowsAre k' R' rs' → rowsAre (k + k') (λ r, R r ∨ R' r) (rs ++ rs').
Proof. intros [Hr Hk] [Hr' Hk']. split; [intros r; by rewrite elem_of_app, Hr, Hr'|rewrite length_app; lia]. Qed.

(** The executor still has the store, the backends and the clock it had, and no error. *)
Definition keeps (x0 x : X) : Prop :=
  ex_Store x = ex_Store x0 ∧ ex_Backend x = ex_Backend x0 ∧ ex_Clock x = ex_Clock x0 ∧ ex_evalErr x = None.

Definition tooMany (e : execErr BE) : Prop :=
  ∃ n, e = ErrGuardrail (lit "maxIntermediateRows") n (MaxIntermediateRows (limits cfg)) ∧ MaxIntermediateRows (limits cfg) < n ≤ Z.of_nat N.

(** From every state that keeps [x0], the step gives a result that satisfies [P], or too many
    rows, and keeps [x0]. *)
Definition gives {A} (x0 : X) (m : Q A) (P : A → Prop) : Prop :=
  ∀ x, keeps x0 x → keeps x0 (m x).2 ∧ match (m x).1 with Ok a => P a | Err e => tooMany e end.

Lemma gives_ret {A} (x0 : X) (a : A) (P : A → Prop) : P a → gives x0 (ret a) P.
Proof. intros HP x Hk. done. Qed.

Lemma gives_bind {A B} (x0 : X) (m : Q A) (f : A → Q B) (P : A → Prop) (R : B → Prop) :
  gives x0 m P → (∀ a, P a → gives x0 (f a) R) → gives x0 (bind m f) R.
Proof.
  intros Hm Hf x Hk. destruct (Hm x Hk) as [Hk' HP]. unfold bind. destruct (m x) as [[a|e] x'] eqn:E; cbn [fst snd] in *; [|done].
  by apply Hf.
Qed.

Lemma gives_impl {A} (x0 : X) (m : Q A) (P R : A → Prop) : gives x0 m P → (∀ a, P a → R a) → gives x0 m R.
Proof. intros Hm HPR x Hk. destruct (Hm x Hk) as [? HP]. split; [done|]. destruct (m x).1; auto. Qed.

Lemma gives_forEach {A B} (x0 : X) (f : A → Q B) (R : A → B → Prop) (l : list A) :
  (∀ a : A, a ∈ l → gives x0 (f a) (R a)) → gives x0 (forEach f l) (λ bs, Forall2 R l bs).
Proof.
  induction l as [|a l IH]; intros Hf; [by apply gives_ret|]. cbn [forEach].
  eapply gives_bind; [apply Hf; left|]. intros b Hb. cbn beta. eapply gives_bind; [apply IH; intros; apply Hf; by right|].
  intros bs Hbs. apply gives_ret. by constructor.
Qed.

(** What is in the collected rows. *)
Lemma concat_rows {A} (k : nat) (R : A → bindingRow → Prop) (l : list A) (out : list (list bindingRow)) :
  Forall2 (λ a, rowsAre k (R a)) l out → rowsAre (length l * k) (λ r, ∃ a, a ∈ l ∧ R a r) (concat out).
Proof.
  intros Hout. induction Hout as [|a rs l out Ha Hout IH].
  - apply rowsAre_nil. by intros r (a & []%elem_of_nil & _).
  - cbn [concat length]. eapply rowsAre_impl; [exact (rowsAre_app _ _ _ _ _ _ Ha IH)| |cbn; lia]. intros r. cbn beta. split.
    + intros [?|(a' & ? & ?)]; [exists a|exists a']; (split; [by constructor|done]).
    + intros (a' & [->|?]%elem_of_cons & ?); eauto.
Qed.

Lemma gives_rows {A} (x0 : X) (k : nat) (f : A → Q (list bindingRow)) (R : A → bindingRow → Prop) (l : list A) :
  (∀ a : A, a ∈ l → gives x0 (f a) (rowsAre k (R a))) →
  gives x0 (bind (forEach f l) (λ out, ret (concat out))) (rowsAre (length l * k) (λ r, ∃ a, a ∈ l ∧ R a r)).
Proof.
  intros Hf. eapply gives_bind; [exact (gives_forEach x0 f _ l Hf)|]. intros out Hout. apply gives_ret. by apply concat_rows.
Qed.

Lemma gives_eval (x0 : X) e row : noCalls e = true → gives x0 (evalM FormatFloat cfg e row) (λ v, v = eval e row).
Proof. intros Hn x Hk. unfold evalM. rewrite evalScalar_pure by done. done. Qed.

Lemma gives_touch (x0 : X) id : gives x0 (touch cfg id) (λ _, True).
Proof. intros x Hk. split; [|done]. exact Hk. Qed.

Lemma gives_store {A} (x0 : X) (f : L → res graphErr A) r : f (ex_Store x0) = Ok r → gives x0 (onStore f) (λ a, a = r).
Proof. intros Hf x (Hs & Hk). unfold onStore, liftRes. cbn. rewrite Hs, Hf. done. Qed.

(** ** Meaning of the operators on the abstract graph *)

Section Store.
Context (x0 : X) (a : AGraph) (G : bytes → Prop) (E : bytes * bytes → bytes * bytes * bytes).
Abbreviation g := (cf_GraphID cfg).
Hypothesis (Kok : gok G (stable E) (ex_Store x0) a) (HG : G g) (Hg : small g).
Hypothesis (Hdepth : 1 ≤ MaxTraversalDepth (limits cfg)).

(** The nodes of a row can be looked up. *)
Definition smallRow (r : bindingRow) : Prop := ∀ v n, r !! v = Some (BNode n) → small (nd_NodeId n).

Lemma live_small id n : liveNode a g id = Some n → nd_NodeId n = id ∧ small id.
Proof.
  intros [Hst _]%liveNode_stored. destruct Kok as [_ I]. apply (gi_nown _ _ _ _ _ I) in Hst as (_ & <- & [(_ & ? & _) _]). done.
Qed.

Lemma edge_small id e : liveEdge a g id = Some e → small (ed_StartNode e) ∧ small (ed_EndNode e).
Proof.
  intros [Hst _]%liveEdge_stored. destruct Kok as [_ I]. apply (gi_eown _ _ _ _ _ I) in Hst as (_ & _ & [(_ & _ & ? & ? & _) _] & _). done.
Qed.

Lemma smallRow_node r v id n : smallRow r → liveNode a g id = Some n → smallRow (<[v := BNode n]> r).
Proof.
  intros Hr Hn v' n'. destruct (decide (v' = v)) as [->|Hne].
  - rewrite lookup_insert_eq. intros [= <-]. apply live_small in Hn as [-> ?]. done.
  - rewrite lookup_insert_ne by done. apply Hr.
Qed.

Lemma found_node id : small id → found (GetNode g id (ex_Store x0)) = liveNode a g id.
Proof. intros Hid. by rewrite (GetNode_ok _ _ _ _ g id Kok Hg Hid). Qed.

(** The number of things a step can bind a row to. *)
Definition width : nat := S (size (ag_nodes a) + 2 * size (ag_edges a)).

Lemma nodup_length {A B} (f : B → A) (l : list A) (m : list B) : NoDup l → (∀ y : A, y ∈ l → ∃ z, z ∈ m ∧ f z = y) → (length l ≤ length m)%nat.
Proof using Type.
  intros Hnd Hl. rewrite <-(length_fmap f m). apply submseteq_length, NoDup_submseteq; [done|].
  intros y (z & Hz & <-)%Hl. by apply list_elem_of_fmap_2.
Qed.

Lemma live_nodes_length (ns : list NodeRecord) : NoDup ns → (∀ n, n ∈ ns → ∃ id, liveNode a g id = Some n) → (length ns ≤ size (ag_nodes a))%nat.
Proof using Type.
  intros Hnd Hns. rewrite <-length_map_to_list. apply (nodup_length snd); [done|]. intros n (id & [Hn _]%liveNode_stored)%Hns. exists ((g, id), n). by rewrite elem_of_map_to_list.
Qed.
Lemma live_ids_length (ids : list bytes) : NoDup ids → (∀ id, id ∈ ids → is_Some (liveNode a g id)) → (length ids ≤ size (ag_nodes a))%nat.
Proof using Type.
  intros Hnd Hns. rewrite <-length_map_to_list. apply (nodup_length (λ kn : bytes * bytes * NodeRecord, kn.1.2)); [done|]. intros id (n & [Hn _]%liveNode_stored)%Hns.
  exists ((g, id), n). by rewrite elem_of_map_to_list.
Qed.
Lemma live_edges_length (es : list EdgeRecord) : NoDup es → (∀ e, e ∈ es → ∃ id, liveEdge a g id = Some e) → (length es ≤ size (ag_edges a))%nat.
Proof using Type.
  intros Hnd Hes. rewrite <-length_map_to_list. apply (nodup_length snd); [done|]. intros e (id & [He _]%liveEdge_stored)%Hes. exists ((g, id), e). by rewrite elem_of_map_to_list.
Qed.

(** The node a scan binds: a node that is bound already, or any of the candidates. *)
Definition scanned (variable : bytes) (cand : NodeRecord → Prop) (r r' : bindingRow) : Prop :=
  match r !! variable with
  | Some (BNode _) => r' = r
  | _ => ∃ n, cand n ∧ r' = <[variable := BNode n]> r
  end.

(** The nodes a scan fetches. *)
Definition nodesAre (k : nat) (cand : NodeRecord → Prop) (ns : list NodeRecord) : Prop := (∀ n, n ∈ ns ↔ cand n) ∧ (length ns ≤ k)%nat.

Lemma bound_rows (variable : bytes) (k : nat) (cand : NodeRecord → Prop) (r : bindingRow) (ns : list NodeRecord) (new : list bindingRow) :
  nodesAre k cand ns → Forall2 (λ n r', r' = <[variable := BNode n]> r) ns new →
  rowsAre k (λ r', ∃ n, cand n ∧ r' = <[variable := BNode n]> r) new.
Proof.
  intros [Hin Hk] Hall. split; [|by rewrite <-(Forall2_length _ _ _ Hall)]. intros r'. setoid_rewrite <-Hin. clear -Hall.
  induction Hall as [|n r0 ns new -> Hall IH]; [split; [intros []%elem_of_nil|intros (n & []%elem_of_nil & _)]|].
  rewrite elem_of_cons, IH. split; [intros [->|(n' & ? & ?)]; [exists n|exists n']|intros (n' & [->|?]%elem_of_cons & ->); eauto];
    (split; [by constructor|done]).
Qed.

Lemma scanned_cons (variable : bytes) (cand : NodeRecord → Prop) (r r' : bindingRow) (rows : list bindingRow) :
  (∃ r0, r0 ∈ r :: rows ∧ scanned variable cand r0 r') ↔ scanned variable cand r r' ∨ ∃ r0, r0 ∈ rows ∧ scanned variable cand r0 r'.
Proof. setoid_rewrite elem_of_cons. split; [intros (r0 & [->|?] & ?); eauto|intros [?|(r0 & ? & ?)]; eauto]. Qed.

Lemma gives_scanLoop (variable : bytes) (fetch : Q (list NodeRecord)) (fetched : option (list NodeRecord)) (rows : list bindingRow) (k : nat) (cand : NodeRecord → Prop) :
  (1 ≤ k)%nat → gives x0 fetch (nodesAre k cand) → (∀ ns, fetched = Some ns → nodesAre k cand ns) →
  gives x0 (scanLoop cfg variable fetch fetched rows) (rowsAre (length rows * k) (λ r', ∃ r, r ∈ rows ∧ scanned variable cand r r')).
Proof.
  intros Hk1 Hf. revert fetched. induction rows as [|r rows IH]; intros fetched Hns.
  { apply gives_ret, rowsAre_nil. by intros r' (r & []%elem_of_nil & _). }
  cbn [scanLoop]. destruct (r !! variable) as [[b| |]|] eqn:Er.
  1: { eapply gives_bind; [by apply IH|]. intros out Hout. apply gives_ret. cbn beta in Hout.
    eapply rowsAre_impl; [exact (rowsAre_app _ _ _ _ _ _ (rowsAre_one r) Hout)| |cbn; lia].
    intros r'. rewrite scanned_cons. unfold scanned at 2. by rewrite Er. }
  all: eapply gives_bind with (P := nodesAre k cand); [destruct fetched; [apply gives_ret; by apply Hns|done]|].
  all: intros ns Hin; eapply gives_bind;
    [apply (gives_forEach x0 _ (λ n r', r' = <[variable := BNode n]> r)); intros n _; eapply gives_bind; [apply gives_touch|]; intros _ _; by apply gives_ret|].
  all: intros new Hall; cbn beta; eapply gives_bind; [apply IH; by intros ? [= <-]|]; intros out Hout; cbn beta in Hout; apply gives_ret;
    (eapply rowsAre_impl; [exact (rowsAre_app _ _ _ _ _ _ (bound_rows _ _ _ _ _ _ Hin Hall) Hout)| |cbn; lia]);
    intros r'; rewrite scanned_cons; unfold scanned at 2; by rewrite Er.
Qed.

Definition bindEnd (relVar : bytes) (e : EdgeRecord) (to : bytes) (m : NodeRecord) (r : bindingRow) : bindingRow :=
  let nr := <[to := BNode m]> r in if bool_decide (relVar = []) then nr else <[relVar := BEdge e]> nr.

(** The edge leads from the node to the other one, in the direction asked for. *)
Definition joins (dir : Direction) (typ : bytes) (n : NodeRecord) (e : EdgeRecord) (m : NodeRecord) : Prop :=
  (∃ id, liveEdge a g id = Some e) ∧ (typ = [] ∨ ed_Type e = typ) ∧
  ((dir ≠ DirIn ∧ ed_StartNode e = nd_NodeId n ∧ liveNode a g (ed_EndNode e) = Some m) ∨
   (dir ≠ DirOut ∧ ed_EndNode e = nd_NodeId n ∧ liveNode a g (ed_StartNode e) = Some m)).

Definition hopMeans (dir : Direction) (from to relVar typ : bytes) (r r' : bindingRow) : Prop :=
  ∃ n e m, r !! from = Some (BNode n) ∧ joins dir typ n e m ∧ r' = bindEnd relVar e to m r.

Lemma gives_bindHop (r : bindingRow) (to relVar : bytes) (e : EdgeRecord) (id : bytes) :
  small id →
  gives x0 (bindHop cfg r to relVar e id) (rowsAre 1 (λ r', ∃ m, liveNode a g id = Some m ∧ r' = bindEnd relVar e to m r)).
Proof.
  intros Hid x Hk. unfold bindHop. destruct Hk as (Hs & Hk). rewrite Hs, found_node by done. destruct (liveNode a g id) as [m|].
  - split; [done|]. cbn [fst]. eapply rowsAre_impl; [apply rowsAre_one| |done]. intros r'. unfold bindEnd. split; [eauto|]. by intros (m' & [= <-] & ->).
  - split; [done|]. apply rowsAre_nil. by intros r' (m & [=] & _).
Qed.

(** The rows of the edges of a scan. *)
Lemma gives_edges (r : bindingRow) (to relVar : bytes) (es : list EdgeRecord) (end_ : EdgeRecord → bytes) :
  (∀ e, e ∈ es → small (end_ e)) →
  gives x0 (bind (forEach (λ edge, bindHop cfg r to relVar edge (end_ edge)) es) (λ out, ret (concat out)))
    (rowsAre (length es * 1) (λ r', ∃ e, e ∈ es ∧ ∃ m, liveNode a g (end_ e) = Some m ∧ r' = bindEnd relVar e to m r)).
Proof. intros Hs. apply gives_rows. intros e He. apply gives_bindHop. auto. Qed.

Lemma outgoing_spec (n : NodeRecord) (typ : bytes) : small (nd_NodeId n) → small typ →
  ∃ es, ScanOutgoing g (nd_NodeId n) typ (ex_Store x0) = Ok es ∧ (∀ e, e ∈ es → small (ed_EndNode e)) ∧ (length es ≤ size (ag_edges a))%nat ∧
    ∀ e, e ∈ es ↔ (∃ id, liveEdge a g id = Some e) ∧ ed_StartNode e = nd_NodeId n ∧ (typ = [] ∨ ed_Type e = typ).
Proof.
  intros Hn Ht. destruct (gok_adjacency G E _ _ g Kok HG Hg (nd_NodeId n) typ Hn Ht) as [(es & E1 & Hnd & Hes) _].
  exists es. split; [done|]. split; [intros e (id & He & _)%Hes; by apply edge_small in He as [_ ?]|].
  split; [apply live_edges_length; [done|]; intros e (id & He & _)%Hes; by exists id|]. intros e. rewrite Hes. naive_solver.
Qed.
Lemma incoming_spec (n : NodeRecord) (typ : bytes) : small (nd_NodeId n) → small typ →
  ∃ es, ScanIncoming g (nd_NodeId n) typ (ex_Store x0) = Ok es ∧ (∀ e, e ∈ es → small (ed_StartNode e)) ∧ (length es ≤ size (ag_edges a))%nat ∧
    ∀ e, e ∈ es ↔ (∃ id, liveEdge a g id = Some e) ∧ ed_EndNode e = nd_NodeId n ∧ (typ = [] ∨ ed_Type e = typ).
Proof.
  intros Hn Ht. destruct (gok_adjacency G E _ _ g Kok HG Hg (nd_NodeId n) typ Hn Ht) as [_ (es & E1 & Hnd & Hes)].
  exists es. split; [done|]. split; [intros e (id & He & _)%Hes; by apply edge_small in He as [? _]|].
  split; [apply live_edges_length; [done|]; intros e (id & He & _)%Hes; by exists id|]. intros e. rewrite Hes. naive_solver.
Qed.

(** The rows of one row, for the three ways to expand. *)
Definition hopRows (dir : Direction) (to relVar typ : bytes) (r : bindingRow) (n : NodeRecord) (r' : bindingRow) : Prop :=
  ∃ e m, joins dir typ n e m ∧ r' = bindEnd relVar e to m r.

Lemma hopRows_out to relVar typ r n r' :
  hopRows DirOut to relVar typ r n r' ↔
  ∃ e, ((∃ id, liveEdge a g id = Some e) ∧ ed_StartNode e = nd_NodeId n ∧ (typ = [] ∨ ed_Type e = typ)) ∧
    ∃ m, liveNode a g (ed_EndNode e) = Some m ∧ r' = bindEnd relVar e to m r.
Proof.
  split.
  - intros (e & m & (Hl & Ht & [(_ & Hs & Hm)|(Hd & _)]) & ->); [|done]. exists e. split; [done|]. by exists m.
  - intros (e & (Hl & Hs & Ht) & m & Hm & ->). exists e, m. split; [|done]. split; [done|]. split; [done|]. left. done.
Qed.
Lemma hopRows_in to relVar typ r n r' :
  hopRows DirIn to relVar typ r n r' ↔
  ∃ e, ((∃ id, liveEdge a g id = Some e) ∧ ed_EndNode e = nd_NodeId n ∧ (typ = [] ∨ ed_Type e = typ)) ∧
    ∃ m, liveNode a g (ed_StartNode e) = Some m ∧ r' = bindEnd relVar e to m r.
Proof.
  split.
  - intros (e & m & (Hl & Ht & [(Hd & _)|(_ & Hs & Hm)]) & ->); [done|]. exists e. split; [done|]. by exists m.
  - intros (e & (Hl & Hs & Ht) & m & Hm & ->). exists e, m. split; [|done]. split; [done|]. split; [done|]. right. done.
Qed.
Lemma hopRows_both to relVar typ r n r' :
  hopRows DirBoth to relVar typ r n r' ↔ hopRows DirOut to relVar typ r n r' ∨ hopRows DirIn to relVar typ r n r'.
Proof.
  split.
  - intros (e & m & (Hl & Ht & [(_ & Hs)|(_ & Hs)]) & ->); [left|right]; exists e, m; (split; [|done]); (split; [done|]); (split; [done|]); [left|right]; done.
  - intros [(e & m & (Hl & Ht & [(_ & Hs)|(Hd & _)]) & ->)|(e & m & (Hl & Ht & [(Hd & _)|(_ & Hs)]) & ->)]; try done;
      exists e, m; (split; [|done]); (split; [done|]); (split; [done|]); [left|right]; done.
Qed.

Lemma gives_outgoing (r : bindingRow) (n : NodeRecord) (to relVar typ : bytes) : small (nd_NodeId n) → small typ →
  gives x0 (outgoingHops cfg r n to relVar typ) (rowsAre width (hopRows DirOut to relVar typ r n)).
Proof.
  intros Hn Ht. destruct (outgoing_spec n typ Hn Ht) as (es & Es & Hsm & Hlen & Hes). unfold outgoingHops.
  eapply gives_bind; [by apply gives_store|]. intros ? ->. eapply gives_impl; [by apply gives_edges|].
  intros rs Hrs. eapply rowsAre_impl; [exact Hrs| |unfold width; lia]. intros r'. rewrite hopRows_out. by setoid_rewrite Hes.
Qed.
Lemma gives_incoming (r : bindingRow) (n : NodeRecord) (to relVar typ : bytes) : small (nd_NodeId n) → small typ →
  gives x0 (incomingHops cfg r n to relVar typ) (rowsAre width (hopRows DirIn to relVar typ r n)).
Proof.
  intros Hn Ht. destruct (incoming_spec n typ Hn Ht) as (es & Es & Hsm & Hlen & Hes). unfold incomingHops.
  eapply gives_bind; [by apply gives_store|]. intros ? ->. eapply gives_impl; [by apply gives_edges|].
  intros rs Hrs. eapply rowsAre_impl; [exact Hrs| |unfold width; lia]. intros r'. rewrite hopRows_in. by setoid_rewrite Hes.
Qed.

Lemma gives_both (r : bindingRow) (n : NodeRecord) (to relVar typ : bytes) : small (nd_NodeId n) → small typ →
  gives x0 (bothHops cfg r n to relVar typ) (rowsAre width (hopRows DirBoth to relVar typ r n)).
Proof.
  intros Hn Ht. destruct (outgoing_spec n typ Hn Ht) as (os & Eo & Hso & Hlo & Hos). destruct (incoming_spec n typ Hn Ht) as (is_ & Ei & Hsi & Hli & His).
  unfold bothHops. eapply gives_bind; [by apply gives_store|]. intros ? ->. eapply gives_bind; [by apply gives_store|]. intros ? ->.
  eapply gives_bind; [apply gives_forEach; intros e He; apply gives_bindHop; by apply Hso|]. intros o Ho. cbn beta in Ho |- *.
  eapply gives_bind; [apply gives_forEach; intros e He; apply gives_bindHop; by apply Hsi|]. intros i Hi. apply gives_ret.
  eapply rowsAre_impl; [exact (rowsAre_app _ _ _ _ _ _ (concat_rows _ _ _ _ Ho) (concat_rows _ _ _ _ Hi))| |unfold width; lia].
  intros r'. rewrite hopRows_both, hopRows_out, hopRows_in. setoid_rewrite Hos. by setoid_rewrite His.
Qed.

(** The operators of a MATCH. *)
Definition isLive (n : NodeRecord) : Prop := ∃ id, liveNode a g id = Some n.

Definition opMeans (op : LogicalOp) (r r' : bindingRow) : Prop :=
  match op with
  | LabelScan variable label => scanned variable (λ n, isLive n ∧ label ∈ nd_Labels n) r r'
  | AllNodesScan variable => scanned variable isLive r r'
  | PropertyFilter predicate => r' = r ∧ valueTruthy (eval predicate r) = true
  | ExpandOutgoing from to relVar typ => hopMeans DirOut from to relVar typ r r'
  | ExpandIncoming from to relVar typ => hopMeans DirIn from to relVar typ r r'
  | ExpandBoth from to relVar typ => hopMeans DirBoth from to relVar typ r r'
  | _ => False
  end.

Definition matchOp (op : LogicalOp) : Prop :=
  match op with
  | LabelScan _ _ | AllNodesScan _ => True
  | PropertyFilter predicate => noCalls predicate = true
  | ExpandOutgoing _ _ _ typ | ExpandIncoming _ _ _ typ | ExpandBoth _ _ _ typ => small typ
  | _ => False
  end.

Lemma gives_depth : gives x0 (checkDepth cfg 1) (λ _, True).
Proof. unfold checkDepth. destruct (Z.ltb_spec (MaxTraversalDepth (limits cfg)) 1); [lia|]. by apply gives_ret. Qed.

(** The loop over the rows of an expansion. *)
Lemma gives_expand (rows : list bindingRow) (from to relVar typ : bytes) (dir : Direction) (f : bindingRow → NodeRecord → Q (list bindingRow)) :
  Forall smallRow rows →
  (∀ (r : bindingRow) (n : NodeRecord), small (nd_NodeId n) → gives x0 (f r n) (rowsAre width (hopRows dir to relVar typ r n))) →
  gives x0 (bind (checkDepth cfg 1) (λ _, bind (forEach (λ r, match r !! from with Some (BNode n) => f r n | _ => ret [] end) rows) (λ out, ret (concat out))))
    (rowsAre (length rows * width) (λ r', ∃ r, r ∈ rows ∧ hopMeans dir from to relVar typ r r')).
Proof.
  intros Hrows Hf. eapply gives_bind; [apply gives_depth|]. intros _ _. apply gives_rows. intros r Hr.
  rewrite Forall_forall in Hrows. specialize (Hrows r Hr). unfold hopMeans. destruct (r !! from) as [[n|e|v]|] eqn:Er.
  - eapply gives_impl; [apply Hf; by eapply Hrows|]. intros rs Hrs. eapply rowsAre_impl; [exact Hrs| |done]. intros r'. unfold hopRows. naive_solver.
  - apply gives_ret, rowsAre_nil. naive_solver.
  - apply gives_ret, rowsAre_nil. naive_solver.
  - apply gives_ret, rowsAre_nil. naive_solver.
Qed.

Lemma gives_nodesByID (ids : list bytes) : Forall small ids →
  gives x0 (nodesByID cfg ids) (nodesAre (length ids) (λ n, ∃ id, id ∈ ids ∧ liveNode a g id = Some n)).
Proof.
  intros Hids x (Hs & Hk). split; [done|]. cbn [nodesByID fst]. rewrite Hs. split.
  - intros n. rewrite list_elem_of_omap. rewrite Forall_forall in Hids.
    split; intros (id & Hin & Hid); exists id; (split; [done|]); [rewrite <-found_node|rewrite found_node]; auto.
  - clear. induction ids as [|id ids IH]; [done|]. cbn. destruct (found _); cbn; lia.
Qed.

Lemma gives_labelled (l : bytes) :
  gives x0 (go? ids ← onStore (ScanLabel g l) ; nodesByID cfg ids) (nodesAre width (λ n, isLive n ∧ l ∈ nd_Labels n)).
Proof.
  destruct (proj1 (gok_seeks _ _ _ _ g Kok HG Hg) l) as (ids & Ei & Hnd & Hids).
  eapply gives_bind; [by apply gives_store|]. intros ? ->. eapply gives_impl; [apply gives_nodesByID|].
  { apply Forall_forall. intros id (n & Hn & _)%Hids. by apply live_small in Hn as [_ ?]. }
  intros ns [Hns Hlen]. split.
  - intros n. rewrite Hns. setoid_rewrite Hids. unfold isLive. split.
    + intros (id & (n' & Hn' & Hl) & Hn). rewrite Hn in Hn'. injection Hn' as <-. eauto.
    + intros ((id & Hn) & Hl). eauto.
  - assert (length ids ≤ size (ag_nodes a))%nat; [|unfold width; lia]. apply live_ids_length; [done|]. intros id (n & -> & _)%Hids. by exists n.
Qed.

Lemma gives_allNodes : gives x0 (onStore (AllNodes g)) (nodesAre width isLive).
Proof.
  destruct (gok_reads _ _ _ _ g Kok Hg) as (_ & _ & ns & En & Hnd & Hns). eapply gives_impl; [by apply gives_store|]. intros ? ->. split; [exact Hns|].
  assert (length ns ≤ size (ag_nodes a))%nat; [|unfold width; lia]. apply live_nodes_length; [done|]. intros n. apply Hns.
Qed.

Lemma gives_filter (predicate : Expr) (rows : list bindingRow) : noCalls predicate = true →
  gives x0 (filterRows FormatFloat cfg predicate rows)
    (rowsAre (length rows * 1) (λ r', ∃ r, r ∈ rows ∧ (r' = r ∧ valueTruthy (eval predicate r) = true))).
Proof.
  intros Hn. apply gives_rows. intros r Hr. unfold evalBool. eapply gives_bind.
  { eapply gives_bind; [by apply gives_eval|]. intros ? ->. by apply gives_ret with (P := λ b, b = valueTruthy (eval predicate r)). }
  intros ? ->. apply gives_ret. destruct (valueTruthy (eval predicate r)); [|apply rowsAre_nil; naive_solver].
  eapply rowsAre_impl; [apply rowsAre_one| |done]. naive_solver.
Qed.

(** A step makes at most so many rows of each row. *)
Definition opWidth (op : LogicalOp) : nat := match op with PropertyFilter _ => 1 | _ => width end.

Lemma gives_apply (op : LogicalOp) (rows : list bindingRow) : matchOp op → Forall smallRow rows →
  gives x0 (apply FormatFloat rangeOrder cfg vectorProcs op rows) (rowsAre (length rows * opWidth op) (λ r', ∃ r, r ∈ rows ∧ opMeans op r r')).
Proof.
  intros Hop Hrows. destruct op as [v l|v|p|f t rv ty|f t rv ty|f t rv ty| | | | | | | | ]; try done; cbn [apply opMeans matchOp opWidth] in *.
  - apply gives_scanLoop; [unfold width; lia|apply gives_labelled|done].
  - apply gives_scanLoop; [unfold width; lia|apply gives_allNodes|done].
  - by apply gives_filter.
  - eapply (gives_expand rows f t rv ty DirOut (λ r n, outgoingHops cfg r n t rv ty)); [done|]. intros; by apply gives_outgoing.
  - eapply (gives_expand rows f t rv ty DirIn (λ r n, incomingHops cfg r n t rv ty)); [done|]. intros; by apply gives_incoming.
  - eapply (gives_expand rows f t rv ty DirBoth (λ r n, bothHops cfg r n t rv ty)); [done|]. intros; by apply gives_both.
Qed.

Definition opsWidth (ops : list LogicalOp) : nat := foldr (λ op k, opWidth op * k)%nat 1%nat ops.

Lemma opsWidth_pos ops : (1 ≤ opsWidth ops)%nat.
Proof using Type.
  induction ops as [|op ops IH]; [done|]. cbn [opsWidth foldr]. change (1 * 1 ≤ opWidth op * opsWidth ops)%nat. apply Nat.mul_le_mono; [|done].
  unfold opWidth, width. destruct op; lia.
Qed.

Fixpoint opsMean (ops : list LogicalOp) (r r' : bindingRow) : Prop :=
  match ops with
  | [] => r' = r
  | op :: ops => ∃ r1, opMeans op r r1 ∧ opsMean ops r1 r'
  end.

Lemma bindEnd_small relVar e to id m r : smallRow r → liveNode a g id = Some m → smallRow (bindEnd relVar e to m r).
Proof.
  intros Hr Hm. unfold bindEnd. pose proof (smallRow_node r to id m Hr Hm) as Hr'. case_bool_decide; [done|]. intros v n.
  destruct (decide (v = relVar)) as [->|Hne]; [by rewrite lookup_insert_eq|]. rewrite lookup_insert_ne by done. apply Hr'.
Qed.

Lemma joins_live dir typ n e m : joins dir typ n e m → ∃ id, liveNode a g id = Some m.
Proof. intros (_ & _ & [(_ & _ & ?)|(_ & _ & ?)]); eauto. Qed.

Lemma opMeans_small op r r' : smallRow r → opMeans op r r' → smallRow r'.
Proof.
  intros Hr. assert (∀ v (cand : NodeRecord → Prop), (∀ n, cand n → isLive n) → scanned v cand r r' → smallRow r') as Hscan.
  { intros v cand Hc. unfold scanned. intros Hs. assert (r' = r ∨ ∃ n, cand n ∧ r' = <[v := BNode n]> r) as [->|(n & Hn & ->)]
      by (destruct (r !! v) as [[]|]; auto); [done|]. apply Hc in Hn as [id Hid]. by eapply smallRow_node. }
  assert (∀ dir f t rv ty, hopMeans dir f t rv ty r r' → smallRow r') as Hhop.
  { intros dir f t rv ty (n & e & m & _ & [id Hm]%joins_live & ->). by eapply bindEnd_small. }
  destruct op; cbn [opMeans]; try done; eauto.
  - eapply Hscan. by intros n [? _].
  - by intros [-> _].
Qed.

Lemma gives_runOp (op : LogicalOp) (rows : list bindingRow) : matchOp op → Forall smallRow rows → (length rows * opWidth op ≤ N)%nat →
  gives x0 (runOp FormatFloat rangeOrder cfg vectorProcs op rows)
    (λ rs, Forall smallRow rs ∧ rowsAre (length rows * opWidth op) (λ r', ∃ r, r ∈ rows ∧ opMeans op r r') rs).
Proof.
  intros Hop Hrows HN. unfold runOp. eapply gives_bind; [by apply gives_apply|]. intros rs [Hrs Hlen]. cbn beta.
  eapply gives_bind with (P := λ _, True).
  { intros x Hk. split; [done|]. destruct Hk as (_ & _ & _ & Hn). cbn. by rewrite Hn. }
  intros _ _. eapply gives_bind with (P := λ _, True).
  { unfold checkIntermediate. destruct (Z.ltb_spec (MaxIntermediateRows (limits cfg)) (Z.of_nat (length rs))); [|by apply gives_ret].
    intros x Hk. split; [done|]. cbn. eexists. split; [done|lia]. }
  intros _ _. apply gives_ret. split; [|done]. apply Forall_forall. intros r' (r & Hr & Hm)%Hrs. rewrite Forall_forall in Hrows.
  eapply opMeans_small; [|done]. auto.
Qed.

Lemma gives_ops (ops : list LogicalOp) (rows : list bindingRow) : Forall matchOp ops → Forall smallRow rows → (length rows * opsWidth ops ≤ N)%nat →
  gives x0 (forFold (runOp FormatFloat rangeOrder cfg vectorProcs) ops rows)
    (rowsAre (length rows * opsWidth ops) (λ r', ∃ r, r ∈ rows ∧ opsMean ops r r')).
Proof.
  intros Hops. revert rows. induction Hops as [|op ops Hop Hops IH]; intros rows Hrows HN.
  - apply gives_ret. split; [|cbn; lia]. intros r'. cbn [opsMean]. naive_solver.
  - cbn [forFold opsWidth foldr] in *. fold (opsWidth ops) in *. pose proof (opsWidth_pos ops).
    eapply gives_bind; [apply gives_runOp; [done|done|nia]|]. intros rs [Hsm [Hrs Hlen]]. eapply gives_impl; [apply IH; [done|nia]|].
    intros out Hout. eapply rowsAre_impl; [exact Hout| |nia]. intros r'. setoid_rewrite Hrs. cbn [opsMean]. naive_solver.
Qed.

(** ** What the plan of a MATCH computes *)

(** The properties written in a node pattern equal those of the node. *)
Definition propsHold (np : NodePattern) (r : bindingRow) : Prop :=
  ∀ p e, (p, e) ∈ np_Properties np → compareValues FormatFloat (propOf (r !! np_Variable np) p) (eval e r) = 0.

(** A walk along the relationships of the pattern, as it is expanded. *)
Fixpoint pathFrom (n : NodeRecord) (rels : list RelPattern) (nodes : list NodePattern) (r r' : bindingRow) : Prop :=
  match rels, nodes with
  | rel :: rels, np :: nodes =>
      ∃ e m, joins (rp_Direction rel) (firstName (rp_Types rel)) n e m ∧
        let r1 := bindEnd (rp_Variable rel) e (np_Variable np) m r in
        propsHold np r1 ∧ pathFrom m rels nodes r1 r'
  | _, _ => r' = r
  end.

(** The node a scan starts at: the one that is bound, or any live node with the first label. *)
Definition anchored (np : NodePattern) (r : bindingRow) (n : NodeRecord) : Prop :=
  match r !! np_Variable np with
  | Some (BNode n') => n = n'
  | _ => isLive n ∧ match np_Labels np with l :: _ => l ∈ nd_Labels n | [] => True end
  end.

Definition partMeans (p : PatternPart) (r r' : bindingRow) : Prop :=
  ∃ n, anchored (pp_Node p) r n ∧
    let r1 := <[np_Variable (pp_Node p) := BNode n]> r in
    propsHold (pp_Node p) r1 ∧ pathFrom n (pp_Rels p) (pp_Nodes p) r1 r'.

Fixpoint partsMean (ps : list PatternPart) (r r' : bindingRow) : Prop :=
  match ps with
  | [] => r' = r
  | p :: ps => ∃ r1, partMeans p r r1 ∧ partsMean ps r1 r'
  end.

Definition planMeans (ps : list PatternPart) (wh : option Expr) (r r' : bindingRow) : Prop :=
  partsMean ps r r' ∧ match wh with Some e => valueTruthy (eval e r') = true | None => True end.

(** ** The plan computes that *)

Hypothesis (Horder : ∀ A (l : list A), rangeOrder A l ≡ₚ l).

Definition nodeOk (np : NodePattern) : Prop := Forall (λ kv, noCalls kv.2 = true) (np_Properties np).
(** The relationship and the node it leads to have different names. *)
Definition hopOk (rel : RelPattern) (np : NodePattern) : Prop :=
  (rp_Variable rel = [] ∨ rp_Variable rel ≠ np_Variable np) ∧ small (firstName (rp_Types rel)) ∧ nodeOk np.
Definition partOk (p : PatternPart) : Prop := nodeOk (pp_Node p) ∧ Forall2 hopOk (pp_Rels p) (pp_Nodes p).

Definition predHolds (pred : option Expr) (r : bindingRow) : Prop :=
  match pred with Some e => valueTruthy (eval e r) = true | None => True end.
Definition predPure (pred : option Expr) : Prop := match pred with Some e => noCalls e = true | None => True end.

Abbreviation addProp := (λ (var : bytes) (pred : option Expr) '(prop, val), andPred pred (BinaryExpr (lit "=") (PropertyAccess var prop) val)).

Lemma andPred_holds pred var p e r :
  predHolds (andPred pred (BinaryExpr (lit "=") (PropertyAccess var p) e)) r ↔
  predHolds pred r ∧ compareValues FormatFloat (propOf (r !! var) p) (eval e r) = 0.
Proof.
  assert (valueTruthy (eval (BinaryExpr (lit "=") (PropertyAccess var p) e) r) = true ↔ compareValues FormatFloat (propOf (r !! var) p) (eval e r) = 0) as Heq.
  { cbn [evalPure]. do 2 (rewrite bool_decide_false by done). unfold binaryValue. rewrite bool_decide_true by done. cbn [valueTruthy]. apply Z.eqb_eq. }
  destruct pred as [q|]; cbn [andPred predHolds]; [|rewrite Heq; tauto].
  rewrite <-Heq. cbn [evalPure]. rewrite (bool_decide_true (lit "AND" = lit "AND")) by done. cbn [valueTruthy]. apply andb_true_iff.
Qed.

Lemma fold_props var (l : list (bytes * Expr)) pred r :
  predHolds (fold_left (addProp var) l pred) r ↔
  predHolds pred r ∧ Forall (λ kv, compareValues FormatFloat (propOf (r !! var) kv.1) (eval kv.2 r) = 0) l.
Proof.
  revert pred. induction l as [|[p e] l IH]; intros pred; cbn [fold_left]; [rewrite Forall_nil; tauto|].
  rewrite IH, andPred_holds, Forall_cons. cbn [fst snd]. tauto.
Qed.

Lemma fold_pure var (l : list (bytes * Expr)) pred :
  Forall (λ kv, noCalls kv.2 = true) l → predPure pred → predPure (fold_left (addProp var) l pred).
Proof.
  intros Hl. revert pred. induction Hl as [|[p e] l He Hl IH]; intros pred Hp; cbn [fold_left]; [done|]. apply IH.
  destruct pred as [q|]; cbn in *; [|done]. by rewrite Hp, He.
Qed.

Lemma inline_means np r r' : opsMean (inlinePropFilter rangeOrder np) r r' ↔ r' = r ∧ propsHold np r.
Proof.
  unfold inlinePropFilter, propsHold. pose proof (fold_props (np_Variable np) (rangeOrder _ (np_Properties np)) None r) as Hf.
  assert (Forall (λ kv, compareValues FormatFloat (propOf (r !! np_Variable np) kv.1) (eval kv.2 r) = 0) (rangeOrder _ (np_Properties np)) ↔
          ∀ p e, (p, e) ∈ np_Properties np → compareValues FormatFloat (propOf (r !! np_Variable np) p) (eval e r) = 0) as Hp.
  { rewrite (Horder _ (np_Properties np)), Forall_forall. split; [intros Hk p e; apply (Hk (p, e))|intros Hk [p e]; apply Hk]. }
  rewrite <-Hp. destruct (fold_left _ _ None) as [pred|]; cbn [opsMean opMeans predHolds] in *.
  - split; [intros (r1 & (-> & Ht) & ->); tauto|intros [-> Ht]; exists r; tauto].
  - tauto.
Qed.

Lemma inline_matchOp np : nodeOk np → Forall matchOp (inlinePropFilter rangeOrder np).
Proof.
  intros Hn. unfold inlinePropFilter. pose proof (fold_pure (np_Variable np) (rangeOrder _ (np_Properties np)) None) as Hp.
  destruct (fold_left _ _ None) as [pred|]; constructor; [|done]. apply Hp; [|done]. unfold nodeOk in Hn. by rewrite (Horder _ (np_Properties np)).
Qed.

Lemma opsMean_app ops1 ops2 r r' : opsMean (ops1 ++ ops2) r r' ↔ ∃ r1, opsMean ops1 r r1 ∧ opsMean ops2 r1 r'.
Proof.
  revert r. induction ops1 as [|op ops1 IH]; intros r; cbn [opsMean app]; [naive_solver|]. setoid_rewrite IH. naive_solver.
Qed.

Lemma expandOp_means rel from to r r' :
  opMeans (expandOp rel from to) r r' ↔ hopMeans (rp_Direction rel) from to (rp_Variable rel) (firstName (rp_Types rel)) r r'.
Proof. unfold expandOp. by destruct (rp_Direction rel). Qed.

Lemma bindEnd_to relVar e to m r : relVar = [] ∨ relVar ≠ to → bindEnd relVar e to m r !! to = Some (BNode m).
Proof.
  intros Hv. unfold bindEnd. case_bool_decide as Hn; [apply lookup_insert_eq|]. destruct Hv as [?|Hne]; [done|].
  rewrite lookup_insert_ne by done. apply lookup_insert_eq.
Qed.

Lemma hops_mean n from rels nodes r r' :
  Forall2 hopOk rels nodes → r !! from = Some (BNode n) →
  opsMean (planHops rangeOrder from rels nodes) r r' ↔ pathFrom n rels nodes r r'.
Proof.
  intros Hok. revert n from r. induction Hok as [|rel np rels nodes (Hv & _ & _) Hok IH]; intros n from r Hr; [done|].
  cbn [planHops opsMean pathFrom]. setoid_rewrite expandOp_means. setoid_rewrite opsMean_app. setoid_rewrite inline_means. unfold hopMeans. split.
  - intros (r1 & (n' & e & m & Hn' & Hj & ->) & r2 & (-> & Hp) & Hrest). rewrite Hr in Hn'. injection Hn' as <-. exists e, m.
    split; [done|]. split; [done|]. by apply (IH m (np_Variable np)); [apply bindEnd_to|].
  - intros (e & m & Hj & Hp & Hrest). eexists. split; [by eauto 7|]. eexists. split; [done|]. by apply (IH m (np_Variable np)); [apply bindEnd_to|].
Qed.

Lemma anchor_means np r r' : opMeans (planAnchor np) r r' ↔ ∃ n, anchored np r n ∧ r' = <[np_Variable np := BNode n]> r.
Proof.
  unfold planAnchor, anchored. destruct (np_Labels np) as [|l ls]; cbn [opMeans]; unfold scanned; destruct (r !! np_Variable np) as [[n|e|v]|] eqn:Er;
    try (split; [intros ->; exists n; split; [done|by rewrite insert_id]|intros (n' & -> & ->); by rewrite insert_id]); naive_solver.
Qed.

Lemma part_means p r r' : partOk p → opsMean (planPart rangeOrder p) r r' ↔ partMeans p r r'.
Proof.
  intros [_ Hok]. unfold planPart, partMeans. cbn [opsMean]. setoid_rewrite anchor_means. setoid_rewrite opsMean_app. setoid_rewrite inline_means. split.
  - intros (r1 & (n & Ha & ->) & r2 & (-> & Hp) & Hh). exists n. split; [done|]. split; [done|]. by apply (hops_mean n (np_Variable (pp_Node p))); [|apply lookup_insert_eq|].
  - intros (n & Ha & Hp & Hh). eexists. split; [by eauto|]. eexists. split; [done|]. by apply (hops_mean n (np_Variable (pp_Node p))); [|apply lookup_insert_eq|].
Qed.

Lemma match_means (ps : list PatternPart) (wh : option Expr) r r' : Forall partOk ps → opsMean (planMatch rangeOrder ps wh) r r' ↔ planMeans ps wh r r'.
Proof.
  intros Hok. unfold planMatch, planMeans. rewrite opsMean_app.
  assert (∀ r1, opsMean (ps ≫= planPart rangeOrder) r r1 ↔ partsMean ps r r1) as Hparts.
  { revert r. induction Hok as [|p ps Hp Hok IH]; intros r r1; [done|]. cbn [mbind list_bind partsMean]. rewrite opsMean_app.
    setoid_rewrite IH. by setoid_rewrite part_means. }
  setoid_rewrite Hparts. destruct wh as [e|]; cbn [opsMean opMeans]; naive_solver.
Qed.

Lemma hops_matchOp from rels nodes : Forall2 hopOk rels nodes → Forall matchOp (planHops rangeOrder from rels nodes).
Proof.
  intros Hok. revert from. induction Hok as [|rel np rels nodes (_ & Ht & Hn) Hok IH]; intros from; [constructor|].
  cbn [planHops]. constructor; [unfold expandOp; by destruct (rp_Direction rel)|]. apply Forall_app. split; [|apply IH]. by apply inline_matchOp.
Qed.

Lemma match_matchOp (ps : list PatternPart) (wh : option Expr) : Forall partOk ps → predPure wh → Forall matchOp (planMatch rangeOrder ps wh).
Proof.
  intros Hok Hwh. unfold planMatch. apply Forall_app. split; [|destruct wh; repeat constructor; done].
  induction Hok as [|p ps [Hn Hh] Hok IH]; [constructor|]. cbn [mbind list_bind]. apply Forall_app. split; [|done]. unfold planPart.
  constructor; [unfold planAnchor; by destruct (np_Labels _)|]. apply Forall_app. split; [by apply inline_matchOp|by apply hops_matchOp].
Qed.

(** The steps of a MATCH that can multiply the rows: its nodes at the anchors and its
    relationships. *)
Definition steps (ps : list PatternPart) : nat := sum_list_with (λ p, S (length (pp_Rels p))) ps.

Lemma opsWidth_app ops1 ops2 : opsWidth (ops1 ++ ops2) = (opsWidth ops1 * opsWidth ops2)%nat.
Proof using Type.
  induction ops1 as [|op ops1 IH]; [symmetry; apply Nat.mul_1_l|]. change (opWidth op * opsWidth (ops1 ++ ops2) = opWidth op * opsWidth ops1 * opsWidth ops2)%nat.
  rewrite IH. lia.
Qed.

Lemma inline_width np : opsWidth (inlinePropFilter rangeOrder np) = 1%nat.
Proof using Type. unfold inlinePropFilter. by destruct (fold_left _ _ None). Qed.

Lemma hops_width from rels nodes : Forall2 hopOk rels nodes → opsWidth (planHops rangeOrder from rels nodes) = (width ^ length rels)%nat.
Proof using Type.
  intros Hok. revert from. induction Hok as [|rel np rels nodes _ Hok IH]; intros from; [done|]. cbn [planHops].
  change (opWidth (expandOp rel from (np_Variable np)) * opsWidth (inlinePropFilter rangeOrder np ++ planHops rangeOrder (np_Variable np) rels nodes) = width * width ^ length rels)%nat.
  rewrite opsWidth_app, inline_width, IH. unfold expandOp. destruct (rp_Direction rel); cbn [opWidth]; lia.
Qed.

Lemma match_width (ps : list PatternPart) (wh : option Expr) : Forall partOk ps → opsWidth (planMatch rangeOrder ps wh) = (width ^ steps ps)%nat.
Proof using Type.
  intros Hok. unfold planMatch. rewrite opsWidth_app. assert (opsWidth (ps ≫= planPart rangeOrder) = (width ^ steps ps)%nat) as ->; [|destruct wh; cbn [opsWidth foldr opWidth]; lia].
  induction Hok as [|p ps [_ Hh] Hok IH]; [done|]. cbn [mbind list_bind steps sum_list_with]. rewrite opsWidth_app, IH, Nat.pow_add_r. f_equal.
  unfold planPart. change (opWidth (planAnchor (pp_Node p)) *
    opsWidth (inlinePropFilter rangeOrder (pp_Node p) ++ planHops rangeOrder (np_Variable (pp_Node p)) (pp_Rels p) (pp_Nodes p)) = width * width ^ length (pp_Rels p))%nat.
  rewrite opsWidth_app, inline_width, hops_width by done. unfold planAnchor. destruct (np_Labels _); cbn [opWidth]; lia.
Qed.

Lemma gives_match (ps : list PatternPart) (wh : option Expr) (rows : list bindingRow) :
  Forall partOk ps → predPure wh → Forall smallRow rows → (length rows * width ^ steps ps ≤ N)%nat →
  gives x0 (forFold (runOp FormatFloat rangeOrder cfg vectorProcs) (planMatch rangeOrder ps wh) rows)
    (rowsAre (length rows * width ^ steps ps) (λ r', ∃ r, r ∈ rows ∧ planMeans ps wh r r')).
Proof.
  intros Hok Hwh Hrows HN. rewrite <-(match_width ps wh Hok) in *. eapply gives_impl; [by apply gives_ops; [apply match_matchOp| |]|].
  intros rs Hrs. eapply rowsAre_impl; [exact Hrs| |done]. intros r'. by setoid_rewrite match_means.
Qed.

End Store.

Section Meaning.
Context (a : AGraph).
Local Abbreviation isLive := (isLive a).
Local Abbreviation joins := (joins a).
Local Abbreviation pathFrom := (pathFrom a).
Local Abbreviation anchored := (anchored a).
Local Abbreviation partMeans := (partMeans a).
Local Abbreviation partsMean := (partsMean a).
Local Abbreviation planMeans := (planMeans a).

(** ** Meaning of a MATCH *)

(** A live node with all labels of the pattern. *)
Definition fits (np : NodePattern) (n : NodeRecord) : Prop := isLive n ∧ ∀ l, l ∈ np_Labels np → l ∈ nd_Labels n.

(** A node pattern binds its variable to the node, or finds it bound to that node. A node without
    a name is bound to the empty name, over and over. *)
Definition bindNode (np : NodePattern) (n : NodeRecord) (r r' : bindingRow) : Prop :=
  fits np n ∧ (np_Variable np = [] ∨ r !! np_Variable np = None ∨ r !! np_Variable np = Some (BNode n)) ∧
  r' = <[np_Variable np := BNode n]> r.

(** So does a relationship pattern that is named; the relationship has one of the types, if any
    are written, and the written properties. *)
Definition bindRel (rel : RelPattern) (e : EdgeRecord) (r r' : bindingRow) : Prop :=
  (rp_Types rel = [] ∨ ed_Type e ∈ rp_Types rel) ∧
  (∀ p v, (p, v) ∈ rp_Properties rel → compareValues FormatFloat (propOf (Some (BEdge e)) p) (eval v r) = 0) ∧
  if bool_decide (rp_Variable rel = []) then r' = r
  else (r !! rp_Variable rel = None ∨ r !! rp_Variable rel = Some (BEdge e)) ∧ r' = <[rp_Variable rel := BEdge e]> r.

(** A walk of the graph along the pattern, with the relationships it takes; each node has the
    written properties. *)
Fixpoint walk (n : NodeRecord) (rels : list RelPattern) (nodes : list NodePattern) (r r' : bindingRow) (es : list EdgeRecord) : Prop :=
  match rels, nodes with
  | rel :: rels, np :: nodes =>
      ∃ e m r1 r2 es', joins (rp_Direction rel) [] n e m ∧ bindNode np m r r1 ∧ bindRel rel e r1 r2 ∧ propsHold np r2 ∧ walk m rels nodes r2 r' es' ∧ es = e :: es'
  | _, _ => r' = r ∧ es = []
  end.

Definition partMatches (p : PatternPart) (r r' : bindingRow) (es : list EdgeRecord) : Prop :=
  ∃ n r1, bindNode (pp_Node p) n r r1 ∧ propsHold (pp_Node p) r1 ∧ walk n (pp_Rels p) (pp_Nodes p) r1 r' es.

Fixpoint partsMatch (ps : list PatternPart) (r r' : bindingRow) (es : list EdgeRecord) : Prop :=
  match ps with
  | [] => r' = r ∧ es = []
  | p :: ps => ∃ r1 es1 es2, partMatches p r r1 es1 ∧ partsMatch ps r1 r' es2 ∧ es = es1 ++ es2
  end.

(** No relationship is matched twice in the clause, and the WHERE holds. *)
Definition matchMeans (ps : list PatternPart) (wh : option Expr) (r r' : bindingRow) : Prop :=
  (∃ es, partsMatch ps r r' es ∧ NoDup es) ∧ match wh with Some e => valueTruthy (eval e r') = true | None => True end.

(** ** Where the plan computes the meaning *)

(** The nodes named in [nb] are bound to live nodes, and nothing but [nb] and [eb] is bound. *)
Definition rowOk (nb eb : gset bytes) (r : bindingRow) : Prop :=
  (∀ v, v ∈ nb → ∃ n, r !! v = Some (BNode n) ∧ isLive n) ∧ ∀ v, v ∉ nb → v ∉ eb → r !! v = None.

Lemma joins_typed dir rel n e m : (length (rp_Types rel) ≤ 1)%nat → [] ∉ rp_Types rel →
  joins dir (firstName (rp_Types rel)) n e m ↔ joins dir [] n e m ∧ (rp_Types rel = [] ∨ ed_Type e ∈ rp_Types rel).
Proof using All.
  intros Hlen Hne. unfold joins. destruct (rp_Types rel) as [|t [|t' ts]]; cbn in Hlen; [|clear Hlen|lia]; cbn [firstName].
  - split; [intros (? & _ & ?)|intros [? _]; done]. by repeat split; auto.
  - rewrite list_elem_of_singleton. apply not_elem_of_cons in Hne as [Hne _]. split.
    + intros (? & [Ht|Ht] & ?); [by rewrite Ht in Hne|]. split; [by repeat split; auto|by right].
    + intros [(? & _ & ?) [?|Ht]]; [done|]. by repeat split; auto.
Qed.

(** One relationship of a plain pattern. *)
Lemma hop_equiv nb eb rel np n e m r r2 : hopPlain nb eb rel np = true → rowOk nb eb r →
  (∃ r1, joins (rp_Direction rel) [] n e m ∧ bindNode np m r r1 ∧ bindRel rel e r1 r2) ↔
  joins (rp_Direction rel) (firstName (rp_Types rel)) n e m ∧ r2 = bindEnd (rp_Variable rel) e (np_Variable np) m r.
Proof using All.
  intros (Hl & Hv & Hlen & Hnt & Hp & Hrv)%bool_decide_eq_true [_ Hfree]. rewrite joins_typed by done. unfold bindNode, bindRel, fits, bindEnd. rewrite Hl, Hp. split.
  - intros (r1 & Hj & (_ & _ & ->) & Ht & _ & Hr). split; [done|]. case_bool_decide; [done|]. by destruct Hr as [_ ->].
  - intros [[Hj Ht] ->]. exists (<[np_Variable np := BNode m]> r). split; [done|]. split; [|split; [done|]].
    + split; [split; [by destruct Hj as (_ & _ & [(_ & _ & ?)|(_ & _ & ?)]); eexists|by intros l ?%elem_of_nil]|]. split; [|done]. destruct Hv as [?|Hv]; [by left|right; left]. apply Hfree; set_solver.
    + split; [by intros p v ?%elem_of_nil|]. case_bool_decide as Hn; [done|]. split; [|done]. left. destruct Hrv as [?|[Hrv Hne]]; [done|].
      rewrite lookup_insert_ne by done. apply Hfree; set_solver.
Qed.

Lemma hop_rowOk nb eb rel np e m r : hopPlain nb eb rel np = true → rowOk nb eb r → isLive m →
  rowOk (nb ∪ {[np_Variable np]}) (bindName (rp_Variable rel) eb) (bindEnd (rp_Variable rel) e (np_Variable np) m r).
Proof using All.
  intros (_ & Hv & _ & _ & _ & Hrv)%bool_decide_eq_true [Hnb Hfree] Hm. unfold bindEnd, bindName. split.
  - intros v Hin. assert (∃ n, <[np_Variable np := BNode m]> r !! v = Some (BNode n) ∧ isLive n) as (n & Hn & Hl).
    { destruct (decide (v = np_Variable np)) as [->|Hne]; [rewrite lookup_insert_eq; eauto|]. rewrite lookup_insert_ne by done. apply Hnb. set_solver. }
    exists n. split; [|done]. case_bool_decide; [done|]. rewrite lookup_insert_ne; [done|]. destruct Hrv as [?|[Hrv Hne]]; [done|]. set_solver.
  - intros v Hn He. case_bool_decide as Hr.
    + rewrite lookup_insert_ne by set_solver. apply Hfree; set_solver.
    + rewrite !lookup_insert_ne by set_solver. apply Hfree; set_solver.
Qed.

Lemma hops_equiv rels nodes n nb eb nb' eb' r r' : plainHops nb eb rels nodes = Some (nb', eb') → rowOk nb eb r →
  (pathFrom n rels nodes r r' ↔ ∃ es, walk n rels nodes r r' es) ∧
  ∀ es, walk n rels nodes r r' es → rowOk nb' eb' r' ∧ (length es ≤ length rels)%nat ∧
    ([] ∉ firstName ∘ rp_Types <$> rels → ∃ k, ed_Type <$> es = take k (firstName ∘ rp_Types <$> rels)).
Proof using All.
  revert n nb eb r nodes. induction rels as [|rel rels IH]; intros n nb eb r nodes Hp Hr.
  { destruct nodes; cbn in *; simplify_eq; (split; [naive_solver|]); intros es [-> ->]; (split; [done|]); (split; [done|]); intros _; by exists 0%nat. }
  destruct nodes as [|np nodes]; cbn [plainHops pathFrom walk] in *.
  { simplify_eq. split; [naive_solver|]. intros es [-> ->]. split; [done|]. split; [cbn; lia|]. intros _. by exists 0%nat. }
  destruct (hopPlain nb eb rel np) eqn:Eh; [|done]. pose proof (λ e m r2, hop_equiv nb eb rel np n e m r r2 Eh Hr) as Hhop.
  assert (∀ e m, joins (rp_Direction rel) (firstName (rp_Types rel)) n e m → isLive m) as Hlive by (intros e m (_ & _ & [(_ & _ & ?)|(_ & _ & ?)]); by eexists).
  pose proof (λ e m Hj, IH m _ _ (bindEnd (rp_Variable rel) e (np_Variable np) m r) nodes Hp (hop_rowOk nb eb rel np e m r Eh Hr (Hlive e m Hj))) as IH'. split.
  - split.
    + intros (e & m & Hj & Hprops & [es Hw]%(proj1 (IH' e m Hj))). destruct (proj2 (Hhop e m _) (conj Hj eq_refl)) as (r1 & ? & ? & ?).
      exists (e :: es), e, m, r1, (bindEnd (rp_Variable rel) e (np_Variable np) m r), es. done.
    + intros (es & e & m & r1 & r2 & es' & Hj & Hbn & Hbr & Hprops & Hw & ->). destruct (proj1 (Hhop e m r2)) as [Hj' ->]; [eauto|].
      exists e, m. split; [done|]. split; [done|]. apply (IH' e m Hj'). eauto.
  - intros es (e & m & r1 & r2 & es' & Hj & Hbn & Hbr & Hprops & Hw & ->). destruct (proj1 (Hhop e m r2)) as [Hj' ->]; [eauto|].
    destruct (proj2 (IH' e m Hj') es' Hw) as (Hr' & Hlen & Hty). split; [done|]. split; [cbn; lia|]. intros Hne. rewrite fmap_cons in Hne. apply not_elem_of_cons in Hne as [Hne Hnes].
    destruct (Hty Hnes) as [k Hk]. exists (S k). rewrite !fmap_cons. cbn [take]. rewrite <-Hk. f_equal. cbn [compose] in *. destruct Hj' as (_ & [?|?] & _); done.
Qed.

Lemma anchor_equiv nb eb np n r : anchorPlain nb eb np = true → rowOk nb eb r →
  (anchored np r n ↔ bindNode np n r (<[np_Variable np := BNode n]> r)) ∧
  (bindNode np n r (<[np_Variable np := BNode n]> r) → rowOk (nb ∪ {[np_Variable np]}) eb (<[np_Variable np := BNode n]> r)).
Proof using All.
  intros Hp%bool_decide_eq_true [Hnb Hfree]. split.
  - unfold anchored, bindNode, fits. destruct Hp as [[Hv Hl]|(Hv & Hne & Hl)].
    + rewrite Hfree by set_solver. destruct (np_Labels np) as [|l [|l' ls]]; cbn in Hl; [| |lia]; [|setoid_rewrite list_elem_of_singleton]; split.
      * intros [? _]. split; [split; [done|by intros l ?%elem_of_nil]|]. auto.
      * by intros [[? _] _].
      * intros [? ?]. split; [split; [done|by intros l' ->]|]. auto.
      * intros [[? Hl'] _]. auto.
    + destruct (Hnb _ Hv) as (n' & Hn & Hlive). rewrite Hn, Hl. split.
      * intros ->. split; [split; [done|by intros l ?%elem_of_nil]|]. auto.
      * intros (_ & [?|[?|[= ->]]] & _); done.
  - intros ((Hlive & _) & _ & _). split.
    + intros v Hin. destruct (decide (v = np_Variable np)) as [->|Hne]; [rewrite lookup_insert_eq; eauto|]. rewrite lookup_insert_ne by done. apply Hnb. set_solver.
    + intros v Hn He. rewrite lookup_insert_ne by set_solver. apply Hfree; set_solver.
Qed.

Lemma parts_equiv ps nb eb r r' : plainParts nb eb ps = true → rowOk nb eb r →
  (partsMean ps r r' ↔ ∃ es, partsMatch ps r r' es) ∧
  ∀ es, partsMatch ps r r' es → (length es ≤ length (relTypes ps))%nat ∧ ([] ∉ relTypes ps → NoDup (relTypes ps) → NoDup es).
Proof using All.
  cut (plainParts nb eb ps = true → rowOk nb eb r → (partsMean ps r r' ↔ ∃ es, partsMatch ps r r' es) ∧
    ∀ es, partsMatch ps r r' es → (length es ≤ length (relTypes ps))%nat ∧ ([] ∉ relTypes ps → ed_Type <$> es `sublist_of` relTypes ps)).
  { intros Hc Hp Hr. destruct (Hc Hp Hr) as [? Hes]. split; [done|]. intros es Hm. destruct (Hes es Hm) as [? Hsub]. split; [done|]. intros Hne Hnd.
    apply (NoDup_fmap_1 ed_Type). eapply sublist_NoDup; [exact Hnd|]. auto. }
  revert nb eb r. induction ps as [|p ps IH]; intros nb eb r Hp Hr; cbn [plainParts partsMean partsMatch] in *.
  { split; [naive_solver|]. intros es [-> ->]. split; [done|]. by intros _. }
  apply andb_true_iff in Hp as [Ha Hp]. destruct (plainHops _ eb (pp_Rels p) (pp_Nodes p)) as [[nb' eb']|] eqn:Eh; [|done].
  assert ((∀ r1, partMeans p r r1 ↔ ∃ es, partMatches p r r1 es) ∧ ∀ r1 es, partMatches p r r1 es → rowOk nb' eb' r1 ∧ (length es ≤ length (pp_Rels p))%nat ∧
    ([] ∉ firstName ∘ rp_Types <$> pp_Rels p → ∃ k, ed_Type <$> es = take k (firstName ∘ rp_Types <$> pp_Rels p))) as [Hpart Hes].
  { unfold partMeans, partMatches. split.
    - intros r1. split.
      + intros (n & Han & Hprops & Hw). destruct (anchor_equiv nb eb (pp_Node p) n r Ha Hr) as [[Hb _] Hok]. specialize (Hb Han). apply (hops_equiv _ _ n _ _ _ _ _ r1 Eh (Hok Hb)) in Hw as [es Hw].
        by exists es, n, (<[np_Variable (pp_Node p) := BNode n]> r).
      + intros (es & n & r0 & Hb & Hprops & Hw). destruct (anchor_equiv nb eb (pp_Node p) n r Ha Hr) as [[_ Hb'] Hok]. assert (r0 = <[np_Variable (pp_Node p) := BNode n]> r) as -> by apply Hb.
        exists n. split; [auto|]. split; [done|]. apply (hops_equiv _ _ n _ _ _ _ _ r1 Eh (Hok Hb)). eauto.
    - intros r1 es (n & r0 & Hb & _ & Hw). destruct (anchor_equiv nb eb (pp_Node p) n r Ha Hr) as [_ Hok]. assert (r0 = <[np_Variable (pp_Node p) := BNode n]> r) as -> by apply Hb.
      by apply (hops_equiv _ _ n _ _ _ _ _ r1 Eh (Hok Hb)). }
  split.
  - split.
    + intros (r1 & [es1 Hp1]%Hpart & Hrest). apply (IH nb' eb' r1 Hp (proj1 (Hes r1 es1 Hp1))) in Hrest as [es2 Hp2]. by exists (es1 ++ es2), r1, es1, es2.
    + intros (es & r1 & es1 & es2 & Hp1 & Hp2 & ->). exists r1. split; [apply Hpart; eauto|]. apply (IH nb' eb' r1 Hp (proj1 (Hes r1 es1 Hp1))). eauto.
  - intros es (r1 & es1 & es2 & Hp1 & Hp2 & ->). destruct (Hes r1 es1 Hp1) as (Hr1 & Hlen1 & Hty1). destruct (proj2 (IH nb' eb' r1 Hp Hr1) es2 Hp2) as [Hlen2 Hty2].
    unfold relTypes in *. cbn [mbind list_bind]. rewrite !length_app, length_fmap. split; [lia|]. intros Hne. rewrite fmap_app. apply not_elem_of_app in Hne as [Hne1 Hne2].
    apply sublist_app; [destruct (Hty1 Hne1) as [k ->]; apply sublist_take|auto].
Qed.

(** On a plain pattern the plan computes the meaning. *)
Lemma plain_means ps wh r' : plainMatch ps = true → planMeans ps wh ∅ r' ↔ matchMeans ps wh ∅ r'.
Proof using All.
  intros [Hp Ht%bool_decide_eq_true]%andb_true_iff. unfold planMeans, matchMeans.
  destruct (parts_equiv ps ∅ ∅ ∅ r' Hp) as [Hiff Hes]; [split; [set_solver|intros; apply lookup_empty]|]. rewrite Hiff.
  assert ((∃ es, partsMatch ps ∅ r' es) ↔ ∃ es, partsMatch ps ∅ r' es ∧ NoDup es) as ->; [|done]. split; [|naive_solver]. intros [es Hm]. exists es. split; [done|].
  destruct (Hes es Hm) as [Hlen Hnd]. destruct Ht as [Ht|[? ?]]; [|auto]. destruct es as [|e [|e' es]]; [constructor|apply NoDup_singleton|cbn in Hlen; lia].
Qed.

End Meaning.

(** ** RETURN *)

(** The columns of a row. *)
Definition columnsOf (items : list ReturnItem) (r : bindingRow) : bindingRow :=
  fold_left (λ nr item, <[itemName item := BValue (eval (ri_Expr item) r)]> nr) items ∅.

Lemma projectRow_pure (items : list ReturnItem) (r nr : bindingRow) (key : bytes) (x : X) :
  Forall (λ i, noCalls (ri_Expr i) = true) items →
  ∃ key', projectRow FormatFloat cfg items r nr key x =
    (Ok (fold_left (λ nr item, <[itemName item := BValue (eval (ri_Expr item) r)]> nr) items nr, key'), x).
Proof.
  intros Hi. revert nr key. induction Hi as [|i items Hi Hitems IH]; intros nr key; [by eexists|].
  cbn [projectRow fold_left]. unfold bind, evalM. rewrite evalScalar_pure by done. apply IH.
Qed.

Lemma projectLoop_pure (items : list ReturnItem) (seen : gset bytes) (rows : list bindingRow) (x : X) :
  Forall (λ i, noCalls (ri_Expr i) = true) items →
  projectLoop FormatFloat cfg items false seen rows x = (Ok (columnsOf items <$> rows), x).
Proof.
  intros Hi. revert seen. induction rows as [|r rows IH]; intros seen; [done|]. cbn [projectLoop]. unfold bind.
  destruct (projectRow_pure items r ∅ [] x Hi) as [key ->]. cbn [andb]. by rewrite IH.
Qed.

Lemma forFold_app {A S} (f : A → S → Q S) (l1 l2 : list A) (s : S) (x : X) : forFold f (l1 ++ l2) s x = bind (forFold f l1 s) (forFold f l2) x.
Proof.
  revert s x. induction l1 as [|b l1 IH]; intros s x; [done|]. cbn [forFold app]. unfold bind. destruct (f b s x) as [[s'|e] x']; [|done]. apply IH.
Qed.

(** A query that was cut off, and the number of rows it had. *)
Definition cutOff (e : execErr BE) : Prop :=
  tooMany e ∨ ∃ n, e = ErrGuardrail (lit "maxRowsReturned") n (MaxRowsReturned (limits cfg)) ∧ MaxRowsReturned (limits cfg) < n ≤ Z.of_nat N.

(** What a MATCH and a RETURN give on the abstract graph. *)
Definition answers (a : AGraph) (ps : list PatternPart) (wh : option Expr) (items : list ReturnItem) (row : gmap bytes Value) : Prop :=
  ∃ r, matchMeans a ps wh ∅ r ∧ row = toOutput (projectColumns items) (columnsOf items r).

Lemma match_return (x : X) (a : AGraph) G E (ps : list PatternPart) (wh : option Expr) (items : list ReturnItem) :
  gok G (stable E) (ex_Store x) a → G (cf_GraphID cfg) → small (cf_GraphID cfg) → 1 ≤ MaxTraversalDepth (limits cfg) →
  (∀ A (l : list A), rangeOrder A l ≡ₚ l) →
  plainMatch ps = true → Forall partOk ps → predPure wh → Forall (λ i, noCalls (ri_Expr i) = true) items → (width a ^ steps ps ≤ N)%nat →
  let '(r, x') := Execute FormatFloat rangeOrder cfg vectorProcs [MatchClause false ps wh; ReturnClause false items [] None None] x in
  ex_Store x' = ex_Store x ∧
  match r with
  | Ok res => rs_Columns res = projectColumns items ∧ ∀ row, row ∈ rs_Rows res ↔ answers a ps wh items row
  | Err e => cutOff e
  end.
Proof.
  intros Kok HG Hg Hd Ho Hpl Hps Hwh Hi HN. unfold Execute. set (x0 := with_ex_evalErr None (with_ex_pods ∅ x)).
  pose proof (gives_match x0 a G E Kok HG Hg Hd Ho ps wh [∅] Hps Hwh) as Hm.
  specialize (Hm ltac:(constructor; [intros v n; by rewrite lookup_empty|done]) ltac:(cbn [length]; lia) x0 ltac:(done)).
  unfold Plan. cbn [mbind list_bind planClause appendOrderSkipLimit]. rewrite app_nil_r. unfold bind at 1. rewrite forFold_app. unfold bind at 1.
  destruct (forFold _ (planMatch rangeOrder ps wh) [∅] x0) as [[rows|e] x1]; cbn [fst snd] in Hm; destruct Hm as [(Hs & _ & _ & Hn) Hm]; [|split; [done|by left]].
  destruct Hm as [Hm Hlen]. assert (length rows ≤ N)%nat by (cbn [length] in Hlen; lia).
  cbn [forFold]. unfold bind, runOp, apply, project. unfold bind. rewrite projectLoop_pure by done.
  assert (ex_evalErr (with_ex_columns (projectColumns items) x1) = None) as En by done. unfold checkEvalErr. rewrite En.
  unfold checkIntermediate. rewrite length_fmap. destruct (Z.ltb_spec (MaxIntermediateRows (limits cfg)) (Z.of_nat (length rows))) as [Hlt|Hle].
  { split; [done|]. left. eexists. split; [done|lia]. }
  cbn [ret ex_columns with_ex_columns]. rewrite !length_fmap.
  destruct (Z.ltb_spec (MaxRowsReturned (limits cfg)) (Z.of_nat (length rows))) as [Hlt|Hle'].
  { split; [done|]. right. eexists. split; [done|lia]. }
  split; [done|]. split; [done|]. cbn [rs_Rows]. intros row. unfold answers. setoid_rewrite <-(λ r, plain_means a ps wh r Hpl). rewrite list_elem_of_fmap. setoid_rewrite list_elem_of_fmap. setoid_rewrite Hm.
  setoid_rewrite list_elem_of_singleton. naive_solver.
Qed.

End Match.

(** ** Properties *)

Section Properties.
Context {L : Type} `{LocalStoreSpec L} `{GraphProtoSpec} {K V BE : Type}.
Context (FormatFloat : float64 → bytes) (rangeOrder : ∀ A, list A → list A) (cfg : Config K V BE).
Context (vectorProcs : bytes → option (Procedure (L:=L) (K:=K) (V:=V) (BE:=BE))).


End Properties.

(** ** A concrete query *)

Definition sampleConfig : Config unit unit unit :=
  mkConfig unit unit unit (lit "g") (mkLimits 0 0 0 0 0 0) None (lit "c1") (lit "m1") ∅ None None None.
Definition sampleExec (s : MemStore) : Exec MemStore unit unit unit := mkExec s tt tt None ∅ [] [] false.
Definition noFloat (f : float64) : bytes := [].
Definition inOrder (A : Type) (l : list A) : list A := l.
Definition noVector (name : bytes) : option (Procedure (L:=MemStore) (K:=unit) (V:=unit) (BE:=unit)) := None.

Definition runQuery (s : MemStore) (q : list Clause) : res (execErr unit) Result * Exec MemStore unit unit unit :=
  Execute noFloat inOrder sampleConfig noVector q (sampleExec s).

(** The rows of a query given as text, and the store it leaves. *)
Definition rowsOf (s : MemStore) (q : bytes) : option (list (gmap bytes Value)) :=
  match Parse q with
  | Ok cs => match (runQuery s cs).1 with Ok res => Some (rs_Rows res) | Err _ => None end
  | Err _ => None
  end.
Definition storeAfter (s : MemStore) (q : bytes) : MemStore :=
  match Parse q with Ok cs => ex_Store (runQuery s cs).2 | Err _ => s end.

Definition peopleBatches : list (list Mutation) := [[PNode alice; PNode bob; PEdge knows; PNode other]].
Definition peopleStore : MemStore := fold_left runBatch peopleBatches NewMemStore.

(** Who is known by someone named Alice. *)
Definition samplePatterns : list PatternPart :=
  [mkPatternPart (mkNodePattern (lit "a") [lit "Person"] [(lit "name", LitStr (lit "Alice"))])
     [mkRelPattern [] [lit "KNOWS"] DirOut []] [mkNodePattern (lit "b") [] []]].
Definition sampleItems : list ReturnItem := [mkReturnItem (Variable_ (lit "b")) []].

#[export] Instance partOk_dec p : Decision (partOk p).
Proof. unfold partOk, nodeOk, hopOk. apply _. Defined.


End CypherMatch.
