(* ===== verification/CypherOrder.v ===== *)
(** * ORDER BY sorts

    The order of values, which is a total preorder where no number is NaN, and the stable sort
    of the rows by it; and the values on which comparison and DISTINCT deviate. *)

From Stdlib Require Import Floats.SpecFloat.
From S2P Require Import Prelude Bytes Strconv Hlc Version Conflict Storage Command Uvarint Float64 Graph GraphSpec GraphExact CypherSyntax CypherExec CypherMatch.

Local Open Scope Z_scope.
Set Default Proof Using "Type".

Module CypherOrder.
Import Version Conflict Storage Command Float64 Graph GraphSpec GraphExact CypherSyntax CypherExec CypherMatch.

(** ** The order of values *)

Definition notNaN (v : Value) : bool := match v with VDouble f => negb (is_nan f) | _ => true end.

(** Values compare as a class, a number and a text. *)
Definition vkey (v : Value) : Z * ((Z * Z) * Z) * bytes :=
  match v with
  | VBool b => (0, fkey (S754_zero false), if b then lit "true" else lit "false")
  | VInt i => (1, fkey (of_Z i), [])
  | VDouble f => (1, fkey f, [])
  | VString s => (3, fkey (S754_zero false), s)
  | VBytes b => (4, fkey (S754_zero false), b)
  | _ => (2, fkey (S754_zero false), [])
  end.
Definition vcompare : Z * ((Z * Z) * Z) * bytes → Z * ((Z * Z) * Z) * bytes → Datatypes.comparison :=
  cmp_pair (cmp_pair Z.compare key_compare) bcompare.

#[export] Instance vcompare_total : TotalCmp vcompare := _.

Lemma fltb_compare x y : is_nan x = false → is_nan y = false → fltb x y = match cmp_Compare x y with Lt => true | _ => false end.
Proof.
  intros Hx Hy. unfold fltb, SFltb, cmp_Compare. rewrite Hx, Hy. destruct (SFcompare x y) as [[]|] eqn:E; try done.
Qed.

(** Rounding keeps a mantissa non-negative, so an integer never rounds to NaN. *)
Lemma shr_1_nonneg mrs : 0 ≤ shr_m mrs → 0 ≤ shr_m (shr_1 mrs).
Proof. destruct mrs as [[|[p|p|]|p] r t]; cbn; lia. Qed.

Lemma iter_shr_nonneg p mrs : 0 ≤ shr_m mrs → 0 ≤ shr_m (SpecFloat.iter_pos shr_1 p mrs).
Proof. revert mrs. induction p as [p IH|p IH|]; intros mrs Hm; cbn [SpecFloat.iter_pos]; auto using shr_1_nonneg. Qed.

Lemma shr_fexp_nonneg m e l : 0 ≤ m → 0 ≤ shr_m (shr_fexp prec emax m e l).1.
Proof.
  intros Hm. unfold shr_fexp, shr. assert (shr_m (shr_record_of_loc m l) = m) as Em by (by destruct l as [|[]]).
  destruct (fexp _ _ _ - e); cbn [fst]; rewrite ?Em; [done|apply iter_shr_nonneg; by rewrite Em|done].
Qed.

Lemma round_nonneg m l : 0 ≤ m → 0 ≤ round_nearest_even m l.
Proof. intros Hm. unfold round_nearest_even. destruct l as [|[]]; [done| |done|lia]. destruct (Z.even m); lia. Qed.

Lemma of_Z_notNaN i : is_nan (of_Z i) = false.
Proof.
  assert (∀ s m e, 0 ≤ m → is_nan (binary_round_aux prec emax s m e loc_Exact) = false) as Haux.
  { intros s m e Hm. unfold binary_round_aux. pose proof (shr_fexp_nonneg m e loc_Exact Hm) as H1.
    destruct (shr_fexp prec emax m e loc_Exact) as [r1 e1]. cbn [fst] in H1.
    pose proof (shr_fexp_nonneg _ e1 loc_Exact (round_nonneg _ (loc_of_shr_record r1) H1)) as H2.
    destruct (shr_fexp _ _ _ e1 _) as [r2 e2]. cbn [fst] in H2. destruct (shr_m r2); [done| |lia]. by destruct (_ <=? _). }
  unfold of_Z, binary_normalize. destruct i as [|p|p]; [done|..]; unfold binary_round; destruct (shl_align _ _ _) as [mz ez]; by apply Haux.
Qed.

Lemma asFloat_class v f : asFloat v = Some f → (vkey v).1 = (1, fkey f) ∧ (vkey v).2 = [].
Proof. destruct v; try done; by intros [= <-]. Qed.

Lemma bcompare_cons c1 c2 r1 r2 : bcompare (c1 :: r1) (c2 :: r2) = match byteZ c1 ?= byteZ c2 with Eq => bcompare r1 r2 | c => c end.
Proof. done. Qed.

(** The three-way comparison of the code is the one of the keys. *)
Lemma compareValues_key FormatFloat a b :
  notNaN a = true → notNaN b = true → compareValues FormatFloat a b = cmpZ (vcompare (vkey a) (vkey b)).
Proof.
  intros Ha Hb. unfold compareValues.
  assert (∀ v f, notNaN v = true → asFloat v = Some f → is_nan f = false) as Hnn.
  { intros v f Hv E. destruct v as [| | |i|f'| | | |]; try done; injection E as <-; [apply of_Z_notNaN|by apply negb_true_iff in Hv]. }
  destruct (asFloat a) as [af|] eqn:Ea; [destruct (asFloat b) as [bf|] eqn:Eb|].
  - destruct (asFloat_class a af Ea) as [E1 E2], (asFloat_class b bf Eb) as [E3 E4].
    unfold vcompare. destruct (vkey a) as [ka ta], (vkey b) as [kb tb]. cbn [fst snd] in *. subst. unfold cmp_pair at 1. cbn [fst snd].
    unfold cmp_pair at 1. cbn [fst snd]. rewrite Z.compare_refl, <-cmp_Compare_key.
    rewrite !fltb_compare by eauto. rewrite !cmp_Compare_key, (cmp_antisym (cmp:=key_compare) (fkey af) (fkey bf)).
    destruct (key_compare (fkey af) (fkey bf)); done.
  - clear -Ea Eb. destruct a as [| | |i|f| | | |], b as [|nb|b| | | | | |]; try done; by destruct b.
  - clear -Ea. destruct a as [|na|ba| | | | | |], b as [|nb|b| | | | | |]; try done; try (by destruct ba); try (by destruct b); by destruct ba, b.
Qed.

(** ** Insertion sort *)

Section Insertion.
Context {A : Type} (less : A → A → bool) (D : A → Prop).
Hypothesis (less_asym : ∀ a b, D a → D b → less a b = true → less b a = false).
Hypothesis (less_ntrans : ∀ a b c, D a → D b → D c → less a b = false → less b c = false → less a c = false).

(** The sorted part is kept last first. *)
Fixpoint insertRev (r : A) (l : list A) : list A :=
  match l with
  | [] => [r]
  | s :: l => if less r s then s :: insertRev r l else r :: s :: l
  end.
Definition sortRev (rows acc : list A) : list A := fold_left (λ acc r, insertRev r acc) rows acc.

Definition descending : list A → Prop := StronglySorted (λ a b, less a b = false).

Lemma insertRev_perm r l : insertRev r l ≡ₚ r :: l.
Proof. induction l as [|s l IH]; [done|]. cbn. destruct (less r s); [|done]. rewrite IH. constructor. Qed.

Lemma insertRev_descending r l : D r → Forall D l → descending l → descending (insertRev r l).
Proof using less_asym less_ntrans.
  intros Hr HD Hs. induction Hs as [|s l Hs IH Hall]; [by repeat constructor|]. apply Forall_cons in HD as [Hds HD]. cbn. destruct (less r s) eqn:E.
  - constructor; [by apply IH|]. rewrite (insertRev_perm r l). constructor; [by apply less_asym|done].
  - constructor; [by constructor|]. constructor; [done|]. rewrite Forall_forall in Hall, HD |- *. intros b Hb. eapply less_ntrans; [..|done|]; auto.
Qed.

(** The rows of one class keep their order. *)
Lemma insertRev_stable (P : A → Prop) `{∀ a, Decision (P a)} r l :
  (∀ s, s ∈ l → P r → P s → less r s = false) → filter P (insertRev r l) = filter P (r :: l).
Proof.
  induction l as [|s l IH]; intros HP; [done|]. cbn [insertRev]. destruct (less r s) eqn:E; [|done].
  rewrite filter_cons, IH by (intros; apply HP; [by right|done..]). rewrite !filter_cons.
  destruct (decide (P s)), (decide (P r)); try done. rewrite (HP s) in E by (done || left). done.
Qed.

Lemma sortRev_perm rows acc : sortRev rows acc ≡ₚ rows ++ acc.
Proof.
  revert acc. induction rows as [|r rows IH]; intros acc; [done|]. cbn. fold (sortRev rows (insertRev r acc)). rewrite IH, insertRev_perm. by rewrite Permutation_middle.
Qed.

Lemma sortRev_descending rows acc : Forall D rows → Forall D acc → descending acc → descending (sortRev rows acc).
Proof using less_asym less_ntrans.
  intros HD. revert acc. induction HD as [|r rows Hr HD IH]; intros acc Ha Hs; [done|]. cbn. apply IH; [rewrite insertRev_perm; by constructor|by apply insertRev_descending].
Qed.

Lemma sortRev_stable (P : A → Prop) `{∀ a, Decision (P a)} rows acc :
  (∀ r s, r ∈ rows ++ acc → s ∈ rows ++ acc → P r → P s → less r s = false) →
  filter P (sortRev rows acc) = rev (filter P rows) ++ filter P acc.
Proof.
  clear less_asym less_ntrans D.
  revert acc. induction rows as [|r rows IH]; intros acc HP; [done|]. cbn [sortRev fold_left]. fold (sortRev rows (insertRev r acc)). rewrite IH.
  - rewrite insertRev_stable by (intros s Hs; apply HP; set_solver). destruct (decide (P r)).
    + rewrite !filter_cons_True by done. cbn [rev]. by rewrite <-app_assoc.
    + by rewrite !filter_cons_False.
  - intros a b Ha Hb. apply HP; revert Ha Hb; rewrite !elem_of_app, (insertRev_perm r acc); set_solver.
Qed.

Lemma descending_rev l : descending l → StronglySorted (λ a b, less b a = false) (rev l).
Proof.
  induction 1 as [|a l Hs IH Hall]; [constructor|]. cbn [rev]. apply StronglySorted_app_2; [|done|by repeat constructor].
  intros b c Hb ->%list_elem_of_singleton. rewrite Forall_forall in Hall. apply Hall. by rewrite list_elem_of_In, in_rev, <-list_elem_of_In.
Qed.

End Insertion.

Lemma filter_rev {A} (P : A → Prop) `{∀ a, Decision (P a)} l : filter P (rev l) = rev (filter P l).
Proof. induction l as [|a l IH]; [done|]. cbn [rev]. rewrite filter_app, IH, !filter_cons. by destruct (decide (P a)); cbn; rewrite ?app_nil_r. Qed.

(** ** The rows of a query *)

Section Rows.
Context {L : Type} `{LocalStore L} `{GraphProto} {K V BE : Type}.
Context (FormatFloat : float64 → bytes) (cfg : Config K V BE).
Abbreviation X := (Exec L K V BE).
Abbreviation eval := (evalPure FormatFloat (cf_Params cfg)).

(** The order ORDER BY asks for: by the first key on which the rows differ. *)
Fixpoint rowOrder (keys : list SortItem) (r1 r2 : bindingRow) : Z :=
  match keys with
  | [] => 0
  | k :: keys =>
      let c := compareValues FormatFloat (eval (so_Expr k) r1) (eval (so_Expr k) r2) in
      if c =? 0 then rowOrder keys r1 r2 else if so_Desc k then - c else c
  end.

Definition keysPure (keys : list SortItem) : Prop := Forall (λ k, noCalls (so_Expr k) = true) keys.
(** The keys of the row are values the order is total on. *)
Definition keysNumbered (keys : list SortItem) (r : bindingRow) : Prop := Forall (λ k, notNaN (eval (so_Expr k) r) = true) keys.

Abbreviation less keys := (λ r1 r2 : bindingRow, rowOrder keys r1 r2 <? 0).

Lemma rowLess_pure keys r1 r2 (x : X) : keysPure keys → rowLess FormatFloat cfg keys r1 r2 x = (Ok (less keys r1 r2), x).
Proof.
  intros Hk. induction Hk as [|k keys Hk Hks IH]; [done|]. cbn [rowLess rowOrder]. unfold bind, evalM. rewrite evalScalar_pure by done. cbn beta iota.
  rewrite evalScalar_pure by done. cbn beta iota zeta. destruct (Z.eqb_spec (compareValues FormatFloat (eval (so_Expr k) r1) (eval (so_Expr k) r2)) 0) as [E|E]; [apply IH|].
  unfold ret. do 2 f_equal. destruct (so_Desc k); [|done]. apply eq_iff_eq_true. rewrite !Z.ltb_lt. lia.
Qed.

Lemma insertRow_pure keys r l (x : X) : keysPure keys → insertRow FormatFloat cfg keys r l x = (Ok (insertRev (less keys) r l), x).
Proof.
  intros Hk. induction l as [|s l IH]; [done|]. cbn [insertRow insertRev]. unfold bind. rewrite rowLess_pure by done. cbn beta iota.
  destruct (less keys r s); [|done]. by rewrite IH.
Qed.

Lemma sortLoop_pure keys rows acc (x : X) : keysPure keys → sortLoop FormatFloat cfg keys acc rows x = (Ok (rev (sortRev (less keys) rows acc)), x).
Proof.
  intros Hk. revert acc. induction rows as [|r rows IH]; intros acc; [done|]. cbn [sortLoop sortRev fold_left]. unfold bind. rewrite insertRow_pure by done. apply IH.
Qed.

(** The order as a comparison of keys, each in its direction. *)
Fixpoint rowCmp (keys : list SortItem) (r1 r2 : bindingRow) : Datatypes.comparison :=
  match keys with
  | [] => Eq
  | k :: keys =>
      match vcompare (vkey (eval (so_Expr k) r1)) (vkey (eval (so_Expr k) r2)) with
      | Eq => rowCmp keys r1 r2
      | c => if so_Desc k then CompOpp c else c
      end
  end.

Lemma rowOrder_cmp keys r1 r2 : keysNumbered keys r1 → keysNumbered keys r2 → rowOrder keys r1 r2 = cmpZ (rowCmp keys r1 r2).
Proof.
  intros H1. revert r2. induction H1 as [|k keys Hk Hks IH]; intros r2 H2; [done|]. apply Forall_cons in H2 as [Hk2 H2]. cbn [rowOrder rowCmp].
  rewrite compareValues_key by done. destruct (vcompare _ _); cbn; [by apply IH|by destruct (so_Desc k)..].
Qed.

Lemma rowCmp_antisym keys r1 r2 : rowCmp keys r2 r1 = CompOpp (rowCmp keys r1 r2).
Proof.
  induction keys as [|k keys IH]; [done|]. cbn [rowCmp]. rewrite (cmp_antisym (cmp:=vcompare) (vkey (eval (so_Expr k) r1))).
  destruct (vcompare _ _); cbn; [done|by destruct (so_Desc k)..].
Qed.

Lemma rowCmp_trans keys r1 r2 r3 : rowCmp keys r1 r2 ≠ Gt → rowCmp keys r2 r3 ≠ Gt → rowCmp keys r1 r3 ≠ Gt.
Proof.
  induction keys as [|k keys IH]; [done|]. cbn [rowCmp].
  set (v1 := vkey (eval (so_Expr k) r1)). set (v2 := vkey (eval (so_Expr k) r2)). set (v3 := vkey (eval (so_Expr k) r3)).
  destruct (vcompare v1 v2) eqn:E12; [apply (cmp_eq (cmp:=vcompare)) in E12 as ->| |].
  - destruct (vcompare v2 v3) eqn:E23; auto.
  - destruct (vcompare v2 v3) eqn:E23.
    + apply (cmp_eq (cmp:=vcompare)) in E23 as <-. rewrite E12. auto.
    + rewrite (cmp_lt_trans (cmp:=vcompare) _ _ _ E12 E23). auto.
    + destruct (so_Desc k); cbn; done.
  - destruct (vcompare v2 v3) eqn:E23.
    + apply (cmp_eq (cmp:=vcompare)) in E23 as <-. rewrite E12. auto.
    + destruct (so_Desc k); cbn; done.
    + apply (cmp_gt_lt vcompare) in E12, E23. pose proof (cmp_lt_trans (cmp:=vcompare) _ _ _ E23 E12) as E. apply (cmp_gt_lt vcompare) in E. rewrite E. auto.
Qed.

(** ** Properties *)

(** C36: ORDER BY. Where the keys have no function call and no key is NaN, the sort succeeds,
    changes nothing and gives the rows in the order of their keys, first key first and each in
    its direction; every row once, and rows with equal keys in the order they had. Keys are
    compared as the evaluator compares values: numbers as doubles, so large integers may tie. *)
Theorem order_by_sorts (keys : list SortItem) (rows : list bindingRow) (x : X) :
  keysPure keys → Forall (keysNumbered keys) rows →
  ∃ out, sortRows FormatFloat cfg rows keys x = (Ok out, x) ∧ out ≡ₚ rows ∧
    StronglySorted (λ r1 r2, rowOrder keys r1 r2 ≤ 0) out ∧
    ∀ r, keysNumbered keys r → filter (λ r', rowOrder keys r' r = 0) out = filter (λ r', rowOrder keys r' r = 0) rows.
Proof.
  intros Hk Hn. exists (rev (sortRev (less keys) rows [])).
  assert (∀ a b, keysNumbered keys a → keysNumbered keys b → less keys a b = false ↔ rowCmp keys b a ≠ Gt) as Hless.
  { intros a b Ha Hb. rewrite (rowOrder_cmp keys a b), (rowCmp_antisym keys a b) by done. destruct (rowCmp keys a b); cbn; done. }
  split; [by apply sortLoop_pure|]. split.
  { rewrite <-(app_nil_r rows) at 2. rewrite <-sortRev_perm. apply Permutation_sym, Permutation_rev. }
  assert (descending (less keys) (sortRev (less keys) rows [])) as Hd.
  { apply (sortRev_descending (less keys) (keysNumbered keys)); [..|done|constructor|constructor].
    - intros a b Ha Hb Hlt. apply Hless; [done..|]. apply Z.ltb_lt in Hlt. rewrite rowOrder_cmp in Hlt by done. by destruct (rowCmp keys a b).
    - intros a b c Ha Hb Hc. rewrite !Hless by done. intros H1 H2. by eapply rowCmp_trans. }
  split.
  - apply descending_rev in Hd. assert (Forall (keysNumbered keys) (rev (sortRev (less keys) rows []))) as Hn'.
    { rewrite <-Permutation_rev, sortRev_perm, app_nil_r. done. }
    induction Hd as [|a l Hs IH Hall]; [constructor|]. apply Forall_cons in Hn' as [Ha Hl]. constructor; [by apply IH|].
    rewrite Forall_forall in Hall, Hl |- *. intros b Hb. specialize (Hall b Hb). cbn beta in Hall. apply Hless in Hall; [|auto..].
    rewrite rowOrder_cmp by auto. by destruct (rowCmp keys a b).
  - intros r Hr. rewrite filter_rev, sortRev_stable; [by rewrite app_nil_r, rev_involutive|]. intros a b.
    rewrite app_nil_r. intros Ha Hb Ea Eb. rewrite Forall_forall in Hn. apply Hless; [by apply Hn..|].
    rewrite rowOrder_cmp in Ea, Eb by auto. eapply (rowCmp_trans keys b r a); [by destruct (rowCmp keys b r)|].
    rewrite rowCmp_antisym. by destruct (rowCmp keys a r).
Qed.

End Rows.

(** ** A concrete sort *)

Definition sampleRow (i : Z) (t : String.string) : bindingRow := {[lit "x" := BValue (VInt i); lit "t" := BValue (VString (lit t))]}.
Definition sampleRows : list bindingRow := [sampleRow 2 "a"; sampleRow 1 "b"; sampleRow 2 "c"; sampleRow 3 "d"].
Definition sampleKeys : list SortItem := [mkSortItem (Variable_ (lit "x")) true].

#[export] Instance keysNumbered_dec keys r : Decision (keysNumbered noFloat sampleConfig keys r).
Proof. unfold keysNumbered. apply _. Defined.

Lemma order_by_sorts_witness :
  match (sortRows noFloat sampleConfig sampleRows sampleKeys (sampleExec NewMemStore)).1 with
  | Ok out => (λ r, GetStringValue (bindingToValue (r !! lit "t"))) <$> out
  | Err _ => []
  end = [lit "d"; lit "a"; lit "c"; lit "b"] ∧
  ∃ out, out ≡ₚ sampleRows ∧ StronglySorted (λ r1 r2, rowOrder noFloat sampleConfig sampleKeys r1 r2 ≤ 0) out.
Proof.
  split; [vm_compute; reflexivity|].
  destruct (order_by_sorts noFloat sampleConfig sampleKeys sampleRows (sampleExec NewMemStore)) as (out & _ & Hp & Hs & _).
  - repeat constructor.
  - apply (bool_decide_unpack _). vm_compute. exact I.
  - exists out. split; [exact Hp|exact Hs].
Defined.

(** ** Deviations *)

(** All lists are equal: a list is found equal to another one, and DISTINCT keeps one of two
    different lists. *)
Theorem lists_compare_equal :
  rowsOf NewMemStore (lit "UNWIND [1] AS x WITH x WHERE [1] = [2] RETURN x") = Some [{[lit "x" := VInt 1]}] ∧
  rowsOf NewMemStore (lit "UNWIND [[1], [2]] AS x RETURN DISTINCT x") = Some [{[lit "x" := VList [VInt 1]]}].
Proof. split; apply (bool_decide_unpack _); vm_compute; exact I. Qed.

(** Integers compare as floating-point numbers: 2^53 equals 2^53 + 1. *)
Theorem large_integers_compare_equal :
  compareValues noFloat (VInt (2 ^ 53)) (VInt (2 ^ 53 + 1)) = 0.
Proof. vm_compute. reflexivity. Qed.

(** NaN compares equal to every number, so the order of ORDER BY is not one. *)
Theorem nan_breaks_order :
  compareValues noFloat (VInt 2) (VDouble S754_nan) = 0 ∧ compareValues noFloat (VDouble S754_nan) (VInt 1) = 0 ∧
  compareValues noFloat (VInt 2) (VInt 1) = 1.
Proof. split; [|split]; vm_compute; reflexivity. Qed.

(** The elements of a list that are not literals, such as a negative number, are dropped. *)
Theorem list_literal_drops_elements :
  rowsOf NewMemStore (lit "UNWIND [1, -2, 3] AS x RETURN x") = Some [{[lit "x" := VInt 1]}; {[lit "x" := VInt 3]}].
Proof. apply (bool_decide_unpack _). vm_compute. exact I. Qed.

(** DISTINCT joins the values of a row with a separator they may contain: of two rows with
    different values one is dropped. *)
Theorem distinct_merges_rows :
  let items := [mkReturnItem (Variable_ (lit "a")) []; mkReturnItem (Variable_ (lit "b")) []] in
  let row (a b : bytes) : bindingRow := {[lit "a" := BValue (VString a); lit "b" := BValue (VString b)]} in
  let rows := [row (lit "p" ++ [x1f] ++ lit "sq") (lit "r"); row (lit "p") (lit "q" ++ [x1f] ++ lit "sr")] in
  match project noFloat sampleConfig rows items true (sampleExec NewMemStore) with
  | (Ok out, _) => length out = 1%nat
  | (Err _, _) => False
  end.
Proof. vm_compute. reflexivity. Qed.

End CypherOrder.
