(* ===== verification/CypherWrite.v ===== *)
(** * DELETE and SET

    What the updating clauses leave in the graph, and the inputs on which writes deviate from
    their documentation. *)

From Stdlib Require Import Floats.SpecFloat.
From S2P Require Import Prelude Bytes Strconv Hlc Version Conflict Storage Command Uvarint Float64 Graph GraphSpec GraphExact CypherSyntax CypherExec CypherMatch.

Local Open Scope Z_scope.
Set Default Proof Using "Type*".

Module CypherWrite.
Import Version Conflict Storage Command Float64 Graph GraphSpec GraphExact CypherSyntax CypherExec CypherMatch.

(** ** Tombstones *)

(** Tombstones hide what they name and nothing else. *)
Definition namesNode (ms : list Mutation) (g' id : bytes) : Prop := ∃ n, PNode n ∈ ms ∧ nd_GraphId n = g' ∧ nd_NodeId n = id.
Definition namesEdge (ms : list Mutation) (g' id : bytes) : Prop := ∃ e, PEdge e ∈ ms ∧ ed_GraphId e = g' ∧ ed_EdgeId e = id.
Definition tombstone (m : Mutation) : Prop := match m with PNode n => nd_Tombstone n = true | PEdge e => ed_Tombstone e = true end.

Lemma put_tombstones_node ms a g' id : Forall tombstone ms →
  (namesNode ms g' id → liveNode (fold_left absPut ms a) g' id = None) ∧
  (¬ namesNode ms g' id → liveNode (fold_left absPut ms a) g' id = liveNode a g' id).
Proof.
  intros Hms. induction ms as [|m ms IH] using rev_ind; [split; [by intros (n & []%elem_of_nil & _)|done]|].
  apply Forall_app in Hms as [Hms [Hm _]%Forall_cons]. destruct (IH Hms) as [IH1 IH2]. rewrite fold_left_app. cbn [fold_left].
  set (a' := fold_left absPut ms a) in *. destruct m as [n|e]; cbn [absPut tombstone] in *; unfold liveNode; cbn [ag_nodes].
  - destruct (decide ((nd_GraphId n, nd_NodeId n) = (g', id))) as [E|Hne].
    + rewrite <-E, lookup_insert_eq. cbn. rewrite Hm. split; [done|]. injection E as <- <-. intros Hn. destruct Hn. exists n. set_solver.
    + rewrite lookup_insert_ne by done. split.
      * intros (n' & [Hn'|[= ->]%list_elem_of_singleton]%elem_of_app & <- & <-); [apply IH1; by exists n'|done].
      * intros Hn. apply IH2. intros (n' & Hn' & ? & ?). apply Hn. exists n'. set_solver.
  - split.
    + intros (n' & [Hn'|[=]%list_elem_of_singleton]%elem_of_app & <- & <-). apply IH1. by exists n'.
    + intros Hn. apply IH2. intros (n' & Hn' & ? & ?). apply Hn. exists n'. set_solver.
Qed.

Lemma put_tombstones_edge ms a g' id : Forall tombstone ms →
  (namesEdge ms g' id → liveEdge (fold_left absPut ms a) g' id = None) ∧
  (¬ namesEdge ms g' id → liveEdge (fold_left absPut ms a) g' id = liveEdge a g' id).
Proof.
  intros Hms. induction ms as [|m ms IH] using rev_ind; [split; [by intros (n & []%elem_of_nil & _)|done]|].
  apply Forall_app in Hms as [Hms [Hm _]%Forall_cons]. destruct (IH Hms) as [IH1 IH2]. rewrite fold_left_app. cbn [fold_left].
  set (a' := fold_left absPut ms a) in *. destruct m as [n|e]; cbn [absPut tombstone] in *; unfold liveEdge; cbn [ag_edges].
  - split.
    + intros (e' & [He'|[=]%list_elem_of_singleton]%elem_of_app & <- & <-). apply IH1. by exists e'.
    + intros He. apply IH2. intros (e' & He' & ? & ?). apply He. exists e'. set_solver.
  - destruct (decide ((ed_GraphId e, ed_EdgeId e) = (g', id))) as [E|Hne].
    + rewrite <-E, lookup_insert_eq. cbn. rewrite Hm. split; [done|]. injection E as <- <-. intros Hn. destruct Hn. exists e. set_solver.
    + rewrite lookup_insert_ne by done. split.
      * intros (e' & [He'|[= ->]%list_elem_of_singleton]%elem_of_app & <- & <-); [apply IH1; by exists e'|done].
      * intros Hn. apply IH2. intros (e' & He' & ? & ?). apply Hn. exists e'. set_solver.
Qed.

(** ** Writes of different nodes *)

Lemma put_nodes (ns : list NodeRecord) a g' id :
  NoDup ((λ n, (nd_GraphId n, nd_NodeId n)) <$> ns) →
  (∀ n, n ∈ ns → (nd_GraphId n, nd_NodeId n) = (g', id) → ag_nodes (fold_left absPut (PNode <$> ns) a) !! (g', id) = Some n) ∧
  ((g', id) ∉ ((λ n, (nd_GraphId n, nd_NodeId n)) <$> ns) → ag_nodes (fold_left absPut (PNode <$> ns) a) !! (g', id) = ag_nodes a !! (g', id)) ∧
  ag_edges (fold_left absPut (PNode <$> ns) a) = ag_edges a.
Proof.
  revert a. induction ns as [|n ns IH]; intros a Hnd; [split_and!; [by intros n []%elem_of_nil|done|done]|].
  cbn [fmap list_fmap fold_left] in *. apply NoDup_cons in Hnd as [Hn Hnd]. destruct (IH (absPut a (PNode n)) Hnd) as (IH1 & IH2 & IH3). split_and!.
  - intros n' [->|Hin]%elem_of_cons E; [|by apply IH1]. rewrite <-E in *. rewrite IH2 by done. cbn. apply lookup_insert_eq.
  - intros [Hne Hni]%not_elem_of_cons. rewrite IH2 by done. cbn. by apply lookup_insert_ne.
  - by rewrite IH3.
Qed.

Section Write.
Context {L : Type} `{LocalStoreSpec L} `{GraphProtoSpec} {K V BE : Type}.
Context (FormatFloat : float64 → bytes) (rangeOrder : ∀ A, list A → list A) (cfg : Config K V BE).
Hypothesis (Horder : ∀ A (l : list A), rangeOrder A l ≡ₚ l).
Abbreviation X := (Exec L K V BE).
Abbreviation Q := (M L K V BE).
Abbreviation g := (cf_GraphID cfg).

(** ** Batches built in a loop *)

Definition lift {A} (r : res graphErr A) : res (execErr BE) A := match r with Ok a => Ok a | Err e => Err (ErrGraph e) end.

(** The step adds one mutation, with a version of its own, and changes only the clock. *)
Definition adds {A} (mk : option ProtoVersion → A → Mutation) (f : A → Batch → Q Batch) : Prop :=
  ∀ y b (x : X), ∃ ver (x' : X), f y b x = (lift (addMut (Ok b) (mk ver y)), x') ∧ ex_Store x' = ex_Store x.

Lemma forFold_adds {A} (mk : option ProtoVersion → A → Mutation) f (ys : list A) b (x : X) :
  adds mk f →
  ∃ ms (x' : X), Forall2 (λ y m, ∃ ver, m = mk ver y) ys ms ∧ ex_Store x' = ex_Store x ∧ forFold f ys b x = (lift (fold_left addMut ms (Ok b)), x').
Proof.
  intros Hf. revert b x. induction ys as [|y ys IH]; intros b x; [exists [], x; split; [constructor|done]|].
  destruct (Hf y b x) as (ver & x1 & E & Hs). cbn [forFold]. unfold bind. rewrite E. destruct (addMut (Ok b) (mk ver y)) as [b'|e] eqn:Em; cbn [lift].
  - destruct (IH b' x1) as (ms & x2 & Hms & Hs2 & E2). exists (mk ver y :: ms), x2. split; [constructor; [by exists ver|done]|].
    split; [congruence|]. cbn beta iota. rewrite E2. cbn [fold_left]. by rewrite Em.
  - exists (mk ver y :: map (mk ver) ys), x1. split.
    { constructor; [by exists ver|]. clear. induction ys; constructor; eauto. }
    split; [done|]. cbn [fold_left]. rewrite Em, addMut_err. done.
Qed.

Lemma version_adds (x : X) : ∃ ver (x' : X), version cfg x = (Ok ver, x') ∧ ex_Store x' = ex_Store x.
Proof. unfold version. destruct (cf_NewVersion cfg) as [new|]; [|by eexists _, _]. destruct (new (ex_Clock x)) as [v c]. by eexists _, _. Qed.

(** The commit of a batch is the batch of its mutations, or nothing. *)
Lemma commit_muts ms (x : X) G P a :
  gok G P (ex_Store x) a → Forall mut_ok ms → Forall (edgeHolds P) ms →
  match lift (fold_left addMut ms (Ok [])) with
  | Ok b => ∃ x' : X, commitBatch b x = (Ok (), x') ∧ gok G P (ex_Store x') (fold_left absPut ms a)
  | Err _ => True
  end.
Proof.
  intros Kok Hm HP. pose proof (runBatch_ok G P (ex_Store x) a ms Kok Hm HP) as K'. unfold runBatch, absBatch in K'. rewrite addMut_all in *.
  destruct (forallb encodable ms); cbn [lift]; [|done]. cbn [res_bind app] in *. unfold commitBatch. destruct Kok as [Hl I].
  unfold Commit in *. destruct (ls_Batch_ok (ex_Store x) _ Hl (mutOps_valid ms)) as (s' & E & _). rewrite E in *. cbn [fromStore] in *. by eexists.
Qed.

(** A batch is refused only for a record that has no encoding. *)
Lemma refused ms (P : Mutation → Prop) e : Forall P ms → fold_left addMut ms (Ok []) = Err e → ∃ m, P m ∧ encodable m = false.
Proof.
  intros HP. rewrite addMut_all. destruct (forallb encodable ms) eqn:He; [done|intros _]. induction HP as [|m ms Hm HP IH]; [done|].
  cbn [forallb] in He. destruct (encodable m) eqn:Em; [by apply IH|by exists m].
Qed.

Lemma lift_err {A} (r : res graphErr A) e : lift r = Err e → ∃ e', r = Err e'.
Proof. destruct r as [a|e']; [done|]. eauto. Qed.

Lemma made_from {A} (mk : option ProtoVersion → A → Mutation) (ys : list A) ms :
  Forall2 (λ y m, ∃ ver, m = mk ver y) ys ms → Forall (λ m, ∃ ver y, y ∈ ys ∧ m = mk ver y) ms.
Proof.
  induction 1 as [|y m ys ms [ver ->] Hms IH]; [constructor|]. constructor; [exists ver, y; split; [left|done]|].
  eapply Forall_impl; [exact IH|]. intros m (v & y' & ? & ->). exists v, y'. split; [by right|done].
Qed.

(** ** DELETE *)

Definition goneNode (ver : option ProtoVersion) (id : bytes) : Mutation := PNode (mkNode g id [] ∅ ver true).
Definition goneEdge (ver : option ProtoVersion) (id : bytes) : Mutation := PEdge (mkEdge g id [] [] [] ∅ ver true).

Lemma deadNode_adds : adds goneNode (deadNode cfg).
Proof. intros id b x. destruct (version_adds x) as (ver & x' & E & Hs). exists ver, x'. split; [|done]. unfold deadNode, bind. by rewrite E. Qed.
Lemma deadEdge_adds : adds goneEdge (deadEdge cfg).
Proof. intros id b x. destruct (version_adds x) as (ver & x' & E & Hs). exists ver, x'. split; [|done]. unfold deadEdge, bind. by rewrite E. Qed.

Lemma gone_nodes (ids : list bytes) (ms : list Mutation) :
  small g → Forall small ids → Forall2 (λ id m, ∃ v, m = goneNode v id) ids ms →
  Forall mut_ok ms ∧ Forall tombstone ms ∧ (∀ g' id, namesNode ms g' id ↔ g' = g ∧ id ∈ ids) ∧ (∀ g' id, ¬ namesEdge ms g' id).
Proof.
  intros Hg Hids Hms. induction Hms as [|id m ids ms [v ->] Hms IH].
  { split_and!; [constructor|constructor| |intros g' id (e & []%elem_of_nil & _)]. intros g' id. split; [intros (n & []%elem_of_nil & _)|intros [_ []%elem_of_nil]]. }
  apply Forall_cons in Hids as [Hid Hids]. destruct (IH Hids) as (Hok & Ht & Hn & He). split_and!.
  - constructor; [|done]. split; [|constructor]. cbn. split_and!; [done|done|constructor|apply map_Forall_empty].
  - by constructor.
  - intros g' id'. rewrite elem_of_cons. split.
    + intros (n & [[= ->]|Hin]%elem_of_cons & <- & <-); [by split; [|left]|]. destruct (proj1 (Hn (nd_GraphId n) (nd_NodeId n))) as [? ?]; [by exists n|auto].
    + intros [-> [->|Hin]]; [eexists; split; [by left|done]|]. destruct (proj2 (Hn g id') ltac:(done)) as (n & ? & ?). exists n. split; [by right|done].
  - intros g' id' (e & [[=]|Hin]%elem_of_cons & ?). apply (He g' id'). by exists e.
Qed.

Lemma gone_edges (ids : list bytes) (ms : list Mutation) :
  small g → Forall small ids → Forall2 (λ id m, ∃ v, m = goneEdge v id) ids ms →
  Forall mut_ok ms ∧ Forall tombstone ms ∧ (∀ g' id, namesEdge ms g' id ↔ g' = g ∧ id ∈ ids) ∧ (∀ g' id, ¬ namesNode ms g' id).
Proof.
  intros Hg Hids Hms. induction Hms as [|id m ids ms [v ->] Hms IH].
  { split_and!; [constructor|constructor| |intros g' id (e & []%elem_of_nil & _)]. intros g' id. split; [intros (n & []%elem_of_nil & _)|intros [_ []%elem_of_nil]]. }
  apply Forall_cons in Hids as [Hid Hids]. destruct (IH Hids) as (Hok & Ht & Hn & He). split_and!.
  - constructor; [|done]. split; [|constructor]. cbn. split_and!; done.
  - by constructor.
  - intros g' id'. rewrite elem_of_cons. split.
    + intros (n & [[= ->]|Hin]%elem_of_cons & <- & <-); [by split; [|left]|]. destruct (proj1 (Hn (ed_GraphId n) (ed_EdgeId n))) as [? ?]; [by exists n|auto].
    + intros [-> [->|Hin]]; [eexists; split; [by left|done]|]. destruct (proj2 (Hn g id') ltac:(done)) as (n & ? & ?). exists n. split; [by right|done].
  - intros g' id' (e & [[=]|Hin]%elem_of_cons & ?). apply (He g' id'). by exists e.
Qed.

(** The graph without the bound nodes and edges. *)
Definition withoutBound (variables : list bytes) (rows : list bindingRow) (a a' : AGraph) : Prop :=
  (∀ g' id, liveNode a' g' id = if decide (g' = g ∧ id ∈ boundNodes variables rows) then None else liveNode a g' id) ∧
  (∀ g' id, liveEdge a' g' id = if decide (g' = g ∧ id ∈ boundEdges variables rows) then None else liveEdge a g' id).

(** The record of some bound node or edge cannot be encoded. *)
Definition cannotDelete (variables : list bytes) (rows : list bindingRow) : Prop :=
  ∃ m, encodable m = false ∧ ∃ ver id,
    (id ∈ boundNodes variables rows ∧ m = goneNode ver id) ∨ (id ∈ boundEdges variables rows ∧ m = goneEdge ver id).

Lemma del_ok variables rows (x : X) G E a :
  gok G (stable E) (ex_Store x) a → small g → set_Forall small (boundNodes variables rows) → set_Forall small (boundEdges variables rows) →
  let '(r, x') := del rangeOrder cfg variables rows x in
  match r with
  | Ok _ => ∃ a', gok G (stable E) (ex_Store x') a' ∧ withoutBound variables rows a a'
  | Err _ => ex_Store x' = ex_Store x ∧ cannotDelete variables rows
  end.
Proof.
  intros Kok Hg Hn He. unfold del, bind. set (ns := rangeOrder _ (elements (boundNodes variables rows))). set (es := rangeOrder _ (elements (boundEdges variables rows))).
  assert (Forall small ns ∧ Forall small es) as [Hns Hes].
  { split; [unfold ns|unfold es]; rewrite Horder; apply set_Forall_elements; done. }
  destruct (forFold_adds goneNode _ ns [] x deadNode_adds) as (ms1 & x1 & Hms1 & Hs1 & ->).
  destruct (gone_nodes ns ms1 Hg Hns Hms1) as (Hok1 & Ht1 & Hn1 & He1).
  set (made := λ m, ∃ ver id, (id ∈ boundNodes variables rows ∧ m = goneNode ver id) ∨ (id ∈ boundEdges variables rows ∧ m = goneEdge ver id)).
  assert (Forall made ms1) as Hmade1.
  { eapply Forall_impl; [exact (made_from _ _ _ Hms1)|]. intros m (ver & id & Hid & ->). exists ver, id. left. split; [|done].
    apply elem_of_elements. unfold ns in Hid. by rewrite Horder in Hid. }
  destruct (fold_left addMut ms1 (Ok [])) as [b1|e] eqn:Eb; cbn [lift].
  2: { split; [done|]. destruct (refused ms1 made e Hmade1 Eb) as (m & ? & ?). by exists m. }
  destruct (forFold_adds goneEdge _ es b1 x1 deadEdge_adds) as (ms2 & x2 & Hms2 & Hs2 & ->).
  destruct (gone_edges es ms2 Hg Hes Hms2) as (Hok2 & Ht2 & He2 & Hn2).
  rewrite <-Eb, <-fold_left_app. set (ms := ms1 ++ ms2).
  assert (Forall tombstone ms) as Ht by (by apply Forall_app). assert (Forall mut_ok ms) as Hok by (by apply Forall_app).
  assert (gok G (stable E) (ex_Store x2) a) as K2 by (rewrite Hs2, Hs1; done).
  pose proof (commit_muts ms x2 G (stable E) a K2 Hok) as Hc.
  destruct (lift (fold_left addMut ms (Ok []))) as [b|e] eqn:El.
  2: { cbn beta iota. split; [congruence|]. apply lift_err in El as [e' El]. destruct (refused ms made e') as (m & ? & ?); [|done|by exists m].
       apply Forall_app. split; [done|]. eapply Forall_impl; [exact (made_from _ _ _ Hms2)|]. intros m (ver & id & Hid & ->). exists ver, id. right.
       split; [|done]. apply elem_of_elements. unfold es in Hid. by rewrite Horder in Hid. }
  destruct Hc as (x3 & -> & K3); [eapply Forall_impl; [exact Ht|]; intros [n|e]; [done|]; cbn; intros ->; done|]. cbn beta iota.
  exists (fold_left absPut ms a). split; [done|]. split; intros g' id.
  - assert (namesNode ms g' id ↔ g' = g ∧ id ∈ boundNodes variables rows) as Hnm.
    { transitivity (namesNode ms1 g' id); [|rewrite Hn1; unfold ns; rewrite Horder, elem_of_elements; done]. unfold ms, namesNode. setoid_rewrite elem_of_app.
      split; [intros (n & [?|?] & ?); [by exists n|]|intros (n & ? & ?); exists n; auto]. destruct (Hn2 g' id). by exists n. }
    destruct (put_tombstones_node ms a g' id Ht) as [H3 H4]. case_decide as Hd; [apply H3|apply H4]; by rewrite Hnm.
  - assert (namesEdge ms g' id ↔ g' = g ∧ id ∈ boundEdges variables rows) as Hnm.
    { transitivity (namesEdge ms2 g' id); [|rewrite He2; unfold es; rewrite Horder, elem_of_elements; done]. unfold ms, namesEdge. setoid_rewrite elem_of_app.
      split; [intros (n & [?|?] & ?); [|by exists n]|intros (n & ? & ?); exists n; auto]. destruct (He1 g' id). by exists n. }
    destruct (put_tombstones_edge ms a g' id Ht) as [H3 H4]. case_decide as Hd; [apply H3|apply H4]; by rewrite Hnm.
Qed.

(** ** SET *)

Abbreviation eval := (evalPure FormatFloat (cf_Params cfg)).

Definition setPure (u : gmap bytes NodeRecord) (ri : bindingRow * SetItem) : gmap bytes NodeRecord :=
  match ri.1 !! si_Variable ri.2 with
  | Some (BNode n) => <[nd_NodeId n := with_Property (si_Property ri.2) (eval (si_Value ri.2) ri.1) (default (cloneNode n) (u !! nd_NodeId n))]> u
  | _ => u
  end.

(** The assignments of a clause in the order they are made, and those to one node. *)
Definition assignments (items : list SetItem) (rows : list bindingRow) : list (bindingRow * SetItem) := rows ≫= λ r, pair r <$> items.
Definition assignTo (id : bytes) (ri : bindingRow * SetItem) : option (bytes * Value) :=
  match ri.1 !! si_Variable ri.2 with
  | Some (BNode n) => if decide (nd_NodeId n = id) then Some (si_Property ri.2, eval (si_Value ri.2) ri.1) else None
  | _ => None
  end.
Definition assigned (id : bytes) (l : list (bindingRow * SetItem)) : list (bytes * Value) := omap (assignTo id) l.
Definition putAll (l : list (bytes * Value)) (props : gmap bytes Value) : gmap bytes Value := fold_left (λ m pv, <[pv.1 := pv.2]> m) l props.

Definition itemsPure (items : list SetItem) : Prop := Forall (λ i, noCalls (si_Value i) = true) items.

Lemma setOne_pure r item u (x : X) : noCalls (si_Value item) = true → setOne FormatFloat cfg r item u x = (Ok (setPure u (r, item)), x).
Proof. intros Hn. unfold setOne, setPure. cbn [fst snd]. destruct (r !! si_Variable item) as [[n|e|v]|]; try done. unfold bind, evalM. by rewrite evalScalar_pure. Qed.

Lemma set_updates items rows u (x : X) : itemsPure items →
  forFold (λ r u, forFold (setOne FormatFloat cfg r) items u) rows u x = (Ok (fold_left setPure (assignments items rows) u), x).
Proof.
  intros Hi. revert u. induction rows as [|r rows IH]; intros u; [done|]. cbn [forFold assignments mbind list_bind]. unfold bind.
  assert (∀ u, forFold (setOne FormatFloat cfg r) items u x = (Ok (fold_left setPure (pair r <$> items) u), x)) as Hrow.
  { clear IH u. induction Hi as [|i items Hi Hitems IH]; intros u; [done|]. cbn [forFold]. unfold bind. rewrite setOne_pure by done. apply IH. }
  rewrite Hrow. cbn beta iota. rewrite fold_left_app. apply IH.
Qed.

(** The record a clause writes for a node. *)
Definition setRecord (l : list (bytes * Value)) (n : NodeRecord) : NodeRecord :=
  mkNode (nd_GraphId n) (nd_NodeId n) (nd_Labels n) (putAll l (nd_Properties n)) None false.

Definition boundLive (a : AGraph) (ri : bindingRow * SetItem) : Prop :=
  ∀ v n, ri.1 !! v = Some (BNode n) → liveNode a g (nd_NodeId n) = Some n.

Lemma updates_spec a l : Forall (boundLive a) l →
  ∀ id, fold_left setPure l ∅ !! id = match assigned id l with [] => None | l' => setRecord l' <$> liveNode a g id end.
Proof.
  intros Hl. induction l as [|ri l IH] using rev_ind; intros id; [done|].
  apply Forall_app in Hl as [Hl [Hri _]%Forall_cons]. specialize (IH Hl). rewrite fold_left_app. cbn [fold_left].
  unfold assigned in *. rewrite omap_app. cbn [omap list_omap]. unfold setPure at 1, assignTo at 2.
  destruct (ri.1 !! si_Variable ri.2) as [[n|e|v]|] eqn:Er; [|by rewrite app_nil_r..].
  apply Hri in Er. destruct (decide (nd_NodeId n = id)) as [<-|Hne]; [|by rewrite lookup_insert_ne, app_nil_r].
  rewrite lookup_insert_eq, IH, Er. destruct (omap (assignTo (nd_NodeId n)) l) as [|pv l'] eqn:El; [done|].
  cbn [app fmap option_fmap option_map default]. f_equal. unfold with_Property, setRecord. cbn [nd_GraphId nd_NodeId nd_Labels nd_Properties nd_Version nd_Tombstone].
  f_equal. unfold putAll. change (pv :: l' ++ ?y) with ((pv :: l') ++ y). by rewrite fold_left_app.
Qed.

Lemma putUpdated_adds : adds (λ ver n, PNode (with_Version ver n)) (putUpdated cfg).
Proof. intros n b x. destruct (version_adds x) as (ver & x' & E & Hs). exists ver, x'. split; [|done]. unfold putUpdated, bind. by rewrite E. Qed.

(** The graph with the assigned properties: labels and other nodes and edges as they were. *)
Definition withAssigned (l : list (bindingRow * SetItem)) (a a' : AGraph) : Prop :=
  (∀ id, match assigned id l with
         | [] => liveNode a' g id = liveNode a g id
         | l' => ∃ n ver, liveNode a g id = Some n ∧ liveNode a' g id = Some (mkNode g id (nd_Labels n) (putAll l' (nd_Properties n)) ver false)
         end) ∧
  (∀ g' id, g' ≠ g → liveNode a' g' id = liveNode a g' id) ∧ (∀ g' id, liveEdge a' g' id = liveEdge a g' id).

Abbreviation keyOf := (λ n : NodeRecord, (nd_GraphId n, nd_NodeId n)).

Lemma live_own G P (s : L) a id n : gok G P s a → liveNode a g id = Some n → nd_GraphId n = g ∧ nd_NodeId n = id ∧ nd_Tombstone n = false.
Proof. intros [_ I] [Hst Ht]%liveNode_stored. apply (gi_nown _ _ _ _ _ I) in Hst as (? & ? & _). done. Qed.

(** The updated records, under their own ids. *)
Lemma updates_keys G P (s : L) a l : gok G P s a → Forall (boundLive a) l →
  let u := fold_left setPure l ∅ in
  (∀ n, n ∈ snd <$> map_to_list u ↔ ∃ id n0, liveNode a g id = Some n0 ∧ assigned id l ≠ [] ∧ n = setRecord (assigned id l) n0) ∧
  NoDup (keyOf <$> (snd <$> map_to_list u)).
Proof.
  intros Kok Hl u. assert (∀ id n, u !! id = Some n ↔ ∃ n0, liveNode a g id = Some n0 ∧ assigned id l ≠ [] ∧ n = setRecord (assigned id l) n0) as Hu.
  { intros id n. unfold u. rewrite (updates_spec a l Hl). destruct (assigned id l) as [|pv l']; [naive_solver|].
    rewrite fmap_Some. naive_solver. }
  split.
  - intros n. rewrite list_elem_of_fmap. split.
    + intros ([id n'] & -> & Hin%elem_of_map_to_list). apply Hu in Hin as (n0 & ?). eauto.
    + intros (id & n0 & Hn). exists (id, n). split; [done|]. apply elem_of_map_to_list, Hu. eauto.
  - rewrite <-list_fmap_compose. apply NoDup_fmap_2_strong; [|apply NoDup_map_to_list]. intros [id1 n1] [id2 n2] Hi1 Hi2 Ek. cbn in Ek. injection Ek as _ Ek.
    apply elem_of_map_to_list in Hi1, Hi2. f_equal; [|].
    + apply Hu in Hi1 as (m1 & L1 & _ & ->), Hi2 as (m2 & L2 & _ & ->). cbn in Ek.
      apply (live_own _ _ _ _ _ _ Kok) in L1 as (_ & <- & _), L2 as (_ & <- & _). done.
    + assert (id1 = id2) as <-; [|congruence]. apply Hu in Hi1 as (m1 & L1 & _ & ->), Hi2 as (m2 & L2 & _ & ->). cbn in Ek.
      apply (live_own _ _ _ _ _ _ Kok) in L1 as (_ & <- & _), L2 as (_ & <- & _). done.
Qed.

Lemma versioned (ns : list NodeRecord) (ms : list Mutation) :
  Forall2 (λ n m, ∃ ver, m = PNode (with_Version ver n)) ns ms →
  ∃ ns', ms = PNode <$> ns' ∧ keyOf <$> ns' = keyOf <$> ns ∧
    (∀ n', n' ∈ ns' → ∃ n ver, n ∈ ns ∧ n' = with_Version ver n) ∧ (∀ n, n ∈ ns → ∃ ver, with_Version ver n ∈ ns').
Proof.
  induction 1 as [|n m ns ms [ver ->] Hms (ns' & -> & Hk & Hin & Hin')].
  { exists []. split; [done|]. split; [done|]. split; intros n []%elem_of_nil. }
  exists (with_Version ver n :: ns'). split; [done|]. split; [cbn; by rewrite Hk|]. split.
  - intros n' [->|Hn]%elem_of_cons; [exists n, ver; split; [by left|done]|]. destruct (Hin n' Hn) as (n2 & v2 & ? & ->). exists n2, v2. split; [by right|done].
  - intros n' [->|Hn]%elem_of_cons; [exists ver; by left|]. destruct (Hin' n' Hn) as (v2 & ?). exists v2. by right.
Qed.

(** An assignment is to a live node. *)
Lemma assigned_live a l id : Forall (boundLive a) l → assigned id l ≠ [] → ∃ n, liveNode a g id = Some n.
Proof.
  intros Hl Hne. unfold assigned in Hne. destruct (omap (assignTo id) l) as [|pv l'] eqn:El; [done|].
  assert (pv ∈ omap (assignTo id) l) as Hp by (rewrite El; left).
  apply list_elem_of_omap in Hp as (ri & Hri & Ea). rewrite Forall_forall in Hl. specialize (Hl ri Hri). unfold assignTo in Ea.
  destruct (ri.1 !! si_Variable ri.2) as [[n|e|v]|] eqn:Er; try done. destruct (decide (nd_NodeId n = id)) as [<-|]; [|done]. exists n. by eapply Hl.
Qed.

(** The updated record of some bound node cannot be encoded. *)
Definition cannotSet (l : list (bindingRow * SetItem)) (a : AGraph) : Prop :=
  ∃ id n ver, liveNode a g id = Some n ∧ assigned id l ≠ [] ∧ EncodeNode (with_Version ver (setRecord (assigned id l) n)) = None.

Lemma set_ok items rows (x : X) G E a :
  let l := assignments items rows in
  gok G (stable E) (ex_Store x) a → itemsPure items → Forall (boundLive a) l →
  (∀ id n, liveNode a g id = Some n → assigned id l ≠ [] → mut_ok (PNode (setRecord (assigned id l) n))) →
  let '(r, x') := set FormatFloat rangeOrder cfg items rows x in
  match r with
  | Ok _ => ∃ a', gok G (stable E) (ex_Store x') a' ∧ withAssigned l a a'
  | Err _ => ex_Store x' = ex_Store x ∧ cannotSet l a
  end.
Proof.
  intros l Kok Hi Hl Hok. unfold set, bind. rewrite set_updates by done. fold l. destruct (updates_keys G _ _ a l Kok Hl) as [Hu Hnd].
  set (u := fold_left setPure l ∅) in *. set (ns := rangeOrder _ (snd <$> map_to_list u)).
  assert (∀ n, n ∈ ns ↔ ∃ id n0, liveNode a g id = Some n0 ∧ assigned id l ≠ [] ∧ n = setRecord (assigned id l) n0) as Hns.
  { intros n. unfold ns. by rewrite Horder. }
  destruct (forFold_adds _ _ ns [] x putUpdated_adds) as (ms & x1 & Hms & Hs1 & E1). cbn beta iota. rewrite E1. clear E1.
  destruct (versioned ns ms Hms) as (ns' & -> & Hk & Hin & Hin').
  assert (Forall mut_ok (PNode <$> ns')) as Hmok.
  { apply Forall_fmap, Forall_forall. intros n' (n & ver & (id & n0 & Hn0 & Hne & ->)%Hns & ->)%Hin. by apply (Hok id n0). }
  assert (gok G (stable E) (ex_Store x1) a) as K1 by (by rewrite Hs1).
  pose proof (commit_muts (PNode <$> ns') x1 G (stable E) a K1 Hmok) as Hc.
  destruct (lift (fold_left addMut (PNode <$> ns') (Ok []))) as [b|e] eqn:El.
  2: { split; [done|]. apply lift_err in El as [e' El]. destruct (refused (PNode <$> ns') (λ m, ∃ n', n' ∈ ns' ∧ m = PNode n') e') as (m & (n' & Hn' & ->) & He).
       - apply Forall_fmap, Forall_forall. eauto.
       - done.
       - destruct (Hin n' Hn') as (n & ver & (id & n0 & Hn0 & Hne & ->)%Hns & ->). exists id, n0, ver. split; [done|]. split; [done|].
         cbn [encodable] in He. apply bool_decide_eq_false in He. by apply eq_None_not_Some. }
  destruct Hc as (x2 & -> & K2); [apply Forall_fmap, Forall_forall; done|]. cbn beta iota.
  exists (fold_left absPut (PNode <$> ns') a). split; [done|].
  assert (NoDup (keyOf <$> ns')) as Hnd'. { rewrite Hk. unfold ns. by rewrite Horder. }
  assert (∀ g' id, assigned id l = [] ∨ g' ≠ g → liveNode (fold_left absPut (PNode <$> ns') a) g' id = liveNode a g' id) as Hold.
  { intros g' id Hcase. destruct (put_nodes ns' a g' id Hnd') as (_ & Hno & _). unfold liveNode. rewrite Hno; [done|].
    intros (n' & Ek & (n & ver & (id' & n0 & Hn0 & Hne & ->)%Hns & ->)%Hin)%list_elem_of_fmap. cbn in Ek. injection Ek as Eg Ei.
    apply (live_own _ _ _ _ _ _ Kok) in Hn0 as (E1 & E2 & _). subst. naive_solver. }
  split_and!.
  - intros id. destruct (assigned id l) as [|pv l'] eqn:Ea; [by apply Hold; left|].
    destruct (assigned_live a l id Hl) as [n0 Hn0]; [by rewrite Ea|].
    assert (setRecord (pv :: l') n0 ∈ ns) as [ver Hw]%Hin'. { apply Hns. exists id, n0. rewrite Ea. done. }
    pose proof (live_own _ _ _ _ _ _ Kok Hn0) as (E1 & E2 & _). exists n0, ver. split; [done|]. destruct (put_nodes ns' a g id Hnd') as (Hput & _).
    unfold liveNode. rewrite (Hput _ Hw) by (cbn; congruence). cbn. unfold with_Version, setRecord. cbn. by rewrite E1, E2.
  - intros g' id Hne. apply Hold. by right.
  - intros g' id. destruct (put_nodes ns' a g' id Hnd') as (_ & _ & He). unfold liveEdge. by rewrite He.
Qed.

(** ** Properties *)

(** The queries of every graph answer from the abstract graph. *)
Definition answersFrom (s : L) (a : AGraph) : Prop :=
  ∀ g', small g' → readsExact s a g' ∧ seeksExact s a g' ∧ adjacencyExact s a g'.

Lemma gok_answers E (s : L) a : gok (λ _, True) (stable E) s a → answersFrom s a.
Proof. intros Kok g' Hg'. split_and!; [by eapply gok_reads|by eapply gok_seeks|by eapply gok_adjacency]. Qed.

(** C16: DELETE. After any sequence of committed batches in which the ends of an edge never
    change under its id, deleting the variables of some rows leaves a graph of which every query
    answers as if exactly the bound nodes and edges were gone. It fails only when a tombstone
    cannot be encoded, and then changes nothing. *)
Theorem delete_exact (bs : list (list Mutation)) (s : L) (x : X) (E : bytes * bytes → bytes * bytes * bytes) (variables : list bytes) (rows : list bindingRow) :
  freshGraph s → Forall (Forall mut_ok) bs → Forall (Forall (edgeHolds (stable E))) bs → ex_Store x = fold_left runBatch bs s →
  small g → set_Forall small (boundNodes variables rows) → set_Forall small (boundEdges variables rows) →
  let '(r, x') := del rangeOrder cfg variables rows x in
  match r with
  | Ok _ => ∃ a', answersFrom (ex_Store x') a' ∧ withoutBound variables rows (fold_left absBatch bs emptyGraph) a'
  | Err _ => ex_Store x' = ex_Store x ∧ cannotDelete variables rows
  end.
Proof.
  intros Hf Hm HE Hx Hg Hn He. assert (gok (λ _, True) (stable E) (ex_Store x) (fold_left absBatch bs emptyGraph)) as Kok.
  { rewrite Hx. by apply runBatches_ok; [apply gok_fresh| |]. }
  pose proof (del_ok variables rows x _ E _ Kok Hg Hn He) as Hd. destruct (del _ _ _ _ _) as [[|e] x']; [|done].
  destruct Hd as (a' & Ka & Hw). exists a'. split; [by eapply gok_answers|done].
Qed.

(** C17: SET. After any sequence of committed batches in which the ends of an edge never change
    under its id, take a SET of expressions without function calls on rows that bind nodes to the
    records they have now, as the rows of a MATCH before any other write of the query do. It
    leaves a graph in which each bound node has the assigned properties, a later assignment
    winning, and everything else is as it was. It fails only when an updated record cannot be
    encoded, and then changes nothing. *)
Theorem set_exact (bs : list (list Mutation)) (s : L) (x : X) (E : bytes * bytes → bytes * bytes * bytes) (items : list SetItem) (rows : list bindingRow) :
  let l := assignments items rows in
  let a := fold_left absBatch bs emptyGraph in
  freshGraph s → Forall (Forall mut_ok) bs → Forall (Forall (edgeHolds (stable E))) bs → ex_Store x = fold_left runBatch bs s →
  itemsPure items → Forall (boundLive a) l →
  (∀ id n, liveNode a g id = Some n → assigned id l ≠ [] → mut_ok (PNode (setRecord (assigned id l) n))) →
  let '(r, x') := set FormatFloat rangeOrder cfg items rows x in
  match r with
  | Ok _ => ∃ a', answersFrom (ex_Store x') a' ∧ withAssigned l a a'
  | Err _ => ex_Store x' = ex_Store x ∧ cannotSet l a
  end.
Proof.
  intros l a Hf Hm HE Hx Hi Hl Hok. assert (gok (λ _, True) (stable E) (ex_Store x) a) as Kok.
  { rewrite Hx. by apply runBatches_ok; [apply gok_fresh| |]. }
  pose proof (set_ok items rows x _ E _ Kok Hi Hl Hok) as Hd. destruct (set _ _ _ _ _ _) as [[|e] x']; [|done].
  destruct Hd as (a' & Ka & Hw). exists a'. split; [by eapply gok_answers|done].
Qed.

End Write.

(** ** Concrete writes *)

Definition aliceRow : bindingRow := {[lit "n" := BNode alice]}.
Definition bobRow : bindingRow := {[lit "n" := BNode bob]}.

Lemma succeeds {Y S A} (r : res Y A * S) (P : S → Prop) (R : S → Prop) :
  (let '(r, x') := r in match r with Ok _ => P x' | Err _ => R x' end) →
  match r.1 with Ok _ => true | Err _ => false end = true → let '(r, x') := r in match r with Ok _ => P x' | Err _ => False end.
Proof. by destruct r as [[|] x']. Qed.

Lemma delete_exact_witness :
  let '(r, x') := del inOrder sampleConfig [lit "n"] [bobRow] (sampleExec peopleStore) in
  match r with
  | Ok _ => ∃ a', answersFrom (ex_Store x') a' ∧ withoutBound sampleConfig [lit "n"] [bobRow] (fold_left absBatch peopleBatches emptyGraph) a'
  | Err _ => False
  end.
Proof.
  assert (match (del inOrder sampleConfig [lit "n"] [bobRow] (sampleExec peopleStore)).1 with Ok _ => true | Err _ => false end = true) as Hr
    by (vm_compute; reflexivity).
  revert Hr. eapply succeeds.
  apply (delete_exact inOrder sampleConfig (λ A l, Permutation_refl l) peopleBatches NewMemStore (sampleExec peopleStore) sampleEnds [lit "n"] [bobRow]).
  - exact fresh_mem.
  - apply (bool_decide_unpack _). vm_compute. exact I.
  - apply (bool_decide_unpack _). vm_compute. exact I.
  - reflexivity.
  - apply (bool_decide_unpack _). vm_compute. exact I.
  - apply (bool_decide_unpack _). vm_compute. exact I.
  - apply (bool_decide_unpack _). vm_compute. exact I.
Defined.

Definition birthday : list SetItem := [mkSetItem (lit "n") (lit "age") (BinaryExpr (lit "+") (PropertyAccess (lit "n") (lit "age")) (LitInt 1))].

Lemma set_exact_witness :
  let '(r, x') := set noFloat inOrder sampleConfig birthday [aliceRow] (sampleExec peopleStore) in
  match r with
  | Ok _ => ∃ a', answersFrom (ex_Store x') a' ∧
      withAssigned noFloat sampleConfig (assignments birthday [aliceRow]) (fold_left absBatch peopleBatches emptyGraph) a'
  | Err _ => False
  end.
Proof.
  assert (match (set noFloat inOrder sampleConfig birthday [aliceRow] (sampleExec peopleStore)).1 with Ok _ => true | Err _ => false end = true) as Hr
    by (vm_compute; reflexivity).
  revert Hr. eapply succeeds.
  apply (set_exact noFloat inOrder sampleConfig (λ A l, Permutation_refl l) peopleBatches NewMemStore (sampleExec peopleStore) sampleEnds birthday [aliceRow]).
  - exact fresh_mem.
  - apply (bool_decide_unpack _). vm_compute. exact I.
  - apply (bool_decide_unpack _). vm_compute. exact I.
  - reflexivity.
  - repeat constructor.
  - constructor; [|constructor]. intros v n Hv. apply (lookup_singleton_Some (lit "n") v (BNode alice)) in Hv as [_ [= <-]]. apply (bool_decide_unpack _). vm_compute. exact I.
  - intros id n Hn Ha. destruct (decide (id = lit "alice")) as [->|Hne].
    + assert (liveNode (fold_left absBatch peopleBatches emptyGraph) (lit "g") (lit "alice") = Some alice) as Ea
        by (apply (bool_decide_unpack _); vm_compute; exact I).
      cbn [sampleConfig cf_GraphID] in Hn. rewrite Ea in Hn. injection Hn as <-. apply (bool_decide_unpack _). vm_compute. exact I.
    + destruct Ha. unfold assigned, assignments. cbn [mbind list_bind fmap list_fmap birthday app omap list_omap].
      unfold assignTo. cbn [fst snd si_Variable]. unfold aliceRow. rewrite lookup_singleton_eq, decide_False by (intros E; apply Hne; rewrite <-E; reflexivity). reflexivity.
Defined.

End CypherWrite.
