(* ===== verification/CypherDeviations.v ===== *)
(** * Queries that do not do what they say

    Concrete queries whose answer or effect differs from the documentation of the planner or
    from the meaning of the clause. *)

From Stdlib Require Import Floats.SpecFloat.
From S2P Require Import Prelude Bytes Hlc Version Conflict Storage Command Uvarint Float64 Graph GraphSpec GraphExact CypherSyntax CypherExec CypherMatch.

Local Open Scope Z_scope.

Module CypherDeviations.
Import Version Conflict Storage Command Float64 Graph GraphSpec GraphExact CypherSyntax CypherExec CypherMatch.

(** The error of a query, and a node afterwards. *)
Definition errorOf (s : MemStore) (q : bytes) : option (execErr unit) :=
  match Parse q with Ok cs => match (runQuery s cs).1 with Ok _ => None | Err e => Some e end | Err _ => None end.
Definition nodeAfter (s : MemStore) (id : bytes) : option NodeRecord := found (GetNode (lit "g") id s).

(** ** Writes *)

(** A second SET clause starts from the record the row was matched with: the property the
    first one wrote is gone. *)
Theorem second_set_loses_first :
  nodeAfter (storeAfter peopleStore (lit "MATCH (n:Admin) SET n.x = 1 SET n.y = 2")) (lit "bob") = Some bobY ∧ nd_Properties bobY !! lit "x" = None.
Proof. split; apply (bool_decide_unpack _); vm_compute; exact I. Qed.

(** RETURN after SET gives the old value. *)
Theorem set_not_returned :
  rowsOf peopleStore (lit "MATCH (n:Admin) SET n.x = 1 RETURN n.x") = Some [{[lit "n.x" := vNull]}].
Proof. apply (bool_decide_unpack _). vm_compute. exact I. Qed.

(** A query that fails in a SET has written: the property is null. *)
Theorem failed_set_commits :
  let q := lit "MATCH (n:Admin) SET n.x = no.such()" in
  errorOf peopleStore q = Some (ErrUnknownFunction (lit "no.such")) ∧ nodeAfter (storeAfter peopleStore q) (lit "bob") = Some bobNull.
Proof. split; [vm_compute; reflexivity|]. apply (bool_decide_unpack _). vm_compute. exact I. Qed.

(** The ids of created nodes start again with every clause: the second query overwrites the
    node of the first one. *)
Theorem generated_ids_collide :
  let s := storeAfter peopleStore (lit "CREATE (a {name: 'first'})") in
  nodeAfter s (lit "_n1") = Some firstNew ∧
  nodeAfter (storeAfter s (lit "CREATE (a {name: 'second'})")) (lit "_n1") = Some secondNew.
Proof. split; apply (bool_decide_unpack _); vm_compute; exact I. Qed.

(** A CREATE after a MATCH that found nothing creates all the same. *)
Theorem create_without_match :
  nodeAfter (storeAfter peopleStore (lit "MATCH (n:Ghost) CREATE (m {id: 'm'})")) (lit "m") = Some orphan.
Proof. apply (bool_decide_unpack _). vm_compute. exact I. Qed.

(** ** Reads *)

(** A negative limit is a slice out of range. *)
Theorem negative_limit_panics : errorOf peopleStore (lit "MATCH (n) RETURN n LIMIT -1") = Some ErrPanic.
Proof. vm_compute. reflexivity. Qed.

(** The end of a relationship is bound again when its variable is bound already: an edge
    between two people is found to lead from a node to itself. *)
Theorem expand_rebinds :
  rowsOf peopleStore (lit "MATCH (a:Person)-[:KNOWS]->(a) RETURN a") = Some [{[lit "a" := VString (lit "bob")]}].
Proof. apply (bool_decide_unpack _). vm_compute. exact I. Qed.

(** The label of the end of a relationship is ignored. *)
Theorem end_label_ignored :
  rowsOf peopleStore (lit "MATCH (a:Person)-[:KNOWS]->(b:Ghost) RETURN b") = Some [{[lit "b" := VString (lit "bob")]}].
Proof. apply (bool_decide_unpack _). vm_compute. exact I. Qed.

(** OPTIONAL MATCH drops the rows it has no match for. *)
Theorem optional_match_drops_rows :
  rowsOf peopleStore (lit "UNWIND [1] AS x OPTIONAL MATCH (n:Ghost) RETURN x") = Some [].
Proof. apply (bool_decide_unpack _). vm_compute. exact I. Qed.

(** The WHERE of a WITH is applied before the LIMIT written in front of it. *)
Theorem with_filters_before_limit :
  rowsOf peopleStore (lit "UNWIND [1, 2, 3] AS x WITH x LIMIT 1 WHERE x > 1 RETURN x") = Some [{[lit "x" := VInt 2]}].
Proof. apply (bool_decide_unpack _). vm_compute. exact I. Qed.

(** The collection procedures and functions are registered, but the parser accepts no call of
    a procedure outside vector and kv, and the set built-ins not at all: their name starts
    with the keyword SET. *)
Theorem collection_builtins_unreachable :
  is_Some (procedures sampleConfig noVector (lit "set.add")) ∧ is_Some (procedures sampleConfig noVector (lit "zset.add")) ∧
  is_Some (funcs (L:=MemStore) sampleConfig (lit "set.contains")) ∧
  Parse (lit "CALL set.add('flags', 'beta-users', 'u-42') YIELD added RETURN added") = Err ErrCallName ∧
  Parse (lit "CALL zset.add('scores', 'game-7', 'ada', 99) YIELD added RETURN added") = Err (ErrProcedureUnsupported (lit "zset.add")) ∧
  Parse (lit "UNWIND [1] AS x RETURN set.contains('flags', 'beta-users', 'u-42')") = Err (ErrExprKeyword (lit "SET")).
Proof. split; [by eexists|]. split; [by eexists|]. split; [by eexists|]. split; [|split]; vm_compute; reflexivity. Qed.

End CypherDeviations.
